(* ===== verification/_CoqProject ===== *)
-Q . S2P
Prelude.v
Radix.v
Text.v
CanonicalJson.v
Types.v
Anchors.v
SortedLists.v
Stats.v
Sampling.v
UriChunks.v
Uri.v
Entity.v
EntityInvariant.v
EntityView.v
EntityMerge.v
EntityPostings.v
EntityRelease.v
EntityCapacity.v
EntityRetain.v
Load.v
Outcome.v
Float.v
NameBounds.v
NameIndex.v
NameIndexFacts.v
NameScore.v
NameScoreFacts.v
NameAtoms.v
Name.v
NameAtomsFacts.v
NameLogical.v
NameCounts.v
NameFacts.v
Events.v
Graph.v
TarjanFacts.v
GraphFacts.v
Evidence.v
EvidenceFacts.v
Relations.v
Attribution.v
AttributionFacts.v
Behavior.v
LayeredFacts.v
DetectorFacts.v
SaturatedSums.v
Propagation.v
Lifecycle.v
Economics.v
Candidate.v
Reducer.v
Reduction.v
Scheduler.v
Executor.v
ExecutorRuns.v
ShardSeal.v
CandidateStream.v
RegistryFacts.v
Projector.v
ProjectorFacts.v
ValuePools.v
Fallible.v
Seeds.v
AnalysisJson.v
Builder.v
Resident.v
ResidentLoad.v
AnchorRows.v
PrepareFacts.v
Prepared.v
Loaded.v
Preparation.v
Profiles.v
StoreContracts.v
StoreFacts.v
StoreLoad.v
UriQuery.v
UriIndexFacts.v
UriQueryFacts.v
