(* ===== verification/Prelude.v ===== *)
(** Verification of the NFT deduplication and analysis pipeline.

    The repository holds four Rust programs that share one design: read snapshots of
    NFT metadata, find contracts whose names, URIs or metadata duplicate those of
    others, collect evidence on the candidates and analyse it. The development models
    the current deduplicator ([dedup/crates/core], files of [D = dedup/crates/core/src])
    and the candidate analysis ([analysis], files of [A = analysis/src]).

    * Parts and correspondence

    A definition keeps the name of its source, and the manifest names the lines of each
    one. Files named [...Facts], and those listed as such below, hold proofs only.

    - [Text], [SortedLists], [Float], [Outcome]: what the code uses of Rust and its
      standard library. A [str] is a list of scalar values, compared and measured as
      UTF-8; sorts are stable; [f64] is a rational rounded to 53 bits; a fallible
      operation is a value of [outcome] (returned, failed, panicked) or an [option]
      where the only failure is a panic.
    - [Radix] (D/radix.rs): the LSD radix sort, sequential and parallel; the threads of
      a pass are explicit interleavings of their writes.
    - [CanonicalJson] (D/metadata/canonical_json.rs): the canonical text of a JSON
      document.
    - [Types] (D/entity.rs, scope.rs, error.rs), [Anchors], [Entity]: the entity store;
      [EntityInvariant], [EntityView], [EntityMerge], [EntityPostings], [EntityRelease],
      [EntityCapacity] and [EntityRetain] prove that it implements a map from (chain,
      contract, token) to texts, in every operation and on every error.
    - [Load] (D/parquet.rs): reading files into shards and merging them.
    - [Stats] (D/stats.rs), [Sampling] (D/sampling.rs): the counters and the samples per
      report scope.
    - [UriChunks], [Uri] (D/uri.rs): the URI stage.
    - [NameAtoms], [NameBounds], [NameIndex], [NameScore], [Name] (D/name/mod.rs,
      D/name/candidate_bounds.rs): the name stage, from the store to the counters;
      [NameAtomsFacts], [NameLogical], [NameCounts] and the [Facts] files prove it.
    - [Events] (A/model/identity.rs, evidence.rs, matching.rs, report.rs): events,
      chains, keys and selections of the analysis.
    - [Evidence], [EvidenceFacts] (A/analysis/mod.rs): normalization of a candidate's
      evidence.
    - [Graph], [TarjanFacts], [GraphFacts] (A/analysis/propagation.rs): the propagation
      graph and its strongly connected components.
    - [Relations] (A/analysis/legit_duplicate.rs): the labels of relations.
    - [Attribution], [AttributionFacts] (A/analysis/attribution.rs): roles of addresses,
      the evidence recorded for them, and the address sets by role.
    - [SaturatedSums]: saturating sums.
    - [Behavior] (A/analysis/behavior.rs): the detectors of suspicious behaviours;
      [LayeredFacts] and [DetectorFacts] prove them.
    - [Propagation] (A/analysis/propagation.rs, [analyze]): the propagation summary.
    - [Lifecycle] (A/analysis/lifecycle.rs): first times and early signals.
    - [Economics] (A/analysis/economics.rs): amounts, losses and gas; the traversal order of the gas map is a parameter.
    - [Candidate] (A/analysis/mod.rs, quality.rs): the analyses of a candidate put together, and its honest buyers.
    - [Reducer] (A/dedup/reducer.rs, dedup/mod.rs, the catalog of resident/store.rs),
      proved in [Reduction]: hits reduced to relations.
    - [Scheduler] (A/pipeline/scheduler.rs) and [Executor] (A/pipeline/cpu_executor.rs),
      proved in [ExecutorRuns]: the weighted queue of tasks, and the
      life of a task as a step relation.
    - [ShardSeal] (A/pipeline/shard_seal.rs): batches of seeds on any threads, every
      atomic operation a step.
    - [CandidateStream] (A/pipeline/coordinator.rs, candidate_registry.rs), proved in
      [RegistryFacts]: relations streamed in batches to the
      registry of candidates.
    - [Projector], proved in [ProjectorFacts] (A/analysis/relation_projector.rs): the
      facts of a candidate projected to its relations, with their cache.
    - [Fallible] (A/error.rs): results, errors and panics of the resident store.
    - [ValuePools] (A/resident/value_pools.rs): interned strings.
    - [AnalysisJson] (A/resident/metadata_index.rs): the canonical text of a metadata
      document, with the proof that it is the deduplicator's.
    - [Builder] (A/resident/builder.rs, model/snapshot.rs): rows are pushed, merged,
      sorted, joined by NFT and given their documents in a second pass. [AnchorRows]
      proves the second pass, [PrepareFacts], [Prepared] and [Preparation] the
      preparation and its contracts; [Loaded] says what a builder has read.
    - [Resident] (A/resident/store.rs and the end of builder.rs): the tables of the store.
      [Profiles] proves its metadata profiles, [StoreContracts] its names and contracts,
      [StoreFacts] the rest.
    - [ResidentLoad] (A/input/parquet.rs): rows go to the builders of their shards under
      any schedule of the workers, the builders are merged, prepared, given documents and
      finished; proved in [Loaded] and [StoreLoad].
    - [Seeds] (A/seed/manifest.rs, A/seed/selector.rs): the manifest of the contracts
      whose copies are looked for, validated and selected.
    - [UriQuery] (A/resident/query_plan.rs, uri_index.rs, A/dedup/uri.rs and the URI stage
      of [execute_dedup] in A/pipeline/coordinator.rs): the queries of the seeds, the
      index of the URIs of seeds, the hits in a shard and the stage on all lanes.
      [UriIndexFacts] proves the index, [UriQueryFacts] the queries and the stage.

    The parts interact as the code calls them. [Load] fills [Entity]; [Uri] and [Name]
    read the store and write into [Stats], which calls [Sampling]; [Radix] orders the
    postings, the assignments and the name tokens. In the analysis, [Evidence] prepares
    the events from which [Graph] is built, and the components of the graph are what
    attribution and behaviours look at. Interfaces are type classes: [CompareLaws] and
    [CompareEq] (an [Ord] implementation), [JsonLibrary], [Sha256], [UnstableSort],
    [Observer] and the classes of [Load] and [NameScore] for code outside the
    repository, [FloatOrder] and [MapOrder] (the order of a hash map's entries), each
    instantiated by a concrete function in the witnesses. [StoreLoad] states what the
    loaded store is ([stored]); [UriQueryFacts] states what the URI stage needs of a store
    ([uri_store]) and proves that a loaded store has it.

    * Theorems

    - Radix and index structures: sorting is a permutation into order, stable where the
      code relies on it, for any number of threads and any schedule; every slot of a
      buffer is written once; binary searches end at the least position.
    - Stores: invariants preserved by every operation, refinement of maps, insertion
      order kept, ids bounded, no panic on any input.
    - Stages: the counters are the numbers of distinct contracts and NFTs in duplicate
      groups, whatever the schedule; candidate bounds lose no pair in rounded
      arithmetic; samples do not depend on the split of the work.
    - Text: canonical texts do not depend on key order or spelling, and denote the
      value of the source.
    - Analysis: normalization is complete, loses nothing and is a fixed point; Tarjan's
      iteration ends and returns the strongly connected components.
      Relations are labelled by all that was collected for their seed; addresses get the
      role that their operations, purchases and sale cycles call for, and the recorded
      evidence alone explains it.
      The analysis of any evidence returns: the backtracking search ends and is
      complete, the counts of behaviours are the numbers of their instances, amounts are
      saturating totals of per-event contributions in any order, gas counts once per
      transaction, lifecycles hold least times, and the honest buyers are the victims
      that still hold an NFT.
      Hits reduce to the same relations in whatever order and through whatever
      accumulators they come; the relations of failed seeds are found by the seal, each
      candidate reaches the registry once with all its relations, and the cached
      projection is the direct one. Of the tasks none is lost, starved or run twice, and
      no lane is idle while it has tasks.
      Loading rows and documents never panics and returns the store of exactly these
      rows: pools hold distinct strings under stable numbers, every NFT keeps its first
      row, contracts are runs of rows and keep as anchors their first rows with a
      document in whatever order the documents come, names are the most frequent ones,
      and contracts share a profile exactly when their anchors are the same.
      A manifest of seeds is accepted exactly when it has every rank of every chain once
      and no contract twice. On every store that loading returns, the URI stage ends, and
      its relations are the reduction of the hits that a search through all NFTs finds,
      whatever the lanes, the folds and the order of hash maps.

    * Bounds and fuel

    A loop that is not structural takes fuel, and a theorem shows that the fuel chosen
    suffices: binary searches take the length of the slice, [visit_loop] the number of
    vertices and edges (each vertex is discovered and each edge followed once),
    [chunks_fuel] the length of the list. Machine integers are [Z] with their
    wrap-around or saturation written out ([+w], [+s], [saturating_add128]) and [nat]
    where the value indexes memory. Counters that the code adds to without a check wrap
    in a release build; theorems state when they do not.

    * Not modelled, and why

    - D/metadata/direct.rs and bm25.rs (similarity of metadata documents): the largest
      part of the deduplicator and the next to model; so far only the canonical text
      and the anchors it reads are.
    - Everything whose content is input and output: command lines, progress reports,
      HTTP clients ([A/api]), DuckDB and report writers ([reporting], [store]), the
      Python scripts under run/, sample_images.rs.
    - The scheduling of requests ([A/pipeline/orchestrator.rs]), the name and metadata
      stages of execute_dedup with their indexes (name_index.rs, the BM25 index of
      metadata_index.rs, on floating-point numbers), the checks of input files
      ([A/input/validate.rs]), the decoding of Parquet files, the limits and estimates of
      memory of [A/input/parquet.rs], the rayon pools and the pinning of threads, and the
      programs [analysis2] and [top_contract_analysis_rs], predecessors and successors
      of the same algorithms.
    - Inside the modelled parts: the exponent range of [f64] (values stay far inside it)
      and negative values (they round to 0 in [Float], and the bounds only compare
      non-negative ones); the iteration order of hash maps and the schedules of rayon,
      which are parameters or do not influence the result; cancellation, which is a
      parameter that answers each check, except that a lane that is cancelled stops at
      once; shared pointers, which are their values.

    * What is left

    In the order of their weight: the metadata stage of the deduplicator (bm25.rs, the
    block index of direct.rs), the indexes of names and metadata over the resident store,
    and the scopes of the reports of [analysis]. *)

From stdpp Require Export prelude gmap strings sorting.
From Stdlib Require Export ZArith Lia Bool.

Declare Scope nft_scope.
Delimit Scope nft_scope with nft.

(** ** Machine integers *)

Definition u64_modulus : Z := 2 ^ 64.
Definition u64_max : Z := 2 ^ 64 - 1.
Definition u32_modulus : Z := 2 ^ 32.

Definition wrapping_add64 (a b : Z) : Z := ((a + b) mod 2 ^ 64)%Z.
Definition saturating_add64 (a b : Z) : Z := Z.min (a + b) (2 ^ 64 - 1).

Notation "a +w b" := (wrapping_add64 a b) (at level 50, left associativity) : nft_scope.
Notation "a +s b" := (saturating_add64 a b) (at level 50, left associativity) : nft_scope.

(** [usize::div_ceil] *)
Definition div_ceil (a b : nat) : nat := (a + (b - 1)) / b.

Lemma div_ceil_spec a b : 0 < b → a ≤ div_ceil a b * b ∧ (0 < a → (div_ceil a b - 1) * b < a).
Proof.
  intros Hb. unfold div_ceil. pose proof (Nat.div_mod (a + (b - 1)) b ltac:(lia)) as Hd.
  pose proof (Nat.mod_upper_bound (a + (b - 1)) b ltac:(lia)).
  set (q := (a + (b - 1)) / b) in *. split; [nia|]. intros Ha. destruct q; nia.
Qed.

(** ** Tactics *)

(** Case on the innermost [match] scrutinee of the goal. *)
Ltac split_match :=
  match goal with
  | |- context [match ?x with _ => _ end] =>
      lazymatch x with
      | context [match _ with _ => _ end] => fail
      | _ => destruct x eqn:?
      end
  end.

(** Unfold one step of the option monad in hypotheses. *)
Ltac inv_option :=
  repeat match goal with
  | H : mbind _ _ = Some _ |- _ => apply bind_Some in H as (? & ? & ?)
  | H : Some _ = Some _ |- _ => injection H as H
  | H : None = Some _ |- _ => discriminate H
  end; simplify_eq.

Create HintDb nft.

(** A loop that threads a state and may panic. *)
Fixpoint foldM {A B} (f : B → A → option B) (b : B) (l : list A) : option B :=
  match l with
  | [] => Some b
  | x :: l => b' ← f b x; foldM f b' l
  end.

(** ** Slices, buffers and write sequences *)

Section Slices.
Context {A : Type}.
Implicit Types (l buf : list A) (ws : list (nat * A)).

(** [buf[i] = x]: [None] is the panic of an out-of-range index. *)
Definition store buf (i : nat) (x : A) : option (list A) :=
  if decide (i < length buf) then Some (<[i := x]> buf) else None.

(** A sequence of indexed writes, in order. *)
Fixpoint run_writes buf ws : option (list A) :=
  match ws with
  | [] => Some buf
  | (i, x) :: rest => buf' ← store buf i x; run_writes buf' rest
  end.

(** [slice::chunks(size)] for a positive [size]; [fuel] bounds the number
    of chunks, and [length l] is always enough. *)
Fixpoint chunks_fuel (fuel size : nat) l : list (list A) :=
  match fuel, l with
  | S fuel, _ :: _ => take size l :: chunks_fuel fuel size (drop size l)
  | _, _ => []
  end.

Definition chunks (size : nat) l : list (list A) := chunks_fuel (length l) size l.

Lemma chunks_fuel_concat fuel size l :
  0 < size → length l ≤ fuel → mjoin (chunks_fuel fuel size l) = l.
Proof.
  intros Hs. revert l. induction fuel as [|fuel IH]; intros [|x l] Hl; simpl in *;
    [done | lia | done |].
  rewrite IH by (rewrite length_drop; simpl; lia).
  apply take_drop.
Qed.

Lemma chunks_concat size l : 0 < size → mjoin (chunks size l) = l.
Proof. intros. by apply chunks_fuel_concat. Qed.

Lemma chunks_fuel_div fuel size l :
  0 < size → length l ≤ fuel → length (chunks_fuel fuel size l) = (length l + (size - 1)) / size.
Proof.
  intros Hs. revert l. induction fuel as [|fuel IH]; intros l Hl.
  - destruct l; simpl in *; [|lia]. symmetry. apply Nat.div_small. lia.
  - destruct l as [|x l]; simpl chunks_fuel; [symmetry; apply Nat.div_small; simpl; lia|].
    cbn [length]. rewrite IH by (rewrite length_drop; simpl in *; lia).
    rewrite length_drop. simpl length. generalize (length l). intros n.
    destruct (decide (size ≤ S n)) as [Hle|Hgt].
    + replace (S n + (size - 1)) with (S n - size + (size - 1) + 1 * size) by lia.
      rewrite Nat.div_add by lia. lia.
    + replace (S n - size + (size - 1)) with (size - 1) by lia.
      rewrite Nat.div_small by lia.
      replace (S n + (size - 1)) with (n + 1 * size) by lia.
      rewrite Nat.div_add, Nat.div_small by lia. lia.
Qed.

Lemma length_chunks size l :
  0 < size → length (chunks size l) = (length l + (size - 1)) / size.
Proof. intros. by apply chunks_fuel_div. Qed.

Lemma store_Some buf i x : i < length buf → store buf i x = Some (<[i := x]> buf).
Proof. intros. unfold store. by rewrite decide_True. Qed.

(** If every write stores the value that the target list has at its index,
    and together the writes cover the buffer, their order is irrelevant. *)
Lemma run_writes_target ws buf target :
  length buf = length target →
  Forall (λ w, target !! w.1 = Some w.2) ws →
  (∀ i, i < length target → i ∈ ws.*1 ∨ buf !! i = target !! i) →
  run_writes buf ws = Some target.
Proof.
  revert buf. induction ws as [|[i x] ws IH]; intros buf Hlen Hws Hcov; simpl.
  - f_equal. apply list_eq_same_length with (length target); [done..|].
    intros i y z Hi Hy Hz. destruct (Hcov i Hi) as [Hin|Heq]; [by apply elem_of_nil in Hin|].
    congruence.
  - apply Forall_cons in Hws as [Hx Hws]. simpl in Hx.
    pose proof (lookup_lt_Some _ _ _ Hx) as Hi.
    rewrite store_Some by lia. simpl. apply IH; [by rewrite length_insert | done |].
    intros j Hj. destruct (decide (i = j)) as [->|Hne].
    { right. rewrite list_lookup_insert_eq; [done | lia]. }
    rewrite list_lookup_insert_ne by done.
    destruct (Hcov j Hj) as [Hin|]; [|by right].
    rewrite fmap_cons, elem_of_cons in Hin. destruct Hin as [->|]; [done | by left].
Qed.
End Slices.

Lemma mjoin_cons {A} (x : list A) l : mjoin (x :: l) = x ++ mjoin l.
Proof. done. Qed.

Lemma bind_one {A B} (f : A → list B) (x : A) : [x] ≫= f = f x.
Proof. apply app_nil_r. Qed.

(** ** Distinct keys *)

Lemma NoDup_fmap_elem {A B} (f : A → B) (l : list A) x y :
  NoDup (f <$> l) → x ∈ l → y ∈ l → f x = f y → x = y.
Proof.
  intros Hnd [i Hi]%list_elem_of_lookup_1 [j Hj]%list_elem_of_lookup_1 Heq.
  assert (i = j) as ->; [|congruence]. eapply NoDup_lookup; [exact Hnd|..].
  - by rewrite list_lookup_fmap, Hi.
  - rewrite list_lookup_fmap, Hj. cbn. by rewrite Heq.
Qed.

(** ** Monadic folds *)

Lemma foldM_app {A B} (f : B → A → option B) b l1 l2 :
  foldM f b (l1 ++ l2) = foldM f b l1 ≫= λ b, foldM f b l2.
Proof. revert b. induction l1 as [|x l1 IH]; intros b; simpl; [done|]. destruct (f b x); simpl; [apply IH|done]. Qed.

(** ** Filters *)

Section Filters.
Context {A : Type} (P : A → Prop) `{!∀ x, Decision (P x)}.
Implicit Types (l : list A).

Lemma filter_none l : (∀ x, x ∈ l → ¬ P x) → filter P l = [].
Proof.
  induction l as [|x l IH]; intros Hl; [done|].
  rewrite filter_cons_False by (apply Hl; set_solver). apply IH. set_solver.
Qed.

Lemma filter_fmap {B} (f : B → A) (l : list B) : filter P (f <$> l) = f <$> filter (λ x, P (f x)) l.
Proof.
  induction l as [|x l IH]; [done|]. rewrite fmap_cons, !filter_cons.
  destruct (decide (P (f x))); [rewrite fmap_cons; by f_equal|done].
Qed.

Lemma lookup_filter_split l k v :
  filter P l !! k = Some v →
  ∃ l1 l2, l = l1 ++ v :: l2 ∧ k = length (filter P l1) ∧ P v.
Proof.
  revert k. induction l as [|x l IH]; intros k; [done|].
  rewrite filter_cons. case_decide as HP; [destruct k as [|k]; simpl|]; intros Hk.
  - simplify_eq. by exists [], l.
  - destruct (IH _ Hk) as (l1 & l2 & -> & -> & Hv). exists (x :: l1), l2.
    by rewrite filter_cons_True.
  - destruct (IH _ Hk) as (l1 & l2 & -> & -> & Hv). exists (x :: l1), l2.
    by rewrite filter_cons_False.
Qed.

Lemma StronglySorted_filter (R R' : A → A → Prop) l :
  (∀ x y, P x → P y → R x y → R' x y) →
  StronglySorted R l → StronglySorted R' (filter P l).
Proof.
  intros HR. induction 1 as [|x l Hl IH Hx]; [constructor|].
  rewrite filter_cons. case_decide as HP; [|done]. constructor; [done|].
  rewrite Forall_forall in *. intros y [Hy Hin]%list_elem_of_filter. auto.
Qed.

End Filters.

Lemma filter_all {A} (P : A → Prop) `{!∀ x, Decision (P x)} (l : list A) : (∀ x, x ∈ l → P x) → filter P l = l.
Proof.
  induction l as [|x l IH]; intros Hl; [done|]. rewrite filter_cons_True by (apply Hl; by left). f_equal. apply IH.
  intros y Hy. apply Hl. by right.
Qed.

(** ** Interleavings of sequential threads *)

Section Interleaving.
Context {A : Type}.

(** [interleaving ts l]: [l] is one global order of the steps of the
    threads [ts], each thread's own steps kept in order. *)
Inductive interleaving : list (list A) → list A → Prop :=
| interleaving_done ts : Forall (λ t, t = []) ts → interleaving ts []
| interleaving_step ts i x t l :
    ts !! i = Some (x :: t) →
    interleaving (<[i := t]> ts) l →
    interleaving ts (x :: l).

Lemma concat_nils (ts : list (list A)) : Forall (λ t, t = []) ts → mjoin ts = [].
Proof. induction 1 as [|t ts -> _ IH]; done. Qed.

Lemma concat_pick (ts : list (list A)) i x t :
  ts !! i = Some (x :: t) → mjoin ts ≡ₚ x :: mjoin (<[i := t]> ts).
Proof.
  revert i. induction ts as [|u ts IH]; intros [|i] Hi; simplify_eq/=; [done|].
  rewrite (IH i Hi). symmetry. apply Permutation_middle.
Qed.

Lemma interleaving_Permutation ts l : interleaving ts l → l ≡ₚ mjoin ts.
Proof.
  induction 1 as [ts Hts | ts i x t l Hi _ IH].
  - by rewrite concat_nils.
  - by rewrite (concat_pick _ _ _ _ Hi), IH.
Qed.

Lemma interleaving_nil_cons ts l : interleaving ts l → interleaving ([] :: ts) l.
Proof.
  induction 1 as [ts Hts | ts i x t l Hi _ IH]; [by constructor; constructor|].
  by apply interleaving_step with (S i) t.
Qed.

(** Running the threads one after the other is one interleaving. *)
Lemma interleaving_concat ts : interleaving ts (mjoin ts).
Proof.
  induction ts as [|t ts IH]; [by constructor|].
  induction t as [|x t IHt]; simpl in *; [by apply interleaving_nil_cons|].
  by apply interleaving_step with 0 t.
Qed.
End Interleaving.

(** ** Bits *)

Lemma land_bit w n : (0 ≤ n)%Z → negb (Z.land w (Z.shiftl 1 n) =? 0)%Z = Z.testbit w n.
Proof.
  intros Hn. rewrite Z.shiftl_1_l. destruct (Z.testbit w n) eqn:E.
  - apply negb_true_iff, Z.eqb_neq. intros Hz. apply (f_equal (λ z, Z.testbit z n)) in Hz. rewrite Z.land_spec, Z.pow2_bits_true, Z.testbit_0_l, E in Hz by lia. done.
  - apply negb_false_iff, Z.eqb_eq. apply Z.bits_inj'. intros i Hi. rewrite Z.land_spec, Z.pow2_bits_eqb, Z.testbit_0_l by lia.
    destruct (Z.eqb_spec n i) as [<-|]; [by rewrite E|by rewrite andb_false_r].
Qed.
