(* ===== verification/Radix.v ===== *)
(** [dedup/crates/core/src/radix.rs]: the LSD radix sort, sequential and
    parallel, that orders postings, name tokens and assignments.

    [Section Passes] models one counting pass in its three forms, [Section
    Sort] the multi-pass driver with its cancellation callback, and the rest
    the digit functions and the typed entry points.  Array indexing panics
    and out-of-range raw writes are [None]. *)

From S2P Require Import Prelude.

Definition RADIX_BITS : Z := 11.
Definition RADIX_SIZE : nat := Z.to_nat (Z.shiftl 1 RADIX_BITS).
Definition RADIX_MASK : Z := Z.of_nat RADIX_SIZE - 1.
Definition PARALLEL_RADIX_MIN_LEN : nat := Z.to_nat (32 * 1024).

(** ** Counting passes *)

Section Passes.
Context {T : Type}.
Implicit Types (source destination : list T) (digit : T → nat) (counts : list nat).

(** [counts[i] += 1] *)
Definition bump counts (i : nat) : option (list nat) :=
  c ← counts !! i; Some (<[i := S c]> counts).

(** [for &value in source { counts[digit(value)] += 1; }] *)
Fixpoint count_digits digit source counts : option (list nat) :=
  match source with
  | [] => Some counts
  | value :: rest => counts' ← bump counts (digit value); count_digits digit rest counts'
  end.

(** The running-offset loop that turns counts into start positions. *)
Fixpoint exclusive_sums (offset : nat) counts : list nat :=
  match counts with
  | [] => []
  | count :: rest => offset :: exclusive_sums (offset + count) rest
  end.

(** The scatter loop; [put] is the slot constructor of the destination. *)
Fixpoint scatter {S} (put : T → S) digit source (destination : list S) counts
    : option (list S * list nat) :=
  match source with
  | [] => Some (destination, counts)
  | value :: rest =>
      let bucket := digit value in
      position ← counts !! bucket;
      destination' ← store destination position (put value);
      counts' ← bump counts bucket;
      scatter put digit rest destination' counts'
  end.

Definition counting_pass source destination digit counts : option (list T * list nat) :=
  counts' ← count_digits digit source (replicate (length counts) 0);
  scatter id digit source destination (exclusive_sums 0 counts').

(** The same pass over uninitialised slots: [None] is an unwritten slot. *)
Definition counting_pass_uninit source (destination : list (option T)) digit counts
    : option (list (option T) * list nat) :=
  counts' ← count_digits digit source (replicate (length counts) 0);
  scatter Some digit source destination (exclusive_sums 0 counts').

(** Reading the buffer back is defined only when every slot was written. *)
Definition assume_init_vec (values : list (option T)) : option (list T) := mapM id values.

(** Zipping a mutable slice with an iterator: surplus cells keep their value. *)
Fixpoint zip_cells {B C} (f : C → option B) (cells : list B) (xs : list C)
    : option (list B) :=
  match cells, xs with
  | _ :: cells, x :: xs => b ← f x; bs ← zip_cells f cells xs; Some (b :: bs)
  | _, _ => Some cells
  end.

(** The parallel counting phase: worker [i] counts chunk [i]. *)
Definition count_chunks digit (cells : list (list nat)) (parts : list (list T))
    : option (list (list nat)) :=
  zip_cells (λ part, count_digits digit part (replicate RADIX_SIZE 0)) cells parts.

(** [bucket_offsets]: start of every bucket over all chunks. *)
Definition bucket_offsets (local_counts : list (list nat)) : list nat :=
  exclusive_sums 0
    (map (λ bucket, sum_list (map (λ counts, counts !!! bucket) local_counts))
         (seq 0 RADIX_SIZE)).

(** [chunk_offsets]: start of every bucket for each chunk in turn. *)
Fixpoint chunk_starts (next : list nat) (cells local_counts : list (list nat))
    : list (list nat) :=
  match cells, local_counts with
  | _ :: cells, counts :: rest => next :: chunk_starts (zip_with Nat.add next counts) cells rest
  | _, _ => cells
  end.

(** The writes of one worker, in its own order. *)
Fixpoint chunk_writes digit (chunk : list T) (cursors : list nat) : option (list (nat * T)) :=
  match chunk with
  | [] => Some []
  | value :: rest =>
      let bucket := digit value in
      position ← cursors !! bucket;
      cursors' ← bump cursors bucket;
      ws ← chunk_writes digit rest cursors';
      Some ((position, value) :: ws)
  end.

Fixpoint all_chunk_writes digit (parts : list (list T)) (offsets : list (list nat))
    : option (list (list (nat * T))) :=
  match parts, offsets with
  | part :: parts, start :: offsets =>
      ws ← chunk_writes digit part start;
      rest ← all_chunk_writes digit parts offsets;
      Some (ws :: rest)
  | _, _ => Some []
  end.

Definition uninit_write (w : nat * T) : nat * option T := (w.1, Some w.2).

(** The per-worker write sequences of a parallel pass, with the reused
    count and offset tables it leaves behind. *)
Definition parallel_writes source digit (chunk_size : nat)
    (local_counts chunk_offsets : list (list nat))
    : option (list (list (nat * T)) * list (list nat) * list (list nat)) :=
  let parts := chunks chunk_size source in
  local_counts' ← count_chunks digit local_counts parts;
  let chunk_offsets' := chunk_starts (bucket_offsets local_counts') chunk_offsets local_counts' in
  ws ← all_chunk_writes digit parts chunk_offsets';
  Some (ws, local_counts', chunk_offsets').
End Passes.

(** The order in which the thread pool performs the workers' writes is not
    the program's: any interleaving of the workers is possible. *)
Class WriteSchedule (T : Type) := {
  schedule : list (list (nat * T)) → list (nat * T);
  schedule_interleaves : ∀ workers, interleaving workers (schedule workers);
}.

#[export] Instance sequential_schedule T : WriteSchedule T := {|
  schedule := mjoin;
  schedule_interleaves := interleaving_concat;
|}.

(** ** The multi-pass driver *)

Section Sort.
Context {T : Type} `{WriteSchedule T}.
(** [rayon::current_num_threads()] *)
Context (num_threads : nat).
(** The state captured by the [FnMut() -> bool] callback. *)
Context {St : Type}.
Implicit Types (source destination values : list T) (digits : nat → T → nat).

Definition parallel_counting_pass source (output : list (option T)) (digit : T → nat)
    (chunk_size : nat) (local_counts chunk_offsets : list (list nat))
    : option (list (option T) * list (list nat) * list (list nat)) :=
  '(workers, local_counts', chunk_offsets') ←
    parallel_writes source digit chunk_size local_counts chunk_offsets;
  output' ← run_writes output (map uninit_write (schedule workers));
  Some (output', local_counts', chunk_offsets').

(** The buffers one call owns: the reused tables of the parallel passes. *)
Record tables := { local_counts : list (list nat); chunk_offsets : list (list nat) }.

(** One pass from [source] into a buffer of slots. *)
Definition run_pass (parallel : bool) (chunk_size : nat) (digit : T → nat) source
    (slots : list (option T)) (tbl : tables) : option (list T * tables) :=
  if parallel then
    '(output, lc, co) ←
      parallel_counting_pass source slots digit chunk_size (local_counts tbl) (chunk_offsets tbl);
    result ← assume_init_vec output;
    Some (result, {| local_counts := lc; chunk_offsets := co |})
  else
    '(output, _) ← counting_pass_uninit source slots digit (replicate RADIX_SIZE 0);
    result ← assume_init_vec output;
    Some (result, tbl).

(** A later pass, into the initialised buffer of two passes ago. *)
Definition run_pass_init (parallel : bool) (chunk_size : nat) (digit : T → nat)
    source destination (tbl : tables) : option (list T * tables) :=
  if parallel then
    '(output, lc, co) ←
      parallel_counting_pass source (map Some destination) digit chunk_size
        (local_counts tbl) (chunk_offsets tbl);
    result ← assume_init_vec output;
    Some (result, {| local_counts := lc; chunk_offsets := co |})
  else
    '(output, _) ← counting_pass source destination digit (replicate RADIX_SIZE 0);
    Some (output, tbl).

(** [for pass in 1..passes]: the two buffers swap after every pass, and the
    callback may stop the sort at a pass boundary. *)
Fixpoint later_passes (remaining : list nat) (parallel : bool) (chunk_size : nat) digits
    source destination (tbl : tables) (completed_pass : St → bool * St) (st : St)
    : option (bool * list T * St) :=
  match remaining with
  | [] => Some (true, source, st)
  | pass :: remaining =>
      '(sorted, tbl') ← run_pass_init parallel chunk_size (digits pass) source destination tbl;
      let '(continue, st') := completed_pass st in
      if continue
      then later_passes remaining parallel chunk_size digits sorted source tbl' completed_pass st'
      else Some (false, sorted, st')
  end.


Definition sort_by_digits_while values digits (passes : nat)
    (completed_pass : St → bool * St) (st : St) : option (bool * list T * St) :=
  if decide (length values < 2) then Some (true, values, st) else
  if decide (passes = 0) then Some (true, values, st) else
  let len := length values in
  let parallel := bool_decide (PARALLEL_RADIX_MIN_LEN ≤ len) && bool_decide (1 < num_threads) in
  let worker_chunks := Nat.max (num_threads * 4) 1 in
  let chunk_size := Nat.max (div_ceil len worker_chunks) 1 in
  let chunk_count := div_ceil len chunk_size in
  let tbl := {| local_counts := replicate chunk_count (replicate RADIX_SIZE 0);
                chunk_offsets := replicate chunk_count (replicate RADIX_SIZE 0) |} in
  '(source, tbl') ← run_pass parallel chunk_size (digits 0) values (replicate len None) tbl;
  let '(continue, st') := completed_pass st in
  if continue
  then later_passes (seq 1 (passes - 1)) parallel chunk_size digits source values tbl'
         completed_pass st'
  else Some (false, source, st').
End Sort.

(** ** Digits and typed entry points *)

Definition u32_digit (value : Z) (half : nat) : nat :=
  Z.to_nat (Z.land (Z.shiftr value (Z.of_nat half * RADIX_BITS)) RADIX_MASK).
Definition u64_digit (value : Z) (quarter : nat) : nat :=
  Z.to_nat (Z.land (Z.shiftr value (Z.of_nat quarter * RADIX_BITS)) RADIX_MASK).

Section Entry.
Context (num_threads : nat) {St : Type}.

Definition sort_u64_while `{WriteSchedule Z} (values : list Z)
    (completed_pass : St → bool * St) (st : St) : option (bool * list Z * St) :=
  sort_by_digits_while num_threads values (λ pass value, u64_digit value pass) 6
    completed_pass st.

Definition u32_bool_digit {T} (key : T → Z * bool) (pass : nat) (value : T) : nat :=
  let '(number, flag) := key value in
  if decide (pass = 0) then (if flag : bool then 1 else 0) else u32_digit number (pass - 1).

Definition sort_by_u32_bool_key_while {T} `{WriteSchedule T} (values : list T)
    (key : T → Z * bool) (completed_pass : St → bool * St) (st : St)
    : option (bool * list T * St) :=
  sort_by_digits_while num_threads values (u32_bool_digit key) 4 completed_pass st.

Definition sort_u32_pairs_while `{WriteSchedule (Z * Z)} (values : list (Z * Z))
    (completed_pass : St → bool * St) (st : St) : option (bool * list (Z * Z) * St) :=
  sort_by_digits_while num_threads values
    (λ pass value,
       let field := if decide (pass ≤ 2) then value.2 else value.1 in
       u32_digit field (pass mod 3))
    6 completed_pass st.

Definition triple_digit (pass : nat) (value : Z * Z * Z) : nat :=
  let field :=
    match pass / 3 with
    | 0 => value.2
    | 1 => value.1.2
    | _ => value.1.1
    end in
  u32_digit field (pass mod 3).

Definition sort_u32_triples_while `{WriteSchedule (Z * Z * Z)} (values : list (Z * Z * Z))
    (completed_pass : St → bool * St) (st : St) : option (bool * list (Z * Z * Z) * St) :=
  sort_by_digits_while num_threads values triple_digit 9 completed_pass st.
End Entry.

(** The variants whose pass callback cannot stop the sort. *)
Section Unconditional.
Context {T : Type} `{WriteSchedule T} (num_threads : nat) {St : Type}.

Definition sort_by_digits_with_pass (values : list T) (digits : nat → T → nat) (passes : nat)
    (completed_pass : St → St) (st : St) : option (list T * St) :=
  '(_, sorted, st') ← sort_by_digits_while num_threads values digits passes
                        (λ st, (true, completed_pass st)) st;
  Some (sorted, st').
End Unconditional.

Definition sort_by_digits {T} `{WriteSchedule T} (num_threads : nat) (values : list T)
    (digits : nat → T → nat) (passes : nat) : option (list T) :=
  '(sorted, _) ← sort_by_digits_with_pass num_threads values digits passes (λ _ : (), ()) ();
  Some sorted.

Definition sort_u32_triples `{WriteSchedule (Z * Z * Z)} (num_threads : nat)
    (values : list (Z * Z * Z)) : option (list (Z * Z * Z)) :=
  sort_by_digits num_threads values
    (λ pass value,
       let field :=
         match pass / 3 with
         | 0 => value.2
         | 1 => value.1.2
         | _ => value.1.1
         end in
       let shift := (Z.of_nat (pass mod 3) * RADIX_BITS)%Z in
       u32_digit field (Z.to_nat (shift / RADIX_BITS)))
    9.

(** ** Reference: a stable bucket sort *)

Section Reference.
Context {T : Type}.
Implicit Types (l source : list T) (digit : T → nat).

Definition bucket digit (b : nat) l : list T := filter (λ x, digit x = b) l.
Definition occ digit (b : nat) l : nat := length (bucket digit b l).

(** Concatenate the buckets [0 .. n-1], each in source order. *)
Definition bucket_sort digit (n : nat) l : list T :=
  mjoin ((λ b, bucket digit b l) <$> seq 0 n).

(** Where bucket [b] starts. *)
Definition bucket_start digit l (b : nat) : nat :=
  sum_list ((λ c, occ digit c l) <$> seq 0 b).

(** A table over the buckets, as a function. *)
Definition table (n : nat) (f : nat → nat) : list nat := f <$> seq 0 n.

Definition advance digit (base : nat → nat) l : nat → nat := λ c, base c + occ digit c l.

(** The writes of a pass that starts each bucket at [base]. *)
Fixpoint ranked digit (base : nat → nat) l : list (nat * T) :=
  match l with
  | [] => []
  | v :: rest =>
      (base (digit v), v) :: ranked digit (λ c, if decide (digit v = c) then S (base c) else base c) rest
  end.

Lemma occ_nil digit b : occ digit b [] = 0.
Proof. done. Qed.

Lemma occ_cons digit b v l :
  occ digit b (v :: l) = (if decide (digit v = b) then 1 else 0) + occ digit b l.
Proof. unfold occ, bucket. rewrite filter_cons. by case_decide. Qed.

Lemma occ_app digit b l1 l2 : occ digit b (l1 ++ l2) = occ digit b l1 + occ digit b l2.
Proof. unfold occ, bucket. by rewrite filter_app, length_app. Qed.

Lemma advance_cons digit base v l c :
  advance digit (λ c, if decide (digit v = c) then S (base c) else base c) l c
  = advance digit base (v :: l) c.
Proof. unfold advance. rewrite occ_cons. case_decide; lia. Qed.

Lemma table_ext n f g : (∀ b, b < n → f b = g b) → table n f = table n g.
Proof.
  intros Hfg. apply list_fmap_ext. intros i b Hb.
  apply lookup_seq in Hb as [-> Hi]. by apply Hfg.
Qed.

Lemma table_lookup n f b : b < n → table n f !! b = Some (f b).
Proof. intros. unfold table. by rewrite list_lookup_fmap, lookup_seq_lt. Qed.

Lemma length_table n f : length (table n f) = n.
Proof. unfold table. by rewrite length_fmap, length_seq. Qed.

Lemma table_zeros n : replicate n 0 = table n (λ _, 0).
Proof.
  apply list_eq_same_length with n; [by rewrite length_table | by rewrite length_replicate |].
  intros i x y Hi. rewrite lookup_replicate_2, table_lookup by done. congruence.
Qed.

Lemma bump_table n f b :
  b < n → bump (table n f) b = Some (table n (λ c, if decide (b = c) then S (f c) else f c)).
Proof.
  intros Hb. unfold bump. rewrite table_lookup by done. simpl. f_equal.
  apply list_eq_same_length with n; rewrite ?length_insert, ?length_table; [done..|].
  intros i x y Hi. rewrite list_lookup_insert, !length_table, !table_lookup by done.
  destruct (decide (b = i)) as [->|];
    [rewrite decide_True by done | rewrite decide_False by (by intros [])]; congruence.
Qed.

Lemma ranked_ext digit f g l : (∀ c, f c = g c) → ranked digit f l = ranked digit g l.
Proof.
  revert f g. induction l as [|v l IH]; intros f g Hfg; simpl; [done|].
  rewrite Hfg. f_equal. apply IH. intros c. by rewrite Hfg.
Qed.

Lemma ranked_app digit base l1 l2 :
  ranked digit base (l1 ++ l2) = ranked digit base l1 ++ ranked digit (advance digit base l1) l2.
Proof.
  revert base. induction l1 as [|v l1 IH]; intros base; simpl.
  - apply ranked_ext. intros c. unfold advance. rewrite occ_nil. lia.
  - rewrite IH. f_equal. f_equal. apply ranked_ext. intros c. apply advance_cons.
Qed.

Lemma ranked_split digit base l1 v l2 :
  ranked digit base (l1 ++ v :: l2)
  = ranked digit base l1 ++ (base (digit v) + occ digit (digit v) l1, v)
      :: ranked digit (advance digit base (l1 ++ [v])) l2.
Proof.
  rewrite ranked_app. simpl. f_equal. f_equal. apply ranked_ext. intros c.
  unfold advance. rewrite occ_app, occ_cons, occ_nil. case_decide; lia.
Qed.

Lemma elem_of_ranked digit base l w :
  w ∈ ranked digit base l ↔
  ∃ l1 v l2, l = l1 ++ v :: l2 ∧ w = (base (digit v) + occ digit (digit v) l1, v).
Proof.
  split.
  - revert base. induction l as [|v l IH]; intros base; simpl.
    + by rewrite elem_of_nil.
    + rewrite elem_of_cons. intros [->|Hw].
      { exists [], v, l. rewrite occ_nil. split; [done | by rewrite Nat.add_0_r]. }
      destruct (IH _ Hw) as (l1 & u & l2 & -> & ->). exists (v :: l1), u, l2.
      split; [done|]. rewrite occ_cons. f_equal. case_decide; lia.
  - intros (l1 & v & l2 & -> & ->). rewrite ranked_split. set_solver.
Qed.
End Reference.

Section PassFacts.
Context {T : Type}.
Implicit Types (l source : list T) (digit : T → nat).

Lemma buckets_take digit n l j :
  j ≤ n → take j ((λ b, bucket digit b l) <$> seq 0 n) = (λ b, bucket digit b l) <$> seq 0 j.
Proof.
  intros. rewrite <- fmap_take. f_equal. replace n with (j + (n - j)) by lia.
  rewrite seq_app, take_app_length'; [done | by rewrite length_seq].
Qed.

Lemma bucket_start_take digit n l j :
  j ≤ n →
  sum_list (length <$> take j ((λ b, bucket digit b l) <$> seq 0 n)) = bucket_start digit l j.
Proof. intros. rewrite buckets_take by done. unfold bucket_start. by rewrite <- list_fmap_compose. Qed.

Lemma bucket_sort_lookup digit n l i v :
  bucket_sort digit n l !! i = Some v ↔
  ∃ l1 l2, l = l1 ++ v :: l2 ∧ digit v < n ∧
           i = bucket_start digit l (digit v) + occ digit (digit v) l1.
Proof.
  unfold bucket_sort. rewrite join_lookup_Some. split.
  - intros (b & bk & k & Hb & Hk & ->).
    rewrite list_lookup_fmap in Hb.
    destruct (seq 0 n !! b) as [b'|] eqn:E; simplify_eq/=.
    apply lookup_seq in E as [-> Hbn]. simpl in *.
    apply lookup_filter_split in Hk as (l1 & l2 & -> & -> & <-).
    exists l1, l2. rewrite bucket_start_take by lia. done.
  - intros (l1 & l2 & -> & Hv & ->).
    exists (digit v), (bucket digit (digit v) (l1 ++ v :: l2)), (occ digit (digit v) l1).
    split; [by rewrite list_lookup_fmap, lookup_seq_lt|].
    split; [|rewrite bucket_start_take; lia].
    unfold occ, bucket. rewrite filter_app, filter_cons_True by done. by apply list_lookup_middle.
Qed.

Lemma bucket_sort_Permutation digit n l :
  Forall (λ v, digit v < n) l → bucket_sort digit n l ≡ₚ l.
Proof.
  induction l as [|v l IH]; intros Hl.
  - clear Hl. unfold bucket_sort. induction (seq 0 n) as [|b bs IHb]; done.
  - apply Forall_cons in Hl as [Hv Hl].
    transitivity (v :: bucket_sort digit n l); [|by rewrite (IH Hl)].
    unfold bucket_sort. replace n with (digit v + S (n - S (digit v))) by lia.
    rewrite seq_app, <- cons_seq, !fmap_app, !join_app, !fmap_cons, Nat.add_0_l.
    assert (Hoff : ∀ bs : list nat, digit v ∉ bs →
              (λ b, bucket digit b (v :: l)) <$> bs = (λ b, bucket digit b l) <$> bs).
    { intros bs Hbs. apply list_fmap_ext. intros i b Hb. unfold bucket.
      rewrite filter_cons_False; [done|]. intros <-. apply Hbs. by eapply list_elem_of_lookup_2. }
    rewrite !Hoff by (rewrite elem_of_seq; lia).
    simpl. unfold bucket at 2. rewrite filter_cons_True by done. simpl.
    symmetry. apply Permutation_middle.
Qed.

Lemma length_bucket_sort digit n l :
  Forall (λ v, digit v < n) l → length (bucket_sort digit n l) = length l.
Proof. intros. apply Permutation_length. by apply bucket_sort_Permutation. Qed.
End PassFacts.

(** ** Each form of a pass computes the bucket sort *)

Section PassSpecs.
Context {T : Type}.
Implicit Types (l source part : list T) (parts : list (list T)) (digit : T → nat).

Definition in_range digit (n : nat) l : Prop := Forall (λ v, digit v < n) l.

Lemma count_digits_table digit n base source :
  in_range digit n source →
  count_digits digit source (table n base) = Some (table n (advance digit base source)).
Proof.
  revert base. induction source as [|v source IH]; intros base Hr; simpl.
  - f_equal. apply table_ext. intros c _. unfold advance. rewrite occ_nil. lia.
  - apply Forall_cons in Hr as [Hv Hr]. rewrite bump_table by done. simpl.
    rewrite IH by done. f_equal. apply table_ext. intros c _. apply advance_cons.
Qed.

Lemma exclusive_sums_seq (f : nat → nat) s n o :
  exclusive_sums o (f <$> seq s n) = (λ b, o + sum_list (f <$> seq s (b - s))) <$> seq s n.
Proof.
  revert s o. induction n as [|n IH]; intros s o; [done|].
  rewrite <- cons_seq, !fmap_cons. simpl. rewrite Nat.sub_diag. f_equal; [simpl; lia|].
  rewrite IH. apply list_fmap_ext. intros i b [-> Hi]%lookup_seq.
  replace (S s + i - S s) with i by lia.
  replace (S s + i - s) with (S i) by lia. csimpl. lia.
Qed.

Lemma exclusive_sums_table n f :
  exclusive_sums 0 (table n f) = table n (λ b, sum_list (f <$> seq 0 b)).
Proof.
  unfold table at 1. rewrite exclusive_sums_seq. apply table_ext.
  intros b _. by rewrite Nat.sub_0_r.
Qed.

Lemma start_table digit n source :
  in_range digit n source →
  exclusive_sums 0 (table n (advance digit (λ _, 0) source)) = table n (bucket_start digit source).
Proof. intros. by rewrite exclusive_sums_table. Qed.

Lemma scatter_table {S} (put : T → S) digit n base source destination :
  in_range digit n source →
  scatter put digit source destination (table n base)
  = destination' ← run_writes destination (prod_map id put <$> ranked digit base source);
    Some (destination', table n (advance digit base source)).
Proof.
  revert base destination.
  induction source as [|v source IH]; intros base destination Hr; simpl.
  - do 2 f_equal. apply table_ext. intros c _. unfold advance. rewrite occ_nil. lia.
  - apply Forall_cons in Hr as [Hv Hr]. rewrite table_lookup by done. simpl.
    destruct (store _ _ _) as [destination'|]; simpl; [|done].
    rewrite bump_table by done. simpl. rewrite IH by done.
    destruct (run_writes _ _); simpl; [|done]. do 2 f_equal. apply table_ext.
    intros c _. apply advance_cons.
Qed.

Lemma chunk_writes_table digit n base part :
  in_range digit n part → chunk_writes digit part (table n base) = Some (ranked digit base part).
Proof.
  revert base. induction part as [|v part IH]; intros base Hr; simpl; [done|].
  apply Forall_cons in Hr as [Hv Hr]. rewrite table_lookup, bump_table by done. simpl.
  by rewrite IH.
Qed.

(** The writes of a pass over [source] carry the bucket sort to its place,
    whatever their order and the buffer's former content. *)
Lemma ranked_writes {S} (put : T → S) digit n source (buf : list S) ws :
  in_range digit n source →
  length buf = length source →
  ws ≡ₚ prod_map id put <$> ranked digit (bucket_start digit source) source →
  run_writes buf ws = Some (put <$> bucket_sort digit n source).
Proof.
  intros Hr Hlen Hws. unfold in_range in Hr. rewrite Forall_forall in Hr.
  apply run_writes_target.
  - rewrite length_fmap, length_bucket_sort; [done|]. by apply Forall_forall.
  - rewrite Hws. apply Forall_fmap, Forall_forall. intros w Hw.
    apply elem_of_ranked in Hw as (l1 & v & l2 & E & ->). simpl.
    rewrite list_lookup_fmap.
    assert (bucket_sort digit n source !! (bucket_start digit source (digit v)
              + occ digit (digit v) l1) = Some v) as ->; [|done].
    apply bucket_sort_lookup. exists l1, l2. split; [done|]. split; [|done].
    apply Hr. rewrite E. set_solver.
  - intros i Hi. left. rewrite length_fmap in Hi.
    destruct (lookup_lt_is_Some_2 _ _ Hi) as [v Hv].
    apply bucket_sort_lookup in Hv as (l1 & l2 & E & _ & ->).
    rewrite Hws. apply list_elem_of_fmap.
    exists (prod_map id put (bucket_start digit source (digit v) + occ digit (digit v) l1, v)).
    split; [done|]. apply list_elem_of_fmap_2. apply elem_of_ranked. by exists l1, v, l2.
Qed.

Lemma counting_pass_bucket_sort digit n source destination counts :
  in_range digit n source → length counts = n → length destination = length source →
  counting_pass source destination digit counts
  = Some (bucket_sort digit n source,
          table n (advance digit (bucket_start digit source) source)).
Proof.
  intros Hr Hn Hlen. unfold counting_pass. rewrite Hn, table_zeros, count_digits_table by done.
  simpl. rewrite start_table, scatter_table by done.
  erewrite ranked_writes; [|done..]. simpl. by rewrite list_fmap_id.
Qed.

Lemma counting_pass_uninit_bucket_sort digit n source (slots : list (option T)) counts :
  in_range digit n source → length counts = n → length slots = length source →
  counting_pass_uninit source slots digit counts
  = Some (Some <$> bucket_sort digit n source,
          table n (advance digit (bucket_start digit source) source)).
Proof.
  intros Hr Hn Hlen. unfold counting_pass_uninit.
  rewrite Hn, table_zeros, count_digits_table by done.
  simpl. rewrite start_table, scatter_table by done. by erewrite ranked_writes.
Qed.
End PassSpecs.

#[local] Opaque RADIX_SIZE.

(** ** Parallel passes *)

Section Parallel.
Context {T : Type}.
Implicit Types (source part : list T) (parts : list (list T)) (digit : T → nat).

Abbreviation counts_of digit parts :=
  ((λ part, table RADIX_SIZE (λ b, occ digit b part)) <$> parts).

Lemma count_chunks_occ digit (cells : list (list nat)) parts :
  Forall (in_range digit RADIX_SIZE) parts → length cells = length parts →
  count_chunks digit cells parts = Some (counts_of digit parts).
Proof.
  intros Hr. unfold count_chunks. revert cells. induction Hr as [|part parts Hp Hr IH];
    intros [|cell cells] Hlen; simplify_eq/=; [done|].
  rewrite table_zeros, count_digits_table by done. simpl. by rewrite IH.
Qed.

Lemma sum_counts digit b parts :
  b < RADIX_SIZE →
  sum_list (map (λ counts, counts !!! b) (counts_of digit parts)) = occ digit b (mjoin parts).
Proof.
  intros Hb. induction parts as [|part parts IH]; [done|].
  csimpl. rewrite occ_app. f_equal; [|done].
  rewrite list_lookup_total_alt, table_lookup by done. done.
Qed.

Lemma bucket_offsets_start digit parts :
  bucket_offsets (counts_of digit parts) = table RADIX_SIZE (bucket_start digit (mjoin parts)).
Proof.
  transitivity (exclusive_sums 0 (table RADIX_SIZE (λ b, occ digit b (mjoin parts)))).
  - unfold bucket_offsets. f_equal. apply table_ext. intros b Hb. by apply sum_counts.
  - by rewrite exclusive_sums_table.
Qed.

Lemma zip_table f g :
  zip_with Nat.add (table RADIX_SIZE f) (table RADIX_SIZE g)
  = table RADIX_SIZE (λ b, f b + g b).
Proof. unfold table. rewrite zip_with_fmap_l, zip_with_fmap_r, zip_with_diag. done. Qed.

(** Chunk by chunk the workers perform the writes of the one global pass. *)
Lemma chunk_starts_writes digit base cells parts :
  Forall (in_range digit RADIX_SIZE) parts → length cells = length parts →
  ∃ workers,
    all_chunk_writes digit parts
      (chunk_starts (table RADIX_SIZE base) cells (counts_of digit parts)) = Some workers ∧
    mjoin workers = ranked digit base (mjoin parts).
Proof.
  intros Hr. revert base cells. induction Hr as [|part parts Hp Hr IH];
    intros base [|cell cells] Hlen; simplify_eq/=; [by exists []|].
  rewrite (chunk_writes_table _ RADIX_SIZE) by done. simpl. rewrite zip_table.
  destruct (IH (advance digit base part) cells) as (workers & Hws & Hj); [done|].
  unfold advance in Hws at 1. rewrite Hws. simpl. eexists; split; [done|].
  csimpl. by rewrite Hj, ranked_app.
Qed.

Lemma length_chunk_starts next cells lc : length (chunk_starts next cells lc) = length cells.
Proof. revert next lc. induction cells; intros next [|? lc]; simpl; auto. Qed.

Lemma in_range_chunks digit n size source :
  0 < size → in_range digit n source → Forall (in_range digit n) (chunks size source).
Proof.
  intros Hs Hr. rewrite <- (chunks_concat size source Hs) in Hr.
  unfold in_range in *. induction (chunks size source); [done|]; simpl in *.
  apply Forall_app in Hr as []. constructor; auto.
Qed.

Lemma parallel_writes_ranked source digit chunk_size cells offsets :
  0 < chunk_size → in_range digit RADIX_SIZE source →
  length cells = length (chunks chunk_size source) →
  length offsets = length (chunks chunk_size source) →
  ∃ workers cells' offsets',
    parallel_writes source digit chunk_size cells offsets = Some (workers, cells', offsets') ∧
    mjoin workers = ranked digit (bucket_start digit source) source ∧
    length cells' = length cells ∧ length offsets' = length offsets.
Proof.
  intros Hs Hr Hc Ho. unfold parallel_writes.
  rewrite count_chunks_occ by auto using in_range_chunks. simpl.
  rewrite bucket_offsets_start.
  replace (mjoin (chunks chunk_size source)) with source by (symmetry; by apply chunks_concat).
  destruct (chunk_starts_writes digit (bucket_start digit source) offsets
              (chunks chunk_size source)) as (workers & -> & Hj);
    [by apply in_range_chunks | done |]. simpl.
  eexists workers, _, _. split; [done|]. rewrite Hj, length_chunk_starts, length_fmap.
  split; [|lia]. f_equal. by apply chunks_concat.
Qed.

(** Whatever order the thread pool interleaves the workers' writes in, the
    pass produces the stable bucket sort. *)
Lemma parallel_any_interleaving source digit chunk_size cells offsets (slots : list (option T))
    workers cells' offsets' order :
  0 < chunk_size → in_range digit RADIX_SIZE source → length slots = length source →
  length cells = length (chunks chunk_size source) →
  length offsets = length (chunks chunk_size source) →
  parallel_writes source digit chunk_size cells offsets = Some (workers, cells', offsets') →
  interleaving workers order →
  run_writes slots (map uninit_write order) = Some (Some <$> bucket_sort digit RADIX_SIZE source).
Proof.
  intros Hs Hr Hlen Hc Ho Hpw Hil.
  destruct (parallel_writes_ranked source digit chunk_size cells offsets)
    as (ws & ? & ? & E & Hj & _); [done..|].
  rewrite Hpw in E. simplify_eq. apply ranked_writes; [done..|].
  change (map uninit_write order) with (prod_map id Some <$> order).
  apply interleaving_Permutation in Hil. by rewrite Hil, Hj.
Qed.

Lemma assume_init_Some (l : list T) : assume_init_vec (Some <$> l) = Some l.
Proof. by apply mapM_fmap_Some. Qed.
End Parallel.

(** ** The driver refines a fold of bucket sorts *)

Section Driver.
Context {T : Type} `{WriteSchedule T} (num_threads : nat) {St : Type}.
Implicit Types (source destination values : list T) (digits : nat → T → nat).

Definition tables_fit (parallel : bool) (chunk_size : nat) source (tbl : tables) : Prop :=
  parallel = true →
  length (local_counts tbl) = length (chunks chunk_size source) ∧
  length (chunk_offsets tbl) = length (chunks chunk_size source).

Lemma tables_fit_length parallel chunk_size s1 s2 tbl :
  0 < chunk_size → length s1 = length s2 →
  tables_fit parallel chunk_size s1 tbl → tables_fit parallel chunk_size s2 tbl.
Proof. unfold tables_fit. intros Hs Hl. by rewrite !length_chunks, Hl by done. Qed.

Lemma parallel_pass_spec source (slots : list (option T)) digit chunk_size tbl :
  0 < chunk_size → in_range digit RADIX_SIZE source → length slots = length source →
  tables_fit true chunk_size source tbl →
  ∃ lc co,
    parallel_counting_pass source slots digit chunk_size (local_counts tbl) (chunk_offsets tbl)
      = Some (Some <$> bucket_sort digit RADIX_SIZE source, lc, co) ∧
    tables_fit true chunk_size source {| local_counts := lc; chunk_offsets := co |}.
Proof.
  intros Hs Hr Hl Hfit. destruct (Hfit eq_refl) as [Hc Ho].
  destruct (parallel_writes_ranked source digit chunk_size (local_counts tbl)
              (chunk_offsets tbl)) as (ws & lc & co & E & Hj & Hlc & Hco); [done..|].
  exists lc, co. split; [|intros _; simpl; lia].
  unfold parallel_counting_pass. rewrite E. simpl.
  erewrite parallel_any_interleaving; [done | done | done | done | exact Hc | exact Ho | exact E
                                      | apply schedule_interleaves].
Qed.

Lemma run_pass_spec parallel chunk_size digit source slots tbl :
  0 < chunk_size → in_range digit RADIX_SIZE source → length slots = length source →
  tables_fit parallel chunk_size source tbl →
  ∃ tbl', run_pass parallel chunk_size digit source slots tbl
            = Some (bucket_sort digit RADIX_SIZE source, tbl') ∧
          tables_fit parallel chunk_size source tbl'.
Proof.
  intros Hs Hr Hl Hfit. unfold run_pass. destruct parallel.
  - destruct (parallel_pass_spec source slots digit chunk_size tbl) as (lc & co & -> & ?);
      [done..|]. simpl. rewrite assume_init_Some. simpl. eauto.
  - erewrite (counting_pass_uninit_bucket_sort _ RADIX_SIZE);
      [|done | apply length_replicate | done].
    simpl. rewrite assume_init_Some. simpl. eauto.
Qed.

Lemma run_pass_init_spec parallel chunk_size digit source destination tbl :
  0 < chunk_size → in_range digit RADIX_SIZE source → length destination = length source →
  tables_fit parallel chunk_size source tbl →
  ∃ tbl', run_pass_init parallel chunk_size digit source destination tbl
            = Some (bucket_sort digit RADIX_SIZE source, tbl') ∧
          tables_fit parallel chunk_size source tbl'.
Proof.
  intros Hs Hr Hl Hfit. unfold run_pass_init. destruct parallel.
  - destruct (parallel_pass_spec source (map Some destination) digit chunk_size tbl)
      as (lc & co & -> & ?); [done | done | by rewrite length_map | done |].
    simpl. rewrite assume_init_Some. simpl. eauto.
  - erewrite (counting_pass_bucket_sort _ RADIX_SIZE);
      [|done | apply length_replicate | done]. simpl. eauto.
Qed.

(** The specification: bucket-sort by each digit in turn until the callback
    declines to continue. *)
Fixpoint passes_spec (remaining : list nat) digits source
    (completed_pass : St → bool * St) (st : St) : bool * list T * St :=
  match remaining with
  | [] => (true, source, st)
  | pass :: remaining =>
      let sorted := bucket_sort (digits pass) RADIX_SIZE source in
      let '(continue, st') := completed_pass st in
      if continue then passes_spec remaining digits sorted completed_pass st'
      else (false, sorted, st')
  end.

Definition digits_in_range digits values : Prop :=
  ∀ pass, in_range (digits pass) RADIX_SIZE values.

Lemma digits_in_range_bucket_sort digits values pass :
  digits_in_range digits values →
  digits_in_range digits (bucket_sort (digits pass) RADIX_SIZE values).
Proof.
  intros Hr p. unfold in_range. rewrite (bucket_sort_Permutation _ _ _ (Hr pass)). apply Hr.
Qed.

Lemma later_passes_spec remaining parallel chunk_size digits source destination tbl cb st :
  0 < chunk_size → digits_in_range digits source → length destination = length source →
  tables_fit parallel chunk_size source tbl →
  later_passes remaining parallel chunk_size digits source destination tbl cb st
  = Some (passes_spec remaining digits source cb st).
Proof.
  intros Hs. revert source destination tbl st.
  induction remaining as [|pass remaining IH]; intros source destination tbl st Hr Hl Hfit;
    [done|]. cbn [later_passes passes_spec].
  destruct (run_pass_init_spec parallel chunk_size (digits pass) source destination tbl)
    as (tbl' & -> & Hfit'); [done..|]. simpl.
  destruct (cb st) as [[] st']; [|done]. apply IH.
  - by apply digits_in_range_bucket_sort.
  - by rewrite length_bucket_sort by apply Hr.
  - eapply tables_fit_length; [done | | done]. by rewrite length_bucket_sort by apply Hr.
Qed.

Lemma sort_by_digits_while_spec values digits passes cb st :
  digits_in_range digits values →
  sort_by_digits_while num_threads values digits passes cb st
  = Some (if decide (length values < 2) then (true, values, st)
          else passes_spec (seq 0 passes) digits values cb st).
Proof.
  intros Hr. unfold sort_by_digits_while. case_decide as Hlen; [done|].
  case_decide as Hp; [by subst|]. cbv zeta.
  set (cs := Nat.max (div_ceil _ _) 1). set (par := bool_decide _ && _).
  set (tbl := {| local_counts := _ |}).
  assert (Hcs : 0 < cs) by (unfold cs; lia).
  destruct (run_pass_spec par cs (digits 0) values (replicate (length values) None) tbl)
    as (tbl' & -> & Hfit); [done | apply Hr | by rewrite length_replicate | |].
  { intros _. simpl. by rewrite !length_replicate, length_chunks. }
  simpl. destruct passes as [|passes]; [done|].
  cbn [seq passes_spec]. destruct (cb st) as [[] st']; [|done].
  replace (S passes - 1) with passes by lia. apply later_passes_spec; [done | | |].
  - by apply digits_in_range_bucket_sort.
  - by rewrite length_bucket_sort by apply Hr.
  - eapply tables_fit_length; [done | | exact Hfit]. by rewrite length_bucket_sort by apply Hr.
Qed.
End Driver.

(** ** Passes in increasing digit order sort lexicographically *)

(** Most significant digit first: the order that [k] LSD passes produce. *)
Fixpoint lsd_compare {T} (digits : nat → T → nat) (k : nat) (x y : T) : comparison :=
  match k with
  | 0 => Eq
  | S k =>
      match Nat.compare (digits k x) (digits k y) with
      | Eq => lsd_compare digits k x y
      | c => c
      end
  end.

Section Order.
Context {T : Type}.
Implicit Types (l values : list T) (digits : nat → T → nat).

Definition lsd_le digits (k : nat) (x y : T) : Prop := lsd_compare digits k x y ≠ Gt.

Lemma elem_of_bucket digit b l x : x ∈ bucket digit b l ↔ digit x = b ∧ x ∈ l.
Proof. unfold bucket. by rewrite list_elem_of_filter. Qed.

Lemma elem_of_bucket_sort digit n l x : x ∈ bucket_sort digit n l ↔ digit x < n ∧ x ∈ l.
Proof.
  unfold bucket_sort. rewrite list_elem_of_join. setoid_rewrite list_elem_of_fmap.
  split.
  - intros (bk & Hx & b & -> & Hb%elem_of_seq). apply elem_of_bucket in Hx as [<- Hx].
    split; [lia | done].
  - intros [Hd Hx]. exists (bucket digit (digit x) l). split; [by apply elem_of_bucket|].
    exists (digit x). split; [done|]. apply elem_of_seq. lia.
Qed.

Lemma bucket_sort_S digit n l :
  bucket_sort digit (S n) l = bucket_sort digit n l ++ bucket digit n l.
Proof.
  unfold bucket_sort. rewrite seq_S, fmap_app, join_app. simpl. by rewrite app_nil_r.
Qed.

Lemma bucket_sort_sorted digits k n l :
  StronglySorted (lsd_le digits k) l →
  StronglySorted (lsd_le digits (S k)) (bucket_sort (digits k) n l).
Proof.
  intros Hl. induction n as [|n IH]; [constructor|].
  rewrite bucket_sort_S. apply StronglySorted_app_2; [|done|].
  - intros x y [Hx _]%elem_of_bucket_sort [Hy _]%elem_of_bucket.
    unfold lsd_le. simpl. destruct (Nat.compare_spec (digits k x) (digits k y)); [lia|done|lia].
  - apply (StronglySorted_filter _ (lsd_le digits k)); [|done].
    intros x y Hx Hy Hxy. unfold lsd_le. simpl. by rewrite Hx, Hy, Nat.compare_refl.
Qed.

(** A pass keeps the relative order of elements it cannot tell apart. *)
Lemma bucket_sort_stable digit n l Q `{!∀ x, Decision (Q x)} b :
  b < n → (∀ x, Q x → digit x = b) → filter Q (bucket_sort digit n l) = filter Q l.
Proof.
  intros Hb HQ.
  assert (Hbk : ∀ c, filter Q (bucket digit c l) = if decide (c = b) then filter Q l else []).
  { intros c. unfold bucket. case_decide as E.
    - apply list_filter_filter_l. intros x Hx. rewrite (HQ x Hx). done.
    - apply filter_none. intros x [Hd _]%list_elem_of_filter Hx. apply E. rewrite <- Hd. auto. }
  induction n as [|n IH]; [lia|].
  rewrite bucket_sort_S, filter_app, Hbk. case_decide as E.
  - subst. rewrite (filter_none Q (bucket_sort digit b l)); [done|].
    intros x [Hd _]%elem_of_bucket_sort Hq. specialize (HQ x Hq). lia.
  - rewrite IH by lia. by rewrite app_nil_r.
Qed.

Lemma lsd_compare_ext digits1 digits2 k x y :
  (∀ p, p < k → digits1 p x = digits2 p x ∧ digits1 p y = digits2 p y) →
  lsd_compare digits1 k x y = lsd_compare digits2 k x y.
Proof.
  induction k as [|k IH]; intros Hd; simpl; [done|].
  destruct (Hd k) as [-> ->]; [lia|]. rewrite IH; [done|]. auto.
Qed.

Lemma lsd_compare_add digits j k x y :
  lsd_compare digits (j + k) x y
  = match lsd_compare (λ p, digits (j + p)) k x y with
    | Eq => lsd_compare digits j x y
    | c => c
    end.
Proof.
  induction k as [|k IH]; [by rewrite Nat.add_0_r|].
  rewrite Nat.add_succ_r. simpl. by destruct (Nat.compare _ _).
Qed.
End Order.

(** ** Outcomes of the driver *)

Section Outcome.
Context {T St : Type}.
Implicit Types (l values : list T) (digits : nat → T → nat) (cb : St → bool * St).

(** A stopped or finished sort is a permutation, sorted by the digits of the
    passes it completed. *)
Lemma passes_spec_sorted cb st digits s n source finished out st' :
  digits_in_range digits source →
  StronglySorted (lsd_le digits s) source →
  passes_spec (seq s n) digits source cb st = (finished, out, st') →
  out ≡ₚ source ∧
  ∃ k, k ≤ n ∧ (finished = true → k = n) ∧ StronglySorted (lsd_le digits (s + k)) out.
Proof.
  revert s source st. induction n as [|n IH]; intros s source st Hr Hs E; simpl in E.
  - simplify_eq. split; [done|]. exists 0. by rewrite Nat.add_0_r.
  - pose proof (bucket_sort_sorted digits s RADIX_SIZE source Hs) as Hs'.
    pose proof (bucket_sort_Permutation _ _ _ (Hr s)) as Hp.
    destruct (cb st) as [[] st1].
    + apply IH in E as (Hout & k & Hk & Hf & Hsk);
        [| by apply digits_in_range_bucket_sort | done].
      split; [by rewrite Hout|]. exists (S k). rewrite Nat.add_succ_r.
      split; [lia|]. split; [intros Hfin; by rewrite Hf | done].
    + simplify_eq. split; [done|]. exists 1. rewrite Nat.add_1_r. split; [lia|]. by split.
Qed.

Lemma passes_spec_stable cb st digits s n source finished out st' Q `{!∀ x, Decision (Q x)}
    (key : nat → nat) :
  (∀ p x, Q x → digits p x = key p) → (∀ p, key p < RADIX_SIZE) →
  passes_spec (seq s n) digits source cb st = (finished, out, st') →
  filter Q out = filter Q source.
Proof.
  intros HQ Hk. revert s source st. induction n as [|n IH]; intros s source st E; simpl in E.
  - by simplify_eq.
  - pose proof (bucket_sort_stable (digits s) RADIX_SIZE source Q (key s) (Hk s) (HQ s)) as <-.
    destruct (cb st) as [[] st1]; [by eapply IH | by simplify_eq].
Qed.

(** A callback that always continues lets every pass run. *)
Lemma passes_spec_finishes cb st digits remaining source :
  (∀ st, (cb st).1 = true) →
  ∃ out st', passes_spec remaining digits source cb st = (true, out, st').
Proof.
  intros Hcb. revert source st.
  induction remaining as [|p remaining IH]; intros source st; simpl; [eauto|].
  specialize (Hcb st). destruct (cb st) as [c st1]. simpl in Hcb. subst. apply IH.
Qed.
End Outcome.

(** ** Digits of machine words *)

Section Digits.
Local Open Scope Z_scope.

Lemma RADIX_SIZE_pow : Z.of_nat RADIX_SIZE = 2 ^ RADIX_BITS.
Proof. by vm_compute. Qed.

Lemma RADIX_MASK_ones : RADIX_MASK = Z.ones RADIX_BITS.
Proof. by vm_compute. Qed.

Lemma u32_digit_u64 v p : u32_digit v p = u64_digit v p.
Proof. done. Qed.

Lemma u64_digit_mod v p :
  Z.of_nat (u64_digit v p) = (v / 2 ^ (Z.of_nat p * RADIX_BITS)) mod 2 ^ RADIX_BITS.
Proof.
  unfold u64_digit. rewrite RADIX_MASK_ones, Z.land_ones, Z.shiftr_div_pow2 by (unfold RADIX_BITS; lia).
  apply Z2Nat.id. apply Z.mod_pos_bound. unfold RADIX_BITS. lia.
Qed.

Lemma u64_digit_range v p : (u64_digit v p < RADIX_SIZE)%nat.
Proof.
  apply Nat2Z.inj_lt. rewrite u64_digit_mod, RADIX_SIZE_pow.
  apply Z.mod_pos_bound. unfold RADIX_BITS. lia.
Qed.

Lemma compare_radix m a b q r :
  0 < m → 0 ≤ a < m → 0 ≤ b < m →
  (a + m * q ?= b + m * r) = match q ?= r with Eq => a ?= b | c => c end.
Proof.
  intros Hm Ha Hb. destruct (Z.compare_spec q r) as [->|Hlt|Hgt].
  - destruct (Z.compare_spec a b); [apply Z.compare_eq_iff | apply Z.compare_lt_iff
                                   | apply Z.compare_gt_iff]; lia.
  - apply Z.compare_lt_iff. nia.
  - apply Z.compare_gt_iff. nia.
Qed.

(** [k] digits compare like the values modulo [2^(11k)]. *)
Lemma lsd_compare_word {T} (f : T → Z) k x y :
  lsd_compare (λ p v, u64_digit (f v) p) k x y
  = (f x mod 2 ^ (Z.of_nat k * RADIX_BITS) ?= f y mod 2 ^ (Z.of_nat k * RADIX_BITS)).
Proof.
  induction k as [|k IH]; [simpl; by rewrite !Z.mod_1_r|].
  cbn [lsd_compare]. rewrite IH, <- Nat2Z.inj_compare, !u64_digit_mod.
  assert (Hk : 0 < 2 ^ (Z.of_nat k * RADIX_BITS)) by (unfold RADIX_BITS; lia).
  replace (2 ^ (Z.of_nat (S k) * RADIX_BITS))
    with (2 ^ (Z.of_nat k * RADIX_BITS) * 2 ^ RADIX_BITS)
    by (rewrite <- Z.pow_add_r; [f_equal; lia | unfold RADIX_BITS; lia..]).
  rewrite !Z.rem_mul_r by (unfold RADIX_BITS; lia).
  rewrite compare_radix by (auto using Z.mod_pos_bound). done.
Qed.

Definition is_u32 (v : Z) : Prop := 0 ≤ v < 2 ^ 32.
Definition is_u64 (v : Z) : Prop := 0 ≤ v < 2 ^ 64.

Lemma lsd_compare_u64 {T} (f : T → Z) x y :
  is_u64 (f x) → is_u64 (f y) → lsd_compare (λ p v, u64_digit (f v) p) 6 x y = (f x ?= f y).
Proof.
  unfold is_u64. intros Hx Hy. rewrite lsd_compare_word.
  rewrite !Z.mod_small; [done|unfold RADIX_BITS; simpl in *; lia..].
Qed.

Lemma lsd_compare_u32 {T} (f : T → Z) x y :
  is_u32 (f x) → is_u32 (f y) → lsd_compare (λ p v, u32_digit (f v) p) 3 x y = (f x ?= f y).
Proof.
  unfold is_u32. intros Hx Hy.
  change (λ p v, u32_digit (f v) p) with (λ p v, u64_digit (f v) p).
  rewrite lsd_compare_word, !Z.mod_small; [done|unfold RADIX_BITS; simpl in *; lia..].
Qed.
End Digits.

(** Lexicographic orders of the tuples being sorted. *)
Definition pair_compare (x y : Z * Z) : comparison :=
  match (x.1 ?= y.1)%Z with Eq => (x.2 ?= y.2)%Z | c => c end.
Definition triple_compare (x y : Z * Z * Z) : comparison :=
  match pair_compare x.1 y.1 with Eq => (x.2 ?= y.2)%Z | c => c end.
Definition key_compare (x y : Z * bool) : comparison :=
  match (x.1 ?= y.1)%Z with Eq => Bool.compare x.2 y.2 | c => c end.

Section EntryFacts.
Lemma pairs_digit_compare (x y : Z * Z) :
  is_u32 x.1 → is_u32 x.2 → is_u32 y.1 → is_u32 y.2 →
  lsd_compare
    (λ pass value, let field := if decide (pass ≤ 2) then value.2 else value.1 in
                   u32_digit field (pass mod 3)) 6 x y = pair_compare x y.
Proof.
  intros. change 6 with (3 + 3). rewrite lsd_compare_add. unfold pair_compare.
  rewrite <- (lsd_compare_u32 fst), <- (lsd_compare_u32 snd) by done.
  done.
Qed.

Lemma triple_digit_compare (x y : Z * Z * Z) :
  is_u32 x.1.1 → is_u32 x.1.2 → is_u32 x.2 → is_u32 y.1.1 → is_u32 y.1.2 → is_u32 y.2 →
  lsd_compare triple_digit 9 x y = triple_compare x y.
Proof.
  intros. unfold triple_compare, pair_compare.
  rewrite <- (lsd_compare_u32 (λ v, v.1.1)), <- (lsd_compare_u32 (λ v, v.1.2)),
    <- (lsd_compare_u32 (λ v : Z * Z * Z, v.2)) by done.
  change 9 with (3 + (3 + 3)). rewrite lsd_compare_add.
  rewrite (lsd_compare_add _ 3 3). done.
Qed.

Lemma u32_bool_digit_flag {T} (key : T → Z * bool) v :
  u32_bool_digit key 0 v = if (key v).2 then 1 else 0.
Proof. unfold u32_bool_digit. by destruct (key v). Qed.

Lemma u32_bool_digit_number {T} (key : T → Z * bool) p v :
  u32_bool_digit key (1 + p) v = u32_digit (key v).1 p.
Proof.
  unfold u32_bool_digit. destruct (key v) as [number flag].
  rewrite decide_False by lia. f_equal. lia.
Qed.

Lemma u32_bool_digit_range {T} (key : T → Z * bool) p v : u32_bool_digit key p v < RADIX_SIZE.
Proof.
  destruct p as [|p]; [|rewrite (u32_bool_digit_number key p); apply u64_digit_range].
  rewrite u32_bool_digit_flag. assert (2 ≤ RADIX_SIZE) by (apply Nat.leb_le; by vm_compute).
  destruct (key v).2; lia.
Qed.

Lemma key_digit_compare {T} (key : T → Z * bool) x y :
  is_u32 (key x).1 → is_u32 (key y).1 →
  lsd_compare (u32_bool_digit key) 4 x y = key_compare (key x) (key y).
Proof.
  intros Hx Hy. change 4 with (1 + 3). rewrite lsd_compare_add. unfold key_compare.
  rewrite <- (lsd_compare_u32 (λ v, (key v).1)) by done.
  rewrite (lsd_compare_ext (λ p, u32_bool_digit key (1 + p)) (λ p v, u32_digit (key v).1 p))
    by (intros; by rewrite !u32_bool_digit_number).
  cbn [lsd_compare]. rewrite !u32_bool_digit_flag.
  destruct (key x) as [nx []], (key y) as [ny []]; done.
Qed.
End EntryFacts.

(** ** Correctness *)

Section Correctness.
Context {T : Type}.
Implicit Types (values source : list T).

Lemma bucket_sort_cover digit n source i :
  in_range digit n source → i < length source →
  i ∈ (ranked digit (bucket_start digit source) source).*1.
Proof.
  intros Hr Hi. rewrite <- (length_bucket_sort digit n) in Hi by done.
  destruct (lookup_lt_is_Some_2 _ _ Hi) as [v Hv].
  apply bucket_sort_lookup in Hv as (l1 & l2 & E & _ & ->).
  apply list_elem_of_fmap.
  exists (bucket_start digit source (digit v) + occ digit (digit v) l1, v).
  split; [done|]. apply elem_of_ranked. by exists l1, v, l2.
Qed.

Lemma length_ranked digit base source : length (ranked digit base source) = length source.
Proof. revert base. induction source; intros base; simpl; auto. Qed.

Lemma ranked_NoDup digit n source :
  in_range digit n source → NoDup (ranked digit (bucket_start digit source) source).*1.
Proof.
  intros Hr. apply NoDup_ListNoDup.
  apply (@NoDup_incl_NoDup nat (seq 0 (length source))).
  - apply NoDup_ListNoDup, NoDup_seq.
  - by rewrite length_seq, length_fmap, length_ranked.
  - intros i Hi%in_seq. apply list_elem_of_In. apply (bucket_sort_cover _ n); [done | lia].
Qed.
End Correctness.

(** C1: A parallel counting pass is memory safe and race free.  For every chunk
    size, every input whose digits are in range and every interleaving of the
    workers' raw writes, no two writes address the same slot, every slot is
    written, and the buffer ends as the stable bucket sort of the input (the
    result of the sequential pass). *)
Theorem parallel_counting_pass_race_free {T} (source : list T) digit chunk_size
    (slots : list (option T)) workers cells' offsets' order
    (Hsize : 0 < chunk_size) (Hdigits : in_range digit RADIX_SIZE source)
    (Hslots : length slots = length source)
    (Hrun : parallel_writes source digit chunk_size
              (replicate (div_ceil (length source) chunk_size) (replicate RADIX_SIZE 0))
              (replicate (div_ceil (length source) chunk_size) (replicate RADIX_SIZE 0))
            = Some (workers, cells', offsets'))
    (Horder : interleaving workers order) :
  NoDup order.*1 ∧
  run_writes slots (map uninit_write order) = Some (Some <$> bucket_sort digit RADIX_SIZE source) ∧
  (output ← counting_pass source source digit (replicate RADIX_SIZE 0); Some output.1)
    = Some (bucket_sort digit RADIX_SIZE source).
Proof.
  assert (Hn : length (replicate (div_ceil (length source) chunk_size) (replicate RADIX_SIZE 0))
               = length (chunks chunk_size source))
    by (by rewrite length_replicate, length_chunks).
  split; [|split].
  - destruct (parallel_writes_ranked source digit chunk_size _ _ Hsize Hdigits Hn Hn)
      as (ws & ? & ? & E & Hj & _). rewrite Hrun in E. simplify_eq.
    apply interleaving_Permutation in Horder. rewrite Horder, Hj. by eapply ranked_NoDup.
  - by eapply parallel_any_interleaving.
  - rewrite (counting_pass_bucket_sort _ RADIX_SIZE); [done | done | apply length_replicate | done].
Qed.

(** Two workers over three values, their writes interleaved. *)
Definition race_free_run :=
  parallel_writes [7; 5; 9]%Z (λ v, u64_digit v 0) 2
    (replicate 2 (replicate RADIX_SIZE 0)) (replicate 2 (replicate RADIX_SIZE 0)).

Lemma parallel_counting_pass_race_free_witness :
  run_writes [None; None; None] (map uninit_write [(1, 7%Z); (2, 9%Z); (0, 5%Z)])
  = Some (Some <$> bucket_sort (λ v, u64_digit v 0) RADIX_SIZE [7; 5; 9]%Z).
Proof.
  apply (parallel_counting_pass_race_free [7; 5; 9]%Z (λ v, u64_digit v 0) 2 _
           [[(1, 7%Z); (0, 5%Z)]; [(2, 9%Z)]]
           (default ([], [], []) race_free_run).1.2 (default ([], [], []) race_free_run).2).
  - lia.
  - repeat constructor; apply u64_digit_range.
  - reflexivity.
  - vm_compute. reflexivity.
  - apply interleaving_step with 0 [(0, 5%Z)]; [reflexivity|].
    apply interleaving_step with 1 []; [reflexivity|].
    apply interleaving_step with 0 []; [reflexivity|].
    apply interleaving_done. repeat constructor.
Defined.

(** C2: Whatever the number of threads and the scheduling of the workers, the
    multi-pass driver neither panics nor reads an unwritten slot, and returns
    exactly what bucket-sorting by each digit in turn, until the callback
    declines, returns: the same flag, list and callback state. *)
Theorem sort_by_digits_while_refines {T} `{WriteSchedule T} {St} num_threads (values : list T)
    digits passes (completed_pass : St → bool * St) st
    (Hdigits : digits_in_range digits values) :
  sort_by_digits_while num_threads values digits passes completed_pass st
  = Some (if decide (length values < 2) then (true, values, st)
          else passes_spec (seq 0 passes) digits values completed_pass st).
Proof. by apply sort_by_digits_while_spec. Qed.

Lemma sort_by_digits_while_refines_witness :
  sort_by_digits_while 4 [3; 1; 2]%Z (λ p v, u64_digit v p) 2 (λ n, (bool_decide (n = 1), S n)) 0
  = Some (false, [1; 2; 3]%Z, 1).
Proof.
  rewrite (sort_by_digits_while_refines 4 [3; 1; 2]%Z (λ p v, u64_digit v p) 2).
  - vm_compute. reflexivity.
  - intros p. repeat constructor; apply u64_digit_range.
Defined.

Section TypedSorts.
Context (num_threads : nat) {St : Type} (cb : St → bool * St) (st : St).

(** The outcome of a sort over a total order given by [compare]. *)
Definition sorted_outcome {T} (compare : T → T → comparison) (values : list T)
    (result : option (bool * list T * St)) : Prop :=
  ∃ finished out st',
    result = Some (finished, out, st') ∧
    out ≡ₚ values ∧
    (finished = true → StronglySorted (λ x y, compare x y ≠ Gt) out) ∧
    ((∀ st, (cb st).1 = true) → finished = true).

Lemma StronglySorted_digits {T} digits k (compare : T → T → comparison) l :
  (∀ x y, x ∈ l → y ∈ l → lsd_compare digits k x y = compare x y) →
  StronglySorted (lsd_le digits k) l → StronglySorted (λ x y, compare x y ≠ Gt) l.
Proof.
  intros Hc. induction 1 as [|x l Hl IH Hx]; constructor.
  - apply IH. intros. apply Hc; set_solver.
  - rewrite Forall_forall in *. intros y Hy. rewrite <- Hc by set_solver. by apply Hx.
Qed.

Lemma sort_by_digits_outcome {T} `{WriteSchedule T} digits passes
    (compare : T → T → comparison) (values : list T) :
  digits_in_range digits values →
  (∀ x y, x ∈ values → y ∈ values → lsd_compare digits passes x y = compare x y) →
  sorted_outcome compare values (sort_by_digits_while num_threads values digits passes cb st).
Proof.
  intros Hr Hc. rewrite sort_by_digits_while_spec by done. unfold sorted_outcome.
  case_decide as Hlen.
  - exists true, values, st. repeat split; [done|].
    intros _. destruct values as [|x [|y values]]; simpl in Hlen; [| |lia]; repeat constructor.
  - destruct (passes_spec (seq 0 passes) digits values cb st) as [[f out] st'] eqn:E.
    exists f, out, st'. split; [done|].
    assert (H0 : StronglySorted (lsd_le digits 0) values)
      by (clear; induction values; constructor; [done|]; by apply Forall_forall).
    destruct (passes_spec_sorted _ _ _ _ _ _ _ _ _ Hr H0 E) as (Hp & k & _ & Hf & Hs).
    split; [done|]. split.
    + intros ->. rewrite (Hf eq_refl) in Hs. apply (StronglySorted_digits digits passes); [|done].
      intros x y. rewrite Hp. apply Hc.
    + intros Hcb. destruct (passes_spec_finishes cb st digits (seq 0 passes) values Hcb)
        as (? & ? & E'). congruence.
Qed.

Lemma word_digits_in_range {T} (digits : nat → T → nat) values :
  (∀ p v, ∃ w q, digits p v = u64_digit w q) → digits_in_range digits values.
Proof.
  intros Hd p. apply Forall_forall. intros v _. destruct (Hd p v) as (w & q & ->).
  apply u64_digit_range.
Qed.
End TypedSorts.

(** The three entry points that other components call. *)
Lemma sort_u64_outcome `{WriteSchedule Z} {St} num_threads (values : list Z)
    (completed_pass : St → bool * St) st :
  Forall is_u64 values →
  sorted_outcome completed_pass Z.compare values (sort_u64_while num_threads values completed_pass st).
Proof.
  intros Hvalues. apply sort_by_digits_outcome; [apply word_digits_in_range; eauto|].
  rewrite Forall_forall in Hvalues. intros x y Hx Hy.
  apply (lsd_compare_u64 id); by apply Hvalues.
Qed.

Lemma sort_u32_pairs_outcome `{WriteSchedule (Z * Z)} {St} num_threads (pairs : list (Z * Z))
    (completed_pass : St → bool * St) st :
  Forall (λ v, is_u32 v.1 ∧ is_u32 v.2) pairs →
  sorted_outcome completed_pass pair_compare pairs (sort_u32_pairs_while num_threads pairs completed_pass st).
Proof.
  intros Hpairs. rewrite Forall_forall in Hpairs. apply sort_by_digits_outcome.
  - apply word_digits_in_range. intros p v. cbv zeta. case_decide; eauto.
  - intros x y [? ?]%Hpairs [? ?]%Hpairs. by apply pairs_digit_compare.
Qed.

Lemma sort_u32_triples_outcome `{WriteSchedule (Z * Z * Z)} {St} num_threads (triples : list (Z * Z * Z))
    (completed_pass : St → bool * St) st :
  Forall (λ v, is_u32 v.1.1 ∧ is_u32 v.1.2 ∧ is_u32 v.2) triples →
  sorted_outcome completed_pass triple_compare triples (sort_u32_triples_while num_threads triples completed_pass st).
Proof.
  intros Htriples. rewrite Forall_forall in Htriples. apply sort_by_digits_outcome.
  - apply word_digits_in_range. intros p v. unfold triple_digit. eauto.
  - intros x y (? & ? & ?)%Htriples (? & ? & ?)%Htriples. by apply triple_digit_compare.
Qed.

(** Sorting 64-bit values: for every callback the sort terminates without a
    panic and the result is a permutation of the input; if it reports completion
    the result is in ascending order, and it does report completion when the
    callback never declines. *)
Theorem sort_u64_while_sorts `{WriteSchedule Z} {St} num_threads (values : list Z)
    (completed_pass : St → bool * St) st
    (Hvalues : Forall is_u64 values) :
  sorted_outcome completed_pass Z.compare values
    (sort_u64_while num_threads values completed_pass st).
Proof. by apply sort_u64_outcome. Qed.

Lemma sort_u64_while_sorts_witness :
  sorted_outcome (λ _ : (), (true, ())) Z.compare [2 ^ 64 - 1; 1; 0; 2 ^ 32]%Z
    (Some (true, [0; 1; 2 ^ 32; 2 ^ 64 - 1]%Z, ())).
Proof.
  apply (sort_u64_while_sorts 1 [2 ^ 64 - 1; 1; 0; 2 ^ 32]%Z (λ _ : (), (true, ())) ()).
  repeat constructor; unfold is_u64; simpl; lia.
Defined.

(** The entry point for triples whose callback cannot stop the sort. *)
Lemma sort_u32_triples_sorts `{WriteSchedule (Z * Z * Z)} num_threads triples :
  Forall (λ v, is_u32 v.1.1 ∧ is_u32 v.1.2 ∧ is_u32 v.2) triples →
  ∃ out, sort_u32_triples num_threads triples = Some out ∧ out ≡ₚ triples ∧
    StronglySorted (λ x y, triple_compare x y ≠ Gt) out.
Proof.
  intros Htriples. rewrite Forall_forall in Htriples.
  destruct (sort_by_digits_outcome num_threads (λ _ : (), (true, ())) ()
    (λ (pass : nat) (value : Z * Z * Z), u32_digit (match (pass / 3)%nat with 0%nat => value.2 | 1%nat => value.1.2 | _ => value.1.1 end)
                     (Z.to_nat (Z.of_nat (pass mod 3)%nat * RADIX_BITS / RADIX_BITS))) 9 triple_compare triples)
    as (finished & out & [] & E & Hp & Hs & Hf).
  - apply word_digits_in_range. unfold u32_digit, u64_digit. eauto.
  - intros x y (? & ? & ?)%Htriples (? & ? & ?)%Htriples. rewrite <- triple_digit_compare by done.
    apply lsd_compare_ext. intros p Hp. unfold triple_digit.
    by rewrite Z.div_mul, Nat2Z.id by done.
  - exists out. unfold sort_u32_triples, sort_by_digits, sort_by_digits_with_pass. rewrite E. simpl.
    split_and!; [done|done|]. apply Hs, Hf. done.
Qed.

(** Pairs and triples of 32-bit ids are sorted lexicographically, under the
    same guarantees: least significant field first, three digits per field. *)
Theorem sort_u32_tuples_sort `{WriteSchedule (Z * Z)} `{WriteSchedule (Z * Z * Z)} {St}
    num_threads (pairs : list (Z * Z)) (triples : list (Z * Z * Z))
    (completed_pass : St → bool * St) st
    (Hpairs : Forall (λ v, is_u32 v.1 ∧ is_u32 v.2) pairs)
    (Htriples : Forall (λ v, is_u32 v.1.1 ∧ is_u32 v.1.2 ∧ is_u32 v.2) triples) :
  sorted_outcome completed_pass pair_compare pairs
    (sort_u32_pairs_while num_threads pairs completed_pass st) ∧
  sorted_outcome completed_pass triple_compare triples
    (sort_u32_triples_while num_threads triples completed_pass st).
Proof. split; [by apply sort_u32_pairs_outcome|by apply sort_u32_triples_outcome]. Qed.

Lemma sort_u32_tuples_sort_witness :
  sorted_outcome (λ _ : (), (true, ())) pair_compare [(2, 0); (1, 4)]%Z
    (Some (true, [(1, 4); (2, 0)]%Z, ())) ∧
  sorted_outcome (λ _ : (), (true, ())) triple_compare [(1, 1, 5); (0, 9, 9)]%Z
    (Some (true, [(0, 9, 9); (1, 1, 5)]%Z, ())).
Proof.
  apply (sort_u32_tuples_sort 8 [(2, 0); (1, 4)]%Z [(1, 1, 5); (0, 9, 9)]%Z
           (λ _ : (), (true, ())) ());
    repeat constructor; unfold is_u32; simpl; lia.
Defined.

(** Sorting by a (u32, bool) key orders the records by key and is stable:
    records with equal keys keep their input order, even when the callback stops
    the sort early. *)
Theorem sort_by_u32_bool_key_stable {T} `{WriteSchedule T} {St} num_threads (values : list T)
    (key : T → Z * bool) (completed_pass : St → bool * St) st k
    (Hvalues : Forall (λ v, is_u32 (key v).1) values) :
  sorted_outcome completed_pass (λ x y, key_compare (key x) (key y)) values
    (sort_by_u32_bool_key_while num_threads values key completed_pass st) ∧
  ∃ finished out st',
    sort_by_u32_bool_key_while num_threads values key completed_pass st
      = Some (finished, out, st') ∧
    filter (λ v, key v = k) out = filter (λ v, key v = k) values.
Proof.
  assert (Hr : digits_in_range (u32_bool_digit key) values).
  { intros p. apply Forall_forall. intros v _. apply u32_bool_digit_range. }
  split.
  - apply sort_by_digits_outcome; [done|].
    rewrite Forall_forall in Hvalues. intros x y Hx Hy. apply key_digit_compare; by apply Hvalues.
  - unfold sort_by_u32_bool_key_while. rewrite sort_by_digits_while_spec by done.
    case_decide; [by eexists _, _, _|].
    destruct (passes_spec _ _ _ _ _) as [[f out] st'] eqn:E. exists f, out, st'. split; [done|].
    eapply (passes_spec_stable _ _ _ _ _ _ _ _ _ (λ v, key v = k)
              (λ p, u32_bool_digit (λ _ : (), k) p ())); [| |exact E].
    + by intros p x <-.
    + intros p. apply u32_bool_digit_range.
Qed.

Lemma sort_by_u32_bool_key_stable_witness :
  ∃ finished out st',
    sort_by_u32_bool_key_while 1 [(2, true, 0); (1, true, 1); (2, true, 2); (1, false, 3)]%Z fst
      (λ _ : (), (true, ())) () = Some (finished, out, st') ∧
    filter (λ v : Z * bool * Z, v.1 = (2%Z, true)) out = [(2, true, 0); (2, true, 2)]%Z.
Proof.
  refine (proj2 (sort_by_u32_bool_key_stable 1
    [(2, true, 0); (1, true, 1); (2, true, 2); (1, false, 3)]%Z fst
    (λ _ : (), (true, ())) () (2%Z, true) _)).
  repeat constructor; unfold is_u32; simpl; lia.
Defined.
