(* ===== verification/Text.v ===== *)
(** Text as the programs see it: a Rust [str] is a sequence of Unicode scalar
    values; its length is counted in UTF-8 bytes, and comparing the UTF-8 bytes
    of two strings is comparing their scalar values lexicographically. *)

From S2P Require Import Prelude.

Abbreviation chr := N (only parsing).
Abbreviation str := (list N) (only parsing).

(** ASCII literals for examples and for the constants of the source. *)
Fixpoint lit (s : string) : list N :=
  match s with
  | EmptyString => []
  | String a s => Ascii.N_of_ascii a :: lit s
  end.

Section Text.
Local Open Scope N_scope.

Definition in_chars (lo hi c : chr) : bool := (lo <=? c) && (c <=? hi).

(** [char::is_whitespace]: the Unicode White_Space property. *)
Definition is_whitespace (c : chr) : bool :=
  in_chars 9 13 c || (c =? 32) || (c =? 133) || (c =? 160) || (c =? 5760)
  || in_chars 8192 8202 c || (c =? 8232) || (c =? 8233) || (c =? 8239)
  || (c =? 8287) || (c =? 12288).

Definition is_ascii_digit (c : chr) : bool := in_chars 48 57 c.

(** [char::to_ascii_lowercase] *)
Definition ascii_lowercase (c : chr) : chr := if in_chars 65 90 c then (c + 32)%N else c.

Definition utf8_len (c : chr) : nat :=
  if c <? 128 then 1%nat else if c <? 2048 then 2%nat else if c <? 65536 then 3%nat else 4%nat.

(** [str::len] *)
Definition str_len (s : str) : nat := sum_list (map utf8_len s).

Fixpoint trim_start (s : str) : str :=
  match s with
  | c :: s' => if is_whitespace c then trim_start s' else s
  | [] => []
  end.

(** [str::trim] *)
Definition trim (s : str) : str := reverse (trim_start (reverse (trim_start s))).

(** [str::trim_start_matches(c)] *)
Fixpoint trim_start_char (c : chr) (s : str) : str :=
  match s with
  | x :: s' => if x =? c then trim_start_char c s' else s
  | [] => []
  end.

Definition starts_with (c : chr) (s : str) : bool :=
  match s with x :: _ => x =? c | [] => false end.

(** [Ord for str] *)
Fixpoint str_compare (a b : str) : comparison :=
  match a, b with
  | [], [] => Eq
  | [], _ => Lt
  | _, [] => Gt
  | x :: a, y :: b => match x ?= y with Eq => str_compare a b | c => c end
  end.
End Text.

Definition str_ltb (a b : list N) : bool :=
  match str_compare a b with Lt => true | _ => false end.

(** [str::eq_ignore_ascii_case] *)
Definition eq_ignore_ascii_case (a b : str) : bool :=
  bool_decide (map ascii_lowercase a = map ascii_lowercase b).

(** ** Comparison functions *)

(** [Ordering::then_with] *)
Definition then_with (c d : comparison) : comparison :=
  match c with Eq => d | _ => c end.

Lemma then_with_opp c d : then_with (CompOpp c) (CompOpp d) = CompOpp (then_with c d).
Proof. by destruct c. Qed.

(** The laws of a Rust [Ord] up to the equivalence [compare _ _ = Eq]. *)
Class CompareLaws {A} (cmp : A → A → comparison) : Prop := {
  compare_refl x : cmp x x = Eq;
  compare_antisym x y : cmp x y = CompOpp (cmp y x);
  compare_trans x y z : cmp x y ≠ Gt → cmp y z ≠ Gt → cmp x z ≠ Gt;
}.
Arguments compare_refl {A} cmp {_} x.
Arguments compare_antisym {A} cmp {_} x y.
Arguments compare_trans {A} cmp {_} x y z.

Section CompareFacts.
Context {A : Type} (cmp : A → A → comparison) `{!CompareLaws cmp}.

Lemma compare_gt_lt x y : cmp x y = Gt ↔ cmp y x = Lt.
Proof. rewrite (compare_antisym cmp x y). destruct (cmp y x); naive_solver. Qed.

Lemma compare_eq_sym x y : cmp x y = Eq → cmp y x = Eq.
Proof. intros E. by rewrite (compare_antisym cmp y x), E. Qed.

Lemma compare_eq_le x y : cmp x y = Eq → cmp x y ≠ Gt.
Proof. by intros ->. Qed.

Lemma compare_le_total x y : cmp x y ≠ Gt ∨ cmp y x ≠ Gt.
Proof. rewrite (compare_antisym cmp y x). destruct (cmp x y); naive_solver. Qed.

Lemma compare_lt_le_trans x y z : cmp x y = Lt → cmp y z ≠ Gt → cmp x z = Lt.
Proof.
  intros Hxy Hyz. destruct (cmp x z) eqn:Hxz; [| done |].
  - assert (cmp z x ≠ Gt) by (rewrite (compare_antisym cmp), Hxz; done).
    assert (H1 : cmp y x ≠ Gt) by (by eapply (compare_trans cmp y z x)).
    rewrite (compare_antisym cmp y x), Hxy in H1. done.
  - exfalso. eapply (compare_trans cmp x y z); [by rewrite Hxy | done..].
Qed.

Lemma compare_eq_trans x y z : cmp x y = Eq → cmp y z = Eq → cmp x z = Eq.
Proof.
  intros Hxy Hyz. pose proof (compare_eq_sym _ _ Hxy). pose proof (compare_eq_sym _ _ Hyz).
  assert (H1 : cmp x z ≠ Gt) by (eapply (compare_trans cmp x y z); congruence).
  assert (H2 : cmp z x ≠ Gt) by (eapply (compare_trans cmp z y x); congruence).
  rewrite (compare_antisym cmp z x) in H2. by destruct (cmp x z).
Qed.
End CompareFacts.

#[export] Instance N_compare_laws : CompareLaws N.compare.
Proof.
  constructor.
  - apply N.compare_refl.
  - intros. apply N.compare_antisym.
  - intros x y z. rewrite !N.compare_le_iff. lia.
Qed.

#[export] Instance nat_compare_laws : CompareLaws Nat.compare.
Proof.
  constructor.
  - apply Nat.compare_refl.
  - intros. apply Nat.compare_antisym.
  - intros x y z. rewrite !Nat.compare_le_iff. lia.
Qed.

#[export] Instance Z_compare_laws : CompareLaws Z.compare.
Proof.
  constructor.
  - apply Z.compare_refl.
  - intros. apply Z.compare_antisym.
  - intros x y z. rewrite !Z.compare_le_iff. lia.
Qed.

(** Lexicographic composition preserves the laws. *)
Lemma then_with_laws {A} (c1 c2 : A → A → comparison) :
  CompareLaws c1 → CompareLaws c2 → CompareLaws (λ x y, then_with (c1 x y) (c2 x y)).
Proof.
  intros H1 H2. constructor.
  - intros x. by rewrite (compare_refl c1 x), (compare_refl c2 x).
  - intros x y. rewrite (compare_antisym c1 x y), (compare_antisym c2 x y).
    apply then_with_opp.
  - intros x y z Hxy Hyz.
    destruct (c1 x y) eqn:E1; simpl in Hxy; [| |done];
      (destruct (c1 y z) eqn:E2; simpl in Hyz; [| |done]).
    + rewrite (compare_eq_trans c1 x y z E1 E2). simpl. by apply (compare_trans c2 x y z).
    + assert (c1 x z = Lt) as ->; [|done].
      destruct (c1 x z) eqn:E3; [| done |].
      * apply (compare_eq_sym c1) in E1. pose proof (compare_eq_trans c1 y x z E1 E3). congruence.
      * exfalso. apply (compare_trans c1 x y z); congruence.
    + rewrite (compare_lt_le_trans c1 x y z E1) by congruence. done.
    + rewrite (compare_lt_le_trans c1 x y z E1) by congruence. done.
Qed.

Lemma compare_map_laws {A B} (f : A → B) (c : B → B → comparison) :
  CompareLaws c → CompareLaws (λ x y, c (f x) (f y)).
Proof.
  intros H. constructor; intros.
  - apply (compare_refl c).
  - apply (compare_antisym c).
  - by eapply (compare_trans c).
Qed.

#[export] Instance str_compare_laws : CompareLaws str_compare.
Proof.
  constructor.
  - intros x. induction x as [|c x IH]; simpl; [done|]. by rewrite N.compare_refl.
  - intros x. induction x as [|c x IH]; intros [|d y]; simpl; [done..|].
    rewrite (N.compare_antisym d c), IH. by destruct (d ?= c)%N.
  - intros x. induction x as [|c x IH]; intros [|d y] [|e z]; simpl; try done.
    destruct (N.compare_spec c d), (N.compare_spec d e), (N.compare_spec c e);
      subst; try done; try lia. apply IH.
Qed.

Lemma str_compare_eq a b : str_compare a b = Eq ↔ a = b.
Proof.
  split; [|intros ->; apply (compare_refl str_compare)].
  revert b. induction a as [|x a IH]; intros [|y b]; simpl; try done.
  destruct (N.compare_spec x y); try done. intros. f_equal; auto.
Qed.
