(* ===== verification/CanonicalJson.v ===== *)
(** [dedup/crates/core/src/metadata/canonical_json.rs]: the canonical text of a
    JSON document.

    serde_json (parsing, numbers, serialization) and the Unicode tables (NFKC,
    lower case) are parameters, [Class JsonLibrary]; the deserializer is modelled
    by the tree of events it drives the visitor with.  A [serde_json::Map] is a
    [BTreeMap]: a list of entries in strictly increasing key order.  The text of a
    JSON number is ASCII, so its length is its number of characters. *)

From S2P Require Import Prelude Text.

(** ** Documents *)

(** What the deserializer presents to the visitor; numbers that are not native
    arrive as a map with a reserved key. *)
Inductive RawJson :=
  | RawNull
  | RawBool (b : bool)
  | RawInt (z : Z)
  | RawFloat
  | RawString (s : str)
  | RawSeq (items : list RawJson)
  | RawMap (entries : list (str * RawJson)).

Inductive Value {Number : Type} :=
  | Null
  | Bool (b : bool)
  | Num (n : Number)
  | String_ (s : str)
  | Array (items : list Value)
  | Object (entries : list (str * Value)).
Arguments Value : clear implicits.

Class JsonLibrary := {
  Number : Type;
  parse_json : str → option RawJson;
  to_string : Value Number → str;
  number_from : Z → Number;
  as_i64 : Number → option Z;
  as_u64 : Number → option Z;
  number_to_string : Number → str;
  parse_number : str → option Number;
  nfkc : str → str;
  to_lowercase : str → str;
}.

Definition ARBITRARY_PRECISION_NUMBER_TOKEN : str := lit "$serde_json::private::Number".

(** ** Maps *)

Section Maps.
Context {V : Type}.

(** [BTreeMap::insert] *)
Fixpoint map_insert (k : str) (v : V) (m : list (str * V)) : list (str * V) :=
  match m with
  | [] => [(k, v)]
  | (k', v') :: m' =>
      match str_compare k k' with
      | Lt => (k, v) :: m
      | Eq => (k, v) :: m'
      | Gt => (k', v') :: map_insert k v m'
      end
  end.

(** [BTreeMap::get] *)
Fixpoint map_get (k : str) (m : list (str * V)) : option V :=
  match m with
  | [] => None
  | (k', v) :: m => if decide (k = k') then Some v else map_get k m
  end.

(** [entries.into_iter().collect()] *)
Definition map_collect (entries : list (str * V)) : list (str * V) :=
  foldl (λ m '(k, v), map_insert k v m) [] entries.
End Maps.

(** A stable sort: insertion from the right puts an element before its equals. *)
Section StableSort.
Context {A : Type} (cmp : A → A → comparison).

Fixpoint insert_stable (x : A) (l : list A) : list A :=
  match l with
  | [] => [x]
  | y :: l' => match cmp x y with Gt => y :: insert_stable x l' | _ => x :: l end
  end.

(** [slice::sort_by] *)
Definition sort_by (l : list A) : list A := foldr insert_stable [] l.
End StableSort.

(** ** Strings *)

(** The loop of [normalize_string] over the mapped characters. *)
Fixpoint collapse (output : str) (pending_space : bool) (chars : str) : str :=
  match chars with
  | [] => output
  | c :: chars =>
      if is_whitespace c then collapse output (negb (bool_decide (output = []))) chars
      else collapse ((if pending_space then output ++ [32%N] else output) ++ [c]) false chars
  end.

(** ** Decimal numbers *)

Definition i128_min : Z := - 2 ^ 127.
Definition i128_max : Z := 2 ^ 127 - 1.
Definition checked_i128 (z : Z) : option Z :=
  if decide (i128_min ≤ z ≤ i128_max)%Z then Some z else None.

(** [str::split_once] / slicing around the first match. *)
Fixpoint split_first (p : N → bool) (s : str) : option (str * str) :=
  match s with
  | [] => None
  | c :: s =>
      if p c then Some ([], s)
      else '(l, r) ← split_first p s; Some (c :: l, r)
  end.

Definition is_exponent_mark (c : N) : bool := ((c =? 101) || (c =? 69))%N.
Definition is_point (c : N) : bool := (c =? 46)%N.

Definition digit_value (c : N) : Z := Z.of_N c - 48.
Definition digits_value (ds : str) : Z := foldl (λ acc c, acc * 10 + digit_value c)%Z 0%Z ds.

(** [str::parse::<i128>] *)
Definition parse_i128 (s : str) : option Z :=
  let '(negative, ds) :=
    match s with
    | c :: ds => if (c =? 45)%N then (true, ds) else if (c =? 43)%N then (false, ds) else (false, s)
    | [] => (false, [])
    end in
  if decide (ds ≠ [] ∧ Forall (λ c, is_ascii_digit c = true) ds)
  then checked_i128 (if (negative : bool) then - digits_value ds else digits_value ds) else None.

(** The decimal digits of a natural number; [fuel] bounds their number. *)
Fixpoint render_digits (fuel : nat) (n : Z) (acc : str) : str :=
  match fuel with
  | 0 => acc
  | S fuel =>
      let acc := Z.to_N (n mod 10 + 48) :: acc in
      if decide (n < 10)%Z then acc else render_digits fuel (n / 10) acc
  end.

(** [i128::to_string]; 40 digits are enough. *)
Definition i128_to_string (z : Z) : str :=
  (if decide (z < 0)%Z then [45%N] else []) ++ render_digits 40 (Z.abs z) [].

(** The layout of a normalized number: significant digits without leading and
    trailing zeros, times a power of ten. *)
Definition render_decimal (negative : bool) (digits : str) (power : Z) : option str :=
  let output := if negative then [45%N] else [] in
  let len := Z.of_nat (length digits) in
  if decide (0 ≤ power ≤ 64)%Z then
    Some (output ++ digits ++ replicate (Z.to_nat power) 48%N) else
  decimal_position ← checked_i128 (len + power)%Z;
  if decide (0 < decimal_position ∧ decimal_position < len)%Z then
    let split := Z.to_nat decimal_position in
    Some (output ++ take split digits ++ [46%N] ++ drop split digits) else
  if decide (-64 ≤ decimal_position ≤ 0)%Z then
    Some (output ++ lit "0." ++ replicate (Z.to_nat (- decimal_position)) 48%N ++ digits) else
  first ← head digits;
  let output := output ++ [first] ++
    (if decide (1 < length digits) then [46%N] ++ tail digits else []) in
  scientific_exponent ← checked_i128 (power + (len - 1))%Z;
  Some (output ++ (if decide (scientific_exponent ≠ 0%Z)
                   then [101%N] ++ i128_to_string scientific_exponent else [])).

(** [str::trim_end_matches(c)] *)
Definition trim_end_char (c : N) (s : str) : str := reverse (trim_start_char c (reverse s)).

Definition canonical_decimal (raw : str) : option str :=
  let '(negative, unsigned) :=
    match raw with
    | c :: value => if (c =? 45)%N then (true, value) else (false, raw)
    | [] => (false, raw)
    end in
  '(mantissa, exponent) ←
    match split_first is_exponent_mark unsigned with
    | Some (mantissa, e) => exponent ← parse_i128 e; Some (mantissa, exponent)
    | None => Some (unsigned, 0%Z)
    end;
  let '(integer, fraction) :=
    match split_first is_point mantissa with Some parts => parts | None => (mantissa, []) end in
  let digits := trim_start_char 48 (integer ++ fraction) in
  if decide (digits = []) then Some (lit "0") else
  let significant := trim_end_char 48 digits in
  let trailing_zeros := (Z.of_nat (length digits) - Z.of_nat (length significant))%Z in
  power ← checked_i128 (exponent - Z.of_nat (length fraction))%Z;
  power ← checked_i128 (power + trailing_zeros)%Z;
  render_decimal negative significant power.

(** ** Normalization *)

Section Canonicalize.
Context `{JsonLibrary}.
Abbreviation Value := (Value Number).

Definition normalize_string (input : str) : str := collapse [] false (to_lowercase (nfkc input)).

(** The loop of [visit_map] over the entries; [f] reads a value. *)
Section InsertAll.
Context (f : RawJson → option Value).

Fixpoint insert_all (keys : gset str) (output : list (str * Value))
    (entries : list (str * RawJson)) : option (list (str * Value)) :=
  match entries with
  | [] => Some output
  | (key, value) :: entries =>
      if decide (key ∈ keys) then None else
      value ← f value;
      insert_all ({[key]} ∪ keys) (map_insert key value output) entries
  end.
End InsertAll.

(** [StrictVisitor]: a document without duplicate object keys. *)
Fixpoint strict_value (raw : RawJson) : option Value :=
  match raw with
  | RawNull => Some Null
  | RawBool b => Some (Bool b)
  | RawInt z => Some (Num (number_from z))
  | RawFloat => None
  | RawString s => Some (String_ s)
  | RawSeq items => Array <$> mapM strict_value items
  | RawMap entries =>
      match entries with
      | [] => Some (Object [])
      | (first_key, first_value) :: rest =>
          if decide (first_key = ARBITRARY_PRECISION_NUMBER_TOKEN) then
            match first_value, rest with
            | RawString raw, [] => Num <$> parse_number raw
            | _, _ => None
            end
          else
            Object <$> insert_all strict_value ∅ [] entries
      end
  end.

Definition normalize_number (number : Number) : Number :=
  match as_i64 number with
  | Some value => number_from value
  | None =>
      match as_u64 number with
      | Some value => number_from value
      | None =>
          default number (value ← canonical_decimal (number_to_string number); parse_number value)
      end
  end.

Definition as_str (v : Value) : option str :=
  match v with String_ s => Some s | _ => None end.

Definition attr_key (value : Value) : str * str :=
  match value with
  | Object map =>
      (default [] (map_get (lit "trait_type") map ≫= as_str),
       default [] (to_string <$> map_get (lit "value") map))
  | _ => ([], to_string value)
  end.

(** The derived order of pairs of strings. *)
Definition attr_key_compare (a b : str * str) : comparison :=
  then_with (str_compare a.1 b.1) (str_compare a.2 b.2).

Definition sort_attributes (attributes : list Value) : list Value :=
  if decide (length attributes < 2) then attributes
  else (sort_by (λ a b, attr_key_compare a.1 b.1) (map (λ v, (attr_key v, v)) attributes)).*2.

(** [if let Some((_, Value::Array(attributes))) = entries.iter_mut().find(..)]:
    the first entry with that key, when it is an array. *)
Fixpoint sort_attributes_entry (entries : list (str * Value)) : list (str * Value) :=
  match entries with
  | [] => []
  | (key, value) :: rest =>
      if decide (key = lit "attributes") then
        (key, match value with Array attributes => Array (sort_attributes attributes) | _ => value end)
        :: rest
      else (key, value) :: sort_attributes_entry rest
  end.

(** The loop of [normalize_value] over the entries of an object. *)
Section NormalizeEntries.
Context (f : Value → option Value).

Fixpoint normalize_entries (normalized_keys : gset str) (map : list (str * Value))
    : option (list (str * Value)) :=
  match map with
  | [] => Some []
  | (key, value) :: map =>
      let key := normalize_string key in
      if decide (key ∈ normalized_keys) then None else
      value ← f value;
      entries ← normalize_entries ({[key]} ∪ normalized_keys) map;
      Some ((key, value) :: entries)
  end.
End NormalizeEntries.

Fixpoint normalize_value (value : Value) : option Value :=
  match value with
  | String_ s => Some (String_ (normalize_string s))
  | Num number => Some (Num (normalize_number number))
  | Array items => Array <$> mapM normalize_value items
  | Object map =>
      entries ← normalize_entries normalize_value ∅ map;
      Some (Object (map_collect
        (sort_by (λ l r, str_compare l.1 r.1) (sort_attributes_entry entries))))
  | Null => Some Null
  | Bool b => Some (Bool b)
  end.

Definition canonicalize_json (raw : str) : option str :=
  value ← parse_json (trim raw);
  value ← strict_value value;
  to_string <$> normalize_value value.
End Canonicalize.

(** ** White space *)

(** [str::split_whitespace] *)
Fixpoint split_whitespace (current : str) (s : str) : list str :=
  match s with
  | [] => if decide (current = []) then [] else [current]
  | c :: s =>
      if is_whitespace c then
        if decide (current = []) then split_whitespace [] s else current :: split_whitespace [] s
      else split_whitespace (current ++ [c]) s
  end.

(** [words.join(" ")] *)
Definition join_words (ws : list str) : str :=
  match ws with [] => [] | w :: ws => w ++ mjoin (cons 32%N <$> ws) end.

Lemma split_whitespace_words current s :
  current ≠ [] → ∃ w ws, split_whitespace current s = w :: ws.
Proof.
  revert current. induction s as [|c s IH]; intros current Hc; simpl.
  - rewrite decide_False by done. eauto.
  - destruct (is_whitespace c); [rewrite decide_False by done; eauto|]. apply IH. by destruct current.
Qed.

Lemma collapse_words s :
  (collapse [] false s = join_words (split_whitespace [] s)) ∧
  (∀ out, out ≠ [] → collapse out true s = out ++ mjoin (cons 32%N <$> split_whitespace [] s)) ∧
  (∀ out current, current ≠ [] →
     collapse (out ++ current) false s = out ++ join_words (split_whitespace current s)).
Proof.
  induction s as [|c s (IHs & IHp & IHc)].
  - split_and!; [done|intros out _; by rewrite app_nil_r|]. intros out current Hc. simpl.
    rewrite decide_False by done. simpl. by rewrite app_nil_r.
  - split_and!.
    + simpl. destruct (is_whitespace c); [done|]. by apply (IHc [] [c]).
    + intros out Hout. simpl. destruct (is_whitespace c).
      * rewrite bool_decide_eq_false_2 by done. by apply IHp.
      * rewrite <- app_assoc. rewrite (app_assoc out). rewrite (IHc (out ++ [32%N]) [c]) by done.
        destruct (split_whitespace_words [c] s) as (w & ws & ->); [done|]. simpl.
        by rewrite <- app_assoc.
    + intros out current Hc. simpl. destruct (is_whitespace c).
      * rewrite bool_decide_eq_false_2 by (by intros [_ ?]%app_nil).
        rewrite IHp by (by intros [_ ?]%app_nil). rewrite decide_False by done. simpl. by rewrite app_assoc.
      * rewrite <- app_assoc. apply IHc. by destruct current.
Qed.

(** ** Digits *)

Definition all_digits (ds : str) : Prop := Forall (λ c, is_ascii_digit c = true) ds.

Lemma digit_value_bounds c : is_ascii_digit c = true → (0 ≤ digit_value c < 10)%Z.
Proof. unfold is_ascii_digit, in_chars, digit_value. rewrite andb_true_iff, !N.leb_le. lia. Qed.

Lemma digit_value_inj c d :
  is_ascii_digit c = true → is_ascii_digit d = true → digit_value c = digit_value d → c = d.
Proof. unfold digit_value. lia. Qed.

Lemma digits_value_snoc ds c : digits_value (ds ++ [c]) = (digits_value ds * 10 + digit_value c)%Z.
Proof. unfold digits_value. by rewrite foldl_app. Qed.

Lemma digits_value_app a b :
  digits_value (a ++ b) = (digits_value a * 10 ^ Z.of_nat (length b) + digits_value b)%Z.
Proof.
  induction b as [|c b IH] using rev_ind; [simpl; rewrite app_nil_r; unfold digits_value at 3; simpl; lia|].
  rewrite app_assoc, !digits_value_snoc, IH, length_app, Nat2Z.inj_add, Z.pow_add_r by lia.
  change (Z.of_nat (length [c])) with 1%Z. lia.
Qed.

Lemma digits_value_bounds ds : all_digits ds → (0 ≤ digits_value ds < 10 ^ Z.of_nat (length ds))%Z.
Proof.
  induction ds as [|c ds IH] using rev_ind; intros Hd; [done|].
  apply Forall_app in Hd as [Hd [Hc _]%Forall_cons]. specialize (IH Hd).
  apply digit_value_bounds in Hc. rewrite digits_value_snoc, length_app, Nat2Z.inj_add, Z.pow_add_r by lia.
  change (10 ^ Z.of_nat (length [c]))%Z with 10%Z. nia.
Qed.

Lemma digits_value_zeros n : digits_value (replicate n 48%N) = 0%Z.
Proof. induction n as [|n IH]; [done|]. change (replicate (S n) 48%N) with ([48%N] ++ replicate n 48%N).
  rewrite digits_value_app, IH. done. Qed.

Definition no_leading_zero (ds : str) : Prop := head ds ≠ Some 48%N.
Definition no_trailing_zero (ds : str) : Prop := last ds ≠ Some 48%N.

Lemma digits_value_positive ds :
  all_digits ds → no_leading_zero ds → ds ≠ [] → (0 < digits_value ds)%Z.
Proof.
  intros Hd Hz Hne. destruct ds as [|c ds]; [done|]. apply Forall_cons in Hd as [Hc Hd].
  change (c :: ds) with ([c] ++ ds). rewrite digits_value_app.
  pose proof (digits_value_bounds ds Hd). pose proof (digit_value_bounds c Hc).
  assert (digit_value c ≠ 0)%Z.
  { intros Hm0. apply Hz. simpl. f_equal. apply digit_value_inj; [done|done|]. by rewrite Hm0. }
  change (digits_value [c]) with (0 * 10 + digit_value c)%Z. nia.
Qed.

Lemma no_leading_zero_prefix a b : a ≠ [] → no_leading_zero (a ++ b) → no_leading_zero a.
Proof. by destruct a. Qed.

Lemma digits_value_unique a b :
  all_digits a → all_digits b → no_leading_zero a → no_leading_zero b →
  digits_value a = digits_value b → a = b.
Proof.
  revert b. induction a as [|c a IH] using rev_ind; intros b Ha Hb Hza Hzb Heq.
  - destruct b as [|d b]; [done|]. pose proof (digits_value_positive (d :: b) Hb Hzb ltac:(done)).
    change (digits_value []) with 0%Z in Heq. lia.
  - destruct b as [|d b _] using rev_ind.
    { pose proof (digits_value_positive (a ++ [c]) Ha Hza ltac:(by destruct a)).
      change (digits_value []) with 0%Z in Heq. lia. }
    apply Forall_app in Ha as [Ha [Hc _]%Forall_cons], Hb as [Hb [Hd _]%Forall_cons].
    rewrite !digits_value_snoc in Heq.
    pose proof (digit_value_bounds c Hc). pose proof (digit_value_bounds d Hd).
    assert (digit_value c = digit_value d) by lia. assert (c = d) as -> by (by apply digit_value_inj).
    f_equal. apply IH; [done|done| | |lia].
    + destruct a; [by intros ?|]. by eapply no_leading_zero_prefix.
    + destruct b; [by intros ?|]. by eapply no_leading_zero_prefix.
Qed.

Lemma digits_value_last ds :
  all_digits ds → ds ≠ [] → no_trailing_zero ds → (digits_value ds mod 10 ≠ 0)%Z.
Proof.
  intros Hd Hne Hz. destruct ds as [|c ds _] using rev_ind; [done|].
  apply Forall_app in Hd as [_ [Hc _]%Forall_cons]. rewrite digits_value_snoc.
  pose proof (digit_value_bounds c Hc). rewrite Z.add_comm, Z.mod_add, Z.mod_small by lia.
  intros Hm0. apply Hz. rewrite last_snoc. f_equal. apply digit_value_inj; [done|done|]. by rewrite Hm0.
Qed.

(** Trimming zeros. *)
Lemma trim_start_zeros s :
  ∃ n, s = replicate n 48%N ++ trim_start_char 48 s ∧ no_leading_zero (trim_start_char 48 s).
Proof.
  induction s as [|c s (n & Hs & Hz)]; [by exists 0|]. simpl.
  destruct (N.eqb_spec c 48) as [->|Hc]; [|exists 0; split; [done|]; by intros [=]].
  exists (S n). split; [|done]. simpl. by rewrite <- Hs.
Qed.

Lemma reverse_replicate_zeros n : reverse (replicate n 48%N) = replicate n 48%N.
Proof. apply reverse_replicate. Qed.

Lemma trim_end_zeros s :
  ∃ n, s = trim_end_char 48 s ++ replicate n 48%N ∧ no_trailing_zero (trim_end_char 48 s).
Proof.
  unfold trim_end_char. destruct (trim_start_zeros (reverse s)) as (n & Hs & Hz). exists n. split.
  - rewrite <- (reverse_involutive s) at 1. rewrite Hs at 1. by rewrite reverse_app, reverse_replicate_zeros.
  - unfold no_trailing_zero, no_leading_zero in *. by rewrite last_reverse.
Qed.

(** ** The value of a decimal text *)

(** The sign, the integer and fraction digits and the exponent of a text. *)
Definition decimal_parts (raw : str) : option (bool * str * str * Z) :=
  let '(negative, unsigned) :=
    match raw with
    | c :: value => if (c =? 45)%N then (true, value) else (false, raw)
    | [] => (false, raw)
    end in
  '(mantissa, exponent) ←
    match split_first is_exponent_mark unsigned with
    | Some (mantissa, e) => exponent ← parse_i128 e; Some (mantissa, exponent)
    | None => Some (unsigned, 0%Z)
    end;
  let '(integer, fraction) :=
    match split_first is_point mantissa with Some parts => parts | None => (mantissa, []) end in
  Some (negative, integer, fraction, exponent).

Definition signed (negative : bool) (z : Z) : Z := if negative then (- z)%Z else z.

(** The number [m * 10 ^ e] that a decimal text denotes, as [(m, e)]. *)
Definition decimal_value (raw : str) : option (Z * Z) :=
  '(negative, integer, fraction, exponent) ← decimal_parts raw;
  if decide (integer ++ fraction ≠ [] ∧ all_digits (integer ++ fraction))
  then Some (signed negative (digits_value (integer ++ fraction)),
             (exponent - Z.of_nat (length fraction))%Z)
  else None.

Definition same_value (v w : Z * Z) : Prop :=
  let k := Z.min v.2 w.2 in (v.1 * 10 ^ (v.2 - k) = w.1 * 10 ^ (w.2 - k))%Z.

(** Equality of values can be checked at any common scale. *)
Lemma same_value_scale v w k :
  (k ≤ v.2)%Z → (k ≤ w.2)%Z →
  same_value v w ↔ (v.1 * 10 ^ (v.2 - k) = w.1 * 10 ^ (w.2 - k))%Z.
Proof.
  intros Hv Hw. unfold same_value. cbv zeta. set (j := Z.min v.2 w.2).
  replace (v.2 - k)%Z with (v.2 - j + (j - k))%Z by lia.
  replace (w.2 - k)%Z with (w.2 - j + (j - k))%Z by lia.
  rewrite !Z.pow_add_r, !Z.mul_assoc by lia. pose proof (Z.pow_pos_nonneg 10 (j - k) ltac:(lia) ltac:(lia)).
  rewrite Z.mul_cancel_r by lia. done.
Qed.

Lemma same_value_refl v : same_value v v.
Proof. done. Qed.

Lemma same_value_sym v w : same_value v w → same_value w v.
Proof. unfold same_value. cbv zeta. by rewrite Z.min_comm. Qed.

Lemma same_value_trans u v w : same_value u v → same_value v w → same_value u w.
Proof.
  set (k := Z.min u.2 (Z.min v.2 w.2)).
  rewrite (same_value_scale u v k), (same_value_scale v w k), (same_value_scale u w k) by lia. congruence.
Qed.

(** The sign, the significant digits and the power of ten; no digits is zero. *)
Definition normal_form_parts (negative : bool) (integer fraction : str) (exponent : Z)
    : option (bool * str * Z) :=
  let digits := trim_start_char 48 (integer ++ fraction) in
  if decide (digits = []) then Some (false, [], 0%Z) else
  let significant := trim_end_char 48 digits in
  power ← checked_i128 (exponent - Z.of_nat (length fraction))%Z;
  power ← checked_i128 (power + (Z.of_nat (length digits) - Z.of_nat (length significant)))%Z;
  Some (negative, significant, power).

Definition normal_form (raw : str) : option (bool * str * Z) :=
  '(negative, integer, fraction, exponent) ← decimal_parts raw;
  normal_form_parts negative integer fraction exponent.

Definition render_normal (nf : bool * str * Z) : option str :=
  let '(negative, digits, power) := nf in
  if decide (digits = []) then Some (lit "0") else render_decimal negative digits power.

Lemma trim_end_nonempty s : s ≠ [] → no_leading_zero s → trim_end_char 48 s ≠ [].
Proof.
  intros Hne Hz E. destruct (trim_end_zeros s) as (n & Hs & _). rewrite E in Hs. simpl in Hs.
  destruct n; [by apply Hne|]. apply Hz. by rewrite Hs.
Qed.

(** Canonicalization renders the normal form. *)
Lemma canonical_decimal_normal raw : canonical_decimal raw = normal_form raw ≫= render_normal.
Proof.
  unfold canonical_decimal, normal_form, decimal_parts, normal_form_parts.
  set (p := match raw with [] => _ | _ => _ end). destruct p as [negative unsigned].
  destruct (match split_first is_exponent_mark unsigned with Some _ => _ | None => _ end)
    as [[mantissa exponent]|]; [|done]. cbn [mbind option_bind].
  destruct (match split_first is_point mantissa with Some _ => _ | None => _ end) as [integer fraction].
  cbn [mbind option_bind]. cbv zeta.
  destruct (trim_start_zeros (integer ++ fraction)) as (n & _ & Hz).
  case_decide as Hd; [done|]. pose proof (trim_end_nonempty _ Hd Hz) as Hne.
  destruct (checked_i128 _) as [power|]; [|done]. cbn [mbind option_bind].
  destruct (checked_i128 _) as [power'|]; [|done]. cbn [mbind option_bind render_normal].
  by rewrite decide_False by done.
Qed.

(** A normal form: no zeros at the ends, power zero and no sign for zero. *)
Definition normal (nf : bool * str * Z) : Prop :=
  let '(negative, ds, power) := nf in
  all_digits ds ∧ no_leading_zero ds ∧ no_trailing_zero ds ∧
  (i128_min ≤ power ≤ i128_max)%Z ∧ (ds = [] → negative = false ∧ power = 0%Z).

Definition normal_value (nf : bool * str * Z) : Z * Z :=
  let '(negative, ds, power) := nf in (signed negative (digits_value ds), power).

Lemma checked_i128_Some z w : checked_i128 z = Some w ↔ w = z ∧ (i128_min ≤ z ≤ i128_max)%Z.
Proof. unfold checked_i128. case_decide; naive_solver. Qed.

Lemma signed_mul negative a b : signed negative (a * b) = (signed negative a * b)%Z.
Proof. destruct negative; simpl; lia. Qed.

Lemma normal_form_value raw v nf :
  decimal_value raw = Some v → normal_form raw = Some nf → normal nf ∧ same_value v (normal_value nf).
Proof.
  unfold decimal_value, normal_form.
  destruct (decimal_parts raw) as [[[[negative integer] fraction] exponent]|]; [|done].
  cbn [mbind option_bind]. intros Hv. case_decide as Hd; [|done]. destruct Hd as [_ Hd]. injection Hv as <-.
  unfold normal_form_parts. cbv zeta.
  destruct (trim_start_zeros (integer ++ fraction)) as (n & Hs & Hz).
  set (digits := trim_start_char 48 (integer ++ fraction)) in *.
  assert (Hdig : all_digits digits) by (rewrite Hs in Hd; by apply Forall_app in Hd as [_ ?]).
  assert (Hval : digits_value (integer ++ fraction) = digits_value digits)
    by (rewrite Hs, digits_value_app, digits_value_zeros; lia).
  destruct (decide (digits = [])) as [Hnil|Hne].
  { intros [= <-]. split; [|].
    - split; [constructor|]. split_and!; done.
    - unfold same_value. simpl. rewrite Hval, Hnil. change (digits_value []) with 0%Z. by destruct negative. }
  destruct (trim_end_zeros digits) as (k & He & Hz').
  pose proof (trim_end_nonempty _ Hne Hz) as Hsne.
  set (significant := trim_end_char 48 digits) in *. intros Hnf.
  apply bind_Some in Hnf as (p1 & Hp1 & Hnf). apply checked_i128_Some in Hp1 as [-> Hr1].
  apply bind_Some in Hnf as (p2 & Hp2 & [= <-]). apply checked_i128_Some in Hp2 as [-> Hr2].
  assert (Hk : length digits = length significant + k) by (rewrite He, length_app, length_replicate; done).
  split.
  - split_and!; [|by eapply no_leading_zero_prefix; [done|rewrite <- He]|done|lia|lia|done].
    rewrite He in Hdig. by apply Forall_app in Hdig as [? _].
  - set (e := (exponent - Z.of_nat (length fraction))%Z) in *.
    replace (e + _)%Z with (e + Z.of_nat k)%Z by lia.
    rewrite (same_value_scale _ _ e) by (simpl; lia). simpl.
    replace (e - e)%Z with 0%Z by lia. replace (e + Z.of_nat k - e)%Z with (Z.of_nat k) by lia.
    rewrite Hval, He, digits_value_app, digits_value_zeros, length_replicate.
    rewrite Z.pow_0_r, <- !signed_mul. f_equal. lia.
Qed.

(** Equal values have equal normal forms. *)
Lemma normal_unique nf1 nf2 :
  normal nf1 → normal nf2 → same_value (normal_value nf1) (normal_value nf2) → nf1 = nf2.
Proof.
  cut (∀ nf1 nf2, (nf1.2 ≤ nf2.2)%Z → normal nf1 → normal nf2 →
    same_value (normal_value nf1) (normal_value nf2) → nf1 = nf2).
  { intros Hw H1 H2 Hs. destruct (Z.le_ge_cases nf1.2 nf2.2); [by apply Hw|].
    symmetry. apply Hw; [done..|]. by apply same_value_sym. }
  intros [[n1 d1] p1] [[n2 d2] p2] Hp (Ha1 & Hz1 & Ht1 & _ & H01) (Ha2 & Hz2 & Ht2 & _ & H02) Hs.
  simpl in Hp. rewrite (same_value_scale _ _ p1) in Hs by (simpl; lia). simpl in Hs.
  rewrite Z.sub_diag, Z.mul_1_r in Hs.
  pose proof (digits_value_bounds d1 Ha1) as [Hb1 _]. pose proof (digits_value_bounds d2 Ha2) as [Hb2 _].
  pose proof (Z.pow_pos_nonneg 10 (p2 - p1) ltac:(lia) ltac:(lia)) as Hpow.
  destruct (decide (d1 = [])) as [->|Hne1].
  { destruct H01 as [-> ->]; [done|]. change (digits_value []) with 0%Z in Hs.
    destruct (decide (d2 = [])) as [->|Hne2]; [by destruct H02 as [-> ->]|].
    pose proof (digits_value_positive d2 Ha2 Hz2 Hne2). destruct n2; simpl in Hs; nia. }
  pose proof (digits_value_positive d1 Ha1 Hz1 Hne1) as Hpos1.
  destruct (decide (d2 = [])) as [->|Hne2].
  { change (digits_value []) with 0%Z in Hs. destruct n1, n2; simpl in Hs; nia. }
  pose proof (digits_value_positive d2 Ha2 Hz2 Hne2) as Hpos2.
  assert (n1 = n2) as -> by (destruct n1, n2; simpl in Hs; nia).
  assert (Heq : (digits_value d1 = digits_value d2 * 10 ^ (p2 - p1))%Z) by (destruct n2; simpl in Hs; nia).
  assert (p1 = p2) as ->.
  { destruct (decide (p1 = p2)) as [|Hlt]; [done|exfalso].
    apply (digits_value_last d1 Ha1 Hne1 Ht1). rewrite Heq.
    replace (p2 - p1)%Z with (p2 - p1 - 1 + 1)%Z by lia. rewrite Z.pow_add_r by lia.
    rewrite Z.mul_assoc. apply Z.mod_mul. lia. }
  rewrite Z.sub_diag, Z.mul_1_r in Heq. do 2 f_equal. by apply digits_value_unique.
Qed.

(** ** Rendering a normal form is parsed back to it *)

Lemma split_first_at p l c r :
  Forall (λ x, p x = false) l → p c = true → split_first p (l ++ c :: r) = Some (l, r).
Proof. intros Hl Hc. induction Hl as [|x l Hx _ IH]; simpl; [by rewrite Hc|]. by rewrite Hx, IH. Qed.

Lemma split_first_none p l : Forall (λ x, p x = false) l → split_first p l = None.
Proof. intros Hl. induction Hl as [|x l Hx _ IH]; simpl; [done|]. by rewrite Hx, IH. Qed.

Lemma digit_not_mark c : is_ascii_digit c = true → is_exponent_mark c = false ∧ is_point c = false ∧ (c =? 45)%N = false ∧ (c =? 43)%N = false.
Proof.
  unfold is_ascii_digit, in_chars, is_exponent_mark, is_point.
  rewrite andb_true_iff, !N.leb_le, orb_false_iff, !N.eqb_neq. lia.
Qed.

Lemma digits_no_mark ds : all_digits ds → Forall (λ c, is_exponent_mark c = false) ds.
Proof. intros Hd. eapply Forall_impl; [exact Hd|]. intros c Hc. by apply digit_not_mark. Qed.

Lemma digits_no_point ds : all_digits ds → Forall (λ c, is_point c = false) ds.
Proof. intros Hd. eapply Forall_impl; [exact Hd|]. intros c Hc. by apply digit_not_mark. Qed.

Lemma zeros_digits n : all_digits (replicate n 48%N).
Proof. by apply Forall_replicate. Qed.

Lemma render_digits_spec fuel n acc :
  (0 ≤ n < 10 ^ Z.of_nat fuel)%Z → 0 < fuel →
  ∃ ds, render_digits fuel n acc = ds ++ acc ∧ all_digits ds ∧ ds ≠ [] ∧ digits_value ds = n.
Proof.
  revert n acc. induction fuel as [|fuel IH]; intros n acc Hn Hf; [lia|]. simpl.
  pose proof (Z.mod_pos_bound n 10 ltac:(lia)) as Hm.
  assert (Hdig : is_ascii_digit (Z.to_N (n mod 10 + 48)) = true)
    by (unfold is_ascii_digit, in_chars; rewrite andb_true_iff, !N.leb_le; lia).
  assert (Hval : digit_value (Z.to_N (n mod 10 + 48)) = (n mod 10)%Z) by (unfold digit_value; lia).
  case_decide as H10.
  - exists [Z.to_N (n mod 10 + 48)]. split_and!; [done|by constructor|done|].
    unfold digits_value. simpl. rewrite Hval. rewrite Z.mod_small; lia.
  - assert (0 < fuel) by (destruct fuel; [simpl in Hn; lia|lia]).
    destruct (IH (n / 10)%Z (Z.to_N (n mod 10 + 48) :: acc)) as (ds & -> & Hd & Hne & Hv); [|done|].
    + split; [apply Z.div_pos; lia|]. apply Z.div_lt_upper_bound; [lia|].
      rewrite Nat2Z.inj_succ, Z.pow_succ_r in Hn by lia. lia.
    + exists (ds ++ [Z.to_N (n mod 10 + 48)]). split_and!; [by rewrite <- app_assoc|by apply Forall_app_2; [|constructor]|by destruct ds|].
      rewrite digits_value_snoc, Hv, Hval. pose proof (Z.div_mod n 10). lia.
Qed.

Lemma i128_to_string_chars z c : (i128_min ≤ z ≤ i128_max)%Z → c ∈ i128_to_string z →
  c = 45%N ∨ is_ascii_digit c = true.
Proof.
  intros Hz Hc. unfold i128_to_string in Hc. apply elem_of_app in Hc as [Hc|Hc].
  - case_decide; [left; by apply list_elem_of_singleton|by apply elem_of_nil in Hc].
  - right. destruct (render_digits_spec 40 (Z.abs z) []) as (ds & E & Hd & _ & _);
      [unfold i128_min, i128_max in Hz; lia|lia|]. rewrite E, app_nil_r in Hc.
    unfold all_digits in Hd. rewrite Forall_forall in Hd. by apply Hd.
Qed.

Lemma parse_i128_to_string z : (i128_min ≤ z ≤ i128_max)%Z → parse_i128 (i128_to_string z) = Some z.
Proof.
  intros Hz. unfold i128_to_string.
  destruct (render_digits_spec 40 (Z.abs z) []) as (ds & -> & Hd & Hne & Hv);
    [unfold i128_min, i128_max in Hz; lia|lia|]. rewrite app_nil_r. unfold parse_i128.
  case_decide as Hneg; simpl.
  - rewrite decide_True by done. rewrite Hv. apply checked_i128_Some. lia.
  - destruct ds as [|c ds]; [done|]. pose proof Hd as [Hc _]%Forall_cons.
    destruct (digit_not_mark c Hc) as (_ & _ & -> & ->). rewrite decide_True by done.
    rewrite Hv. apply checked_i128_Some. lia.
Qed.

Lemma trim_start_zeros_app n s : no_leading_zero s → trim_start_char 48 (replicate n 48%N ++ s) = s.
Proof.
  intros Hz. induction n as [|n IH]; simpl; [|done]. destruct s as [|c s]; [done|]. simpl.
  destruct (N.eqb_spec c 48) as [->|]; [by destruct Hz|done].
Qed.

Lemma trim_end_zeros_app n s : no_trailing_zero s → trim_end_char 48 (s ++ replicate n 48%N) = s.
Proof.
  intros Hz. unfold trim_end_char. rewrite reverse_app, reverse_replicate_zeros, trim_start_zeros_app.
  - apply reverse_involutive.
  - unfold no_leading_zero, no_trailing_zero in *. by rewrite head_reverse.
Qed.

(** Parts with the significant digits [ds], zeros around them, and the right
    exponent have the normal form with these digits. *)
Lemma normal_form_parts_of negative integer fraction exponent ds power j k :
  integer ++ fraction = replicate j 48%N ++ ds ++ replicate k 48%N →
  (exponent - Z.of_nat (length fraction) + Z.of_nat k = power)%Z →
  normal (negative, ds, power) → ds ≠ [] → (i128_min ≤ exponent - Z.of_nat (length fraction))%Z →
  normal_form_parts negative integer fraction exponent = Some (negative, ds, power).
Proof.
  intros Heq Hp (Hd & Hz & Ht & Hr & _) Hne Hmin. unfold normal_form_parts. cbv zeta.
  assert (Hz' : no_leading_zero (ds ++ replicate k 48%N)) by (by destruct ds).
  rewrite Heq, trim_start_zeros_app by done.
  rewrite decide_False by (by intros [? _]%app_nil). rewrite trim_end_zeros_app by done.
  assert (checked_i128 (exponent - Z.of_nat (length fraction)) = Some (exponent - Z.of_nat (length fraction))%Z) as ->
    by (apply checked_i128_Some; lia).
  cbn [mbind option_bind]. rewrite length_app, length_replicate.
  replace (exponent - Z.of_nat (length fraction) + (Z.of_nat (length ds + k) - Z.of_nat (length ds)))%Z
    with power by lia.
  assert (checked_i128 power = Some power) as -> by (by apply checked_i128_Some). done.
Qed.

Lemma sign_parts (negative : bool) (u : str) (c : N) :
  head u = Some c → (c =? 45)%N = false →
  (match (if negative then [45%N] else []) ++ u with
   | c :: value => if (c =? 45)%N then (true, value) else (false, (if negative then [45%N] else []) ++ u)
   | [] => (false, (if negative then [45%N] else []) ++ u)
   end) = (negative, u).
Proof. intros Hu Hc. destruct negative; simpl; [done|]. destruct u; simplify_eq/=. by rewrite Hc. Qed.

(** The parts of a text with a fraction, and of a text with an exponent. *)
Lemma decimal_parts_text (negative : bool) (integer fraction : str) (e : Z) (point : bool) (mark : option Z) :
  all_digits integer → all_digits fraction → integer ≠ [] →
  (point = false → fraction = []) →
  match mark with Some z => (i128_min ≤ z ≤ i128_max)%Z ∧ e = z | None => e = 0%Z end →
  decimal_parts ((if negative then [45%N] else []) ++
    (integer ++ (if point then [46%N] ++ fraction else [])) ++
    match mark with Some z => [101%N] ++ i128_to_string z | None => [] end)
  = Some (negative, integer, fraction, e).
Proof.
  intros Hi Hf Hne Hpoint Hmark. destruct integer as [|c integer]; [done|].
  pose proof Hi as [Hc _]%Forall_cons.
  destruct (digit_not_mark c Hc) as (_ & _ & Hc45 & _).
  unfold decimal_parts. rewrite (sign_parts _ _ c) by done.
  assert (Hm : Forall (λ x, is_exponent_mark x = false) ((c :: integer) ++ (if point then [46%N] ++ fraction else []))).
  { apply Forall_app_2; [by apply digits_no_mark|]. destruct point; [|constructor].
    constructor; [done|by apply digits_no_mark]. }
  assert (Hsplit : split_first is_point ((c :: integer) ++ (if point then [46%N] ++ fraction else [])) =
                   if point then Some (c :: integer, fraction) else None).
  { destruct point; [apply split_first_at; [by apply digits_no_point|done]|].
    rewrite app_nil_r. by apply split_first_none, digits_no_point. }
  destruct mark as [z|].
  - destruct Hmark as [Hz ->].
    change ([101%N] ++ i128_to_string z) with (101%N :: i128_to_string z).
    rewrite (split_first_at _ _ 101%N) by done.
    cbn [mbind option_bind]. rewrite parse_i128_to_string by done. cbn [mbind option_bind].
    rewrite Hsplit. destruct point; [done|]. rewrite Hpoint, app_nil_r by done. done.
  - subst e. rewrite app_nil_r. rewrite split_first_none by done. cbn [mbind option_bind].
    rewrite Hsplit. destruct point; [done|]. rewrite Hpoint, app_nil_r by done. done.
Qed.

(** The parts of a rendered normal form. *)
Lemma render_parts negative ds power out :
  normal (negative, ds, power) → ds ≠ [] → render_decimal negative ds power = Some out →
  ∃ integer fraction e j k,
    decimal_parts out = Some (negative, integer, fraction, e) ∧
    integer ++ fraction = replicate j 48%N ++ ds ++ replicate k 48%N ∧
    (e - Z.of_nat (length fraction) + Z.of_nat k = power)%Z ∧
    (i128_min ≤ e - Z.of_nat (length fraction))%Z ∧ all_digits (integer ++ fraction).
Proof.
  intros (Hd & Hz & Ht & Hr & _) Hne. unfold render_decimal. cbv zeta. case_decide as H1.
  { intros [= <-]. exists (ds ++ replicate (Z.to_nat power) 48%N), [], 0%Z, 0, (Z.to_nat power).
    assert (Hall : all_digits (ds ++ replicate (Z.to_nat power) 48%N)) by (apply Forall_app_2; [done|apply zeros_digits]).
    split_and!; [|by rewrite app_nil_r|simpl; lia|simpl; unfold i128_min; lia|by rewrite app_nil_r].
    pose proof (decimal_parts_text negative (ds ++ replicate (Z.to_nat power) 48%N) [] 0 false None) as Hp.
    simpl in Hp. rewrite !app_nil_r in Hp. apply Hp; [done|constructor|by destruct ds|done|done]. }
  intros Hout. apply bind_Some in Hout as (pos & Hpos & Hout). apply checked_i128_Some in Hpos as [-> Hpos].
  set (pos := (Z.of_nat (length ds) + power)%Z) in *. case_decide as H2.
  { injection Hout as <-. exists (take (Z.to_nat pos) ds), (drop (Z.to_nat pos) ds), 0%Z, 0, 0.
    assert (Hlen : length (drop (Z.to_nat pos) ds) = length ds - Z.to_nat pos) by apply length_drop.
    rewrite take_drop. split_and!; [|by rewrite app_nil_r|rewrite Hlen; lia|rewrite Hlen; lia|done].
    pose proof (decimal_parts_text negative (take (Z.to_nat pos) ds) (drop (Z.to_nat pos) ds) 0 true None) as Hp.
    rewrite app_nil_r in Hp. apply Hp; [by apply Forall_take|by apply Forall_drop| |done|done].
    intros Hnil. apply (f_equal length) in Hnil. rewrite length_take in Hnil. simpl in Hnil. lia. }
  case_decide as H3.
  { injection Hout as <-. set (n := Z.to_nat (- pos)).
    exists [48%N], (replicate n 48%N ++ ds), 0%Z, (S n), 0.
    assert (Hlen : length (replicate n 48%N ++ ds) = n + length ds) by (rewrite length_app, length_replicate; done).
    assert (Hall : all_digits (replicate n 48%N ++ ds)) by (apply Forall_app_2; [apply zeros_digits|done]).
    rewrite Hlen. split_and!; [|by rewrite app_nil_r|lia|lia|by constructor].
    pose proof (decimal_parts_text negative [48%N] (replicate n 48%N ++ ds) 0 true None) as Hp.
    rewrite app_nil_r in Hp. apply Hp; [by constructor|done..]. }
  destruct ds as [|first ds]; [done|]. cbn [head mbind option_bind] in Hout.
  apply bind_Some in Hout as (sci & Hsci & Hout). apply checked_i128_Some in Hsci as [-> Hsci].
  set (sci := (power + (Z.of_nat (length (first :: ds)) - 1))%Z) in *. injection Hout as <-.
  exists [first], ds, sci, 0, 0. cbn [length] in *.
  split_and!; [|by rewrite app_nil_r|lia|lia|done].
  pose proof Hd as [Hf Hds]%Forall_cons.
  pose proof (decimal_parts_text negative [first] ds sci (bool_decide (1 < S (length ds)))
    (if decide (sci ≠ 0%Z) then Some sci else None)) as Hp.
  rewrite <- Hp; [|by constructor|done|done| |by case_decide; [split|lia]].
  - f_equal. rewrite <- !app_assoc. f_equal. cbn [app]. f_equal. f_equal.
    + case_bool_decide as Hl; [by rewrite decide_True|by rewrite decide_False].
    + case_decide; done.
  - intros Hb%bool_decide_eq_false. destruct ds; [done|simpl in Hb; lia].
Qed.

(** Rendering a normal form gives a decimal text with that normal form. *)
Lemma render_normal_form nf out :
  normal nf → render_normal nf = Some out →
  normal_form out = Some nf ∧ ∃ v, decimal_value out = Some v.
Proof.
  destruct nf as [[negative ds] power]. intros Hn. unfold render_normal. case_decide as Hds.
  { intros [= <-]. subst. destruct Hn as (_ & _ & _ & _ & H0). destruct H0 as [-> ->]; [done|].
    split; [done|]. by eexists. }
  intros Hout. destruct (render_parts negative ds power out Hn Hds Hout)
    as (integer & fraction & e & j & k & Hp & Heq & He & Hmin & Hall).
  unfold normal_form, decimal_value. rewrite Hp. cbn [mbind option_bind]. split.
  - by apply (normal_form_parts_of _ _ _ _ _ _ j k).
  - rewrite decide_True; [eauto|]. split; [|done]. rewrite Heq. intros [_ [? _]%app_nil]%app_nil. done.
Qed.

(** Only an exponent near the ends of [i128] is refused. *)
Lemma canonical_decimal_total raw negative integer fraction e :
  decimal_parts raw = Some (negative, integer, fraction, e) →
  (Z.abs e + 2 * Z.of_nat (length (integer ++ fraction)) ≤ 2 ^ 126)%Z →
  is_Some (canonical_decimal raw).
Proof.
  intros Hp He. rewrite canonical_decimal_normal. unfold normal_form. rewrite Hp. cbn [mbind option_bind].
  unfold normal_form_parts. cbv zeta.
  destruct (trim_start_zeros (integer ++ fraction)) as (n & Hs & Hz).
  set (digits := trim_start_char 48 (integer ++ fraction)) in *.
  assert (Hlen : length (integer ++ fraction) = n + length digits)
    by (rewrite Hs, length_app, length_replicate; done).
  assert (Hfl : length fraction ≤ length (integer ++ fraction)) by (rewrite length_app; lia).
  case_decide as Hd; [by eexists|].
  destruct (trim_end_zeros digits) as (k & Hk & _).
  pose proof (trim_end_nonempty digits Hd Hz) as Hne. set (ds := trim_end_char 48 digits) in *.
  assert (Hkl : length digits = length ds + k) by (rewrite Hk at 1; rewrite length_app, length_replicate; done).
  assert (Hok : ∀ z, (Z.abs z ≤ 2 ^ 126)%Z → checked_i128 z = Some z)
    by (intros z Hz'; apply checked_i128_Some; unfold i128_min, i128_max; lia).
  rewrite Hok by lia. cbn [mbind option_bind]. rewrite Hok by lia. cbn [mbind option_bind render_normal].
  rewrite decide_False by done. unfold render_decimal. cbv zeta. case_decide; [by eexists|].
  assert (length ds ≠ 0) by (by intros ?%nil_length_inv).
  rewrite !Hok by lia. cbn [mbind option_bind]. case_decide; [by eexists|]. case_decide; [by eexists|].
  destruct ds as [|first ds'] eqn:Eds; [done|]. by eexists.
Qed.

(** ** Maps and sorting *)

Section MapFacts.
Context {V : Type}.
Implicit Types (m l : list (str * V)).

Definition key_lt (a b : str * V) : Prop := str_compare a.1 b.1 = Lt.

Lemma key_lt_gt k1 k2 : str_compare k1 k2 = Lt → str_compare k2 k1 = Gt.
Proof. intros H. by apply (compare_gt_lt str_compare). Qed.

Lemma map_insert_front k v m :
  match m with (k', _) :: _ => str_compare k k' = Lt | [] => True end → map_insert k v m = (k, v) :: m.
Proof. destruct m as [|[k' v'] m]; [done|]. simpl. by intros ->. Qed.

Lemma map_insert_commute_lt k1 k2 v1 v2 m :
  str_compare k1 k2 = Lt → map_insert k1 v1 (map_insert k2 v2 m) = map_insert k2 v2 (map_insert k1 v1 m).
Proof.
  intros Hlt. pose proof (key_lt_gt _ _ Hlt) as Hgt.
  induction m as [|[k v] m IH]; [simpl; by rewrite Hlt, Hgt|].
  destruct (str_compare k1 k) eqn:E1.
  - apply str_compare_eq in E1 as ->. simpl. rewrite Hgt, (compare_refl str_compare). simpl.
    by rewrite (compare_refl str_compare), Hgt.
  - rewrite (map_insert_front k1 v1 ((k, v) :: m)) by done.
    rewrite map_insert_front; [simpl; by rewrite Hgt|]. simpl. by destruct (str_compare k2 k).
  - assert (str_compare k2 k = Gt) as E2.
    { apply (compare_gt_lt str_compare). eapply (compare_lt_le_trans str_compare _ k1); [|by rewrite Hlt].
      by apply (compare_gt_lt str_compare). }
    simpl. rewrite E1, E2. simpl. rewrite E1, E2. by rewrite IH.
Qed.

Lemma map_insert_commute k1 k2 v1 v2 m :
  k1 ≠ k2 → map_insert k1 v1 (map_insert k2 v2 m) = map_insert k2 v2 (map_insert k1 v1 m).
Proof.
  intros Hne. destruct (str_compare k1 k2) eqn:E; [by apply str_compare_eq in E| |].
  - by apply map_insert_commute_lt.
  - symmetry. apply map_insert_commute_lt. by apply (compare_gt_lt str_compare).
Qed.

(** Inserting distinct keys in any order gives the same map. *)
Lemma map_inserts_permutation l1 l2 m :
  l1 ≡ₚ l2 → NoDup l1.*1 →
  foldl (λ m '(k, v), map_insert k v m) m l1 = foldl (λ m '(k, v), map_insert k v m) m l2.
Proof.
  intros Hp. revert m. induction Hp as [|[k v] l1 l2 Hp IH|[k1 v1] [k2 v2] l|l1 l2 l3 Hp1 IH1 Hp2 IH2];
    intros m Hnd.
  - done.
  - rewrite fmap_cons in Hnd. apply NoDup_cons in Hnd as [_ Hnd]. simpl. by apply IH.
  - rewrite !fmap_cons in Hnd. apply NoDup_cons in Hnd as [Hnd _]. cbn [fst] in Hnd.
    rewrite elem_of_cons in Hnd. simpl. rewrite map_insert_commute; [done|]. intros ->. apply Hnd. by left.
  - rewrite IH1 by done. apply IH2. by rewrite <- Hp1.
Qed.

Lemma elem_of_map_insert k v m x : x ∈ map_insert k v m → x = (k, v) ∨ x ∈ m.
Proof.
  induction m as [|[k' v'] m IH]; simpl; [rewrite list_elem_of_singleton; auto|].
  destruct (str_compare k k'); rewrite !elem_of_cons; naive_solver.
Qed.

Lemma map_insert_sorted k v m : StronglySorted key_lt m → StronglySorted key_lt (map_insert k v m).
Proof.
  induction 1 as [|[k' v'] m Hm IH Hk']; simpl; [repeat constructor|].
  destruct (str_compare k k') eqn:E.
  - apply str_compare_eq in E as ->. by constructor.
  - constructor; [by constructor|]. constructor; [done|]. rewrite Forall_forall in *.
    intros x Hx. eapply (compare_lt_le_trans str_compare); [exact E|]. specialize (Hk' x Hx).
    unfold key_lt in Hk'. cbn [fst] in Hk'. by rewrite Hk'.
  - constructor; [done|]. rewrite Forall_forall in *. intros x [->|Hx]%elem_of_map_insert; [|by apply Hk'].
    by apply (compare_gt_lt str_compare).
Qed.

Lemma map_collect_sorted l : StronglySorted key_lt (map_collect l).
Proof.
  unfold map_collect. assert (StronglySorted key_lt (@nil (str * V))) as H0 by constructor. revert H0.
  generalize (@nil (str * V)). induction l as [|[k v] l IH]; intros m Hm; [done|]. simpl.
  by apply IH, map_insert_sorted.
Qed.

Lemma elem_of_map_collect l x : x ∈ map_collect l → x ∈ l.
Proof.
  unfold map_collect. assert (∀ m, x ∈ foldl (λ m '(k, v), map_insert k v m) m l → x ∈ m ∨ x ∈ l) as H.
  { induction l as [|[k v] l IH]; intros m Hm; [by left|]. simpl in Hm.
    apply IH in Hm as [[->|]%elem_of_map_insert|]; rewrite elem_of_cons; auto. }
  intros [Hx|]%H; [by apply elem_of_nil in Hx|done].
Qed.
End MapFacts.

Section SortFacts.
Context {A : Type} (cmp : A → A → comparison) `{!CompareLaws cmp}.

Lemma insert_stable_perm x l : insert_stable cmp x l ≡ₚ x :: l.
Proof.
  induction l as [|y l IH]; simpl; [done|]. destruct (cmp x y); try done. rewrite IH. constructor.
Qed.

Lemma sort_by_perm l : sort_by cmp l ≡ₚ l.
Proof. induction l as [|x l IH]; simpl; [done|]. by rewrite insert_stable_perm, IH. Qed.

Lemma insert_stable_sorted x l :
  StronglySorted (λ a b, cmp a b ≠ Gt) l → StronglySorted (λ a b, cmp a b ≠ Gt) (insert_stable cmp x l).
Proof.
  induction 1 as [|y l Hl IH Hy]; simpl; [repeat constructor|].
  assert (Hle : cmp x y ≠ Gt → StronglySorted (λ a b, cmp a b ≠ Gt) (x :: y :: l)).
  { intros Hxy. constructor; [by constructor|]. constructor; [done|].
    eapply Forall_impl; [exact Hy|]. intros z Hz. by apply (compare_trans cmp x y z). }
  destruct (cmp x y) eqn:E; [by apply Hle|by apply Hle|]. constructor; [done|].
  rewrite insert_stable_perm. constructor; [|done].
  intros Hg%(compare_gt_lt cmp). congruence.
Qed.

Lemma sort_by_sorted l : StronglySorted (λ a b, cmp a b ≠ Gt) (sort_by cmp l).
Proof. induction l as [|x l IH]; simpl; [constructor|]. by apply insert_stable_sorted. Qed.
End SortFacts.

(** ** Induction on documents *)

Section RawInduction.
Context (P : RawJson → Prop) (Hleaf : ∀ r, match r with RawSeq _ | RawMap _ => False | _ => True end → P r)
  (Hseq : ∀ items, Forall P items → P (RawSeq items))
  (Hmap : ∀ entries, Forall (λ e, P e.2) entries → P (RawMap entries)).

Fixpoint RawJson_nested_ind (r : RawJson) : P r :=
  match r with
  | RawSeq items =>
      Hseq items ((fix go l : Forall P l :=
        match l with [] => Forall_nil_2 _ | x :: l => Forall_cons_2 _ _ _ (RawJson_nested_ind x) (go l) end) items)
  | RawMap entries =>
      Hmap entries ((fix go l : Forall (λ e, P e.2) l :=
        match l with [] => Forall_nil_2 _ | x :: l => Forall_cons_2 _ _ _ (RawJson_nested_ind x.2) (go l) end) entries)
  | r => Hleaf r I
  end.
End RawInduction.

Section ValueInduction.
Context {Number : Type} (P : Value Number → Prop)
  (Hleaf : ∀ v, match v with Array _ | Object _ => False | _ => True end → P v)
  (Harray : ∀ items, Forall P items → P (Array items))
  (Hobject : ∀ entries, Forall (λ e, P e.2) entries → P (Object entries)).

Fixpoint Value_nested_ind (v : Value Number) : P v :=
  match v with
  | Array items =>
      Harray items ((fix go l : Forall P l :=
        match l with [] => Forall_nil_2 _ | x :: l => Forall_cons_2 _ _ _ (Value_nested_ind x) (go l) end) items)
  | Object entries =>
      Hobject entries ((fix go l : Forall (λ e, P e.2) l :=
        match l with [] => Forall_nil_2 _ | x :: l => Forall_cons_2 _ _ _ (Value_nested_ind x.2) (go l) end) entries)
  | v => Hleaf v I
  end.
End ValueInduction.

(** ** Documents up to key order, and the shape of normalized values *)

(** The same document up to the order of the entries of its objects, at any depth. *)
Inductive same_document : RawJson → RawJson → Prop :=
  | same_refl r : same_document r r
  | same_seq items1 items2 :
      Forall2 same_document items1 items2 → same_document (RawSeq items1) (RawSeq items2)
  | same_map entries1 entries2 entries3 :
      ARBITRARY_PRECISION_NUMBER_TOKEN ∉ entries1.*1 →
      Forall2 (λ a b, a.1 = b.1 ∧ same_document a.2 b.2) entries1 entries2 →
      entries2 ≡ₚ entries3 →
      same_document (RawMap entries1) (RawMap entries3).

(** No object of the document repeats a key. *)
Inductive unique_keys : RawJson → Prop :=
  | unique_leaf r : match r with RawSeq _ | RawMap _ => False | _ => True end → unique_keys r
  | unique_seq items : Forall unique_keys items → unique_keys (RawSeq items)
  | unique_map entries :
      NoDup entries.*1 → Forall (λ e, unique_keys e.2) entries → unique_keys (RawMap entries).

Section Objects.
Context `{JsonLibrary}.
Abbreviation Value := (Value Number).
Implicit Types (v w : Value).

Definition read_entry (f : RawJson → option Value) (e : str * RawJson) : option (str * Value) :=
  (e.1,.) <$> f e.2.

Lemma insert_all_spec f keys output entries :
  insert_all f keys output entries =
    if decide (NoDup entries.*1 ∧ Forall (λ k, k ∉ keys) entries.*1) then
      foldl (λ m '(k, v), map_insert k v m) output <$> mapM (read_entry f) entries
    else None.
Proof.
  revert keys output. induction entries as [|[k r] entries IH]; intros keys output.
  { rewrite decide_True by (split; constructor). done. }
  rewrite fmap_cons. cbn [fst insert_all mapM]. case_decide as Hin.
  { rewrite decide_False; [done|]. intros [_ [Hk _]%Forall_cons]. done. }
  change (read_entry f (k, r)) with (pair k <$> f r). destruct (f r) as [v|]; cbn [fmap option_fmap option_map mbind option_bind];
    [|by destruct (decide _)].
  rewrite IH. rewrite (decide_ext _ (NoDup (k :: entries.*1) ∧ Forall (λ k, k ∉ keys) (k :: entries.*1))).
  { destruct (mapM _ entries); simpl; by destruct (decide _). }
  rewrite NoDup_cons, Forall_cons, !Forall_forall.
  split; [intros [Hnd Hk]|intros [[Hk Hnd] [_ Hf]]].
  - split_and!; [|done|done|]; [intros Hk'; apply (Hk k Hk'); set_solver|].
    intros x Hx. specialize (Hk x Hx). set_solver.
  - split; [done|]. intros x Hx. specialize (Hf x Hx). intros [->%elem_of_singleton|?]%elem_of_union; done.
Qed.

Lemma strict_value_map entries :
  ARBITRARY_PRECISION_NUMBER_TOKEN ∉ entries.*1 →
  strict_value (RawMap entries) = Object <$> insert_all strict_value ∅ [] entries.
Proof.
  destruct entries as [|[k r] entries]; [done|]. rewrite fmap_cons, not_elem_of_cons. intros [Hk _].
  cbn [fst] in Hk. cbn [strict_value]. by rewrite decide_False by done.
Qed.

Lemma insert_all_permutation f keys entries1 entries2 :
  entries1 ≡ₚ entries2 → insert_all f keys [] entries1 = insert_all f keys [] entries2.
Proof.
  intros Hp. rewrite !insert_all_spec.
  rewrite (decide_ext _ (NoDup entries2.*1 ∧ Forall (λ k, k ∉ keys) entries2.*1)) by (by rewrite Hp).
  case_decide as Hd; [|done]. destruct Hd as [Hnd _].
  assert (Hm : ∀ l1 l2 vs, l1 ≡ₚ l2 → mapM (read_entry f) l1 = Some vs →
            ∃ vs', mapM (read_entry f) l2 = Some vs' ∧ vs ≡ₚ vs').
  { intros l1 l2 vs Hl Hvs. apply mapM_Some in Hvs.
    destruct (Permutation_Forall2 Hl Hvs) as (vs' & Hpv & Hvs').
    exists vs'. split; [by apply mapM_Some|done]. }
  destruct (mapM _ entries1) as [vs1|] eqn:E1.
  - destruct (Hm _ _ _ Hp E1) as (vs2 & E2 & Hv). rewrite E2. cbn. f_equal.
    apply map_inserts_permutation; [done|]. rewrite Hv.
    apply mapM_Some in E2. replace vs2.*1 with entries2.*1; [done|]. clear -E2.
    induction E2 as [|[k r] [k' v] l l' Hh _ IH]; [done|].
    unfold read_entry in Hh. simpl in *. destruct (f r); simplify_eq/=. by f_equal.
  - destruct (mapM _ entries2) as [vs2|] eqn:E2; [|done].
    destruct (Hm _ _ _ (symmetry Hp) E2) as (vs1 & E1' & _). congruence.
Qed.

Lemma mapM_Forall2_eq {A B} (g : A → option B) (l1 l2 : list A) :
  Forall2 (λ a b, g a = g b) l1 l2 → mapM g l1 = mapM g l2.
Proof. induction 1 as [|a b l1 l2 Hab _ IH]; [done|]. cbn [mapM]. by rewrite Hab, IH. Qed.

Lemma strict_value_same r1 r2 : same_document r1 r2 → strict_value r1 = strict_value r2.
Proof.
  revert r2. induction r1 as [r Hr|items IH|entries IH] using RawJson_nested_ind; intros r2 Hs.
  - inversion Hs; subst; [done|by destruct Hr..].
  - inversion Hs as [|items1 items2 Hf|]; subst; [done|]. cbn [strict_value]. f_equal.
    apply mapM_Forall2_eq. clear Hs. induction Hf as [|a b l1 l2 Hab _ IHf]; [constructor|].
    apply Forall_cons in IH as [Ha IH]. constructor; [by apply Ha|by apply IHf].
  - inversion Hs as [| |? entries2 entries3 Ht Hf Hp]; subst; [done|]. clear Hs.
    assert (Hkeys : entries.*1 = entries2.*1).
    { clear -Hf. induction Hf as [|a b l1 l2 [Hab _] _ IHf]; [done|]. rewrite !fmap_cons. by f_equal. }
    rewrite !strict_value_map by (rewrite <- ?Hp, <- ?Hkeys; done). f_equal.
    rewrite <- (insert_all_permutation _ _ _ _ Hp), !insert_all_spec, Hkeys.
    case_decide; [|done]. f_equal. apply mapM_Forall2_eq. clear -IH Hf.
    induction Hf as [|a b l1 l2 [Hk Hab] _ IHf]; [constructor|]. apply Forall_cons in IH as [Ha IH].
    constructor; [|by apply IHf]. by unfold read_entry; rewrite Hk, (Ha _ Hab).
Qed.

Lemma strict_value_unique r v : strict_value r = Some v → unique_keys r.
Proof.
  revert v. induction r as [r Hr|items IH|entries IH] using RawJson_nested_ind; intros v Hv.
  - by apply unique_leaf.
  - apply unique_seq. cbn [strict_value] in Hv. apply fmap_Some in Hv as (vs & Hvs & _).
    apply mapM_Some in Hvs. clear -IH Hvs.
    induction Hvs as [|a b l l' Hab _ IHf]; [constructor|]. apply Forall_cons in IH as [Ha IH].
    constructor; [by eapply Ha|by apply IHf].
  - destruct entries as [|[k r] rest]; [apply unique_map; constructor|].
    cbn [strict_value] in Hv. case_decide as Hk.
    { destruct r; try done. destruct rest; [|done]. apply unique_map; [apply NoDup_singleton|].
      constructor; [by apply unique_leaf|constructor]. }
    apply fmap_Some in Hv as (m & Hm & _). rewrite insert_all_spec in Hm. case_decide as Hd; [|done].
    destruct Hd as [Hnd _]. apply unique_map; [done|].
    apply fmap_Some in Hm as (vs & Hvs & _). apply mapM_Some in Hvs. clear -IH Hvs.
    induction Hvs as [|a b l l' Hab _ IHf]; [constructor|]. apply Forall_cons in IH as [Ha IH].
    apply fmap_Some in Hab as (x & Hx & _). constructor; [by eapply Ha|by apply IHf].
Qed.
End Objects.

Section Normalized.
Context `{JsonLibrary}.
Abbreviation Value := (Value Number).
Implicit Types (v w : Value).

(** A value as [normalize_value] leaves it: normalized scalars and keys, objects
    in strictly increasing key order, and the array of an "attributes" entry in
    the order of its attribute keys. *)
Inductive canonical : Value → Prop :=
  | canonical_null : canonical Null
  | canonical_bool b : canonical (Bool b)
  | canonical_num n : canonical (Num (normalize_number n))
  | canonical_string s : canonical (String_ (normalize_string s))
  | canonical_array items : Forall canonical items → canonical (Array items)
  | canonical_object entries :
      StronglySorted key_lt entries →
      Forall (λ e, ∃ k, e.1 = normalize_string k) entries →
      Forall (λ e, canonical e.2) entries →
      (∀ items, (lit "attributes", Array items) ∈ entries →
         StronglySorted (λ a b, attr_key_compare (attr_key a) (attr_key b) ≠ Gt) items) →
      canonical (Object entries).

#[local] Instance attr_key_compare_laws : CompareLaws attr_key_compare.
Proof.
  apply (then_with_laws (λ a b : str * str, str_compare a.1 b.1) (λ a b : str * str, str_compare a.2 b.2));
    apply compare_map_laws, str_compare_laws.
Qed.

Lemma sort_attributes_sorted items :
  StronglySorted (λ a b, attr_key_compare (attr_key a) (attr_key b) ≠ Gt) (sort_attributes items) ∧
  sort_attributes items ≡ₚ items.
Proof.
  unfold sort_attributes. case_decide as Hlen.
  { split; [|done]. destruct items as [|a [|b items]]; simpl in Hlen; [constructor|repeat constructor|lia]. }
  set (cmp := λ a b : str * str * Value, attr_key_compare a.1 b.1).
  set (l := map (λ v, (attr_key v, v)) items).
  assert (Hp : sort_by cmp l ≡ₚ l) by apply sort_by_perm. split.
  - assert (Hs : StronglySorted (λ a b, cmp a b ≠ Gt) (sort_by cmp l))
      by (apply sort_by_sorted, (compare_map_laws fst), attr_key_compare_laws).
    assert (Hk : Forall (λ x, x.1 = attr_key x.2) (sort_by cmp l)).
    { rewrite Hp. apply Forall_map, Forall_true. done. }
    clear Hp. induction Hs as [|x l' Hl IH Hx]; [constructor|]. apply Forall_cons in Hk as [Hkx Hk].
    rewrite fmap_cons. constructor; [by apply IH|]. apply Forall_fmap.
    rewrite Forall_forall in *. intros y Hy. specialize (Hx y Hy). unfold cmp in Hx.
    by rewrite Hkx, (Hk y Hy) in Hx.
  - rewrite Hp. unfold l. rewrite <- list_fmap_compose. by rewrite list_fmap_id.
Qed.

Lemma sort_attributes_entry_keys entries : (sort_attributes_entry entries).*1 = entries.*1.
Proof.
  induction entries as [|[k v] entries IH]; [done|]. simpl. case_decide; [done|].
  rewrite fmap_cons. by f_equal.
Qed.

Lemma elem_of_sort_attributes_entry k v entries :
  (k, v) ∈ sort_attributes_entry entries → NoDup entries.*1 →
  ((k, v) ∈ entries ∧ (k = lit "attributes" → ∀ items, v ≠ Array items)) ∨
  (k = lit "attributes" ∧ ∃ items, (k, Array items) ∈ entries ∧ v = Array (sort_attributes items)).
Proof.
  induction entries as [|[k' v'] entries IH]; [by intros ?%elem_of_nil|].
  rewrite fmap_cons, NoDup_cons. cbn [fst sort_attributes_entry]. intros Hin [Hk' Hnd].
  assert (Hkey : ∀ v, (k', v) ∉ entries).
  { intros v0 Hv. apply Hk'. apply list_elem_of_fmap. by exists (k', v0). }
  case_decide as Hd.
  - subst k'. apply elem_of_cons in Hin as [[= -> ->]|Hin].
    + destruct v'; try (left; split; [by left|done]).
      right. split; [done|]. eexists. split; [by left|done].
    + left. split; [by right|]. intros ->. by apply Hkey in Hin.
  - apply elem_of_cons in Hin as [[= -> ->]|Hin]; [left; split; [by left|done]|].
    destruct (IH Hin Hnd) as [[? ?]|(? & items & ? & ?)]; [left; split; [by right|done]|].
    right. split; [done|]. exists items. split; [by right|done].
Qed.

Lemma normalize_entries_Some f keys m entries :
  normalize_entries f keys m = Some entries →
  NoDup entries.*1 ∧ Forall (λ k, k ∉ keys) entries.*1 ∧
  Forall2 (λ a b, b.1 = normalize_string a.1 ∧ f a.2 = Some b.2) m entries.
Proof.
  revert keys entries. induction m as [|[k v] m IH]; intros keys entries; simpl.
  { intros [= <-]. split_and!; constructor. }
  case_decide as Hk; [done|]. intros Hm. inv_option.
  match goal with Hf : f v = _, Hn : normalize_entries _ _ _ = _ |- _ =>
    destruct (IH _ _ Hn) as (Hnd & Hks & Hf2); rename Hf into Hfv end.
  rewrite fmap_cons. cbn [fst]. rewrite NoDup_cons, !Forall_cons, Forall2_cons.
  rewrite Forall_forall in *. split_and!; [|done|done| |done|done|done].
  - intros Hin. apply (Hks _ Hin). set_solver.
  - intros k' Hk' Hin. apply (Hks k' Hk'). set_solver.
Qed.

Lemma normalize_value_canonical v w : normalize_value v = Some w → canonical w.
Proof.
  revert w. induction v as [v Hv|items IH|m IH] using Value_nested_ind; intros w Hw.
  - destruct v; try done; injection Hw as <-; constructor.
  - cbn [normalize_value] in Hw. apply fmap_Some in Hw as (ws & Hws & ->). constructor.
    apply mapM_Some in Hws. induction Hws as [|a b l l' Hab _ IHf]; [constructor|].
    apply Forall_cons in IH as [Ha IH]. constructor; [by apply Ha|by apply IHf].
  - cbn [normalize_value] in Hw. apply bind_Some in Hw as (entries & Hn & [= <-]).
    destruct (normalize_entries_Some _ _ _ _ Hn) as (Hnd & _ & Hf).
    assert (Hall : Forall (λ e, (∃ k, e.1 = normalize_string k) ∧ canonical e.2) entries).
    { clear -IH Hf. induction Hf as [|a b l l' [Hk Hab] _ IHf]; [constructor|].
      apply Forall_cons in IH as [Ha IH]. constructor; [split; [eauto|by apply Ha]|by apply IHf]. }
    rewrite Forall_forall in Hall.
    assert (Hin : ∀ k u, (k, u) ∈ map_collect (sort_by (λ l r, str_compare l.1 r.1) (sort_attributes_entry entries)) →
              (k, u) ∈ sort_attributes_entry entries).
    { intros k u Hu%elem_of_map_collect. by rewrite sort_by_perm in Hu. }
    constructor; [apply map_collect_sorted|apply Forall_forall..|].
    + intros [k u] Hu%Hin. destruct (elem_of_sort_attributes_entry _ _ _ Hu Hnd)
        as [[He _]|(_ & items & He & _)]; by destruct (Hall _ He).
    + intros [k u] Hu%Hin. destruct (elem_of_sort_attributes_entry _ _ _ Hu Hnd)
        as [[He _]|(_ & items & He & ->)]; destruct (Hall _ He) as [_ Hc]; [done|].
      cbn [snd] in *. inversion Hc; subst. constructor.
      by rewrite (proj2 (sort_attributes_sorted items)).
    + intros items Hu%Hin. destruct (elem_of_sort_attributes_entry _ _ _ Hu Hnd)
        as [[_ He]|(_ & items' & _ & [= ->])]; [by destruct (He eq_refl items)|].
      apply sort_attributes_sorted.
Qed.
End Normalized.

(** ** Properties *)

(** Two decimal texts and their canonical forms. *)
Lemma canonical_decimals raw1 raw2 v1 v2 out1 out2 :
  decimal_value raw1 = Some v1 → decimal_value raw2 = Some v2 →
  canonical_decimal raw1 = Some out1 → canonical_decimal raw2 = Some out2 →
  (same_value v1 v2 ↔ out1 = out2) ∧
  (∃ w, decimal_value out1 = Some w ∧ same_value v1 w) ∧
  canonical_decimal out1 = Some out1.
Proof.
  rewrite !canonical_decimal_normal. intros Hv1 Hv2 Hc1 Hc2.
  apply bind_Some in Hc1 as (nf1 & Hn1 & Ho1), Hc2 as (nf2 & Hn2 & Ho2).
  destruct (normal_form_value raw1 v1 nf1 Hv1 Hn1) as [Hnf1 Hs1].
  destruct (normal_form_value raw2 v2 nf2 Hv2 Hn2) as [Hnf2 Hs2].
  destruct (render_normal_form nf1 out1 Hnf1 Ho1) as (Hr1 & w1 & Hw1).
  destruct (render_normal_form nf2 out2 Hnf2 Ho2) as (Hr2 & _). split_and!.
  - split.
    + intros Hs. assert (nf1 = nf2) as ->; [|congruence]. apply normal_unique; [done..|].
      eapply same_value_trans; [by apply same_value_sym|]. by eapply same_value_trans.
    + intros ->. assert (nf1 = nf2) as -> by congruence.
      eapply same_value_trans; [exact Hs1|]. by apply same_value_sym.
  - exists w1. split; [done|]. destruct (normal_form_value out1 w1 nf1 Hw1 Hr1) as [_ Hs].
    eapply same_value_trans; [exact Hs1|]. by apply same_value_sym.
  - by rewrite Hr1.
Qed.

(** The exponent is far enough from the ends of [i128]. *)
Definition exponent_in_range (raw : str) : bool :=
  match decimal_parts raw with
  | Some (_, integer, fraction, e) =>
      bool_decide (Z.abs e + 2 * Z.of_nat (length (integer ++ fraction)) ≤ 2 ^ 126)%Z
  | None => false
  end.

(** C6: Canonical decimals: a decimal text in range has a canonical form, which
    denotes the same number and is its own canonical form; two such texts have the
    same canonical form exactly when they denote the same number. *)
Theorem canonical_decimal_canonical raw1 raw2 v1 v2 :
  decimal_value raw1 = Some v1 → decimal_value raw2 = Some v2 →
  exponent_in_range raw1 = true → exponent_in_range raw2 = true →
  ∃ out1 out2, canonical_decimal raw1 = Some out1 ∧ canonical_decimal raw2 = Some out2 ∧
  (same_value v1 v2 ↔ out1 = out2) ∧
  (∃ w, decimal_value out1 = Some w ∧ same_value v1 w) ∧
  canonical_decimal out1 = Some out1.
Proof.
  intros Hv1 Hv2 Hr1 Hr2. unfold exponent_in_range in *.
  destruct (decimal_parts raw1) as [[[[]]]|] eqn:Hp1; [|done].
  destruct (decimal_parts raw2) as [[[[]]]|] eqn:Hp2; [|done].
  apply bool_decide_eq_true in Hr1, Hr2.
  destruct (canonical_decimal_total _ _ _ _ _ Hp1 Hr1) as [out1 Ho1].
  destruct (canonical_decimal_total _ _ _ _ _ Hp2 Hr2) as [out2 Ho2].
  exists out1, out2. split; [done|]. split; [done|]. by eapply canonical_decimals.
Qed.

(** The two spellings of a number in the repository's test have one canonical form. *)
Lemma canonical_decimal_canonical_witness :
  ∃ out1 out2,
    canonical_decimal (lit "12345678901234567890.5000") = Some out1 ∧
    canonical_decimal (lit "1.23456789012345678905e19") = Some out2 ∧
    (same_value (123456789012345678905000, -4)%Z (123456789012345678905, -1)%Z ↔ out1 = out2) ∧
    (∃ w, decimal_value out1 = Some w ∧ same_value (123456789012345678905000, -4)%Z w) ∧
    canonical_decimal out1 = Some out1.
Proof. apply canonical_decimal_canonical; vm_compute; reflexivity. Defined.

Section Strings.
Context `{JsonLibrary}.

(** The fused normalization loop is the reference pipeline of the tests: the
    words of the NFKC, lower-cased text joined by single spaces. *)
Theorem normalize_string_words (input : str) :
  normalize_string input = join_words (split_whitespace [] (to_lowercase (nfkc input))).
Proof. apply collapse_words. Qed.
End Strings.

Section Documents.
Context `{JsonLibrary}.


(** A text is canonicalized only if no object of its document repeats a key,
    and the result is the text of a value in canonical shape: normalized scalars
    and keys, keys strictly increasing (hence distinct after normalization), and
    attribute arrays sorted. *)
Theorem canonicalize_json_canonical (raw out : str) :
  canonicalize_json raw = Some out →
  ∃ r v w, parse_json (trim raw) = Some r ∧ unique_keys r ∧ strict_value r = Some v ∧
    normalize_value v = Some w ∧ canonical w ∧ out = to_string w.
Proof.
  unfold canonicalize_json. intros E.
  apply bind_Some in E as (r & Hr & E). apply bind_Some in E as (v & Hv & E).
  apply fmap_Some in E as (w & Hw & ->). exists r, v, w. split_and!; try done.
  - by eapply strict_value_unique.
  - by eapply normalize_value_canonical.
Qed.
End Documents.

(** ** A small library for the examples *)

Definition ascii_lower (c : N) : N := if (in_chars 65 90 c : bool) then (c + 32)%N else c.

(** JSON text, with single quotes and without escapes. *)
Fixpoint simple_text (v : Value str) : str :=
  match v with
  | Null => lit "null"
  | Bool b => if b then lit "true" else lit "false"
  | Num n => n
  | String_ s => lit "'" ++ s ++ lit "'"
  | Array items => lit "[" ++ mjoin (map (λ v, simple_text v ++ lit ",") items) ++ lit "]"
  | Object entries =>
      lit "{" ++ mjoin (map (λ e, lit "'" ++ e.1 ++ lit "':" ++ simple_text e.2 ++ lit ",") entries) ++ lit "}"
  end.

(** A reader that knows two texts of one document. *)
Definition two_documents (s : str) : option RawJson :=
  let attributes := RawSeq [RawMap [(lit "trait_type", RawString (lit " Hat"))];
                            RawMap [(lit "value", RawInt 3)]] in
  if decide (s = lit "name first") then
    Some (RawMap [(lit "Name", RawString (lit "A  b ")); (lit "attributes", attributes)])
  else if decide (s = lit "attributes first") then
    Some (RawMap [(lit "attributes", attributes); (lit "Name", RawString (lit "A  b "))])
  else None.

Definition simple_json : JsonLibrary := {|
  Number := str;
  parse_json := two_documents;
  to_string := simple_text;
  number_from := i128_to_string;
  as_i64 := parse_i128;
  as_u64 := λ _, None;
  number_to_string := λ n, n;
  parse_number := Some;
  nfkc := λ s, s;
  to_lowercase := map ascii_lower;
|}.


Lemma canonicalize_json_canonical_witness :
  ∃ r v w, two_documents (trim (lit "name first")) = Some r ∧ unique_keys r ∧
    @strict_value simple_json r = Some v ∧ @normalize_value simple_json v = Some w ∧
    @canonical simple_json w ∧
    lit "{'attributes':[{'value':3,},{'trait_type':'hat',},],'name':'a b',}" = simple_text w.
Proof.
  apply (@canonicalize_json_canonical simple_json (lit "name first")). vm_compute. reflexivity.
Defined.
