(* ===== verification/Types.v ===== *)
(** The data model of the deduplicator ([dedup/crates/core/src/entity.rs],
    [scope.rs] and [error.rs]): ids, dimensions, scopes, counters, the entity
    records and the store that owns them.

    Ids are dense vector indices and are modelled as [nat]; the places where
    the code converts a length to a 16- or 32-bit id check the width.  Counters
    are [u64] and are modelled as [Z]. *)

From S2P Require Import Prelude Text.

(** Dense ids of [entity.rs]. *)
Abbreviation ContractId := nat (only parsing).
Abbreviation ChainId := nat (only parsing).
Abbreviation NftId := nat (only parsing).
Abbreviation StringId := nat (only parsing).

Inductive Dimension := Name | TokenUri | ImageUri | Metadata.
Inductive ScopeKind := IntraChain | CrossChainSummary | ChainMatrix.

#[export] Instance Dimension_eq_dec : EqDecision Dimension.
Proof. solve_decision. Defined.
#[export] Instance ScopeKind_eq_dec : EqDecision ScopeKind.
Proof. solve_decision. Defined.

Definition Dimension_code (d : Dimension) : nat :=
  match d with Name => 0 | TokenUri => 1 | ImageUri => 2 | Metadata => 3 end.
Definition ScopeKind_code (k : ScopeKind) : nat :=
  match k with IntraChain => 0 | CrossChainSummary => 1 | ChainMatrix => 2 end.

#[export] Instance Dimension_countable : Countable Dimension.
Proof.
  refine (
  inj_countable Dimension_code
    (λ n, match n with 0 => Some Name | 1 => Some TokenUri | 2 => Some ImageUri
                     | 3 => Some Metadata | _ => None end) _).
  by intros [].
Defined.
#[export] Instance ScopeKind_countable : Countable ScopeKind.
Proof.
  refine (
  inj_countable ScopeKind_code
    (λ n, match n with 0 => Some IntraChain | 1 => Some CrossChainSummary
                     | 2 => Some ChainMatrix | _ => None end) _).
  by intros [].
Defined.

Record ScopeKey := {
  kind : ScopeKind;
  primary_chain : ChainId;
  secondary_chain : option ChainId;
  dimension : Dimension;
}.

#[export] Instance ScopeKey_eq_dec : EqDecision ScopeKey.
Proof. solve_decision. Defined.
#[export] Instance ScopeKey_countable : Countable ScopeKey.
Proof.
  refine (
  inj_countable' (λ k, (kind k, primary_chain k, secondary_chain k, dimension k))
    (λ '(a, b, c, d), {| kind := a; primary_chain := b; secondary_chain := c; dimension := d |}) _).
  by intros [].
Defined.

(** [DedupError], by variant; messages are not modelled. *)
Inductive DedupError :=
  | InvalidInput (stage : string)
  | ParquetSchema
  | ParquetRead
  | Io
  | Interrupted
  | Message.

Record ScopeCounts := {
  duplicate_contract_count : Z;
  duplicate_nft_count : Z;
}.

#[export] Instance ScopeCounts_eq_dec : EqDecision ScopeCounts.
Proof. solve_decision. Defined.

Definition ScopeCounts_default : ScopeCounts :=
  {| duplicate_contract_count := 0; duplicate_nft_count := 0 |}.

(** [ScopeCounts::add_contract] and [add_nfts]; release builds wrap. *)
Definition add_contract (c : ScopeCounts) (nft_count : Z) : ScopeCounts :=
  {| duplicate_contract_count := wrapping_add64 (duplicate_contract_count c) 1;
     duplicate_nft_count := wrapping_add64 (duplicate_nft_count c) nft_count |}.
Definition add_nfts (c : ScopeCounts) (nft_count : Z) : ScopeCounts :=
  {| duplicate_contract_count := duplicate_contract_count c;
     duplicate_nft_count := wrapping_add64 (duplicate_nft_count c) nft_count |}.

Record SourceOrder := {
  file_ordinal : Z;
  file_row_number : Z;
}.

Record InputRow := {
  chain : str;
  contract_address : str;
  token_id : str;
  name_norm : str;
  token_uri_norm : str;
  image_uri_norm : str;
  metadata_json : str;
  row_source_order : SourceOrder;
}.

Record MetadataRecord := {
  record_token_id : str;
  canonical_json : str;
  record_source_order : SourceOrder;
}.

Record Contract := {
  contract_id : ContractId;
  contract_chain_id : ChainId;
  address : str;
  nft_count : Z;
  metadata_by_token : list MetadataRecord;
}.

Record Nft := {
  nft_id : NftId;
  nft_contract_id : ContractId;
  nft_token_id : str;
  name_id : option StringId;
  token_uri_id : option StringId;
  image_uri_id : option StringId;
  nft_source_order : SourceOrder;
}.

Record UriPosting := {
  posting_contract_id : ContractId;
  posting_chain_id : ChainId;
  uri_id : StringId;
  nft_ids : list NftId;
}.

(** [UriPosting::nft_count] *)
Definition posting_nft_count (p : UriPosting) : Z := Z.of_nat (length (nft_ids p)).

Record ChainTotals := {
  total_contracts : Z;
  total_nfts : Z;
}.

Definition ChainTotals_default : ChainTotals := {| total_contracts := 0; total_nfts := 0 |}.

Record EntityStore := {
  chains : list str;
  chain_ids : gmap str ChainId;
  contracts : list Contract;
  contract_index : gmap (ChainId * str) ContractId;
  nfts : list Nft;
  nft_index : gmap (ContractId * str) NftId;
  strings : list str;
  string_ids : gmap str StringId;
  token_uri_postings : list UriPosting;
  image_uri_postings : list UriPosting;
  totals : gmap ChainId ChainTotals;
  rows_loaded : Z;
  metadata_anchor_limit : option nat;
  defer_metadata_sort : bool;
  evm_chains : gset str;
}.
