(* ===== verification/Anchors.v ===== *)
(** Token order, metadata validation and metadata anchors
    ([dedup/crates/core/src/entity.rs]): the order of token ids, the validation of
    a metadata text, the bounded insertion of an anchor at a binary-searched
    position, and the deferred sort of unbounded anchors.

    [slice::sort_unstable_by] promises a sorted permutation and nothing about
    equals: it is a class with that law. *)

From S2P Require Import Prelude Text CanonicalJson Types.

(** ** Slices *)

Section BinarySearch.
Context {A : Type} (f : A → comparison) (l : list A).

(** The loop of [slice::binary_search_by]; [fuel] bounds the halvings, and
    [length l] is enough. *)
Fixpoint search_base (fuel base size : nat) : option nat :=
  if decide (size ≤ 1) then Some base else
  match fuel with
  | 0 => None
  | S fuel =>
      let half := size / 2 in
      let mid := base + half in
      x ← l !! mid;
      search_base fuel (match f x with Gt => base | _ => mid end) (size - half)
  end.

(** [slice::binary_search_by]: [inl] is [Ok], [inr] is [Err]. *)
Definition binary_search_by : option (nat + nat) :=
  if decide (l = []) then Some (inr 0) else
  base ← search_base (length l) 0 (length l);
  x ← l !! base;
  Some (match f x with Eq => inl base | Lt => inr (base + 1) | Gt => inr base end).
End BinarySearch.

(** [Result::unwrap_or_else(|position| position)] *)
Definition position (r : nat + nat) : nat := match r with inl i => i | inr i => i end.

(** [Vec::insert]: [None] is the panic beyond the end. *)
Definition vec_insert {A} (i : nat) (x : A) (l : list A) : option (list A) :=
  if decide (i ≤ length l) then Some (take i l ++ x :: drop i l) else None.

(** [slice::sort_unstable_by] *)
Class UnstableSort := {
  sort_unstable_by {A} : (A → A → comparison) → list A → list A;
  sort_unstable_by_perm {A} (cmp : A → A → comparison) l : sort_unstable_by cmp l ≡ₚ l;
  sort_unstable_by_sorted {A} (cmp : A → A → comparison) l :
    CompareLaws cmp → StronglySorted (λ a b, cmp a b ≠ Gt) (sort_unstable_by cmp l);
}.

(** [Vec::dedup_by] for an equality test: drops every element equal to the one kept
    before it. *)
Section DedupBy.
Context {A : Type} (same : A → A → bool).

Fixpoint dedup_after (left : A) (l : list A) : list A :=
  match l with
  | [] => []
  | x :: l => if same x left then dedup_after left l else x :: dedup_after x l
  end.

Definition dedup_by (l : list A) : list A :=
  match l with [] => [] | x :: l => x :: dedup_after x l end.
End DedupBy.

(** ** Token ids *)

Definition decimal_magnitude (token : str) : option str :=
  let trimmed := trim token in
  if decide (trimmed = []) then None else
  if negb (forallb is_ascii_digit trimmed) then None else
  let magnitude := trim_start_char 48 trimmed in
  Some (if decide (magnitude = []) then lit "0" else magnitude).

Definition compare_token_ids (left right : str) (is_evm : bool) : comparison :=
  if is_evm then
    match decimal_magnitude left, decimal_magnitude right with
    | Some a, Some b => then_with (Nat.compare (str_len a) (str_len b)) (str_compare a b)
    | Some _, None => Lt
    | None, Some _ => Gt
    | None, None => str_compare left right
    end
  else str_compare left right.

(** The derived order of [SourceOrder]. *)
Definition source_order_compare (a b : SourceOrder) : comparison :=
  then_with (Z.compare (file_ordinal a) (file_ordinal b))
            (Z.compare (file_row_number a) (file_row_number b)).

(** ** Metadata *)

Definition validated_metadata `{JsonLibrary} (content : str) : option str :=
  let trimmed := trim content in
  if decide (trimmed = []) then None else
  if decide (64 * 1024 < N.of_nat (str_len trimmed))%N then None else
  if negb (starts_with 123 trimmed) && negb (starts_with 91 trimmed) then None else
  canonical ← canonicalize_json trimmed;
  if decide (canonical = lit "{}") then None else Some canonical.

Definition is_valid_metadata `{JsonLibrary} (content : str) : bool :=
  bool_decide (is_Some (validated_metadata content)).

(** ** Anchors *)

(** The bounded insertion of [insert_metadata_anchor], after its early returns. *)
Definition insert_anchor (limit : option nat) (is_evm : bool) (anchors : list MetadataRecord)
    (record : MetadataRecord) : option (list MetadataRecord) :=
  if decide (Exists (λ r, record_token_id r = record_token_id record) anchors) then Some anchors else
  found ← binary_search_by (λ r, compare_token_ids (record_token_id r) (record_token_id record) is_evm) anchors;
  let insert_at := position found in
  if match limit with Some n => (n <=? insert_at) && (n <=? length anchors) | None => false end
  then Some anchors else
  anchors ← vec_insert insert_at record anchors;
  Some (if match limit with Some n => n <? length anchors | None => false end
        then removelast anchors else anchors).

(** The comparison of [finalize_metadata_anchors]. *)
Definition record_compare (is_evm : bool) (left right : MetadataRecord) : comparison :=
  then_with (then_with (compare_token_ids (record_token_id left) (record_token_id right) is_evm)
                       (str_compare (record_token_id left) (record_token_id right)))
            (source_order_compare (record_source_order left) (record_source_order right)).

Definition same_token (right left : MetadataRecord) : bool :=
  bool_decide (record_token_id right = record_token_id left).

Definition finalize_anchors `{UnstableSort} (is_evm : bool) (anchors : list MetadataRecord) : list MetadataRecord :=
  dedup_by same_token (sort_unstable_by (record_compare is_evm) anchors).

(** ** The token order *)

(** The sort key behind [compare_token_ids]: class, magnitude length, text. *)
Definition token_key (is_evm : bool) (token : str) : nat * nat * str :=
  if is_evm then
    match decimal_magnitude token with Some a => (0, str_len a, a) | None => (1, 0, token) end
  else (0, 0, token).

Definition token_key_compare (a b : nat * nat * str) : comparison :=
  then_with (Nat.compare a.1.1 b.1.1) (then_with (Nat.compare a.1.2 b.1.2) (str_compare a.2 b.2)).

Lemma compare_token_ids_key left_ right_ is_evm :
  compare_token_ids left_ right_ is_evm = token_key_compare (token_key is_evm left_) (token_key is_evm right_).
Proof.
  unfold compare_token_ids, token_key, token_key_compare. destruct is_evm; [|done].
  by destruct (decimal_magnitude left_), (decimal_magnitude right_).
Qed.

#[export] Instance token_key_compare_laws : CompareLaws token_key_compare.
Proof.
  apply (then_with_laws (λ a b : nat * nat * str, Nat.compare a.1.1 b.1.1)
    (λ a b : nat * nat * str, then_with (Nat.compare a.1.2 b.1.2) (str_compare a.2 b.2)));
    [apply (compare_map_laws (λ x : nat * nat * str, x.1.1)), _|].
  apply (then_with_laws (λ a b : nat * nat * str, Nat.compare a.1.2 b.1.2)
    (λ a b : nat * nat * str, str_compare a.2 b.2));
    [apply (compare_map_laws (λ x : nat * nat * str, x.1.2)), _|apply (compare_map_laws snd), _].
Qed.

#[export] Instance compare_token_ids_laws is_evm : CompareLaws (λ a b, compare_token_ids a b is_evm).
Proof.
  pose proof (compare_map_laws (token_key is_evm) token_key_compare _) as [H1 H2 H3].
  constructor; intros *; rewrite !compare_token_ids_key; [apply H1|apply H2|apply H3].
Qed.

(** The records' token ids, compared. *)
Definition anchor_compare (is_evm : bool) (a b : MetadataRecord) : comparison :=
  compare_token_ids (record_token_id a) (record_token_id b) is_evm.

#[export] Instance anchor_compare_laws is_evm : CompareLaws (anchor_compare is_evm).
Proof. apply (compare_map_laws record_token_id _ (compare_token_ids_laws is_evm)). Qed.

#[export] Instance source_order_compare_laws : CompareLaws source_order_compare.
Proof.
  apply (then_with_laws (λ a b, Z.compare (file_ordinal a) (file_ordinal b))
    (λ a b, Z.compare (file_row_number a) (file_row_number b)));
    [apply (compare_map_laws file_ordinal), _|apply (compare_map_laws file_row_number), _].
Qed.

#[export] Instance record_compare_laws is_evm : CompareLaws (record_compare is_evm).
Proof.
  apply (then_with_laws (λ a b : MetadataRecord, then_with (anchor_compare is_evm a b)
      (str_compare (record_token_id a) (record_token_id b)))
    (λ a b, source_order_compare (record_source_order a) (record_source_order b)));
    [|apply (compare_map_laws record_source_order), _].
  apply (then_with_laws (anchor_compare is_evm)
    (λ a b, str_compare (record_token_id a) (record_token_id b))); [apply _|].
  apply (compare_map_laws record_token_id), _.
Qed.

(** *** Decimal token ids *)

Lemma digits_value_cons c ds :
  digits_value (c :: ds) = (digit_value c * 10 ^ Z.of_nat (length ds) + digits_value ds)%Z.
Proof.
  change (c :: ds) with ([c] ++ ds). rewrite digits_value_app.
  change (digits_value [c]) with (0 * 10 + digit_value c)%Z. lia.
Qed.

Lemma str_len_digits ds : all_digits ds → str_len ds = length ds.
Proof.
  unfold str_len. induction 1 as [|c ds Hc _ IH]; [done|]. simpl. rewrite IH. unfold utf8_len.
  unfold is_ascii_digit, in_chars in Hc. rewrite andb_true_iff, !N.leb_le in Hc.
  destruct (N.ltb_spec c 128); lia.
Qed.

Lemma digits_compare_same_length a b :
  all_digits a → all_digits b → length a = length b →
  str_compare a b = Z.compare (digits_value a) (digits_value b).
Proof.
  intros Ha. revert b. induction Ha as [|c a Hc Ha IH]; intros b Hb Hlen; destruct b as [|d b]; try done.
  apply Forall_cons in Hb as [Hd Hb]. injection Hlen as Hlen. cbn [str_compare].
  rewrite !digits_value_cons, Hlen, (IH b Hb Hlen).
  pose proof (digits_value_bounds a Ha) as Ba. pose proof (digits_value_bounds b Hb) as Bb. rewrite Hlen in Ba.
  unfold digit_value in *. destruct (N.compare_spec c d) as [->|Hcd|Hcd].
  - destruct (Z.compare_spec (digits_value a) (digits_value b)); symmetry;
      [apply Z.compare_eq_iff|apply Z.compare_lt_iff|apply Z.compare_gt_iff]; lia.
  - symmetry. apply Z.compare_lt_iff. nia.
  - symmetry. apply Z.compare_gt_iff. nia.
Qed.

Lemma digits_shorter_smaller a b :
  all_digits a → all_digits b → no_leading_zero b → length a < length b →
  (digits_value a < digits_value b)%Z.
Proof.
  intros Ha Hb Hz Hlen. destruct b as [|d b]; [simpl in Hlen; lia|]. cbn [length] in Hlen.
  apply Forall_cons in Hb as [Hd Hb]. rewrite digits_value_cons.
  pose proof (digits_value_bounds a Ha) as Ba. pose proof (digits_value_bounds b Hb) as Bb.
  assert (10 ^ Z.of_nat (length a) ≤ 10 ^ Z.of_nat (length b))%Z by (apply Z.pow_le_mono_r; lia).
  pose proof (digit_value_bounds d Hd). assert (digit_value d ≠ 0)%Z; [|nia].
  intros Hzero. apply Hz. simpl. f_equal. by apply digit_value_inj.
Qed.

(** The magnitude of a decimal token: its digits without leading zeros. *)
Lemma decimal_magnitude_Some token a :
  decimal_magnitude token = Some a →
  all_digits a ∧ a ≠ [] ∧ digits_value a = digits_value (trim token) ∧ (a = lit "0" ∨ no_leading_zero a).
Proof.
  unfold decimal_magnitude. cbv zeta. case_decide as Hne; [done|].
  destruct (forallb is_ascii_digit (trim token)) eqn:Hd; [|done]. cbn [negb].
  assert (Hall : all_digits (trim token)) by (apply Forall_forall; intros c Hc; eapply forallb_forall in Hd; [done|by apply list_elem_of_In]).
  destruct (trim_start_zeros (trim token)) as (n & Hn & Hz).
  set (m := trim_start_char 48 (trim token)) in *. intros [= <-].
  assert (Hm : all_digits m) by (rewrite Hn in Hall; by apply Forall_app in Hall as [_ ?]).
  assert (Hv : digits_value m = digits_value (trim token)) by (rewrite Hn, digits_value_app, digits_value_zeros; lia).
  case_decide as Hm0; [|by auto]. rewrite <- Hv, Hm0. split_and!; [by repeat constructor|done|done|by left].
Qed.

Lemma magnitude_compare a b :
  all_digits a → all_digits b → a ≠ [] → b ≠ [] →
  (a = lit "0" ∨ no_leading_zero a) → (b = lit "0" ∨ no_leading_zero b) →
  then_with (Nat.compare (str_len a) (str_len b)) (str_compare a b) = Z.compare (digits_value a) (digits_value b).
Proof.
  intros Ha Hb Hna Hnb Hza Hzb. rewrite !str_len_digits by done.
  destruct (Nat.compare_spec (length a) (length b)) as [Heq|Hlt|Hgt]; simpl.
  - by apply digits_compare_same_length.
  - symmetry. apply Z.compare_lt_iff. apply digits_shorter_smaller; [done..| |done].
    destruct Hzb as [->|]; [|done]. destruct a as [|? [|]]; simpl in Hlt; try lia; done.
  - symmetry. apply Z.compare_gt_iff. apply digits_shorter_smaller; [done..| |done].
    destruct Hza as [->|]; [|done]. destruct b as [|? [|]]; simpl in Hgt; try lia; done.
Qed.

(** Token ids: the comparison is a total preorder; on EVM chains two decimal
    ids compare as numbers, whatever their leading zeros and surrounding white
    space, and decimal ids precede the others; everything else compares as text. *)
Theorem compare_token_ids_numeric (left_ right_ : str) :
  (∀ is_evm, CompareLaws (λ a b, compare_token_ids a b is_evm)) ∧
  compare_token_ids left_ right_ false = str_compare left_ right_ ∧
  compare_token_ids left_ right_ true =
    match decimal_magnitude left_, decimal_magnitude right_ with
    | Some _, Some _ => Z.compare (digits_value (trim left_)) (digits_value (trim right_))
    | Some _, None => Lt
    | None, Some _ => Gt
    | None, None => str_compare left_ right_
    end.
Proof.
  split; [apply _|]. split; [done|]. unfold compare_token_ids.
  destruct (decimal_magnitude left_) as [a|] eqn:Ea, (decimal_magnitude right_) as [b|] eqn:Eb; try done.
  apply decimal_magnitude_Some in Ea as (Ha & Hna & <- & Hza), Eb as (Hb & Hnb & <- & Hzb).
  by apply magnitude_compare.
Qed.

(** ** Binary search *)

Section BinarySearchFacts.
Context {A : Type} (f : A → comparison) (l : list A).

(** Once an element compares greater, so do the later ones. *)
Definition greater_closed : Prop :=
  ∀ i j x y, i ≤ j → l !! i = Some x → l !! j = Some y → f x = Gt → f y = Gt.

Lemma search_base_spec fuel base size :
  greater_closed → 1 ≤ size → base + size ≤ length l → size ≤ S fuel →
  ∃ b, search_base f l fuel base size = Some b ∧ base ≤ b < length l ∧
    (b = base ∨ ∃ x, l !! b = Some x ∧ f x ≠ Gt) ∧
    (∀ i x, b < i < base + size → l !! i = Some x → f x = Gt).
Proof.
  intros Hg. revert base size. induction fuel as [|fuel IH]; intros base size H1 Hlen Hfuel; cbn [search_base].
  { rewrite decide_True by lia. exists base. split_and!; [done|lia..|by left|lia]. }
  case_decide as Hs.
  { exists base. split_and!; [done|lia..|by left|lia]. }
  pose proof (Nat.div_mod size 2 ltac:(lia)). pose proof (Nat.mod_upper_bound size 2 ltac:(lia)).
  set (half := size / 2) in *.
  destruct (lookup_lt_is_Some_2 l (base + half)) as [x Hx]; [lia|]. rewrite Hx. cbn [mbind option_bind].
  destruct (decide (f x = Gt)) as [HG|HG].
  - rewrite HG. destruct (IH base (size - half)) as (b & -> & Hb & Hbx & Hrest); [lia..|].
    exists b. split_and!; [done|lia|lia|done|]. intros i y Hi Hy.
    destruct (decide (i < base + (size - half))); [apply (Hrest i y); [lia|done]|].
    apply (Hg (base + half) i x y); [lia|done..].
  - assert (match f x with Gt => base | _ => base + half end = base + half) as -> by (by destruct (f x)).
    destruct (IH (base + half) (size - half)) as (b & -> & Hb & Hbx & Hrest); [lia..|].
    exists b. split_and!; [done|lia|lia| |].
    + right. destruct Hbx as [->|]; [by exists x|done].
    + intros i y Hi Hy. apply (Hrest i y); [lia|done].
Qed.

Lemma binary_search_by_spec :
  greater_closed →
  ∃ r, binary_search_by f l = Some r ∧ position r ≤ length l ∧
    Forall (λ x, f x ≠ Gt) (take (position r) l) ∧ Forall (λ x, f x ≠ Lt) (drop (position r) l).
Proof.
  intros Hg. unfold binary_search_by. case_decide as Hl.
  { exists (inr 0). rewrite Hl. split_and!; [done|simpl; lia|constructor|constructor]. }
  assert (0 < length l) by (destruct l; simpl; [done|lia]).
  destruct (search_base_spec (length l) 0 (length l)) as (b & -> & Hb & Hbx & Hrest); [done|lia..|].
  cbn [mbind option_bind]. destruct (lookup_lt_is_Some_2 l b) as [x Hx]; [lia|]. rewrite Hx.
  cbn [mbind option_bind].
  assert (Hbefore : ∀ n, n ≤ S b → f x ≠ Gt → Forall (λ x, f x ≠ Gt) (take n l)).
  { intros n Hn HG. apply Forall_lookup. intros i y Hy. apply lookup_take_Some in Hy as [Hy Hi].
    intros HGy. apply HG. apply (Hg i b y x); [lia|done..]. }
  assert (Hafter : ∀ n, b < n → Forall (λ x, f x ≠ Lt) (drop n l)).
  { intros n Hn. apply Forall_lookup. intros i y Hy. rewrite lookup_drop in Hy.
    pose proof (lookup_lt_Some _ _ _ Hy). rewrite (Hrest (n + i) y); [done|lia|done]. }
  destruct (f x) eqn:Ex; (eexists; split; [done|]); simpl; (split; [lia|]).
  - split; [apply Hbefore; [lia|done]|]. rewrite (drop_S l x b Hx). constructor; [by rewrite Ex|]. apply Hafter. lia.
  - split; [apply Hbefore; [lia|done]|]. apply Hafter. lia.
  - destruct Hbx as [->|(x' & Hx' & HG)]; [|congruence]. split; [constructor|].
    rewrite (drop_S l x 0 Hx). constructor; [by rewrite Ex|]. apply Hafter. lia.
Qed.
End BinarySearchFacts.

(** ** Bounded anchors *)

Section AnchorFacts.
Context (limit : option nat) (is_evm : bool).
Implicit Types (anchors records : list MetadataRecord) (record : MetadataRecord).

Abbreviation le := (λ a b, anchor_compare is_evm a b ≠ Gt).

(** Anchors in token order, one per token, within the limit. *)
Definition anchors_ok anchors : Prop :=
  StronglySorted le anchors ∧ NoDup (record_token_id <$> anchors) ∧
  match limit with Some n => length anchors ≤ n | None => True end.

(** A record offered to the anchors is represented by its token, or the anchors
    are full of tokens not after it. *)
Definition anchor_covered anchors record : Prop :=
  record_token_id record ∈ record_token_id <$> anchors ∨
  (∃ n, limit = Some n ∧ length anchors = n ∧ Forall (λ a, le a record) anchors).

Lemma sorted_insert i record anchors :
  StronglySorted le anchors →
  Forall (λ x, le x record) (take i anchors) → Forall (λ x, anchor_compare is_evm x record ≠ Lt) (drop i anchors) →
  StronglySorted le (take i anchors ++ record :: drop i anchors).
Proof.
  intros Hs Hbefore Hafter.
  assert (Hge : Forall (le record) (drop i anchors)).
  { eapply Forall_impl; [exact Hafter|]. intros x Hx HG. apply Hx.
    by apply (compare_gt_lt (anchor_compare is_evm)). }
  rewrite <- (take_drop i anchors) in Hs. revert Hs Hbefore. generalize (take i anchors).
  intros l Hs Hl. induction l as [|x l IH]; simpl in *.
  - by constructor.
  - apply StronglySorted_cons in Hs as [Hx Hs]. apply Forall_cons in Hl as [Hxr Hl]. constructor; [by apply IH|].
    apply Forall_app in Hx as [Hx1 Hx2]. apply Forall_app. split; [done|]. by constructor.
Qed.

Lemma sorted_greater_closed record anchors :
  StronglySorted le anchors → greater_closed (λ r, anchor_compare is_evm r record) anchors.
Proof.
  intros Hs i j x y Hij Hx Hy HG. destruct (decide (i = j)) as [->|Hne]; [congruence|].
  assert (Hxy : le x y).
  { clear HG. revert i j Hij Hne Hx Hy. induction Hs as [|z l _ IH Hz]; intros [|i] [|j] Hij Hne Hx Hy; simpl in *;
      try done; try lia.
    - injection Hx as ->. rewrite Forall_lookup in Hz. exact (Hz j y Hy).
    - apply (IH i j); [lia|lia|done|done]. }
  apply (compare_gt_lt (anchor_compare is_evm)).
  apply (compare_gt_lt (anchor_compare is_evm)) in HG.
  by eapply (compare_lt_le_trans (anchor_compare is_evm)).
Qed.

Lemma anchor_covered_token anchors r r' :
  record_token_id r = record_token_id r' → anchor_covered anchors r → anchor_covered anchors r'.
Proof.
  intros Heq [Ht|(n & ? & ? & Hf)]; [left; by rewrite <- Heq|]. right. exists n. split_and!; [done..|].
  eapply Forall_impl; [exact Hf|]. intros a. unfold anchor_compare. by rewrite Heq.
Qed.

(** Dropping the last of one anchor too many keeps everything covered. *)
Lemma pop_covered anchors last n r :
  limit = Some n → S (length anchors) = S n → StronglySorted le (anchors ++ [last]) →
  record_token_id r ∈ record_token_id <$> (anchors ++ [last]) → anchor_covered anchors r.
Proof.
  intros Hl Hn Hs. rewrite fmap_app. intros [Ht|Ht]%elem_of_app; [by left|].
  apply list_elem_of_singleton in Ht. apply (anchor_covered_token _ last); [done|].
  right. exists n. split_and!; [done|lia|]. clear -Hs.
  induction anchors as [|x anchors IH]; [constructor|].
  apply StronglySorted_cons in Hs as [Hx Hs]. apply Forall_app in Hx as [_ [Hx _]%Forall_cons].
  constructor; [done|by apply IH].
Qed.

Lemma sorted_prefix (anchors : list MetadataRecord) last :
  StronglySorted le (anchors ++ [last]) → StronglySorted le anchors.
Proof.
  induction anchors as [|x anchors IH]; [constructor|]. intros [Hx Hs]%StronglySorted_cons.
  apply Forall_app in Hx as [Hx _]. constructor; [by apply IH|done].
Qed.

(** What one offer promises. *)
Definition offer_ok anchors record anchors' : Prop :=
  anchors_ok anchors' ∧ anchor_covered anchors' record ∧
  (∀ r, anchor_covered anchors r → anchor_covered anchors' r) ∧
  (∀ r, r ∈ anchors' → r ∈ anchors ∨ r = record) ∧
  (limit = None → ∀ r, r ∈ anchors → r ∈ anchors').

(** The inserted list without its last element, when it is too long. *)
Lemma offer_pop anchors record n before after :
  limit = Some n → anchors = before ++ after → after ≠ [] → n < length (before ++ record :: after) →
  anchors_ok anchors → StronglySorted le (before ++ record :: after) →
  NoDup (record_token_id <$> (before ++ record :: after)) →
  offer_ok anchors record (removelast (before ++ record :: after)).
Proof.
  intros Hl Heq Hne Hn (_ & _ & Hlen) Hs Hnd. rewrite Hl in Hlen.
  destruct (exists_last Hne) as (after' & last & ->).
  change (record :: after' ++ [last]) with ((record :: after') ++ [last]) in *.
  rewrite app_assoc in *. rewrite removelast_last.
  assert (Hlast : last ∈ anchors) by (rewrite Heq; set_solver).
  assert (Hn' : S (length (before ++ record :: after')) = S n).
  { rewrite Heq in Hlen. rewrite !length_app in *. simpl in *. lia. }
  assert (Hin : ∀ r, r ∈ anchors ↔ r ∈ before ++ after' ∨ r = last) by (intros; rewrite Heq; set_solver).
  unfold offer_ok. split_and!.
  - unfold anchors_ok. rewrite Hl. split_and!; [by eapply sorted_prefix| |lia].
    rewrite fmap_app, NoDup_app in Hnd. apply Hnd.
  - left. rewrite fmap_app. set_solver.
  - intros r [Ht|(n' & Hl' & Hlen' & Hf)].
    + apply (pop_covered _ last n); [done..|]. rewrite list_elem_of_fmap in Ht |- *.
      destruct Ht as (a & -> & Ha). exists a. split; [done|]. apply Hin in Ha. set_solver.
    + right. exists n'. split_and!; [done|rewrite Hl in Hl'; injection Hl'; lia|].
      rewrite Forall_forall in *. intros a Ha.
      assert (a = record ∨ a ∈ before ++ after') as [->|Hra] by set_solver.
      * intros HG. eapply (compare_trans (anchor_compare is_evm) record last r); [|by apply Hf|done].
        clear -Hs. induction before as [|x before IH]; simpl in Hs; apply StronglySorted_cons in Hs as [Hx Hs]; [|by apply IH].
        apply Forall_app in Hx as [_ [Hx _]%Forall_cons]. done.
      * apply Hf, Hin. by left.
  - intros r Hr. rewrite Hin. set_solver.
  - congruence.
Qed.

Lemma insert_anchor_ok anchors record :
  limit ≠ Some 0 → anchors_ok anchors →
  ∃ anchors', insert_anchor limit is_evm anchors record = Some anchors' ∧ offer_ok anchors record anchors'.
Proof.
  intros H0 Hok. pose proof Hok as (Hs & Hnd & Hlen). unfold insert_anchor. case_decide as Hex.
  { exists anchors. split; [done|]. split; [done|]. split; [|split_and!; auto].
    left. apply Exists_exists in Hex as (r & Hr & Heq). apply list_elem_of_fmap. by exists r. }
  destruct (binary_search_by_spec (λ r, anchor_compare is_evm r record) anchors)
    as (found & Hfound & Hi & Hbefore & Hafter); [by apply sorted_greater_closed|].
  unfold anchor_compare in Hfound. rewrite Hfound. cbn [mbind option_bind]. clear Hfound.
  set (i := position found) in *. destruct (match limit with Some n => _ | None => false end) eqn:Hfull.
  { exists anchors. split; [done|]. destruct limit as [n|] eqn:Hl; [|done].
    apply andb_true_iff in Hfull as [Hni%Nat.leb_le Hnl%Nat.leb_le].
    split; [done|]. split; [|split_and!; auto]. right. exists n. split_and!; [done|lia|].
    rewrite take_ge in Hbefore by lia. done. }
  unfold vec_insert. rewrite decide_True by done. cbn [mbind option_bind].
  pose proof (sorted_insert i record anchors Hs Hbefore Hafter) as Hs'.
  assert (Hperm : take i anchors ++ record :: drop i anchors ≡ₚ record :: anchors)
    by (rewrite <- Permutation_middle, take_drop; done).
  assert (Hnd' : NoDup (record_token_id <$> (take i anchors ++ record :: drop i anchors))).
  { rewrite Hperm, fmap_cons. apply NoDup_cons. split; [|done].
    intros (r & Heq & Hr)%list_elem_of_fmap. apply Hex, Exists_exists. by exists r. }
  destruct (match limit with Some n => n <? _ | None => false end) eqn:Hpop; eexists; (split; [done|]).
  - destruct limit as [n|] eqn:Hl; [|done]. apply Nat.ltb_lt in Hpop.
    eapply offer_pop; [done|by rewrite take_drop| |done..].
    intros Hnil. apply (f_equal length) in Hnil. rewrite length_drop in Hnil. simpl in Hnil.
    rewrite Hperm in Hpop. simpl in Hpop. rewrite andb_false_iff, !Nat.leb_gt in Hfull. lia.
  - unfold offer_ok, anchors_ok. split_and!; [done|done| | | | |].
    + destruct limit as [n|]; [|done]. by apply Nat.ltb_ge in Hpop.
    + left. apply list_elem_of_fmap. exists record. split; [done|]. rewrite Hperm. by left.
    + intros r [Ht|(n & Hl & Hn & _)]; [left; rewrite Hperm, fmap_cons; by right|].
      exfalso. rewrite Hl in Hpop. apply Nat.ltb_ge in Hpop. rewrite Hperm in Hpop. simpl in Hpop. lia.
    + intros r. rewrite Hperm. intros [->|]%elem_of_cons; auto.
    + intros _ r Hr. rewrite Hperm. by right.
Qed.
End AnchorFacts.

(** Offering a list of records from given anchors. *)
Lemma offers_ok limit is_evm anchors records :
  limit ≠ Some 0 → anchors_ok limit is_evm anchors →
  ∃ anchors', foldM (insert_anchor limit is_evm) anchors records = Some anchors' ∧
    anchors_ok limit is_evm anchors' ∧
    (∀ r, r ∈ records ∨ anchor_covered limit is_evm anchors r → anchor_covered limit is_evm anchors' r) ∧
    (∀ r, r ∈ anchors' → r ∈ anchors ∨ r ∈ records) ∧
    (limit = None → ∀ r, r ∈ anchors → r ∈ anchors').
Proof.
  intros H0. revert anchors. induction records as [|record records IH]; intros anchors Hok; simpl.
  { exists anchors. split_and!; [done|done| |auto|auto]. intros r [?%elem_of_nil|?]; done. }
  destruct (insert_anchor_ok limit is_evm anchors record H0 Hok) as (a1 & -> & Hok1 & Hr1 & Hc1 & Hin1 & Hk1).
  destruct (IH a1 Hok1) as (a2 & E & Hok2 & Hc2 & Hin2 & Hk2). exists a2. cbn [mbind option_bind].
  split_and!; [done|done| | |auto].
  - intros r [[->|Hr]%elem_of_cons|Hr]; apply Hc2; auto.
  - intros r Hr. rewrite elem_of_cons. destruct (Hin2 r Hr) as [?|?]; [|auto].
    destruct (Hin1 r); auto.
Qed.

(** The first record of a list with its token. *)
Definition first_of_token (records : list MetadataRecord) (r : MetadataRecord) : Prop :=
  ∃ l1 l2, records = l1 ++ r :: l2 ∧ record_token_id r ∉ record_token_id <$> l1.

Lemma first_of_token_exists records r :
  r ∈ records → ∃ k, first_of_token records k ∧ record_token_id k = record_token_id r.
Proof.
  intros Hr. induction records as [|x records IH]; [by apply elem_of_nil in Hr|].
  destruct (decide (record_token_id x = record_token_id r)) as [Heq|Hne].
  { exists x. split; [|done]. exists [], records. split; [done|]. apply not_elem_of_nil. }
  apply elem_of_cons in Hr as [->|Hr]; [done|]. destruct (IH Hr) as (k & (l1 & l2 & -> & Hk) & Heq).
  exists k. split; [|done]. exists (x :: l1), l2. split; [done|].
  rewrite fmap_cons, not_elem_of_cons. split; [congruence|done].
Qed.

(** Without a limit the anchors keep the first record of every token. *)
Lemma unlimited_offers_first is_evm records :
  ∃ anchors, foldM (insert_anchor None is_evm) [] records = Some anchors ∧
    anchors_ok None is_evm anchors ∧ ∀ r, r ∈ anchors ↔ first_of_token records r.
Proof.
  assert (Hnil : anchors_ok None is_evm []) by (split_and!; [constructor..|done]).
  destruct (offers_ok None is_evm [] records ltac:(done) Hnil) as (final & E & Hok & _ & Hin & _).
  exists final. split; [done|]. split; [done|].
  assert (Hfirst : ∀ r, first_of_token records r → r ∈ final).
  { intros r (l1 & l2 & -> & Hr). rewrite foldM_app in E. apply bind_Some in E as (a1 & E1 & E).
    destruct (offers_ok None is_evm [] l1 ltac:(done) Hnil) as (a1' & E1' & Hok1 & _ & Hin1 & _).
    assert (a1' = a1) as -> by congruence. cbn [foldM] in E. apply bind_Some in E as (a2 & E2 & E).
    destruct (insert_anchor_ok None is_evm a1 r ltac:(done) Hok1) as (a2' & E2' & Hok2 & Hr2 & _ & Hin2 & _).
    assert (a2' = a2) as -> by congruence.
    destruct (offers_ok None is_evm a2 l2 ltac:(done) Hok2) as (a3 & E3 & _ & _ & _ & Hk).
    assert (a3 = final) as -> by congruence. apply Hk; [done|].
    destruct Hr2 as [(a & Heq & Ha)%list_elem_of_fmap|(? & ? & _)]; [|done].
    destruct (Hin2 a Ha) as [Hold| ->]; [|done]. exfalso. apply Hr. rewrite Heq. apply list_elem_of_fmap.
    exists a. split; [done|]. destruct (Hin1 a Hold) as [?%elem_of_nil|]; done. }
  intros r. split; [|apply Hfirst]. intros Hr. destruct (Hin r Hr) as [?%elem_of_nil|Hrec]; [done|].
  destruct (first_of_token_exists records r Hrec) as (k & Hk & Heq).
  assert (k = r) as <-; [|done]. destruct Hok as (_ & Hnd & _).
  apply (NoDup_fmap_elem record_token_id final); [done|by apply Hfirst|done|done].
Qed.

(** ** The deferred sort *)

Section Deferred.
Context `{UnstableSort} (is_evm : bool).
Implicit Types (records : list MetadataRecord) (r : MetadataRecord).

Abbreviation le := (λ a b, record_compare is_evm a b ≠ Gt).

Definition token_then_text (a b : MetadataRecord) : comparison :=
  then_with (anchor_compare is_evm a b) (str_compare (record_token_id a) (record_token_id b)).

#[local] Instance token_then_text_laws : CompareLaws token_then_text.
Proof.
  apply (then_with_laws (anchor_compare is_evm) (λ a b, str_compare (record_token_id a) (record_token_id b)));
    [apply _|apply (compare_map_laws record_token_id), _].
Qed.

Lemma token_then_text_eq a b : token_then_text a b = Eq ↔ record_token_id a = record_token_id b.
Proof.
  unfold token_then_text. split.
  - destruct (anchor_compare is_evm a b); simpl; [apply str_compare_eq|done..].
  - intros Heq. unfold anchor_compare. rewrite Heq.
    rewrite (compare_refl (λ a b, compare_token_ids a b is_evm)). simpl. apply (compare_refl str_compare).
Qed.

Lemma record_le_token a b : le a b → token_then_text a b ≠ Gt.
Proof. unfold record_compare. intros Hle Hgt. apply Hle. unfold token_then_text, anchor_compare in Hgt. by rewrite Hgt. Qed.

Lemma record_le_source a b :
  le a b → record_token_id a = record_token_id b →
  source_order_compare (record_source_order a) (record_source_order b) ≠ Gt.
Proof.
  unfold record_compare. intros Hle Heq%token_then_text_eq. unfold token_then_text, anchor_compare in Heq.
  by rewrite Heq in Hle.
Qed.

(** Equal tokens are adjacent in the sorted records. *)
Lemma between_same_token a b c :
  le a b → le b c → record_token_id a = record_token_id c → record_token_id a = record_token_id b.
Proof.
  intros Hab%record_le_token Hbc%record_le_token Hac%token_then_text_eq. apply token_then_text_eq.
  destruct (token_then_text a b) eqn:E; [done| |done].
  pose proof (compare_lt_le_trans token_then_text a b c E Hbc). congruence.
Qed.

Lemma dedup_after_sorted left_ l :
  StronglySorted le (left_ :: l) →
  let out := dedup_after same_token left_ l in
  (∀ r, r ∈ out → r ∈ l) ∧ StronglySorted le (left_ :: out) ∧
  NoDup (record_token_id <$> (left_ :: out)) ∧
  (∀ r, r ∈ l → ∃ k, k ∈ left_ :: out ∧ record_token_id k = record_token_id r ∧ le k r).
Proof.
  revert left_. induction l as [|x l IH]; intros left_ Hs; cbv zeta; cbn [dedup_after].
  { split_and!; [by intros ? ?|done|apply NoDup_singleton|by intros ? ?%elem_of_nil]. }
  apply StronglySorted_cons in Hs as [[Hx Hl]%Forall_cons Hs].
  pose proof Hs as [Hxl Hsl]%StronglySorted_cons.
  destruct (same_token x left_) eqn:Heq; unfold same_token in Heq;
    [apply bool_decide_eq_true in Heq|apply bool_decide_eq_false in Heq].
  - destruct (IH left_) as (Hin & Hso & Hnd & Hk); [by constructor|]. split_and!; [|done|done|].
    + intros r Hr. right. by apply Hin.
    + intros r [->|Hr]%elem_of_cons; [exists left_; split_and!; [by left|done|done]|by apply Hk].
  - destruct (IH x Hs) as (Hin & Hso & Hnd & Hk). rewrite Forall_forall in *.
    assert (Hle : ∀ r, r ∈ x :: dedup_after same_token x l → le left_ r).
    { intros r [->|Hr]%elem_of_cons; [done|]. apply Hl. by apply Hin. }
    split_and!.
    + intros r [->|Hr]%elem_of_cons; [by left|]. right. by apply Hin.
    + constructor; [done|]. by apply Forall_forall.
    + rewrite fmap_cons, NoDup_cons. split; [|done]. intros (r & Hr & Hri)%list_elem_of_fmap.
      apply Heq. symmetry. apply (between_same_token left_ x r); [done| |done].
      apply elem_of_cons in Hri as [->|Hri]; [|by apply Hxl, Hin].
      intros HG. by rewrite (compare_refl (record_compare is_evm)) in HG.
    + intros r [->|Hr]%elem_of_cons.
      * exists x. split_and!; [by right; left|done|]. intros HG. by rewrite (compare_refl (record_compare is_evm)) in HG.
      * destruct (Hk r Hr) as (k & Hki & ? & ?). exists k. split_and!; [by right|done..].
Qed.

Lemma finalize_anchors_spec records :
  let out := finalize_anchors is_evm records in
  StronglySorted le out ∧ NoDup (record_token_id <$> out) ∧ (∀ r, r ∈ out → r ∈ records) ∧
  (∀ r, r ∈ records → ∃ k, k ∈ out ∧ record_token_id k = record_token_id r ∧
     source_order_compare (record_source_order k) (record_source_order r) ≠ Gt).
Proof.
  cbv zeta. unfold finalize_anchors.
  pose proof (sort_unstable_by_sorted (record_compare is_evm) records _) as Hs.
  pose proof (sort_unstable_by_perm (record_compare is_evm) records) as Hp.
  assert (Hin : ∀ r, r ∈ records ↔ r ∈ sort_unstable_by (record_compare is_evm) records) by (intros; by rewrite Hp).
  setoid_rewrite Hin. clear Hin Hp.
  destruct (sort_unstable_by (record_compare is_evm) records) as [|x l]; cbn [dedup_by].
  { split_and!; [constructor|constructor|done|by intros ? ?%elem_of_nil]. }
  destruct (dedup_after_sorted x l Hs) as (Hin & Hso & Hnd & Hk). split_and!; [done|done| |].
  - intros r [->|Hr]%elem_of_cons; [by left|]. right. by apply Hin.
  - intros r [->|Hr]%elem_of_cons.
    + exists x. split_and!; [by left|done|]. by rewrite (compare_refl source_order_compare).
    + destruct (Hk r Hr) as (k & ? & ? & ?). exists k. split_and!; [done|done|]. by apply record_le_source.
Qed.

Lemma finalize_anchors_ok records : anchors_ok None is_evm (finalize_anchors is_evm records).
Proof.
  destruct (finalize_anchors_spec records) as (Hso & Hnd & _). split_and!; [|done|done]. clear -Hso.
  induction Hso as [|x l _ IH Hx]; constructor; [done|].
  eapply Forall_impl; [exact Hx|]. intros y Hy%record_le_token. unfold token_then_text in Hy. intros HG.
  by rewrite HG in Hy.
Qed.
End Deferred.

(** ** Properties *)

(** Bounded anchors: offering any records keeps at most the limit, in token
    order, one per token, all of them offered; a token that is not kept means that
    the anchors are full of tokens that do not come after it. *)
Theorem bounded_anchors (limit : option nat) (is_evm : bool) (records : list MetadataRecord) :
  limit ≠ Some 0 →
  ∃ anchors, foldM (insert_anchor limit is_evm) [] records = Some anchors ∧
    anchors_ok limit is_evm anchors ∧
    (∀ r, r ∈ records → anchor_covered limit is_evm anchors r) ∧
    (∀ r, r ∈ anchors → r ∈ records).
Proof.
  intros H0. destruct (offers_ok limit is_evm [] records H0) as (final & E & Hok & Hc & Hin & _).
  { split_and!; [constructor..|]. destruct limit; simpl; [lia|done]. }
  exists final. split_and!; [done|done|auto|]. intros r Hr. destruct (Hin r Hr) as [?%elem_of_nil|]; done.
Qed.

(** Four tokens offered to two places on an EVM chain: the two smallest numbers. *)
Definition example_record (token : string) (row : Z) : MetadataRecord :=
  {| record_token_id := lit token; canonical_json := lit "{'a':1}";
     record_source_order := {| file_ordinal := 0; file_row_number := row |} |}.

Definition example_records : list MetadataRecord :=
  [example_record "10" 0; example_record "9" 1; example_record "007" 2; example_record "9" 3].

Lemma bounded_anchors_witness :
  foldM (insert_anchor (Some 2) true) [] example_records = Some [example_record "007" 2; example_record "9" 1] ∧
  ∃ anchors, foldM (insert_anchor (Some 2) true) [] example_records = Some anchors ∧
    anchors_ok (Some 2) true anchors ∧
    (∀ r, r ∈ example_records → anchor_covered (Some 2) true anchors r) ∧
    (∀ r, r ∈ anchors → r ∈ example_records).
Proof. split; [vm_compute; reflexivity|]. apply (bounded_anchors (Some 2) true example_records). discriminate. Defined.

(** Deferring the sort: sorting the pushed records once and dropping repeated
    tokens keeps the same records as inserting each one in its place, when records
    arrive in source order; both results are in token order. *)
Theorem deferred_sort_same_anchors `{UnstableSort} (is_evm : bool) (records : list MetadataRecord) :
  StronglySorted (λ a b, source_order_compare (record_source_order a) (record_source_order b) = Lt) records →
  ∃ anchors, foldM (insert_anchor None is_evm) [] records = Some anchors ∧
    finalize_anchors is_evm records ≡ₚ anchors ∧
    anchors_ok None is_evm anchors ∧ anchors_ok None is_evm (finalize_anchors is_evm records).
Proof.
  intros Hs. destruct (unlimited_offers_first is_evm records) as (anchors & E & Hok & Hin).
  destruct (finalize_anchors_spec is_evm records) as (Hso & Hnd & Hsub & Hleast).
  exists anchors. split; [done|]. set (out := finalize_anchors is_evm records) in *.
  split; [|split; [done|apply finalize_anchors_ok]]. apply NoDup_Permutation; [by eapply NoDup_fmap_1| |].
  { destruct Hok as (_ & Hnd' & _). by eapply NoDup_fmap_1. }
  assert (Huniq : ∀ k r, first_of_token records k → r ∈ records → record_token_id r = record_token_id k →
            source_order_compare (record_source_order r) (record_source_order k) ≠ Gt → r = k).
  { intros k r (l1 & l2 & Hrec & Hk) Hr Heq Hle. rewrite Hrec in Hs, Hr.
    apply elem_of_app in Hr as [Hr|[->|Hr]%elem_of_cons]; [|done|].
    - destruct Hk. rewrite <- Heq. by apply list_elem_of_fmap_2.
    - exfalso. apply Hle. apply (compare_gt_lt source_order_compare). clear -Hs Hr.
      induction l1 as [|x l1 IH]; simpl in Hs; apply StronglySorted_cons in Hs as [Hx Hs]; [|by apply IH].
      rewrite Forall_forall in Hx. by apply Hx. }
  intros r. rewrite Hin. split.
  - intros Hr. destruct (first_of_token_exists records r (Hsub r Hr)) as (k & Hk & Heq).
    assert (r = k) as ->; [|done]. apply Huniq; [done|by apply Hsub|done|].
    pose proof Hk as (l1 & l2 & -> & _). destruct (Hleast k) as (k' & Hk' & Heq' & Hle); [set_solver|].
    assert (k' = r) as <-; [|done]. by apply (NoDup_fmap_elem record_token_id out); [done..|congruence].
  - intros Hk. pose proof Hk as (l1 & l2 & Hrec & _).
    destruct (Hleast r) as (k' & Hk' & Heq' & Hle); [rewrite Hrec; set_solver|].
    assert (k' = r) as <-; [|done]. apply Huniq; [done|by apply Hsub|done|done].
Qed.

(** A stable sort is one implementation of [sort_unstable_by]. *)
Definition stable_sort : UnstableSort := {|
  sort_unstable_by A := @sort_by A;
  sort_unstable_by_perm A := @sort_by_perm A;
  sort_unstable_by_sorted A := λ cmp l H, @sort_by_sorted A cmp H l;
|}.

Lemma deferred_sort_same_anchors_witness :
  ∃ anchors, foldM (insert_anchor None true) [] example_records = Some anchors ∧
    @finalize_anchors stable_sort true example_records ≡ₚ anchors ∧
    anchors_ok None true anchors ∧ anchors_ok None true (@finalize_anchors stable_sort true example_records).
Proof. apply (@deferred_sort_same_anchors stable_sort). repeat constructor. Defined.
