(* ===== verification/SortedLists.v ===== *)
(** Sorted lists: [sort] and [dedup] of a vector, the uniqueness of strictly sorted
    lists, and the stability of sorting. *)

From S2P Require Import Prelude Text CanonicalJson Anchors.

(** The generic lemma behind the comparison of orders on a list's own elements. *)
Lemma StronglySorted_restrict {A} (R R' : A → A → Prop) l :
  (∀ x y, x ∈ l → y ∈ l → R x y → R' x y) → StronglySorted R l → StronglySorted R' l.
Proof.
  intros HR. induction 1 as [|x l Hl IH Hx]; constructor.
  - apply IH. intros y z Hy Hz. apply HR; by right.
  - rewrite Forall_forall in *. intros y Hy. apply HR; [by left|by right|auto].
Qed.

(** Sortedness by indices. *)
Lemma StronglySorted_lookup {A} (R : A → A → Prop) l i j x y :
  StronglySorted R l → i < j → l !! i = Some x → l !! j = Some y → R x y.
Proof.
  intros Hs. revert i j. induction Hs as [|z l Hs IH Hz]; intros i j Hij Hx Hy; [done|].
  destruct j as [|j]; [lia|]. destruct i as [|i]; simplify_eq/=.
  - apply (proj1 (Forall_forall _ _) Hz). by eapply list_elem_of_lookup_2.
  - apply (IH i j); [lia|done..].
Qed.

Lemma StronglySorted_lookup_intro {A} (R : A → A → Prop) l :
  (∀ i j x y, i < j → l !! i = Some x → l !! j = Some y → R x y) → StronglySorted R l.
Proof.
  induction l as [|z l IH]; intros HR; constructor.
  - apply IH. intros i j x y Hij Hx Hy. by apply (HR (S i) (S j)); [lia|..].
  - apply Forall_forall. intros y Hy. apply list_elem_of_lookup in Hy as [j Hy]. by apply (HR 0 (S j)); [lia|..].
Qed.

(** An order that is equality on its equivalent elements. *)
Class CompareEq {A} (cmp : A → A → comparison) : Prop := compare_eq_iff x y : cmp x y = Eq ↔ x = y.

#[export] Instance nat_compare_eq : CompareEq Nat.compare.
Proof. intros x y. apply Nat.compare_eq_iff. Qed.
#[export] Instance Z_compare_eq : CompareEq Z.compare.
Proof. intros x y. apply Z.compare_eq_iff. Qed.
#[export] Instance str_compare_eq_iff : CompareEq str_compare.
Proof. intros x y. apply str_compare_eq. Qed.

Lemma then_with_eq c d : then_with c d = Eq ↔ c = Eq ∧ d = Eq.
Proof. destruct c; simpl; naive_solver. Qed.

(** [v.sort(); v.dedup();] *)
Definition sort_dedup {A} `{EqDecision A} (cmp : A → A → comparison) (l : list A) : list A :=
  dedup_by (λ a b, bool_decide (a = b)) (sort_by cmp l).

(** A stable sort leaves a sorted list as it is. *)
Lemma sort_by_id {A} (cmp : A → A → comparison) l :
  StronglySorted (λ a b, cmp a b ≠ Gt) l → sort_by cmp l = l.
Proof.
  induction 1 as [|x l Hs IH Hx]; [done|]. simpl. rewrite IH. destruct l as [|y l]; [done|]. simpl.
  apply Forall_cons in Hx as [Hxy _]. by destruct (cmp x y).
Qed.

(** [dedup_by] of a sorted vector, with the equality of the order. *)
Section DedupSame.
Context {A : Type} (cmp : A → A → comparison) `{!CompareLaws cmp} (same : A → A → bool).
Context (same_iff : ∀ a b, same a b = true ↔ cmp a b = Eq).

Lemma dedup_after_same (x : A) l :
  StronglySorted (λ a b, cmp a b ≠ Gt) (x :: l) →
  StronglySorted (λ a b, cmp a b = Lt) (x :: dedup_after same x l) ∧
  (∀ y, y ∈ x :: dedup_after same x l → y ∈ x :: l) ∧
  ∀ y, y ∈ x :: l → ∃ z, z ∈ x :: dedup_after same x l ∧ same y z = true.
Proof using All.
  assert (∀ y, same y y = true) as Hrefl by (intros y; apply same_iff, (compare_refl cmp)).
  revert x. induction l as [|y l IH]; intros x Hs; [split_and!; [repeat constructor|done|intros z Hz; by exists z]|].
  simpl. apply StronglySorted_inv in Hs as [Hs Hx]. apply Forall_cons in Hx as [Hxy Hx]. destruct (same y x) eqn:E.
  - destruct (IH x) as (Hs' & Hsub & Hrep); [by apply StronglySorted_inv in Hs as [? _]; constructor|].
    split_and!; [done|intros z Hz%Hsub; rewrite !elem_of_cons in *; tauto|].
    intros z [->|[->|Hz]%elem_of_cons]%elem_of_cons; [exists x; split; [by left|done]|exists x; split; [by left|done]|].
    apply Hrep. by right.
  - destruct (IH y Hs) as (Hs' & Hsub & Hrep). split_and!.
    + constructor; [done|]. apply Forall_forall. intros z Hz%Hsub.
      assert (cmp x y = Lt) as Hlt.
      { destruct (cmp x y) eqn:Ec; [|done|done]. apply (compare_eq_sym cmp) in Ec. apply same_iff in Ec. congruence. }
      apply elem_of_cons in Hz as [->|Hz]; [done|].
      apply (compare_lt_le_trans cmp x y z Hlt). apply StronglySorted_inv in Hs as [_ Hs]. rewrite Forall_forall in Hs. by apply Hs.
    + intros z [->|Hz%Hsub]%elem_of_cons; [by left|by right].
    + intros z [->|Hz]%elem_of_cons; [exists x; split; [by left|done]|]. destruct (Hrep z Hz) as (w & Hw & ?). exists w. split; [by right|done].
Qed.

Lemma dedup_by_same l :
  StronglySorted (λ a b, cmp a b = Lt) (dedup_by same (sort_by cmp l)) ∧
  (∀ y, y ∈ dedup_by same (sort_by cmp l) → y ∈ l) ∧
  ∀ y, y ∈ l → ∃ z, z ∈ dedup_by same (sort_by cmp l) ∧ same y z = true.
Proof using All.
  pose proof (sort_by_sorted cmp l) as Hs.
  assert (∀ y, y ∈ l ↔ y ∈ sort_by cmp l) as Hin by (intros y; by rewrite (sort_by_perm cmp l)).
  assert (∀ s, StronglySorted (λ a b, cmp a b ≠ Gt) s → StronglySorted (λ a b, cmp a b = Lt) (dedup_by same s) ∧
    (∀ y, y ∈ dedup_by same s → y ∈ s) ∧ ∀ y, y ∈ s → ∃ z, z ∈ dedup_by same s ∧ same y z = true) as Hall.
  { intros [|x s] Hss; [split_and!; [constructor|done|by intros ? ?%elem_of_nil]|]. by apply dedup_after_same. }
  destruct (Hall _ Hs) as (H1 & H2 & H3). split_and!; [done|intros y Hy; by apply Hin, H2|intros y Hy; by apply H3, Hin].
Qed.
End DedupSame.

Section Strict.
Context {A : Type} `{!EqDecision A} (cmp : A → A → comparison) `{!CompareLaws cmp}.
Abbreviation lt := (λ a b, cmp a b = Lt).
Abbreviation le := (λ a b, cmp a b ≠ Gt).

Lemma strictly_sorted_unique l1 l2 :
  StronglySorted lt l1 → StronglySorted lt l2 → (∀ x, x ∈ l1 ↔ x ∈ l2) → l1 = l2.
Proof using All.
  intros Hs1. revert l2. induction Hs1 as [|x l1 Hs1 IH Hx]; intros [|y l2] Hs2 Hin; [done| | |].
  - exfalso. eapply not_elem_of_nil, Hin. by left.
  - exfalso. eapply not_elem_of_nil, Hin. by left.
  - apply StronglySorted_inv in Hs2 as [Hs2 Hy]. rewrite Forall_forall in Hx, Hy.
    assert (∀ z, cmp z z ≠ Lt) as Hirr by (intros z; by rewrite (compare_refl cmp)).
    assert (x = y) as ->.
    { pose proof (proj1 (Hin x) ltac:(by left)) as [|Hx2]%elem_of_cons; [done|].
      pose proof (proj2 (Hin y) ltac:(by left)) as [|Hy1]%elem_of_cons; [done|].
      specialize (Hx y Hy1). specialize (Hy x Hx2). cbn in *. rewrite (compare_antisym cmp), Hx in Hy. done. }
    f_equal. apply IH; [done|]. intros z. specialize (Hin z). rewrite !elem_of_cons in Hin.
    split; intros Hz.
    + destruct (proj1 Hin (or_intror Hz)) as [->|]; [|done]. by destruct (Hirr y (Hx y Hz)).
    + destruct (proj2 Hin (or_intror Hz)) as [->|]; [|done]. by destruct (Hirr y (Hy y Hz)).
Qed.

Lemma dedup_after_id (x : A) l : NoDup (x :: l) → dedup_after (λ a b, bool_decide (a = b)) x l = l.
Proof using Type.
  revert x. induction l as [|y l IH]; intros x Hnd; [done|]. simpl. apply NoDup_cons in Hnd as [Hx Hnd].
  rewrite bool_decide_eq_false_2 by (intros ->; apply Hx; by left). by rewrite IH.
Qed.

Context `{!CompareEq cmp}.

Lemma dedup_after_strict (x : A) l :
  StronglySorted le (x :: l) →
  StronglySorted lt (x :: dedup_after (λ a b, bool_decide (a = b)) x l) ∧
  ∀ y, y ∈ x :: dedup_after (λ a b, bool_decide (a = b)) x l ↔ y ∈ x :: l.
Proof using All.
  intros Hs. destruct (dedup_after_same cmp (λ a b, bool_decide (a = b))) with x l as (Hs' & Hsub & Hrep); [|done|].
  { intros a b. by rewrite bool_decide_eq_true, compare_eq_iff. }
  split; [done|]. intros y. split; [apply Hsub|]. intros Hy. destruct (Hrep y Hy) as (z & Hz & ->%bool_decide_eq_true). done.
Qed.

Lemma sort_dedup_strict l : StronglySorted lt (sort_dedup cmp l) ∧ ∀ x, x ∈ sort_dedup cmp l ↔ x ∈ l.
Proof using All.
  assert (StronglySorted lt (sort_dedup cmp l) ∧ ∀ x, x ∈ sort_dedup cmp l ↔ x ∈ sort_by cmp l) as [Hs Hin].
  { unfold sort_dedup. pose proof (sort_by_sorted cmp l) as Hs. destruct (sort_by cmp l) as [|x s]; [split; [constructor|done]|].
    by apply dedup_after_strict. }
  split; [done|]. intros x. by rewrite Hin, (sort_by_perm cmp).
Qed.

Lemma strictly_sorted_le l : StronglySorted lt l → StronglySorted le l.
Proof using Type. apply StronglySorted_restrict. by intros x y _ _ ->. Qed.

Lemma strictly_sorted_NoDup l : StronglySorted lt l → NoDup l.
Proof using All.
  induction 1 as [|x l Hs IH Hx]; constructor; [|done]. rewrite Forall_forall in Hx. intros Hin.
  specialize (Hx x Hin). by rewrite (compare_refl cmp) in Hx.
Qed.

Lemma sort_by_strict l : NoDup l → StronglySorted lt (sort_by cmp l).
Proof using All.
  intros Hnd. pose proof (sort_by_sorted cmp l) as Hs. rewrite <- (sort_by_perm cmp l) in Hnd.
  induction Hs as [|x s Hs IH Hx]; [constructor|]. apply NoDup_cons in Hnd as [Hxs Hnd]. constructor; [by apply IH|].
  rewrite Forall_forall in *. intros y Hy. specialize (Hx y Hy). destruct (cmp x y) eqn:E; [|done|done].
  apply compare_eq_iff in E as ->. done.
Qed.

Lemma sort_dedup_id l : StronglySorted lt l → sort_dedup cmp l = l.
Proof using All.
  intros Hs. destruct (sort_dedup_strict l) as [Hs' Hin]. by apply strictly_sorted_unique.
Qed.

Lemma sort_dedup_idemp l : sort_dedup cmp (sort_dedup cmp l) = sort_dedup cmp l.
Proof using All. apply sort_dedup_id, sort_dedup_strict. Qed.

(** [sort_dedup] depends only on the set of elements. *)
Lemma sort_dedup_proper l1 l2 : (∀ x, x ∈ l1 ↔ x ∈ l2) → sort_dedup cmp l1 = sort_dedup cmp l2.
Proof using All.
  intros Hin. apply strictly_sorted_unique; [apply sort_dedup_strict..|].
  intros x. by rewrite !(proj2 (sort_dedup_strict _)).
Qed.
End Strict.

(** ** Searching a sorted slice *)

(** A search over a slice whose comparisons are [Lt], then [Eq], then [Gt] finds an
    equal element or shows that there is none. *)
Lemma binary_search_outcome {A} (f : A → comparison) l :
  (∀ i j x y, i < j → l !! i = Some x → l !! j = Some y → (f x = Gt → f y = Gt) ∧ (f y = Lt → f x = Lt)) →
  ∃ r, binary_search_by f l = Some r ∧
    match r with inl i => ∃ x, l !! i = Some x ∧ f x = Eq | inr _ => ∀ x, x ∈ l → f x ≠ Eq end.
Proof.
  intros Hmono. unfold binary_search_by. case_decide as Hl; [exists (inr 0); split; [done|]; subst; by intros x ?%elem_of_nil|].
  destruct (search_base_spec f l (length l) 0 (length l)) as (b & -> & Hb & Hbx & Hrest).
  { intros i j x y Hij Hx Hy. destruct (decide (i = j)) as [->|]; [by simplify_eq|]. apply (Hmono i j x y); [lia|done..]. }
  { destruct l; [done|simpl; lia]. }
  { lia. }
  { lia. }
  cbn [mbind option_bind]. destruct (lookup_lt_is_Some_2 l b) as [x Hx]; [lia|]. rewrite Hx. cbn [mbind option_bind].
  eexists. split; [done|]. destruct (f x) eqn:Ex; [by exists x| |]; intros y Hy; apply list_elem_of_lookup in Hy as [k Hk];
    pose proof (lookup_lt_Some _ _ _ Hk).
  - destruct (Nat.lt_trichotomy k b) as [Hkb|[->|Hkb]]; [|congruence|rewrite (Hrest k y ltac:(lia) Hk); done].
    by rewrite (proj2 (Hmono k b y x Hkb Hk Hx) Ex).
  - destruct Hbx as [->|(x' & Hx' & HG)]; [|congruence]. destruct (decide (k = 0)) as [->|]; [congruence|].
    by rewrite (proj1 (Hmono 0 k x y ltac:(lia) Hx Hk) Ex).
Qed.
