(* ===== verification/Stats.v ===== *)
(** [dedup/crates/core/src/stats.rs]: the accumulator of duplicate counts per
    scope, with the sets that make every contract, NFT and URI unit count once.

    Indexing the store with an id out of range panics: [None]. *)

From S2P Require Import Prelude Text Types.

Record SummaryAccumulator := {
  counted_contracts : gmap ScopeKey (gset ContractId);
  counted_nfts : gmap ScopeKey (gset NftId);
  counted_uri_units : gmap ScopeKey (gset (ContractId * StringId));
  counts : gmap ScopeKey ScopeCounts;
  completed_bulk_dimensions : gset Dimension;
}.

Definition SummaryAccumulator_default : SummaryAccumulator :=
  {| counted_contracts := ∅; counted_nfts := ∅; counted_uri_units := ∅; counts := ∅;
     completed_bulk_dimensions := ∅ |}.

(** [map.entry(key).or_default()] *)
Definition or_default {V} (d : V) (m : gmap ScopeKey V) (key : ScopeKey) : V :=
  default d (m !! key).

(** [retain(|key, _| key.dimension != dimension)] *)
Definition retain_other_dimensions {V} (dim : Dimension) (m : gmap ScopeKey V) : gmap ScopeKey V :=
  filter (λ kv, dimension kv.1 ≠ dim) m.

(** Releasing the capacity of an emptied map changes no entry. *)
Definition seal_dimension (acc : SummaryAccumulator) (dim : Dimension) : SummaryAccumulator :=
  {| counted_contracts := retain_other_dimensions dim (counted_contracts acc);
     counted_nfts := retain_other_dimensions dim (counted_nfts acc);
     counted_uri_units := retain_other_dimensions dim (counted_uri_units acc);
     counts := counts acc;
     completed_bulk_dimensions := completed_bulk_dimensions acc |}.

Definition saturating_merge (target value : ScopeCounts) : ScopeCounts :=
  {| duplicate_contract_count :=
       saturating_add64 (duplicate_contract_count target) (duplicate_contract_count value);
     duplicate_nft_count :=
       saturating_add64 (duplicate_nft_count target) (duplicate_nft_count value) |}.

Definition set_counts (acc : SummaryAccumulator) (m : gmap ScopeKey ScopeCounts)
    : SummaryAccumulator :=
  {| counted_contracts := counted_contracts acc; counted_nfts := counted_nfts acc;
     counted_uri_units := counted_uri_units acc; counts := m;
     completed_bulk_dimensions := completed_bulk_dimensions acc |}.

(** One iteration of the loop over the totals, whose order is unspecified. *)
Definition merge_total (m : gmap ScopeKey ScopeCounts) (kv : ScopeKey * ScopeCounts)
    : gmap ScopeKey ScopeCounts :=
  <[kv.1 := saturating_merge (or_default ScopeCounts_default m kv.1) kv.2]> m.

Definition merge_unique_contract_counts (acc : SummaryAccumulator)
    (totals : gmap ScopeKey ScopeCounts) : SummaryAccumulator :=
  set_counts acc (foldl merge_total (counts acc) (map_to_list totals)).

Definition merge_completed_dimension_counts (acc : SummaryAccumulator) (dim : Dimension)
    (totals : gmap ScopeKey ScopeCounts) : SummaryAccumulator :=
  if decide (dim ∈ completed_bulk_dimensions acc) then acc else
  merge_unique_contract_counts
    {| counted_contracts := counted_contracts acc; counted_nfts := counted_nfts acc;
       counted_uri_units := counted_uri_units acc; counts := counts acc;
       completed_bulk_dimensions := {[dim]} ∪ completed_bulk_dimensions acc |} totals.

Definition mark_contract (store : EntityStore) (acc : SummaryAccumulator) (cid : ContractId)
    (dim : Dimension) (k : ScopeKind) (secondary : option ChainId) : option SummaryAccumulator :=
  contract ← contracts store !! cid;
  let key := {| kind := k; primary_chain := contract_chain_id contract;
                secondary_chain := secondary; dimension := dim |} in
  let set := or_default ∅ (counted_contracts acc) key in
  Some
    {| counted_contracts := <[key := {[cid]} ∪ set]> (counted_contracts acc);
       counted_nfts := counted_nfts acc;
       counted_uri_units := counted_uri_units acc;
       counts :=
         if decide (cid ∈ set) then counts acc
         else <[key := add_contract (or_default ScopeCounts_default (counts acc) key)
                         (nft_count contract)]> (counts acc);
       completed_bulk_dimensions := completed_bulk_dimensions acc |}.

Definition mark_contract_duplicate (store : EntityStore) (acc : SummaryAccumulator)
    (cid : ContractId) (dim : Dimension) (peer_chain : ChainId) : option SummaryAccumulator :=
  contract ← contracts store !! cid;
  if decide (contract_chain_id contract = peer_chain) then
    mark_contract store acc cid dim IntraChain None
  else
    acc' ← mark_contract store acc cid dim CrossChainSummary None;
    mark_contract store acc' cid dim ChainMatrix (Some peer_chain).

(** The body of the scope loop of [mark_nft_duplicate]. *)
Definition mark_nft_scope (acc : SummaryAccumulator) (contract : Contract) (nid : NftId)
    (key : ScopeKey) : SummaryAccumulator :=
  let entry := or_default ScopeCounts_default (counts acc) key in
  let contracts_set := or_default ∅ (counted_contracts acc) key in
  let entry :=
    if decide (contract_id contract ∈ contracts_set) then entry
    else {| duplicate_contract_count := wrapping_add64 (duplicate_contract_count entry) 1;
            duplicate_nft_count := duplicate_nft_count entry |} in
  let nfts_set := or_default ∅ (counted_nfts acc) key in
  let entry :=
    if decide (nid ∈ nfts_set) then entry
    else {| duplicate_contract_count := duplicate_contract_count entry;
            duplicate_nft_count := wrapping_add64 (duplicate_nft_count entry) 1 |} in
  {| counted_contracts := <[key := {[contract_id contract]} ∪ contracts_set]> (counted_contracts acc);
     counted_nfts := <[key := {[nid]} ∪ nfts_set]> (counted_nfts acc);
     counted_uri_units := counted_uri_units acc;
     counts := <[key := entry]> (counts acc);
     completed_bulk_dimensions := completed_bulk_dimensions acc |}.

Definition mark_nft_duplicate (store : EntityStore) (acc : SummaryAccumulator)
    (nid : NftId) (dim : Dimension) (peer_chain : ChainId) : option SummaryAccumulator :=
  nft ← nfts store !! nid;
  contract ← contracts store !! nft_contract_id nft;
  if decide (contract_chain_id contract = peer_chain) then Some acc else
  Some (foldl
    (λ acc '(k, secondary),
       mark_nft_scope acc contract nid
         {| kind := k; primary_chain := contract_chain_id contract;
            secondary_chain := secondary; dimension := dim |})
    acc [(CrossChainSummary, None); (ChainMatrix, Some peer_chain)]).

(** The body of [mark_uri_scope_hit] once the scope key is known. *)
Definition record_uri_unit (acc : SummaryAccumulator) (key : ScopeKey) (cid : ContractId)
    (uid : StringId) (nft_rows : Z) : SummaryAccumulator :=
  let units := or_default ∅ (counted_uri_units acc) key in
  let units_map := <[key := {[(cid, uid)]} ∪ units]> (counted_uri_units acc) in
  if decide ((cid, uid) ∈ units) then
    {| counted_contracts := counted_contracts acc; counted_nfts := counted_nfts acc;
       counted_uri_units := units_map; counts := counts acc;
       completed_bulk_dimensions := completed_bulk_dimensions acc |}
  else
    let contracts_set := or_default ∅ (counted_contracts acc) key in
    let entry := or_default ScopeCounts_default (counts acc) key in
    let entry :=
      if decide (cid ∈ contracts_set) then entry
      else {| duplicate_contract_count := wrapping_add64 (duplicate_contract_count entry) 1;
              duplicate_nft_count := duplicate_nft_count entry |} in
    {| counted_contracts := <[key := {[cid]} ∪ contracts_set]> (counted_contracts acc);
       counted_nfts := counted_nfts acc;
       counted_uri_units := units_map;
       counts := <[key := add_nfts entry nft_rows]> (counts acc);
       completed_bulk_dimensions := completed_bulk_dimensions acc |}.

Definition mark_uri_scope_hit (store : EntityStore) (acc : SummaryAccumulator)
    (cid : ContractId) (uid : StringId) (nft_rows : Z) (dim : Dimension)
    (scope : ScopeKind * option ChainId) : option SummaryAccumulator :=
  if decide (nft_rows = 0%Z) then Some acc else
  contract ← contracts store !! cid;
  let key := {| kind := scope.1; primary_chain := contract_chain_id contract;
                secondary_chain := scope.2; dimension := dim |} in
  Some (record_uri_unit acc key cid uid nft_rows).

(** The scopes one URI hit belongs to. *)
Definition uri_scopes (primary peer_chain : ChainId) : list (ScopeKind * option ChainId) :=
  if decide (primary = peer_chain) then [(IntraChain, None)]
  else [(CrossChainSummary, None); (ChainMatrix, Some peer_chain)].

Fixpoint mark_uri_scopes (store : EntityStore) (acc : SummaryAccumulator)
    (cid : ContractId) (uid : StringId) (nft_rows : Z) (dim : Dimension)
    (scopes : list (ScopeKind * option ChainId)) : option SummaryAccumulator :=
  match scopes with
  | [] => Some acc
  | scope :: scopes =>
      acc' ← mark_uri_scope_hit store acc cid uid nft_rows dim scope;
      mark_uri_scopes store acc' cid uid nft_rows dim scopes
  end.

Definition mark_uri_hit (store : EntityStore) (acc : SummaryAccumulator)
    (cid : ContractId) (uid : StringId) (nft_rows : Z) (dim : Dimension)
    (peer_chain : ChainId) : option SummaryAccumulator :=
  if decide (nft_rows = 0%Z) then Some acc else
  contract ← contracts store !! cid;
  mark_uri_scopes store acc cid uid nft_rows dim
    (uri_scopes (contract_chain_id contract) peer_chain).

(** ** Lemmas *)

(** The sum of [f] over a finite set. *)
Definition set_sum {K} `{Countable K} (f : K → Z) (s : gset K) : Z :=
  foldr (λ x total, f x + total)%Z 0%Z (elements s).

Section SetSum.
Context {K : Type} `{Countable K} (f : K → Z).

Lemma foldr_sum_Permutation (l1 l2 : list K) :
  l1 ≡ₚ l2 → foldr (λ x t, f x + t)%Z 0%Z l1 = foldr (λ x t, f x + t)%Z 0%Z l2.
Proof. induction 1; simpl; lia. Qed.

Lemma set_sum_empty : set_sum f (∅ : gset K) = 0%Z.
Proof. unfold set_sum. by rewrite elements_empty. Qed.

Lemma set_sum_insert x (s : gset K) :
  x ∉ s → set_sum f ({[x]} ∪ s) = (f x + set_sum f s)%Z.
Proof.
  intros Hx. unfold set_sum.
  by rewrite (foldr_sum_Permutation _ _ (elements_union_singleton s x Hx)).
Qed.
End SetSum.

Lemma or_default_insert {V} (d : V) m key key' v :
  or_default d (<[key := v]> m) key' = if decide (key = key') then v else or_default d m key'.
Proof. unfold or_default. rewrite lookup_insert. by case_decide. Qed.

Lemma or_default_empty {V} (d : V) key : or_default d ∅ key = d.
Proof. unfold or_default. by rewrite lookup_empty. Qed.

Lemma wrapping_add64_mod n m : wrapping_add64 (n mod 2 ^ 64) m = ((n + m) mod 2 ^ 64)%Z.
Proof. unfold wrapping_add64. by rewrite Zplus_mod_idemp_l. Qed.

(** Inserting into a set and counting the insertion. *)
Lemma size_insert {K} `{Countable K} (x : K) (s : gset K) :
  Z.of_nat (size ({[x]} ∪ s)) = (Z.of_nat (size s) + if decide (x ∈ s) then 0 else 1)%Z.
Proof.
  case_decide as Hx.
  - replace ({[x]} ∪ s) with s by set_solver. lia.
  - rewrite size_union by set_solver. rewrite size_singleton. lia.
Qed.

(** *** The contract counter is the size of the contract set *)

Definition contract_counts_exact (acc : SummaryAccumulator) : Prop :=
  ∀ key,
    duplicate_contract_count (or_default ScopeCounts_default (counts acc) key)
    = (Z.of_nat (size (or_default ∅ (counted_contracts acc) key)) mod 2 ^ 64)%Z.

Lemma count_contract_step (n : Z) cid (s : gset ContractId) :
  n = (Z.of_nat (size s) mod 2 ^ 64)%Z →
  (if decide (cid ∈ s) then n else wrapping_add64 n 1)
  = (Z.of_nat (size ({[cid]} ∪ s)) mod 2 ^ 64)%Z.
Proof.
  intros ->. rewrite size_insert. case_decide.
  - by rewrite Z.add_0_r.
  - by rewrite wrapping_add64_mod.
Qed.

Lemma record_uri_unit_exact acc key cid uid rows :
  contract_counts_exact acc → contract_counts_exact (record_uri_unit acc key cid uid rows).
Proof.
  intros Hacc. unfold record_uri_unit. case_decide; [exact Hacc|].
  intros key'. simpl. rewrite !or_default_insert. case_decide; [|apply Hacc].
  subst key'. rewrite <- (count_contract_step _ cid _ (Hacc key)). by case_decide.
Qed.

Lemma mark_contract_exact store acc cid dim k sec acc' :
  mark_contract store acc cid dim k sec = Some acc' →
  contract_counts_exact acc → contract_counts_exact acc'.
Proof.
  unfold mark_contract. intros H Hacc. inv_option.
  set (key := {| kind := k |}). intros key'. simpl. rewrite or_default_insert.
  pose proof (count_contract_step _ cid _ (Hacc key)) as Hc.
  repeat case_decide; rewrite ?or_default_insert; repeat case_decide; subst; try done;
    try apply Hacc; by rewrite <- Hc.
Qed.

Lemma mark_nft_scope_exact acc contract nid key :
  contract_counts_exact acc → contract_counts_exact (mark_nft_scope acc contract nid key).
Proof.
  intros Hacc key'. simpl. rewrite !or_default_insert.
  case_decide as E; [subst key'|apply Hacc].
  rewrite <- (count_contract_step _ (contract_id contract) _ (Hacc key)).
  by repeat case_decide.
Qed.

Lemma mark_uri_scopes_exact store cid uid rows dim scopes acc acc' :
  mark_uri_scopes store acc cid uid rows dim scopes = Some acc' →
  contract_counts_exact acc → contract_counts_exact acc'.
Proof.
  revert acc. induction scopes as [|scope scopes IH]; intros acc H Hacc; simpl in H.
  - by simplify_eq.
  - unfold mark_uri_scope_hit in H. case_decide; inv_option; [by eapply IH|].
    eapply IH; [done|]. by apply record_uri_unit_exact.
Qed.

(** *** A run of URI hits computes a sum over the distinct units *)

Section UriRun.
Context (store : EntityStore) (dim : Dimension) (rows : ContractId * StringId → Z).

(** One call of [mark_uri_hit]; [rows] gives the NFT rows of a posting. *)
Record UriHit := { hit_contract : ContractId; hit_uri : StringId; hit_peer : ChainId }.

Definition hit_unit (h : UriHit) : ContractId * StringId := (hit_contract h, hit_uri h).

Fixpoint mark_uri_hits (acc : SummaryAccumulator) (hits : list UriHit)
    : option SummaryAccumulator :=
  match hits with
  | [] => Some acc
  | h :: hits =>
      acc' ← mark_uri_hit store acc (hit_contract h) (hit_uri h) (rows (hit_unit h)) dim (hit_peer h);
      mark_uri_hits acc' hits
  end.

(** Whether a hit counts in scope [key]. *)
Definition hit_in_scope (key : ScopeKey) (h : UriHit) : Prop :=
  match contracts store !! hit_contract h with
  | None => False
  | Some contract =>
      rows (hit_unit h) ≠ 0%Z ∧ dimension key = dim ∧ primary_chain key = contract_chain_id contract ∧
      (kind key, secondary_chain key) ∈ uri_scopes (contract_chain_id contract) (hit_peer h)
  end.

#[global] Instance hit_in_scope_dec key h : Decision (hit_in_scope key h).
Proof. unfold hit_in_scope. destruct (contracts store !! hit_contract h); apply _. Defined.

Lemma hit_in_scope_iff key h contract :
  contracts store !! hit_contract h = Some contract →
  hit_in_scope key h ↔
  rows (hit_unit h) ≠ 0%Z ∧ dimension key = dim ∧ primary_chain key = contract_chain_id contract ∧
  (kind key, secondary_chain key) ∈ uri_scopes (contract_chain_id contract) (hit_peer h).
Proof. unfold hit_in_scope. by intros ->. Qed.

(** The distinct units that count in a scope, whatever the order and
    multiplicity of the hits. *)
Definition scope_units (hits : list UriHit) (key : ScopeKey) : gset (ContractId * StringId) :=
  list_to_set (hit_unit <$> filter (hit_in_scope key) hits).

Definition scope_contracts (units : gset (ContractId * StringId)) : gset ContractId :=
  set_map fst units.

Definition scope_summary (units : gset (ContractId * StringId)) : ScopeCounts :=
  {| duplicate_contract_count := (Z.of_nat (size (scope_contracts units)) mod 2 ^ 64)%Z;
     duplicate_nft_count := (set_sum rows units mod 2 ^ 64)%Z |}.

Definition uri_exact (acc : SummaryAccumulator) (units : ScopeKey → gset (ContractId * StringId))
    : Prop :=
  ∀ key,
    or_default ∅ (counted_uri_units acc) key = units key ∧
    or_default ∅ (counted_contracts acc) key = scope_contracts (units key) ∧
    or_default ScopeCounts_default (counts acc) key = scope_summary (units key).

Lemma record_uri_unit_run acc key cid uid units :
  uri_exact acc units →
  uri_exact (record_uri_unit acc key cid uid (rows (cid, uid)))
    (λ k, if decide (key = k) then {[(cid, uid)]} ∪ units k else units k).
Proof.
  intros Hacc k. unfold record_uri_unit.
  destruct (Hacc key) as (Hu & Hc & Hs). cbv zeta. rewrite Hu.
  case_decide as Hin; simpl; rewrite !or_default_insert; case_decide as Hk; try apply (Hacc k).
  - subst k. replace ({[(cid, uid)]} ∪ units key) with (units key) by set_solver.
    by split_and!.
  - subst k. rewrite Hc, Hs.
    assert (Hsc : scope_contracts ({[(cid, uid)]} ∪ units key) = {[cid]} ∪ scope_contracts (units key))
      by (unfold scope_contracts; by rewrite set_map_union_L, set_map_singleton_L).
    rewrite Hsc. split_and!; [done..|].
    unfold scope_summary, add_nfts. rewrite Hsc. f_equal.
    + rewrite <- (count_contract_step _ cid _ eq_refl). by case_decide.
    + rewrite set_sum_insert by done. rewrite Z.add_comm, <- wrapping_add64_mod. by case_decide.
Qed.

Lemma mark_uri_scopes_run acc cid uid contract scopes units :
  contracts store !! cid = Some contract → rows (cid, uid) ≠ 0%Z → NoDup scopes →
  uri_exact acc units →
  ∃ acc', mark_uri_scopes store acc cid uid (rows (cid, uid)) dim scopes = Some acc' ∧
    uri_exact acc'
      (λ k, if decide (dimension k = dim ∧ primary_chain k = contract_chain_id contract ∧
                       (kind k, secondary_chain k) ∈ scopes)
            then {[(cid, uid)]} ∪ units k else units k).
Proof.
  intros Hcid Hrows. revert acc units.
  induction scopes as [|[sk ss] scopes IH]; intros acc units Hnd Hacc; simpl.
  - exists acc. split; [done|]. intros k. rewrite decide_False by set_solver. apply Hacc.
  - unfold mark_uri_scope_hit. rewrite decide_False, Hcid by done. simpl.
    apply NoDup_cons in Hnd as [Hni Hnd].
    eapply (record_uri_unit_run _ {| kind := sk; primary_chain := contract_chain_id contract;
              secondary_chain := ss; dimension := dim |} cid uid) in Hacc.
    destruct (IH _ _ Hnd Hacc) as (acc' & -> & Hacc'). exists acc'. split; [done|].
    intros k. specialize (Hacc' k). revert Hacc'.
    destruct k as [kk kp ks kd]; simpl.
    repeat case_decide; try done; simplify_eq; set_solver.
Qed.

Lemma uri_scopes_NoDup primary peer : NoDup (uri_scopes primary peer).
Proof.
  unfold uri_scopes. case_decide; [apply NoDup_singleton|].
  apply NoDup_cons. split; [set_solver | apply NoDup_singleton].
Qed.

Lemma scope_units_app hits h key :
  scope_units (hits ++ [h]) key
  = if decide (hit_in_scope key h) then {[hit_unit h]} ∪ scope_units hits key
    else scope_units hits key.
Proof.
  unfold scope_units. rewrite filter_app, fmap_app, list_to_set_app_L.
  rewrite filter_cons, filter_nil. case_decide; set_solver.
Qed.

Lemma mark_uri_hits_run acc hits prefix :
  uri_exact acc (scope_units prefix) →
  Forall (λ h, is_Some (contracts store !! hit_contract h)) hits →
  ∃ acc', mark_uri_hits acc hits = Some acc' ∧ uri_exact acc' (scope_units (prefix ++ hits)).
Proof.
  revert acc prefix. induction hits as [|h hits IH]; intros acc prefix Hacc Hin; simpl.
  - exists acc. by rewrite app_nil_r.
  - apply Forall_cons in Hin as [[contract Hc] Hin].
    replace (prefix ++ h :: hits) with ((prefix ++ [h]) ++ hits) by (by rewrite <- app_assoc).
    unfold mark_uri_hit. case_decide as Hz.
    + apply IH; [|done]. intros key. rewrite scope_units_app, decide_False; [apply Hacc|].
      rewrite (hit_in_scope_iff _ _ _ Hc). by intros [].
    + rewrite Hc. simpl.
      destruct (mark_uri_scopes_run acc (hit_contract h) (hit_uri h) contract
        (uri_scopes (contract_chain_id contract) (hit_peer h)) _ Hc Hz (uri_scopes_NoDup _ _) Hacc)
        as (acc' & E & Hacc'). unfold hit_unit. rewrite E. simpl. apply IH; [|done].
      intros key. specialize (Hacc' key). rewrite scope_units_app.
      pose proof (hit_in_scope_iff key h contract Hc).
      revert Hacc'. repeat case_decide; naive_solver.
Qed.
End UriRun.

(** *** Bulk merges *)

Lemma merge_total_other m kvs key :
  key ∉ kvs.*1 →
  or_default ScopeCounts_default (foldl merge_total m kvs) key
  = or_default ScopeCounts_default m key.
Proof.
  revert m. induction kvs as [|[k v] kvs IH]; intros m Hk; simpl; [done|].
  rewrite IH by set_solver. unfold merge_total. simpl.
  rewrite or_default_insert, decide_False; [done | set_solver].
Qed.

Lemma merge_total_key m kvs key value :
  NoDup kvs.*1 → (key, value) ∈ kvs →
  or_default ScopeCounts_default (foldl merge_total m kvs) key
  = saturating_merge (or_default ScopeCounts_default m key) value.
Proof.
  revert m. induction kvs as [|[k v] kvs IH]; intros m Hnd Hin; [by apply elem_of_nil in Hin|].
  apply NoDup_cons in Hnd as [Hk Hnd]. simpl.
  apply elem_of_cons in Hin as [Heq|Hin].
  - simplify_eq. rewrite merge_total_other by done. unfold merge_total. simpl.
    by rewrite or_default_insert, decide_True.
  - rewrite IH by done. f_equal. unfold merge_total. simpl.
    rewrite or_default_insert, decide_False; [done|].
    intros ->. apply Hk. apply list_elem_of_fmap. by exists (key, value).
Qed.

Lemma merge_unique_contract_counts_lookup acc totals key :
  or_default ScopeCounts_default (counts (merge_unique_contract_counts acc totals)) key
  = match totals !! key with
    | Some value => saturating_merge (or_default ScopeCounts_default (counts acc) key) value
    | None => or_default ScopeCounts_default (counts acc) key
    end.
Proof.
  simpl. destruct (totals !! key) as [value|] eqn:E.
  - apply merge_total_key; [apply NoDup_fst_map_to_list | by apply elem_of_map_to_list].
  - apply merge_total_other. intros ([k v] & -> & Hkv)%list_elem_of_fmap.
    apply elem_of_map_to_list in Hkv. simpl in E. congruence.
Qed.

(** ** Correctness *)

(** Every marking operation counts a contract once per scope: if the contract
    counter of every scope equals (modulo 2^64) the number of distinct contracts
    recorded for it, then it still does after marking a contract in one scope, a
    duplicated contract, a duplicated NFT or a URI hit. *)
Theorem marks_count_contracts_once store acc
    (Hacc : contract_counts_exact acc) :
  contract_counts_exact SummaryAccumulator_default ∧
  (∀ cid dim k sec acc',
     mark_contract store acc cid dim k sec = Some acc' → contract_counts_exact acc') ∧
  (∀ cid dim peer acc',
     mark_contract_duplicate store acc cid dim peer = Some acc' → contract_counts_exact acc') ∧
  (∀ nid dim peer acc',
     mark_nft_duplicate store acc nid dim peer = Some acc' → contract_counts_exact acc') ∧
  (∀ cid uid rows dim peer acc',
     mark_uri_hit store acc cid uid rows dim peer = Some acc' → contract_counts_exact acc').
Proof.
  split_and!.
  - intros key. simpl. by rewrite !or_default_empty.
  - intros. by eapply mark_contract_exact.
  - unfold mark_contract_duplicate. intros cid dim peer acc' H. inv_option.
    case_decide; inv_option; eauto using mark_contract_exact.
  - unfold mark_nft_duplicate. intros nid dim peer acc' H. inv_option.
    case_decide; inv_option; [done|]. simpl. by do 2 apply mark_nft_scope_exact.
  - unfold mark_uri_hit. intros cid uid rows dim peer acc' H.
    case_decide; inv_option; [done|]. by eapply mark_uri_scopes_exact.
Qed.

(** A store of three contracts on two chains, for the examples. *)
Definition example_contract (id chain_id : nat) (nfts : Z) : Contract :=
  {| contract_id := id; contract_chain_id := chain_id; address := []; nft_count := nfts;
     metadata_by_token := [] |}.

Definition example_store : EntityStore :=
  {| chains := [lit "ethereum"; lit "base"]; chain_ids := ∅;
     contracts := [example_contract 0 0 5; example_contract 1 0 3; example_contract 2 1 7];
     contract_index := ∅; nfts := []; nft_index := ∅; strings := []; string_ids := ∅;
     token_uri_postings := []; image_uri_postings := []; totals := ∅; rows_loaded := 0;
     metadata_anchor_limit := None; defer_metadata_sort := false; evm_chains := ∅ |}.

Lemma marks_count_contracts_once_witness :
  contract_counts_exact SummaryAccumulator_default ∧
  (∀ acc', mark_contract_duplicate example_store SummaryAccumulator_default 0 Name 1 = Some acc' →
           contract_counts_exact acc').
Proof.
  assert (H : contract_counts_exact SummaryAccumulator_default)
    by (intros key; simpl; by rewrite !or_default_empty).
  destruct (marks_count_contracts_once example_store SummaryAccumulator_default H)
    as (H0 & _ & H1 & _).
  split; [exact H0 | intros acc'; apply H1].
Defined.

(** A run of URI hits over a fresh accumulator never fails when the contracts
    exist, and its counts are those of the set of distinct (contract, URI) units
    of each scope: the number of their contracts and the sum of their NFT rows.
    They do not depend on the order or the multiplicity of the hits. *)
Theorem mark_uri_hits_summary store dim rows hits
    (Hhits : Forall (λ h, is_Some (contracts store !! hit_contract h)) hits) :
  ∃ acc, mark_uri_hits store dim rows SummaryAccumulator_default hits = Some acc ∧
    ∀ key, or_default ScopeCounts_default (counts acc) key
           = scope_summary rows (scope_units store dim rows hits key).
Proof.
  destruct (mark_uri_hits_run store dim rows SummaryAccumulator_default hits [])
    as (acc & E & Hacc); [| done |].
  - intros key. unfold scope_units. simpl. rewrite !or_default_empty. split_and!; [done..|].
    unfold scope_summary, scope_contracts. by rewrite set_map_empty, set_sum_empty.
  - exists acc. split; [done|]. intros key. by apply Hacc.
Qed.

Lemma mark_uri_hits_summary_witness :
  ∃ acc,
    mark_uri_hits example_store TokenUri (λ _, 2%Z) SummaryAccumulator_default
      [{| hit_contract := 0; hit_uri := 4; hit_peer := 0 |};
       {| hit_contract := 1; hit_uri := 4; hit_peer := 0 |};
       {| hit_contract := 0; hit_uri := 4; hit_peer := 0 |}] = Some acc ∧
    or_default ScopeCounts_default (counts acc)
      {| kind := IntraChain; primary_chain := 0; secondary_chain := None; dimension := TokenUri |}
    = {| duplicate_contract_count := 2; duplicate_nft_count := 4 |}.
Proof.
  destruct (mark_uri_hits_summary example_store TokenUri (λ _, 2%Z)
    [{| hit_contract := 0; hit_uri := 4; hit_peer := 0 |};
     {| hit_contract := 1; hit_uri := 4; hit_peer := 0 |};
     {| hit_contract := 0; hit_uri := 4; hit_peer := 0 |}]) as (acc & E & Hc).
  - repeat constructor; eexists; reflexivity.
  - exists acc. split; [exact E|]. rewrite Hc. vm_compute. reflexivity.
Defined.

(** A completed dimension is merged into the counts exactly once, with
    saturating additions, whatever the iteration order of the totals; merging the
    same dimension again changes nothing; sealing a dimension keeps all counts,
    forgets exactly its own duplicate-detection sets and no other. *)
Theorem bulk_merge_once_and_seal acc dim totals :
  (∀ key, or_default ScopeCounts_default
            (counts (merge_completed_dimension_counts acc dim totals)) key
     = match totals !! key with
       | Some value =>
           if decide (dim ∈ completed_bulk_dimensions acc)
           then or_default ScopeCounts_default (counts acc) key
           else saturating_merge (or_default ScopeCounts_default (counts acc) key) value
       | None => or_default ScopeCounts_default (counts acc) key
       end) ∧
  (∀ totals', merge_completed_dimension_counts
                (merge_completed_dimension_counts acc dim totals) dim totals'
              = merge_completed_dimension_counts acc dim totals) ∧
  counts (seal_dimension acc dim) = counts acc ∧
  (∀ key, counted_uri_units (seal_dimension acc dim) !! key
          = (if decide (dimension key = dim) then None else counted_uri_units acc !! key)) ∧
  (∀ key, counted_contracts (seal_dimension acc dim) !! key
          = (if decide (dimension key = dim) then None else counted_contracts acc !! key)) ∧
  (∀ key, counted_nfts (seal_dimension acc dim) !! key
          = (if decide (dimension key = dim) then None else counted_nfts acc !! key)).
Proof.
  assert (Hretain : ∀ V (m : gmap ScopeKey V) key,
    retain_other_dimensions dim m !! key
    = if decide (dimension key = dim) then None else m !! key).
  { intros V m key. unfold retain_other_dimensions. rewrite map_lookup_filter.
    destruct (m !! key); simpl; [|by case_decide].
    destruct (decide (dimension key = dim)); by case_guard. }
  split_and!; [| |done|apply Hretain..].
  - intros key. unfold merge_completed_dimension_counts. case_decide.
    + by destruct (totals !! key).
    + rewrite merge_unique_contract_counts_lookup. done.
  - intros totals'. unfold merge_completed_dimension_counts at 2 3. case_decide.
    + unfold merge_completed_dimension_counts. by rewrite decide_True.
    + unfold merge_completed_dimension_counts. rewrite decide_True; [done|]. simpl. set_solver.
Qed.
