(* ===== verification/Sampling.v ===== *)
(** [dedup/crates/core/src/sampling.rs]: keyed pseudo-random choices and the
    bounded reservoirs of duplicate contract pairs kept per report scope.

    SHA-256 is a parameter of the model ([Class Sha256]).  A [BinaryHeap] is
    the list of its elements with [peek]/[pop] taking the greatest one; its
    iteration order is not relied on.  [None] is a panic, or the rejection
    loop of [index_u64] exceeding the [retries] bound. *)

From S2P Require Import Prelude Text Types.

(** ** Keyed randomness *)

Class Sha256 := {
  sha256 : list Z → list Z;
  sha256_length bytes : length (sha256 bytes) = 32;
  sha256_bytes bytes : Forall (λ b, 0 ≤ b < 256)%Z (sha256 bytes);
}.

Record SamplingRandomness := { key : list Z }.

(** [SamplingRandomness::DISABLED] *)
Definition DISABLED : SamplingRandomness := {| key := replicate 32 0%Z |}.

(** [u64::to_le_bytes] and [u64::from_le_bytes] *)
Definition to_le_bytes (v : Z) : list Z :=
  map (λ i, Z.land (Z.shiftr v (8 * Z.of_nat i)) 255) (seq 0 8).
Definition from_le_bytes (bytes : list Z) : Z := foldr (λ b acc, b + 256 * acc)%Z 0%Z bytes.

(** The bytes of an ASCII domain-separation label. *)
Definition label (s : string) : list Z := map Z.of_N (lit s).

Section Randomness.
Context `{Sha256}.

Definition score (rnd : SamplingRandomness) (domain : list Z) (values : list Z) : Z :=
  from_le_bytes (take 8 (sha256 (key rnd ++ domain ++ mjoin (map to_le_bytes values)))).

(** The smallest accepted value of the rejection loop. *)
Definition rejection_minimum (len : Z) : Z := (((- len) mod 2 ^ 64) mod len)%Z.

Fixpoint index_u64_loop (retries : nat) (rnd : SamplingRandomness) (domain : list Z)
    (salt ordinal len minimum retry : Z) : option Z :=
  match retries with
  | 0 => None
  | S retries =>
      let value := score rnd domain [salt; ordinal; retry] in
      if decide (minimum ≤ value)%Z then Some (value mod len)%Z
      else index_u64_loop retries rnd domain salt ordinal len minimum (wrapping_add64 retry 1)
  end.

Definition index_u64 (retries : nat) (rnd : SamplingRandomness) (domain : list Z)
    (salt ordinal len : Z) : option Z :=
  if decide (len = 0%Z) then None
  else index_u64_loop retries rnd domain salt ordinal len (rejection_minimum len) 0.

Definition index (retries : nat) (rnd : SamplingRandomness) (domain : list Z)
    (salt ordinal : Z) (len : nat) : option nat :=
  Z.to_nat <$> index_u64 retries rnd domain salt ordinal (Z.of_nat len).
End Randomness.

(** ** Pairs, entries and reservoirs *)

Record ContractPair := { left : ContractId; right : ContractId }.

#[export] Instance ContractPair_eq_dec : EqDecision ContractPair.
Proof. solve_decision. Defined.
#[export] Instance ContractPair_countable : Countable ContractPair.
Proof.
  refine (inj_countable' (λ p, (left p, right p)) (λ '(l, r), {| left := l; right := r |}) _).
  by intros [].
Defined.

(** [ContractPair::new] *)
Definition new_pair (l r : ContractId) : option ContractPair :=
  if decide (l = r) then None
  else if decide (l < r) then Some {| left := l; right := r |}
  else Some {| left := r; right := l |}.

Record SampleEntry := { priority : Z; entry_pair : ContractPair }.

#[export] Instance SampleEntry_eq_dec : EqDecision SampleEntry.
Proof. solve_decision. Defined.
#[export] Instance SampleEntry_countable : Countable SampleEntry.
Proof.
  refine (inj_countable' (λ e, (priority e, entry_pair e))
            (λ '(p, q), {| priority := p; entry_pair := q |}) _).
  by intros [].
Defined.

(** [#[derive(Ord)]] of the pair, and [Ord for SampleEntry]. *)
Definition pair_cmp (a b : ContractPair) : comparison :=
  then_with (Nat.compare (left a) (left b)) (Nat.compare (right a) (right b)).
Definition entry_cmp (a b : SampleEntry) : comparison :=
  then_with (priority a ?= priority b)%Z (pair_cmp (entry_pair a) (entry_pair b)).

Definition entry_ltb (a b : SampleEntry) : bool :=
  match entry_cmp a b with Lt => true | _ => false end.

(** [BinaryHeap::peek]: a greatest element. *)
Fixpoint peek (heap : list SampleEntry) : option SampleEntry :=
  match heap with
  | [] => None
  | e :: heap =>
      match peek heap with
      | None => Some e
      | Some m => Some (if entry_ltb e m then m else e)
      end
  end.

Fixpoint remove_one (e : SampleEntry) (heap : list SampleEntry) : list SampleEntry :=
  match heap with
  | [] => []
  | x :: heap => if decide (x = e) then heap else x :: remove_one e heap
  end.

(** [BinaryHeap::pop] *)
Definition pop (heap : list SampleEntry) : option (SampleEntry * list SampleEntry) :=
  m ← peek heap; Some (m, remove_one m heap).

Record PairReservoir := { heap : list SampleEntry; retained : gset ContractPair }.

Definition PairReservoir_default : PairReservoir := {| heap := []; retained := ∅ |}.

(** [PairReservoir::observe]; reserving capacity has no observable effect. *)
Definition reservoir_observe (r : PairReservoir) (entry : SampleEntry) (capacity : nat)
    : option (PairReservoir * bool) :=
  if decide (entry_pair entry ∈ retained r) then Some (r, false) else
  let full := bool_decide (length (heap r) = capacity) in
  let beaten := match peek (heap r) with
                | Some current => negb (entry_ltb entry current)
                | None => false
                end in
  if full && beaten then Some (r, false) else
  '(heap', retained') ←
    (if full then
       '(removed, heap') ← pop (heap r);
       Some (heap', retained r ∖ {[entry_pair removed]})
     else Some (heap r, retained r));
  Some ({| heap := entry :: heap'; retained := {[entry_pair entry]} ∪ retained' |}, true).

(** [PairReservoir::merge] *)
Definition reservoir_merge (r other : PairReservoir) (capacity : nat) : option PairReservoir :=
  foldl (λ acc entry, r ← acc; '(r', _) ← reservoir_observe r entry capacity; Some r')
    (Some r) (heap other).

(** ** The sampler over report scopes *)

Record PairSampler := {
  capacity : nat;
  randomness : SamplingRandomness;
  contract_chains : list ChainId;
  all_chains : PairReservoir;
  intra_chain : gmap ChainId PairReservoir;
  chain_pairs : gmap (ChainId * ChainId) PairReservoir;
  cross_chain_summary : gmap ChainId PairReservoir;
}.

Record PairSamplingPlan := {
  plan_capacity : nat;
  plan_randomness : SamplingRandomness;
  plan_contract_chains : list ChainId;
}.

Definition disabled : PairSamplingPlan :=
  {| plan_capacity := 0; plan_randomness := DISABLED; plan_contract_chains := [] |}.

Definition sampler (plan : PairSamplingPlan) : PairSampler :=
  {| capacity := plan_capacity plan; randomness := plan_randomness plan;
     contract_chains := plan_contract_chains plan; all_chains := PairReservoir_default;
     intra_chain := ∅; chain_pairs := ∅; cross_chain_summary := ∅ |}.

Definition enabled (s : PairSampler) : bool := negb (bool_decide (capacity s = 0)).

Definition ordered_chain_pair (l r : ChainId) : ChainId * ChainId :=
  if decide (l < r) then (l, r) else (r, l).

(** [map.entry(k).or_default().observe(entry, capacity)] *)
Definition observe_at {K} `{Countable K} (m : gmap K PairReservoir) (k : K) (entry : SampleEntry)
    (capacity : nat) : option (gmap K PairReservoir) :=
  '(r, _) ← reservoir_observe (default PairReservoir_default (m !! k)) entry capacity;
  Some (<[k := r]> m).

(** [merge_reservoir_maps] *)
Definition merge_reservoir_maps {K} `{Countable K} (target source : gmap K PairReservoir)
    (capacity : nat) : option (gmap K PairReservoir) :=
  foldl
    (λ acc '(k, r),
       m ← acc;
       r' ← reservoir_merge (default PairReservoir_default (m !! k)) r capacity;
       Some (<[k := r']> m))
    (Some target) (map_to_list source).

Section Sampler.
Context `{Sha256}.

Definition pair_entry (rnd : SamplingRandomness) (p : ContractPair) : SampleEntry :=
  {| priority := score rnd (label "contract-pair-priority")
                   [Z.of_nat (left p); Z.of_nat (right p)];
     entry_pair := p |}.

Definition observe (s : PairSampler) (l r : ContractId) : option (PairSampler * bool) :=
  if decide (capacity s = 0) then Some (s, false) else
  match new_pair l r with
  | None => Some (s, false)
  | Some p =>
      let entry := pair_entry (randomness s) p in
      '(all', changed) ← reservoir_observe (all_chains s) entry (capacity s);
      left_chain ← contract_chains s !! l;
      right_chain ← contract_chains s !! r;
      if decide (left_chain = right_chain) then
        intra' ← observe_at (intra_chain s) left_chain entry (capacity s);
        Some ({| capacity := capacity s; randomness := randomness s;
                 contract_chains := contract_chains s; all_chains := all';
                 intra_chain := intra'; chain_pairs := chain_pairs s;
                 cross_chain_summary := cross_chain_summary s |}, changed)
      else
        let chain_pair := if decide (left_chain < right_chain) then (left_chain, right_chain)
                          else (right_chain, left_chain) in
        pairs' ← observe_at (chain_pairs s) chain_pair entry (capacity s);
        cross1 ← observe_at (cross_chain_summary s) left_chain entry (capacity s);
        cross2 ← observe_at cross1 right_chain entry (capacity s);
        Some ({| capacity := capacity s; randomness := randomness s;
                 contract_chains := contract_chains s; all_chains := all';
                 intra_chain := intra_chain s; chain_pairs := pairs';
                 cross_chain_summary := cross2 |}, changed)
  end.

Definition merge (s other : PairSampler) : option PairSampler :=
  all' ← reservoir_merge (all_chains s) (all_chains other) (capacity s);
  intra' ← merge_reservoir_maps (intra_chain s) (intra_chain other) (capacity s);
  pairs' ← merge_reservoir_maps (chain_pairs s) (chain_pairs other) (capacity s);
  cross' ← merge_reservoir_maps (cross_chain_summary s) (cross_chain_summary other) (capacity s);
  Some {| capacity := capacity s; randomness := randomness s;
          contract_chains := contract_chains s; all_chains := all';
          intra_chain := intra'; chain_pairs := pairs'; cross_chain_summary := cross' |}.
End Sampler.

(** ** Sampling implicit Cartesian products and cliques *)

Definition IMPLICIT_EXHAUSTIVE_SAMPLE_MULTIPLIER : N := 8.

(** [usize::saturating_mul] *)
Definition saturating_mul (a b : N) : N := N.min (a * b) (2 ^ 64 - 1).

(** A loop over [xs] that threads the sampler. *)
Fixpoint for_each {A} (f : PairSampler → A → option PairSampler) (xs : list A) (s : PairSampler)
    : option PairSampler :=
  match xs with
  | [] => Some s
  | x :: xs => s' ← f s x; for_each f xs s'
  end.

(** The pairs [(x, y)] with [x] before [y] in the list. *)
Fixpoint ordered_pairs {A} (l : list A) : list (A * A) :=
  match l with
  | [] => []
  | x :: l => map (pair x) l ++ ordered_pairs l
  end.

Section Implicit.
Context `{Sha256} (retries : nat).

Definition observe_pair (s : PairSampler) (p : ContractId * ContractId) : option PairSampler :=
  fst <$> observe s p.1 p.2.

Definition random_index (s : PairSampler) (group_salt : Z) (ordinal : Z) (len : nat) : option nat :=
  index retries (randomness s) (label "contract-pair-probe") group_salt ordinal len.

Definition reservoir_remaining {K} `{Countable K} (s : PairSampler)
    (reservoirs : gmap K PairReservoir) (k : K) : nat :=
  capacity s - match reservoirs !! k with Some r => length (heap r) | None => 0 end.

(** The contracts of an implicit group, by chain. *)
Definition group_members (s : PairSampler) (len : nat) (at_ : nat → ContractId)
    : option (gmap ChainId (list ContractId)) :=
  foldl
    (λ acc member,
       groups ← acc;
       let contract := at_ member in
       c ← contract_chains s !! contract;
       Some (<[c := default [] (groups !! c) ++ [contract]]> groups))
    (Some ∅) (seq 0 len).

Definition cross_group_remaining (s : PairSampler)
    (left_groups right_groups : gmap ChainId (list ContractId)) : nat :=
  let lefts := (map_to_list left_groups).*1 in
  let rights := (map_to_list right_groups).*1 in
  let remaining := capacity s - length (heap (all_chains s)) in
  let remaining :=
    foldl (λ remaining c,
      match right_groups !! c with
      | Some _ => Nat.max remaining (reservoir_remaining s (intra_chain s) c)
      | None => remaining
      end) remaining lefts in
  foldl (λ remaining l,
    foldl (λ remaining r,
      if decide (l = r) then remaining else
      let remaining := Nat.max remaining
                         (reservoir_remaining s (chain_pairs s) (ordered_chain_pair l r)) in
      let remaining := Nat.max remaining (reservoir_remaining s (cross_chain_summary s) l) in
      Nat.max remaining (reservoir_remaining s (cross_chain_summary s) r))
      remaining rights) remaining lefts.

Definition clique_group_remaining (s : PairSampler) (len : nat)
    (groups : gmap ChainId (list ContractId)) : nat :=
  let remaining := capacity s - length (heap (all_chains s)) in
  let remaining :=
    foldl (λ remaining '(c, members),
      let remaining :=
        if decide (2 ≤ length members)
        then Nat.max remaining (reservoir_remaining s (intra_chain s) c) else remaining in
      if decide (length members < len)
      then Nat.max remaining (reservoir_remaining s (cross_chain_summary s) c) else remaining)
      remaining (map_to_list groups) in
  foldl (λ remaining '(l, r),
    Nat.max remaining (reservoir_remaining s (chain_pairs s) (ordered_chain_pair l r)))
    remaining (ordered_pairs (map_to_list groups).*1).

(** Bounded random probes of a product and of a clique. *)
Definition probe_product_at (left_len right_len : nat) (left_at right_at : nat → ContractId)
    (salt : Z) (s : PairSampler) (attempt : nat) : option PairSampler :=
  l ← random_index s salt (Z.of_nat attempt * 2) left_len;
  r ← random_index s salt (Z.of_nat attempt * 2 + 1) right_len;
  observe_pair s (left_at l, right_at r).

Definition probe_clique_at (len : nat) (at_ : nat → ContractId) (salt : Z)
    (s : PairSampler) (attempt : nat) : option PairSampler :=
  l ← random_index s salt (Z.of_nat attempt * 2) len;
  r ← random_index s salt (Z.of_nat attempt * 2 + 1) (len - 1);
  let r := if decide (l ≤ r) then S r else r in
  observe_pair s (at_ l, at_ r).

Definition all_products (left_len right_len : nat) : list (nat * nat) :=
  l ← seq 0 left_len; r ← seq 0 right_len; [(l, r)].

(** [probe_clique] and [probe_cross] over explicit member lists. *)
Definition probe_clique (s : PairSampler) (members : list ContractId) (salt : Z)
    (remaining : nat) : option PairSampler :=
  let len := N.of_nat (length members) in
  let pair_count := (saturating_mul len (len - 1) / 2)%N in
  if decide (pair_count ≤ N.of_nat remaining)%N
  then for_each observe_pair (ordered_pairs members) s
  else for_each (probe_clique_at (length members) (λ i, nth i members 0) salt)
         (seq 0 (Nat.max (remaining * 6) 12)) s.

Definition probe_cross (s : PairSampler) (left_members right_members : list ContractId)
    (salt : Z) (remaining : nat) : option PairSampler :=
  let pair_count := saturating_mul (N.of_nat (length left_members)) (N.of_nat (length right_members)) in
  if decide (pair_count ≤ N.of_nat remaining)%N
  then for_each observe_pair (l ← left_members; r ← right_members; [(l, r)]) s
  else for_each
         (probe_product_at (length left_members) (length right_members)
            (λ i, nth i left_members 0) (λ i, nth i right_members 0) salt)
         (seq 0 (Nat.max (remaining * 4) 8)) s.

Definition pair_salt (group_salt : Z) (l r : ChainId) : Z :=
  Z.lxor (Z.lxor group_salt (Z.shiftl (Z.of_nat l) 16)) (Z.of_nat r).

Definition top_up_clique_scopes (s : PairSampler) (groups : gmap ChainId (list ContractId))
    (group_salt : Z) : option PairSampler :=
  s ← for_each
        (λ s '(c, members),
           let remaining := reservoir_remaining s (intra_chain s) c in
           if decide (remaining ≠ 0 ∧ 2 ≤ length members)
           then probe_clique s members (Z.lxor group_salt (Z.of_nat c)) remaining
           else Some s)
        (map_to_list groups) s;
  for_each
    (λ s '((l, lefts), (r, rights)),
       let remaining := reservoir_remaining s (chain_pairs s) (ordered_chain_pair l r) in
       if decide (remaining ≠ 0)
       then probe_cross s lefts rights (pair_salt group_salt l r) remaining
       else Some s)
    (ordered_pairs (map_to_list groups)) s.

Definition top_up_cross_scopes (s : PairSampler)
    (left_groups right_groups : gmap ChainId (list ContractId)) (group_salt : Z)
    : option PairSampler :=
  s ← for_each
        (λ s '(c, lefts),
           match right_groups !! c with
           | None => Some s
           | Some rights =>
               let remaining := reservoir_remaining s (intra_chain s) c in
               if decide (remaining ≠ 0)
               then probe_cross s lefts rights (Z.lxor group_salt (Z.of_nat c)) remaining
               else Some s
           end)
        (map_to_list left_groups) s;
  for_each
    (λ s '((l, lefts), (r, rights)),
       if decide (l = r) then Some s else
       let remaining := reservoir_remaining s (chain_pairs s) (ordered_chain_pair l r) in
       if decide (remaining ≠ 0)
       then probe_cross s lefts rights (pair_salt group_salt l r) remaining
       else Some s)
    (l ← map_to_list left_groups; r ← map_to_list right_groups; [(l, r)]) s.

(** Small groups are exhausted while a reservoir has room. *)
Definition exhaustive (pair_count : N) (remaining : nat) : bool :=
  negb (bool_decide (remaining = 0)) &&
  bool_decide (pair_count ≤ saturating_mul (N.of_nat remaining)
                              IMPLICIT_EXHAUSTIVE_SAMPLE_MULTIPLIER)%N.

Definition observe_cross_by (s : PairSampler) (left_len right_len : nat)
    (left_at right_at : nat → ContractId) (group_salt : Z) : option PairSampler :=
  if negb (enabled s) || bool_decide (left_len = 0) || bool_decide (right_len = 0) then Some s else
  if decide (left_len = 1 ∧ right_len = 1) then observe_pair s (left_at 0, right_at 0) else
  left_groups ← group_members s left_len left_at;
  right_groups ← group_members s right_len right_at;
  let remaining := cross_group_remaining s left_groups right_groups in
  let pair_count := saturating_mul (N.of_nat left_len) (N.of_nat right_len) in
  if exhaustive pair_count remaining then
    for_each observe_pair
      (map (λ '(l, r), (left_at l, right_at r)) (all_products left_len right_len)) s
  else
    let target := Nat.max remaining 1 in
    let attempts := if decide (remaining = 0) then 1 else Nat.max (target * 4) 8 in
    s ← for_each (probe_product_at left_len right_len left_at right_at group_salt)
          (seq 0 attempts) s;
    top_up_cross_scopes s left_groups right_groups group_salt.

Definition observe_clique_by (s : PairSampler) (len : nat) (at_ : nat → ContractId)
    (group_salt : Z) : option PairSampler :=
  if negb (enabled s) || bool_decide (len < 2) then Some s else
  groups ← group_members s len at_;
  let remaining := clique_group_remaining s len groups in
  let pair_count := (saturating_mul (N.of_nat len) (N.of_nat (len - 1)) / 2)%N in
  if exhaustive pair_count remaining then
    for_each observe_pair (map (λ '(l, r), (at_ l, at_ r)) (ordered_pairs (seq 0 len))) s
  else
    let target := Nat.max remaining 1 in
    let attempts := if decide (remaining = 0) then 1 else Nat.max (target * 6) 12 in
    s ← for_each (probe_clique_at len at_ group_salt) (seq 0 attempts) s;
    top_up_clique_scopes s groups group_salt.
End Implicit.

(** ** The [c] smallest elements of a finite set *)

Section Smallest.
Context {K : Type} `{Countable K} (lt : K → K → Prop).
Implicit Types (P Q kept : gset K).

Definition smallest (c : nat) P kept : Prop :=
  kept ⊆ P ∧ size kept = Nat.min c (size P) ∧ ∀ x y, x ∈ kept → y ∈ P → y ∉ kept → lt x y.

Lemma smallest_empty c : smallest c ∅ ∅.
Proof.
  split_and!; [done | by rewrite size_empty, Nat.min_0_r |]. by intros x y Hx%not_elem_of_empty.
Qed.

(** A set with at least as many elements, not contained in [kept], has an
    element outside of [kept]. *)
Lemma pick_outside P kept x :
  x ∈ kept → x ∉ P → size kept ≤ size P → ∃ z, z ∈ P ∧ z ∉ kept.
Proof.
  intros Hx HxP Hs. destruct (decide (P ⊆ kept)) as [Hsub|Hn].
  - exfalso. apply HxP. assert (P = kept) as -> by (by apply set_subseteq_size_eq). done.
  - destruct (set_choose_or_empty (P ∖ kept)) as [[z Hz]|Hem].
    + exists z. set_solver.
    + exfalso. apply Hn. set_solver.
Qed.

Lemma smallest_room c P kept x :
  smallest c P kept → size kept < c → x ∉ kept → smallest c ({[x]} ∪ P) ({[x]} ∪ kept).
Proof.
  intros (Hs & Hn & Hl) Hc Hx.
  assert (kept = P) as -> by (apply set_subseteq_size_eq; [done|lia]).
  split_and!; [done| |set_solver]. rewrite size_union in * by set_solver.
  rewrite size_singleton in *. lia.
Qed.

Lemma smallest_known c P kept x : smallest c P kept → x ∈ kept → smallest c ({[x]} ∪ P) kept.
Proof. intros Hk Hx. replace ({[x]} ∪ P) with P; [done|]. destruct Hk. set_solver. Qed.

Lemma smallest_reject c P kept x :
  smallest c P kept → size kept = c → (∀ y, y ∈ kept → lt y x) → smallest c ({[x]} ∪ P) kept.
Proof.
  intros (Hs & Hn & Hl) Hc Hx. split_and!; [set_solver| |].
  - assert (size P ≤ size ({[x]} ∪ P)) by (apply subseteq_size; set_solver). lia.
  - intros y z Hy [->%elem_of_singleton|Hz]%elem_of_union Hzk; auto.
Qed.

Context (lt_irrefl : ∀ x, ¬ lt x x) (lt_trans : ∀ x y z, lt x y → lt y z → lt x z).

Lemma smallest_unique c P k1 k2 : smallest c P k1 → smallest c P k2 → k1 = k2.
Proof.
  intros (Hs1 & Hn1 & Hl1) (Hs2 & Hn2 & Hl2).
  apply set_subseteq_size_eq; [|lia].
  intros x Hx. destruct (decide (x ∈ k2)) as [|Hx2]; [done|exfalso].
  destruct (pick_outside k2 k1 x Hx Hx2) as (z & Hz & Hz1); [lia|].
  assert (lt x z) by (apply Hl1; set_solver). assert (lt z x) by (apply Hl2; set_solver).
  apply (lt_irrefl x). by eapply lt_trans.
Qed.

Lemma smallest_replace c P kept x m :
  smallest c P kept → size kept = c → m ∈ kept → (∀ y, y ∈ kept → y = m ∨ lt y m) → lt x m →
  x ∉ kept → smallest c ({[x]} ∪ P) ({[x]} ∪ kept ∖ {[m]}).
Proof.
  intros (Hs & Hn & Hl) Hc Hm Hmax Hxm Hx.
  assert (HxP : x ∉ P).
  { intros HxP. apply (lt_irrefl m). apply lt_trans with x; [by apply Hl | done]. }
  split_and!; [set_solver| |].
  - rewrite (size_union {[x]} P), (size_union {[x]} (_ ∖ _)), size_difference, !size_singleton
      by set_solver.
    assert (size kept ≠ 0) by (apply size_non_empty_iff; set_solver). lia.
  - intros y z Hy Hz Hzk.
    assert (Hym : lt y m).
    { apply elem_of_union in Hy as [->%elem_of_singleton|[Hy Hne]%elem_of_difference]; [done|].
      destruct (Hmax y Hy) as [->|]; [set_solver|done]. }
    destruct (decide (z = m)) as [->|]; [done|].
    apply lt_trans with m; [done|]. apply Hl; set_solver.
Qed.

(** Keeping the smallest of a union through the smallest of one part. *)
Lemma smallest_merge c P Q kept_q kept :
  smallest c Q kept_q → smallest c (P ∪ kept_q) kept → smallest c (P ∪ Q) kept.
Proof.
  intros (Hsq & Hnq & Hlq) (Hs & Hn & Hl).
  assert (HPQ : size (P ∪ kept_q) ≤ size (P ∪ Q)) by (apply subseteq_size; set_solver).
  assert (Hkq : size kept_q ≤ size (P ∪ kept_q)) by (apply subseteq_size; set_solver).
  destruct (decide (c ≤ size Q)) as [Hc|Hc].
  2: { replace kept_q with Q in * by (symmetry; apply set_subseteq_size_eq; [done|lia]). done. }
  split_and!; [set_solver|lia|].
  intros x y Hx Hy Hyk.
  destruct (decide (y ∈ P ∪ kept_q)) as [Hy'|Hy']; [by apply Hl|].
  assert (Hyq : ∀ z, z ∈ kept_q → lt z y) by (intros z Hz; apply Hlq; set_solver).
  destruct (decide (x ∈ kept_q)) as [Hxq|Hxq]; [by apply Hyq|].
  destruct (pick_outside kept_q kept x Hx Hxq) as (z & Hz & Hzk); [lia|].
  apply lt_trans with z; [apply Hl; set_solver | by apply Hyq].
Qed.
End Smallest.

(** ** Reservoirs hold the smallest observed pairs *)

#[export] Instance pair_cmp_laws : CompareLaws pair_cmp.
Proof. apply then_with_laws; apply (compare_map_laws _ Nat.compare), _. Qed.

#[export] Instance entry_cmp_laws : CompareLaws entry_cmp.
Proof.
  apply then_with_laws;
    [apply (compare_map_laws priority Z.compare), _ | apply (compare_map_laws entry_pair pair_cmp), _].
Qed.

Lemma entry_cmp_eq a b : entry_cmp a b = Eq → a = b.
Proof.
  unfold entry_cmp, pair_cmp. destruct a as [pa [la ra]], b as [pb [lb rb]]; simpl.
  destruct (Z.compare_spec pa pb), (Nat.compare_spec la lb), (Nat.compare_spec ra rb);
    simpl; naive_solver.
Qed.

Lemma peek_None h : peek h = None → h = [].
Proof. destruct h as [|x h]; [done|]. simpl. by destruct (peek h). Qed.

Lemma peek_max h m : peek h = Some m → m ∈ h ∧ ∀ e, e ∈ h → entry_cmp e m ≠ Gt.
Proof.
  revert m. induction h as [|x h IH]; intros m; simpl; [done|].
  destruct (peek h) as [m'|] eqn:E; intros; simplify_eq.
  - destruct (IH m' eq_refl) as [Hin Hmax]. unfold entry_ltb.
    destruct (entry_cmp x m') eqn:Ex.
    + apply entry_cmp_eq in Ex as ->. split; [set_solver|].
      intros e [->|He]%elem_of_cons; [by rewrite (compare_refl entry_cmp)|auto].
    + split; [set_solver|]. intros e [->|He]%elem_of_cons; [by rewrite Ex|auto].
    + split; [set_solver|]. intros e [->|He]%elem_of_cons; [by rewrite (compare_refl entry_cmp)|].
      apply (compare_trans entry_cmp e m' x); [auto|].
      apply (compare_gt_lt entry_cmp) in Ex. by rewrite Ex.
  - apply peek_None in E as ->. split; [set_solver|]. intros e ->%list_elem_of_singleton. by rewrite (compare_refl entry_cmp).
Qed.

Lemma peek_is_Some h : h ≠ [] → is_Some (peek h).
Proof. intros Hh. destruct (peek h) eqn:E; [eauto|]. by apply peek_None in E. Qed.

Lemma remove_one_Permutation e h : e ∈ h → e :: remove_one e h ≡ₚ h.
Proof.
  induction h as [|x h IH]; intros He; [by apply elem_of_nil in He|]. simpl.
  case_decide as E; [by subst|]. rewrite <- IH at 2 by set_solver. apply Permutation_swap.
Qed.

Section Reservoir.
Context (f : ContractPair → SampleEntry) (f_pair : ∀ p, entry_pair (f p) = p).

(** The order in which pairs are preferred. *)
Definition pair_before (p q : ContractPair) : Prop := entry_cmp (f p) (f q) = Lt.

Lemma pair_before_irrefl p : ¬ pair_before p p.
Proof. unfold pair_before. by rewrite (compare_refl entry_cmp). Qed.

Lemma pair_before_trans p q r : pair_before p q → pair_before q r → pair_before p r.
Proof.
  unfold pair_before. intros Hpq Hqr. apply (compare_lt_le_trans entry_cmp _ (f q)); congruence.
Qed.

Lemma pair_before_total p q : p = q ∨ pair_before p q ∨ pair_before q p.
Proof.
  unfold pair_before. destruct (entry_cmp (f p) (f q)) eqn:E; [left|by right; left|right; right].
  - apply entry_cmp_eq in E. rewrite <- (f_pair p), <- (f_pair q). by f_equal.
  - by apply (compare_gt_lt entry_cmp).
Qed.

(** After the pairs [P] were observed. *)
Definition reservoir_ok (c : nat) (P : gset ContractPair) (r : PairReservoir) : Prop :=
  heap r ≡ₚ f <$> elements (retained r) ∧ smallest pair_before c P (retained r).

Lemma reservoir_ok_default c : reservoir_ok c ∅ PairReservoir_default.
Proof. split; [simpl; by rewrite elements_empty | apply smallest_empty]. Qed.

Lemma elem_of_heap c P r e :
  reservoir_ok c P r → e ∈ heap r ↔ ∃ p, e = f p ∧ p ∈ retained r.
Proof.
  intros [Hh _]. rewrite Hh, list_elem_of_fmap. by setoid_rewrite elem_of_elements.
Qed.

Lemma length_heap c P r : reservoir_ok c P r → length (heap r) = size (retained r).
Proof. intros [Hh _]. by rewrite Hh, length_fmap. Qed.

Lemma heap_insert (h : list SampleEntry) (R : gset ContractPair) p :
  h ≡ₚ f <$> elements R → p ∉ R → f p :: h ≡ₚ f <$> elements ({[p]} ∪ R).
Proof. intros Hh Hp. by rewrite elements_union_singleton, fmap_cons, Hh. Qed.

Lemma heap_pop (h : list SampleEntry) (R : gset ContractPair) m :
  h ≡ₚ f <$> elements R → m ∈ R → remove_one (f m) h ≡ₚ f <$> elements (R ∖ {[m]}).
Proof.
  intros Hh Hm. apply (Permutation_cons_inv (a := f m)).
  rewrite remove_one_Permutation, Hh; [|rewrite Hh; apply list_elem_of_fmap_2; by apply elem_of_elements].
  replace R with ({[m]} ∪ R ∖ {[m]}) at 1
    by (apply set_eq; intros x; destruct (decide (x = m)); set_solver).
  rewrite elements_union_singleton by set_solver. done.
Qed.

Lemma reservoir_observe_ok c P r p :
  c ≠ 0 → reservoir_ok c P r →
  ∃ r' changed, reservoir_observe r (f p) c = Some (r', changed) ∧ reservoir_ok c ({[p]} ∪ P) r'.
Proof.
  intros Hc Hr. pose proof (length_heap _ _ _ Hr) as Hlen. pose proof Hr as [Hh Hsm].
  unfold reservoir_observe. rewrite f_pair. case_decide as Hp.
  { eexists _, _. split; [done|]. split; [done|]. by apply smallest_known. }
  destruct (bool_decide_reflect (length (heap r) = c)) as [Hfull|Hroom]; cbn [andb].
  2: { eexists _, _. split; [done|]. split; simpl; [by apply heap_insert|].
       apply smallest_room; [done| |done]. destruct Hsm as (_ & Hn & _). lia. }
  destruct (peek_is_Some (heap r)) as [m Hm]; [by intros E; rewrite E in Hfull; simpl in Hfull|].
  destruct (peek_max _ _ Hm) as [Hin Hmax].
  destruct (proj1 (elem_of_heap _ _ _ _ Hr) Hin) as (q & -> & Hq).
  assert (Hbound : ∀ y, y ∈ retained r → y = q ∨ pair_before y q).
  { intros y Hy. destruct (pair_before_total y q) as [|[|Hqy]]; [by left|by right|].
    exfalso. apply (Hmax (f y)); [apply (elem_of_heap _ _ _ _ Hr); eauto|].
    by apply (compare_gt_lt entry_cmp). }
  rewrite Hm. simpl. unfold pop, entry_ltb. rewrite Hm.
  destruct (pair_before_total p q) as [->|[Hpq|Hqp]]; [done| |].
  - unfold pair_before in Hpq. rewrite Hpq. simpl. eexists _, _. split; [done|].
    rewrite f_pair. split; simpl.
    + apply heap_insert; [by apply heap_pop | set_solver].
    + apply smallest_replace; auto using pair_before_irrefl; [|lia].
      intros x y z. apply pair_before_trans.
  - assert (entry_cmp (f p) (f q) = Gt) as -> by (by apply (compare_gt_lt entry_cmp)).
    simpl. eexists _, _. split; [done|]. split; [done|].
    apply smallest_reject; [done|lia|]. intros y Hy.
    destruct (Hbound y Hy) as [->|Hyq]; [done|]. by eapply pair_before_trans.
Qed.
End Reservoir.

Section ReservoirMerge.
Context (f : ContractPair → SampleEntry) (f_pair : ∀ p, entry_pair (f p) = p).
Abbreviation ok := (reservoir_ok f).

Lemma reservoir_observes_ok c P r ps :
  c ≠ 0 → ok c P r →
  ∃ r', foldl (λ acc entry, r ← acc; '(r', _) ← reservoir_observe r entry c; Some r')
          (Some r) (f <$> ps) = Some r' ∧ ok c (list_to_set ps ∪ P) r'.
Proof.
  intros Hc. revert P r. induction ps as [|p ps IH]; intros P r Hr.
  - exists r. split; [done|]. by replace (list_to_set [] ∪ P) with P by set_solver.
  - destruct (reservoir_observe_ok f f_pair c P r p Hc Hr) as (r1 & ch & E & Hr1).
    rewrite fmap_cons. cbn [foldl mbind option_bind]. rewrite E.
    cbn [mbind option_bind]. destruct (IH _ _ Hr1) as (r' & -> & Hr').
    exists r'. split; [done|].
    by replace (list_to_set (p :: ps) ∪ P) with (list_to_set ps ∪ ({[p]} ∪ P)) by set_solver.
Qed.

Lemma heap_entries c Q other :
  ok c Q other → ∃ ps, heap other = f <$> ps ∧ list_to_set ps = retained other.
Proof.
  intros Ho. exists (entry_pair <$> heap other).
  assert (Hf : ∀ e, e ∈ heap other → f (entry_pair e) = e).
  { intros e He. apply (elem_of_heap _ _ _ _ _ Ho) in He as (p & -> & _). by rewrite f_pair. }
  split.
  - rewrite <- list_fmap_compose. rewrite <- (list_fmap_id (heap other)) at 1.
    apply list_fmap_ext. intros i e He. simpl. symmetry. apply Hf.
    by eapply list_elem_of_lookup_2.
  - destruct Ho as [-> _]. rewrite <- list_fmap_compose.
    apply set_eq. intros p. rewrite elem_of_list_to_set, list_elem_of_fmap. simpl.
    setoid_rewrite elem_of_elements. setoid_rewrite f_pair. naive_solver.
Qed.

Lemma reservoir_merge_ok c P Q r other :
  c ≠ 0 → ok c P r → ok c Q other →
  ∃ r', reservoir_merge r other c = Some r' ∧ ok c (P ∪ Q) r'.
Proof.
  intros Hc Hr Ho. destruct (heap_entries _ _ _ Ho) as (ps & Hh & Hps).
  unfold reservoir_merge. rewrite Hh.
  destruct (reservoir_observes_ok c P r ps Hc Hr) as (r' & -> & Hr'). exists r'. split; [done|].
  rewrite Hps, (union_comm_L _ P) in Hr'. destruct Hr' as [Hh' Hsm]. split; [done|].
  destruct Ho as [_ Hso]. by apply (smallest_merge _ (pair_before_irrefl f) (pair_before_trans f) _ _ _ (retained other)).
Qed.

(** A map of reservoirs, one per scope; absent means empty. *)
Definition map_ok {K} `{Countable K} (c : nat) (P : K → gset ContractPair)
    (m : gmap K PairReservoir) : Prop :=
  ∀ k, ok c (P k) (default PairReservoir_default (m !! k)).

Lemma map_ok_empty {K} `{Countable K} c : map_ok c (λ _ : K, ∅) ∅.
Proof. intros k. rewrite lookup_empty. apply reservoir_ok_default. Qed.

Lemma observe_at_ok {K} `{Countable K} c P (m : gmap K PairReservoir) k p :
  c ≠ 0 → map_ok c P m →
  ∃ m', observe_at m k (f p) c = Some m' ∧
        map_ok c (λ k', if decide (k = k') then {[p]} ∪ P k' else P k') m'.
Proof.
  intros Hc Hm. unfold observe_at.
  destruct (reservoir_observe_ok f f_pair c (P k) _ p Hc (Hm k)) as (r' & ch & -> & Hr').
  eexists. split; [done|]. intros k'. rewrite lookup_insert.
  case_decide; subst; [done|apply Hm].
Qed.

Lemma merge_maps_list_ok {K} `{Countable K} c P (target : gmap K PairReservoir)
    (G : K → gset ContractPair) (kvs : list (K * PairReservoir)) :
  c ≠ 0 → NoDup kvs.*1 → map_ok c P target → (∀ k r, (k, r) ∈ kvs → ok c (G k) r) →
  ∃ m, foldl (λ acc '(k, r),
           m ← acc; r' ← reservoir_merge (default PairReservoir_default (m !! k)) r c;
           Some (<[k := r']> m)) (Some target) kvs = Some m ∧
       map_ok c (λ k, if decide (k ∈ kvs.*1) then P k ∪ G k else P k) m.
Proof.
  intros Hc. revert P target. induction kvs as [|[k r] kvs IH]; intros P target Hnd Ht Hkv.
  - exists target. split; [done|]. intros k. rewrite decide_False by (by apply not_elem_of_nil).
    apply Ht.
  - apply NoDup_cons in Hnd as [Hk Hnd]. simpl in Hk.
    destruct (reservoir_merge_ok c (P k) (G k) _ r Hc (Ht k)) as (r' & E & Hr').
    { apply Hkv. set_solver. }
    simpl. rewrite E. simpl.
    destruct (IH (λ k', if decide (k' = k) then P k' ∪ G k' else P k') (<[k := r']> target))
      as (m & -> & Hm); [done| | |].
    + intros k'. rewrite lookup_insert. repeat case_decide; subst; done.
    + intros. apply Hkv. set_solver.
    + exists m. split; [done|]. intros k'. specialize (Hm k'). simpl in Hm.
      revert Hm. repeat case_decide; subst; try done; set_solver.
Qed.

Lemma merge_reservoir_maps_ok {K} `{Countable K} c P Q (target source : gmap K PairReservoir) :
  c ≠ 0 → map_ok c P target → map_ok c Q source →
  ∃ m, merge_reservoir_maps target source c = Some m ∧ map_ok c (λ k, P k ∪ Q k) m.
Proof.
  intros Hc Ht Hs. unfold merge_reservoir_maps.
  destruct (merge_maps_list_ok c P target Q (map_to_list source)) as (m & -> & Hm);
    [done | apply NoDup_fst_map_to_list | done | |].
  - intros k r Hkr. apply elem_of_map_to_list in Hkr. specialize (Hs k). by rewrite Hkr in Hs.
  - exists m. split; [done|]. intros k. specialize (Hm k). simpl in Hm. case_decide as Hk; [done|].
    assert (Hsk : source !! k = None).
    { apply eq_None_not_Some. intros [r Hr]. apply Hk. apply list_elem_of_fmap.
      exists (k, r). split; [done|]. by apply elem_of_map_to_list. }
    pose proof (Hs k) as [_ (_ & Hn & _)]. rewrite Hsk in Hn. cbn in Hn.
    assert (size (Q k) = 0) as HQ%size_empty_inv by (change (size ∅) with 0 in Hn; lia).
    fold_leibniz. by rewrite HQ, (union_empty_r_L).
Qed.
End ReservoirMerge.

(** ** Scopes of a sampler *)

Section Scopes.
Context (cc : list ChainId).

Definition chain_of (c : ContractId) : ChainId := nth c cc 0.

Definition intra_scope (k : ChainId) (p : ContractPair) : Prop :=
  chain_of (left p) = k ∧ chain_of (right p) = k.
Definition pair_scope (k : ChainId * ChainId) (p : ContractPair) : Prop :=
  chain_of (left p) ≠ chain_of (right p) ∧
  ordered_chain_pair (chain_of (left p)) (chain_of (right p)) = k.
Definition cross_scope (k : ChainId) (p : ContractPair) : Prop :=
  chain_of (left p) ≠ chain_of (right p) ∧ (chain_of (left p) = k ∨ chain_of (right p) = k).

#[export] Instance intra_scope_dec k p : Decision (intra_scope k p).
Proof. apply _. Defined.
#[export] Instance pair_scope_dec k p : Decision (pair_scope k p).
Proof. apply _. Defined.
#[export] Instance cross_scope_dec k p : Decision (cross_scope k p).
Proof. apply _. Defined.

(** Every reservoir of [s] holds the smallest pairs of its scope among the
    pairs [P] observed so far. *)
Record sampler_ok (f : ContractPair → SampleEntry) (c : nat) (s : PairSampler)
    (P : gset ContractPair) : Prop := {
  ok_all : reservoir_ok f c P (all_chains s);
  ok_intra : map_ok f c (λ k, filter (intra_scope k) P) (intra_chain s);
  ok_pairs : map_ok f c (λ k, filter (pair_scope k) P) (chain_pairs s);
  ok_cross : map_ok f c (λ k, filter (cross_scope k) P) (cross_chain_summary s);
}.

Lemma ordered_chain_pair_comm l r : ordered_chain_pair l r = ordered_chain_pair r l.
Proof. unfold ordered_chain_pair. repeat case_decide; f_equal; lia. Qed.

Lemma filter_insert_set (Q : ContractPair → Prop) `{!∀ p, Decision (Q p)} (P : gset ContractPair) p :
  filter Q ({[p]} ∪ P) = if decide (Q p) then {[p]} ∪ filter Q P else filter Q P.
Proof. case_decide; set_solver. Qed.
End Scopes.

Section ScopeMerge.
Context (f : ContractPair → SampleEntry) (f_pair : ∀ p, entry_pair (f p) = p).

Lemma map_ok_ext {K} `{Countable K} c P Q (m : gmap K PairReservoir) :
  map_ok f c P m → (∀ k, P k = Q k) → map_ok f c Q m.
Proof. intros Hm He k. rewrite <- He. apply Hm. Qed.

Lemma observe_scope_ok {K} `{Countable K} (scope : K → ContractPair → Prop)
    `{!∀ k p, Decision (scope k p)} c P (m : gmap K PairReservoir) k p :
  c ≠ 0 → (∀ k', scope k' p ↔ k = k') →
  map_ok f c (λ k, filter (scope k) P) m →
  ∃ m', observe_at m k (f p) c = Some m' ∧ map_ok f c (λ k, filter (scope k) ({[p]} ∪ P)) m'.
Proof.
  intros Hc Hk Hm. destruct (observe_at_ok f f_pair c _ m k p Hc Hm) as (m' & -> & Hm').
  exists m'. split; [done|]. eapply map_ok_ext; [done|]. intros k'. cbn beta.
  rewrite filter_insert_set. specialize (Hk k'). repeat case_decide; naive_solver.
Qed.

Lemma observe_scope_skip {K} `{Countable K} (scope : K → ContractPair → Prop)
    `{!∀ k p, Decision (scope k p)} c P (m : gmap K PairReservoir) p :
  (∀ k, ¬ scope k p) → map_ok f c (λ k, filter (scope k) P) m →
  map_ok f c (λ k, filter (scope k) ({[p]} ∪ P)) m.
Proof.
  intros Hk Hm. eapply map_ok_ext; [done|]. intros k. cbn beta.
  rewrite filter_insert_set. by rewrite decide_False.
Qed.

Lemma merge_scope_ok {K} `{Countable K} (scope : K → ContractPair → Prop)
    `{!∀ k p, Decision (scope k p)} c P Q (m1 m2 : gmap K PairReservoir) :
  c ≠ 0 → map_ok f c (λ k, filter (scope k) P) m1 → map_ok f c (λ k, filter (scope k) Q) m2 →
  ∃ m, merge_reservoir_maps m1 m2 c = Some m ∧ map_ok f c (λ k, filter (scope k) (P ∪ Q)) m.
Proof.
  intros Hc H1 H2. destruct (merge_reservoir_maps_ok f f_pair c _ _ _ _ Hc H1 H2) as (m & -> & Hm).
  exists m. split; [done|]. eapply map_ok_ext; [done|]. intros k. cbn beta. set_solver.
Qed.

(** The cross-chain summary observes a pair once per side. *)
Lemma observe_cross_ok cc c P (m : gmap ChainId PairReservoir) l r p :
  c ≠ 0 → l ≠ r → ordered_chain_pair (chain_of cc (left p)) (chain_of cc (right p)) =
                   ordered_chain_pair l r →
  map_ok f c (λ k, filter (cross_scope cc k) P) m →
  ∃ m1 m2, observe_at m l (f p) c = Some m1 ∧ observe_at m1 r (f p) c = Some m2 ∧
           map_ok f c (λ k, filter (cross_scope cc k) ({[p]} ∪ P)) m2.
Proof.
  intros Hc Hlr Ho Hm.
  destruct (observe_at_ok f f_pair c _ m l p Hc Hm) as (m1 & E1 & Hm1).
  destruct (observe_at_ok f f_pair c _ m1 r p Hc Hm1) as (m2 & E2 & Hm2).
  exists m1, m2. split_and!; [done..|]. eapply map_ok_ext; [done|]. intros k. cbn beta.
  assert (Hk : cross_scope cc k p ↔ l = k ∨ r = k).
  { unfold cross_scope, ordered_chain_pair in *. repeat case_decide; naive_solver lia. }
  rewrite filter_insert_set. repeat case_decide; naive_solver.
Qed.
End ScopeMerge.

(** ** Samplers of a plan *)

Section Samplers.
Context `{Sha256} (plan : PairSamplingPlan) (enabled_plan : plan_capacity plan ≠ 0).
Abbreviation cc := (plan_contract_chains plan).
Abbreviation entry := (pair_entry (plan_randomness plan)).

Definition config (s : PairSampler) : PairSamplingPlan :=
  {| plan_capacity := capacity s; plan_randomness := randomness s;
     plan_contract_chains := contract_chains s |}.

(** [s] was made by [plan] and holds what it must after observing [P]. *)
Definition sampled (s : PairSampler) (P : gset ContractPair) : Prop :=
  config s = plan ∧ sampler_ok cc entry (plan_capacity plan) s P.

(** The pairs of a sequence of observations. *)
Definition pairs_of (ps : list (ContractId * ContractId)) : gset ContractPair :=
  list_to_set (omap (λ p, new_pair p.1 p.2) ps).

Lemma pairs_of_nil : pairs_of [] = ∅.
Proof. done. Qed.

Lemma pairs_of_one l r :
  pairs_of [(l, r)] = match new_pair l r with Some p => {[p]} | None => ∅ end.
Proof using Type.
  clear enabled_plan. clear plan. unfold pairs_of. simpl. destruct (new_pair l r); simpl; set_solver. Qed.

Definition in_range (p : ContractId * ContractId) : Prop :=
  p.1 < length cc ∧ p.2 < length cc.

Lemma sampler_sampled : sampled (sampler plan) ∅.
Proof.
  split; [by destruct plan|]. split; simpl; [apply reservoir_ok_default|..];
    (eapply map_ok_ext; [apply map_ok_empty|]; intros k; set_solver).
Qed.

Lemma new_pair_spec l r :
  (l = r ∧ new_pair l r = None) ∨
  ∃ p, new_pair l r = Some p ∧ left p = Nat.min l r ∧ right p = Nat.max l r ∧ l ≠ r.
Proof.
  unfold new_pair. repeat case_decide; [by left | right..]; eexists; (split; [done|]); simpl; lia.
Qed.

Lemma new_pair_chains l r p :
  new_pair l r = Some p →
  ∀ (R : ChainId → ChainId → Prop), (∀ a b, R a b → R b a) →
  R (chain_of cc (left p)) (chain_of cc (right p)) ↔ R (chain_of cc l) (chain_of cc r).
Proof.
  unfold new_pair. repeat case_decide; intros; simplify_eq/=; split; auto.
Qed.

Lemma observe_sampled s P l r :
  sampled s P → in_range (l, r) →
  ∃ s' changed, observe s l r = Some (s', changed) ∧ sampled s' (pairs_of [(l, r)] ∪ P).
Proof.
  intros [Hcfg Hok] [Hl Hr]. simpl in Hl, Hr.
  assert (capacity s = plan_capacity plan) as Hcap by (by rewrite <- Hcfg).
  assert (randomness s = plan_randomness plan) as Hrnd by (by rewrite <- Hcfg).
  assert (contract_chains s = cc) as Hcc by (by rewrite <- Hcfg).
  rewrite pairs_of_one. unfold observe. rewrite Hcap, decide_False by done.
  destruct (new_pair_spec l r) as [[-> ->]|(p & Hp & _)].
  { eexists _, _. split; [done|]. rewrite union_empty_l_L. done. }
  rewrite Hp, Hrnd, Hcc.
  pose proof (new_pair_chains l r p Hp) as Hch.
  destruct Hok as [Ha Hi Hpr Hcr].
  destruct (reservoir_observe_ok entry (λ _, eq_refl) _ _ _ p enabled_plan Ha)
    as (all' & changed & -> & Ha'). simpl.
  destruct (lookup_lt_is_Some_2 cc l Hl) as [lc Hlc].
  destruct (lookup_lt_is_Some_2 cc r Hr) as [rc Hrc].
  rewrite Hlc, Hrc. simpl.
  assert (Hlc' : chain_of cc l = lc) by (by apply nth_lookup_Some).
  assert (Hrc' : chain_of cc r = rc) by (by apply nth_lookup_Some).
  rewrite Hlc', Hrc' in Hch.
  pose proof (Hch eq (λ a b, @eq_sym _ a b)) as Heq. cbn beta in Heq.
  case_decide as Hlr.
  - assert (Hk : ∀ k, intra_scope cc k p ↔ lc = k).
    { intros k. pose proof (Hch (λ a b, a = k ∧ b = k)) as Hk. cbn beta in Hk.
      unfold intra_scope. rewrite Hk; [|tauto]. subst rc. naive_solver. }
    destruct (observe_scope_ok entry (λ _, eq_refl) (intra_scope cc) _ _ _ lc p enabled_plan Hk Hi)
      as (intra' & -> & Hi'). simpl.
    eexists _, _. split; [done|]. split; [by destruct plan|]. split; simpl; [done|done|..].
    + apply (observe_scope_skip entry (pair_scope cc)); [|done]. intros k []. naive_solver.
    + apply (observe_scope_skip entry (cross_scope cc)); [|done]. intros k []. naive_solver.
  - assert (Ho : ordered_chain_pair (chain_of cc (left p)) (chain_of cc (right p)) =
                 ordered_chain_pair lc rc).
    { apply (Hch (λ a b, ordered_chain_pair a b = ordered_chain_pair lc rc)); [|done].
      intros a b. by rewrite ordered_chain_pair_comm. }
    assert (Hk : ∀ k, pair_scope cc k p ↔ ordered_chain_pair lc rc = k).
    { intros k. unfold pair_scope. rewrite Ho. naive_solver. }
    destruct (observe_scope_ok entry (λ _, eq_refl) (pair_scope cc) _ _ _ _ p enabled_plan Hk Hpr)
      as (pairs' & Ep & Hp').
    destruct (observe_cross_ok entry (λ _, eq_refl) cc _ _ _ lc rc p enabled_plan Hlr Ho Hcr)
      as (c1 & c2 & E1 & E2 & Hc').
    unfold ordered_chain_pair in Ep. rewrite Ep. simpl. rewrite E1. simpl. rewrite E2. simpl.
    eexists _, _. split; [done|]. split; [by destruct plan|]. split; simpl; [done| |done|done].
    apply (observe_scope_skip entry (intra_scope cc)); [|done].
    intros k [H1 H2]. naive_solver congruence.
Qed.

Lemma pairs_of_cons p ps : pairs_of (p :: ps) = pairs_of [p] ∪ pairs_of ps.
Proof using Type.
  clear enabled_plan. clear plan. unfold pairs_of. simpl. destruct (new_pair p.1 p.2); simpl; set_solver. Qed.

Lemma pairs_of_app ps qs : pairs_of (ps ++ qs) = pairs_of ps ∪ pairs_of qs.
Proof using Type.
  clear enabled_plan. clear plan.
  induction ps as [|p ps IH]; [by rewrite pairs_of_nil, union_empty_l_L|].
  rewrite <- app_comm_cons, pairs_of_cons, IH, (pairs_of_cons p ps). by rewrite union_assoc_L.
Qed.

Lemma observes_sampled s P ps :
  sampled s P → Forall in_range ps →
  ∃ s', for_each observe_pair ps s = Some s' ∧ sampled s' (pairs_of ps ∪ P).
Proof.
  intros Hs Hps. revert s P Hs. induction Hps as [|[l r] ps Hp Hps IH]; intros s P Hs.
  - exists s. split; [done|]. by rewrite pairs_of_nil, union_empty_l_L.
  - destruct (observe_sampled s P l r Hs Hp) as (s1 & ch & E & Hs1). cbn [for_each].
    change (observe_pair s (l, r)) with (fst <$> observe s l r). rewrite E.
    cbn [fst fmap option_fmap option_map mbind option_bind].
    destruct (IH _ _ Hs1) as (s' & -> & Hs'). exists s'. split; [done|].
    rewrite pairs_of_cons. by replace (pairs_of [(l, r)] ∪ pairs_of ps ∪ P)
      with (pairs_of ps ∪ (pairs_of [(l, r)] ∪ P)) by set_solver.
Qed.

Lemma merge_sampled s t P Q :
  sampled s P → sampled t Q → ∃ u, merge s t = Some u ∧ sampled u (P ∪ Q).
Proof.
  intros [Hcfg [Ha Hi Hpr Hcr]] [_ [Ha' Hi' Hpr' Hcr']].
  assert (capacity s = plan_capacity plan) as Hcap by (by rewrite <- Hcfg).
  unfold merge. rewrite Hcap.
  destruct (reservoir_merge_ok entry (λ _, eq_refl) _ _ _ _ _ enabled_plan Ha Ha') as (a & -> & Hoa).
  destruct (merge_scope_ok entry (λ _, eq_refl) _ _ _ _ _ _ enabled_plan Hi Hi') as (i & Ei & Hoi).
  destruct (merge_scope_ok entry (λ _, eq_refl) _ _ _ _ _ _ enabled_plan Hpr Hpr') as (p & Ep & Hop).
  destruct (merge_scope_ok entry (λ _, eq_refl) _ _ _ _ _ _ enabled_plan Hcr Hcr') as (c & Ec & Hoc).
  cbn [mbind option_bind]. rewrite Ei. cbn [mbind option_bind]. rewrite Ep. cbn [mbind option_bind].
  rewrite Ec. cbn [mbind option_bind].
  eexists. split; [done|]. split; [by rewrite <- Hcfg|]. by split.
Qed.

Definition retained_at {K} `{Countable K} (m : gmap K PairReservoir) (k : K) : gset ContractPair :=
  retained (default PairReservoir_default (m !! k)).

(** The observable contents of a sampler: the pairs of every scope. *)
Definition same_samples (s t : PairSampler) : Prop :=
  retained (all_chains s) = retained (all_chains t) ∧
  (∀ k, retained_at (intra_chain s) k = retained_at (intra_chain t) k) ∧
  (∀ k, retained_at (chain_pairs s) k = retained_at (chain_pairs t) k) ∧
  (∀ k, retained_at (cross_chain_summary s) k = retained_at (cross_chain_summary t) k).

Lemma reservoir_ok_unique c P r1 r2 :
  reservoir_ok entry c P r1 → reservoir_ok entry c P r2 → retained r1 = retained r2.
Proof.
  intros [_ H1] [_ H2].
  by apply (smallest_unique _ (pair_before_irrefl entry) (pair_before_trans entry) c P).
Qed.

Lemma sampled_unique s t P : sampled s P → sampled t P → same_samples s t.
Proof.
  intros [_ [Ha Hi Hp Hc]] [_ [Ha' Hi' Hp' Hc']].
  split_and!; [by eapply reservoir_ok_unique|..]; intros k; unfold retained_at;
    eapply reservoir_ok_unique; (apply Hi || apply Hp || apply Hc || apply Hi' || apply Hp' || apply Hc').
Qed.

(** Worker samplers, each fed its own observations, merged in turn into a
    first sampler. *)
Definition run_worker (ps : list (ContractId * ContractId)) : option PairSampler :=
  for_each observe_pair ps (sampler plan).
Definition run_workers (work : list (list (ContractId * ContractId))) : option PairSampler :=
  for_each (λ acc ps, worker ← run_worker ps; merge acc worker) work (sampler plan).

Lemma run_worker_sampled ps :
  Forall in_range ps → ∃ s, run_worker ps = Some s ∧ sampled s (pairs_of ps).
Proof.
  intros Hps. destruct (observes_sampled _ _ ps sampler_sampled Hps) as (s & E & Hs).
  exists s. split; [done|]. by rewrite union_empty_r_L in Hs.
Qed.

Lemma run_workers_sampled work :
  Forall (Forall in_range) work → ∃ s, run_workers work = Some s ∧ sampled s (pairs_of (mjoin work)).
Proof.
  unfold run_workers. intros Hw. rewrite <- (union_empty_r_L (pairs_of (mjoin work))).
  generalize (sampler plan) (∅ : gset ContractPair) sampler_sampled.
  induction Hw as [|ps work Hps Hw IH]; intros s P Hs; simpl.
  - exists s. split; [done|]. by rewrite pairs_of_nil, union_empty_l_L.
  - destruct (run_worker_sampled ps Hps) as (t & -> & Ht). cbn [mbind option_bind].
    destruct (merge_sampled s t P _ Hs Ht) as (u & -> & Hu). cbn [mbind option_bind].
    destruct (IH u _ Hu) as (s' & -> & Hs'). exists s'. split; [done|].
    rewrite pairs_of_app. by replace (pairs_of ps ∪ pairs_of (mjoin work) ∪ P)
      with (pairs_of (mjoin work) ∪ (P ∪ pairs_of ps)) by set_solver.
Qed.

(** C3: Sampling is deterministic: however the observations are split over
    workers and ordered, merging the workers' samplers gives the samples of one
    sampler that saw all the pairs, namely the [capacity] smallest of every scope. *)
Theorem sharded_sampling_deterministic work ps :
  Forall (Forall in_range) work → Forall in_range ps → pairs_of (mjoin work) = pairs_of ps →
  ∃ s t, run_workers work = Some s ∧ run_worker ps = Some t ∧
         sampled s (pairs_of ps) ∧ same_samples s t.
Proof.
  intros Hw Hps Heq. destruct (run_workers_sampled work Hw) as (s & -> & Hs).
  destruct (run_worker_sampled ps Hps) as (t & -> & Ht). rewrite Heq in Hs.
  exists s, t. split_and!; [done..|]. by apply sampled_unique with (pairs_of ps).
Qed.
End Samplers.

(** ** Unbiased indices *)

Section Uniform.
Context (len : Z) (Hlen : (0 < len ≤ 2 ^ 64)%Z).

Lemma rejection_minimum_bounds : (0 ≤ rejection_minimum len < len)%Z.
Proof. apply Z.mod_pos_bound. lia. Qed.

Lemma rejection_minimum_spec : rejection_minimum len = ((2 ^ 64) mod len)%Z.
Proof.
  unfold rejection_minimum. destruct (decide (len = 2 ^ 64)%Z) as [->|Hne]; [reflexivity|].
  rewrite Z.mod_opp_l_nz by (rewrite ?Z.mod_small; lia). rewrite (Z.mod_small len) by lia.
  replace (2 ^ 64 - len)%Z with (2 ^ 64 + (-1) * len)%Z by lia. apply Z.mod_add. lia.
Qed.

Lemma accepted_count : (2 ^ 64 - rejection_minimum len = 2 ^ 64 / len * len)%Z.
Proof. rewrite rejection_minimum_spec. pose proof (Z.div_mod (2 ^ 64) len). lia. Qed.

Definition hits (r m n : Z) : nat := length (filter (λ v, v mod len = r)%Z (seqZ m n)).

Lemma hits_window r m : (0 ≤ r < len)%Z → hits r m len = 1.
Proof.
  intros Hr. unfold hits.
  set (v0 := (m + (r - m) mod len)%Z).
  pose proof (Z.mod_pos_bound (r - m) len ltac:(lia)) as Hb.
  assert (Hv0 : (v0 mod len = r)%Z).
  { unfold v0. rewrite Zplus_mod_idemp_r. replace (m + (r - m))%Z with r by lia. apply Z.mod_small. lia. }
  rewrite (NoDup_Permutation _ [v0]); [done| |apply NoDup_singleton|].
  - apply NoDup_filter, NoDup_seqZ.
  - intros v. rewrite list_elem_of_filter, elem_of_seqZ, list_elem_of_singleton. split.
    + intros [Hv Hm]. unfold v0 in *. rewrite <- Hv at 1.
      assert ((v mod len - m) mod len = v - m)%Z as ->; [|lia].
      rewrite Zminus_mod_idemp_l. apply Z.mod_small. lia.
    + intros ->. split; [done|]. unfold v0. lia.
Qed.

Lemma hits_windows r m k : (0 ≤ r < len)%Z → hits r m (Z.of_nat k * len) = k.
Proof.
  intros Hr. revert m. induction k as [|k IH]; intros m; [done|].
  replace (Z.of_nat (S k) * len)%Z with (len + Z.of_nat k * len)%Z by lia.
  unfold hits. rewrite seqZ_app, filter_app, length_app by lia.
  fold (hits r m len). fold (hits r (m + len) (Z.of_nat k * len)). rewrite hits_window, IH by done. lia.
Qed.
End Uniform.

Section RandomIndex.
Context `{Sha256}.

Lemma from_le_bytes_bounds bytes :
  Forall (λ b, 0 ≤ b < 256)%Z bytes → (0 ≤ from_le_bytes bytes < 256 ^ Z.of_nat (length bytes))%Z.
Proof.
  induction 1 as [|b bytes Hb _ IH]; [done|]. simpl length. rewrite Nat2Z.inj_succ, Z.pow_succ_r by lia.
  simpl. lia.
Qed.

Lemma score_bounds rnd domain values : (0 ≤ score rnd domain values < 2 ^ 64)%Z.
Proof.
  unfold score. set (h := sha256 _).
  pose proof (from_le_bytes_bounds (take 8 h)) as Hb. rewrite length_take in Hb.
  assert (length h = 32) as Hl by apply sha256_length. rewrite Hl in Hb.
  apply Hb, Forall_take, sha256_bytes.
Qed.

(** The value drawn by the retry [i]. *)
Definition draw (rnd : SamplingRandomness) (domain : list Z) (salt ordinal : Z) (i : nat) : Z :=
  score rnd domain [salt; ordinal; Z.of_nat i].

Lemma index_u64_loop_spec retries rnd domain salt ordinal len minimum k i :
  (Z.of_nat (k + retries) ≤ 2 ^ 64)%Z →
  index_u64_loop retries rnd domain salt ordinal len minimum (Z.of_nat k) = Some i ↔
  ∃ n, n < retries ∧ (∀ j, j < n → (draw rnd domain salt ordinal (k + j) < minimum)%Z) ∧
       (minimum ≤ draw rnd domain salt ordinal (k + n))%Z ∧
       i = (draw rnd domain salt ordinal (k + n) mod len)%Z.
Proof.
  revert k. induction retries as [|retries IH]; intros k Hk; simpl.
  { split; [done|]. intros (n & Hn & _). lia. }
  fold (draw rnd domain salt ordinal k). case_decide as Hm.
  - split.
    + intros [= <-]. exists 0. rewrite Nat.add_0_r. split_and!; [lia|lia|done|done].
    + intros (n & _ & Hlt & Hacc & ->). destruct n as [|n]; [by rewrite Nat.add_0_r|].
      exfalso. specialize (Hlt 0 ltac:(lia)). rewrite Nat.add_0_r in Hlt. lia.
  - destruct retries as [|retries'].
    { simpl. split; [done|]. intros (n & Hn & _ & Hacc & _).
      assert (n = 0) as -> by lia. rewrite Nat.add_0_r in Hacc. lia. }
    replace (wrapping_add64 (Z.of_nat k) 1) with (Z.of_nat (S k))
      by (unfold wrapping_add64; rewrite Z.mod_small; lia).
    rewrite IH by lia. split.
    + intros (n & Hn & Hlt & Hacc & ->). exists (S n). rewrite <- Nat.add_succ_comm.
      split_and!; [lia| |done|done]. intros [|j] Hj; [rewrite Nat.add_0_r; lia|].
      rewrite <- Nat.add_succ_comm. apply Hlt. lia.
    + intros (n & Hn & Hlt & Hacc & ->).
      destruct n as [|n]; [rewrite Nat.add_0_r in Hacc; lia|].
      exists n. rewrite Nat.add_succ_comm. split_and!; [lia| |done|done].
      intros j Hj. rewrite Nat.add_succ_comm. apply Hlt. lia.
Qed.

Lemma index_u64_spec retries rnd domain salt ordinal len i :
  (0 < len)%Z → (Z.of_nat retries ≤ 2 ^ 64)%Z →
  index_u64 retries rnd domain salt ordinal len = Some i ↔
  ∃ n, n < retries ∧
    (∀ j, j < n → (draw rnd domain salt ordinal j < rejection_minimum len)%Z) ∧
    (rejection_minimum len ≤ draw rnd domain salt ordinal n)%Z ∧
    i = (draw rnd domain salt ordinal n mod len)%Z.
Proof.
  intros Hlen Hret. unfold index_u64. rewrite decide_False by lia.
  by rewrite (index_u64_loop_spec retries rnd domain salt ordinal len _ 0) by lia.
Qed.

(** [index_u64] returns the first draw that is not below the rejection
    minimum, reduced modulo the length, and this is unbiased: every index below
    the length is hit by exactly [2^64 / len] of the accepted 64-bit draws. *)
Theorem index_u64_unbiased retries rnd domain salt ordinal len :
  (0 < len ≤ 2 ^ 64)%Z → (Z.of_nat retries ≤ 2 ^ 64)%Z →
  (∀ i, index_u64 retries rnd domain salt ordinal len = Some i ↔
    ∃ n, n < retries ∧
      (∀ j, j < n → (draw rnd domain salt ordinal j < rejection_minimum len)%Z) ∧
      (rejection_minimum len ≤ draw rnd domain salt ordinal n)%Z ∧
      i = (draw rnd domain salt ordinal n mod len)%Z) ∧
  ∀ r, (0 ≤ r < len)%Z →
    Z.of_nat (length (filter (λ v, v mod len = r)%Z
                (seqZ (rejection_minimum len) (2 ^ 64 - rejection_minimum len)))) = (2 ^ 64 / len)%Z.
Proof.
  intros Hlen Hret. split; [intros i; by apply index_u64_spec; lia|].
  intros r Hr. rewrite accepted_count by done.
  pose proof (Z.div_pos (2 ^ 64) len ltac:(lia) ltac:(lia)) as Hq.
  rewrite <- (Z2Nat.id (2 ^ 64 / len)) at 1 by done.
  fold (hits len r (rejection_minimum len) (Z.of_nat (Z.to_nat (2 ^ 64 / len)) * len)).
  rewrite hits_windows by done. by apply Z2Nat.id.
Qed.
End RandomIndex.

Lemma ordered_pairs_members {A} (l : list A) x y : (x, y) ∈ ordered_pairs l → x ∈ l ∧ y ∈ l.
Proof.
  induction l as [|z l IH]; simpl; [by intros ?%elem_of_nil|].
  intros [Hin|Hin]%elem_of_app; [|set_solver].
  apply list_elem_of_fmap in Hin as (w & [= <- <-] & Hw). set_solver.
Qed.

Lemma elem_of_ordered_pairs_seq i j m n :
  (i, j) ∈ ordered_pairs (seq m n) ↔ m ≤ i ∧ i < j ∧ j < m + n.
Proof.
  revert m. induction n as [|n IH]; intros m; simpl.
  - split; [by intros ?%elem_of_nil|lia].
  - rewrite elem_of_app, IH, list_elem_of_fmap. split.
    + intros [(w & [= <- <-] & Hw%elem_of_seq)|]; lia.
    + intros Hij. destruct (decide (i = m)) as [->|]; [left|right; lia].
      exists j. split; [done|]. apply elem_of_seq. lia.
Qed.

Lemma new_pair_comm l r : new_pair l r = new_pair r l.
Proof. unfold new_pair. repeat case_decide; try done; lia. Qed.

(** ** Implicit groups *)

Section Groups.
Context `{Sha256} (plan : PairSamplingPlan).

(** A group by chain, of non-empty lists of elements of [R]. *)
Definition groups_of (R : ContractId → Prop) (n : nat) (groups : gmap ChainId (list ContractId))
    : Prop :=
  ∀ c ms, groups !! c = Some ms → ms ≠ [] ∧ length ms ≤ n ∧ ∀ m, m ∈ ms → R m.

Lemma group_fold_ok (R : ContractId → Prop) (at_ : nat → ContractId) (l : list nat) n groups :
  (∀ i, i ∈ l → R (at_ i) ∧ at_ i < length (plan_contract_chains plan)) → groups_of R n groups →
  ∃ groups',
    foldl (λ acc member,
       groups ← acc;
       let contract := at_ member in
       c ← plan_contract_chains plan !! contract;
       Some (<[c := default [] (groups !! c) ++ [contract]]> groups)) (Some groups) l
    = Some groups' ∧ groups_of R (n + length l) groups'.
Proof.
  revert n groups. induction l as [|i l IH]; intros n groups Hlt Hg.
  { exists groups. split; [done|]. simpl. by rewrite Nat.add_0_r. }
  cbn [foldl length]. destruct (Hlt i ltac:(set_solver)) as [Hi Hr].
  destruct (lookup_lt_is_Some_2 _ _ Hr) as [c Hc]. cbn [mbind option_bind]. rewrite Hc.
  cbn [mbind option_bind]. rewrite <- Nat.add_succ_comm. apply IH; [intros; apply Hlt; set_solver|].
  intros k ms. rewrite lookup_insert. case_decide as Hk.
  - intros [= <-]. subst k. split_and!; [by destruct (default _ _)| |].
    + rewrite length_app. simpl. destruct (groups !! c) as [ms|] eqn:E; simpl; [|lia].
      destruct (Hg c ms E) as (_ & Hl & _). lia.
    + intros m [Hm| ->%list_elem_of_singleton]%elem_of_app; [|done].
      destruct (groups !! c) as [ms|] eqn:E; simpl in Hm; [|by apply elem_of_nil in Hm].
      by destruct (Hg c ms E) as (_ & _ & Hall); apply Hall.
  - intros Hms. destruct (Hg k ms Hms) as (? & ? & ?). split_and!; [done|lia|done].
Qed.

Lemma group_members_ok (R : ContractId → Prop) s P len at_ :
  sampled plan s P → (∀ i, i < len → R (at_ i) ∧ at_ i < length (plan_contract_chains plan)) →
  ∃ groups, group_members s len at_ = Some groups ∧ groups_of R len groups.
Proof.
  intros [Hcfg _] Hat. unfold group_members.
  assert (contract_chains s = plan_contract_chains plan) as -> by (by rewrite <- Hcfg).
  destruct (group_fold_ok R at_ (seq 0 len) 0 ∅) as (groups & E & Hg).
  - intros i Hi%elem_of_seq. apply Hat. lia.
  - by intros c ms Hc.
  - rewrite length_seq in Hg. eauto.
Qed.

(** All the pairs of an implicit product. *)
Definition product_pairs (left_len right_len : nat) (left_at right_at : nat → ContractId)
    : gset ContractPair :=
  pairs_of (map (λ '(l, r), (left_at l, right_at r)) (all_products left_len right_len)).

Lemma elem_of_all_products l r n m : (l, r) ∈ all_products n m ↔ l < n ∧ r < m.
Proof.
  unfold all_products. rewrite list_elem_of_bind. split.
  - intros (l' & Hin & Hl%elem_of_seq). apply list_elem_of_bind in Hin as (r' & Hin & Hr%elem_of_seq).
    apply list_elem_of_singleton in Hin. simplify_eq. lia.
  - intros [Hl Hr]. exists l. split; [|apply elem_of_seq; lia]. apply list_elem_of_bind.
    exists r. split; [by apply list_elem_of_singleton|apply elem_of_seq; lia].
Qed.
End Groups.

(** ** Implicit products and cliques *)

Section Extends.
Context `{Sha256} (plan : PairSamplingPlan).
Implicit Types (D : ContractPair → Prop) (g : PairSampler → option PairSampler).

(** [g] succeeds and observes some set of pairs that satisfy [D]. *)
Definition extends D g : Prop :=
  ∀ s P, sampled plan s P →
  ∃ s' N, g s = Some s' ∧ sampled plan s' (N ∪ P) ∧ set_Forall D N.

Lemma extends_id D : extends D Some.
Proof.
  intros s P Hs. exists s, ∅. rewrite union_empty_l_L. split_and!; [done..|]. apply set_Forall_empty.
Qed.

Lemma extends_bind D g g' : extends D g → extends D g' → extends D (λ s, s' ← g s; g' s').
Proof.
  intros Hg Hg' s P Hs. destruct (Hg s P Hs) as (s1 & N1 & -> & Hs1 & HN1). simpl.
  destruct (Hg' s1 _ Hs1) as (s2 & N2 & -> & Hs2 & HN2). exists s2, (N2 ∪ N1).
  rewrite <- union_assoc_L. split_and!; [done..|]. by apply set_Forall_union.
Qed.

Lemma extends_for_each {A} D (f : PairSampler → A → option PairSampler) xs :
  (∀ x, x ∈ xs → extends D (λ s, f s x)) → extends D (for_each f xs).
Proof.
  induction xs as [|x xs IH]; intros Hf; [apply extends_id|].
  apply extends_bind; [apply Hf; set_solver | apply IH; set_solver].
Qed.

(** The two element ranges, and the pairs they span. *)
Definition spans (ls rs : ContractId → Prop) (p : ContractPair) : Prop :=
  ∃ l r, ls l ∧ rs r ∧ new_pair l r = Some p.

Context (enabled_plan : plan_capacity plan ≠ 0).
Context (ls rs : ContractId → Prop).
Context (ls_range : ∀ c, ls c → c < length (plan_contract_chains plan)).
Context (rs_range : ∀ c, rs c → c < length (plan_contract_chains plan)).

Lemma extends_observe l r : ls l → rs r → extends (spans ls rs) (λ s, observe_pair s (l, r)).
Proof using All.
  intros Hl Hr s P Hs.
  destruct (observe_sampled plan enabled_plan s P l r Hs) as (s' & ch & E & Hs'); [by split; auto|].
  exists s', (pairs_of [(l, r)]). unfold observe_pair. cbn [fst snd]. rewrite E. split_and!; [done..|].
  rewrite pairs_of_one. destruct (new_pair l r) as [p|] eqn:Ep; [|apply set_Forall_empty].
  apply set_Forall_singleton. by exists l, r.
Qed.

Context (retries : nat) (Hret : (Z.of_nat retries ≤ 2 ^ 64)%Z).
(** Within the [retries] draws of one index, one is accepted. *)
Context (accepts : ∀ salt ordinal len, (0 < len ≤ 2 ^ 64)%Z → ∃ n, n < retries ∧
  (rejection_minimum len ≤
     draw (plan_randomness plan) (label "contract-pair-probe") salt ordinal n)%Z).

Lemma random_index_total s P salt ordinal len :
  sampled plan s P → 0 < len → (Z.of_nat len ≤ 2 ^ 64)%Z →
  ∃ i, random_index retries s salt ordinal len = Some i ∧ i < len.
Proof using Hret accepts.
  clear enabled_plan. intros [Hcfg _] H0 Hlen. unfold random_index, index.
  assert (randomness s = plan_randomness plan) as -> by (by rewrite <- Hcfg).
  destruct (accepts salt ordinal (Z.of_nat len)) as (n & Hn & Hacc); [lia|].
  set (ok := λ n, (rejection_minimum (Z.of_nat len) ≤
     draw (plan_randomness plan) (label "contract-pair-probe") salt ordinal n)%Z).
  assert (Hmin : ∃ n, n < retries ∧ ok n ∧ ∀ j, j < n → ¬ ok j).
  { clear -Hn Hacc. revert Hn Hacc. induction n as [n IH] using lt_wf_ind. intros Hn Hacc.
    destruct (decide (Exists ok (seq 0 n))) as [Hex|Hno].
    - apply Exists_exists in Hex as (j & Hj%elem_of_seq & Hok). apply (IH j); [lia|lia|done].
    - exists n. split_and!; [done..|]. intros j Hj Hok. apply Hno, Exists_exists. exists j.
      split; [apply elem_of_seq; lia|done]. }
  destruct Hmin as (k & Hk & Hok & Hlt).
  set (v := (draw (plan_randomness plan) (label "contract-pair-probe") salt ordinal k
             mod Z.of_nat len)%Z).
  assert (index_u64 retries (plan_randomness plan) (label "contract-pair-probe") salt ordinal
            (Z.of_nat len) = Some v) as ->.
  { apply index_u64_spec; [lia|done|]. exists k. split_and!; [done| |done|done].
    intros j Hj. specialize (Hlt j Hj). unfold ok in Hlt. lia. }
  exists (Z.to_nat v). split; [done|].
  pose proof (Z.mod_pos_bound (draw (plan_randomness plan) (label "contract-pair-probe")
    salt ordinal k) (Z.of_nat len)). lia.
Qed.

Lemma extends_probe_product left_len right_len left_at right_at salt attempt :
  0 < left_len → 0 < right_len → (Z.of_nat left_len ≤ 2 ^ 64)%Z → (Z.of_nat right_len ≤ 2 ^ 64)%Z →
  (∀ i, i < left_len → ls (left_at i)) → (∀ i, i < right_len → rs (right_at i)) →
  extends (spans ls rs) (λ s, probe_product_at retries left_len right_len left_at right_at salt s attempt).
Proof using All.
  intros. intros s P Hs. unfold probe_product_at.
  destruct (random_index_total s P salt (Z.of_nat attempt * 2) left_len) as (i & -> & Hi); [done..|].
  destruct (random_index_total s P salt (Z.of_nat attempt * 2 + 1) right_len) as (j & -> & Hj);
    [done..|]. simpl. apply extends_observe; auto.
Qed.

Lemma extends_probe_cross lefts rights salt remaining :
  lefts ≠ [] → rights ≠ [] →
  (Z.of_nat (length lefts) ≤ 2 ^ 64)%Z → (Z.of_nat (length rights) ≤ 2 ^ 64)%Z →
  (∀ l, l ∈ lefts → ls l) → (∀ r, r ∈ rights → rs r) →
  extends (spans ls rs) (λ s, probe_cross retries s lefts rights salt remaining).
Proof using All.
  intros Hl0 Hr0 Hl64 Hr64 Hl Hr. unfold probe_cross. case_decide.
  - apply extends_for_each. intros [l r] Hin.
    apply list_elem_of_bind in Hin as (l' & Hin & Hl').
    apply list_elem_of_bind in Hin as (r' & Hin & Hr').
    apply list_elem_of_singleton in Hin. simplify_eq. apply extends_observe; auto.
  - apply extends_for_each. intros attempt _. apply extends_probe_product; [| |done..| |].
    + destruct lefts; [done|simpl; lia].
    + destruct rights; [done|simpl; lia].
    + intros i Hi. apply Hl. apply list_elem_of_In, nth_In. done.
    + intros i Hi. apply Hr. apply list_elem_of_In, nth_In. done.
Qed.

Lemma extends_top_up_cross left_len right_len lefts rights salt :
  (Z.of_nat left_len ≤ 2 ^ 64)%Z → (Z.of_nat right_len ≤ 2 ^ 64)%Z →
  groups_of ls left_len lefts → groups_of rs right_len rights →
  extends (spans ls rs) (λ s, top_up_cross_scopes retries s lefts rights salt).
Proof using All.
  intros Hl64 Hr64 Hls Hrs.
  assert (Hcross : ∀ l r ms ns salt remaining, lefts !! l = Some ms → rights !! r = Some ns →
    extends (spans ls rs) (λ s, probe_cross retries s ms ns salt remaining)).
  { intros l r ms ns salt' remaining Hms Hns. destruct (Hls l ms Hms) as (? & ? & ?).
    destruct (Hrs r ns Hns) as (? & ? & ?). apply extends_probe_cross; auto; lia. }
  apply (extends_bind _ (for_each _ (map_to_list lefts))); apply extends_for_each.
  - intros [c ms] Hms%elem_of_map_to_list. destruct (rights !! c) as [ns|] eqn:Hns; [|apply extends_id].
    intros s P Hs. cbn zeta. case_decide; [by eapply Hcross|by apply extends_id].
  - intros [[l ms] [r ns]] Hin.
    apply list_elem_of_bind in Hin as ([l' ms'] & Hin & Hl%elem_of_map_to_list).
    apply list_elem_of_bind in Hin as ([r' ns'] & Hin & Hr%elem_of_map_to_list).
    apply list_elem_of_singleton in Hin. simplify_eq. case_decide; [apply extends_id|].
    intros s P Hs. cbn zeta. case_decide; [by eapply Hcross|by apply extends_id].
Qed.


Lemma extends_probe_clique_at len at_ salt attempt :
  2 ≤ len → (Z.of_nat len ≤ 2 ^ 64)%Z → (∀ i, i < len → ls (at_ i) ∧ rs (at_ i)) →
  extends (spans ls rs) (λ s, probe_clique_at retries len at_ salt s attempt).
Proof using All.
  intros H2 H64 Hat s P Hs. unfold probe_clique_at.
  destruct (random_index_total s P salt (Z.of_nat attempt * 2) len) as (i & -> & Hi); [done|lia|done|].
  destruct (random_index_total s P salt (Z.of_nat attempt * 2 + 1) (len - 1)) as (j & -> & Hj);
    [done|lia|lia|]. cbn [mbind option_bind]. cbv zeta.
  apply extends_observe; [by apply Hat|apply Hat; case_decide; lia|done].
Qed.

Lemma extends_probe_clique members salt remaining :
  2 ≤ length members → (Z.of_nat (length members) ≤ 2 ^ 64)%Z →
  (∀ m, m ∈ members → ls m ∧ rs m) →
  extends (spans ls rs) (λ s, probe_clique retries s members salt remaining).
Proof using All.
  intros H2 H64 Hm. unfold probe_clique. cbv zeta. case_decide.
  - apply extends_for_each. intros [l r] [Hl Hr]%ordered_pairs_members.
    apply extends_observe; by apply Hm.
  - apply extends_for_each. intros attempt _. apply extends_probe_clique_at; [done..|].
    intros i Hi. apply Hm, list_elem_of_In, nth_In. done.
Qed.

Lemma extends_top_up_clique len groups salt :
  (Z.of_nat len ≤ 2 ^ 64)%Z → groups_of (λ c, ls c ∧ rs c) len groups →
  extends (spans ls rs) (λ s, top_up_clique_scopes retries s groups salt).
Proof using All.
  intros H64 Hg. apply (extends_bind _ (for_each _ (map_to_list groups))); apply extends_for_each.
  - intros [c ms] Hms%elem_of_map_to_list. destruct (Hg c ms Hms) as (Hne & Hl & Hall).
    intros s P Hs. cbn zeta. case_decide as Hd; [|by apply extends_id].
    apply extends_probe_clique; [apply Hd | lia | done | done].
  - intros [[l ms] [r ns]] [Hl%elem_of_map_to_list Hr%elem_of_map_to_list]%ordered_pairs_members.
    destruct (Hg l ms Hl) as (? & ? & Hms), (Hg r ns Hr) as (? & ? & Hns).
    intros s P Hs. cbn zeta. case_decide; [|by apply extends_id].
    apply extends_probe_cross; [done..|lia|lia| | |done]; intros x Hx; [by apply Hms|by apply Hns].
Qed.
End Extends.

Lemma foldl_max_ge {A} (g : nat → A → nat) xs n :
  (∀ n x, n ≤ g n x) → n ≤ foldl g n xs.
Proof.
  intros Hg. revert n. induction xs as [|x xs IH]; intros n; simpl; [done|].
  transitivity (g n x); auto.
Qed.

Lemma cross_group_remaining_ge s lefts rights :
  capacity s - length (heap (all_chains s)) ≤ cross_group_remaining s lefts rights.
Proof.
  unfold cross_group_remaining. etransitivity; [|apply foldl_max_ge].
  - apply foldl_max_ge. intros n c. destruct (rights !! c); lia.
  - intros n l. apply foldl_max_ge. intros m r. case_decide; lia.
Qed.

Lemma clique_group_remaining_ge s len groups :
  capacity s - length (heap (all_chains s)) ≤ clique_group_remaining s len groups.
Proof.
  unfold clique_group_remaining. etransitivity; [|apply foldl_max_ge].
  - apply foldl_max_ge. intros n [c ms]. repeat case_decide; lia.
  - intros n [l r]. lia.
Qed.

Section ImplicitGroups.
Context `{Sha256} (plan : PairSamplingPlan) (enabled_plan : plan_capacity plan ≠ 0).
Context (retries : nat) (Hret : (Z.of_nat retries ≤ 2 ^ 64)%Z).
Context (accepts : ∀ salt ordinal len, (0 < len ≤ 2 ^ 64)%Z → ∃ n, n < retries ∧
  (rejection_minimum len ≤
     draw (plan_randomness plan) (label "contract-pair-probe") salt ordinal n)%Z).

(** The contracts at the first [n] positions are known to the plan. *)
Definition positions_ok (n : nat) (at_ : nat → ContractId) : Prop :=
  (Z.of_nat n ≤ 2 ^ 64)%Z ∧ ∀ i, i < n → at_ i < length (plan_contract_chains plan).

Definition elements_at (n : nat) (at_ : nat → ContractId) (c : ContractId) : Prop :=
  ∃ i, i < n ∧ c = at_ i.

Lemma elements_at_range n at_ c :
  positions_ok n at_ → elements_at n at_ c → c < length (plan_contract_chains plan).
Proof. intros [_ Hat] (i & Hi & ->). by apply Hat. Qed.

Lemma positions_members n at_ i :
  positions_ok n at_ → i < n → elements_at n at_ (at_ i) ∧ at_ i < length (plan_contract_chains plan).
Proof. intros [_ Hat] Hi. split; [by exists i|by apply Hat]. Qed.

Lemma sampled_enabled s P : sampled plan s P → enabled s = true.
Proof.
  intros [Hcfg _]. unfold enabled.
  assert (capacity s = plan_capacity plan) as -> by (by rewrite <- Hcfg).
  by rewrite bool_decide_eq_false_2.
Qed.

Lemma elem_of_pairs_of ps p : p ∈ pairs_of ps ↔ ∃ l r, (l, r) ∈ ps ∧ new_pair l r = Some p.
Proof.
  unfold pairs_of. rewrite elem_of_list_to_set, list_elem_of_omap. split.
  - intros ([l r] & Hin & Hp). eauto.
  - intros (l & r & Hin & Hp). by exists (l, r).
Qed.

Lemma spans_product n m la ra p :
  spans (elements_at n la) (elements_at m ra) p → p ∈ product_pairs n m la ra.
Proof.
  intros (l & r & (i & Hi & ->) & (j & Hj & ->) & Hp). apply elem_of_pairs_of.
  exists (la i), (ra j). split; [|done]. apply list_elem_of_fmap. exists (i, j). split; [done|].
  by apply elem_of_all_products.
Qed.

Lemma saturating_mul_le a b c : (a * b ≤ c)%N → (saturating_mul a b ≤ N.min c (2 ^ 64 - 1))%N.
Proof. unfold saturating_mul. lia. Qed.

(** A group that fits into the multiple of the room is exhausted. *)
Lemma exhaustive_room pair_count room remaining :
  room ≤ remaining → (0 < pair_count)%N → (pair_count ≤ N.min (8 * N.of_nat room) (2 ^ 64 - 1))%N →
  exhaustive pair_count remaining = true.
Proof.
  intros Hr H0 Hp. unfold exhaustive, saturating_mul, IMPLICIT_EXHAUSTIVE_SAMPLE_MULTIPLIER.
  rewrite andb_true_iff, negb_true_iff, bool_decide_eq_false, bool_decide_eq_true. lia.
Qed.

Lemma products_in_range n m la ra :
  positions_ok n la → positions_ok m ra →
  Forall (in_range plan) (map (λ '(l, r), (la l, ra r)) (all_products n m)).
Proof.
  intros [_ Hl] [_ Hr]. apply Forall_fmap, Forall_forall. intros [l r] Hin%elem_of_all_products.
  simpl. split; simpl; [apply Hl|apply Hr]; lia.
Qed.

(** Sampling an implicit product of two groups never fails, observes only
    pairs of the product, and observes all of them when the product has at
    most eight times as many pairs as the all-chains reservoir has room; the
    reservoirs then hold the smallest observed pairs of every scope. *)
Theorem observe_cross_by_samples s P left_len right_len left_at right_at group_salt :
  sampled plan s P → positions_ok left_len left_at → positions_ok right_len right_at →
  ∃ s' seen,
    observe_cross_by retries s left_len right_len left_at right_at group_salt = Some s' ∧
    sampled plan s' (seen ∪ P) ∧
    seen ⊆ product_pairs left_len right_len left_at right_at ∧
    ((N.of_nat left_len * N.of_nat right_len ≤
        8 * N.of_nat (capacity s - length (heap (all_chains s))))%N →
     seen = product_pairs left_len right_len left_at right_at).
Proof.
  intros Hs Hl Hr. unfold observe_cross_by. rewrite (sampled_enabled s P) by done. cbn [negb orb].
  assert (Hfull : ∃ s', for_each observe_pair
      (map (λ '(l, r), (left_at l, right_at r)) (all_products left_len right_len)) s = Some s' ∧
    sampled plan s' (product_pairs left_len right_len left_at right_at ∪ P))
    by (apply (observes_sampled plan enabled_plan); [done|by apply products_in_range]).
  destruct (bool_decide_reflect (left_len = 0)) as [->|Hl0]; cbn [orb].
  { exists s, ∅. rewrite union_empty_l_L. by split_and!. }
  destruct (bool_decide_reflect (right_len = 0)) as [->|Hr0]; cbn [orb].
  { destruct Hfull as (s' & E & Hs').
    assert (all_products left_len 0 = []) as Hnil.
    { apply elem_of_nil_inv. intros [l r]. rewrite elem_of_all_products. lia. }
    exists s, ∅. unfold product_pairs. rewrite Hnil, union_empty_l_L. by split_and!. }
  case_decide as Hone.
  { destruct Hone as [-> ->]. destruct Hfull as (s' & E & Hs'). exists s'. eexists.
    split; [|by split_and!]. revert E. simpl. by destruct (observe_pair s _). }
  destruct (group_members_ok plan (elements_at left_len left_at) s P left_len left_at Hs)
    as (lefts & -> & Hlefts); [intros; by apply positions_members|].
  destruct (group_members_ok plan (elements_at right_len right_at) s P right_len right_at Hs)
    as (rights & -> & Hrights); [intros; by apply positions_members|].
  cbn [mbind option_bind]. cbv zeta. destruct (exhaustive _ _) eqn:Hex.
  { destruct Hfull as (s' & -> & Hs'). exists s'. eexists. split; [done|]. by split_and!. }
  edestruct (extends_bind plan (spans (elements_at left_len left_at) (elements_at right_len right_at))
    (for_each (probe_product_at retries left_len right_len left_at right_at group_salt)
      (seq 0 (if decide (cross_group_remaining s lefts rights = 0) then 1
              else Nat.max (Nat.max (cross_group_remaining s lefts rights) 1 * 4) 8)))
    (λ s, top_up_cross_scopes retries s lefts rights group_salt)) as (s' & seen & E & Hs' & Hseen);
    [| |exact Hs|].
  - apply extends_for_each. intros attempt _. apply extends_probe_product; try done;
      [intros c Hc; by apply (elements_at_range left_len left_at)
      | intros c Hc; by apply (elements_at_range right_len right_at)
      | lia | lia | apply Hl | apply Hr | | ]; intros i Hi; by exists i.
  - apply extends_top_up_cross with left_len right_len; try done;
      [intros c Hc; by apply (elements_at_range left_len left_at)
      | intros c Hc; by apply (elements_at_range right_len right_at)
      | apply Hl | apply Hr].
  - exists s', seen. split_and!; [done|done| |].
    + intros p Hp. apply spans_product. by apply Hseen.
    + intros Hroom. exfalso. rewrite (exhaustive_room _ _ _ (cross_group_remaining_ge s lefts rights))
        in Hex; [done| |by apply saturating_mul_le]. unfold saturating_mul. lia.
Qed.

(** All the pairs of an implicit clique. *)
Definition clique_pairs (len : nat) (at_ : nat → ContractId) : gset ContractPair :=
  pairs_of (map (λ '(l, r), (at_ l, at_ r)) (ordered_pairs (seq 0 len))).

Lemma spans_clique n at_ p : spans (elements_at n at_) (elements_at n at_) p → p ∈ clique_pairs n at_.
Proof.
  intros (l & r & (i & Hi & ->) & (j & Hj & ->) & Hp). apply elem_of_pairs_of.
  destruct (Nat.lt_total i j) as [Hij|[->|Hij]].
  - exists (at_ i), (at_ j). split; [|done]. apply list_elem_of_fmap. exists (i, j).
    split; [done|]. apply elem_of_ordered_pairs_seq. lia.
  - unfold new_pair in Hp. by rewrite decide_True in Hp.
  - exists (at_ j), (at_ i). rewrite new_pair_comm. split; [|done]. apply list_elem_of_fmap.
    exists (j, i). split; [done|]. apply elem_of_ordered_pairs_seq. lia.
Qed.

Lemma clique_in_range n at_ :
  positions_ok n at_ → Forall (in_range plan) (map (λ '(l, r), (at_ l, at_ r)) (ordered_pairs (seq 0 n))).
Proof.
  intros [_ Hat]. apply Forall_fmap, Forall_forall. intros [l r] Hin%elem_of_ordered_pairs_seq.
  split; simpl; apply Hat; lia.
Qed.

(** Sampling an implicit clique never fails, observes only pairs of two
    members, and observes all of them when the clique has at most eight times as
    many pairs as the all-chains reservoir has room; the reservoirs then hold
    the smallest observed pairs of every scope. *)
Theorem observe_clique_by_samples s P len at_ group_salt :
  sampled plan s P → positions_ok len at_ →
  ∃ s' seen,
    observe_clique_by retries s len at_ group_salt = Some s' ∧
    sampled plan s' (seen ∪ P) ∧ seen ⊆ clique_pairs len at_ ∧
    ((N.of_nat len * N.of_nat (len - 1) / 2 ≤
        8 * N.of_nat (capacity s - length (heap (all_chains s))))%N →
     seen = clique_pairs len at_).
Proof.
  intros Hs Hat. unfold observe_clique_by. rewrite (sampled_enabled s P) by done. cbn [negb orb].
  destruct (bool_decide_reflect (len < 2)) as [Hlt|H2].
  { exists s, ∅. rewrite union_empty_l_L. split_and!; [done..|]. intros _.
    destruct len as [|[|len]]; [done|done|lia]. }
  destruct (group_members_ok plan (λ c, elements_at len at_ c ∧ elements_at len at_ c) s P len at_ Hs)
    as (groups & -> & Hg); [intros i Hi; destruct (positions_members len at_ i Hat Hi); auto|].
  cbn [mbind option_bind]. cbv zeta. destruct (exhaustive _ _) eqn:Hex.
  { destruct (observes_sampled plan enabled_plan s P _ Hs (clique_in_range len at_ Hat))
      as (s' & -> & Hs'). exists s'. eexists. split; [done|]. by split_and!. }
  edestruct (extends_bind plan (spans (elements_at len at_) (elements_at len at_))
    (for_each (probe_clique_at retries len at_ group_salt)
      (seq 0 (if decide (clique_group_remaining s len groups = 0) then 1
              else Nat.max (Nat.max (clique_group_remaining s len groups) 1 * 6) 12)))
    (λ s, top_up_clique_scopes retries s groups group_salt)) as (s' & seen & E & Hs' & Hseen);
    [| |exact Hs|].
  - apply extends_for_each. intros attempt _. apply extends_probe_clique_at; try done;
      [intros c Hc; by apply (elements_at_range len at_)
      | intros c Hc; by apply (elements_at_range len at_) | lia | apply Hat | ].
    intros i Hi. split; by exists i.
  - apply extends_top_up_clique with len; try done;
      [intros c Hc; by apply (elements_at_range len at_)
      | intros c Hc; by apply (elements_at_range len at_) | apply Hat].
  - exists s', seen. split_and!; [done|done| |].
    + intros p Hp. apply spans_clique. by apply Hseen.
    + intros Hroom. exfalso.
      rewrite (exhaustive_room _ _ _ (clique_group_remaining_ge s len groups)) in Hex; [done|..].
      * apply N.div_str_pos. unfold saturating_mul. nia.
      * apply N.min_glb; [etransitivity; [|exact Hroom]|]; unfold saturating_mul.
        -- apply N.Div0.div_le_mono. lia.
        -- etransitivity; [apply N.Div0.div_le_upper_bound with (q := (2 ^ 64 - 1)%N)|]; lia.
Qed.
End ImplicitGroups.

(** ** Instances *)

(** A hash whose digest repeats the byte sum of its input. *)
Definition sum_sha256 (bytes : list Z) : list Z :=
  replicate 32 (foldr Z.add 0 bytes mod 256)%Z.
Definition sum_sha : Sha256.
Proof.
  refine {| sha256 := sum_sha256 |}.
  - intros bytes. apply length_replicate.
  - intros bytes. apply Forall_replicate. by apply Z.mod_pos_bound.
Defined.

(** A hash of all ones, whose first draw is always accepted. *)
Definition ones_sha : Sha256.
Proof.
  refine {| sha256 := λ _, replicate 32 255%Z |}.
  - intros bytes. apply length_replicate.
  - intros bytes. by apply Forall_replicate.
Defined.

Lemma ones_sha_accepts rnd domain salt ordinal len :
  (0 < len ≤ 2 ^ 64)%Z → ∃ n, n < 1 ∧
  (rejection_minimum len ≤ draw (H := ones_sha) rnd domain salt ordinal n)%Z.
Proof.
  intros Hlen. exists 0. split; [lia|]. pose proof (rejection_minimum_bounds len Hlen).
  assert (draw (H := ones_sha) rnd domain salt ordinal 0 = 2 ^ 64 - 1)%Z as -> by done. lia.
Qed.

Definition sample_plan : PairSamplingPlan :=
  {| plan_capacity := 1; plan_randomness := DISABLED; plan_contract_chains := [0; 0; 1] |}.

Lemma index_u64_unbiased_witness :
  index_u64 (H := ones_sha) 1 DISABLED [] 0 0 10 = Some 5%Z.
Proof.
  apply (index_u64_unbiased (H := ones_sha) 1 DISABLED [] 0 0 10); [lia|lia|].
  exists 0. split; [lia|]. split; [intros j Hj; lia|]. split; [by vm_compute|reflexivity].
Defined.

Lemma sharded_sampling_deterministic_witness :
  ∃ s t, run_workers (H := sum_sha) sample_plan [[(0, 2)]; [(1, 0); (2, 1)]] = Some s ∧
         run_worker (H := sum_sha) sample_plan [(0, 1); (1, 2); (2, 0)] = Some t ∧
         sampled (H := sum_sha) sample_plan s (pairs_of [(0, 1); (1, 2); (2, 0)]) ∧
         same_samples s t.
Proof.
  apply (sharded_sampling_deterministic (H := sum_sha) sample_plan).
  - done.
  - repeat constructor; simpl; lia.
  - repeat constructor; simpl; lia.
  - by vm_compute.
Defined.

Lemma observe_cross_by_samples_witness :
  ∃ s' seen,
    observe_cross_by (H := ones_sha) 1 (sampler sample_plan) 2 1 id (λ _, 2) 7 = Some s' ∧
    sampled (H := ones_sha) sample_plan s' (seen ∪ ∅) ∧
    seen ⊆ product_pairs 2 1 id (λ _, 2) ∧
    ((N.of_nat 2 * N.of_nat 1 ≤ 8 * N.of_nat 1)%N → seen = product_pairs 2 1 id (λ _, 2)).
Proof.
  apply (observe_cross_by_samples (H := ones_sha) sample_plan ltac:(done) 1 ltac:(lia)
           (ones_sha_accepts _ _) (sampler sample_plan) ∅ 2 1 id (λ _, 2) 7).
  - by apply sampler_sampled.
  - split; [lia|]. intros i Hi. simpl. unfold id. lia.
  - split; [lia|]. intros i Hi. simpl. lia.
Defined.

Lemma observe_clique_by_samples_witness :
  ∃ s' seen,
    observe_clique_by (H := ones_sha) 1 (sampler sample_plan) 3 id 7 = Some s' ∧
    sampled (H := ones_sha) sample_plan s' (seen ∪ ∅) ∧ seen ⊆ clique_pairs 3 id ∧
    ((N.of_nat 3 * N.of_nat 2 / 2 ≤ 8 * N.of_nat 1)%N → seen = clique_pairs 3 id).
Proof.
  apply (observe_clique_by_samples (H := ones_sha) sample_plan ltac:(done) 1 ltac:(lia)
           (ones_sha_accepts _ _) (sampler sample_plan) ∅ 3 id 7).
  - by apply sampler_sampled.
  - split; [lia|]. intros i Hi. simpl. unfold id. lia.
Defined.
