(* ===== verification/UriChunks.v ===== *)
(** [process_group_chunks] of [dedup/crates/core/src/uri.rs]: the parallel walk
    over the maximal runs of postings that share a URI.

    The postings are cut into equal chunks, one task each; a task skips the
    run that its predecessor began and finishes the run that crosses its end.
    The workers of the tasks are merged by a rayon reduction, whose shape is an
    argument ([Reduction]).  Cancellation is an argument too ([TaskEnv]): the
    answers a task gets from its progress observer and the reads of the shared
    flag.  [None] is a panic of a callback. *)

From S2P Require Import Prelude Types.

Definition URI_PROGRESS_BATCH : nat := 64.
Definition URI_TASKS_PER_THREAD : nat := 8.

(** The length of the run of [uri] at the head of the slice; also
    [partition_point] for a slice on which [uri_id == uri] is partitioned. *)
Fixpoint run_length (uri : StringId) (postings : list UriPosting) : nat :=
  match postings with
  | p :: postings => if decide (uri_id p = uri) then S (run_length uri postings) else 0
  | [] => 0
  end.

Fixpoint group_boundaries (postings : list UriPosting) : nat :=
  match postings with
  | p :: ((q :: _) as rest) =>
      (if decide (uri_id p ≠ uri_id q) then 1 else 0) + group_boundaries rest
  | _ => 0
  end.

Definition group_count (postings : list UriPosting) : nat :=
  match postings with [] => 0 | _ => 1 + group_boundaries postings end.

(** What one task observes: is its [n]-th cancellation check an error, and has
    another task set the shared flag before its [n]-th read. *)
Record TaskEnv := {
  check_errs : nat → bool;
  others_cancelled : nat → bool;
}.

Definition task_chunk_size (threads len : nat) : nat :=
  let target_tasks :=
    Nat.max (N.to_nat (N.min (N.of_nat threads * N.of_nat URI_TASKS_PER_THREAD) (2 ^ 64 - 1))) 1 in
  Nat.max (div_ceil len target_tasks) 1.

(** How rayon reduces a sequence of results: a leaf folds from the identity. *)
Inductive Reduction :=
  | Fold
  | Split (at_ : nat) (l r : Reduction).

Section Chunks.
Context {W : Type}.
Context (new_worker : W) (process : W → list UriPosting → option W) (merge : W → W → option W).

Fixpoint fold_merge (w : W) (ws : list W) : option W :=
  match ws with
  | [] => Some w
  | x :: ws => w' ← merge w x; fold_merge w' ws
  end.

Fixpoint reduce (shape : Reduction) (ws : list W) : option W :=
  match shape with
  | Fold => fold_merge new_worker ws
  | Split n l r =>
      w1 ← reduce l (take n ws);
      w2 ← reduce r (drop n ws);
      merge w1 w2
  end.

(** The loop of a task; the result is the worker and whether this task set
    the flag. [fuel] bounds the number of groups. *)
Fixpoint task_loop (fuel : nat) (env : TaskEnv) (postings : list UriPosting) (chunk_end : nat)
    (start : nat) (worker : W) (pending checks reads : nat) (own : bool) : option (W * bool) :=
  match fuel with
  | 0 => None
  | S fuel =>
      if bool_decide (start < chunk_end) && negb (own || others_cancelled env reads) then
        first ← postings !! start;
        let end_ := start + 1 + run_length (uri_id first) (drop (start + 1) postings) in
        worker ← process worker (take (end_ - start) (drop start postings));
        let pending := pending + 1 in
        if decide (URI_PROGRESS_BATCH ≤ pending) then
          task_loop fuel env postings chunk_end end_ worker 0 (checks + 1) (reads + 1)
            (own || check_errs env checks)
        else task_loop fuel env postings chunk_end end_ worker pending checks (reads + 1) own
      else if decide (pending ≠ 0) then Some (worker, own || check_errs env checks)
      else Some (worker, own)
  end.

(** Where a task starts: after the run that the previous chunk owns. *)
Definition chunk_first (postings : list UriPosting) (chunk_start : nat) : option nat :=
  if decide (chunk_start = 0) then Some 0 else
  before ← postings !! (chunk_start - 1);
  at_ ← postings !! chunk_start;
  Some (if decide (uri_id before = uri_id at_)
        then chunk_start + run_length (uri_id at_) (drop chunk_start postings)
        else chunk_start).

Definition run_task (env : nat → TaskEnv) (postings : list UriPosting) (chunk_size task : nat)
    : option (W * bool) :=
  if check_errs (env task) 0 then Some (new_worker, true) else
  let chunk_start := task * chunk_size in
  let chunk_end := Nat.min (chunk_start + chunk_size) (length postings) in
  start ← chunk_first postings chunk_start;
  task_loop (S (length postings)) (env task) postings chunk_end start new_worker 0 1 0 false.

(** The second component is the shared flag after all tasks. *)
Definition process_group_chunks (threads : nat) (env : nat → TaskEnv) (shape : Reduction)
    (postings : list UriPosting) : option (W * bool) :=
  if decide (postings = []) then Some (new_worker, false) else
  let chunk_size := task_chunk_size threads (length postings) in
  let task_count := div_ceil (length postings) chunk_size in
  results ← mapM (run_task env postings chunk_size) (seq 0 task_count);
  w ← reduce shape results.*1;
  Some (w, existsb snd results).
End Chunks.

(** ** The groups *)

(** The maximal runs of postings with one URI; [fuel] is the length. *)
Fixpoint groups_fuel (fuel : nat) (postings : list UriPosting) : list (list UriPosting) :=
  match fuel, postings with
  | S fuel, p :: rest =>
      let n := S (run_length (uri_id p) rest) in
      take n postings :: groups_fuel fuel (drop n postings)
  | _, _ => []
  end.

Definition groups (postings : list UriPosting) : list (list UriPosting) :=
  groups_fuel (length postings) postings.

(** ** Runs and boundaries *)

Lemma run_length_le uri l : run_length uri l ≤ length l.
Proof. induction l as [|p l IH]; simpl; [lia|]. case_decide; lia. Qed.

Lemma run_length_lookup uri l i p :
  i < run_length uri l → l !! i = Some p → uri_id p = uri.
Proof.
  revert i. induction l as [|q l IH]; intros i; simpl; [lia|].
  case_decide as Hq; [|lia]. destruct i as [|i]; simpl; intros Hi Hp; [by simplify_eq|].
  apply (IH i); [lia|done].
Qed.

Lemma run_length_end uri l p : l !! run_length uri l = Some p → uri_id p ≠ uri.
Proof.
  induction l as [|q l IH]; simpl; [done|]. case_decide as Hq; simpl; [done|].
  by intros [= ->].
Qed.

Lemma groups_fuel_enough fuel l : length l ≤ fuel → groups_fuel fuel l = groups l.
Proof.
  unfold groups. revert l. cut (∀ f1 f2 l, length l ≤ f1 → length l ≤ f2 →
    groups_fuel f1 l = groups_fuel f2 l); [intros Hc l Hl; by apply Hc|].
  induction f1 as [|f1 IH]; intros f2 [|p l] H1 H2; simpl in *; try lia; [by destruct f2..|].
  destruct f2 as [|f2]; [simpl in *; lia|]. simpl. f_equal.
  apply IH; rewrite length_drop; lia.
Qed.

Lemma groups_cons p l :
  groups (p :: l) = take (S (run_length (uri_id p) l)) (p :: l) ::
                    groups (drop (run_length (uri_id p) l) l).
Proof.
  unfold groups at 1. simpl. f_equal. apply groups_fuel_enough. rewrite length_drop. lia.
Qed.

Lemma mjoin_groups l : mjoin (groups l) = l.
Proof.
  induction l as [l IH] using (induction_ltof1 _ length). destruct l as [|p l]; [done|].
  rewrite groups_cons. cbn [mjoin list_join]. rewrite IH; [|unfold ltof; rewrite length_drop; simpl; lia].
  simpl. by rewrite take_drop.
Qed.

Lemma groups_same_uri l g p q : g ∈ groups l → p ∈ g → q ∈ g → uri_id p = uri_id q.
Proof.
  induction l as [l IH] using (induction_ltof1 _ length). destruct l as [|x l]; [by intros ?%elem_of_nil|].
  rewrite groups_cons. intros [->|Hg]%elem_of_cons.
  - assert (Hx : ∀ y, y ∈ take (S (run_length (uri_id x) l)) (x :: l) → uri_id y = uri_id x).
    { intros y [i Hi]%list_elem_of_lookup. apply lookup_take_Some in Hi as [Hi Hlt].
      destruct i as [|i]; simpl in Hi; [by simplify_eq|].
      apply (run_length_lookup _ l i); [lia|done]. }
    intros Hp Hq. by rewrite (Hx p Hp), (Hx q Hq).
  - revert Hg. apply IH. unfold ltof. rewrite length_drop. simpl. lia.
Qed.

Section Boundaries.
Context (postings : list UriPosting).

(** An index where a run starts, or the end. *)
Definition boundary (i : nat) : Prop :=
  i = 0 ∨ i = length postings ∨
  ∃ p q, postings !! (i - 1) = Some p ∧ postings !! i = Some q ∧ uri_id p ≠ uri_id q.

Definition next_boundary (x b : nat) : Prop :=
  x ≤ b ≤ length postings ∧ boundary b ∧ ∀ i, x ≤ i < b → ¬ boundary i.

Lemma next_boundary_later x y b : next_boundary x b → x ≤ y ≤ b → next_boundary y b.
Proof. intros (? & ? & Hn) ?. split_and!; [lia|lia|done|]. intros i ?. apply Hn. lia. Qed.

Lemma next_boundary_unique x a b : next_boundary x a → next_boundary x b → a = b.
Proof.
  intros (? & Ha & Hna) (? & Hb & Hnb). destruct (Nat.lt_total a b) as [|[|]]; [|done|].
  - exfalso. apply (Hnb a); [lia|done].
  - exfalso. apply (Hna b); [lia|done].
Qed.

Lemma next_boundary_end b : next_boundary (length postings) b → b = length postings.
Proof. intros (? & _ & _). lia. Qed.

(** A run of equal URIs contains no boundary and ends at one. *)
Lemma run_next_boundary x p n :
  postings !! x = Some p → n = run_length (uri_id p) (drop (S x) postings) →
  next_boundary (S x) (S x + n).
Proof.
  intros Hx Hn. pose proof (lookup_lt_Some _ _ _ Hx) as Hlt.
  pose proof (run_length_le (uri_id p) (drop (S x) postings)) as Hle. rewrite length_drop in Hle.
  assert (Hsame : ∀ i q, x ≤ i < S x + n → postings !! i = Some q → uri_id q = uri_id p).
  { intros i q Hi Hq. destruct (decide (i = x)) as [->|]; [by simplify_eq|].
    apply (run_length_lookup _ (drop (S x) postings) (i - S x)); [lia|].
    rewrite lookup_drop. by replace (S x + (i - S x)) with i by lia. }
  split_and!; [lia|lia| |].
  - destruct (decide (S x + n = length postings)) as [->|Hne]; [by right; left|]. right; right.
    destruct (lookup_lt_is_Some_2 postings (x + n)) as [a Ha]; [lia|].
    destruct (lookup_lt_is_Some_2 postings (S x + n)) as [b Hb]; [lia|].
    exists a, b. replace (S x + n - 1) with (x + n) by lia. split_and!; [done..|].
    rewrite (Hsame (x + n) a) by (lia || done). apply not_eq_sym.
    apply (run_length_end _ (drop (S x) postings)). rewrite lookup_drop. by rewrite <- Hn.
  - intros i Hi [->|[->|(a & b & Ha & Hb & Hab)]]; [lia|lia|]. apply Hab.
    rewrite (Hsame (i - 1) a), (Hsame i b); (done || lia).
Qed.

Lemma chunk_first_spec x :
  x < length postings → ∃ b, chunk_first postings x = Some b ∧ next_boundary x b.
Proof.
  intros Hx. unfold chunk_first. case_decide as H0.
  { subst. exists 0. split; [done|]. split_and!; [lia|lia|by left|lia]. }
  destruct (lookup_lt_is_Some_2 postings (x - 1)) as [a Ha]; [lia|].
  destruct (lookup_lt_is_Some_2 postings x Hx) as [b Hb]. rewrite Ha, Hb. simpl.
  eexists. split; [done|]. case_decide as Hab.
  - rewrite (drop_S _ _ _ Hb). simpl. rewrite decide_True by done. rewrite Nat.add_succ_r.
    change (S (x + ?n)) with (S x + n). set (n := run_length _ _).
    pose proof (run_next_boundary x b n Hb eq_refl) as (Hle & Hbd & Hno).
    split_and!; [lia|lia|done|]. intros i Hi. destruct (decide (i = x)) as [->|].
    + intros [|[|(p & q & Hp & Hq & Hpq)]]; [lia|lia|]. simplify_eq.
    + apply Hno. lia.
  - split_and!; [lia|lia| |lia]. right; right. eauto.
Qed.

Lemma groups_drop x p :
  postings !! x = Some p →
  let n := run_length (uri_id p) (drop (S x) postings) in
  groups (drop x postings) = take (S n) (drop x postings) :: groups (drop (S x + n) postings).
Proof.
  intros Hx n. rewrite (drop_S _ _ _ Hx). rewrite groups_cons. f_equal.
  by rewrite drop_drop.
Qed.
End Boundaries.

Lemma task_chunk_size_pos threads len : 0 < task_chunk_size threads len.
Proof. unfold task_chunk_size. lia. Qed.

(** ** Every group is processed exactly once *)

Definition quiet : TaskEnv := {| check_errs := λ _, false; others_cancelled := λ _, false |}.

Section Coverage.
Context {W : Type} (new_worker : W) (process : W → list UriPosting → option W).
Context (merge : W → W → option W) (postings : list UriPosting).
(** [R w gs]: the worker [w] stands for the processed groups [gs]. *)
Context (R : W → list (list UriPosting) → Prop).
Context (R_new : R new_worker []).
Context (R_process : ∀ w gs g, R w gs → g ∈ groups postings →
  ∃ w', process w g = Some w' ∧ R w' (gs ++ [g])).
Context (R_merge : ∀ w1 w2 gs1 gs2, R w1 gs1 → R w2 gs2 →
  ∃ w, merge w1 w2 = Some w ∧ R w (gs1 ++ gs2)).
Abbreviation n := (length postings).

(** [x] starts the last groups. *)
Definition suffix_at (x : nat) : Prop :=
  ∃ pre, groups postings = pre ++ groups (drop x postings).

Lemma task_loop_ok fuel chunk_end s e w gs pending checks reads :
  n < fuel + s → chunk_end ≤ n → next_boundary postings chunk_end e →
  s ≤ e → (chunk_end ≤ s → s = e) → suffix_at s → R w gs →
  ∃ w' ms, task_loop process fuel quiet postings chunk_end s w pending checks reads false
           = Some (w', false) ∧
    groups (drop s postings) = ms ++ groups (drop e postings) ∧ R w' (gs ++ ms).
Proof using All.
  revert s w gs pending checks reads.
  induction fuel as [|fuel IH]; intros s w gs pending checks reads Hf Hce He Hse Hend Hsuf Hw;
    [destruct He; lia|].
  cbn [task_loop]. destruct (bool_decide_reflect (s < chunk_end)) as [Hlt|Hge].
  2: { exists w, []. rewrite app_nil_r, (Hend ltac:(lia)).
       cbn [andb]. case_decide; by split_and!. }
  cbn [andb negb orb quiet others_cancelled check_errs].
  destruct (lookup_lt_is_Some_2 postings s) as [p Hp]; [lia|]. rewrite Hp. cbn [mbind option_bind].
  replace (s + 1) with (S s) by lia. cbv zeta.
  set (len := run_length (uri_id p) (drop (S s) postings)).
  pose proof (groups_drop postings s p Hp) as Hg. cbv zeta in Hg. fold len in Hg.
  replace (S s + len - s) with (S len) by lia. set (g := take (S len) (drop s postings)) in *.
  destruct (R_process w gs g Hw) as (w1 & -> & Hw1); [destruct Hsuf as [pre ->]; rewrite Hg; set_solver|].
  pose proof (run_next_boundary postings s p len Hp eq_refl) as Hnb.
  assert (Hle : S s + len ≤ e).
  { destruct (decide (e < S s + len)); [|lia]. destruct He as (? & Hbe & _), Hnb as (_ & _ & Hno).
    exfalso. apply (Hno e); [lia|done]. }
  assert (Hend' : chunk_end ≤ S s + len → S s + len = e).
  { intros ?. apply (next_boundary_unique postings chunk_end); [|done].
    eapply next_boundary_later; [exact Hnb|lia]. }
  assert (Hsuf' : suffix_at (S s + len)).
  { destruct Hsuf as [pre Hpre]. rewrite Hg in Hpre. exists (pre ++ [g]). by rewrite <- app_assoc. }
  assert (Hnext : ∀ pending' checks', ∃ w' ms,
    task_loop process fuel quiet postings chunk_end (S s + len) w1 pending' checks' (reads + 1) false
      = Some (w', false) ∧
    groups (drop s postings) = ms ++ groups (drop e postings) ∧ R w' (gs ++ ms)).
  { intros pending' checks'.
    destruct (IH (S s + len) w1 (gs ++ [g]) pending' checks' (reads + 1))
      as (w' & ms & -> & Hgs & Hw'); [lia|done..|].
    exists w', (g :: ms). rewrite Hg, Hgs. split_and!; [done..|]. by rewrite <- app_assoc in Hw'. }
  cbn [mbind option_bind]. case_decide; apply Hnext.
Qed.

(** One task processes the groups between the boundaries of its chunk. *)
Lemma run_task_ok chunk_size task s e :
  0 < chunk_size → task * chunk_size < n → next_boundary postings (task * chunk_size) s →
  next_boundary postings (Nat.min (task * chunk_size + chunk_size) n) e → suffix_at s →
  ∃ w ms, run_task new_worker process (λ _, quiet) postings chunk_size task = Some (w, false) ∧
    groups (drop s postings) = ms ++ groups (drop e postings) ∧ R w ms.
Proof using All.
  intros Hcs Hlt Hs He Hsuf. unfold run_task. simpl check_errs. cbv zeta.
  destruct (chunk_first_spec postings _ Hlt) as (b & -> & Hb).
  rewrite <- (next_boundary_unique _ _ _ _ Hs Hb). cbn [mbind option_bind].
  assert (Hse : s ≤ e).
  { destruct (decide (e < s)); [|lia]. destruct He as (? & Hbe & _), Hs as (_ & _ & Hno).
    exfalso. apply (Hno e); [lia|done]. }
  destruct (task_loop_ok (S n) (Nat.min (task * chunk_size + chunk_size) n) s e new_worker [] 0 1 0)
    as (w & ms & -> & Hgs & Hw); [lia|lia|done|done| |done|done|by exists w, ms].
  intros Hge. apply (next_boundary_unique postings (Nat.min (task * chunk_size + chunk_size) n)); [|done].
  eapply next_boundary_later; [exact Hs|lia].
Qed.

Lemma next_boundary_exists x : x ≤ n → ∃ b, next_boundary postings x b.
Proof.
  intros Hx. destruct (decide (x = n)) as [->|].
  - exists n. split_and!; [lia|lia|by right; left|lia].
  - destruct (chunk_first_spec postings x) as (b & _ & Hb); [lia|]. by exists b.
Qed.

Lemma run_tasks_ok chunk_size count task s :
  0 < chunk_size → n ≤ (task + count) * chunk_size → (count ≠ 0 → (task + count - 1) * chunk_size < n) →
  next_boundary postings (Nat.min (task * chunk_size) n) s → suffix_at s →
  ∃ results mss,
    mapM (run_task new_worker process (λ _, quiet) postings chunk_size) (seq task count) = Some results ∧
    existsb snd results = false ∧ Forall2 R results.*1 mss ∧ groups (drop s postings) = mjoin mss.
Proof using All.
  intros Hcs. revert task s. induction count as [|count IH]; intros task s Hn Hlast Hs Hsuf.
  { exists [], []. split_and!; [done|done|constructor|].
    rewrite Nat.min_r in Hs by lia. apply next_boundary_end in Hs as ->. by rewrite drop_all. }
  specialize (Hlast ltac:(lia)).
  assert (Htask : task * chunk_size < n) by nia. rewrite Nat.min_l in Hs by lia.
  destruct (next_boundary_exists (Nat.min (task * chunk_size + chunk_size) n)) as [e He]; [lia|].
  destruct (run_task_ok chunk_size task s e Hcs Htask Hs He Hsuf) as (w & ms & E & Hms & Hw).
  destruct (IH (S task) e) as (results & mss & E' & Hall & HR & Hgs); [nia|nia| | |].
  - by replace (S task * chunk_size) with (task * chunk_size + chunk_size) by lia.
  - destruct Hsuf as [pre Hpre]. exists (pre ++ ms). by rewrite <- app_assoc, <- Hms.
  - exists ((w, false) :: results), (ms :: mss). cbn [seq mapM]. rewrite E. cbn [mbind option_bind].
    rewrite E'. split_and!; [done|done|by constructor|]. simpl. by rewrite Hms, Hgs.
Qed.

Lemma fold_merge_ok w gs ws mss :
  R w gs → Forall2 R ws mss → ∃ w', fold_merge merge w ws = Some w' ∧ R w' (gs ++ mjoin mss).
Proof using All.
  intros Hw Hws. revert w gs Hw. induction Hws as [|x ms ws mss Hx _ IH]; intros w gs Hw.
  - exists w. simpl. by rewrite app_nil_r.
  - destruct (R_merge w x gs ms Hw Hx) as (w1 & E & Hw1). destruct (IH w1 _ Hw1) as (w' & E' & Hw').
    exists w'. simpl. rewrite E. simpl. by rewrite app_assoc.
Qed.

Lemma reduce_ok shape ws mss :
  Forall2 R ws mss → ∃ w, reduce new_worker merge shape ws = Some w ∧ R w (mjoin mss).
Proof using All.
  revert ws mss. induction shape as [|i l IHl r IHr]; intros ws mss Hws.
  - by apply (fold_merge_ok new_worker []).
  - destruct (IHl (take i ws) (take i mss)) as (w1 & E1 & H1); [by apply Forall2_take|].
    destruct (IHr (drop i ws) (drop i mss)) as (w2 & E2 & H2); [by apply Forall2_drop|].
    destruct (R_merge w1 w2 _ _ H1 H2) as (w & E & Hw). exists w. simpl. rewrite E1. simpl.
    rewrite E2. simpl. split; [done|]. by rewrite <- join_app, take_drop in Hw.
Qed.

(** Without cancellation the walk stands for all the groups, in order. *)
Lemma process_group_chunks_ok threads shape :
  ∃ w, process_group_chunks new_worker process merge threads (λ _, quiet) shape postings
       = Some (w, false) ∧ R w (groups postings).
Proof using All.
  unfold process_group_chunks. case_decide as Hnil; [exists new_worker; by subst|].
  cbv zeta. set (cs := task_chunk_size threads n). assert (Hcs : 0 < cs) by apply task_chunk_size_pos.
  assert (H0 : n ≠ 0) by (by intros ?%nil_length_inv).
  destruct (div_ceil_spec n cs Hcs) as [Hge Hlt]. specialize (Hlt ltac:(lia)).
  destruct (run_tasks_ok cs (div_ceil n cs) 0 0) as (results & mss & -> & Hall & HR & Hgs);
    [done|done|done| |by exists []|].
  - rewrite Nat.mul_0_l, Nat.min_l by lia. split_and!; [lia|lia|by left|lia].
  - cbn [mbind option_bind]. destruct (reduce_ok shape _ _ HR) as (w & -> & Hw).
    exists w. cbn [mbind option_bind]. rewrite Hall. split; [done|]. by rewrite drop_0 in Hgs; rewrite Hgs.
Qed.
End Coverage.

(** ** Cancellation *)

Section Cancellation.
Context {W : Type} (new_worker : W) (process : W → list UriPosting → option W).
Context (merge : W → W → option W) (postings : list UriPosting).

(** A flag set once stays set and stops the task. *)
Lemma task_loop_own fuel env chunk_end s w pending checks reads w' b :
  task_loop process fuel env postings chunk_end s w pending checks reads true = Some (w', b) → b = true.
Proof.
  destruct fuel as [|fuel]; simpl; [done|]. rewrite andb_false_r. simpl.
  case_decide; by intros [= _ <-].
Qed.

Lemma task_loop_quiet fuel env chunk_end s w pending checks reads w' :
  (∀ r, others_cancelled env r = false) →
  task_loop process fuel env postings chunk_end s w pending checks reads false = Some (w', false) →
  task_loop process fuel quiet postings chunk_end s w pending checks reads false = Some (w', false).
Proof.
  intros Ho. revert s w pending checks reads.
  induction fuel as [|fuel IH]; intros s w pending checks reads; [done|].
  cbn [task_loop]. rewrite Ho. change (others_cancelled quiet reads) with false.
  destruct (bool_decide _ && _).
  - destruct (postings !! s) as [p|]; [|done]. cbn [mbind option_bind]. cbv zeta.
    destruct (process w _) as [w1|]; [|done]. cbn [mbind option_bind]. case_decide; [|apply IH].
    destruct (check_errs env checks); [|apply IH]. cbn [orb].
    by intros Htrue%task_loop_own.
  - case_decide; [|done]. by destruct (check_errs env checks).
Qed.

Lemma run_task_quiet env chunk_size task w :
  (∀ r, others_cancelled (env task) r = false) →
  run_task new_worker process env postings chunk_size task = Some (w, false) →
  run_task new_worker process (λ _, quiet) postings chunk_size task = Some (w, false).
Proof.
  intros Ho. unfold run_task. destruct (check_errs (env task) 0); [done|]. cbv zeta. simpl check_errs. cbv iota.
  destruct (chunk_first _ _) as [s|]; [|done]. cbn [mbind option_bind]. by apply task_loop_quiet.
Qed.

(** A task only sees the flag that another task of the run sets. *)
Definition consistent (threads : nat) (env : nat → TaskEnv) : Prop :=
  ∀ task r, others_cancelled (env task) r = true →
  ∃ task' w, task' * task_chunk_size threads (length postings) < length postings ∧
    run_task new_worker process env postings (task_chunk_size threads (length postings)) task'
    = Some (w, true).

Lemma process_group_chunks_quiet threads env shape w :
  consistent threads env →
  process_group_chunks new_worker process merge threads env shape postings = Some (w, false) →
  process_group_chunks new_worker process merge threads (λ _, quiet) shape postings = Some (w, false).
Proof.
  unfold consistent, process_group_chunks. case_decide as Hnil; [done|]. cbv zeta.
  set (cs := task_chunk_size threads (length postings)). intros Henv.
  assert (Hcs : 0 < cs) by apply task_chunk_size_pos.
  destruct (mapM _ _) as [results|] eqn:Hrun; [|done]. cbn [mbind option_bind].
  destruct (reduce _ _ _ results.*1) as [w0|] eqn:Hred; [|done]. cbn [mbind option_bind].
  intros [= -> Hall]. apply mapM_Some_1 in Hrun.
  assert (Hfalse : ∀ x, x ∈ results → x.2 = false).
  { intros x Hx. apply not_true_is_false. intros Htrue. apply not_true_iff_false in Hall.
    apply Hall. apply existsb_exists. exists x. split; [by apply list_elem_of_In|done]. }
  assert (Hothers : ∀ task r, others_cancelled (env task) r = false).
  { intros task r. apply not_true_is_false. intros Htrue.
    destruct (Henv task r Htrue) as (task' & w' & Hlt & Hrun').
    assert (Ht : task' < div_ceil (length postings) cs)
      by (destruct (div_ceil_spec (length postings) cs Hcs) as [Hge _]; nia).
    destruct (Forall2_lookup_l _ _ _ task' task' Hrun) as (y & Hy & Ey); [by apply lookup_seq|].
    rewrite Hrun' in Ey. injection Ey as <-.
    by specialize (Hfalse _ (list_elem_of_lookup_2 _ _ _ Hy)). }
  assert (mapM (run_task new_worker process (λ _, quiet) postings cs)
            (seq 0 (div_ceil (length postings) cs)) = Some results) as ->.
  { apply mapM_Some_2, Forall2_same_length_lookup. split; [by eapply Forall2_length|].
    intros i task [w1 b] Ht Hy. pose proof (Forall2_lookup_lr _ _ _ _ _ _ Hrun Ht Hy) as E.
    assert (b = false) as -> by (apply (Hfalse (w1, b)); by eapply list_elem_of_lookup_2).
    by apply (run_task_quiet env). }
  cbn [mbind option_bind]. rewrite Hred. cbn [mbind option_bind]. by rewrite Hall.
Qed.
End Cancellation.

Lemma group_count_groups postings : group_count postings = length (groups postings).
Proof.
  destruct postings as [|p l]; [done|]. unfold group_count. revert p.
  cut (∀ m p l, length l ≤ m → 1 + group_boundaries (p :: l) = length (groups (p :: l)));
    [intros Hc p; by apply (Hc (length l))|].
  clear. induction m as [|m IH]; intros p [|q l] Hl; simpl in Hl; try lia; [done..|].
  rewrite groups_cons. simpl run_length. cbn [group_boundaries length].
  case_decide as Hpq; case_decide as Hqp; try congruence.
  - simpl drop. rewrite <- IH by lia. cbn [group_boundaries length]. lia.
  - simpl drop. destruct m as [|m]; [destruct l; [done|simpl in Hl; lia]|].
    assert (E : groups (q :: l) = take (S (run_length (uri_id q) l)) (q :: l) ::
      groups (drop (run_length (uri_id q) l) l)) by apply groups_cons.
    rewrite Hqp in E. specialize (IH q l ltac:(lia)). rewrite E in IH. simpl in *. lia.
Qed.

(** Whatever the number of threads, the shape of the reduction and the
    answers of the progress observer, a walk that reports no cancellation has
    processed every maximal run of equal URIs exactly once and in order; without
    cancellation requests it always completes; and [group_count] is the number of
    these runs. *)
Theorem process_group_chunks_every_group_once threads shape postings :
  let walk env := process_group_chunks (W := list (list UriPosting)) []
    (λ seen g, Some (seen ++ [g])) (λ l r, Some (l ++ r)) threads env shape postings in
  walk (λ _, quiet) = Some (groups postings, false) ∧
  (∀ env seen, consistent [] (λ seen g, Some (seen ++ [g])) postings threads env →
     walk env = Some (seen, false) → seen = groups postings) ∧
  mjoin (groups postings) = postings ∧
  (∀ g p q, g ∈ groups postings → p ∈ g → q ∈ g → uri_id p = uri_id q) ∧
  group_count postings = length (groups postings).
Proof.
  intros walk.
  assert (Hquiet : walk (λ _, quiet) = Some (groups postings, false)).
  { destruct (process_group_chunks_ok [] (λ seen g, Some (seen ++ [g])) (λ l r, Some (l ++ r))
      postings eq) with (threads := threads) (shape := shape) as (w & E & ->);
      [done|naive_solver..]. }
  split_and!; [done| |apply mjoin_groups|apply groups_same_uri|apply group_count_groups].
  intros env seen Henv Hw. apply process_group_chunks_quiet in Hw; [|done]. unfold walk in Hquiet.
  congruence.
Qed.
