(* ===== verification/Uri.v ===== *)
(** [dedup/crates/core/src/uri.rs]: duplicate token and image URIs.

    Every group of postings with one URI contributes contracts and NFT rows to
    the scopes it spans; NFTs whose token URI already counted in a scope are left
    out of the image URI counts of that scope.  Up to 64 chains the code works
    on bit masks, beyond on hash sets; hash maps are iterated in the order of
    [map_to_list], which no result depends on.  [None] is a panic. *)

From S2P Require Import Prelude Text Types Stats UriChunks.

Definition u64_BITS : nat := 64.

(** [1_u64 << c]; release builds mask the shift amount. *)
Definition bit64 (c : nat) : Z := Z.shiftl 1 (Z.of_nat (c mod 64)).

(** ** Accumulators *)

Record ScopeAggregate := { agg_contracts : gset ContractId; agg_nft_rows : Z }.

Definition ScopeAggregate_default : ScopeAggregate :=
  {| agg_contracts := ∅; agg_nft_rows := 0 |}.

(** [LocalUriAccumulator] *)
Abbreviation LocalUriAccumulator := (gmap ScopeKey ScopeAggregate) (only parsing).

Definition local_add (acc : LocalUriAccumulator) (posting : UriPosting) (rows : Z)
    (dim : Dimension) (k : ScopeKind) (secondary : option ChainId) : LocalUriAccumulator :=
  let key := {| kind := k; primary_chain := posting_chain_id posting;
                secondary_chain := secondary; dimension := dim |} in
  let aggregate := or_default ScopeAggregate_default acc key in
  <[key := {| agg_contracts := {[posting_contract_id posting]} ∪ agg_contracts aggregate;
              agg_nft_rows := saturating_add64 (agg_nft_rows aggregate) rows |}]> acc.

(** The smaller contract set is inserted into the larger one. *)
Definition merge_aggregate (target source : ScopeAggregate) : ScopeAggregate :=
  let '(larger, smaller) :=
    if decide (size (agg_contracts target) < size (agg_contracts source))
    then (agg_contracts source, agg_contracts target)
    else (agg_contracts target, agg_contracts source) in
  {| agg_contracts := smaller ∪ larger;
     agg_nft_rows := saturating_add64 (agg_nft_rows target) (agg_nft_rows source) |}.

Definition local_merge (acc other : LocalUriAccumulator) : LocalUriAccumulator :=
  foldl (λ acc '(key, source),
    <[key := merge_aggregate (or_default ScopeAggregate_default acc key) source]> acc)
    acc (map_to_list other).

Definition local_add_group (acc : LocalUriAccumulator) (primary : ChainId)
    (cids : list ContractId) (rows : Z) (dim : Dimension) (k : ScopeKind)
    (secondary : option ChainId) : LocalUriAccumulator :=
  if decide (rows = 0%Z) then acc else
  let key := {| kind := k; primary_chain := primary; secondary_chain := secondary;
                dimension := dim |} in
  let aggregate := or_default ScopeAggregate_default acc key in
  <[key := {| agg_contracts := list_to_set cids ∪ agg_contracts aggregate;
              agg_nft_rows := saturating_add64 (agg_nft_rows aggregate) rows |}]> acc.

Definition aggregate_counts (aggregate : ScopeAggregate) : ScopeCounts :=
  {| duplicate_contract_count := Z.of_nat (size (agg_contracts aggregate));
     duplicate_nft_count := agg_nft_rows aggregate |}.

Definition local_flush (local : LocalUriAccumulator) (acc : SummaryAccumulator) (dim : Dimension)
    : SummaryAccumulator :=
  merge_completed_dimension_counts acc dim (aggregate_counts <$> local).

(** ** Workers of the token phase *)

Inductive MatrixWorkerHits :=
  | CompactHits (entries : list (NftId * Z))
  | WideHits (entries : list (NftId * ChainId)).

Record TokenWorker := {
  uri : LocalUriAccumulator;
  intra : list NftId;
  cross_summary : list NftId;
  matrix : MatrixWorkerHits;
}.

Definition TokenWorker_new (chain_count : nat) : TokenWorker :=
  {| uri := ∅; intra := []; cross_summary := [];
     matrix := if decide (chain_count ≤ u64_BITS) then CompactHits [] else WideHits [] |}.

Definition add_intra (w : TokenWorker) (posting : UriPosting) : TokenWorker :=
  {| uri := local_add (uri w) posting (posting_nft_count posting) TokenUri IntraChain None;
     intra := intra w ++ nft_ids posting; cross_summary := cross_summary w; matrix := matrix w |}.

Definition add_cross_summary (w : TokenWorker) (posting : UriPosting) : TokenWorker :=
  {| uri := local_add (uri w) posting (posting_nft_count posting) TokenUri CrossChainSummary None;
     intra := intra w; cross_summary := cross_summary w ++ nft_ids posting; matrix := matrix w |}.

Definition peer_mask (posting : UriPosting) (peer_chains : list ChainId) : Z :=
  foldl (λ mask chain, if decide (chain = posting_chain_id posting) then mask
                       else Z.lor mask (bit64 chain)) 0%Z peer_chains.

Definition other_chains (posting : UriPosting) (peer_chains : list ChainId) : list ChainId :=
  filter (λ secondary, secondary ≠ posting_chain_id posting) peer_chains.

Definition add_matrix (w : TokenWorker) (posting : UriPosting) (peer_chains : list ChainId)
    : TokenWorker :=
  {| uri := foldl (λ acc secondary,
              local_add acc posting (posting_nft_count posting) TokenUri ChainMatrix (Some secondary))
              (uri w) (other_chains posting peer_chains);
     intra := intra w; cross_summary := cross_summary w;
     matrix :=
       match matrix w with
       | CompactHits entries =>
           let mask := peer_mask posting peer_chains in
           CompactHits (entries ++ map (λ nft_id, (nft_id, mask)) (nft_ids posting))
       | WideHits entries =>
           WideHits (entries ++
             (secondary ← other_chains posting peer_chains;
              map (λ nft_id, (nft_id, secondary)) (nft_ids posting)))
       end |}.

Definition TokenWorker_merge (w other : TokenWorker) : option TokenWorker :=
  matrix' ← match matrix w, matrix other with
            | CompactHits l, CompactHits r => Some (CompactHits (l ++ r))
            | WideHits l, WideHits r => Some (WideHits (l ++ r))
            | _, _ => None
            end;
  Some {| uri := local_merge (uri w) (uri other); intra := intra w ++ intra other;
          cross_summary := cross_summary w ++ cross_summary other; matrix := matrix' |}.

(** ** Sets of NFTs *)

Inductive MatrixNftSet :=
  | Compact (masks : list Z)
  | Wide (entries : gset (NftId * ChainId)).

Definition MatrixNftSet_new (nft_count chain_count : nat) : MatrixNftSet :=
  if decide (chain_count ≤ u64_BITS) then Compact (replicate nft_count 0%Z) else Wide ∅.

Definition or_mask (masks : list Z) (nft_id : NftId) (mask : Z) : option (list Z) :=
  old ← masks !! nft_id; Some (<[nft_id := Z.lor old mask]> masks).

Definition matrix_insert (s : MatrixNftSet) (nft_id : NftId) (chain_id : ChainId)
    : option MatrixNftSet :=
  match s with
  | Compact masks => Compact <$> or_mask masks nft_id (bit64 chain_id)
  | Wide entries => Some (Wide ({[(nft_id, chain_id)]} ∪ entries))
  end.

Definition matrix_contains (s : MatrixNftSet) (nft_id : NftId) (chain_id : ChainId)
    : option bool :=
  match s with
  | Compact masks => old ← masks !! nft_id; Some (negb (Z.land old (bit64 chain_id) =? 0)%Z)
  | Wide entries => Some (bool_decide ((nft_id, chain_id) ∈ entries))
  end.

Record DenseNftSet := { words : list Z }.

Definition DenseNftSet_with_capacity (nft_count : nat) : DenseNftSet :=
  {| words := replicate (div_ceil nft_count 64) 0%Z |}.

Definition dense_insert (s : DenseNftSet) (nft_id : NftId) : option DenseNftSet :=
  words' ← or_mask (words s) (nft_id / 64) (bit64 (nft_id mod 64)); Some {| words := words' |}.

Definition dense_contains (s : DenseNftSet) (nft_id : NftId) : bool :=
  match words s !! (nft_id / 64) with
  | Some word => negb (Z.land word (bit64 (nft_id mod 64)) =? 0)%Z
  | None => false
  end.

Record TokenHits := {
  hits_intra : DenseNftSet;
  hits_cross_summary : DenseNftSet;
  hits_matrix : MatrixNftSet;
}.

Definition TokenHits_new (nft_count chain_count : nat) : TokenHits :=
  {| hits_intra := DenseNftSet_with_capacity nft_count;
     hits_cross_summary := DenseNftSet_with_capacity nft_count;
     hits_matrix := MatrixNftSet_new nft_count chain_count |}.

(** ** Bit masks of chains *)

(** [u64::trailing_zeros] *)
Fixpoint trailing_zeros_from (fuel i : nat) (z : Z) : nat :=
  match fuel with
  | 0 => i
  | S fuel => if Z.testbit z (Z.of_nat i) then i else trailing_zeros_from fuel (S i) z
  end.
Definition trailing_zeros (z : Z) : nat := trailing_zeros_from 64 0 z.

(** The loop that clears the lowest set bit; at most 64 rounds. *)
Fixpoint mask_chains (fuel : nat) (remaining : Z) : list ChainId :=
  match fuel with
  | 0 => []
  | S fuel =>
      if decide (remaining = 0%Z) then []
      else trailing_zeros remaining :: mask_chains fuel (Z.land remaining (remaining - 1))
  end.

Definition present_mask (members : list UriPosting) : Z :=
  foldl (λ mask p, Z.lor mask (bit64 (posting_chain_id p))) 0%Z members.

(** [posting_counts[chain] += 1] over the fixed array of 64 counters. *)
Definition count_postings (members : list UriPosting) : option (list nat) :=
  foldl (λ acc p,
    posting_counts ← acc;
    old ← posting_counts !! posting_chain_id p;
    Some (<[posting_chain_id p := S old]> posting_counts))
    (Some (replicate u64_BITS 0)) members.

Definition postings_by_chain (members : list UriPosting) : gmap ChainId (list UriPosting) :=
  foldl (λ by_chain p,
    <[posting_chain_id p := default [] (by_chain !! posting_chain_id p) ++ [p]]> by_chain)
    ∅ members.

(** ** Token URI groups *)

Definition accumulate_token_compact (w : TokenWorker) (members : list UriPosting)
    : option TokenWorker :=
  posting_counts ← count_postings members;
  let chains := mask_chains 64 (present_mask members) in
  foldl (λ acc p,
    w ← acc;
    count ← posting_counts !! posting_chain_id p;
    let w := if decide (2 ≤ count) then add_intra w p else w in
    Some (if decide (2 ≤ length chains) then add_matrix (add_cross_summary w p) p chains else w))
    (Some w) members.

Definition accumulate_token_wide (w : TokenWorker) (members : list UriPosting) : TokenWorker :=
  let by_chain := postings_by_chain members in
  let chains := (map_to_list by_chain).*1 in
  foldl (λ w '(_, postings),
    let w := if decide (2 ≤ length postings) then foldl add_intra w postings else w in
    let w := if decide (2 ≤ length chains) then foldl add_cross_summary w postings else w in
    if decide (2 ≤ length chains) then foldl (λ w p, add_matrix w p chains) w postings else w)
    w (map_to_list by_chain).

Definition accumulate_token_scope_hits (w : TokenWorker) (members : list UriPosting)
    : option TokenWorker :=
  if decide (length members < 2) then Some w else
  match matrix w with
  | CompactHits _ => accumulate_token_compact w members
  | WideHits _ => Some (accumulate_token_wide w members)
  end.

(** ** Image URI groups *)

Record GroupScopeAggregate := {
  group_contracts : list ContractId;
  group_nft_rows : Z;
  posting_count : nat;
}.

Definition GroupScopeAggregate_default : GroupScopeAggregate :=
  {| group_contracts := []; group_nft_rows := 0; posting_count := 0 |}.

Definition add_posting (g : GroupScopeAggregate) (cid : ContractId) (rows : Z)
    : GroupScopeAggregate :=
  if decide (rows = 0%Z) then g else
  {| group_contracts := group_contracts g ++ [cid];
     group_nft_rows := saturating_add64 (group_nft_rows g) rows;
     posting_count := posting_count g + 1 |}.

Definition output_group (output : LocalUriAccumulator) (primary : ChainId)
    (g : GroupScopeAggregate) (k : ScopeKind) (secondary : option ChainId) : LocalUriAccumulator :=
  local_add_group output primary (group_contracts g) (group_nft_rows g) ImageUri k secondary.

(** How many NFTs of the list satisfy a test that may panic. *)
Fixpoint count_nfts (keep : NftId → option bool) (ids : list NftId) : option Z :=
  match ids with
  | [] => Some 0%Z
  | n :: ids =>
      b ← keep n;
      rest ← count_nfts keep ids;
      Some (Z.b2z b + rest)%Z
  end.

Definition not_intra (hits : TokenHits) (n : NftId) : option bool :=
  Some (negb (dense_contains (hits_intra hits) n)).
Definition not_cross (hits : TokenHits) (n : NftId) : option bool :=
  Some (negb (dense_contains (hits_cross_summary hits) n)).
Definition not_matrix (hits : TokenHits) (c : ChainId) (n : NftId) : option bool :=
  negb <$> matrix_contains (hits_matrix hits) n c.

(** [aggregates[i].add_posting(..)] *)
Definition add_posting_at (l : list GroupScopeAggregate) (i : nat) (cid : ContractId) (rows : Z)
    : option (list GroupScopeAggregate) :=
  g ← l !! i; Some (<[i := add_posting g cid rows]> l).

(** The three tables of a group that spans several chains. *)
Record GroupTables := {
  table_intra : list GroupScopeAggregate;
  table_cross : list GroupScopeAggregate;
  table_matrix : list GroupScopeAggregate;
}.

Definition GroupTables_new (width : nat) : GroupTables :=
  {| table_intra := replicate width GroupScopeAggregate_default;
     table_cross := replicate width GroupScopeAggregate_default;
     table_matrix := replicate (width * width) GroupScopeAggregate_default |}.

(** [local_index[chain]]; chains that are not present map to [usize::MAX],
    which no table contains. *)
Fixpoint local_index (chains : list ChainId) (c : ChainId) : option nat :=
  match chains with
  | [] => None
  | x :: chains => if decide (x = c) then Some 0 else S <$> local_index chains c
  end.

(** The loop body for one posting. *)
Definition tabulate_posting (hits : TokenHits) (chains : list ChainId) (t : GroupTables)
    (p : UriPosting) : option GroupTables :=
  primary ← local_index chains (posting_chain_id p);
  intra_count ← count_nfts (not_intra hits) (nft_ids p);
  cross_count ← count_nfts (not_cross hits) (nft_ids p);
  matrix_counts ← mapM (λ x,
    if decide (x.1 = primary) then Some 0%Z
    else count_nfts (not_matrix hits x.2) (nft_ids p)) (imap pair chains);
  intra' ← add_posting_at (table_intra t) primary (posting_contract_id p) intra_count;
  cross' ← add_posting_at (table_cross t) primary (posting_contract_id p) cross_count;
  matrix' ← foldM (λ m x,
    if decide (x.1 = primary) then Some m
    else add_posting_at m (primary * length chains + x.1) (posting_contract_id p) x.2)
    (table_matrix t) (imap pair matrix_counts);
  Some {| table_intra := intra'; table_cross := cross'; table_matrix := matrix' |}.

Definition output_intra (chains : list ChainId) (t : GroupTables) (output : LocalUriAccumulator)
    : LocalUriAccumulator :=
  foldl (λ output x,
    if decide (2 ≤ posting_count x.2) then output_group output x.1 x.2 IntraChain None else output)
    output (zip chains (table_intra t)).

Definition output_cross (chains : list ChainId) (t : GroupTables) (output : LocalUriAccumulator)
    : LocalUriAccumulator :=
  if decide (2 ≤ length (filter (λ g, group_nft_rows g ≠ 0%Z) (table_cross t))) then
    foldl (λ output x, output_group output x.1 x.2 CrossChainSummary None)
      output (zip chains (table_cross t))
  else output.

(** The loop body for two (indexed) chains. *)
Definition output_matrix_pair (chains : list ChainId) (t : GroupTables)
    (output : LocalUriAccumulator) (pair : (nat * ChainId) * (nat * ChainId))
    : option LocalUriAccumulator :=
  let primary := pair.1.1 in
  let secondary := pair.2.1 in
  let width := length chains in
  if decide (primary = secondary) then Some output else
  aggregate ← table_matrix t !! (primary * width + secondary);
  reciprocal ← table_matrix t !! (secondary * width + primary);
  Some (if decide (group_nft_rows aggregate ≠ 0%Z ∧ group_nft_rows reciprocal ≠ 0%Z)
        then output_group output pair.1.2 aggregate ChainMatrix (Some pair.2.2) else output).

Definition output_matrix (chains : list ChainId) (t : GroupTables) (output : LocalUriAccumulator)
    : option LocalUriAccumulator :=
  foldM (output_matrix_pair chains t) output
    (x ← imap pair chains; y ← imap pair chains; [(x, y)]).

Definition accumulate_image_scope_hits_compact (hits : TokenHits) (output : LocalUriAccumulator)
    (members : list UriPosting) : option LocalUriAccumulator :=
  match mask_chains 64 (present_mask members) with
  | [c] =>
      intra ← foldM (λ g p,
        rows ← count_nfts (not_intra hits) (nft_ids p);
        Some (add_posting g (posting_contract_id p) rows)) GroupScopeAggregate_default members;
      Some (if decide (2 ≤ posting_count intra) then output_group output c intra IntraChain None
            else output)
  | chains =>
      t ← foldM (tabulate_posting hits chains) (GroupTables_new (length chains)) members;
      output_matrix chains t (output_cross chains t (output_intra chains t output))
  end.

Fixpoint filtered_posting_counts (keep : NftId → option bool) (postings : list UriPosting)
    : option (list (UriPosting * Z)) :=
  match postings with
  | [] => Some []
  | p :: postings =>
      rows ← count_nfts keep (nft_ids p);
      rest ← filtered_posting_counts keep postings;
      Some (if decide (rows = 0%Z) then rest else (p, rows) :: rest)
  end.

(** [postings.iter().any(|p| p.nft_ids.iter().any(keep))] *)
Fixpoint any_nft (keep : NftId → option bool) (ids : list NftId) : option bool :=
  match ids with
  | [] => Some false
  | n :: ids => b ← keep n; if (b : bool) then Some true else any_nft keep ids
  end.
Fixpoint any_posting (keep : NftId → option bool) (postings : list UriPosting) : option bool :=
  match postings with
  | [] => Some false
  | p :: postings => b ← any_nft keep (nft_ids p); if (b : bool) then Some true else any_posting keep postings
  end.

Definition add_all (output : LocalUriAccumulator) (counted : list (UriPosting * Z)) (k : ScopeKind)
    (secondary : option ChainId) : LocalUriAccumulator :=
  foldl (λ output '(p, rows), local_add output p rows ImageUri k secondary) output counted.

(** [chains.iter().any(..)] of [has_other_cross]. *)
Fixpoint any_other_cross (hits : TokenHits) (c : ChainId)
    (by_chain : list (ChainId * list UriPosting)) : option bool :=
  match by_chain with
  | [] => Some false
  | (other, postings) :: by_chain =>
      b ← (if decide (other = c) then Some false else any_posting (not_cross hits) postings);
      if (b : bool) then Some true else any_other_cross hits c by_chain
  end.

(** The body of the inner loop over the other chains. *)
Definition image_wide_other (hits : TokenHits) (c : ChainId) (postings : list UriPosting)
    (output : LocalUriAccumulator) (other : ChainId * list UriPosting)
    : option LocalUriAccumulator :=
  if decide (other.1 = c) then Some output else
  primary_matrix ← filtered_posting_counts (not_matrix hits other.1) postings;
  other_has_match ← any_posting (not_matrix hits c) other.2;
  Some (if decide (primary_matrix ≠ [] ∧ other_has_match = true)
        then add_all output primary_matrix ChainMatrix (Some other.1) else output).

(** The body of the loop over the chains, for the chain [c]. *)
Definition image_wide_chain (hits : TokenHits) (by_chain : list (ChainId * list UriPosting))
    (output : LocalUriAccumulator) (c : ChainId) (postings : list UriPosting)
    : option LocalUriAccumulator :=
  intra ← filtered_posting_counts (not_intra hits) postings;
  let output := if decide (2 ≤ length intra) then add_all output intra IntraChain None else output in
  primary_cross ← filtered_posting_counts (not_cross hits) postings;
  has_other_cross ← any_other_cross hits c by_chain;
  let output := if decide (primary_cross ≠ [] ∧ has_other_cross = true)
                then add_all output primary_cross CrossChainSummary None else output in
  foldM (image_wide_other hits c postings) output by_chain.

Definition accumulate_image_scope_hits_wide (hits : TokenHits) (output : LocalUriAccumulator)
    (members : list UriPosting) : option LocalUriAccumulator :=
  let by_chain := map_to_list (postings_by_chain members) in
  foldM (λ output x, image_wide_chain hits by_chain output x.1 x.2) output by_chain.

Definition accumulate_image_scope_hits (hits : TokenHits) (chain_count : nat)
    (output : LocalUriAccumulator) (members : list UriPosting) : option LocalUriAccumulator :=
  if decide (length members < 2) then Some output
  else if decide (chain_count ≤ u64_BITS) then accumulate_image_scope_hits_compact hits output members
  else accumulate_image_scope_hits_wide hits output members.

(** ** The two phases *)

(** Building the token hits from the lists of the merged worker. *)
Definition collect_hits (nft_count chain_count : nat) (w : TokenWorker) : option TokenHits :=
  let hits := TokenHits_new nft_count chain_count in
  intra' ← foldM dense_insert (hits_intra hits) (intra w);
  cross' ← foldM dense_insert (hits_cross_summary hits) (cross_summary w);
  matrix' ←
    match matrix w with
    | CompactHits entries =>
        match hits_matrix hits with
        | Compact masks => Compact <$> foldM (λ masks '(n, mask), or_mask masks n mask) masks entries
        | Wide _ => None
        end
    | WideHits entries => foldM (λ s '(n, c), matrix_insert s n c) (hits_matrix hits) entries
    end;
  Some {| hits_intra := intra'; hits_cross_summary := cross'; hits_matrix := matrix' |}.

(** What the environment decides for one phase. *)
Record PhaseEnv := { threads : nat; tasks : nat → TaskEnv; shape : Reduction }.

Definition run_uri (token_env image_env : PhaseEnv) (store : EntityStore) (acc : SummaryAccumulator)
    : option (SummaryAccumulator * (unit + DedupError)) :=
  let chain_count := length (chains store) in
  '(worker, cancelled) ←
    process_group_chunks (TokenWorker_new chain_count) accumulate_token_scope_hits TokenWorker_merge
      (threads token_env) (tasks token_env) (shape token_env) (token_uri_postings store);
  if (cancelled : bool) then Some (acc, inr Interrupted) else
  token_hits ← collect_hits (length (nfts store)) chain_count worker;
  let acc := local_flush (uri worker) acc TokenUri in
  '(image_acc, cancelled) ←
    process_group_chunks ∅ (accumulate_image_scope_hits token_hits chain_count)
      (λ l r, Some (local_merge l r))
      (threads image_env) (tasks image_env) (shape image_env) (image_uri_postings store);
  if (cancelled : bool) then Some (acc, inr Interrupted)
  else Some (local_flush image_acc acc ImageUri, inl tt).

(** ** What an accumulator stands for *)

(** The contributions to one scope: a contract with its number of NFT rows. *)
Abbreviation contributions := (list (ContractId * Z)) (only parsing).

Definition saturated_sum (l : list Z) : Z := Z.min (foldr Z.add 0%Z l) u64_max.

Definition summarize (items : contributions) : option ScopeAggregate :=
  match items with
  | [] => None
  | _ => Some {| agg_contracts := list_to_set items.*1; agg_nft_rows := saturated_sum items.*2 |}
  end.

(** [acc] summarizes the contributions [F key] of every scope. *)
Definition local_ok (acc : LocalUriAccumulator) (F : ScopeKey → contributions) : Prop :=
  ∀ key, acc !! key = summarize (F key) ∧ Forall (λ n, 0 ≤ n)%Z (F key).*2.

Lemma foldr_add_app l1 l2 : foldr Z.add 0%Z (l1 ++ l2) = (foldr Z.add 0 l1 + foldr Z.add 0 l2)%Z.
Proof. induction l1 as [|x l1 IH]; simpl; lia. Qed.

Lemma foldr_add_nonneg l : Forall (λ n, 0 ≤ n)%Z l → (0 ≤ foldr Z.add 0 l)%Z.
Proof. induction 1; simpl; lia. Qed.

Lemma saturated_sum_app l1 l2 :
  Forall (λ n, 0 ≤ n)%Z l1 → Forall (λ n, 0 ≤ n)%Z l2 →
  saturating_add64 (saturated_sum l1) (saturated_sum l2) = saturated_sum (l1 ++ l2).
Proof.
  intros H1%foldr_add_nonneg H2%foldr_add_nonneg.
  unfold saturating_add64, saturated_sum, u64_max. rewrite foldr_add_app. lia.
Qed.

Lemma saturated_sum_singleton n : (0 ≤ n)%Z → saturated_sum [n] = Z.min n u64_max.
Proof. intros. unfold saturated_sum. simpl. lia. Qed.

Lemma saturated_sum_zero l : Forall (λ n, 0 < n)%Z l → saturated_sum l = 0%Z → l = [].
Proof.
  intros Hl. destruct Hl as [|n l Hn Hl]; [done|]. unfold saturated_sum, u64_max. simpl.
  assert (0 ≤ foldr Z.add 0 l)%Z by (apply foldr_add_nonneg; eapply Forall_impl; [exact Hl|simpl; lia]).
  lia.
Qed.

(** Aggregates with the default for "no contribution". *)
Definition aggregate_of (items : contributions) : ScopeAggregate :=
  {| agg_contracts := list_to_set items.*1; agg_nft_rows := saturated_sum items.*2 |}.

Lemma summarize_nonempty items : items ≠ [] → summarize items = Some (aggregate_of items).
Proof. by destruct items. Qed.

Lemma or_default_local_ok acc F key :
  local_ok acc F → or_default ScopeAggregate_default acc key = aggregate_of (F key).
Proof. intros Hok. unfold or_default. destruct (Hok key) as [-> _]. by destruct (F key). Qed.

Lemma local_ok_empty : local_ok ∅ (λ _, []).
Proof. intros key. rewrite lookup_empty. by split; [|constructor]. Qed.

Lemma local_ok_ext acc F G : local_ok acc F → (∀ key, F key = G key) → local_ok acc G.
Proof. intros Hok HFG key. rewrite <- HFG. apply Hok. Qed.

(** Appending contributions at one key. *)
Definition extend_at (F : ScopeKey → contributions) (key : ScopeKey) (items : contributions)
    : ScopeKey → contributions :=
  λ key', if decide (key = key') then F key' ++ items else F key'.

Lemma local_ok_extend acc F key items aggregate :
  local_ok acc F → items ≠ [] → Forall (λ n, 0 ≤ n)%Z items.*2 →
  aggregate = aggregate_of (F key ++ items) →
  local_ok (<[key := aggregate]> acc) (extend_at F key items).
Proof.
  intros Hok Hne Hit -> key'. unfold extend_at. rewrite lookup_insert. case_decide as Hk; [|apply Hok].
  subst key'. rewrite summarize_nonempty by (by intros [_ ?]%app_nil). split; [done|].
  rewrite fmap_app. apply Forall_app_2; [apply Hok|done].
Qed.

Lemma local_add_ok acc F posting rows dim k secondary :
  local_ok acc F → (0 ≤ rows)%Z →
  local_ok (local_add acc posting rows dim k secondary)
    (extend_at F {| kind := k; primary_chain := posting_chain_id posting;
                    secondary_chain := secondary; dimension := dim |}
       [(posting_contract_id posting, rows)]).
Proof.
  intros Hok Hrows. unfold local_add. apply local_ok_extend; [done|done|by constructor|].
  rewrite (or_default_local_ok _ _ _ Hok). unfold aggregate_of. simpl. f_equal.
  - rewrite fmap_app. set_solver.
  - rewrite fmap_app. rewrite <- saturated_sum_app; [|apply Hok|by constructor].
    unfold saturating_add64. simpl. rewrite saturated_sum_singleton by done.
    unfold saturated_sum, u64_max.
    assert (0 ≤ foldr Z.add 0 (F {| kind := k; primary_chain := posting_chain_id posting;
      secondary_chain := secondary; dimension := dim |}).*2)%Z by (apply foldr_add_nonneg, Hok). lia.
Qed.

Lemma merge_aggregate_of xs ys :
  Forall (λ n, 0 ≤ n)%Z xs.*2 → Forall (λ n, 0 ≤ n)%Z ys.*2 →
  merge_aggregate (aggregate_of xs) (aggregate_of ys) = aggregate_of (xs ++ ys).
Proof.
  intros Hx Hy. unfold merge_aggregate, aggregate_of. simpl. rewrite !fmap_app.
  rewrite saturated_sum_app by done. case_decide; f_equal; set_solver.
Qed.

Lemma local_merge_list_ok acc F kvs (G : ScopeKey → contributions) :
  local_ok acc F → NoDup kvs.*1 →
  (∀ key source, (key, source) ∈ kvs →
     source = aggregate_of (G key) ∧ G key ≠ [] ∧ Forall (λ n, 0 ≤ n)%Z (G key).*2) →
  local_ok
    (foldl (λ acc '(key, source),
       <[key := merge_aggregate (or_default ScopeAggregate_default acc key) source]> acc) acc kvs)
    (λ key, F key ++ if decide (key ∈ kvs.*1) then G key else []).
Proof.
  revert acc F. induction kvs as [|[key source] kvs IH]; intros acc F Hok Hnd HG.
  - eapply local_ok_ext; [exact Hok|]. intros key. simpl. by rewrite app_nil_r.
  - apply NoDup_cons in Hnd as [Hk Hnd]. simpl in Hk.
    destruct (HG key source) as (-> & Hne & Hpos); [set_solver|]. cbn [foldl].
    eapply local_ok_ext; [apply (IH _ (extend_at F key (G key))); [|done|]|].
    + apply local_ok_extend; [done..|]. rewrite (or_default_local_ok _ _ _ Hok).
      apply merge_aggregate_of; [apply Hok|done].
    + intros. apply HG. set_solver.
    + intros key'. unfold extend_at. rewrite fmap_cons. simpl.
      rewrite (decide_ext (key' ∈ key :: kvs.*1) (key' = key ∨ key' ∈ kvs.*1)) by apply elem_of_cons.
      clear IH Hok. destruct (decide (key = key')) as [<-|Hne'].
      * rewrite decide_False by done. rewrite decide_True by (by left). by rewrite app_nil_r.
      * f_equal. apply decide_ext. naive_solver.
Qed.

Lemma local_merge_ok acc other F G :
  local_ok acc F → local_ok other G → local_ok (local_merge acc other) (λ key, F key ++ G key).
Proof.
  intros Hok Ho. unfold local_merge.
  eapply local_ok_ext; [apply (local_merge_list_ok acc F (map_to_list other) G Hok)|].
  - apply NoDup_fst_map_to_list.
  - intros key source Hin%elem_of_map_to_list. destruct (Ho key) as [E Hp]. rewrite E in Hin.
    destruct (G key); by simplify_eq/=.
  - intros key. simpl. case_decide as Hk; [done|]. f_equal. destruct (Ho key) as [E _].
    destruct (G key) as [|x l]; [done|]. exfalso. apply Hk. apply list_elem_of_fmap.
    exists (key, aggregate_of (x :: l)). split; [done|]. by apply elem_of_map_to_list.
Qed.

Lemma local_add_group_ok acc F primary cids rows dim k secondary items :
  local_ok acc F → cids = items.*1 → rows = saturated_sum items.*2 →
  Forall (λ n, 0 < n)%Z items.*2 →
  local_ok (local_add_group acc primary cids rows dim k secondary)
    (extend_at F {| kind := k; primary_chain := primary; secondary_chain := secondary;
                    dimension := dim |} items).
Proof.
  intros Hok -> -> Hpos. unfold local_add_group.
  assert (Hnn : Forall (λ n, 0 ≤ n)%Z items.*2) by (eapply Forall_impl; [exact Hpos|simpl; lia]).
  case_decide as Hz.
  - apply saturated_sum_zero in Hz as Hnil; [|done]. apply fmap_nil_inv in Hnil as ->.
    eapply local_ok_ext; [exact Hok|]. intros key. unfold extend_at. case_decide; by rewrite ?app_nil_r.
  - apply local_ok_extend; [done| |done|].
    + intros ->. by apply Hz.
    + rewrite (or_default_local_ok _ _ _ Hok). unfold aggregate_of. simpl. rewrite !fmap_app.
      rewrite saturated_sum_app; [|apply Hok|done]. f_equal. set_solver.
Qed.

(** A table entry stands for the postings it was fed. *)
Definition group_of (items : contributions) : GroupScopeAggregate :=
  {| group_contracts := items.*1; group_nft_rows := saturated_sum items.*2;
     posting_count := length items |}.

(** Postings without rows are dropped. *)
Definition add_item (items : contributions) (cid : ContractId) (rows : Z) : contributions :=
  if decide (rows = 0%Z) then items else items ++ [(cid, rows)].

Lemma add_posting_group_of items cid rows :
  Forall (λ n, 0 < n)%Z items.*2 → (0 ≤ rows)%Z →
  add_posting (group_of items) cid rows = group_of (add_item items cid rows).
Proof.
  intros Hpos Hr. unfold add_posting, add_item. case_decide as Hz; [done|].
  assert (Hnn : Forall (λ n, 0 ≤ n)%Z items.*2) by (eapply Forall_impl; [exact Hpos|simpl; lia]).
  unfold group_of. simpl. rewrite !fmap_app, length_app. f_equal.
  rewrite <- saturated_sum_app; [|done|by constructor].
  unfold saturating_add64. simpl. rewrite saturated_sum_singleton by done.
  unfold saturated_sum, u64_max. pose proof (foldr_add_nonneg _ Hnn). lia.
Qed.

Lemma output_group_ok output F primary items k secondary :
  local_ok output F → Forall (λ n, 0 < n)%Z items.*2 →
  local_ok (output_group output primary (group_of items) k secondary)
    (extend_at F {| kind := k; primary_chain := primary; secondary_chain := secondary;
                    dimension := ImageUri |} items).
Proof. intros Hok Hpos. by apply local_add_group_ok. Qed.

(** ** Bit masks *)

Lemma bit64_testbit c i : c < 64 → (0 ≤ i)%Z → Z.testbit (bit64 c) i = bool_decide (i = Z.of_nat c).
Proof.
  intros Hc Hi. unfold bit64. rewrite Nat.mod_small by lia. rewrite Z.shiftl_1_l.
  destruct (bool_decide_reflect (i = Z.of_nat c)) as [->|Hne].
  - apply Z.pow2_bits_true. lia.
  - apply Z.pow2_bits_false. lia.
Qed.

Lemma land_bit64 z c : c < 64 → negb (Z.land z (bit64 c) =? 0)%Z = Z.testbit z (Z.of_nat c).
Proof.
  intros Hc. destruct (Z.testbit z (Z.of_nat c)) eqn:E.
  - apply negb_true_iff, Z.eqb_neq. intros H0.
    assert (Z.testbit (Z.land z (bit64 c)) (Z.of_nat c) = true).
    { rewrite Z.land_spec, E, bit64_testbit by lia. by rewrite bool_decide_true. }
    rewrite H0, Z.bits_0 in *. done.
  - apply negb_false_iff, Z.eqb_eq. apply Z.bits_inj'. intros i Hi.
    rewrite Z.bits_0, Z.land_spec, bit64_testbit by lia.
    destruct (bool_decide_reflect (i = Z.of_nat c)) as [->|]; [by rewrite E|apply andb_false_r].
Qed.

Lemma present_mask_testbit members c :
  Forall (λ p, posting_chain_id p < 64) members → c < 64 →
  Z.testbit (present_mask members) (Z.of_nat c) =
    bool_decide (c ∈ posting_chain_id <$> members).
Proof.
  intros Hm Hc. unfold present_mask.
  assert (Hgen : ∀ mask, Z.testbit (foldl (λ mask p, Z.lor mask (bit64 (posting_chain_id p))) mask members)
    (Z.of_nat c) = Z.testbit mask (Z.of_nat c) || bool_decide (c ∈ posting_chain_id <$> members)).
  { induction Hm as [|p members Hp Hm IH]; intros mask.
    - cbn [foldl fmap list_fmap]. rewrite bool_decide_eq_false_2 by apply not_elem_of_nil.
      by rewrite orb_false_r.
    - cbn [foldl]. rewrite fmap_cons, IH, Z.lor_spec, bit64_testbit by lia. rewrite <- orb_assoc. f_equal.
      apply eq_true_iff_eq. rewrite orb_true_iff, !bool_decide_eq_true, elem_of_cons.
      rewrite Nat2Z.inj_iff. done. }
  rewrite Hgen. by rewrite Z.bits_0.
Qed.

Lemma trailing_zeros_from_spec fuel s z :
  (∃ i, s ≤ i < s + fuel ∧ Z.testbit z (Z.of_nat i) = true) →
  let t := trailing_zeros_from fuel s z in
  s ≤ t < s + fuel ∧ Z.testbit z (Z.of_nat t) = true ∧
  ∀ i, s ≤ i < t → Z.testbit z (Z.of_nat i) = false.
Proof.
  revert s. induction fuel as [|fuel IH]; intros s (i & Hi & Hb); [lia|]. simpl.
  destruct (Z.testbit z (Z.of_nat s)) eqn:E; [split_and!; [lia|lia|done|lia]|].
  assert (i ≠ s) by congruence. destruct (IH (S s)) as (H1 & H2 & H3); [exists i; split; [lia|done]|].
  split_and!; [lia|lia|done|]. intros j Hj. destruct (decide (j = s)) as [->|]; [done|]. apply H3. lia.
Qed.

(** [remaining & (remaining - 1)] clears exactly the lowest set bit. *)
Lemma clear_lowest_bit z t i :
  Z.testbit z (Z.of_nat t) = true → (∀ j, j < t → Z.testbit z (Z.of_nat j) = false) →
  Z.testbit (Z.land z (z - 1)) (Z.of_nat i) = Z.testbit z (Z.of_nat i) && negb (bool_decide (i = t)).
Proof.
  intros Ht Hlow. set (n := Z.of_nat t). set (r := (z / 2 ^ (n + 1))%Z).
  assert (Hz : z = (r * 2 ^ (n + 1) + 2 ^ n)%Z).
  { assert (Hm : (z mod 2 ^ (n + 1) = 2 ^ n)%Z).
    { apply Z.bits_inj'. intros j Hj. rewrite <- (Z2Nat.id j Hj).
      destruct (decide (Z.of_nat (Z.to_nat j) = n)) as [->|Hne].
      - rewrite Z.mod_pow2_bits_low, Z.pow2_bits_true by lia. done.
      - rewrite Z.pow2_bits_false by lia.
        destruct (decide (n < Z.of_nat (Z.to_nat j))%Z).
        + apply Z.mod_pow2_bits_high. lia.
        + rewrite Z.mod_pow2_bits_low by lia. apply Hlow. lia. }
    pose proof (Z.div_mod z (2 ^ (n + 1)) ltac:(lia)). unfold r. lia. }
  assert (Hp : (0 < 2 ^ n)%Z) by lia. assert (H2p : (2 ^ (n + 1) = 2 * 2 ^ n)%Z)
    by (rewrite Z.pow_add_r by lia; lia).
  rewrite Z.land_spec. destruct (bool_decide_reflect (i = t)) as [->|Hne]; cbn [negb].
  - fold n. rewrite andb_false_r. apply andb_false_iff. right.
    pose proof (Z.div_pow2_bits (z - 1) n 0 ltac:(lia) ltac:(lia)) as Hdiv.
    rewrite Z.add_0_l in Hdiv. rewrite <- Hdiv.
    replace ((z - 1) / 2 ^ n)%Z with (2 * r)%Z; [apply Z.testbit_even_0|].
    apply Z.div_unique with (2 ^ n - 1)%Z; [lia|]. rewrite Hz at 1. lia.
  - rewrite andb_true_r. destruct (decide (i < t)) as [Hlt|Hge].
    { by rewrite (Hlow i Hlt). }
    replace (Z.testbit (z - 1) (Z.of_nat i)) with (Z.testbit z (Z.of_nat i)); [apply andb_diag|].
    replace (Z.of_nat i) with (Z.of_nat i - (n + 1) + (n + 1))%Z by lia.
    rewrite <- !Z.div_pow2_bits by lia. f_equal. fold r.
    apply Z.div_unique with (2 ^ n - 1)%Z; [lia|]. rewrite Hz at 1. lia.
Qed.

Lemma mask_chains_spec fuel k z :
  64 ≤ fuel + k → (0 ≤ z < 2 ^ 64)%Z →
  (∀ i, Z.testbit z (Z.of_nat i) = true → k ≤ i < 64) →
  NoDup (mask_chains fuel z) ∧
  ∀ c, c ∈ mask_chains fuel z ↔ Z.testbit z (Z.of_nat c) = true.
Proof.
  revert k z. induction fuel as [|fuel IH]; intros k z Hk Hz Hb; simpl.
  { split; [constructor|]. intros c. split; [by intros ?%elem_of_nil|]. intros Hc. apply Hb in Hc. lia. }
  case_decide as H0.
  { subst. split; [constructor|]. intros c. rewrite Z.bits_0. split; [by intros ?%elem_of_nil|done]. }
  assert (Hex : ∃ i, 0 ≤ i < 0 + 64 ∧ Z.testbit z (Z.of_nat i) = true).
  { exists (Z.to_nat (Z.log2 z)). assert (Hl : Z.testbit z (Z.log2 z) = true) by (apply Z.bit_log2; lia).
    pose proof (Z.log2_nonneg z). rewrite Z2Nat.id by done. split; [|done].
    rewrite <- (Z2Nat.id (Z.log2 z)) in Hl by done. apply Hb in Hl. lia. }
  destruct (trailing_zeros_from_spec 64 0 z Hex) as (Ht & Htb & Hlow). fold (trailing_zeros z) in *.
  set (t := trailing_zeros z) in *.
  assert (Hclear : ∀ i, Z.testbit (Z.land z (z - 1)) (Z.of_nat i) =
    Z.testbit z (Z.of_nat i) && negb (bool_decide (i = t))).
  { intros i. apply clear_lowest_bit; [done|]. intros j Hj. apply Hlow. lia. }
  destruct (IH (S t) (Z.land z (z - 1))) as [Hnd Hel].
  - apply Hb in Htb. lia.
  - split; [apply Z.land_nonneg; lia|]. destruct (decide (Z.land z (z - 1) = 0)%Z) as [->|Hnz]; [done|].
    assert (0 ≤ Z.land z (z - 1))%Z by (apply Z.land_nonneg; lia).
    apply Z.log2_lt_pow2; [lia|].
    pose proof (Z.log2_land z (z - 1) ltac:(lia) ltac:(lia)).
    assert (Z.log2 z < 64)%Z by (apply Z.log2_lt_pow2; lia). lia.
  - intros i. rewrite Hclear, andb_true_iff, negb_true_iff, bool_decide_eq_false. intros [Hi Hne].
    apply Hb in Hi as ?. split; [|lia]. destruct (decide (i < t)); [|lia].
    rewrite Hlow in Hi by lia. done.
  - split.
    + constructor; [|done]. rewrite Hel, Hclear, bool_decide_eq_true_2 by done.
      by rewrite andb_false_r.
    + intros c. rewrite elem_of_cons, Hel, Hclear, andb_true_iff, negb_true_iff, bool_decide_eq_false.
      destruct (decide (c = t)) as [->|]; naive_solver.
Qed.

Lemma present_mask_bounds members :
  Forall (λ p, posting_chain_id p < 64) members → (0 ≤ present_mask members < 2 ^ 64)%Z.
Proof.
  intros Hm. unfold present_mask.
  assert (Hgen : ∀ mask, (0 ≤ mask < 2 ^ 64)%Z →
    (0 ≤ foldl (λ mask p, Z.lor mask (bit64 (posting_chain_id p))) mask members < 2 ^ 64)%Z); [|by apply Hgen].
  induction Hm as [|p members Hp Hm IH]; intros mask Hmask; [done|]. apply IH.
  assert (Hb : bit64 (posting_chain_id p) = (2 ^ Z.of_nat (posting_chain_id p))%Z)
    by (unfold bit64; rewrite Nat.mod_small, Z.shiftl_1_l by lia; done).
  assert (0 < 2 ^ Z.of_nat (posting_chain_id p) < 2 ^ 64)%Z
    by (split; [lia|apply Z.pow_lt_mono_r; lia]).
  rewrite Hb. split; [apply Z.lor_nonneg; lia|].
  assert (0 ≤ Z.lor mask (2 ^ Z.of_nat (posting_chain_id p)))%Z by (apply Z.lor_nonneg; lia).
  destruct (decide (Z.lor mask (2 ^ Z.of_nat (posting_chain_id p)) = 0)%Z) as [->|]; [done|].
  apply Z.log2_lt_pow2; [lia|]. rewrite Z.log2_lor by lia. apply Z.max_lub_lt.
  - destruct (decide (mask = 0)%Z) as [->|]; [done|]. apply Z.log2_lt_pow2; lia.
  - rewrite Z.log2_pow2 by lia. lia.
Qed.

(** The chains of a group, found by scanning the bits of its mask. *)
Lemma mask_chains_present members :
  Forall (λ p, posting_chain_id p < 64) members →
  NoDup (mask_chains 64 (present_mask members)) ∧
  ∀ c, c ∈ mask_chains 64 (present_mask members) ↔ c ∈ posting_chain_id <$> members.
Proof.
  intros Hm. destruct (mask_chains_spec 64 0 (present_mask members)) as [Hnd Hel];
    [lia|by apply present_mask_bounds| |].
  - intros i Hi. destruct (decide (i < 64)); [lia|]. exfalso.
    rewrite (Z.bits_above_log2 (present_mask members)) in Hi; [done| |];
      pose proof (present_mask_bounds members Hm); [lia|].
    destruct (decide (present_mask members = 0)%Z) as [->|]; [simpl; lia|].
    assert (Z.log2 (present_mask members) < 64)%Z by (apply Z.log2_lt_pow2; lia). lia.
  - split; [done|]. intros c. rewrite Hel. destruct (decide (c < 64)) as [Hc|Hc].
    + rewrite present_mask_testbit by done. apply bool_decide_eq_true.
    + split.
      * intros Hb. exfalso. rewrite (Z.bits_above_log2 (present_mask members)) in Hb; [done| |];
          pose proof (present_mask_bounds members Hm); [lia|].
        destruct (decide (present_mask members = 0)%Z) as [->|]; [simpl; lia|].
        assert (Z.log2 (present_mask members) < 64)%Z by (apply Z.log2_lt_pow2; lia). lia.
      * intros (p & -> & Hp)%list_elem_of_fmap. rewrite Forall_forall in Hm. by apply Hm in Hp.
Qed.

(** ** Sets of NFTs as bits *)

Lemma or_mask_ok masks n mask :
  n < length masks →
  ∃ masks', or_mask masks n mask = Some masks' ∧ length masks' = length masks ∧
  ∀ i c, nth i masks' 0%Z = (if decide (i = n) then Z.lor (nth i masks 0%Z) mask else nth i masks 0%Z) ∧
         (masks' !! i ≫= λ z, Some (Z.testbit z c)) = (masks !! i ≫= λ z, Some (Z.testbit (if decide (i = n) then Z.lor z mask else z) c)).
Proof.
  intros Hn. destruct (lookup_lt_is_Some_2 masks n Hn) as [old Hold].
  exists (<[n := Z.lor old mask]> masks). unfold or_mask. rewrite Hold. split; [done|].
  split; [by rewrite length_insert|]. intros i c. rewrite !nth_lookup.
  destruct (decide (i = n)) as [->|Hne].
  - rewrite list_lookup_insert_eq by done. by rewrite Hold.
  - rewrite list_lookup_insert_ne by done. by destruct (masks !! i).
Qed.

(** The bit [c] of the mask of [n]. *)
Definition mask_bit (masks : list Z) (n c : nat) : bool := Z.testbit (nth n masks 0%Z) (Z.of_nat c).

Lemma or_masks_ok entries masks :
  Forall (λ e : nat * Z, e.1 < length masks) entries →
  ∃ masks', foldM (λ masks '(n, mask), or_mask masks n mask) masks entries = Some masks' ∧
  length masks' = length masks ∧
  ∀ n c, mask_bit masks' n c = true ↔
    mask_bit masks n c = true ∨ ∃ mask, (n, mask) ∈ entries ∧ Z.testbit mask (Z.of_nat c) = true.
Proof.
  revert masks. induction entries as [|[i mask] entries IH]; intros masks He.
  { exists masks. split_and!; [done..|]. intros n c. split; [by left|].
    intros [|(m & Hm & _)]; [done|by apply elem_of_nil in Hm]. }
  apply Forall_cons in He as [Hi He]. simpl in Hi.
  destruct (or_mask_ok masks i mask Hi) as (masks1 & E & Hlen & Hbit). cbn [foldM]. rewrite E.
  cbn [mbind option_bind]. destruct (IH masks1) as (masks' & -> & Hlen' & Hb'); [by rewrite Hlen|].
  exists masks'. split_and!; [done|congruence|]. intros n c. rewrite Hb'. unfold mask_bit.
  destruct (Hbit n (Z.of_nat c)) as [-> _]. setoid_rewrite elem_of_cons. case_decide as Hn.
  - subst. rewrite Z.lor_spec, orb_true_iff. naive_solver.
  - naive_solver.
Qed.

Lemma dense_index N n : n < N → n / 64 < div_ceil N 64.
Proof.
  intros Hn. destruct (div_ceil_spec N 64) as [Hge _]; [lia|].
  apply Nat.Div0.div_lt_upper_bound. lia.
Qed.

Lemma dense_contains_bit s n : dense_contains s n = mask_bit (words s) (n / 64) (n mod 64).
Proof.
  unfold dense_contains, mask_bit. rewrite nth_lookup.
  assert (n mod 64 < 64) by (apply Nat.mod_upper_bound; lia).
  destruct (words s !! (n / 64)); simpl; [by apply land_bit64|by rewrite Z.bits_0].
Qed.

Lemma dense_inserts_as_masks s ids :
  foldM dense_insert s ids =
  Build_DenseNftSet <$> foldM (λ masks '(n, mask), or_mask masks n mask) (words s)
    (map (λ n, (n / 64, bit64 (n mod 64))) ids).
Proof.
  revert s. induction ids as [|n ids IH]; intros s; [by destruct s|].
  cbn [foldM map].
  change (dense_insert s n) with
    (words' ← or_mask (words s) (n / 64) (bit64 (n mod 64)); Some {| words := words' |}).
  destruct (or_mask (words s) (n / 64) (bit64 (n mod 64))) eqn:E; cbn [mbind option_bind].
  - by rewrite IH.
  - done.
Qed.

Lemma dense_inserts_ok N ids :
  Forall (λ n, n < N) ids →
  ∃ s, foldM dense_insert (DenseNftSet_with_capacity N) ids = Some s ∧
  ∀ n, dense_contains s n = bool_decide (n ∈ ids).
Proof.
  intros Hids. rewrite dense_inserts_as_masks.
  destruct (or_masks_ok (map (λ n, (n / 64, bit64 (n mod 64))) ids)
              (words (DenseNftSet_with_capacity N))) as (masks & -> & _ & Hb).
  { apply Forall_fmap. eapply Forall_impl; [exact Hids|]. intros n Hn. simpl.
    rewrite length_replicate. by apply dense_index. }
  eexists. split; [done|]. intros n. rewrite dense_contains_bit. cbn [words].
  apply eq_true_iff_eq. rewrite Hb, bool_decide_eq_true.
  assert (mask_bit (words (DenseNftSet_with_capacity N)) (n / 64) (n mod 64) = false) as ->.
  { unfold mask_bit. rewrite nth_lookup. unfold DenseNftSet_with_capacity. cbn [words].
    destruct (replicate _ 0%Z !! (n / 64)) as [z|] eqn:E; [|by rewrite Z.bits_0].
    apply lookup_replicate in E as [-> _]. by rewrite Z.bits_0. }
  assert (Hlt : ∀ m, m mod 64 < 64) by (intros m; apply Nat.mod_upper_bound; lia).
  split.
  - intros [|(mask & Hin & Hm)]; [done|]. apply list_elem_of_fmap in Hin as (m & E & Hm').
    apply pair_equal_spec in E as [Hdiv ->]. rewrite bit64_testbit in Hm by (done || lia).
    apply bool_decide_eq_true in Hm. rewrite Nat2Z.inj_iff in Hm.
    rewrite (Nat.div_mod_eq n 64), Hdiv, Hm, <- (Nat.div_mod_eq m 64). done.
  - intros Hin. right. exists (bit64 (n mod 64)). split.
    + apply list_elem_of_fmap. by exists n.
    + rewrite bit64_testbit by (done || lia). by apply bool_decide_eq_true.
Qed.

(** The chain pairs recorded by a worker. *)
Definition worker_matrix_has (m : MatrixWorkerHits) (n : NftId) (c : ChainId) : Prop :=
  match m with
  | CompactHits entries => Exists (λ e, e.1 = n ∧ Z.testbit e.2 (Z.of_nat c) = true) entries
  | WideHits entries => (n, c) ∈ entries
  end.

#[export] Instance worker_matrix_has_dec m n c : Decision (worker_matrix_has m n c).
Proof. destruct m; simpl; apply _. Defined.

(** The lists of a worker are in range and of the store's chain width. *)
Definition worker_in_range (N chain_count : nat) (w : TokenWorker) : Prop :=
  Forall (λ n, n < N) (intra w) ∧ Forall (λ n, n < N) (cross_summary w) ∧
  match matrix w with
  | CompactHits entries => chain_count ≤ 64 ∧ Forall (λ e, e.1 < N) entries
  | WideHits _ => 64 < chain_count
  end.

Lemma wide_inserts_ok (entries : list (NftId * ChainId)) (s : gset (NftId * ChainId)) :
  foldM (λ s '(n, c), matrix_insert s n c) (Wide s) entries = Some (Wide (list_to_set entries ∪ s)).
Proof.
  revert s. induction entries as [|[n c] entries IH]; intros s; simpl.
  - by rewrite union_empty_l_L.
  - rewrite IH. do 2 f_equal. set_solver.
Qed.

Lemma collect_hits_ok N chain_count w :
  worker_in_range N chain_count w →
  ∃ hits, collect_hits N chain_count w = Some hits ∧
    (∀ n, dense_contains (hits_intra hits) n = bool_decide (n ∈ intra w)) ∧
    (∀ n, dense_contains (hits_cross_summary hits) n = bool_decide (n ∈ cross_summary w)) ∧
    (∀ n c, n < N → c < chain_count →
       matrix_contains (hits_matrix hits) n c = Some (bool_decide (worker_matrix_has (matrix w) n c))).
Proof.
  intros (Hi & Hx & Hm). unfold collect_hits. cbv zeta. cbn [TokenHits_new hits_intra hits_cross_summary hits_matrix].
  destruct (dense_inserts_ok N (intra w) Hi) as (si & -> & Hsi).
  destruct (dense_inserts_ok N (cross_summary w) Hx) as (sx & E & Hsx). cbn [mbind option_bind].
  rewrite E. cbn [mbind option_bind]. unfold MatrixNftSet_new, u64_BITS in *.
  destruct (matrix w) as [entries|entries].
  - destruct Hm as [Hc He]. rewrite decide_True by done.
    destruct (or_masks_ok entries (replicate N 0%Z)) as (masks & -> & Hlen & Hb).
    { by rewrite length_replicate. }
    simpl. eexists. split; [done|]. split_and!; [done..|]. intros n c Hn Hcc.
    rewrite length_replicate in Hlen. destruct (lookup_lt_is_Some_2 masks n) as [z Hz]; [lia|].
    simpl. rewrite Hz. simpl. f_equal. rewrite land_bit64 by lia. apply eq_true_iff_eq.
    rewrite bool_decide_eq_true, Exists_exists. specialize (Hb n c). unfold mask_bit in Hb.
    rewrite !nth_lookup, Hz, (lookup_replicate_2 N _ n) in Hb by done. simpl in Hb.
    rewrite Hb, Z.bits_0. split.
    + intros [|(mask & Hin & Hbit)]; [done|]. by exists (n, mask).
    + intros ([m mask] & Hin & Heq & Hbit). simpl in *. subst. right. eauto.
  - rewrite decide_False by lia. rewrite wide_inserts_ok. simpl.
    eexists. split; [done|]. split_and!; [done..|]. intros n c _ _. simpl. f_equal.
    apply bool_decide_ext. set_solver.
Qed.

(** ** What a token worker stands for *)

Definition scope_key (dim : Dimension) (k : ScopeKind) (c : ChainId) (s : option ChainId) : ScopeKey :=
  {| kind := k; primary_chain := c; secondary_chain := s; dimension := dim |}.

(** The postings counted in each scope. *)
Abbreviation trace := (ScopeKey → list UriPosting) (only parsing).

Definition token_item (p : UriPosting) : ContractId * Z := (posting_contract_id p, posting_nft_count p).

(** The NFT is part of a posting counted in a scope of this kind. *)
Definition counted (T : trace) (k : ScopeKind) (s : option ChainId) (n : NftId) : Prop :=
  ∃ c p, p ∈ T (scope_key TokenUri k c s) ∧ n ∈ nft_ids p.

Record worker_rep (N C : nat) (w : TokenWorker) (T : trace) : Prop := {
  rep_uri : local_ok (uri w) (λ key, token_item <$> T key);
  rep_intra n : n ∈ intra w ↔ counted T IntraChain None n;
  rep_cross n : n ∈ cross_summary w ↔ counted T CrossChainSummary None n;
  rep_matrix n c : c < C → worker_matrix_has (matrix w) n c ↔ counted T ChainMatrix (Some c) n;
  rep_range : worker_in_range N C w;
}.

(** The posting is counted in the scope [key]. *)
Definition trace_at (T : trace) (key : ScopeKey) (p : UriPosting) : trace :=
  λ key', if decide (key = key') then T key' ++ [p] else T key'.

Lemma counted_at T key p k s n :
  counted (trace_at T key p) k s n ↔
  counted T k s n ∨ (kind key = k ∧ secondary_chain key = s ∧ dimension key = TokenUri ∧ n ∈ nft_ids p).
Proof.
  unfold counted, trace_at. split.
  - intros (c & q & Hq & Hn). case_decide as Hk; [|by left; eauto].
    apply elem_of_app in Hq as [Hq|Hq%list_elem_of_singleton]; [by left; eauto|]. subst. by right.
  - intros [(c & q & Hq & Hn)|(Hk & Hs & Hd & Hn)].
    + exists c, q. split; [|done]. case_decide; set_solver.
    + exists (primary_chain key), p. split; [|done].
      rewrite decide_True; [set_solver|]. destruct key; simpl in *; subst; done.
Qed.

Lemma worker_rep_ext N C w T T' : worker_rep N C w T → (∀ key, T key = T' key) → worker_rep N C w T'.
Proof.
  intros [Hu Hi Hx Hm Hr] HT.
  assert (Hc : ∀ k s n, counted T k s n ↔ counted T' k s n).
  { intros k s n. unfold counted. by setoid_rewrite HT. }
  split; [|intros; rewrite <- Hc; by auto..|done].
  eapply local_ok_ext; [exact Hu|]. intros key. simpl. by rewrite HT.
Qed.

Lemma worker_rep_new N C : worker_rep N C (TokenWorker_new C) (λ _, []).
Proof.
  assert (Hno : ∀ k s n, ¬ counted (λ _, []) k s n) by (intros k s n (c & p & []%elem_of_nil & _)).
  split; simpl.
  - apply local_ok_empty.
  - intros n. split; [by intros ?%elem_of_nil|by intros ?%Hno].
  - intros n. split; [by intros ?%elem_of_nil|by intros ?%Hno].
  - intros n c _. split; [|by intros ?%Hno]. unfold u64_BITS.
    case_decide; simpl; [by intros ?%Exists_nil|by intros ?%elem_of_nil].
  - split_and!; [constructor|constructor|]. simpl. unfold u64_BITS. case_decide; [by split|lia].
Qed.

Section TokenSteps.
Context (N C : nat).
Implicit Types (w : TokenWorker) (T : trace) (p : UriPosting).

Definition posting_ok p : Prop := posting_chain_id p < C ∧ Forall (λ n, n < N) (nft_ids p).

Lemma trace_at_items T key p :
  ∀ key', token_item <$> trace_at T key p key' =
          extend_at (λ key, token_item <$> T key) key [token_item p] key'.
Proof. intros key'. unfold trace_at, extend_at. case_decide; [by rewrite fmap_app|done]. Qed.

Lemma posting_nft_count_nonneg p : (0 ≤ posting_nft_count p)%Z.
Proof. unfold posting_nft_count. lia. Qed.

Lemma add_intra_rep w T p :
  worker_rep N C w T → posting_ok p →
  worker_rep N C (add_intra w p) (trace_at T (scope_key TokenUri IntraChain (posting_chain_id p) None) p).
Proof.
  intros [Hu Hi Hx Hm (Hri & Hrx & Hrm)] [_ Hp]. split; simpl.
  - eapply local_ok_ext; [|intros key; symmetry; apply trace_at_items].
    apply local_add_ok; [done|apply posting_nft_count_nonneg].
  - intros n. rewrite elem_of_app, Hi, counted_at. simpl. naive_solver.
  - intros n. rewrite Hx, counted_at. simpl. naive_solver.
  - intros n c Hc. rewrite Hm, counted_at by done. simpl. naive_solver.
  - split_and!; [by apply Forall_app_2|done|done].
Qed.

Lemma add_cross_rep w T p :
  worker_rep N C w T → posting_ok p →
  worker_rep N C (add_cross_summary w p)
    (trace_at T (scope_key TokenUri CrossChainSummary (posting_chain_id p) None) p).
Proof.
  intros [Hu Hi Hx Hm (Hri & Hrx & Hrm)] [_ Hp]. split; simpl.
  - eapply local_ok_ext; [|intros key; symmetry; apply trace_at_items].
    apply local_add_ok; [done|apply posting_nft_count_nonneg].
  - intros n. rewrite Hi, counted_at. simpl. naive_solver.
  - intros n. rewrite elem_of_app, Hx, counted_at. simpl. naive_solver.
  - intros n c Hc. rewrite Hm, counted_at by done. simpl. naive_solver.
  - split_and!; [done|by apply Forall_app_2|done].
Qed.

Lemma peer_mask_testbit p cs c :
  Forall (λ c, c < 64) cs →
  Z.testbit (peer_mask p cs) (Z.of_nat c) = bool_decide (c ∈ other_chains p cs).
Proof.
  intros Hcs. unfold peer_mask, other_chains.
  assert (Hgen : ∀ mask, Z.testbit (foldl (λ mask chain, if decide (chain = posting_chain_id p) then mask
      else Z.lor mask (bit64 chain)) mask cs) (Z.of_nat c)
    = Z.testbit mask (Z.of_nat c) || bool_decide (c ∈ filter (λ s, s ≠ posting_chain_id p) cs)).
  { induction Hcs as [|x cs Hx Hcs IH]; intros mask.
    - cbn [foldl]. rewrite filter_nil, bool_decide_eq_false_2 by apply not_elem_of_nil.
      by rewrite orb_false_r.
    - cbn [foldl]. rewrite IH, filter_cons.
      destruct (decide (x = posting_chain_id p)) as [->|Hne]; [by rewrite decide_False by tauto|].
      rewrite decide_True by done. rewrite Z.lor_spec, bit64_testbit, <- orb_assoc by lia. f_equal.
      apply eq_true_iff_eq. rewrite orb_true_iff, !bool_decide_eq_true, elem_of_cons, Nat2Z.inj_iff. done. }
  rewrite Hgen. by rewrite Z.bits_0.
Qed.

(** [add_matrix] counts the posting once per other chain. *)
Definition trace_matrix T p (cs : list ChainId) : trace :=
  foldl (λ T c, trace_at T (scope_key TokenUri ChainMatrix (posting_chain_id p) (Some c)) p) T
    (other_chains p cs).

Lemma counted_matrix T p cs k s n :
  counted (trace_matrix T p cs) k s n ↔
  counted T k s n ∨
  (k = ChainMatrix ∧ ∃ c, s = Some c ∧ c ∈ other_chains p cs ∧ n ∈ nft_ids p).
Proof.
  unfold trace_matrix. generalize (other_chains p cs) as l. intros l. revert T.
  induction l as [|c l IH]; intros T; simpl.
  - split; [by left|]. intros [|(_ & c & _ & []%elem_of_nil & _)]; done.
  - rewrite IH, counted_at. simpl. setoid_rewrite elem_of_cons. naive_solver.
Qed.

Lemma matrix_adds_ok acc T p l :
  local_ok acc (λ key, token_item <$> T key) →
  local_ok
    (foldl (λ acc c, local_add acc p (posting_nft_count p) TokenUri ChainMatrix (Some c)) acc l)
    (λ key, token_item <$> foldl (λ T c,
       trace_at T (scope_key TokenUri ChainMatrix (posting_chain_id p) (Some c)) p) T l key).
Proof.
  revert acc T. induction l as [|c l IH]; intros acc T Hok; simpl; [done|]. apply IH.
  eapply local_ok_ext; [|intros key; symmetry; apply trace_at_items].
  apply local_add_ok; [done|apply posting_nft_count_nonneg].
Qed.

Lemma add_matrix_rep w T p cs :
  worker_rep N C w T → posting_ok p → Forall (λ c, c < C) cs →
  worker_rep N C (add_matrix w p cs) (trace_matrix T p cs).
Proof.
  intros [Hu Hi Hx Hm (Hri & Hrx & Hrm)] [_ Hp] Hcs. split; simpl.
  - by apply matrix_adds_ok.
  - intros n. rewrite Hi, counted_matrix. naive_solver.
  - intros n. rewrite Hx, counted_matrix. naive_solver.
  - intros n c Hc. rewrite counted_matrix, <- Hm by done. clear Hm.
    destruct (matrix w) as [entries|entries]; simpl.
    + destruct Hrm as [HC _]. rewrite Exists_app. apply or_iff_compat_l. rewrite Exists_exists.
      assert (H64 : Forall (λ c, c < 64) cs) by (eapply Forall_impl; [exact Hcs|simpl; lia]). split.
      * intros ([m mask] & (m' & [= -> ->] & Hin)%list_elem_of_fmap & Heq & Hb). simpl in *. subst.
        rewrite peer_mask_testbit in Hb by done. apply bool_decide_eq_true in Hb. naive_solver.
      * intros (_ & c' & [= <-] & Hc' & Hn). exists (n, peer_mask p cs).
        split; [apply list_elem_of_fmap; by exists n|]. split; [done|].
        simpl. rewrite peer_mask_testbit by done. by apply bool_decide_eq_true.
    + rewrite elem_of_app. apply or_iff_compat_l. rewrite list_elem_of_bind. split.
      * intros (c' & (n' & [= -> ->] & Hn)%list_elem_of_fmap & Hc'). naive_solver.
      * intros (_ & c' & [= <-] & Hc' & Hn). exists c. split; [|done]. apply list_elem_of_fmap. by exists n.
  - split_and!; [done|done|]. simpl. destruct (matrix w) as [entries|entries]; [|done].
    destruct Hrm as [HC He]. split; [done|]. apply Forall_app_2; [done|].
    apply Forall_fmap. eapply Forall_impl; [exact Hp|done].
Qed.

Lemma TokenWorker_merge_rep w1 w2 T1 T2 :
  worker_rep N C w1 T1 → worker_rep N C w2 T2 →
  ∃ w, TokenWorker_merge w1 w2 = Some w ∧ worker_rep N C w (λ key, T1 key ++ T2 key).
Proof.
  intros [Hu1 Hi1 Hx1 Hm1 (Hri1 & Hrx1 & Hrm1)] [Hu2 Hi2 Hx2 Hm2 (Hri2 & Hrx2 & Hrm2)].
  assert (Hc : ∀ k s n, counted (λ key, T1 key ++ T2 key) k s n ↔ counted T1 k s n ∨ counted T2 k s n).
  { intros k s n. unfold counted. setoid_rewrite elem_of_app. naive_solver. }
  assert (Hu : local_ok (local_merge (uri w1) (uri w2)) (λ key, token_item <$> (T1 key ++ T2 key))).
  { eapply local_ok_ext; [by apply local_merge_ok|]. intros key. simpl. by rewrite fmap_app. }
  unfold TokenWorker_merge. destruct (matrix w1) as [e1|e1] eqn:E1, (matrix w2) as [e2|e2] eqn:E2;
    try lia; cbn [mbind option_bind]; (eexists; split; [done|]); split; simpl; try done.
  - intros n. by rewrite elem_of_app, Hc, Hi1, Hi2.
  - intros n. by rewrite elem_of_app, Hc, Hx1, Hx2.
  - intros n c Hcc. rewrite Exists_app, Hc, <- Hm1, <- Hm2 by done. done.
  - split_and!; [by apply Forall_app_2..|]. simpl. destruct Hrm1, Hrm2. split; [done|by apply Forall_app_2].
  - intros n. by rewrite elem_of_app, Hc, Hi1, Hi2.
  - intros n. by rewrite elem_of_app, Hc, Hx1, Hx2.
  - intros n c Hcc. rewrite elem_of_app, Hc, <- Hm1, <- Hm2 by done. done.
  - split_and!; [by apply Forall_app_2..|done].
Qed.
End TokenSteps.

(** ** Groups and the scopes they span *)

Definition chain_postings (c : ChainId) (g : list UriPosting) : list UriPosting :=
  filter (λ p, posting_chain_id p = c) g.

(** The posting [p] of the group [g] counts in the token URI scope [key]. *)
Definition token_scope (g : list UriPosting) (key : ScopeKey) (p : UriPosting) : Prop :=
  posting_chain_id p = primary_chain key ∧ dimension key = TokenUri ∧
  match kind key, secondary_chain key with
  | IntraChain, None => 2 ≤ length (chain_postings (primary_chain key) g)
  | CrossChainSummary, None => Exists (λ q, posting_chain_id q ≠ primary_chain key) g
  | ChainMatrix, Some c => c ≠ primary_chain key ∧ Exists (λ q, posting_chain_id q = c) g
  | _, _ => False
  end.

#[export] Instance token_scope_dec g key p : Decision (token_scope g key p).
Proof.
  unfold token_scope. apply and_dec; [apply _|]. apply and_dec; [apply _|].
  destruct (kind key), (secondary_chain key); apply _.
Defined.

Definition token_trace (g : list UriPosting) (key : ScopeKey) : list UriPosting :=
  filter (token_scope g key) g.

Lemma elem_of_chain_postings c g p : p ∈ chain_postings c g ↔ posting_chain_id p = c ∧ p ∈ g.
Proof. unfold chain_postings. by rewrite list_elem_of_filter. Qed.

Lemma chain_postings_snoc c g p :
  chain_postings c (g ++ [p]) =
  if decide (posting_chain_id p = c) then chain_postings c g ++ [p] else chain_postings c g.
Proof.
  unfold chain_postings. rewrite filter_app, filter_cons, filter_nil.
  case_decide; by rewrite ?app_nil_r.
Qed.

Lemma postings_by_chain_snoc g p :
  postings_by_chain (g ++ [p]) =
  <[posting_chain_id p := default [] (postings_by_chain g !! posting_chain_id p) ++ [p]]>
    (postings_by_chain g).
Proof. unfold postings_by_chain. by rewrite foldl_app. Qed.

Lemma postings_by_chain_lookup g c :
  postings_by_chain g !! c =
  match chain_postings c g with [] => None | ps => Some ps end.
Proof.
  induction g as [|p g IH] using rev_ind; [done|].
  rewrite postings_by_chain_snoc, chain_postings_snoc, lookup_insert.
  case_decide as Hc; [|done]. subst. rewrite IH.
  destruct (chain_postings (posting_chain_id p) g) as [|q ps]; done.
Qed.

Lemma elem_of_by_chain g c ps :
  (c, ps) ∈ map_to_list (postings_by_chain g) ↔ ps = chain_postings c g ∧ ps ≠ [].
Proof.
  rewrite elem_of_map_to_list, postings_by_chain_lookup. destruct (chain_postings c g); naive_solver.
Qed.

Lemma elem_of_by_chain_fst g c :
  c ∈ (map_to_list (postings_by_chain g)).*1 ↔ c ∈ posting_chain_id <$> g.
Proof.
  rewrite !list_elem_of_fmap. split.
  - intros ([c' ps] & -> & Hin%elem_of_by_chain). destruct Hin as [-> Hne]. simpl in *.
    destruct (chain_postings c' g) as [|q l] eqn:E; [done|]. exists q.
    assert (q ∈ chain_postings c' g) as [-> ?]%elem_of_chain_postings by (rewrite E; set_solver). done.
  - intros (p & -> & Hp). exists (posting_chain_id p, chain_postings (posting_chain_id p) g).
    split; [done|]. apply elem_of_by_chain. split; [done|]. intros E.
    assert (Hin : p ∈ chain_postings (posting_chain_id p) g) by (by apply elem_of_chain_postings).
    rewrite E in Hin. by apply elem_of_nil in Hin.
Qed.

Lemma count_postings_ok g :
  Forall (λ p, posting_chain_id p < 64) g →
  ∃ counts, count_postings g = Some counts ∧ length counts = 64 ∧
  ∀ c, c < 64 → counts !! c = Some (length (chain_postings c g)).
Proof.
  unfold count_postings. induction g as [|p g IH] using rev_ind; intros Hg.
  - eexists. split; [done|]. split; [done|]. intros c Hc. by apply lookup_replicate_2.
  - apply Forall_app in Hg as [Hg Hp]. apply Forall_cons in Hp as [Hp _]. destruct (IH Hg) as (counts & E & Hlen & Hc).
    rewrite foldl_app, E. cbn [foldl mbind option_bind]. rewrite (Hc _ Hp). cbn [mbind option_bind].
    eexists. split; [done|]. split; [by rewrite length_insert|]. intros c Hcc.
    rewrite chain_postings_snoc, list_lookup_insert. repeat case_decide; subst; try naive_solver lia.
    rewrite length_app. simpl. f_equal. lia.
Qed.

(** At least two chains are present. *)
Lemma two_chains (chains : list ChainId) g p :
  NoDup chains → (∀ c, c ∈ chains ↔ c ∈ posting_chain_id <$> g) → p ∈ g →
  2 ≤ length chains ↔ Exists (λ q, posting_chain_id q ≠ posting_chain_id p) g.
Proof.
  intros Hnd Hch Hp. rewrite Exists_exists.
  assert (Hin : posting_chain_id p ∈ chains) by (apply Hch, list_elem_of_fmap; eauto). split.
  - intros H2. destruct chains as [|a [|b l]]; simpl in H2; try lia.
    apply NoDup_cons in Hnd as [Hab Hnd].
    destruct (decide (a = posting_chain_id p)) as [->|Ha].
    + assert (Hb : b ∈ posting_chain_id <$> g) by (apply Hch; set_solver).
      apply list_elem_of_fmap in Hb as (q & -> & Hq). exists q. set_solver.
    + assert (Hb : a ∈ posting_chain_id <$> g) by (apply Hch; set_solver).
      apply list_elem_of_fmap in Hb as (q & -> & Hq). eauto.
  - intros (q & Hq & Hne). assert (Hqin : posting_chain_id q ∈ chains) by (apply Hch, list_elem_of_fmap; eauto).
    destruct chains as [|a [|b l]]; simpl; [by apply elem_of_nil in Hin| |lia].
    apply list_elem_of_singleton in Hin, Hqin. congruence.
Qed.

Lemma elem_of_other_chains p cs c : c ∈ other_chains p cs ↔ c ∈ cs ∧ c ≠ posting_chain_id p.
Proof. unfold other_chains. rewrite list_elem_of_filter. tauto. Qed.

(** The scope [key] is a matrix scope of the posting towards one of the chains. *)
Definition matrix_applies (p : UriPosting) (l : list ChainId) (key : ScopeKey) : Prop :=
  posting_chain_id p = primary_chain key ∧ dimension key = TokenUri ∧
  match kind key, secondary_chain key with ChainMatrix, Some c => c ∈ l | _, _ => False end.

#[export] Instance matrix_applies_dec p l key : Decision (matrix_applies p l key).
Proof.
  unfold matrix_applies. apply and_dec; [apply _|]. apply and_dec; [apply _|].
  destruct (kind key), (secondary_chain key); apply _.
Defined.

Lemma trace_matrix_at T p cs key :
  NoDup cs →
  trace_matrix T p cs key =
  if decide (matrix_applies p (other_chains p cs) key) then T key ++ [p] else T key.
Proof.
  intros Hnd. unfold trace_matrix.
  assert (Hl : NoDup (other_chains p cs)) by (by apply NoDup_filter).
  revert Hl. generalize (other_chains p cs) as l. clear Hnd. intros l. revert T.
  induction l as [|c l IH]; intros T Hl; cbn [foldl].
  - rewrite decide_False; [done|]. intros (_ & _ & Hk).
    destruct (kind key), (secondary_chain key); try done. by apply elem_of_nil in Hk.
  - apply NoDup_cons in Hl as [Hc Hl]. rewrite IH by done. unfold trace_at.
    destruct (decide (scope_key TokenUri ChainMatrix (posting_chain_id p) (Some c) = key)) as [<-|Hne].
    + rewrite decide_False by (by intros (_ & _ & ?)).
      rewrite decide_True; [done|]. split_and!; [done|done|]. simpl. set_solver.
    + apply decide_ext. unfold matrix_applies. destruct key as [[] c1 [c2|] d]; simpl in *; try naive_solver.
      rewrite elem_of_cons. split; [naive_solver|]. intros (H1 & H2 & [H3|?]); [|done].
      exfalso. apply Hne. unfold scope_key. by rewrite H1, H2, H3.
Qed.

(** The steps for one posting of the compact loop count it where it belongs. *)
Definition trace_posting (T : trace) (g : list UriPosting) (cs : list ChainId) (p : UriPosting) : trace :=
  let T1 := if decide (2 ≤ length (chain_postings (posting_chain_id p) g))
            then trace_at T (scope_key TokenUri IntraChain (posting_chain_id p) None) p else T in
  if decide (2 ≤ length cs)
  then trace_matrix (trace_at T1 (scope_key TokenUri CrossChainSummary (posting_chain_id p) None) p) p cs
  else T1.

Lemma trace_at_key T key0 p key :
  trace_at T key0 p key = T key ++ (if decide (key0 = key) then [p] else []).
Proof. unfold trace_at. case_decide; by rewrite ?app_nil_r. Qed.

Lemma trace_matrix_key T p cs key :
  NoDup cs →
  trace_matrix T p cs key =
  T key ++ (if decide (matrix_applies p (other_chains p cs) key) then [p] else []).
Proof. intros Hnd. rewrite trace_matrix_at by done. case_decide; by rewrite ?app_nil_r. Qed.

Lemma scope_key_eq dim k c s key :
  scope_key dim k c s = key ↔
  kind key = k ∧ primary_chain key = c ∧ secondary_chain key = s ∧ dimension key = dim.
Proof. destruct key; unfold scope_key; simpl. naive_solver. Qed.

Lemma exclusive_append {A} (P Q R S : Prop) `{!Decision P, !Decision Q, !Decision R, !Decision S} (l : list A) :
  (P ↔ Q ∨ R ∨ S) → ¬ (Q ∧ R) → ¬ (Q ∧ S) → ¬ (R ∧ S) →
  (if decide Q then l else []) ++ (if decide R then l else []) ++ (if decide S then l else []) =
  if decide P then l else [].
Proof. intros. repeat case_decide; rewrite ?app_nil_r; try done; tauto. Qed.

Section GroupChains.
Context (g : list UriPosting) (cs : list ChainId) (Hnd : NoDup cs).
Context (Hcs : ∀ c, c ∈ cs ↔ c ∈ posting_chain_id <$> g).

Lemma present_chain c : c ∈ cs ↔ Exists (λ q, posting_chain_id q = c) g.
Proof. rewrite Hcs, list_elem_of_fmap, Exists_exists. naive_solver. Qed.

(** A posting counts in an intra-chain, a cross-chain or a matrix scope. *)
Lemma token_scope_append {A} (l : list A) p key :
  p ∈ g →
  (if decide (2 ≤ length (chain_postings (posting_chain_id p) g) ∧
              scope_key TokenUri IntraChain (posting_chain_id p) None = key) then l else []) ++
  (if decide (2 ≤ length cs ∧ scope_key TokenUri CrossChainSummary (posting_chain_id p) None = key)
   then l else []) ++
  (if decide (2 ≤ length cs ∧ matrix_applies p (other_chains p cs) key) then l else [])
  = if decide (token_scope g key p) then l else [].
Proof using All.
  intros Hp. pose proof (two_chains cs g p Hnd Hcs Hp) as H2.
  pose proof (λ c, present_chain c) as Hpr. apply exclusive_append.
  - rewrite !scope_key_eq. unfold token_scope, matrix_applies.
    destruct (decide (posting_chain_id p = primary_chain key)) as [Hc|]; [|clear -n; intuition congruence].
    rewrite <- Hc. destruct (kind key), (secondary_chain key) as [s|];
      rewrite ?elem_of_other_chains, ?Hpr; clear -H2 Hc; try solve [intuition discriminate].
    split; [|intuition discriminate]. intros (_ & Hd & Hne & Hex). right; right. split_and!; try done.
    apply H2. apply Exists_exists in Hex as (q & Hq & Hqc). apply Exists_exists. exists q.
    split; [done|]. congruence.
  - intros [[_ <-] [_ ?]]. done.
  - intros [[_ <-] [_ (_ & _ & ?)]]. done.
  - intros [[_ <-] [_ (_ & _ & ?)]]. done.
Qed.

Lemma trace_posting_spec T p key :
  p ∈ g →
  trace_posting T g cs p key = T key ++ (if decide (token_scope g key p) then [p] else []).
Proof using All.
  intros Hp. rewrite <- (token_scope_append [p] p key Hp). unfold trace_posting. cbv zeta.
  repeat case_decide; rewrite ?trace_matrix_key, ?trace_at_key by done;
    repeat case_decide; rewrite ?app_nil_r, <- ?app_assoc; tauto || done.
Qed.

(** The postings of one chain count in the same scopes. *)
Lemma token_trace_chain c p key :
  p ∈ chain_postings c g →
  (if decide (token_scope g key p) then chain_postings c g else []) =
  if decide (c = primary_chain key) then token_trace g key else [].
Proof.
  clear Hnd Hcs. clear cs. intros [Hc Hp]%elem_of_chain_postings. case_decide as Hs; case_decide as Hk; try done.
  - unfold token_trace, chain_postings. apply list_filter_iff. intros q. unfold token_scope in *.
    destruct Hs as (_ & Hd & Hm). rewrite Hk. tauto.
  - exfalso. apply Hk. destruct Hs as [Hs _]. congruence.
  - symmetry. apply filter_none. intros q Hq Hqs. apply Hs. unfold token_scope in *. naive_solver.
Qed.
End GroupChains.

(** ** Token URI groups count the scopes they span *)

Section TokenGroup.
Context (N C : nat) (g : list UriPosting) (Hg : Forall (posting_ok N C) g).

Lemma group_chain_lt (cs : list ChainId) :
  (∀ c, c ∈ cs ↔ c ∈ posting_chain_id <$> g) → Forall (λ c, c < C) cs.
Proof.
  intros Hcs. apply Forall_forall. intros c Hc%Hcs. apply list_elem_of_fmap in Hc as (p & -> & Hp).
  rewrite Forall_forall in Hg. by destruct (Hg p Hp).
Qed.

Lemma group_posting_ok p : p ∈ g → posting_ok N C p.
Proof. rewrite Forall_forall in Hg. auto. Qed.

Lemma token_compact_loop_ok (counts : list nat) (cs : list ChainId) l w T :
  (∀ c, c < C → counts !! c = Some (length (chain_postings c g))) →
  NoDup cs → (∀ c, c ∈ cs ↔ c ∈ posting_chain_id <$> g) →
  (∀ p, p ∈ l → p ∈ g) → worker_rep N C w T →
  ∃ w', foldl (λ acc p,
    w ← acc;
    count ← counts !! posting_chain_id p;
    let w := if decide (2 ≤ count) then add_intra w p else w in
    Some (if decide (2 ≤ length cs) then add_matrix (add_cross_summary w p) p cs else w))
    (Some w) l = Some w' ∧
    worker_rep N C w' (λ key, T key ++ filter (token_scope g key) l).
Proof.
  intros Hcounts Hnd Hcs. revert w T. induction l as [|p l IH]; intros w T Hsub Hw.
  { exists w. split; [done|]. eapply worker_rep_ext; [exact Hw|]. intros key. by rewrite filter_nil, app_nil_r. }
  cbn [foldl mbind option_bind]. assert (Hp : p ∈ g) by (apply Hsub; set_solver).
  destruct (group_posting_ok p Hp) as [HpC _]. rewrite (Hcounts _ HpC). cbn [mbind option_bind]. cbv zeta.
  set (w1 := if decide (2 ≤ length cs) then _ else _).
  assert (Hw1 : worker_rep N C w1 (trace_posting T g cs p)).
  { unfold w1, trace_posting. cbv zeta. pose proof (group_posting_ok p Hp) as Hpo.
    pose proof (group_chain_lt cs Hcs). repeat case_decide;
      auto using add_intra_rep, add_cross_rep, add_matrix_rep. }
  destruct (IH w1 (trace_posting T g cs p)) as (w' & E & Hw');
    [intros; apply Hsub; set_solver|exact Hw1|].
  exists w'. split; [exact E|]. eapply worker_rep_ext; [exact Hw'|]. intros key. simpl.
  rewrite (trace_posting_spec g cs Hnd Hcs) by done. rewrite <- app_assoc, filter_cons.
  destruct (decide (token_scope g key p)); done.
Qed.

Lemma accumulate_token_compact_ok w T :
  C ≤ 64 → worker_rep N C w T →
  ∃ w', accumulate_token_compact w g = Some w' ∧ worker_rep N C w' (λ key, T key ++ token_trace g key).
Proof.
  intros HC Hw. assert (H64 : Forall (λ p, posting_chain_id p < 64) g)
    by (eapply Forall_impl; [exact Hg|]; intros p [Hp _]; lia).
  destruct (count_postings_ok g H64) as (counts & E & Hlen & Hcounts).
  destruct (mask_chains_present g H64) as [Hnd Hcs].
  unfold accumulate_token_compact. rewrite E. cbn [mbind option_bind].
  apply token_compact_loop_ok; try done. intros c Hc. apply Hcounts. lia.
Qed.

(** One of the loops of the wide path over the postings of a chain. *)
Lemma foldl_rep (step : TokenWorker → UriPosting → TokenWorker) (P : ScopeKey → Prop)
    `{!∀ key, Decision (P key)} ps w T :
  (∀ w T p, p ∈ ps → worker_rep N C w T →
     worker_rep N C (step w p) (λ key, T key ++ if decide (P key) then [p] else [])) →
  worker_rep N C w T →
  worker_rep N C (foldl step w ps) (λ key, T key ++ if decide (P key) then ps else []).
Proof.
  intros Hstep. revert w T. induction ps as [|p ps IH]; intros w T Hw; simpl.
  - eapply worker_rep_ext; [exact Hw|]. intros key. case_decide; by rewrite app_nil_r.
  - eapply worker_rep_ext; [apply IH; [intros; apply Hstep; set_solver|]; apply Hstep; [set_solver|exact Hw]|].
    intros key. simpl. rewrite <- app_assoc. by case_decide.
Qed.

Lemma token_wide_chain_ok cs c w T :
  NoDup cs → (∀ c, c ∈ cs ↔ c ∈ posting_chain_id <$> g) → chain_postings c g ≠ [] →
  worker_rep N C w T →
  let postings := chain_postings c g in
  let w := if decide (2 ≤ length postings) then foldl add_intra w postings else w in
  let w := if decide (2 ≤ length cs) then foldl add_cross_summary w postings else w in
  let w := if decide (2 ≤ length cs) then foldl (λ w p, add_matrix w p cs) w postings else w in
  worker_rep N C w (λ key, T key ++ if decide (c = primary_chain key) then token_trace g key else []).
Proof.
  intros Hnd Hcs Hne Hw. cbv zeta. set (ps := chain_postings c g) in *.
  destruct ps as [|q ps'] eqn:Eps; [done|]. rewrite <- Eps. clear Hne.
  assert (Hps : ∀ p, p ∈ ps → posting_chain_id p = c ∧ posting_ok N C p).
  { intros p [? ?]%elem_of_chain_postings. split; [done|by apply group_posting_ok]. }
  assert (Hq : q ∈ ps) by (rewrite Eps; set_solver).
  destruct (Hps q Hq) as [Hqc _]. pose proof (group_chain_lt cs Hcs) as HC.
  assert (Hqg : q ∈ g) by (by apply elem_of_chain_postings in Hq as [_ ?]).
  apply (worker_rep_ext _ _ _ (λ key,
    ((T key ++ if decide (2 ≤ length ps ∧ scope_key TokenUri IntraChain c None = key) then ps else []) ++
     if decide (2 ≤ length cs ∧ scope_key TokenUri CrossChainSummary c None = key) then ps else []) ++
     if decide (2 ≤ length cs ∧ matrix_applies q (other_chains q cs) key) then ps else [])).
  2: { intros key. cbn beta. rewrite <- (token_trace_chain g c q key Hq). fold ps.
       rewrite <- (token_scope_append g cs Hnd Hcs ps q key Hqg), Hqc. fold ps. by rewrite <- !app_assoc. }
  assert (H1 : worker_rep N C (if decide (2 ≤ length ps) then foldl add_intra w ps else w)
    (λ key, T key ++ if decide (2 ≤ length ps ∧ scope_key TokenUri IntraChain c None = key) then ps else [])).
  { destruct (decide (2 ≤ length ps)) as [H2|H2].
    - apply (foldl_rep _ (λ key, 2 ≤ length ps ∧ scope_key TokenUri IntraChain c None = key)); [|done].
      intros w' T' p Hp Hw'. destruct (Hps p Hp) as [<- Hpo].
      eapply worker_rep_ext; [by apply add_intra_rep|]. intros key. rewrite trace_at_key. f_equal.
      apply decide_ext. tauto.
    - eapply worker_rep_ext; [done|]. intros key. rewrite decide_False by tauto. by rewrite app_nil_r. }
  set (w1 := if decide (2 ≤ length ps) then _ else _) in *.
  assert (H2 : worker_rep N C (if decide (2 ≤ length cs) then foldl add_cross_summary w1 ps else w1)
    (λ key, (T key ++ if decide (2 ≤ length ps ∧ scope_key TokenUri IntraChain c None = key) then ps else []) ++
            if decide (2 ≤ length cs ∧ scope_key TokenUri CrossChainSummary c None = key) then ps else [])).
  { destruct (decide (2 ≤ length cs)) as [H2|H2].
    - apply (foldl_rep _ (λ key, 2 ≤ length cs ∧ scope_key TokenUri CrossChainSummary c None = key)); [|done].
      intros w' T' p Hp Hw'. destruct (Hps p Hp) as [<- Hpo].
      eapply worker_rep_ext; [by apply add_cross_rep|]. intros key. rewrite trace_at_key. f_equal.
      apply decide_ext. tauto.
    - eapply worker_rep_ext; [done|]. intros key. simpl.
      rewrite (decide_False (P := 2 ≤ length cs ∧ _)) by tauto. by rewrite app_nil_r. }
  set (w2 := if decide (2 ≤ length cs) then foldl add_cross_summary _ _ else _) in *.
  destruct (decide (2 ≤ length cs)) as [H3|H3].
  - apply (foldl_rep _ (λ key, 2 ≤ length cs ∧ matrix_applies q (other_chains q cs) key)); [|done].
    intros w' T' p Hp Hw'. destruct (Hps p Hp) as [Hpc Hpo].
    eapply worker_rep_ext; [by apply add_matrix_rep|]. intros key. rewrite trace_matrix_key by done. f_equal.
    apply decide_ext. unfold matrix_applies, other_chains. rewrite Hpc, Hqc. tauto.
  - eapply worker_rep_ext; [done|]. intros key. simpl.
    rewrite (decide_False (P := 2 ≤ length cs ∧ matrix_applies _ _ _)) by tauto. by rewrite app_nil_r.
Qed.

Lemma token_wide_loop_ok cs (l : list (ChainId * list UriPosting)) w T :
  NoDup cs → (∀ c, c ∈ cs ↔ c ∈ posting_chain_id <$> g) → NoDup l.*1 →
  (∀ c ps, (c, ps) ∈ l → ps = chain_postings c g ∧ ps ≠ []) → worker_rep N C w T →
  worker_rep N C (foldl (λ w '(_, postings),
    let w := if decide (2 ≤ length postings) then foldl add_intra w postings else w in
    let w := if decide (2 ≤ length cs) then foldl add_cross_summary w postings else w in
    if decide (2 ≤ length cs) then foldl (λ w p, add_matrix w p cs) w postings else w) w l)
    (λ key, T key ++ if decide (primary_chain key ∈ l.*1) then token_trace g key else []).
Proof.
  intros Hnd Hcs. revert w T. induction l as [|[c ps] l IH]; intros w T Hl Hin Hw; cbn [foldl].
  { eapply worker_rep_ext; [exact Hw|]. intros key. by rewrite decide_False, app_nil_r by apply not_elem_of_nil. }
  apply NoDup_cons in Hl as [Hc Hl]. simpl in Hc. destruct (Hin c ps) as [-> Hne]; [set_solver|].
  eapply worker_rep_ext.
  - apply IH; [done|intros; apply Hin; set_solver|]. by apply token_wide_chain_ok.
  - intros key. cbn beta. rewrite <- app_assoc. f_equal. rewrite fmap_cons. cbn [fst].
    rewrite (decide_ext (primary_chain key ∈ c :: l.*1) (primary_chain key = c ∨ primary_chain key ∈ l.*1))
      by apply elem_of_cons.
    destruct (decide (c = primary_chain key)) as [->|Hne'].
    + rewrite decide_False by done. rewrite decide_True by (by left). by rewrite app_nil_r.
    + apply decide_ext. naive_solver.
Qed.

Lemma accumulate_token_wide_ok w T :
  worker_rep N C w T →
  worker_rep N C (accumulate_token_wide w g) (λ key, T key ++ token_trace g key).
Proof.
  intros Hw. eapply worker_rep_ext; [apply token_wide_loop_ok|].
  - apply NoDup_fst_map_to_list.
  - apply elem_of_by_chain_fst.
  - apply NoDup_fst_map_to_list.
  - intros c ps. apply elem_of_by_chain.
  - exact Hw.
  - intros key. simpl. case_decide as Hk; [done|]. f_equal. symmetry. apply filter_none.
    intros p Hp (Hc & _). apply Hk, elem_of_by_chain_fst. rewrite <- Hc. apply list_elem_of_fmap. eauto.
Qed.

(** A URI group adds its postings to the scopes it spans, on both paths. *)
Lemma accumulate_token_ok w T :
  worker_rep N C w T →
  ∃ w', accumulate_token_scope_hits w g = Some w' ∧
        worker_rep N C w' (λ key, T key ++ token_trace g key).
Proof.
  intros Hw. unfold accumulate_token_scope_hits. case_decide as H2.
  - exists w. split; [done|]. eapply worker_rep_ext; [exact Hw|]. intros key. rewrite <- (app_nil_r (T key)) at 1.
    f_equal. symmetry. apply filter_none. intros p Hp (Hc & _ & Hs).
    destruct g as [|q [|? ?]]; simpl in H2; [by apply elem_of_nil in Hp| |lia].
    apply list_elem_of_singleton in Hp as ->. unfold chain_postings in Hs.
    destruct (kind key), (secondary_chain key); try done.
    + rewrite filter_cons, filter_nil in Hs. case_decide; simpl in Hs; lia.
    + by apply Exists_cons in Hs as [|?%Exists_nil].
    + destruct Hs as [Hs [Hs'|?%Exists_nil]%Exists_cons]; congruence.
  - destruct (rep_range _ _ _ _ Hw) as (_ & _ & Hm). destruct (matrix w) eqn:E.
    + destruct Hm as [HC _]. by apply accumulate_token_compact_ok.
    + eexists. split; [done|]. by apply accumulate_token_wide_ok.
Qed.
End TokenGroup.

(** ** Image URI groups *)

(** The number of NFTs of a posting that pass a test. *)
Definition rows (keep : NftId → bool) (p : UriPosting) : Z :=
  Z.of_nat (length (filter (λ n, keep n = true) (nft_ids p))).

(** The contributions of the postings of [c] with rows. *)
Definition chain_items (keep : NftId → bool) (c : ChainId) (g : list UriPosting) : contributions :=
  (λ p, (posting_contract_id p, rows keep p)) <$>
    filter (λ p, rows keep p ≠ 0%Z) (chain_postings c g).

Lemma chain_items_positive_any k c l : Forall (λ n, 0 < n)%Z (chain_items k c l).*2.
Proof.
  unfold chain_items. apply Forall_fmap, Forall_fmap, Forall_forall.
  intros p [Hp _]%list_elem_of_filter. simpl. unfold rows in *. lia.
Qed.

Section Emit.
Context (V : ScopeKey → contributions).

Definition emitted (ks : list ScopeKey) (F : ScopeKey → contributions) : ScopeKey → contributions :=
  λ key, F key ++ if decide (key ∈ ks) then V key else [].

(** Folding steps that emit the values of distinct keys. *)
Lemma foldM_emitted {A} (keysof : A → list ScopeKey)
    (step : LocalUriAccumulator → A → option LocalUriAccumulator) l out F :
  (∀ out F x, x ∈ l → local_ok out F →
     ∃ out', step out x = Some out' ∧ local_ok out' (emitted (keysof x) F)) →
  NoDup (l ≫= keysof) → local_ok out F →
  ∃ out', foldM step out l = Some out' ∧ local_ok out' (emitted (l ≫= keysof) F).
Proof.
  revert out F. induction l as [|x l IH]; intros out F Hstep Hnd Hok.
  - exists out. split; [done|]. eapply local_ok_ext; [exact Hok|]. intros key. unfold emitted.
    by rewrite decide_False, app_nil_r by apply not_elem_of_nil.
  - rewrite bind_cons in *. apply NoDup_app in Hnd as (_ & Hdisj & Hnd).
    destruct (Hstep out F x) as (out1 & E & Hok1); [set_solver|done|]. cbn [foldM]. rewrite E.
    cbn [mbind option_bind].
    destruct (IH out1 _ ltac:(intros; apply Hstep; [set_solver|done]) Hnd Hok1) as (out' & -> & Hok').
    exists out'. split; [done|]. eapply local_ok_ext; [exact Hok'|]. intros key. unfold emitted.
    rewrite <- app_assoc. f_equal.
    rewrite (decide_ext (key ∈ keysof x ++ (l ≫= keysof)) (key ∈ keysof x ∨ key ∈ l ≫= keysof))
      by apply elem_of_app.
    specialize (Hdisj key). repeat case_decide; rewrite ?app_nil_r; tauto || done.
Qed.

Lemma emitted_one key0 F items :
  V key0 = items → ∀ key, extend_at F key0 items key = emitted [key0] F key.
Proof.
  intros <- key. unfold extend_at, emitted.
  rewrite (decide_ext (key ∈ [key0]) (key0 = key)) by (rewrite list_elem_of_singleton; naive_solver).
  case_decide; subst; by rewrite ?app_nil_r.
Qed.
End Emit.

Lemma foldl_foldM_pure {A B} (f : B → A → B) (l : list A) (b : B) :
  Some (foldl f b l) = foldM (λ b x, Some (f b x)) b l.
Proof. revert b. induction l as [|x l IH]; intros b; [done|]. apply IH. Qed.

Section Counting.
Context (N C : nat).

Lemma count_nfts_ok keep k ids :
  (∀ n, n < N → keep n = Some (k n)) → Forall (λ n, n < N) ids →
  count_nfts keep ids = Some (Z.of_nat (length (filter (λ n, k n = true) ids))).
Proof.
  intros Hk. induction 1 as [|n ids Hn _ IH]; [done|]. cbn [count_nfts].
  rewrite (Hk n Hn). cbn [mbind option_bind]. rewrite IH. cbn [mbind option_bind].
  rewrite filter_cons. destruct (k n); simpl; f_equal; lia.
Qed.

Lemma posting_rows_ok keep k p :
  (∀ n, n < N → keep n = Some (k n)) → posting_ok N C p → count_nfts keep (nft_ids p) = Some (rows k p).
Proof. intros Hk [_ Hp]. by apply count_nfts_ok. Qed.

Lemma filtered_posting_counts_ok keep k ps :
  (∀ n, n < N → keep n = Some (k n)) → Forall (posting_ok N C) ps →
  filtered_posting_counts keep ps =
    Some ((λ p, (p, rows k p)) <$> filter (λ p, rows k p ≠ 0%Z) ps).
Proof.
  intros Hk. induction 1 as [|p ps Hp _ IH]; [done|]. cbn [filtered_posting_counts].
  rewrite (posting_rows_ok keep k p Hk Hp). cbn [mbind option_bind]. rewrite IH. cbn [mbind option_bind].
  rewrite filter_cons. destruct (decide (rows k p = 0%Z)); [by rewrite decide_False by tauto|].
  by rewrite decide_True by done.
Qed.

Lemma rows_nonzero k p : rows k p ≠ 0%Z ↔ ∃ n, n ∈ nft_ids p ∧ k n = true.
Proof.
  unfold rows. split.
  - intros H0. destruct (filter _ (nft_ids p)) as [|n l] eqn:E; [done|].
    assert (Hn : n ∈ filter (λ n, k n = true) (nft_ids p)) by (rewrite E; set_solver).
    apply list_elem_of_filter in Hn as [? ?]. eauto.
  - intros (n & Hn & Hk). assert (Hin : n ∈ filter (λ n, k n = true) (nft_ids p))
      by (by apply list_elem_of_filter).
    destruct (filter _ (nft_ids p)); [by apply elem_of_nil in Hin|simpl; lia].
Qed.

Lemma any_nft_ok keep k ids :
  (∀ n, n < N → keep n = Some (k n)) → Forall (λ n, n < N) ids →
  ∃ b, any_nft keep ids = Some b ∧ (b = true ↔ ∃ n, n ∈ ids ∧ k n = true).
Proof.
  intros Hk. induction 1 as [|n ids Hn _ (b & E & Hb)].
  - exists false. split; [done|]. split; [done|]. by intros (n & ?%elem_of_nil & _).
  - cbn [any_nft]. rewrite (Hk n Hn). cbn [mbind option_bind]. destruct (k n) eqn:Ek.
    + exists true. split; [done|]. split; [intros _; exists n; set_solver|done].
    + exists b. split; [done|]. rewrite Hb. split; intros (m & Hm & Hkm); exists m; [set_solver|].
      apply elem_of_cons in Hm as [->|Hm]; [congruence|done].
Qed.

Lemma any_posting_ok keep k ps :
  (∀ n, n < N → keep n = Some (k n)) → Forall (posting_ok N C) ps →
  ∃ b, any_posting keep ps = Some b ∧ (b = true ↔ Exists (λ p, rows k p ≠ 0%Z) ps).
Proof.
  intros Hk. induction 1 as [|p ps [Hpc Hp] _ (b & E & Hb)].
  - exists false. split; [done|]. split; [done|]. by intros ?%Exists_nil.
  - cbn [any_posting]. destruct (any_nft_ok keep k (nft_ids p) Hk Hp) as (b1 & -> & Hb1).
    cbn [mbind option_bind]. pose proof (rows_nonzero k p) as Hr. rewrite <- Hb1 in Hr. destruct b1.
    + exists true. split; [done|]. rewrite Exists_cons. tauto.
    + exists b. split; [done|]. rewrite Exists_cons, Hb. intuition discriminate.
Qed.
End Counting.

Section ImageGroup.
Context (N C : nat) (hits : TokenHits) (ki kx : NftId → bool) (km : ChainId → NftId → bool).
Context (hits_i : ∀ n, n < N → not_intra hits n = Some (ki n)).
Context (hits_x : ∀ n, n < N → not_cross hits n = Some (kx n)).
Context (hits_m : ∀ c n, c < C → n < N → not_matrix hits c n = Some (km c n)).

(** What a group adds to the image URI scope [key]. *)
Definition image_items (g : list UriPosting) (key : ScopeKey) : contributions :=
  let c := primary_chain key in
  if decide (dimension key = ImageUri) then
    match kind key, secondary_chain key with
    | IntraChain, None =>
        if decide (2 ≤ length (chain_items ki c g)) then chain_items ki c g else []
    | CrossChainSummary, None =>
        if decide (Exists (λ q, posting_chain_id q ≠ c ∧ rows kx q ≠ 0%Z) g)
        then chain_items kx c g else []
    | ChainMatrix, Some s =>
        if decide (s ≠ c ∧ Exists (λ q, posting_chain_id q = s ∧ rows (km c) q ≠ 0%Z) g)
        then chain_items (km s) c g else []
    | _, _ => []
    end
  else [].


Context (g : list UriPosting) (Hg : Forall (posting_ok N C) g).
Abbreviation V := (image_items g).

Lemma image_items_positive key : Forall (λ n, 0 < n)%Z (V key).*2.
Proof.
  unfold image_items. cbv zeta. destruct (kind key), (secondary_chain key);
    repeat case_decide; auto using chain_items_positive_any; constructor.
Qed.

Lemma chain_items_nonempty k c :
  chain_items k c g ≠ [] ↔ Exists (λ q, posting_chain_id q = c ∧ rows k q ≠ 0%Z) g.
Proof.
  unfold chain_items. rewrite Exists_exists. split.
  - intros Hne. destruct (filter _ (chain_postings c g)) as [|p l] eqn:E; [done|].
    assert (Hp : p ∈ filter (λ p, rows k p ≠ 0%Z) (chain_postings c g)) by (rewrite E; set_solver).
    apply list_elem_of_filter in Hp as [Hr [Hc Hin]%elem_of_chain_postings]. eauto.
  - intros (p & Hin & Hc & Hr) Hnil. apply fmap_nil_inv in Hnil.
    assert (Hp : p ∈ filter (λ p, rows k p ≠ 0%Z) (chain_postings c g))
      by (apply list_elem_of_filter; split; [done|by apply elem_of_chain_postings]).
    rewrite Hnil in Hp. by apply elem_of_nil in Hp.
Qed.

(** Only the scopes of the chains of the group get contributions. *)
Lemma image_items_keys key (cs : list ChainId) :
  (∀ c, c ∈ cs ↔ c ∈ posting_chain_id <$> g) → V key ≠ [] →
  primary_chain key ∈ cs ∧ dimension key = ImageUri ∧
  ((kind key = IntraChain ∧ secondary_chain key = None) ∨
   (kind key = CrossChainSummary ∧ secondary_chain key = None) ∨
   (kind key = ChainMatrix ∧ ∃ s, secondary_chain key = Some s ∧ s ∈ cs ∧ s ≠ primary_chain key)).
Proof.
  intros Hcs. assert (Hne : ∀ k, chain_items k (primary_chain key) g ≠ [] → primary_chain key ∈ cs).
  { intros k (q & Hq & Hc & _)%chain_items_nonempty%Exists_exists. apply Hcs, list_elem_of_fmap. eauto. }
  unfold image_items. cbv zeta. case_decide; [|done].
  destruct (kind key), (secondary_chain key) as [s|]; try done; case_decide as Hd; try done;
    intros Hi; split; eauto; split; auto.
  right; right. split; [done|]. exists s. split; [done|]. split; [|apply Hd].
  destruct Hd as [_ (q & Hq & Hc & _)%Exists_exists]. apply Hcs, list_elem_of_fmap. eauto.
Qed.

Lemma add_all_ok out F ps k c kd s :
  local_ok out F → Forall (λ p, posting_chain_id p = c) ps →
  local_ok (add_all out ((λ p, (p, rows k p)) <$> ps) kd s)
    (extend_at F (scope_key ImageUri kd c s) ((λ p, (posting_contract_id p, rows k p)) <$> ps)).
Proof.
  intros Hok Hps. revert out F Hok. induction Hps as [|p ps Hp _ IH]; intros out F Hok.
  - eapply local_ok_ext; [exact Hok|]. intros key. unfold extend_at. case_decide; by rewrite ?app_nil_r.
  - rewrite !fmap_cons. unfold add_all. cbn [foldl]. eapply local_ok_ext; [apply IH, local_add_ok|].
    + exact Hok.
    + unfold rows. lia.
    + intros key. unfold extend_at, scope_key. rewrite Hp. case_decide; [|done]. by rewrite <- app_assoc.
Qed.

Lemma V_intra c : V (scope_key ImageUri IntraChain c None) =
  if decide (2 ≤ length (chain_items ki c g)) then chain_items ki c g else [].
Proof. done. Qed.

Lemma V_cross c : V (scope_key ImageUri CrossChainSummary c None) =
  if decide (Exists (λ q, posting_chain_id q ≠ c ∧ rows kx q ≠ 0%Z) g) then chain_items kx c g else [].
Proof. done. Qed.

Lemma V_matrix c s : V (scope_key ImageUri ChainMatrix c (Some s)) =
  if decide (s ≠ c ∧ Exists (λ q, posting_chain_id q = s ∧ rows (km c) q ≠ 0%Z) g)
  then chain_items (km s) c g else [].
Proof. done. Qed.

Lemma emitted_app ks1 ks2 F key :
  (∀ k, k ∈ ks1 → k ∉ ks2) → emitted V ks2 (emitted V ks1 F) key = emitted V (ks1 ++ ks2) F key.
Proof.
  intros Hd. specialize (Hd key). unfold emitted.
  rewrite (decide_ext (key ∈ ks1 ++ ks2) (key ∈ ks1 ∨ key ∈ ks2)) by apply elem_of_app.
  repeat case_decide; rewrite ?app_nil_r; tauto || done.
Qed.

(** One conditional addition emits the value of its scope. *)
Lemma emit_if out out1 F key0 items (b : Prop) `{!Decision b} :
  local_ok out F → (b → local_ok out1 (extend_at F key0 items)) →
  V key0 = (if decide b then items else []) →
  local_ok (if decide b then out1 else out) (emitted V [key0] F).
Proof.
  intros Hok Hb HV. case_decide as Hd.
  - eapply local_ok_ext; [by apply Hb|]. by apply emitted_one.
  - eapply local_ok_ext; [exact Hok|]. intros key. rewrite <- (emitted_one V key0 F [] HV).
    unfold extend_at. case_decide; by rewrite ?app_nil_r.
Qed.

Lemma chain_postings_ok c : Forall (posting_ok N C) (chain_postings c g).
Proof.
  apply Forall_forall. intros p [_ Hp]%elem_of_chain_postings. by apply (proj1 (Forall_forall _ _) Hg).
Qed.

Lemma chain_postings_chain c (P : UriPosting → Prop) `{!∀ p, Decision (P p)} :
  Forall (λ p, posting_chain_id p = c) (filter P (chain_postings c g)).
Proof.
  apply Forall_forall. by intros p [_ [? _]%elem_of_chain_postings]%list_elem_of_filter.
Qed.

Section WideImage.
Context (l : list (ChainId * list UriPosting)).
Context (Hl : ∀ c ps, (c, ps) ∈ l → ps = chain_postings c g ∧ c < C).
Context (Hnd : NoDup l.*1) (Hcs : ∀ c, c ∈ l.*1 ↔ c ∈ posting_chain_id <$> g).

Definition matrix_keys (c : ChainId) (x : ChainId * list UriPosting) : list ScopeKey :=
  if decide (x.1 = c) then [] else [scope_key ImageUri ChainMatrix c (Some x.1)].

Definition wide_keys (c : ChainId) : list ScopeKey :=
  [scope_key ImageUri IntraChain c None] ++ [scope_key ImageUri CrossChainSummary c None] ++
  (l ≫= matrix_keys c).

Lemma any_other_cross_ok c (l' : list (ChainId * list UriPosting)) :
  (∀ x, x ∈ l' → x ∈ l) →
  ∃ b, any_other_cross hits c l' = Some b ∧
  (b = true ↔ ∃ q, q ∈ g ∧ posting_chain_id q ≠ c ∧ posting_chain_id q ∈ l'.*1 ∧ rows kx q ≠ 0%Z).
Proof using All.
  induction l' as [|[o ps] l' IH]; intros Hsub.
  - exists false. split; [done|]. split; [done|]. by intros (q & _ & _ & ?%elem_of_nil & _).
  - destruct IH as (b & E & Hb); [intros; apply Hsub; set_solver|].
    destruct (Hl o ps) as [-> Ho]; [apply Hsub; set_solver|]. cbn [any_other_cross].
    destruct (decide (o = c)) as [->|Hne]; cbn [mbind option_bind].
    + exists b. split; [done|]. rewrite Hb. split; intros (q & Hq & Hqc & Hin & Hr); exists q.
      * set_solver.
      * split_and!; [done..| |done]. rewrite fmap_cons in Hin. set_solver.
    + destruct (any_posting_ok N C (not_cross hits) kx (chain_postings o g) hits_x (chain_postings_ok o))
        as (b1 & -> & Hb1). cbn [mbind option_bind]. rewrite Exists_exists in Hb1. destruct b1.
      * exists true. split; [done|]. split; [intros _|done].
        destruct (proj1 Hb1 eq_refl) as (q & [Hqo Hq]%elem_of_chain_postings & Hr).
        exists q. split_and!; [done|congruence|rewrite fmap_cons; set_solver|done].
      * exists b. split; [done|]. rewrite Hb. split; intros (q & Hq & Hqc & Hin & Hr); exists q.
        -- split_and!; [done|done|rewrite fmap_cons; set_solver|done].
        -- split_and!; [done|done| |done]. rewrite fmap_cons in Hin.
           apply elem_of_cons in Hin as [Hin|]; [|done]. exfalso.
           assert (false = true); [|done]. apply Hb1. exists q.
           split; [by apply elem_of_chain_postings|done].
Qed.

Lemma nonempty_items {A} k c (F : UriPosting → A) :
  F <$> filter (λ p, rows k p ≠ 0%Z) (chain_postings c g) ≠ [] ↔ chain_items k c g ≠ [].
Proof. clear. unfold chain_items. by destruct (filter _ (chain_postings c g)). Qed.

Lemma wide_matrix_step_ok c out F x :
  c < C → x ∈ l → local_ok out F →
  ∃ out', image_wide_other hits c (chain_postings c g) out x = Some out' ∧
          local_ok out' (emitted V (matrix_keys c x) F).
Proof using All.
  intros Hc Hx Hok. destruct x as [o ps]. destruct (Hl o ps Hx) as [-> Ho].
  unfold image_wide_other, matrix_keys. cbn [fst snd]. case_decide as Hoc.
  { exists out. split; [done|]. eapply local_ok_ext; [exact Hok|]. intros key. unfold emitted.
    by rewrite decide_False, app_nil_r by apply not_elem_of_nil. }
  rewrite (filtered_posting_counts_ok N C _ (km o) _ (λ n, hits_m o n Ho) (chain_postings_ok c)).
  cbn [mbind option_bind].
  destruct (any_posting_ok N C _ (km c) _ (λ n, hits_m c n Hc) (chain_postings_ok o)) as (b & -> & Hb).
  cbn [mbind option_bind]. eexists. split; [done|].
  apply (emit_if _ _ _ _ (chain_items (km o) c g)); [done| |].
  - intros _. apply add_all_ok; [done|apply chain_postings_chain].
  - rewrite V_matrix.
    destruct (chain_items (km o) c g) as [|i its] eqn:Ei; [by repeat case_decide|]. rewrite <- Ei.
    apply decide_ext. rewrite nonempty_items, Hb, !Exists_exists. split.
    + intros (_ & q & Hq & Hqo & Hr). split; [by rewrite Ei|]. exists q. split; [|done].
      by apply elem_of_chain_postings.
    + intros (_ & q & [Hqo Hq]%elem_of_chain_postings & Hr). eauto.
Qed.

Lemma wide_keys_NoDup : NoDup (l ≫= λ x, wide_keys x.1).
Proof using All.
  assert (Hm : ∀ c, NoDup (l ≫= matrix_keys c)).
  { intros c. clear Hl Hcs. induction l as [|[o ps] l' IH]; [constructor|].
    rewrite fmap_cons in Hnd. apply NoDup_cons in Hnd as [Ho Hnd']. cbn [fst] in Ho.
    rewrite bind_cons. apply NoDup_app. split_and!; [unfold matrix_keys; case_decide; [constructor|apply NoDup_singleton]| |by apply IH].
    intros key Hk (x & Hkx & Hx)%list_elem_of_bind. unfold matrix_keys in *. cbn [fst] in Hk.
    repeat case_decide; try (by apply elem_of_nil in Hk); try (by apply elem_of_nil in Hkx).
    apply list_elem_of_singleton in Hk, Hkx. subst. unfold scope_key in Hkx. simplify_eq.
    apply Ho, list_elem_of_fmap. eauto. }
  assert (Hp : ∀ c key, key ∈ wide_keys c → primary_chain key = c).
  { intros c key. unfold wide_keys. rewrite !elem_of_app, !list_elem_of_singleton.
    intros [->|[->|(x & Hk & _)%list_elem_of_bind]]; [done|done|]. unfold matrix_keys in Hk.
    case_decide; [by apply elem_of_nil in Hk|]. by apply list_elem_of_singleton in Hk as ->. }
  assert (Hw : ∀ c, NoDup (wide_keys c)).
  { intros c. unfold wide_keys. assert (Hk : ∀ key, key ∈ l ≫= matrix_keys c → kind key = ChainMatrix).
    { intros key (x & Hk & _)%list_elem_of_bind. unfold matrix_keys in Hk.
      case_decide; [by apply elem_of_nil in Hk|]. by apply list_elem_of_singleton in Hk as ->. }
    apply NoDup_app. split_and!; [apply NoDup_singleton| |apply NoDup_app; split_and!; [apply NoDup_singleton| |done]].
    - intros key ->%list_elem_of_singleton. rewrite elem_of_app, list_elem_of_singleton.
      by intros [|?%Hk].
    - by intros key ->%list_elem_of_singleton ?%Hk. }
  clear Hcs Hl Hm. revert Hnd Hp Hw. generalize wide_keys as W. intros W Hnd' Hp Hw.
  induction l as [|[c ps] l' IH]; [constructor|].
  rewrite fmap_cons in Hnd'. apply NoDup_cons in Hnd' as [Hc Hnd'']. cbn [fst] in Hc.
  rewrite bind_cons. apply NoDup_app. split_and!; [done| |by apply IH].
  intros key Hk (x & Hkx & Hx)%list_elem_of_bind. apply Hp in Hk, Hkx. cbn [fst] in Hk.
  apply Hc, list_elem_of_fmap. exists x. split; [congruence|done].
Qed.

Lemma image_wide_chain_ok out F x :
  x ∈ l → local_ok out F →
  ∃ out', image_wide_chain hits l out x.1 x.2 = Some out' ∧ local_ok out' (emitted V (wide_keys x.1) F).
Proof using All.
  intros Hx Hok. destruct x as [c ps]. destruct (Hl c ps Hx) as [-> Hc]. cbn [fst snd].
  unfold image_wide_chain.
  rewrite (filtered_posting_counts_ok N C _ ki _ hits_i (chain_postings_ok c)). cbn [mbind option_bind].
  rewrite (filtered_posting_counts_ok N C _ kx _ hits_x (chain_postings_ok c)). cbn [mbind option_bind].
  destruct (any_other_cross_ok c l (λ x Hx, Hx)) as (b & -> & Hb). cbn [mbind option_bind]. cbv zeta.
  set (out1 := if decide (2 ≤ length _) then _ else _).
  assert (H1 : local_ok out1 (emitted V [scope_key ImageUri IntraChain c None] F)).
  { apply (emit_if _ _ _ _ (chain_items ki c g)); [done| |].
    - intros _. apply add_all_ok; [done|apply chain_postings_chain].
    - rewrite V_intra. unfold chain_items. by rewrite !length_fmap. }
  set (out2 := if decide (_ ∧ b = true) then _ else _).
  assert (H2 : local_ok out2 (emitted V [scope_key ImageUri CrossChainSummary c None]
                               (emitted V [scope_key ImageUri IntraChain c None] F))).
  { apply (emit_if _ _ _ _ (chain_items kx c g)); [done| |].
    - intros _. apply add_all_ok; [done|apply chain_postings_chain].
    - rewrite V_cross. destruct (chain_items kx c g) as [|i its] eqn:Ei; [by repeat case_decide|].
      rewrite <- Ei. apply decide_ext. rewrite nonempty_items, Hb, Exists_exists. split.
      + intros (q & Hq & Hqc & Hr). split; [by rewrite Ei|]. exists q. split_and!; [done|done| |done].
        apply Hcs, list_elem_of_fmap. eauto.
      + intros (_ & q & Hq & Hqc & _ & Hr). eauto. }
  assert (Hnd' : NoDup (wide_keys c)).
  { pose proof wide_keys_NoDup as Hw. clear -Hw Hx. induction l as [|y l' IH]; [by apply elem_of_nil in Hx|].
    rewrite bind_cons in Hw. apply NoDup_app in Hw as (Hy & _ & Hw).
    apply elem_of_cons in Hx as [<-|Hx]; [done|by apply IH]. }
  unfold wide_keys in Hnd'. rewrite app_assoc in Hnd'. apply NoDup_app in Hnd' as (_ & Hdisj & Hndm).
  destruct (foldM_emitted V (matrix_keys c) (image_wide_other hits c (chain_postings c g)) l out2 _
    (λ out F x Hx Hok, wide_matrix_step_ok c out F x Hc Hx Hok) Hndm H2) as (out' & -> & Hok').
  exists out'. split; [done|]. eapply local_ok_ext; [exact Hok'|]. intros key.
  unfold wide_keys. rewrite app_assoc, <- emitted_app by done. unfold emitted at 1 4. f_equal.
  apply emitted_app. by intros k ->%list_elem_of_singleton ?%list_elem_of_singleton.
Qed.

Lemma image_wide_ok out F :
  local_ok out F →
  ∃ out', foldM (λ output x, image_wide_chain hits l output x.1 x.2) out l = Some out' ∧
          local_ok out' (λ key, F key ++ V key).
Proof using All.
  intros Hok. destruct (foldM_emitted V (λ x, wide_keys x.1)
    (λ output x, image_wide_chain hits l output x.1 x.2) l out F) as (out' & -> & Hok').
  - intros out1 F1 x Hx Hok1. by apply image_wide_chain_ok.
  - apply wide_keys_NoDup.
  - done.
  - exists out'. split; [done|]. eapply local_ok_ext; [exact Hok'|]. intros key. unfold emitted. f_equal.
    case_decide as Hk; [done|]. destruct (V key) as [|i its] eqn:EV; [done|]. exfalso. apply Hk.
    destruct (image_items_keys key l.*1 Hcs) as (Hp & Hd & Hkind); [by rewrite EV|].
    apply list_elem_of_fmap in Hp as ([c ps] & Hc & Hx). cbn [fst] in Hc.
    apply list_elem_of_bind. exists (c, ps). split; [|done]. cbn [fst]. unfold wide_keys.
    rewrite !elem_of_app, !list_elem_of_singleton.
    destruct key as [k pc s d]. simpl in *. subst.
    destruct Hkind as [[-> ->]|[[-> ->]|(-> & s' & -> & Hs & Hne)]]; [by left|by right; left|right; right].
    apply list_elem_of_fmap in Hs as ([o ps'] & -> & Ho). apply list_elem_of_bind. exists (o, ps').
    split; [|done]. unfold matrix_keys. cbn [fst] in *. rewrite decide_False by done.
    by apply list_elem_of_singleton.
Qed.
End WideImage.

Lemma accumulate_image_wide_ok out F :
  local_ok out F →
  ∃ out', accumulate_image_scope_hits_wide hits out g = Some out' ∧
          local_ok out' (λ key, F key ++ V key).
Proof using All.
  intros Hok. unfold accumulate_image_scope_hits_wide. cbv zeta. apply image_wide_ok; [| | |done].
  - intros c ps Hin. split; [by apply elem_of_by_chain|].
    assert (Hc : c ∈ (map_to_list (postings_by_chain g)).*1) by (apply list_elem_of_fmap; by exists (c, ps)).
    apply elem_of_by_chain_fst, list_elem_of_fmap in Hc as (p & -> & Hp).
    rewrite Forall_forall in Hg. by destruct (Hg p Hp).
  - apply NoDup_fst_map_to_list.
  - apply elem_of_by_chain_fst.
Qed.

Section CompactImage.
Context (cs : list ChainId) (Hnd : NoDup cs).
Context (Hcs : ∀ c, c ∈ cs ↔ c ∈ posting_chain_id <$> g).
Abbreviation width := (length cs).

Lemma chain_items_snoc k c l p :
  chain_items k c (l ++ [p]) =
  if decide (posting_chain_id p = c)
  then add_item (chain_items k c l) (posting_contract_id p) (rows k p) else chain_items k c l.
Proof using Type.
  unfold chain_items, add_item. rewrite chain_postings_snoc. case_decide; [|done].
  rewrite filter_app, filter_cons, filter_nil, fmap_app.
  destruct (decide (rows k p = 0%Z)); [rewrite decide_False by tauto; apply app_nil_r|].
  by rewrite decide_True by done.
Qed.

Definition table_of (k : NftId → bool) (l : list UriPosting) : list GroupScopeAggregate :=
  (λ c, group_of (chain_items k c l)) <$> cs.

(** The tables after the postings [l]. *)
Record tables_rep (t : GroupTables) (l : list UriPosting) : Prop := {
  tables_intra : table_intra t = table_of ki l;
  tables_cross : table_cross t = table_of kx l;
  tables_matrix_length : length (table_matrix t) = width * width;
  tables_matrix i j c s : cs !! i = Some c → cs !! j = Some s → i ≠ j →
    table_matrix t !! (i * width + j) = Some (group_of (chain_items (km s) c l));
}.

Lemma table_index_lt i j : i < width → j < width → i * width + j < width * width.
Proof. clear. nia. Qed.

Lemma table_index_inj i j i' j' :
  j < width → j' < width → i * width + j = i' * width + j' → i = i' ∧ j = j'.
Proof. clear. intros. assert (i = i') by nia. subst. lia. Qed.

Lemma tables_rep_new : tables_rep (GroupTables_new width) [].
Proof using Type.
  assert (Hconst : ∀ k, replicate width GroupScopeAggregate_default = table_of k []).
  { intros k. unfold table_of. clear. induction cs as [|c l IH]; [done|]. simpl. by f_equal. }
  split; simpl; [apply Hconst|apply Hconst|apply length_replicate|].
  intros i j c s Hi Hj _. apply lookup_replicate_2, table_index_lt; by eapply lookup_lt_Some.
Qed.

Lemma local_index_spec (c : ChainId) : c ∈ cs → ∃ i, local_index cs c = Some i ∧ cs !! i = Some c.
Proof using Type.
  clear. induction cs as [|x l IH]; intros Hc; [by apply elem_of_nil in Hc|]. simpl.
  case_decide as Hx; [exists 0; by subst|]. destruct IH as (i & -> & Hi); [set_solver|]. by exists (S i).
Qed.

Lemma add_posting_at_table k l p i :
  cs !! i = Some (posting_chain_id p) →
  add_posting_at (table_of k l) i (posting_contract_id p) (rows k p) = Some (table_of k (l ++ [p])).
Proof using All.
  intros Hi. unfold add_posting_at, table_of. rewrite list_lookup_fmap, Hi. simpl. f_equal.
  rewrite add_posting_group_of; [|apply chain_items_positive_any|unfold rows; lia].
  apply list_eq. intros j. rewrite list_lookup_fmap.
  destruct (decide (i = j)) as [<-|Hne].
  - rewrite list_lookup_insert_eq by (rewrite length_fmap; by eapply lookup_lt_Some).
    rewrite Hi. simpl. rewrite chain_items_snoc. by rewrite decide_True.
  - rewrite list_lookup_insert_ne, list_lookup_fmap by done. destruct (cs !! j) as [c|] eqn:Hj; [|done].
    simpl. rewrite chain_items_snoc, decide_False; [done|]. intros <-. apply Hne.
    by eapply NoDup_lookup.
Qed.

(** Updating one row of the matrix table. *)
Lemma matrix_row_ok (counts : list (nat * Z)) (m : list GroupScopeAggregate) i cid :
  NoDup counts.*1 → length m = width * width → i < width → (∀ x, x ∈ counts → x.1 < width) →
  ∃ m', foldM (λ m x, if decide (x.1 = i) then Some m
                      else add_posting_at m (i * width + x.1) cid x.2) m counts = Some m' ∧
  length m' = length m ∧
  (∀ x, x ∈ counts → x.1 ≠ i →
     m' !! (i * width + x.1) = (λ g, add_posting g cid x.2) <$> m !! (i * width + x.1)) ∧
  (∀ y, (∀ x, x ∈ counts → x.1 ≠ i → y ≠ i * width + x.1) → m' !! y = m !! y).
Proof using Type.
  clear -cs. revert m. induction counts as [|[j r] counts IH]; intros m Hcnt Hlen Hi Hlt.
  { exists m. split_and!; [done|done| |done]. by intros x ?%elem_of_nil. }
  rewrite fmap_cons in Hcnt. apply NoDup_cons in Hcnt as [Hj Hcnt]. cbn [fst] in Hj. cbn [foldM fst snd].
  assert (Hjw : j < width) by (apply (Hlt (j, r)); set_solver).
  assert (Hother : ∀ x, x ∈ counts → x.1 ≠ j) by (intros x Hx Heq; apply Hj, list_elem_of_fmap; by exists x).
  destruct (decide (j = i)) as [->|Hji].
  - destruct (IH m Hcnt Hlen Hi) as (m' & E & Hl' & Hin & Hout); [intros; apply Hlt; set_solver|].
    exists m'. split_and!; [done|done| |].
    + intros x [->|Hx]%elem_of_cons Hxi; [done|by apply Hin].
    + intros y Hy. apply Hout. intros x Hx. apply Hy. set_solver.
  - destruct (lookup_lt_is_Some_2 m (i * width + j)) as [old Hold];
      [rewrite Hlen; by apply table_index_lt|].
    assert (add_posting_at m (i * width + j) cid r = Some (<[i * width + j:=add_posting old cid r]> m)) as ->
      by (unfold add_posting_at; by rewrite Hold).
    cbn [mbind option_bind].
    destruct (IH (<[i * width + j:=add_posting old cid r]> m) Hcnt) as (m' & E & Hl' & Hin & Hout);
      [by rewrite length_insert|done|intros; apply Hlt; set_solver|].
    exists m'. rewrite length_insert in Hl'. split_and!; [done|done| |].
    + intros x [->|Hx]%elem_of_cons Hxi.
      * cbn [fst snd]. rewrite Hout; [|intros x Hx _ Heq; apply (Hother x Hx); lia].
        rewrite list_lookup_insert_eq by (by eapply lookup_lt_Some). by rewrite Hold.
      * rewrite Hin by done. rewrite list_lookup_insert_ne; [done|].
        intros Heq. apply (Hother x Hx). lia.
    + intros y Hy. rewrite Hout by (intros x Hx; apply Hy; set_solver).
      rewrite list_lookup_insert_ne; [done|]. apply not_eq_sym. apply (Hy (j, r)); [set_solver|done].
Qed.

Lemma matrix_counts_ok i p :
  Forall (λ c, c < C) cs → posting_ok N C p →
  mapM (λ x, if decide (x.1 = i) then Some 0%Z else count_nfts (not_matrix hits x.2) (nft_ids p))
    (imap pair cs) =
  Some ((λ x, if decide (x.1 = i) then 0%Z else rows (km x.2) p) <$> imap pair cs).
Proof using All.
  intros HC Hp. apply mapM_Some_2, Forall2_same_length_lookup. split; [by rewrite length_fmap|].
  intros j x y Hx Hy. rewrite list_lookup_fmap, Hx in Hy. injection Hy as <-.
  case_decide; [done|]. apply (posting_rows_ok N C); [|done]. intros n Hn. apply hits_m; [|done].
  rewrite list_lookup_imap in Hx. destruct (cs !! j) as [c|] eqn:Hc; [|done]. injection Hx as <-.
  rewrite Forall_forall in HC. apply HC. by eapply list_elem_of_lookup_2.
Qed.

Lemma tabulate_posting_ok t l p :
  Forall (λ c, c < C) cs → p ∈ g → tables_rep t l →
  ∃ t', tabulate_posting hits cs t p = Some t' ∧ tables_rep t' (l ++ [p]).
Proof using All.
  intros HC Hp [Hi Hx Hlen Hm].
  assert (Hpo : posting_ok N C p) by (by apply (proj1 (Forall_forall _ _) Hg)).
  destruct (local_index_spec (posting_chain_id p)) as (i & Ei & Hci);
    [apply Hcs, list_elem_of_fmap; eauto|].
  assert (Hiw : i < width) by (by eapply lookup_lt_Some).
  unfold tabulate_posting. rewrite Ei. cbn [mbind option_bind].
  rewrite (posting_rows_ok N C _ ki p hits_i Hpo). cbn [mbind option_bind].
  rewrite (posting_rows_ok N C _ kx p hits_x Hpo). cbn [mbind option_bind].
  rewrite matrix_counts_ok by done. cbn [mbind option_bind].
  rewrite Hi, add_posting_at_table by done. cbn [mbind option_bind].
  rewrite Hx, add_posting_at_table by done. cbn [mbind option_bind].
  set (counts := imap pair _).
  assert (Hcounts : ∀ j s, cs !! j = Some s →
    (j, if decide (j = i) then 0%Z else rows (km s) p) ∈ counts).
  { intros j s Hj. apply elem_of_lookup_imap. eexists j, _. split; [done|].
    by rewrite list_lookup_fmap, list_lookup_imap, Hj. }
  assert (Hcounts' : ∀ x, x ∈ counts → ∃ s, cs !! x.1 = Some s).
  { intros x Hin. apply elem_of_lookup_imap in Hin as (j & y & -> & Hy).
    rewrite list_lookup_fmap, list_lookup_imap in Hy. cbn [fst].
    destruct (cs !! j) as [s|]; [by exists s|done]. }
  destruct (matrix_row_ok counts (table_matrix t) i (posting_contract_id p)) as (m' & -> & Hl' & Hin & Hout).
  - unfold counts. rewrite fmap_imap. apply NoDup_alt. intros a b y Ha Hb.
    rewrite list_lookup_imap in Ha, Hb.
    destruct (_ !! a); [|done]. destruct (_ !! b); [|done]. simpl in *. congruence.
  - done.
  - done.
  - intros x Hx'. destruct (Hcounts' x Hx') as [s Hs]. by eapply lookup_lt_Some.
  - eexists. split; [done|]. split; simpl; [done|done|congruence|].
    intros i' j c s Hi' Hj Hne.
    assert (Hjw : j < width) by (by eapply lookup_lt_Some). rewrite chain_items_snoc.
    destruct (decide (posting_chain_id p = c)) as [<-|Hpc].
    + assert (i' = i) as -> by (by eapply NoDup_lookup).
      pose proof (Hcounts j s Hj) as Hcj. rewrite decide_False in Hcj by done.
      pose proof (Hin _ Hcj) as HE. cbn [fst snd] in HE. rewrite HE by done.
      rewrite (Hm i j _ s) by done. simpl. f_equal. apply add_posting_group_of.
      * apply chain_items_positive_any.
      * unfold rows. lia.
    + rewrite Hout; [by apply Hm|]. intros x Hx' _ Heq. destruct (Hcounts' x Hx') as [s' Hs'].
      apply lookup_lt_Some in Hs'. destruct (table_index_inj i' j i x.1) as [-> _]; [done..|].
      apply Hpc. congruence.
Qed.

Lemma tabulate_ok l t l0 :
  Forall (λ c, c < C) cs → (∀ p, p ∈ l → p ∈ g) → tables_rep t l0 →
  ∃ t', foldM (tabulate_posting hits cs) t l = Some t' ∧ tables_rep t' (l0 ++ l).
Proof using All.
  intros HC. revert t l0. induction l as [|p l IH]; intros t l0 Hsub Ht.
  - exists t. by rewrite app_nil_r.
  - destruct (tabulate_posting_ok t l0 p HC) as (t1 & E & Ht1); [set_solver|done|].
    destruct (IH t1 (l0 ++ [p])) as (t' & E' & Ht'); [set_solver|done|]. exists t'. cbn [foldM].
    rewrite E. cbn [mbind option_bind]. split; [done|]. by rewrite <- app_assoc in Ht'.
Qed.

Lemma zip_fmap_self {A B} (f : A → B) (l : list A) : zip l (f <$> l) = (λ x, (x, f x)) <$> l.
Proof. clear. induction l as [|x l IH]; [done|]. simpl. by f_equal. Qed.

Lemma keys_NoDup (kd : ScopeKind) s : NoDup ((λ c, scope_key ImageUri kd c s) <$> cs).
Proof using All. apply NoDup_fmap_2; [|done]. intros a b Hab. unfold scope_key in Hab. by simplify_eq. Qed.

Lemma bind_singleton {A B} (f : A → B) (l : list A) : l ≫= (λ x, [f x]) = f <$> l.
Proof. clear. induction l as [|x l IH]; [done|]. simpl. by f_equal. Qed.

(** Emitting one value per chain of the group. *)
Lemma emit_chains kd s k (step : LocalUriAccumulator → ChainId * GroupScopeAggregate → LocalUriAccumulator)
    out F :
  (∀ out F c, local_ok out F →
     local_ok (step out (c, group_of (chain_items k c g))) (emitted V [scope_key ImageUri kd c s] F)) →
  local_ok out F →
  local_ok (foldl step out (zip cs (table_of k g))) (emitted V ((λ c, scope_key ImageUri kd c s) <$> cs) F).
Proof using All.
  intros Hstep Hok. unfold table_of. rewrite zip_fmap_self.
  destruct (foldM_emitted V (λ x : ChainId * GroupScopeAggregate, [scope_key ImageUri kd x.1 s])
    (λ out x, Some (step out x)) ((λ c, (c, group_of (chain_items k c g))) <$> cs) out F) as (out' & E & Hok').
  - intros out1 F1 x (c & -> & Hc)%list_elem_of_fmap Hok1. eexists. split; [done|]. by apply Hstep.
  - rewrite bind_singleton, <- list_fmap_compose. apply keys_NoDup.
  - done.
  - rewrite <- foldl_foldM_pure in E. injection E as ->. rewrite bind_singleton, <- list_fmap_compose in Hok'.
    exact Hok'.
Qed.

Lemma output_intra_ok t out F :
  tables_rep t g → local_ok out F →
  local_ok (output_intra cs t out) (emitted V ((λ c, scope_key ImageUri IntraChain c None) <$> cs) F).
Proof using All.
  intros [Hi _ _ _] Hok. unfold output_intra. rewrite Hi. apply emit_chains; [|done].
  intros out1 F1 c Hok1. cbn [fst snd]. apply (emit_if _ _ _ _ (chain_items ki c g)); [done| |done].
  intros _. apply output_group_ok; [done|apply chain_items_positive_any].
Qed.

Lemma two_elements {A} (l : list A) a b : NoDup l → a ∈ l → b ∈ l → a ≠ b → 2 ≤ length l.
Proof.
  clear. intros Hl Ha Hb Hab. change 2 with (length [a; b]). apply submseteq_length, NoDup_submseteq.
  - apply NoDup_cons. split; [set_solver|apply NoDup_singleton].
  - set_solver.
Qed.

Lemma group_rows_nonzero k c l : group_nft_rows (group_of (chain_items k c l)) ≠ 0%Z ↔ chain_items k c l ≠ [].
Proof.
  clear. simpl. split; [intros H0 E; rewrite E in H0; by apply H0|].
  intros Hne H0. apply Hne. eapply fmap_nil_inv, saturated_sum_zero; [|exact H0].
  apply chain_items_positive_any.
Qed.

(** Whether at least two chains of the group have cross-chain rows left. *)
Lemma cross_condition c :
  chain_items kx c g ≠ [] →
  2 ≤ length (filter (λ g, group_nft_rows g ≠ 0%Z) (table_of kx g)) ↔
  Exists (λ q, posting_chain_id q ≠ c ∧ rows kx q ≠ 0%Z) g.
Proof using All.
  intros Hc. unfold table_of. rewrite filter_fmap, length_fmap, Exists_exists.
  set (l := filter _ cs).
  assert (Hel : ∀ c', c' ∈ l ↔ c' ∈ cs ∧ chain_items kx c' g ≠ []).
  { intros c'. unfold l. rewrite list_elem_of_filter, group_rows_nonzero. tauto. }
  assert (Hin : ∀ c', chain_items kx c' g ≠ [] → c' ∈ l).
  { intros c' Hne. apply Hel. split; [|done]. apply chain_items_nonempty, Exists_exists in Hne.
    destruct Hne as (q & Hq & <- & _). apply Hcs, list_elem_of_fmap. eauto. }
  assert (Hl : NoDup l) by (by apply NoDup_filter). split.
  - intros H2. destruct l as [|a [|b l']] eqn:El; simpl in H2; try lia.
    apply NoDup_cons in Hl as [Hab _].
    assert (∃ c', c' ≠ c ∧ c' ∈ a :: b :: l') as (c' & Hne & [_ Hc']%Hel).
    { destruct (decide (a = c)) as [->|]; [exists b; set_solver|exists a; set_solver]. }
    apply chain_items_nonempty, Exists_exists in Hc' as (q & Hq & <- & Hr). eauto.
  - intros (q & Hq & Hqc & Hr). apply (two_elements l c (posting_chain_id q)); [done|by apply Hin| |done].
    apply Hin, chain_items_nonempty, Exists_exists. eauto.
Qed.

Lemma output_cross_ok t out F :
  tables_rep t g → local_ok out F →
  local_ok (output_cross cs t out) (emitted V ((λ c, scope_key ImageUri CrossChainSummary c None) <$> cs) F).
Proof using All.
  intros [_ Hx _ _] Hok. unfold output_cross. rewrite Hx.
  set (cond := 2 ≤ length _).
  assert (HV : ∀ c, V (scope_key ImageUri CrossChainSummary c None) = if decide cond then chain_items kx c g else []).
  { intros c. rewrite V_cross. destruct (chain_items kx c g) as [|i its] eqn:Ei; [by repeat case_decide|].
    rewrite <- Ei. apply decide_ext. symmetry. apply cross_condition. by rewrite Ei. }
  case_decide as Hcond.
  - apply emit_chains; [|done]. intros out1 F1 c Hok1. cbn [fst snd].
    eapply local_ok_ext; [apply output_group_ok; [exact Hok1|apply chain_items_positive_any]|].
    apply emitted_one. apply HV.
  - eapply local_ok_ext; [exact Hok|]. intros key. unfold emitted. case_decide as Hk; [|by rewrite app_nil_r].
    apply list_elem_of_fmap in Hk as (c & -> & _). by rewrite HV, app_nil_r.
Qed.

Lemma output_matrix_pair_ok t out F i c j s :
  tables_rep t g → cs !! i = Some c → cs !! j = Some s → local_ok out F →
  ∃ out', output_matrix_pair cs t out ((i, c), (j, s)) = Some out' ∧
    local_ok out' (emitted V (if decide (i = j) then [] else [scope_key ImageUri ChainMatrix c (Some s)]) F).
Proof using All.
  intros [_ _ _ Hm] Hi Hj Hok. unfold output_matrix_pair. cbn [fst snd]. cbv zeta. case_decide as Hij.
  { exists out. split; [done|]. eapply local_ok_ext; [exact Hok|]. intros key. unfold emitted.
    by rewrite decide_False, app_nil_r by apply not_elem_of_nil. }
  rewrite (Hm i j c s) by done. rewrite (Hm j i s c) by done. cbn [mbind option_bind].
  eexists. split; [done|]. apply (emit_if _ _ _ _ (chain_items (km s) c g)); [done| |].
  - intros _. apply output_group_ok; [done|apply chain_items_positive_any].
  - rewrite V_matrix. destruct (chain_items (km s) c g) as [|it its] eqn:Ei; [by repeat case_decide|].
    rewrite <- Ei. apply decide_ext. rewrite !group_rows_nonzero, chain_items_nonempty, <- !chain_items_nonempty.
    rewrite Ei. split; [intros [_ ?]; by split|]. intros [_ ?]. split; [|done]. intros ->. apply Hij.
    by eapply NoDup_lookup.
Qed.

Abbreviation indexed := (imap pair cs).
Definition pair_keys (x : (nat * ChainId) * (nat * ChainId)) : list ScopeKey :=
  if decide (x.1.1 = x.2.1) then [] else [scope_key ImageUri ChainMatrix x.1.2 (Some x.2.2)].

Lemma elem_of_indexed x : x ∈ indexed ↔ cs !! x.1 = Some x.2.
Proof.
  clear. rewrite elem_of_lookup_imap. destruct x as [i c]. split; [naive_solver|]. intros Hc. by exists i, c.
Qed.

Lemma elem_of_pairs x :
  x ∈ (a ← indexed; b ← indexed; [(a, b)]) ↔ cs !! x.1.1 = Some x.1.2 ∧ cs !! x.2.1 = Some x.2.2.
Proof.
  clear Hnd Hcs. rewrite list_elem_of_bind. split.
  - intros (a & (b & ->%list_elem_of_singleton & Hb)%list_elem_of_bind & Ha).
    by apply elem_of_indexed in Ha, Hb.
  - intros [Ha Hb]. exists x.1. split; [|by apply elem_of_indexed]. apply list_elem_of_bind.
    exists x.2. split; [by destruct x; apply list_elem_of_singleton|by apply elem_of_indexed].
Qed.

Lemma indexed_NoDup : NoDup indexed.
Proof.
  clear. apply NoDup_alt. intros a b x Ha Hb. rewrite list_lookup_imap in Ha, Hb.
  destruct (cs !! a); [|done]. destruct (cs !! b); [|done]. simpl in *. congruence.
Qed.

Lemma pair_keys_NoDup : NoDup ((a ← indexed; b ← indexed; [(a, b)]) ≫= pair_keys).
Proof using All.
  assert (Hidx : ∀ i j c, cs !! i = Some c → cs !! j = Some c → i = j) by (intros; by eapply NoDup_lookup).
  apply NoDup_bind.
  - intros [[i c] [j s]] [[i' c'] [j' s']] key [Hi Hj]%elem_of_pairs [Hi' Hj']%elem_of_pairs.
    cbn [fst snd] in *. unfold pair_keys. cbn [fst snd].
    case_decide; [by intros ?%elem_of_nil|]. intros ->%list_elem_of_singleton.
    case_decide; [by intros ?%elem_of_nil|]. intros Hk%list_elem_of_singleton.
    unfold scope_key in Hk. simplify_eq. by rewrite (Hidx i i' c'), (Hidx j j' s').
  - intros x _. unfold pair_keys. case_decide; [constructor|apply NoDup_singleton].
  - apply NoDup_bind; [|intros; apply NoDup_bind|apply indexed_NoDup].
    + intros a1 a2 y _ _ (b & ->%list_elem_of_singleton & _)%list_elem_of_bind
        (b' & E%list_elem_of_singleton & _)%list_elem_of_bind. by simplify_eq.
    + intros b1 b2 y _ _ ->%list_elem_of_singleton E%list_elem_of_singleton. by simplify_eq.
    + intros b _. apply NoDup_singleton.
    + apply indexed_NoDup.
Qed.

Lemma output_matrix_ok t out F :
  tables_rep t g → local_ok out F →
  ∃ out', output_matrix cs t out = Some out' ∧
    local_ok out' (emitted V ((a ← indexed; b ← indexed; [(a, b)]) ≫= pair_keys) F).
Proof using All.
  intros Ht Hok. unfold output_matrix. apply foldM_emitted; [|apply pair_keys_NoDup|done].
  intros out1 F1 [[i c] [j s]] [Hi Hj]%elem_of_pairs Hok1. by apply output_matrix_pair_ok.
Qed.

Lemma compact_keys key :
  V key ≠ [] →
  key ∈ (((λ c, scope_key ImageUri IntraChain c None) <$> cs) ++
         ((λ c, scope_key ImageUri CrossChainSummary c None) <$> cs)) ++
        ((a ← indexed; b ← indexed; [(a, b)]) ≫= pair_keys).
Proof using All.
  intros HV. destruct (image_items_keys key cs Hcs HV) as (Hp & Hd & Hkind).
  rewrite !elem_of_app. destruct key as [k pc s d]. simpl in *. subst.
  destruct Hkind as [[-> ->]|[[-> ->]|(-> & s' & -> & Hs & Hne)]].
  - left; left. apply list_elem_of_fmap. by exists pc.
  - left; right. apply list_elem_of_fmap. by exists pc.
  - right. apply list_elem_of_lookup in Hp as [i Hi], Hs as [j Hj]. apply list_elem_of_bind.
    exists ((i, pc), (j, s')). split; [|by apply elem_of_pairs]. unfold pair_keys. cbn [fst snd].
    rewrite decide_False; [by apply list_elem_of_singleton|]. congruence.
Qed.

Lemma multi_chain_ok out F :
  Forall (λ c, c < C) cs → local_ok out F →
  ∃ t out', foldM (tabulate_posting hits cs) (GroupTables_new width) g = Some t ∧
    output_matrix cs t (output_cross cs t (output_intra cs t out)) = Some out' ∧
    local_ok out' (λ key, F key ++ V key).
Proof using All.
  intros HC Hok.
  destruct (tabulate_ok g (GroupTables_new width) [] HC (λ p Hp, Hp) tables_rep_new) as (t & Et & Ht).
  simpl in Ht. destruct (output_matrix_ok t _ _ Ht (output_cross_ok t _ _ Ht (output_intra_ok t out F Ht Hok)))
    as (out' & E & Hok'). exists t, out'. split_and!; [done|done|].
  eapply local_ok_ext; [exact Hok'|]. intros key.
  assert (Hk1 : ∀ k, k ∈ (λ c, scope_key ImageUri IntraChain c None) <$> cs → kind k = IntraChain)
    by (by intros k (c & -> & _)%list_elem_of_fmap).
  assert (Hk2 : ∀ k, k ∈ (λ c, scope_key ImageUri CrossChainSummary c None) <$> cs → kind k = CrossChainSummary)
    by (by intros k (c & -> & _)%list_elem_of_fmap).
  assert (Hk3 : ∀ k, k ∈ (a ← indexed; b ← indexed; [(a, b)]) ≫= pair_keys → kind k = ChainMatrix).
  { intros k (x & Hk & _)%list_elem_of_bind. unfold pair_keys in Hk.
    case_decide; [by apply elem_of_nil in Hk|]. by apply list_elem_of_singleton in Hk as ->. }
  transitivity (emitted V ((((λ c, scope_key ImageUri IntraChain c None) <$> cs) ++
    ((λ c, scope_key ImageUri CrossChainSummary c None) <$> cs)) ++
    ((a ← indexed; b ← indexed; [(a, b)]) ≫= pair_keys)) F key).
  - rewrite <- emitted_app.
    + unfold emitted at 1 4. f_equal. apply emitted_app. intros k ?%Hk1 ?%Hk2. congruence.
    + intros k [?%Hk1|?%Hk2]%elem_of_app ?%Hk3; congruence.
  - unfold emitted. f_equal. case_decide as Hk; [done|].
    destruct (V key) as [|it its] eqn:EV; [done|]. exfalso. apply Hk, compact_keys. by rewrite EV.
Qed.
End CompactImage.

(** A group on a single chain takes the short path. *)
Lemma single_chain_ok out F c :
  (∀ p, p ∈ g → posting_chain_id p = c) → local_ok out F →
  ∃ r, foldM (λ g p,
         rows ← count_nfts (not_intra hits) (nft_ids p);
         Some (add_posting g (posting_contract_id p) rows)) GroupScopeAggregate_default g = Some r ∧
    local_ok (if decide (2 ≤ posting_count r) then output_group out c r IntraChain None else out)
      (λ key, F key ++ V key).
Proof using All.
  intros Hc Hok. exists (group_of (chain_items ki c g)). split.
  - change GroupScopeAggregate_default with (group_of (chain_items ki c [])).
    assert (Hgen : ∀ l l0, (∀ p, p ∈ l → p ∈ g) →
      foldM (λ g p, rows ← count_nfts (not_intra hits) (nft_ids p);
        Some (add_posting g (posting_contract_id p) rows)) (group_of (chain_items ki c l0)) l
      = Some (group_of (chain_items ki c (l0 ++ l)))); [|by apply (Hgen g [])].
    induction l as [|p l IH]; intros l0 Hsub; [by rewrite app_nil_r|]. cbn [foldM].
    assert (Hp : p ∈ g) by set_solver.
    rewrite (posting_rows_ok N C _ ki p hits_i) by (by apply (proj1 (Forall_forall _ _) Hg)).
    cbn [mbind option_bind].
    rewrite add_posting_group_of; [|apply chain_items_positive_any|unfold rows; lia].
    change (p :: l) with ([p] ++ l). rewrite app_assoc, <- IH by set_solver.
    by rewrite chain_items_snoc, decide_True by auto.
  - eapply local_ok_ext; [apply (emit_if _ _ F (scope_key ImageUri IntraChain c None) (chain_items ki c g));
      [exact Hok| |done]|].
    + intros _. apply output_group_ok; [done|apply chain_items_positive_any].
    + intros key. unfold emitted. f_equal. case_decide as Hk; [done|].
      destruct (V key) as [|it its] eqn:EV; [done|]. exfalso. apply Hk, list_elem_of_singleton.
      destruct (image_items_keys key (posting_chain_id <$> g)) as (Hp & Hd & Hkind); [done|by rewrite EV|].
      apply list_elem_of_fmap in Hp as (q & Hq & Hqg). rewrite (Hc q Hqg) in Hq.
      destruct key as [k pc s d]. simpl in *. subst.
      destruct Hkind as [[-> ->]|[[-> ->]|(_ & s' & -> & (q' & Hq' & Hqg')%list_elem_of_fmap & Hne)]]; [done| |].
      * unfold image_items in EV. simpl in EV. case_decide as Hx; [|done].
        apply Exists_exists in Hx as (q' & Hqg' & Hne & _). by rewrite (Hc q' Hqg') in Hne.
      * by rewrite (Hc q' Hqg') in Hq'.
Qed.

Lemma accumulate_image_compact_ok out F :
  g ≠ [] → C ≤ 64 → local_ok out F →
  ∃ out', accumulate_image_scope_hits_compact hits out g = Some out' ∧
          local_ok out' (λ key, F key ++ V key).
Proof using All.
  intros Hne HC Hok. assert (H64 : Forall (λ p, posting_chain_id p < 64) g)
    by (eapply Forall_impl; [exact Hg|]; intros p [Hp _]; lia).
  destruct (mask_chains_present g H64) as [Hnd Hcs].
  assert (HCcs : Forall (λ c, c < C) (mask_chains 64 (present_mask g))) by (by apply (group_chain_lt N C g)).
  unfold accumulate_image_scope_hits_compact.
  set (cs := mask_chains 64 (present_mask g)) in *.
  assert (Hmulti : ∃ out', (t ← foldM (tabulate_posting hits cs) (GroupTables_new (length cs)) g;
      output_matrix cs t (output_cross cs t (output_intra cs t out))) = Some out' ∧
      local_ok out' (λ key, F key ++ V key)).
  { destruct (multi_chain_ok cs Hnd Hcs out F HCcs Hok) as (t & out' & -> & E & Hok'). by exists out'. }
  destruct cs as [|c [|c2 cs']] eqn:Ecs; [done| |done].
  destruct (single_chain_ok out F c) as (r & -> & Hr); [|done|].
  - intros p Hp. apply list_elem_of_singleton, Hcs, list_elem_of_fmap. eauto.
  - cbn [mbind option_bind]. eauto.
Qed.

(** Both paths add what the group contributes, for any number of chains. *)
Lemma accumulate_image_ok out F :
  g ≠ [] → local_ok out F →
  ∃ out', accumulate_image_scope_hits hits C out g = Some out' ∧ local_ok out' (λ key, F key ++ V key).
Proof using All.
  intros Hne Hok. unfold accumulate_image_scope_hits, u64_BITS.
  destruct (decide (length g < 2)) as [H2|H2].
  - assert (∃ p, g = [p]) as [p Hgp] by (destruct g as [|p [|? ?]]; simpl in *; [done|eauto|lia]).
    exists out. split; [done|]. eapply local_ok_ext; [exact Hok|]. intros key.
    destruct (V key) as [|it its] eqn:EV; [by rewrite app_nil_r|]. exfalso.
    destruct (image_items_keys key (posting_chain_id <$> g)) as (Hp & Hd & Hkind); [done|by rewrite EV|].
    rewrite Hgp in Hp. apply list_elem_of_singleton in Hp.
    destruct key as [k pc s d]. simpl in *. subst pc d.
    destruct Hkind as [[-> ->]|[[-> ->]|(_ & s' & -> & Hs & Hne')]].
    + unfold image_items in EV. simpl in EV. case_decide as Hx; [|done].
      unfold chain_items, chain_postings in Hx. rewrite length_fmap, Hgp in Hx.
      pose proof (length_filter (λ p, rows ki p ≠ 0%Z) (filter (λ p0, posting_chain_id p0 = posting_chain_id p) [p])).
      pose proof (length_filter (λ p0, posting_chain_id p0 = posting_chain_id p) [p]). simpl in *. lia.
    + unfold image_items in EV. simpl in EV. case_decide as Hx; [|done].
      rewrite Hgp in Hx. by apply Exists_cons in Hx as [[? _]|?%Exists_nil].
    + rewrite Hgp in Hs. apply list_elem_of_singleton in Hs. done.
  - case_decide; [by apply accumulate_image_compact_ok|by apply accumulate_image_wide_ok].
Qed.
End ImageGroup.

(** ** The duplicate URI counts of a store *)

(** The NFT is in a posting counted in a token URI scope of this kind. *)
Definition token_counted (gs : list (list UriPosting)) (k : ScopeKind) (s : option ChainId)
    (n : NftId) : bool :=
  bool_decide (Exists (λ g, Exists (λ p,
    n ∈ nft_ids p ∧ token_scope g (scope_key TokenUri k (posting_chain_id p) s) p) g) gs).

(** The image URI rows left in each kind of scope: those of NFTs whose token
    URI does not count in it. *)
Definition kept (gs : list (list UriPosting)) (k : ScopeKind) (s : option ChainId) (n : NftId) : bool :=
  negb (token_counted gs k s n).

(** The contributions of the whole store to the scope [key]. *)
Definition uri_items (store : EntityStore) (key : ScopeKey) : contributions :=
  let tokens := groups (token_uri_postings store) in
  match dimension key with
  | TokenUri => token_item <$> (tokens ≫= λ g, token_trace g key)
  | ImageUri =>
      groups (image_uri_postings store) ≫= λ g,
        image_items (kept tokens IntraChain None) (kept tokens CrossChainSummary None)
          (λ c, kept tokens ChainMatrix (Some c)) g key
  | _ => []
  end.

(** The postings refer to existing chains and NFTs. *)
Definition postings_ok (store : EntityStore) : Prop :=
  Forall (posting_ok (length (nfts store)) (length (chains store))) (token_uri_postings store) ∧
  Forall (posting_ok (length (nfts store)) (length (chains store))) (image_uri_postings store).

Lemma groups_Forall (P : UriPosting → Prop) postings g :
  Forall P postings → g ∈ groups postings → Forall P g.
Proof.
  rewrite <- (mjoin_groups postings) at 1. rewrite !Forall_forall. intros Hall Hg p Hp. apply Hall.
  apply list_elem_of_join. eauto.
Qed.

Lemma groups_nonempty postings g : g ∈ groups postings → g ≠ [].
Proof.
  induction postings as [l IH] using (induction_ltof1 _ length). destruct l as [|x l]; [by intros ?%elem_of_nil|].
  rewrite groups_cons. intros [->|Hg]%elem_of_cons; [done|]. revert Hg. apply IH.
  unfold ltof. rewrite length_drop. simpl. lia.
Qed.

Lemma counted_token gs k s n :
  counted (λ key, gs ≫= λ g, token_trace g key) k s n ↔ token_counted gs k s n = true.
Proof.
  unfold counted, token_counted. rewrite bool_decide_eq_true, Exists_exists. split.
  - intros (c & p & (g & [Hs Hp]%list_elem_of_filter & Hg)%list_elem_of_bind & Hn). exists g. split; [done|].
    apply Exists_exists. exists p. split_and!; [done|done|]. destruct Hs as [Hc Hs]. simpl in Hc. subst. by split.
  - intros (g & Hg & (p & Hp & Hn & Hs)%Exists_exists). exists (posting_chain_id p), p. split; [|done].
    apply list_elem_of_bind. exists g. split; [|done]. by apply list_elem_of_filter.
Qed.

Section RunUri.
Context (store : EntityStore) (Hstore : postings_ok store).
Abbreviation N := (length (nfts store)).
Abbreviation C := (length (chains store)).
Abbreviation tokens := (groups (token_uri_postings store)).

Lemma token_phase_ok threads shape :
  ∃ w, process_group_chunks (TokenWorker_new C) accumulate_token_scope_hits TokenWorker_merge
         threads (λ _, quiet) shape (token_uri_postings store) = Some (w, false) ∧
       worker_rep N C w (λ key, tokens ≫= λ g, token_trace g key).
Proof using Hstore.
  apply (process_group_chunks_ok _ _ _ _ (λ w gs, worker_rep N C w (λ key, gs ≫= λ g, token_trace g key))).
  - apply worker_rep_new.
  - intros w gs g Hw Hg. destruct (accumulate_token_ok N C g) with (1 := groups_Forall _ _ _ (proj1 Hstore) Hg) (2 := Hw)
      as (w' & -> & Hw'). exists w'. split; [done|]. eapply worker_rep_ext; [exact Hw'|].
    intros key. cbn beta. by rewrite bind_app, bind_one.
  - intros w1 w2 gs1 gs2 H1 H2. destruct (TokenWorker_merge_rep N C w1 w2 _ _ H1 H2) as (w & -> & Hw).
    exists w. split; [done|]. eapply worker_rep_ext; [exact Hw|]. intros key. cbn beta. by rewrite bind_app.
Qed.

Lemma image_phase_ok hits ki kx km threads shape :
  (∀ n, n < N → not_intra hits n = Some (ki n)) → (∀ n, n < N → not_cross hits n = Some (kx n)) →
  (∀ c n, c < C → n < N → not_matrix hits c n = Some (km c n)) →
  ∃ out, process_group_chunks ∅ (accumulate_image_scope_hits hits C) (λ l r, Some (local_merge l r))
           threads (λ _, quiet) shape (image_uri_postings store) = Some (out, false) ∧
         local_ok out (λ key, groups (image_uri_postings store) ≫= λ g, image_items ki kx km g key).
Proof using Hstore.
  intros Hi Hx Hm.
  apply (process_group_chunks_ok _ _ _ _ (λ out gs, local_ok out (λ key, gs ≫= λ g, image_items ki kx km g key))).
  - apply local_ok_empty.
  - intros out gs g Hout Hg.
    destruct (accumulate_image_ok N C hits ki kx km Hi Hx Hm g (groups_Forall _ _ _ (proj2 Hstore) Hg) out _
      (groups_nonempty _ _ Hg) Hout) as (out' & -> & Hout'). exists out'. split; [done|].
    eapply local_ok_ext; [exact Hout'|]. intros key. cbn beta. by rewrite bind_app, bind_one.
  - intros o1 o2 gs1 gs2 H1 H2. eexists. split; [done|].
    eapply local_ok_ext; [apply (local_merge_ok o1 o2 _ _ H1 H2)|]. intros key. cbn beta. by rewrite bind_app.
Qed.
End RunUri.

Lemma local_flush_lookup local acc dim F key :
  local_ok local F → dim ∉ completed_bulk_dimensions acc →
  or_default ScopeCounts_default (counts (local_flush local acc dim)) key =
  match summarize (F key) with
  | Some a => saturating_merge (or_default ScopeCounts_default (counts acc) key) (aggregate_counts a)
  | None => or_default ScopeCounts_default (counts acc) key
  end.
Proof.
  intros Hok Hd. unfold local_flush, merge_completed_dimension_counts. rewrite decide_False by done.
  rewrite merge_unique_contract_counts_lookup, lookup_fmap. destruct (Hok key) as [-> _].
  by destruct (summarize (F key)).
Qed.

Lemma local_flush_completed local acc dim dim' :
  dim' ∈ completed_bulk_dimensions (local_flush local acc dim) ↔
  dim' = dim ∨ dim' ∈ completed_bulk_dimensions acc.
Proof.
  unfold local_flush, merge_completed_dimension_counts. case_decide; [set_solver|]. simpl. set_solver.
Qed.

Lemma local_flush_again local acc dim :
  dim ∈ completed_bulk_dimensions acc → local_flush local acc dim = acc.
Proof. intros Hd. unfold local_flush, merge_completed_dimension_counts. by rewrite decide_True. Qed.

Lemma token_trace_dimension gs key :
  dimension key ≠ TokenUri → (gs ≫= λ g, token_trace g key) = [].
Proof.
  intros Hd. induction gs as [|g gs IH]; [done|]. rewrite bind_cons, IH, app_nil_r.
  apply filter_none. by intros p _ (_ & ? & _).
Qed.

Lemma image_items_dimension ki kx km gs key :
  dimension key ≠ ImageUri → (gs ≫= λ g, image_items ki kx km g key) = [].
Proof.
  intros Hd. induction gs as [|g gs IH]; [done|]. rewrite bind_cons, IH, app_nil_r.
  unfold image_items. cbv zeta. by rewrite decide_False.
Qed.

(** A phase nobody asks to cancel, on any number of threads. *)
Definition quiet_phase (threads : nat) (shape : Reduction) : PhaseEnv :=
  {| threads := threads; tasks := λ _, quiet; shape := shape |}.

(** What the counts of the scopes are after adding the contributions [F]. *)
Definition counts_after (acc : SummaryAccumulator) (F : ScopeKey → contributions) (key : ScopeKey)
    : ScopeCounts :=
  match summarize (F key) with
  | Some a => saturating_merge (or_default ScopeCounts_default (counts acc) key) (aggregate_counts a)
  | None => or_default ScopeCounts_default (counts acc) key
  end.

(** C4: For any number of chains (bit masks or hash sets), threads and shapes of
    the reductions, [run_uri] without cancellation succeeds and adds to every
    scope the distinct contracts and the NFT rows of the postings whose URI group
    spans the scope, where the image URI rows of a scope leave out the NFTs whose
    token URI counts in it; a second run changes nothing. *)
Theorem run_uri_counts threads1 threads2 shape1 shape2 store acc :
  postings_ok store →
  TokenUri ∉ completed_bulk_dimensions acc → ImageUri ∉ completed_bulk_dimensions acc →
  ∃ acc',
    run_uri (quiet_phase threads1 shape1) (quiet_phase threads2 shape2) store acc = Some (acc', inl tt) ∧
    (∀ key, or_default ScopeCounts_default (counts acc') key = counts_after acc (uri_items store) key) ∧
    run_uri (quiet_phase threads1 shape1) (quiet_phase threads2 shape2) store acc' = Some (acc', inl tt).
Proof.
  intros Hstore Ht Hi.
  destruct (token_phase_ok store Hstore threads1 shape1) as (w & Ew & Hw).
  destruct (collect_hits_ok _ _ w (rep_range _ _ _ _ Hw)) as (hits & Eh & Hhi & Hhx & Hhm).
  set (tokens := groups (token_uri_postings store)).
  assert (Hki : ∀ n, n < length (nfts store) → not_intra hits n = Some (kept tokens IntraChain None n)).
  { intros n _. unfold not_intra, kept. rewrite Hhi. do 2 f_equal. apply eq_true_iff_eq.
    rewrite bool_decide_eq_true, (rep_intra _ _ _ _ Hw). apply counted_token. }
  assert (Hkx : ∀ n, n < length (nfts store) → not_cross hits n = Some (kept tokens CrossChainSummary None n)).
  { intros n _. unfold not_cross, kept. rewrite Hhx. do 2 f_equal. apply eq_true_iff_eq.
    rewrite bool_decide_eq_true, (rep_cross _ _ _ _ Hw). apply counted_token. }
  assert (Hkm : ∀ c n, c < length (chains store) → n < length (nfts store) →
    not_matrix hits c n = Some (kept tokens ChainMatrix (Some c) n)).
  { intros c n Hc Hn. unfold not_matrix, kept. rewrite Hhm by done. simpl. do 2 f_equal.
    apply eq_true_iff_eq. rewrite bool_decide_eq_true, (rep_matrix _ _ _ _ Hw) by done. apply counted_token. }
  destruct (image_phase_ok store Hstore hits _ _ _ threads2 shape2 Hki Hkx Hkm) as (out & Eo & Ho).
  set (acc1 := local_flush (uri w) acc TokenUri).
  assert (Hrun : ∀ a, run_uri (quiet_phase threads1 shape1) (quiet_phase threads2 shape2) store a =
    Some (local_flush out (local_flush (uri w) a TokenUri) ImageUri, inl tt)).
  { intros a. unfold run_uri. simpl. rewrite Ew. simpl. rewrite Eh. simpl. by rewrite Eo. }
  exists (local_flush out acc1 ImageUri). split_and!; [apply Hrun| |].
  - intros key. unfold counts_after.
    rewrite (local_flush_lookup _ _ _ _ _ Ho)
      by (unfold acc1; rewrite local_flush_completed; naive_solver).
    unfold acc1. rewrite (local_flush_lookup _ _ _ _ _ (rep_uri _ _ _ _ Hw)) by done. unfold uri_items.
    destruct (dimension key) eqn:Hd;
      rewrite ?image_items_dimension, ?token_trace_dimension by congruence; done.
  - rewrite Hrun. do 2 f_equal.
    rewrite (local_flush_again (uri w)) by (unfold acc1; rewrite !local_flush_completed; tauto).
    apply local_flush_again. rewrite local_flush_completed. by left.
Qed.

(** On every group of a store with at most 64 chains the bit-mask path and
    the hash-set path for image URIs produce the same accumulator, equal for every
    scope to the declarative contributions of the group. *)
Theorem image_compact_matches_wide N C hits ki kx km g out F :
  (∀ n, n < N → not_intra hits n = Some (ki n)) →
  (∀ n, n < N → not_cross hits n = Some (kx n)) →
  (∀ c n, c < C → n < N → not_matrix hits c n = Some (km c n)) →
  Forall (posting_ok N C) g → g ≠ [] → C ≤ 64 → local_ok out F →
  ∃ out', accumulate_image_scope_hits_compact hits out g = Some out' ∧
          accumulate_image_scope_hits_wide hits out g = Some out' ∧
          ∀ key, out' !! key = summarize (F key ++ image_items ki kx km g key).
Proof.
  intros Hi Hx Hm Hg Hne HC Hok.
  destruct (accumulate_image_compact_ok N C hits ki kx km Hi Hx Hm g Hg out F Hne HC Hok) as (o1 & -> & H1).
  destruct (accumulate_image_wide_ok N C hits ki kx km Hi Hx Hm g Hg out F Hok) as (o2 & -> & H2).
  exists o1. split_and!; [done| |intros key; apply H1]. f_equal. apply map_eq. intros key.
  destruct (H1 key) as [-> _]. by destruct (H2 key) as [-> _].
Qed.

(** ** Instances *)

Definition example_posting (c ch u : nat) (ids : list nat) : UriPosting :=
  {| posting_contract_id := c; posting_chain_id := ch; uri_id := u; nft_ids := ids |}.

(** Two chains, one shared token URI and one shared image URI. *)
Definition uri_store : EntityStore :=
  {| chains := [lit "ethereum"; lit "base"]; chain_ids := ∅; contracts := []; contract_index := ∅;
     nfts := replicate 3 {| nft_id := 0; nft_contract_id := 0; nft_token_id := []; name_id := None;
                            token_uri_id := None; image_uri_id := None;
                            nft_source_order := {| file_ordinal := 0; file_row_number := 0 |} |};
     nft_index := ∅; strings := []; string_ids := ∅;
     token_uri_postings := [example_posting 0 0 0 [0]; example_posting 1 0 0 [1]; example_posting 2 1 1 [2]];
     image_uri_postings := [example_posting 0 0 2 [0]; example_posting 2 1 2 [2]];
     totals := ∅; rows_loaded := 3; metadata_anchor_limit := None; defer_metadata_sort := false;
     evm_chains := ∅ |}.

Lemma run_uri_counts_witness :
  ∃ acc',
    run_uri (quiet_phase 2 (Split 1 Fold Fold)) (quiet_phase 1 Fold) uri_store SummaryAccumulator_default
      = Some (acc', inl tt) ∧
    (∀ key, or_default ScopeCounts_default (counts acc') key =
            counts_after SummaryAccumulator_default (uri_items uri_store) key) ∧
    run_uri (quiet_phase 2 (Split 1 Fold Fold)) (quiet_phase 1 Fold) uri_store acc' = Some (acc', inl tt).
Proof.
  apply (run_uri_counts 2 1 (Split 1 Fold Fold) Fold uri_store SummaryAccumulator_default).
  - split; repeat constructor; simpl; lia.
  - set_solver.
  - set_solver.
Defined.

(** The shared token URI counts twice within the chain, and the shared image
    URI still counts across chains. *)
Example uri_items_intra :
  uri_items uri_store (scope_key TokenUri IntraChain 0 None) = [(0, 1%Z); (1, 1%Z)].
Proof. reflexivity. Qed.
Example uri_items_matrix :
  uri_items uri_store (scope_key ImageUri ChainMatrix 0 (Some 1)) = [(0, 1%Z)].
Proof. reflexivity. Qed.

Lemma image_compact_matches_wide_witness :
  ∃ out',
    accumulate_image_scope_hits_compact (TokenHits_new 3 2) ∅ (image_uri_postings uri_store) = Some out' ∧
    accumulate_image_scope_hits_wide (TokenHits_new 3 2) ∅ (image_uri_postings uri_store) = Some out' ∧
    ∀ key, out' !! key = summarize ([] ++ image_items (λ _, true) (λ _, true) (λ _ _, true)
                                           (image_uri_postings uri_store) key).
Proof.
  apply (image_compact_matches_wide 3 2 (TokenHits_new 3 2) (λ _, true) (λ _, true) (λ _ _, true)
           (image_uri_postings uri_store) ∅ (λ _, [])).
  - intros n Hn. do 3 (destruct n as [|n]; [reflexivity|]). lia.
  - intros n Hn. do 3 (destruct n as [|n]; [reflexivity|]). lia.
  - intros c n Hc Hn. do 2 (destruct c as [|c]; [do 3 (destruct n as [|n]; [reflexivity|]); lia|]). lia.
  - repeat constructor; simpl; lia.
  - done.
  - lia.
  - apply local_ok_empty.
Defined.
