(* ===== verification/Entity.v ===== *)
(** The entity store ([dedup/crates/core/src/entity.rs]): ingestion of rows, the
    merge of shards, the release of finished data and the filter on chains.

    A method on [&mut self] is a function of the store that returns the store and
    an outcome; the store is kept when the method fails, as in the code.  Indexing
    out of range and [expect] on a failure are [Panics]. *)

From S2P Require Import Prelude Radix Text CanonicalJson Types Anchors.

(** ** The state and error monad *)

Inductive outcome (A : Type) :=
  | Returns (a : A)
  | Fails (e : DedupError)
  | Panics.
Arguments Returns {A} a.
Arguments Fails {A} e.
Arguments Panics {A}.

Definition M (A : Type) : Type := EntityStore → outcome A * EntityStore.

#[export] Instance M_ret : MRet M := λ A a s, (Returns a, s).
#[export] Instance M_bind : MBind M := λ A B f m s,
  match m s with
  | (Returns a, s) => f a s
  | (Fails e, s) => (Fails e, s)
  | (Panics, s) => (Panics, s)
  end.

Definition fails {A} (e : DedupError) : M A := λ s, (Fails e, s).
Definition gets {A} (f : EntityStore → A) : M A := λ s, (Returns (f s), s).
Definition modify (f : EntityStore → EntityStore) : M () := λ s, (Returns (), f s).
(** An index or an [unwrap]. *)
Definition unwrap {A} (o : option A) : M A := λ s,
  match o with Some a => (Returns a, s) | None => (Panics, s) end.

(** [Result::expect] *)
Definition expect {A} (m : M A) : M A := λ s,
  match m s with (Fails _, s) => (Panics, s) | r => r end.

(** A [for] loop that threads a value. *)
Fixpoint for_each {A B} (f : B → A → M B) (b : B) (l : list A) : M B :=
  match l with
  | [] => mret b
  | x :: l => b ← f b x; for_each f b l
  end.

(** [vec[i] = f(vec[i])]: [None] is the panic of an index out of range. *)
Definition update_at {A} (i : nat) (f : A → A) (l : list A) : option (list A) :=
  x ← l !! i; Some (<[i := f x]> l).

(** *** Field updates *)

Definition set_chains (v : list str) (s : EntityStore) : EntityStore :=
    {| chains := v; chain_ids := chain_ids s; contracts := contracts s; contract_index :=
     contract_index s; nfts := nfts s; nft_index := nft_index s; strings := strings s; string_ids :=
     string_ids s; token_uri_postings := token_uri_postings s; image_uri_postings :=
     image_uri_postings s; totals := totals s; rows_loaded := rows_loaded s; metadata_anchor_limit
     := metadata_anchor_limit s; defer_metadata_sort := defer_metadata_sort s; evm_chains :=
     evm_chains s |}.
Definition set_chain_ids (v : gmap str ChainId) (s : EntityStore) : EntityStore :=
    {| chains := chains s; chain_ids := v; contracts := contracts s; contract_index :=
     contract_index s; nfts := nfts s; nft_index := nft_index s; strings := strings s; string_ids :=
     string_ids s; token_uri_postings := token_uri_postings s; image_uri_postings :=
     image_uri_postings s; totals := totals s; rows_loaded := rows_loaded s; metadata_anchor_limit
     := metadata_anchor_limit s; defer_metadata_sort := defer_metadata_sort s; evm_chains :=
     evm_chains s |}.
Definition set_contracts (v : list Contract) (s : EntityStore) : EntityStore :=
    {| chains := chains s; chain_ids := chain_ids s; contracts := v; contract_index :=
     contract_index s; nfts := nfts s; nft_index := nft_index s; strings := strings s; string_ids :=
     string_ids s; token_uri_postings := token_uri_postings s; image_uri_postings :=
     image_uri_postings s; totals := totals s; rows_loaded := rows_loaded s; metadata_anchor_limit
     := metadata_anchor_limit s; defer_metadata_sort := defer_metadata_sort s; evm_chains :=
     evm_chains s |}.
Definition set_contract_index (v : gmap (ChainId * str) ContractId) (s : EntityStore) : EntityStore :=
    {| chains := chains s; chain_ids := chain_ids s; contracts := contracts s; contract_index := v;
     nfts := nfts s; nft_index := nft_index s; strings := strings s; string_ids := string_ids s;
     token_uri_postings := token_uri_postings s; image_uri_postings := image_uri_postings s; totals
     := totals s; rows_loaded := rows_loaded s; metadata_anchor_limit := metadata_anchor_limit s;
     defer_metadata_sort := defer_metadata_sort s; evm_chains := evm_chains s |}.
Definition set_nfts (v : list Nft) (s : EntityStore) : EntityStore :=
    {| chains := chains s; chain_ids := chain_ids s; contracts := contracts s; contract_index :=
     contract_index s; nfts := v; nft_index := nft_index s; strings := strings s; string_ids :=
     string_ids s; token_uri_postings := token_uri_postings s; image_uri_postings :=
     image_uri_postings s; totals := totals s; rows_loaded := rows_loaded s; metadata_anchor_limit
     := metadata_anchor_limit s; defer_metadata_sort := defer_metadata_sort s; evm_chains :=
     evm_chains s |}.
Definition set_nft_index (v : gmap (ContractId * str) NftId) (s : EntityStore) : EntityStore :=
    {| chains := chains s; chain_ids := chain_ids s; contracts := contracts s; contract_index :=
     contract_index s; nfts := nfts s; nft_index := v; strings := strings s; string_ids :=
     string_ids s; token_uri_postings := token_uri_postings s; image_uri_postings :=
     image_uri_postings s; totals := totals s; rows_loaded := rows_loaded s; metadata_anchor_limit
     := metadata_anchor_limit s; defer_metadata_sort := defer_metadata_sort s; evm_chains :=
     evm_chains s |}.
Definition set_strings (v : list str) (s : EntityStore) : EntityStore :=
    {| chains := chains s; chain_ids := chain_ids s; contracts := contracts s; contract_index :=
     contract_index s; nfts := nfts s; nft_index := nft_index s; strings := v; string_ids :=
     string_ids s; token_uri_postings := token_uri_postings s; image_uri_postings :=
     image_uri_postings s; totals := totals s; rows_loaded := rows_loaded s; metadata_anchor_limit
     := metadata_anchor_limit s; defer_metadata_sort := defer_metadata_sort s; evm_chains :=
     evm_chains s |}.
Definition set_string_ids (v : gmap str StringId) (s : EntityStore) : EntityStore :=
    {| chains := chains s; chain_ids := chain_ids s; contracts := contracts s; contract_index :=
     contract_index s; nfts := nfts s; nft_index := nft_index s; strings := strings s; string_ids :=
     v; token_uri_postings := token_uri_postings s; image_uri_postings := image_uri_postings s;
     totals := totals s; rows_loaded := rows_loaded s; metadata_anchor_limit :=
     metadata_anchor_limit s; defer_metadata_sort := defer_metadata_sort s; evm_chains := evm_chains
     s |}.
Definition set_token_uri_postings (v : list UriPosting) (s : EntityStore) : EntityStore :=
    {| chains := chains s; chain_ids := chain_ids s; contracts := contracts s; contract_index :=
     contract_index s; nfts := nfts s; nft_index := nft_index s; strings := strings s; string_ids :=
     string_ids s; token_uri_postings := v; image_uri_postings := image_uri_postings s; totals :=
     totals s; rows_loaded := rows_loaded s; metadata_anchor_limit := metadata_anchor_limit s;
     defer_metadata_sort := defer_metadata_sort s; evm_chains := evm_chains s |}.
Definition set_image_uri_postings (v : list UriPosting) (s : EntityStore) : EntityStore :=
    {| chains := chains s; chain_ids := chain_ids s; contracts := contracts s; contract_index :=
     contract_index s; nfts := nfts s; nft_index := nft_index s; strings := strings s; string_ids :=
     string_ids s; token_uri_postings := token_uri_postings s; image_uri_postings := v; totals :=
     totals s; rows_loaded := rows_loaded s; metadata_anchor_limit := metadata_anchor_limit s;
     defer_metadata_sort := defer_metadata_sort s; evm_chains := evm_chains s |}.
Definition set_totals (v : gmap ChainId ChainTotals) (s : EntityStore) : EntityStore :=
    {| chains := chains s; chain_ids := chain_ids s; contracts := contracts s; contract_index :=
     contract_index s; nfts := nfts s; nft_index := nft_index s; strings := strings s; string_ids :=
     string_ids s; token_uri_postings := token_uri_postings s; image_uri_postings :=
     image_uri_postings s; totals := v; rows_loaded := rows_loaded s; metadata_anchor_limit :=
     metadata_anchor_limit s; defer_metadata_sort := defer_metadata_sort s; evm_chains := evm_chains
     s |}.
Definition set_rows_loaded (v : Z) (s : EntityStore) : EntityStore :=
    {| chains := chains s; chain_ids := chain_ids s; contracts := contracts s; contract_index :=
     contract_index s; nfts := nfts s; nft_index := nft_index s; strings := strings s; string_ids :=
     string_ids s; token_uri_postings := token_uri_postings s; image_uri_postings :=
     image_uri_postings s; totals := totals s; rows_loaded := v; metadata_anchor_limit :=
     metadata_anchor_limit s; defer_metadata_sort := defer_metadata_sort s; evm_chains := evm_chains
     s |}.
Definition set_defer_metadata_sort (v : bool) (s : EntityStore) : EntityStore :=
    {| chains := chains s; chain_ids := chain_ids s; contracts := contracts s; contract_index :=
     contract_index s; nfts := nfts s; nft_index := nft_index s; strings := strings s; string_ids :=
     string_ids s; token_uri_postings := token_uri_postings s; image_uri_postings :=
     image_uri_postings s; totals := totals s; rows_loaded := rows_loaded s; metadata_anchor_limit
     := metadata_anchor_limit s; defer_metadata_sort := v; evm_chains := evm_chains s |}.

(** ** Construction and reads *)

Definition with_options (limit : option nat) (evm : gset str) : EntityStore :=
  {| chains := []; chain_ids := ∅; contracts := []; contract_index := ∅; nfts := []; nft_index := ∅;
     strings := []; string_ids := ∅; token_uri_postings := []; image_uri_postings := []; totals := ∅;
     rows_loaded := 0; metadata_anchor_limit := limit; defer_metadata_sort := false;
     evm_chains := evm |}.

Definition EntityStore_default : EntityStore := with_options None ∅.

Definition defer_unbounded_metadata_sort (s : EntityStore) : EntityStore :=
  set_defer_metadata_sort (bool_decide (metadata_anchor_limit s = None)) s.

Definition chain_name (s : EntityStore) (id : ChainId) : option str := chains s !! id.
Definition string_of (s : EntityStore) (id : StringId) : option str := strings s !! id.
Definition string_id (s : EntityStore) (value : str) : option StringId := string_ids s !! value.
Definition nft_id_of (s : EntityStore) (contract : ContractId) (token : str) : option NftId :=
  nft_index s !! (contract, token).
Definition is_solana_chain (s : EntityStore) (id : ChainId) : option bool :=
  name ← chain_name s id; Some (bool_decide (name = lit "solana")).

(** ** Ids *)

(** [u16::try_from(len)] and [u32::try_from(len)] for a length. *)
Definition fits_u16 (n : nat) : bool := (Z.of_nat n <? 2 ^ 16)%Z.
Definition fits_u32 (n : nat) : bool := (Z.of_nat n <? 2 ^ 32)%Z.

Definition ensure_chain (chain : str) : M ChainId := λ s,
  match chain_ids s !! chain with
  | Some id => (Returns id, s)
  | None =>
      let id := length (chains s) in
      if fits_u16 id then
        (Returns id,
         set_totals (<[id := ChainTotals_default]> (totals s))
           (set_chain_ids (<[chain := id]> (chain_ids s))
              (set_chains (chains s ++ [chain]) s)))
      else (Fails (InvalidInput "load"), s)
  end.

Definition intern_string (value : str) : M StringId := λ s,
  match string_ids s !! value with
  | Some id => (Returns id, s)
  | None =>
      let id := length (strings s) in
      if fits_u32 id then
        (Returns id,
         set_string_ids (<[value := id]> (string_ids s)) (set_strings (strings s ++ [value]) s))
      else (Fails (InvalidInput "load"), s)
  end.

(** [self.totals.entry(chain_id).or_default()], then an update of the entry. *)
Definition update_totals (id : ChainId) (f : ChainTotals → ChainTotals) (s : EntityStore) : EntityStore :=
  set_totals (partial_alter (λ t, Some (f (default ChainTotals_default t))) id (totals s)) s.

Definition count_contract (t : ChainTotals) : ChainTotals :=
  {| total_contracts := wrapping_add64 (total_contracts t) 1; total_nfts := total_nfts t |}.
Definition count_nft (t : ChainTotals) : ChainTotals :=
  {| total_contracts := total_contracts t; total_nfts := wrapping_add64 (total_nfts t) 1 |}.

(** The contract of a chain and an address, created when it is new. *)
Definition ensure_contract (chain_id : ChainId) (addr : str) : M ContractId := λ s,
  match contract_index s !! (chain_id, addr) with
  | Some id => (Returns id, s)
  | None =>
      let id := length (contracts s) in
      if fits_u32 id then
        (Returns id,
         update_totals chain_id count_contract
           (set_contract_index (<[(chain_id, addr) := id]> (contract_index s))
              (set_contracts (contracts s ++
                 [{| contract_id := id; contract_chain_id := chain_id; address := addr;
                     nft_count := 0; metadata_by_token := [] |}]) s)))
      else (Fails (InvalidInput "load"), s)
  end.

(** ** Metadata anchors *)

Definition with_metadata (l : list MetadataRecord) (c : Contract) : Contract :=
  {| contract_id := contract_id c; contract_chain_id := contract_chain_id c; address := address c;
     nft_count := nft_count c; metadata_by_token := l |}.
Definition with_address (a : str) (c : Contract) : Contract :=
  {| contract_id := contract_id c; contract_chain_id := contract_chain_id c; address := a;
     nft_count := nft_count c; metadata_by_token := metadata_by_token c |}.
Definition with_nft_count (n : Z) (c : Contract) : Contract :=
  {| contract_id := contract_id c; contract_chain_id := contract_chain_id c; address := address c;
     nft_count := n; metadata_by_token := metadata_by_token c |}.

(** Replaces the anchors of a contract. *)
Definition put_metadata (id : ContractId) (l : list MetadataRecord) : M () :=
  cs ← gets contracts; cs ← unwrap (update_at id (with_metadata l) cs);
  modify (set_contracts cs).

Definition insert_metadata_anchor (id : ContractId) (chain token json : str) (order : SourceOrder) : M () :=
  limit ← gets metadata_anchor_limit;
  if decide (limit = Some 0) then mret () else
  let record := {| record_token_id := token; canonical_json := json; record_source_order := order |} in
  deferred ← gets defer_metadata_sort;
  c ← (gets contracts ≫= λ cs, unwrap (cs !! id));
  if (deferred : bool) then put_metadata id (metadata_by_token c ++ [record]) else
  evm ← gets evm_chains;
  anchors ← unwrap (insert_anchor limit (bool_decide (chain ∈ evm)) (metadata_by_token c) record);
  put_metadata id anchors.

Definition finalize_metadata_anchors `{UnstableSort} : M () :=
  deferred ← gets defer_metadata_sort;
  if negb deferred then mret () else
  names ← gets chains;
  evm ← gets evm_chains;
  cs ← gets contracts;
  cs ← unwrap (mapM (λ c,
    name ← names !! contract_chain_id c;
    Some (with_metadata (finalize_anchors (bool_decide (name ∈ evm)) (metadata_by_token c)) c)) cs);
  modify (λ s, set_defer_metadata_sort false (set_contracts cs s)).

(** ** Rows *)

Definition with_uris (name token image : option StringId) (n : Nft) : Nft :=
  {| nft_id := nft_id n; nft_contract_id := nft_contract_id n; nft_token_id := nft_token_id n;
     name_id := name; token_uri_id := token; image_uri_id := image; nft_source_order := nft_source_order n |}.

Definition merge_uri_value (existing : option StringId) (incoming : str) : M (option StringId) :=
  if decide (incoming = []) then mret existing else
  match existing with
  | Some id =>
      text ← (gets strings ≫= λ ss, unwrap (ss !! id));
      if decide (text ≠ incoming) then fails (InvalidInput "load") else mret existing
  | None => id ← intern_string incoming; mret (Some id)
  end.

(** [None] for an empty text, the interned text otherwise. *)
Definition intern_unless (empty : bool) (value : str) : M (option StringId) :=
  if empty then mret None else id ← intern_string value; mret (Some id).

Definition is_blank (value : str) : bool := bool_decide (trim value = []).

Definition merge_duplicate_nft (id : NftId) (row : InputRow) : M () :=
  n ← (gets nfts ≫= λ ns, unwrap (ns !! id));
  name ← (if bool_decide (name_id n = None) && negb (is_blank (name_norm row))
          then id ← intern_string (name_norm row); mret (Some id)
          else mret (name_id n));
  token ← merge_uri_value (token_uri_id n) (token_uri_norm row);
  image ← merge_uri_value (image_uri_id n) (image_uri_norm row);
  ns ← gets nfts;
  ns ← unwrap (update_at id (with_uris name token image) ns);
  modify (set_nfts ns).

(** Appends an NFT, indexes it and counts it in its contract and chain. *)
Definition push_nft (chain_of : M ChainId) (contract : ContractId) (token : str)
    (name turi iuri : option StringId) (order : SourceOrder) : M () :=
  ns ← gets nfts;
  let id := length ns in
  if negb (fits_u32 id) then fails (InvalidInput "load") else
  modify (set_nfts (ns ++ [{| nft_id := id; nft_contract_id := contract; nft_token_id := token;
    name_id := name; token_uri_id := turi; image_uri_id := iuri; nft_source_order := order |}]));;
  modify (λ s, set_nft_index (<[(contract, token) := id]> (nft_index s)) s);;
  chain_id ← chain_of;
  cs ← gets contracts;
  cs ← unwrap (update_at contract (λ c, with_nft_count (wrapping_add64 (nft_count c) 1) c) cs);
  modify (set_contracts cs);;
  modify (update_totals chain_id count_nft);;
  modify (λ s, set_rows_loaded (wrapping_add64 (rows_loaded s) 1) s).

Section Ingest.
Context `{JsonLibrary}.

Definition try_ingest_row (row : InputRow) : M () :=
  if decide (chain row = [] ∨ contract_address row = [] ∨ token_id row = []) then mret () else
  chain_id ← ensure_chain (chain row);
  contract ← ensure_contract chain_id (contract_address row);
  match validated_metadata (metadata_json row) with
  | Some json =>
      insert_metadata_anchor contract (chain row) (token_id row) json (row_source_order row)
  | None => mret ()
  end;;
  existing ← gets (λ s, nft_index s !! (contract, token_id row));
  match existing with
  | Some id => merge_duplicate_nft id row
  | None =>
      token ← intern_unless (bool_decide (token_uri_norm row = [])) (token_uri_norm row);
      image ← intern_unless (bool_decide (image_uri_norm row = [])) (image_uri_norm row);
      name ← intern_unless (is_blank (name_norm row)) (name_norm row);
      push_nft (mret chain_id) contract (token_id row) name token image (row_source_order row)
  end.
End Ingest.

(** ** URI postings *)

Section Postings.
Context `{WriteSchedule (Z * Z * Z)} (num_threads : nat).

(** The inner loop: how many further tuples belong to the same URI and contract. *)
Fixpoint posting_run (uri contract : Z) (tuples : list (Z * Z * Z)) : nat :=
  match tuples with
  | [] => 0
  | t :: tuples =>
      if decide (t.1.1 = uri ∧ t.1.2 = contract) then S (posting_run uri contract tuples) else 0
  end.

(** The outer loop over the sorted tuples; [fuel] bounds the number of postings,
    and the number of tuples is enough. *)
Fixpoint group_postings (contracts : list Contract) (fuel : nat) (tuples : list (Z * Z * Z))
    : option (list UriPosting) :=
  match tuples with
  | [] => Some []
  | (uri, contract, _) :: rest =>
      match fuel with
      | 0 => None
      | S fuel =>
          let run := S (posting_run uri contract rest) in
          c ← contracts !! Z.to_nat contract;
          postings ← group_postings contracts fuel (drop run tuples);
          Some ({| posting_contract_id := Z.to_nat contract; posting_chain_id := contract_chain_id c;
                   uri_id := Z.to_nat uri;
                   nft_ids := map (λ t : Z * Z * Z, Z.to_nat t.2) (take run tuples) |} :: postings)
      end
  end.

(** The URI, contract and NFT ids of the NFTs that have a URI in the dimension. *)
Definition uri_tuples (nfts : list Nft) (token_dimension : bool) : list (Z * Z * Z) :=
  omap (λ n, uri ← (if token_dimension then token_uri_id n else image_uri_id n);
             Some (Z.of_nat uri, Z.of_nat (nft_contract_id n), Z.of_nat (nft_id n))) nfts.

Definition build_uri_postings (contracts : list Contract) (nfts : list Nft) (token_dimension : bool)
    : option (list UriPosting) :=
  tuples ← sort_u32_triples num_threads (uri_tuples nfts token_dimension);
  group_postings contracts (length tuples) tuples.

(** The two builds run in parallel on shared, unchanged vectors. *)
Definition rebuild_uri_postings : M () :=
  cs ← gets contracts;
  ns ← gets nfts;
  token ← unwrap (build_uri_postings cs ns true);
  image ← unwrap (build_uri_postings cs ns false);
  modify (λ s, set_image_uri_postings image (set_token_uri_postings token s)).
End Postings.

(** ** Release of finished data *)

Definition release_metadata_records (s : EntityStore) : EntityStore :=
  set_contracts (map (with_metadata []) (contracts s)) s.

Definition clear_token_id (n : Nft) : Nft :=
  {| nft_id := nft_id n; nft_contract_id := nft_contract_id n; nft_token_id := [];
     name_id := name_id n; token_uri_id := token_uri_id n; image_uri_id := image_uri_id n;
     nft_source_order := nft_source_order n |}.

Definition release_metadata_payloads (s : EntityStore) : EntityStore :=
  let s := release_metadata_records s in
  set_nft_index ∅ (set_nfts (map clear_token_id (nfts s)) s).

Definition release_contract_addresses (s : EntityStore) : EntityStore :=
  set_contracts (map (with_address []) (contracts s)) s.

Definition release_metadata (s : EntityStore) : EntityStore :=
  release_contract_addresses (release_metadata_payloads s).

(** The loop that renumbers the image URIs by first use; its state is the map from
    old to new ids and the retained texts. *)
Fixpoint remap_images (strings : list str) (remap : gmap StringId StringId) (image_strings : list str)
    (ns : list Nft) : option (list Nft * list str) :=
  match ns with
  | [] => Some ([], image_strings)
  | n :: ns =>
      match image_uri_id n with
      | None => '(ns, image_strings) ← remap_images strings remap image_strings ns;
                Some (n :: ns, image_strings)
      | Some old_id =>
          '(new_id, remap, image_strings) ←
            match remap !! old_id with
            | Some id => Some (id, remap, image_strings)
            | None =>
                let id := length image_strings in
                if fits_u32 id then
                  text ← strings !! old_id;
                  Some (id, <[old_id := id]> remap, image_strings ++ [text])
                else None
            end;
          '(ns, image_strings) ← remap_images strings remap image_strings ns;
          Some (with_uris (name_id n) (token_uri_id n) (Some new_id) n :: ns, image_strings)
      end
  end.

Definition release_completed_with_image_retention (preserve_images : bool) : M () :=
  modify (λ s, set_image_uri_postings [] (set_token_uri_postings [] s));;
  (if preserve_images then
     ns ← gets nfts;
     ss ← gets strings;
     '(ns, image_strings) ← unwrap (remap_images ss ∅ [] ns);
     modify (λ s, set_strings image_strings (set_nfts ns s))
   else modify (set_strings []));;
  modify (λ s,
    set_nfts (map (λ n, with_uris None None (if preserve_images then image_uri_id n else None) n) (nfts s))
      (set_contract_index ∅ (set_chain_ids ∅ (set_string_ids ∅ s)))).

Definition release_completed_dimension_data : M () := release_completed_with_image_retention false.
Definition release_completed_dimension_data_preserving_image_uris : M () :=
  release_completed_with_image_retention true.

(** ** Merging shards *)

Definition merge_mapped_uri (existing incoming : option StringId) : option StringId + DedupError :=
  match existing, incoming with
  | None, value => inl value
  | value, None => inl value
  | Some a, Some b => if decide (a = b) then inl (Some a) else inr (InvalidInput "load")
  end.

Definition lift_result {A} (r : A + DedupError) : M A :=
  match r with inl a => mret a | inr e => fails e end.

(** [id.map(|id| string_map[id as usize])] *)
Definition map_id (m : list StringId) (id : option StringId) : option (option StringId) :=
  match id with None => Some None | Some id => new ← m !! id; Some (Some new) end.

(** One iteration of the loop over the shard's contracts. *)
Definition merge_contract (chain_map : list ChainId) (contract_map : list ContractId) (c : Contract)
    : M (list ContractId) :=
  chain_id ← unwrap (chain_map !! contract_chain_id c);
  id ← ensure_contract chain_id (address c);
  contract_map ← unwrap (update_at (contract_id c) (λ _, id) contract_map);
  name ← (gets chains ≫= λ names, unwrap (names !! chain_id));
  for_each (λ _ r, insert_metadata_anchor id name (record_token_id r) (canonical_json r) (record_source_order r))
    () (metadata_by_token c);;
  mret contract_map.

(** Assigns one field of an NFT. *)
Definition put_nft (id : NftId) (f : Nft → Nft) : M () :=
  ns ← gets nfts; ns ← unwrap (update_at id f ns); modify (set_nfts ns).

Definition merge_existing_nft (id : NftId) (name token image : option StringId) : M () :=
  e ← (gets nfts ≫= λ ns, unwrap (ns !! id));
  (if decide (name_id e = None)
   then put_nft id (λ e, with_uris name (token_uri_id e) (image_uri_id e) e) else mret ());;
  t ← lift_result (merge_mapped_uri (token_uri_id e) token);
  put_nft id (λ e, with_uris (name_id e) t (image_uri_id e) e);;
  i ← lift_result (merge_mapped_uri (image_uri_id e) image);
  put_nft id (λ e, with_uris (name_id e) (token_uri_id e) i e).

(** One iteration of the loop over the shard's NFTs. *)
Definition merge_nft (string_map : list StringId) (contract_map : list ContractId) (n : Nft) : M () :=
  contract ← unwrap (contract_map !! nft_contract_id n);
  name ← unwrap (map_id string_map (name_id n));
  token ← unwrap (map_id string_map (token_uri_id n));
  image ← unwrap (map_id string_map (image_uri_id n));
  existing ← gets (λ s, nft_index s !! (contract, nft_token_id n));
  match existing with
  | Some id => merge_existing_nft id name token image
  | None =>
      push_nft (cs ← gets contracts; c ← unwrap (cs !! contract); mret (contract_chain_id c))
        contract (nft_token_id n) name token image (nft_source_order n)
  end.

Definition merge_shard (shard : EntityStore) : M () :=
  chain_map ← for_each (λ m c, id ← ensure_chain c; mret (m ++ [id])) [] (chains shard);
  string_map ← for_each (λ m v, id ← intern_string v; mret (m ++ [id])) [] (strings shard);
  contract_map ← for_each (merge_contract chain_map) (replicate (length (contracts shard)) 0) (contracts shard);
  for_each (λ _ n, merge_nft string_map contract_map n) () (nfts shard).

(** ** The filter on chains *)

Section Retain.
Context `{JsonLibrary} `{WriteSchedule (Z * Z * Z)} (num_threads : nat).

(** The row that stands for an NFT of the old store. *)
Definition retained_row (old : EntityStore) (n : Nft) (c : Contract) (name : str) : option InputRow :=
  let text id := match id with None => Some [] | Some id => string_of old id end in
  name_text ← text (name_id n);
  token ← text (token_uri_id n);
  image ← text (image_uri_id n);
  Some {| chain := name; contract_address := address c; token_id := nft_token_id n;
    name_norm := name_text; token_uri_norm := token; image_uri_norm := image;
    metadata_json := default [] (canonical_json <$>
      list_find (λ r, record_token_id r = nft_token_id n) (metadata_by_token c) ≫= λ r, Some r.2);
    row_source_order := nft_source_order n |}.

(** The loop over the old store's NFTs, on the replacement; [expect] makes an
    error of the ingestion a panic. *)
Definition retain_nft (allowed : gset str) (old : EntityStore) (n : Nft) : M () :=
  c ← unwrap (contracts old !! nft_contract_id n);
  name ← unwrap (chain_name old (contract_chain_id c));
  if decide (name ∉ allowed) then mret () else
  row ← unwrap (retained_row old n c name);
  expect (try_ingest_row row).

Definition retain_chains (allowed : gset str) : M () := λ s,
  if decide (allowed = ∅) then (Returns (), s) else
  let replacement := with_options (metadata_anchor_limit s) (evm_chains s) in
  (for_each (λ _ n, retain_nft allowed s n) () (nfts s);; rebuild_uri_postings num_threads) replacement.
End Retain.
