(* ===== verification/EntityInvariant.v ===== *)
(** The invariant of the entity store and its preservation by the operations that
    build it.  Programs of the monad of [Entity] are specified by weakest
    preconditions, which rule out panics. *)

From S2P Require Import Prelude Text CanonicalJson Types Anchors Entity.

(** ** Weakest preconditions *)

Section Wp.
Context {A B : Type}.
Implicit Types (s : EntityStore).

(** [m] does not panic; [Q] holds when it returns and [E] when it fails. *)
Definition wp (m : M A) s (Q : A → EntityStore → Prop) (E : DedupError → EntityStore → Prop) : Prop :=
  match m s with
  | (Returns a, s') => Q a s'
  | (Fails e, s') => E e s'
  | (Panics, _) => False
  end.
End Wp.

Section WpRules.
Context {A B : Type}.
Implicit Types (s : EntityStore).

Lemma wp_ret (a : A) s Q E : Q a s → wp (mret a) s Q E.
Proof. done. Qed.

Lemma wp_fails e s (Q : A → EntityStore → Prop) E : E e s → wp (fails e) s Q E.
Proof. done. Qed.

Lemma wp_gets (f : EntityStore → A) s Q E : Q (f s) s → wp (gets f) s Q E.
Proof. done. Qed.

Lemma wp_modify f s Q E : Q () (f s) → wp (modify f) s Q E.
Proof. done. Qed.

Lemma wp_unwrap (o : option A) a s Q E : o = Some a → Q a s → wp (unwrap o) s Q E.
Proof. by intros -> ?. Qed.

Lemma wp_bind (f : A → M B) m s Q E :
  wp m s (λ a s', wp (f a) s' Q E) E → wp (m ≫= f) s Q E.
Proof. unfold wp, mbind, M_bind. destruct (m s) as [[a|e|] s']; done. Qed.

Lemma wp_mono (m : M A) s (Q Q' : A → EntityStore → Prop) (E E' : DedupError → EntityStore → Prop) :
  wp m s Q E → (∀ a s', Q a s' → Q' a s') → (∀ e s', E e s' → E' e s') → wp m s Q' E'.
Proof. unfold wp. intros Hw HQ HE. destruct (m s) as [[a|e|] s']; auto. Qed.

End WpRules.

(** A loop keeps an invariant that says how much of the list is done. *)
Lemma wp_for_each {A B} (f : B → A → M B) (I : list A → B → EntityStore → Prop) E b l s :
  I [] b s →
  (∀ l1 x l2 b s, l = l1 ++ x :: l2 → I l1 b s → wp (f b x) s (I (l1 ++ [x])) E) →
  wp (for_each f b l) s (I l) E.
Proof.
  intros H0 Hstep.
  assert (H : ∀ done todo b s, l = done ++ todo → I done b s → wp (for_each f b todo) s (I l) E).
  { intros done todo. revert done. induction todo as [|x todo IH]; intros don b' s' -> HI; cbn [for_each].
    - rewrite app_nil_r. exact HI.
    - apply wp_bind. eapply wp_mono; [by apply (Hstep don x todo)| |done]. intros b'' s'' HI'.
      specialize (IH (don ++ [x]) b'' s''). rewrite <- app_assoc in IH. by apply IH. }
  by apply (H []).
Qed.
(** ** Indices *)

Section Index.
Context `{Countable K}.
Implicit Types (l : list K) (m : gmap K nat).

(** [m] maps every element of [l] to its position, so [l] has no repetition. *)
Definition index_ok l m : Prop := ∀ k i, m !! k = Some i ↔ l !! i = Some k.

Lemma index_ok_nil : index_ok [] ∅.
Proof. intros k i. by rewrite lookup_empty, lookup_nil. Qed.

Lemma index_ok_push l m k : index_ok l m → m !! k = None → index_ok (l ++ [k]) (<[k := length l]> m).
Proof.
  intros Hl Hk k' i. rewrite lookup_insert, lookup_snoc_Some. case_decide as Heq.
  - subst k'. split.
    + intros [= <-]. by right.
    + intros [[_ Hi]|[-> _]]; [|done]. apply Hl in Hi. congruence.
  - rewrite (Hl k' i). split.
    + intros Hi. left. split; [by eapply lookup_lt_Some|done].
    + intros [[_ ?]|[_ ?]]; [done|congruence].
Qed.

Lemma index_ok_fresh l m k i : index_ok l m → m !! k = None → l !! i ≠ Some k.
Proof. intros Hl Hk Hi%Hl. congruence. Qed.

Lemma index_ok_inj l m i j k : index_ok l m → l !! i = Some k → l !! j = Some k → i = j.
Proof. intros Hl Hi%Hl Hj%Hl. congruence. Qed.

Lemma index_ok_NoDup l m : index_ok l m → NoDup l.
Proof. intros Hl. apply NoDup_alt. intros i j x Hi Hj. by eapply index_ok_inj. Qed.
End Index.

(** ** The invariant *)

Definition contract_key (c : Contract) : ChainId * str := (contract_chain_id c, address c).
Definition nft_key (n : Nft) : ContractId * str := (nft_contract_id n, nft_token_id n).

(** An id field holds a text of the table that satisfies [P]. *)
Definition text_field (strings : list str) (P : str → Prop) (id : option StringId) : Prop :=
  ∀ i, id = Some i → ∃ t, strings !! i = Some t ∧ P t.

Record nft_ok (n_contracts : nat) (strings : list str) (i : nat) (n : Nft) : Prop := {
  nft_ok_id : nft_id n = i;
  nft_ok_contract : nft_contract_id n < n_contracts;
  nft_ok_token : nft_token_id n ≠ [];
  nft_ok_name : text_field strings (λ t, is_blank t = false) (name_id n);
  nft_ok_token_uri : text_field strings (λ t, t ≠ []) (token_uri_id n);
  nft_ok_image_uri : text_field strings (λ t, t ≠ []) (image_uri_id n);
}.

(** The chain of the contract of an NFT. *)
Definition nft_chain (contracts : list Contract) (n : Nft) : option ChainId :=
  contract_chain_id <$> contracts !! nft_contract_id n.

Definition nfts_of_contract (nfts : list Nft) (i : ContractId) : list Nft :=
  filter (λ n, nft_contract_id n = i) nfts.

Record contract_ok (limit : option nat) (deferred : bool) (evm : gset str) (names : list str) (nfts : list Nft)
    (i : nat) (c : Contract) : Prop := {
  contract_ok_id : contract_id c = i;
  contract_ok_address : address c ≠ [];
  contract_ok_chain : ∃ name, names !! contract_chain_id c = Some name ∧ name ≠ [] ∧
    (deferred = false → anchors_ok limit (bool_decide (name ∈ evm)) (metadata_by_token c));
  contract_ok_count : nft_count c = Z.of_nat (length (nfts_of_contract nfts i));
}.

(** The totals of a chain, counted. *)
Definition counted_totals (contracts : list Contract) (nfts : list Nft) (ch : ChainId) : ChainTotals :=
  {| total_contracts := Z.of_nat (length (filter (λ c, contract_chain_id c = ch) contracts));
     total_nfts := Z.of_nat (length (filter (λ n, nft_chain contracts n = Some ch) nfts)) |}.

Record store_ok (s : EntityStore) : Prop := {
  ok_chains : index_ok (chains s) (chain_ids s);
  ok_strings : index_ok (strings s) (string_ids s);
  ok_contract_index : index_ok (contract_key <$> contracts s) (contract_index s);
  ok_nft_index : index_ok (nft_key <$> nfts s) (nft_index s);
  ok_contracts : ∀ i c, contracts s !! i = Some c →
    contract_ok (metadata_anchor_limit s) (defer_metadata_sort s) (evm_chains s) (chains s) (nfts s) i c;
  ok_nfts : ∀ i n, nfts s !! i = Some n → nft_ok (length (contracts s)) (strings s) i n;
  ok_totals : ∀ ch, ch < length (chains s) → totals s !! ch = Some (counted_totals (contracts s) (nfts s) ch);
  ok_rows : rows_loaded s = Z.of_nat (length (nfts s));
  ok_chains_size : (Z.of_nat (length (chains s)) ≤ 2 ^ 16)%Z;
  ok_strings_size : (Z.of_nat (length (strings s)) ≤ 2 ^ 32)%Z;
  ok_contracts_size : (Z.of_nat (length (contracts s)) ≤ 2 ^ 32)%Z;
  ok_nfts_size : (Z.of_nat (length (nfts s)) ≤ 2 ^ 32)%Z;
  ok_deferred : defer_metadata_sort s = true → metadata_anchor_limit s = None;
}.

(** Some id space is exhausted. *)
Definition at_capacity (s : EntityStore) : Prop :=
  (Z.of_nat (length (chains s)) = 2 ^ 16 ∨ Z.of_nat (length (strings s)) = 2 ^ 32 ∨
   Z.of_nat (length (contracts s)) = 2 ^ 32 ∨ Z.of_nat (length (nfts s)) = 2 ^ 32)%Z.

Lemma with_options_ok limit evm : store_ok (with_options limit evm).
Proof.
  split; simpl; try apply index_ok_nil; try done; try (intros ? ?; by rewrite lookup_nil).
  intros ch Hch. simpl in Hch. lia.
Qed.

Lemma defer_ok limit evm : store_ok (defer_unbounded_metadata_sort (with_options limit evm)).
Proof.
  pose proof (with_options_ok limit evm) as [].
  split; simpl in *; try done. by intros ?%bool_decide_eq_true.
Qed.

(** ** Growth *)

(** The tables and contracts only grow; the NFTs stay. *)
Record grows (s s' : EntityStore) : Prop := {
  grows_chains : chains s `prefix_of` chains s';
  grows_strings : strings s `prefix_of` strings s';
  grows_contracts : (contract_key <$> contracts s) `prefix_of` (contract_key <$> contracts s');
  grows_nfts : nfts s' = nfts s;
  grows_nft_index : nft_index s' = nft_index s;
  grows_limit : metadata_anchor_limit s' = metadata_anchor_limit s;
  grows_deferred : defer_metadata_sort s' = defer_metadata_sort s;
  grows_evm : evm_chains s' = evm_chains s;
}.

#[export] Instance grows_preorder : PreOrder grows.
Proof.
  split.
  - by split.
  - intros s1 s2 s3 [] []. split; try congruence; by etrans.
Qed.

Lemma prefix_lookup_Some {A} (l1 l2 : list A) i x : l1 `prefix_of` l2 → l1 !! i = Some x → l2 !! i = Some x.
Proof. intros [k ->] Hx. by apply lookup_app_l_Some. Qed.

(** Adding texts keeps the NFTs well formed. *)
Lemma text_field_prefix l1 l2 P id : l1 `prefix_of` l2 → text_field l1 P id → text_field l2 P id.
Proof. intros Hp Hf i Hi. destruct (Hf i Hi) as (t & Ht & HP). exists t. split; [by eapply prefix_lookup_Some|done]. Qed.

Lemma nft_ok_grow k1 k2 l1 l2 i n : k1 ≤ k2 → l1 `prefix_of` l2 → nft_ok k1 l1 i n → nft_ok k2 l2 i n.
Proof. intros Hk Hp []. split; try done; [lia|by eapply text_field_prefix..]. Qed.

Lemma fits_u16_spec n : fits_u16 n = true ↔ (Z.of_nat n < 2 ^ 16)%Z.
Proof. apply Z.ltb_lt. Qed.
Lemma fits_u32_spec n : fits_u32 n = true ↔ (Z.of_nat n < 2 ^ 32)%Z.
Proof. apply Z.ltb_lt. Qed.

Lemma fits_u16_false n : (Z.of_nat n ≤ 2 ^ 16)%Z → fits_u16 n = false → (Z.of_nat n = 2 ^ 16)%Z.
Proof. intros Hn Hf%Z.ltb_ge. lia. Qed.
Lemma fits_u32_false n : (Z.of_nat n ≤ 2 ^ 32)%Z → fits_u32 n = false → (Z.of_nat n = 2 ^ 32)%Z.
Proof. intros Hn Hf%Z.ltb_ge. lia. Qed.

(** A failure of the operations below: an id space is exhausted. *)
Definition exhausted (s : EntityStore) (e : DedupError) (s' : EntityStore) : Prop :=
  e = InvalidInput "load" ∧ store_ok s' ∧ grows s s' ∧ at_capacity s'.

(** ** Counting *)

Lemma nft_chain_bound s n ch :
  store_ok s → nft_chain (contracts s) n = Some ch → ch < length (chains s).
Proof.
  intros Hok. unfold nft_chain. intros (c & Hc & ->)%fmap_Some_1.
  destruct (contract_ok_chain _ _ _ _ _ _ _ (ok_contracts s Hok _ _ Hc)) as (name & Hn & _).
  by eapply lookup_lt_Some.
Qed.

Lemma filter_length_none {A} (P : A → Prop) `{!∀ x, Decision (P x)} l :
  (∀ x, x ∈ l → ¬ P x) → length (filter P l) = 0.
Proof. intros Hnone. by rewrite filter_none. Qed.

Lemma counted_totals_fresh s : store_ok s → counted_totals (contracts s) (nfts s) (length (chains s)) = ChainTotals_default.
Proof.
  intros Hok. unfold counted_totals. rewrite !filter_length_none; [done| |].
  - intros n _ Hn. apply (nft_chain_bound s) in Hn; [lia|done].
  - intros c [i Hi]%list_elem_of_lookup_1 Hc.
    destruct (contract_ok_chain _ _ _ _ _ _ _ (ok_contracts s Hok _ _ Hi)) as (name & Hn & _).
    apply lookup_lt_Some in Hn. lia.
Qed.

(** Totals depend on the chains of the contracts alone. *)
Lemma nft_chain_keys cs cs' n :
  contract_key <$> cs' = contract_key <$> cs → nft_chain cs' n = nft_chain cs n.
Proof.
  intros Heq. unfold nft_chain. apply (f_equal (λ l, l !! nft_contract_id n)) in Heq.
  rewrite !list_lookup_fmap in Heq.
  destruct (cs' !! nft_contract_id n), (cs !! nft_contract_id n); try done.
  simpl in Heq |- *. injection Heq as Heq _. by rewrite Heq.
Qed.

Lemma counted_totals_keys cs cs' ns ch :
  contract_key <$> cs' = contract_key <$> cs → counted_totals cs' ns ch = counted_totals cs ns ch.
Proof.
  intros Heq. unfold counted_totals. do 2 f_equal.
  - assert (∀ l, length (filter (λ c, contract_chain_id c = ch) l) =
                 length (filter (λ k : ChainId * str, k.1 = ch) (contract_key <$> l))) as E
      by (intros l; by rewrite filter_fmap, length_fmap).
    by rewrite !E, Heq.
  - f_equal. apply list_filter_iff. intros n. by rewrite (nft_chain_keys cs cs').
Qed.

Lemma contract_ok_mono limit deferred evm names names' ns ns' i c :
  names `prefix_of` names' → length (nfts_of_contract ns' i) = length (nfts_of_contract ns i) →
  contract_ok limit deferred evm names ns i c → contract_ok limit deferred evm names' ns' i c.
Proof.
  intros Hp Hlen []. destruct contract_ok_chain0 as (name & Hn & Hne & Ha). split; try done; [|by rewrite Hlen].
  exists name. split_and!; [by eapply prefix_lookup_Some|done..].
Qed.

Lemma no_wrap n : (0 ≤ n < 2 ^ 64 - 1)%Z → wrapping_add64 n 1 = (n + 1)%Z.
Proof. intros Hn. unfold wrapping_add64. rewrite Z.mod_small; lia. Qed.

Lemma length_filter_le {A} (P : A → Prop) `{!∀ x, Decision (P x)} l : length (filter P l) ≤ length l.
Proof. apply length_filter. Qed.

Ltac split_store := split; simpl; try done.

(** ** The operations on the tables *)

Lemma ensure_chain_wp chain s :
  store_ok s →
  wp (ensure_chain chain) s (λ id s', store_ok s' ∧ grows s s' ∧ chains s' !! id = Some chain) (exhausted s).
Proof.
  intros Hok. unfold wp, ensure_chain. pose proof (ok_chains s Hok) as Hc.
  destruct (chain_ids s !! chain) as [id|] eqn:Hid; [split_and!; [done|done|by apply Hc]|].
  destruct (fits_u16 (length (chains s))) eqn:Hfit.
  - apply fits_u16_spec in Hfit. split_and!.
    + pose proof Hok as []. split_store.
      * by apply index_ok_push.
      * intros i c Hi. eapply contract_ok_mono; [by apply prefix_app_r|done|by apply Hok].
      * intros ch. rewrite length_app, lookup_insert. simpl. intros Hch.
        case_decide as Heq; [subst; by rewrite (counted_totals_fresh s Hok)|]. apply ok_totals0. lia.
      * rewrite length_app. simpl. lia.
    + split; simpl; try done. by apply prefix_app_r.
    + simpl. rewrite lookup_app_r, Nat.sub_diag by lia. done.
  - split_and!; [done|done|done|]. left. apply fits_u16_false; [|done]. apply Hok.
Qed.

Lemma intern_string_wp value s :
  store_ok s →
  wp (intern_string value) s (λ id s', store_ok s' ∧ grows s s' ∧ strings s' !! id = Some value) (exhausted s).
Proof.
  intros Hok. unfold wp, intern_string. pose proof (ok_strings s Hok) as Hc.
  destruct (string_ids s !! value) as [id|] eqn:Hid; [split_and!; [done|done|by apply Hc]|].
  destruct (fits_u32 (length (strings s))) eqn:Hfit.
  - apply fits_u32_spec in Hfit. split_and!.
    + pose proof Hok as []. split_store.
      * by apply index_ok_push.
      * intros i n Hi. eapply nft_ok_grow; [done|by apply prefix_app_r|by apply Hok].
      * rewrite length_app. simpl. lia.
    + split; simpl; try done. by apply prefix_app_r.
    + simpl. rewrite lookup_app_r, Nat.sub_diag by lia. done.
  - split_and!; [done|done|done|]. right; left. apply fits_u32_false; [|done]. apply Hok.
Qed.

Lemma nfts_of_fresh_contract s i : store_ok s → length (contracts s) ≤ i → nfts_of_contract (nfts s) i = [].
Proof.
  intros Hok Hi. apply filter_none. intros n [j Hj]%list_elem_of_lookup_1 Hn.
  pose proof (nft_ok_contract _ _ _ _ (ok_nfts s Hok _ _ Hj)). lia.
Qed.

Lemma counted_totals_push_contract s c ch :
  store_ok s →
  counted_totals (contracts s ++ [c]) (nfts s) ch =
    (if decide (contract_chain_id c = ch) then count_contract else id) (counted_totals (contracts s) (nfts s) ch).
Proof.
  intros Hok. unfold counted_totals at 1. rewrite filter_app, length_app.
  assert (length (filter (λ n, nft_chain (contracts s ++ [c]) n = Some ch) (nfts s)) =
          length (filter (λ n, nft_chain (contracts s) n = Some ch) (nfts s))) as ->.
  { assert (Hall : ∀ n, n ∈ nfts s → nft_contract_id n < length (contracts s)).
    { intros n [j Hj]%list_elem_of_lookup_1. apply (ok_nfts s Hok _ _ Hj). }
    revert Hall. generalize (nfts s). intros l Hall. induction l as [|n l IH]; [done|].
    assert (nft_chain (contracts s ++ [c]) n = nft_chain (contracts s) n) as E
      by (unfold nft_chain; rewrite lookup_app_l; [done|apply Hall; by left]).
    rewrite !filter_cons, (decide_ext _ (nft_chain (contracts s) n = Some ch)) by (by rewrite E).
    assert (IH' := IH (λ n Hn, Hall n (list_elem_of_further _ _ _ Hn))). case_decide; simpl; congruence. }
  rewrite filter_cons, filter_nil. case_decide; simpl; unfold counted_totals, count_contract; simpl; [|by rewrite Nat.add_0_r].
  f_equal. rewrite no_wrap; [lia|]. pose proof (ok_contracts_size s Hok).
  pose proof (length_filter_le (λ c, contract_chain_id c = ch) (contracts s)). lia.
Qed.

Lemma ensure_contract_wp ch addr name s :
  store_ok s → chains s !! ch = Some name → name ≠ [] → addr ≠ [] →
  wp (ensure_contract ch addr) s
    (λ id s', store_ok s' ∧ grows s s' ∧ (contract_key <$> contracts s') !! id = Some (ch, addr)) (exhausted s).
Proof.
  intros Hok Hch Hne Haddr. unfold wp, ensure_contract. pose proof (ok_contract_index s Hok) as Hc.
  destruct (contract_index s !! (ch, addr)) as [id|] eqn:Hid; [split_and!; [done|done|by apply Hc]|].
  destruct (fits_u32 (length (contracts s))) eqn:Hfit.
  - apply fits_u32_spec in Hfit. split_and!.
    + pose proof Hok as []. split_store.
      * rewrite fmap_app. simpl.
        replace (length (contracts s)) with (length (contract_key <$> contracts s)) by apply length_fmap.
        by apply (index_ok_push (contract_key <$> contracts s)).
      * intros i c. rewrite lookup_snoc_Some. intros [[_ Hi]|[-> <-]]; [by apply Hok|].
        split; simpl; [done|done| |by rewrite nfts_of_fresh_contract].
        exists name. split_and!; [done|done|]. intros _. split_and!; [constructor..|].
        destruct (metadata_anchor_limit s); simpl; [lia|done].
      * intros i n Hi. rewrite length_app. eapply nft_ok_grow; [|done|by apply Hok]. lia.
      * intros ch' Hch'. rewrite counted_totals_push_contract by done. simpl. rewrite lookup_partial_alter.
        case_decide; [subst; by rewrite ok_totals0|by apply ok_totals0].
      * rewrite length_app. simpl. lia.
    + split; simpl; try done. rewrite fmap_app. by apply prefix_app_r.
    + simpl. rewrite fmap_app, lookup_app_r; rewrite length_fmap; [|lia]. by rewrite Nat.sub_diag.
  - split_and!; [done|done|done|]. right; right; left. apply fits_u32_false; [|done]. apply Hok.
Qed.

(** ** Metadata *)

Lemma contract_key_insert (cs : list Contract) (id : nat) c c' :
  cs !! id = Some c → contract_key c' = contract_key c →
  contract_key <$> <[id := c']> cs = contract_key <$> cs.
Proof. intros Hc Hk. rewrite list_fmap_insert, Hk. apply list_insert_id. by rewrite list_lookup_fmap, Hc. Qed.

(** Replacing a contract by one with the same key, count and good anchors. *)
Lemma update_contract_ok s id c l :
  store_ok s → contracts s !! id = Some c →
  (∀ name, chains s !! contract_chain_id c = Some name → defer_metadata_sort s = false →
     anchors_ok (metadata_anchor_limit s) (bool_decide (name ∈ evm_chains s)) l) →
  let s' := set_contracts (<[id := with_metadata l c]> (contracts s)) s in
  store_ok s' ∧ grows s s'.
Proof.
  intros Hok Hc Hl s'.
  assert (Hkeys : contract_key <$> <[id := with_metadata l c]> (contracts s) = contract_key <$> contracts s)
    by by eapply contract_key_insert.
  split; [|split; simpl; try done; by rewrite Hkeys].
  pose proof Hok as []. split_store.
  - by rewrite Hkeys.
  - intros i c'. rewrite list_lookup_insert_Some. intros [(-> & <- & _)|[_ Hi]]; [|by apply Hok].
    destruct (ok_contracts0 _ _ Hc) as [? ? (name & Hn & Hne & Ha) ?]. split; try done.
    exists name. split_and!; [done|done|]. intros Hd. by apply Hl.
  - intros i n Hi. rewrite length_insert. by apply Hok.
  - intros ch Hch. rewrite (counted_totals_keys (contracts s)) by done. by apply Hok.
  - by rewrite length_insert.
Qed.

Lemma insert_metadata_anchor_wp id c name token json order s :
  store_ok s → contracts s !! id = Some c → chains s !! contract_chain_id c = Some name →
  wp (insert_metadata_anchor id name token json order) s (λ _ s', store_ok s' ∧ grows s s') (λ _ _, False).
Proof.
  intros Hok Hc Hname. unfold insert_metadata_anchor. apply wp_bind, wp_gets.
  case_decide as Hlim; [by apply wp_ret|]. cbv zeta.
  set (record := {| record_token_id := token; canonical_json := json; record_source_order := order |}).
  apply wp_bind, wp_gets. apply wp_bind, wp_bind, wp_gets. eapply wp_unwrap; [exact Hc|]. cbv beta.
  assert (Hput : ∀ l, (∀ name', chains s !! contract_chain_id c = Some name' → defer_metadata_sort s = false →
     anchors_ok (metadata_anchor_limit s) (bool_decide (name' ∈ evm_chains s)) l) →
     wp (put_metadata id l) s (λ _ s', store_ok s' ∧ grows s s') (λ _ _, False)).
  { intros l Hl. unfold put_metadata. apply wp_bind, wp_gets, wp_bind.
    eapply wp_unwrap; [unfold update_at; rewrite Hc; done|]. apply wp_modify. by apply update_contract_ok. }
  destruct (defer_metadata_sort s) eqn:Hd; [by apply Hput|].
  destruct (ok_contracts s Hok _ _ Hc) as [_ _ (name' & Hn & _ & Ha) _].
  assert (name' = name) as -> by congruence. specialize (Ha Hd).
  apply wp_bind, wp_gets, wp_bind.
  destruct (insert_anchor_ok (metadata_anchor_limit s) (bool_decide (name ∈ evm_chains s)) (metadata_by_token c) record Hlim Ha)
    as (l & El & Hl & _). eapply wp_unwrap; [exact El|]. apply Hput. intros name' Hname' _.
  by assert (name' = name) as -> by congruence.
Qed.

(** ** NFTs *)

Lemma nft_key_insert (ns : list Nft) (id : nat) n n' :
  ns !! id = Some n → nft_key n' = nft_key n → nft_key <$> <[id := n']> ns = nft_key <$> ns.
Proof. intros Hn Hk. rewrite list_fmap_insert, Hk. apply list_insert_id. by rewrite list_lookup_fmap, Hn. Qed.

(** Counts depend on the contracts of the NFTs alone. *)
Lemma nfts_of_contract_keys ns ns' i :
  nft_key <$> ns' = nft_key <$> ns → length (nfts_of_contract ns' i) = length (nfts_of_contract ns i).
Proof.
  intros Heq. assert (∀ l, length (nfts_of_contract l i) =
    length (filter (λ k : ContractId * str, k.1 = i) (nft_key <$> l))) as E
    by (intros l; by rewrite filter_fmap, length_fmap).
  by rewrite !E, Heq.
Qed.

Lemma counted_totals_nft_keys cs ns ns' ch :
  nft_key <$> ns' = nft_key <$> ns → counted_totals cs ns' ch = counted_totals cs ns ch.
Proof.
  intros Heq. unfold counted_totals. do 2 f_equal.
  assert (∀ l, length (filter (λ n, nft_chain cs n = Some ch) l) =
    length (filter (λ k : ContractId * str, contract_chain_id <$> cs !! k.1 = Some ch) (nft_key <$> l))) as E
    by (intros l; by rewrite filter_fmap, length_fmap).
  by rewrite !E, Heq.
Qed.

(** Replacing the texts of an NFT. *)
Lemma update_nft_ok s id n n' :
  store_ok s → nfts s !! id = Some n → nft_key n' = nft_key n →
  nft_ok (length (contracts s)) (strings s) id n' →
  store_ok (set_nfts (<[id := n']> (nfts s)) s).
Proof.
  intros Hok Hn Hk Hn'.
  assert (Hkeys : nft_key <$> <[id := n']> (nfts s) = nft_key <$> nfts s) by by eapply nft_key_insert.
  pose proof Hok as []. split_store.
  - by rewrite Hkeys.
  - intros i c Hi. eapply contract_ok_mono; [done|by apply nfts_of_contract_keys|by apply Hok].
  - intros i m. rewrite list_lookup_insert_Some. intros [(-> & <- & _)|[_ Hi]]; [done|by apply Hok].
  - intros ch Hch. rewrite (counted_totals_nft_keys _ (nfts s)) by done. by apply Hok.
  - by rewrite length_insert.
  - by rewrite length_insert.
Qed.

(** The store after an NFT was appended. *)
Record pushed (s s' : EntityStore) (n : Nft) : Prop := {
  pushed_chains : chains s' = chains s;
  pushed_chain_ids : chain_ids s' = chain_ids s;
  pushed_strings : strings s' = strings s;
  pushed_contracts : contract_key <$> contracts s' = contract_key <$> contracts s;
  pushed_nfts : nfts s' = nfts s ++ [n];
  pushed_limit : metadata_anchor_limit s' = metadata_anchor_limit s;
  pushed_deferred : defer_metadata_sort s' = defer_metadata_sort s;
  pushed_evm : evm_chains s' = evm_chains s;
}.

Lemma counted_totals_push_nft cs ns n ch :
  (Z.of_nat (length ns) < 2 ^ 32)%Z →
  counted_totals cs (ns ++ [n]) ch =
    (if decide (nft_chain cs n = Some ch) then count_nft else id) (counted_totals cs ns ch).
Proof.
  intros Hlen. unfold counted_totals at 1. rewrite filter_app, length_app, filter_cons, filter_nil.
  case_decide; simpl; unfold counted_totals, count_nft; simpl; [|by rewrite Nat.add_0_r].
  f_equal. rewrite no_wrap; [lia|].
  pose proof (length_filter_le (λ n, nft_chain cs n = Some ch) ns). lia.
Qed.

Lemma nfts_of_contract_push ns n i :
  length (nfts_of_contract (ns ++ [n]) i) =
    length (nfts_of_contract ns i) + (if decide (nft_contract_id n = i) then 1 else 0).
Proof. unfold nfts_of_contract. rewrite filter_app, length_app, filter_cons, filter_nil. by case_decide. Qed.

(** The final store of [push_nft]. *)
Definition push_result (s : EntityStore) (ch : ChainId) (c : Contract) (n : Nft) : EntityStore :=
  set_rows_loaded (wrapping_add64 (rows_loaded s) 1)
    (update_totals ch count_nft
      (set_contracts (<[nft_contract_id n := with_nft_count (wrapping_add64 (nft_count c) 1) c]> (contracts s))
        (set_nft_index (<[nft_key n := nft_id n]> (nft_index s)) (set_nfts (nfts s ++ [n]) s)))).

Lemma push_result_ok s c n :
  store_ok s → contracts s !! nft_contract_id n = Some c →
  nft_index s !! nft_key n = None → nft_ok (length (contracts s)) (strings s) (length (nfts s)) n →
  (Z.of_nat (length (nfts s)) < 2 ^ 32)%Z →
  store_ok (push_result s (contract_chain_id c) c n) ∧ pushed s (push_result s (contract_chain_id c) c n) n.
Proof.
  intros Hok Hc Hfresh Hn Hlen.
  assert (Hkeys : contract_key <$> <[nft_contract_id n := with_nft_count (wrapping_add64 (nft_count c) 1) c]>
    (contracts s) = contract_key <$> contracts s) by by eapply contract_key_insert.
  split; [|by split]. pose proof Hok as []. unfold push_result, update_totals. split_store.
  - by rewrite Hkeys.
  - rewrite fmap_app. simpl. rewrite (nft_ok_id _ _ _ _ Hn). rewrite <- (length_fmap nft_key).
    by apply (index_ok_push (nft_key <$> nfts s)).
  - intros i k. rewrite list_lookup_insert_Some. intros [(<- & <- & _)|[Hne Hi]].
    + destruct (ok_contracts0 _ _ Hc) as [? ? ? Hcount]. split; try done. simpl.
      rewrite nfts_of_contract_push, decide_True by done. rewrite Hcount, no_wrap; [lia|].
      pose proof (length_filter_le (λ m, nft_contract_id m = nft_contract_id n) (nfts s)).
      unfold nfts_of_contract in *. lia.
    + eapply contract_ok_mono; [done| |by apply Hok]. rewrite nfts_of_contract_push, decide_False by done. lia.
  - intros i m. rewrite length_insert, lookup_snoc_Some. intros [[_ Hi]|[-> <-]]; [by apply Hok|done].
  - intros ch Hch. rewrite lookup_partial_alter, (counted_totals_keys (contracts s)) by done.
    rewrite counted_totals_push_nft by done.
    assert (Hnc : nft_chain (contracts s) n = Some (contract_chain_id c)) by (unfold nft_chain; by rewrite Hc).
    destruct (decide (contract_chain_id c = ch)) as [Heq|Hne].
    + rewrite Heq in *. by rewrite ok_totals0, decide_True by done.
    + rewrite decide_False by congruence. by apply ok_totals0.
  - rewrite ok_rows0, no_wrap, length_app by lia. simpl. lia.
  - by rewrite length_insert.
  - rewrite length_app. simpl. lia.
Qed.

Lemma push_nft_wp (chain_of : M ChainId) contract token name turi iuri order c s :
  store_ok s → contracts s !! contract = Some c → nft_index s !! (contract, token) = None →
  (∀ s', contracts s' = contracts s → chain_of s' = (Returns (contract_chain_id c), s')) →
  let n := {| nft_id := length (nfts s); nft_contract_id := contract; nft_token_id := token; name_id := name;
              token_uri_id := turi; image_uri_id := iuri; nft_source_order := order |} in
  nft_ok (length (contracts s)) (strings s) (length (nfts s)) n →
  wp (push_nft chain_of contract token name turi iuri order) s
    (λ _ s', store_ok s' ∧ pushed s s' n) (exhausted s).
Proof.
  intros Hok Hc Hfresh Hchain n Hn. unfold push_nft. apply wp_bind, wp_gets. cbv zeta.
  destruct (fits_u32 (length (nfts s))) eqn:Hfit; cbn [negb].
  - apply fits_u32_spec in Hfit. do 2 apply wp_bind, wp_modify. apply wp_bind.
    unfold wp at 1. rewrite Hchain by done. apply wp_bind, wp_gets, wp_bind.
    eapply wp_unwrap; [unfold update_at; simpl; rewrite Hc; done|]. do 2 apply wp_bind, wp_modify. apply wp_modify.
    by apply (push_result_ok s c n).
  - apply wp_fails. split_and!; [done|done|done|]. right; right; right. apply fits_u32_false; [|done]. apply Hok.
Qed.
