(* ===== verification/EntityView.v ===== *)
(** What the entity store means: a map from (chain, contract address, token id) to
    the name and the two URIs of an NFT.  The ingestion of a row refines the merge
    of its texts at its key, and a merged shard contributes its whole map. *)

From S2P Require Import Prelude Text CanonicalJson Types Anchors Entity EntityInvariant.

(** ** Abstract state *)

Record NftTexts := {
  text_name : option str;
  text_token_uri : option str;
  text_image_uri : option str;
}.

Abbreviation NftAddress := (list N * list N * list N)%type (only parsing).

(** The text of an id field. *)
Definition field_text (strings : list str) (id : option StringId) : option str :=
  id ≫= λ i, strings !! i.

Definition texts_of (strings : list str) (n : Nft) : NftTexts :=
  {| text_name := field_text strings (name_id n);
     text_token_uri := field_text strings (token_uri_id n);
     text_image_uri := field_text strings (image_uri_id n) |}.

Definition view (s : EntityStore) (k : NftAddress) : option NftTexts :=
  ch ← chain_ids s !! k.1.1;
  c ← contract_index s !! (ch, k.1.2);
  i ← nft_index s !! (c, k.2);
  n ← nfts s !! i;
  Some (texts_of (strings s) n).

(** Two URIs of one NFT agree or one is missing; a conflict is [None]. *)
Definition merge_text (a b : option str) : option (option str) :=
  match a, b with
  | None, v | v, None => Some v
  | Some x, Some y => if decide (x = y) then Some (Some x) else None
  end.

(** The first name wins; the URIs must agree. *)
Definition merge_texts (a b : NftTexts) : option NftTexts :=
  t ← merge_text (text_token_uri a) (text_token_uri b);
  i ← merge_text (text_image_uri a) (text_image_uri b);
  Some {| text_name := match text_name a with Some n => Some n | None => text_name b end;
          text_token_uri := t; text_image_uri := i |}.

Definition merge_views (a b : option NftTexts) : option (option NftTexts) :=
  match a, b with
  | None, v | v, None => Some v
  | Some a, Some b => Some <$> merge_texts a b
  end.

Definition nonempty (t : str) : option str := if decide (t = []) then None else Some t.
Definition nonblank (t : str) : option str := if is_blank t then None else Some t.

Definition row_address (row : InputRow) : NftAddress := (chain row, contract_address row, token_id row).

Definition row_texts (row : InputRow) : NftTexts :=
  {| text_name := nonblank (name_norm row);
     text_token_uri := nonempty (token_uri_norm row);
     text_image_uri := nonempty (image_uri_norm row) |}.

(** What a row says about an address. *)
Definition row_view (row : InputRow) (k : NftAddress) : option NftTexts :=
  if decide (chain row = [] ∨ contract_address row = [] ∨ token_id row = []) then None
  else if decide (k = row_address row) then Some (row_texts row) else None.

(** The limit, the deferral and the EVM chains. *)
Definition same_options (s s' : EntityStore) : Prop :=
  metadata_anchor_limit s' = metadata_anchor_limit s ∧
  defer_metadata_sort s' = defer_metadata_sort s ∧ evm_chains s' = evm_chains s.

(** ** Addresses *)

(** The address of an NFT of a store. *)
Definition nft_address (s : EntityStore) (n : Nft) : option NftAddress :=
  key ← (contract_key <$> contracts s) !! nft_contract_id n;
  name ← chains s !! key.1;
  Some (name, key.2, nft_token_id n).

Lemma nft_address_Some s n ch a t :
  nft_address s n = Some (ch, a, t) ↔
  t = nft_token_id n ∧ ∃ c, (contract_key <$> contracts s) !! nft_contract_id n = Some (c, a) ∧ chains s !! c = Some ch.
Proof.
  unfold nft_address. split.
  - intros Hb. apply bind_Some in Hb as ([c a'] & Hc & Hb). apply bind_Some in Hb as (name & Hn & [= <- <- <-]).
    split; [done|]. by exists c.
  - intros (-> & c & Hc & Hn). rewrite Hc. cbn [mbind option_bind fst snd]. rewrite Hn. done.
Qed.

Section Addresses.
Context (s : EntityStore) (Hok : store_ok s).

Lemma nft_address_total i n : nfts s !! i = Some n → is_Some (nft_address s n).
Proof.
  intros Hn. pose proof (nft_ok_contract _ _ _ _ (ok_nfts s Hok _ _ Hn)) as Hc.
  apply lookup_lt_is_Some_2 in Hc as [c Hc].
  destruct (contract_ok_chain _ _ _ _ _ _ _ (ok_contracts s Hok _ _ Hc)) as (name & Hname & _).
  unfold nft_address. rewrite list_lookup_fmap, Hc. simpl. rewrite Hname. simpl. eauto.
Qed.

Lemma nft_address_inj i j n m k :
  nfts s !! i = Some n → nfts s !! j = Some m → nft_address s n = Some k → nft_address s m = Some k → i = j.
Proof.
  destruct k as [[ch a] t]. intros Hi Hj (-> & c & Hc & Hch)%nft_address_Some (Ht & c' & Hc' & Hch')%nft_address_Some.
  assert (c' = c) as -> by by eapply (index_ok_inj _ _ _ _ _ (ok_chains s Hok)).
  assert (nft_contract_id m = nft_contract_id n) as Hk by by eapply (index_ok_inj _ _ _ _ _ (ok_contract_index s Hok)).
  apply (index_ok_inj _ _ i j (nft_key n) (ok_nft_index s Hok)).
  - by rewrite list_lookup_fmap, Hi.
  - rewrite list_lookup_fmap, Hj. simpl. unfold nft_key. by rewrite Hk, Ht.
Qed.

Lemma view_Some k v :
  view s k = Some v ↔ ∃ i n, nfts s !! i = Some n ∧ nft_address s n = Some k ∧ v = texts_of (strings s) n.
Proof.
  destruct k as [[ch a] t]. unfold view. cbn [fst snd]. split.
  - intros Hv. apply bind_Some in Hv as (c & Hc & Hv). apply bind_Some in Hv as (kid & Hk & Hv).
    apply bind_Some in Hv as (i & Hi & Hv). apply bind_Some in Hv as (n & Hn & [= <-]).
    exists i, n. split; [done|]. split; [|done].
    apply (ok_chains s Hok) in Hc. apply (ok_contract_index s Hok) in Hk. apply (ok_nft_index s Hok) in Hi.
    rewrite list_lookup_fmap, Hn in Hi. injection Hi as Hkid Ht. apply nft_address_Some.
    split; [done|]. exists c. by rewrite Hkid.
  - intros (i & n & Hn & (-> & c & Hc & Hch)%nft_address_Some & ->).
    apply (ok_chains s Hok) in Hch. rewrite Hch. cbn [mbind option_bind].
    apply (ok_contract_index s Hok) in Hc. rewrite Hc. cbn [mbind option_bind].
    assert (nft_index s !! (nft_contract_id n, nft_token_id n) = Some i) as ->.
    { apply (ok_nft_index s Hok). by rewrite list_lookup_fmap, Hn. }
    cbn [mbind option_bind]. by rewrite Hn.
Qed.

Lemma view_of i n k : nfts s !! i = Some n → nft_address s n = Some k → view s k = Some (texts_of (strings s) n).
Proof. intros Hn Hk. apply view_Some. eauto. Qed.

Lemma view_None k : (∀ i n, nfts s !! i = Some n → nft_address s n ≠ Some k) → view s k = None.
Proof.
  intros Hnone. destruct (view s k) as [v|] eqn:Hv; [|done]. apply view_Some in Hv as (i & n & Hn & Hk & _).
  by destruct (Hnone i n Hn).
Qed.

(** A contract under its chain's name and its address. *)
Definition contract_at (c : ContractId) (ch : ChainId) (name addr : str) : Prop :=
  (contract_key <$> contracts s) !! c = Some (ch, addr) ∧ chains s !! ch = Some name.

(** The NFT found under a contract and a token. *)
Lemma indexed_nft c ch name a t i :
  contract_at c ch name a → nft_index s !! (c, t) = Some i →
  ∃ n, nfts s !! i = Some n ∧ nft_address s n = Some (name, a, t).
Proof.
  intros [Hc Hn] Hi. apply (ok_nft_index s Hok) in Hi. rewrite list_lookup_fmap in Hi.
  destruct (nfts s !! i) as [n|]; [|done]. injection Hi as <- <-. exists n. split; [done|].
  apply nft_address_Some. split; [done|]. by exists ch.
Qed.

Lemma unindexed_view c ch name a t :
  contract_at c ch name a → nft_index s !! (c, t) = None → view s (name, a, t) = None.
Proof.
  intros [Hc Hn] Hi. apply view_None. intros i n Hni (-> & c' & Hc' & Hcn')%nft_address_Some.
  assert (c' = ch) as -> by by eapply (index_ok_inj _ _ _ _ _ (ok_chains s Hok)).
  assert (nft_contract_id n = c) as Hnc by by eapply (index_ok_inj _ _ _ _ _ (ok_contract_index s Hok)).
  eapply (index_ok_fresh _ _ _ i (ok_nft_index s Hok) Hi). rewrite list_lookup_fmap, Hni. simpl.
  unfold nft_key. by rewrite Hnc.
Qed.
End Addresses.

(** ** Texts *)

Lemma field_text_prefix l1 l2 P id :
  l1 `prefix_of` l2 → text_field l1 P id → field_text l2 id = field_text l1 id.
Proof.
  intros Hp Hf. unfold field_text. destruct id as [i|]; [|done]. simpl.
  destruct (Hf i eq_refl) as (t & Ht & _). rewrite Ht. by eapply prefix_lookup_Some.
Qed.

Lemma texts_of_prefix k l1 l2 i n : l1 `prefix_of` l2 → nft_ok k l1 i n → texts_of l2 n = texts_of l1 n.
Proof.
  intros Hp []. unfold texts_of. by f_equal; eapply field_text_prefix.
Qed.

Lemma field_text_Some l P i : text_field l P (Some i) → ∃ t, field_text l (Some i) = Some t ∧ P t.
Proof. intros Hf. destruct (Hf i eq_refl) as (t & Ht & HP). by exists t. Qed.

Lemma merge_text_None_r a : merge_text a None = Some a.
Proof. by destruct a. Qed.

Lemma merge_views_None_r a : merge_views a None = Some a.
Proof. by destruct a. Qed.

(** ** Growth and updates *)

Lemma nft_address_grow s s' n k :
  chains s `prefix_of` chains s' → (contract_key <$> contracts s) `prefix_of` (contract_key <$> contracts s') →
  nft_address s n = Some k → nft_address s' n = Some k.
Proof.
  intros Hc Hk. destruct k as [[ch a] t]. rewrite !nft_address_Some. intros (? & c & Hcn & Hn).
  split; [done|]. exists c. split; by eapply prefix_lookup_Some.
Qed.

Lemma grows_view s s' k : store_ok s → store_ok s' → grows s s' → view s' k = view s k.
Proof.
  intros Hok Hok' Hg. apply option_eq. intros v. rewrite !view_Some, (grows_nfts _ _ Hg) by done.
  assert (Hsame : ∀ i n, nfts s !! i = Some n →
    texts_of (strings s') n = texts_of (strings s) n ∧ nft_address s' n = nft_address s n).
  { intros i n Hn. split; [by eapply texts_of_prefix; [apply Hg|apply Hok]|].
    destruct (nft_address_total s Hok i n Hn) as [k' Hk']. rewrite Hk'.
    by apply (nft_address_grow s); [apply Hg..|]. }
  split; intros (i & n & Hn & Hk & ->); exists i, n; destruct (Hsame i n Hn) as [E1 E2];
    (split; [done|]); split; congruence.
Qed.

Lemma pushed_view s s' n k k' :
  store_ok s → store_ok s' → pushed s s' n → nft_address s n = Some k →
  view s' k' = if decide (k = k') then Some (texts_of (strings s) n) else view s k'.
Proof.
  intros Hok Hok' Hp Hk.
  assert (Haddr : ∀ m, nft_address s' m = nft_address s m).
  { intros m. unfold nft_address. by rewrite (pushed_contracts _ _ _ Hp), (pushed_chains _ _ _ Hp). }
  pose proof (pushed_nfts _ _ _ Hp) as Hn. pose proof (pushed_strings _ _ _ Hp) as Hs. case_decide as Heq.
  - subst k'. rewrite (view_of s' Hok' (length (nfts s)) n), Hs; [done| |by rewrite Haddr].
    by rewrite Hn, lookup_app_r, Nat.sub_diag.
  - apply option_eq. intros v. rewrite !view_Some, Hn, Hs by done. setoid_rewrite Haddr.
    split; intros (i & m & Hm & Hkm & ->); exists i, m; (split; [|done]).
    + apply lookup_snoc_Some in Hm as [[_ ?]|[_ ->]]; [done|congruence].
    + apply lookup_snoc_Some. left. split; [by eapply lookup_lt_Some|done].
Qed.

Lemma updated_view s id n n' k k' :
  store_ok s → nfts s !! id = Some n → nft_key n' = nft_key n →
  nft_ok (length (contracts s)) (strings s) id n' → nft_address s n = Some k →
  let s' := set_nfts (<[id := n']> (nfts s)) s in
  store_ok s' ∧ view s' k' = if decide (k = k') then Some (texts_of (strings s) n') else view s k'.
Proof.
  intros Hok Hn Hkey Hn' Hk s'. assert (Hok' : store_ok s') by by eapply update_nft_ok. split; [done|].
  assert (Haddr : nft_address s' n' = Some k).
  { injection Hkey as Hc Ht. unfold nft_address in *. simpl. by rewrite Hc, Ht. }
  assert (Hsame : ∀ m, nft_address s' m = nft_address s m) by done. case_decide as Heq.
  - subst k'. apply (view_of s' Hok' id); [|done]. simpl. rewrite list_lookup_insert_eq; [done|].
    by eapply lookup_lt_Some.
  - apply option_eq. intros v. rewrite !view_Some by done. simpl.
    split; intros (i & m & Hm & Hkm & ->); exists i, m; (split; [|done]).
    + apply list_lookup_insert_Some in Hm as [(_ & -> & _)|[_ ?]]; [congruence|done].
    + rewrite list_lookup_insert_ne; [done|]. intros ->. congruence.
Qed.

(** ** Merging texts into an NFT *)

(** A failure that leaves the map as it was. *)
Definition merge_failure (conflict : Prop) (s : EntityStore) (e : DedupError) (s' : EntityStore) : Prop :=
  e = InvalidInput "load" ∧ store_ok s' ∧ grows s s' ∧ (conflict ∨ at_capacity s').

Lemma exhausted_failure P s e s' : exhausted s e s' → merge_failure P s e s'.
Proof. intros (? & ? & ? & ?). split_and!; auto. Qed.

(** Lifting an outcome over growth. *)
Lemma exhausted_grows s s1 e s' : grows s s1 → exhausted s1 e s' → exhausted s e s'.
Proof. intros Hg (? & ? & ? & ?). split_and!; [done|done|by etrans|done]. Qed.

Lemma merge_failure_grows (P Q : Prop) s s1 e s' : (P → Q) → grows s s1 → merge_failure P s1 e s' → merge_failure Q s e s'.
Proof. intros HPQ Hg (? & ? & ? & [|]); (split_and!; [done|done|by etrans|auto]). Qed.

Lemma merge_uri_value_wp existing incoming s :
  store_ok s → text_field (strings s) (λ t, t ≠ []) existing →
  wp (merge_uri_value existing incoming) s
    (λ r s', store_ok s' ∧ grows s s' ∧ text_field (strings s') (λ t, t ≠ []) r ∧
       merge_text (field_text (strings s) existing) (nonempty incoming) = Some (field_text (strings s') r))
    (merge_failure (merge_text (field_text (strings s) existing) (nonempty incoming) = None) s).
Proof.
  intros Hok Hex. unfold merge_uri_value, nonempty. case_decide as Hin.
  { apply wp_ret. split_and!; [done|done|done|apply merge_text_None_r]. }
  destruct existing as [id|].
  - destruct (field_text_Some _ _ _ Hex) as (t & Ht & _). apply wp_bind, wp_bind, wp_gets.
    eapply wp_unwrap; [exact Ht|]. rewrite Ht. simpl. destruct (decide (t ≠ incoming)) as [Hne|Heq].
    + apply wp_fails. rewrite decide_False by done. split_and!; [done|done|done|by left].
    + apply dec_stable in Heq as ->. rewrite decide_True by done. apply wp_ret. by rewrite Ht.
  - apply wp_bind. eapply wp_mono; [by apply intern_string_wp| |intros e s'; apply exhausted_failure].
    intros id s' (Hok' & Hg & Hid). apply wp_ret. split_and!; [done|done| |by simpl; rewrite Hid].
    intros i [= <-]. by exists incoming.
Qed.

(** The options, and the NFTs, are those of before. *)
Lemma grows_options s s' : grows s s' → same_options s s'.
Proof. intros []. done. Qed.

(** What merging texts into the NFT [id] leaves. *)
Definition merged_nft (s : EntityStore) (id : nat) (n : Nft) (t : NftTexts) (s' : EntityStore) : Prop :=
  store_ok s' ∧ same_options s s' ∧
  ∃ k v, nft_address s n = Some k ∧ merge_texts (texts_of (strings s) n) t = Some v ∧
    ∀ k', view s' k' = if decide (k = k') then Some v else view s k'.

(** The common end: the merged fields are written to the NFT of a grown store. *)
Lemma write_merged s s1 id n n' t v :
  store_ok s → nfts s !! id = Some n → store_ok s1 → grows s s1 →
  nft_key n' = nft_key n → nft_ok (length (contracts s1)) (strings s1) id n' →
  merge_texts (texts_of (strings s) n) t = Some v → texts_of (strings s1) n' = v →
  merged_nft s id n t (set_nfts (<[id := n']> (nfts s1)) s1).
Proof.
  intros Hok Hn Hok1 Hg Hkey Hn' Hm Hv. destruct (nft_address_total s Hok id n Hn) as [k Hk].
  assert (Hn1 : nfts s1 !! id = Some n) by by rewrite (grows_nfts _ _ Hg).
  assert (Hk1 : nft_address s1 n = Some k) by (by apply (nft_address_grow s); [apply Hg..|]).
  split; [by apply (updated_view s1 id n n' k k)|]. split; [by apply grows_options in Hg|].
  exists k, v. split_and!; [done|done|]. intros k'.
  destruct (updated_view s1 id n n' k k') as [_ ->]; [done..|].
  rewrite Hv. by rewrite (grows_view s s1).
Qed.

Lemma merge_duplicate_nft_wp id n row s :
  store_ok s → nfts s !! id = Some n →
  wp (merge_duplicate_nft id row) s (λ _ s', merged_nft s id n (row_texts row) s')
    (merge_failure (merge_texts (texts_of (strings s) n) (row_texts row) = None) s).
Proof.
  intros Hok Hn. pose proof (ok_nfts s Hok _ _ Hn) as [Hid Hc Ht Hname Htoken Himage].
  unfold merge_duplicate_nft. apply wp_bind, wp_bind, wp_gets. eapply wp_unwrap; [exact Hn|].
  apply wp_bind. eapply (wp_mono _ _ (λ name s1, store_ok s1 ∧ grows s s1 ∧
    text_field (strings s1) (λ t, is_blank t = false) name ∧
    field_text (strings s1) name = match field_text (strings s) (name_id n) with
                                   | Some t => Some t | None => nonblank (name_norm row) end)
    _ (exhausted s)); [| |intros e s'; apply exhausted_failure].
  { destruct (name_id n) as [i|] eqn:Hi; simpl.
    - apply wp_ret. destruct (Hname i eq_refl) as (t & Htx & _). rewrite Htx. done.
    - unfold nonblank. destruct (is_blank (name_norm row)) eqn:Hb; simpl; [by apply wp_ret|].
      apply wp_bind. eapply wp_mono; [by apply intern_string_wp| |done].
      intros i s1 (Hok1 & Hg & Hs). apply wp_ret. split_and!; [done|done| |done].
      intros j [= <-]. by exists (name_norm row). }
  intros name s1 (Hok1 & Hg1 & Hname1 & Hnt). apply wp_bind.
  assert (Ht1 : field_text (strings s1) (token_uri_id n) = field_text (strings s) (token_uri_id n))
    by (eapply field_text_prefix; [apply Hg1|done]).
  eapply wp_mono; [apply merge_uri_value_wp; [done|by eapply text_field_prefix; [apply Hg1|]]| |].
  2:{ intros e s'. apply merge_failure_grows; [|done]. rewrite Ht1. unfold merge_texts. cbn [text_token_uri texts_of row_texts].
      by intros ->. }
  intros token s2 (Hok2 & Hg2 & Htoken2 & Hmt). rewrite Ht1 in Hmt.
  assert (Hg12 : grows s s2) by by etrans. apply wp_bind.
  assert (Hi2 : field_text (strings s2) (image_uri_id n) = field_text (strings s) (image_uri_id n))
    by (eapply field_text_prefix; [apply Hg12|done]).
  eapply wp_mono; [apply merge_uri_value_wp; [done|by eapply text_field_prefix; [apply Hg12|]]| |].
  2:{ intros e s'. apply merge_failure_grows; [|done]. rewrite Hi2. unfold merge_texts.
      cbn [text_token_uri text_image_uri texts_of row_texts]. rewrite Hmt. cbn [mbind option_bind]. by intros ->. }
  intros image s3 (Hok3 & Hg3 & Himage3 & Hmi). rewrite Hi2 in Hmi.
  assert (Hg : grows s s3) by by etrans.
  assert (Hn3 : nfts s3 !! id = Some n) by by rewrite (grows_nfts _ _ Hg).
  apply wp_bind, wp_gets, wp_bind. eapply wp_unwrap; [unfold update_at; rewrite Hn3; done|]. apply wp_modify.
  assert (Hname3 : field_text (strings s3) name = field_text (strings s1) name)
    by (eapply field_text_prefix; [|exact Hname1]; etrans; [apply Hg2|apply Hg3]).
  assert (Htoken3 : field_text (strings s3) token = field_text (strings s2) token)
    by (eapply field_text_prefix; [apply Hg3|exact Htoken2]).
  eapply (write_merged s s3 id n _ _ _ Hok Hn Hok3 Hg).
  - done.
  - pose proof (nft_ok_contract _ _ _ _ (ok_nfts s3 Hok3 _ _ Hn3)). split; try done; simpl.
    + eapply text_field_prefix; [|exact Hname1]. etrans; [apply Hg2|apply Hg3].
    + eapply text_field_prefix; [apply Hg3|done].
  - unfold merge_texts. cbn [text_token_uri text_image_uri text_name texts_of row_texts].
    rewrite Hmt. cbn [mbind option_bind]. rewrite Hmi. done.
  - unfold texts_of. simpl. by rewrite Hname3, Hnt, Htoken3.
Qed.

Lemma intern_unless_wp (empty : bool) (P : str → Prop) value s :
  store_ok s → (empty = false → P value) →
  wp (intern_unless empty value) s
    (λ r s', store_ok s' ∧ grows s s' ∧ text_field (strings s') P r ∧
       field_text (strings s') r = if empty then None else Some value) (exhausted s).
Proof.
  intros Hok HP. unfold intern_unless. destruct empty; [by apply wp_ret|].
  apply wp_bind. eapply wp_mono; [by apply intern_string_wp| |done].
  intros i s' (Hok' & Hg & Hi). apply wp_ret. split_and!; [done|done| |done].
  intros j [= <-]. exists value. auto.
Qed.

Lemma nonempty_bool t : (if bool_decide (t = []) then None else Some t) = nonempty t.
Proof. unfold nonempty. by destruct t. Qed.

(** The fields of a new NFT are interned one after the other. *)
Lemma new_nft_wp (row : InputRow) ch contract name s :
  store_ok s → chain row ≠ [] → token_id row ≠ [] →
  (contract_key <$> contracts s) !! contract = Some (ch, contract_address row) → chains s !! ch = Some name →
  nft_index s !! (contract, token_id row) = None →
  wp (token ← intern_unless (bool_decide (token_uri_norm row = [])) (token_uri_norm row);
      image ← intern_unless (bool_decide (image_uri_norm row = [])) (image_uri_norm row);
      name ← intern_unless (is_blank (name_norm row)) (name_norm row);
      push_nft (mret ch) contract (token_id row) name token image (row_source_order row)) s
    (λ _ s', store_ok s' ∧ same_options s s' ∧
       ∀ k, view s' k = if decide ((name, contract_address row, token_id row) = k)
                        then Some (row_texts row) else view s k)
    (exhausted s).
Proof.
  intros Hok Hchain Htok Hkey Hname Hfresh.
  apply wp_bind. eapply wp_mono; [apply (intern_unless_wp _ (λ t, t ≠ [])); [done|by intros ?%bool_decide_eq_false]| |done].
  intros token s1 (Hok1 & Hg1 & Ht1 & Hft). apply wp_bind.
  eapply wp_mono; [apply (intern_unless_wp _ (λ t, t ≠ [])); [done|by intros ?%bool_decide_eq_false]| |intros e s'; by apply exhausted_grows].
  intros image s2 (Hok2 & Hg2 & Hi2 & Hfi). assert (Hg12 : grows s s2) by by etrans. apply wp_bind.
  eapply wp_mono; [apply (intern_unless_wp _ (λ t, is_blank t = false)); [done|done]| |intros e s'; by apply exhausted_grows].
  intros nm s3 (Hok3 & Hg3 & Hn3 & Hfn). assert (Hg : grows s s3) by by etrans.
  assert (Hkey3 : (contract_key <$> contracts s3) !! contract = Some (ch, contract_address row))
    by (eapply prefix_lookup_Some; [apply Hg|done]).
  assert (Hname3 : chains s3 !! ch = Some name) by (eapply prefix_lookup_Some; [apply Hg|done]).
  pose proof Hkey3 as (c & Hkc & Hc)%list_lookup_fmap_Some_1. injection Hkc as Hch Haddr.
  eapply wp_mono; [eapply (push_nft_wp _ _ _ _ _ _ _ c s3 Hok3 Hc)| |intros e s'; by apply exhausted_grows].
  - by rewrite (grows_nft_index _ _ Hg).
  - intros s' _. unfold mret, M_ret. by rewrite Hch.
  - split; simpl; try done; [by eapply lookup_lt_Some| |].
    + eapply text_field_prefix; [|exact Ht1]. etrans; [apply Hg2|apply Hg3].
    + eapply text_field_prefix; [apply Hg3|done].
  - intros _ s' [Hok' Hp]. split; [done|]. split.
    { destruct Hp. apply grows_options in Hg as (? & ? & ?). unfold same_options. split_and!; congruence. }
    intros k. erewrite (pushed_view s3 s' _ (name, contract_address row, token_id row) k); [|done|done|exact Hp|].
    2:{ apply nft_address_Some. split; [done|]. by exists ch. }
    rewrite (grows_view s s3) by done. case_decide; [|done]. f_equal. unfold texts_of, row_texts. simpl.
    assert (field_text (strings s3) token = field_text (strings s1) token) as ->
      by (eapply field_text_prefix; [|exact Ht1]; etrans; [apply Hg2|apply Hg3]).
    assert (field_text (strings s3) image = field_text (strings s2) image) as ->
      by (eapply field_text_prefix; [apply Hg3|exact Hi2]).
    by rewrite Hft, Hfi, Hfn, !nonempty_bool.
Qed.

Lemma grows_options_trans s s1 s' : grows s s1 → same_options s1 s' → same_options s s'.
Proof. intros [] (? & ? & ?). split_and!; congruence. Qed.

(** ** Ingestion *)

Section Ingest.
Context `{JsonLibrary}.

(** The metadata of a row only touches anchors. *)
Lemma row_metadata_wp (row : InputRow) ch contract s :
  store_ok s → chains s !! ch = Some (chain row) →
  (contract_key <$> contracts s) !! contract = Some (ch, contract_address row) →
  wp (match validated_metadata (metadata_json row) with
      | Some json => insert_metadata_anchor contract (chain row) (token_id row) json (row_source_order row)
      | None => mret ()
      end) s (λ _ s', store_ok s' ∧ grows s s') (λ _ _, False).
Proof.
  intros Hok Hch (c & Hk & Hc)%list_lookup_fmap_Some_1. injection Hk as Hcc _.
  destruct (validated_metadata (metadata_json row)); [|by apply wp_ret].
  eapply insert_metadata_anchor_wp; [done|exact Hc|]. by rewrite <- Hcc.
Qed.

(** What the ingestion of a row promises. *)
Definition ingested (s : EntityStore) (row : InputRow) (s' : EntityStore) : Prop :=
  store_ok s' ∧ same_options s s' ∧ ∀ k, merge_views (view s k) (row_view row k) = Some (view s' k).

(** Why the ingestion of a row fails: it conflicts with the NFT at its address, or
    an id space is exhausted; the map is then the one of before. *)
Definition ingest_failure (s : EntityStore) (row : InputRow) (e : DedupError) (s' : EntityStore) : Prop :=
  e = InvalidInput "load" ∧ store_ok s' ∧ same_options s s' ∧ (∀ k, view s' k = view s k) ∧
  (merge_views (view s (row_address row)) (row_view row (row_address row)) = None ∨ at_capacity s').

Lemma merge_failure_ingest (P : Prop) s row e s' :
  store_ok s →
  (P → merge_views (view s (row_address row)) (row_view row (row_address row)) = None) →
  merge_failure P s e s' → ingest_failure s row e s'.
Proof.
  intros Hok HP (? & Hok' & Hg & HPc). split_and!; [done|done|by apply grows_options| |by destruct HPc; auto].
  intros k. by apply grows_view.
Qed.

Lemma exhausted_ingest s s1 row e s' : store_ok s → grows s s1 → exhausted s1 e s' → ingest_failure s row e s'.
Proof.
  intros Hok Hg He. eapply (merge_failure_ingest False); [done|done|].
  apply exhausted_failure. by eapply exhausted_grows.
Qed.

(** A store in which the contract of a row is known. *)
Definition row_contract (row : InputRow) (ch : ChainId) (contract : ContractId) (s : EntityStore) : Prop :=
  contract_at s contract ch (chain row) (contract_address row).

Lemma row_contract_grows row ch contract s s' : grows s s' → row_contract row ch contract s → row_contract row ch contract s'.
Proof. intros Hg [Hk Hc]. split; (eapply prefix_lookup_Some; [apply Hg|done]). Qed.

Lemma row_view_address row k :
  ¬ (chain row = [] ∨ contract_address row = [] ∨ token_id row = []) →
  row_view row k = if decide (row_address row = k) then Some (row_texts row) else None.
Proof.
  intros Hrow. unfold row_view. rewrite decide_False by done.
  destruct (decide (row_address row = k)) as [->|Hne]; [by rewrite decide_True|by rewrite decide_False].
Qed.

Lemma ingest_existing_wp row ch contract id s s1 :
  ¬ (chain row = [] ∨ contract_address row = [] ∨ token_id row = []) →
  store_ok s → store_ok s1 → grows s s1 → row_contract row ch contract s1 →
  nft_index s1 !! (contract, token_id row) = Some id →
  wp (merge_duplicate_nft id row) s1 (λ _, ingested s row) (ingest_failure s row).
Proof.
  intros Hrow Hok Hok1 Hg Hat Hid.
  destruct (indexed_nft s1 Hok1 _ _ _ _ _ _ Hat Hid) as (n & Hn & Hk). fold (row_address row) in Hk.
  assert (Hv : view s (row_address row) = Some (texts_of (strings s1) n)).
  { rewrite <- (grows_view s s1) by done. by eapply view_of. }
  eapply wp_mono; [by apply merge_duplicate_nft_wp| |].
  - intros _ s' (Hok' & Hopt & k & v & Hk' & Hm & Hv'). assert (k = row_address row) as -> by congruence.
    split; [done|]. split; [by eapply grows_options_trans|].
    intros k. rewrite Hv', (row_view_address _ _ Hrow), (grows_view s s1) by done. case_decide as Heq.
    + subst k. rewrite Hv. simpl. by rewrite Hm.
    + apply merge_views_None_r.
  - intros e s' Hf. eapply (merge_failure_ingest _ s row e s' Hok); [|by eapply merge_failure_grows; [|exact Hg|exact Hf]].
    intros Hnone. rewrite (row_view_address _ _ Hrow), decide_True, Hv by done. simpl. by rewrite Hnone.
Qed.

Lemma ingest_new_wp row ch contract s s1 :
  ¬ (chain row = [] ∨ contract_address row = [] ∨ token_id row = []) →
  store_ok s → store_ok s1 → grows s s1 → row_contract row ch contract s1 →
  nft_index s1 !! (contract, token_id row) = None →
  wp (token ← intern_unless (bool_decide (token_uri_norm row = [])) (token_uri_norm row);
      image ← intern_unless (bool_decide (image_uri_norm row = [])) (image_uri_norm row);
      name ← intern_unless (is_blank (name_norm row)) (name_norm row);
      push_nft (mret ch) contract (token_id row) name token image (row_source_order row)) s1
    (λ _, ingested s row) (ingest_failure s row).
Proof.
  intros Hrow Hok Hok1 Hg Hat Hid. pose proof Hat as [Hkey Hch].
  assert (Hv : view s (row_address row) = None)
    by (rewrite <- (grows_view s s1) by done; by eapply unindexed_view).
  eapply wp_mono; [eapply new_nft_wp; try done; tauto| |intros e s'; by apply (exhausted_ingest s s1)].
  intros _ s' (Hok' & Hopt & Hv'). split; [done|]. split; [by eapply grows_options_trans|].
  intros k. rewrite Hv', (row_view_address _ _ Hrow), (grows_view s s1) by done.
  fold (row_address row). case_decide as Heq; [subst k; by rewrite Hv|]. apply merge_views_None_r.
Qed.

Lemma try_ingest_row_wp row s :
  store_ok s → wp (try_ingest_row row) s (λ _, ingested s row) (ingest_failure s row).
Proof.
  intros Hok. unfold try_ingest_row. case_decide as Hskip.
  { apply wp_ret. split_and!; try done. intros k. unfold row_view. rewrite decide_True by done.
    apply merge_views_None_r. }
  apply wp_bind. eapply wp_mono; [by apply ensure_chain_wp| |intros e s'; by apply (exhausted_ingest s s)].
  intros ch s1 (Hok1 & Hg1 & Hch1). apply wp_bind.
  eapply wp_mono; [eapply ensure_contract_wp; [done|exact Hch1|tauto..]| |intros e s'; by apply (exhausted_ingest s s1)].
  intros contract s2 (Hok2 & Hg2 & Hkey2).
  assert (Hrow2 : row_contract row ch contract s2)
    by (split; [done|eapply prefix_lookup_Some; [apply Hg2|done]]).
  apply wp_bind. eapply wp_mono; [eapply row_metadata_wp; [done|apply Hrow2..]| |done].
  intros _ s3 [Hok3 Hg3]. assert (Hg : grows s s3) by (etrans; [done|by etrans]).
  assert (Hrow3 : row_contract row ch contract s3) by by apply (row_contract_grows _ _ _ s2).
  apply wp_bind, wp_gets. destruct (nft_index s3 !! (contract, token_id row)) as [id|] eqn:Hid.
  - by eapply ingest_existing_wp.
  - by eapply ingest_new_wp.
Qed.
End Ingest.

(** ** Sequences of rows *)

Section Rows.
Context `{JsonLibrary}.

(** What a sequence of rows says about an address, starting from [v]; a conflict
    between two rows is [None]. *)
Definition rows_view (rows : list InputRow) (k : NftAddress) : option (option NftTexts) :=
  foldM (λ v row, merge_views v (row_view row k)) None rows.

(** The store means the rows. *)
Definition represents (s : EntityStore) (rows : list InputRow) : Prop :=
  ∀ k, rows_view rows k = Some (view s k).

Definition ingest_rows (rows : list InputRow) : M () := for_each (λ _ row, try_ingest_row row) () rows.

(** Why a sequence of rows fails: two of its rows conflict, or an id space is
    exhausted. *)
Definition rows_failure (rows : list InputRow) (e : DedupError) (s : EntityStore) : Prop :=
  e = InvalidInput "load" ∧ store_ok s ∧ ((∃ k, rows_view rows k = None) ∨ at_capacity s).

Lemma rows_view_snoc rows row k :
  rows_view (rows ++ [row]) k = rows_view rows k ≫= λ v, merge_views v (row_view row k).
Proof.
  unfold rows_view. rewrite foldM_app. destruct (foldM _ None rows); simpl; [|done].
  by destruct (merge_views _ _).
Qed.

Lemma rows_view_prefix rows rows' k : rows_view rows k = None → rows_view (rows ++ rows') k = None.
Proof. unfold rows_view. rewrite foldM_app. by intros ->. Qed.

Lemma ingest_rows_wp rows s :
  store_ok s → represents s [] →
  wp (ingest_rows rows) s (λ _ s', store_ok s' ∧ same_options s s' ∧ represents s' rows) (rows_failure rows).
Proof.
  intros Hok Hs. apply (wp_for_each _ (λ rows1 _ s1, store_ok s1 ∧ same_options s s1 ∧ represents s1 rows1)); [done|].
  intros rows1 row rows2 _ s1 -> (Hok1 & Hopt & Hr).
  eapply wp_mono; [by apply try_ingest_row_wp| |].
  - intros _ s2 (Hok2 & (? & ? & ?) & Hv). split; [done|].
    split; [destruct Hopt as (? & ? & ?); split_and!; congruence|].
    intros k. rewrite rows_view_snoc, Hr. apply Hv.
  - intros e s2 (? & ? & _ & _ & [Hc|]); (split; [done|]); (split; [done|]); [|by right].
    left. exists (row_address row). rewrite cons_middle, app_assoc. apply rows_view_prefix.
    rewrite rows_view_snoc, Hr. exact Hc.
Qed.

Lemma represents_empty limit evm : represents (with_options limit evm) [].
Proof. intros [[ch a] t]. unfold rows_view, view. simpl. by rewrite lookup_empty. Qed.
End Rows.

(** ** Properties *)

(** C7: Ingesting a row into a well-formed store never panics and keeps the store
    well formed.  It refines the merge of the row's texts at the row's address: the
    map changes there only, an incomplete row changes nothing, the first name stays
    and a URI is filled in when it was missing.  It fails exactly with an input
    error, leaving the map as it was, and only if a URI conflicts with the one
    already recorded or an id space is exhausted. *)
Theorem try_ingest_row_refines `{JsonLibrary} (row : InputRow) (s : EntityStore) :
  store_ok s → wp (try_ingest_row row) s (λ _, ingested s row) (ingest_failure s row).
Proof. apply try_ingest_row_wp. Qed.

(** An empty store for the examples, and a row. *)
Definition example_row (ch addr token name turi : string) : InputRow :=
  {| chain := lit ch; contract_address := lit addr; token_id := lit token; name_norm := lit name;
     token_uri_norm := lit turi; image_uri_norm := []; metadata_json := [];
     row_source_order := {| file_ordinal := 0; file_row_number := 0 |} |}.

(** Two rows of one NFT: the second adds the URI that the first lacks. *)
Definition example_rows : list InputRow :=
  [example_row "ethereum" "0xa" "1" "ape" ""; example_row "ethereum" "0xa" "1" "other" "ipfs://1"].

Definition example_store : EntityStore := (@ingest_rows simple_json example_rows (with_options None ∅)).2.

Lemma example_store_ok : store_ok example_store ∧ represents example_store example_rows.
Proof.
  pose proof (@ingest_rows_wp simple_json example_rows _ (with_options_ok None ∅) (represents_empty None ∅)) as Hw.
  unfold wp in Hw. unfold example_store.
  destruct (ingest_rows example_rows (with_options None ∅)) as [o s] eqn:E.
  assert (Ho : o = Returns ()) by (apply (f_equal fst) in E; by vm_compute in E). subst o. simpl.
  by destruct Hw as (? & _ & ?).
Qed.

(** A third row with another URI conflicts. *)
Lemma try_ingest_row_refines_witness :
  (@try_ingest_row simple_json (example_row "ethereum" "0xa" "1" "" "ipfs://2") example_store).1 =
    Fails (InvalidInput "load") ∧
  wp (@try_ingest_row simple_json (example_row "ethereum" "0xa" "1" "" "ipfs://2")) example_store
    (λ _, ingested example_store (example_row "ethereum" "0xa" "1" "" "ipfs://2"))
    (ingest_failure example_store (example_row "ethereum" "0xa" "1" "" "ipfs://2")).
Proof.
  split; [vm_compute; reflexivity|].
  apply (@try_ingest_row_refines simple_json), example_store_ok.
Defined.
