(* ===== verification/EntityMerge.v ===== *)
(** Merging shards ([EntityStore::merge_shard]): the merged store means the merge of
    the two maps of [EntityView]. *)

From S2P Require Import Prelude Text CanonicalJson Types Anchors Entity EntityInvariant.
From S2P Require Import EntityView.

(** ** The algebra of maps *)

Lemma merge_text_assoc a b c :
  (ab ← merge_text a b; merge_text ab c) = (bc ← merge_text b c; merge_text a bc).
Proof.
  destruct a as [x|], b as [y|], c as [z|]; cbn [merge_text mbind option_bind];
    repeat (case_decide; cbn [merge_text mbind option_bind]); subst; try done.
  all: by rewrite ?decide_True, ?decide_False.
Qed.

(** A name and the two URIs from optional results. *)
Definition build_texts (name : option str) (t i : option (option str)) : option NftTexts :=
  t ← t; i ← i; Some {| text_name := name; text_token_uri := t; text_image_uri := i |}.

Definition first_name (a b : option str) : option str := match a with Some n => Some n | None => b end.

Lemma merge_texts_build a b :
  merge_texts a b = build_texts (first_name (text_name a) (text_name b))
    (merge_text (text_token_uri a) (text_token_uri b)) (merge_text (text_image_uri a) (text_image_uri b)).
Proof. done. Qed.

Lemma merge_texts_assoc a b c :
  (ab ← merge_texts a b; merge_texts ab c) = (bc ← merge_texts b c; merge_texts a bc).
Proof.
  trans (build_texts (first_name (text_name a) (first_name (text_name b) (text_name c)))
    (bc ← merge_text (text_token_uri b) (text_token_uri c); merge_text (text_token_uri a) bc)
    (bc ← merge_text (text_image_uri b) (text_image_uri c); merge_text (text_image_uri a) bc)).
  - rewrite <- !merge_text_assoc, merge_texts_build. unfold build_texts.
    destruct (merge_text (text_token_uri a) (text_token_uri b)) as [t|]; [|done].
    destruct (merge_text (text_image_uri a) (text_image_uri b)) as [i|]; cbn [mbind option_bind];
      [|by destruct (merge_text t _)].
    rewrite merge_texts_build. by destruct (text_name a).
  - rewrite (merge_texts_build b c). unfold build_texts.
    destruct (merge_text (text_token_uri b) (text_token_uri c)) as [t|]; [|done].
    destruct (merge_text (text_image_uri b) (text_image_uri c)) as [i|]; cbn [mbind option_bind]; [done|].
    by destruct (merge_text _ t).
Qed.

Lemma merge_views_assoc a b c :
  (ab ← merge_views a b; merge_views ab c) = (bc ← merge_views b c; merge_views a bc).
Proof.
  destruct a as [x|], b as [y|], c as [z|]; cbn [merge_views mbind option_bind]; try done.
  - pose proof (merge_texts_assoc x y z) as Hx.
    destruct (merge_texts x y), (merge_texts y z); cbn in *; rewrite ?Hx; try done; by rewrite <- Hx.
  - by destruct (merge_texts x y).
  - by destruct (merge_texts y z).
Qed.

(** ** The id maps of a merge *)

(** The tables that the loop over the NFTs leaves alone. *)
Record same_tables (s s' : EntityStore) : Prop := {
  tables_chains : chains s' = chains s;
  tables_strings : strings s' = strings s;
  tables_contracts : contract_key <$> contracts s' = contract_key <$> contracts s;
  tables_options : same_options s s';
}.

#[export] Instance same_tables_preorder : PreOrder same_tables.
Proof.
  split; [by split|]. intros s1 s2 s3 [? ? ? (? & ? & ?)] [? ? ? (? & ? & ?)].
  split; [congruence..|]. split_and!; congruence.
Qed.

Lemma same_tables_address s s' n : same_tables s s' → nft_address s' n = nft_address s n.
Proof. intros []. unfold nft_address. by rewrite tables_contracts0, tables_chains0. Qed.

(** [m] maps the ids of [l] to ids of [l'] with the same contents. *)
Definition id_map {A} (l l' : list A) (m : list nat) : Prop :=
  Forall2 (λ id x, l' !! id = Some x) m l.

Lemma id_map_grow {A} (l l1 l2 : list A) m : l1 `prefix_of` l2 → id_map l l1 m → id_map l l2 m.
Proof. intros Hp Hm. eapply Forall2_impl; [exact Hm|]. intros id x. by apply prefix_lookup_Some. Qed.

Lemma id_map_lookup {A} (l l' : list A) m i x :
  id_map l l' m → l !! i = Some x → ∃ id, m !! i = Some id ∧ l' !! id = Some x.
Proof. intros Hm Hx. destruct (Forall2_lookup_r _ _ _ _ _ Hm Hx) as (id & Hid & Hl'). by exists id. Qed.

(** A loop that maps every element to an id of a growing table. *)
Lemma id_map_loop {A} (table : EntityStore → list A) (f : A → M nat) (l : list A) s :
  (∀ s s', grows s s' → table s `prefix_of` table s') →
  (∀ x s, store_ok s → wp (f x) s (λ id s', store_ok s' ∧ grows s s' ∧ table s' !! id = Some x) (exhausted s)) →
  store_ok s →
  wp (for_each (λ m x, id ← f x; mret (m ++ [id])) [] l) s
    (λ m s', store_ok s' ∧ grows s s' ∧ id_map l (table s') m) (exhausted s).
Proof.
  intros Htable Hf Hok.
  apply (wp_for_each _ (λ l1 m s', store_ok s' ∧ grows s s' ∧ id_map l1 (table s') m)).
  { split_and!; [done|done|constructor]. }
  intros l1 x l2 m s1 _ (Hok1 & Hg1 & Hm1). apply wp_bind.
  eapply wp_mono; [by apply Hf| |intros e s'; by apply exhausted_grows].
  intros id s2 (Hok2 & Hg2 & Hid). apply wp_ret. split_and!; [done|by etrans|].
  apply Forall2_app; [eapply id_map_grow; [by apply Htable|done]|]. by constructor.
Qed.

(** The contracts of the shard that are already mapped: same chain name, same
    address. *)
Definition contract_mapped (shard s : EntityStore) (c : Contract) (id : ContractId) : Prop :=
  ∃ ch name, (contract_key <$> contracts s) !! id = Some (ch, address c) ∧
    chains s !! ch = Some name ∧ chains shard !! contract_chain_id c = Some name.

Lemma contract_mapped_grow shard s s' c id :
  grows s s' → contract_mapped shard s c id → contract_mapped shard s' c id.
Proof.
  intros Hg (ch & name & Hk & Hc & Hs). exists ch, name.
  split_and!; [eapply prefix_lookup_Some; [apply Hg|done]..|done].
Qed.

Section Contracts.
Context (shard : EntityStore) (Hshard : store_ok shard).

Lemma merge_contract_wp chain_map m i c s :
  store_ok s → id_map (chains shard) (chains s) chain_map →
  contracts shard !! i = Some c → length m = length (contracts shard) →
  wp (merge_contract chain_map m c) s
    (λ m' s', store_ok s' ∧ grows s s' ∧ ∃ id, m' = <[i := id]> m ∧ contract_mapped shard s' c id)
    (exhausted s).
Proof.
  intros Hok Hmap Hc Hlen. pose proof (ok_contracts shard Hshard _ _ Hc) as [Hid Haddr (name & Hname & Hne & _) _].
  destruct (id_map_lookup _ _ _ _ _ Hmap Hname) as (ch & Hch & Hchs). unfold merge_contract.
  apply wp_bind. eapply wp_unwrap; [exact Hch|]. apply wp_bind.
  eapply wp_mono; [by eapply ensure_contract_wp| |done]. intros id s1 (Hok1 & Hg1 & Hkey1).
  assert (Hch1 : chains s1 !! ch = Some name) by (eapply prefix_lookup_Some; [apply Hg1|done]).
  assert (Hi : i < length m) by (rewrite Hlen; by eapply lookup_lt_Some).
  apply wp_bind. eapply wp_unwrap.
  { rewrite Hid. unfold update_at. destruct (lookup_lt_is_Some_2 m i Hi) as [x ->]. done. }
  apply wp_bind, wp_bind, wp_gets. eapply wp_unwrap; [exact Hch1|].
  assert (Hmapped : contract_mapped shard s1 c id) by (by exists ch, name).
  apply wp_bind. eapply (wp_mono _ _ (λ _ s', store_ok s' ∧ grows s1 s') _ (λ _ _, False)); [| |done].
  - apply (wp_for_each _ (λ _ _ s', store_ok s' ∧ grows s1 s')); [done|].
    intros l1 r l2 _ s2 _ [Hok2 Hg2].
    pose proof (prefix_lookup_Some _ _ _ _ (grows_contracts _ _ Hg2) Hkey1) as (k & Hk & Hks)%list_lookup_fmap_Some_1.
    injection Hk as Hkc _. eapply wp_mono; [eapply insert_metadata_anchor_wp; [done|exact Hks|]| |done].
    + rewrite <- Hkc. eapply prefix_lookup_Some; [apply Hg2|done].
    + intros _ s3 [Hok3 Hg3]. split; [done|by etrans].
  - intros _ s2 [Hok2 Hg2]. apply wp_ret. split_and!; [done|by etrans|].
    exists id. split; [done|]. by eapply contract_mapped_grow.
Qed.

(** The map of the whole loop. *)
Definition contract_map_ok (s : EntityStore) (m : list ContractId) : Prop :=
  ∀ i c, contracts shard !! i = Some c → ∃ id, m !! i = Some id ∧ contract_mapped shard s c id.

Lemma merge_contracts_wp chain_map s :
  store_ok s → id_map (chains shard) (chains s) chain_map →
  wp (for_each (merge_contract chain_map) (replicate (length (contracts shard)) 0) (contracts shard)) s
    (λ m s', store_ok s' ∧ grows s s' ∧ contract_map_ok s' m) (exhausted s).
Proof.
  intros Hok Hmap. eapply wp_mono; [apply (wp_for_each _ (λ l1 m s', store_ok s' ∧ grows s s' ∧
      length m = length (contracts shard) ∧
      ∀ i c, l1 !! i = Some c → ∃ id, m !! i = Some id ∧ contract_mapped shard s' c id) (exhausted s))| |done].
  - split_and!; [done|done|apply length_replicate|]. intros i c Hi. by rewrite lookup_nil in Hi.
  - intros l1 c l2 m s1 Hl (Hok1 & Hg1 & Hlen & Hm).
    assert (Hc : contracts shard !! length l1 = Some c) by (by rewrite Hl, lookup_app_r, Nat.sub_diag).
    eapply wp_mono; [eapply merge_contract_wp; [done|eapply id_map_grow; [apply Hg1|done]|exact Hc|done]| |
      intros e s'; by apply exhausted_grows].
    intros m' s2 (Hok2 & Hg2 & id & -> & Hid). split_and!; [done|by etrans|by rewrite length_insert|].
    intros i c'. rewrite lookup_snoc_Some. intros [[Hi Hc']|[-> <-]].
    + destruct (Hm i c' Hc') as (id' & Hid' & Hmapped). exists id'. rewrite list_lookup_insert_ne by lia.
      split; [done|]. by eapply contract_mapped_grow.
    + exists id. rewrite list_lookup_insert_eq; [done|]. rewrite Hlen. by eapply lookup_lt_Some.
  - intros m s' (? & ? & _ & ?). done.
Qed.
End Contracts.

(** ** NFTs of a shard *)

Lemma put_nft_wp id n f s :
  store_ok s → nfts s !! id = Some n → nft_key (f n) = nft_key n →
  nft_ok (length (contracts s)) (strings s) id (f n) →
  wp (put_nft id f) s (λ _ s', store_ok s' ∧ s' = set_nfts (<[id := f n]> (nfts s)) s) (λ _ _, False).
Proof.
  intros Hok Hn Hk Hf. unfold put_nft. apply wp_bind, wp_gets, wp_bind.
  eapply wp_unwrap; [unfold update_at; rewrite Hn; done|]. apply wp_modify. split; [|done].
  by eapply update_nft_ok.
Qed.

(** Ids of one table agree exactly when their texts do. *)
Lemma merge_mapped_uri_text s P a b :
  store_ok s → text_field (strings s) P a → text_field (strings s) P b →
  match merge_mapped_uri a b with
  | inl r => text_field (strings s) P r ∧
      merge_text (field_text (strings s) a) (field_text (strings s) b) = Some (field_text (strings s) r)
  | inr e => e = InvalidInput "load" ∧ merge_text (field_text (strings s) a) (field_text (strings s) b) = None
  end.
Proof.
  intros Hok Ha Hb. destruct a as [i|], b as [j|]; simpl; try done; [|by rewrite merge_text_None_r].
  destruct (field_text_Some _ _ _ Ha) as (t & Ht & _), (field_text_Some _ _ _ Hb) as (u & Hu & _).
  simpl in Ht, Hu. rewrite Ht, Hu. case_decide as Hij; simpl.
  - subst j. assert (u = t) as -> by congruence. by rewrite decide_True, Ht.
  - rewrite decide_False; [done|]. intros ->. apply Hij. by eapply (index_ok_inj _ _ _ _ _ (ok_strings s Hok)).
Qed.

(** A conflict of the texts of two NFTs, with a store that is still well formed. *)
Definition nft_conflict (s : EntityStore) (n : Nft) (t : NftTexts) (e : DedupError) (s' : EntityStore) : Prop :=
  e = InvalidInput "load" ∧ store_ok s' ∧ same_options s s' ∧ merge_texts (texts_of (strings s) n) t = None.

Definition incoming_texts (strings : list str) (name token image : option StringId) : NftTexts :=
  {| text_name := field_text strings name; text_token_uri := field_text strings token;
     text_image_uri := field_text strings image |}.

Lemma set_nfts_twice s id n1 n2 :
  set_nfts (<[id := n2]> (nfts (set_nfts (<[id := n1]> (nfts s)) s))) (set_nfts (<[id := n1]> (nfts s)) s) =
  set_nfts (<[id := n2]> (nfts s)) s.
Proof. unfold set_nfts at 1 4. simpl. by rewrite list_insert_insert_eq. Qed.

(** The state of [merge_existing_nft]: only the NFT [id] has changed. *)
Definition nft_set (s : EntityStore) (id : nat) (n : Nft) (s' : EntityStore) : Prop :=
  store_ok s' ∧ s' = set_nfts (<[id := n]> (nfts s)) s.

Lemma put_nft_next id n n1 f s s1 :
  nfts s !! id = Some n → nft_set s id n1 s1 → nft_key (f n1) = nft_key n1 →
  nft_ok (length (contracts s)) (strings s) id (f n1) →
  wp (put_nft id f) s1 (λ _ s', nft_set s id (f n1) s') (λ _ _, False).
Proof.
  intros Hn [Hok1 ->] Hk Hf. eapply wp_mono; [apply (put_nft_wp id n1)| |done]; [done| |done|done|].
  - simpl. rewrite list_lookup_insert_eq; [done|]. by eapply lookup_lt_Some.
  - intros _ s' [Hok' ->]. split; [done|]. by rewrite set_nfts_twice.
Qed.

Lemma nft_set_lookup s id n n1 s1 :
  nfts s !! id = Some n → nft_set s id n1 s1 → nfts s1 !! id = Some n1.
Proof. intros Hn [_ ->]. simpl. rewrite list_lookup_insert_eq; [done|]. by eapply lookup_lt_Some. Qed.

Lemma nft_set_tables s id n1 s1 : nft_set s id n1 s1 → same_tables s s1.
Proof. intros [_ ->]. by split. Qed.

Lemma merge_existing_nft_wp id n name token image s :
  store_ok s → nfts s !! id = Some n →
  text_field (strings s) (λ t, is_blank t = false) name →
  text_field (strings s) (λ t, t ≠ []) token → text_field (strings s) (λ t, t ≠ []) image →
  wp (merge_existing_nft id name token image) s
    (λ _ s', ∃ n', nft_set s id n' s' ∧ nft_key n' = nft_key n ∧ nft_ok (length (contracts s)) (strings s) id n' ∧
       merge_texts (texts_of (strings s) n) (incoming_texts (strings s) name token image) =
         Some (texts_of (strings s) n'))
    (nft_conflict s n (incoming_texts (strings s) name token image)).
Proof.
  intros Hok Hn Hname Htoken Himage.
  pose proof (ok_nfts s Hok _ _ Hn) as [Hid Hc Ht Hname0 Htoken0 Himage0].
  unfold merge_existing_nft. apply wp_bind, wp_bind, wp_gets. eapply wp_unwrap; [exact Hn|].
  set (name' := if decide (name_id n = None) then name else name_id n).
  set (n1 := with_uris name' (token_uri_id n) (image_uri_id n) n).
  assert (Hname' : text_field (strings s) (λ t, is_blank t = false) name') by (unfold name'; by case_decide).
  assert (Hn1 : nft_ok (length (contracts s)) (strings s) id n1) by by split.
  assert (Hfirst : first_name (field_text (strings s) (name_id n)) (field_text (strings s) name) =
                   field_text (strings s) name').
  { unfold name'. destruct (name_id n) as [i|]; simpl; [|done].
    by destruct (Hname0 i eq_refl) as (t & -> & _). }
  apply wp_bind. eapply (wp_mono _ _ (λ _ s', nft_set s id n1 s') _ (λ _ _, False)); [| |done].
  { unfold n1, name'. case_decide as Hnone.
    - by eapply wp_mono; [by apply (put_nft_wp id n)| |].
    - apply wp_ret. split; [done|]. destruct s. unfold set_nfts. simpl in *. f_equal. symmetry.
      apply list_insert_id. rewrite Hn. by destruct n. }
  intros [] s1 Hs1. apply wp_bind.
  pose proof (merge_mapped_uri_text s _ (token_uri_id n) token Hok Htoken0 Htoken) as Hmt.
  destruct (merge_mapped_uri (token_uri_id n) token) as [t|e]; simpl in Hmt; destruct Hmt as [Hmt1 Hmt2].
  2:{ apply wp_fails. split; [done|]. split; [apply Hs1|]. split; [by apply (nft_set_tables s id n1 s1)|].
      rewrite merge_texts_build. unfold build_texts. cbn [text_token_uri texts_of incoming_texts]. by rewrite Hmt2. }
  apply wp_ret, wp_bind.
  assert (Hn2 : nft_ok (length (contracts s)) (strings s) id (with_uris name' t (image_uri_id n) n)) by by split.
  eapply wp_mono; [by apply (put_nft_next id n n1)| |done]. intros [] s2 Hs2.
  pose proof (merge_mapped_uri_text s _ (image_uri_id n) image Hok Himage0 Himage) as Hmi. apply wp_bind.
  destruct (merge_mapped_uri (image_uri_id n) image) as [i|e]; simpl in Hmi; destruct Hmi as [Hmi1 Hmi2].
  2:{ apply wp_fails. split; [done|]. split; [apply Hs2|].
      split; [by eapply tables_options, nft_set_tables|].
      rewrite merge_texts_build. unfold build_texts. cbn [text_token_uri text_image_uri texts_of incoming_texts].
      by rewrite Hmt2, Hmi2. }
  apply wp_ret. assert (Hn3 : nft_ok (length (contracts s)) (strings s) id (with_uris name' t i n)) by by split.
  eapply wp_mono; [by eapply put_nft_next; [exact Hn|exact Hs2| |]| |done]. intros [] s3 Hs3.
  exists (with_uris name' t i n). split_and!; [done|done|done|].
  rewrite merge_texts_build. unfold build_texts. cbn [text_name text_token_uri text_image_uri texts_of incoming_texts].
  by rewrite Hfirst, Hmt2, Hmi2.
Qed.

(** ** The loop over the NFTs *)

Section Nfts.
Context (shard : EntityStore) (Hshard : store_ok shard).

(** An id field of the shard, renamed. *)
Lemma map_id_text s m P id :
  id_map (strings shard) (strings s) m → text_field (strings shard) P id →
  ∃ id', map_id m id = Some id' ∧ text_field (strings s) P id' ∧
    field_text (strings s) id' = field_text (strings shard) id.
Proof.
  intros Hm Hf. destruct id as [i|]; simpl; [|by exists None].
  destruct (Hf i eq_refl) as (t & Ht & HP). destruct (id_map_lookup _ _ _ _ _ Hm Ht) as (j & Hj & Hjt).
  exists (Some j). rewrite Hj. split_and!; [done| |by simpl; rewrite Hjt, Ht].
  intros ? [= <-]. by exists t.
Qed.

(** What merging one NFT of the shard promises. *)
Definition nft_merged (s : EntityStore) (n : Nft) (s' : EntityStore) : Prop :=
  store_ok s' ∧ same_tables s s' ∧ ∃ k, nft_address shard n = Some k ∧
    merge_views (view s k) (Some (texts_of (strings shard) n)) = Some (view s' k) ∧
    ∀ k', k' ≠ k → view s' k' = view s k'.

(** Why it fails. *)
Definition merge_nft_failure (s : EntityStore) (n : Nft) (e : DedupError) (s' : EntityStore) : Prop :=
  e = InvalidInput "load" ∧ store_ok s' ∧ same_options s s' ∧
  ((∃ k, nft_address shard n = Some k ∧ merge_views (view s k) (Some (texts_of (strings shard) n)) = None) ∨
   at_capacity s').

Lemma merge_nft_wp string_map contract_map i n s :
  store_ok s → id_map (strings shard) (strings s) string_map → contract_map_ok shard s contract_map →
  nfts shard !! i = Some n →
  wp (merge_nft string_map contract_map n) s (λ _, nft_merged s n) (merge_nft_failure s n).
Proof.
  intros Hok Hstrings Hcontracts Hn.
  pose proof (ok_nfts shard Hshard _ _ Hn) as [_ Hcn Htok Hname Htoken Himage].
  destruct (lookup_lt_is_Some_2 (contracts shard) (nft_contract_id n) Hcn) as [c Hc].
  destruct (Hcontracts _ _ Hc) as (contract & Hcm & ch & cname & Hkey & Hch & Hshch).
  destruct (map_id_text s _ _ _ Hstrings Hname) as (name & Ename & Hname' & Tname).
  destruct (map_id_text s _ _ _ Hstrings Htoken) as (token & Etoken & Htoken' & Ttoken).
  destruct (map_id_text s _ _ _ Hstrings Himage) as (image & Eimage & Himage' & Timage).
  set (k := (cname, address c, nft_token_id n)).
  assert (Hk : nft_address shard n = Some k).
  { apply nft_address_Some. split; [done|]. exists (contract_chain_id c). by rewrite list_lookup_fmap, Hc. }
  assert (Htexts : texts_of (strings shard) n = incoming_texts (strings s) name token image)
    by (unfold texts_of, incoming_texts; congruence).
  unfold merge_nft. do 4 (apply wp_bind; eapply wp_unwrap; [done|]). apply wp_bind, wp_gets.
  destruct (nft_index s !! (contract, nft_token_id n)) as [id|] eqn:Hid.
  - destruct (indexed_nft s Hok _ ch cname _ _ _ (conj Hkey Hch) Hid) as (m & Hm & Hmk).
    pose proof (view_of s Hok id m k Hm Hmk) as Hv.
    eapply wp_mono; [by apply (merge_existing_nft_wp id m)| |].
    + intros _ s' (m' & Hset & Hkm & Hokm & Hmerge). pose proof (nft_set_tables _ _ _ _ Hset) as Htab.
      destruct Hset as [Hok' ->]. split; [done|]. split; [done|]. exists k.
      pose proof (λ k', proj2 (updated_view s id m m' k k' Hok Hm Hkm Hokm Hmk)) as Hview. simpl in Hview.
      split_and!; [done| |].
      * rewrite Hview, decide_True, Hv, Htexts by done. simpl. by rewrite Hmerge.
      * intros k' Hne. rewrite Hview, decide_False by congruence. done.
    + intros e s' (? & ? & ? & Hnone). split_and!; [done..|]. left. exists k. rewrite Hv, Htexts. simpl. by rewrite Hnone.
  - pose proof (unindexed_view s Hok _ ch cname _ _ (conj Hkey Hch) Hid) as Hv. fold k in Hv.
    pose proof Hkey as (cs & Hkc & Hcs)%list_lookup_fmap_Some_1. injection Hkc as Hchc _.
    eapply wp_mono; [eapply (push_nft_wp _ _ _ _ _ _ _ cs s Hok Hcs Hid)| |].
    + intros s' Hs'. unfold mbind, M_bind, gets, unwrap, mret, M_ret. by rewrite Hs', Hcs.
    + split; simpl; try done. by eapply lookup_lt_Some.
    + intros _ s' [Hok' Hp]. split; [done|]. split; [by destruct Hp|]. exists k.
      pose proof (λ k', pushed_view s s' _ k k' Hok Hok' Hp
        ltac:(apply nft_address_Some; split; [done|]; by exists ch)) as Hview.
      split_and!; [done| |].
      * rewrite Hview, decide_True, Hv by done. simpl. by rewrite Htexts.
      * intros k' Hne. rewrite Hview, decide_False by congruence. done.
    + intros e s' (? & ? & Hg & ?). split_and!; [done|done|by apply grows_options|by right].
Qed.
(** The state of the loop after the NFTs [l1]. *)
Definition nfts_merged (s : EntityStore) (l1 : list Nft) (s1 : EntityStore) : Prop :=
  store_ok s1 ∧ same_tables s s1 ∧
  (∀ n k, n ∈ l1 → nft_address shard n = Some k →
     merge_views (view s k) (Some (texts_of (strings shard) n)) = Some (view s1 k)) ∧
  (∀ k, (∀ n, n ∈ l1 → nft_address shard n ≠ Some k) → view s1 k = view s k).

Lemma contract_map_same_tables s s' m : same_tables s s' → contract_map_ok shard s m → contract_map_ok shard s' m.
Proof.
  intros [Hc _ Hk _] Hm i c Hi. destruct (Hm i c Hi) as (id & Hid & ch & name & ? & ? & ?).
  exists id. split; [done|]. exists ch, name. by rewrite Hk, Hc.
Qed.

Lemma nfts_merged_step s s1 s2 l1 n l2 :
  nfts shard = l1 ++ n :: l2 → nfts_merged s l1 s1 → nft_merged s1 n s2 → nfts_merged s (l1 ++ [n]) s2.
Proof.
  intros Hl (Hok1 & Htab & Hin & Hout) (Hok2 & Htab2 & k & Hk & Hm & Hother).
  assert (Hnew : ∀ m, m ∈ l1 → nft_address shard m ≠ Some k).
  { intros m [i Hi]%list_elem_of_lookup_1 Hmk. pose proof (lookup_lt_Some _ _ _ Hi).
    assert (i = length l1); [|lia]. eapply (nft_address_inj shard Hshard _ _ m n k); [| |done|done].
    - rewrite Hl. by apply lookup_app_l_Some.
    - by rewrite Hl, lookup_app_r, Nat.sub_diag. }
  split_and!; [done|by etrans| |].
  - intros m k' [Hm'|Hm']%elem_of_app Hk'.
    + rewrite Hother; [by apply Hin|]. intros ->. by destruct (Hnew m).
    + apply list_elem_of_singleton in Hm' as ->. assert (k' = k) as -> by congruence.
      rewrite <- (Hout k Hnew). done.
  - intros k' Hk'. rewrite Hother; [|intros ->; apply (Hk' n); [set_solver|done]].
    apply Hout. intros m Hm'. apply Hk'. set_solver.
Qed.

(** What a merge of the shard promises. *)
Definition shard_merged (s s' : EntityStore) : Prop :=
  store_ok s' ∧ same_options s s' ∧ ∀ k, merge_views (view s k) (view shard k) = Some (view s' k).

(** Why it fails. *)
Definition shard_failure (s : EntityStore) (e : DedupError) (s' : EntityStore) : Prop :=
  e = InvalidInput "load" ∧ store_ok s' ∧ same_options s s' ∧
  ((∃ k, merge_views (view s k) (view shard k) = None) ∨ at_capacity s').

Lemma merge_nfts_wp string_map contract_map s :
  store_ok s → id_map (strings shard) (strings s) string_map → contract_map_ok shard s contract_map →
  wp (for_each (λ _ n, merge_nft string_map contract_map n) () (nfts shard)) s
    (λ _, shard_merged s) (shard_failure s).
Proof.
  intros Hok Hstrings Hcontracts.
  eapply wp_mono; [apply (wp_for_each _ (λ l1 _ s1, nfts_merged s l1 s1) (shard_failure s))| |done].
  - split_and!; [done|done|by intros n k ?%elem_of_nil|done].
  - intros l1 n l2 _ s1 Hl Hmerged. pose proof Hmerged as (Hok1 & Htab & _ & Hout).
    assert (Hn : nfts shard !! length l1 = Some n) by (by rewrite Hl, lookup_app_r, Nat.sub_diag).
    eapply wp_mono; [apply (merge_nft_wp string_map contract_map (length l1)); [done| | |done]| |].
    + by rewrite (tables_strings _ _ Htab).
    + by eapply contract_map_same_tables.
    + intros [] s2. by eapply nfts_merged_step.
    + intros e s2 (? & ? & Hopt & Hwhy).
      assert (same_options s s2) by (destruct Htab as [_ _ _ (? & ? & ?)], Hopt as (? & ? & ?); split_and!; congruence).
      split_and!; [done..|]. destruct Hwhy as [(k & Hk & Hnone)|]; [left|by right].
      exists k. rewrite (view_of shard Hshard _ _ _ Hn Hk).
      rewrite <- (Hout k); [done|]. intros m [i Hi]%list_elem_of_lookup_1 Hmk.
      pose proof (lookup_lt_Some _ _ _ Hi). assert (i = length l1); [|lia].
      eapply (nft_address_inj shard Hshard _ _ m n k); [|done..]. rewrite Hl. by apply lookup_app_l_Some.
  - intros _ s' (Hok' & Htab & Hin & Hout). split; [done|]. split; [by apply Htab|]. intros k.
    destruct (view shard k) as [v|] eqn:Hv.
    + apply (view_Some shard Hshard) in Hv as (i & n & Hn & Hk & ->). apply Hin; [|done].
      by eapply list_elem_of_lookup_2.
    + rewrite merge_views_None_r, Hout; [done|]. intros n [i Hi]%list_elem_of_lookup_1 Hk.
      rewrite (view_of shard Hshard i n k) in Hv; done.
Qed.

Lemma shard_failure_grows s s1 e s' : store_ok s → store_ok s1 → grows s s1 → shard_failure s1 e s' → shard_failure s e s'.
Proof.
  intros Hok Hok1 Hg (? & ? & ? & Hwhy). split_and!; [done|done|by eapply grows_options_trans|].
  destruct Hwhy as [[k Hk]|]; [left; exists k|by right]. by rewrite <- (grows_view s s1).
Qed.

Lemma exhausted_shard s s1 e s' : store_ok s → grows s s1 → exhausted s1 e s' → shard_failure s e s'.
Proof.
  intros Hok Hg (? & ? & Hg' & ?). split_and!; [done|done|apply grows_options; by etrans|by right].
Qed.

Lemma merge_shard_wp s :
  store_ok s → wp (merge_shard shard) s (λ _, shard_merged s) (shard_failure s).
Proof.
  intros Hok. unfold merge_shard. apply wp_bind.
  eapply wp_mono; [apply (id_map_loop chains); [by intros ? ? []|by apply ensure_chain_wp|done]| |
    intros e s'; by apply (exhausted_shard s s)].
  intros chain_map s1 (Hok1 & Hg1 & Hchains). apply wp_bind.
  eapply wp_mono; [apply (id_map_loop strings); [by intros ? ? []|by apply intern_string_wp|done]| |
    intros e s'; by apply (exhausted_shard s s1)].
  intros string_map s2 (Hok2 & Hg2 & Hstrings). assert (Hg12 : grows s s2) by by etrans. apply wp_bind.
  eapply wp_mono; [apply merge_contracts_wp; [done|done|eapply id_map_grow; [apply Hg2|done]]| |
    intros e s'; by apply (exhausted_shard s s2)].
  intros contract_map s3 (Hok3 & Hg3 & Hcontracts). assert (Hg : grows s s3) by by etrans.
  eapply wp_mono; [apply merge_nfts_wp; [done|eapply id_map_grow; [apply Hg3|done]|done]| |
    intros e s'; by apply (shard_failure_grows s s3)].
  intros _ s' (Hok' & Hopt & Hview). split; [done|]. split; [by eapply grows_options_trans|].
  intros k. rewrite <- (grows_view s s3) by done. apply Hview.
Qed.
End Nfts.

(** ** Properties *)

(** C8: Merging a shard into a store, both well formed, never panics and keeps the
    store well formed; it succeeds with the merge of the two maps, or fails with an
    input error because the two disagree on a URI somewhere or an id space is
    exhausted.  The merge of maps is associative, so the grouping of shards does
    not matter. *)
Theorem merge_shard_refines (shard s : EntityStore) :
  store_ok shard → store_ok s →
  wp (merge_shard shard) s (λ _, shard_merged shard s) (shard_failure shard s) ∧
  ∀ a b c, (ab ← merge_views a b; merge_views ab c) = (bc ← merge_views b c; merge_views a bc).
Proof. intros Hshard Hok. split; [by apply merge_shard_wp|apply merge_views_assoc]. Qed.

Lemma merge_shard_refines_witness :
  view (merge_shard example_store (with_options None ∅)).2 (lit "ethereum", lit "0xa", lit "1") =
    Some {| text_name := Some (lit "ape"); text_token_uri := Some (lit "ipfs://1"); text_image_uri := None |} ∧
  wp (merge_shard example_store) (with_options None ∅)
    (λ _, shard_merged example_store (with_options None ∅)) (shard_failure example_store (with_options None ∅)) ∧
  ∀ a b c, (ab ← merge_views a b; merge_views ab c) = (bc ← merge_views b c; merge_views a bc).
Proof.
  split; [vm_compute; reflexivity|].
  apply merge_shard_refines; [apply example_store_ok|apply with_options_ok].
Defined.
