(* ===== verification/EntityPostings.v ===== *)
(** URI postings ([build_uri_postings], [rebuild_uri_postings]): the postings list,
    in increasing order of (URI, contract), exactly the NFTs of each contract that
    have the URI; they are what the URI phase requires. *)

From S2P Require Import Prelude Radix Text CanonicalJson Types Anchors Stats UriChunks Uri.
From S2P Require Import Entity EntityInvariant EntityView.

(** ** Grouping a sorted list of tuples *)

Section Groups.
Context (contracts : list Contract).

(** The tuples that a posting stands for. *)
Definition posting_tuples (p : UriPosting) : list (Z * Z * Z) :=
  map (λ i, (Z.of_nat (uri_id p), Z.of_nat (posting_contract_id p), Z.of_nat i)) (nft_ids p).

Definition posting_key (p : UriPosting) : Z * Z :=
  (Z.of_nat (uri_id p), Z.of_nat (posting_contract_id p)).

Definition posting_shape (p : UriPosting) : Prop :=
  nft_ids p ≠ [] ∧ ∃ c, contracts !! posting_contract_id p = Some c ∧ posting_chain_id p = contract_chain_id c.

(** A tuple of ids, whose contract exists. *)
Definition tuple_ok (t : Z * Z * Z) : Prop :=
  (0 ≤ t.1.1)%Z ∧ (0 ≤ t.1.2)%Z ∧ (0 ≤ t.2)%Z ∧ Z.to_nat t.1.2 < length contracts.

Lemma posting_run_split uri contract tuples :
  posting_run uri contract tuples ≤ length tuples ∧
  Forall (λ t, t.1 = (uri, contract)) (take (posting_run uri contract tuples) tuples) ∧
  ∀ t, head (drop (posting_run uri contract tuples) tuples) = Some t → t.1 ≠ (uri, contract).
Proof.
  induction tuples as [|[[u c] n] tuples (Hl & Hf & Hh)]; simpl; [split_and!; [done|constructor|done]|].
  case_decide as Heq; simpl.
  - destruct Heq as [-> ->]. split_and!; [lia|by constructor|done].
  - split_and!; [lia|constructor|]. intros ? [= <-] [= -> ->]. by apply Heq.
Qed.

Lemma run_tuples_back uri contract l :
  (0 ≤ uri)%Z → (0 ≤ contract)%Z → Forall tuple_ok l → Forall (λ t, t.1 = (uri, contract)) l →
  map (λ i, (Z.of_nat (Z.to_nat uri), Z.of_nat (Z.to_nat contract), Z.of_nat i))
    (map (λ t : Z * Z * Z, Z.to_nat t.2) l) = l.
Proof.
  intros Hu Hc Hok Hl. induction l as [|[[u c] n] l IH]; [done|]. simpl.
  apply Forall_cons in Hok as [(_ & _ & Hn & _) Hok], Hl as [[= -> ->] Hl]. simpl in Hn.
  rewrite IH, !Z2Nat.id by done. done.
Qed.

Lemma pair_compare_pairs (x y : Z * Z) : pair_compare x y = Lt ↔ (x.1 < y.1 ∨ x.1 = y.1 ∧ x.2 < y.2)%Z.
Proof. unfold pair_compare. destruct (Z.compare_spec x.1 y.1), (Z.compare_spec x.2 y.2); split; (lia || done). Qed.

(** Sorted tuples have sorted keys. *)
Lemma triple_le_key (x y : Z * Z * Z) :
  triple_compare x y ≠ Gt → x.1 = y.1 ∨ pair_compare x.1 y.1 = Lt.
Proof.
  unfold triple_compare, pair_compare.
  destruct x as [[a b] c], y as [[a' b'] c']; simpl.
  destruct (Z.compare_spec a a'), (Z.compare_spec b b'); subst; auto; done.
Qed.

Lemma pair_lt_trans (x y z : Z * Z) : pair_compare x y = Lt → pair_compare y z = Lt → pair_compare x z = Lt.
Proof. rewrite !pair_compare_pairs. lia. Qed.

(** Behind a run, the keys are greater. *)
Lemma after_run key l :
  StronglySorted (λ x y, triple_compare x y ≠ Gt) l →
  Forall (λ t, t.1 = key ∨ pair_compare key t.1 = Lt) l →
  (∀ t, head l = Some t → t.1 ≠ key) → Forall (λ t, pair_compare key t.1 = Lt) l.
Proof.
  intros Hs Hge Hhead. destruct Hs as [|x l Hs Hx]; [constructor|].
  apply Forall_cons in Hge as [[Heq|Hlt] _]; [by destruct (Hhead x)|]. constructor; [done|].
  eapply Forall_impl; [exact Hx|]. intros y Hy. apply triple_le_key in Hy as [<-|Hy]; [done|].
  by eapply pair_lt_trans.
Qed.

Lemma StronglySorted_drop {A} (R : A → A → Prop) n l : StronglySorted R l → StronglySorted R (drop n l).
Proof.
  revert l. induction n as [|n IH]; intros l Hs; [done|]. destruct Hs as [|x l Hs _]; [constructor|]. by apply IH.
Qed.

Lemma group_postings_spec fuel tuples :
  length tuples ≤ fuel → Forall tuple_ok tuples → StronglySorted (λ x y, triple_compare x y ≠ Gt) tuples →
  ∃ ps, group_postings contracts fuel tuples = Some ps ∧ mjoin (posting_tuples <$> ps) = tuples ∧
    Forall posting_shape ps ∧ StronglySorted (λ p q, pair_compare (posting_key p) (posting_key q) = Lt) ps.
Proof.
  revert tuples. induction fuel as [|fuel IH]; intros [|[[uri contract] n] rest] Hfuel Hok Hs;
    [by exists []; split_and!; [..|constructor|constructor] |simpl in Hfuel; lia|
     by exists []; split_and!; [..|constructor|constructor]|].
  destruct (posting_run_split uri contract rest) as (Hrl & Hrun & Hhead).
  set (k := posting_run uri contract rest) in *. set (tuples := (uri, contract, n) :: rest) in *.
  pose proof Hok as [(Hu & Hc & Hn & Hlt) Hrest]%Forall_cons. simpl in Hu, Hc, Hn, Hlt.
  destruct (lookup_lt_is_Some_2 contracts (Z.to_nat contract) Hlt) as [c Hcs].
  destruct (IH (drop (S k) tuples)) as (ps & E & Hj & Hshape & Hsort).
  { simpl. rewrite length_drop. simpl in Hfuel. lia. }
  { by apply Forall_drop. }
  { by apply StronglySorted_drop. }
  unfold tuples at 1. cbn [group_postings]. cbv zeta. fold k tuples. rewrite Hcs. cbn [mbind option_bind]. rewrite E. cbn [mbind option_bind].
  eexists. split; [done|]. rewrite fmap_cons, mjoin_cons.
  assert (Htake : Forall (λ t, t.1 = (uri, contract)) (take (S k) tuples)) by (simpl; by constructor).
  split_and!.
  - unfold posting_tuples at 1. cbn [uri_id posting_contract_id nft_ids].
    rewrite run_tuples_back by (done || by apply Forall_take). rewrite Hj. apply take_drop.
  - constructor; [|done]. split; [done|]. by exists c.
  - constructor; [done|]. unfold posting_key at 1. simpl. rewrite !Z2Nat.id by done.
    assert (Hafter : Forall (λ t, pair_compare (uri, contract) t.1 = Lt) (drop k rest)).
    { apply after_run; [exact (StronglySorted_drop _ (S k) tuples Hs)| |done]. apply Forall_drop.
      apply StronglySorted_cons in Hs as [Hge _]. eapply Forall_impl; [exact Hge|].
      intros t Ht. apply triple_le_key in Ht as [?|?]; [left; done|by right]. }
    change (drop (S k) tuples) with (drop k rest) in Hj. rewrite <- Hj in Hafter.
    apply Forall_forall. intros p Hp. pose proof (proj1 (Forall_forall _ _) Hshape p Hp) as [Hne _].
    destruct (nft_ids p) as [|i ids] eqn:Ei; [done|].
    apply (proj1 (Forall_forall _ _) Hafter (Z.of_nat (uri_id p), Z.of_nat (posting_contract_id p), Z.of_nat i)).
    apply list_elem_of_join. exists (posting_tuples p). split; [|by apply list_elem_of_fmap_2].
    unfold posting_tuples. rewrite Ei. by left.
Qed.
End Groups.

(** ** The postings of a store *)

Definition dimension_uri (token_dimension : bool) (n : Nft) : option StringId :=
  if token_dimension then token_uri_id n else image_uri_id n.

Lemma uri_tuples_cons n ns d :
  uri_tuples (n :: ns) d =
    match dimension_uri d n with
    | Some u => (Z.of_nat u, Z.of_nat (nft_contract_id n), Z.of_nat (nft_id n)) :: uri_tuples ns d
    | None => uri_tuples ns d
    end.
Proof. unfold uri_tuples, dimension_uri. simpl. by destruct d, (token_uri_id n), (image_uri_id n). Qed.

Lemma elem_of_uri_tuples t ns d :
  t ∈ uri_tuples ns d ↔ ∃ n u, n ∈ ns ∧ dimension_uri d n = Some u ∧
    t = (Z.of_nat u, Z.of_nat (nft_contract_id n), Z.of_nat (nft_id n)).
Proof.
  induction ns as [|n ns IH].
  - split; [by intros ?%elem_of_nil|]. by intros (n & u & ?%elem_of_nil & _).
  - rewrite uri_tuples_cons. setoid_rewrite elem_of_cons.
    destruct (dimension_uri d n) as [u|] eqn:Hu; rewrite ?elem_of_cons, IH; clear IH; naive_solver.
Qed.

Lemma uri_tuples_NoDup ns d : NoDup (nft_id <$> ns) → NoDup (uri_tuples ns d).
Proof.
  induction ns as [|n ns IH]; [constructor|]. rewrite fmap_cons, NoDup_cons, uri_tuples_cons.
  intros [Hn Hnd]. destruct (dimension_uri d n); [|by apply IH]. apply NoDup_cons. split; [|by apply IH].
  intros (m & u & Hm & _ & Ht)%elem_of_uri_tuples. apply Hn. injection Ht as _ _ Hid.
  apply list_elem_of_fmap. exists m. split; [lia|done].
Qed.

Section Store.
Context (s : EntityStore) (Hok : store_ok s).

Lemma nft_ids_NoDup : NoDup (nft_id <$> nfts s).
Proof.
  apply NoDup_alt. intros i j x Hi Hj. rewrite list_lookup_fmap in Hi, Hj.
  apply fmap_Some in Hi as (n & Hn & ->), Hj as (m & Hm & Heq).
  rewrite (nft_ok_id _ _ _ _ (ok_nfts s Hok _ _ Hn)), (nft_ok_id _ _ _ _ (ok_nfts s Hok _ _ Hm)) in Heq. done.
Qed.

(** The postings of one dimension list the NFTs by (URI, contract), in order. *)
Definition postings_of (d : bool) (ps : list UriPosting) : Prop :=
  StronglySorted (λ p q, pair_compare (posting_key p) (posting_key q) = Lt) ps ∧
  Forall (λ p, posting_shape (contracts s) p ∧ StronglySorted lt (nft_ids p) ∧
    ∀ i, i ∈ nft_ids p ↔ ∃ n, nfts s !! i = Some n ∧
      nft_contract_id n = posting_contract_id p ∧ dimension_uri d n = Some (uri_id p)) ps ∧
  ∀ i n u, nfts s !! i = Some n → dimension_uri d n = Some u →
    ∃ p, p ∈ ps ∧ uri_id p = u ∧ posting_contract_id p = nft_contract_id n.

Lemma uri_tuples_ok d : Forall (λ t, is_u32 t.1.1 ∧ is_u32 t.1.2 ∧ is_u32 t.2) (uri_tuples (nfts s) d) ∧
  Forall (tuple_ok (contracts s)) (uri_tuples (nfts s) d).
Proof.
  assert (H : ∀ t, t ∈ uri_tuples (nfts s) d → (is_u32 t.1.1 ∧ is_u32 t.1.2 ∧ is_u32 t.2) ∧ tuple_ok (contracts s) t).
  { intros t (n & u & [i Hn]%list_elem_of_lookup_1 & Hu & ->)%elem_of_uri_tuples.
    pose proof (ok_nfts s Hok _ _ Hn) as [Hid Hc _ _ Ht Hi]. pose proof (lookup_lt_Some _ _ _ Hn).
    assert (Hus : u < length (strings s)).
    { destruct d; [destruct (Ht u Hu) as (t & Htx & _)|destruct (Hi u Hu) as (t & Htx & _)]; by eapply lookup_lt_Some. }
    pose proof (ok_strings_size s Hok). pose proof (ok_contracts_size s Hok). pose proof (ok_nfts_size s Hok).
    unfold is_u32, tuple_ok. simpl. rewrite Nat2Z.id. lia. }
  split; apply Forall_forall; intros t Ht; by apply H.
Qed.

(** A sorted list of pairwise distinct tuples of one key has increasing ids. *)
Lemma sorted_ids p :
  NoDup (posting_tuples p) → StronglySorted (λ x y, triple_compare x y ≠ Gt) (posting_tuples p) →
  StronglySorted lt (nft_ids p).
Proof.
  unfold posting_tuples. generalize (uri_id p) (posting_contract_id p). intros u c.
  induction (nft_ids p) as [|i l IH]; [constructor|]. rewrite map_cons, NoDup_cons. intros [Hi Hnd] [Hx Hs]%StronglySorted_cons.
  constructor; [by apply IH|]. apply Forall_forall. intros j Hj.
  assert (Hin : (Z.of_nat u, Z.of_nat c, Z.of_nat j) ∈ map (λ i, (Z.of_nat u, Z.of_nat c, Z.of_nat i)) l)
    by (by apply (list_elem_of_fmap_2 (λ i : nat, (Z.of_nat u, Z.of_nat c, Z.of_nat i)))).
  pose proof (proj1 (Forall_forall _ _) Hx _ Hin) as Hle. unfold triple_compare, pair_compare in Hle. simpl in Hle.
  rewrite !Z.compare_refl in Hle. assert (j ≠ i) by (intros ->; by apply Hi).
  destruct (Z.compare_spec (Z.of_nat i) (Z.of_nat j)); [lia|lia|done].
Qed.

Lemma StronglySorted_app_r {A} (R : A → A → Prop) l1 l2 : StronglySorted R (l1 ++ l2) → StronglySorted R l2.
Proof. induction l1 as [|x l1 IH]; [done|]. intros [_ Hs]%StronglySorted_cons. by apply IH. Qed.

Lemma StronglySorted_app_l {A} (R : A → A → Prop) l1 l2 : StronglySorted R (l1 ++ l2) → StronglySorted R l1.
Proof.
  induction l1 as [|x l1 IH]; [constructor|]. intros [Hx Hs]%StronglySorted_cons.
  apply Forall_app in Hx as [Hx _]. constructor; [by apply IH|done].
Qed.

(** A member of a concatenation is a contiguous part of it. *)
Lemma mjoin_part {A} (x : list A) ls : x ∈ ls → ∃ l1 l2, mjoin ls = l1 ++ x ++ l2.
Proof.
  intros (ls1 & ls2 & ->)%list_elem_of_split. exists (mjoin ls1), (mjoin ls2). by rewrite join_app, mjoin_cons.
Qed.

Lemma build_uri_postings_spec `{WriteSchedule (Z * Z * Z)} num_threads d :
  ∃ ps, build_uri_postings num_threads (contracts s) (nfts s) d = Some ps ∧ postings_of d ps.
Proof.
  destruct (uri_tuples_ok d) as [Hu32 Htok].
  destruct (sort_u32_triples_sorts num_threads _ Hu32) as (sorted & Es & Hp & Hsorted).
  unfold build_uri_postings. rewrite Es. cbn [mbind option_bind].
  destruct (group_postings_spec (contracts s) (length sorted) sorted) as (ps & E & Hj & Hshape & Hkeys);
    [done|by rewrite Hp|done|].
  exists ps. split; [done|].
  assert (Hnd : NoDup sorted) by (rewrite Hp; apply uri_tuples_NoDup, nft_ids_NoDup).
  assert (Hin : ∀ u c i, (Z.of_nat u, Z.of_nat c, Z.of_nat i) ∈ sorted ↔
    ∃ n, nfts s !! i = Some n ∧ nft_contract_id n = c ∧ dimension_uri d n = Some u).
  { intros u c i. rewrite Hp, elem_of_uri_tuples. split.
    - intros (n & u' & [j Hn]%list_elem_of_lookup_1 & Hu & [= Hu' Hc Hi]). exists n.
      pose proof (nft_ok_id _ _ _ _ (ok_nfts s Hok _ _ Hn)). assert (i = j) as -> by lia.
      split_and!; [done|lia|]. rewrite Hu. f_equal. lia.
    - intros (n & Hn & <- & Hu). exists n, u. pose proof (nft_ok_id _ _ _ _ (ok_nfts s Hok _ _ Hn)).
      split_and!; [by eapply list_elem_of_lookup_2|done|by subst]. }
  split; [done|]. split.
  - apply Forall_forall. intros p Hps. split; [by apply (proj1 (Forall_forall _ _) Hshape)|].
    destruct (mjoin_part (posting_tuples p) (posting_tuples <$> ps)) as (l1 & l2 & Hpart); [by apply list_elem_of_fmap_2|].
    rewrite Hj in Hpart. rewrite Hpart in Hsorted, Hnd. split.
    { apply sorted_ids; [by apply NoDup_app in Hnd as (_ & _ & (? & _)%NoDup_app)|].
      by eapply StronglySorted_app_l, StronglySorted_app_r. }
    intros i. rewrite <- Hin. rewrite <- Hj. split.
    + intros Hi. apply list_elem_of_join. exists (posting_tuples p). split; [|by apply list_elem_of_fmap_2].
      by apply (list_elem_of_fmap_2 (λ i, (Z.of_nat (uri_id p), Z.of_nat (posting_contract_id p), Z.of_nat i))).
    + intros (ts & Ht & (q & -> & Hq)%list_elem_of_fmap)%list_elem_of_join.
      unfold posting_tuples in Ht. apply list_elem_of_fmap in Ht as (j & [= Hu Hc Hji] & Hj').
      assert (posting_key q = posting_key p) as Hkey by (unfold posting_key; by rewrite Hu, Hc).
      assert (q = p) as ->; [|by assert (i = j) as -> by lia].
      eapply (NoDup_fmap_elem posting_key ps); [|done..]. clear -Hkeys.
      induction Hkeys as [|x l _ IH Hx]; [constructor|]. rewrite fmap_cons. apply NoDup_cons. split; [|done].
      intros (y & Heq & Hy)%list_elem_of_fmap. pose proof (proj1 (Forall_forall _ _) Hx y Hy) as Hlt.
      cbv beta in Hlt. rewrite Heq in Hlt. apply pair_compare_pairs in Hlt. lia.
  - intros i n u Hn Hu. assert (Ht : (Z.of_nat u, Z.of_nat (nft_contract_id n), Z.of_nat i) ∈ sorted) by (apply Hin; eauto).
    rewrite <- Hj in Ht. apply list_elem_of_join in Ht as (ts & Ht & (q & -> & Hq)%list_elem_of_fmap).
    unfold posting_tuples in Ht. apply list_elem_of_fmap in Ht as (j & [= Hu' Hc Hji] & _).
    exists q. split_and!; [done|lia|lia].
Qed.
End Store.

Lemma rebuild_uri_postings_wp `{WriteSchedule (Z * Z * Z)} (num_threads : nat) (s : EntityStore) :
  store_ok s →
  wp (rebuild_uri_postings num_threads) s
    (λ _ s', store_ok s' ∧ (∀ k, view s' k = view s k) ∧ defer_metadata_sort s' = defer_metadata_sort s ∧
       postings_of s' true (token_uri_postings s') ∧ postings_of s' false (image_uri_postings s') ∧
       postings_ok s')
    (λ _ _, False).
Proof.
  intros Hok. destruct (build_uri_postings_spec s Hok num_threads true) as (token & Et & Ht).
  destruct (build_uri_postings_spec s Hok num_threads false) as (image & Ei & Hi).
  unfold rebuild_uri_postings. do 2 apply wp_bind, wp_gets.
  apply wp_bind. eapply wp_unwrap; [exact Et|]. apply wp_bind. eapply wp_unwrap; [exact Ei|]. apply wp_modify.
  split_and!; [by destruct Hok|done|done|done|done|].
  assert (Hps : ∀ d ps, postings_of s d ps → Forall (posting_ok (length (nfts s)) (length (chains s))) ps).
  { intros d ps (_ & Hf & _). eapply Forall_impl; [exact Hf|]. intros p ((_ & c & Hc & Hch) & _ & Hin). split.
    - rewrite Hch. destruct (contract_ok_chain _ _ _ _ _ _ _ (ok_contracts s Hok _ _ Hc)) as (name & Hn & _). by eapply lookup_lt_Some.
    - apply Forall_forall. intros i (n & Hn & _)%Hin. by eapply lookup_lt_Some. }
  split; by eapply Hps.
Qed.

(** ** Properties *)

(** Rebuilding the postings succeeds, keeps the store well formed and changes
    nothing else; the postings of each dimension list every contract that has a
    URI once, in increasing order of (URI, contract), with exactly the NFTs of the
    contract that have it, in increasing order; and they are what the URI phase
    requires of its input. *)
Theorem rebuild_uri_postings_lists `{WriteSchedule (Z * Z * Z)} (num_threads : nat) (s : EntityStore) :
  store_ok s →
  wp (rebuild_uri_postings num_threads) s
    (λ _ s', store_ok s' ∧ (∀ k, view s' k = view s k) ∧ defer_metadata_sort s' = defer_metadata_sort s ∧
       postings_of s' true (token_uri_postings s') ∧ postings_of s' false (image_uri_postings s') ∧
       postings_ok s')
    (λ _ _, False).
Proof. apply rebuild_uri_postings_wp. Qed.

Lemma rebuild_uri_postings_lists_witness :
  token_uri_postings (rebuild_uri_postings 4 example_store).2 =
    [{| posting_contract_id := 0; posting_chain_id := 0; uri_id := 1; nft_ids := [0] |}] ∧
  wp (rebuild_uri_postings 4) example_store
    (λ _ s', store_ok s' ∧ (∀ k, view s' k = view example_store k) ∧
       defer_metadata_sort s' = defer_metadata_sort example_store ∧
       postings_of s' true (token_uri_postings s') ∧ postings_of s' false (image_uri_postings s') ∧
       postings_ok s')
    (λ _ _, False).
Proof.
  split; [vm_compute; reflexivity|]. apply rebuild_uri_postings_lists. apply example_store_ok.
Defined.
