(* ===== verification/EntityRelease.v ===== *)
(** The end of loading and the release of finished data: sorting deferred anchors
    ([finalize_metadata_anchors]) and forgetting the texts of finished dimensions,
    optionally keeping the image URIs under new ids. *)

From S2P Require Import Prelude Radix Text CanonicalJson Types Anchors Entity EntityInvariant.
From S2P Require Import EntityView.

(** ** Deferred anchors *)

Section Finalize.
Context `{UnstableSort}.

Definition finalize_contract (names : list str) (evm : gset str) (c : Contract) : option Contract :=
  name ← names !! contract_chain_id c;
  Some (with_metadata (finalize_anchors (bool_decide (name ∈ evm)) (metadata_by_token c)) c).

Lemma finalize_contracts s :
  store_ok s →
  ∃ cs, mapM (finalize_contract (chains s) (evm_chains s)) (contracts s) = Some cs ∧
    contract_key <$> cs = contract_key <$> contracts s ∧
    ∀ i c, cs !! i = Some c → ∃ c0 l, contracts s !! i = Some c0 ∧ c = with_metadata l c0 ∧
      ∀ name, chains s !! contract_chain_id c0 = Some name →
        anchors_ok None (bool_decide (name ∈ evm_chains s)) l.
Proof.
  intros Hok.
  assert (Hall : Forall (λ c, is_Some (finalize_contract (chains s) (evm_chains s) c)) (contracts s)).
  { apply Forall_lookup. intros i c Hc. unfold finalize_contract.
    destruct (contract_ok_chain _ _ _ _ _ _ _ (ok_contracts s Hok _ _ Hc)) as (name & -> & _). eauto. }
  apply mapM_is_Some_2 in Hall as [cs Hcs]. exists cs. split; [done|]. apply mapM_Some in Hcs.
  split.
  - clear -Hcs. induction Hcs as [|c c' l l' Hc _ IH]; [done|]. rewrite !fmap_cons, IH. f_equal.
    unfold finalize_contract in Hc. apply bind_Some in Hc as (name & _ & [= <-]). done.
  - intros i c Hc. destruct (Forall2_lookup_r _ _ _ _ _ Hcs Hc) as (c0 & Hc0 & Hf).
    unfold finalize_contract in Hf. apply bind_Some in Hf as (name & Hname & [= <-]).
    eexists c0, _. split_and!; [done|done|]. intros name' Hname'.
    assert (name' = name) as -> by congruence. apply finalize_anchors_ok.
Qed.

Lemma finalize_metadata_anchors_wp s :
  store_ok s →
  wp finalize_metadata_anchors s
    (λ _ s', store_ok s' ∧ defer_metadata_sort s' = false ∧ (∀ k, view s' k = view s k) ∧
       length (contracts s') = length (contracts s)) (λ _ _, False).
Proof.
  intros Hok. unfold finalize_metadata_anchors. apply wp_bind, wp_gets.
  destruct (defer_metadata_sort s) eqn:Hd; cbn [negb]; [|by apply wp_ret].
  do 3 apply wp_bind, wp_gets. apply wp_bind.
  destruct (finalize_contracts s Hok) as (cs & Ecs & Hkeys & Hcs). eapply wp_unwrap; [exact Ecs|]. apply wp_modify.
  assert (Hlen : length cs = length (contracts s)) by (apply (f_equal length) in Hkeys; by rewrite !length_fmap in Hkeys).
  assert (Hok' : store_ok (set_defer_metadata_sort false (set_contracts cs s))).
  { pose proof (ok_contracts s Hok) as Hcontracts. pose proof (ok_nfts s Hok) as Hnfts.
    pose proof (ok_totals s Hok) as Htotals. pose proof (ok_deferred s Hok Hd) as Hlim.
    pose proof Hok as []. split_store.
    - by rewrite Hkeys.
    - intros i c Hc. destruct (Hcs i c Hc) as (c0 & l & Hc0 & -> & Hl).
      destruct (Hcontracts _ _ Hc0) as [? ? (name & Hn & Hne & _) ?]. split; try done.
      exists name. split_and!; [done|done|]. intros _. rewrite Hlim. by apply Hl.
    - intros i n Hn. rewrite Hlen. by apply Hnfts.
    - intros ch Hch. rewrite (counted_totals_keys (contracts s)) by done. by apply Htotals.
    - by rewrite Hlen. }
  split_and!; [done|done| |done]. intros k. apply option_eq. intros v. rewrite !view_Some by done. simpl.
  unfold nft_address. simpl. by rewrite Hkeys.
Qed.
End Finalize.

(** ** Renumbered image URIs *)

(** What the renumbering does to an NFT. *)
Definition image_kept (strings image_strings : list str) (n n' : Nft) : Prop :=
  n' = with_uris (name_id n) (token_uri_id n) (image_uri_id n') n ∧
  field_text image_strings (image_uri_id n') = field_text strings (image_uri_id n).

(** The renumbering so far: [remap] is a bijection from the ids seen to the ids of
    the retained texts. *)
Record remap_ok (strings : list str) (remap : gmap StringId StringId) (image_strings : list str) : Prop := {
  remap_text : ∀ i j, remap !! i = Some j → ∃ t, strings !! i = Some t ∧ image_strings !! j = Some t;
  remap_size : size remap = length image_strings;
  remap_from : ∀ t, t ∈ image_strings → ∃ i j, remap !! i = Some j ∧ strings !! i = Some t;
  remap_NoDup : NoDup image_strings;
}.

Lemma remap_bound strings remap image_strings i :
  remap_ok strings remap image_strings → i < length strings → remap !! i = None →
  length image_strings < length strings.
Proof.
  intros [Htext Hsize _ _] Hi Hnone. rewrite <- Hsize.
  assert (Hsub : {[i]} ∪ dom remap ⊆ (set_seq 0 (length strings) : gset nat)).
  { intros x. rewrite elem_of_union, elem_of_singleton, elem_of_dom, elem_of_set_seq.
    intros [->|[j Hj]]; [lia|]. destruct (Htext _ _ Hj) as (t & Ht & _). apply lookup_lt_Some in Ht. lia. }
  apply subseteq_size in Hsub. rewrite size_set_seq, size_union, size_singleton, size_dom in Hsub; [lia|].
  rewrite disjoint_singleton_l, not_elem_of_dom. done.
Qed.

Lemma remap_ok_push strings remap image_strings i t :
  NoDup strings → remap_ok strings remap image_strings → strings !! i = Some t → remap !! i = None →
  remap_ok strings (<[i := length image_strings]> remap) (image_strings ++ [t]).
Proof.
  intros Hnd [Htext Hsize Hfrom Hnd'] Ht Hnone. split.
  - intros i' j. rewrite lookup_insert. case_decide as Heq.
    + intros [= <-]. subst i'. exists t. split; [done|]. by rewrite lookup_app_r, Nat.sub_diag.
    + intros Hj. destruct (Htext _ _ Hj) as (t' & ? & ?). exists t'. split; [done|]. by apply lookup_app_l_Some.
  - rewrite map_size_insert_None, length_app by done. simpl. lia.
  - intros t' [Ht'|Ht']%elem_of_app.
    + destruct (Hfrom t' Ht') as (i' & j & Hj & Hs). exists i', j. rewrite lookup_insert_ne by congruence. done.
    + apply list_elem_of_singleton in Ht' as ->. exists i, (length image_strings). by rewrite lookup_insert_eq.
  - apply NoDup_app. split; [done|]. split; [|apply NoDup_singleton].
    intros t' Hin ->%list_elem_of_singleton. destruct (Hfrom t Hin) as (i' & j & Hj & Hs).
    assert (i' = i) as -> by by eapply (NoDup_lookup strings). congruence.
Qed.

(** One lookup of the loop: the id is known, or a new text is retained. *)
Lemma remap_one strings remap image_strings old t :
  NoDup strings → (Z.of_nat (length strings) ≤ 2 ^ 32)%Z → remap_ok strings remap image_strings →
  strings !! old = Some t →
  ∃ id remap1 imgs1,
    match remap !! old with
    | Some id => Some (id, remap, image_strings)
    | None => if fits_u32 (length image_strings) then
        text ← strings !! old;
        Some (length image_strings, <[old := length image_strings]> remap, image_strings ++ [text]) else None
    end = Some (id, remap1, imgs1) ∧ remap_ok strings remap1 imgs1 ∧ remap1 !! old = Some id ∧
    image_strings `prefix_of` imgs1 ∧ remap ⊆ remap1 ∧
    (∀ i, is_Some (remap1 !! i) → is_Some (remap !! i) ∨ i = old).
Proof.
  intros Hnd Hlen Hr Ht. destruct (remap !! old) as [id|] eqn:Eo.
  { exists id, remap, image_strings. split_and!; auto. }
  pose proof (remap_bound _ _ _ old Hr ltac:(by eapply lookup_lt_Some) Eo).
  rewrite (proj2 (fits_u32_spec _)) by lia. rewrite Ht. eexists _, _, _. split; [done|].
  split; [by apply remap_ok_push|]. split; [apply lookup_insert_eq|]. split; [by apply prefix_app_r|].
  split; [by apply insert_subseteq|]. intros i. rewrite lookup_insert. case_decide; auto.
Qed.

Lemma remap_images_spec strings remap image_strings ns :
  NoDup strings → (Z.of_nat (length strings) ≤ 2 ^ 32)%Z → remap_ok strings remap image_strings →
  Forall (λ n, text_field strings (λ _, True) (image_uri_id n)) ns →
  ∃ ns' image_strings' remap', remap_images strings remap image_strings ns = Some (ns', image_strings') ∧
    image_strings `prefix_of` image_strings' ∧ remap_ok strings remap' image_strings' ∧ remap ⊆ remap' ∧
    Forall2 (image_kept strings image_strings') ns ns' ∧
    ∀ i, is_Some (remap' !! i) → is_Some (remap !! i) ∨ ∃ n, n ∈ ns ∧ image_uri_id n = Some i.
Proof.
  intros Hnd Hlen. revert remap image_strings. induction ns as [|n ns IH]; intros remap image_strings Hr Hns; simpl.
  { exists [], image_strings, remap. split_and!; [done|done|done|done|constructor|by left]. }
  apply Forall_cons in Hns as [Hn Hns]. destruct (image_uri_id n) as [old|] eqn:Ei.
  - destruct (Hn old eq_refl) as (t & Ht & _).
    destruct (remap_one _ _ _ _ _ Hnd Hlen Hr Ht) as (id & remap1 & imgs1 & -> & Hr1 & Hid & Hp & Hsub & Hdom). cbn [mbind option_bind].
    destruct (IH remap1 imgs1 Hr1 Hns) as (ns' & imgs' & remap' & -> & Hp' & Hr' & Hsub' & Hf & Hdom').
    cbn [mbind option_bind]. eexists _, imgs', remap'. split; [done|]. split_and!; [by etrans|done|by etrans| |].
    + constructor; [|done]. split; [done|]. simpl. rewrite Ei. simpl.
      pose proof (lookup_weaken _ _ _ _ Hid Hsub') as Hid'.
      destruct (remap_text _ _ _ Hr' _ _ Hid') as (t' & Ht' & ->). by rewrite Ht'.
    + intros i [Hi|(m & Hm & Hmi)]%Hdom'; [|right; exists m; split; [by right|done]].
      destruct (Hdom i Hi) as [| ->]; [by left|]. right. exists n. split; [by left|done].
  - destruct (IH remap image_strings Hr Hns) as (ns' & imgs' & remap' & -> & Hp' & Hr' & Hsub' & Hf & Hdom').
    cbn [mbind option_bind]. eexists _, imgs', remap'. split; [done|]. split_and!; [done|done|done| |].
    + constructor; [|done]. split; [by destruct n; simpl in *; subst|by rewrite Ei].
    + intros i [Hi|(m & Hm & Hmi)]%Hdom'; [by left|]. right. exists m. split; [by right|done].
Qed.

(** ** Properties *)

(** What is left of an NFT and of the texts once the dimensions are finished. *)
Definition released (preserve_images : bool) (s s' : EntityStore) : Prop :=
  length (nfts s') = length (nfts s) ∧
  (∀ i n, nfts s !! i = Some n → ∃ n', nfts s' !! i = Some n' ∧ nft_id n' = nft_id n ∧ nft_key n' = nft_key n ∧
     name_id n' = None ∧ token_uri_id n' = None ∧
     field_text (strings s') (image_uri_id n') =
       if preserve_images then field_text (strings s) (image_uri_id n) else None) ∧
  NoDup (strings s') ∧
  (∀ t, t ∈ strings s' → ∃ n, n ∈ nfts s ∧ field_text (strings s) (image_uri_id n) = Some t) ∧
  contracts s' = contracts s ∧ chains s' = chains s ∧ totals s' = totals s ∧
  string_ids s' = ∅ ∧ chain_ids s' = ∅ ∧ contract_index s' = ∅ ∧
  token_uri_postings s' = [] ∧ image_uri_postings s' = [].

(** Releasing the finished dimensions never panics: it drops names, token
    URIs, postings and indices and keeps ids, contracts and totals.  When images
    are kept, every NFT keeps the text of its image URI under its new id and
    exactly the texts in use are retained, each once. *)
Theorem release_keeps_images (preserve_images : bool) (s : EntityStore) :
  store_ok s →
  wp (release_completed_with_image_retention preserve_images) s (λ _ s', released preserve_images s s')
    (λ _ _, False).
Proof.
  intros Hok. unfold release_completed_with_image_retention. apply wp_bind, wp_modify, wp_bind.
  destruct preserve_images.
  - do 2 apply wp_bind, wp_gets. apply wp_bind. simpl.
    assert (Hempty : remap_ok (strings s) ∅ []) by (split; [done|done|by intros t ?%elem_of_nil|constructor]).
    destruct (remap_images_spec (strings s) ∅ [] (nfts s)) as (ns' & imgs & remap & E & _ & Hr & _ & Hf & Hdom);
      [eapply index_ok_NoDup, Hok|apply Hok|done| |].
    { apply Forall_lookup. intros i n Hn j Hj.
      destruct (nft_ok_image_uri _ _ _ _ (ok_nfts s Hok _ _ Hn) j Hj) as (t & Ht & _). by exists t. }
    eapply wp_unwrap; [exact E|]. cbv beta iota. apply wp_modify, wp_modify. unfold released. simpl.
    rewrite length_map, <- (Forall2_length _ _ _ Hf).
    split; [done|]. split; [|split; [apply Hr|split; [|done]]].
    + intros i n Hn. destruct (Forall2_lookup_l _ _ _ _ _ Hf Hn) as (n' & Hn' & Heq & Htext).
      eexists. rewrite (list_lookup_fmap _ ns'), Hn'. split; [done|]. simpl. rewrite Heq. done.
    + intros t Ht. destruct (remap_from _ _ _ Hr t Ht) as (i & j & Hj & Hs).
      destruct (Hdom i ltac:(by eexists)) as [[? ?]|(n & Hn & Hi)]; [done|].
      exists n. split; [done|]. by rewrite Hi.
  - apply wp_modify, wp_modify. unfold released. simpl. rewrite length_map. split; [done|].
    split; [|split; [constructor|split; [by intros t ?%elem_of_nil|done]]].
    intros i n Hn. eexists. rewrite (list_lookup_fmap _ (nfts s)), Hn. by split.
Qed.

Lemma release_keeps_images_witness :
  wp (release_completed_with_image_retention true) example_store (λ _ s', released true example_store s')
    (λ _ _, False).
Proof. apply release_keeps_images, example_store_ok. Defined.
