(* ===== verification/EntityCapacity.v ===== *)
(** How many ids the operations of the store use, whatever their outcome: the bound
    behind the failures of [at_capacity], and the rows that a store was built
    from. *)

From S2P Require Import Prelude Radix Text CanonicalJson Types Anchors Entity EntityInvariant.
From S2P Require Import EntityView EntityMerge.

(** ** Used ids *)

(** At most these chains, and these many strings, contracts and NFTs are added. *)
Record adds (cs : list str) (ns nc nn : nat) (s s' : EntityStore) : Prop := {
  adds_chains : ∀ c, c ∈ chains s' → c ∈ chains s ∨ c ∈ cs;
  adds_strings : length (strings s') ≤ length (strings s) + ns;
  adds_contracts : length (contracts s') ≤ length (contracts s) + nc;
  adds_nfts : length (nfts s') ≤ length (nfts s) + nn;
}.

Definition uses {A} (cs : list str) (ns nc nn : nat) (m : M A) : Prop := ∀ s, adds cs ns nc nn s (m s).2.

Lemma adds_refl s : adds [] 0 0 0 s s.
Proof. split; [by left|lia..]. Qed.

Lemma adds_trans cs1 ns1 nc1 nn1 cs2 ns2 nc2 nn2 s1 s2 s3 :
  adds cs1 ns1 nc1 nn1 s1 s2 → adds cs2 ns2 nc2 nn2 s2 s3 →
  adds (cs1 ++ cs2) (ns1 + ns2) (nc1 + nc2) (nn1 + nn2) s1 s3.
Proof.
  intros [Hc1 ? ? ?] [Hc2 ? ? ?]. split; [|lia..]. intros c [Hc|Hc]%Hc2; [|right; set_solver].
  apply Hc1 in Hc as [?|?]; [by left|right; set_solver].
Qed.

Lemma adds_weaken cs1 ns1 nc1 nn1 cs2 ns2 nc2 nn2 s s' :
  cs1 ⊆ cs2 → ns1 ≤ ns2 → nc1 ≤ nc2 → nn1 ≤ nn2 → adds cs1 ns1 nc1 nn1 s s' → adds cs2 ns2 nc2 nn2 s s'.
Proof. intros Hcs ? ? ? [Hc ? ? ?]. split; [|lia..]. intros c [?|?]%Hc; [by left|right; by apply Hcs]. Qed.

Section Uses.
Context {A B : Type}.

Lemma uses_weaken cs1 ns1 nc1 nn1 cs2 ns2 nc2 nn2 (m : M A) :
  uses cs1 ns1 nc1 nn1 m → cs1 ⊆ cs2 → ns1 ≤ ns2 → nc1 ≤ nc2 → nn1 ≤ nn2 → uses cs2 ns2 nc2 nn2 m.
Proof. intros Hm ? ? ? ? s. by eapply adds_weaken. Qed.

Lemma uses_ret (a : A) : uses [] 0 0 0 (mret a).
Proof. intros s. apply adds_refl. Qed.
Lemma uses_fails e : uses [] 0 0 0 (fails (A := A) e).
Proof. intros s. apply adds_refl. Qed.
Lemma uses_gets (f : EntityStore → A) : uses [] 0 0 0 (gets f).
Proof. intros s. apply adds_refl. Qed.
Lemma uses_unwrap (x : option A) : uses [] 0 0 0 (unwrap x).
Proof. intros s. unfold unwrap. destruct x; apply adds_refl. Qed.
Lemma uses_modify cs ns nc nn f : (∀ s, adds cs ns nc nn s (f s)) → uses cs ns nc nn (modify f).
Proof. intros Hf s. apply Hf. Qed.

Lemma uses_bind cs1 ns1 nc1 nn1 cs2 ns2 nc2 nn2 (m : M A) (f : A → M B) :
  uses cs1 ns1 nc1 nn1 m → (∀ a, uses cs2 ns2 nc2 nn2 (f a)) →
  uses (cs1 ++ cs2) (ns1 + ns2) (nc1 + nc2) (nn1 + nn2) (m ≫= f).
Proof.
  intros Hm Hf s. specialize (Hm s). unfold mbind, M_bind. destruct (m s) as [[a|e|] s']; simpl in *.
  - eapply adds_trans; [done|apply Hf].
  - eapply adds_weaken; [..|exact Hm]; [set_solver|lia..].
  - eapply adds_weaken; [..|exact Hm]; [set_solver|lia..].
Qed.

(** Binding an action that uses nothing. *)
Lemma uses_then cs ns nc nn (m : M A) (f : A → M B) :
  uses [] 0 0 0 m → (∀ a, uses cs ns nc nn (f a)) → uses cs ns nc nn (m ≫= f).
Proof. apply (uses_bind [] 0 0 0). Qed.
End Uses.

(** A read followed by a write of contracts or NFTs that keeps their number. *)
Lemma update_at_length {A} i (f : A → A) l l' : update_at i f l = Some l' → length l' = length l.
Proof. unfold update_at. intros (x & _ & [= <-])%bind_Some. apply length_insert. Qed.

Lemma uses_update_contracts i f :
  uses [] 0 0 0 (cs ← gets contracts; cs ← unwrap (update_at i f cs); modify (set_contracts cs)).
Proof.
  intros s. unfold mbind, M_bind, gets, unwrap. destruct (update_at i f (contracts s)) as [cs|] eqn:E; [|apply adds_refl].
  apply update_at_length in E. split; simpl; [by left|lia..].
Qed.

Lemma uses_update_nfts i f :
  uses [] 0 0 0 (ns ← gets nfts; ns ← unwrap (update_at i f ns); modify (set_nfts ns)).
Proof.
  intros s. unfold mbind, M_bind, gets, unwrap. destruct (update_at i f (nfts s)) as [ns|] eqn:E; [|apply adds_refl].
  apply update_at_length in E. split; simpl; [by left|lia..].
Qed.

Create HintDb uses.
#[export] Hint Resolve uses_ret uses_fails uses_gets uses_unwrap uses_update_contracts uses_update_nfts : uses.
(** Peels off the reads at the front of a program. *)
Ltac uses_reads :=
  repeat match goal with
  | |- uses _ _ _ _ (mbind _ _) =>
      apply uses_then; [solve [auto with uses | apply uses_then; [auto with uses|intros; auto with uses]]|intros ?]
  end.

Lemma put_metadata_uses id l : uses [] 0 0 0 (put_metadata id l).
Proof. apply uses_update_contracts. Qed.
Lemma put_nft_uses id f : uses [] 0 0 0 (put_nft id f).
Proof. apply uses_update_nfts. Qed.
#[export] Hint Resolve put_metadata_uses put_nft_uses : uses.

Lemma ensure_chain_uses ch : uses [ch] 0 0 0 (ensure_chain ch).
Proof.
  intros s. unfold ensure_chain. destruct (chain_ids s !! ch), (fits_u16 (length (chains s))); simpl;
    (split; simpl; [|lia..]); intros c Hc; [by left..| |by left].
  apply elem_of_app in Hc as [?|?]; auto.
Qed.

Lemma intern_string_uses v : uses [] 1 0 0 (intern_string v).
Proof.
  intros s. unfold intern_string. destruct (string_ids s !! v), (fits_u32 (length (strings s))); simpl;
    (split; simpl; [by left|rewrite ?length_app; simpl; lia..]).
Qed.

Lemma ensure_contract_uses ch a : uses [] 0 1 0 (ensure_contract ch a).
Proof.
  intros s. unfold ensure_contract. destruct (contract_index s !! (ch, a)), (fits_u32 (length (contracts s))); simpl;
    (split; simpl; [by left|rewrite ?length_app; simpl; lia..]).
Qed.

Lemma insert_metadata_anchor_uses id ch token json order : uses [] 0 0 0 (insert_metadata_anchor id ch token json order).
Proof.
  unfold insert_metadata_anchor. apply uses_then; [auto with uses|intros limit].
  case_decide; [auto with uses|]. cbv zeta. uses_reads. match goal with |- context [if ?b then _ else _] => destruct b end;
    uses_reads; auto with uses.
Qed.

Lemma uses_none {A} cs ns nc nn (m : M A) : uses [] 0 0 0 m → uses cs ns nc nn m.
Proof. intros Hm. eapply uses_weaken; [exact Hm|set_solver|lia..]. Qed.

Lemma some_string_uses v : uses [] 1 0 0 (id ← intern_string v; mret (Some id)).
Proof. apply (uses_bind [] 1 0 0 [] 0 0 0); [apply intern_string_uses|auto with uses]. Qed.

Lemma merge_uri_value_uses e v : uses [] 1 0 0 (merge_uri_value e v).
Proof.
  unfold merge_uri_value. case_decide; [apply uses_none; auto with uses|].
  destruct e as [id|]; [|apply some_string_uses]. apply uses_none. uses_reads.
  match goal with |- context [if decide ?P then _ else _] => destruct (decide P) end; auto with uses.
Qed.

Lemma intern_unless_uses b v : uses [] 1 0 0 (intern_unless b v).
Proof. unfold intern_unless. destruct b; [apply uses_none; auto with uses|apply some_string_uses]. Qed.

(** A counted NFT keeps the number of contracts. *)
Lemma uses_count_nft contract (f : Contract → Contract) (k : M ()) :
  uses [] 0 0 0 k →
  uses [] 0 0 0 (cs ← gets contracts; cs ← unwrap (update_at contract f cs); modify (set_contracts cs);; k).
Proof.
  intros Hk s. pose proof (uses_update_contracts contract f s) as Hm. revert Hm.
  unfold mbind, M_bind, gets, unwrap, modify. destruct (update_at contract f (contracts s)); [|done].
  cbv beta iota. simpl. intros Hm. eapply (adds_trans [] 0 0 0 [] 0 0 0); [exact Hm|apply Hk].
Qed.

Lemma push_nft_uses chain_of contract token name turi iuri order :
  uses [] 0 0 0 chain_of → uses [] 0 0 1 (push_nft chain_of contract token name turi iuri order).
Proof.
  intros Hchain s. unfold push_nft.
  change ((gets nfts ≫= ?f) s) with (f (nfts s) s). cbv beta zeta.
  destruct (fits_u32 (length (nfts s))); cbn [negb]; [|split; simpl; [by left|lia..]].
  match goal with |- adds _ _ _ _ _ ((modify ?f ≫= ?k) s).2 => change ((modify f ≫= k) s) with (k () (f s)) end.
  match goal with |- adds _ _ _ _ _ (?k () ?s1).2 => set (s2 := s1); assert (Hk : uses [] 0 0 0 (k ())) end.
  - apply uses_then; [apply uses_modify; intros; split; simpl; [by left|lia..]|intros _].
    apply uses_then; [done|intros ch]. apply uses_count_nft.
    apply uses_then; [|intros _]; apply uses_modify; intros; split; simpl; (by left) || lia.
  - eapply adds_weaken; [..|eapply (adds_trans [] 0 0 1 [] 0 0 0); [|apply Hk]]; [done|lia..|].
    split; simpl; [by left|rewrite ?length_app; simpl; lia..].
Qed.

Section Rows.
Context `{JsonLibrary}.

Lemma merge_duplicate_nft_uses id row : uses [] 3 0 0 (merge_duplicate_nft id row).
Proof.
  unfold merge_duplicate_nft. uses_reads. apply (uses_bind [] 1 0 0 [] 2 0 0).
  { match goal with |- context [if ?b then _ else _] => destruct b end;
      [apply some_string_uses|apply uses_none; auto with uses]. }
  intros name. apply (uses_bind [] 1 0 0 [] 1 0 0); [apply merge_uri_value_uses|intros token].
  apply (uses_bind [] 1 0 0 [] 0 0 0); [apply merge_uri_value_uses|intros image]. auto with uses.
Qed.

Lemma try_ingest_row_uses row : uses [chain row] 3 1 1 (try_ingest_row row).
Proof.
  unfold try_ingest_row. case_decide; [apply uses_none; auto with uses|].
  apply (uses_bind [chain row] 0 0 0 [] 3 1 1); [apply ensure_chain_uses|intros ch].
  apply (uses_bind [] 0 1 0 [] 3 0 1); [apply ensure_contract_uses|intros contract].
  apply uses_then; [destruct (validated_metadata _); [apply insert_metadata_anchor_uses|auto with uses]|intros _].
  apply uses_then; [auto with uses|intros [id|]].
  - eapply uses_weaken; [apply merge_duplicate_nft_uses|done|lia..].
  - apply (uses_bind [] 1 0 0 [] 2 0 1); [apply intern_unless_uses|intros token].
    apply (uses_bind [] 1 0 0 [] 1 0 1); [apply intern_unless_uses|intros image].
    apply (uses_bind [] 1 0 0 [] 0 0 1); [apply intern_unless_uses|intros name].
    apply push_nft_uses. auto with uses.
Qed.
End Rows.

(** *** Loops *)

Lemma for_each_uses {A B} (f : B → A → M B) (cs : A → list str) (ns nc nn : nat) b l :
  (∀ b x, uses (cs x) ns nc nn (f b x)) →
  uses (l ≫= cs) (length l * ns) (length l * nc) (length l * nn) (for_each f b l).
Proof.
  intros Hf. revert b. induction l as [|x l IH]; intros b; [apply uses_ret|]. cbn [for_each].
  rewrite bind_cons. apply uses_bind; [apply Hf|apply IH].
Qed.

Lemma merge_contract_uses chain_map m c : uses [] 0 1 0 (merge_contract chain_map m c).
Proof.
  unfold merge_contract. uses_reads. apply (uses_bind [] 0 1 0 [] 0 0 0); [apply ensure_contract_uses|intros id].
  uses_reads. apply uses_then; [|intros; auto with uses].
  eapply uses_weaken; [apply (for_each_uses _ (λ _, []) 0 0 0); intros; apply insert_metadata_anchor_uses| |lia..].
  clear. induction (metadata_by_token c) as [|r l IH]; [done|]. by rewrite bind_cons.
Qed.

Lemma merge_nft_uses string_map contract_map n : uses [] 0 0 1 (merge_nft string_map contract_map n).
Proof.
  unfold merge_nft. uses_reads. match goal with |- context [match ?o with Some _ => _ | None => _ end] => destruct o end.
  - apply uses_none. unfold merge_existing_nft. uses_reads.
    apply uses_then; [case_decide; auto with uses|intros _].
    apply uses_then; [unfold lift_result; destruct (merge_mapped_uri _ _); auto with uses|intros t].
    apply uses_then; [auto with uses|intros _].
    apply uses_then; [unfold lift_result; destruct (merge_mapped_uri _ _); auto with uses|intros i]. auto with uses.
  - apply push_nft_uses. uses_reads. auto with uses.
Qed.

Lemma merge_shard_uses shard :
  uses (chains shard) (length (strings shard)) (length (contracts shard)) (length (nfts shard)) (merge_shard shard).
Proof.
  unfold merge_shard.
  assert (H1 : ∀ l : list str, l ≫= (λ x, [x]) = l) by (intros l; induction l; [done|]; rewrite bind_cons; simpl; by f_equal).
  assert (H0 : ∀ {A} (l : list A), l ≫= (λ _, []) = ([] : list str)) by (intros A l; induction l; [done|by rewrite bind_cons]).
  eapply uses_weaken.
  - apply uses_bind; [apply (for_each_uses _ (λ c, [c]) 0 0 0)|intros chain_map].
    { intros m c. apply (uses_bind [c] 0 0 0 [] 0 0 0); [apply ensure_chain_uses|auto with uses]. }
    apply uses_bind; [apply (for_each_uses _ (λ _, []) 1 0 0)|intros string_map].
    { intros m v. apply (uses_bind [] 1 0 0 [] 0 0 0); [apply intern_string_uses|auto with uses]. }
    apply uses_bind; [apply (for_each_uses _ (λ _, []) 0 1 0); intros; apply merge_contract_uses|intros contract_map].
    apply (for_each_uses _ (λ _, []) 0 0 1). intros. apply merge_nft_uses.
  - rewrite H1, !H0. set_solver.
  - lia.
  - lia.
  - lia.
Qed.

Lemma wp_uses {A} cs ns nc nn (m : M A) s Q E :
  wp m s Q E → uses cs ns nc nn m →
  wp m s (λ a s', Q a s' ∧ adds cs ns nc nn s s') (λ e s', E e s' ∧ adds cs ns nc nn s s').
Proof. intros Hw Hu. specialize (Hu s). revert Hw Hu. unfold wp. destruct (m s) as [[]]; done. Qed.

(** ** Stores built from rows *)

Section Built.
Context `{JsonLibrary}.

Lemma foldM_merge_views rows k v :
  foldM (λ v row, merge_views v (row_view row k)) v rows = rows_view rows k ≫= merge_views v.
Proof.
  unfold rows_view. induction rows as [|row rows IH] using rev_ind; [by destruct v|].
  rewrite !foldM_app, IH. destruct (foldM _ None rows) as [w|]; [|done]. cbn [mbind option_bind foldM].
  pose proof (merge_views_assoc v w (row_view row k)) as Ha.
  destruct (merge_views v w) as [vw|]; cbn [mbind option_bind] in *;
    destruct (merge_views w (row_view row k)) as [wr|]; cbn [mbind option_bind] in *; try done.
  - rewrite Ha. by destruct (merge_views v wr).
  - by rewrite Ha.
Qed.

(** What two sequences of rows say together. *)
Lemma rows_view_app rows1 rows2 k :
  rows_view (rows1 ++ rows2) k = v1 ← rows_view rows1 k; v2 ← rows_view rows2 k; merge_views v1 v2.
Proof.
  unfold rows_view at 1. rewrite foldM_app. fold (rows_view rows1 k).
  destruct (rows_view rows1 k) as [v|]; [|done]. cbn [mbind option_bind].
  rewrite foldM_merge_views. by destruct (rows_view rows2 k).
Qed.

(** A store that means some rows and holds no more than they need. *)
Record built_from (rows : list InputRow) (s : EntityStore) : Prop := {
  built_ok : store_ok s;
  built_view : represents s rows;
  built_chains : ∀ c, c ∈ chains s → c ∈ chain <$> rows;
  built_strings : length (strings s) ≤ 3 * length rows;
  built_contracts : length (contracts s) ≤ length rows;
  built_nfts : length (nfts s) ≤ length rows;
}.

(** Too many chains for 16-bit ids, or possibly too many texts, contracts or NFTs
    for 32-bit ids. *)
Definition rows_exhaust (rows : list InputRow) : Prop :=
  (2 ^ 16 ≤ Z.of_nat (length (remove_dups (chain <$> rows))) ∨ 2 ^ 32 ≤ 3 * Z.of_nat (length rows))%Z.

(** Why rows cannot be loaded. *)
Definition rows_fail (rows : list InputRow) : Prop := (∃ k, rows_view rows k = None) ∨ rows_exhaust rows.

Lemma remove_dups_le (l1 l2 : list str) : l1 ⊆ l2 → length (remove_dups l1) ≤ length (remove_dups l2).
Proof.
  intros Hsub. apply submseteq_length, NoDup_submseteq; [apply NoDup_remove_dups|].
  intros x. rewrite !elem_of_remove_dups. apply Hsub.
Qed.

Lemma rows_fail_app rows1 rows2 : rows_fail rows1 ∨ rows_fail rows2 → rows_fail (rows1 ++ rows2).
Proof.
  assert (Hex : rows_exhaust rows1 ∨ rows_exhaust rows2 → rows_exhaust (rows1 ++ rows2)).
  { unfold rows_exhaust. rewrite length_app, fmap_app.
    pose proof (remove_dups_le (chain <$> rows1) ((chain <$> rows1) ++ (chain <$> rows2)) ltac:(set_solver)).
    pose proof (remove_dups_le (chain <$> rows2) ((chain <$> rows1) ++ (chain <$> rows2)) ltac:(set_solver)). lia. }
  intros [[[k Hk]|?]|[[k Hk]|?]]; [left; exists k|right; by auto|left; exists k|right; by auto].
  - by rewrite rows_view_app, Hk.
  - rewrite rows_view_app, Hk. by destruct (rows_view rows1 k).
Qed.

(** A full store was built from too many rows. *)
Lemma at_capacity_rows rows s :
  store_ok s → (∀ c, c ∈ chains s → c ∈ chain <$> rows) → length (strings s) ≤ 3 * length rows →
  length (contracts s) ≤ length rows → length (nfts s) ≤ length rows → at_capacity s → rows_exhaust rows.
Proof.
  intros Hok Hc Hs Hk Hn Hcap. unfold rows_exhaust.
  assert (length (chains s) ≤ length (remove_dups (chain <$> rows))).
  { apply submseteq_length, NoDup_submseteq; [eapply index_ok_NoDup, Hok|].
    intros c. rewrite elem_of_remove_dups. apply Hc. }
  destruct Hcap as [|[|[|]]]; lia.
Qed.

Lemma built_from_empty limit evm : built_from [] (with_options limit evm).
Proof.
  split; [apply with_options_ok|apply represents_empty|by intros c ?%elem_of_nil|simpl; lia..].
Qed.

Lemma built_from_deferred limit evm : built_from [] (defer_unbounded_metadata_sort (with_options limit evm)).
Proof.
  split; [apply defer_ok| |by intros c ?%elem_of_nil|simpl; lia..].
  intros [[ch a] t]. unfold rows_view, view. simpl. by rewrite lookup_empty.
Qed.

Lemma built_ingest rows row s :
  built_from rows s →
  wp (try_ingest_row row) s (λ _ s', built_from (rows ++ [row]) s')
    (λ e _, e = InvalidInput "load" ∧ rows_fail (rows ++ [row])).
Proof.
  intros [Hok Hv Hc Hs Hk Hn].
  eapply wp_mono; [eapply wp_uses; [by apply try_ingest_row_wp|apply try_ingest_row_uses]| |].
  - intros _ s' [(Hok' & _ & Hv') [Hc' ? ? ?]]. split; rewrite ?length_app; simpl; [done| | |lia..].
    + intros k. rewrite rows_view_snoc, Hv. apply Hv'.
    + intros c Hin%Hc'. rewrite fmap_app. set_solver.
  - intros e s' [(-> & Hok' & _ & _ & [Hcon|Hcap]) [Hc' ? ? ?]]; (split; [done|]).
    + left. exists (row_address row). rewrite rows_view_snoc, Hv. exact Hcon.
    + right. apply (at_capacity_rows _ s'); rewrite ?length_app; simpl; [done| |lia..|done].
      intros c Hin%Hc'. rewrite fmap_app. set_solver.
Qed.

Lemma built_merge rows1 rows2 s shard :
  built_from rows1 s → built_from rows2 shard →
  wp (merge_shard shard) s (λ _ s', built_from (rows1 ++ rows2) s')
    (λ e _, e = InvalidInput "load" ∧ rows_fail (rows1 ++ rows2)).
Proof.
  intros [Hok Hv Hc Hs Hk Hn] [Hok2 Hv2 Hc2 Hs2 Hk2 Hn2].
  eapply wp_mono; [eapply wp_uses; [by apply merge_shard_wp|apply merge_shard_uses]| |].
  - intros _ s' [(Hok' & _ & Hv') [Hc' ? ? ?]]. split; rewrite ?length_app; simpl; [done| | |lia..].
    + intros k. rewrite rows_view_app, Hv, Hv2. apply Hv'.
    + intros c Hin%Hc'. rewrite fmap_app. set_solver.
  - intros e s' [(-> & Hok' & _ & [[k Hcon]|Hcap]) [Hc' ? ? ?]]; (split; [done|]).
    + left. exists k. rewrite rows_view_app, Hv, Hv2. exact Hcon.
    + right. apply (at_capacity_rows _ s'); rewrite ?length_app; simpl; [done| |lia..|done].
      intros c Hin%Hc'. rewrite fmap_app. set_solver.
Qed.
End Built.
