(* ===== verification/EntityRetain.v ===== *)
(** The filter on chains ([EntityStore::retain_chains]): re-ingesting the NFTs of
    the allowed chains never fails and keeps exactly their part of the map. *)

From S2P Require Import Prelude Radix Text CanonicalJson Types Anchors Stats UriChunks Uri.
From S2P Require Import Entity EntityInvariant EntityView EntityMerge EntityPostings.
From S2P Require Import EntityCapacity.

Section Retain.
Context `{JsonLibrary} `{WriteSchedule (Z * Z * Z)} (threads : nat).
Context (allowed : gset str) (old : EntityStore) (Hold : store_ok old).

(** The text of a field, as [unwrap_or_default] gives it. *)
Lemma field_default (P : str → Prop) id :
  text_field (strings old) P id →
  ∃ t, (match id with None => Some [] | Some id => string_of old id end) = Some t ∧
    match field_text (strings old) id with Some u => u = t ∧ P t | None => t = [] end.
Proof.
  intros Hf. destruct id as [i|]; [|by exists []].
  destruct (Hf i eq_refl) as (t & Ht & HP). exists t. unfold string_of. simpl. by rewrite Ht.
Qed.

(** The row of an NFT says about its address what the old store says. *)
Lemma retained_row_spec i n c name :
  nfts old !! i = Some n → contracts old !! nft_contract_id n = Some c →
  chain_name old (contract_chain_id c) = Some name →
  ∃ row, retained_row old n c name = Some row ∧ chain row = name ∧
    nft_address old n = Some (row_address row) ∧
    ∀ k, row_view row k = if decide (k = row_address row) then Some (texts_of (strings old) n) else None.
Proof.
  intros Hn Hc Hname. pose proof (ok_nfts old Hold _ _ Hn) as [_ _ Htok Hnm Htu Him].
  destruct (contract_ok_chain _ _ _ _ _ _ _ (ok_contracts old Hold _ _ Hc)) as (name' & Hname' & Hne & _).
  assert (name' = name) as -> by (unfold chain_name in Hname; congruence).
  pose proof (contract_ok_address _ _ _ _ _ _ _ (ok_contracts old Hold _ _ Hc)) as Haddr.
  destruct (field_default _ _ Hnm) as (tn & En & Hn1), (field_default _ _ Htu) as (tt & Et & Ht1),
    (field_default _ _ Him) as (ti & Ei & Hi1).
  unfold retained_row. rewrite En, Et, Ei. cbn [mbind option_bind]. eexists. split; [done|]. split; [done|]. split.
  { apply nft_address_Some. split; [done|]. exists (contract_chain_id c). by rewrite list_lookup_fmap, Hc. }
  intros k. unfold row_view. cbn [chain contract_address token_id].
  rewrite decide_False by (intros [?|[?|?]]; done). case_decide; [|done]. f_equal.
  unfold row_texts, texts_of. cbn [name_norm token_uri_norm image_uri_norm]. f_equal.
  - destruct (field_text (strings old) (name_id n)) as [u|]; [destruct Hn1 as [<- Hb]; unfold nonblank; by rewrite Hb|].
    by rewrite Hn1.
  - destruct (field_text (strings old) (token_uri_id n)) as [u|]; unfold nonempty;
      [destruct Ht1 as [<- Hb]; by rewrite decide_False|by rewrite Ht1].
  - destruct (field_text (strings old) (image_uri_id n)) as [u|]; unfold nonempty;
      [destruct Hi1 as [<- Hb]; by rewrite decide_False|by rewrite Hi1].
Qed.

(** The replacement after the NFTs [l1]. *)
Record retained (l1 : list Nft) (s : EntityStore) : Prop := {
  retained_rows : ∃ rows, built_from rows s ∧ length rows ≤ length l1 ∧ (∀ ch, ch ∈ chain <$> rows → ch ∈ chains old);
  retained_in : ∀ n k, n ∈ l1 → nft_address old n = Some k → k.1.1 ∈ allowed → view s k = Some (texts_of (strings old) n);
  retained_out : ∀ k, (k.1.1 ∉ allowed ∨ ∀ n, n ∈ l1 → nft_address old n ≠ Some k) → view s k = None;
}.

Lemma retained_no_fail (l1 : list Nft) n l2 rows row s :
  nfts old = l1 ++ n :: l2 → built_from rows s → length rows ≤ length l1 →
  (∀ ch, ch ∈ chain <$> rows → ch ∈ chains old) → chain row ∈ chains old →
  (Z.of_nat (length (chains old)) < 2 ^ 16)%Z → (3 * Z.of_nat (length (nfts old)) < 2 ^ 32)%Z →
  (∀ k, merge_views (view s k) (row_view row k) ≠ None) → ¬ rows_fail (rows ++ [row]).
Proof.
  intros Hl Hb Hlen Hch Hrow Hc16 Hn32 Hok [[k Hk]|Hex].
  - rewrite rows_view_snoc, (built_view _ _ Hb) in Hk. by apply (Hok k).
  - assert (length (remove_dups (chain <$> rows ++ [row])) ≤ length (chains old)).
    { apply submseteq_length, NoDup_submseteq; [apply NoDup_remove_dups|].
      intros c. rewrite elem_of_remove_dups, fmap_app. intros [?|Hr]%elem_of_app; [by apply Hch|].
      apply list_elem_of_singleton in Hr as ->. done. }
    unfold rows_exhaust in Hex. rewrite length_app in Hex. simpl in Hex.
    apply (f_equal length) in Hl. rewrite length_app in Hl. simpl in Hl. lia.
Qed.

(** An NFT of another chain is skipped. *)
Lemma retained_skip (l1 : list Nft) n k0 s :
  retained l1 s → nft_address old n = Some k0 → k0.1.1 ∉ allowed → retained (l1 ++ [n]) s.
Proof.
  intros [(rows & Hb & Hlen & Hch) Hin Hout] Haddr Hall. split.
  - exists rows. rewrite length_app. simpl. split_and!; [done|lia|done].
  - intros m k [Hm|Hm]%elem_of_app Hk Hka; [by eapply Hin|]. apply list_elem_of_singleton in Hm as ->. congruence.
  - intros k Hk. apply Hout. destruct Hk as [?|Hk]; [by left|right]. intros m Hm. apply Hk. set_solver.
Qed.

(** An NFT of an allowed chain is added at its address. *)
Lemma retained_push (l1 : list Nft) n k0 rows row s s' :
  retained l1 s → nft_address old n = Some k0 → k0.1.1 ∈ allowed → view s k0 = None →
  built_from (rows ++ [row]) s' → length rows ≤ length l1 → (∀ ch, ch ∈ chain <$> rows → ch ∈ chains old) →
  chain row ∈ chains old →
  (∀ k, view s' k = if decide (k = k0) then Some (texts_of (strings old) n) else view s k) →
  retained (l1 ++ [n]) s'.
Proof.
  intros [_ Hin Hout] Haddr Hka0 Hnew Hb Hlen Hch Hrow Hv'. split.
  - exists (rows ++ [row]). rewrite !length_app. simpl. split_and!; [done|lia|].
    intros ch. rewrite fmap_app. intros [?|Hr]%elem_of_app; [by apply Hch|].
    by apply list_elem_of_singleton in Hr as ->.
  - intros m k [Hm|Hm]%elem_of_app Hk Hka; rewrite Hv'.
    + case_decide as Heq; [|by apply Hin]. subst k. by rewrite (Hin m k0 Hm Hk Hka) in Hnew.
    + apply list_elem_of_singleton in Hm as ->. by rewrite decide_True by congruence.
  - intros k Hk. rewrite Hv'. case_decide as Heq.
    + subst k. destruct Hk as [Hk|Hk]; [done|]. exfalso. apply (Hk n); [set_solver|done].
    + apply Hout. destruct Hk as [?|Hk]; [by left|right]. intros m Hm. apply Hk. set_solver.
Qed.

Lemma retain_nft_wp (l1 : list Nft) n l2 s :
  (Z.of_nat (length (chains old)) < 2 ^ 16)%Z → (3 * Z.of_nat (length (nfts old)) < 2 ^ 32)%Z →
  nfts old = l1 ++ n :: l2 → retained l1 s →
  wp (retain_nft allowed old n) s (λ _ s', retained (l1 ++ [n]) s') (λ _ _, False).
Proof.
  intros Hc16 Hn32 Hl Hret. pose proof Hret as [(rows & Hb & Hlen & Hch) Hin Hout].
  assert (Hn : nfts old !! length l1 = Some n) by (by rewrite Hl, lookup_app_r, Nat.sub_diag).
  pose proof (nft_ok_contract _ _ _ _ (ok_nfts old Hold _ _ Hn)) as Hc.
  apply lookup_lt_is_Some_2 in Hc as [c Hc].
  destruct (contract_ok_chain _ _ _ _ _ _ _ (ok_contracts old Hold _ _ Hc)) as (name & Hname & _).
  destruct (retained_row_spec _ _ _ _ Hn Hc Hname) as (row & Erow & Hchain & Haddr & Hview).
  assert (Hkey : (row_address row).1.1 = name) by done.
  assert (Hrow : chain row ∈ chains old) by (rewrite Hchain; by eapply list_elem_of_lookup_2).
  unfold retain_nft. apply wp_bind. eapply wp_unwrap; [exact Hc|]. apply wp_bind.
  eapply wp_unwrap; [exact Hname|]. case_decide as Hall.
  { apply wp_ret. eapply retained_skip; [done|exact Haddr|by rewrite Hkey]. }
  rewrite <- Hkey in Hall. apply wp_bind. eapply wp_unwrap; [exact Erow|].
  assert (Hnew : view s (row_address row) = None).
  { apply Hout. right. intros m [j Hj]%list_elem_of_lookup_1 Hmk. pose proof (lookup_lt_Some _ _ _ Hj).
    assert (j = length l1); [|lia]. eapply (nft_address_inj old Hold _ _ m n); [|done..]. rewrite Hl. by apply lookup_app_l_Some. }
  assert (Hmerge : ∀ k, merge_views (view s k) (row_view row k) =
            Some (if decide (k = row_address row) then Some (texts_of (strings old) n) else view s k)).
  { intros k. rewrite Hview. case_decide; [by subst; rewrite Hnew|apply merge_views_None_r]. }
  pose proof (built_ingest rows row s Hb) as Hw. unfold wp in Hw |- *. unfold expect.
  destruct (try_ingest_row row s) as [[[]|e|] s'] eqn:Erun; [|destruct Hw as [_ Hfail]|done].
  - eapply (retained_push l1 n (row_address row) rows row s s'); try done. intros k.
    pose proof (built_view _ _ Hw k) as Hk. rewrite rows_view_snoc, (built_view _ _ Hb) in Hk.
    cbn [mbind option_bind] in Hk. rewrite Hmerge in Hk. by injection Hk.
  - exfalso. eapply (retained_no_fail l1 n l2 rows row s); try done. intros k. by rewrite Hmerge.
Qed.

Lemma retain_chains_wp :
  allowed ≠ ∅ → (Z.of_nat (length (chains old)) < 2 ^ 16)%Z → (3 * Z.of_nat (length (nfts old)) < 2 ^ 32)%Z →
  wp (retain_chains threads allowed) old
    (λ _ s', store_ok s' ∧ ∀ k, view s' k = if decide (k.1.1 ∈ allowed) then view old k else None)
    (λ _ _, False).
Proof.
  intros Hne Hc16 Hn32. unfold wp, retain_chains. rewrite decide_False by done.
  change (wp (for_each (λ _ n, retain_nft allowed old n) () (nfts old);; rebuild_uri_postings threads)
    (with_options (metadata_anchor_limit old) (evm_chains old))
    (λ _ s', store_ok s' ∧ ∀ k, view s' k = if decide (k.1.1 ∈ allowed) then view old k else None)
    (λ _ _, False)).
  apply wp_bind. eapply wp_mono; [apply (wp_for_each _ (λ l1 _ s1, retained l1 s1) (λ _ _, False))| |done].
  - split.
    + exists []. split_and!; [apply built_from_empty|done|by intros ch ?%elem_of_nil].
    + by intros n k ?%elem_of_nil.
    + intros k _. apply view_None; [apply with_options_ok|]. intros i n Hi. simpl in Hi. by rewrite lookup_nil in Hi.
  - intros l1 n l2 [] s1 Hl Hr. by eapply retain_nft_wp.
  - intros _ s1 [(rows & Hb & _) Hin Hout].
    eapply wp_mono; [apply rebuild_uri_postings_wp, Hb| |done].
    intros _ s2 (Hok2 & Hv & _). split; [done|]. intros k. rewrite Hv. case_decide as Hka; [|by apply Hout; left].
    destruct (view old k) as [v|] eqn:Ev.
    + apply (view_Some old Hold) in Ev as (i & n & Hn & Hk & ->). apply Hin; [by eapply list_elem_of_lookup_2|done..].
    + apply Hout. right. intros n [i Hi]%list_elem_of_lookup_1 Hk.
      rewrite (view_of old Hold i n k) in Ev; done.
Qed.
End Retain.

(** ** Properties *)

(** The map of a store on the allowed chains; no chain at all allows every one. *)
Definition allowed_view (allowed : gset str) (s : EntityStore) (k : NftAddress) : option NftTexts :=
  if decide (allowed = ∅ ∨ k.1.1 ∈ allowed) then view s k else None.

(** Retaining chains, on a well-formed store that leaves room for its own
    texts, never panics (the conflict and overflow errors of the re-ingestion
    cannot occur) and gives a well-formed store whose map is the old one on the
    allowed chains and empty elsewhere; an empty set of chains keeps everything. *)
Theorem retain_chains_filters `{JsonLibrary} `{WriteSchedule (Z * Z * Z)} (threads : nat) (allowed : gset str) (s : EntityStore) :
  store_ok s → (Z.of_nat (length (chains s)) < 2 ^ 16)%Z → (3 * Z.of_nat (length (nfts s)) < 2 ^ 32)%Z →
  wp (retain_chains threads allowed) s
    (λ _ s', store_ok s' ∧ ∀ k, view s' k = allowed_view allowed s k)
    (λ _ _, False).
Proof.
  intros Hok Hc Hn. destruct (decide (allowed = ∅)) as [->|Hne].
  - unfold wp, retain_chains. rewrite decide_True by done. split; [done|]. intros k. unfold allowed_view. by rewrite decide_True by auto.
  - eapply wp_mono; [by apply retain_chains_wp| |done]. intros _ s' [Hok' Hv]. split; [done|]. intros k. rewrite Hv. unfold allowed_view.
    destruct (decide (k.1.1 ∈ allowed)); [by rewrite decide_True by auto|]. rewrite decide_False; [done|]. by intros [?|?].
Qed.

Lemma retain_chains_filters_witness :
  wp (@retain_chains simple_json _ 2 {[lit "solana"]}) example_store
    (λ _ s', store_ok s' ∧ ∀ k, view s' k = allowed_view {[lit "solana"]} example_store k)
    (λ _ _, False).
Proof. apply (@retain_chains_filters simple_json); [apply example_store_ok|vm_compute; reflexivity..]. Defined.
