(* ===== verification/Load.v ===== *)
(** Loading snapshots ([dedup/crates/core/src/parquet.rs]): decoding of rows, the
    split of a file into chunks of row groups, the scan of a chunk into a shard and
    the ordered merge of the shards.

    The Parquet and Arrow crates are a parameter, [Class ParquetReader]: a reader
    yields batches, whose columns may fail to cast; its law is that a range of row
    groups yields the rows of these groups in order.  Opening and validating the
    files is not modelled: [load_entities_with_options] starts from validated
    inputs.  Progress is reported to an observer that may cancel.

    At the end, loading is sequential ingestion: whatever the number of threads, the
    loaded store means the rows of the files in order. *)

From S2P Require Import Prelude Radix Text CanonicalJson Types Anchors Stats UriChunks Uri.
From S2P Require Import Entity EntityInvariant EntityView EntityMerge EntityPostings.
From S2P Require Import EntityRelease EntityCapacity.

(** ** Options *)

Record LoadOptions := {
  allowed_chains : gset str;
  load_evm_chains : gset str;
  metadata_anchors : option nat;
  load_names : bool;
  load_token_uris : bool;
  load_image_uris : bool;
  load_metadata : bool;
}.

Definition LoadOptions_new (allowed evm : gset str) (anchors : option nat) : LoadOptions :=
  {| allowed_chains := allowed; load_evm_chains := evm; metadata_anchors := anchors; load_names := true;
     load_token_uris := true; load_image_uris := true; load_metadata := true |}.

Definition LoadOptions_default : LoadOptions := LoadOptions_new ∅ ∅ None.

Definition loads_column (o : LoadOptions) (column : nat) : bool :=
  match column with
  | 0 | 1 | 2 => true
  | 3 => load_names o
  | 4 => load_token_uris o
  | 5 => load_image_uris o
  | 6 => load_metadata o
  | _ => false
  end.

(** [REQUIRED_COLUMNS.len()] *)
Definition required_columns : nat := 7.

(** ** Batches *)

(** A column after the cast to text: the text of a row, or null. *)
Abbreviation Column := (nat → option str) (only parsing).

(** A record batch; a required column that is missing or cannot be cast is [None]. *)
Record Batch := {
  num_rows : nat;
  cast_column : nat → option (nat → option str);
}.

Class ParquetReader := {
  Input : Type;
  file_ordinal_of : Input → Z;
  row_group_count : Input → nat;
  row_group_rows : Input → nat → Z;
  open_row_groups : Input → nat → nat → list (Batch + DedupError) + DedupError;
}.

Definition column_step (o : LoadOptions) (b : Batch) (column : nat) : option (option (nat → option str)) :=
  if loads_column o column then c ← cast_column b column; Some (Some c) else Some None.

(** [ProjectedColumns::new]: [None] is the schema error. *)
Definition projected_columns (o : LoadOptions) (b : Batch) : option (list (option (nat → option str))) :=
  mapM (column_step o b) (seq 0 required_columns).

Definition column_value (columns : list (option (nat → option str))) (column row : nat) : str :=
  match columns !! column with
  | Some (Some c) => default [] (c row)
  | _ => []
  end.

Definition normalize_chain (value : str) : str := map ascii_lowercase (trim value).
Definition coalesce (value : str) : str := value.
Definition coalesce_metadata (value : str) : str := trim value.

Definition decode_chain columns row : str := normalize_chain (column_value columns 0 row).

Definition decode_with_chain columns (row : nat) (order : SourceOrder) (ch : str) : InputRow :=
  {| chain := ch; contract_address := trim (column_value columns 1 row);
     token_id := trim (column_value columns 2 row); name_norm := coalesce (column_value columns 3 row);
     token_uri_norm := coalesce (column_value columns 4 row);
     image_uri_norm := coalesce (column_value columns 5 row);
     metadata_json := coalesce_metadata (column_value columns 6 row); row_source_order := order |}.

(** ** Scanning *)

(** Runs a method on a store; the store is dropped when it fails. *)
Definition run {A} (m : M A) (s : EntityStore) : outcome EntityStore :=
  match m s with
  | (Returns _, s) => Returns s
  | (Fails e, _) => Fails e
  | (Panics, _) => Panics
  end.

Section Load.
Context `{JsonLibrary} `{UnstableSort} `{ParquetReader} `{WriteSchedule (Z * Z * Z)}.
Context (threads : nat) (o : LoadOptions).

Definition is_allowed (ch : str) : bool :=
  bool_decide (allowed_chains o = ∅) || bool_decide (ch ∈ allowed_chains o).

(** One row of a batch; the offset counts filtered rows too. *)
Definition scan_row (input : Input) (row_start : Z) columns (row_offset : Z) (row_index : nat) : M Z :=
  let order := {| file_ordinal := file_ordinal_of input;
                  file_row_number := wrapping_add64 row_start row_offset |} in
  let row_offset := wrapping_add64 row_offset 1 in
  let ch := decode_chain columns row_index in
  if negb (is_allowed ch) then mret row_offset else
  try_ingest_row (decode_with_chain columns row_index order ch);;
  mret row_offset.

Definition scan_batch (input : Input) (row_start : Z) (row_offset : Z) (batch : Batch + DedupError) : M Z :=
  match batch with
  | inr e => fails e
  | inl batch =>
      match projected_columns o batch with
      | None => fails ParquetSchema
      | Some columns => for_each (scan_row input row_start columns) row_offset (seq 0 (num_rows batch))
      end
  end.

Definition scan_row_groups_to_shard (cancelled : bool) (input : Input) (first last : nat) (row_start : Z)
    : outcome EntityStore :=
  if cancelled then Fails Interrupted else
  match open_row_groups input first last with
  | inr e => Fails e
  | inl batches =>
      run (for_each (scan_batch input row_start) 0%Z batches)
        (defer_unbounded_metadata_sort (with_options (metadata_anchors o) (load_evm_chains o)))
  end.

(** [shards.len() / 2] splits until one shard is left; [fuel] bounds the depth, and
    the number of shards is enough. *)
Fixpoint merge_shards_ordered (fuel : nat) (shards : list (outcome EntityStore)) : outcome EntityStore :=
  match shards with
  | [] => Returns (with_options (metadata_anchors o) (load_evm_chains o))
  | [shard] => shard
  | _ =>
      match fuel with
      | 0 => Panics
      | S fuel =>
          let half := length shards / 2 in
          match merge_shards_ordered fuel (take half shards), merge_shards_ordered fuel (drop half shards) with
          | Panics, _ | _, Panics => Panics
          | Fails e, _ => Fails e
          | _, Fails e => Fails e
          | Returns left_, Returns right_ => run (merge_shard right_) left_
          end
      end
  end.

(** [row_starts]: the first row of every row group. *)
Definition row_starts (input : Input) : list Z :=
  foldl (λ starts g, starts ++ [saturating_add64 (default 0%Z (last starts)) (Z.max (row_group_rows input g) 0)])
    [0%Z] (seq 0 (row_group_count input)).

(** [(0..count).step_by(size)] for a positive [size]; [fuel] bounds the steps, and
    [count] is enough. *)
Fixpoint step_by (fuel start count size : nat) : list nat :=
  match fuel with
  | 0 => []
  | S fuel => if decide (start < count) then start :: step_by fuel (start + size) count size else []
  end.

Definition row_groups_per_chunk (input : Input) : nat :=
  Nat.max (div_ceil (row_group_count input) (Nat.max (threads * 2) 1)) 1.

(** The chunks of a file: first and last row group, and first row. *)
Definition file_chunks (input : Input) : option (list (nat * nat * Z)) :=
  let count := row_group_count input in
  mapM (λ start, row_start ← row_starts input !! start;
                 Some (start, Nat.min (start + row_groups_per_chunk input) count, row_start))
    (step_by count 0 count (row_groups_per_chunk input)).

(** The chunks are scanned in parallel and collected in order. *)
Definition scan_file_to_shard (cancelled : Input → nat → bool) (input : Input) : outcome EntityStore :=
  match file_chunks input with
  | None => Panics
  | Some chunks =>
      merge_shards_ordered (length chunks)
        (map (λ '(first, last, row_start),
           scan_row_groups_to_shard (cancelled input first) input first last row_start) chunks)
  end.

(** After the merge: anchors, the check that a requested chain is there, postings. *)
Definition finish_load : M () :=
  finalize_metadata_anchors;;
  cs ← gets contracts;
  if negb (bool_decide (allowed_chains o = ∅)) && bool_decide (cs = []) then fails (InvalidInput "load") else
  if load_token_uris o || load_image_uris o then rebuild_uri_postings threads else mret ().

(** [cancelled] is the observer's answer in each scan, [cancelled_merge] before the
    merge; [validated] is the result of [validate_inputs]. *)
Definition load_entities_with_options (cancelled : Input → nat → bool) (cancelled_merge : bool)
    (validated : list Input + DedupError) : outcome EntityStore :=
  match validated with
  | inr e => Fails e
  | inl [] => Fails (InvalidInput "load")
  | inl inputs =>
      let shard_results := map (scan_file_to_shard cancelled) inputs in
      if existsb (λ r, match r with Panics => true | _ => false end) shard_results then Panics else
      if cancelled_merge then Fails Interrupted else
      match merge_shards_ordered (length shard_results) shard_results with
      | Returns store => run finish_load store
      | r => r
      end
  end.
End Load.

(** ** Files as sequences of rows *)

(** The cells of a row: per required column nothing when it is missing, or a text
    or null. *)
Abbreviation Cells := (list (option (option (list N)))) (only parsing).

Definition batch_row (b : Batch) (row : nat) : Cells :=
  map (λ col, (λ c, c row) <$> cast_column b col) (seq 0 required_columns).
Definition batch_cells (b : Batch) : list Cells := map (batch_row b) (seq 0 (num_rows b)).

(** The law of the reader: a range of row groups yields their rows in order, and the
    metadata counts them. *)
Class ReaderLaws `{ParquetReader} := {
  group_cells : Input → nat → list (list (option (option str)));
  group_rows_length i g : row_group_rows i g = Z.of_nat (length (group_cells i g));
  open_row_groups_cells i first last bs :
    first ≤ last ≤ row_group_count i → open_row_groups i first last = inl (inl <$> bs) →
    mjoin (batch_cells <$> bs) = mjoin (group_cells i <$> seq first (last - first));
}.

Section Rows.
Context `{ParquetReader} (o : LoadOptions).

Definition cell_value (cells : Cells) (col : nat) : str :=
  if loads_column o col then
    match cells !! col with Some (Some v) => default [] v | _ => [] end
  else [].

(** The row of some cells, with its number in the file; rows of other chains are
    filtered. *)
Definition row_of (input : Input) (j : Z) (cells : Cells) : option InputRow :=
  let ch := normalize_chain (cell_value cells 0) in
  if is_allowed o ch then
    Some {| chain := ch; contract_address := trim (cell_value cells 1); token_id := trim (cell_value cells 2);
            name_norm := cell_value cells 3; token_uri_norm := cell_value cells 4;
            image_uri_norm := cell_value cells 5; metadata_json := trim (cell_value cells 6);
            row_source_order := {| file_ordinal := file_ordinal_of input; file_row_number := j |} |}
  else None.

Fixpoint number_rows (input : Input) (j : Z) (l : list Cells) : list InputRow :=
  match l with
  | [] => []
  | cells :: l => option_list (row_of input j cells) ++ number_rows input (j + 1) l
  end.

Lemma number_rows_app input j l1 l2 :
  number_rows input j (l1 ++ l2) = number_rows input j l1 ++ number_rows input (j + Z.of_nat (length l1)) l2.
Proof.
  revert j. induction l1 as [|c l1 IH]; intros j; simpl; [by rewrite Z.add_0_r|].
  rewrite IH, <- app_assoc. do 3 f_equal. lia.
Qed.
End Rows.

Section LoadFacts.
Context `{JsonLibrary} `{UnstableSort} `{ParquetReader} `{!ReaderLaws} `{WriteSchedule (Z * Z * Z)}.
Context (threads : nat) (o : LoadOptions).

(** All the rows of a file. *)
Definition file_cells (input : Input) : list Cells := mjoin (group_cells input <$> seq 0 (row_group_count input)).
Definition file_rows (input : Input) : list InputRow := number_rows o input 0 (file_cells input).

(** ** Scanning *)

Lemma projected_value b columns row col :
  projected_columns o b = Some columns → row < num_rows b → col < required_columns →
  column_value columns col row = cell_value o (batch_row b row) col.
Proof.
  intros Hp Hrow Hcol. unfold projected_columns in Hp. apply mapM_Some in Hp.
  assert (Hseq : seq 0 required_columns !! col = Some col) by by apply lookup_seq.
  destruct (Forall2_lookup_l _ _ _ _ _ Hp Hseq) as (c & Hc & Hstep).
  unfold column_value, cell_value. rewrite Hc. unfold batch_row. rewrite (list_lookup_fmap _ (seq _ _)), Hseq.
  unfold column_step in Hstep. destruct (loads_column o col); [|by injection Hstep as <-].
  apply bind_Some in Hstep as (f & Hf & [= <-]). simpl. by rewrite Hf.
Qed.

Lemma decoded_row input b columns row j :
  projected_columns o b = Some columns → row < num_rows b →
  row_of o input j (batch_row b row) =
    if is_allowed o (decode_chain columns row) then
      Some (decode_with_chain columns row {| file_ordinal := file_ordinal_of input; file_row_number := j |}
              (decode_chain columns row))
    else None.
Proof.
  intros Hp Hrow. unfold row_of, decode_with_chain, decode_chain, coalesce, coalesce_metadata.
  by rewrite !(projected_value b) by (done || unfold required_columns; lia).
Qed.

(** A scan so far: the rows before it and the cells it has read. *)
Definition scanned (input : Input) (start : Z) (cells : list Cells) (offset : Z) (s : EntityStore) : Prop :=
  offset = Z.of_nat (length cells) ∧ built_from (number_rows o input start cells) s.

Definition scan_failure (input : Input) (start : Z) (cells : list Cells) (e : DedupError) : Prop :=
  e = InvalidInput "load" ∧ rows_fail (number_rows o input start cells).

Lemma scan_failure_app input start l1 l2 e : scan_failure input start l1 e → scan_failure input start (l1 ++ l2) e.
Proof. intros [? Hf]. split; [done|]. rewrite number_rows_app. apply rows_fail_app. by left. Qed.

Lemma scan_row_wp input start b columns row cells offset s :
  (0 ≤ start)%Z → (start + Z.of_nat (length cells) < 2 ^ 64 - 1)%Z →
  projected_columns o b = Some columns → row < num_rows b → scanned input start cells offset s →
  wp (scan_row o input start columns offset row) s
    (λ offset' s', scanned input start (cells ++ [batch_row b row]) offset' s')
    (λ e _, scan_failure input start (cells ++ [batch_row b row]) e).
Proof.
  intros Hstart Hbound Hp Hrow [-> Hb]. unfold scan_row. cbv zeta.
  assert (Hnum : wrapping_add64 start (Z.of_nat (length cells)) = (start + Z.of_nat (length cells))%Z)
    by (unfold wrapping_add64; rewrite Z.mod_small; lia).
  assert (Hoff : wrapping_add64 (Z.of_nat (length cells)) 1 = Z.of_nat (length (cells ++ [batch_row b row])))
    by (rewrite no_wrap, length_app by lia; simpl; lia).
  rewrite Hnum, Hoff. unfold scanned, scan_failure. rewrite number_rows_app. cbn [number_rows].
  rewrite app_nil_r, (decoded_row input b columns) by done.
  destruct (is_allowed o (decode_chain columns row)); cbn [negb option_list].
  - apply wp_bind. eapply wp_mono; [by apply built_ingest| |done]. intros [] s' Hb'. by apply wp_ret.
  - apply wp_ret. by rewrite app_nil_r.
Qed.

Lemma scan_batch_wp input start b cells offset s :
  (0 ≤ start)%Z → (start + Z.of_nat (length (cells ++ batch_cells b)) ≤ 2 ^ 64 - 1)%Z →
  is_Some (projected_columns o b) → scanned input start cells offset s →
  wp (scan_batch o input start offset (inl b)) s
    (λ offset' s', scanned input start (cells ++ batch_cells b) offset' s')
    (λ e _, scan_failure input start (cells ++ batch_cells b) e).
Proof.
  intros Hstart Hbound [columns Hp] Hs. unfold scan_batch. rewrite Hp. unfold batch_cells in *.
  eapply wp_mono; [apply (wp_for_each _ (λ done offset s, scanned input start (cells ++ map (batch_row b) done) offset s)
    (λ e _, scan_failure input start (cells ++ map (batch_row b) (seq 0 (num_rows b))) e))|done|done].
  - by rewrite app_nil_r.
  - intros l1 row l2 offset' s' Hl Hs'.
    assert (Hrow : row < num_rows b) by (apply (elem_of_seq 0 (num_rows b)); rewrite Hl; set_solver).
    cbv beta. rewrite Hl, map_app, map_cons in Hbound. rewrite !length_app in Hbound. simpl in Hbound.
    rewrite Hl.
    eapply wp_mono; [eapply (scan_row_wp input start b columns row); [done| |done|done|exact Hs']| |].
    + rewrite length_app. lia.
    + intros offset2 s2. by rewrite map_app, app_assoc.
    + intros e s2 Hf. rewrite map_app, map_cons, cons_middle, !app_assoc. by apply scan_failure_app.
Qed.

(** The result of loading some rows. *)
Definition outcome_ok (rows : list InputRow) (r : outcome EntityStore) : Prop :=
  match r with
  | Returns s => built_from rows s
  | Fails e => e = InvalidInput "load" ∧ rows_fail rows
  | Panics => False
  end.

Lemma run_outcome {A} (m : M A) s (Q : EntityStore → Prop) (E : DedupError → Prop) :
  wp m s (λ _ s', Q s') (λ e _, E e) →
  match run m s with Returns s' => Q s' | Fails e => E e | Panics => False end.
Proof. unfold wp, run. destruct (m s) as [[]]; done. Qed.

(** No read fails and no column is missing. *)
Definition reader_clean (input : Input) : Prop :=
  ∀ first last, first ≤ last ≤ row_group_count input →
  ∃ bs, open_row_groups input first last = inl (inl <$> bs) ∧ Forall (λ b, is_Some (projected_columns o b)) bs.

Lemma scan_row_groups_ok input first last start :
  reader_clean input → first ≤ last ≤ row_group_count input → (0 ≤ start)%Z →
  let cells := mjoin (group_cells input <$> seq first (last - first)) in
  (start + Z.of_nat (length cells) ≤ 2 ^ 64 - 1)%Z →
  outcome_ok (number_rows o input start cells) (scan_row_groups_to_shard o false input first last start).
Proof.
  intros Hclean Hr Hstart cells Hbound. destruct (Hclean first last Hr) as (bs & Eopen & Hbs).
  pose proof (open_row_groups_cells input first last bs Hr Eopen) as Hcells. fold cells in Hcells.
  unfold scan_row_groups_to_shard. rewrite Eopen. unfold outcome_ok. apply run_outcome.
  eapply wp_mono; [apply (wp_for_each _ (λ done offset s, ∃ bs1 bs2, bs = bs1 ++ bs2 ∧ done = inl <$> bs1 ∧
      scanned input start (mjoin (batch_cells <$> bs1)) offset s) (λ e _, scan_failure input start cells e))| |done].
  - exists [], bs. do 3 (split; [done|]). apply built_from_deferred.
  - intros l1 x l2 offset s Hl (bs1 & bs2 & Hbs12 & -> & Hs). rewrite Hbs12, fmap_app in Hl.
    apply app_inv_head in Hl. destruct bs2 as [|b bs2]; [done|]. injection Hl as <- Hl.
    rewrite Hbs12 in Hbs. apply Forall_app in Hbs as [_ [Hb _]%Forall_cons].
    assert (Hsplit : cells = mjoin (batch_cells <$> bs1) ++ batch_cells b ++ mjoin (batch_cells <$> bs2))
      by (rewrite <- Hcells, Hbs12, fmap_app, join_app; done).
    rewrite Hsplit, !length_app in Hbound.
    eapply wp_mono; [eapply scan_batch_wp; [done| |done|exact Hs]| |].
    + rewrite length_app. lia.
    + intros offset' s' Hs'. exists (bs1 ++ [b]), bs2. rewrite <- app_assoc. split; [done|]. split; [by rewrite fmap_app|].
      by rewrite fmap_app, join_app, fmap_cons, mjoin_cons, app_nil_r.
    + intros e s' Hf. rewrite Hsplit, app_assoc. by apply scan_failure_app.
  - intros offset s (bs1 & bs2 & Hbs12 & Heq & [_ Hb]).
    assert (bs2 = []) as ->.
    { rewrite Hbs12, fmap_app in Heq. apply (f_equal length) in Heq. rewrite length_app, !length_fmap in Heq.
      destruct bs2; [done|simpl in Heq; lia]. }
    rewrite app_nil_r in Hbs12. by rewrite <- Hcells, Hbs12.
Qed.

(** ** Merging *)

Lemma merge_shards_ordered_ok fuel rowss shards :
  length shards ≤ fuel → Forall2 outcome_ok rowss shards →
  outcome_ok (mjoin rowss) (merge_shards_ordered o fuel shards).
Proof.
  revert rowss shards. induction fuel as [|fuel IH]; intros rowss shards Hfuel Hf.
  { destruct Hf; [apply built_from_empty|simpl in Hfuel; lia]. }
  destruct Hf as [|r1 s1 rowss shards Hr1 Hf]; [apply built_from_empty|].
  destruct Hf as [|r2 s2 rowss shards Hr2 Hf]; [by rewrite mjoin_cons, app_nil_r|].
  cbn [merge_shards_ordered]. set (all := s1 :: s2 :: shards) in *. set (allr := r1 :: r2 :: rowss) in *.
  assert (Hall : Forall2 outcome_ok allr all) by by repeat constructor.
  set (half := length all / 2). assert (Hhalf : 1 ≤ half < length all).
  { pose proof (Nat.div_mod (length all) 2 ltac:(lia)). pose proof (Nat.mod_upper_bound (length all) 2 ltac:(lia)).
    unfold half. simpl in *. lia. }
  pose proof (IH (take half allr) (take half all) ltac:(rewrite length_take; lia) (Forall2_take _ _ _ half Hall)) as Hleft.
  pose proof (IH (drop half allr) (drop half all) ltac:(rewrite length_drop; lia) (Forall2_drop _ _ _ half Hall)) as Hright.
  rewrite <- (take_drop half allr), join_app.
  destruct (merge_shards_ordered o fuel (take half all)) as [l|e|]; [| |done];
    destruct (merge_shards_ordered o fuel (drop half all)) as [r|e'|]; simpl in Hleft, Hright |- *; try done.
  - pose proof (built_merge _ _ _ _ Hleft Hright) as Hw.
    apply (run_outcome _ _ (built_from _) (λ e, e = InvalidInput "load" ∧ rows_fail _)) in Hw. by destruct (run _ l).
  - destruct Hright. split; [done|]. apply rows_fail_app. by right.
  - destruct Hleft. split; [done|]. apply rows_fail_app. by left.
  - destruct Hleft. split; [done|]. apply rows_fail_app. by left.
Qed.

(** ** Chunks of a file *)

Definition cells_before (input : Input) (g : nat) : list Cells := mjoin (group_cells input <$> seq 0 g).

Lemma cells_before_S input g : cells_before input (S g) = cells_before input g ++ group_cells input g.
Proof. unfold cells_before. rewrite seq_S, fmap_app, join_app. simpl. by rewrite app_nil_r. Qed.

Lemma cells_before_le input g h : g ≤ h → length (cells_before input g) ≤ length (cells_before input h).
Proof. induction 1 as [|h _ IH]; [done|]. rewrite cells_before_S, length_app. lia. Qed.

Lemma cells_between input g h :
  g ≤ h → cells_before input h = cells_before input g ++ mjoin (group_cells input <$> seq g (h - g)).
Proof.
  intros Hle. unfold cells_before. replace h with (g + (h - g)) at 1 by lia.
  by rewrite seq_app, fmap_app, join_app.
Qed.

Lemma row_starts_lookup input g :
  (Z.of_nat (length (file_cells input)) < 2 ^ 64)%Z → g ≤ row_group_count input →
  row_starts input !! g = Some (Z.of_nat (length (cells_before input g))).
Proof.
  intros Hbound Hg. unfold row_starts.
  assert (Hall : ∀ n, n ≤ row_group_count input →
    foldl (λ starts g, starts ++ [saturating_add64 (default 0%Z (last starts)) (Z.max (row_group_rows input g) 0)])
      [0%Z] (seq 0 n) = (λ g, Z.of_nat (length (cells_before input g))) <$> seq 0 (S n)).
  { induction n as [|n IH]; intros Hn; [done|]. rewrite seq_S, foldl_app, IH by lia. cbn [foldl].
    assert (Hlast : last ((λ g, Z.of_nat (length (cells_before input g))) <$> seq 0 (S n)) =
              Some (Z.of_nat (length (cells_before input n)))) by (rewrite seq_S, fmap_app; apply last_snoc).
    rewrite Hlast, (seq_S (S n)), fmap_app. f_equal. cbn [default fmap list_fmap Nat.add]. f_equal.
    rewrite group_rows_length, cells_before_S, length_app.
    pose proof (cells_before_le input (S n) (row_group_count input) Hn) as Hle.
    rewrite cells_before_S, length_app in Hle. unfold file_cells in Hbound.
    fold (cells_before input (row_group_count input)) in Hbound. unfold saturating_add64. cbn [from_option id]. lia. }
  rewrite Hall by done. rewrite list_lookup_fmap, lookup_seq_lt by lia. done.
Qed.

(** The rows of the chunk that starts at a row group. *)
Definition chunk_rows (input : Input) (size count first : nat) : list InputRow :=
  number_rows o input (Z.of_nat (length (cells_before input first)))
    (mjoin (group_cells input <$> seq first (Nat.min (first + size) count - first))).

(** The chunks between the steps are the rows of the file, numbered on. *)
Lemma step_by_rows input fuel start count size :
  0 < size → count - start ≤ fuel → start ≤ count →
  mjoin (chunk_rows input size count <$> step_by fuel start count size) =
    number_rows o input (Z.of_nat (length (cells_before input start)))
      (mjoin (group_cells input <$> seq start (count - start))).
Proof.
  intros Hsize. revert start. induction fuel as [|fuel IH]; intros start Hfuel Hstart; simpl.
  { by replace (count - start) with 0 by lia. }
  case_decide as Hlt; [|by replace (count - start) with 0 by lia]. rewrite fmap_cons, mjoin_cons.
  unfold chunk_rows at 1. destruct (decide (start + size ≤ count)) as [Hle|Hgt].
  - rewrite IH by lia. rewrite Nat.min_l by lia.
    pose proof (cells_between input start (start + size) ltac:(lia)) as Hcells.
    replace (start + size - start) with size in * by lia.
    rewrite Hcells, length_app, Nat2Z.inj_add, <- number_rows_app, <- join_app, <- fmap_app. do 3 f_equal.
    replace (count - start) with (size + (count - (start + size))) by lia. by rewrite seq_app.
  - rewrite Nat.min_r by lia.
    assert (step_by fuel (start + size) count size = []) as ->
      by (destruct fuel; simpl; [done|by rewrite decide_False by lia]).
    by rewrite app_nil_r.
Qed.

Lemma step_by_lt fuel start count size g : g ∈ step_by fuel start count size → g < count.
Proof.
  revert start. induction fuel as [|fuel IH]; intros start; simpl; [by intros ?%elem_of_nil|].
  case_decide; [|by intros ?%elem_of_nil]. intros [->|Hg]%elem_of_cons; [done|by eapply IH].
Qed.

Lemma row_groups_per_chunk_pos input : 0 < row_groups_per_chunk threads input.
Proof. unfold row_groups_per_chunk. lia. Qed.

Lemma file_chunks_ok input :
  (Z.of_nat (length (file_cells input)) < 2 ^ 64)%Z →
  let count := row_group_count input in
  let size := row_groups_per_chunk threads input in
  file_chunks threads input =
    Some ((λ first, (first, Nat.min (first + size) count, Z.of_nat (length (cells_before input first)))) <$>
            step_by count 0 count size).
Proof.
  intros Hbound count size. unfold file_chunks. fold count size. apply mapM_Some.
  rewrite Forall2_fmap_r. apply Forall_Forall2_diag, Forall_forall. intros first Hfirst%step_by_lt.
  by rewrite row_starts_lookup by (unfold count in *; done || lia).
Qed.

Lemma scan_file_ok input :
  reader_clean input → (Z.of_nat (length (file_cells input)) < 2 ^ 64)%Z →
  outcome_ok (file_rows input) (scan_file_to_shard threads o (λ _ _, false) input).
Proof.
  intros Hclean Hbound. unfold scan_file_to_shard. rewrite file_chunks_ok by done. cbv zeta.
  set (count := row_group_count input) in *. set (size := row_groups_per_chunk threads input).
  assert (Hrows : file_rows input = mjoin (chunk_rows input size count <$> step_by count 0 count size)).
  { rewrite step_by_rows by (apply row_groups_per_chunk_pos || lia). by rewrite Nat.sub_0_r. }
  rewrite Hrows. apply merge_shards_ordered_ok; [by rewrite ?length_map, ?length_fmap|].
  rewrite <- list_fmap_compose, Forall2_fmap. apply Forall_Forall2_diag, Forall_forall.
  intros first Hfirst%step_by_lt. simpl.
  assert (Hrange : first ≤ Nat.min (first + size) count ≤ count) by lia.
  apply scan_row_groups_ok; [done|done|lia|]. rewrite <- Nat2Z.inj_add, <- length_app, <- cells_between by lia.
  pose proof (cells_before_le input (Nat.min (first + size) count) count ltac:(lia)) as Hle.
  change (file_cells input) with (cells_before input count) in Hbound. lia.
Qed.

(** ** The whole load *)

Lemma finish_load_wp rows s :
  built_from rows s →
  wp (finish_load threads o) s
    (λ _ s', store_ok s' ∧ represents s' rows ∧ defer_metadata_sort s' = false ∧
       (load_token_uris o || load_image_uris o = true →
          postings_of s' true (token_uri_postings s') ∧ postings_of s' false (image_uri_postings s') ∧ postings_ok s'))
    (λ e _, e = InvalidInput "load" ∧ allowed_chains o ≠ ∅ ∧ ∀ k, rows_view rows k = Some None).
Proof.
  intros [Hok Hv _ _ _ _]. unfold finish_load. apply wp_bind.
  eapply wp_mono; [by apply finalize_metadata_anchors_wp| |done]. intros _ s1 (Hok1 & Hd1 & Hv1 & Hlen1).
  apply wp_bind, wp_gets.
  destruct (negb (bool_decide (allowed_chains o = ∅)) && bool_decide (contracts s1 = [])) eqn:Hnone.
  - apply andb_true_iff in Hnone as [Ha%negb_true_iff%bool_decide_eq_false Hc%bool_decide_eq_true].
    apply wp_fails. split; [done|]. split; [done|]. intros k. rewrite Hv, <- Hv1. f_equal.
    apply view_None; [done|]. intros i n Hn _.
    pose proof (nft_ok_contract _ _ _ _ (ok_nfts s1 Hok1 _ _ Hn)) as Hlt. rewrite Hc in Hlt. simpl in Hlt. lia.
  - assert (Hrep : represents s1 rows) by (intros k; by rewrite Hv, Hv1).
    destruct (load_token_uris o || load_image_uris o); [|by apply wp_ret].
    eapply wp_mono; [by apply rebuild_uri_postings_wp| |done].
    intros _ s2 (Hok2 & Hv2 & Hd2 & Hps). split; [done|]. split; [intros k; by rewrite Hrep, Hv2|]. by split; [congruence|].
Qed.
End LoadFacts.

(** ** Properties *)

Section Result.
Context `{JsonLibrary} `{UnstableSort} `{ParquetReader} `{!ReaderLaws} `{WriteSchedule (Z * Z * Z)}.

(** The rows of several files, in order. *)
Definition all_rows (o : LoadOptions) (inputs : list Input) : list InputRow := mjoin (file_rows o <$> inputs).

Definition loaded (o : LoadOptions) (rows : list InputRow) (s : EntityStore) : Prop :=
  store_ok s ∧ represents s rows ∧ defer_metadata_sort s = false ∧
  (load_token_uris o || load_image_uris o = true →
     postings_of s true (token_uri_postings s) ∧ postings_of s false (image_uri_postings s) ∧ postings_ok s).

(** A requested chain has no row. *)
Definition no_rows_of_chains (o : LoadOptions) (rows : list InputRow) : Prop :=
  allowed_chains o ≠ ∅ ∧ ∀ k, rows_view rows k = Some None.

End Result.

(** A file held in memory: row groups of rows of texts. *)
Definition group_batch (rows : list (list str)) : Batch :=
  {| num_rows := length rows; cast_column := λ col, Some (λ row, cells ← rows !! row; cells !! col) |}.

Definition memory_reader : ParquetReader := {|
  Input := Z * list (list (list str));
  file_ordinal_of := fst;
  row_group_count i := length i.2;
  row_group_rows i g := Z.of_nat (length (default [] (i.2 !! g)));
  open_row_groups i first last := inl (inl <$> map group_batch (take (last - first) (drop first i.2)))
|}.

Definition memory_cells (rows : list (list str)) : list (list (option (option str))) :=
  map (λ cells, map (λ col, Some (cells !! col)) (seq 0 required_columns)) rows.

Lemma group_batch_cells rows : batch_cells (group_batch rows) = memory_cells rows.
Proof.
  unfold batch_cells, memory_cells. apply list_eq. intros i. rewrite (list_lookup_fmap _ (seq _ _)), (list_lookup_fmap _ rows).
  cbn [num_rows group_batch]. destruct (rows !! i) as [cells|] eqn:E.
  - rewrite lookup_seq_lt by by eapply lookup_lt_Some. simpl. unfold batch_row. simpl. by rewrite E.
  - rewrite lookup_seq_ge by by apply lookup_ge_None. done.
Qed.

Definition memory_laws : @ReaderLaws memory_reader.
Proof.
  unshelve refine {| group_cells := (λ (i : Z * list (list (list str))) g, memory_cells (default [] (i.2 !! g)))
                       : @Input memory_reader → nat → _ |}.
  - intros i g. simpl. unfold memory_cells. by rewrite length_map.
  - intros [ord groups] first last bs Hr Heq. simpl in Hr, Heq. injection Heq as Heq.
    apply (inj (fmap inl)) in Heq. subst bs. change (map group_batch) with (fmap (M := list) group_batch). rewrite <- list_fmap_compose. f_equal.
    apply list_eq. intros g. rewrite !list_lookup_fmap. simpl.
    destruct (decide (g < last - first)).
    + rewrite lookup_take, lookup_drop, lookup_seq_lt by lia. rewrite decide_True by done. simpl.
      destruct (lookup_lt_is_Some_2 groups (first + g)) as [x Hx]; [lia|]. rewrite Hx. simpl. by rewrite group_batch_cells.
    + rewrite lookup_take_ge, lookup_seq_ge by lia. done.
Defined.

(** Two files; the row of another chain is filtered. *)
Definition example_files : list (Z * list (list (list str))) :=
  let row ch addr token name turi := [lit ch; lit addr; lit token; lit name; lit turi] in
  [(0%Z, [[row " Ethereum" "0xa" "1" "ape" ""]; [row "solana" "0xb" "1" "" ""; row "ethereum" "0xa" "2" "cat" ""]]);
   (1%Z, [[row "ethereum" "0xa" "1" "dog" "ipfs://1"]])].

Definition example_options : LoadOptions := LoadOptions_new {[lit "ethereum"]} ∅ (Some 10).

