(* ===== verification/Outcome.v ===== *)
(** Fallible code outside the entity store: sequencing of outcomes, parallel maps
    that collect them, and the cancellation checks of a phase. *)

From S2P Require Import Prelude Radix Text CanonicalJson Types Anchors Entity.

#[export] Instance outcome_ret : MRet outcome := @Returns.
#[export] Instance outcome_bind : MBind outcome := λ A B f m,
  match m with
  | Returns a => f a
  | Fails e => Fails e
  | Panics => Panics
  end.
#[export] Instance outcome_fmap : FMap outcome := λ A B f m, m ≫= λ a, Returns (f a).

(** A panic: an index out of range or a failed [expect]. *)
Definition or_panic {A} (x : option A) : outcome A :=
  match x with Some a => Returns a | None => Panics end.

Section Collect.
Context {A B : Type}.

(** The results in order, up to the first error: a loop that uses [?]. *)
Fixpoint sequence (l : list (outcome A)) : outcome (list A) :=
  match l with
  | [] => Returns []
  | x :: l => a ← x; rest ← sequence l; Returns (a :: rest)
  end.

Definition is_panic (x : outcome A) : bool := match x with Panics => true | _ => false end.

(** [par_iter().map(..).collect()] and then the loop: a panic of any task wins. *)
Definition collect (l : list (outcome A)) : outcome (list A) :=
  if existsb is_panic l then Panics else sequence l.

(** A sequential loop over a state. *)
Fixpoint fold_outcome (f : B → A → outcome B) (b : B) (l : list A) : outcome B :=
  match l with
  | [] => Returns b
  | x :: l => b ← f b x; fold_outcome f b l
  end.
End Collect.

(** The phases of the name stage that check for cancellation. *)
Inductive Phase :=
  | AtomizeCollect | AtomizeSortAssignments | AtomizeSelect | AtomizeMaterialize
  | AtomizeSortSelected | AtomizeGroup | Identical | BuildNameDocuments | SortNameTokens
  | EncodeNameDocuments | FillNamePostings | SortNamePostings | BuildNamePrefix | Emit | EmitHit
  | ScoreName (lane : nat).

(** What the progress observer answers: the [i]-th check of a phase finds the run
    cancelled. *)
Class Observer := check_cancelled_at : Phase → nat → bool.

Section Checks.
Context `{Observer}.

(** [progress.check_cancelled()?] *)
Definition check (p : Phase) (i : nat) : outcome () :=
  if check_cancelled_at p i then Fails Interrupted else Returns ().

(** The callback of the sorts: counts the passes and asks to go on. *)
Definition sort_callback (p : Phase) (passes : nat) : bool * nat :=
  (negb (check_cancelled_at p passes), S passes).

(** [if !sort_while(..) { return Err(Interrupted) }] *)
Definition sorted_or_interrupted {A} (r : option (bool * list A * nat)) : outcome (list A) :=
  '(finished, sorted, _) ← or_panic r;
  if finished : bool then Returns sorted else Fails Interrupted.

(** [flush_progress]: the count of completed work and of the checks made. *)
Definition PROGRESS_BATCH : Z := 4096.
Definition flush_progress (p : Phase) (completed : Z * nat) : outcome (Z * nat) :=
  if decide (PROGRESS_BATCH ≤ completed.1)%Z then check p completed.2;; Returns (0%Z, S completed.2)
  else Returns completed.
End Checks.

(** An observer that never cancels. *)
Definition never_cancelled : Observer := λ _ _, false.

(** ** Facts *)

Lemma sequence_Returns {A} (l : list A) : sequence (Returns <$> l) = Returns l.
Proof. induction l as [|x l IH]; [done|]. cbn. by rewrite IH. Qed.

Lemma collect_Returns {A} (l : list A) : collect (Returns <$> l) = Returns l.
Proof.
  unfold collect. rewrite sequence_Returns. assert (existsb is_panic (Returns <$> l) = false) as ->; [|done].
  by induction l.
Qed.

Lemma collect_map_Returns {A B} (f : A → outcome B) (g : A → B) (l : list A) :
  (∀ x, x ∈ l → f x = Returns (g x)) → collect (map f l) = Returns (map g l).
Proof.
  intros Hf. rewrite <- collect_Returns. f_equal. induction l as [|x l IH]; [done|]. cbn.
  rewrite Hf by by left. f_equal. apply IH. intros y Hy. apply Hf. by right.
Qed.

Lemma flush_progress_quiet p completed :
  ∃ completed', @flush_progress never_cancelled p completed = Returns completed'.
Proof. unfold flush_progress. case_decide; cbn; eauto. Qed.
