(* ===== verification/Float.v ===== *)
(** Double-precision numbers as exact rationals with correct rounding: the result
    of an operation is the rational result rounded to 53 significant bits, ties to
    even.  Only non-negative values occur; the exponent is not bounded, because
    every value of the code that uses this file is zero or far from the ends of the
    exponent range. *)

From Stdlib Require Import QArith Qround Qpower Lqa.
From S2P Require Import Prelude.

#[local] Open Scope Q_scope.

Abbreviation pow2 e := (Qpower (2 # 1) e) (only parsing).

(** ** Rounding *)

(** The integer nearest to [q], the even one of two. *)
Definition nearest_even (q : Q) : Z :=
  let f := Qfloor q in
  match Qcompare (q - inject_Z f) (1 # 2) with
  | Lt => f
  | Gt => (f + 1)%Z
  | Eq => if Z.even f then f else (f + 1)%Z
  end.

(** The exponent [e] with [2^e <= q < 2^(e+1)]. *)
Definition exponent (q : Q) : Z :=
  let e := (Z.log2 (Qnum q) - Z.log2 (Zpos (Qden q)))%Z in
  if Qle_bool (pow2 e) q then e else (e - 1)%Z.

Definition rnd (q : Q) : Q :=
  if Qle_bool q 0 then 0 else
  let e := (exponent q - 52)%Z in
  inject_Z (nearest_even (q / pow2 e)) * pow2 e.

(** ** Operations *)

Definition of_nat (n : nat) : Q := rnd (inject_Z (Z.of_nat n)).
Definition fadd (a b : Q) : Q := rnd (a + b).
Definition fsub (a b : Q) : Q := rnd (a - b).
Definition fmul (a b : Q) : Q := rnd (a * b).
Definition fdiv (a b : Q) : Q := rnd (a / b).
(** A decimal literal. *)
Definition literal (q : Q) : Q := rnd q.
Definition fltb (a b : Q) : bool := negb (Qle_bool b a).
Definition fmin (a b : Q) : Q := if Qle_bool a b then a else b.

(** ** Signed double precision *)

(** Rounding by symmetry for all numbers. *)
Definition srnd (q : Q) : Q := if Qle_bool 0 q then rnd q else Qopp (rnd (Qopp q)).

(** [value as f64] for an integer. *)
Definition f64_of_Z (z : Z) : Q := srnd (inject_Z z).
Definition f64_div (a b : Q) : Q := srnd (a / b).
Definition f64_mul (a b : Q) : Q := srnd (a * b).
Definition f64_sub (a b : Q) : Q := srnd (a - b).
Definition f64_add (a b : Q) : Q := srnd (a + b).
Definition f64_lt (a b : Q) : bool := negb (Qle_bool b a).

(** A number that may be special. *)
Inductive f64 :=
  | F64 (q : Q)
  | Infinity
  | NegInfinity
  | NaN.

(** ** Rounding to the nearest integer *)

Lemma inject_Z_lt a b : (a < b)%Z → inject_Z a < inject_Z b.
Proof. by rewrite Zlt_Qlt. Qed.
Lemma inject_Z_le a b : (a <= b)%Z → inject_Z a <= inject_Z b.
Proof. by rewrite Zle_Qle. Qed.
Lemma inject_Z_lt_inv a b : inject_Z a < inject_Z b → (a < b)%Z.
Proof. by rewrite Zlt_Qlt. Qed.

Lemma inject_Z_succ a : inject_Z (a + 1) == inject_Z a + 1.
Proof. by rewrite inject_Z_plus. Qed.

Lemma nearest_even_close q :
  inject_Z (nearest_even q) - (1 # 2) <= q /\ q <= inject_Z (nearest_even q) + (1 # 2).
Proof.
  unfold nearest_even. pose proof (Qfloor_le q). pose proof (Qlt_floor q) as Hlt.
  rewrite inject_Z_succ in Hlt.
  destruct (Qcompare_spec (q - inject_Z (Qfloor q)) (1 # 2)) as [He|Hl|Hg].
  - destruct (Z.even _); rewrite ?inject_Z_succ; lra.
  - lra.
  - rewrite inject_Z_succ. lra.
Qed.

Lemma nearest_even_Z z : nearest_even (inject_Z z) = z.
Proof.
  pose proof (nearest_even_close (inject_Z z)) as [H1 H2].
  assert (inject_Z (nearest_even (inject_Z z)) < inject_Z (z + 1)) as Ha%inject_Z_lt_inv by (rewrite inject_Z_succ; lra).
  assert (inject_Z (z - 1) < inject_Z (nearest_even (inject_Z z))) as Hb%inject_Z_lt_inv.
  { replace z with (z - 1 + 1)%Z in H2 at 1 by lia. rewrite inject_Z_succ in H2. lra. }
  lia.
Qed.

#[export] Instance nearest_even_proper : Proper (Qeq ==> eq) nearest_even.
Proof. intros x y Hxy. unfold nearest_even. rewrite (Qfloor_comp _ _ Hxy). by rewrite Hxy. Qed.

Lemma nearest_even_mono x y : x <= y → (nearest_even x <= nearest_even y)%Z.
Proof.
  intros Hle. destruct (Qle_lt_or_eq _ _ Hle) as [Hlt|Heq]; [|by rewrite Heq].
  destruct (Z.le_gt_cases (nearest_even x) (nearest_even y)) as [?|Hgt]; [done|].
  pose proof (nearest_even_close x). pose proof (nearest_even_close y).
  assert (inject_Z (nearest_even y + 1) <= inject_Z (nearest_even x)) as Hc by (apply inject_Z_le; lia).
  rewrite inject_Z_succ in Hc. lra.
Qed.

(** ** The exponent *)

Lemma pow2_pos e : 0 < pow2 e.
Proof. by apply Qpower_0_lt. Qed.
#[export] Hint Resolve pow2_pos : nft.

Lemma pow2_add a b : pow2 (a + b) == pow2 a * pow2 b.
Proof. by apply Qpower_plus. Qed.

Lemma pow2_succ e : pow2 (e + 1) == 2 * pow2 e.
Proof. rewrite pow2_add. change (Qpower (2 # 1) 1) with (2 # 1). lra. Qed.

Lemma pow2_mono a b : (a <= b)%Z → pow2 a <= pow2 b.
Proof. intros. by apply Qpower_le_compat_l. Qed.

Lemma pow2_inject n : (0 <= n)%Z → pow2 n == inject_Z (2 ^ n).
Proof. intros Hn. by rewrite Zpower_Qpower. Qed.

Lemma pow2_lt_inv a b : pow2 a < pow2 b → (a < b)%Z.
Proof. intros Hlt. by apply (Qpower_lt_compat_l_inv (2 # 1)). Qed.

Lemma exponent_spec q : 0 < q → pow2 (exponent q) <= q /\ q < pow2 (exponent q + 1).
Proof.
  intros Hq. unfold exponent. set (ln := Z.log2 (Qnum q)). set (ld := Z.log2 (Zpos (Qden q))).
  assert (Hn : (0 < Qnum q)%Z) by (unfold Qlt in Hq; simpl in Hq; lia).
  pose proof (Z.log2_spec _ Hn) as [Hn1 Hn2]. fold ln in Hn1, Hn2.
  pose proof (Z.log2_spec (Zpos (Qden q)) ltac:(lia)) as [Hd1 Hd2]. fold ld in Hd1, Hd2.
  pose proof (Z.log2_nonneg (Qnum q)). pose proof (Z.log2_nonneg (Zpos (Qden q))).
  assert (Hmul : q * inject_Z (Zpos (Qden q)) == inject_Z (Qnum q)).
  { unfold Qeq, inject_Z. simpl. lia. }
  apply inject_Z_le in Hn1, Hd1. apply inject_Z_lt in Hn2, Hd2.
  rewrite <- !Z.add_1_r in *. rewrite <- pow2_inject in Hn1, Hn2, Hd1, Hd2 by lia.
  assert (Hup : q < pow2 (ln - ld + 1)).
  { apply Qnot_le_lt. intros Hge. assert (pow2 (ln + 1) == pow2 (ln - ld + 1) * pow2 ld) as Heq
      by (rewrite <- pow2_add; f_equiv; lia). pose proof (pow2_pos ld). nra. }
  assert (Hlo : pow2 (ln - ld - 1) < q).
  { apply Qnot_le_lt. intros Hge. assert (pow2 ln == pow2 (ln - ld - 1) * pow2 (ld + 1)) as Heq
      by (rewrite <- pow2_add; f_equiv; lia). pose proof (pow2_pos ld). nra. }
  destruct (Qle_bool (pow2 (ln - ld)) q) eqn:E.
  - apply Qle_bool_iff in E. done.
  - replace (ln - ld - 1 + 1)%Z with (ln - ld)%Z by lia. split; [lra|].
    apply Qnot_le_lt. intros ?%Qle_bool_iff. congruence.
Qed.

(** ** Rounding to 53 bits *)

Lemma rnd_pos q : 0 < q →
  rnd q = inject_Z (nearest_even (q / pow2 (exponent q - 52))) * pow2 (exponent q - 52).
Proof.
  intros Hq. unfold rnd. destruct (Qle_bool q 0) eqn:E; [|done]. apply Qle_bool_iff in E. lra.
Qed.

Lemma rnd_nonpos q : q <= 0 → rnd q = 0.
Proof. intros Hq. unfold rnd. by rewrite (proj2 (Qle_bool_iff q 0) Hq). Qed.

(** The significand of a positive number. *)
Lemma significand_spec q : 0 < q →
  let u := pow2 (exponent q - 52) in
  q == q / u * u /\ inject_Z (2 ^ 52) <= q / u /\ q / u < inject_Z (2 ^ 53).
Proof.
  intros Hq u. destruct (exponent_spec q Hq) as [Hlo Hup]. pose proof (pow2_pos (exponent q - 52)) as Hu.
  fold u in Hu. assert (Hqu : q == q / u * u) by (field; lra). split; [done|].
  assert (pow2 (exponent q) == inject_Z (2 ^ 52) * u) as Hlo'
    by (unfold u; rewrite <- pow2_inject, <- pow2_add by lia; f_equiv; lia).
  assert (pow2 (exponent q + 1) == inject_Z (2 ^ 53) * u) as Hup'
    by (unfold u; rewrite <- pow2_inject, <- pow2_add by lia; f_equiv; lia).
  rewrite Hlo' in Hlo. rewrite Hup' in Hup. set (s := q / u) in *. clearbody s u. nra.
Qed.

Lemma rnd_binade q : 0 < q → pow2 (exponent q) <= rnd q /\ rnd q <= pow2 (exponent q + 1).
Proof.
  intros Hq. rewrite rnd_pos by done. destruct (significand_spec q Hq) as (_ & Hlo & Hup).
  set (u := pow2 (exponent q - 52)) in *. pose proof (pow2_pos (exponent q - 52)) as Hu. fold u in Hu.
  pose proof (nearest_even_mono _ _ Hlo) as Hl. rewrite nearest_even_Z in Hl.
  assert (q / u <= inject_Z (2 ^ 53)) as Hup2 by lra. apply nearest_even_mono in Hup2. rewrite nearest_even_Z in Hup2.
  apply inject_Z_le in Hl, Hup2.
  assert (pow2 (exponent q) == inject_Z (2 ^ 52) * u) as ->
    by (unfold u; rewrite <- pow2_inject, <- pow2_add by lia; f_equiv; lia).
  assert (pow2 (exponent q + 1) == inject_Z (2 ^ 53) * u) as ->
    by (unfold u; rewrite <- pow2_inject, <- pow2_add by lia; f_equiv; lia).
  split; apply Qmult_le_compat_r; lra.
Qed.

Lemma rnd_nonneg q : 0 <= rnd q.
Proof.
  destruct (Qlt_le_dec 0 q) as [Hq|Hq]; [|by rewrite rnd_nonpos].
  pose proof (rnd_binade q Hq) as [Hlo _]. pose proof (pow2_pos (exponent q)). lra.
Qed.

Lemma rnd_mono x y : x <= y → rnd x <= rnd y.
Proof.
  intros Hle. destruct (Qlt_le_dec 0 x) as [Hx|Hx]; [|rewrite rnd_nonpos by done; apply rnd_nonneg].
  assert (Hy : 0 < y) by lra. destruct (exponent_spec x Hx), (exponent_spec y Hy).
  assert (Hexp : (exponent x < exponent y + 1)%Z) by (apply pow2_lt_inv; lra).
  destruct (decide (exponent x = exponent y)) as [Heq|Hne].
  - rewrite !rnd_pos by done. rewrite Heq. pose proof (pow2_pos (exponent y - 52)).
    apply Qmult_le_compat_r; [|lra]. apply inject_Z_le, nearest_even_mono.
    apply Qmult_le_compat_r; [done|]. apply Qlt_le_weak, Qinv_lt_0_compat. done.
  - pose proof (rnd_binade x Hx) as [_ ?]. pose proof (rnd_binade y Hy) as [? _].
    pose proof (pow2_mono (exponent x + 1) (exponent y) ltac:(lia)). lra.
Qed.

#[export] Instance rnd_proper : Proper (Qeq ==> Qeq) rnd.
Proof. intros x y Hxy. apply Qle_antisym; apply rnd_mono; lra. Qed.

(** Numbers of at most 53 bits are not rounded. *)
Lemma rnd_exact m e : (0 <= m <= 2 ^ 53)%Z → rnd (inject_Z m * pow2 e) == inject_Z m * pow2 e.
Proof.
  assert (Hsmall : ∀ m e, (0 < m < 2 ^ 53)%Z → rnd (inject_Z m * pow2 e) == inject_Z m * pow2 e).
  { clear. intros m e Hm. pose proof (pow2_pos e). assert (inject_Z 0 < inject_Z m) as Hm0 by (apply inject_Z_lt; lia).
    change (inject_Z 0) with 0 in Hm0. assert (Hq : 0 < inject_Z m * pow2 e) by nra.
    set (q := inject_Z m * pow2 e) in *. rewrite rnd_pos by done.
    destruct (exponent_spec q Hq) as [Hlo _].
    assert (Hexp : (exponent q < e + 53)%Z).
    { apply pow2_lt_inv. eapply Qle_lt_trans; [exact Hlo|]. rewrite Z.add_comm, pow2_add, (pow2_inject 53) by lia.
      apply Qmult_lt_r; [done|]. apply inject_Z_lt. lia. }
    set (d := (e - (exponent q - 52))%Z). assert (Hd : (0 <= d)%Z) by (unfold d; lia).
    assert (Heq : q / pow2 (exponent q - 52) == inject_Z (m * 2 ^ d)).
    { rewrite inject_Z_mult, <- pow2_inject by done. unfold q at 1.
      pose proof (pow2_pos (exponent q - 52)).
      assert (pow2 e == pow2 d * pow2 (exponent q - 52)) as -> by (rewrite <- pow2_add; f_equiv; unfold d; lia).
      field. lra. }
    rewrite Heq, nearest_even_Z, <- Heq. pose proof (pow2_pos (exponent q - 52)). field. lra. }
  intros Hm. destruct (decide (m = 0)%Z) as [->|]; [reflexivity|].
  destruct (decide (m = 2 ^ 53)%Z) as [->|]; [|apply Hsmall; lia].
  assert (Heq : inject_Z (2 ^ 53) * pow2 e == inject_Z (2 ^ 52) * pow2 (e + 1)).
  { rewrite pow2_succ. change (inject_Z (2 ^ 53)) with (2 * inject_Z (2 ^ 52)). ring. }
  rewrite Heq. apply Hsmall. lia.
Qed.

(** The rounded numbers. *)
Definition is_float (q : Q) : Prop := ∃ m e, (0 <= m <= 2 ^ 53)%Z ∧ q == inject_Z m * pow2 e.

Lemma rnd_float q : is_float (rnd q).
Proof.
  destruct (Qlt_le_dec 0 q) as [Hq|Hq].
  - rewrite rnd_pos by done. eexists _, _. split; [|reflexivity].
    destruct (significand_spec q Hq) as (_ & Hlo & Hup).
    pose proof (nearest_even_mono _ _ Hlo) as Hl. rewrite nearest_even_Z in Hl.
    assert (q / pow2 (exponent q - 52) <= inject_Z (2 ^ 53)) as Hup2 by lra.
    apply nearest_even_mono in Hup2. rewrite nearest_even_Z in Hup2. lia.
  - rewrite rnd_nonpos by done. exists 0%Z, 0%Z. done.
Qed.

Lemma rnd_id q : is_float q → rnd q == q.
Proof. intros (m & e & Hm & ->). by apply rnd_exact. Qed.

(** The relative error is at most one unit in the 53rd place. *)
Lemma rnd_error q : 0 <= q → q - q * pow2 (-53) <= rnd q /\ rnd q <= q + q * pow2 (-53).
Proof.
  intros Hle. destruct (Qle_lt_or_eq _ _ Hle) as [Hq|Hq].
  - rewrite rnd_pos by done. destruct (significand_spec q Hq) as (Hs & _).
    destruct (exponent_spec q Hq) as [Hlo _]. pose proof (nearest_even_close (q / pow2 (exponent q - 52))) as [H1 H2].
    assert (Hhalf : pow2 (exponent q - 52) * (1 # 2) == pow2 (exponent q) * pow2 (-53)).
    { rewrite <- pow2_add. replace (exponent q - 52)%Z with (exponent q + -53 + 1)%Z by lia. rewrite pow2_succ. lra. }
    pose proof (pow2_pos (exponent q - 52)) as Hu. pose proof (pow2_pos (-53)) as Heps.
    set (u := pow2 (exponent q - 52)) in *. set (ne := inject_Z (nearest_even (q / u))) in *. set (s := q / u) in *.
    set (eps := pow2 (-53)) in *. set (b := pow2 (exponent q)) in *. clearbody u ne s eps b.
    assert (b * eps <= q * eps) by (apply Qmult_le_compat_r; lra). split; nra.
  - rewrite <- Hq. rewrite rnd_nonpos by lra. lra.
Qed.

Lemma rnd_gt0 q : 0 < q → 0 < rnd q.
Proof. intros Hq. destruct (rnd_binade q Hq) as [? _]. pose proof (pow2_pos (exponent q)). lra. Qed.

Lemma is_float_Z z : (0 <= z <= 2 ^ 53)%Z → is_float (inject_Z z).
Proof. intros Hz. exists z, 0%Z. split; [done|]. change (pow2 0) with 1. ring. Qed.

Lemma rnd_le_Z q z : (0 <= z <= 2 ^ 53)%Z → q <= inject_Z z → rnd q <= inject_Z z.
Proof. intros Hz Hq. rewrite <- (rnd_id (inject_Z z)) by by apply is_float_Z. by apply rnd_mono. Qed.

Lemma rnd_ge_Z q z : (0 <= z <= 2 ^ 53)%Z → inject_Z z <= q → inject_Z z <= rnd q.
Proof. intros Hz Hq. rewrite <- (rnd_id (inject_Z z)) by by apply is_float_Z. by apply rnd_mono. Qed.

(** ** Monotonicity of the operations *)

Lemma of_nat_mono a b : (a ≤ b)%nat → of_nat a <= of_nat b.
Proof. intros. apply rnd_mono, inject_Z_le. lia. Qed.

Lemma of_nat_pos n : (0 < n)%nat → 1 <= of_nat n.
Proof. intros. apply (rnd_ge_Z _ 1); [lia|]. apply inject_Z_le. lia. Qed.

Lemma of_nat_nonneg n : 0 <= of_nat n.
Proof. apply rnd_nonneg. Qed.

Lemma fadd_mono a a' b b' : a <= a' → b <= b' → fadd a b <= fadd a' b'.
Proof. intros. apply rnd_mono. lra. Qed.

Lemma fmul_mono a a' b b' : 0 <= a → 0 <= b → a <= a' → b <= b' → fmul a b <= fmul a' b'.
Proof. intros. apply rnd_mono. nra. Qed.

Lemma div_mono a a' b b' : 0 <= a → a <= a' → 0 < b' → b' <= b → a / b <= a' / b'.
Proof.
  intros. apply Qle_shift_div_l; [done|]. assert (Hb : 0 < b) by lra.
  assert (a / b * b == a) as Ha by (field; lra).
  assert (0 <= a / b) by (apply Qle_shift_div_l; lra). set (x := a / b) in *. clearbody x. nra.
Qed.

Lemma fdiv_mono a a' b b' : 0 <= a → a <= a' → 0 < b' → b' <= b → fdiv a b <= fdiv a' b'.
Proof. intros. by apply rnd_mono, div_mono. Qed.

Lemma fmin_mono a a' b b' : a <= a' → b <= b' → fmin a b <= fmin a' b'.
Proof.
  intros. unfold fmin. destruct (Qle_bool a b) eqn:E, (Qle_bool a' b') eqn:E'; try lra.
  - apply Qle_bool_iff in E. lra.
  - assert (¬ a <= b) by (intros ?%Qle_bool_iff; congruence). lra.
Qed.

Lemma fltb_true a b : fltb a b = true ↔ a < b.
Proof.
  unfold fltb. rewrite negb_true_iff. split.
  - intros E. apply Qnot_le_lt. intros ?%Qle_bool_iff. congruence.
  - intros Hlt. apply not_true_iff_false. intros ?%Qle_bool_iff. lra.
Qed.

(** *** Numbers from a half to one *)

Lemma is_float_half j : is_float j → 1 # 2 <= j → ∃ k, j == inject_Z k * pow2 (-53).
Proof.
  intros (m & e & Hm & Hj) Hhalf. destruct (decide (-53 <= e)%Z) as [He|He].
  - exists (m * 2 ^ (e + 53))%Z. rewrite Hj, inject_Z_mult, <- pow2_inject by lia.
    rewrite <- Qmult_assoc, <- pow2_add. f_equiv. f_equiv. lia.
  - exists (2 ^ 52)%Z. rewrite <- pow2_inject, <- pow2_add by lia. change (pow2 (52 + -53)) with (1 # 2).
    apply Qle_antisym; [|done]. rewrite Hj.
    pose proof (pow2_mono e (-54) ltac:(lia)) as Hp. pose proof (pow2_pos e).
    assert (inject_Z m <= inject_Z (2 ^ 53)) as Hm53 by (apply inject_Z_le; lia).
    assert (inject_Z (2 ^ 53) * pow2 (-54) == 1 # 2) as Hh by reflexivity.
    assert (inject_Z 0 <= inject_Z m) by (apply inject_Z_le; lia).
    rewrite <- Hh. set (x := inject_Z m) in *. set (y := inject_Z (2 ^ 53)) in *. set (p := pow2 e) in *.
    set (q := pow2 (-54)) in *. change (inject_Z 0) with 0 in *. clearbody x p. clear Hh Hj Hhalf.
    apply Qle_trans with (y * p); [by apply Qmult_le_compat_r; lra|].
    rewrite !(Qmult_comm y). apply Qmult_le_compat_r; [done|]. unfold y. discriminate.
Qed.

(** [1.0 - j] is exact, and different numbers are far apart. *)
Lemma fsub_one_exact j : is_float j → 1 # 2 <= j → j <= 1 → fsub 1 j == 1 - j.
Proof.
  intros Hf Hh Hj. destruct (is_float_half j Hf Hh) as [k Hk]. apply rnd_id.
  assert (Heq : 1 - j == inject_Z (2 ^ 53 - k) * pow2 (-53)).
  { rewrite Hk. unfold Z.sub. rewrite inject_Z_plus, inject_Z_opp.
    assert (inject_Z (2 ^ 53) * pow2 (-53) == 1) as H1 by reflexivity. rewrite Qmult_plus_distr_l, H1. ring. }
  exists (2 ^ 53 - k)%Z, (-53)%Z. split; [|done]. pose proof (pow2_pos (-53)) as Hp.
  assert (Hk1 : inject_Z (k - 1) < inject_Z (2 ^ 53)).
  { apply Qnot_le_lt. intros Hge. assert (inject_Z k * pow2 (-53) > 1) as Hgt; [|lra].
    assert (inject_Z (2 ^ 53) * pow2 (-53) == 1) as H1 by reflexivity. rewrite <- H1.
    apply Qmult_lt_r; [done|]. apply Qle_lt_trans with (inject_Z (k - 1)); [done|]. apply inject_Z_lt. lia. }
  apply inject_Z_lt_inv in Hk1.
  assert (Hk0 : inject_Z 0 < inject_Z k).
  { apply Qnot_le_lt. intros Hle. change (inject_Z 0) with 0 in Hle.
    assert (inject_Z k * pow2 (-53) <= 0) as Hn by nra. lra. }
  apply inject_Z_lt_inv in Hk0. lia.
Qed.

Lemma is_float_gap i j : is_float i → is_float j → 1 # 2 <= i → i < j → i + pow2 (-53) <= j.
Proof.
  intros Hi Hj Hh Hlt. destruct (is_float_half i Hi Hh) as [k Hk], (is_float_half j Hj ltac:(lra)) as [l Hl].
  rewrite Hk, Hl in Hlt. apply Qmult_lt_r in Hlt; [|apply pow2_pos]. apply inject_Z_lt_inv in Hlt.
  assert (inject_Z (k + 1) <= inject_Z l) as Hkl by (apply inject_Z_le; lia). rewrite inject_Z_succ in Hkl.
  rewrite Hk, Hl. pose proof (pow2_pos (-53)). set (e := pow2 (-53)) in *. clearbody e. nra.
Qed.
