(* ===== verification/NameBounds.v ===== *)
(** Optimistic bounds of the name verifier
    ([dedup/crates/core/src/name/candidate_bounds.rs]): how many characters two names
    must share, and how far their lengths may differ, for a Jaro-Winkler score to
    reach a threshold; computed in double precision. *)

From Stdlib Require Import QArith Lqa.
From S2P Require Import Prelude Float.

#[local] Open Scope Q_scope.
#[local] Arguments Nat.min : simpl never.
#[local] Opaque rnd.

Definition ROUNDING_EPSILON : Q := literal (1 # 10 ^ 12).

Definition reaches_threshold (upper_bound : Q) (threshold_pct : f64) : bool :=
  match threshold_pct with
  | F64 t => Qle_bool t upper_bound || Qle_bool (fsub t upper_bound) ROUNDING_EPSILON
  | NegInfinity => true
  | Infinity | NaN => false
  end.

(** [overlap.min(left_len).min(right_len)] characters match, none is transposed. *)
Definition optimistic_from_overlap (left_len right_len overlap : nat) : Q :=
  if bool_decide (left_len = 0%nat) || bool_decide (right_len = 0%nat) || bool_decide (overlap = 0%nat) then 0 else
  let overlap := of_nat (Nat.min (Nat.min overlap left_len) right_len) in
  let jaro := fdiv (fadd (fadd (fdiv overlap (of_nat left_len)) (fdiv overlap (of_nat right_len))) 1) 3 in
  let prefix := fmin overlap (of_nat (Nat.min (Nat.min left_len right_len) 4)) in
  let similarity := if fltb (literal (7 # 10)) jaro
                    then fadd jaro (fmul (fmul (literal (1 # 10)) prefix) (fsub 1 jaro)) else jaro in
  fmul (fmin similarity 1) 100.

Definition upper_bound_from_lengths (left_len right_len : nat) : Q :=
  if bool_decide (left_len = 0%nat) || bool_decide (right_len = 0%nat)
  then (if bool_decide (left_len = right_len) then 100 else 0) else
  let shorter := of_nat (Nat.min left_len right_len) in
  let longer := of_nat (Nat.max left_len right_len) in
  let max_jaro := fdiv (fadd (fadd 1 (fdiv shorter longer)) 1) 3 in
  let max_prefix := of_nat (Nat.min (Nat.min left_len right_len) 4) in
  fmul (fmin (fadd max_jaro (fmul (fmul (literal (1 # 10)) max_prefix) (fsub 1 max_jaro))) 1) 100.

Definition lengths_can_reach (left_len right_len : nat) (threshold_pct : f64) : bool :=
  reaches_threshold (upper_bound_from_lengths left_len right_len) threshold_pct.

(** The [while low < high] loop; [fuel] bounds its rounds, and [high - low] is
    enough. *)
Fixpoint overlap_search (reaches : nat → bool) (fuel low high : nat) : nat :=
  match fuel with
  | O => low
  | S fuel =>
      if decide (low < high)%nat then
        let middle := (low + (high - low) / 2)%nat in
        if reaches middle then overlap_search reaches fuel low middle
        else overlap_search reaches fuel (S middle) high
      else low
  end.

Definition minimum_multiset_overlap (left_len right_len : nat) (threshold_pct : f64) : nat :=
  if bool_decide (left_len = 0%nat) && bool_decide (right_len = 0%nat) then 0%nat else
  let max_overlap := Nat.min left_len right_len in
  if match threshold_pct with NaN | Infinity => true | F64 t => fltb 100 t | NegInfinity => false end
  then S max_overlap else
  if match threshold_pct with F64 t => Qle_bool t 0 | _ => true end then 0%nat else
  overlap_search
    (λ middle, reaches_threshold (optimistic_from_overlap left_len right_len middle) threshold_pct)
    (S max_overlap) 0%nat (S max_overlap).

(** ** The search *)

(** Whatever the test, the search ends between a failing and a passing point. *)
Lemma overlap_search_ends reaches fuel low high :
  (high - low ≤ fuel)%nat → (low ≤ high)%nat →
  let k := overlap_search reaches fuel low high in
  (low ≤ k ≤ high)%nat ∧ (k = high ∨ reaches k = true) ∧ (k = low ∨ ∃ j, k = S j ∧ reaches j = false).
Proof.
  revert low high. induction fuel as [|fuel IH]; intros low high Hfuel Hle; cbn [overlap_search].
  { split; [lia|]. split; left; lia. }
  destruct (decide (low < high)%nat) as [Hlt|Hge]; [|split; [lia|split; left; lia]]. cbv zeta.
  pose proof (Nat.Div0.div_lt_upper_bound (high - low) 2 (high - low) ltac:(lia)) as Hhalf.
  set (middle := (low + (high - low) / 2)%nat) in *.
  destruct (reaches middle) eqn:E.
  - destruct (IH low middle ltac:(lia) ltac:(lia)) as (Hr & [->|Hh] & Hl); (split; [lia|]); (split; [|done]); by right.
  - destruct (IH (S middle) high ltac:(lia) ltac:(lia)) as (Hr & Hh & Hl). split; [lia|]. split; [done|].
    right. destruct Hl as [->|?]; [by exists middle|done].
Qed.

(** ** The score *)

Definition jaro (m l r : Q) (t : Q) : Q := fdiv (fadd (fadd (fdiv m l) (fdiv m r)) t) 3.
Definition boosted (c j : Q) : Q := fadd j (fmul c (fsub 1 j)).
Definition winkler (c j : Q) : Q := if fltb (literal (7 # 10)) j then boosted c j else j.
Definition prefix_weight (p : Q) : Q := fmul (literal (1 # 10)) p.

(** Jaro-Winkler: [m] characters match, [t] of them are transposed, the first [p]
    are equal. *)
Definition similarity (left_len right_len m t p : nat) : Q :=
  if decide (m = 0%nat) then 0 else
  fmin (winkler (prefix_weight (of_nat p))
    (jaro (of_nat m) (of_nat left_len) (of_nat right_len) (fdiv (of_nat (m - t)) (of_nat m)))) 1.

(** In percent. *)
Definition jaro_winkler (left_len right_len m t p : nat) : Q := fmul (similarity left_len right_len m t p) 100.

Lemma boosted_mono c c' j j' :
  0 <= c → c <= c' → c' <= 1 # 2 → is_float j → is_float j' → 1 # 2 <= j → j <= j' → j' <= 1 →
  boosted c j <= boosted c' j'.
Proof.
  intros Hc0 Hc Hc' Hf Hf' Hhalf Hj Hj'. unfold boosted.
  destruct (Qle_lt_or_eq _ _ Hj) as [Hlt|Heq].
  - pose proof (is_float_gap j j' Hf Hf' Hhalf Hlt) as Hgap.
    pose proof (fsub_one_exact j Hf Hhalf ltac:(lra)) as H1. pose proof (fsub_one_exact j' Hf' ltac:(lra) Hj') as H1'.
    apply rnd_mono. set (d := fsub 1 j) in *. set (d' := fsub 1 j') in *.
    pose proof (rnd_error (c * d) ltac:(nra)) as [_ Hup]. pose proof (rnd_error (c' * d') ltac:(nra)) as [Hlo _].
    fold (fmul c d) in Hup. fold (fmul c' d') in Hlo.
    set (eps := pow2 (-53)) in *. assert (0 < eps) by apply pow2_pos. clearbody d d' eps. 
    assert (c * d <= 1 # 4) by nra. assert (c' * d' <= 1 # 4) by nra.
    assert (c * d * eps <= (1 # 4) * eps) by (apply Qmult_le_compat_r; lra).
    assert (c' * d' * eps <= (1 # 4) * eps) by (apply Qmult_le_compat_r; lra).
    assert (c * d - c' * d' <= (1 # 2) * (j' - j)) by nra. lra.
  - apply fadd_mono; [lra|]. apply fmul_mono; [done|apply rnd_nonneg|done|]. apply rnd_mono. lra.
Qed.

Lemma boosted_ge c j : 0 <= c → is_float j → j <= boosted c j.
Proof.
  intros Hc Hf. unfold boosted, fadd. rewrite <- (rnd_id j Hf) at 1. apply rnd_mono.
  assert (0 <= fmul c (fsub 1 j)) by apply rnd_nonneg. lra.
Qed.

Lemma winkler_mono c c' j j' :
  0 <= c → c <= c' → c' <= 1 # 2 → is_float j → is_float j' → j <= j' → j' <= 1 → winkler c j <= winkler c' j'.
Proof.
  intros Hc0 Hc Hc' Hf Hf' Hj Hj'. unfold winkler. assert (H7 : 1 # 2 <= literal (7 # 10)) by (vm_compute; discriminate).
  destruct (fltb (literal (7 # 10)) j) eqn:E, (fltb (literal (7 # 10)) j') eqn:E'.
  - apply fltb_true in E. apply boosted_mono; (done || lra).
  - apply fltb_true in E. assert (fltb (literal (7 # 10)) j' = true) by (apply fltb_true; lra). congruence.
  - apply Qle_trans with j'; [done|]. apply boosted_ge; (done || lra).
  - done.
Qed.

Lemma jaro_mono m m' l l' r r' t t' :
  0 <= m → m <= m' → 0 < l' → l' <= l → 0 < r' → r' <= r → t <= t' → jaro m l r t <= jaro m' l' r' t'.
Proof.
  intros. unfold jaro. apply fdiv_mono; [apply rnd_nonneg| |done|lra].
  apply fadd_mono; [|done]. apply fadd_mono; by apply fdiv_mono.
Qed.

Lemma jaro_float m l r t : is_float (jaro m l r t).
Proof. apply rnd_float. Qed.

Lemma fdiv_le_1 a b : 0 < b → a <= b → fdiv a b <= 1.
Proof. intros Hb Ha. apply (rnd_le_Z _ 1); [lia|]. apply Qle_shift_div_r; [done|]. change (inject_Z 1) with 1. lra. Qed.

Lemma jaro_le_1 m l r t : 0 < l → m <= l → 0 < r → m <= r → t <= 1 → jaro m l r t <= 1.
Proof.
  intros Hl Hml Hr Hmr Ht. unfold jaro. apply fdiv_le_1; [done|].
  pose proof (fdiv_le_1 m l Hl Hml). pose proof (fdiv_le_1 m r Hr Hmr).
  apply (rnd_le_Z _ 3); [lia|]. change (inject_Z 3) with 3.
  assert (fadd (fdiv m l) (fdiv m r) <= 2) by (apply (rnd_le_Z _ 2); [lia|]; change (inject_Z 2) with 2; lra). lra.
Qed.

Lemma prefix_weight_mono p p' : 0 <= p → p <= p' → prefix_weight p <= prefix_weight p'.
Proof. intros H0 Hp. apply fmul_mono; [apply rnd_nonneg|done|apply Qle_refl|done]. Qed.

Lemma prefix_weight_bounds p : 0 <= p → p <= 4 → 0 <= prefix_weight p /\ prefix_weight p <= 1 # 2.
Proof.
  intros H0 H4. split; [apply rnd_nonneg|].
  apply Qle_trans with (prefix_weight 4); [by apply prefix_weight_mono|]. vm_compute. discriminate.
Qed.

(** ** Monotonicity of the bounds *)

Definition percent (s : Q) : Q := fmul (fmin s 1) 100.

Lemma percent_mono s s' : 0 <= s → s <= s' → percent s <= percent s'.
Proof.
  intros H0 Hs. apply fmul_mono; [|discriminate|by apply fmin_mono; [|apply Qle_refl]|apply Qle_refl].
  unfold fmin. destruct (Qle_bool s 1); [done|discriminate].
Qed.

Lemma reaches_threshold_mono u u' t : u <= u' → reaches_threshold u t = true → reaches_threshold u' t = true.
Proof.
  intros Hu. destruct t as [t| | |]; simpl; [|done..]. rewrite !orb_true_iff, !Qle_bool_iff.
  intros [Ht|Ht]; [left; lra|right]. apply Qle_trans with (fsub t u); [|done]. apply rnd_mono. lra.
Qed.

Section Bounds.
Context (l r : nat) (Hl : (0 < l)%nat) (Hr : (0 < r)%nat).

Definition best_prefix (o : nat) : Q := fmin (of_nat o) (of_nat (Nat.min (Nat.min l r) 4)).

Lemma best_prefix_bounds o : 0 <= best_prefix o /\ best_prefix o <= 4.
Proof using Type.
  clear Hl Hr. assert (of_nat (Nat.min (Nat.min l r) 4) <= 4) by (apply (rnd_le_Z _ 4); [lia|]; apply inject_Z_le; lia).
  pose proof (of_nat_nonneg o). pose proof (of_nat_nonneg (Nat.min (Nat.min l r) 4)).
  unfold best_prefix, fmin. destruct (Qle_bool _ _) eqn:E; [apply Qle_bool_iff in E|]; lra.
Qed.

Lemma optimistic_eq o :
  (0 < o)%nat →
  let o' := Nat.min (Nat.min o l) r in
  optimistic_from_overlap l r o =
    percent (winkler (prefix_weight (best_prefix o')) (jaro (of_nat o') (of_nat l) (of_nat r) 1)).
Proof.
  intros Ho. unfold optimistic_from_overlap. rewrite !bool_decide_eq_false_2 by lia. done.
Qed.

Lemma optimistic_nonneg o : 0 <= optimistic_from_overlap l r o.
Proof.
  unfold optimistic_from_overlap. destruct (_ || _); [apply Qle_refl|]. apply rnd_nonneg.
Qed.

Lemma optimistic_0 : optimistic_from_overlap l r 0 = 0.
Proof. unfold optimistic_from_overlap. by rewrite !orb_true_r. Qed.

Lemma winkler_nonneg c j : 0 <= c → is_float j → 0 <= j → 0 <= winkler c j.
Proof.
  intros Hc Hf Hj. unfold winkler. destruct (fltb _ _); [|done]. pose proof (boosted_ge c j Hc Hf). lra.
Qed.

Lemma jaro_nonneg m a b t : 0 <= jaro m a b t.
Proof. apply rnd_nonneg. Qed.

(** A score with at most [o] matches is at most the optimistic one. *)
Lemma jaro_winkler_le_optimistic o m t p :
  (m ≤ o)%nat → (m ≤ Nat.min l r)%nat → (p ≤ m)%nat → (p ≤ Nat.min (Nat.min l r) 4)%nat →
  jaro_winkler l r m t p <= optimistic_from_overlap l r o.
Proof.
  intros Ho Hm Hp Hp4. unfold jaro_winkler, similarity. destruct (decide (m = 0%nat)) as [|Hm0].
  { change (fmul 0 100) with 0. apply optimistic_nonneg. }
  rewrite optimistic_eq by lia. cbv zeta. set (o' := Nat.min (Nat.min o l) r).
  pose proof (of_nat_pos l Hl). pose proof (of_nat_pos r Hr). pose proof (of_nat_nonneg m). pose proof (of_nat_nonneg p).
  pose proof (best_prefix_bounds o') as [Hb0 Hb4].
  assert (Hpb : of_nat p <= best_prefix o').
  { unfold best_prefix, fmin. destruct (Qle_bool _ _); apply of_nat_mono; unfold o'; lia. }
  pose proof (prefix_weight_bounds _ Hb0 Hb4) as [_ Hw]. pose proof (prefix_weight_mono _ _ (of_nat_nonneg p) Hpb).
  apply percent_mono; [apply winkler_nonneg; [apply rnd_nonneg|apply jaro_float|apply jaro_nonneg]|].
  apply winkler_mono; [apply rnd_nonneg|done|done|apply jaro_float|apply jaro_float| |].
  - apply jaro_mono; try lra; [apply of_nat_mono; unfold o'; lia|].
    apply fdiv_le_1; [pose proof (of_nat_pos m ltac:(lia)); lra|apply of_nat_mono; lia].
  - apply jaro_le_1; try lra; apply of_nat_mono; unfold o'; lia.
Qed.

Lemma optimistic_mono o o' : (o ≤ o')%nat → optimistic_from_overlap l r o <= optimistic_from_overlap l r o'.
Proof.
  intros Ho. destruct (decide (o = 0%nat)) as [->|Ho0]; [rewrite optimistic_0; apply optimistic_nonneg|].
  rewrite !optimistic_eq by lia. cbv zeta.
  set (a := Nat.min (Nat.min o l) r). set (b := Nat.min (Nat.min o' l) r).
  pose proof (of_nat_pos l Hl). pose proof (of_nat_pos r Hr). pose proof (of_nat_nonneg a).
  pose proof (best_prefix_bounds a) as [Ha0 _]. pose proof (best_prefix_bounds b) as [Hb0 Hb4].
  assert (Hpb : best_prefix a <= best_prefix b) by (apply fmin_mono; [apply of_nat_mono; unfold a, b; lia|apply Qle_refl]).
  pose proof (prefix_weight_bounds _ Hb0 Hb4) as [_ Hw]. pose proof (prefix_weight_mono _ _ Ha0 Hpb).
  apply percent_mono; [apply winkler_nonneg; [apply rnd_nonneg|apply jaro_float|apply jaro_nonneg]|].
  apply winkler_mono; [apply rnd_nonneg|done|done|apply jaro_float|apply jaro_float| |].
  - apply jaro_mono; try lra. apply of_nat_mono. unfold a, b. lia.
  - apply jaro_le_1; try lra; apply of_nat_mono; unfold b; lia.
Qed.

Definition max_jaro : Q :=
  fdiv (fadd (fadd 1 (fdiv (of_nat (Nat.min l r)) (of_nat (Nat.max l r)))) 1) 3.

Lemma upper_bound_eq :
  upper_bound_from_lengths l r =
    percent (boosted (prefix_weight (of_nat (Nat.min (Nat.min l r) 4))) max_jaro).
Proof. unfold upper_bound_from_lengths. by rewrite !bool_decide_eq_false_2 by lia. Qed.

Lemma max_jaro_bounds : 1 # 2 <= max_jaro /\ max_jaro <= 1.
Proof.
  set (x := fdiv (of_nat (Nat.min l r)) (of_nat (Nat.max l r))).
  assert (Hx0 : 0 <= x) by apply rnd_nonneg.
  assert (Hx1 : x <= 1) by (apply fdiv_le_1; [pose proof (of_nat_pos (Nat.max l r) ltac:(lia)); lra|apply of_nat_mono; lia]).
  unfold max_jaro. fold x.
  assert (1 <= fadd 1 x) by (apply (rnd_ge_Z _ 1); [lia|]; change (inject_Z 1) with 1; lra).
  assert (2 <= fadd (fadd 1 x) 1) by (apply (rnd_ge_Z _ 2); [lia|]; change (inject_Z 2) with 2; lra).
  assert (fadd 1 x <= 2) by (apply (rnd_le_Z _ 2); [lia|]; change (inject_Z 2) with 2; lra).
  assert (fadd (fadd 1 x) 1 <= 3) by (apply (rnd_le_Z _ 3); [lia|]; change (inject_Z 3) with 3; lra).
  split; [|by apply fdiv_le_1]. apply Qle_trans with (fdiv 2 3); [vm_compute; discriminate|].
  apply fdiv_mono; (done || lra).
Qed.

(** No overlap scores above the bound from the lengths. *)
Lemma optimistic_le_upper o : optimistic_from_overlap l r o <= upper_bound_from_lengths l r.
Proof.
  rewrite upper_bound_eq. destruct (decide (o = 0%nat)) as [->|Ho0].
  { rewrite optimistic_0. apply rnd_nonneg. }
  rewrite optimistic_eq by lia. cbv zeta. set (a := Nat.min (Nat.min o l) r).
  pose proof (of_nat_pos l Hl). pose proof (of_nat_pos r Hr). pose proof (of_nat_nonneg a).
  pose proof (best_prefix_bounds a) as [Ha0 Ha4]. set (q := of_nat (Nat.min (Nat.min l r) 4)).
  assert (Hpq : best_prefix a <= q).
  { unfold best_prefix, fmin. fold q. destruct (Qle_bool _ _) eqn:E; [by apply Qle_bool_iff|apply Qle_refl]. }
  assert (Hq4 : q <= 4) by (apply (rnd_le_Z _ 4); [lia|]; apply inject_Z_le; lia).
  pose proof (prefix_weight_bounds q ltac:(lra) Hq4) as [Hq0 Hqw]. pose proof (prefix_weight_mono _ _ Ha0 Hpq) as Hc.
  pose proof max_jaro_bounds as [_ Hmax].
  assert (Hj : jaro (of_nat a) (of_nat l) (of_nat r) 1 <= max_jaro).
  { apply fdiv_mono; [apply rnd_nonneg| |done|apply Qle_refl]. apply fadd_mono; [|apply Qle_refl]. apply rnd_mono.
    assert (Hal : fdiv (of_nat a) (of_nat l) <= 1) by (apply fdiv_le_1; [lra|apply of_nat_mono; unfold a; lia]).
    assert (Har : fdiv (of_nat a) (of_nat r) <= 1) by (apply fdiv_le_1; [lra|apply of_nat_mono; unfold a; lia]).
    destruct (decide (l ≤ r)%nat) as [Hlr|Hlr].
    - rewrite Nat.min_l, Nat.max_r by lia.
      assert (fdiv (of_nat a) (of_nat r) <= fdiv (of_nat l) (of_nat r)) by (apply fdiv_mono; try lra; apply of_nat_mono; unfold a; lia). lra.
    - rewrite Nat.min_r, Nat.max_l by lia.
      assert (fdiv (of_nat a) (of_nat l) <= fdiv (of_nat r) (of_nat l)) by (apply fdiv_mono; try lra; apply of_nat_mono; unfold a; lia). lra. }
  apply percent_mono; [apply winkler_nonneg; [apply rnd_nonneg|apply jaro_float|apply jaro_nonneg]|].
  unfold winkler. destruct (fltb _ _) eqn:E.
  - apply fltb_true in E. apply boosted_mono; [apply rnd_nonneg|done|done|apply jaro_float|apply rnd_float| |done|done].
    assert (1 # 2 <= literal (7 # 10)) by (vm_compute; discriminate). lra.
  - eapply Qle_trans; [exact Hj|]. apply boosted_ge; [done|apply rnd_float].
Qed.
End Bounds.

(** ** The bounds against each other *)

(** For a fixed left name, longer right names score less. *)
Lemma optimistic_right l r r' o :
  (0 < l)%nat → (l ≤ r)%nat → (r ≤ r')%nat →
  optimistic_from_overlap l r' o <= optimistic_from_overlap l r o.
Proof.
  intros Hl Hlr Hr. destruct (decide (o = 0%nat)) as [->|Ho]; [rewrite !optimistic_0; apply Qle_refl|].
  rewrite !optimistic_eq by lia. cbv zeta. set (a := Nat.min (Nat.min o l) r).
  replace (Nat.min (Nat.min o l) r') with a by (unfold a; lia).
  assert (best_prefix l r' a = best_prefix l r a) as -> by (unfold best_prefix; by rewrite (Nat.min_l l r'), (Nat.min_l l r) by lia).
  pose proof (of_nat_pos l Hl). pose proof (of_nat_pos r ltac:(lia)). pose proof (of_nat_nonneg a).
  pose proof (of_nat_pos r' ltac:(lia)). pose proof (of_nat_mono r r' Hr).
  pose proof (best_prefix_bounds l r a) as [Ha0 Ha4]. pose proof (prefix_weight_bounds _ Ha0 Ha4) as [_ Hw].
  apply percent_mono; [apply winkler_nonneg; [apply rnd_nonneg|apply jaro_float|apply jaro_nonneg]|].
  apply winkler_mono; [apply rnd_nonneg|apply Qle_refl|done|apply jaro_float|apply jaro_float| |].
  - apply jaro_mono; lra.
  - apply jaro_le_1; try lra; apply of_nat_mono; unfold a; lia.
Qed.

Lemma upper_bound_right l r r' :
  (l ≤ r)%nat → (r ≤ r')%nat → upper_bound_from_lengths l r' <= upper_bound_from_lengths l r.
Proof.
  intros Hlr Hr. destruct (decide (l = 0%nat)) as [->|Hl].
  { unfold upper_bound_from_lengths. rewrite (bool_decide_eq_true_2 (0%nat = 0%nat)) by done. cbn [orb].
    destruct (decide (0%nat = r')) as [<-|Hr'].
    - replace r with 0%nat by lia. apply Qle_refl.
    - rewrite (bool_decide_eq_false_2 (0%nat = r')) by done. case_bool_decide; discriminate. }
  rewrite !upper_bound_eq by lia. rewrite (Nat.min_l l r'), (Nat.min_l l r) by lia.
  pose proof (max_jaro_bounds l r' ltac:(lia) ltac:(lia)) as [Hh' _]. pose proof (max_jaro_bounds l r ltac:(lia) ltac:(lia)) as [_ Hm].
  set (q := of_nat (Nat.min l 4)). assert (Hq4 : q <= 4) by (apply (rnd_le_Z _ 4); [lia|]; apply inject_Z_le; lia).
  pose proof (prefix_weight_bounds q (of_nat_nonneg _) Hq4) as [Hq0 Hqw].
  apply percent_mono.
  { eapply Qle_trans; [|apply boosted_ge; [done|apply rnd_float]]. lra. }
  apply boosted_mono; [done|apply Qle_refl|done|apply rnd_float|apply rnd_float|done| |done].
  unfold max_jaro. rewrite (Nat.min_l l r'), (Nat.min_l l r), (Nat.max_r l r'), (Nat.max_r l r) by lia.
  apply fdiv_mono; [apply rnd_nonneg| |done|apply Qle_refl]. apply fadd_mono; [|apply Qle_refl].
  apply fadd_mono; [apply Qle_refl|]. pose proof (of_nat_pos r ltac:(lia)).
  apply fdiv_mono; [apply of_nat_nonneg|apply Qle_refl|lra|by apply of_nat_mono].
Qed.

Lemma lengths_can_reach_right l r r' t :
  (l ≤ r)%nat → (r ≤ r')%nat → lengths_can_reach l r' t = true → lengths_can_reach l r t = true.
Proof. intros ? ?. by apply reaches_threshold_mono, upper_bound_right. Qed.

Lemma minimum_overlap_le l r t : (minimum_multiset_overlap l r t ≤ S (Nat.min l r))%nat.
Proof.
  unfold minimum_multiset_overlap. destruct (_ && _); [lia|]. destruct (match t with F64 t => _ | _ => _ end); [lia|].
  destruct (match t with F64 t => _ | _ => _ end); [lia|].
  match goal with |- (overlap_search ?f ?n 0%nat ?h ≤ _)%nat => pose proof (overlap_search_ends f n 0 h ltac:(lia) ltac:(lia)) end.
  tauto || (cbv zeta in *; lia).
Qed.

(** The minimum is least: exactly the overlaps from it on can reach the threshold. *)
Lemma minimum_overlap_spec l r t o :
  (0 < l)%nat → (0 < r)%nat → t <= 100 → (o ≤ Nat.min l r)%nat →
  (minimum_multiset_overlap l r (F64 t) ≤ o)%nat ↔ reaches_threshold (optimistic_from_overlap l r o) (F64 t) = true.
Proof.
  intros Hl Hr Ht Ho. unfold minimum_multiset_overlap.
  rewrite (bool_decide_eq_false_2 (l = 0%nat)) by lia. cbn [andb].
  destruct (fltb 100 t) eqn:E100; [apply fltb_true in E100; lra|].
  destruct (Qle_bool t 0) eqn:E0.
  - apply Qle_bool_iff in E0. split; [intros _|lia]. simpl. apply orb_true_iff. left. apply Qle_bool_iff.
    pose proof (optimistic_nonneg l r o). lra.
  - match goal with |- (overlap_search ?f ?n 0%nat ?h ≤ _)%nat ↔ _ =>
      pose proof (overlap_search_ends f n 0 h ltac:(lia) ltac:(lia)) as (Hk & Hhigh & Hlow); set (k := overlap_search f n 0 h) in * end.
    cbv beta in Hhigh, Hlow. split.
    + intros Hko. destruct Hhigh as [->|Hreach]; [lia|].
      eapply reaches_threshold_mono; [by apply optimistic_mono|exact Hreach].
    + intros Hreach. destruct Hlow as [->|(j & -> & Hj)]; [lia|].
      destruct (le_lt_dec (S j) o) as [?|Hlt]; [done|]. exfalso.
      assert (reaches_threshold (optimistic_from_overlap l r j) (F64 t) = true); [|congruence].
      eapply reaches_threshold_mono; [|exact Hreach]. apply optimistic_mono; lia.
Qed.

(** Longer right names need at least the overlap of shorter ones. *)
Lemma minimum_overlap_right l r r' t :
  (0 < l)%nat → (l ≤ r)%nat → (r ≤ r')%nat → t <= 100 →
  (minimum_multiset_overlap l r (F64 t) ≤ minimum_multiset_overlap l r' (F64 t))%nat.
Proof.
  intros Hl Hlr Hr Ht. pose proof (minimum_overlap_le l r (F64 t)). pose proof (minimum_overlap_le l r' (F64 t)).
  set (k := minimum_multiset_overlap l r' (F64 t)) in *.
  destruct (le_lt_dec k (Nat.min l r')) as [Hk|Hk]; [|lia].
  apply minimum_overlap_spec; [lia|lia|done|lia|].
  eapply reaches_threshold_mono; [by apply optimistic_right|].
  apply minimum_overlap_spec; [lia|lia|done|done|]. by unfold k.
Qed.

(** An overlap that reaches the threshold is not cut off by the lengths. *)
Lemma optimistic_reaches_lengths l r o t :
  (0 < l)%nat → (0 < r)%nat → reaches_threshold (optimistic_from_overlap l r o) t = true →
  lengths_can_reach l r t = true.
Proof. intros ? ?. apply reaches_threshold_mono. by apply optimistic_le_upper. Qed.

Lemma bounds_lossless l r o m t p threshold :
  (0 < l)%nat → (0 < r)%nat → threshold <= 100 →
  (m ≤ o)%nat → (o ≤ Nat.min l r)%nat → (p ≤ m)%nat → (p ≤ Nat.min (Nat.min l r) 4)%nat →
  reaches_threshold (jaro_winkler l r m t p) (F64 threshold) = true →
  lengths_can_reach l r (F64 threshold) = true ∧ (minimum_multiset_overlap l r (F64 threshold) ≤ o)%nat.
Proof.
  intros Hl Hr Ht Hm Ho Hp Hp4 Hreach.
  assert (Hopt : reaches_threshold (optimistic_from_overlap l r o) (F64 threshold) = true)
    by (eapply reaches_threshold_mono; [apply jaro_winkler_le_optimistic|exact Hreach]; lia).
  split; [by eapply optimistic_reaches_lengths|]. by apply minimum_overlap_spec.
Qed.

(** The cutoff in [0, 1] loses less than the rounding tolerance. *)
Lemma cutoff_reaches s t :
  0 <= t → t <= 100 → 0 <= s → fdiv t 100 <= s → reaches_threshold (fmul s 100) (F64 t) = true.
Proof.
  intros Ht0 Ht Hs0 Hs. simpl. apply orb_true_iff. right. apply Qle_bool_iff.
  pose proof (rnd_error (t / 100)) as [Hc _]; [apply Qle_shift_div_l; lra|]. fold (fdiv t 100) in Hc.
  pose proof (rnd_error (s * 100) ltac:(lra)) as [Hf _]. fold (fmul s 100) in Hf.
  assert (Heq : t / 100 == t * (1 # 100)) by reflexivity. rewrite Heq in Hc.
  set (c := fdiv t 100) in *. set (u := fmul s 100) in *.
  set (bound := 200 * pow2 (-53)). assert (Hb : fsub t u <= fsub bound 0).
  { apply rnd_mono. unfold bound. assert (He0 : 0 < pow2 (-53)) by apply pow2_pos.
    assert (He1 : pow2 (-53) <= 1) by (vm_compute; discriminate). set (e := pow2 (-53)) in *. clearbody e c u.
    assert (u >= c * 100 - c * 100 * e); [|nra].
    assert (s * 100 - s * 100 * e == s * 100 * (1 - e)) as H1 by ring.
    assert (c * 100 - c * 100 * e == c * 100 * (1 - e)) as H2 by ring. rewrite H1 in Hf. rewrite H2.
    apply Qle_trans with (s * 100 * (1 - e)); [|done]. apply Qmult_le_compat_r; lra. }
  apply Qle_trans with (fsub bound 0); [done|]. vm_compute. discriminate.
Qed.

(** ** Properties *)

(** C14: The bounds are lossless.  If names of lengths [l] and [r] share [o]
    characters and at most these match, then a Jaro-Winkler score that reaches a
    threshold of at most 100, computed in double precision from any number of
    matches, transpositions and equal first characters, implies that the lengths can
    reach it and that [o] is at least the minimum overlap. *)
Theorem candidate_bounds_lossless (l r o m t p : nat) (threshold : Q) :
  (0 < l)%nat → (0 < r)%nat → threshold <= 100 →
  (m ≤ o)%nat → (o ≤ Nat.min l r)%nat → (p ≤ m)%nat → (p ≤ Nat.min (Nat.min l r) 4)%nat →
  reaches_threshold (jaro_winkler l r m t p) (F64 threshold) = true →
  lengths_can_reach l r (F64 threshold) = true ∧ (minimum_multiset_overlap l r (F64 threshold) ≤ o)%nat.
Proof. apply bounds_lossless. Qed.

(** MARTHA and MARHTA: six matches, one transposition, three equal first characters. *)
Lemma candidate_bounds_lossless_witness :
  minimum_multiset_overlap 6 6 (F64 95) = 6%nat ∧
  lengths_can_reach 6 6 (F64 95) = true ∧ (minimum_multiset_overlap 6 6 (F64 95) ≤ 6)%nat.
Proof.
  split; [vm_compute; reflexivity|].
  apply (candidate_bounds_lossless 6 6 6 6 1 3 95); try lia; [vm_compute; discriminate|vm_compute; reflexivity].
Defined.

(** The minimum overlap is the least one that can reach a threshold of at most
    100: from it on every overlap can, and below it none; and it never exceeds the
    shorter length by more than one.  Other thresholds are refused by every overlap. *)
Theorem minimum_multiset_overlap_least (l r : nat) (t : Q) :
  (0 < l)%nat → (0 < r)%nat → t <= 100 →
  (minimum_multiset_overlap l r (F64 t) ≤ S (Nat.min l r))%nat ∧
  (∀ o, (o ≤ Nat.min l r)%nat →
    (minimum_multiset_overlap l r (F64 t) ≤ o)%nat ↔
    reaches_threshold (optimistic_from_overlap l r o) (F64 t) = true) ∧
  minimum_multiset_overlap l r NaN = S (Nat.min l r).
Proof.
  intros Hl Hr Ht. split; [apply minimum_overlap_le|]. split; [intros o Ho; by apply minimum_overlap_spec|].
  unfold minimum_multiset_overlap. by rewrite bool_decide_eq_false_2 by lia.
Qed.

Lemma minimum_multiset_overlap_least_witness :
  minimum_multiset_overlap 10 12 (F64 80) = 6%nat ∧
  ((minimum_multiset_overlap 10 12 (F64 80) ≤ S (Nat.min 10 12))%nat ∧
  (∀ o, (o ≤ Nat.min 10 12)%nat →
    (minimum_multiset_overlap 10 12 (F64 80) ≤ o)%nat ↔
    reaches_threshold (optimistic_from_overlap 10 12 o) (F64 80) = true) ∧
  minimum_multiset_overlap 10 12 NaN = S (Nat.min 10 12)).
Proof.
  split; [vm_compute; reflexivity|].
  apply (minimum_multiset_overlap_least 10 12 80); [lia|lia|vm_compute; discriminate].
Defined.
