(* ===== verification/NameIndex.v ===== *)
(** The resident candidate index of the name stage ([ResidentNameIndex] in
    [dedup/crates/core/src/name/mod.rs]): every name as a document of (character,
    occurrence) tokens, the postings of each token, and per document its tokens by
    rarity and by id. *)

From S2P Require Import Prelude Radix Text CanonicalJson Types Anchors Entity Outcome.

(** ** Names *)

Record NameMember := { member_contract_id : ContractId; member_nft_id : option NftId }.
Record NameAtom := { atom_chain_id : ChainId; members : list NameMember }.
Record CanonicalName := {
  canonical_name_id : StringId;
  characters : list chr;
  atoms : list NameAtom;
}.

#[export] Instance NameMember_eq_dec : EqDecision NameMember.
Proof. solve_decision. Defined.
#[export] Instance NameMember_countable : Countable NameMember.
Proof.
  refine (inj_countable' (λ m, (member_contract_id m, member_nft_id m))
    (λ '(c, n), {| member_contract_id := c; member_nft_id := n |}) _).
  by intros [].
Defined.

(** ** The index *)

Record ResidentNameIndex := {
  document_offsets : list nat;
  prefix_tokens : list nat;
  sorted_tokens : list nat;
  posting_offsets : list nat;
  posting_names : list nat;
}.

Definition INDEX_CHUNK : nat := 4096.
Definition u32_MAX : Z := 2 ^ 32 - 1.

(** [(u64::from(character as u32) << 32) | u64::from(rank)] *)
Definition occurrence_token (character : chr) (rank : Z) : Z :=
  Z.lor (Z.shiftl (Z.of_N character) 32) rank.

(** The tokens of a name, from the occurrences counted so far. *)
Fixpoint name_tokens (occurrences : gmap chr Z) (cs : list chr) : list Z :=
  match cs with
  | [] => []
  | c :: cs =>
      let rank := default 0%Z (occurrences !! c) in
      occurrence_token c rank :: name_tokens (<[c := ((rank + 1) mod 2 ^ 32)%Z]> occurrences) cs
  end.

(** [offsets.push(offsets.last() + length)] *)
Definition push_offset (offsets : list nat) (length : nat) : list nat :=
  offsets ++ [default 0 (last offsets) + length].
Definition running_offsets (lengths : list nat) : list nat := foldl push_offset [0] lengths.

(** [&l[start..end_]] *)
Definition slice {A} (l : list A) (start end_ : nat) : option (list A) :=
  if decide (start ≤ end_ ∧ end_ ≤ length l) then Some (take (end_ - start) (drop start l)) else None.

(** [token_ids]: position of every distinct token. *)
Definition number_tokens (unique : list Z) : gmap Z nat :=
  foldl (λ m '(i, token), <[token := i]> m) ∅ (imap pair unique).

(** [posting_counts[token] += 1] *)
Definition bump_at (counts : list nat) (i : nat) : option (list nat) :=
  n ← counts !! i; Some (<[i := S n]> counts).

(** The (token, name) pairs of one name. *)
Definition name_pairs (offsets documents : list nat) (name : nat) : option (list (Z * Z)) :=
  start ← offsets !! name;
  end_ ← offsets !! (S name);
  doc ← slice documents start end_;
  Some (map (λ token, (Z.of_nat token, Z.of_nat name)) doc).

(** The comparison of the prefix order: rarer tokens first. *)
Definition posting_length (posting_offsets : list nat) (token : nat) : option nat :=
  a ← posting_offsets !! (S token); b ← posting_offsets !! token; Some (a - b).
Definition prefix_compare (posting_offsets : list nat) (a b : nat) : comparison :=
  then_with (Nat.compare (default 0 (posting_length posting_offsets a)) (default 0 (posting_length posting_offsets b)))
    (Nat.compare a b).

(** The documents as slices: [split_at_mut] along [offsets.windows(2)]. *)
Fixpoint split_documents (offsets : list nat) (rest : list nat) : option (list (list nat)) :=
  match offsets with
  | a :: offsets' =>
      match offsets' with
      | b :: _ =>
          let len := b - a in
          if decide (a ≤ b ∧ len ≤ length rest) then
            docs ← split_documents offsets' (drop len rest); Some (take len rest :: docs)
          else None
      | [] => Some []
      end
  | [] => Some []
  end.

Section Index.
Context `{Observer} `{UnstableSort} `{WriteSchedule Z} `{WriteSchedule (Z * Z)} (threads : nat).

(** One task of the phase [build_name_documents]. *)
Definition document_chunk (chunk : nat * list CanonicalName) : outcome (list nat * list Z) :=
  check BuildNameDocuments chunk.1;;
  let documents := map (λ name, name_tokens ∅ (characters name)) chunk.2 in
  Returns (map length documents, mjoin documents).

(** One task of the phase [encode_name_documents]. *)
Definition encode_chunk (token_ids : gmap Z nat) (chunk : nat * list Z) : outcome (list nat) :=
  check EncodeNameDocuments chunk.1;;
  or_panic (mapM (M := option) (λ token, token_ids !! token) chunk.2).

(** One task of the phase [fill_name_postings]. *)
Definition posting_chunk (offsets documents : list nat) (chunk : nat * list CanonicalName)
    : outcome (list (Z * Z)) :=
  check FillNamePostings chunk.1;;
  pairs ← or_panic (mapM (M := option) (name_pairs offsets documents) (seq (chunk.1 * INDEX_CHUNK) (length chunk.2)));
  Returns (mjoin (pairs : list (list (Z * Z)))).

(** One task of the phase [build_name_prefix]. *)
Definition prefix_chunk (posting_offsets : list nat) (chunk : nat * list (list nat))
    : outcome (list (list nat * list nat)) :=
  check BuildNamePrefix chunk.1;;
  Returns (map (λ doc, (sort_unstable_by Nat.compare doc, sort_unstable_by (prefix_compare posting_offsets) doc))
             chunk.2).

Definition ResidentNameIndex_build (names : list CanonicalName) : outcome ResidentNameIndex :=
  if decide (u32_MAX < Z.of_nat (length names))%Z then Fails (InvalidInput "name") else
  raw_chunks ← collect (map document_chunk (imap pair (chunks INDEX_CHUNK names)));
  let document_offsets := running_offsets (mjoin (map fst raw_chunks)) in
  let raw_tokens := mjoin (map snd raw_chunks) in
  sorted ← sorted_or_interrupted (sort_u64_while threads raw_tokens (sort_callback SortNameTokens) 0);
  let unique_tokens := dedup_by Z.eqb sorted in
  if decide (u32_MAX < Z.of_nat (length unique_tokens))%Z then Fails (InvalidInput "name") else
  let token_ids := number_tokens unique_tokens in
  let token_count := size token_ids in
  document_chunks ← collect (map (encode_chunk token_ids) (imap pair (chunks INDEX_CHUNK raw_tokens)));
  let documents := mjoin document_chunks in
  posting_chunks ← collect (map (posting_chunk document_offsets documents) (imap pair (chunks INDEX_CHUNK names)));
  posting_pairs ← sorted_or_interrupted
    (sort_u32_pairs_while threads (mjoin posting_chunks) (sort_callback SortNamePostings) 0);
  counts ← or_panic (foldM bump_at (replicate token_count 0) (map (λ p, Z.to_nat p.1) posting_pairs));
  let posting_offsets := running_offsets counts in
  document_slices ← or_panic (split_documents document_offsets documents);
  slices ← collect (map (prefix_chunk posting_offsets) (imap pair (chunks INDEX_CHUNK document_slices)));
  Returns {| document_offsets := document_offsets; prefix_tokens := mjoin (map snd (mjoin slices));
             sorted_tokens := mjoin (map fst (mjoin slices)); posting_offsets := posting_offsets;
             posting_names := map (λ p, Z.to_nat p.2) posting_pairs |}.
End Index.

Definition prefix (index : ResidentNameIndex) (name : nat) : option (list nat) :=
  start ← document_offsets index !! name;
  end_ ← document_offsets index !! (S name);
  slice (prefix_tokens index) start end_.

Definition sorted (index : ResidentNameIndex) (name : nat) : option (list nat) :=
  start ← document_offsets index !! name;
  end_ ← document_offsets index !! (S name);
  slice (sorted_tokens index) start end_.

Definition posting (index : ResidentNameIndex) (token : nat) : option (list nat) :=
  start ← posting_offsets index !! token;
  end_ ← posting_offsets index !! (S token);
  slice (posting_names index) start end_.
