(* ===== verification/NameIndexFacts.v ===== *)
(** The candidate index is correct: the documents of the names, under an injective
    numbering of their tokens, in both orders, and complete postings. *)

From S2P Require Import Prelude Radix Text CanonicalJson Types Anchors Entity Outcome NameIndex.

(** ** Offsets *)

Lemma running_offsets_spec lengths i :
  i ≤ length lengths → running_offsets lengths !! i = Some (sum_list (take i lengths)).
Proof.
  intros Hi. unfold running_offsets.
  assert (Hall : foldl push_offset [0] lengths = (λ i, sum_list (take i lengths)) <$> seq 0 (S (length lengths))).
  { clear. induction lengths as [|n lengths IH] using rev_ind; [done|].
    rewrite foldl_app, IH. cbn [foldl]. unfold push_offset.
    rewrite length_app. cbn [length]. rewrite Nat.add_1_r. rewrite (seq_S (S (length lengths))), fmap_app.
    rewrite (seq_S (length lengths)) at 2. rewrite fmap_app. cbn [fmap list_fmap]. rewrite last_snoc. cbn [default from_option id].
    rewrite Nat.add_0_l. f_equal.
    - apply list_fmap_ext. intros j k Hj%lookup_seq. rewrite take_app_le by lia. done.
    - f_equal. rewrite (take_ge lengths) by lia. rewrite take_ge by (rewrite length_app; simpl; lia).
      rewrite sum_list_with_app. simpl. lia. }
  rewrite Hall, list_lookup_fmap, lookup_seq_lt by lia. done.
Qed.

Lemma length_running_offsets lengths : length (running_offsets lengths) = S (length lengths).
Proof.
  unfold running_offsets. assert (Hall : ∀ o, length (foldl push_offset o lengths) = length o + length lengths).
  { induction lengths as [|n l IH]; intros o; simpl; [lia|]. rewrite IH. unfold push_offset. rewrite length_app. simpl. lia. }
  by rewrite Hall.
Qed.

Lemma length_mjoin {A} (ls : list (list A)) : length (mjoin ls) = sum_list (length <$> ls).
Proof. induction ls as [|l ls IH]; [done|]. cbn. rewrite length_app. by f_equal. Qed.

Lemma slice_join {A} (ls : list (list A)) i x :
  ls !! i = Some x →
  slice (mjoin ls) (sum_list (take i (length <$> ls))) (sum_list (take (S i) (length <$> ls))) = Some x.
Proof.
  intros Hi. pose proof (take_drop_middle ls i x Hi) as Hls.
  rewrite <- Hls at 1. rewrite join_app. cbn [mjoin list_join].
  rewrite (take_S_r (length <$> ls) i (length x)) by by rewrite list_lookup_fmap, Hi.
  rewrite sum_list_with_app. rewrite <- fmap_take, <- length_mjoin. cbn [sum_list]. unfold slice.
  rewrite decide_True by (rewrite !length_app; simpl; lia). f_equal.
  change (sum_list_with id [length x]) with (length x + 0). rewrite Nat.add_0_r.
  replace (length (mjoin (take i ls)) + length x - length (mjoin (take i ls))) with (length x) by lia.
  by rewrite drop_app_length, take_app_length.
Qed.

(** Slicing along the offsets of a concatenation. *)
Lemma offsets_slice {A} (ls : list (list A)) lengths i x :
  lengths = length <$> ls → ls !! i = Some x →
  ∃ a b, running_offsets lengths !! i = Some a ∧ running_offsets lengths !! S i = Some b ∧
    b - a = length x ∧ slice (mjoin ls) a b = Some x.
Proof.
  intros -> Hi. pose proof (lookup_lt_Some _ _ _ Hi).
  exists (sum_list (take i (length <$> ls))), (sum_list (take (S i) (length <$> ls))).
  rewrite !running_offsets_spec by (rewrite length_fmap; lia). split_and!; [done|done| |by apply slice_join].
  rewrite (take_S_r (length <$> ls) i (length x)) by by rewrite list_lookup_fmap, Hi.
  rewrite sum_list_with_app. simpl. lia.
Qed.

Lemma offsets_slice_None {A} (ls : list (list A)) lengths i :
  lengths = length <$> ls → ls !! i = None → running_offsets lengths !! S i = None.
Proof.
  intros -> Hi%lookup_ge_None. apply lookup_ge_None. rewrite length_running_offsets, length_fmap. lia.
Qed.

Lemma split_documents_cons a b offsets rest :
  split_documents (a :: b :: offsets) rest =
    if decide (a ≤ b ∧ b - a ≤ length rest) then
      docs ← split_documents (b :: offsets) (drop (b - a) rest); Some (take (b - a) rest :: docs)
    else None.
Proof. done. Qed.

(** The split undoes the concatenation. *)
Lemma split_documents_offsets docs : split_documents (running_offsets (length <$> docs)) (mjoin docs) = Some docs.
Proof.
  assert (Hgen : ∀ docs o, split_documents (foldl push_offset [o] (length <$> docs)) (mjoin docs) = Some docs).
  { clear. assert (Hcons : ∀ ls o, foldl push_offset [o] ls = o :: tail (foldl push_offset [o] ls)).
    { intros ls o. assert (Hhead : ∀ l, head l = Some o → head (foldl push_offset l ls) = Some o).
      { induction ls as [|n ls IH]; intros l Hl; [done|]. apply IH. destruct l; [done|]. done. }
      specialize (Hhead [o] eq_refl). by destruct (foldl push_offset [o] ls); simplify_eq/=. }
    assert (Htail : ∀ ls o n, foldl push_offset [o; o + n] ls = o :: foldl push_offset [o + n] ls).
    { intros ls o n. assert (Hg : ∀ l, l ≠ [] → foldl push_offset (o :: l) ls = o :: foldl push_offset l ls); [|by apply Hg].
      induction ls as [|m ls IH]; intros l Hl; [done|]. simpl. unfold push_offset at 2 4. simpl.
      rewrite IH by (by destruct l). do 2 f_equal. destruct l as [|x l]; [done|]. done. }
    induction docs as [|d docs IH]; intros o; [done|].
    rewrite fmap_cons. cbn [foldl]. unfold push_offset at 2. cbn [last default from_option id app]. rewrite Htail.
    specialize (IH (o + length d)). rewrite (Hcons _ (o + length d)) in IH |- *.
    rewrite split_documents_cons, decide_True by (rewrite mjoin_cons, length_app; lia).
    replace (o + length d - o) with (length d) by lia.
    rewrite mjoin_cons, drop_app_length, take_app_length. by rewrite IH. }
  apply Hgen.
Qed.

(** ** Chunks *)

Lemma imap_pair_snd {A} (l : list A) : map snd (imap pair l) = l.
Proof.
  change (map snd (imap pair l)) with (snd <$> imap pair l). rewrite fmap_imap. apply list_eq. intros i.
  rewrite list_lookup_imap. by destruct (l !! i).
Qed.

(** Mapping over the chunks maps over the list. *)
Lemma chunks_map {A B} (f : A → B) n (l : list A) :
  0 < n → mjoin (map (λ c, map f c.2) (imap pair (chunks n l))) = map f l.
Proof.
  intros Hn. rewrite <- (map_map snd (map f)), imap_pair_snd.
  change (map (map f) (chunks n l)) with (fmap (M := list) f <$> chunks n l).
  rewrite <- (chunks_concat n l) at 2 by done.
  induction (chunks n l) as [|c cs IH]; [done|]. rewrite fmap_cons, !mjoin_cons, map_app. by f_equal.
Qed.

(** The chunks start at the multiples of their size. *)
Lemma chunks_positions {A} n (l : list A) :
  0 < n → mjoin (map (λ c, seq (c.1 * n) (length c.2)) (imap pair (chunks n l))) = seq 0 (length l).
Proof.
  intros Hn. unfold chunks.
  assert (Hgen : ∀ fuel (l : list A) k, length l ≤ fuel →
    mjoin (map (λ c, seq (c.1 * n) (length c.2)) (imap (λ i c, (k + i, c)) (chunks_fuel fuel n l))) = seq (k * n) (length l)).
  { clear l. intros fuel. induction fuel as [|fuel IH]; intros [|x l] k Hl; [done|simpl in Hl; lia|done|].
    cbn [chunks_fuel imap]. rewrite map_cons, mjoin_cons. cbn [fst snd]. rewrite Nat.add_0_r.
    assert (Himap : imap ((λ i c, (k + i, c)) ∘ S) (chunks_fuel fuel n (drop n (x :: l))) =
                    imap (λ i c, (S k + i, c)) (chunks_fuel fuel n (drop n (x :: l)))).
    { apply imap_ext. intros i c _. simpl. f_equal. lia. }
    rewrite Himap, IH by (rewrite length_drop; simpl in *; lia).
    rewrite length_take, length_drop. destruct (decide (n ≤ length (x :: l))) as [Hle|Hgt].
    - rewrite Nat.min_l by done. replace (S k * n) with (k * n + n) by lia. rewrite <- seq_app. f_equal. lia.
    - rewrite Nat.min_r by lia. replace (length (x :: l) - n) with 0 by lia. by rewrite app_nil_r. }
  exact (Hgen (length l) l 0 (le_n _)).
Qed.

(** ** Tokens *)

(** The characters of a name are scalar values, and few enough to number. *)
Definition chars_ok (cs : list chr) : Prop :=
  Forall (λ c, c < 2 ^ 32)%N cs ∧ (Z.of_nat (length cs) < 2 ^ 32)%Z.

Definition count (c : chr) (cs : list chr) : nat := length (filter (λ d, d = c) cs).

Lemma count_cons c d cs : count c (d :: cs) = (if decide (d = c) then 1 else 0) + count c cs.
Proof. unfold count. rewrite filter_cons. by case_decide. Qed.

Lemma count_le c cs : count c cs ≤ length cs.
Proof. unfold count. apply length_filter. Qed.

Lemma count_submseteq c cs ds : cs ⊆+ ds → count c cs ≤ count c ds.
Proof. induction 1; rewrite ?count_cons; lia. Qed.

Lemma occurrence_token_add c k : (0 ≤ k < 2 ^ 32)%Z → occurrence_token c k = (Z.of_N c * 2 ^ 32 + k)%Z.
Proof.
  intros Hk. unfold occurrence_token. assert (Hland : Z.land (Z.shiftl (Z.of_N c) 32) k = 0%Z).
  { apply Z.bits_inj'. intros n Hn. rewrite Z.land_spec, Z.bits_0. destruct (Z.lt_ge_cases n 32).
    - by rewrite Z.shiftl_spec_low.
    - rewrite <- (Z.mod_small k (2 ^ 32)) by done. rewrite Z.mod_pow2_bits_high by lia. apply andb_false_r. }
  rewrite <- Z.lxor_lor by done. rewrite <- Z.add_nocarry_lxor by done. by rewrite Z.shiftl_mul_pow2.
Qed.

(** The tokens of a name number the occurrences of each character from zero. *)
Lemma elem_of_name_tokens cs t :
  chars_ok cs → t ∈ name_tokens ∅ cs ↔ ∃ c k, t = occurrence_token c (Z.of_nat k) ∧ k < count c cs.
Proof.
  intros [_ Hlen].
  assert (Hgen : ∀ cs occ (before : chr → nat),
    (∀ c, default 0%Z (occ !! c) = Z.of_nat (before c)) → (∀ c, (Z.of_nat (before c + count c cs) < 2 ^ 32)%Z) →
    t ∈ name_tokens occ cs ↔ ∃ c k, t = occurrence_token c (Z.of_nat k) ∧ before c ≤ k < before c + count c cs).
  { clear. intros cs. induction cs as [|d cs IH]; intros occ before Hocc Hb; cbn [name_tokens].
    - split; [by intros ?%elem_of_nil|]. intros (c & k & _ & Hk). unfold count in Hk. simpl in Hk. lia.
    - rewrite elem_of_cons, (IH _ (λ c, (if decide (d = c) then 1 else 0) + before c)).
      + rewrite Hocc. split.
        * intros [->|(c & k & -> & Hk)].
          { exists d, (before d). split; [done|]. rewrite count_cons, decide_True by done. lia. }
          exists c, k. split; [done|]. rewrite count_cons. destruct (decide (d = c)); lia.
        * intros (c & k & -> & Hk). rewrite count_cons in Hk. destruct (decide (d = c)) as [->|Hne].
          { destruct (decide (k = before c)) as [->|]; [by left|]. right. exists c, k. split; [done|]. rewrite decide_True by done. lia. }
          right. exists c, k. split; [done|]. rewrite decide_False by done. lia.
      + intros c. specialize (Hb d). rewrite count_cons, decide_True in Hb by done. rewrite Hocc. destruct (decide (d = c)) as [->|Hne].
        * rewrite lookup_insert_eq. cbn [default from_option id]. rewrite Z.mod_small by lia. lia.
        * rewrite lookup_insert_ne by done. rewrite Hocc. lia.
      + intros c. specialize (Hb c). rewrite count_cons in Hb. destruct (decide (d = c)); lia. }
  rewrite (Hgen cs ∅ (λ _, 0)).
  - split; intros (c & k & ? & ?); exists c, k; (split; [done|lia]).
  - intros c. by rewrite lookup_empty.
  - intros c. pose proof (count_le c cs). lia.
Qed.

Lemma occurrence_token_inj c k d l :
  (0 ≤ k < 2 ^ 32)%Z → (0 ≤ l < 2 ^ 32)%Z → occurrence_token c k = occurrence_token d l → c = d ∧ k = l.
Proof. intros Hk Hl. rewrite !occurrence_token_add by done. intros Heq. lia. Qed.

Lemma length_name_tokens occ cs : length (name_tokens occ cs) = length cs.
Proof. revert occ. induction cs as [|c cs IH]; intros occ; [done|]. simpl. by rewrite IH. Qed.

Lemma name_tokens_NoDup cs : chars_ok cs → NoDup (name_tokens ∅ cs).
Proof.
  intros [_ Hlen].
  assert (Hgen : ∀ cs occ (before : chr → nat),
    (∀ c, default 0%Z (occ !! c) = Z.of_nat (before c)) → (∀ c, (Z.of_nat (before c + count c cs) < 2 ^ 32)%Z) →
    NoDup (name_tokens occ cs) ∧
    ∀ t, t ∈ name_tokens occ cs → ∃ c k, t = occurrence_token c (Z.of_nat k) ∧ before c ≤ k < before c + count c cs).
  { clear. intros cs. induction cs as [|d cs IH]; intros occ before Hocc Hb; cbn [name_tokens].
    { split; [constructor|by intros t ?%elem_of_nil]. }
    destruct (IH (<[d := ((default 0%Z (occ !! d) + 1) mod 2 ^ 32)%Z]> occ) (λ c, (if decide (d = c) then 1 else 0) + before c)) as [Hnd Hin].
    - intros c. specialize (Hb d). rewrite count_cons, decide_True in Hb by done. rewrite Hocc. destruct (decide (d = c)) as [->|Hne].
      + rewrite lookup_insert_eq. cbn [default from_option id]. rewrite Z.mod_small by lia. lia.
      + rewrite lookup_insert_ne by done. rewrite Hocc. lia.
    - intros c. specialize (Hb c). rewrite count_cons in Hb. destruct (decide (d = c)); lia.
    - split.
      + apply NoDup_cons. split; [|done]. intros (c & k & Heq & Hk)%Hin. rewrite Hocc in Heq.
        pose proof (Hb d) as Hbd. rewrite count_cons, decide_True in Hbd by done. pose proof (Hb c) as Hbc. rewrite count_cons in Hbc.
        apply occurrence_token_inj in Heq as [<- Heq]; [|lia|destruct (decide (d = c)); lia].
        rewrite decide_True in Hk by done. lia.
      + intros t [->|(c & k & -> & Hk)%Hin]%elem_of_cons.
        * exists d, (before d). rewrite Hocc. split; [done|]. rewrite count_cons, decide_True by done. lia.
        * exists c, k. split; [done|]. rewrite count_cons. destruct (decide (d = c)); lia. }
  apply (Hgen cs ∅ (λ _, 0)); [intros c; by rewrite lookup_empty|]. intros c. pose proof (count_le c cs). lia.
Qed.

Lemma name_token_u64 cs t : chars_ok cs → t ∈ name_tokens ∅ cs → is_u64 t.
Proof.
  intros Hok (c & k & -> & Hk)%elem_of_name_tokens; [|done]. destruct Hok as [Hcs Hlen].
  pose proof (count_le c cs). rewrite occurrence_token_add by lia.
  assert (Hc : c ∈ cs).
  { destruct (filter (λ d, d = c) cs) as [|x l] eqn:E; [unfold count in Hk; rewrite E in Hk; simpl in Hk; lia|].
    assert (x ∈ filter (λ d, d = c) cs) as [-> ?]%list_elem_of_filter by (rewrite E; by left). done. }
  pose proof (proj1 (Forall_forall _ _) Hcs c Hc) as Hlt. cbv beta in Hlt. unfold is_u64. lia.
Qed.

(** Characters shared by two names give tokens shared by their documents. *)
Lemma shared_characters_tokens l r cs :
  chars_ok l → chars_ok r → cs ⊆+ l → cs ⊆+ r →
  length cs ≤ length (filter (λ t, t ∈ name_tokens ∅ r) (name_tokens ∅ l)).
Proof.
  intros Hl Hr Hcl Hcr.
  assert (Hcs : chars_ok cs).
  { destruct Hl as [Hf Hlen]. pose proof (submseteq_length _ _ Hcl). split; [|lia].
    apply Forall_forall. intros c Hc. apply (proj1 (Forall_forall _ _) Hf). by eapply elem_of_submseteq. }
  rewrite <- (length_name_tokens ∅ cs). apply submseteq_length, NoDup_submseteq; [by apply name_tokens_NoDup|].
  intros t (c & k & -> & Hk)%elem_of_name_tokens; [|done]. apply list_elem_of_filter.
  pose proof (count_submseteq c _ _ Hcl). pose proof (count_submseteq c _ _ Hcr).
  split; apply elem_of_name_tokens; try done; exists c, k; (split; [done|lia]).
Qed.

(** ** Numbering the distinct tokens *)

Lemma dedup_after_sorted_Z left_ l :
  StronglySorted (λ x y : Z, (x ?= y)%Z ≠ Gt) (left_ :: l) →
  StronglySorted Z.lt (left_ :: dedup_after Z.eqb left_ l) ∧
  ∀ t, t ∈ left_ :: dedup_after Z.eqb left_ l ↔ t ∈ left_ :: l.
Proof.
  revert left_. induction l as [|x l IH]; intros left_ [Hle Hs]%StronglySorted_cons; simpl.
  { split; [by repeat constructor|done]. }
  pose proof Hs as [Hx Hsl]%StronglySorted_cons. apply Forall_cons in Hle as [Hlx Hle]. change (left_ ≤ x)%Z in Hlx.
  destruct (Z.eqb_spec x left_) as [->|Hne].
  - destruct (IH left_) as [Hs1 Hin]; [by constructor|]. split; [done|]. intros t. rewrite Hin. set_solver.
  - destruct (IH x Hs) as [Hs1 Hin]. split.
    + constructor; [done|]. pose proof Hs1 as [Hgt _]%StronglySorted_cons. constructor; [lia|].
      eapply Forall_impl; [exact Hgt|]. intros y ?. cbv beta in *. lia.
    + intros t. rewrite !(elem_of_cons _ _ left_), Hin. done.
Qed.

Lemma dedup_sorted_Z (l : list Z) :
  StronglySorted (λ x y : Z, (x ?= y)%Z ≠ Gt) l →
  NoDup (dedup_by Z.eqb l) ∧ ∀ t, t ∈ dedup_by Z.eqb l ↔ t ∈ l.
Proof.
  destruct l as [|x l]; [split; [constructor|done]|]. intros [Hs Hin]%dedup_after_sorted_Z. split; [|done].
  clear Hin. cbn [dedup_by]. induction Hs as [|y ys _ IH Hy]; constructor; [|done].
  intros Hin. apply (proj1 (Forall_forall _ _) Hy) in Hin. lia.
Qed.

Lemma number_tokens_lookup unique t i :
  NoDup unique → number_tokens unique !! t = Some i ↔ unique !! i = Some t.
Proof.
  unfold number_tokens. revert i. induction unique as [|x unique IH] using rev_ind; intros i Hnd.
  { simpl. rewrite lookup_empty. done. }
  apply NoDup_app in Hnd as (Hnd & Hx & _). rewrite imap_app, foldl_app. cbn [imap foldl]. rewrite Nat.add_0_r.
  destruct (decide (x = t)) as [->|Hne].
  - rewrite lookup_insert_eq. split.
    + intros [= <-]. by rewrite lookup_app_r, Nat.sub_diag by lia.
    + rewrite lookup_app_Some. intros [Hi|[Hle Hi]].
      * exfalso. apply (Hx t); [by eapply list_elem_of_lookup_2|by left].
      * destruct (i - length unique) eqn:E; [f_equal; lia|done].
  - rewrite lookup_insert_ne, IH, lookup_app_Some by done. split; [by left|]. intros [Hi|[Hle Hi]]; [done|].
    destruct (i - length unique) as [|n] eqn:E; [simplify_eq/=|by destruct n].
Qed.

Lemma size_number_tokens unique : NoDup unique → size (number_tokens unique) = length unique.
Proof.
  induction unique as [|x unique IH] using rev_ind; intros Hnd; [done|].
  apply NoDup_app in Hnd as (Hnd & Hx & _). unfold number_tokens. rewrite imap_app, foldl_app. cbn [imap foldl].
  fold (number_tokens unique). rewrite Nat.add_0_r.
  assert (Hnone : number_tokens unique !! x = None).
  { apply eq_None_not_Some. intros [i Hi]. apply number_tokens_lookup in Hi; [|done].
    apply (Hx x); [by eapply list_elem_of_lookup_2|by left]. }
  rewrite map_size_insert_None, IH, length_app by done. simpl. lia.
Qed.

(** ** Postings from sorted pairs *)

(** Counting the pairs of each token. *)
Lemma bump_at_counts n ts :
  Forall (λ t, t < n) ts →
  foldM bump_at (replicate n 0) ts = Some ((λ t, length (filter (λ u, u = t) ts)) <$> seq 0 n).
Proof.
  induction ts as [|t ts IH] using rev_ind; intros Hts.
  { simpl. f_equal. apply list_eq. intros i. rewrite list_lookup_fmap. destruct (decide (i < n)).
    - by rewrite lookup_replicate_2, lookup_seq_lt by done.
    - rewrite lookup_seq_ge by lia. apply lookup_ge_None. rewrite length_replicate. lia. }
  apply Forall_app in Hts as [Hts [Ht _]%Forall_cons]. rewrite foldM_app, IH by done. cbn [mbind option_bind foldM].
  unfold bump_at. rewrite list_lookup_fmap, lookup_seq_lt by done. cbn. f_equal. apply list_eq. intros i.
  destruct (decide (i = t)) as [->|Hne].
  - rewrite list_lookup_insert_eq by (by rewrite length_fmap, length_seq).
    rewrite list_lookup_fmap, lookup_seq_lt by done. cbn. rewrite filter_app, length_app, filter_cons_True by done. simpl. f_equal. lia.
  - rewrite list_lookup_insert_ne, !list_lookup_fmap by done. destruct (decide (i < n)).
    + rewrite lookup_seq_lt by done. cbn. rewrite filter_app, length_app, filter_cons_False by done. simpl. f_equal. lia.
    + by rewrite !lookup_seq_ge by lia.
Qed.

(** A sorted list starts with the elements of the least key. *)
Lemma split_minimum {A} (key : A → nat) start (l : list A) :
  StronglySorted (λ x y, key x ≤ key y) l → Forall (λ x, start ≤ key x) l →
  l = filter (λ x, key x = start) l ++ filter (λ x, key x ≠ start) l.
Proof.
  induction 1 as [|x l Hs IH Hx]; [done|]. intros [Hkx Hl]%Forall_cons.
  destruct (decide (key x = start)) as [Heq|Hne].
  - rewrite filter_cons_True, filter_cons_False by (done || lia). simpl. f_equal. by apply IH.
  - rewrite filter_cons_False, filter_cons_True by done.
    assert (Hgt : ∀ y, y ∈ l → key y ≠ start).
    { intros y Hy. pose proof (proj1 (Forall_forall _ _) Hx y Hy). simpl in *. lia. }
    rewrite filter_none by done. simpl. f_equal. symmetry. by apply filter_all.
Qed.

(** A list sorted by a key below [n] is the concatenation of its groups. *)
Lemma sorted_groups {A} (key : A → nat) n (l : list A) :
  StronglySorted (λ x y, key x ≤ key y) l → Forall (λ x, key x < n) l →
  l = mjoin ((λ k, filter (λ x, key x = k) l) <$> seq 0 n).
Proof.
  intros Hs Hn.
  enough (Hgen : ∀ n start l, StronglySorted (λ x y, key x ≤ key y) l → Forall (λ x, start ≤ key x < start + n) l →
    l = mjoin ((λ k, filter (λ x, key x = k) l) <$> seq start n)).
  { apply Hgen; [done|]. eapply Forall_impl; [exact Hn|]. simpl. lia. }
  clear. intros n. induction n as [|n IH]; intros start l Hs Hl.
  { destruct l as [|x l]; [done|]. apply Forall_cons in Hl as [? _]. lia. }
  cbn [seq]. rewrite fmap_cons, mjoin_cons. rewrite (split_minimum key start l) at 1; [f_equal|done|].
  2:{ eapply Forall_impl; [exact Hl|]. simpl. lia. }
  rewrite (IH (S start) (filter (λ x, key x ≠ start) l)) at 1.
  - f_equal. apply list_fmap_ext. intros i k [Hk _]%lookup_seq.
    rewrite list_filter_filter. apply list_filter_iff. intros x. lia.
  - by eapply StronglySorted_filter; [|exact Hs].
  - apply Forall_forall. intros x [Hne Hx]%list_elem_of_filter. pose proof (proj1 (Forall_forall _ _) Hl x Hx). simpl in *. lia.
Qed.

(** ** The build *)

Definition tokens_of (name : CanonicalName) : list Z := name_tokens ∅ (characters name).

(** [t] is the [i]-th distinct token. *)
Definition numbers (unique : list Z) (ts : list Z) (doc : list nat) : Prop :=
  Forall2 (λ t i, unique !! i = Some t) ts doc.

(** What the index says about documents. *)
Record indexes_documents (docs : list (list nat)) (index : ResidentNameIndex) : Prop := {
  indexes_prefix i doc : docs !! i = Some doc → ∃ p, prefix index i = Some p ∧ p ≡ₚ doc ∧
    StronglySorted (λ a b, prefix_compare (posting_offsets index) a b ≠ Gt) p;
  indexes_sorted i doc : docs !! i = Some doc → ∃ s, sorted index i = Some s ∧ s ≡ₚ doc ∧ StronglySorted le s;
  indexes_posting i doc t : docs !! i = Some doc → t ∈ doc → ∃ l, posting index t = Some l ∧ StronglySorted lt l ∧
    ∀ j, j ∈ l ↔ ∃ doc', docs !! j = Some doc' ∧ t ∈ doc';
}.

(** What it says about names: an injective numbering of their tokens. *)
Definition indexes (names : list CanonicalName) (index : ResidentNameIndex) : Prop :=
  ∃ unique docs, NoDup unique ∧ Forall2 (λ name doc, numbers unique (tokens_of name) doc) names docs ∧
    indexes_documents docs index.

(** More names, or more distinct tokens, than 32 bits count. *)
Definition too_many_names (names : list CanonicalName) : Prop :=
  (u32_MAX < Z.of_nat (length names))%Z ∨
  ∃ unique, NoDup unique ∧ (∀ t, t ∈ unique → ∃ name, name ∈ names ∧ t ∈ tokens_of name) ∧
    (u32_MAX < Z.of_nat (length unique))%Z.

Section Postings.
Context (docs : list (list nat)) (n : nat).
Context (Hnd : Forall NoDup docs) (Hn : Forall (Forall (λ t, t < n)) docs).

Definition pairs_of (k : nat) : list (Z * Z) :=
  map (λ token, (Z.of_nat token, Z.of_nat k)) (default [] (docs !! k)).
Definition all_pairs : list (Z * Z) := mjoin (map pairs_of (seq 0 (length docs))).

Lemma elem_of_all_pairs p :
  p ∈ all_pairs ↔ ∃ k doc t, p = (Z.of_nat t, Z.of_nat k) ∧ docs !! k = Some doc ∧ t ∈ doc.
Proof.
  unfold all_pairs. rewrite list_elem_of_join. split.
  - intros (l & Hp & (k & -> & [_ Hk]%elem_of_seq)%list_elem_of_fmap). unfold pairs_of in Hp.
    destruct (lookup_lt_is_Some_2 docs k) as [doc Hdoc]; [lia|]. rewrite Hdoc in Hp.
    apply list_elem_of_fmap in Hp as (t & -> & Ht). eauto 6.
  - intros (k & doc & t & -> & Hdoc & Ht). exists (pairs_of k). split.
    + unfold pairs_of. rewrite Hdoc. by apply (list_elem_of_fmap_2 (λ t : nat, (Z.of_nat t, Z.of_nat k))).
    + apply list_elem_of_fmap_2, elem_of_seq. pose proof (lookup_lt_Some _ _ _ Hdoc). lia.
Qed.

Lemma all_pairs_NoDup : NoDup all_pairs.
Proof.
  unfold all_pairs. assert (Hseq : ∀ start m, NoDup (mjoin (map pairs_of (seq start m))) ∧
    ∀ p, p ∈ mjoin (map pairs_of (seq start m)) → ∃ k, p.2 = Z.of_nat k ∧ start ≤ k); [|apply Hseq].
  intros start m. revert start. induction m as [|m IH]; intros start; [split; [constructor|by intros p ?%elem_of_nil]|].
  cbn [seq]. rewrite map_cons, mjoin_cons. destruct (IH (S start)) as [Hm Hin]. split.
  - apply NoDup_app. split; [|split; [|done]].
    + unfold pairs_of. assert (Inj eq eq (λ t : nat, (Z.of_nat t, Z.of_nat start))) by (intros t u [=]; lia).
      apply (NoDup_fmap_2 (λ t : nat, (Z.of_nat t, Z.of_nat start))).
      * destruct (docs !! start) as [doc|] eqn:E; [|constructor]. by eapply (proj1 (Forall_lookup _ _) Hnd).
    + intros p Hp (k & Hk & Hle)%Hin. apply list_elem_of_fmap in Hp as (t & -> & _). simpl in Hk. lia.
  - intros p [Hp|(k & Hk & Hle)%Hin]%elem_of_app; [|exists k; split; [done|lia]].
    apply list_elem_of_fmap in Hp as (t & -> & _). exists start. done.
Qed.

(** The postings of a sorted permutation of the pairs. *)
Lemma sorted_pairs_posting pairs index :
  pairs ≡ₚ all_pairs → StronglySorted (λ x y, pair_compare x y ≠ Gt) pairs →
  posting_offsets index = running_offsets ((λ t, length (filter (λ u, u = t) (map (λ p, Z.to_nat p.1) pairs))) <$> seq 0 n) →
  posting_names index = map (λ p, Z.to_nat p.2) pairs →
  ∀ t, t < n → ∃ l, posting index t = Some l ∧ StronglySorted lt l ∧
    ∀ j, j ∈ l ↔ ∃ doc', docs !! j = Some doc' ∧ t ∈ doc'.
Proof.
  intros Hp Hs Hoff Hnames t Ht. set (group t := filter (λ p : Z * Z, Z.to_nat p.1 = t) pairs).
  assert (Hmem : ∀ p, p ∈ pairs → ∃ k doc u, p = (Z.of_nat u, Z.of_nat k) ∧ docs !! k = Some doc ∧ u ∈ doc)
    by (intros p; rewrite Hp; apply elem_of_all_pairs).
  assert (Hgroups : pairs = mjoin (group <$> seq 0 n)).
  { apply (sorted_groups (λ p : Z * Z, Z.to_nat p.1)).
    - assert (Hpos : Forall (λ p : Z * Z, (0 ≤ p.1)%Z) pairs) by (apply Forall_forall; intros p (k & doc & u & -> & _)%Hmem; simpl; lia).
      clear -Hs Hpos. induction Hs as [|x l Hs IH Hx]; [constructor|]. apply Forall_cons in Hpos as [Hx0 Hpos].
      constructor; [by apply IH|]. apply Forall_forall. intros y Hy.
      pose proof (proj1 (Forall_forall _ _) Hx y Hy) as Hle. pose proof (proj1 (Forall_forall _ _) Hpos y Hy). cbv beta in *.
      unfold pair_compare in Hle. destruct (Z.compare_spec x.1 y.1); [lia..|done].
    - apply Forall_forall. intros p (k & doc & u & -> & Hdoc & Hu)%Hmem. simpl. rewrite Nat2Z.id.
      by eapply (proj1 (Forall_forall _ _) (proj1 (Forall_lookup _ _) Hn k doc Hdoc)). }
  set (names_of t := map (λ p : Z * Z, Z.to_nat p.2) (group t)).
  assert (Hjoin : map (λ p : Z * Z, Z.to_nat p.2) pairs = mjoin (names_of <$> seq 0 n)).
  { rewrite Hgroups at 1. clear. induction (seq 0 n) as [|k ks IH]; [done|]. rewrite !fmap_cons, !mjoin_cons, map_app. by f_equal. }
  assert (Hlens : (λ t, length (filter (λ u, u = t) (map (λ p : Z * Z, Z.to_nat p.1) pairs))) <$> seq 0 n = length <$> (names_of <$> seq 0 n)).
  { rewrite <- list_fmap_compose. apply list_fmap_ext. intros i k _. simpl. unfold names_of. rewrite length_map.
    change (map ?f pairs) with (f <$> pairs). rewrite (filter_fmap (λ u, u = k)), length_fmap. done. }
  destruct (offsets_slice (names_of <$> seq 0 n) _ t (names_of t) Hlens) as (a & b & Ha & Hb & _ & Hslice).
  { by rewrite list_lookup_fmap, lookup_seq_lt. }
  exists (names_of t). split; [|split].
  - unfold posting. rewrite Hoff, Ha, Hnames. cbn. rewrite Hb. cbn. by rewrite Hjoin.
  - assert (Hnd' : NoDup pairs) by (rewrite Hp; apply all_pairs_NoDup).
    assert (Hgs : StronglySorted (λ x y, pair_compare x y ≠ Gt) (group t)) by by eapply StronglySorted_filter; [|exact Hs].
    assert (Hgn : NoDup (group t)) by by apply NoDup_filter.
    assert (Hgm : ∀ p, p ∈ group t → p.1 = Z.of_nat t ∧ (0 ≤ p.2)%Z).
    { intros p [Hpt (k & doc & u & -> & _)%Hmem]%list_elem_of_filter. simpl in *. lia. }
    unfold names_of. clear -Hgs Hgn Hgm. induction Hgs as [|x l Hs IH Hx]; [constructor|].
    apply NoDup_cons in Hgn as [Hxl Hgn]. rewrite map_cons. constructor; [apply IH; [done|]; intros p Hp; apply Hgm; by right|].
    apply Forall_forall. intros y (q & -> & Hq)%list_elem_of_fmap.
    pose proof (proj1 (Forall_forall _ _) Hx q Hq) as Hle. cbv beta in Hle.
    destruct (Hgm x ltac:(by left)) as [Hx1 Hx2], (Hgm q ltac:(by right)) as [Hq1 Hq2].
    unfold pair_compare in Hle. rewrite Hx1, Hq1, Z.compare_refl in Hle.
    assert (x.2 ≠ q.2) by (intros Heq; apply Hxl; by replace x with q by (destruct x, q; simpl in *; congruence)).
    destruct (Z.compare_spec x.2 q.2); [lia|lia|done].
  - intros j. unfold names_of. split.
    + intros (p & -> & [Hpt (k & doc & u & -> & Hdoc & Hu)%Hmem]%list_elem_of_filter)%list_elem_of_fmap.
      simpl in *. rewrite !Nat2Z.id in *. subst u. by exists doc.
    + intros (doc & Hdoc & Hin). apply list_elem_of_fmap. exists (Z.of_nat t, Z.of_nat j). simpl. rewrite Nat2Z.id. split; [done|].
      apply list_elem_of_filter. simpl. rewrite Nat2Z.id. split; [done|]. rewrite Hp. apply elem_of_all_pairs. eauto 7.
Qed.
End Postings.

Section Build.
Context `{UnstableSort} `{WriteSchedule Z} `{WriteSchedule (Z * Z)} (threads : nat).
Context (names : list CanonicalName) (Hnames : Forall (λ name, chars_ok (characters name)) names).
#[local] Existing Instance never_cancelled.

Definition raw_tokens : list Z := mjoin (map tokens_of names).

Lemma elem_of_raw_tokens t : t ∈ raw_tokens ↔ ∃ name, name ∈ names ∧ t ∈ tokens_of name.
Proof.
  unfold raw_tokens. rewrite list_elem_of_join. split.
  - intros (l & Ht & (name & -> & Hname)%list_elem_of_fmap). eauto.
  - intros (name & Hname & Ht). exists (tokens_of name). split; [done|]. by apply list_elem_of_fmap_2.
Qed.

Lemma document_chunks_quiet :
  collect (map document_chunk (imap pair (chunks INDEX_CHUNK names))) =
    Returns (map (λ c, (map length (map tokens_of c.2), mjoin (map tokens_of c.2))) (imap pair (chunks INDEX_CHUNK names))).
Proof. apply collect_map_Returns. done. Qed.

Lemma join_map_join {A B C} (f : A → list B) (g : B → C) (l : list A) :
  mjoin (map (λ x, map g (f x)) l) = map g (mjoin (map f l)).
Proof. induction l as [|x l IH]; [done|]. rewrite !map_cons, !mjoin_cons, map_app. by f_equal. Qed.

Lemma join_map_concat {A B C} (f : A → list B) (g : B → list C) (l : list A) :
  mjoin (map (λ x, mjoin (map g (f x))) l) = mjoin (map g (mjoin (map f l))).
Proof.
  induction l as [|x l IH]; [done|]. rewrite !map_cons, !mjoin_cons, map_app, IH.
  symmetry. apply (join_app (map g (f x))).
Qed.

Lemma document_chunks_lengths :
  mjoin (map fst (map (λ c, (map length (map tokens_of c.2), mjoin (map tokens_of c.2))) (imap pair (chunks INDEX_CHUNK names)))) =
    length <$> map tokens_of names.
Proof.
  rewrite map_map. cbn [fst].
  rewrite (map_ext _ (λ c : nat * list CanonicalName, map (length ∘ tokens_of) c.2)) by (intros c; by rewrite map_map).
  rewrite chunks_map by (unfold INDEX_CHUNK; lia). symmetry. apply (map_map tokens_of length).
Qed.

Lemma document_chunks_tokens :
  mjoin (map snd (map (λ c, (map length (map tokens_of c.2), mjoin (map tokens_of c.2))) (imap pair (chunks INDEX_CHUNK names)))) = raw_tokens.
Proof.
  rewrite map_map. cbn [snd]. rewrite (join_map_concat snd tokens_of), imap_pair_snd.
  by rewrite chunks_concat by (unfold INDEX_CHUNK; lia).
Qed.

Context (unique : list Z) (Hunique : NoDup unique) (Hin : ∀ t, t ∈ unique ↔ t ∈ raw_tokens).

Definition encode (t : Z) : nat := default 0 (number_tokens unique !! t).
Definition encoded : list (list nat) := map (λ name, map encode (tokens_of name)) names.

Lemma encode_spec t : t ∈ raw_tokens → number_tokens unique !! t = Some (encode t) ∧ unique !! encode t = Some t.
Proof.
  intros [i Hi]%Hin%list_elem_of_lookup. assert (Hlook : number_tokens unique !! t = Some i) by by apply number_tokens_lookup.
  unfold encode. by rewrite Hlook.
Qed.

Lemma encode_chunks_quiet :
  collect (map (encode_chunk (number_tokens unique)) (imap pair (chunks INDEX_CHUNK raw_tokens))) =
    Returns (map (λ c, map encode c.2) (imap pair (chunks INDEX_CHUNK raw_tokens))).
Proof.
  apply collect_map_Returns. intros c Hc. unfold encode_chunk. cbn.
  assert (mapM (M := option) (λ token, number_tokens unique !! token) c.2 = Some (map encode c.2)) as ->; [|done].
  apply mapM_Some. apply Forall2_fmap_r, Forall_Forall2_diag, Forall_forall. intros t Ht. apply encode_spec.
  rewrite <- (chunks_concat INDEX_CHUNK raw_tokens) by (unfold INDEX_CHUNK; lia). apply list_elem_of_join. exists c.2. split; [done|].
  rewrite <- (imap_pair_snd (chunks INDEX_CHUNK raw_tokens)). by apply (list_elem_of_fmap_2 snd).
Qed.

Lemma encoded_join : map encode raw_tokens = mjoin encoded.
Proof. unfold raw_tokens, encoded. symmetry. apply join_map_join. Qed.

Lemma encoded_lengths : length <$> map tokens_of names = length <$> encoded.
Proof. unfold encoded. rewrite <- !list_fmap_compose. apply list_fmap_ext. intros i name _. simpl. by rewrite length_map. Qed.

Lemma length_encoded : length encoded = length names.
Proof. apply length_map. Qed.

Lemma posting_chunks_quiet :
  collect (map (posting_chunk (running_offsets (length <$> encoded)) (mjoin encoded)) (imap pair (chunks INDEX_CHUNK names))) =
    Returns (map (λ c, mjoin (map (pairs_of encoded) (seq (c.1 * INDEX_CHUNK) (length c.2)))) (imap pair (chunks INDEX_CHUNK names))).
Proof.
  apply collect_map_Returns. intros c Hc. unfold posting_chunk. cbn.
  assert (mapM (M := option) (name_pairs (running_offsets (length <$> encoded)) (mjoin encoded)) (seq (c.1 * INDEX_CHUNK) (length c.2)) =
    Some (map (pairs_of encoded) (seq (c.1 * INDEX_CHUNK) (length c.2)))) as ->; [|done].
  apply mapM_Some. apply Forall2_fmap_r, Forall_Forall2_diag, Forall_forall. intros k Hk.
  assert (Hk' : k ∈ seq 0 (length names)).
  { rewrite <- (chunks_positions INDEX_CHUNK names) by (unfold INDEX_CHUNK; lia). apply list_elem_of_join. eexists. split; [exact Hk|].
    by apply (list_elem_of_fmap_2 (λ c : nat * list CanonicalName, seq (c.1 * INDEX_CHUNK) (length c.2))). }
  apply elem_of_seq in Hk'. destruct (lookup_lt_is_Some_2 encoded k) as [doc Hdoc]; [rewrite length_encoded; lia|].
  destruct (offsets_slice encoded _ k doc eq_refl Hdoc) as (a & b & Ha & Hb & _ & Hs).
  unfold name_pairs. rewrite Ha. cbn. rewrite Hb. cbn. rewrite Hs. cbn. unfold pairs_of. by rewrite Hdoc.
Qed.

Lemma posting_chunks_pairs :
  mjoin (map (λ c, mjoin (map (pairs_of encoded) (seq (c.1 * INDEX_CHUNK) (length c.2)))) (imap pair (chunks INDEX_CHUNK names))) =
    all_pairs encoded.
Proof.
  rewrite (join_map_concat (λ c : nat * list CanonicalName, seq (c.1 * INDEX_CHUNK) (length c.2)) (pairs_of encoded)).
  rewrite chunks_positions by (unfold INDEX_CHUNK; lia). unfold all_pairs. by rewrite length_encoded.
Qed.

Lemma encoded_numbers : Forall2 (λ name doc, numbers unique (tokens_of name) doc) names encoded.
Proof.
  unfold encoded. apply Forall2_fmap_r, Forall_Forall2_diag, Forall_forall. intros name Hname.
  unfold numbers. apply Forall2_fmap_r, Forall_Forall2_diag, Forall_forall. intros t Ht. apply encode_spec, elem_of_raw_tokens. eauto.
Qed.

Lemma encoded_below : Forall (Forall (λ t, t < length unique)) encoded.
Proof.
  apply Forall_forall. intros doc (name & -> & Hname)%list_elem_of_fmap. apply Forall_forall. intros i (t & -> & Ht)%list_elem_of_fmap.
  eapply lookup_lt_Some. apply encode_spec, elem_of_raw_tokens. eauto.
Qed.

Lemma encoded_NoDup : Forall NoDup encoded.
Proof.
  apply Forall_forall. intros doc (name & -> & Hname)%list_elem_of_fmap.
  assert (Hraw : ∀ t, t ∈ tokens_of name → t ∈ raw_tokens) by (intros t Ht; apply elem_of_raw_tokens; eauto).
  pose proof (name_tokens_NoDup _ (proj1 (Forall_forall _ _) Hnames name Hname)) as Hnd. fold (tokens_of name) in Hnd.
  induction Hnd as [|t ts Ht Hnd IH]; [constructor|]. rewrite map_cons. constructor; [|apply IH; intros u Hu; apply Hraw; by right].
  intros (u & Heq & Hu)%list_elem_of_fmap. apply Ht.
  destruct (encode_spec t (Hraw t ltac:(by left))) as [_ Ht1], (encode_spec u (Hraw u ltac:(by right))) as [_ Hu1].
  rewrite Heq in Ht1. by replace t with u by congruence.
Qed.
End Build.

Section BuildOk.
Context `{UnstableSort} `{WriteSchedule Z} `{WriteSchedule (Z * Z)} (threads : nat).
#[local] Existing Instance never_cancelled.

(** A sort that is never cancelled finishes sorted. *)
Lemma sorted_quiet {A} (compare : A → A → comparison) p values r :
  sorted_outcome (sort_callback p) compare values r →
  ∃ out, sorted_or_interrupted r = Returns out ∧ out ≡ₚ values ∧ StronglySorted (λ x y, compare x y ≠ Gt) out.
Proof.
  intros (finished & out & st & -> & Hp & Hs & Hf). assert (finished = true) as -> by by apply Hf.
  exists out. split; [done|]. by split; [|apply Hs].
Qed.

(** The documents of both orders, cut along the offsets of the originals. *)
Lemma ordered_documents docs (order : list nat → list nat) i doc :
  (∀ doc, order doc ≡ₚ doc) → docs !! i = Some doc →
  (start ← running_offsets (length <$> docs) !! i; end_ ← running_offsets (length <$> docs) !! S i;
   slice (mjoin (map order docs)) start end_) = Some (order doc).
Proof.
  intros Ho Hi.
  assert (Hlen : length <$> docs = length <$> map order docs).
  { change (map order docs) with (order <$> docs). rewrite <- list_fmap_compose. apply list_fmap_ext. intros j d _. simpl. by rewrite Ho. }
  destruct (offsets_slice (map order docs) _ i (order doc) Hlen) as (a & b & Ha & Hb & _ & Hs).
  { change (map order docs) with (order <$> docs). by rewrite list_lookup_fmap, Hi. }
  rewrite Ha. cbn. rewrite Hb. exact Hs.
Qed.

#[local] Instance prefix_compare_laws offsets : CompareLaws (prefix_compare offsets).
Proof.
  apply then_with_laws; [|apply nat_compare_laws].
  exact (compare_map_laws (λ t, default 0 (posting_length offsets t)) Nat.compare nat_compare_laws).
Qed.

Lemma ResidentNameIndex_build_ok names :
  Forall (λ name, chars_ok (characters name)) names →
  match ResidentNameIndex_build threads names with
  | Returns index => indexes names index
  | Fails e => e = InvalidInput "name" ∧ too_many_names names
  | Panics => False
  end.
Proof.
  intros Hnames. unfold ResidentNameIndex_build. case_decide as Hmany; [split; [done|by left]|].
  rewrite document_chunks_quiet. cbn [mbind outcome_bind].
  rewrite document_chunks_lengths, document_chunks_tokens. cbv zeta.
  destruct (sorted_quiet Z.compare SortNameTokens (raw_tokens names) (sort_u64_while threads (raw_tokens names) (sort_callback SortNameTokens) 0))
    as (sorted_tokens & -> & Hsp & Hss).
  { apply sort_u64_outcome, Forall_forall. intros t (name & Hname & Ht)%elem_of_raw_tokens.
    eapply name_token_u64; [|exact Ht]. by apply (proj1 (Forall_forall _ _) Hnames). }
  cbn [mbind outcome_bind]. destruct (dedup_sorted_Z _ Hss) as [Hunique Hin]. set (unique := dedup_by Z.eqb sorted_tokens) in *.
  assert (Hin' : ∀ t, t ∈ unique ↔ t ∈ raw_tokens names) by (intros t; by rewrite Hin, Hsp).
  case_decide as Htokens.
  { split; [done|]. right. exists unique. split; [done|]. split; [|done]. intros t Ht. by apply elem_of_raw_tokens, Hin'. }
  rewrite (encode_chunks_quiet names unique Hunique Hin'). cbn [mbind outcome_bind].
  rewrite chunks_map by (unfold INDEX_CHUNK; lia). rewrite encoded_join, (encoded_lengths names unique).
  rewrite (posting_chunks_quiet names unique). cbn [mbind outcome_bind]. rewrite posting_chunks_pairs.
  pose proof (encoded_numbers names unique Hunique Hin') as Hnum. pose proof (encoded_below names unique Hunique Hin') as Hbelow.
  pose proof (encoded_NoDup names Hnames unique Hunique Hin') as Hnd. pose proof (length_encoded names unique) as Hlen.
  set (docs := encoded names unique) in *.
  destruct (sorted_quiet pair_compare SortNamePostings (all_pairs docs) (sort_u32_pairs_while threads (all_pairs docs) (sort_callback SortNamePostings) 0))
    as (pairs & -> & Hpp & Hps).
  { apply sort_u32_pairs_outcome, Forall_forall. intros p (k & doc & t & -> & Hdoc & Ht)%elem_of_all_pairs.
    pose proof (lookup_lt_Some _ _ _ Hdoc). pose proof (proj1 (Forall_forall _ _) (proj1 (Forall_lookup _ _) Hbelow k doc Hdoc) t Ht).
    unfold is_u32, u32_MAX in *. simpl in *. lia. }
  cbn [mbind outcome_bind]. rewrite size_number_tokens by done.
  assert (Hts : Forall (λ t, t < length unique) (map (λ p : Z * Z, Z.to_nat p.1) pairs)).
  { apply Forall_forall. intros t (p & -> & Hp)%list_elem_of_fmap. rewrite Hpp in Hp.
    apply elem_of_all_pairs in Hp as (k & doc & u & -> & Hdoc & Hu). simpl. rewrite Nat2Z.id.
    by apply (proj1 (Forall_forall _ _) (proj1 (Forall_lookup _ _) Hbelow k doc Hdoc)). }
  rewrite (bump_at_counts _ _ Hts). cbn [or_panic mbind outcome_bind]. rewrite split_documents_offsets. cbn [or_panic mbind outcome_bind].
  set (offsets := running_offsets (_ <$> seq 0 (length unique))).
  rewrite (collect_map_Returns _ (λ c, map (λ doc, (sort_unstable_by Nat.compare doc, sort_unstable_by (prefix_compare offsets) doc)) c.2)) by done.
  cbn [mbind outcome_bind]. rewrite chunks_map by (unfold INDEX_CHUNK; lia). rewrite !map_map. cbn [fst snd].
  exists unique, docs. split; [done|]. split; [done|]. split.
  - intros i doc Hdoc. eexists. split; [unfold prefix; cbn; by apply ordered_documents; [apply sort_unstable_by_perm|]|].
    split; [apply sort_unstable_by_perm|]. apply sort_unstable_by_sorted. apply prefix_compare_laws.
  - intros i doc Hdoc. eexists. split; [unfold sorted; cbn; by apply ordered_documents; [apply sort_unstable_by_perm|]|].
    split; [apply sort_unstable_by_perm|]. pose proof (sort_unstable_by_sorted Nat.compare doc nat_compare_laws) as Hs.
    clear -Hs. induction Hs as [|x l Hs IH Hx]; constructor; [done|]. eapply Forall_impl; [exact Hx|].
    intros y Hy. cbv beta in Hy. by apply Nat.compare_le_iff.
  - intros i doc t Hdoc Ht. eapply (sorted_pairs_posting docs (length unique) Hnd Hbelow pairs); try done.
    by apply (proj1 (Forall_forall _ _) (proj1 (Forall_lookup _ _) Hbelow i doc Hdoc)).
Qed.
End BuildOk.

(** ** Properties *)

(** C13: Building the index of names never panics.  It fails only with an input
    error, when more names or tokens are given than 32 bits count.  Otherwise the
    tokens of the names are numbered injectively, every document is kept in both
    orders (by rarity and by number), and the posting of each of its tokens lists
    exactly the names that have the token, in increasing order; for any number of
    threads and any interleaving of the parallel sorts. *)
Theorem resident_index_complete `{UnstableSort} `{WriteSchedule Z} `{WriteSchedule (Z * Z)}
    (threads : nat) (names : list CanonicalName) :
  Forall (λ name, chars_ok (characters name)) names →
  match @ResidentNameIndex_build never_cancelled _ _ _ threads names with
  | Returns index => indexes names index
  | Fails e => e = InvalidInput "name" ∧ too_many_names names
  | Panics => False
  end.
Proof. apply ResidentNameIndex_build_ok. Qed.

Definition example_name (id : nat) (text : string) : CanonicalName :=
  {| canonical_name_id := id; characters := lit text;
     atoms := [{| atom_chain_id := 0; members := [{| member_contract_id := id; member_nft_id := None |}] |}] |}.

Definition example_names : list CanonicalName := [example_name 0 "ape"; example_name 1 "cat"; example_name 2 "apes"].

Lemma example_names_chars : Forall (λ name, chars_ok (characters name)) example_names.
Proof. repeat constructor. Qed.

Lemma example_index_computed :
  match @ResidentNameIndex_build never_cancelled stable_sort _ _ 4 example_names with
  | Returns index => bool_decide (sorted index 2 = Some [0; 2; 3; 4] ∧ posting index 2 = Some [0; 2])
  | _ => false
  end = true.
Proof. vm_compute. reflexivity. Qed.

(** The third token of the third name is its [e], shared with the first. *)
Lemma resident_index_complete_witness :
  match @ResidentNameIndex_build never_cancelled stable_sort _ _ 4 example_names with
  | Returns index => sorted index 2 = Some [0; 2; 3; 4] ∧ posting index 2 = Some [0; 2] ∧ indexes example_names index
  | _ => False
  end.
Proof.
  generalize (@resident_index_complete stable_sort _ _ 4 example_names example_names_chars).
  generalize example_index_computed.
  generalize (@ResidentNameIndex_build never_cancelled stable_sort _ _ 4 example_names).
  intros [index| |]; [|discriminate..]. intros [? ?]%bool_decide_eq_true. done.
Defined.
