(* ===== verification/NameScore.v ===== *)
(** Scoring of the name candidates ([dedup/crates/core/src/name/mod.rs]): the window
    of right names that the lengths allow, the candidates that share a rare token, the
    overlap filter, the Jaro-Winkler verifier (a parameter) and the parallel lanes. *)

From Stdlib Require Import QArith.
From S2P Require Import Prelude Radix Text CanonicalJson Types Anchors Sampling UriChunks Entity.
From S2P Require Import Outcome Float NameBounds NameIndex.

#[local] Open Scope nat_scope.

Record NameHit := { hit_member : NameMember; hit_peer_chain : ChainId }.
#[export] Instance NameHit_eq_dec : EqDecision NameHit.
Proof. solve_decision. Defined.
#[export] Instance NameHit_countable : Countable NameHit.
Proof.
  refine (inj_countable' (λ h, (hit_member h, hit_peer_chain h))
    (λ '(m, c), {| hit_member := m; hit_peer_chain := c |}) _).
  by intros [].
Defined.

Definition SCORE_PROGRESS_BATCH : nat := 64.
Definition SCORE_SCHEDULING_CHUNK : nat := 8.

(** [rapidfuzz]'s [BatchComparator::similarity_with_args(..).is_some()], with the
    score cutoff. *)
Class NameComparator := similar : list chr → list chr → Q → bool.

(** ** Hits *)

Definition record_atom_hits (atom : NameAtom) (peer_chain : ChainId) (hits : gset NameHit) : gset NameHit :=
  list_to_set (map (λ m, {| hit_member := m; hit_peer_chain := peer_chain |}) (members atom)) ∪ hits.

Definition record_pair_hits (left_ right_ : CanonicalName) (hits : gset NameHit) : gset NameHit :=
  foldl (λ hits left_atom,
    foldl (λ hits right_atom,
      record_atom_hits right_atom (atom_chain_id left_atom)
        (record_atom_hits left_atom (atom_chain_id right_atom) hits))
      hits (atoms right_))
    hits (atoms left_).

Definition name_member_len (name : CanonicalName) : nat :=
  sum_list (map (λ atom, length (members atom)) (atoms name)).

Fixpoint member_contract_at (atoms : list NameAtom) (member : nat) : option ContractId :=
  match atoms with
  | [] => None
  | atom :: atoms =>
      match members atom !! member with
      | Some m => Some (member_contract_id m)
      | None => member_contract_at atoms (member - length (members atom))
      end
  end.

(** Past the last member the code is [unreachable!]; the sampler asks only for
    members of the name. *)
Definition name_member_contract (name : CanonicalName) (member : nat) : ContractId :=
  default 0 (member_contract_at (atoms name) member).

(** ** The set of seen candidates, by generation *)

Record CandidateSeen := { generations : list Z; generation : Z }.

Definition CandidateSeen_new (name_count : nat) : CandidateSeen :=
  {| generations := replicate name_count 0%Z; generation := 0 |}.

Definition begin_name (seen : CandidateSeen) : CandidateSeen :=
  let generation := ((generation seen + 1) mod 2 ^ 16)%Z in
  if decide (generation = 0%Z)
  then {| generations := map (λ _, 0%Z) (generations seen); generation := 1 |}
  else {| generations := generations seen; generation := generation |}.

(** Whether the candidate is new; [None] is the panic of an index out of range. *)
Definition seen_insert (seen : CandidateSeen) (candidate : nat) : option (bool * CandidateSeen) :=
  slot ← generations seen !! candidate;
  Some (if decide (slot = generation seen) then (false, seen)
        else (true, {| generations := <[candidate := generation seen]> (generations seen);
                       generation := generation seen |})).

(** ** Candidates *)

(** [slice::partition_point] *)
Definition partition_point (before : nat → bool) (l : list nat) : option nat :=
  position <$> binary_search_by (λ x, if before x then Lt else Gt) l.

Definition push_candidate (acc : CandidateSeen * list nat) (candidate : nat)
    : option (CandidateSeen * list nat) :=
  '(fresh, seen) ← seen_insert acc.1 candidate;
  Some (seen, if fresh : bool then acc.2 ++ [candidate] else acc.2).

(** The candidates of one token. *)
Definition collect_token (index : ResidentNameIndex) (range_start range_end : nat)
    (acc : CandidateSeen * list nat) (token : nat) : option (CandidateSeen * list nat) :=
  posting ← posting index token;
  lo ← partition_point (λ a, a <? range_start) posting;
  hi ← partition_point (λ a, a <? range_end) posting;
  window ← slice posting lo hi;
  foldM push_candidate acc window.

Definition name_length (names : list CanonicalName) (name : nat) : option nat :=
  n ← names !! name; Some (length (characters n)).

Section Score.
Context (index : ResidentNameIndex) (names : list CanonicalName) (threshold_pct : Q).

Definition collect_range (left_ range_start range_end : nat) (acc : CandidateSeen * list nat)
    : option (CandidateSeen * list nat) :=
  if decide (range_end ≤ range_start) then Some acc else
  left_len ← name_length names left_;
  right_len ← name_length names range_start;
  let minimum_overlap := minimum_multiset_overlap left_len right_len (F64 threshold_pct) in
  if decide (minimum_overlap = 0) then
    Some (acc.1, acc.2 ++ seq range_start (range_end - range_start))
  else
    prefix ← prefix index left_;
    let prefix_len := Nat.min (length prefix - minimum_overlap + 1) (length prefix) in
    foldM (collect_token index range_start range_end) acc (take prefix_len prefix).

(** The two-pointer walk; [fuel] bounds the steps, and the total length is enough.
    [overlap] common tokens are behind [i] and [j]. *)
Fixpoint overlap_walk (fuel : nat) (left_ right_ : list nat) (required overlap : nat) : bool :=
  match fuel, left_, right_ with
  | S fuel, x :: left', y :: right' =>
      if decide (overlap + Nat.min (length left_) (length right_) < required) then false else
      match Nat.compare x y with
      | Eq => if decide (required ≤ overlap + 1) then true
              else overlap_walk fuel left' right' required (overlap + 1)
      | Lt => overlap_walk fuel left' right_ required overlap
      | Gt => overlap_walk fuel left_ right' required overlap
      end
  | _, _, _ => false
  end.

Definition sorted_name_token_overlap_at_least (left_ right_ : list nat) (required : nat) : bool :=
  if decide (required = 0) then true else
  overlap_walk (length left_ + length right_) left_ right_ required 0.

Definition resident_candidate_passes_overlap (left_ right_ : nat) : option bool :=
  left_len ← name_length names left_;
  right_len ← name_length names right_;
  let required := minimum_multiset_overlap left_len right_len (F64 threshold_pct) in
  if decide (required ≤ Nat.min left_len right_len) then
    left_tokens ← sorted index left_;
    right_tokens ← sorted index right_;
    Some (sorted_name_token_overlap_at_least left_tokens right_tokens required)
  else Some false.

(** [candidates.retain(..)] *)
Fixpoint retain_candidates (left_ : nat) (candidates : list nat) : option (list nat) :=
  match candidates with
  | [] => Some []
  | c :: candidates =>
      keep ← resident_candidate_passes_overlap left_ c;
      rest ← retain_candidates left_ candidates;
      Some (if keep : bool then c :: rest else rest)
  end.

(** The inner [while] of the window: [fuel] bounds the steps, and the number of names
    is enough. *)
Fixpoint extend_right (fuel left_len right_ : nat) : nat :=
  match fuel, name_length names right_ with
  | S fuel, Some right_len =>
      if lengths_can_reach left_len right_len (F64 threshold_pct) then extend_right fuel left_len (S right_)
      else right_
  | _, _ => right_
  end.

(** [build_right_name_range_ends]: the end of the window only moves right. *)
Definition range_end_step (acc : nat * list nat) (left_ : nat) : option (nat * list nat) :=
  left_len ← name_length names left_;
  let right_ := extend_right (length names) left_len (Nat.max acc.1 (left_ + 1)) in
  Some (right_, acc.2 ++ [right_]).

Definition build_right_name_range_ends : option (list nat) :=
  '(_, ends) ← foldM range_end_step (1, []) (seq 0 (length names - 1)); Some ends.

(** *** One left name *)

Section Lanes.
Context `{NameComparator} `{Sha256} `{Observer} (retries threads : nat).
Context (plan : PairSamplingPlan).

(** [(threshold_pct / 100.0).clamp(0.0, 1.0)] *)
Definition score_cutoff : Q :=
  let c := fdiv threshold_pct 100 in
  if fltb c 0 then 0%Q else if fltb 1 c then 1%Q else c.

Record Worker := { worker_seen : CandidateSeen; worker_hits : gset NameHit; worker_samples : PairSampler }.

Definition Worker_new (name_count : nat) : Worker :=
  {| worker_seen := CandidateSeen_new name_count; worker_hits := ∅; worker_samples := sampler plan |}.

(** A verified pair. *)
Definition accept_pair (left_ right_ : nat) (left_name right_name : CanonicalName) (w : Worker) : option Worker :=
  let hits := record_pair_hits left_name right_name (worker_hits w) in
  samples ← (if enabled (worker_samples w) then
               observe_cross_by retries (worker_samples w) (name_member_len left_name) (name_member_len right_name)
                 (name_member_contract left_name) (name_member_contract right_name)
                 (Z.lxor (Z.lxor 0x46555a5a59000000 (Z.shiftl (Z.of_nat left_) 32)) (Z.of_nat right_))
             else Some (worker_samples w));
  Some {| worker_seen := worker_seen w; worker_hits := hits; worker_samples := samples |}.

Definition score_candidate (left_ : nat) (left_name : CanonicalName) (w : Worker) (right_ : nat) : option Worker :=
  right_name ← names !! right_;
  if similar (characters left_name) (characters right_name) score_cutoff
  then accept_pair left_ right_ left_name right_name w
  else Some w.

Definition score_left (right_ends : list nat) (w : Worker) (left_ : nat) : option Worker :=
  let right_end := default (length names) (right_ends !! left_) in
  '(seen, candidates) ← collect_range left_ (left_ + 1) right_end (begin_name (worker_seen w), []);
  candidates ← retain_candidates left_ candidates;
  left_name ← names !! left_;
  foldM (score_candidate left_ left_name)
    {| worker_seen := seen; worker_hits := worker_hits w; worker_samples := worker_samples w |} candidates.

(** *** Lanes *)

(** The chunks of [SCORE_SCHEDULING_CHUNK] left names, handed out by the atomic
    counter: which lane takes the next chunk is up to the scheduler. *)
Definition left_chunk (left_count chunk : nat) : list nat :=
  seq (chunk * SCORE_SCHEDULING_CHUNK)
    (Nat.min (chunk * SCORE_SCHEDULING_CHUNK + SCORE_SCHEDULING_CHUNK) left_count - chunk * SCORE_SCHEDULING_CHUNK).

Definition lane_chunks (taker : nat → nat) (lane_count left_count lane : nat) : list nat :=
  filter (λ chunk, taker chunk mod lane_count = lane) (seq 0 (div_ceil left_count SCORE_SCHEDULING_CHUNK)).

(** The state of a lane: its worker, the names since the last report, the checks
    made, and whether one of them found the run cancelled. *)
Definition lane_step (lane : nat) (right_ends : list nat) (st : Worker * nat * nat * bool) (left_ : nat)
    : option (Worker * nat * nat * bool) :=
  let '(w, pending, checks, cancelled) := st in
  w ← score_left right_ends w left_;
  let pending := pending + 1 in
  Some (if decide (SCORE_PROGRESS_BATCH ≤ pending)
        then (w, 0, S checks, cancelled || check_cancelled_at (ScoreName lane) checks)
        else (w, pending, checks, cancelled)).

(** A lane; once a check of any lane has failed the others stop at their next chunk,
    which changes only results that are then dropped. *)
Definition run_lane (taker : nat → nat) (lane_count left_count : nat) (right_ends : list nat) (lane : nat)
    : option (Worker * bool) :=
  '(w, _, _, cancelled) ← foldM (lane_step lane right_ends) (Worker_new (length names), 0, 0, false)
    (mjoin (map (left_chunk left_count) (lane_chunks taker lane_count left_count lane)));
  Some (w, cancelled).

Definition Worker_merge (l r : Worker) : option Worker :=
  samples ← merge (worker_samples l) (worker_samples r);
  Some {| worker_seen := worker_seen l; worker_hits := worker_hits l ∪ worker_hits r; worker_samples := samples |}.

Definition score_resident_index_with_samples (taker : nat → nat) (shape : Reduction)
    : outcome (gset NameHit * PairSampler) :=
  let left_count := length names - 1 in
  if decide (left_count = 0) then Returns (∅, sampler plan) else
  right_ends ← or_panic build_right_name_range_ends;
  let lane_count := Nat.max (Nat.min threads left_count) 1 in
  lanes ← or_panic (mapM (M := option) (run_lane taker lane_count left_count right_ends) (seq 0 lane_count));
  worker ← or_panic (reduce (Worker_new 0) Worker_merge shape lanes.*1);
  if existsb snd lanes then Fails Interrupted else
  Returns (worker_hits worker, worker_samples worker).
End Lanes.
End Score.
