(* ===== verification/NameScoreFacts.v ===== *)
(** Scoring is exhaustive: the window, the token probes and the overlap filter lose
    no pair that the verifier accepts, and the lanes score every left name once. *)

From Stdlib Require Import QArith Lqa.
From S2P Require Import Prelude Radix Text CanonicalJson Types Anchors SortedLists Sampling.
From S2P Require Import UriChunks Entity Outcome Float NameBounds NameIndex NameIndexFacts.
From S2P Require Import NameScore.

#[local] Open Scope nat_scope.
#[local] Opaque rnd.

(** ** Postings in a range *)

Lemma partition_point_spec bound l :
  StronglySorted lt l →
  ∃ p, partition_point (λ a, a <? bound) l = Some p ∧ p ≤ length l ∧
    Forall (λ a, a < bound) (take p l) ∧ Forall (λ a, bound ≤ a) (drop p l).
Proof.
  intros Hs. unfold partition_point. set (f := λ x : nat, if x <? bound then Lt else Gt).
  destruct (binary_search_by_spec f l) as (r & -> & Hr & Hbefore & Hafter).
  { intros i j x y Hij Hx Hy Hgt. unfold f in *. destruct (Nat.ltb_spec x bound); [done|].
    assert (x ≤ y); [|by destruct (Nat.ltb_spec y bound); [lia|]].
    destruct (decide (i = j)) as [->|]; [by replace y with x by congruence|].
    pose proof (StronglySorted_lookup lt l i j x y Hs ltac:(lia) Hx Hy). lia. }
  exists (position r). split; [done|]. split; [done|].
  split; (eapply Forall_impl; [eassumption|]); intros a; unfold f; by destruct (Nat.ltb_spec a bound).
Qed.

(** The window between two partition points. *)
Lemma window_spec range_start range_end l :
  StronglySorted lt l → range_start ≤ range_end →
  ∃ lo hi window, partition_point (λ a, a <? range_start) l = Some lo ∧
    partition_point (λ a, a <? range_end) l = Some hi ∧ slice l lo hi = Some window ∧
    ∀ x, x ∈ window ↔ x ∈ l ∧ range_start ≤ x < range_end.
Proof.
  intros Hs Hle. destruct (partition_point_spec range_start l Hs) as (lo & Hlo & Hlol & Hlo1 & Hlo2).
  destruct (partition_point_spec range_end l Hs) as (hi & Hhi & Hhil & Hhi1 & Hhi2).
  assert (Hbelow : ∀ i x, l !! i = Some x → (x < range_start ↔ i < lo) ∧ (x < range_end ↔ i < hi)).
  { intros i x Hx. rewrite Forall_lookup in Hlo1. rewrite Forall_lookup in Hlo2.
    rewrite Forall_lookup in Hhi1. rewrite Forall_lookup in Hhi2. split.
    - destruct (decide (i < lo)) as [Hi|Hi].
      + pose proof (Hlo1 i x ltac:(by apply lookup_take_Some)). done.
      + pose proof (Hlo2 (i - lo) x ltac:(rewrite lookup_drop; by replace (lo + (i - lo)) with i by lia)). simpl in *. lia.
    - destruct (decide (i < hi)) as [Hi|Hi].
      + pose proof (Hhi1 i x ltac:(by apply lookup_take_Some)). done.
      + pose proof (Hhi2 (i - hi) x ltac:(rewrite lookup_drop; by replace (hi + (i - hi)) with i by lia)). simpl in *. lia. }
  assert (lo ≤ hi).
  { destruct (decide (lo ≤ hi)) as [?|Hgt]; [done|]. destruct (lookup_lt_is_Some_2 l hi) as [x Hx]; [lia|].
    destruct (Hbelow hi x Hx). lia. }
  exists lo, hi, (take (hi - lo) (drop lo l)). split; [done|]. split; [done|].
  split; [unfold slice; by rewrite decide_True by lia|]. intros x. split.
  - intros [i Hi]%list_elem_of_lookup_1. apply lookup_take_Some in Hi as [Hi Hlt]. rewrite lookup_drop in Hi.
    split; [by eapply list_elem_of_lookup_2|]. destruct (Hbelow _ _ Hi). lia.
  - intros [[i Hi]%list_elem_of_lookup_1 Hx]. destruct (Hbelow _ _ Hi).
    apply (list_elem_of_lookup_2 _ (i - lo)). apply lookup_take_Some. rewrite lookup_drop.
    replace (lo + (i - lo)) with i by lia. split; [done|lia].
Qed.

(** ** Generations *)

(** Every slot holds a generation of the past or the current one. *)
Definition seen_wf (n : nat) (seen : CandidateSeen) : Prop :=
  length (generations seen) = n ∧ (0 ≤ generation seen < 2 ^ 16)%Z ∧
  Forall (λ s, (0 ≤ s ≤ generation seen)%Z) (generations seen).

(** The candidates of the current name. *)
Definition seen_now (seen : CandidateSeen) (c : nat) : Prop := generations seen !! c = Some (generation seen).

#[local] Instance seen_now_dec seen c : Decision (seen_now seen c).
Proof. unfold seen_now. apply _. Defined.

Lemma CandidateSeen_new_wf n : seen_wf n (CandidateSeen_new n).
Proof.
  split; [apply length_replicate|]. split; [done|]. apply Forall_replicate. simpl. lia.
Qed.

Lemma begin_name_spec n seen : seen_wf n seen → seen_wf n (begin_name seen) ∧ ∀ c, ¬ seen_now (begin_name seen) c.
Proof.
  intros (Hn & Hg & Hs). unfold begin_name, seen_now. case_decide as Hwrap; simpl.
  - split; [split; simpl; [by rewrite length_map|]|].
    + split; [lia|]. apply Forall_fmap, Forall_true. simpl. lia.
    + intros c Hc. apply list_lookup_fmap_Some in Hc as (? & ? & ?). lia.
  - assert ((generation seen + 1) mod 2 ^ 16 = generation seen + 1)%Z as Heq.
    { destruct (decide (generation seen = 2 ^ 16 - 1)%Z) as [E|]; [by rewrite E in Hwrap|]. apply Z.mod_small. lia. }
    rewrite Heq in *. split; [split; simpl; [done|]|].
    + split.
      * pose proof (Z.mod_pos_bound (generation seen + 1) (2 ^ 16)). lia.
      * eapply Forall_impl; [exact Hs|]. simpl. lia.
    + intros c Hc. pose proof (proj1 (Forall_lookup _ _) Hs c _ Hc). simpl in *. lia.
Qed.

(** An insertion tells whether the candidate is new, and remembers it. *)
Lemma seen_insert_spec n seen c :
  seen_wf n seen → c < n →
  ∃ fresh seen', seen_insert seen c = Some (fresh, seen') ∧ seen_wf n seen' ∧ (fresh = true ↔ ¬ seen_now seen c) ∧
    ∀ d, seen_now seen' d ↔ d = c ∨ seen_now seen d.
Proof.
  intros (Hn & Hg & Hs) Hc. unfold seen_insert. destruct (lookup_lt_is_Some_2 (generations seen) c) as [slot Hslot]; [lia|].
  rewrite Hslot. cbn [mbind option_bind]. unfold seen_now. case_decide as Heq.
  - subst slot. eexists _, _. split; [done|]. split; [done|]. split; [split; [done|by intros []]|].
    intros d. split; [by right|]. intros [->|]; done.
  - eexists _, _. split; [done|]. split; [|split].
    + split; simpl; [by rewrite length_insert|]. split; [done|]. apply Forall_insert; [done|]. simpl. lia.
    + split; [intros _; congruence|done].
    + intros d. simpl. destruct (decide (d = c)) as [->|Hne].
      * rewrite list_lookup_insert_eq by lia. split; [by left|done].
      * rewrite list_lookup_insert_ne by done. split; [by right|]. by intros [->|].
Qed.

(** The candidates collected so far are those seen, once each. *)
Definition collected (n : nat) (acc : CandidateSeen * list nat) : Prop :=
  seen_wf n acc.1 ∧ NoDup acc.2 ∧ (∀ c, seen_now acc.1 c ↔ c ∈ acc.2) ∧ Forall (λ c, c < n) acc.2.

Lemma push_candidates_spec n acc window :
  collected n acc → Forall (λ c, c < n) window →
  ∃ acc', foldM push_candidate acc window = Some acc' ∧ collected n acc' ∧
    ∀ c, c ∈ acc'.2 ↔ c ∈ acc.2 ∨ c ∈ window.
Proof.
  revert acc. induction window as [|c window IH]; intros acc Hacc Hw.
  { exists acc. split; [done|]. split; [done|]. intros d. set_solver. }
  apply Forall_cons in Hw as [Hc Hw]. destruct Hacc as (Hwf & Hnd & Hnow & Hlt).
  destruct (seen_insert_spec n acc.1 c Hwf Hc) as (fresh & seen' & E & Hwf' & Hfresh & Hnow').
  assert (push_candidate acc c = Some (seen', if fresh then acc.2 ++ [c] else acc.2)) as Hp by (unfold push_candidate; by rewrite E).
  cbn [foldM]. rewrite Hp. cbn [mbind option_bind].
  destruct (IH (seen', if fresh then acc.2 ++ [c] else acc.2)) as (acc' & -> & Hacc' & Hin); [|done|].
  - destruct fresh; (split; [done|]); simpl.
    + assert (Hnew : c ∉ acc.2) by (rewrite <- Hnow; by apply Hfresh). split; [|split].
      * apply NoDup_app. split; [done|]. split; [set_solver|apply NoDup_singleton].
      * intros d. rewrite Hnow', Hnow. set_solver.
      * apply Forall_app. split; [done|by constructor].
    + split; [done|]. split; [|done]. intros d. rewrite Hnow', Hnow. split; [|by right]. intros [->|]; [|done].
      apply Hnow. destruct (decide (seen_now acc.1 c)) as [?|Hn]; [done|]. by apply Hfresh in Hn.
  - exists acc'. split; [done|]. split; [done|]. intros d. rewrite Hin. simpl. destruct fresh; [set_solver|].
    assert (c ∈ acc.2); [|set_solver]. apply Hnow.
    destruct (decide (seen_now acc.1 c)) as [?|Hn]; [done|]. by apply Hfresh in Hn.
Qed.

(** ** Shared tokens *)

Definition shared (l r : list nat) : nat := length (filter (λ x, x ∈ r) l).

Lemma shared_le_l l r : shared l r ≤ length l.
Proof. apply length_filter. Qed.

Lemma shared_le_r l r : NoDup l → shared l r ≤ length r.
Proof.
  intros Hl. unfold shared. apply submseteq_length, NoDup_submseteq; [by apply NoDup_filter|].
  intros x [Hx _]%list_elem_of_filter. done.
Qed.

Lemma shared_perm l l' r : l ≡ₚ l' → shared l r = shared l' r.
Proof. intros Hp. unfold shared. by rewrite Hp. Qed.

Lemma shared_ext l r r' : (∀ x, x ∈ l → x ∈ r ↔ x ∈ r') → shared l r = shared l r'.
Proof.
  intros Hx. unfold shared. induction l as [|x l IH]; [done|].
  assert (Hl : ∀ y, y ∈ l → y ∈ r ↔ y ∈ r') by (intros y Hy; apply Hx; by right).
  pose proof (Hx x ltac:(by left)). rewrite !filter_cons. do 2 case_decide; try tauto; simpl; rewrite IH by done; done.
Qed.

Lemma shared_perm_r l r r' : r ≡ₚ r' → shared l r = shared l r'.
Proof. intros Hp. apply shared_ext. intros x _. by rewrite Hp. Qed.

Lemma shared_cons x l r : shared (x :: l) r = (if decide (x ∈ r) then 1 else 0) + shared l r.
Proof. unfold shared. rewrite filter_cons. by case_decide. Qed.

(** The early exits of the walk change nothing. *)
Lemma overlap_walk_spec fuel l r required overlap :
  length l + length r ≤ fuel → StronglySorted lt l → StronglySorted lt r → overlap < required →
  overlap_walk fuel l r required overlap = true ↔ required ≤ overlap + shared l r.
Proof.
  assert (Hgt : ∀ x l, StronglySorted lt (x :: l) → ∀ y, y ∈ l → x < y).
  { intros x l' Hs y Hy. apply StronglySorted_cons in Hs as [Hx _]. by apply (proj1 (Forall_forall _ _) Hx). }
  assert (Hnd : ∀ l, StronglySorted lt l → NoDup l).
  { clear -Hgt. intros l Hs. induction Hs as [|x l Hs IH Hx]; constructor; [|done].
    intros Hin. pose proof (proj1 (Forall_forall _ _) Hx x Hin). lia. }
  revert l r overlap. induction fuel as [|fuel IH]; intros l r overlap Hfuel Hl Hr Ho.
  { destruct l; [|simpl in Hfuel; lia]. simpl. split; [done|]. unfold shared. simpl. lia. }
  destruct l as [|x l]; [simpl; split; [done|unfold shared; simpl; lia]|].
  destruct r as [|y r]; [simpl; split; [done|]; pose proof (shared_le_r (x :: l) [] (Hnd _ Hl)); simpl in *; lia|].
  cbn [overlap_walk]. pose proof (shared_le_l (x :: l) (y :: r)). pose proof (shared_le_r (x :: l) (y :: r) (Hnd _ Hl)).
  case_decide; [split; [done|lia]|]. simpl in Hfuel.
  pose proof (Hgt x l Hl) as Hxl. pose proof (Hgt y r Hr) as Hyr.
  pose proof Hl as [_ Hl']%StronglySorted_cons. pose proof Hr as [_ Hr']%StronglySorted_cons.
  destruct (Nat.compare_spec x y) as [<-|Hxy|Hxy].
  - rewrite shared_cons, (decide_True (P := x ∈ x :: r)) by by left.
    assert (shared l (x :: r) = shared l r) as ->.
    { apply shared_ext. intros z Hz. rewrite elem_of_cons. pose proof (Hxl z Hz). split; [intros [->|]; [lia|done]|by right]. }
    case_decide; [split; [lia|done]|]. rewrite IH by (assumption || lia). lia.
  - rewrite shared_cons, (decide_False (P := x ∈ y :: r)); [apply IH; (done || simpl; lia)|].
    intros [->|Hin]%elem_of_cons; [lia|]. pose proof (Hyr x Hin). lia.
  - assert (shared (x :: l) (y :: r) = shared (x :: l) r) as ->; [|apply IH; (assumption || simpl; lia)].
    apply shared_ext. intros z Hz. rewrite (elem_of_cons r). split; [|by right]. intros [->|]; [|done].
    apply elem_of_cons in Hz as [->|Hz]; [lia|]. pose proof (Hxl y Hz). lia.
Qed.

(** A document that shares [k] tokens has one of them among the first [n - k + 1]. *)
Lemma prefix_probe p doc k :
  1 ≤ k → k ≤ shared p doc →
  ∃ t, t ∈ take (Nat.min (length p - k + 1) (length p)) p ∧ t ∈ doc.
Proof.
  intros Hk1 Hk. pose proof (shared_le_l p doc). rewrite Nat.min_l by lia. set (n := length p - k + 1).
  destruct (filter (λ t, t ∈ doc) (take n p)) as [|t l] eqn:E.
  - exfalso. assert (Hle : shared p doc ≤ length (drop n p)).
    { unfold shared. rewrite <- (take_drop n p) at 1. rewrite filter_app, E. apply length_filter. }
    rewrite length_drop in Hle. unfold n in Hle. lia.
  - assert (Ht : t ∈ filter (λ t, t ∈ doc) (take n p)) by (rewrite E; by left).
    apply list_elem_of_filter in Ht as [? ?]. by exists t.
Qed.

(** ** Hits of a pair *)

Definition pair_hit (left_ right_ : CanonicalName) (h : NameHit) : Prop :=
  ∃ la ra, la ∈ atoms left_ ∧ ra ∈ atoms right_ ∧
    ((hit_member h ∈ members la ∧ hit_peer_chain h = atom_chain_id ra) ∨
     (hit_member h ∈ members ra ∧ hit_peer_chain h = atom_chain_id la)).

Lemma elem_of_atom_hits atom c hits h :
  h ∈ record_atom_hits atom c hits ↔ hit_member h ∈ members atom ∧ hit_peer_chain h = c ∨ h ∈ hits.
Proof.
  unfold record_atom_hits. rewrite elem_of_union, elem_of_list_to_set. split; (intros [Hh|?]; [left|by right]).
  - apply list_elem_of_fmap in Hh as (m & -> & Hm). done.
  - destruct Hh as [Hm <-]. apply list_elem_of_fmap. exists (hit_member h). split; [by destruct h|done].
Qed.

Lemma elem_of_pair_hits left_ right_ hits h :
  h ∈ record_pair_hits left_ right_ hits ↔ pair_hit left_ right_ h ∨ h ∈ hits.
Proof.
  unfold record_pair_hits, pair_hit. revert hits. induction (atoms left_) as [|la las IH]; intros hits; cbn [foldl].
  { split; [by right|]. by intros [(la & ra & ?%elem_of_nil & _)|]. }
  rewrite IH. clear IH.
  assert (Hinner : ∀ ras hits, h ∈ foldl (λ hits ra, record_atom_hits ra (atom_chain_id la) (record_atom_hits la (atom_chain_id ra) hits)) hits ras ↔
    (∃ ra, ra ∈ ras ∧ ((hit_member h ∈ members la ∧ hit_peer_chain h = atom_chain_id ra) ∨
     (hit_member h ∈ members ra ∧ hit_peer_chain h = atom_chain_id la))) ∨ h ∈ hits).
  { induction ras as [|ra ras IH]; intros hits'; cbn [foldl].
    - split; [by right|]. by intros [(ra & ?%elem_of_nil & _)|].
    - rewrite IH, !elem_of_atom_hits. setoid_rewrite elem_of_cons. naive_solver. }
  rewrite Hinner. setoid_rewrite elem_of_cons. naive_solver.
Qed.

(** ** Accepted pairs *)

(** The verifier accepts only pairs whose Jaro-Winkler similarity reaches the
    cutoff: its matching characters are characters of both names, and the equal
    first characters are among them. *)
Class JaroWinkler `{NameComparator} : Prop :=
  similar_score l r cutoff : similar l r cutoff = true →
    ∃ cs t p, cs ⊆+ l ∧ cs ⊆+ r ∧ p ≤ length cs ∧ p ≤ Nat.min (Nat.min (length l) (length r)) 4 ∧
      (cutoff <= similarity (length l) (length r) (length cs) t p)%Q.

(** Shared tokens do not depend on their numbering. *)
Lemma shared_numbers unique ts us d e :
  NoDup unique → numbers unique ts d → numbers unique us e →
  length (filter (λ t, t ∈ us) ts) = shared d e.
Proof.
  intros Hnd Ht Hu.
  assert (Hmem : ∀ t i, unique !! i = Some t → t ∈ us ↔ i ∈ e).
  { intros t i Hi. split.
    - intros [k Hk]%list_elem_of_lookup_1. destruct (Forall2_lookup_l _ _ _ _ _ Hu Hk) as (j & Hj & Hju).
      assert (j = i) as -> by (by eapply NoDup_lookup). by eapply list_elem_of_lookup_2.
    - intros [k Hk]%list_elem_of_lookup_1. destruct (Forall2_lookup_r _ _ _ _ _ Hu Hk) as (u & Hj & Hju).
      assert (t = u) as -> by congruence. by eapply list_elem_of_lookup_2. }
  unfold shared. induction Ht as [|t i ts d Hti _ IH]; [done|]. pose proof (Hmem t i Hti).
  rewrite !filter_cons. do 2 case_decide; try tauto; simpl; by rewrite IH.
Qed.

Lemma fmin_le_1 a : (fmin a 1 <= 1)%Q.
Proof.
  unfold fmin. destruct (Qle_bool a 1) eqn:E; [by apply Qle_bool_iff|apply Qle_refl].
Qed.

Lemma similarity_nonneg l r m t p : (0 <= similarity l r m t p)%Q.
Proof.
  unfold similarity. destruct (decide _); [apply Qle_refl|]. unfold fmin. destruct (Qle_bool _ 1); [|discriminate].
  apply winkler_nonneg; [apply rnd_nonneg|apply jaro_float|apply jaro_nonneg].
Qed.

Section Pairs.
Context `{JaroWinkler} (t : Q) (Ht0 : (0 <= t)%Q) (Ht : (t <= 100)%Q).

(** The clamp does nothing on a threshold in range. *)
Lemma score_cutoff_fdiv : score_cutoff t = fdiv t 100.
Proof.
  unfold score_cutoff. destruct (fltb (fdiv t 100) 0) eqn:E0.
  { apply fltb_true in E0. pose proof (rnd_nonneg (t / 100)%Q). unfold fdiv in E0. lra. }
  destruct (fltb 1 (fdiv t 100)) eqn:E1; [|done].
  apply fltb_true in E1. pose proof (fdiv_le_1 t 100 ltac:(lra) Ht). lra.
Qed.

Lemma similar_bounds l r :
  chars_ok l → chars_ok r → 0 < length l → 0 < length r → similar l r (score_cutoff t) = true →
  lengths_can_reach (length l) (length r) (F64 t) = true ∧
  minimum_multiset_overlap (length l) (length r) (F64 t) ≤
    length (filter (λ u, u ∈ name_tokens ∅ r) (name_tokens ∅ l)).
Proof.
  intros Hl Hr Hl0 Hr0 (cs & tr & p & Hcl & Hcr & Hp & Hp4 & Hs)%similar_score.
  rewrite score_cutoff_fdiv in Hs.
  pose proof (submseteq_length _ _ Hcl). pose proof (submseteq_length _ _ Hcr).
  pose proof (shared_characters_tokens l r cs Hl Hr Hcl Hcr) as Hsh.
  destruct (bounds_lossless (length l) (length r) (length cs) (length cs) tr p t) as [Hreach Hmin]; try (assumption || lia).
  { apply (cutoff_reaches (similarity (length l) (length r) (length cs) tr p)); try assumption. apply similarity_nonneg. }
  split; [done|]. lia.
Qed.
End Pairs.

(** ** Candidates of one name *)

(** The names as [atomize] leaves them. *)
Record names_ok (names : list CanonicalName) : Prop := {
  names_chars : Forall (λ name, chars_ok (characters name)) names;
  names_nonempty : Forall (λ name, 0 < length (characters name)) names;
  names_sorted : StronglySorted (λ a b, length (characters a) ≤ length (characters b)) names;
}.

Lemma names_length_le names i j a b :
  names_ok names → i ≤ j → names !! i = Some a → names !! j = Some b → length (characters a) ≤ length (characters b).
Proof.
  intros Hok Hij Ha Hb. destruct (decide (i = j)) as [->|]; [by replace b with a by congruence|].
  eapply (StronglySorted_lookup _ names i j a b (names_sorted _ Hok)); (assumption || lia).
Qed.

Section Window.
Context (names : list CanonicalName) (Hnames : names_ok names) (t : Q).

Lemma extend_right_spec fuel left_len right_ :
  right_ ≤ length names → length names - right_ ≤ fuel →
  let e := extend_right names t fuel left_len right_ in
  right_ ≤ e ≤ length names ∧
  (e = length names ∨ ∃ n, name_length names e = Some n ∧ lengths_can_reach left_len n (F64 t) = false).
Proof.
  revert right_. induction fuel as [|fuel IH]; intros r Hr Hf; cbn [extend_right].
  { split; [lia|]. left. lia. }
  destruct (name_length names r) as [n|] eqn:En.
  - destruct (lengths_can_reach left_len n (F64 t)) eqn:E; [|split; [lia|right; eauto]].
    unfold name_length in En. apply bind_Some in En as (a & Ha & _). apply lookup_lt_Some in Ha.
    destruct (IH (S r) ltac:(lia) ltac:(lia)) as [? ?]. split; [lia|done].
  - split; [lia|]. left. unfold name_length in En. destruct (names !! r) as [a|] eqn:Ea; [done|].
    apply lookup_ge_None in Ea. lia.
Qed.

(** Beyond the end of a window no length can reach the threshold. *)
Definition window_end (left_ e : nat) : Prop :=
  left_ + 1 ≤ e ≤ length names ∧
  ∀ a right_ b, names !! left_ = Some a → e ≤ right_ → names !! right_ = Some b →
    lengths_can_reach (length (characters a)) (length (characters b)) (F64 t) = false.

Lemma range_ends_spec n :
  n ≤ length names - 1 →
  ∃ r ends, foldM (range_end_step names t) (1, []) (seq 0 n) = Some (r, ends) ∧
    length ends = n ∧ r ≤ Nat.max 1 (length names) ∧ ∀ i e, ends !! i = Some e → window_end i e.
Proof.
  intros Hn. induction n as [|n IH].
  { exists 1, []. split_and!; [done|done|lia|done]. }
  destruct (IH ltac:(lia)) as (r & ends & E & Hlen & Hr & Hends). rewrite seq_S, foldM_app, E. cbn [mbind option_bind foldM].
  destruct (lookup_lt_is_Some_2 names n) as [a Ha]; [lia|].
  destruct (extend_right_spec (length names) (length (characters a)) (Nat.max r (n + 1))) as [He1 He2]; [lia|lia|].
  set (e := extend_right names t (length names) (length (characters a)) (Nat.max r (n + 1))) in *.
  assert (range_end_step names t (r, ends) (0 + n) = Some (e, ends ++ [e])) as ->
    by (unfold range_end_step, name_length; simpl; by rewrite Ha).
  eexists _, _. split; [done|]. split; [rewrite length_app; simpl; lia|]. split; [lia|].
  intros i e' Hi. apply lookup_app_Some in Hi as [Hi|[Hle Hi]]; [by apply Hends|].
  assert (i = n ∧ e' = e) as [-> ->].
  { destruct (i - length ends) as [|k] eqn:Ek; [simplify_eq/=; split; [lia|done]|by destruct k]. }
  split; [lia|]. intros a' right_ b Ha' Hright Hb. replace a' with a by congruence.
  destruct He2 as [He2|(m & Hm & Hreach)]; [pose proof (lookup_lt_Some _ _ _ Hb); lia|].
  unfold name_length in Hm. apply bind_Some in Hm as (c & Hc & [= <-]).
  apply not_true_iff_false. intros Htrue. apply not_true_iff_false in Hreach. apply Hreach.
  eapply lengths_can_reach_right; [| |exact Htrue].
  - apply (names_length_le names n e); (assumption || lia).
  - apply (names_length_le names e right_); (assumption || lia).
Qed.
End Window.

Lemma numbers_NoDup unique ts d : NoDup ts → numbers unique ts d → NoDup d.
Proof.
  intros Hts Hn. apply NoDup_alt. intros k l i Hk Hl.
  destruct (Forall2_lookup_r _ _ _ _ _ Hn Hk) as (u & Hu & Hui), (Forall2_lookup_r _ _ _ _ _ Hn Hl) as (v & Hv & Hvi).
  apply (NoDup_lookup ts k l u); [done|done|]. by replace u with v by congruence.
Qed.

Lemma StronglySorted_lt l : StronglySorted le l → NoDup l → StronglySorted lt l.
Proof.
  induction 1 as [|x l Hs IH Hx]; intros Hnd; [constructor|]. apply NoDup_cons in Hnd as [Hxl Hnd].
  constructor; [by apply IH|]. apply Forall_forall. intros y Hy. pose proof (proj1 (Forall_forall _ _) Hx y Hy).
  assert (x ≠ y) by (by intros ->). lia.
Qed.

Section Left.
Context (names : list CanonicalName) (Hnames : names_ok names) (t : Q) (Ht0 : (0 <= t)%Q) (Ht : (t <= 100)%Q).
Context (index : ResidentNameIndex) (unique : list Z) (docs : list (list nat)) (Hunique : NoDup unique).
Context (Hdocs : Forall2 (λ name doc, numbers unique (tokens_of name) doc) names docs) (Hindex : indexes_documents docs index).

Lemma document_of i a : names !! i = Some a → ∃ d, docs !! i = Some d ∧ numbers unique (tokens_of a) d ∧ NoDup d ∧ length d = length (characters a).
Proof.
  intros Ha. destruct (Forall2_lookup_l _ _ _ _ _ Hdocs Ha) as (d & Hd & Hn). exists d. split; [done|]. split; [done|].
  pose proof (proj1 (Forall_lookup _ _) (names_chars _ Hnames) i a Ha) as Hc. split.
  - eapply numbers_NoDup; [|exact Hn]. by apply name_tokens_NoDup.
  - pose proof (Forall2_length _ _ _ Hn) as Hlen. unfold tokens_of in Hlen. by rewrite length_name_tokens in Hlen.
Qed.

Lemma length_docs : length docs = length names.
Proof. symmetry. by eapply Forall2_length. Qed.

Lemma collect_tokens_spec s e i doc ts acc :
  s ≤ e ≤ length names → docs !! i = Some doc → (∀ u, u ∈ ts → u ∈ doc) → collected (length names) acc →
  ∃ acc', foldM (collect_token index s e) acc ts = Some acc' ∧ collected (length names) acc' ∧
    ∀ c, c ∈ acc'.2 ↔ c ∈ acc.2 ∨ (s ≤ c < e ∧ ∃ u d, u ∈ ts ∧ docs !! c = Some d ∧ u ∈ d).
Proof.
  intros Hse Hdoc. revert acc. induction ts as [|u ts IH]; intros acc Hts Hacc.
  { exists acc. split; [done|]. split; [done|]. intros c. split; [by left|]. by intros [?|(_ & u & d & ?%elem_of_nil & _)]. }
  destruct (indexes_posting _ _ Hindex i doc u Hdoc ltac:(apply Hts; by left)) as (l & Hl & Hs & Hin).
  destruct (window_spec s e l Hs ltac:(lia)) as (lo & hi & window & Hlo & Hhi & Hslice & Hw).
  destruct (push_candidates_spec (length names) acc window Hacc) as (acc1 & E1 & Hacc1 & Hin1).
  { apply Forall_forall. intros c [_ Hc]%Hw. lia. }
  assert (collect_token index s e acc u = Some acc1) as Hstep.
  { unfold collect_token. rewrite Hl. cbn [mbind option_bind]. rewrite Hlo. cbn [mbind option_bind].
    rewrite Hhi. cbn [mbind option_bind]. rewrite Hslice. exact E1. }
  cbn [foldM]. rewrite Hstep. cbn [mbind option_bind].
  destruct (IH acc1) as (acc' & E & Hacc' & Hin'); [intros v Hv; apply Hts; by right|done|].
  exists acc'. split; [done|]. split; [done|]. intros c. rewrite Hin', Hin1, Hw, Hin. setoid_rewrite elem_of_cons. naive_solver.
Qed.

(** The probes find every name of the range that shares enough tokens. *)
Lemma collect_range_spec left_ a d s e seen :
  names !! left_ = Some a → docs !! left_ = Some d → left_ < s → e ≤ length names →
  seen_wf (length names) seen → (∀ c, ¬ seen_now seen c) →
  ∃ seen' candidates, collect_range index names t left_ s e (seen, []) = Some (seen', candidates) ∧
    seen_wf (length names) seen' ∧ (∀ c, c ∈ candidates → s ≤ c < e) ∧
    ∀ c b dc, s ≤ c < e → names !! c = Some b → docs !! c = Some dc →
      minimum_multiset_overlap (length (characters a)) (length (characters b)) (F64 t) ≤ shared d dc → c ∈ candidates.
Proof.
  intros Ha Hd Hls He Hwf Hfresh. unfold collect_range. case_decide as Hempty.
  { eexists _, _. split; [done|]. split; [done|]. split; [by intros c ?%elem_of_nil|]. intros; lia. }
  destruct (lookup_lt_is_Some_2 names s) as [bs Hbs]; [lia|].
  unfold name_length. rewrite Ha, Hbs. cbn [mbind option_bind]. cbv zeta. case_decide as Hmin.
  { eexists _, _. split; [done|]. split; [done|]. split.
    - intros c Hc%elem_of_seq. lia.
    - intros c b dc Hc _ _ _. apply elem_of_seq. lia. }
  destruct (indexes_prefix _ _ Hindex left_ d Hd) as (p & -> & Hp & _). cbn [mbind option_bind].
  set (k := minimum_multiset_overlap (length (characters a)) (length (characters bs)) (F64 t)) in *.
  destruct (collect_tokens_spec s e left_ d (take (Nat.min (length p - k + 1) (length p)) p) (seen, [])) as ([seen' cs] & -> & (Hwf' & _ & Hnow & _) & Hin);
    [lia|done| | |].
  - intros u Hu. rewrite <- Hp. by eapply elem_of_take in Hu as (? & ?%list_elem_of_lookup_2 & _).
  - split; [done|]. split; [constructor|]. split; [|constructor]. intros c. split; [by intros ?%Hfresh|by intros ?%elem_of_nil].
  - exists seen', cs. split; [done|]. split; [done|]. split.
    + intros c Hc. apply Hin in Hc as [?%elem_of_nil|[? _]]; done.
    + intros c b dc Hc Hb Hdc Hshare. apply Hin. right. split; [done|].
      pose proof (proj1 (Forall_lookup _ _) (names_nonempty _ Hnames) left_ a Ha) as Ha0. cbv beta in Ha0.
      assert (Hk : k ≤ shared d dc).
      { etrans; [|exact Hshare]. apply minimum_overlap_right; [done| | |done].
        - apply (names_length_le names left_ s); (assumption || lia).
        - apply (names_length_le names s c); (assumption || lia). }
      rewrite <- (shared_perm p d dc Hp) in Hk. destruct (prefix_probe p dc k) as (u & Hu & Hudc); [lia|done|].
      by exists u, dc.
Qed.

(** The filter keeps exactly the pairs that share enough tokens. *)
Lemma passes_overlap_spec left_ a d right_ b dr :
  names !! left_ = Some a → docs !! left_ = Some d → names !! right_ = Some b → docs !! right_ = Some dr →
  ∃ keep, resident_candidate_passes_overlap index names t left_ right_ = Some keep ∧
    (keep = true ↔ minimum_multiset_overlap (length (characters a)) (length (characters b)) (F64 t) ≤ shared d dr).
Proof.
  intros Ha Hd Hb Hdr. unfold resident_candidate_passes_overlap, name_length. rewrite Ha, Hb. cbn [mbind option_bind]. cbv zeta.
  destruct (document_of left_ a Ha) as (d' & Hd' & _ & Hnd & Hlen), (document_of right_ b Hb) as (dr' & Hdr' & _ & Hndr & Hlenr).
  assert (d' = d) as -> by congruence. assert (dr' = dr) as -> by congruence.
  pose proof (shared_le_l d dr). pose proof (shared_le_r d dr Hnd).
  set (k := minimum_multiset_overlap (length (characters a)) (length (characters b)) (F64 t)).
  case_decide as Hk; [|exists false; split; [done|]; split; [done|lia]].
  destruct (indexes_sorted _ _ Hindex left_ d Hd) as (sl & -> & Hsl & Hls). cbn [mbind option_bind].
  destruct (indexes_sorted _ _ Hindex right_ dr Hdr) as (sr & -> & Hsr & Hrs). cbn [mbind option_bind].
  eexists. split; [done|]. unfold sorted_name_token_overlap_at_least. case_decide; [split; [lia|done]|].
  rewrite overlap_walk_spec; [|done|apply StronglySorted_lt; [done|by rewrite Hsl]|apply StronglySorted_lt; [done|by rewrite Hsr]|lia].
  rewrite (shared_perm sl d sr Hsl), (shared_perm_r d sr dr Hsr). done.
Qed.

Lemma retain_candidates_spec left_ a d candidates :
  names !! left_ = Some a → docs !! left_ = Some d → Forall (λ c, c < length names) candidates →
  ∃ kept, retain_candidates index names t left_ candidates = Some kept ∧
    ∀ c, c ∈ kept ↔ c ∈ candidates ∧ ∃ b dc, names !! c = Some b ∧ docs !! c = Some dc ∧
      minimum_multiset_overlap (length (characters a)) (length (characters b)) (F64 t) ≤ shared d dc.
Proof.
  intros Ha Hd. induction 1 as [|c cs Hc Hcs (kept & E & Hin)].
  { exists []. split; [done|]. intros c. split; [by intros ?%elem_of_nil|by intros [?%elem_of_nil _]]. }
  destruct (lookup_lt_is_Some_2 names c Hc) as [b Hb]. destruct (document_of c b Hb) as (dc & Hdc & _).
  destruct (passes_overlap_spec left_ a d c b dc Ha Hd Hb Hdc) as (keep & Ek & Hkeep).
  cbn [retain_candidates]. rewrite Ek. cbn [mbind option_bind]. rewrite E. cbn [mbind option_bind].
  eexists. split; [done|]. intros x. destruct keep.
  - rewrite !elem_of_cons, Hin. split; [|naive_solver]. intros [->|[? ?]]; [|by split; [right|]].
    split; [by left|]. exists b, dc. split; [done|]. split; [done|]. by apply Hkeep.
  - rewrite elem_of_cons, Hin. split; [intros [? ?]; by split; [right|]|]. intros [[->|?] Hx]; [|done].
    destruct Hx as (b' & dc' & Hb' & Hdc' & Hle). replace b' with b in Hle by congruence. replace dc' with dc in Hle by congruence.
    by apply Hkeep in Hle.
Qed.
End Left.

(** ** Scoring *)

Lemma elem_of_left_chunk left_count chunk l :
  l ∈ left_chunk left_count chunk ↔ l < left_count ∧ l / SCORE_SCHEDULING_CHUNK = chunk.
Proof.
  unfold left_chunk, SCORE_SCHEDULING_CHUNK. rewrite elem_of_seq.
  pose proof (Nat.div_mod l 8 ltac:(lia)). pose proof (Nat.mod_upper_bound l 8 ltac:(lia)). lia.
Qed.

Definition lane_lefts (taker : nat → nat) (lane_count left_count lane : nat) : list nat :=
  mjoin (map (left_chunk left_count) (lane_chunks taker lane_count left_count lane)).

(** Every left name is scored by one lane. *)
Lemma elem_of_lane_lefts taker lane_count left_count lane l :
  l ∈ lane_lefts taker lane_count left_count lane ↔
  l < left_count ∧ taker (l / SCORE_SCHEDULING_CHUNK) mod lane_count = lane.
Proof.
  unfold lane_lefts, lane_chunks. rewrite list_elem_of_join. split.
  - intros (ls & Hl & (chunk & -> & [Htaker _]%list_elem_of_filter)%list_elem_of_fmap).
    apply elem_of_left_chunk in Hl as [? <-]. done.
  - intros [Hl Htaker]. exists (left_chunk left_count (l / SCORE_SCHEDULING_CHUNK)).
    split; [by apply elem_of_left_chunk|]. apply list_elem_of_fmap_2, list_elem_of_filter. split; [done|].
    apply elem_of_seq. split; [lia|]. unfold SCORE_SCHEDULING_CHUNK.
    destruct (div_ceil_spec left_count 8 ltac:(lia)) as [Hge _].
    pose proof (Nat.div_mod l 8 ltac:(lia)). simpl in *. lia.
Qed.

Lemma merge_disabled `{Sha256} : merge (sampler disabled) (sampler disabled) = Some (sampler disabled).
Proof. reflexivity. Qed.

Section Scoring.
Context `{JaroWinkler} `{Sha256} (retries threads : nat).
Context (names : list CanonicalName) (Hnames : names_ok names) (t : Q) (Ht0 : (0 <= t)%Q) (Ht : (t <= 100)%Q).
Context (index : ResidentNameIndex) (Hindexes : indexes names index).
#[local] Existing Instance never_cancelled.

(** An accepted pair of names, the shorter first. *)
Definition accepted (left_ right_ : nat) (h : NameHit) : Prop :=
  ∃ a b, names !! left_ = Some a ∧ names !! right_ = Some b ∧
    similar (characters a) (characters b) (score_cutoff t) = true ∧ pair_hit a b h.

Definition worker_ok (n : nat) (w : Worker) : Prop :=
  seen_wf n (worker_seen w) ∧ worker_samples w = sampler disabled.

Lemma score_candidates_spec left_ a w cs :
  names !! left_ = Some a → worker_ok (length names) w → Forall (λ c, c < length names) cs →
  ∃ w', foldM (score_candidate names t retries left_ a) w cs = Some w' ∧ worker_ok (length names) w' ∧
    ∀ h, h ∈ worker_hits w' ↔ h ∈ worker_hits w ∨ ∃ c, c ∈ cs ∧ accepted left_ c h.
Proof.
  intros Ha Hw Hcs. revert w Hw. induction Hcs as [|c cs Hc _ IH]; intros w Hw.
  { exists w. split; [done|]. split; [done|]. intros h. split; [by left|]. by intros [?|(c & ?%elem_of_nil & _)]. }
  destruct (lookup_lt_is_Some_2 names c Hc) as [b Hb]. destruct Hw as [Hwf Hs].
  assert (∃ w1, score_candidate names t retries left_ a w c = Some w1 ∧ worker_ok (length names) w1 ∧
    ∀ h, h ∈ worker_hits w1 ↔ h ∈ worker_hits w ∨ accepted left_ c h) as (w1 & E1 & Hw1 & Hin1).
  { unfold score_candidate. rewrite Hb. cbn [mbind option_bind]. destruct (similar _ _ _) eqn:Esim.
    - unfold accept_pair. rewrite Hs. cbn. eexists. split; [done|]. split; [done|]. intros h. cbn.
      rewrite elem_of_pair_hits. unfold accepted. split; [|naive_solver]. intros [?|?]; [right; eauto 8|by left].
    - exists w. split; [done|]. split; [done|]. intros h. split; [by left|]. intros [?|(a' & b' & Ha' & Hb' & Hsim & _)]; [done|].
      congruence. }
  cbn [foldM]. rewrite E1. cbn [mbind option_bind]. destruct (IH w1 Hw1) as (w' & E & Hw' & Hin).
  exists w'. split; [done|]. split; [done|]. intros h. rewrite Hin, Hin1. setoid_rewrite elem_of_cons. naive_solver.
Qed.

(** One left name gets the hits of all its accepted pairs. *)
Lemma score_left_spec right_ends w left_ e :
  left_ < length names - 1 → right_ends !! left_ = Some e → window_end names t left_ e → worker_ok (length names) w →
  ∃ w', score_left index names t retries right_ends w left_ = Some w' ∧ worker_ok (length names) w' ∧
    ∀ h, h ∈ worker_hits w' ↔ h ∈ worker_hits w ∨ ∃ c, left_ < c ∧ accepted left_ c h.
Proof.
  intros Hleft Hend [He Hbeyond] [Hwf Hs]. destruct Hindexes as (unique & docs & Hunique & Hdocs & Hindex).
  destruct (lookup_lt_is_Some_2 names left_) as [a Ha]; [lia|].
  destruct (document_of names Hnames unique docs Hdocs left_ a Ha) as (d & Hd & Hnum & _).
  destruct (begin_name_spec (length names) _ Hwf) as [Hwf1 Hfresh]. unfold score_left. rewrite Hend. cbn [default from_option id].
  destruct (collect_range_spec names Hnames t Ht index docs Hindex left_ a d (left_ + 1) e _ Ha Hd ltac:(lia) ltac:(lia) Hwf1 Hfresh)
    as (seen' & cs & -> & Hwf' & Hrange & Hcomplete). cbn [mbind option_bind].
  destruct (retain_candidates_spec names Hnames t index unique docs Hdocs Hindex left_ a d cs Ha Hd) as (kept & -> & Hkept).
  { apply Forall_forall. intros c Hc%Hrange. lia. }
  cbn [mbind option_bind]. rewrite Ha. cbn [mbind option_bind].
  destruct (score_candidates_spec left_ a {| worker_seen := seen'; worker_hits := worker_hits w; worker_samples := worker_samples w |} kept)
    as (w' & -> & Hw' & Hin); [done|done| |].
  { apply Forall_forall. intros c [Hc%Hrange _]%Hkept. lia. }
  exists w'. split; [done|]. split; [done|]. intros h. rewrite Hin. cbn. split.
  - intros [?|(c & [Hc%Hrange _]%Hkept & Hacc)]; [by left|right]. exists c. split; [lia|done].
  - intros [?|(c & Hlc & Hacc)]; [by left|right]. exists c. split; [|done].
    destruct Hacc as (a' & b & Ha' & Hb & Hsim & _). assert (a' = a) as -> by congruence.
    destruct (document_of names Hnames unique docs Hdocs c b Hb) as (dc & Hdc & Hnumc & _).
    pose proof (proj1 (Forall_lookup _ _) (names_chars _ Hnames) left_ a Ha). pose proof (proj1 (Forall_lookup _ _) (names_chars _ Hnames) c b Hb).
    pose proof (proj1 (Forall_lookup _ _) (names_nonempty _ Hnames) left_ a Ha). pose proof (proj1 (Forall_lookup _ _) (names_nonempty _ Hnames) c b Hb).
    cbv beta in *. destruct (similar_bounds t Ht0 Ht (characters a) (characters b)) as [Hreach Hmin]; [done..|].
    fold (tokens_of a) (tokens_of b) in Hmin. rewrite (shared_numbers unique (tokens_of a) (tokens_of b) d dc) in Hmin by done.
    assert (Hce : c < e).
    { destruct (decide (c < e)) as [?|Hge]; [done|]. rewrite (Hbeyond a c b Ha ltac:(lia) Hb) in Hreach. done. }
    apply Hkept. split; [|by exists b, dc]. apply (Hcomplete c b dc); [lia|done..].
Qed.

Context (right_ends : list nat) (Hends : length right_ends = length names - 1).
Context (Hwindow : ∀ i e, right_ends !! i = Some e → window_end names t i e).

Lemma lane_spec lane lefts w p k :
  Forall (λ l, l < length names - 1) lefts → worker_ok (length names) w →
  ∃ w' p' k', foldM (lane_step index names t retries lane right_ends) (w, p, k, false) lefts = Some (w', p', k', false) ∧
    worker_ok (length names) w' ∧
    ∀ h, h ∈ worker_hits w' ↔ h ∈ worker_hits w ∨ ∃ l c, l ∈ lefts ∧ l < c ∧ accepted l c h.
Proof.
  intros Hl. revert w p k. induction Hl as [|l lefts Hl _ IH]; intros w p k Hw.
  { exists w, p, k. split; [done|]. split; [done|]. intros h. split; [by left|]. by intros [?|(l & c & ?%elem_of_nil & _)]. }
  destruct (lookup_lt_is_Some_2 right_ends l) as [e He]; [lia|].
  destruct (score_left_spec right_ends w l e Hl He (Hwindow l e He) Hw) as (w1 & E1 & Hw1 & Hin1).
  cbn [foldM]. assert (∃ p1 k1, lane_step index names t retries lane right_ends (w, p, k, false) l = Some (w1, p1, k1, false)) as (p1 & k1 & ->).
  { unfold lane_step. rewrite E1. cbn [mbind option_bind]. case_decide; eauto. }
  cbn [mbind option_bind]. destruct (IH w1 p1 k1 Hw1) as (w' & p' & k' & E & Hw' & Hin).
  exists w', p', k'. split; [done|]. split; [done|]. intros h. rewrite Hin, Hin1. setoid_rewrite elem_of_cons. naive_solver.
Qed.
End Scoring.

(** *** Reduction of the lanes *)

Section Reduce.
Context `{Sha256}.

Lemma Worker_merge_spec l r :
  worker_samples l = sampler disabled → worker_samples r = sampler disabled →
  ∃ w, Worker_merge l r = Some w ∧ worker_samples w = sampler disabled ∧
    ∀ h, h ∈ worker_hits w ↔ h ∈ worker_hits l ∨ h ∈ worker_hits r.
Proof.
  intros Hl Hr. unfold Worker_merge. rewrite Hl, Hr, merge_disabled. cbn [mbind option_bind].
  eexists. split; [done|]. split; [done|]. intros h. apply elem_of_union.
Qed.

(** However rayon combines the workers, the hits are those of all of them. *)
Lemma reduce_workers shape ws :
  Forall (λ w, worker_samples w = sampler disabled) ws →
  ∃ w, reduce (Worker_new disabled 0) Worker_merge shape ws = Some w ∧ worker_samples w = sampler disabled ∧
    ∀ h, h ∈ worker_hits w ↔ ∃ x, x ∈ ws ∧ h ∈ worker_hits x.
Proof.
  revert ws. induction shape as [|n l IHl r IHr]; intros ws Hws; cbn [reduce].
  - assert (Hgen : ∀ w, worker_samples w = sampler disabled → ∃ w', fold_merge Worker_merge w ws = Some w' ∧
      worker_samples w' = sampler disabled ∧ ∀ h, h ∈ worker_hits w' ↔ h ∈ worker_hits w ∨ ∃ x, x ∈ ws ∧ h ∈ worker_hits x).
    { induction Hws as [|x ws Hx _ IH]; intros w Hw; cbn [fold_merge].
      - exists w. split; [done|]. split; [done|]. intros h. split; [by left|]. by intros [?|(x & ?%elem_of_nil & _)].
      - destruct (Worker_merge_spec w x Hw Hx) as (w1 & -> & Hw1 & Hin1). cbn [mbind option_bind].
        destruct (IH w1 Hw1) as (w' & E & Hw' & Hin). exists w'. split; [done|]. split; [done|].
        intros h. rewrite Hin, Hin1. setoid_rewrite elem_of_cons. naive_solver. }
    destruct (Hgen (Worker_new disabled 0) eq_refl) as (w & E & Hw & Hin). exists w. split; [done|]. split; [done|].
    intros h. rewrite Hin. split; [|by right]. intros [?|?]; [set_solver|done].
  - destruct (IHl (take n ws)) as (w1 & -> & Hw1 & Hin1); [by apply Forall_take|]. cbn [mbind option_bind].
    destruct (IHr (drop n ws)) as (w2 & -> & Hw2 & Hin2); [by apply Forall_drop|]. cbn [mbind option_bind].
    destruct (Worker_merge_spec w1 w2 Hw1 Hw2) as (w & E & Hw & Hin). exists w. split; [done|]. split; [done|].
    assert (Hx : ∀ x, x ∈ ws ↔ x ∈ take n ws ∨ x ∈ drop n ws) by (intros x; by rewrite <- elem_of_app, take_drop).
    intros h. rewrite Hin, Hin1, Hin2. setoid_rewrite Hx. naive_solver.
Qed.
End Reduce.

(** The scores are the exhaustive ones. *)
Section Exhaustive.
Context `{JaroWinkler} `{Sha256} (retries threads : nat).
#[local] Existing Instance never_cancelled.

Lemma score_exhaustive names index t taker shape :
  names_ok names → indexes names index → (0 <= t)%Q → (t <= 100)%Q →
  ∃ hits, score_resident_index_with_samples index names t retries threads disabled taker shape =
    Returns (hits, sampler disabled) ∧
    ∀ h, h ∈ hits ↔ ∃ i j, i < j ∧ accepted names t i j h.
Proof.
  intros Hnames Hindex Ht0 Ht. unfold score_resident_index_with_samples. cbv zeta.
  assert (Hij : ∀ i j h, i < j → accepted names t i j h → i < length names - 1).
  { intros i j h Hlt (a & b & _ & Hb%lookup_lt_Some & _). lia. }
  case_decide as Hfew.
  { eexists. split; [done|]. intros h. split; [set_solver|]. intros (i & j & Hlt & Hacc). pose proof (Hij i j h Hlt Hacc). lia. }
  destruct (range_ends_spec names Hnames t (length names - 1) (le_n _)) as (r & ends & Eends & Hlen & _ & Hends).
  unfold build_right_name_range_ends. rewrite Eends. cbn [mbind option_bind or_panic outcome_bind].
  set (lc := length names - 1) in *. set (lanes := Nat.max (Nat.min threads lc) 1).
  assert (Hlane : ∀ lane, ∃ w, run_lane index names t retries disabled taker lanes lc ends lane = Some (w, false) ∧
    worker_ok (length names) w ∧ ∀ h, h ∈ worker_hits w ↔ ∃ l c, l ∈ lane_lefts taker lanes lc lane ∧ l < c ∧ accepted names t l c h).
  { intros lane. destruct (lane_spec retries names Hnames t Ht0 Ht index Hindex ends Hlen Hends lane (lane_lefts taker lanes lc lane)
      (Worker_new disabled (length names)) 0 0) as (w & p & k & E & Hw & Hin).
    - apply Forall_forall. intros l [Hl _]%elem_of_lane_lefts. done.
    - split; [apply CandidateSeen_new_wf|done].
    - exists w. unfold run_lane. fold (lane_lefts taker lanes lc lane). rewrite E. split; [done|]. split; [done|].
      intros h. rewrite Hin. split; [intros [Hh|?]; [by apply elem_of_empty in Hh|done]|by right]. }
  assert (∃ results, mapM (M := option) (run_lane index names t retries disabled taker lanes lc ends) (seq 0 lanes) = Some results ∧
    Forall2 (λ lane r, r.2 = false ∧ worker_ok (length names) r.1 ∧
      ∀ h, h ∈ worker_hits r.1 ↔ ∃ l c, l ∈ lane_lefts taker lanes lc lane ∧ l < c ∧ accepted names t l c h) (seq 0 lanes) results)
    as (results & -> & Hres).
  { clear -Hlane. induction (seq 0 lanes) as [|lane ls (rs & E & Hrs)]; [by exists []|].
    destruct (Hlane lane) as (w & Ew & Hw & Hin). exists ((w, false) :: rs). cbn [mapM]. rewrite Ew. cbn [mbind option_bind].
    rewrite E. split; [done|]. by constructor. }
  cbn [or_panic mbind outcome_bind].
  destruct (reduce_workers shape results.*1) as (w & -> & Hw & Hin).
  { apply Forall_fmap, Forall_forall. intros x [k Hk]%list_elem_of_lookup_1.
    destruct (Forall2_lookup_r _ _ _ _ _ Hres Hk) as (lane & _ & _ & [_ Hs] & _). exact Hs. }
  cbn [or_panic mbind outcome_bind].
  assert (existsb snd results = false) as ->.
  { clear -Hres. induction Hres as [|lane x ls rs (Hx & _) _ IH]; [done|]. simpl. by rewrite Hx. }
  rewrite Hw. eexists. split; [done|]. intros h. rewrite Hin. split.
  - intros (x & (y & -> & [k Hk]%list_elem_of_lookup_1)%list_elem_of_fmap & Hh).
    destruct (Forall2_lookup_r _ _ _ _ _ Hres Hk) as (lane & Hlk & Hc & Hok & Hy). destruct (proj1 (Hy h) Hh) as (l0 & c & _ & Hlc & Hacc). eauto.
  - intros (i & j & Hlt & Hacc). pose proof (Hij i j h Hlt Hacc) as Hi.
    set (lane := taker (i / SCORE_SCHEDULING_CHUNK) mod lanes).
    assert (Hlanes : lane < lanes) by (apply Nat.mod_upper_bound; unfold lanes; lia).
    assert (Hseq : seq 0 lanes !! lane = Some lane) by by apply lookup_seq.
    destruct (Forall2_lookup_l _ _ _ _ _ Hres Hseq) as (x & Hx & _ & _ & Hy).
    exists x.1. split; [by apply list_elem_of_fmap_2, (list_elem_of_lookup_2 _ lane)|].
    apply Hy. exists i, j. split; [by apply elem_of_lane_lefts|]. done.
Qed.
End Exhaustive.

(** ** Properties *)

(** The candidates offered for one name, from the generations of the names before. *)
Definition collect_offered (seen : CandidateSeen) (cs : list nat) : option (CandidateSeen * list nat) :=
  foldM push_candidate (begin_name seen, []) cs.

(** The 16-bit generations never confuse names.  After any history of names,
    however many times the generation has wrapped around, the candidates collected
    for the next name are exactly the offered ones, each once, and no index is out of
    range. *)
Theorem candidates_collected_once (n : nat) (history : list (list nat)) (offered : list nat) :
  Forall (Forall (λ c, c < n)) history → Forall (λ c, c < n) offered →
  ∃ seen, foldM (λ seen cs, fst <$> collect_offered seen cs) (CandidateSeen_new n) history = Some seen ∧
  ∃ seen' candidates, collect_offered seen offered = Some (seen', candidates) ∧
    NoDup candidates ∧ ∀ c, c ∈ candidates ↔ c ∈ offered.
Proof.
  intros Hhist Hoffered.
  assert (Hstep : ∀ seen cs, seen_wf n seen → Forall (λ c, c < n) cs →
    ∃ seen' out, collect_offered seen cs = Some (seen', out) ∧ seen_wf n seen' ∧ NoDup out ∧ ∀ c, c ∈ out ↔ c ∈ cs).
  { intros seen cs Hwf Hcs. destruct (begin_name_spec n seen Hwf) as [Hwf1 Hfresh].
    destruct (push_candidates_spec n (begin_name seen, []) cs) as ([seen' out] & E & (Hwf' & Hnd & _) & Hin); [|done|].
    - split; [done|]. split; [constructor|]. split; [|constructor]. intros c. split; [by intros ?%Hfresh|by intros ?%elem_of_nil].
    - exists seen', out. split; [done|]. split; [done|]. split; [done|]. intros c. rewrite Hin. simpl. set_solver. }
  assert (Hrun : ∀ seen, seen_wf n seen → ∃ seen1,
    foldM (λ seen cs, fst <$> collect_offered seen cs) seen history = Some seen1 ∧ seen_wf n seen1).
  { induction Hhist as [|cs history Hcs _ IH]; intros seen Hwf; [by exists seen|].
    destruct (Hstep seen cs Hwf Hcs) as (seen' & out & E & Hwf' & _). cbn [foldM]. rewrite E. cbn [fmap option_fmap option_map fst mbind option_bind].
    by apply IH. }
  destruct (Hrun _ (CandidateSeen_new_wf n)) as (seen & E & Hwf). exists seen. split; [done|].
  destruct (Hstep seen offered Hwf Hoffered) as (seen' & out & E' & _ & Hnd & Hin). by exists seen', out.
Qed.

(** The generation before the wrap, and the first after it. *)
Lemma candidates_collected_once_witness :
  begin_name {| generations := [65535; 3]%Z; generation := 65535 |} = {| generations := [0; 0]%Z; generation := 1 |} ∧
  ∃ seen, foldM (λ seen cs, fst <$> collect_offered seen cs) (CandidateSeen_new 3) [[0; 1]; [2]] = Some seen ∧
  ∃ seen' candidates, collect_offered seen [2; 0; 2] = Some (seen', candidates) ∧
    NoDup candidates ∧ ∀ c, c ∈ candidates ↔ c ∈ [2; 0; 2].
Proof.
  split; [vm_compute; reflexivity|]. apply candidates_collected_once; repeat constructor.
Defined.

(** C12: Scoring is exhaustive.  For names sorted by length and an index of them, and
    for a verifier that accepts only pairs whose Jaro-Winkler similarity reaches the
    cutoff, the hits are those of all accepted pairs of names: the length window, the
    rare-token probes and the overlap filter lose none, whatever the number of
    threads, the lane that takes each chunk and the order of the reduction. *)
Theorem scoring_exhaustive `{JaroWinkler} `{Sha256} (retries threads : nat) (names : list CanonicalName)
    (index : ResidentNameIndex) (t : Q) (taker : nat → nat) (shape : Reduction) :
  names_ok names → indexes names index → (0 <= t)%Q → (t <= 100)%Q →
  ∃ hits, @score_resident_index_with_samples index names t _ _ never_cancelled retries threads disabled taker shape =
    Returns (hits, sampler disabled) ∧
    ∀ h, h ∈ hits ↔ ∃ i j, i < j ∧ accepted names t i j h.
Proof. apply score_exhaustive. Qed.

(** A verifier: all characters of the left name match. *)
Definition subset_comparator : NameComparator := λ l r cutoff,
  bool_decide (l ⊆+ r) && Qle_bool cutoff (similarity (length l) (length r) (length l) 0 0).

Lemma subset_jaro_winkler : @JaroWinkler subset_comparator.
Proof.
  intros l r cutoff. unfold similar, subset_comparator. intros [Hsub%bool_decide_eq_true Hs%Qle_bool_iff]%andb_true_iff.
  exists l, 0, 0. split; [done|]. split; [done|]. split; [lia|]. split; [lia|done].
Qed.

Lemma example_names_ok : names_ok example_names.
Proof. split; [apply example_names_chars| |]; repeat constructor; simpl; lia. Qed.

Lemma example_scores_computed :
  match @ResidentNameIndex_build never_cancelled stable_sort _ _ 4 example_names with
  | Returns index =>
      match @score_resident_index_with_samples index example_names 90 subset_comparator ones_sha never_cancelled 1 4 disabled id Fold with
      | Returns (hits, _) => bool_decide (size hits = 2)
      | _ => false
      end
  | _ => false
  end = true.
Proof. vm_compute. reflexivity. Qed.

(** APE and APES are similar at 90 percent. *)
Lemma scoring_exhaustive_witness :
  match @ResidentNameIndex_build never_cancelled stable_sort _ _ 4 example_names with
  | Returns index =>
      ∃ hits, @score_resident_index_with_samples index example_names 90 subset_comparator ones_sha never_cancelled 1 4 disabled id Fold =
        Returns (hits, sampler disabled) ∧ size hits = 2 ∧
        ∀ h, h ∈ hits ↔ ∃ i j, i < j ∧ @accepted subset_comparator example_names 90 i j h
  | _ => False
  end.
Proof.
  generalize (@ResidentNameIndex_build_ok stable_sort _ _ 4 example_names example_names_chars).
  generalize example_scores_computed.
  generalize (@ResidentNameIndex_build never_cancelled stable_sort _ _ 4 example_names).
  intros [index| |] Hc Hindex; [|discriminate..].
  destruct (@scoring_exhaustive subset_comparator subset_jaro_winkler ones_sha 1 4 example_names index 90 id Fold)
    as (hits & E & Hhits); [apply example_names_ok|exact Hindex|discriminate|discriminate|].
  exists hits. revert Hc. rewrite E. intros Hc. split; [reflexivity|].
  split; [exact (proj1 (bool_decide_eq_true _) Hc)|exact Hhits].
Defined.
