(* ===== verification/NameAtoms.v ===== *)
(** From the store to the names ([atomize] in
    [dedup/crates/core/src/name/mod.rs]): one name per contract, its most common
    usable one, except on Solana, where every NFT counts by its own; grouped by name
    and chain. *)

From S2P Require Import Prelude Radix Text CanonicalJson Types Anchors UriChunks Entity Outcome.
From S2P Require Import NameIndex.

(** ** Usable names *)

Definition NULL_LIKE : list str :=
  map lit ["none"; "null"; "nil"; "undefined"; "n/a"; "na"; "n.a."; "nan"; "-"; "--"; "."]%string.

Definition is_usable_contract_name (name : str) : bool :=
  let trimmed := trim name in
  if decide (trimmed = []) then false else
  if existsb (eq_ignore_ascii_case trimmed) NULL_LIKE then false else
  negb (bool_decide (str_len trimmed = 1) && match trimmed with c :: _ => is_ascii_digit c | [] => false end).

(** ** Collecting *)

(** (contract, name) of the other chains, as sorted later, and (NFT, contract, name)
    of Solana. *)
Definition Collected : Type := list (Z * Z) * list (NftId * ContractId * StringId).

Definition collect_nft (store : EntityStore) (acc : Collected) (nft : Nft) : option Collected :=
  match name_id nft with
  | None => Some acc
  | Some name =>
      contract ← contracts store !! nft_contract_id nft;
      text ← string_of store name;
      if negb (is_usable_contract_name text) then Some acc else
      solana ← is_solana_chain store (contract_chain_id contract);
      Some (if solana : bool
            then (acc.1, acc.2 ++ [(nft_id nft, contract_id contract, name)])
            else (acc.1 ++ [(Z.of_nat (contract_id contract), Z.of_nat name)], acc.2))
  end.

(** [append], the longer list first. *)
Definition append_larger {A} (l r : list A) : list A :=
  if decide (length l < length r) then r ++ l else l ++ r.

Definition merge_collected (l r : Collected) : option Collected :=
  Some (append_larger l.1 r.1, append_larger l.2 r.2).

(** ** The name of a contract *)

Fixpoint assignment_run (contract name : Z) (l : list (Z * Z)) : nat :=
  match l with
  | [] => 0
  | p :: l => if decide (p = (contract, name)) then S (assignment_run contract name l) else 0
  end.

Section Atomize.
Context `{Observer} `{UnstableSort} `{WriteSchedule (Z * Z)} `{WriteSchedule (Z * Z * Z)}.
Context (threads : nat) (store : EntityStore).

Definition ATOMIZE_CHUNK : nat := 4096.

Definition collect_chunk (chunk : nat * list Nft) : outcome Collected :=
  check AtomizeCollect chunk.1;;
  or_panic (foldM (collect_nft store) ([], []) chunk.2).

(** The state of the selection: best name and count, the rest, the reported work. *)
Record Selection := { selected_name : Z; selected_count : Z; selection_rest : list (Z * Z); flushed : Z * nat }.

(** [count > selected_count || (count == selected_count && name < selected_name)] *)
Definition better_name (name count : Z) (s : Selection) : outcome bool :=
  if (selected_count s <? count)%Z then Returns true else
  if (count =? selected_count s)%Z then
    text ← or_panic (string_of store (Z.to_nat name));
    best ← or_panic (string_of store (Z.to_nat (selected_name s)));
    Returns (str_ltb text best)
  else Returns false.

(** The runs of one contract; [fuel] bounds their number. *)
Fixpoint select_name (fuel : nat) (contract : Z) (s : Selection) : outcome Selection :=
  match fuel, selection_rest s with
  | S fuel, p :: _ =>
      if decide (p.1 ≠ contract) then Returns s else
      let run := assignment_run contract p.2 (selection_rest s) in
      let count := Z.of_nat run in
      better ← better_name p.2 count s;
      flushed ← flush_progress AtomizeSelect ((flushed s).1 + count, (flushed s).2)%Z;
      select_name fuel contract
        {| selected_name := if better : bool then p.2 else selected_name s;
           selected_count := if better then count else selected_count s;
           selection_rest := drop run (selection_rest s); flushed := flushed |}
  | _, _ => Returns s
  end.

(** The loop over the contracts; [fuel] bounds their number. *)
Fixpoint select_representatives (fuel : nat) (rest : list (Z * Z)) (flushed_ : Z * nat)
    : outcome (list (ContractId * StringId)) :=
  match fuel, rest with
  | S fuel, p :: _ =>
      s ← select_name (length rest) p.1 {| selected_name := p.2; selected_count := 0; selection_rest := rest; flushed := flushed_ |};
      more ← select_representatives fuel (selection_rest s) (flushed s);
      Returns ((Z.to_nat p.1, Z.to_nat (selected_name s)) :: more)
  | _, _ => Returns []
  end.

(** ** Members and groups *)

Definition LogicalMember : Type := StringId * ChainId * NameMember.

Definition representative_member (r : ContractId * StringId) : option LogicalMember :=
  contract ← contracts store !! r.1;
  Some (r.2, contract_chain_id contract, {| member_contract_id := r.1; member_nft_id := None |}).

Definition solana_member (r : NftId * ContractId * StringId) : option LogicalMember :=
  contract ← contracts store !! r.1.2;
  Some (r.2, contract_chain_id contract, {| member_contract_id := r.1.2; member_nft_id := Some r.1.1 |}).

(** The triple to sort of the member at [index]. *)
Definition member_triple (index : nat) (m : LogicalMember) : outcome (Z * Z * Z) :=
  if fits_u32 index then Returns (Z.of_nat m.1.1, Z.of_nat m.1.2, Z.of_nat index)
  else Fails (InvalidInput "name").

Definition materialize_chunk (chunk : nat * list LogicalMember) : outcome (list (Z * Z * Z)) :=
  check AtomizeMaterialize chunk.1;;
  sequence (imap (λ offset m, member_triple (chunk.1 * ATOMIZE_CHUNK + offset) m) chunk.2).

Fixpoint triple_run (name chain : Z) (l : list (Z * Z * Z)) : nat :=
  match l with
  | [] => 0
  | t :: l => if decide (t.1 = (name, chain)) then S (triple_run name chain l) else 0
  end.

(** The atoms of one name; [fuel] bounds their number. *)
Fixpoint group_atoms (fuel : nat) (logical_members : list LogicalMember) (name : Z) (rest : list (Z * Z * Z))
    (grouped : Z * nat) : outcome (list NameAtom * list (Z * Z * Z) * (Z * nat)) :=
  match fuel, rest with
  | S fuel, t :: _ =>
      if decide (t.1.1 ≠ name) then Returns ([], rest, grouped) else
      if negb (fits_u16 (Z.to_nat t.1.2)) then Fails (InvalidInput "name") else
      let run := triple_run name t.1.2 rest in
      members ← or_panic (mapM (M := option) (λ e : Z * Z * Z, m ← logical_members !! Z.to_nat e.2; Some m.2) (take run rest));
      grouped ← flush_progress AtomizeGroup (grouped.1 + Z.of_nat run, grouped.2)%Z;
      '(atoms, rest, grouped) ← group_atoms fuel logical_members name (drop run rest) grouped;
      Returns ({| atom_chain_id := Z.to_nat t.1.2; members := members |} :: atoms, rest, grouped)
  | _, _ => Returns ([], rest, grouped)
  end.

(** The loop over the names; [fuel] bounds their number. *)
Fixpoint group_names (fuel : nat) (logical_members : list LogicalMember) (rest : list (Z * Z * Z)) (grouped : Z * nat)
    : outcome (list CanonicalName) :=
  match fuel, rest with
  | S fuel, t :: _ =>
      '(atoms, rest', grouped) ← group_atoms (length rest) logical_members t.1.1 rest grouped;
      text ← or_panic (string_of store (Z.to_nat t.1.1));
      more ← group_names fuel logical_members rest' grouped;
      Returns ({| canonical_name_id := Z.to_nat t.1.1; characters := text; atoms := atoms |} :: more)
  | _, _ => Returns []
  end.

(** By length, then by text. *)
Definition name_compare (a b : CanonicalName) : comparison :=
  then_with (Nat.compare (length (characters a)) (length (characters b))) (str_compare (characters a) (characters b)).

Definition atomize (shape : Reduction) : outcome (list CanonicalName) :=
  collected ← collect (map collect_chunk (imap pair (chunks ATOMIZE_CHUNK (nfts store))));
  all ← or_panic (reduce ([], []) merge_collected shape collected);
  let solana_members := sort_unstable_by (λ a b, Nat.compare a.1.1 b.1.1) all.2 in
  assignments ← sorted_or_interrupted (sort_u32_pairs_while threads all.1 (sort_callback AtomizeSortAssignments) 0);
  representatives ← select_representatives (length assignments) assignments (0%Z, 0);
  from_contracts ← or_panic (mapM (M := option) representative_member representatives);
  from_nfts ← or_panic (mapM (M := option) solana_member solana_members);
  let logical_members := from_contracts ++ from_nfts in
  selected ← collect (map materialize_chunk (imap pair (chunks ATOMIZE_CHUNK logical_members)));
  selected ← sorted_or_interrupted
    (sort_u32_triples_while threads (mjoin selected) (sort_callback AtomizeSortSelected) 0);
  names ← group_names (length selected) logical_members selected (0%Z, 0);
  Returns (sort_by name_compare names).
End Atomize.
