(* ===== verification/Name.v ===== *)
(** The name stage ([run_name] in [dedup/crates/core/src/name/mod.rs]): identical
    names, similar names, and the emission of their hits into the counters. *)

From Stdlib Require Import QArith.
From S2P Require Import Prelude Radix Text CanonicalJson Types Anchors Stats Sampling UriChunks.
From S2P Require Import Entity Outcome Float NameBounds NameIndex NameScore NameAtoms.

#[local] Open Scope nat_scope.

(** ** Hits of Solana NFTs within their chain *)

Definition IntraNftHits : Type := gmap ChainId (gset ContractId * gset NftId).

Definition intra_insert (hits : IntraNftHits) (chain : ChainId) (contract : ContractId) (nft : NftId) : IntraNftHits :=
  let '(contracts, nfts) := default (∅, ∅) (hits !! chain) in
  <[chain := ({[contract]} ∪ contracts, {[nft]} ∪ nfts)]> hits.

Definition intra_key (chain : ChainId) : ScopeKey :=
  {| kind := IntraChain; primary_chain := chain; secondary_chain := None; dimension := Name |}.

Definition merge_into (hits : IntraNftHits) (acc : SummaryAccumulator) : SummaryAccumulator :=
  merge_unique_contract_counts acc (list_to_map (map
    (λ '(chain, (contracts, nfts)),
       (intra_key chain, {| duplicate_contract_count := Z.of_nat (size contracts);
                            duplicate_nft_count := Z.of_nat (size nfts) |}))
    (map_to_list hits))).

(** ** Emission *)

(** The order in which a hash set is iterated is unspecified. *)
Class HashOrder := {
  hash_order : gset NameHit → list NameHit;
  hash_order_perm s : hash_order s ≡ₚ elements s;
}.

#[export] Instance element_order : HashOrder := {| hash_order := elements; hash_order_perm s := reflexivity _ |}.

Definition emit_hit (store : EntityStore) (st : SummaryAccumulator * IntraNftHits) (hit : NameHit)
    : option (SummaryAccumulator * IntraNftHits) :=
  match member_nft_id (hit_member hit) with
  | Some nft =>
      contract ← contracts store !! member_contract_id (hit_member hit);
      let chain := contract_chain_id contract in
      if decide (chain = hit_peer_chain hit)
      then Some (st.1, intra_insert st.2 chain (member_contract_id (hit_member hit)) nft)
      else acc ← mark_nft_duplicate store st.1 nft Name (hit_peer_chain hit); Some (acc, st.2)
  | None =>
      acc ← mark_contract_duplicate store st.1 (member_contract_id (hit_member hit)) Name (hit_peer_chain hit);
      Some (acc, st.2)
  end.

(** ** Identical names *)

Definition IDENTICAL_CHUNK : nat := 4096.

(** The pairs of a list, the earlier element first. *)
Fixpoint later_pairs {A} (l : list A) : list (A * A) :=
  match l with
  | [] => []
  | x :: l => map (pair x) l ++ later_pairs l
  end.

(** The hits of one name: members of an atom of at least two, and of two atoms. *)
Definition name_hits (name : CanonicalName) (hits : gset NameHit) : gset NameHit :=
  let hits := foldl (λ hits atom,
    if decide (2 ≤ length (members atom)) then record_atom_hits atom (atom_chain_id atom) hits else hits)
    hits (atoms name) in
  foldl (λ hits '(left_, right_),
    record_atom_hits right_ (atom_chain_id left_) (record_atom_hits left_ (atom_chain_id right_) hits))
    hits (later_pairs (atoms name)).

Record ExactWorker := { exact_hits : gset NameHit; exact_samples : PairSampler }.

Section Stage.
Context `{Observer} `{UnstableSort} `{WriteSchedule Z} `{WriteSchedule (Z * Z)} `{WriteSchedule (Z * Z * Z)}.
Context `{HashOrder} `{NameComparator} `{Sha256}.
Context (retries threads : nat) (store : EntityStore).

Definition ExactWorker_new (plan : PairSamplingPlan) : ExactWorker := {| exact_hits := ∅; exact_samples := sampler plan |}.

Definition exact_name (w : ExactWorker) (entry : nat * CanonicalName) : option ExactWorker :=
  let '(name_id, name) := entry in
  samples ← (if enabled (exact_samples w) then
               observe_clique_by retries (exact_samples w) (name_member_len name) (name_member_contract name)
                 (Z.lxor 0x4e414d4500000000 (Z.of_nat name_id))
             else Some (exact_samples w));
  Some {| exact_hits := name_hits name (exact_hits w); exact_samples := samples |}.

(** The fold over one chunk. *)
Definition exact_chunk (w : ExactWorker) (chunk : nat * list CanonicalName) : outcome ExactWorker :=
  check Identical chunk.1;;
  or_panic (foldM exact_name w (imap (λ offset name, (chunk.1 * IDENTICAL_CHUNK + offset, name)) chunk.2)).

Definition ExactWorker_merge (l r : ExactWorker) : option ExactWorker :=
  samples ← merge (exact_samples l) (exact_samples r);
  Some {| exact_hits := exact_hits l ∪ exact_hits r; exact_samples := samples |}.

(** [try_fold] and [try_reduce]: rayon folds contiguous segments of the chunks from
    the identity and combines them. *)
Fixpoint fold_reduce (plan : PairSamplingPlan) (shape : Reduction) (l : list (nat * list CanonicalName)) : outcome ExactWorker :=
  match shape with
  | Fold => fold_outcome exact_chunk (ExactWorker_new plan) l
  | Split n sl sr =>
      match fold_reduce plan sl (take n l), fold_reduce plan sr (drop n l) with
      | Panics, _ | _, Panics => Panics
      | Fails e, _ | _, Fails e => Fails e
      | Returns wl, Returns wr => or_panic (ExactWorker_merge wl wr)
      end
  end.

Definition emit_identical (plan : PairSamplingPlan) (shape : Reduction) (names : list CanonicalName)
    (st : SummaryAccumulator * IntraNftHits) : outcome (SummaryAccumulator * IntraNftHits * PairSampler) :=
  worker ← fold_reduce plan shape (imap pair (chunks IDENTICAL_CHUNK names));
  st ← or_panic (foldM (emit_hit store) st (hash_order (exact_hits worker)));
  Returns (st, exact_samples worker).

(** ** The stage *)

(** One step of the emission loop. *)
Definition emit_step (st : SummaryAccumulator * IntraNftHits * (Z * nat)) (hit : NameHit)
    : outcome (SummaryAccumulator * IntraNftHits * (Z * nat)) :=
  st' ← or_panic (emit_hit store st.1 hit);
  completed ← flush_progress Emit (st.2.1 + 1, st.2.2)%Z;
  Returns (st', completed).

(** The loop checks for cancellation before every hit as well. *)
Definition emit_loop (st : SummaryAccumulator * IntraNftHits) (hits : list NameHit)
    : outcome (SummaryAccumulator * IntraNftHits * (Z * nat)) :=
  fold_outcome (λ st '(i, hit), check EmitHit i;; emit_step st hit) (st, (0%Z, 0)) (imap pair hits).

(** How rayon schedules the parallel parts. *)
Record Schedule := {
  collect_shape : Reduction;
  identical_shape : Reduction;
  score_shape : Reduction;
  score_taker : nat → nat;
}.

(** The accumulator of a failed run is abandoned by the caller. *)
Definition run_name_internal (sched : Schedule) (threshold : f64) (acc : SummaryAccumulator) (plan : PairSamplingPlan)
    : outcome (SummaryAccumulator * PairSampler) :=
  match threshold with
  | F64 threshold =>
      if negb (Qle_bool 0 threshold && Qle_bool threshold 1) then Fails (InvalidInput "name") else
      let threshold_pct := fmul threshold 100 in
      names ← atomize threads store (collect_shape sched);
      '(acc, intra, samples) ← emit_identical plan (identical_shape sched) names (acc, ∅);
      if decide (length names < 2) then Returns (merge_into intra acc, samples) else
      index ← ResidentNameIndex_build threads names;
      '(hits, fuzzy) ← score_resident_index_with_samples index names threshold_pct retries threads plan
                         (score_taker sched) (score_shape sched);
      samples ← or_panic (merge samples fuzzy);
      '(acc, intra, _) ← emit_loop (acc, intra) (hash_order hits);
      Returns (merge_into intra acc, samples)
  | _ => Fails (InvalidInput "name")
  end.

Definition run_name (sched : Schedule) (threshold : f64) (acc : SummaryAccumulator) : outcome SummaryAccumulator :=
  '(acc, _) ← run_name_internal sched threshold acc disabled; Returns acc.
End Stage.
