(* ===== verification/NameAtomsFacts.v ===== *)
(** The names of a store: atomization groups, by text and chain, the most common
    usable name of every contract and the own name of every NFT on Solana. *)

From S2P Require Import Prelude Radix Text CanonicalJson Types Anchors UriChunks Entity.
From S2P Require Import EntityInvariant EntityPostings Outcome NameIndex NameIndexFacts.
From S2P Require Import NameAtoms.

(** ** Which names count *)

Section Votes.
Context (s : EntityStore).

(** The usable name of an NFT. *)
Definition usable_name (n : Nft) : option (StringId * str) :=
  id ← name_id n; text ← string_of s id;
  if is_usable_contract_name text then Some (id, text) else None.

Definition on_solana (n : Nft) : bool :=
  default false (chain ← nft_chain (contracts s) n; is_solana_chain s chain).

(** What an NFT contributes to the assignments and to the Solana members. *)
Definition contract_vote (n : Nft) : list (Z * Z) :=
  match usable_name n with
  | Some (id, _) => if on_solana n then [] else [(Z.of_nat (nft_contract_id n), Z.of_nat id)]
  | None => []
  end.
Definition solana_vote (n : Nft) : list (NftId * ContractId * StringId) :=
  match usable_name n with
  | Some (id, _) => if on_solana n then [(nft_id n, nft_contract_id n, id)] else []
  | None => []
  end.

Definition contract_votes : list (Z * Z) := nfts s ≫= contract_vote.
Definition solana_votes : list (NftId * ContractId * StringId) := nfts s ≫= solana_vote.
End Votes.

Lemma reduce_collected shape ws :
  ∃ w, reduce ([], []) merge_collected shape ws = Some w ∧ w.1 ≡ₚ mjoin ws.*1 ∧ w.2 ≡ₚ mjoin ws.*2.
Proof.
  assert (Happend : ∀ A (l r : list A), append_larger l r ≡ₚ l ++ r).
  { intros A l r. unfold append_larger. case_decide; [apply Permutation_app_comm|done]. }
  revert ws. induction shape as [|n l IHl r IHr]; intros ws; cbn [reduce].
  - assert (Hgen : ∀ w0, ∃ w, fold_merge merge_collected w0 ws = Some w ∧
      w.1 ≡ₚ w0.1 ++ mjoin ws.*1 ∧ w.2 ≡ₚ w0.2 ++ mjoin ws.*2); [|apply (Hgen ([], []))].
    induction ws as [|x ws IH]; intros w0; cbn [fold_merge].
    + exists w0. cbn. by rewrite !app_nil_r.
    + cbn [merge_collected mbind option_bind]. destruct (IH (append_larger w0.1 x.1, append_larger w0.2 x.2)) as (w & E & H1 & H2).
      exists w. split; [exact E|]. rewrite H1, H2. cbn [fst snd]. rewrite !Happend, !fmap_cons, !mjoin_cons, <- !app_assoc. done.
  - destruct (IHl (take n ws)) as (w1 & -> & H1 & H1'), (IHr (drop n ws)) as (w2 & -> & H2 & H2').
    eexists. split; [done|]. cbn [fst snd]. rewrite !Happend, H1, H1', H2, H2', <- !join_app, <- !fmap_app, take_drop. done.
Qed.

Section Collecting.
Context (s : EntityStore) (Hok : store_ok s).
#[local] Existing Instance never_cancelled.

(** The lookups of an NFT of the store succeed. *)
Lemma nft_lookups n :
  n ∈ nfts s → ∃ c chain, contracts s !! nft_contract_id n = Some c ∧ contract_id c = nft_contract_id n ∧
    chains s !! contract_chain_id c = Some chain ∧ on_solana s n = bool_decide (chain = lit "solana") ∧
    is_solana_chain s (contract_chain_id c) = Some (on_solana s n) ∧
    ∀ id, name_id n = Some id → ∃ t, strings s !! id = Some t.
Proof.
  intros [i Hi]%list_elem_of_lookup_1. destruct (ok_nfts s Hok i n Hi) as [_ Hc _ Hname _ _].
  destruct (lookup_lt_is_Some_2 _ _ Hc) as [c Hlc]. destruct (ok_contracts s Hok _ _ Hlc) as [Hid _ (chain & Hch & _) _].
  exists c, chain. unfold on_solana, nft_chain, is_solana_chain, chain_name. rewrite Hlc. cbn. rewrite Hch. cbn.
  repeat split; [done|]. intros id Hn. destruct (Hname id Hn) as (t & ? & _). eauto.
Qed.

Lemma collect_nft_spec acc n :
  n ∈ nfts s → collect_nft s acc n = Some (acc.1 ++ contract_vote s n, acc.2 ++ solana_vote s n).
Proof.
  intros (c & chain & Hc & Hid & Hch & _ & Hsol & Htext)%nft_lookups.
  unfold collect_nft, contract_vote, solana_vote, usable_name. destruct (name_id n) as [id|] eqn:Hn; cbn.
  - destruct (Htext id eq_refl) as [t Ht]. rewrite Hc. cbn. unfold string_of. rewrite Ht. cbn.
    destruct (is_usable_contract_name t); cbn; [|by rewrite !app_nil_r; destruct acc].
    rewrite Hsol. cbn. rewrite Hid. destruct (on_solana s n); cbn; by rewrite ?app_nil_r.
  - by rewrite !app_nil_r; destruct acc.
Qed.

Lemma collect_nfts_spec ns acc :
  (∀ n, n ∈ ns → n ∈ nfts s) →
  foldM (collect_nft s) acc ns = Some (acc.1 ++ (ns ≫= contract_vote s), acc.2 ++ (ns ≫= solana_vote s)).
Proof.
  revert acc. induction ns as [|n ns IH]; intros acc Hns; cbn [foldM]; [cbn; by rewrite !app_nil_r; destruct acc|].
  rewrite collect_nft_spec by (apply Hns; by left). cbn [mbind option_bind]. rewrite IH by (intros; apply Hns; by right).
  cbn [fst snd]. by rewrite !bind_cons, !app_assoc.
Qed.

Lemma collected_spec shape :
  ∃ collected all,
    collect (map (collect_chunk s) (imap pair (chunks ATOMIZE_CHUNK (nfts s)))) = Returns collected ∧
    reduce ([], []) merge_collected shape collected = Some all ∧
    all.1 ≡ₚ contract_votes s ∧ all.2 ≡ₚ solana_votes s.
Proof.
  assert (Hchunks : mjoin (chunks ATOMIZE_CHUNK (nfts s)) = nfts s) by (apply chunks_concat; unfold ATOMIZE_CHUNK; lia).
  destruct (reduce_collected shape (map (λ c, (c ≫= contract_vote s, c ≫= solana_vote s)) (chunks ATOMIZE_CHUNK (nfts s))))
    as (all & E & H1 & H2).
  exists (map (λ c, (c ≫= contract_vote s, c ≫= solana_vote s)) (chunks ATOMIZE_CHUNK (nfts s))), all.
  split; [|split; [done|]].
  - rewrite (collect_map_Returns _ (λ c, (c.2 ≫= contract_vote s, c.2 ≫= solana_vote s))).
    + by rewrite <- (map_map snd (λ c : list Nft, (c ≫= contract_vote s, c ≫= solana_vote s))), imap_pair_snd.
    + intros c Hc. unfold collect_chunk, check. cbn. rewrite collect_nfts_spec; [done|].
      intros n Hn. rewrite <- Hchunks. apply list_elem_of_join. exists c.2. split; [done|].
      rewrite <- (imap_pair_snd (chunks ATOMIZE_CHUNK (nfts s))). by apply (list_elem_of_fmap_2 snd).
  - assert (Hjoin : ∀ X (f : Nft → list X), mjoin (map (λ c, c ≫= f) (chunks ATOMIZE_CHUNK (nfts s))) = nfts s ≫= f).
    { intros X f. rewrite <- Hchunks at 2. clear. induction (chunks ATOMIZE_CHUNK (nfts s)) as [|c cs IH]; [done|].
      rewrite map_cons, !mjoin_cons, bind_app. by f_equal. }
    unfold contract_votes, solana_votes. rewrite <- (Hjoin _ (contract_vote s)), <- (Hjoin _ (solana_vote s)).
    rewrite <- !list_fmap_compose in H1, H2. done.
Qed.
End Collecting.

(** ** The most common name *)

Lemma pair_compare_le (x y : Z * Z) : pair_compare x y ≠ Gt ↔ (x.1 < y.1 ∨ x.1 = y.1 ∧ x.2 ≤ y.2)%Z.
Proof. unfold pair_compare. destruct (Z.compare_spec x.1 y.1), (Z.compare_spec x.2 y.2); split; (lia || done). Qed.

Lemma assignment_run_split contract name l :
  assignment_run contract name l ≤ length l ∧
  take (assignment_run contract name l) l = replicate (assignment_run contract name l) (contract, name) ∧
  ∀ p, head (drop (assignment_run contract name l) l) = Some p → p ≠ (contract, name).
Proof.
  induction l as [|p l (Hl & Hf & Hh)]; simpl; [split_and!; done|].
  case_decide as Heq; simpl; [|split_and!; [lia|done|by intros ? [= <-]]]. subst p. split_and!; [lia|by rewrite Hf|done].
Qed.

Definition occurrences (name : Z) (names : list Z) : nat := length (filter (λ x, x = name) names).

Lemma occurrences_app name l1 l2 : occurrences name (l1 ++ l2) = occurrences name l1 + occurrences name l2.
Proof. unfold occurrences. by rewrite filter_app, length_app. Qed.

Lemma occurrences_replicate name n x : occurrences name (replicate n x) = if decide (x = name) then n else 0.
Proof.
  unfold occurrences. induction n as [|n IH]; simpl; [by case_decide|].
  rewrite filter_cons. case_decide; simpl; rewrite IH; repeat case_decide; done.
Qed.

Lemma occurrences_absent name l : name ∉ l → occurrences name l = 0.
Proof. intros Hn. unfold occurrences. rewrite filter_none; [done|]. by intros x Hx ->. Qed.

Section Best.
Context (s : EntityStore).

Definition text_of (name : Z) : str := default [] (strings s !! Z.to_nat name).

(** More common, or as common and not greater. *)
Definition preferred (names : list Z) (a b : Z) : Prop :=
  occurrences b names < occurrences a names ∨
  occurrences b names = occurrences a names ∧ str_compare (text_of a) (text_of b) ≠ Gt.

Definition is_best (names : list Z) (name : Z) : Prop := name ∈ names ∧ ∀ other, other ∈ names → preferred names name other.

(** What the selection knows of the names it has passed. *)
Definition best_so_far (names : list Z) (st : Selection) : Prop :=
  (names = [] ∧ selected_count st = 0%Z) ∨
  (is_best names (selected_name st) ∧ selected_count st = Z.of_nat (occurrences (selected_name st) names)).

Lemma better_name_spec name count st :
  Z.to_nat name < length (strings s) → Z.to_nat (selected_name st) < length (strings s) →
  better_name s name count st = Returns
    ((selected_count st <? count)%Z ||
     ((count =? selected_count st)%Z && str_ltb (text_of name) (text_of (selected_name st)))).
Proof.
  intros [t Ht]%lookup_lt_is_Some_2 [t' Ht']%lookup_lt_is_Some_2.
  unfold better_name, text_of, string_of. rewrite Ht, Ht'. cbn. destruct (selected_count st <? count)%Z; [done|]. cbn.
  by destruct (count =? selected_count st)%Z.
Qed.

Lemma str_ltb_false a b : str_ltb a b = false ↔ str_compare b a ≠ Gt.
Proof. unfold str_ltb. rewrite (compare_antisym str_compare b a). by destruct (str_compare a b). Qed.

(** One more run of a name not seen before. *)
Lemma best_step names st name run better rest fl :
  best_so_far names st → 0 < run → name ∉ names →
  better = (selected_count st <? Z.of_nat run)%Z ||
     ((Z.of_nat run =? selected_count st)%Z && str_ltb (text_of name) (text_of (selected_name st))) →
  best_so_far (names ++ replicate run name)
    {| selected_name := if better : bool then name else selected_name st;
       selected_count := if better then Z.of_nat run else selected_count st; selection_rest := rest; flushed := fl |}.
Proof.
  intros Hbest Hrun Hnew Hbetter. right.
  assert (Hocc : ∀ x, x ∈ names → occurrences x (names ++ replicate run name) = occurrences x names).
  { intros x Hx. rewrite occurrences_app, occurrences_replicate, decide_False; [lia|]. by intros ->. }
  assert (Hself : occurrences name (names ++ replicate run name) = run).
  { rewrite occurrences_app, occurrences_replicate, decide_True, occurrences_absent by done. lia. }
  assert (Hmem : ∀ x, x ∈ names ++ replicate run name → x ∈ names ∨ x = name).
  { intros x [?|[-> _]%elem_of_replicate]%elem_of_app; auto. }
  assert (Hname : name ∈ names ++ replicate run name) by (apply elem_of_app; right; apply elem_of_replicate; split; [done|lia]).
  destruct Hbest as [[-> Hc]|[[Hsel Hpref] Hc]].
  - rewrite Hc in Hbetter. replace (0 <? Z.of_nat run)%Z with true in Hbetter by (symmetry; apply Z.ltb_lt; lia). subst better. cbn [orb selected_name selected_count].
    split; [|by rewrite Hself]. split; [done|]. intros x [Hx| ->]%Hmem; [by apply elem_of_nil in Hx|].
    right. split; [done|]. by rewrite (compare_refl str_compare).
  - rewrite Hc in Hbetter. set (cur := selected_name st) in *. destruct better; symmetry in Hbetter; cbn [selected_name selected_count]; fold cur.
    + split; [|by rewrite Hself]. split; [done|]. intros x [Hx| ->]%Hmem;
        [|right; split; [done|]; by rewrite (compare_refl str_compare)].
      unfold preferred. rewrite Hself, Hocc by done. apply orb_true_iff in Hbetter as [Hlt%Z.ltb_lt|[Heq%Z.eqb_eq Hlt]%andb_true_iff].
      * left. destruct (Hpref x Hx) as [?|[? _]]; lia.
      * destruct (Hpref x Hx) as [?|[? Hle]]; [left; lia|]. right. split; [lia|].
        eapply (compare_trans str_compare); [|exact Hle]. unfold str_ltb in Hlt. by destruct (str_compare (text_of name) (text_of cur)).
    + split; [|by rewrite Hocc]. split; [set_solver|]. apply orb_false_iff in Hbetter as [Hge%Z.ltb_ge Hand].
      intros x [Hx| ->]%Hmem; unfold preferred.
      * rewrite !Hocc by done. by apply Hpref.
      * rewrite Hself, Hocc by done. destruct (decide (run = occurrences cur names)) as [->|]; [|left; lia].
        right. split; [done|]. rewrite Z.eqb_refl in Hand. by apply str_ltb_false.
Qed.

#[local] Existing Instance never_cancelled.

Definition assignment_ok (p : Z * Z) : Prop := (0 ≤ p.1)%Z ∧ (0 ≤ p.2)%Z ∧ Z.to_nat p.2 < length (strings s).

Abbreviation sorted_pairs := (StronglySorted (λ x y : Z * Z, pair_compare x y ≠ Gt)).

(** Behind a run of a sorted list, the pairs are greater. *)
Lemma after_assignment_run contract name l :
  sorted_pairs l → Forall (λ p, pair_compare (contract, name) p ≠ Gt) l →
  Forall (λ p, pair_compare (contract, name) p = Lt) (drop (assignment_run contract name l) l).
Proof.
  intros Hs Hge. destruct (assignment_run_split contract name l) as (_ & _ & Hhead).
  apply (StronglySorted_drop _ (assignment_run contract name l)) in Hs. apply (Forall_drop _ (assignment_run contract name l)) in Hge.
  destruct Hs as [|p l' Hs Hp]; [constructor|]. specialize (Hhead p eq_refl).
  apply Forall_cons in Hge as [Hge _]. rewrite pair_compare_le in Hge. cbn [fst snd] in Hge.
  assert (Hlt : pair_compare (contract, name) p = Lt).
  { apply pair_compare_pairs. cbn [fst snd]. destruct p as [c n]. cbn [fst snd] in *. destruct Hge as [?|[-> ?]]; [by left|].
    right. split; [done|]. assert (name ≠ n); [by intros ->|lia]. }
  constructor; [done|]. eapply Forall_impl; [exact Hp|]. intros q Hq. rewrite pair_compare_le in Hq.
  rewrite pair_compare_pairs in *. lia.
Qed.

(** The names still to come of the contract are none of those passed. *)
Definition passed (contract : Z) (names : list Z) (rest : list (Z * Z)) : Prop :=
  Forall (λ p, contract ≤ p.1 ∧ (p.1 = contract → p.2 ∉ names))%Z rest.

Lemma select_name_spec fuel contract names st :
  length (selection_rest st) ≤ fuel → Forall assignment_ok (selection_rest st) → sorted_pairs (selection_rest st) →
  passed contract names (selection_rest st) → best_so_far names st → Z.to_nat (selected_name st) < length (strings s) →
  ∃ st' k, select_name s fuel contract st = Returns st' ∧ selection_rest st' = drop k (selection_rest st) ∧
    k ≤ length (selection_rest st) ∧
    Forall (λ p, p.1 = contract) (take k (selection_rest st)) ∧ Forall (λ p, contract < p.1)%Z (drop k (selection_rest st)) ∧
    best_so_far (names ++ (snd <$> take k (selection_rest st))) st'.
Proof.
  revert names st. induction fuel as [|fuel IH]; intros names st Hfuel Hok Hs Hpassed Hbest Hsel;
    (destruct (selection_rest st) as [|p rest] eqn:Erest; [exists st, 0; cbn; rewrite Erest, app_nil_r; by split_and!|]);
    [cbn in Hfuel; lia|].
  cbn [select_name]. rewrite Erest. pose proof Hok as [[_ [Hp2 Hp]] _]%Forall_cons. pose proof Hpassed as [[Hge Hnew] Hpassed']%Forall_cons.
  case_decide as Hne.
  { exists st, 0. cbn [take drop]. split; [done|]. split; [by rewrite Erest|]. split; [lia|]. split; [constructor|].
    split; [|by rewrite app_nil_r]. constructor; [lia|]. apply StronglySorted_cons in Hs as [Hs _].
    eapply Forall_impl; [exact Hs|]. intros q Hq. rewrite pair_compare_le in Hq. lia. }
  destruct p as [c n]. cbn [fst snd] in *. subst c. specialize (Hnew eq_refl). rewrite <- Erest in *.
  destruct (assignment_run_split contract n (selection_rest st)) as (Hrl & Hrun & Hhead).
  assert (Hafter : Forall (λ p, pair_compare (contract, n) p = Lt) (drop (assignment_run contract n (selection_rest st)) (selection_rest st))).
  { apply after_assignment_run; [done|]. rewrite Erest in Hs |- *. apply StronglySorted_cons in Hs as [Hs _].
    constructor; [|done]. apply pair_compare_le. cbn. lia. }
  assert (Hpos : 0 < assignment_run contract n (selection_rest st)) by (rewrite Erest; cbn; rewrite decide_True by done; lia).
  set (run := assignment_run contract n (selection_rest st)) in *.
  rewrite better_name_spec by done. cbn [mbind outcome_bind].
  destruct (flush_progress_quiet AtomizeSelect ((flushed st).1 + Z.of_nat run, (flushed st).2)%Z) as [fl ->]. cbn [mbind outcome_bind].
  set (better := (_ || _)). set (st1 := {| selected_name := _; selected_count := _; selection_rest := _; flushed := fl |}).
  assert (Hbest1 : best_so_far (names ++ replicate run n) st1) by by apply best_step.
  destruct (IH (names ++ replicate run n) st1) as (st' & k & E & Hrest & Hk & Hseg & Htail & Hbest'); cbn [selection_rest st1] in *.
  - rewrite length_drop. lia.
  - by apply Forall_drop.
  - by apply StronglySorted_drop.
  - apply Forall_forall. intros q Hq. pose proof (proj1 (Forall_forall _ _) Hafter q Hq) as Hlt. rewrite pair_compare_pairs in Hlt. cbn in Hlt.
    assert (Hq' : q ∈ selection_rest st) by (rewrite <- (take_drop run); apply elem_of_app; by right).
    destruct (proj1 (Forall_forall _ _) Hpassed q Hq') as [Hqge Hqnew]. split; [done|]. intros Heq. specialize (Hqnew Heq).
    intros [?|[Hq2 _]%elem_of_replicate]%elem_of_app; [done|lia].
  - done.
  - cbn [selected_name st1]. by destruct better.
  - exists st', (run + k). split; [exact E|]. rewrite <- drop_drop. split; [done|]. rewrite length_drop in Hk. split; [lia|].
    assert (Htake : take (run + k) (selection_rest st) = replicate run (contract, n) ++ take k (drop run (selection_rest st))).
    { rewrite <- Hrun, <- (take_drop run (selection_rest st)) at 1. rewrite take_app_add' by (rewrite length_take; lia). done. }
    rewrite Htake. split; [|split; [done|]].
    + apply Forall_app. split; [|done]. by apply Forall_replicate.
    + rewrite fmap_app, fmap_replicate, app_assoc. exact Hbest'.
Qed.

Definition votes_of (l : list (Z * Z)) (contract : Z) : list Z := snd <$> filter (λ p, p.1 = contract) l.

Lemma votes_of_app l1 l2 contract : votes_of (l1 ++ l2) contract = votes_of l1 contract ++ votes_of l2 contract.
Proof. unfold votes_of. by rewrite filter_app, fmap_app. Qed.

Lemma votes_of_all l contract : Forall (λ p, p.1 = contract) l → votes_of l contract = snd <$> l.
Proof. intros Hl. unfold votes_of. rewrite filter_all; [done|]. by apply Forall_forall. Qed.

Lemma votes_of_none l contract : Forall (λ p, p.1 ≠ contract) l → votes_of l contract = [].
Proof. intros Hl. unfold votes_of. rewrite filter_none; [done|]. by apply Forall_forall. Qed.

(** One best name for every contract with votes. *)
Definition elected (l : list (Z * Z)) (reps : list (ContractId * StringId)) : Prop :=
  NoDup reps.*1 ∧ length reps ≤ length l ∧
  Forall (λ r : ContractId * StringId, is_best (votes_of l (Z.of_nat r.1)) (Z.of_nat r.2)) reps ∧
  ∀ c, (∃ name, (Z.of_nat c, name) ∈ l) → c ∈ reps.*1.

Lemma votes_of_elem l contract name : name ∈ votes_of l contract ↔ (contract, name) ∈ l.
Proof.
  unfold votes_of. rewrite list_elem_of_fmap. split.
  - intros ([c n] & -> & [Hc ?]%list_elem_of_filter). cbn in Hc. by subst c.
  - intros Hin. exists (contract, name). split; [done|]. by apply list_elem_of_filter.
Qed.

Lemma select_representatives_spec fuel l fl :
  length l ≤ fuel → Forall assignment_ok l → sorted_pairs l →
  ∃ reps, select_representatives s fuel l fl = Returns reps ∧ elected l reps.
Proof.
  revert l fl. induction fuel as [|fuel IH]; intros [|p l] fl Hfuel Hok Hs; cbn in Hfuel; [|lia| |];
    try (exists []; split; [done|]; split_and!; [constructor|done|constructor|by intros c (n & ?%elem_of_nil)]).
  cbn [select_representatives]. set (all := p :: l) in *.
  assert (Hp : p ∈ all) by by left. pose proof (proj1 (Forall_forall _ _) Hok p Hp) as (Hp1 & Hp2 & Hps).
  destruct (select_name_spec (length all) p.1 [] {| selected_name := p.2; selected_count := 0; selection_rest := all; flushed := fl |})
    as (st & k & E & Hrest & Hk & Hseg & Htail & Hbest); cbn [selection_rest selected_name] in *; [done..| |by left|done|].
  { apply Forall_forall. intros q Hq. split; [|by intros _ ?%elem_of_nil]. apply elem_of_cons in Hq as [->|Hq]; [done|].
    apply StronglySorted_cons in Hs as [Hge _]. pose proof (proj1 (Forall_forall _ _) Hge q Hq) as Hle. rewrite pair_compare_le in Hle. lia. }
  rewrite E. cbn [mbind outcome_bind]. rewrite Hrest.
  destruct k as [|k]. { apply Forall_cons in Htail as [Hlt _]. lia. }
  destruct (IH (drop (S k) all) (flushed st)) as (reps & -> & Hnd & Hlen & Hreps & Hcover).
  { rewrite length_drop. cbn in *. lia. } { by apply Forall_drop. } { by apply StronglySorted_drop. }
  cbn [mbind outcome_bind]. eexists. split; [done|].
  assert (Hvotes : ∀ c, votes_of all c = votes_of (take (S k) all) c ++ votes_of (drop (S k) all) c)
    by (intros c; by rewrite <- votes_of_app, take_drop).
  assert (Hlater : ∀ r, r ∈ reps → (p.1 < Z.of_nat r.1)%Z).
  { intros r Hr. destruct (proj1 (Forall_forall _ _) Hreps r Hr) as [Hin _]. apply votes_of_elem in Hin.
    apply (proj1 (Forall_forall _ _) Htail) in Hin. exact Hin. }
  assert (Hmine : votes_of all p.1 = snd <$> take (S k) all).
  { rewrite Hvotes, (votes_of_all (take (S k) all)) by done. rewrite (votes_of_none (drop (S k) all)); [apply app_nil_r|].
    eapply Forall_impl; [exact Htail|]. cbn. lia. }
  assert (Hwon : is_best (votes_of all p.1) (selected_name st)).
  { rewrite Hmine. destruct Hbest as [[Hnil _]|[Hbest _]]; [done|exact Hbest]. }
  assert (Hsel : (0 ≤ selected_name st)%Z).
  { destruct Hwon as [Hin%votes_of_elem _]. apply (proj1 (Forall_forall _ _) Hok) in Hin. apply Hin. }
  split_and!.
  - rewrite fmap_cons. apply NoDup_cons. split; [|done]. intros (r & Hr & Hin)%list_elem_of_fmap. apply Hlater in Hin. cbn in Hr. lia.
  - rewrite length_drop in Hlen. cbn in Hlen |- *. lia.
  - constructor.
    + cbn [fst snd]. by rewrite !Z2Nat.id.
    + apply Forall_forall. intros r Hr. pose proof (proj1 (Forall_forall _ _) Hreps r Hr) as Hr'. pose proof (Hlater r Hr).
      rewrite Hvotes, (votes_of_none (take (S k) all)); [exact Hr'|]. eapply Forall_impl; [exact Hseg|]. cbn. lia.
  - intros c [name Hin]. rewrite fmap_cons, elem_of_cons. rewrite <- (take_drop (S k) all) in Hin.
    apply elem_of_app in Hin as [Hin|Hin]; [left|right; by apply Hcover; exists name].
    apply (proj1 (Forall_forall _ _) Hseg) in Hin. cbn in Hin |- *. lia.
Qed.
End Best.

(** ** Grouping by name and chain *)

Section Groups.
Context (s : EntityStore) (lm : list LogicalMember).
#[local] Existing Instance never_cancelled.

(** The members that atoms and names stand for. *)
Definition flat_atoms (name : StringId) (ats : list NameAtom) : list LogicalMember :=
  ats ≫= λ a, map (λ m, (name, atom_chain_id a, m)) (members a).
Definition flat_name (n : CanonicalName) : list LogicalMember := flat_atoms (canonical_name_id n) (atoms n).

Definition triple_ok (t : Z * Z * Z) : Prop :=
  ∃ m, lm !! Z.to_nat t.2 = Some m ∧ t.1 = (Z.of_nat m.1.1, Z.of_nat m.1.2) ∧
    m.1.1 < length (strings s) ∧ (Z.of_nat m.1.2 < 2 ^ 16)%Z.

Definition look_up (l : list (Z * Z * Z)) : option (list LogicalMember) :=
  mapM (M := option) (λ t : Z * Z * Z, lm !! Z.to_nat t.2) l.

Lemma look_up_app l1 l2 m1 m2 : look_up l1 = Some m1 → look_up l2 = Some m2 → look_up (l1 ++ l2) = Some (m1 ++ m2).
Proof. unfold look_up. rewrite !mapM_Some. by apply Forall2_app. Qed.

Lemma triple_run_split name chain l :
  triple_run name chain l ≤ length l ∧
  Forall (λ t, t.1 = (name, chain)) (take (triple_run name chain l) l) ∧
  ∀ t, head (drop (triple_run name chain l) l) = Some t → t.1 ≠ (name, chain).
Proof.
  induction l as [|t l (Hl & Hf & Hh)]; simpl; [split_and!; [done|constructor|done]|].
  case_decide as Heq; simpl; [split_and!; [lia|by constructor|done]|].
  split_and!; [lia|constructor|by intros ? [= <-]].
Qed.

Lemma look_up_length l ms : look_up l = Some ms → length ms = length l.
Proof. intros E%mapM_Some%Forall2_length. done. Qed.

(** The entries of one run are the members of one atom. *)
Lemma run_members name chain l :
  Forall triple_ok l → Forall (λ t, t.1 = (Z.of_nat name, Z.of_nat chain)) l →
  ∃ ms, mapM (M := option) (λ e : Z * Z * Z, m ← lm !! Z.to_nat e.2; Some m.2) l = Some ms ∧
    look_up l = Some (map (λ m, (name, chain, m)) ms).
Proof.
  induction l as [|t l IH]; intros Hok Hl; [by exists []|].
  apply Forall_cons in Hok as [(m & Hm & Ht & _) Hok], Hl as [Ht' Hl]. destruct (IH Hok Hl) as (ms & E1 & E2).
  assert (Hm2 : m = (name, chain, m.2)).
  { rewrite Ht in Ht'. destruct m as [[a b] m]. cbn in Ht' |- *. injection Ht' as Ha Hb.
    assert (a = name) as -> by lia. by assert (b = chain) as -> by lia. }
  exists (m.2 :: ms). split.
  - cbn [mapM]. rewrite Hm. cbn [mbind option_bind]. by rewrite E1.
  - apply mapM_Some. rewrite map_cons, <- Hm2. constructor; [exact Hm|]. by apply mapM_Some in E2.
Qed.

Abbreviation sorted_triples := (StronglySorted (λ x y : Z * Z * Z, triple_compare x y ≠ Gt)).

Lemma after_triple_run t l :
  sorted_triples (t :: l) →
  Forall (λ u, pair_compare t.1 u.1 = Lt) (drop (triple_run t.1.1 t.1.2 (t :: l)) (t :: l)).
Proof.
  intros Hs. destruct (triple_run_split t.1.1 t.1.2 (t :: l)) as (_ & _ & Hhead).
  apply after_run; [by apply StronglySorted_drop| |destruct t as [[a b] c]; exact Hhead].
  apply Forall_drop. apply StronglySorted_cons in Hs as [Hs _]. constructor; [by left|].
  eapply Forall_impl; [exact Hs|]. intros u Hu. apply triple_le_key in Hu as [Hu|Hu]; [by left|by right].
Qed.

Definition atom_shape (name : StringId) (l : list (Z * Z * Z)) (a : NameAtom) : Prop :=
  members a ≠ [] ∧ ∃ t, t ∈ l ∧ t.1 = (Z.of_nat name, Z.of_nat (atom_chain_id a)).

Lemma group_atoms_spec fuel name rest g :
  length rest ≤ fuel → Forall triple_ok rest → sorted_triples rest → Forall (λ t, Z.of_nat name ≤ t.1.1)%Z rest →
  ∃ ats g' k, group_atoms fuel lm (Z.of_nat name) rest g = Returns (ats, drop k rest, g') ∧ k ≤ length rest ∧
    (∀ t, head rest = Some t → t.1.1 = Z.of_nat name → 0 < k) ∧
    Forall (λ t, Z.of_nat name < t.1.1)%Z (drop k rest) ∧ look_up (take k rest) = Some (flat_atoms name ats) ∧
    Forall (atom_shape name (take k rest)) ats ∧ StronglySorted lt (atom_chain_id <$> ats).
Proof.
  revert rest g. induction fuel as [|fuel IH]; intros [|t l] g Hfuel Hok Hs Hge; cbn in Hfuel; [|lia| |];
    try (exists [], g, 0; split; [done|]; split_and!; [done|done|constructor|done|constructor|constructor]).
  cbn [group_atoms]. set (rest := t :: l) in *. pose proof Hok as [(m & Hm & Ht & Hname & Hchain) _]%Forall_cons.
  case_decide as Hne.
  { exists [], g, 0. split; [done|]. split_and!; [lia|by intros ? [= <-] ?| |done|constructor|constructor].
    apply Forall_cons in Hge as [Hge _]. cbn [drop]. constructor; [lia|]. apply StronglySorted_cons in Hs as [Hs _].
    eapply Forall_impl; [exact Hs|]. intros u [Hu|Hu]%triple_le_key; [rewrite <- Hu; lia|]. rewrite pair_compare_pairs in Hu. lia. }
  assert (Hn : name = m.1.1) by (rewrite Ht in Hne; cbn in Hne; lia). subst name. clear Hne.
  assert (Hzchain : Z.to_nat t.1.2 = m.1.2) by (rewrite Ht; cbn; lia). rewrite Hzchain.
  assert (fits_u16 m.1.2 = true) as -> by (apply Z.ltb_lt; lia). cbn [negb].
  pose proof (after_triple_run t l Hs) as Hafter. fold rest in Hafter.
  destruct (triple_run_split t.1.1 t.1.2 rest) as (Hrl & Hrun & _).
  assert (Hpos : 0 < triple_run t.1.1 t.1.2 rest).
  { subst rest. cbn [triple_run]. rewrite decide_True by (by destruct t as [[] ]). lia. }
  rewrite Ht in Hafter, Hrl, Hrun, Hpos. rewrite Ht. cbn [fst snd] in *.
  set (run := triple_run (Z.of_nat m.1.1) (Z.of_nat m.1.2) rest) in *.
  destruct (run_members m.1.1 m.1.2 (take run rest)) as (ms & -> & Hlook); [by apply Forall_take|done|].
  cbn [or_panic mbind outcome_bind].
  destruct (flush_progress_quiet AtomizeGroup (g.1 + Z.of_nat run, g.2)%Z) as [g1 ->]. cbn [mbind outcome_bind].
  destruct (IH (drop run rest) g1) as (ats & g' & k & -> & Hk & _ & Hlt & Hlook' & Hshape & Hsorted).
  { rewrite length_drop. cbn in *. lia. } { by apply Forall_drop. } { by apply StronglySorted_drop. } { by apply Forall_drop. }
  cbn [mbind outcome_bind]. rewrite length_drop in Hk.
  assert (Htake : take (run + k) rest = take run rest ++ take k (drop run rest)).
  { rewrite <- (take_drop run rest) at 1. rewrite take_app_add' by (rewrite length_take; lia). done. }
  eexists _, g', (run + k). rewrite drop_drop in Hlt |- *. split; [done|]. split; [lia|]. split; [lia|]. split; [done|].
  rewrite Htake. split; [by apply look_up_app|]. split.
  - constructor.
    + split; [cbn; intros ->; cbn in Hlook; apply look_up_length in Hlook; rewrite length_take in Hlook; cbn in *; lia|].
      exists t. split; [|done]. apply elem_of_app. left. subst rest. destruct run; [lia|by left].
    + eapply Forall_impl; [exact Hshape|]. intros a (Ha & u & Hu & Hu'). split; [done|]. exists u. split; [set_solver|done].
  - rewrite fmap_cons. constructor; [done|]. apply Forall_fmap. eapply Forall_impl; [exact Hshape|].
    intros a (_ & u & Hu & Hu'). cbn. apply (subseteq_take k) in Hu.
    apply (proj1 (Forall_forall _ _) Hafter) in Hu. rewrite Hu', pair_compare_pairs in Hu. cbn in Hu. lia.
Qed.

(** A name with its atoms, one per chain. *)
Definition name_shape (n : CanonicalName) : Prop :=
  strings s !! canonical_name_id n = Some (characters n) ∧ atoms n ≠ [] ∧ Forall (λ a, members a ≠ []) (atoms n) ∧
  StronglySorted lt (atom_chain_id <$> atoms n).

Lemma group_names_spec fuel rest g :
  length rest ≤ fuel → Forall triple_ok rest → sorted_triples rest →
  ∃ names, group_names s fuel lm rest g = Returns names ∧ look_up rest = Some (names ≫= flat_name) ∧
    Forall name_shape names ∧ Forall (λ n, ∃ t, t ∈ rest ∧ t.1.1 = Z.of_nat (canonical_name_id n)) names ∧
    StronglySorted lt (canonical_name_id <$> names).
Proof.
  revert rest g. induction fuel as [|fuel IH]; intros [|t l] g Hfuel Hok Hs; cbn in Hfuel; [|lia| |];
    try (exists []; split; [done|]; split_and!; [done|constructor..]).
  cbn [group_names]. set (rest := t :: l) in *. pose proof Hok as [(m & Hm & Ht & Hname & Hchain) _]%Forall_cons.
  destruct (group_atoms_spec (length rest) m.1.1 rest g) as (ats & g' & k & E & Hk & Hpos & Hlt & Hlook & Hshape & Hsorted); [done..| |].
  { assert (Hz : Z.of_nat m.1.1 = t.1.1) by by rewrite Ht. rewrite Hz. constructor; [lia|]. apply StronglySorted_cons in Hs as [Hs _].
    eapply Forall_impl; [exact Hs|]. intros u [Hu|Hu]%triple_le_key; [by rewrite Hu|]. rewrite pair_compare_pairs in Hu. lia. }
  specialize (Hpos t eq_refl ltac:(by rewrite Ht)). rewrite Ht. cbn [fst snd]. rewrite E. cbn [mbind outcome_bind].
  destruct (lookup_lt_is_Some_2 _ _ Hname) as [text Htext]. rewrite Nat2Z.id. unfold string_of. rewrite Htext.
  cbn [or_panic mbind outcome_bind].
  destruct (IH (drop k rest) g') as (names & -> & Hlook' & Hnames & Hids & Hidsorted).
  { rewrite length_drop. cbn in *. lia. } { by apply Forall_drop. } { by apply StronglySorted_drop. }
  cbn [mbind outcome_bind]. eexists. split; [done|].
  split. { rewrite bind_cons, <- (take_drop k rest). by apply look_up_app. }
  split; [|split].
  - constructor; [|done]. split_and!; cbn; [done| | |done].
    + intros ->. cbn in Hlook. apply look_up_length in Hlook. rewrite length_take in Hlook. cbn in *. lia.
    + eapply Forall_impl; [exact Hshape|]. by intros a [? _].
  - constructor; [exists t; split; [by left|by rewrite Ht]|]. eapply Forall_impl; [exact Hids|]. intros n (u & Hu & Hu').
    exists u. split; [by eapply subseteq_drop|done].
  - rewrite fmap_cons. constructor; [done|]. apply Forall_fmap. eapply Forall_impl; [exact Hids|]. intros n (u & Hu & Hu').
    apply (proj1 (Forall_forall _ _) Hlt) in Hu. cbn in *. lia.
Qed.
End Groups.

(** ** Materialization *)

Lemma chunks_imap {A B} (f : nat → A → B) n (l : list A) :
  0 < n → mjoin (map (λ c, imap (λ i x, f (c.1 * n + i) x) c.2) (imap pair (chunks n l))) = imap f l.
Proof.
  intros Hn. unfold chunks.
  assert (Hgen : ∀ fuel (l : list A) k, length l ≤ fuel →
    mjoin (map (λ c, imap (λ i x, f (c.1 * n + i) x) c.2) (imap (λ i c, (k + i, c)) (chunks_fuel fuel n l))) =
    imap (λ i x, f (k * n + i) x) l).
  { clear l. intros fuel. induction fuel as [|fuel IH]; intros [|x l] k Hl; [done|cbn in Hl; lia|done|].
    set (r := imap (λ i y, f (k * n + i) y) (x :: l)). cbn [chunks_fuel imap]. rewrite map_cons, mjoin_cons. cbn [fst snd]. rewrite Nat.add_0_r.
    assert (Himap : imap ((λ i c, (k + i, c)) ∘ S) (chunks_fuel fuel n (drop n (x :: l))) =
      imap (λ i c, (S k + i, c)) (chunks_fuel fuel n (drop n (x :: l)))).
    { apply imap_ext. intros i c _. simpl. f_equal. lia. }
    rewrite Himap, IH by (rewrite length_drop; cbn in *; lia).
    subst r. rewrite <- (take_drop n (x :: l)) at 3. rewrite imap_app. f_equal.
    destruct (decide (n ≤ length (x :: l))) as [Hle|Hgt].
    - apply imap_ext. intros i y _. cbn. rewrite length_take. f_equal. lia.
    - by rewrite drop_ge by lia. }
  apply (Hgen (length l) l 0). done.
Qed.

Section Materialize.
Context (lm : list LogicalMember) (Hlm : (Z.of_nat (length lm) ≤ 2 ^ 32)%Z).
#[local] Existing Instance never_cancelled.

Definition triple_at (i : nat) (m : LogicalMember) : Z * Z * Z := (Z.of_nat m.1.1, Z.of_nat m.1.2, Z.of_nat i).

Lemma materialized :
  ∃ chunks_, collect (map materialize_chunk (imap pair (chunks ATOMIZE_CHUNK lm))) = Returns chunks_ ∧
    mjoin chunks_ = imap triple_at lm.
Proof.
  exists (map (λ c, imap (λ i m, triple_at (c.1 * ATOMIZE_CHUNK + i) m) c.2) (imap pair (chunks ATOMIZE_CHUNK lm))).
  split; [|by apply chunks_imap; unfold ATOMIZE_CHUNK; lia].
  apply collect_map_Returns. intros c Hc. unfold materialize_chunk, check. cbn [check_cancelled_at never_cancelled mbind outcome_bind].
  rewrite <- sequence_Returns, fmap_imap. f_equal. apply imap_ext. intros i m Hi. cbn. unfold member_triple.
  assert (Hin : c.1 * ATOMIZE_CHUNK + i ∈ seq 0 (length lm)).
  { rewrite <- (chunks_positions ATOMIZE_CHUNK lm) by (unfold ATOMIZE_CHUNK; lia). apply list_elem_of_join.
    exists (seq (c.1 * ATOMIZE_CHUNK) (length c.2)). split; [apply elem_of_seq; apply lookup_lt_Some in Hi; lia|].
    by apply (list_elem_of_fmap_2 (λ c : nat * list LogicalMember, seq (c.1 * ATOMIZE_CHUNK) (length c.2))). }
  apply elem_of_seq in Hin. assert (fits_u32 (c.1 * ATOMIZE_CHUNK + i) = true) as ->; [|done]. apply Z.ltb_lt. lia.
Qed.

Lemma look_up_permutation sorted_ flat :
  sorted_ ≡ₚ imap triple_at lm → look_up lm sorted_ = Some flat → flat ≡ₚ lm.
Proof.
  intros Hp Hflat. assert (Hall : ∀ l ms, look_up lm l = Some ms → ms = omap (λ t : Z * Z * Z, lm !! Z.to_nat t.2) l).
  { intros l ms Hms%mapM_Some. induction Hms as [|t m l ms Hm _ IH]; [done|]. cbn. rewrite Hm. by f_equal. }
  rewrite (Hall _ _ Hflat), Hp.
  assert (Hgen : ∀ l k, (∀ i m, l !! i = Some m → lm !! (k + i) = Some m) →
    omap (λ t : Z * Z * Z, lm !! Z.to_nat t.2) (imap (λ i, triple_at (k + i)) l) = l).
  { clear. induction l as [|m l IH]; intros k Hl; [done|]. cbn [imap omap list_omap]. unfold triple_at at 1. cbn [snd]. rewrite Nat2Z.id, (Hl 0 m eq_refl).
    f_equal. rewrite <- (IH (S k)) at 2; [|intros i x Hx; rewrite <- (Hl (S i) x Hx); f_equal; lia].
    f_equal. apply imap_ext. intros i x _. cbn. f_equal. lia. }
  change (imap triple_at lm) with (imap (λ i, triple_at (0 + i)) lm). rewrite (Hgen lm 0); [done|]. by intros.
Qed.
End Materialize.
