(* ===== verification/NameLogical.v ===== *)
(** What the names of a store are: the specification of [atomize] in terms of texts,
    and the theorem that it computes them. *)

From S2P Require Import Prelude Radix Text CanonicalJson Types Anchors UriChunks Entity.
From S2P Require Import EntityInvariant EntityView EntityPostings Outcome NameIndex.
From S2P Require Import NameIndexFacts NameScoreFacts NameAtoms NameAtomsFacts.

(** ** Specification *)

Section Spec.
Context (s : EntityStore).

(** The usable names of a contract, one per NFT that has one. *)
Definition contract_names (k : ContractId) : list str :=
  snd <$> omap (usable_name s) (nfts_of_contract (nfts s) k).

Definition times (t : str) (names : list str) : nat := length (filter (λ x, x = t) names).

(** The most common name, the least one of them. *)
Definition most_common (names : list str) (t : str) : Prop :=
  t ∈ names ∧ ∀ u, u ∈ names →
    times u names < times t names ∨ times u names = times t names ∧ str_compare t u ≠ Gt.

(** A name of the store: the text, the chain, and who has it. *)
Inductive logical : str → ChainId → NameMember → Prop :=
| logical_contract k c t :
    contracts s !! k = Some c → is_solana_chain s (contract_chain_id c) = Some false →
    most_common (contract_names k) t →
    logical t (contract_chain_id c) {| member_contract_id := k; member_nft_id := None |}
| logical_nft n c id t :
    n ∈ nfts s → contracts s !! nft_contract_id n = Some c → is_solana_chain s (contract_chain_id c) = Some true →
    usable_name s n = Some (id, t) →
    logical t (contract_chain_id c) {| member_contract_id := nft_contract_id n; member_nft_id := Some (nft_id n) |}.

Definition name_member (n : CanonicalName) (ch : ChainId) (m : NameMember) : Prop :=
  ∃ a, a ∈ atoms n ∧ atom_chain_id a = ch ∧ m ∈ members a.

Record atomized (names : list CanonicalName) : Prop := {
  atomized_ok : names_ok names;
  atomized_sorted : StronglySorted (λ a b, name_compare a b ≠ Gt) names;
  atomized_texts : NoDup (characters <$> names);
  atomized_atoms : Forall (λ n, atoms n ≠ [] ∧ NoDup (atom_chain_id <$> atoms n) ∧ Forall (λ a, members a ≠ []) (atoms n)) names;
  atomized_members : NoDup (names ≫= λ n, atoms n ≫= members);
  atomized_logical : ∀ t ch m, (∃ n, n ∈ names ∧ characters n = t ∧ name_member n ch m) ↔ logical t ch m;
}.
End Spec.

Lemma most_common_unique names t u : most_common names t → most_common names u → t = u.
Proof.
  intros [Ht Ht'] [Hu Hu']. destruct (Ht' u Hu) as [?|[? Hle]], (Hu' t Ht) as [?|[? Hle']]; try lia.
  apply str_compare_eq. rewrite (compare_antisym str_compare) in Hle'. destruct (str_compare t u); naive_solver.
Qed.

(** ** The elected names are the most common ones *)

Lemma filter_Permutation {A} (P : A → Prop) `{!∀ x, Decision (P x)} (l k : list A) : l ≡ₚ k → filter P l ≡ₚ filter P k.
Proof. by intros ->. Qed.

Lemma occurrences_perm name l k : l ≡ₚ k → occurrences name l = occurrences name k.
Proof. intros Hp. unfold occurrences. by apply Permutation_length, filter_Permutation. Qed.

Lemma is_best_perm s l k name : l ≡ₚ k → is_best s l name → is_best s k name.
Proof.
  intros Hp [Hin Hbest]. split; [by rewrite <- Hp|]. intros other Ho. rewrite <- Hp in Ho.
  destruct (Hbest other Ho) as [?|[? ?]]; [left|right]; by rewrite <- !(occurrences_perm _ l k).
Qed.

Lemma occurrences_times s l name :
  (∀ x, x ∈ l → text_of s x = text_of s name → x = name) → occurrences name l = times (text_of s name) (text_of s <$> l).
Proof.
  unfold occurrences, times. induction l as [|x l IH]; intros Hinj; [done|].
  rewrite fmap_cons, !filter_cons. specialize (IH ltac:(set_solver)).
  destruct (decide (x = name)) as [->|Hne]; [rewrite decide_True by done; cbn; by f_equal|].
  rewrite decide_False; [done|]. intros Heq. apply Hne, Hinj; [by left|done].
Qed.

Section Names.
Context (s : EntityStore) (Hok : store_ok s).

Lemma usable_name_Some n id t :
  usable_name s n = Some (id, t) ↔ name_id n = Some id ∧ strings s !! id = Some t ∧ is_usable_contract_name t = true.
Proof.
  unfold usable_name, string_of. split.
  - intros (i & Hi & (u & Hu & Hif)%bind_Some)%bind_Some. destruct (is_usable_contract_name u) eqn:E; by simplify_eq.
  - intros (-> & Ht & Hu). cbn. rewrite Ht. cbn. by rewrite Hu.
Qed.

Lemma usable_nonempty t : is_usable_contract_name t = true → t ≠ [].
Proof. intros Hu ->. done. Qed.

(** The votes of a contract, from the NFTs. *)
Lemma contract_votes_of k c :
  contracts s !! k = Some c →
  votes_of (contract_votes s) (Z.of_nat k) =
    if default false (is_solana_chain s (contract_chain_id c)) then []
    else (λ v, Z.of_nat v.1) <$> omap (usable_name s) (nfts_of_contract (nfts s) k).
Proof.
  intros Hc. unfold contract_votes, nfts_of_contract. induction (nfts s) as [|n ns IH]; [by destruct (default false _)|].
  rewrite bind_cons, votes_of_app, IH, filter_cons. unfold contract_vote.
  case_decide as Hk; cbn [omap list_omap].
  - assert (Hsol : on_solana s n = default false (is_solana_chain s (contract_chain_id c))).
    { unfold on_solana, nft_chain. rewrite Hk, Hc. done. }
    rewrite Hsol. destruct (default false _), (usable_name s n) as [[id t]|]; try done.
    rewrite votes_of_all by (constructor; [cbn; lia|constructor]). rewrite Hk. done.
  - assert (Hnone : ∀ id, votes_of [(Z.of_nat (nft_contract_id n), id)] (Z.of_nat k) = []).
    { intros id. apply votes_of_none. constructor; [cbn; lia|constructor]. }
    destruct (usable_name s n) as [[id t]|]; [|done]. destruct (on_solana s n); [done|]. by rewrite Hnone.
Qed.

Lemma votes_texts k :
  text_of s <$> ((λ v, Z.of_nat v.1) <$> omap (usable_name s) (nfts_of_contract (nfts s) k)) = contract_names s k.
Proof.
  unfold contract_names. induction (nfts_of_contract (nfts s) k) as [|n ns IH]; [done|]. cbn [omap list_omap].
  destruct (usable_name s n) as [[id t]|] eqn:E; [|exact IH]. rewrite !fmap_cons, IH. f_equal.
  apply usable_name_Some in E as (_ & E & _). unfold text_of. cbn. by rewrite Nat2Z.id, E.
Qed.

Lemma contract_votes_chain k id : (Z.of_nat k, id) ∈ contract_votes s → ∃ c, contracts s !! k = Some c ∧ is_solana_chain s (contract_chain_id c) = Some false.
Proof using Hok.
  intros (n & Hn & Hin)%list_elem_of_bind. destruct (nft_lookups s Hok n Hin) as (c & chain & Hc & _ & _ & _ & Hsol & _).
  unfold contract_vote in Hn. destruct (usable_name s n) as [[i t]|]; [|by apply elem_of_nil in Hn].
  destruct (on_solana s n) eqn:E; [by apply elem_of_nil in Hn|]. apply list_elem_of_singleton in Hn. injection Hn as Hk _.
  exists c. rewrite <- Hsol. split; [|done]. rewrite <- Hc. f_equal. lia.
Qed.

Lemma best_most_common k c votes name :
  contracts s !! k = Some c → is_solana_chain s (contract_chain_id c) = Some false →
  votes ≡ₚ votes_of (contract_votes s) (Z.of_nat k) → is_best s votes (Z.of_nat name) →
  strings s !! name = Some (text_of s (Z.of_nat name)) ∧ most_common (contract_names s k) (text_of s (Z.of_nat name)).
Proof using Hok.
  intros Hc Hsol Hp Hbest. apply (is_best_perm _ _ _ _ Hp) in Hbest. rewrite (contract_votes_of k c Hc), Hsol in Hbest. cbn [default] in Hbest.
  rewrite <- votes_texts. set (l := (λ v, Z.of_nat v.1) <$> _) in *.
  assert (Hstr : ∀ x, x ∈ l → ∃ i t, x = Z.of_nat i ∧ strings s !! i = Some t ∧ text_of s x = t).
  { intros x ([i t] & -> & (n & _ & E)%list_elem_of_omap)%list_elem_of_fmap. apply usable_name_Some in E as (_ & E & _).
    exists i, t. split; [done|]. split; [done|]. unfold text_of. cbn. by rewrite Nat2Z.id, E. }
  assert (Hinj : ∀ x y, x ∈ l → y ∈ l → text_of s x = text_of s y → x = y).
  { intros x y (i & t & -> & Hi & Ht)%Hstr (j & u & -> & Hj & Hu)%Hstr Heq. f_equal. assert (t = u) as <- by congruence.
    exact (index_ok_inj (strings s) (string_ids s) i j t (ok_strings s Hok) Hi Hj). }
  destruct Hbest as [Hin Hpref]. split.
  { destruct (Hstr _ Hin) as (i & t & Hi & Hlk & ->). by assert (name = i) as -> by lia. }
  split; [by apply list_elem_of_fmap_2|]. intros u (x & -> & Hx)%list_elem_of_fmap.
  rewrite <- !(occurrences_times s l) by auto. by apply Hpref.
Qed.
End Names.

(** ** The members *)

Lemma elem_of_mapM_option {A B} (f : A → option B) l k x :
  mapM f l = Some k → x ∈ k ↔ ∃ y, y ∈ l ∧ f y = Some x.
Proof.
  intros H%mapM_Some. induction H as [|y z l k Hy _ IH].
  - split; [by intros ?%elem_of_nil|by intros (y & ?%elem_of_nil & _)].
  - rewrite elem_of_cons, IH. setoid_rewrite elem_of_cons. naive_solver.
Qed.

Lemma mapM_project {A B C} (f : A → option B) (g : B → C) (h : A → C) l k :
  (∀ y x, f y = Some x → g x = h y) → mapM f l = Some k → g <$> k = h <$> l.
Proof. intros Hf H%mapM_Some. induction H as [|y x l k Hy _ IH]; [done|]. rewrite !fmap_cons, IH. f_equal. by apply Hf. Qed.

Section Members.
Context (s : EntityStore) (Hok : store_ok s).

Lemma elem_of_solana_votes r :
  r ∈ solana_votes s ↔ ∃ n t, n ∈ nfts s ∧ on_solana s n = true ∧ usable_name s n = Some (r.2, t) ∧ r.1 = (nft_id n, nft_contract_id n).
Proof.
  unfold solana_votes. rewrite list_elem_of_bind. split.
  - intros (n & Hn & Hin). unfold solana_vote in Hn. destruct (usable_name s n) as [[id t]|] eqn:E; [|by apply elem_of_nil in Hn].
    destruct (on_solana s n) eqn:Es; [|by apply elem_of_nil in Hn]. apply list_elem_of_singleton in Hn as ->. by exists n, t.
  - intros (n & t & Hin & Hsol & Hu & Hr). exists n. split; [|done]. unfold solana_vote. rewrite Hu, Hsol.
    apply list_elem_of_singleton. destruct r as [[a b] id]. cbn in *. by simplify_eq.
Qed.

Lemma solana_votes_NoDup : NoDup (fst ∘ fst <$> solana_votes s).
Proof using Hok.
  pose proof (nft_ids_NoDup s Hok) as Hnd. unfold solana_votes. induction (nfts s) as [|n ns IH]; [constructor|].
  apply NoDup_cons in Hnd as [Hn Hnd]. rewrite bind_cons, fmap_app. specialize (IH Hnd).
  unfold solana_vote at 1. destruct (usable_name s n) as [[id t]|]; [|done]. destruct (on_solana s n); [|done].
  cbn. apply NoDup_cons. split; [|done]. intros (r & Hr & (m & Hm & Hin)%list_elem_of_bind)%list_elem_of_fmap. apply Hn.
  unfold solana_vote in Hm. destruct (usable_name s m) as [[id' t']|]; [|by apply elem_of_nil in Hm].
  destruct (on_solana s m); [|by apply elem_of_nil in Hm]. apply list_elem_of_singleton in Hm as ->. cbn in Hr. rewrite Hr.
  by apply (list_elem_of_fmap_2 nft_id).
Qed.

(** Every NFT votes at most once. *)
Lemma votes_bound : length (contract_votes s) + length (solana_votes s) ≤ length (nfts s).
Proof.
  unfold contract_votes, solana_votes. induction (nfts s) as [|n ns IH]; [done|]. rewrite !bind_cons, !length_app. cbn [length].
  unfold contract_vote at 1, solana_vote at 1. destruct (usable_name s n) as [[id t]|]; [destruct (on_solana s n)|]; cbn in *; lia.
Qed.

Lemma contract_votes_ok : Forall (assignment_ok s) (contract_votes s) ∧ Forall (λ v, is_u32 v.1 ∧ is_u32 v.2) (contract_votes s).
Proof using Hok.
  assert (H : ∀ v, v ∈ contract_votes s → assignment_ok s v ∧ is_u32 v.1 ∧ is_u32 v.2).
  { intros v (n & Hn & Hin)%list_elem_of_bind. destruct (nft_lookups s Hok n Hin) as (c & _ & Hc%lookup_lt_Some & _).
    unfold contract_vote in Hn. destruct (usable_name s n) as [[id t]|] eqn:E; [|by apply elem_of_nil in Hn].
    destruct (on_solana s n); [by apply elem_of_nil in Hn|]. apply list_elem_of_singleton in Hn as ->.
    apply usable_name_Some in E as (_ & Hid%lookup_lt_Some & _).
    pose proof (ok_strings_size s Hok). pose proof (ok_contracts_size s Hok). unfold assignment_ok, is_u32. cbn. rewrite Nat2Z.id. lia. }
  split; apply Forall_forall; intros v Hv; by apply H.
Qed.

Context (assignments : list (Z * Z)) (Hassign : assignments ≡ₚ contract_votes s).
Context (reps : list (ContractId * StringId)) (Hreps : elected s assignments reps).

Lemma representative_spec k t :
  (∃ id, (k, id) ∈ reps ∧ strings s !! id = Some t) ↔
  ∃ c, contracts s !! k = Some c ∧ is_solana_chain s (contract_chain_id c) = Some false ∧ most_common (contract_names s k) t.
Proof using Hok Hassign Hreps.
  destruct Hreps as (_ & _ & Hbest & Hcover).
  assert (Hvotes : votes_of assignments (Z.of_nat k) ≡ₚ votes_of (contract_votes s) (Z.of_nat k)).
  { unfold votes_of. apply fmap_Permutation, filter_Permutation, Hassign. }
  assert (Hto : ∀ id, (k, id) ∈ reps → ∃ c, contracts s !! k = Some c ∧ is_solana_chain s (contract_chain_id c) = Some false ∧
    strings s !! id = Some (text_of s (Z.of_nat id)) ∧ most_common (contract_names s k) (text_of s (Z.of_nat id))).
  { intros id Hin. pose proof (proj1 (Forall_forall _ _) Hbest _ Hin) as Hb. cbn [fst snd] in Hb. pose proof Hb as [Hv _].
    rewrite Hvotes in Hv. apply votes_of_elem in Hv. destruct (contract_votes_chain s Hok k _ Hv) as (c & Hc & Hsol).
    exists c. split; [done|]. split; [done|]. by apply (best_most_common s Hok k c (votes_of assignments (Z.of_nat k)) id). }
  split.
  - intros (id & Hin & Ht). destruct (Hto id Hin) as (c & ? & ? & Hs & ?). exists c. rewrite Ht in Hs. injection Hs as ->. done.
  - intros (c & Hc & Hsol & Hmost). pose proof Hmost as [Hin _]. rewrite <- votes_texts in Hin.
    apply list_elem_of_fmap in Hin as (v & _ & Hv).
    assert (Hk : k ∈ reps.*1).
    { apply Hcover. exists v. rewrite Hassign. apply votes_of_elem. rewrite (contract_votes_of s k c Hc), Hsol. exact Hv. }
    apply list_elem_of_fmap in Hk as ([k' id] & Hk & Hin). cbn in Hk. subst k'. exists id. split; [done|].
    destruct (Hto id Hin) as (_ & _ & _ & Hs & Hmost'). by rewrite (most_common_unique _ _ _ Hmost Hmost').
Qed.

Context (solana : list (NftId * ContractId * StringId)) (Hsolana : solana ≡ₚ solana_votes s).

Lemma logical_members :
  ∃ l1 l2, mapM (M := option) (representative_member s) reps = Some l1 ∧ mapM (M := option) (solana_member s) solana = Some l2 ∧
    (Z.of_nat (length (l1 ++ l2)) ≤ 2 ^ 32)%Z ∧ NoDup (snd <$> l1 ++ l2) ∧
    ∀ id ch m, (id, ch, m) ∈ l1 ++ l2 ↔ ∃ t, strings s !! id = Some t ∧ logical s t ch m.
Proof using Hok Hassign Hreps Hsolana.
  pose proof representative_spec as Hrep. destruct Hreps as (Hnd & Hlen & Hbest & _).
  assert (Hsol : ∀ r, r ∈ solana → ∃ n c t, n ∈ nfts s ∧ contracts s !! nft_contract_id n = Some c ∧
    is_solana_chain s (contract_chain_id c) = Some true ∧ usable_name s n = Some (r.2, t) ∧ r.1 = (nft_id n, nft_contract_id n)).
  { intros r Hr. rewrite Hsolana in Hr. apply elem_of_solana_votes in Hr as (n & t & Hin & Hon & Hu & Hr).
    destruct (nft_lookups s Hok n Hin) as (c & chain & Hc & _ & _ & _ & Hsol & _). rewrite Hon in Hsol. by exists n, c, t. }
  destruct (mapM_is_Some_2 (representative_member s) reps) as [l1 E1].
  { apply Forall_forall. intros [k id] Hr. pose proof (proj1 (Forall_forall _ _) Hbest _ Hr) as [Hv _].
    apply votes_of_elem in Hv. rewrite Hassign in Hv. destruct (contract_votes_chain s Hok _ _ Hv) as (c & Hc & _).
    unfold representative_member. cbn in Hc |- *. rewrite Hc. by eexists. }
  destruct (mapM_is_Some_2 (solana_member s) solana) as [l2 E2].
  { apply Forall_forall. intros r Hr. destruct (Hsol r Hr) as (n & c & t & _ & Hc & _ & _ & Hr').
    unfold solana_member. cbn. rewrite Hr'. cbn. rewrite Hc. by eexists. }
  exists l1, l2. split; [done|]. split; [done|].
  assert (H1 : snd <$> l1 = (λ r, {| member_contract_id := r.1; member_nft_id := None |}) <$> reps).
  { eapply mapM_project; [|exact E1]. intros r x. unfold representative_member. by intros (c & _ & [= <-])%bind_Some. }
  assert (H2 : snd <$> l2 = (λ r : NftId * ContractId * StringId, {| member_contract_id := r.1.2; member_nft_id := Some r.1.1 |}) <$> solana).
  { eapply mapM_project; [|exact E2]. intros r x. unfold solana_member. by intros (c & _ & [= <-])%bind_Some. }
  split; [|split].
  - apply mapM_Some, Forall2_length in E1, E2. rewrite length_app.
    pose proof votes_bound. pose proof (ok_nfts_size s Hok). rewrite Hassign in Hlen. rewrite (Permutation_length Hsolana) in E2. lia.
  - rewrite fmap_app, H1, H2. apply NoDup_app. split; [|split].
    + apply (NoDup_fmap_1 member_contract_id). rewrite <- list_fmap_compose. exact Hnd.
    + intros m (r & -> & _)%list_elem_of_fmap (r' & ? & _)%list_elem_of_fmap. done.
    + apply (NoDup_fmap_1 member_nft_id). rewrite <- list_fmap_compose.
      change ((member_nft_id ∘ λ r : NftId * ContractId * StringId, {| member_contract_id := r.1.2; member_nft_id := Some r.1.1 |}) <$> solana)
        with (Some ∘ (fst ∘ fst) <$> solana). rewrite list_fmap_compose. apply NoDup_fmap_2; [apply _|]. rewrite Hsolana. apply solana_votes_NoDup.
  - intros id ch m. rewrite elem_of_app, (elem_of_mapM_option _ _ _ _ E1), (elem_of_mapM_option _ _ _ _ E2). split.
    + intros [([k i] & Hr & (c & Hc & [= -> <- <-])%bind_Some)|(r & Hr & (c & Hc & [= <- <- <-])%bind_Some)].
      * cbn in Hc. pose proof (proj1 (Forall_forall _ _) Hbest _ Hr) as [Hv _]. apply votes_of_elem in Hv. rewrite Hassign in Hv.
        pose proof (proj1 (Forall_forall _ _) (proj1 contract_votes_ok) _ Hv) as (_ & _ & [t Ht]%lookup_lt_is_Some_2).
        cbn in Ht. rewrite Nat2Z.id in Ht. exists t. split; [done|].
        destruct (proj1 (Hrep k t)) as (c' & Hc' & Hs & Hm); [by exists id|]. assert (c' = c) as -> by congruence. by apply logical_contract.
      * destruct (Hsol r Hr) as (n & c' & t & Hin & Hc' & Hs & Hu & Hr'). rewrite Hr' in Hc |- *. cbn in Hc |- *.
        assert (c' = c) as -> by congruence. exists t. split; [by apply usable_name_Some in Hu as (_ & ? & _)|]. by eapply logical_nft.
    + intros (t & Ht & Hlog). destruct Hlog as [k c t Hc Hs Hm|n c i t Hin Hc Hs Hu].
      * left. destruct (proj2 (Hrep k t)) as (i & Hin & Hi); [by exists c|].
        assert (i = id) as -> by exact (index_ok_inj (strings s) (string_ids s) i id t (ok_strings s Hok) Hi Ht).
        exists (k, id). split; [done|]. unfold representative_member. cbn. by rewrite Hc.
      * right. apply usable_name_Some in Hu as Hi. destruct Hi as (_ & Hi & _).
        assert (i = id) as -> by exact (index_ok_inj (strings s) (string_ids s) i id t (ok_strings s Hok) Hi Ht).
        exists (nft_id n, nft_contract_id n, id). split.
        -- rewrite Hsolana. apply elem_of_solana_votes. exists n, t. split; [done|]. split; [|done].
           destruct (nft_lookups s Hok n Hin) as (c' & chain & Hc' & _ & _ & _ & Hs' & _). assert (c' = c) as -> by congruence. congruence.
        -- unfold solana_member. cbn. by rewrite Hc.
Qed.
End Members.

(** ** Atomization *)

#[local] Instance name_compare_laws : CompareLaws name_compare.
Proof.
  apply (then_with_laws (λ a b, Nat.compare (length (characters a)) (length (characters b))) (λ a b, str_compare (characters a) (characters b))).
  - apply (compare_map_laws (λ a, length (characters a))), _.
  - apply (compare_map_laws characters), _.
Qed.

Section Atomized.
Context (s : EntityStore) (Hok : store_ok s) (Hchars : Forall chars_ok (strings s)).

(** The flattened names determine everything but the order. *)
Lemma grouped_atomized names lm :
  Forall (name_shape s) names → StronglySorted lt (canonical_name_id <$> names) → names ≫= flat_name ≡ₚ lm →
  NoDup (snd <$> lm) →
  (∀ id ch m, (id, ch, m) ∈ lm ↔ ∃ t, strings s !! id = Some t ∧ logical s t ch m) →
  atomized s (sort_by name_compare names).
Proof using Hok Hchars.
  intros Hshape Hids Hflat Hnd Hlm. pose proof (sort_by_perm name_compare names) as Hp. pose proof (sort_by_sorted name_compare names) as Hs.
  rewrite Forall_forall in Hshape.
  assert (Hin : ∀ n, n ∈ sort_by name_compare names ↔ n ∈ names) by (intros n; by rewrite Hp).
  assert (Hflat_in : ∀ n ch m, n ∈ names → name_member n ch m ↔ (canonical_name_id n, ch, m) ∈ flat_name n).
  { intros n ch m _. unfold flat_name, flat_atoms, name_member. rewrite list_elem_of_bind. split.
    - intros (a & Ha & <- & Hm). exists a. split; [|done]. by apply (list_elem_of_fmap_2 (λ m, (canonical_name_id n, atom_chain_id a, m))).
    - intros (a & (m' & Heq & Hm)%list_elem_of_fmap & Ha). exists a. by simplify_eq. }
  assert (Hflat_id : ∀ n e, e ∈ flat_name n → e.1.1 = canonical_name_id n).
  { intros n e (a & (m' & -> & _)%list_elem_of_fmap & _)%list_elem_of_bind. done. }
  assert (Hinj : ∀ n n', n ∈ names → n' ∈ names → characters n = characters n' → canonical_name_id n = canonical_name_id n').
  { intros n n' Hn Hn' Heq. destruct (Hshape n Hn) as [Ht _], (Hshape n' Hn') as [Ht' _]. rewrite <- Heq in Ht'.
    exact (index_ok_inj (strings s) (string_ids s) _ _ _ (ok_strings s Hok) Ht Ht'). }
  assert (Hlogical : ∀ t ch m, (∃ n, n ∈ names ∧ characters n = t ∧ name_member n ch m) ↔ logical s t ch m).
  { intros t ch m. split.
    - intros (n & Hn & <- & Hm). apply (Hflat_in n ch m Hn) in Hm. assert (Hl : (canonical_name_id n, ch, m) ∈ lm).
      { rewrite <- Hflat. apply list_elem_of_bind. by exists n. }
      apply Hlm in Hl as (t & Ht & Hl). destruct (Hshape n Hn) as [Ht' _]. by assert (characters n = t) as -> by congruence.
    - intros Hl. assert (Ht : ∃ id, strings s !! id = Some t).
      { destruct Hl as [k c t Hc Hsol [Hm _]|n c id t _ _ _ Hu]; [|apply usable_name_Some in Hu as (_ & ? & _); by exists id].
        apply list_elem_of_fmap in Hm as ([id u] & -> & (n & _ & Hu)%list_elem_of_omap). apply usable_name_Some in Hu as (_ & ? & _). by exists id. }
      destruct Ht as [id Ht]. assert (Hin' : (id, ch, m) ∈ lm) by (apply Hlm; by exists t). rewrite <- Hflat in Hin'.
      apply list_elem_of_bind in Hin' as (n & He & Hn). pose proof (Hflat_id n _ He) as Hid. cbn in Hid. subst id.
      exists n. split; [done|]. destruct (Hshape n Hn) as [Ht' _]. split; [congruence|]. by apply Hflat_in. }
  assert (Htext : ∀ n, n ∈ names → is_usable_contract_name (characters n) = true).
  { intros n Hn. destruct (Hshape n Hn) as (Ht & Hne & Hmem & _). destruct (atoms n) as [|a ats] eqn:Ea; [done|].
    apply Forall_cons in Hmem as [Hm _]. destruct (members a) as [|m ms] eqn:Em; [done|].
    assert (Hl : logical s (characters n) (atom_chain_id a) m).
    { apply Hlogical. exists n. split; [done|]. split; [done|]. exists a. rewrite Ea, Em. split; [by left|]. split; [done|by left]. }
    destruct Hl as [k c t _ _ [Hm' _]|n' c id t _ _ _ Hu]; [|by apply usable_name_Some in Hu as (_ & _ & ?)].
    apply list_elem_of_fmap in Hm' as ([id u] & -> & (n' & _ & Hu)%list_elem_of_omap). by apply usable_name_Some in Hu as (_ & _ & ?). }
  split.
  - split.
    + apply Forall_forall. intros n Hn%Hin. destruct (Hshape n Hn) as [Ht _].
      apply (proj1 (Forall_forall _ _) Hchars). by eapply list_elem_of_lookup_2.
    + apply Forall_forall. intros n Hn%Hin. pose proof (usable_nonempty _ (Htext n Hn)). destruct (characters n); [done|cbn; lia].
    + clear -Hs. induction Hs as [|a l Hs IH Ha]; constructor; [done|]. eapply Forall_impl; [exact Ha|]. intros b. unfold name_compare, then_with.
      destruct (Nat.compare_spec (length (characters a)) (length (characters b))); (lia || done).
  - done.
  - rewrite Hp.
    assert (Hndn : NoDup (canonical_name_id <$> names)).
    { clear -Hids. induction Hids as [|x l Hl IH Hx]; constructor; [|done]. intros Hin. apply (proj1 (Forall_forall _ _) Hx) in Hin. lia. }
    apply NoDup_fmap_2_strong; [|by apply NoDup_fmap_1 in Hndn]. intros n n' Hn Hn' Heq.
    apply (NoDup_fmap_elem canonical_name_id names); auto.
  - apply Forall_forall. intros n Hn%Hin. destruct (Hshape n Hn) as (_ & Hne & Hmem & Hsorted). split; [done|]. split; [|done].
    clear -Hsorted. induction Hsorted as [|x l Hl IH Hx]; constructor; [|done]. intros Hin. apply (proj1 (Forall_forall _ _) Hx) in Hin. lia.
  - rewrite Hp. assert (Heq : (names ≫= λ n, atoms n ≫= members) = snd <$> (names ≫= flat_name)).
    { clear. induction names as [|n names IH]; [done|]. rewrite !bind_cons, fmap_app, IH. f_equal. unfold flat_name, flat_atoms.
      induction (atoms n) as [|a ats IHa]; [done|]. rewrite !bind_cons, fmap_app, IHa. f_equal.
      rewrite <- (list_fmap_compose (λ m, (canonical_name_id n, atom_chain_id a, m)) snd). symmetry. apply list_fmap_id. }
    rewrite Heq, Hflat. done.
  - intros t ch m. rewrite <- Hlogical. setoid_rewrite Hin. done.
Qed.

Context `{UnstableSort} `{WriteSchedule (Z * Z)} `{WriteSchedule (Z * Z * Z)} (threads : nat).

Lemma atomize_spec shape :
  ∃ names, @atomize never_cancelled _ _ _ threads s shape = Returns names ∧ atomized s names.
Proof using All.
  unfold atomize. destruct (collected_spec s Hok shape) as (collected & all & -> & E & H1' & H2'). cbn [mbind outcome_bind]. rewrite E.
  cbn [or_panic mbind outcome_bind]. clear E collected.
  set (solana := sort_unstable_by _ all.2). assert (Hsolana : solana ≡ₚ solana_votes s) by (unfold solana; by rewrite sort_unstable_by_perm).
  destruct (contract_votes_ok s Hok) as [Hassign Hu32].
  edestruct (sorted_quiet pair_compare AtomizeSortAssignments all.1) as (assignments & -> & Hp & Hs).
  { apply sort_u32_pairs_outcome. by rewrite H1'. }
  cbn [mbind outcome_bind].
  destruct (select_representatives_spec s (length assignments) assignments (0%Z, 0)) as (reps & -> & Hreps); [done| |done|].
  { rewrite Hp, H1'. exact Hassign. }
  cbn [mbind outcome_bind].
  destruct (logical_members s Hok assignments ltac:(by rewrite Hp, H1') reps Hreps solana Hsolana) as (l1 & l2 & -> & -> & Hsize & Hnd & Hlm).
  cbn [or_panic mbind outcome_bind]. destruct (materialized (l1 ++ l2) Hsize) as (chunks_ & -> & Ejoin). cbn [mbind outcome_bind]. rewrite Ejoin.
  set (lm := l1 ++ l2) in *.
  assert (Hentry : ∀ i m, lm !! i = Some m → m.1.1 < length (strings s) ∧ m.1.2 < length (chains s)).
  { intros i [[id ch] m] Hi%list_elem_of_lookup_2. apply Hlm in Hi as (t & Ht%lookup_lt_Some & Hl). split; [done|]. cbn.
    destruct Hl as [k c t Hc|n c i' t _ Hc]; destruct (ok_contracts s Hok _ _ Hc) as [_ _ (name & Hname%lookup_lt_Some & _) _]; done. }
  assert (Htriple : ∀ t, t ∈ imap triple_at lm → triple_ok s lm t ∧ is_u32 t.1.1 ∧ is_u32 t.1.2 ∧ is_u32 t.2).
  { intros t [i Hi]%list_elem_of_lookup_1. rewrite list_lookup_imap in Hi. apply fmap_Some in Hi as (m & Hm & ->).
    destruct (Hentry i m Hm). pose proof (ok_strings_size s Hok). pose proof (ok_chains_size s Hok). pose proof (lookup_lt_Some _ _ _ Hm).
    split; [|unfold is_u32; cbn; lia]. exists m. cbn. rewrite Nat2Z.id. split; [done|]. split; [done|lia]. }
  edestruct (sorted_quiet triple_compare AtomizeSortSelected (imap triple_at lm)) as (selected & -> & Hp' & Hs').
  { apply sort_u32_triples_outcome. apply Forall_forall. intros t Ht. by apply Htriple. }
  cbn [mbind outcome_bind].
  destruct (group_names_spec s lm (length selected) selected (0%Z, 0)) as (names & -> & Hlook & Hshape & _ & Hids); [done| |done|].
  { rewrite Hp'. apply Forall_forall. intros t Ht. by apply Htriple. }
  cbn [mbind outcome_bind]. eexists. split; [done|].
  eapply grouped_atomized; [done|done|by eapply look_up_permutation|done|done].
Qed.
End Atomized.

(** ** Properties *)

(** C11: Atomization computes the names of the store.  It never fails; the names are
    ordered by length and text, each text once, its members grouped by chain; and the
    members of a name are exactly the NFTs of Solana with this usable name and the
    contracts of other chains whose most common usable name (the least of them) it is;
    for any number of threads, sort interleavings and order of the reduction. *)
Theorem atomize_names `{UnstableSort} `{WriteSchedule (Z * Z)} `{WriteSchedule (Z * Z * Z)}
    (threads : nat) (s : EntityStore) (shape : Reduction) :
  store_ok s → Forall chars_ok (strings s) →
  ∃ names, @atomize never_cancelled _ _ _ threads s shape = Returns names ∧ atomized s names.
Proof. intros Hok Hchars. by apply atomize_spec. Qed.

(** *** Example *)

Definition named_row (chain addr token name : string) : InputRow :=
  example_row chain addr token name "".

(** Two collections whose most common name is shared, one with an alike name, and two
    NFTs of one Solana contract with the shared name. *)
Definition named_rows : list InputRow :=
  [named_row "ethereum" "0xa" "1" "apes"; named_row "ethereum" "0xa" "2" "apes"; named_row "ethereum" "0xa" "3" "Zeta";
   named_row "base" "0xb" "1" "apes"; named_row "base" "0xd" "1" "apess"; named_row "base" "0xe" "1" "n/a";
   named_row "solana" "S" "1" "apes"; named_row "solana" "S" "2" "apes"].

Definition named_store : EntityStore := (@ingest_rows simple_json named_rows (with_options None ∅)).2.

Lemma named_store_ok : store_ok named_store.
Proof.
  pose proof (@ingest_rows_wp simple_json named_rows _ (with_options_ok None ∅) (represents_empty None ∅)) as Hw.
  unfold wp in Hw. unfold named_store.
  destruct (ingest_rows named_rows (with_options None ∅)) as [o s] eqn:E.
  assert (Ho : o = Returns ()) by (apply (f_equal fst) in E; by vm_compute in E). subst o. simpl.
  by destruct Hw as (? & _).
Qed.

Lemma named_store_chars : Forall chars_ok (strings named_store).
Proof.
  assert (strings named_store = map lit ["apes"; "Zeta"; "apess"; "n/a"]%string) as -> by (vm_compute; reflexivity).
  repeat constructor.
Qed.

Lemma atomize_names_witness :
  match @atomize never_cancelled stable_sort _ _ 4 named_store Fold with
  | Returns names => map (λ n, length (characters n)) names = [4; 5]%nat
  | _ => False
  end ∧
  ∃ names, @atomize never_cancelled stable_sort _ _ 4 named_store Fold = Returns names ∧ atomized named_store names.
Proof.
  split; [vm_compute; reflexivity|].
  apply (@atomize_names stable_sort _ _ 4 named_store Fold); [apply named_store_ok|apply named_store_chars].
Defined.
