(* ===== verification/NameCounts.v ===== *)
(** What the emission of name hits counts: per scope, the distinct contracts and the
    distinct NFTs that its members stand for. *)

From S2P Require Import Prelude Radix Text CanonicalJson Types Anchors Stats Sampling UriChunks.
From S2P Require Import Entity EntityInvariant EntityPostings Outcome NameIndex NameScore.
From S2P Require Import NameAtoms Name.

(** ** Members and the NFTs they stand for *)

Section Members.
Context (s : EntityStore) (Hok : store_ok s).

Definition member_nfts (m : NameMember) : gset NftId :=
  match member_nft_id m with
  | Some n => {[n]}
  | None => list_to_set (nft_id <$> nfts_of_contract (nfts s) (member_contract_id m))
  end.

Definition member_contracts (ms : gset NameMember) : gset ContractId := set_map member_contract_id ms.
Definition all_nfts (ms : gset NameMember) : gset NftId := ⋃ (member_nfts <$> elements ms).
Definition own_nfts (ms : gset NameMember) : gset NftId := set_omap member_nft_id ms.

Definition scope_counts (ms : gset NameMember) : ScopeCounts :=
  {| duplicate_contract_count := Z.of_nat (size (member_contracts ms));
     duplicate_nft_count := Z.of_nat (size (all_nfts ms)) |}.

Definition solana (ch : ChainId) : bool := default false (is_solana_chain s ch).

(** A contract of another chain, or an NFT of a Solana contract. *)
Definition member_ok (m : NameMember) : Prop :=
  ∃ c, contracts s !! member_contract_id m = Some c ∧
    match member_nft_id m with
    | None => solana (contract_chain_id c) = false
    | Some n => solana (contract_chain_id c) = true ∧ ∃ nft, nfts s !! n = Some nft ∧ nft_contract_id nft = member_contract_id m
    end.

Lemma elem_of_member_nfts m n :
  member_ok m → n ∈ member_nfts m →
  ∃ nft, nfts s !! n = Some nft ∧ nft_contract_id nft = member_contract_id m.
Proof using Hok.
  intros (c & Hc & Hm). unfold member_nfts. destruct (member_nft_id m) as [i|].
  - intros ->%elem_of_singleton. by destruct Hm as [_ Hm].
  - intros (nft & -> & [Hcid [i Hi]%list_elem_of_lookup_1]%list_elem_of_filter)%elem_of_list_to_set%list_elem_of_fmap.
    rewrite (nft_ok_id _ _ _ _ (ok_nfts s Hok i nft Hi)). by exists nft.
Qed.

(** Different members stand for different NFTs. *)
Lemma member_nfts_inj m m' n : member_ok m → member_ok m' → n ∈ member_nfts m → n ∈ member_nfts m' → m = m'.
Proof using Hok.
  intros Hm Hm' Hn Hn'. destruct (elem_of_member_nfts m n Hm Hn) as (nft & Hnft & Hc).
  destruct (elem_of_member_nfts m' n Hm' Hn') as (nft' & Hnft' & Hc'). assert (nft' = nft) as -> by congruence.
  destruct Hm as (c & Hcs & Hm), Hm' as (c' & Hcs' & Hm'). assert (c' = c) as -> by congruence.
  destruct m as [mc mn], m' as [mc' mn']. cbn in *. subst mc mc'. f_equal. unfold member_nfts in *. cbn in *.
  destruct mn as [i|], mn' as [i'|]; [|by destruct Hm; congruence|by destruct Hm'; congruence|done].
  apply elem_of_singleton in Hn, Hn'. congruence.
Qed.

Lemma elem_of_all_nfts ms n : n ∈ all_nfts ms ↔ ∃ m, m ∈ ms ∧ n ∈ member_nfts m.
Proof.
  unfold all_nfts. rewrite elem_of_union_list. split.
  - intros (X & (m & -> & Hm)%list_elem_of_fmap & Hn). exists m. split; [|done]. by apply elem_of_elements.
  - intros (m & Hm & Hn). exists (member_nfts m). split; [|done]. by apply list_elem_of_fmap_2, elem_of_elements.
Qed.

Definition members_ok (ms : gset NameMember) : Prop := ∀ m, m ∈ ms → member_ok m.

Lemma all_nfts_insert m ms :
  members_ok ms → member_ok m →
  size (all_nfts ({[m]} ∪ ms)) = size (all_nfts ms) + (if decide (m ∈ ms) then 0 else size (member_nfts m)).
Proof using Hok.
  intros Hms Hm. case_decide as Hin.
  - replace ({[m]} ∪ ms) with ms by set_solver. lia.
  - assert (all_nfts ({[m]} ∪ ms) = all_nfts ms ∪ member_nfts m) as ->.
    { apply set_eq. intros n. rewrite elem_of_union, !elem_of_all_nfts. set_solver. }
    rewrite size_union; [done|]. intros n (m' & Hm' & Hn)%elem_of_all_nfts Hn'. apply Hin.
    by rewrite (member_nfts_inj m m' n) by auto.
Qed.

Lemma member_contracts_insert m ms :
  size (member_contracts ({[m]} ∪ ms)) = size (member_contracts ms) + (if decide (member_contract_id m ∈ member_contracts ms) then 0 else 1).
Proof.
  unfold member_contracts. rewrite set_map_union_L, set_map_singleton_L. pose proof (size_insert (member_contract_id m) (set_map member_contract_id ms)) as Hs.
  case_decide; lia.
Qed.

Lemma size_below (x : gset nat) n : (∀ i, i ∈ x → i < n) → size x ≤ n.
Proof.
  intros Hx. rewrite <- (length_seq n 0) at 1. rewrite <- (size_list_to_set (C := gset nat) (seq 0 n)) by apply NoDup_seq.
  apply subseteq_size. intros i Hi. apply elem_of_list_to_set, elem_of_seq. specialize (Hx i Hi). lia.
Qed.

(** The counts stay far below 64 bits. *)
Lemma scope_counts_bound ms :
  members_ok ms → (Z.of_nat (size (member_contracts ms)) ≤ 2 ^ 32)%Z ∧ (Z.of_nat (size (all_nfts ms)) ≤ 2 ^ 32)%Z.
Proof using Hok.
  intros Hms. pose proof (ok_contracts_size s Hok). pose proof (ok_nfts_size s Hok).
  assert (size (member_contracts ms) ≤ length (contracts s)).
  { apply size_below. intros i (m & -> & Hm)%elem_of_map. destruct (Hms m Hm) as (c & Hc%lookup_lt_Some & _). done. }
  assert (size (all_nfts ms) ≤ length (nfts s)).
  { apply size_below. intros i (m & Hm & Hn)%elem_of_all_nfts. destruct (elem_of_member_nfts m i (Hms m Hm) Hn) as (nft & Hi%lookup_lt_Some & _). done. }
  lia.
Qed.

(** A contract stands for as many NFTs as it counts. *)
Lemma contract_member_nfts cid c :
  contracts s !! cid = Some c → nft_count c = Z.of_nat (size (member_nfts {| member_contract_id := cid; member_nft_id := None |})).
Proof using Hok.
  intros Hc. rewrite (contract_ok_count _ _ _ _ _ _ _ (ok_contracts s Hok _ _ Hc)). f_equal. cbn. rewrite size_list_to_set; [by rewrite length_fmap|].
  pose proof (nft_ids_NoDup s Hok) as Hnd. unfold nfts_of_contract. clear -Hnd. induction (nfts s) as [|n ns IH]; [constructor|].
  apply NoDup_cons in Hnd as [Hn Hnd]. rewrite filter_cons. case_decide; [|by apply IH]. apply NoDup_cons. split; [|by apply IH].
  intros (m & Hm & [_ Hin]%list_elem_of_filter)%list_elem_of_fmap. apply Hn. rewrite Hm. by apply (list_elem_of_fmap_2 nft_id).
Qed.

(** ** One more member in a scope *)

Definition name_counts (acc : SummaryAccumulator) (M : ScopeKey → gset NameMember) : Prop :=
  ∀ key, dimension key = Name →
    or_default ∅ (counted_contracts acc) key = member_contracts (M key) ∧
    or_default ∅ (counted_nfts acc) key = own_nfts (M key) ∧
    or_default ScopeCounts_default (counts acc) key = scope_counts (M key).

Definition other_dimensions (acc acc' : SummaryAccumulator) : Prop :=
  ∀ key, dimension key ≠ Name → counts acc' !! key = counts acc !! key.

Definition add_member (m : NameMember) (key : ScopeKey) (M : ScopeKey → gset NameMember) : ScopeKey → gset NameMember :=
  λ k, if decide (key = k) then {[m]} ∪ M k else M k.

Lemma wrapping_add64_small a b : (0 ≤ a + b < 2 ^ 64)%Z → wrapping_add64 a b = (a + b)%Z.
Proof. intros. unfold wrapping_add64. by apply Z.mod_small. Qed.

Lemma members_insert m ms : member_ok m → members_ok ms → members_ok ({[m]} ∪ ms).
Proof. intros Hm Hms x [->%elem_of_singleton|Hx]%elem_of_union; auto. Qed.

Lemma mark_contract_adds acc M cid c k sec :
  let m := {| member_contract_id := cid; member_nft_id := None |} in
  let key := {| kind := k; primary_chain := contract_chain_id c; secondary_chain := sec; dimension := Name |} in
  name_counts acc M → contracts s !! cid = Some c → member_ok m → members_ok (M key) →
  (∀ m', m' ∈ M key → member_nft_id m' = None) →
  ∃ acc', mark_contract s acc cid Name k sec = Some acc' ∧ name_counts acc' (add_member m key M) ∧ other_dimensions acc acc'.
Proof using Hok.
  intros m key Hacc Hc Hm Hms Hnone. destruct (Hacc key eq_refl) as (Hcc & Hcn & Hcs).
  assert (Hin : cid ∈ member_contracts (M key) ↔ m ∈ M key).
  { split; [|by intros ?; apply (elem_of_map_2 member_contract_id (M key) m)]. intros (m' & Heq & Hm')%elem_of_map.
    specialize (Hnone m' Hm'). destruct m' as [c' n']. cbn in *. by subst. }
  unfold mark_contract. rewrite Hc. cbn [mbind option_bind]. fold key. rewrite Hcc. eexists. split; [done|]. split.
  - intros key' Hdim. cbn [counted_contracts counted_nfts counts]. unfold add_member.
    rewrite or_default_insert. case_decide as Hk; [subst key'|].
    + split; [unfold member_contracts; by rewrite set_map_union_L, set_map_singleton_L|]. split.
      { rewrite Hcn. unfold own_nfts. apply set_eq. intros n. rewrite !elem_of_set_omap. set_solver. }
      destruct (decide (cid ∈ member_contracts (M key))) as [Hd|Hd].
      * rewrite Hcs. replace ({[m]} ∪ M key) with (M key); [done|]. apply Hin in Hd. set_solver.
      * rewrite or_default_insert, decide_True by done. rewrite Hcs. unfold add_contract, scope_counts. cbn [duplicate_contract_count duplicate_nft_count].
        destruct (scope_counts_bound _ (members_insert m (M key) Hm Hms)) as [Hb1 Hb2].
        rewrite all_nfts_insert, member_contracts_insert in * by done.
        rewrite decide_False in Hb1 |- * by done. rewrite (decide_False (P := m ∈ M key)) in Hb2 |- * by (by rewrite <- Hin).
        rewrite (contract_member_nfts cid c Hc). fold m. rewrite !wrapping_add64_small by lia. f_equal; lia.
    + destruct (Hacc key' Hdim) as (? & ? & ?). split; [done|]. split; [done|]. case_decide; [done|]. by rewrite or_default_insert, decide_False.
  - intros key' Hdim. cbn [counts]. case_decide; [done|]. rewrite lookup_insert_ne; [done|]. by intros <-.
Qed.

Lemma mark_nft_scope_adds acc M cid c n k sec :
  let m := {| member_contract_id := cid; member_nft_id := Some n |} in
  let key := {| kind := k; primary_chain := contract_chain_id c; secondary_chain := sec; dimension := Name |} in
  name_counts acc M → contract_id c = cid → member_ok m → members_ok (M key) →
  name_counts (mark_nft_scope acc c n key) (add_member m key M) ∧ other_dimensions acc (mark_nft_scope acc c n key).
Proof using Hok.
  intros m key Hacc Hid Hm Hms. destruct (Hacc key eq_refl) as (Hcc & Hcn & Hcs).
  assert (Hin : n ∈ own_nfts (M key) ↔ m ∈ M key).
  { unfold own_nfts. rewrite elem_of_set_omap. split; [|by intros ?; exists m]. intros (m' & Hm' & Hn).
    rewrite (member_nfts_inj m m' n); [done..|by apply Hms|cbn; by apply elem_of_singleton|unfold member_nfts; rewrite Hn; by apply elem_of_singleton]. }
  split.
  - intros key' Hdim. unfold mark_nft_scope, add_member. cbn [counted_contracts counted_nfts counts]. rewrite !or_default_insert, Hcc, Hcn, Hcs, Hid.
    case_decide as Hk; [subst key'|by apply Hacc].
    split; [unfold member_contracts; by rewrite set_map_union_L, set_map_singleton_L|]. split.
    { unfold own_nfts. apply set_eq. intros i. rewrite elem_of_union, !elem_of_set_omap, elem_of_singleton. set_solver. }
    unfold scope_counts. destruct (scope_counts_bound _ (members_insert m (M key) Hm Hms)) as [Hb1 Hb2].
    rewrite all_nfts_insert, member_contracts_insert in * by done. change (member_contract_id m) with cid in *.
    assert (Hone : size (member_nfts m) = 1) by (unfold member_nfts; cbn [member_nft_id m]; apply size_singleton). rewrite Hone in *.
    destruct (decide (cid ∈ member_contracts (M key))), (decide (n ∈ own_nfts (M key))) as [Hn|Hn]; rewrite Hin in Hn; cbn [duplicate_contract_count duplicate_nft_count];
      (first [rewrite (decide_True (P := m ∈ M key)) in Hb2 |- * by done | rewrite (decide_False (P := m ∈ M key)) in Hb2 |- * by done]);
      rewrite ?wrapping_add64_small by lia; f_equal; lia.
  - intros key' Hdim. unfold mark_nft_scope. cbn [counts]. rewrite lookup_insert_ne; [done|]. by intros <-.
Qed.
End Members.

(** ** The emission of hits *)

Section Emission.
Context (s : EntityStore) (Hok : store_ok s) (acc0 : SummaryAccumulator).

(** Whether a hit counts in the scope of a key. *)
Definition in_scope (h : NameHit) (key : ScopeKey) : Prop :=
  match contracts s !! member_contract_id (hit_member h) with
  | Some c => dimension key = Name ∧ primary_chain key = contract_chain_id c ∧
      (kind key, secondary_chain key) ∈ uri_scopes (contract_chain_id c) (hit_peer_chain h)
  | None => False
  end.
#[export] Instance in_scope_dec h key : Decision (in_scope h key).
Proof. unfold in_scope. destruct (contracts s !! _); apply _. Defined.

Lemma in_scope_iff h key c :
  contracts s !! member_contract_id (hit_member h) = Some c →
  in_scope h key ↔ dimension key = Name ∧ primary_chain key = contract_chain_id c ∧
    (kind key, secondary_chain key) ∈ uri_scopes (contract_chain_id c) (hit_peer_chain h).
Proof. unfold in_scope. by intros ->. Qed.

Definition scope_members (hs : list NameHit) (key : ScopeKey) : gset NameMember :=
  list_to_set (hit_member <$> filter (λ h, in_scope h key) hs).

Lemma elem_of_scope_members hs key m :
  m ∈ scope_members hs key ↔ ∃ h, h ∈ hs ∧ in_scope h key ∧ hit_member h = m.
Proof.
  unfold scope_members. rewrite elem_of_list_to_set, list_elem_of_fmap. setoid_rewrite list_elem_of_filter. naive_solver.
Qed.

Lemma scope_members_snoc hs h key :
  scope_members (hs ++ [h]) key = if decide (in_scope h key) then {[hit_member h]} ∪ scope_members hs key else scope_members hs key.
Proof.
  apply set_eq. intros m. case_decide; rewrite ?elem_of_union, ?elem_of_singleton, !elem_of_scope_members; set_solver.
Qed.

(** Solana NFTs within their chain are counted at the end. *)
Definition solana_intra (key : ScopeKey) : Prop := kind key = IntraChain ∧ solana s (primary_chain key) = true.
#[export] Instance solana_intra_dec key : Decision (solana_intra key).
Proof. apply _. Defined.
Definition direct_members (hs : list NameHit) (key : ScopeKey) : gset NameMember :=
  if decide (solana_intra key) then ∅ else scope_members hs key.

Definition hit_ok (h : NameHit) : Prop := member_ok s (hit_member h).

Record emitted (hs : list NameHit) (st : SummaryAccumulator * IntraNftHits) : Prop := {
  emitted_counts : name_counts s st.1 (direct_members hs);
  emitted_others : other_dimensions acc0 st.1;
  emitted_intra : ∀ ch, default (∅, ∅) (st.2 !! ch) =
    if solana s ch then (member_contracts (scope_members hs (intra_key ch)), own_nfts (scope_members hs (intra_key ch)))
    else (∅, ∅);
}.

Lemma name_counts_ext acc M M' :
  (∀ key, dimension key = Name → M key = M' key) → name_counts s acc M → name_counts s acc M'.
Proof. intros HM Hacc key Hd. rewrite <- HM by done. by apply Hacc. Qed.

(** The members of a scope are of its chain. *)
Lemma scope_members_chain hs key m :
  Forall hit_ok hs → m ∈ scope_members hs key →
  member_ok s m ∧ (member_nft_id m = None ↔ solana s (primary_chain key) = false).
Proof.
  intros Hhs (h & Hh & Hin & <-)%elem_of_scope_members. pose proof (proj1 (Forall_forall _ _) Hhs h Hh) as Hm. split; [done|].
  destruct Hm as (c & Hc & Hm). unfold in_scope in Hin. rewrite Hc in Hin. destruct Hin as (_ & -> & _).
  destruct (member_nft_id (hit_member h)); [destruct Hm as [-> _]; done|done].
Qed.

Lemma direct_members_ok hs key : Forall hit_ok hs → members_ok s (direct_members hs key).
Proof.
  intros Hhs m. unfold direct_members. case_decide; [by intros ?%elem_of_empty|]. intros Hm. by apply (scope_members_chain hs key).
Qed.

Lemma direct_members_snoc hs h c key :
  contracts s !! member_contract_id (hit_member h) = Some c → dimension key = Name →
  direct_members (hs ++ [h]) key =
    if decide (¬ solana_intra key ∧ primary_chain key = contract_chain_id c ∧
       (kind key, secondary_chain key) ∈ uri_scopes (contract_chain_id c) (hit_peer_chain h))
    then {[hit_member h]} ∪ direct_members hs key else direct_members hs key.
Proof.
  intros Hc Hd. unfold direct_members. rewrite scope_members_snoc. pose proof (in_scope_iff h key c Hc). repeat case_decide; naive_solver.
Qed.

Lemma add_two m k1 k2 M key :
  k1 ≠ k2 → add_member m k2 (add_member m k1 M) key = if decide (k1 = key ∨ k2 = key) then {[m]} ∪ M key else M key.
Proof. intros Hne. unfold add_member. repeat case_decide; naive_solver. Qed.

Lemma other_dimensions_trans a1 a2 a3 : other_dimensions a1 a2 → other_dimensions a2 a3 → other_dimensions a1 a3.
Proof. intros H1 H2 key Hd. by rewrite H2, H1. Qed.

Lemma elem_of_uri_scopes ch peer x :
  x ∈ uri_scopes ch peer ↔
    if decide (ch = peer) then x = (IntraChain, None) else x = (CrossChainSummary, None) ∨ x = (ChainMatrix, Some peer).
Proof. unfold uri_scopes. case_decide; rewrite ?elem_of_cons, elem_of_nil; naive_solver. Qed.

(** The scope keys of a hit that are counted directly. *)
Lemma key_eq key ch k sec :
  {| kind := k; primary_chain := ch; secondary_chain := sec; dimension := Name |} = key ↔
  dimension key = Name ∧ primary_chain key = ch ∧ (kind key, secondary_chain key) = (k, sec).
Proof. destruct key; naive_solver. Qed.

Lemma emit_contract_hit hs st h c :
  emitted hs st → Forall hit_ok hs → hit_ok h → contracts s !! member_contract_id (hit_member h) = Some c →
  member_nft_id (hit_member h) = None →
  ∃ acc, mark_contract_duplicate s st.1 (member_contract_id (hit_member h)) Name (hit_peer_chain h) = Some acc ∧
    emitted (hs ++ [h]) (acc, st.2).
Proof using Hok.
  intros [Hcounts Hothers Hintra] Hhs Hh Hc Hnone. destruct h as [[cid nid] peer]. cbn in *. subst nid.
  set (m := {| member_contract_id := cid; member_nft_id := None |}) in *. pose proof Hh as (c' & Hc' & Hsol). cbn in Hc', Hsol.
  assert (c' = c) as -> by congruence.
  assert (Hintra' : ∀ ch, default (∅, ∅) (st.2 !! ch) = if solana s ch
    then (member_contracts (scope_members (hs ++ [{| hit_member := m; hit_peer_chain := peer |}]) (intra_key ch)),
          own_nfts (scope_members (hs ++ [{| hit_member := m; hit_peer_chain := peer |}]) (intra_key ch))) else (∅, ∅)).
  { intros ch. rewrite Hintra. destruct (solana s ch) eqn:Ech; [|done]. rewrite scope_members_snoc, decide_False; [done|].
    rewrite (in_scope_iff _ _ c) by done. intros (_ & Hp & _). cbn in Hp. congruence. }
  assert (Hdirect : ∀ key, dimension key = Name → direct_members (hs ++ [{| hit_member := m; hit_peer_chain := peer |}]) key =
    if decide (primary_chain key = contract_chain_id c ∧ (kind key, secondary_chain key) ∈ uri_scopes (contract_chain_id c) peer)
    then {[m]} ∪ direct_members hs key else direct_members hs key).
  { intros key Hd. rewrite (direct_members_snoc hs _ c) by done. cbn [hit_peer_chain hit_member]. repeat case_decide; try done; [naive_solver|].
    exfalso. match goal with H : ¬ (_ ∧ _ ∧ _) |- _ => apply H end. split; [|done]. intros [_ Hs]. destruct_and?. congruence. }
  assert (Hnones : ∀ key m', primary_chain key = contract_chain_id c → m' ∈ direct_members hs key → member_nft_id m' = None).
  { intros key m' Hp. unfold direct_members. case_decide; [by intros ?%elem_of_empty|]. intros Hm'.
    apply (scope_members_chain hs key m' Hhs Hm'). by rewrite Hp. }
  unfold mark_contract_duplicate. rewrite Hc. cbn [mbind option_bind].
  case_decide as Hpeer.
  - destruct (mark_contract_adds s Hok st.1 (direct_members hs) cid c IntraChain None Hcounts Hc Hh) as (acc & E & Hacc & Ho).
    { by apply direct_members_ok. } { intros m' Hm'. refine (Hnones _ m' _ Hm'). done. }
    exists acc. split; [exact E|]. split; [|by eapply other_dimensions_trans|done]. cbn [fst].
    eapply name_counts_ext; [|exact Hacc]. intros key Hd. rewrite Hdirect by done. unfold add_member.
    pose proof (elem_of_uri_scopes (contract_chain_id c) peer (kind key, secondary_chain key)) as Hscopes. rewrite decide_True in Hscopes by done.
    apply decide_ext. rewrite key_eq, Hscopes. tauto.
  - destruct (mark_contract_adds s Hok st.1 (direct_members hs) cid c CrossChainSummary None Hcounts Hc Hh) as (acc1 & E1 & Hacc1 & Ho1).
    { by apply direct_members_ok. } { intros m' Hm'. refine (Hnones _ m' _ Hm'). done. }
    rewrite E1. cbn [mbind option_bind].
    edestruct (mark_contract_adds s Hok acc1 _ cid c ChainMatrix (Some peer) Hacc1 Hc Hh) as (acc2 & E2 & Hacc2 & Ho2).
    { unfold add_member. rewrite decide_False by done. by apply direct_members_ok. }
    { unfold add_member. rewrite decide_False by done. intros m' Hm'. refine (Hnones _ m' _ Hm'). done. }
    exists acc2. split; [exact E2|]. split; [|by do 2 (eapply other_dimensions_trans; [eassumption|])|done]. cbn [fst].
    eapply name_counts_ext; [|exact Hacc2]. intros key Hd. rewrite Hdirect, add_two by done.
    pose proof (elem_of_uri_scopes (contract_chain_id c) peer (kind key, secondary_chain key)) as Hscopes. rewrite decide_False in Hscopes by done.
    apply decide_ext. rewrite !key_eq, Hscopes. tauto.
Qed.

Lemma intra_insert_lookup hits chain contract nft ch :
  default (∅, ∅) (intra_insert hits chain contract nft !! ch) =
    let old := default (∅, ∅) (hits !! ch) in
    if decide (chain = ch) then ({[contract]} ∪ old.1, {[nft]} ∪ old.2) else old.
Proof.
  unfold intra_insert, IntraNftHits in *. destruct (default (∅, ∅) (hits !! chain)) as [cs ns] eqn:E. rewrite lookup_insert.
  case_decide as Hch; [subst ch|done]. by rewrite E.
Qed.

Lemma emit_nft_hit hs st h c n :
  emitted hs st → Forall hit_ok hs → hit_ok h → contracts s !! member_contract_id (hit_member h) = Some c →
  member_nft_id (hit_member h) = Some n →
  ∃ st', emit_hit s st h = Some st' ∧ emitted (hs ++ [h]) st'.
Proof using Hok.
  intros [Hcounts Hothers Hintra] Hhs Hh Hc Hn. destruct h as [[cid nid] peer]. cbn in Hc, Hn. subst nid.
  set (m := {| member_contract_id := cid; member_nft_id := Some n |}) in *. set (h := {| hit_member := m; hit_peer_chain := peer |}) in *.
  pose proof Hh as (c' & Hc' & Hsol & nft & Hnft & Hcid). cbn in Hc', Hcid. assert (c' = c) as -> by congruence. clear Hc'.
  pose proof (contract_ok_id _ _ _ _ _ _ _ (ok_contracts s Hok _ _ Hc)) as Hid.
  assert (Hscope : ∀ ch, in_scope h (intra_key ch) ↔ ch = contract_chain_id c ∧ contract_chain_id c = peer).
  { intros ch. rewrite (in_scope_iff h _ c Hc), elem_of_uri_scopes. cbn. case_decide; naive_solver. }
  unfold emit_hit. cbn [hit_member h member_nft_id m member_contract_id hit_peer_chain]. rewrite Hc. cbn [mbind option_bind].
  case_decide as Hpeer.
  - eexists. split; [done|]. split; cbn [fst snd]; [|done|].
    + eapply name_counts_ext; [|exact Hcounts]. intros key Hd. rewrite (direct_members_snoc hs h c) by done. rewrite decide_False; [done|].
      rewrite elem_of_uri_scopes, decide_True by done. intros (Hns & Hp & Hks). apply Hns. split; [congruence|]. by rewrite Hp.
    + intros ch. rewrite intra_insert_lookup, Hintra. cbv zeta. rewrite scope_members_snoc.
      case_decide as Hch; [subst ch|rewrite decide_False; [done|by rewrite Hscope; intros [? _]]].
      rewrite Hsol, decide_True by by apply Hscope. cbn [fst snd]. unfold member_contracts, own_nfts.
      rewrite set_map_union_L, set_map_singleton_L. f_equal. apply set_eq. intros i. rewrite elem_of_union, !elem_of_set_omap, elem_of_singleton.
      change (hit_member h) with m. set_solver.
  - unfold mark_nft_duplicate. rewrite Hnft. cbn [mbind option_bind]. rewrite Hcid. cbn [member_contract_id m]. rewrite Hc. cbn [mbind option_bind].
    rewrite decide_False by done. cbn [foldl mbind option_bind].
    destruct (mark_nft_scope_adds s Hok st.1 (direct_members hs) cid c n CrossChainSummary None Hcounts Hid Hh) as [Hacc1 Ho1]; [by apply direct_members_ok|].
    edestruct (mark_nft_scope_adds s Hok _ _ cid c n ChainMatrix (Some peer) Hacc1 Hid Hh) as [Hacc2 Ho2].
    { unfold add_member. rewrite decide_False by done. by apply direct_members_ok. }
    eexists. split; [done|]. split; cbn [fst snd]; [|by do 2 (eapply other_dimensions_trans; [eassumption|])|].
    + eapply name_counts_ext; [|exact Hacc2]. intros key Hd. rewrite (direct_members_snoc hs h c), add_two by done.
      apply decide_ext. rewrite !key_eq, elem_of_uri_scopes, decide_False by done. unfold solana_intra.
      split; [intros [(_ & ? & ?)|(_ & ? & ?)]; (split; [intros [? _]; congruence|auto])|intros (_ & ? & [?|?]); auto].
    + intros ch. rewrite Hintra, scope_members_snoc, decide_False; [done|]. rewrite Hscope. by intros [_ ?].
Qed.

Lemma emit_hit_spec hs st h :
  emitted hs st → Forall hit_ok hs → hit_ok h → ∃ st', emit_hit s st h = Some st' ∧ emitted (hs ++ [h]) st'.
Proof using Hok.
  intros Hst Hhs Hh. pose proof Hh as (c & Hc & _). destruct (member_nft_id (hit_member h)) as [n|] eqn:En; [by eapply emit_nft_hit|].
  destruct (emit_contract_hit hs st h c Hst Hhs Hh Hc En) as (acc & E & Hacc). eexists. split; [|exact Hacc].
  unfold emit_hit. rewrite En, E. done.
Qed.

Lemma emit_hits_spec hs st more :
  emitted hs st → Forall hit_ok hs → Forall hit_ok more →
  ∃ st', foldM (emit_hit s) st more = Some st' ∧ emitted (hs ++ more) st'.
Proof using Hok.
  revert hs st. induction more as [|h more IH]; intros hs st Hst Hhs Hmore; cbn [foldM].
  - exists st. by rewrite app_nil_r.
  - apply Forall_cons in Hmore as [Hh Hmore]. destruct (emit_hit_spec hs st h Hst Hhs Hh) as (st1 & -> & Hst1). cbn [mbind option_bind].
    destruct (IH (hs ++ [h]) st1 Hst1) as (st' & E & Hst'); [apply Forall_app; split; [done|by constructor]|done|].
    exists st'. rewrite <- app_assoc in Hst'. done.
Qed.

(** ** The merge of the intra-chain hits *)

Definition intra_entry (e : ChainId * (gset ContractId * gset NftId)) : ScopeKey * ScopeCounts :=
  (intra_key e.1, {| duplicate_contract_count := Z.of_nat (size e.2.1); duplicate_nft_count := Z.of_nat (size e.2.2) |}).

Lemma intra_totals_lookup (hits : IntraNftHits) key :
  (list_to_map (map intra_entry (map_to_list hits)) : gmap ScopeKey ScopeCounts) !! key =
    if decide (key = intra_key (primary_chain key)) then snd ∘ intra_entry ∘ pair (primary_chain key) <$> hits !! primary_chain key else None.
Proof.
  assert (Hnd : NoDup (map intra_entry (map_to_list hits)).*1).
  { change (map intra_entry (map_to_list hits)) with (intra_entry <$> map_to_list hits). rewrite <- list_fmap_compose.
    change (fst ∘ intra_entry) with (intra_key ∘ @fst ChainId (gset ContractId * gset NftId)). rewrite list_fmap_compose.
    apply NoDup_fmap_2; [|apply NoDup_fst_map_to_list]. by intros ? ? [= ?]. }
  apply option_eq. intros v. rewrite <- elem_of_list_to_map by done. split.
  - intros ([ch sets] & [= Hk Hv] & Hin%elem_of_map_to_list)%list_elem_of_fmap. subst key v. cbn [primary_chain intra_key fst]. rewrite decide_True by done. unfold IntraNftHits in *. by rewrite Hin.
  - case_decide as Hk; [|done]. intros (sets & Hs & ->)%fmap_Some. apply list_elem_of_fmap. exists (primary_chain key, sets).
    split; [unfold intra_entry; cbn [fst]; by rewrite <- Hk|by apply elem_of_map_to_list].
Qed.

Lemma saturating_small a b : (0 ≤ a)%Z → (0 ≤ b)%Z → (a + b < 2 ^ 64)%Z → saturating_add64 a b = (a + b)%Z.
Proof. intros. unfold saturating_add64. lia. Qed.

(** On Solana an NFT member stands for itself. *)
Lemma own_nfts_all ms : (∀ m, m ∈ ms → member_nft_id m ≠ None) → own_nfts ms = all_nfts s ms.
Proof.
  intros Hms. apply set_eq. intros n. unfold own_nfts. rewrite elem_of_set_omap, elem_of_all_nfts. split; intros (m & Hm & Hn); exists m; (split; [done|]).
  - unfold member_nfts. rewrite Hn. by apply elem_of_singleton.
  - specialize (Hms m Hm). unfold member_nfts in Hn. destruct (member_nft_id m); [|done]. apply elem_of_singleton in Hn. by subst.
Qed.

Lemma merge_into_spec hs st :
  emitted hs st → Forall hit_ok hs →
  (∀ key, dimension key = Name → or_default ScopeCounts_default (counts (merge_into st.2 st.1)) key = scope_counts s (scope_members hs key)) ∧
  other_dimensions acc0 (merge_into st.2 st.1).
Proof using Hok.
  intros [Hcounts Hothers Hintra] Hhs. unfold merge_into.
  assert (Hmap : map (λ '(chain, (contracts, nfts)), (intra_key chain, {| duplicate_contract_count := Z.of_nat (size contracts); duplicate_nft_count := Z.of_nat (size nfts) |})) (map_to_list st.2)
    = map intra_entry (map_to_list st.2)) by (apply map_ext; by intros [? [? ?]]). rewrite Hmap. clear Hmap.
  assert (Hempty : ∀ ms : gset NameMember, size (all_nfts s ms) = 0 → size (member_contracts ms) = 0 → scope_counts s ms = ScopeCounts_default).
  { intros ms H1 H2. unfold scope_counts. by rewrite H1, H2. }
  assert (Hzero : scope_counts s ∅ = {| duplicate_contract_count := 0; duplicate_nft_count := 0 |}) by reflexivity.
  split.
  - intros key Hd. rewrite merge_unique_contract_counts_lookup, intra_totals_lookup. destruct (Hcounts key Hd) as (_ & _ & Hc). rewrite Hc.
    unfold direct_members. specialize (Hintra (primary_chain key)). case_decide as Hk.
    + rewrite <- Hk in Hintra. destruct (decide (solana_intra key)) as [[_ Hs]|Hs].
      * rewrite Hs in Hintra. assert (Hown : own_nfts (scope_members hs key) = all_nfts s (scope_members hs key)).
        { apply own_nfts_all. intros m Hm Hn. apply (scope_members_chain hs key m Hhs Hm) in Hn. congruence. }
        rewrite Hown in Hintra. destruct (st.2 !! primary_chain key) as [[cs ns]|]; cbn in Hintra |- *; injection Hintra as H1 H2.
        -- subst cs ns. destruct (scope_counts_bound s Hok (scope_members hs key)) as [Hb1 Hb2].
           { intros m Hm. by apply (scope_members_chain hs key m). }
           rewrite Hzero. unfold saturating_merge, scope_counts. cbn [duplicate_contract_count duplicate_nft_count]. by rewrite !saturating_small by lia.
        -- symmetry. apply Hempty; [by rewrite <- H2|by rewrite <- H1].
      * assert (Hsol : solana s (primary_chain key) = false).
        { apply not_true_iff_false. intros Hs'. apply Hs. split; [by rewrite Hk|done]. }
        rewrite Hsol in Hintra. destruct (st.2 !! primary_chain key) as [[cs ns]|]; [|done]. cbn in Hintra |- *. injection Hintra as -> ->.
        destruct (scope_counts_bound s Hok (scope_members hs key)) as [Hb1 Hb2].
        { intros m Hm. by apply (scope_members_chain hs key m). }
        unfold saturating_merge, scope_counts. cbn [duplicate_contract_count duplicate_nft_count].
        change (size (∅ : gset nat)) with 0. rewrite !saturating_small by lia. by rewrite !Z.add_0_r.
    + case_decide as Hs; [|done]. symmetry. replace (scope_members hs key) with (∅ : gset NameMember); [done|].
      symmetry. apply elem_of_equiv_empty_L. intros m (h & Hh & Hin & _)%elem_of_scope_members. apply Hk.
      pose proof (proj1 (Forall_forall _ _) Hhs h Hh) as (c & Hc' & _). destruct (proj1 (in_scope_iff _ _ c Hc') Hin) as (_ & Hp & Hu).
      apply elem_of_uri_scopes in Hu. destruct key as [kk kp ks kd], Hs as [Hkind _]. cbn in *. subst kk kd. case_decide; [|naive_solver].
      unfold intra_key. congruence.
  - intros key Hd. rewrite <- (Hothers key Hd). cbn [counts merge_unique_contract_counts set_counts].
    assert (Hfold : ∀ kvs m, (∀ k v, (k, v) ∈ kvs → dimension k = Name) → foldl merge_total m kvs !! key = m !! key).
    { induction kvs as [|[k v] kvs IH]; intros m Hkvs; [done|]. cbn [foldl]. rewrite IH by (intros k' v' ?; apply (Hkvs k' v'); by right).
      unfold merge_total. cbn [fst]. rewrite lookup_insert_ne; [done|]. intros ->. by apply Hd, (Hkvs key v); left. }
    apply Hfold. intros k v Hin%elem_of_map_to_list. rewrite intra_totals_lookup in Hin. case_decide as Hk; [|done]. by rewrite Hk.
Qed.
End Emission.
