(* ===== verification/NameFacts.v ===== *)
(** The name stage finds exactly the duplicates of the store and counts each contract
    and NFT of them once per scope. *)

From Stdlib Require Import QArith Lqa.
From S2P Require Import Prelude Radix Text CanonicalJson Types Anchors SortedLists Stats.
From S2P Require Import Sampling UriChunks Entity EntityInvariant EntityView Outcome Float.
From S2P Require Import NameBounds NameIndex NameIndexFacts NameScore NameScoreFacts NameAtoms.
From S2P Require Import Name NameLogical NameCounts.

#[local] Open Scope nat_scope.
#[local] Opaque rnd.

(** ** Hits of one name *)

Lemma elem_of_later_pairs {A} (x y : A) l : (x, y) ∈ later_pairs l → x ∈ l ∧ y ∈ l.
Proof.
  induction l as [|z l IH]; cbn; [by intros ?%elem_of_nil|].
  intros [(w & [= -> ->] & ?)%list_elem_of_fmap|[? ?]%IH]%elem_of_app; set_solver.
Qed.

Lemma later_pairs_distinct {A B} (f : A → B) x y l : NoDup (f <$> l) → (x, y) ∈ later_pairs l → f x ≠ f y.
Proof.
  induction l as [|z l IH]; cbn; [by intros _ ?%elem_of_nil|]. rewrite NoDup_cons.
  intros [Hz Hnd] [(w & [= -> ->] & Hw)%list_elem_of_fmap|Hin]%elem_of_app; [|by apply IH].
  intros Heq. apply Hz. rewrite Heq. by apply list_elem_of_fmap_2.
Qed.

Lemma later_pairs_complete {A} (x y : A) l : x ∈ l → y ∈ l → x ≠ y → (x, y) ∈ later_pairs l ∨ (y, x) ∈ later_pairs l.
Proof.
  induction l as [|z l IH]; cbn; [by intros ?%elem_of_nil|]. rewrite !elem_of_app, !elem_of_cons.
  intros [->|Hx] [->|Hy] Hne; [done|left; left; by apply (list_elem_of_fmap_2 (pair z))|right; left; by apply (list_elem_of_fmap_2 (pair z))|].
  destruct (IH Hx Hy Hne); auto.
Qed.

Section Identical.
Context (n : CanonicalName).
Context (Hchains : NoDup (atom_chain_id <$> atoms n)) (Hmembers : Forall (λ a, members a ≠ []) (atoms n)).
Context (Hnd : NoDup (atoms n ≫= members)).

(** Another member has the same name on the peer chain. *)
Definition identical_hit (h : NameHit) : Prop :=
  ∃ ch m', name_member n ch (hit_member h) ∧ name_member n (hit_peer_chain h) m' ∧ hit_member h ≠ m'.

Lemma atom_members_NoDup a : a ∈ atoms n → NoDup (members a).
Proof using Hnd.
  intros (l1 & l2 & E)%list_elem_of_split. rewrite E, bind_app, bind_cons in Hnd. by apply NoDup_app in Hnd as (_ & _ & (? & _ & _)%NoDup_app).
Qed.

(** Members of two atoms differ. *)
Lemma atoms_disjoint a a' m : a ∈ atoms n → a' ∈ atoms n → m ∈ members a → m ∈ members a' → a = a'.
Proof using Hnd.
  clear Hchains Hmembers. induction (atoms n) as [|b l IH]; [by intros ?%elem_of_nil|]. rewrite bind_cons in Hnd. apply NoDup_app in Hnd as (_ & Hdisj & Hnd').
  rewrite !elem_of_cons. intros [->|Ha] [->|Ha'] Hm Hm'; [done| | |by apply IH].
  - exfalso. apply (Hdisj m Hm). apply list_elem_of_bind. by exists a'.
  - exfalso. apply (Hdisj m Hm'). apply list_elem_of_bind. by exists a.
Qed.

Lemma name_hits_spec hits h : h ∈ name_hits n hits ↔ identical_hit h ∨ h ∈ hits.
Proof using Hchains Hmembers Hnd.
  unfold name_hits. set (hits1 := foldl _ hits (atoms n)).
  assert (H1 : h ∈ hits1 ↔ (∃ a, a ∈ atoms n ∧ 2 ≤ length (members a) ∧ hit_member h ∈ members a ∧ hit_peer_chain h = atom_chain_id a) ∨ h ∈ hits).
  { subst hits1. generalize (atoms n). clear. intros l. revert hits. induction l as [|a l IH]; intros hits; cbn [foldl].
    - split; [by right|]. by intros [(a & ?%elem_of_nil & _)|].
    - rewrite IH. setoid_rewrite elem_of_cons. case_decide; rewrite ?elem_of_atom_hits; naive_solver. }
  assert (H2 : ∀ l hits, h ∈ foldl (λ hits '(left_, right_),
      record_atom_hits right_ (atom_chain_id left_) (record_atom_hits left_ (atom_chain_id right_) hits)) hits l ↔
    (∃ a b, (a, b) ∈ l ∧ (hit_member h ∈ members b ∧ hit_peer_chain h = atom_chain_id a ∨ hit_member h ∈ members a ∧ hit_peer_chain h = atom_chain_id b)) ∨ h ∈ hits).
  { clear. induction l as [|[a b] l IH]; intros hits; cbn [foldl].
    - split; [by right|]. by intros [(a & b & ?%elem_of_nil & _)|].
    - rewrite IH, !elem_of_atom_hits. setoid_rewrite elem_of_cons. naive_solver. }
  rewrite H2, H1. clear H1 H2 hits1. rewrite Forall_forall in Hmembers. split.
  - intros [(a & b & Hab & Hh)|[(a & Ha & Hlen & Hm & Hp)|?]]; [| |by right]; left.
    + pose proof (later_pairs_distinct _ _ _ _ Hchains Hab) as Hne. apply elem_of_later_pairs in Hab as [Ha Hb].
      assert (Hother : ∀ x y, x ∈ atoms n → y ∈ atoms n → x ≠ y → hit_member h ∈ members x → hit_peer_chain h = atom_chain_id y → identical_hit h).
      { intros x y Hx Hy Hxy Hm Hp. destruct (members y) as [|m' ms] eqn:Ey; [by destruct (Hmembers y)|].
        exists (atom_chain_id x), m'. split; [by exists x|]. split; [exists y; rewrite Ey; split_and!; [done|done|by left]|].
        intros <-. apply Hxy. apply (atoms_disjoint x y (hit_member h)); [done..|]. rewrite Ey. by left. }
      destruct Hh as [[Hm Hp]|[Hm Hp]]; [apply (Hother b a)|apply (Hother a b)]; try done; by intros ->.
    + pose proof (atom_members_NoDup a Ha) as Hnda. exists (atom_chain_id a). apply list_elem_of_split in Hm as (l1 & l2 & E).
      assert (Hm' : ∃ m', m' ∈ l1 ++ l2).
      { destruct (l1 ++ l2) as [|m' l] eqn:El; [|exists m'; by left]. apply app_eq_nil in El as [-> ->]. rewrite E in Hlen. cbn in Hlen. lia. }
      destruct Hm' as [m' Hm']. exists m'. rewrite E in Hnda. split; [exists a; rewrite E; set_solver|]. split; [exists a; rewrite E; set_solver|].
      intros <-. apply NoDup_app in Hnda as (_ & Hd & [Hn _]%NoDup_cons). apply elem_of_app in Hm' as [Hm'|Hm']; [|done]. apply (Hd _ Hm'). by left.
  - intros [(ch & m' & (a & Ha & <- & Hm) & (b & Hb & Hp & Hm') & Hne)|?]; [|by right; right].
    destruct (decide (atom_chain_id a = atom_chain_id b)) as [Heq|Hchain].
    + right. left. assert (b = a) as -> by by apply (NoDup_fmap_elem atom_chain_id (atoms n)). exists a. split; [done|]. split; [|done].
      destruct (members a) as [|x [|y ms]]; [by apply elem_of_nil in Hm| |cbn; lia].
      apply list_elem_of_singleton in Hm, Hm'. congruence.
    + left. destruct (later_pairs_complete a b (atoms n)) as [Hab|Hab]; [done|done|by intros ->|exists a, b; split; [done|by right]|exists b, a; split; [done|by left]].
Qed.
End Identical.

(** ** The parallel fold over the names *)

Section Folding.
Context `{Sha256} (retries : nat).
#[local] Existing Instance never_cancelled.

Definition exact_ok (w : ExactWorker) (ns : list CanonicalName) : Prop :=
  exact_samples w = sampler disabled ∧ ∀ h, h ∈ exact_hits w ↔ ∃ n, n ∈ ns ∧ identical_hit n h.

Definition name_wf (n : CanonicalName) : Prop :=
  NoDup (atom_chain_id <$> atoms n) ∧ Forall (λ a, members a ≠ []) (atoms n) ∧ NoDup (atoms n ≫= members).

Lemma exact_names_ok w ns l :
  exact_ok w ns → Forall (λ e : nat * CanonicalName, name_wf e.2) l →
  ∃ w', foldM (exact_name retries) w l = Some w' ∧ exact_ok w' (ns ++ (snd <$> l)).
Proof.
  revert w ns. induction l as [|[i n] l IH]; intros w ns [Hs Hh] Hl; cbn [foldM]; [exists w; by rewrite app_nil_r|].
  apply Forall_cons in Hl as [(H1 & H2 & H3) Hl]. 
  assert (exact_name retries w (i, n) = Some {| exact_hits := name_hits n (exact_hits w); exact_samples := sampler disabled |}) as ->
    by (unfold exact_name; by rewrite Hs).
  cbn [mbind option_bind].
  destruct (IH {| exact_hits := name_hits n (exact_hits w); exact_samples := sampler disabled |} (ns ++ [n])) as (w' & E & Hw'); [|done|].
  - split; [done|]. intros h. cbn. cbn in H1, H2, H3. rewrite name_hits_spec, Hh by done. set_solver.
  - exists w'. split; [exact E|]. rewrite <- app_assoc in Hw'. exact Hw'.
Qed.

Lemma fold_reduce_ok shape chunks_ :
  Forall (λ c : nat * list CanonicalName, Forall name_wf c.2) chunks_ →
  ∃ w, fold_reduce retries disabled shape chunks_ = Returns w ∧ exact_ok w (chunks_ ≫= snd).
Proof.
  revert chunks_. induction shape as [|k l IHl r IHr]; intros cs Hcs; cbn [fold_reduce].
  - assert (Hgen : ∀ w ns, exact_ok w ns → ∃ w', fold_outcome (exact_chunk retries) w cs = Returns w' ∧ exact_ok w' (ns ++ (cs ≫= snd))).
    { induction cs as [|c cs IH]; intros w ns Hw; cbn [fold_outcome]; [exists w; cbn; by rewrite app_nil_r|].
      apply Forall_cons in Hcs as [Hc Hcs].
      destruct (exact_names_ok w ns (imap (λ offset name, (c.1 * IDENTICAL_CHUNK + offset, name)) c.2) Hw) as (w1 & E1 & Hw1).
      { apply Forall_forall. intros e [i He]%list_elem_of_lookup_1. rewrite list_lookup_imap in He.
        apply fmap_Some in He as (n & Hn & ->). cbn. by eapply Forall_lookup_1. }
      assert (exact_chunk retries w c = Returns w1) as -> by (unfold exact_chunk; cbn [check check_cancelled_at never_cancelled mbind outcome_bind]; by rewrite E1).
      cbn [mbind outcome_bind]. destruct (IH Hcs w1 _ Hw1) as (w' & E & Hw'). exists w'. split; [exact E|].
      rewrite bind_cons, app_assoc. assert (Hsnd : snd <$> imap (λ offset name, (c.1 * IDENTICAL_CHUNK + offset, name)) c.2 = c.2).
      { rewrite fmap_imap. apply list_eq. intros i. rewrite list_lookup_imap. by destruct (c.2 !! i). }
      by rewrite Hsnd in Hw'. }
    destruct (Hgen (ExactWorker_new disabled) []) as (w & E & Hw); [|by exists w]. split; [done|]. intros h. cbn. split; [by intros ?%elem_of_empty|].
    by intros (n & ?%elem_of_nil & _).
  - destruct (IHl (take k cs)) as (w1 & -> & Hs1 & Hh1); [by apply Forall_take|].
    destruct (IHr (drop k cs)) as (w2 & -> & Hs2 & Hh2); [by apply Forall_drop|].
    unfold ExactWorker_merge. rewrite Hs1, Hs2, merge_disabled. cbn. eexists. split; [done|]. split; [done|]. intros h. cbn.
    rewrite elem_of_union, Hh1, Hh2.
    assert (cs ≫= snd = (take k cs ≫= snd) ++ (drop k cs ≫= snd)) as -> by by rewrite <- bind_app, take_drop. set_solver.
Qed.

(** ** The emission loop *)

Lemma emit_loop_quiet s st hits st' :
  foldM (emit_hit s) st hits = Some st' → ∃ c, emit_loop s st hits = Returns (st', c).
Proof.
  unfold emit_loop. intros E.
  assert (Hgen : ∀ k c, ∃ c', fold_outcome (λ st '(i, hit), check EmitHit i;; emit_step s st hit) (st, c) (imap (λ i h, (k + i, h)) hits) = Returns (st', c'));
    [|apply (Hgen 0)].
  revert st E. induction hits as [|h hits IH]; intros st E k c; cbn [foldM imap fold_outcome] in *; [injection E as ->; by exists c|].
  apply bind_Some in E as (st1 & E1 & E). 
  destruct (flush_progress_quiet Emit (c.1 + 1, c.2)%Z) as [c1 Ec].
  assert (emit_step s (st, c) h = Returns (st1, c1)) as Es by (unfold emit_step; cbn [fst snd]; rewrite E1; cbn [or_panic mbind outcome_bind]; by rewrite Ec).
  cbn [check check_cancelled_at never_cancelled mbind outcome_bind]. rewrite Es. cbn [mbind outcome_bind].
  destruct (IH st1 E (S k) c1) as [c' E']. exists c'. rewrite <- E'. f_equal. apply imap_ext. intros i x _. cbn. f_equal. lia.
Qed.
End Folding.

(** ** Duplicate names *)

Section Duplicates.
Context `{NameComparator} (s : EntityStore) (Hok : store_ok s) (pct : Q).

(** The order of the names: by length, then by text. *)
Definition text_compare (a b : str) : comparison :=
  then_with (Nat.compare (length a) (length b)) (str_compare a b).

(** The verifier is asked with the earlier text on the left. *)
Definition alike (a b : str) : bool :=
  match text_compare a b with
  | Lt => similar a b (score_cutoff pct)
  | _ => similar b a (score_cutoff pct)
  end.

(** Another member on the peer chain has the same name or an alike one. *)
Definition duplicate (m : NameMember) (peer : ChainId) : Prop :=
  ∃ t ch t' m', logical s t ch m ∧ logical s t' peer m' ∧ m ≠ m' ∧ (t = t' ∨ alike t t' = true).

Lemma text_compare_lt_gt a b : text_compare a b = Lt → text_compare b a = Gt.
Proof.
  unfold text_compare. rewrite (Nat.compare_antisym (length a) (length b)), (compare_antisym str_compare b a), then_with_opp. by intros ->.
Qed.

Context (names : list CanonicalName) (Hnames : atomized s names).

Lemma atomized_wf n : n ∈ names → name_wf n.
Proof using Hnames.
  intros Hn. destruct (proj1 (Forall_forall _ _) (atomized_atoms _ _ Hnames) n Hn) as (_ & Hnd & Hne). split; [done|]. split; [done|].
  pose proof (atomized_members _ _ Hnames) as Hall. apply list_elem_of_split in Hn as (l1 & l2 & ->). rewrite bind_app, bind_cons in Hall.
  by apply NoDup_app in Hall as (_ & _ & (? & _ & _)%NoDup_app).
Qed.

Lemma atomized_text n n' : n ∈ names → n' ∈ names → characters n = characters n' → n = n'.
Proof using Hnames. intros. by apply (NoDup_fmap_elem characters names); [apply (atomized_texts _ _ Hnames)|..]. Qed.

(** A member has one name. *)
Lemma atomized_member n n' ch ch' m : n ∈ names → n' ∈ names → name_member n ch m → name_member n' ch' m → n = n'.
Proof using Hnames.
  intros Hn Hn' (a & Ha & _ & Hm) (a' & Ha' & _ & Hm'). pose proof (atomized_members _ _ Hnames) as Hall.
  assert (Hin : ∀ x b, b ∈ atoms x → m ∈ members b → m ∈ atoms x ≫= members) by (intros x b ? ?; apply list_elem_of_bind; by exists b).
  apply (Hin n) in Hm; [|done]. apply (Hin n') in Hm'; [|done]. clear -Hall Hn Hn' Hm Hm'.
  induction names as [|x l IH]; [by apply elem_of_nil in Hn|]. rewrite bind_cons in Hall. apply NoDup_app in Hall as (_ & Hd & Hall).
  apply elem_of_cons in Hn as [->|Hn], Hn' as [->|Hn']; [done| | |by apply IH]; exfalso.
  - apply (Hd m Hm). apply list_elem_of_bind. by exists n'.
  - apply (Hd m Hm'). apply list_elem_of_bind. by exists n.
Qed.

Lemma name_logical n ch m : n ∈ names → name_member n ch m → logical s (characters n) ch m.
Proof using Hnames. intros Hn Hm. apply (atomized_logical _ _ Hnames). by exists n. Qed.

(** Names in order have ordered texts. *)
Lemma names_lt i j a b : i < j → names !! i = Some a → names !! j = Some b → text_compare (characters a) (characters b) = Lt.
Proof using Hnames.
  intros Hij Ha Hb. pose proof (StronglySorted_lookup _ names i j a b (atomized_sorted _ _ Hnames) Hij Ha Hb) as Hle.
  change (text_compare (characters a) (characters b) ≠ Gt) in Hle. destruct (text_compare (characters a) (characters b)) eqn:E; [|done|done].
  exfalso. unfold text_compare, then_with in E. destruct (Nat.compare _ _); [|done|done]. apply str_compare_eq in E.
  pose proof (atomized_text a b ltac:(by eapply list_elem_of_lookup_2) ltac:(by eapply list_elem_of_lookup_2) E) as ->.
  pose proof (NoDup_fmap_1 _ _ (atomized_texts _ _ Hnames)) as Hnd. assert (i = j) by (by eapply NoDup_lookup). lia.
Qed.

Lemma pair_hit_members a b h : a ∈ names → b ∈ names →
  pair_hit a b h ↔
  (∃ ch m', name_member a ch (hit_member h) ∧ name_member b (hit_peer_chain h) m') ∨
  (∃ ch m', name_member b ch (hit_member h) ∧ name_member a (hit_peer_chain h) m').
Proof using Hnames.
  intros Ha Hb. pose proof (proj1 (Forall_forall _ _) (proj1 (proj2 (atomized_wf a Ha)))) as Hma.
  pose proof (proj1 (Forall_forall _ _) (proj1 (proj2 (atomized_wf b Hb)))) as Hmb.
  assert (Hfirst : ∀ x, members x ≠ [] → ∃ m, m ∈ members x) by (intros x; destruct (members x) as [|m ms]; [done|exists m; by left]).
  unfold pair_hit, name_member. split.
  - intros (la & ra & Hla & Hra & [[Hm Hp]|[Hm Hp]]); [left|right].
    + destruct (Hfirst ra (Hmb ra Hra)) as [m' Hm']. exists (atom_chain_id la), m'. split; [by exists la|by exists ra].
    + destruct (Hfirst la (Hma la Hla)) as [m' Hm']. exists (atom_chain_id ra), m'. split; [by exists ra|by exists la].
  - intros [(ch & m' & (la & Hla & _ & Hm) & (ra & Hra & Hp & _))|(ch & m' & (ra & Hra & _ & Hm) & (la & Hla & Hp & _))]; exists la, ra; split_and!; auto.
Qed.

(** The identical names and the accepted pairs are the duplicates. *)
Lemma hits_duplicate h :
  (∃ n, n ∈ names ∧ identical_hit n h) ∨ (∃ i j, i < j ∧ accepted names pct i j h) ↔ duplicate (hit_member h) (hit_peer_chain h).
Proof using Hnames.
  assert (Hdiff : ∀ a b ch m m' peer, a ∈ names → b ∈ names → characters a ≠ characters b → name_member a ch m → name_member b peer m' → m ≠ m').
  { intros a b ch m m' peer Ha Hb Hne Hm Hm' <-. apply Hne. by rewrite (atomized_member a b ch peer m). }
  split.
  - intros [(n & Hn & ch & m' & Hm & Hm' & Hne)|(i & j & Hij & a & b & Ha & Hb & Hsim & Hhit)].
    + exists (characters n), ch, (characters n), m'. split; [by apply name_logical|]. split; [by apply name_logical|]. split; [done|by left].
    + pose proof (names_lt i j a b Hij Ha Hb) as Hlt. apply list_elem_of_lookup_2 in Ha, Hb.
      assert (Hne : characters a ≠ characters b) by (intros Heq; rewrite Heq in Hlt; unfold text_compare in Hlt;
        by rewrite Nat.compare_refl, (compare_refl str_compare) in Hlt).
      apply pair_hit_members in Hhit as [(ch & m' & Hm & Hm')|(ch & m' & Hm & Hm')]; [| |done|done].
      * exists (characters a), ch, (characters b), m'. split; [by apply name_logical|]. split; [by apply name_logical|].
        split; [by eapply (Hdiff a b)|right]. unfold alike. by rewrite Hlt.
      * exists (characters b), ch, (characters a), m'. split; [by apply name_logical|]. split; [by apply name_logical|].
        split; [eapply (Hdiff b a); [..|exact Hm|exact Hm']; done|right]. unfold alike. by rewrite (text_compare_lt_gt _ _ Hlt).
  - intros (t & ch & t' & m' & Hm & Hm' & Hne & Halike).
    apply (atomized_logical _ _ Hnames) in Hm as (n & Hn & <- & Hm), Hm' as (n' & Hn' & <- & Hm').
    destruct (decide (characters n = characters n')) as [Heq|Hdif].
    { left. assert (n' = n) as -> by (symmetry; by apply atomized_text). exists n. split; [done|]. by exists ch, m'. }
    right. destruct Halike as [?|Halike]; [done|]. pose proof Hn as [i Hi]%list_elem_of_lookup_1. pose proof Hn' as [j Hj]%list_elem_of_lookup_1.
    destruct (decide (i < j)) as [Hij|Hge].
    + exists i, j. split; [done|]. exists n, n'. pose proof (names_lt i j n n' Hij Hi Hj) as Hlt. unfold alike in Halike. rewrite Hlt in Halike.
      split_and!; [done..|]. apply pair_hit_members; [done|done|]. left. by exists ch, m'.
    + assert (j < i) as Hji. { destruct (decide (i = j)) as [->|]; [|lia]. congruence. }
      exists j, i. split; [done|]. exists n', n. pose proof (names_lt j i n' n Hji Hj Hi) as Hlt. unfold alike in Halike.
      rewrite (text_compare_lt_gt _ _ Hlt) in Halike. split_and!; [done..|]. apply pair_hit_members; [done|done|]. right. by exists ch, m'.
Qed.

Lemma duplicate_ok m peer : duplicate m peer → member_ok s m.
Proof using Hok.
  intros (t & ch & t' & m' & Hl & _). destruct Hl as [k c t Hc Hs _|n c id t Hin Hc Hs _]; exists c; (split; [done|]); unfold solana; rewrite Hs; [done|].
  split; [done|]. exists n. apply list_elem_of_lookup_1 in Hin as [i Hi]. cbn. by rewrite (nft_ok_id _ _ _ _ (ok_nfts s Hok i n Hi)).
Qed.
End Duplicates.

(** ** The stage *)

(** Nothing is counted for names yet. *)
Definition fresh_names (acc : SummaryAccumulator) : Prop :=
  ∀ key, dimension key = Name →
    counted_contracts acc !! key = None ∧ counted_nfts acc !! key = None ∧ counts acc !! key = None.

(** A member counts in a scope. *)
Definition counts_in `{NameComparator} (s : EntityStore) (pct : Q) (key : ScopeKey) (m : NameMember) : Prop :=
  ∃ peer, duplicate s pct m peer ∧ in_scope s {| hit_member := m; hit_peer_chain := peer |} key.

(** The counters are those of the duplicates. *)
Definition names_counted `{NameComparator} (s : EntityStore) (pct : Q) (acc acc' : SummaryAccumulator) : Prop :=
  (∀ key, dimension key = Name → ∃ ms : gset NameMember, (∀ m, m ∈ ms ↔ counts_in s pct key m) ∧
    or_default ScopeCounts_default (counts acc') key = scope_counts s ms) ∧
  other_dimensions acc acc'.

Section Stage.
Context {comparator : NameComparator} `{!JaroWinkler} `{Sha256} `{HashOrder} `{UnstableSort} `{WriteSchedule Z} `{WriteSchedule (Z * Z)} `{WriteSchedule (Z * Z * Z)}.
Context (retries threads : nat) (s : EntityStore) (Hok : store_ok s) (Hchars : Forall chars_ok (strings s)).
#[local] Existing Instance never_cancelled.

Lemma fresh_emitted acc : fresh_names acc → emitted s acc [] (acc, ∅).
Proof.
  intros Hfresh. split; cbn [fst snd].
  - intros key Hd. destruct (Hfresh key Hd) as (Hf1 & Hf2 & Hf3). unfold or_default. rewrite Hf1, Hf2, Hf3.
    assert (direct_members s [] key = ∅) as -> by (unfold direct_members; by case_decide). done.
  - done.
  - intros ch. unfold IntraNftHits. rewrite lookup_empty. by destruct (solana s ch).
Qed.

Lemma elem_of_hash_order (hits : gset NameHit) h : h ∈ hash_order hits ↔ h ∈ hits.
Proof. by rewrite hash_order_perm, elem_of_elements. Qed.

Lemma emit_identical_quiet shape names acc :
  fresh_names acc → atomized s names →
  ∃ st hs, emit_identical retries s disabled shape names (acc, ∅) = Returns (st, sampler disabled) ∧ emitted s acc hs st ∧
    Forall (hit_ok s) hs ∧ ∀ h, h ∈ hs ↔ ∃ n, n ∈ names ∧ identical_hit n h.
Proof using Hok comparator.
  intros Hfresh Hnames. unfold emit_identical.
  assert (Hsnd : imap pair (chunks IDENTICAL_CHUNK names) ≫= snd = names).
  { rewrite <- (chunks_concat IDENTICAL_CHUNK names) at 2 by (unfold IDENTICAL_CHUNK; lia).
    rewrite <- (imap_pair_snd (chunks IDENTICAL_CHUNK names)) at 2. generalize (imap pair (chunks IDENTICAL_CHUNK names)). intros l.
    induction l as [|c l IH]; [done|]. cbn. by f_equal. }
  destruct (fold_reduce_ok retries shape (imap pair (chunks IDENTICAL_CHUNK names))) as (w & -> & Hs & Hh).
  { apply Forall_forall. intros c Hc. apply Forall_forall. intros n Hn. apply (atomized_wf s names Hnames).
    rewrite <- Hsnd. apply list_elem_of_bind. by exists c. }
  cbn [mbind outcome_bind]. rewrite Hsnd in Hh.
  assert (Hhits : ∀ h, h ∈ hash_order (exact_hits w) ↔ ∃ n, n ∈ names ∧ identical_hit n h) by (intros h; by rewrite elem_of_hash_order).
  assert (Hall : Forall (hit_ok s) (hash_order (exact_hits w))).
  { apply Forall_forall. intros h Hin. apply (duplicate_ok s Hok 0%Q _ (hit_peer_chain h)), (hits_duplicate s 0%Q names Hnames). left. by apply Hhits. }
  destruct (emit_hits_spec s Hok acc [] (acc, ∅) (hash_order (exact_hits w)) (fresh_emitted acc Hfresh)) as (st & -> & Hst); [constructor|done|].
  cbn [or_panic mbind outcome_bind]. rewrite Hs. exists st, (hash_order (exact_hits w)). done.
Qed.

Lemma percent_range threshold : (0 <= threshold)%Q → (threshold <= 1)%Q → (0 <= fmul threshold 100 /\ fmul threshold 100 <= 100)%Q.
Proof.
  intros Hlo Hhi. split; [apply rnd_nonneg|]. apply (rnd_le_Z _ 100); [lia|]. change (inject_Z 100) with (100 # 1)%Q. lra.
Qed.

(** All hits emitted, the counters are right. *)
Lemma emitted_counted pct acc hs st :
  emitted s acc hs st → Forall (hit_ok s) hs → (∀ h, h ∈ hs ↔ duplicate s pct (hit_member h) (hit_peer_chain h)) →
  names_counted s pct acc (merge_into st.2 st.1).
Proof using Hok.
  intros Hst Hhs Hin. destruct (merge_into_spec s Hok acc hs st Hst Hhs) as [Hcounts Hothers]. split; [|done].
  intros key Hd. exists (scope_members s hs key). split; [|by apply Hcounts]. intros m. rewrite elem_of_scope_members. split.
  - intros (h & Hh & Hscope & <-). exists (hit_peer_chain h). apply Hin in Hh. destruct h. done.
  - intros (peer & Hdup & Hscope). exists {| hit_member := m; hit_peer_chain := peer |}. split; [by apply Hin|done].
Qed.

Lemma run_name_spec sched threshold acc :
  (0 <= threshold)%Q → (threshold <= 1)%Q → fresh_names acc →
  match run_name retries threads s sched (F64 threshold) acc with
  | Returns acc' => names_counted s (fmul threshold 100) acc acc'
  | Fails e => e = InvalidInput "name" ∧ ∃ names, atomized s names ∧ too_many_names names
  | Panics => False
  end.
Proof using All.
  intros Ht0 Ht1 Hfresh. destruct (percent_range threshold Ht0 Ht1) as [Hp0 Hp1]. unfold run_name, run_name_internal.
  rewrite (proj2 (Qle_bool_iff 0 threshold) Ht0), (proj2 (Qle_bool_iff threshold 1) Ht1). cbn [andb negb].
  destruct (atomize_spec s Hok Hchars threads (collect_shape sched)) as (names & -> & Hnames). cbn [mbind outcome_bind].
  destruct (emit_identical_quiet (identical_shape sched) names acc Hfresh Hnames) as ([acc1 intra1] & hs & -> & Hst & Hhs & Hin).
  cbn [mbind outcome_bind].
  set (pct := fmul threshold 100) in *.
  case_decide as Hfew.
  { cbn [mbind outcome_bind]. apply (emitted_counted pct acc hs (acc1, intra1) Hst Hhs). intros h. rewrite Hin, <- (hits_duplicate s pct names Hnames).
    split; [by left|]. intros [?|(i & j & Hij & a & b & _ & Hb%lookup_lt_Some & _)]; [done|lia]. }
  pose proof (ResidentNameIndex_build_ok threads names (names_chars _ (atomized_ok _ _ Hnames))) as Hindex.
  destruct (ResidentNameIndex_build threads names) as [index|e|]; [|destruct Hindex as [-> ?]; split; [done|by exists names]|done].
  cbn [mbind outcome_bind].
  destruct (score_exhaustive retries threads names index pct (score_taker sched) (score_shape sched) (atomized_ok _ _ Hnames) Hindex Hp0 Hp1) as (hits & -> & Hhits).
  cbn [mbind outcome_bind]. rewrite merge_disabled. cbn [or_panic mbind outcome_bind].
  assert (Hmore : Forall (hit_ok s) (hash_order hits)).
  { apply Forall_forall. intros h Hh. apply (duplicate_ok s Hok pct _ (hit_peer_chain h)), (hits_duplicate s pct names Hnames).
    right. apply Hhits. by apply elem_of_hash_order. }
  destruct (emit_hits_spec s Hok acc hs (acc1, intra1) (hash_order hits) Hst Hhs Hmore) as ([acc2 intra2] & E & Hst2).
  destruct (emit_loop_quiet s _ _ _ E) as [c ->]. cbn [mbind outcome_bind].
  apply (emitted_counted pct acc (hs ++ hash_order hits) (acc2, intra2) Hst2); [by apply Forall_app|].
  intros h. rewrite elem_of_app, elem_of_hash_order, Hin, Hhits. apply (hits_duplicate s pct names Hnames).
Qed.
End Stage.

(** ** Properties *)

(** C10: The name stage counts the duplicates of the store.  After it, the counters of
    every scope of the name dimension are the number of distinct contracts, and of
    distinct NFTs they stand for, that have another member on the peer chain with the
    same name or one that the verifier accepts at the threshold; no counter overflows
    and other dimensions are untouched; for any threads, schedules and hash orders.
    The stage never panics, and fails only when 32 bits do not count the names. *)
Theorem run_name_counts `{JaroWinkler} `{Sha256} `{HashOrder} `{UnstableSort} `{WriteSchedule Z} `{WriteSchedule (Z * Z)}
    `{WriteSchedule (Z * Z * Z)} (retries threads : nat) (s : EntityStore) (sched : Schedule) (threshold : Q) (acc : SummaryAccumulator) :
  store_ok s → Forall chars_ok (strings s) → (0 <= threshold)%Q → (threshold <= 1)%Q → fresh_names acc →
  match @run_name never_cancelled _ _ _ _ _ _ _ retries threads s sched (F64 threshold) acc with
  | Returns acc' => names_counted s (fmul threshold 100) acc acc'
  | Fails e => e = InvalidInput "name" ∧ ∃ names, atomized s names ∧ too_many_names names
  | Panics => False
  end.
Proof. intros Hok Hchars. by apply run_name_spec. Qed.

(** *** Example *)

Definition sequential : Schedule :=
  {| collect_shape := Fold; identical_shape := Fold; score_shape := Fold; score_taker := id |}.

Definition example_run : outcome SummaryAccumulator :=
  @run_name never_cancelled stable_sort _ _ _ _ subset_comparator ones_sha 1 4 named_store sequential (F64 (9 # 10)) SummaryAccumulator_default.

Definition key_of (k : ScopeKind) (primary : ChainId) (secondary : option ChainId) : ScopeKey :=
  {| kind := k; primary_chain := primary; secondary_chain := secondary; dimension := Name |}.

Lemma example_run_computed :
  match example_run with
  | Returns acc =>
      bool_decide (map (λ key, default ScopeCounts_default (counts acc !! key))
        [key_of CrossChainSummary 0 None; key_of IntraChain 1 None; key_of ChainMatrix 1 (Some 2); key_of IntraChain 2 None] =
        [{| duplicate_contract_count := 1; duplicate_nft_count := 3 |}; {| duplicate_contract_count := 2; duplicate_nft_count := 2 |};
         {| duplicate_contract_count := 2; duplicate_nft_count := 2 |}; {| duplicate_contract_count := 1; duplicate_nft_count := 2 |}])
  | _ => false
  end = true.
Proof. vm_compute. reflexivity. Qed.

Lemma run_name_counts_witness :
  match example_run with
  | Returns acc => names_counted (H := subset_comparator) named_store (fmul (9 # 10) 100) SummaryAccumulator_default acc ∧
      counts acc !! key_of IntraChain 2 None = Some {| duplicate_contract_count := 1; duplicate_nft_count := 2 |}
  | _ => False
  end.
Proof.
  pose proof (@run_name_counts subset_comparator subset_jaro_winkler ones_sha element_order stable_sort _ _ _ 1 4 named_store sequential (9 # 10)
    SummaryAccumulator_default named_store_ok named_store_chars ltac:(discriminate) ltac:(discriminate)) as Hrun.
  fold example_run in Hrun. generalize example_run_computed. revert Hrun. generalize example_run.
  intros [acc|e|] Hrun Hc; [|discriminate..]. split; [apply Hrun; by intros key|].
  apply bool_decide_eq_true in Hc. injection Hc as _ _ _ Hc. revert Hc. destruct (counts acc !! key_of IntraChain 2 None); [|discriminate].
  intros [= ->]. reflexivity.
Defined.
