(* ===== verification/Events.v ===== *)
(** The data of the candidate analysis ([analysis/src/model/]): chains and keys,
    normalized events, and the selections of NFTs that a match covers. *)

From S2P Require Import Prelude Text CanonicalJson Anchors SortedLists.

(** ** Identity *)

Inductive ChainId := Base | Ethereum | Polygon | Solana.
#[export] Instance ChainId_eq_dec : EqDecision ChainId.
Proof. solve_decision. Defined.

Definition ordinal (c : ChainId) : nat :=
  match c with Base => 0 | Ethereum => 1 | Polygon => 2 | Solana => 3 end.

#[export] Instance ChainId_countable : Countable ChainId.
Proof.
  refine (inj_countable ordinal (λ n, [Base; Ethereum; Polygon; Solana] !! n) _). by intros [].
Defined.

Definition chain_str (c : ChainId) : str :=
  lit (match c with Base => "base" | Ethereum => "ethereum" | Polygon => "polygon" | Solana => "solana" end).

Definition is_evm (c : ChainId) : bool := match c with Solana => false | _ => true end.

(** [ChainId::from_str]; the text of the error is dropped. *)
Definition chain_from_str (value : str) : option ChainId :=
  let value := trim value in
  if eq_ignore_ascii_case value (lit "base") then Some Base else
  if eq_ignore_ascii_case value (lit "ethereum") || eq_ignore_ascii_case value (lit "eth") then Some Ethereum else
  if eq_ignore_ascii_case value (lit "polygon") || eq_ignore_ascii_case value (lit "matic") then Some Polygon else
  if eq_ignore_ascii_case value (lit "solana") || eq_ignore_ascii_case value (lit "sol") then Some Solana else None.

Record ContractKey := { key_chain : ChainId; key_address : str }.
Record NftKey := { nft_chain : ChainId; nft_contract : str; nft_token : str }.

#[export] Instance ContractKey_eq_dec : EqDecision ContractKey.
Proof. solve_decision. Defined.
#[export] Instance NftKey_eq_dec : EqDecision NftKey.
Proof. solve_decision. Defined.
#[export] Instance NftKey_countable : Countable NftKey.
Proof.
  refine (inj_countable' (λ k, (nft_chain k, nft_contract k, nft_token k))
    (λ '(c, a, t), {| nft_chain := c; nft_contract := a; nft_token := t |}) _).
  by intros [].
Defined.

Definition contract_of (k : NftKey) : ContractKey := {| key_chain := nft_chain k; key_address := nft_contract k |}.

(** The derived orders. *)
Definition chain_compare (a b : ChainId) : comparison := Nat.compare (ordinal a) (ordinal b).
Definition contract_key_compare (a b : ContractKey) : comparison :=
  then_with (chain_compare (key_chain a) (key_chain b)) (str_compare (key_address a) (key_address b)).
Definition nft_key_compare (a b : NftKey) : comparison :=
  then_with (chain_compare (nft_chain a) (nft_chain b))
    (then_with (str_compare (nft_contract a) (nft_contract b)) (str_compare (nft_token a) (nft_token b))).

(** [stable_mix], on 32-bit words. *)
Definition stable_mix (value : Z) : Z :=
  let value := Z.lxor value (Z.shiftr value 16) in
  let value := ((value * 0x7feb352d) mod 2 ^ 32)%Z in
  let value := Z.lxor value (Z.shiftr value 15) in
  let value := ((value * 0x846ca68b) mod 2 ^ 32)%Z in
  Z.lxor value (Z.shiftr value 16).

Definition owner_shard (value shard_count : Z) : Z := Z.land (stable_mix value) (shard_count - 1).

(** ** Events *)

Inductive EventKind := Deploy | Mint | Transfer | Sale | Listing | Funding | Withdrawal | Cashout.
#[export] Instance EventKind_eq_dec : EqDecision EventKind.
Proof. solve_decision. Defined.

Inductive ValueChannel :=
  | Deployment | MintPayment | TransferChannel | SalePayment | RoyaltyFee | ListingChannel | FundingChannel
  | WithdrawalChannel | CashoutHop | ExitPayment.
#[export] Instance ValueChannel_eq_dec : EqDecision ValueChannel.
Proof. solve_decision. Defined.

Definition event_kind_str (k : EventKind) : str :=
  lit (match k with
       | Deploy => "deploy" | Mint => "mint" | Transfer => "transfer" | Sale => "sale" | Listing => "listing"
       | Funding => "funding" | Withdrawal => "withdrawal" | Cashout => "cashout"
       end).

Definition default_channel (k : EventKind) : ValueChannel :=
  match k with
  | Deploy => Deployment
  | Mint => MintPayment
  | Transfer => TransferChannel
  | Sale => SalePayment
  | Listing => ListingChannel
  | Funding => FundingChannel
  | Withdrawal => WithdrawalChannel
  | Cashout => CashoutHop
  end.

Definition compatible_with (c : ValueChannel) (k : EventKind) : bool :=
  match k, c with
  | Deploy, Deployment | Mint, MintPayment | Transfer, TransferChannel | Sale, SalePayment | Sale, RoyaltyFee
  | Listing, ListingChannel | Funding, FundingChannel | Withdrawal, WithdrawalChannel | Withdrawal, ExitPayment
  | Cashout, CashoutHop | Cashout, ExitPayment => true
  | _, _ => false
  end.

Record NormalizedEvent := {
  chain : ChainId;
  tx_id : str;
  event_index : Z;
  timestamp : option Z;
  block_number : option Z;
  kind : EventKind;
  channel : option ValueChannel;
  from : option str;
  to : option str;
  fee_payer : option str;
  payment_payer : option str;
  payment_recipient : option str;
  nft : option NftKey;
  native_amount : option Z;
  usd_micros : option Z;
  gas_native : option Z;
  gas_usd_micros : option Z;
  marketplace_fee_native : option Z;
  marketplace_fee_usd_micros : option Z;
}.
#[export] Instance NormalizedEvent_eq_dec : EqDecision NormalizedEvent.
Proof. solve_decision. Defined.

Definition value_channel (e : NormalizedEvent) : ValueChannel :=
  match channel e with Some c => c | None => default_channel (kind e) end.

Definition is_nft_sale (e : NormalizedEvent) : bool :=
  match kind e, value_channel e with Sale, SalePayment => true | _, _ => false end.

Definition is_nft_propagation (e : NormalizedEvent) : bool :=
  match kind e with Mint | Transfer => true | _ => false end || is_nft_sale e.

(** A payment: [native_amount.unwrap_or(0) > 0 || usd_micros.unwrap_or(0) > 0]. *)
Definition is_paid (e : NormalizedEvent) : bool :=
  (0 <? default 0 (native_amount e))%Z || (0 <? default 0 (usd_micros e))%Z.

(** [i128::saturating_add] *)
Definition i128_MAX : Z := 2 ^ 127 - 1.
Definition i128_MIN : Z := - 2 ^ 127.
Definition saturating_add128 (a b : Z) : Z := Z.max i128_MIN (Z.min (a + b) i128_MAX).

(** [i64::checked_sub] *)
Definition checked_sub64 (a b : Z) : option Z :=
  if decide (- 2 ^ 63 ≤ a - b < 2 ^ 63)%Z then Some (a - b)%Z else None.

(** ** Selections *)

Inductive NftSelection :=
  | AllInContract (contract : ContractKey) (nft_count : Z)
  | Explicit (nfts : list NftKey).

Definition declared_count (s : NftSelection) : Z :=
  match s with AllInContract _ n => n | Explicit nfts => Z.of_nat (length nfts) end.

Definition normalize_selection (s : NftSelection) : NftSelection :=
  match s with
  | AllInContract _ _ => s
  | Explicit nfts => Explicit (sort_dedup nft_key_compare nfts)
  end.

Definition union_assign (s other : NftSelection) : NftSelection :=
  match s, other with
  | AllInContract _ _, _ => s
  | _, AllInContract _ _ => other
  | Explicit nfts, Explicit right_ => Explicit (nfts ++ right_)
  end.
