(* ===== verification/Graph.v ===== *)
(** The propagation graph of a candidate's events ([analysis/propagation.rs]) and its
    strongly connected components: [PropagationGraph], and Tarjan's algorithm with an
    explicit stack of frames. [None] is a panic. *)

From S2P Require Import Prelude Text CanonicalJson Anchors SortedLists Events.

(** ** The graph *)

Record PropagationGraph := { addresses : list str; offsets : list nat; edges : list nat }.

(** [collect] of the set of addresses, sorted. *)
Definition event_endpoints (event : NormalizedEvent) : list str := option_list (from event) ++ option_list (to event).

Definition sorted_addresses (events : list NormalizedEvent) : list str :=
  let unique_addresses : gset str := list_to_set (events ≫= event_endpoints) in
  sort_dedup str_compare (elements unique_addresses).

(** The ids of an event's edge: [by_address[..]] panics on an unknown address. *)
Definition push_pair (by_address : gmap str nat) (pairs : list (nat * nat)) (event : NormalizedEvent) : option (list (nat * nat)) :=
  match from event, to event with
  | Some from, Some to =>
      from_id ← by_address !! from;
      to_id ← by_address !! to;
      Some (pairs ++ [(from_id, to_id)])
  | _, _ => Some pairs
  end.

Definition pair_compare (a b : nat * nat) : comparison :=
  then_with (Nat.compare (a.1) (b.1)) (Nat.compare (a.2) (b.2)).

Definition count_edge (offsets : list nat) (pair : nat * nat) : option (list nat) :=
  count ← offsets !! S pair.1;
  Some (<[S pair.1 := S count]> offsets).

Definition sum_offset (offsets : list nat) (vertex : nat) : option (list nat) :=
  count ← offsets !! vertex;
  next ← offsets !! S vertex;
  Some (<[S vertex := next + count]> offsets).

Definition build_filtered (events : list NormalizedEvent) (include : NormalizedEvent → bool) : option PropagationGraph :=
  let events := filter (λ event, include event = true) events in
  let addresses := sorted_addresses events in
  let by_address : gmap str nat := list_to_map (zip addresses (seq 0 (length addresses))) in
  pairs ← foldM (push_pair by_address) [] events;
  let pairs := sort_dedup pair_compare pairs in
  offsets ← foldM count_edge (replicate (S (length addresses)) 0) pairs;
  offsets ← foldM sum_offset offsets (seq 0 (length addresses));
  Some {| addresses := addresses; offsets := offsets; edges := snd <$> pairs |}.

Definition build (events : list NormalizedEvent) : option PropagationGraph := build_filtered events (λ _, true).

(** ** Tarjan's algorithm *)

(** The stack is kept top first. *)
Record Tarjan := {
  next_index : nat;
  indices : list (option nat);
  lowlink : list nat;
  stack : list nat;
  on_stack : list bool;
  components : list (list nat);
}.

(** [active] are the frames below and including the current one, innermost first. *)
Record DfsFrame := { vertex : nat; next_edge : nat; parent : option nat }.

Section Tarjan.
Context (graph : PropagationGraph).

Definition Tarjan_new : Tarjan :=
  let count := length (addresses graph) in
  {| next_index := 0; indices := replicate count None; lowlink := replicate count 0; stack := [];
     on_stack := replicate count false; components := [] |}.

Definition discover (s : Tarjan) (vertex : nat) : option Tarjan :=
  let index := next_index s in
  indices' ← store (indices s) vertex (Some index);
  lowlink' ← store (lowlink s) vertex index;
  on_stack' ← store (on_stack s) vertex true;
  Some {| next_index := S index; indices := indices'; lowlink := lowlink'; stack := vertex :: stack s;
          on_stack := on_stack'; components := components s |}.

(** [self.lowlink[vertex] = self.lowlink[vertex].min(value)] *)
Definition lower_link (s : Tarjan) (vertex value : nat) : option Tarjan :=
  link ← lowlink s !! vertex;
  Some {| next_index := next_index s; indices := indices s; lowlink := <[vertex := Nat.min link value]> (lowlink s);
          stack := stack s; on_stack := on_stack s; components := components s |}.

(** The loop that pops a component; the component is in popping order. *)
Fixpoint pop_component (root : nat) (stack : list nat) (on_stack : list bool) (component : list nat)
  : option (list nat * list bool * list nat) :=
  match stack with
  | [] => None
  | member :: stack =>
      on_stack ← store on_stack member false;
      let component := component ++ [member] in
      if decide (member = root) then Some (stack, on_stack, component) else pop_component root stack on_stack component
  end.

Definition close_component (s : Tarjan) (root : nat) : option Tarjan :=
  '(stack, on_stack, component) ← pop_component root (stack s) (on_stack s) [];
  Some {| next_index := next_index s; indices := indices s; lowlink := lowlink s; stack := stack; on_stack := on_stack;
          components := components s ++ [sort_by Nat.compare component] |}.

(** An edge of the current frame. *)
Definition follow_edge (s : Tarjan) (frame : DfsFrame) (rest : list DfsFrame) : option (Tarjan * list DfsFrame) :=
  let vertex := vertex frame in
  next ← edges graph !! next_edge frame;
  let frame := {| vertex := vertex; next_edge := S (next_edge frame); parent := parent frame |} in
  index ← indices s !! next;
  match index with
  | None =>
      s ← discover s next;
      first ← offsets graph !! next;
      Some (s, {| vertex := next; next_edge := first; parent := Some vertex |} :: frame :: rest)
  | Some index =>
      active ← on_stack s !! next;
      if (active : bool) then s ← lower_link s vertex index; Some (s, frame :: rest) else Some (s, frame :: rest)
  end.

(** A frame without edges left is popped. *)
Definition complete_vertex (s : Tarjan) (completed : DfsFrame) : option Tarjan :=
  link ← lowlink s !! vertex completed;
  s ← (match parent completed with Some parent => lower_link s parent link | None => Some s end);
  index ← mjoin (indices s !! vertex completed);
  link ← lowlink s !! vertex completed;
  if decide (link = index) then close_component s (vertex completed) else Some s.

Definition visit_step (s : Tarjan) (frame : DfsFrame) (rest : list DfsFrame) : option (Tarjan * list DfsFrame) :=
  last ← offsets graph !! S (vertex frame);
  if decide (next_edge frame < last) then follow_edge s frame rest
  else s ← complete_vertex s frame; Some (s, rest).

(** [while let Some(frame) = frames.last_mut()] *)
Fixpoint visit_loop (fuel : nat) (s : Tarjan) (frames : list DfsFrame) : option Tarjan :=
  match frames with
  | [] => Some s
  | frame :: rest =>
      match fuel with
      | 0 => None
      | S fuel => '(s, frames) ← visit_step s frame rest; visit_loop fuel s frames
      end
  end.

(** Every vertex is discovered once and every edge followed once. *)
Definition visit_fuel : nat := length (addresses graph) + length (edges graph).

Definition visit_iterative (s : Tarjan) (start : nat) : option Tarjan :=
  s ← discover s start;
  first ← offsets graph !! start;
  visit_loop visit_fuel s [{| vertex := start; next_edge := first; parent := None |}].

Definition visit_undiscovered (s : Tarjan) (vertex : nat) : option Tarjan :=
  index ← indices s !! vertex;
  match index with None => visit_iterative s vertex | Some _ => Some s end.

Definition strongly_connected_components : option (list (list nat)) :=
  s ← foldM visit_undiscovered Tarjan_new (seq 0 (length (addresses graph)));
  Some (components s).
End Tarjan.

Definition deep_cycle (count : nat) : PropagationGraph :=
  {| addresses := replicate count []; offsets := seq 0 (S count); edges := seq 1 (count - 1) ++ [0] |}.

Example deep_cycle_is_one_component : strongly_connected_components (deep_cycle 60) = Some [seq 0 60].
Proof. vm_compute. reflexivity. Qed.
