(* ===== verification/TarjanFacts.v ===== *)
(** Tarjan's algorithm on the propagation graph returns the strongly connected
    components: its state invariant, preserved by discovering a vertex, following an
    edge and completing a vertex, and its termination measure. *)

From S2P Require Import Prelude Text CanonicalJson Anchors SortedLists Events Graph.

Lemma sum_list_with_ext {A} (F G : A → nat) l : (∀ x, x ∈ l → F x = G x) → sum_list_with F l = sum_list_with G l.
Proof.
  induction l as [|x l IH]; intros HE; [done|]. simpl. rewrite (HE x) by (by left). rewrite IH; [done|].
  intros y Hy. apply HE. by right.
Qed.

Lemma store_inv {A} (l l' : list A) i x : store l i x = Some l' → i < length l ∧ l' = <[i := x]> l.
Proof. unfold store. case_decide; [|done]. by intros [= <-]. Qed.

Ltac inv_store :=
  repeat match goal with H : store _ _ _ = Some _ |- _ => apply store_inv in H as [? ->] end.

Section TarjanFacts.
Context (graph : PropagationGraph).
Abbreviation n := (length (addresses graph)).
Implicit Types (s : Tarjan) (f : DfsFrame) (fs rest : list DfsFrame) (x y v w : nat).

(** ** Graphs *)

Definition offset v : nat := default 0 (offsets graph !! v).

(** The edge lists of a graph: [offsets] delimits a run of [edges] per vertex. *)
Record graph_ok : Prop := {
  offsets_length : length (offsets graph) = S n;
  offsets_first : offset 0 = 0;
  offsets_monotone v : v < n → offset v ≤ offset (S v);
  offsets_last : offset n = length (edges graph);
  edges_range : Forall (λ w, w < n) (edges graph);
}.

Definition edge v w : Prop := ∃ i, v < n ∧ offset v ≤ i < offset (S v) ∧ edges graph !! i = Some w.
Abbreviation reaches := (rtc edge).

Context (Hok : graph_ok).

Lemma offset_lookup v : v ≤ n → offsets graph !! v = Some (offset v).
Proof using Hok.
  intros Hv. unfold offset. destruct (lookup_lt_is_Some_2 (offsets graph) v) as [k Hk]; [rewrite (offsets_length Hok); lia|].
  by rewrite Hk.
Qed.

Lemma offset_le v w : v ≤ w → w ≤ n → offset v ≤ offset w.
Proof using Hok.
  intros Hvw. induction Hvw as [|w Hvw IH]; intros Hw; [done|].
  pose proof (offsets_monotone Hok w). lia.
Qed.

Lemma edge_lookup v i : v < n → offset v ≤ i < offset (S v) → ∃ w, edges graph !! i = Some w ∧ w < n ∧ edge v w.
Proof using Hok.
  intros Hv Hi. pose proof (offset_le (S v) n ltac:(lia) ltac:(lia)). rewrite (offsets_last Hok) in *.
  destruct (lookup_lt_is_Some_2 (edges graph) i) as [w Hw]; [lia|]. exists w. split_and!; [done| |by exists i].
  pose proof (edges_range Hok) as Hr. rewrite Forall_lookup in Hr. eauto.
Qed.

(** ** The invariant *)

Definition number s x : option nat := mjoin (indices s !! x).
Definition num s x : nat := default 0 (number s x).
Definition link s x : nat := default 0 (lowlink s !! x).
Definition gray fs : list nat := vertex <$> fs.

Fixpoint chained fs : Prop :=
  match fs with
  | [] => True
  | f :: rest => parent f = vertex <$> head rest ∧ chained rest
  end.

(** The edges of [x] that have been followed. *)
Definition followed fs x i : Prop :=
  offset x ≤ i < offset (S x) ∧ ∀ f, f ∈ fs → vertex f = x → i < next_edge f.

Definition done_closed (cs : list (list nat)) : Prop :=
  ∀ k c x w, cs !! k = Some c → x ∈ c → edge x w → ∃ j d, j ≤ k ∧ cs !! j = Some d ∧ w ∈ d.

Record inv s fs : Prop := {
  inv_indices : length (indices s) = n;
  inv_lowlink : length (lowlink s) = n;
  inv_on_length : length (on_stack s) = n;
  inv_on x : x < n → on_stack s !! x = Some (bool_decide (x ∈ stack s));
  inv_number x : number s x ≠ None ↔ x ∈ stack s ∨ x ∈ mjoin (components s);
  inv_next x k : number s x = Some k → k < next_index s;
  inv_sorted : StronglySorted (λ x y, num s y < num s x) (stack s);
  inv_nodup : NoDup (stack s ++ mjoin (components s));
  inv_closed : done_closed (components s);
  inv_scc : Forall (λ c, c ≠ [] ∧ StronglySorted le c ∧ ∀ x y, x ∈ c → y ∈ c → reaches x y) (components s);
  inv_gray x : x ∈ gray fs → x ∈ stack s;
  inv_gray_sorted : StronglySorted (λ x y, num s y < num s x) (gray fs);
  inv_chained : chained fs;
  inv_frame f : f ∈ fs → offset (vertex f) ≤ next_edge f ≤ offset (S (vertex f));
  inv_reach g x : g ∈ gray fs → x ∈ stack s → num s g ≤ num s x → reaches g x;
  inv_link x : x ∈ stack s → ∃ y, y ∈ stack s ∧ num s y = link s x ∧ num s y ≤ num s x ∧ reaches x y;
  inv_black x : x ∈ stack s → x ∉ gray fs → link s x < num s x ∧
    ∃ g, g ∈ gray fs ∧ num s g < num s x ∧ link s g ≤ link s x ∧ ∀ h, h ∈ gray fs → num s h < num s x → num s h ≤ num s g;
  inv_edges x i w : x ∈ stack s → followed fs x i → edges graph !! i = Some w →
    number s w ≠ None ∧ (w ∈ stack s → link s x ≤ num s w);
}.

Lemma number_range s fs x : inv s fs → number s x ≠ None → x < n.
Proof.
  intros Hi Hx. rewrite <- (inv_indices _ _ Hi). apply lookup_lt_is_Some. unfold number in Hx.
  destruct (indices s !! x); [eauto|done].
Qed.

Lemma stack_number s fs x : inv s fs → x ∈ stack s → number s x = Some (num s x).
Proof.
  intros Hi Hx. assert (number s x ≠ None) as Hn by (apply (inv_number _ _ Hi); by left).
  unfold num. by destruct (number s x).
Qed.

Lemma stack_range s fs x : inv s fs → x ∈ stack s → x < n.
Proof. intros Hi Hx. apply (number_range s fs); [done|]. apply (inv_number _ _ Hi). by left. Qed.

Lemma link_lookup s fs x : inv s fs → x < n → lowlink s !! x = Some (link s x).
Proof.
  intros Hi Hx. unfold link. rewrite <- (inv_lowlink _ _ Hi) in Hx.
  destruct (lookup_lt_is_Some_2 _ _ Hx) as [k Hk]. by rewrite Hk.
Qed.

Lemma index_lookup s fs x : inv s fs → x < n → indices s !! x = Some (number s x).
Proof.
  intros Hi Hx. unfold number. rewrite <- (inv_indices _ _ Hi) in Hx.
  destruct (lookup_lt_is_Some_2 _ _ Hx) as [k Hk]. by rewrite Hk.
Qed.

Lemma sorted_num_inj s l x y :
  StronglySorted (λ x y, num s y < num s x) l → x ∈ l → y ∈ l → num s x = num s y → x = y.
Proof.
  induction 1 as [|z l Hl IH Hz]; [intros []%elem_of_nil|]. rewrite Forall_forall in Hz.
  intros [->|Hx]%elem_of_cons [->|Hy]%elem_of_cons Heq; [done| | |by apply IH].
  - specialize (Hz _ Hy). lia.
  - specialize (Hz _ Hx). lia.
Qed.

Lemma num_inj s fs x y : inv s fs → x ∈ stack s → y ∈ stack s → num s x = num s y → x = y.
Proof. intros Hi. apply sorted_num_inj, (inv_sorted _ _ Hi). Qed.

(** Outside a visit the stack is empty. *)
Lemma inv_idle s : inv s [] → stack s = [].
Proof.
  intros Hi. destruct (stack s) as [|x st] eqn:Hs; [done|]. exfalso.
  destruct (inv_black _ _ Hi x) as [_ (g & Hg & _)]; [rewrite Hs; apply elem_of_cons; by left|apply not_elem_of_nil|].
  by apply elem_of_nil in Hg.
Qed.

(** ** Discovering a vertex *)

Lemma discover_numbers s w s' :
  discover s w = Some s' → length (indices s) = n → length (lowlink s) = n →
  number s' w = Some (next_index s) ∧ link s' w = next_index s ∧
  ∀ x, x ≠ w → number s' x = number s x ∧ link s' x = link s x.
Proof.
  unfold discover. intros Hd Hl1 Hl2. inv_option. inv_store.
  unfold number, link; simpl. split_and!.
  - by rewrite list_lookup_insert_eq.
  - by rewrite list_lookup_insert_eq by lia.
  - intros x Hx. by rewrite !list_lookup_insert_ne by congruence.
Qed.

Lemma discover_fields s w s' :
  discover s w = Some s' →
  stack s' = w :: stack s ∧ components s' = components s ∧ next_index s' = S (next_index s) ∧
  length (indices s') = length (indices s) ∧ length (lowlink s') = length (lowlink s) ∧
  length (on_stack s') = length (on_stack s) ∧ on_stack s' = <[w := true]> (on_stack s) ∧ w < length (on_stack s).
Proof. unfold discover. intros Hd. inv_option. inv_store. simpl. by rewrite !length_insert. Qed.

Lemma discover_total s fs w : inv s fs → w < n → ∃ s', discover s w = Some s'.
Proof.
  intros Hi Hw. unfold discover, store. rewrite (inv_indices _ _ Hi), (inv_lowlink _ _ Hi), (inv_on_length _ _ Hi).
  repeat (rewrite decide_True by done; simpl). eauto.
Qed.

Lemma discover_inv s fs w s' :
  inv s fs → number s w = None → w < n → (∀ f, head fs = Some f → edge (vertex f) w) → discover s w = Some s' →
  inv s' ({| vertex := w; next_edge := offset w; parent := vertex <$> head fs |} :: fs).
Proof using Hok.
  intros Hi Hw Hwn Htop Hd.
  destruct (discover_numbers _ _ _ Hd (inv_indices _ _ Hi) (inv_lowlink _ _ Hi)) as (Hnw & Hlw & Hother).
  destruct (discover_fields _ _ _ Hd) as (Hst & Hcs & Hnx & Hl1 & Hl2 & Hl3 & Hos & Hwl).
  rewrite (inv_indices _ _ Hi) in Hl1. rewrite (inv_lowlink _ _ Hi) in Hl2. rewrite (inv_on_length _ _ Hi) in Hl3.
  assert (∀ x, x < n → on_stack s' !! x = Some (bool_decide (x ∈ stack s'))) as Hon.
  { intros x Hx. rewrite Hos, Hst. destruct (decide (x = w)) as [->|Hne].
    - rewrite list_lookup_insert_eq by done. f_equal. symmetry. apply bool_decide_eq_true. by left.
    - rewrite list_lookup_insert_ne, (inv_on _ _ Hi) by done. f_equal. apply bool_decide_ext. rewrite elem_of_cons. tauto. }
  clear Hd. assert ((w ∉ stack s) ∧ (w ∉ mjoin (components s))) as [Hws Hwc].
  { pose proof (inv_number _ _ Hi w). rewrite Hw in *. naive_solver. }
  assert (∀ x, x ∈ stack s → x ≠ w) as Hneq by congruence.
  assert (num s' w = next_index s) as Hnumw by (unfold num; by rewrite Hnw).
  assert (∀ x, x ≠ w → num s' x = num s x) as Hnum by (intros x Hx; unfold num; by rewrite (proj1 (Hother x Hx))).
  assert (∀ x, x ∈ stack s → num s' x < num s' w) as Hbelow.
  { intros x Hx. rewrite Hnum, Hnumw by auto. eapply (inv_next _ _ Hi), stack_number; eauto. }
  assert (∀ x, x ∈ gray fs → x ∈ stack s) as Hgray by apply Hi.
  constructor; rewrite ?Hst, ?Hcs, ?Hnx; try done.
  - by rewrite <- Hst.
  - intros x. destruct (decide (x = w)) as [->|Hne]; [rewrite Hnw; split; [left; by left|done]|].
    rewrite (proj1 (Hother x Hne)), (inv_number _ _ Hi), elem_of_cons. tauto.
  - intros x k. destruct (decide (x = w)) as [->|Hne]; [rewrite Hnw; intros [= <-]; lia|].
    rewrite (proj1 (Hother x Hne)). intros Hk. pose proof (inv_next _ _ Hi x k Hk). lia.
  - constructor; [|apply Forall_forall, Hbelow]. eapply StronglySorted_restrict; [|apply (inv_sorted _ _ Hi)].
    intros x y Hx Hy Hlt. cbn. by rewrite !Hnum by auto.
  - simpl. constructor; [rewrite elem_of_app; tauto|apply Hi].
  - apply Hi.
  - apply Hi.
  - intros x [->|Hx]%elem_of_cons; [by left|right; auto].
  - simpl. constructor; [|apply Forall_forall; intros; apply Hbelow; auto]. eapply StronglySorted_restrict; [|apply (inv_gray_sorted _ _ Hi)].
    intros x y Hx Hy Hlt. cbn. by rewrite !Hnum by auto.
  - split; [done|apply Hi].
  - intros f [->|Hf]%elem_of_cons; [simpl; pose proof (offsets_monotone Hok w); lia|by apply Hi].
  - intros g x [->|Hg]%elem_of_cons [->|Hx]%elem_of_cons Hle; simpl in *.
    + done.
    + specialize (Hbelow x Hx). lia.
    + destruct fs as [|f fs]; [by apply elem_of_nil in Hg|]. eapply rtc_r; [|by apply (Htop f)].
      apply (inv_reach _ _ Hi); [done|apply Hgray; by left|].
      pose proof (inv_gray_sorted _ _ Hi) as Hss. apply StronglySorted_inv in Hss as [_ Hall]. rewrite Forall_forall in Hall.
      apply elem_of_cons in Hg as [->|Hg]; [done|]. specialize (Hall _ Hg). cbn in Hall. lia.
    + apply (inv_reach _ _ Hi); [done..|]. rewrite !Hnum in Hle by auto. done.
  - intros x [->|Hx]%elem_of_cons.
    + exists w. rewrite Hlw, Hnumw. split_and!; [by left|done..].
    + destruct (inv_link _ _ Hi x Hx) as (y & Hy & He & Hle & Hr). exists y.
      rewrite !Hnum by auto. rewrite (proj2 (Hother x ltac:(auto))). split_and!; [by right|done..].
  - intros x [->|Hx]%elem_of_cons Hng; [exfalso; apply Hng; by left|].
    assert (x ∉ gray fs) as Hng' by (intros ?; apply Hng; by right).
    destruct (inv_black _ _ Hi x Hx Hng') as (Hlt & g & Hg & Hgx & Hgl & Hhigh).
    rewrite (Hnum x), (proj2 (Hother x ltac:(auto))) by auto. split; [done|]. exists g.
    rewrite (Hnum g), (proj2 (Hother g ltac:(auto))) by auto. split_and!; [by right|done..|].
    intros h [->|Hh]%elem_of_cons Hlth; simpl in *.
    + specialize (Hbelow x Hx). rewrite (Hnum x) in Hbelow by auto. lia.
    + rewrite Hnum in * by auto. auto.
  - intros x i v Hx [Hr Hf] Hv. apply elem_of_cons in Hx as [->|Hx].
    { specialize (Hf _ (list_elem_of_here _ _) eq_refl). simpl in Hf. lia. }
    destruct (inv_edges _ _ Hi x i v Hx) as [Hvis Hle]; [split; [done|]; intros f Hff; apply Hf; by right|done|].
    assert (v ≠ w) as Hvw by congruence. rewrite (proj1 (Hother v Hvw)), (proj2 (Hother x ltac:(auto))), (Hnum v) by done.
    split; [done|]. intros [->|Hvs]%elem_of_cons; [done|auto].
Qed.

(** ** Following an edge *)

Lemma advance_inv s fs1 fs2 v k pa w :
  inv s (fs1 ++ {| vertex := v; next_edge := k; parent := pa |} :: fs2) → k < offset (S v) →
  edges graph !! k = Some w → number s w ≠ None → (w ∈ stack s → link s v ≤ num s w) →
  inv s (fs1 ++ {| vertex := v; next_edge := S k; parent := pa |} :: fs2).
Proof using Hok.
  set (f := {| vertex := v; next_edge := k; parent := pa |}). set (f' := {| vertex := v; next_edge := S k; parent := pa |}).
  intros Hi Hk Hw Hvis Hlow.
  assert (gray (fs1 ++ f' :: fs2) = gray (fs1 ++ f :: fs2)) as Hg by (unfold gray; by rewrite !fmap_app).
  assert (offset v ≤ k) as Hvk by (apply (inv_frame _ _ Hi f); apply elem_of_app; right; by left).
  destruct Hi as [Hi1 Hi2 Hi3 Hi4 Hi5 Hi6 Hi7 Hi8 Hi9 Hi10 Hi11 Hi12 Hi13 Hi14 Hi15 Hi16 Hi17 Hi18].
  constructor; rewrite ?Hg; try done.
  - clear -Hi13. induction fs1 as [|f0 fs1 IH]; simpl in *; [done|]. destruct Hi13 as [-> Hc]. split; [|auto].
    by destruct fs1.
  - intros f0 Hf0. apply elem_of_app in Hf0 as [Hf0|[->|Hf0]%elem_of_cons].
    + apply Hi14, elem_of_app. by left.
    + simpl. lia.
    + apply Hi14, elem_of_app. right. by right.
  - intros x i y Hx [Hr Hfo] Hy. destruct (decide (x = v ∧ i = k)) as [[-> ->]|Hne].
    + assert (y = w) as -> by congruence. done.
    + apply (Hi18 x i y Hx); [|done]. split; [done|]. intros f0 Hf0 Hfx.
      apply elem_of_app in Hf0 as [Hf0|[->|Hf0]%elem_of_cons].
      * apply Hfo; [apply elem_of_app; by left|done].
      * simpl in *. subst. assert (i < S k) by (apply (Hfo f'); [apply elem_of_app; right; by left|done]).
        assert (i ≠ k) by tauto. lia.
      * apply Hfo; [apply elem_of_app; right; by right|done].
Qed.

Lemma lower_fields s v m s' :
  lower_link s v m = Some s' →
  stack s' = stack s ∧ components s' = components s ∧ next_index s' = next_index s ∧ indices s' = indices s ∧
  on_stack s' = on_stack s ∧ length (lowlink s') = length (lowlink s) ∧ link s' v = Nat.min (link s v) m ∧
  ∀ x, x ≠ v → link s' x = link s x.
Proof.
  unfold lower_link, link. intros Hl. inv_option. simpl. rewrite length_insert. split_and!; try done.
  - rewrite list_lookup_insert_eq by (eapply lookup_lt_Some; eauto). by match goal with H : _ = _ |- _ => rewrite H end.
  - intros y Hy. by rewrite list_lookup_insert_ne by congruence.
Qed.

Lemma lower_total s fs v m : inv s fs → v < n → ∃ s', lower_link s v m = Some s'.
Proof. intros Hi Hv. unfold lower_link. rewrite (link_lookup s fs v Hi Hv). simpl. eauto. Qed.

Lemma lower_inv s fs v m s' y0 :
  inv s fs → v ∈ gray fs → y0 ∈ stack s → num s y0 = m → reaches v y0 → lower_link s v m = Some s' → inv s' fs.
Proof.
  intros Hi Hv Hy0 Hm Hr Hl.
  destruct (lower_fields _ _ _ _ Hl) as (Hst & Hcs & Hnx & Hix & Hos & Hlen & Hlv & Hlo).
  assert (∀ x, link s' x ≤ link s x) as Hle.
  { intros x. destruct (decide (x = v)) as [->|]; [lia|]. rewrite Hlo by done. lia. }
  destruct Hi as [Hi1 Hi2 Hi3 Hi4 Hi5 Hi6 Hi7 Hi8 Hi9 Hi10 Hi11 Hi12 Hi13 Hi14 Hi15 Hi16 Hi17 Hi18].
  assert (∀ x, number s' x = number s x) as Hnu by (intros; unfold number; by rewrite Hix).
  assert (∀ x, num s' x = num s x) as Hnum by (intros; unfold num; by rewrite Hnu).
  constructor; rewrite ?Hst, ?Hcs, ?Hnx, ?Hix, ?Hos, ?Hlen; try done.
  - intros x. by rewrite Hnu.
  - intros x k. rewrite Hnu. apply Hi6.
  - eapply StronglySorted_restrict; [|done]. intros x y _ _. cbn. by rewrite !Hnum.
  - eapply StronglySorted_restrict; [|done]. intros x y _ _. cbn. by rewrite !Hnum.
  - intros g x. rewrite !Hnum. auto.
  - intros x Hx. destruct (Hi16 x Hx) as (y & Hy & He & Hyx & Hxy).
    destruct (decide (x = v)) as [->|Hne]; [|exists y; rewrite Hlo, !Hnum by done; split_and!; done].
    rewrite Hlv. destruct (decide (link s v ≤ m)).
    + exists y. rewrite Nat.min_l, !Hnum by done. done.
    + exists y0. rewrite Nat.min_r, !Hnum by lia. split_and!; [done..|lia|done].
  - intros x Hx Hng. assert (x ≠ v) as Hne by congruence. rewrite Hlo by done.
    destruct (Hi17 x Hx Hng) as (Hlt & g & Hg & Hgx & Hgl & Hhigh). rewrite Hnum. split; [done|]. exists g.
    specialize (Hle g). rewrite Hnum. split_and!; [done..|lia|]. intros h. rewrite Hnum. auto.
  - intros x i w Hx Hf Hw. destruct (Hi18 x i w Hx Hf Hw) as [Hvis Hlow]. rewrite Hnu, Hnum. split; [done|].
    intros Hws. specialize (Hlow Hws). specialize (Hle x). lia.
Qed.

(** ** Completing a vertex *)

(** The current frame is the one of the highest gray vertex. *)
Lemma top_highest s f rest h : inv s (f :: rest) → h ∈ gray rest → num s h < num s (vertex f).
Proof.
  intros Hi Hh. pose proof (inv_gray_sorted _ _ Hi) as Hs. apply StronglySorted_inv in Hs as [_ Hs].
  rewrite Forall_forall in Hs. by apply Hs.
Qed.

Lemma followed_pop fs f x i :
  followed fs x i → next_edge f = offset (S (vertex f)) → followed (f :: fs) x i.
Proof. intros [Hr Hf] Hn. split; [done|]. intros f0 [->|Hf0]%elem_of_cons Hx; [|auto]. subst. rewrite Hn. lia. Qed.

(** A vertex that is not the root of its component stays on the stack. *)
Lemma pop_inv s f rest :
  inv s (f :: rest) → next_edge f = offset (S (vertex f)) → link s (vertex f) < num s (vertex f) →
  (∀ p, head rest = Some p → link s (vertex p) ≤ link s (vertex f)) → inv s rest.
Proof.
  intros Hi Hn Hlt Hp.
  assert (vertex f ∈ stack s) as Hv by (apply (inv_gray _ _ Hi); by left).
  assert (∃ g, g ∈ gray rest ∧ link s g ≤ link s (vertex f) ∧ ∀ h, h ∈ gray rest → num s h ≤ num s g) as (g & Hg & Hgl & Hgh).
  { destruct rest as [|p rest].
    - exfalso. destruct (inv_link _ _ Hi _ Hv) as (y & Hy & He & _ & _).
      assert (y ∉ gray [f]) as Hny.
      { intros Hy'. assert (y = vertex f) as -> by (by apply list_elem_of_singleton in Hy'). lia. }
      destruct (inv_black _ _ Hi y Hy Hny) as (_ & g & Hg & Hgy & _).
      assert (g = vertex f) as -> by (by apply list_elem_of_singleton in Hg). lia.
    - exists (vertex p). split_and!; [by left|by apply Hp|]. intros h [->|Hh]%elem_of_cons; [done|].
      pose proof (inv_gray_sorted _ _ Hi) as Hs. apply StronglySorted_inv in Hs as [Hs _].
      apply StronglySorted_inv in Hs as [_ Hs]. rewrite Forall_forall in Hs. specialize (Hs h Hh). cbn in Hs. lia. }
  pose proof (top_highest s f rest) as Htop. specialize (Htop).
  pose proof Hi as [Hi1 Hi2 Hi3 Hi4 Hi5 Hi6 Hi7 Hi8 Hi9 Hi10 Hi11 Hi12 Hi13 Hi14 Hi15 Hi16 Hi17 Hi18].
  constructor; try done.
  - intros x Hx. apply Hi11. by right.
  - by apply StronglySorted_inv in Hi12 as [? _].
  - apply Hi13.
  - intros f0 Hf0. apply Hi14. by right.
  - intros g0 x Hg0. apply Hi15. by right.
  - intros x Hx Hng. destruct (decide (x = vertex f)) as [->|Hne].
    + split; [done|]. exists g. split_and!; [done|by apply Htop|done|]. intros h Hh _. by apply Hgh.
    + destruct (Hi17 x Hx) as (Hlx & g' & Hg' & Hgx & Hgl' & Hhigh); [by intros [?|?]%elem_of_cons|].
      split; [done|]. apply elem_of_cons in Hg' as [->|Hg'].
      * exists g. split_and!; [done| |lia|]; [pose proof (Htop g Hi Hg); lia|]. intros h Hh _. by apply Hgh.
      * exists g'. split_and!; [done..|]. intros h Hh. apply Hhigh. by right.
  - intros x i w Hx Hf. apply Hi18; [done|]. by apply followed_pop.
Qed.

Lemma pop_component_spec root l1 l2 on acc :
  root ∉ l1 → Forall (λ x, x < length on) (l1 ++ [root]) →
  ∃ on', pop_component root (l1 ++ root :: l2) on acc = Some (l2, on', acc ++ l1 ++ [root]) ∧ length on' = length on ∧
    ∀ x, x < length on → on' !! x = if decide (x ∈ l1 ++ [root]) then Some false else on !! x.
Proof.
  revert on acc. induction l1 as [|y l1 IH]; intros on acc Hr Hall; simpl in *.
  - apply Forall_cons in Hall as [Hlt _]. rewrite store_Some by done. simpl. rewrite decide_True by done.
    exists (<[root:=false]> on). rewrite length_insert. split_and!; [done..|]. intros x Hx.
    destruct (decide (x = root)) as [->|Hne].
    + rewrite decide_True by (by left). by rewrite list_lookup_insert_eq.
    + rewrite decide_False by (by rewrite list_elem_of_singleton). by rewrite list_lookup_insert_ne.
  - apply not_elem_of_cons in Hr as [Hry Hr]. apply Forall_cons in Hall as [Hlt Hall]. rewrite store_Some by done. simpl.
    rewrite decide_False by congruence.
    destruct (IH (<[y:=false]> on) (acc ++ [y])) as (on' & -> & Hlen & Hon); [done|by rewrite length_insert|].
    exists on'. rewrite length_insert in *. split_and!; [by rewrite <- app_assoc|done|]. intros x Hx.
    rewrite Hon by done. destruct (decide (x = y)) as [->|Hne].
    + rewrite (decide_True (P := y ∈ y :: _)) by (by left). case_decide; [done|]. by rewrite list_lookup_insert_eq.
    + rewrite list_lookup_insert_ne by done. apply decide_ext. rewrite elem_of_cons. tauto.
Qed.

(** The component of a root [v]: the part of the stack down to [v]. *)
Section Root.
Context (s : Tarjan) (f : DfsFrame) (rest : list DfsFrame) (l1 l2 : list nat).
Abbreviation v := (vertex f).
Context (Hi : inv s (f :: rest)) (Hst : stack s = l1 ++ v :: l2).

Lemma root_stack : v ∈ stack s.
Proof using Hi. apply (inv_gray _ _ Hi). by left. Qed.

Lemma below_root x : x ∈ l2 → num s x < num s v.
Proof using Hi Hst.
  intros Hx. pose proof (inv_sorted _ _ Hi) as Hs. rewrite Hst in Hs.
  apply StronglySorted_app in Hs as (_ & _ & Hs). apply StronglySorted_inv in Hs as [_ Hs]. rewrite Forall_forall in Hs. by apply Hs.
Qed.

Lemma component_elem x : x ∈ l1 ++ [v] ↔ x ∈ stack s ∧ num s v ≤ num s x.
Proof using Hi Hst.
  rewrite Hst, !elem_of_app, !elem_of_cons, elem_of_nil. split.
  - intros [Hx|[->|[]]]; [|auto]. split; [auto|]. pose proof (inv_sorted _ _ Hi) as Hs. rewrite Hst in Hs.
    apply StronglySorted_app in Hs as (Hs & _ & _). specialize (Hs x (vertex f) Hx (list_elem_of_here _ _)). cbn in Hs. lia.
  - intros [[?|[?|Hx]] Hle]; [auto..|]. pose proof (below_root x Hx). lia.
Qed.

Lemma sorted_component_elem x : x ∈ sort_by Nat.compare (l1 ++ [v]) ↔ x ∈ l1 ++ [v].
Proof using Type. by rewrite sort_by_perm. Qed.

Context (Hroot : link s v = num s v).

Lemma component_link x : x ∈ l1 ++ [v] → num s v ≤ link s x ∧ (x ≠ v → link s x < num s x).
Proof using Hi Hst Hroot.
  rewrite component_elem. intros [Hx Hle]. destruct (decide (x = v)) as [->|Hne]; [split; [lia|done]|].
  assert (num s x ≠ num s v) as Hnn by (intros E; apply Hne, (num_inj s (f :: rest)); auto using root_stack).
  assert (x ∉ gray (f :: rest)) as Hng.
  { intros [?|Hx']%elem_of_cons; [done|]. pose proof (top_highest s f rest x Hi Hx'). lia. }
  destruct (inv_black _ _ Hi x Hx Hng) as (Hlt & g & Hg & _ & Hgl & Hhigh). split; [|done].
  specialize (Hhigh v (list_elem_of_here _ _) ltac:(lia)).
  apply elem_of_cons in Hg as [->|Hg]; [lia|]. pose proof (top_highest s f rest g Hi Hg). lia.
Qed.

Lemma component_reaches_root x : x ∈ l1 ++ [v] → reaches x v.
Proof using Hi Hst Hroot.
  remember (num s x) as k eqn:Hk. revert x Hk. induction (lt_wf k) as [k _ IH]. intros x -> Hx.
  destruct (decide (x = v)) as [->|Hne]; [done|]. pose proof (component_link x Hx) as [Hl Hlt].
  apply component_elem in Hx as [Hx Hle]. destruct (inv_link _ _ Hi x Hx) as (y & Hy & He & _ & Hr).
  etrans; [exact Hr|]. specialize (Hlt Hne). apply (IH (num s y)); [lia|done|]. apply component_elem. split; [done|lia].
Qed.

Lemma component_scc :
  sort_by Nat.compare (l1 ++ [v]) ≠ [] ∧ StronglySorted le (sort_by Nat.compare (l1 ++ [v])) ∧
  ∀ x y, x ∈ sort_by Nat.compare (l1 ++ [v]) → y ∈ sort_by Nat.compare (l1 ++ [v]) → reaches x y.
Proof using Hi Hst Hroot.
  split_and!.
  - intros E. pose proof (sort_by_perm Nat.compare (l1 ++ [v])) as Hp. rewrite E in Hp.
    apply Permutation_nil_l in Hp. by destruct l1.
  - eapply StronglySorted_restrict; [|apply (sort_by_sorted Nat.compare)]. intros x y _ _. by rewrite Nat.compare_le_iff.
  - intros x y Hx%sorted_component_elem Hy%sorted_component_elem. etrans; [by apply component_reaches_root|].
    apply component_elem in Hy as [Hy Hle]. apply (inv_reach _ _ Hi); [by left|done..].
Qed.
Context (Hn : next_edge f = offset (S v)).

Lemma component_edges x w : x ∈ l1 ++ [v] → edge x w → w ∈ l1 ++ [v] ∨ w ∈ mjoin (components s).
Proof using Hi Hn Hst Hroot.
  intros Hx (i & _ & Hr & Hw). pose proof (component_link x Hx) as [Hl _].
  apply component_elem in Hx as Hx'. destruct Hx' as [Hxs Hle].
  destruct (inv_edges _ _ Hi x i w Hxs) as [Hvis Hlow]; [split; [done|]|done|].
  { intros f0 [->|Hf0]%elem_of_cons Hfx; [subst x; rewrite Hn; lia|].
    assert (x ∈ gray rest) as Hg by (subst x; by apply list_elem_of_fmap_2). pose proof (top_highest s f rest x Hi Hg). lia. }
  apply (inv_number _ _ Hi) in Hvis as [Hws|Hwc]; [left|by right]. apply component_elem. split; [done|]. specialize (Hlow Hws). lia.
Qed.

Lemma closed_components : done_closed (components s ++ [sort_by Nat.compare (l1 ++ [v])]).
Proof using Hi Hn Hst Hroot.
  intros k c x w Hc Hx He. apply lookup_app_Some in Hc as [Hc|[Hk Hc]].
  - destruct (inv_closed _ _ Hi k c x w Hc Hx He) as (j & d & Hj & Hd & Hw). exists j, d.
    split_and!; [done| |done]. by apply lookup_app_l_Some.
  - apply list_lookup_singleton_Some in Hc as [Hk0 <-]. apply (proj1 (sorted_component_elem x)) in Hx.
    destruct (component_edges x w Hx He) as [Hw|Hw].
    + exists k, (sort_by Nat.compare (l1 ++ [v])). split_and!; [done| |by apply sorted_component_elem].
      rewrite lookup_app_r by done. by apply list_lookup_singleton_Some.
    + apply list_elem_of_join in Hw as (d & Hw & Hd). apply list_elem_of_lookup in Hd as [j Hd].
      exists j, d. pose proof (lookup_lt_Some _ _ _ Hd). split_and!; [lia| |done]. by apply lookup_app_l_Some.
Qed.

End Root.

Lemma close_inv s f rest :
  inv s (f :: rest) → next_edge f = offset (S (vertex f)) → link s (vertex f) = num s (vertex f) →
  ∃ s', close_component s (vertex f) = Some s' ∧ inv s' rest ∧ indices s' = indices s.
Proof.
  intros Hi Hn Hroot. assert (vertex f ∈ stack s) as Hv by (by eapply root_stack).
  apply list_elem_of_split in Hv as (l1 & l2 & Hst).
  pose proof (inv_nodup _ _ Hi) as Hnd. rewrite Hst in Hnd.
  assert (vertex f ∉ l1) as Hv1.
  { rewrite <- app_assoc in Hnd. apply NoDup_app in Hnd as (_ & Hnd & _). intros Hv. apply (Hnd _ Hv). simpl. by left. }
  assert (∀ x, x ∈ l1 ++ [vertex f] → x < n) as Hrange.
  { intros x Hx. apply (stack_range s (f :: rest)); [done|]. rewrite Hst. set_solver. }
  destruct (pop_component_spec (vertex f) l1 l2 (on_stack s) []) as (on' & Hpop & Hlen & Hon); [done| |].
  { apply Forall_forall. intros x Hx. rewrite (inv_on_length _ _ Hi). auto. }
  unfold close_component. rewrite Hst, Hpop. simpl. eexists. split_and!; [done| |done].
  set (c := l1 ++ [vertex f]) in *.
  assert (stack s = c ++ l2) as Hst' by (subst c; by rewrite <- app_assoc).
  assert (l2 ++ mjoin (components s ++ [sort_by Nat.compare c]) ≡ₚ stack s ++ mjoin (components s)) as Hperm.
  { rewrite join_app, Hst'. simpl. rewrite app_nil_r, sort_by_perm. solve_Permutation. }
  assert (∀ x, x ∈ l2 → x ∈ stack s) as Hsub by (intros x Hx; rewrite Hst'; apply elem_of_app; by right).
  assert (∀ x, x ∈ l2 → num s x < num s (vertex f)) as Hbelow by (intros x Hx; by eapply below_root).
  assert (∀ x, x ∈ stack s → x ∈ l2 ∨ num s (vertex f) ≤ num s x) as Hsplit.
  { intros x Hx. rewrite Hst' in Hx. apply elem_of_app in Hx as [Hx|]; [right|by left].
    apply (component_elem s f rest l1 l2 Hi Hst) in Hx. tauto. }
  pose proof (top_highest s f rest) as Htop. specialize (λ h, Htop h Hi) as Htop'.
  pose proof (component_scc s f rest l1 l2 Hi Hst Hroot) as Hscc.
  pose proof (closed_components s f rest l1 l2 Hi Hst Hroot Hn) as Hclosed.
  pose proof Hi as [Hi1 Hi2 Hi3 Hi4 Hi5 Hi6 Hi7 Hi8 Hi9 Hi10 Hi11 Hi12 Hi13 Hi14 Hi15 Hi16 Hi17 Hi18].
  constructor; simpl; try done.
  - by rewrite Hlen.
  - intros x Hx. rewrite Hon by (by rewrite Hi3). case_decide as Hxc.
    + f_equal. symmetry. apply bool_decide_eq_false. intros Hx2.
      rewrite Hst' in Hi8. rewrite <- app_assoc in Hi8. apply NoDup_app in Hi8 as (_ & Hd & _). apply (Hd x Hxc). set_solver.
    + rewrite Hi4 by done. f_equal. apply bool_decide_ext. rewrite Hst', elem_of_app. tauto.
  - intros x. change (number s x ≠ None ↔ x ∈ l2 ∨ x ∈ mjoin (components s ++ [sort_by Nat.compare c])).
    rewrite Hi5, <- !elem_of_app, Hperm. done.
  - rewrite Hst' in Hi7. apply StronglySorted_app in Hi7. apply Hi7.
  - by rewrite Hperm.
  - apply Forall_app. split; [done|]. by apply Forall_singleton.
  - intros x Hx. destruct (Hsplit x) as [?|Hle]; [apply Hi11; by right|done|]. specialize (Htop' x Hx). lia.
  - by apply StronglySorted_inv in Hi12 as [? _].
  - apply Hi13.
  - intros f0 Hf0. apply Hi14. by right.
  - intros g0 x Hg0 Hx. apply Hi15; [by right|auto].
  - intros x Hx. destruct (Hi16 x (Hsub x Hx)) as (y & Hy & He & Hle & Hr). exists y. split_and!; try done.
    destruct (Hsplit y Hy) as [?|Hle']; [done|]. specialize (Hbelow x Hx). lia.
  - intros x Hx Hng. assert (x ≠ vertex f) as Hne by (intros ->; specialize (Hbelow _ Hx); lia).
    destruct (Hi17 x (Hsub x Hx)) as (Hlx & g' & Hg' & Hgx & Hgl' & Hhigh); [by intros [?|?]%elem_of_cons|].
    split; [done|]. apply elem_of_cons in Hg' as [->|Hg'].
    { specialize (Hbelow x Hx). change (num s (vertex f) < num s x) in Hgx. lia. }
    exists g'. split_and!; [done..|]. intros h Hh. apply Hhigh. by right.
  - intros x i w Hx Hf Hw. destruct (Hi18 x i w (Hsub x Hx)) as [Hvis Hlow]; [by apply followed_pop|done|].
    split; [done|]. intros Hws. apply Hlow. auto.
Qed.

(** ** The measure *)

Definition degree v : nat := offset (S v) - offset v.

(** Steps left: the frames' edges and pops, and those of the undiscovered vertices. *)
Definition undiscovered s : nat := sum_list_with (λ v, if number s v is Some _ then 0 else S (degree v)) (seq 0 n).
Definition frames_left fs : nat := sum_list_with (λ f, S (offset (S (vertex f)) - next_edge f)) fs.

Lemma undiscovered_discover s fs w s' :
  inv s fs → number s w = None → w < n → discover s w = Some s' → undiscovered s = S (degree w) + undiscovered s'.
Proof using Type.
  intros Hi Hw Hwn Hd. destruct (discover_numbers _ _ _ Hd (inv_indices _ _ Hi) (inv_lowlink _ _ Hi)) as (Hnw & _ & Ho).
  unfold undiscovered. replace n with (w + S (n - S w)) by lia. rewrite seq_app. simpl. rewrite !sum_list_with_app. simpl.
  rewrite Hw, Hnw.
  rewrite (sum_list_with_ext (λ v, if number s v is Some _ then _ else _) (λ v, if number s' v is Some _ then 0 else S (degree v)) (seq 0 w)).
  2:{ intros x Hx%elem_of_seq. by rewrite (proj1 (Ho x ltac:(lia))). }
  rewrite (sum_list_with_ext (λ v, if number s v is Some _ then _ else _) (λ v, if number s' v is Some _ then 0 else S (degree v)) (seq (S w) _)).
  2:{ intros x Hx%elem_of_seq. by rewrite (proj1 (Ho x ltac:(lia))). }
  lia.
Qed.

Lemma undiscovered_indices s s' : indices s' = indices s → undiscovered s' = undiscovered s.
Proof using Type. unfold undiscovered, number. by intros ->. Qed.

Lemma frame_range s f rest : inv s (f :: rest) → vertex f < n.
Proof using Type. intros Hi. eapply stack_range; [done|]. by eapply root_stack. Qed.

Definition step_ok s fs (r : option (Tarjan * list DfsFrame)) : Prop :=
  ∃ s' fs', r = Some (s', fs') ∧ inv s' fs' ∧ S (undiscovered s' + frames_left fs') = undiscovered s + frames_left fs ∧
    ∀ x, number s x ≠ None → number s' x ≠ None.

Lemma follow_edge_ok s f rest :
  inv s (f :: rest) → next_edge f < offset (S (vertex f)) → step_ok s (f :: rest) (follow_edge graph s f rest).
Proof using Hok.
  intros Hi Hlt. pose proof (frame_range s f rest Hi) as Hv. destruct f as [v k pa]; simpl in *.
  assert (offset v ≤ k) as Hvk by (apply (inv_frame _ _ Hi {| vertex := v; next_edge := k; parent := pa |}); by left).
  assert (v ∈ stack s) as Hvs by (by apply (root_stack s _ _ Hi)).
  destruct (edge_lookup v k Hv ltac:(lia)) as (w & Hw & Hwn & He).
  unfold follow_edge; simpl. rewrite Hw. simpl. rewrite (index_lookup s _ w Hi Hwn). simpl.
  destruct (number s w) as [j|] eqn:Hnw.
  - rewrite (inv_on _ _ Hi w Hwn). simpl. case_bool_decide as Hws.
    + destruct (lower_total s _ v j Hi Hv) as [s1 Hs1]. rewrite Hs1. simpl. unfold step_ok. do 2 eexists. split; [done|].
      assert (num s w = j) as Hj by (unfold num; by rewrite Hnw).
      pose proof (lower_inv s _ v j s1 w Hi ltac:(by left) Hws Hj (rtc_once _ _ He) Hs1) as Hi1.
      destruct (lower_fields _ _ _ _ Hs1) as (_ & _ & _ & Hix & _ & _ & Hlv & _).
      split_and!; [|rewrite (undiscovered_indices s s1 Hix); unfold frames_left; simpl; lia|by unfold number; rewrite Hix].
      apply (advance_inv s1 [] rest v k pa w Hi1 Hlt Hw); unfold number, num, number; rewrite Hix; fold (number s w); rewrite Hnw; [done|].
      intros _. simpl. lia.
    + unfold step_ok. do 2 eexists. split; [done|]. split_and!; [|unfold frames_left; simpl; lia|done].
      apply (advance_inv s [] rest v k pa w Hi Hlt Hw); [by rewrite Hnw|done].
  - destruct (discover_total s _ w Hi Hwn) as [s1 Hs1]. rewrite Hs1. simpl. rewrite (offset_lookup w) by lia. simpl.
    unfold step_ok. do 2 eexists. split; [done|].
    destruct (discover_numbers _ _ _ Hs1 (inv_indices _ _ Hi) (inv_lowlink _ _ Hi)) as (Hn1 & Hl1 & Ho).
    pose proof (discover_inv s _ w s1 Hi Hnw Hwn ltac:(by intros f [= <-]) Hs1) as Hi1. simpl in Hi1.
    assert (v ≠ w) as Hvw by (intros ->; rewrite (stack_number s _ _ Hi Hvs) in Hnw; done).
    split_and!.
    + apply (advance_inv s1 [{| vertex := w; next_edge := offset w; parent := Some v |}] rest v k pa w Hi1 Hlt Hw); [by rewrite Hn1|].
      intros _. rewrite (proj2 (Ho v Hvw)). unfold num. rewrite Hn1. simpl.
      destruct (inv_link _ _ Hi v Hvs) as (y & Hy & <- & Hle & _).
      pose proof (inv_next _ _ Hi v _ (stack_number s _ v Hi Hvs)). lia.
    + rewrite (undiscovered_discover s _ w s1 Hi Hnw Hwn Hs1). unfold frames_left, degree. simpl. lia.
    + intros x Hx. destruct (decide (x = w)) as [->|Hne]; [by rewrite Hn1|]. by rewrite (proj1 (Ho x Hne)).
Qed.

(** The parent takes over the completed vertex's link. *)
Lemma lower_parent_ok s f rest :
  inv s (f :: rest) →
  ∃ s1, (match parent f with Some parent => lower_link s parent (link s (vertex f)) | None => Some s end) = Some s1 ∧
    inv s1 (f :: rest) ∧ indices s1 = indices s ∧ link s1 (vertex f) = link s (vertex f) ∧
    ∀ p, head rest = Some p → link s1 (vertex p) ≤ link s1 (vertex f).
Proof using Hok.
  intros Hi. pose proof (inv_chained _ _ Hi) as [Hpa _]. rewrite Hpa.
  destruct rest as [|p rest]; simpl; [by exists s|].
  assert (vertex p ∈ gray (f :: p :: rest)) as Hg by (right; by left).
  assert (vertex p ∈ stack s) as Hp by (by apply (inv_gray _ _ Hi)).
  pose proof (top_highest s f (p :: rest) (vertex p) Hi ltac:(by left)) as Hlt.
  destruct (lower_total s _ (vertex p) (link s (vertex f)) Hi) as [s1 Hs1]; [by eapply stack_range|].
  rewrite Hs1. exists s1. destruct (inv_link _ _ Hi (vertex f)) as (y & Hy & He & _ & Hr); [by eapply root_stack|].
  destruct (lower_fields _ _ _ _ Hs1) as (_ & _ & _ & Hix & _ & _ & Hlv & Hlo).
  assert (vertex f ≠ vertex p) as Hne by (intros E; rewrite E in Hlt; lia).
  split_and!; [done| |done|by apply Hlo|intros p' [= <-]; rewrite (Hlo (vertex f)), Hlv by done; lia].
  eapply lower_inv; [exact Hi|exact Hg|exact Hy|exact He| |exact Hs1].
  etrans; [|exact Hr]. apply (inv_reach _ _ Hi); [done|by eapply root_stack|lia].
Qed.

Lemma complete_vertex_ok s f rest :
  inv s (f :: rest) → next_edge f = offset (S (vertex f)) →
  ∃ s', complete_vertex s f = Some s' ∧ inv s' rest ∧ indices s' = indices s.
Proof using Hok.
  intros Hi Hn. pose proof (frame_range s f rest Hi) as Hv.
  destruct (lower_parent_ok s f rest Hi) as (s1 & Hs1 & Hi1 & Hix & Hl1 & Hp).
  pose proof (stack_number s1 _ (vertex f) Hi1 (root_stack _ _ _ Hi1)) as Hnum.
  unfold complete_vertex. rewrite (link_lookup s _ _ Hi Hv). simpl. rewrite Hs1. simpl.
  fold (number s1 (vertex f)). rewrite Hnum. simpl. rewrite (link_lookup s1 _ _ Hi1 Hv). simpl.
  destruct (inv_link _ _ Hi1 (vertex f)) as (y & _ & He & Hle & _); [by eapply root_stack|].
  case_decide as Hd.
  - destruct (close_inv s1 f rest Hi1 Hn Hd) as (s2 & Hs2 & Hi2 & Hix2). exists s2. by rewrite Hix2.
  - exists s1. split_and!; [done| |done]. apply (pop_inv s1 f rest Hi1 Hn); [lia|done].
Qed.

Lemma visit_step_ok s f rest : inv s (f :: rest) → step_ok s (f :: rest) (visit_step graph s f rest).
Proof using Hok.
  intros Hi. pose proof (frame_range s f rest Hi) as Hv.
  pose proof (inv_frame _ _ Hi f (list_elem_of_here _ _)) as Hf.
  unfold visit_step. rewrite (offset_lookup (S (vertex f))) by lia. simpl. case_decide as Hlt; [by apply follow_edge_ok|].
  destruct (complete_vertex_ok s f rest Hi ltac:(lia)) as (s' & -> & Hi' & Hix). simpl. exists s', rest.
  split_and!; [done..|rewrite (undiscovered_indices s s' Hix); unfold frames_left; simpl; lia|].
  unfold number. by rewrite Hix.
Qed.

Lemma visit_loop_ok fuel s fs :
  inv s fs → undiscovered s + frames_left fs ≤ fuel →
  ∃ s', visit_loop graph fuel s fs = Some s' ∧ inv s' [] ∧ ∀ x, number s x ≠ None → number s' x ≠ None.
Proof using Hok.
  revert s fs. induction fuel as [|fuel IH]; intros s [|f rest] Hi Hle; simpl; [by exists s| |by exists s|].
  - unfold frames_left in Hle. simpl in Hle. lia.
  - destruct (visit_step_ok s f rest Hi) as (s1 & fs1 & -> & Hi1 & Hm & Hmono). simpl.
    destruct (IH s1 fs1 Hi1 ltac:(lia)) as (s2 & -> & Hi2 & Hmono2). exists s2. split_and!; [done..|]. auto.
Qed.

Lemma undiscovered_bound s : undiscovered s ≤ visit_fuel graph.
Proof using Hok.
  unfold visit_fuel. rewrite <- (offsets_last Hok).
  assert (∀ k, k ≤ n → sum_list_with (λ v, if number s v is Some _ then 0 else S (degree v)) (seq 0 k) ≤ k + offset k) as Hk.
  { induction k as [|k IH]; intros Hk; [simpl; lia|]. rewrite seq_S, sum_list_with_app. simpl. specialize (IH ltac:(lia)).
    pose proof (offsets_monotone Hok k ltac:(lia)). 
    assert (degree k = offset (S k) - offset k) by done. destruct (number s k); lia. }
  by apply Hk.
Qed.

Lemma visit_undiscovered_ok s v :
  inv s [] → v < n → ∃ s', visit_undiscovered graph s v = Some s' ∧ inv s' [] ∧ number s' v ≠ None ∧
    ∀ x, number s x ≠ None → number s' x ≠ None.
Proof using Hok.
  intros Hi Hv. unfold visit_undiscovered. rewrite (index_lookup s [] v Hi Hv). simpl.
  destruct (number s v) as [k|] eqn:Hk; [exists s; by rewrite Hk|].
  unfold visit_iterative. destruct (discover_total s [] v Hi Hv) as [s1 Hs1]. rewrite Hs1. simpl.
  rewrite (offset_lookup v) by lia. simpl. pose proof (discover_inv s [] v s1 Hi Hk Hv ltac:(done) Hs1) as Hi1. simpl in Hi1.
  destruct (discover_numbers _ _ _ Hs1 (inv_indices _ _ Hi) (inv_lowlink _ _ Hi)) as (Hn1 & _ & Ho).
  destruct (visit_loop_ok (visit_fuel graph) s1 _ Hi1) as (s2 & Hs2 & Hi2 & Hmono).
  { pose proof (undiscovered_bound s) as Hb. rewrite (undiscovered_discover s [] v s1 Hi Hk Hv Hs1) in Hb.
    unfold degree in Hb. unfold frames_left. cbn [sum_list_with vertex next_edge]. lia. }
  exists s2. split_and!; [done..| |].
  - apply Hmono. by rewrite Hn1.
  - intros x Hx. apply Hmono. destruct (decide (x = v)) as [->|Hne]; [done|]. by rewrite (proj1 (Ho x Hne)).
Qed.

Lemma new_inv : inv (Tarjan_new graph) [].
Proof using Type.
  assert (∀ x, number (Tarjan_new graph) x = None) as Hnone.
  { intros x. unfold number. simpl. destruct (replicate _ _ !! x) eqn:E; [|done]. by apply lookup_replicate in E as [-> _]. }
  constructor; simpl; rewrite ?length_replicate; try done; try by constructor.
  1: intros x Hx; by apply lookup_replicate.
  1: intros x; rewrite Hnone, !elem_of_nil; naive_solver.
  1: intros x k; by rewrite Hnone.
  all: intros; match goal with H : _ ∈ _ |- _ => by apply elem_of_nil in H end.
Qed.

Lemma visits_ok l s :
  inv s [] → Forall (λ v, v < n) l → ∃ s', foldM (visit_undiscovered graph) s l = Some s' ∧ inv s' [] ∧
    (∀ x, x ∈ l → number s' x ≠ None) ∧ ∀ x, number s x ≠ None → number s' x ≠ None.
Proof using Hok.
  revert s. induction l as [|v l IH]; intros s Hi Hl; simpl.
  - exists s. split_and!; [done..| |done]. intros x Hx. by apply elem_of_nil in Hx.
  - apply Forall_cons in Hl as [Hv Hl]. destruct (visit_undiscovered_ok s v Hi Hv) as (s1 & -> & Hi1 & Hn1 & Hm1). simpl.
    destruct (IH s1 Hi1 Hl) as (s2 & -> & Hi2 & Hn2 & Hm2). exists s2. split_and!; [done..| |auto].
    intros x [->|Hx]%elem_of_cons; auto.
Qed.

Lemma closed_reaches cs k c x w :
  done_closed cs → cs !! k = Some c → x ∈ c → reaches x w → ∃ j d, j ≤ k ∧ cs !! j = Some d ∧ w ∈ d.
Proof using Type.
  intros Hcl Hc Hx Hr. revert k c Hc Hx. induction Hr as [x|x y w He _ IH]; intros k c Hc Hx; [by exists k, c|].
  destruct (Hcl k c x y Hc Hx He) as (j & d & Hj & Hd & Hy). destruct (IH j d Hd Hy) as (j' & d' & Hj' & Hd' & Hw).
  exists j', d'. split_and!; [lia|done..].
Qed.

Lemma NoDup_join_index (cs : list (list nat)) i j c d x :
  NoDup (mjoin cs) → cs !! i = Some c → cs !! j = Some d → x ∈ c → x ∈ d → i = j.
Proof using Type.
  revert i j. induction cs as [|e cs IH]; intros [|i] [|j] Hnd Hc Hd Hxc Hxd; simplify_eq/=; try done;
    apply NoDup_app in Hnd as (_ & Hd1 & Hnd).
  - exfalso. apply (Hd1 x Hxc). apply list_elem_of_join. exists d. split; [done|]. by eapply list_elem_of_lookup_2.
  - exfalso. apply (Hd1 x Hxd). apply list_elem_of_join. exists c. split; [done|]. by eapply list_elem_of_lookup_2.
  - f_equal. by eapply IH.
Qed.

(** The strongly connected components of the graph, in reverse topological order. *)
Definition scc_partition (cs : list (list nat)) : Prop :=
  mjoin cs ≡ₚ seq 0 n ∧
  Forall (λ c, c ≠ [] ∧ StronglySorted lt c) cs ∧
  (∀ c x y, c ∈ cs → x ∈ c → y ∈ c ↔ reaches x y ∧ reaches y x) ∧
  ∀ i j c d x y, cs !! i = Some c → cs !! j = Some d → x ∈ c → y ∈ d → reaches x y → j ≤ i.

Lemma components_of_graph : ∃ cs, strongly_connected_components graph = Some cs ∧ scc_partition cs.
Proof using Hok.
  unfold strongly_connected_components.
  destruct (visits_ok (seq 0 n) _ new_inv) as (s & -> & Hi & Hall & _).
  { apply Forall_forall. intros x Hx%elem_of_seq. lia. }
  simpl. exists (components s). split; [done|]. pose proof (inv_idle s Hi) as Hst.
  pose proof (inv_nodup _ _ Hi) as Hnd. rewrite Hst in Hnd. simpl in Hnd.
  pose proof (inv_scc _ _ Hi) as Hscc. rewrite Forall_forall in Hscc.
  assert (∀ i j c d x y, components s !! i = Some c → components s !! j = Some d → x ∈ c → y ∈ d → reaches x y → j ≤ i) as Htop.
  { intros i j c d x y Hc Hd Hx Hy Hr. destruct (closed_reaches _ i c x y (inv_closed _ _ Hi) Hc Hx Hr) as (j' & d' & Hj' & Hd' & Hy').
    by rewrite (NoDup_join_index _ j j' d d' y Hnd Hd Hd' Hy Hy'). }
  split_and!; [| | |done].
  - apply NoDup_Permutation; [done|apply NoDup_seq|]. intros x. rewrite elem_of_seq. pose proof (inv_number _ _ Hi x) as Hn.
    rewrite Hst in Hn. split.
    + intros Hx. pose proof (number_range s [] x Hi). rewrite elem_of_nil in Hn. intuition lia.
    + intros Hx. destruct (proj1 Hn) as [Hx'|]; [apply Hall, elem_of_seq; lia|by apply elem_of_nil in Hx'|done].
  - apply Forall_forall. intros c Hc. destruct (Hscc c Hc) as (Hne & Hs & _). split; [done|].
    apply list_elem_of_lookup in Hc as [i Hc]. apply list_elem_of_split_length in Hc as (l1 & l2 & E & _).
    rewrite E, join_app in Hnd. simpl in Hnd. apply NoDup_app in Hnd as (_ & _ & Hnd). apply NoDup_app in Hnd as (Hnd & _ & _).
    clear -Hs Hnd. induction Hs as [|x l Hs IH Hx]; [constructor|]. apply NoDup_cons in Hnd as [Hxl Hnd].
    constructor; [auto|]. rewrite Forall_forall in *. intros y Hy. specialize (Hx y Hy). assert (x ≠ y) by congruence. lia.
  - intros c x y Hc Hx. destruct (Hscc c Hc) as (_ & _ & Hm). split; [intros Hy; split; by apply Hm|].
    intros [Hxy Hyx]. apply list_elem_of_lookup in Hc as [i Hc].
    destruct (closed_reaches _ i c x y (inv_closed _ _ Hi) Hc Hx Hxy) as (j & d & Hj & Hd & Hy).
    assert (i ≤ j) by (by eapply (Htop j i d c y x)). assert (i = j) as <- by lia. by simplify_eq.
Qed.
End TarjanFacts.
