(* ===== verification/GraphFacts.v ===== *)
(** The propagation graph has the included events as its edges, and its components
    are the addresses between which events lead in both directions. *)

From stdpp Require Import gmap.
From S2P Require Import Prelude Text CanonicalJson Anchors SortedLists Events Graph TarjanFacts.

#[export] Instance pair_compare_laws : CompareLaws pair_compare.
Proof. unfold pair_compare. apply then_with_laws; apply (compare_map_laws _ Nat.compare); apply _. Qed.

#[export] Instance pair_compare_eq : CompareEq pair_compare.
Proof. intros [a b] [c d]. unfold pair_compare. rewrite then_with_eq, !Nat.compare_eq_iff. simpl. naive_solver. Qed.

(** ** Offsets *)

Section Offsets.
Implicit Types (ps : list (nat * nat)).

(** The pairs from vertices before [j], and those counted at [j]. *)
Definition below ps (j : nat) : nat := length (filter (λ p, p.1 < j) ps).
Definition counted ps (j : nat) : nat := length (filter (λ p, S p.1 = j) ps).

Lemma below_S ps j : below ps (S j) = below ps j + counted ps (S j).
Proof.
  unfold below, counted. induction ps as [|p ps IH]; [done|]. rewrite !filter_cons. repeat case_decide; simpl; lia.
Qed.

Lemma below_all ps j : Forall (λ p, p.1 < j) ps → below ps j = length ps.
Proof. unfold below. induction 1 as [|p ps Hp _ IH]; [done|]. rewrite filter_cons_True by done. simpl. by rewrite IH. Qed.

Lemma below_lookup ps i p j :
  StronglySorted (λ a b, pair_compare a b = Lt) ps → ps !! i = Some p → i < below ps j ↔ p.1 < j.
Proof.
  unfold below. intros Hs. revert i. induction Hs as [|q ps Hs IH Hq]; intros i Hi; [done|].
  assert (∀ r, r ∈ ps → q.1 ≤ r.1) as Hle.
  { intros r Hr. rewrite Forall_forall in Hq. specialize (Hq r Hr). unfold pair_compare, then_with in Hq.
    destruct (Nat.compare_spec (q.1) (r.1)); [lia|lia|done]. }
  rewrite filter_cons. case_decide as Hqj; simpl.
  - destruct i as [|i]; simplify_eq/=; [split; lia|]. rewrite <- (IH i Hi). lia.
  - assert (filter (λ p0 : nat * nat, p0.1 < j) ps = []) as ->.
    { apply filter_none. intros r Hr. specialize (Hle r Hr). lia. }
    simpl. destruct i as [|i]; simplify_eq/=; [split; lia|]. apply list_elem_of_lookup_2 in Hi. specialize (Hle p Hi). lia.
Qed.

Lemma count_edges ps l n :
  length l = S n → Forall (λ p, p.1 < n) ps →
  ∃ l', foldM count_edge l ps = Some l' ∧ length l' = S n ∧
    ∀ j k, l !! j = Some k → l' !! j = Some (k + counted ps j).
Proof.
  revert l. induction ps as [|p ps IH]; intros l Hl Hps.
  - exists l. split_and!; [done..|]. intros j k Hj. unfold counted. simpl. by rewrite Nat.add_0_r.
  - apply Forall_cons in Hps as [Hp Hps]. destruct (lookup_lt_is_Some_2 l (S p.1)) as [c Hc]; [lia|].
    assert (count_edge l p = Some (<[S p.1:=S c]> l)) as Hstep by (unfold count_edge; by rewrite Hc).
    simpl. rewrite Hstep. simpl.
    destruct (IH (<[S p.1:=S c]> l)) as (l' & Hf & Hlen & Hcnt); [by rewrite length_insert|done|].
    exists l'. split_and!; [done..|]. intros j k Hj. unfold counted in *. rewrite filter_cons. case_decide as E; simpl.
    + subst j. simplify_eq. rewrite (Hcnt (S p.1) (S c)); [f_equal; lia|]. apply list_lookup_insert_eq. lia.
    + apply Hcnt. by rewrite list_lookup_insert_ne.
Qed.

Lemma sum_offsets ps l n m :
  length l = S n → m ≤ n → (∀ j, j ≤ n → l !! j = Some (counted ps j)) →
  ∃ l', foldM sum_offset l (seq 0 m) = Some l' ∧ length l' = S n ∧
    ∀ j, j ≤ n → l' !! j = Some (if decide (j ≤ m) then below ps j else counted ps j).
Proof.
  intros Hl Hm Hcnt. induction m as [|m IH].
  - exists l. split_and!; [done..|]. intros j Hj. rewrite Hcnt by done. case_decide; [|done].
    assert (j = 0) as -> by lia. unfold counted, below. rewrite !filter_none; [done|intros; lia|intros; lia].
  - destruct IH as (l1 & Hf & Hl1 & Hs); [lia|]. rewrite seq_S, foldM_app, Hf. simpl. unfold sum_offset.
    rewrite (Hs m), decide_True by lia. simpl. rewrite (Hs (S m)), decide_False by lia. simpl.
    eexists. split; [done|]. rewrite length_insert. split; [done|]. intros j Hj. destruct (decide (j = S m)) as [->|Hne].
    + rewrite list_lookup_insert_eq by lia. rewrite decide_True by lia. f_equal. rewrite below_S. lia.
    + rewrite list_lookup_insert_ne by done. rewrite Hs by done. f_equal. repeat case_decide; try done; lia.
Qed.
End Offsets.

(** ** Pairs *)

Lemma push_pairs by_address events acc :
  (∀ e a, e ∈ events → a ∈ event_endpoints e → is_Some (by_address !! a)) →
  ∃ ps, foldM (push_pair by_address) acc events = Some (acc ++ ps) ∧
    ∀ i j, (i, j) ∈ ps ↔ ∃ e a b, e ∈ events ∧ from e = Some a ∧ to e = Some b ∧
      by_address !! a = Some i ∧ by_address !! b = Some j.
Proof.
  revert acc. induction events as [|e events IH]; intros acc Hdom.
  - exists []. rewrite app_nil_r. split; [done|]. intros i j. split; [by intros ?%elem_of_nil|].
    by intros (e & a & b & ?%elem_of_nil & _).
  - assert (∃ qs, push_pair by_address acc e = Some (acc ++ qs) ∧
        ∀ i j, (i, j) ∈ qs ↔ ∃ a b, from e = Some a ∧ to e = Some b ∧ by_address !! a = Some i ∧ by_address !! b = Some j)
      as (qs & Hpush & Hqs).
    { unfold push_pair. specialize (λ a, Hdom e a (list_elem_of_here _ _)) as He. unfold event_endpoints in He.
      destruct (from e) as [a|], (to e) as [b|];
        try (exists []; rewrite app_nil_r; split; [done|]; intros i j; rewrite elem_of_nil; naive_solver).
      destruct (He a ltac:(by left)) as [i Hi]. destruct (He b ltac:(right; by left)) as [j Hj]. rewrite Hi. simpl. rewrite Hj. simpl.
      exists [(i, j)]. split; [done|]. intros i' j'. rewrite list_elem_of_singleton. naive_solver. }
    simpl. rewrite Hpush. simpl. destruct (IH (acc ++ qs)) as (ps & Hf & Hps).
    { intros e' a He'. apply Hdom. by right. }
    exists (qs ++ ps). rewrite Hf, <- app_assoc. split; [done|]. intros i j. rewrite elem_of_app, Hqs, Hps. split.
    + intros [(a & b & ?)|(e' & a & b & He' & ?)]; [exists e, a, b; split; [by left|done]|exists e', a, b; split; [by right|done]].
    + intros (e' & a & b & [->|He']%elem_of_cons & ?); [left; eauto|right; exists e', a, b; done].
Qed.

Lemma by_address_lookup (l : list str) a i :
  NoDup l → (list_to_map (zip l (seq 0 (length l))) : gmap str nat) !! a = Some i ↔ l !! i = Some a.
Proof.
  intros Hnd. rewrite <- elem_of_list_to_map by (rewrite fst_zip; [done|rewrite length_seq; lia]).
  rewrite list_elem_of_lookup. split.
  - intros (k & Hk). apply lookup_zip_with_Some in Hk as (x & y & E & Hx & Hy). simplify_eq.
    apply lookup_seq in Hy as [-> _]. done.
  - intros Hi. exists i. apply lookup_zip_with_Some. exists a, i. split_and!; [done..|].
    apply lookup_seq. split; [done|]. by eapply lookup_lt_Some.
Qed.

(** ** The graph of the events *)

Definition successors (g : PropagationGraph) (v : nat) : list nat :=
  take (offset g (S v) - offset g v) (drop (offset g v) (edges g)).

Lemma sorted_addresses_spec (l : list NormalizedEvent) :
  StronglySorted (λ a b, str_compare a b = Lt) (sorted_addresses l) ∧
  ∀ a, a ∈ sorted_addresses l ↔ ∃ e, e ∈ l ∧ a ∈ event_endpoints e.
Proof.
  unfold sorted_addresses. set (u := list_to_set _). destruct (sort_dedup_strict str_compare (elements u)) as [Hs Hin].
  split; [done|]. intros a. rewrite Hin, elem_of_elements. subst u. rewrite elem_of_list_to_set, list_elem_of_bind. naive_solver.
Qed.

Lemma event_endpoints_elem e a : a ∈ event_endpoints e ↔ from e = Some a ∨ to e = Some a.
Proof. unfold event_endpoints. rewrite elem_of_app. destruct (from e), (to e); simpl; rewrite ?list_elem_of_singleton, ?elem_of_nil; naive_solver. Qed.

(** A strictly sorted list of pairs as a graph. *)
Lemma pairs_graph (addrs : list str) ps offs :
  StronglySorted (λ a b, pair_compare a b = Lt) ps → Forall (λ p, p.1 < length addrs ∧ p.2 < length addrs) ps →
  length offs = S (length addrs) → (∀ j, j ≤ length addrs → offs !! j = Some (below ps j)) →
  let g := {| addresses := addrs; offsets := offs; edges := snd <$> ps |} in
  graph_ok g ∧ (∀ i j, edge g i j ↔ (i, j) ∈ ps) ∧ ∀ v, v < length addrs → StronglySorted lt (successors g v).
Proof.
  intros Hs Hr Hl Ho g. rewrite Forall_forall in Hr.
  assert (∀ j, j ≤ length addrs → offset g j = below ps j) as Hoff by (intros j Hj; unfold offset; simpl; by rewrite Ho).
  assert (∀ v i p, v < length addrs → ps !! i = Some p → offset g v ≤ i < offset g (S v) ↔ p.1 = v) as Hrange.
  { intros v i p Hv Hi. rewrite !Hoff by lia.
    pose proof (below_lookup ps i p v Hs Hi). pose proof (below_lookup ps i p (S v) Hs Hi). lia. }
  assert (∀ k w, edges g !! k = Some w ↔ ∃ p, ps !! k = Some p ∧ w = p.2) as Hedges.
  { intros k w. change (edges g) with (snd <$> ps). rewrite list_lookup_fmap_Some. naive_solver. }
  split_and!.
  - split; simpl; [done|rewrite Hoff by lia| | |].
    + unfold below. rewrite filter_none; [done|intros; lia].
    + intros v Hv. rewrite !Hoff, below_S by lia. lia.
    + rewrite Hoff, length_fmap by done. apply below_all, Forall_forall. intros p Hp. by apply Hr.
    + apply Forall_fmap, Forall_forall. intros p Hp. by apply Hr.
  - intros i j. split.
    + intros (k & Hi & Hk & Hj). apply Hedges in Hj as (p & Hj & ->).
      apply (Hrange i k p Hi Hj) in Hk. subst i. apply list_elem_of_lookup. exists k. by destruct p.
    + intros Hp. apply list_elem_of_lookup in Hp as Hk. destruct Hk as [k Hk]. destruct (Hr _ Hp) as [Hi Hj].
      exists k. simpl in *.
      pose proof (proj2 (Hrange i k (i, j) Hi Hk) eq_refl). split_and!; [done|lia..|].
      apply Hedges. by exists (i, j).
  - intros v Hv. apply StronglySorted_lookup_intro. intros a b x y Hab Ha Hb. unfold successors in *.
    apply lookup_take_Some in Ha as [Ha Hla]. apply lookup_take_Some in Hb as [Hb Hlb]. rewrite lookup_drop in Ha, Hb.
    apply Hedges in Ha as (p & Ha & ->). apply Hedges in Hb as (q & Hb & ->).
    assert (p.1 = v) as Hp by (apply (Hrange v _ p Hv Ha); lia). assert (q.1 = v) as Hq by (apply (Hrange v _ q Hv Hb); lia).
    assert (pair_compare p q = Lt) as Hpq by (apply (StronglySorted_lookup (λ a b, pair_compare a b = Lt) ps (offset g v + a) (offset g v + b)); [done|lia|done..]).
    unfold pair_compare in Hpq. rewrite Hp, Hq, Nat.compare_refl in Hpq. simpl in Hpq. by apply Nat.compare_lt_iff in Hpq.
Qed.
Section Build.
Context (events : list NormalizedEvent) (include : NormalizedEvent → bool).

(** An included event from [a] to [b]. *)
Definition sends (a b : str) : Prop :=
  ∃ e, e ∈ events ∧ include e = true ∧ from e = Some a ∧ to e = Some b.

(** An address of an included event. *)
Definition participates (a : str) : Prop :=
  ∃ e, e ∈ events ∧ include e = true ∧ (from e = Some a ∨ to e = Some a).

Record graph_of_events (g : PropagationGraph) : Prop := {
  graph_addresses_sorted : StronglySorted (λ a b, str_compare a b = Lt) (addresses g);
  graph_addresses a : a ∈ addresses g ↔ participates a;
  graph_is_ok : graph_ok g;
  graph_edges i j : edge g i j ↔ ∃ a b, addresses g !! i = Some a ∧ addresses g !! j = Some b ∧ sends a b;
  graph_successors v : v < length (addresses g) → StronglySorted lt (successors g v);
}.

Lemma build_filtered_ok : ∃ g, build_filtered events include = Some g ∧ graph_of_events g.
Proof using Type.
  unfold build_filtered. set (inc := filter _ events).
  assert (∀ e, e ∈ inc ↔ include e = true ∧ e ∈ events) as Hinc by (intros e; unfold inc; by rewrite list_elem_of_filter).
  destruct (sorted_addresses_spec inc) as [Hsorted Hin]. set (addrs := sorted_addresses inc) in *.
  assert (NoDup addrs) as Hnd by by apply (strictly_sorted_NoDup str_compare).
  set (by_address := list_to_map _ : gmap str nat).
  assert (∀ a i, by_address !! a = Some i ↔ addrs !! i = Some a) as Hby by (intros; by apply by_address_lookup).
  destruct (push_pairs by_address inc []) as (ps & -> & Hps).
  { intros e a He Ha. destruct (proj1 (list_elem_of_lookup addrs a)) as [i Hi]; [apply Hin; eauto|]. exists i. by apply Hby. }
  cbn [mbind option_bind app]. destruct (sort_dedup_strict pair_compare ps) as [Hss Hsin]. set (sps := sort_dedup pair_compare ps) in *.
  assert (∀ i j, (i, j) ∈ sps ↔ ∃ a b, addrs !! i = Some a ∧ addrs !! j = Some b ∧ sends a b) as Hpairs.
  { intros i j. rewrite Hsin, Hps. unfold sends. split.
    - intros (e & a & b & [? ?]%Hinc & Hf & Ht & Ha%Hby & Hb%Hby). exists a, b. split_and!; [done..|]. by exists e.
    - intros (a & b & Ha%Hby & Hb%Hby & e & He & Hi & Hf & Ht). exists e, a, b. split_and!; [|done..]. by apply Hinc. }
  assert (Forall (λ p, p.1 < length addrs ∧ p.2 < length addrs) sps) as Hr.
  { apply Forall_forall. intros [i j] Hp. apply Hpairs in Hp as (a & b & Ha & Hb & _). simpl. split; by eapply lookup_lt_Some. }
  destruct (count_edges sps (replicate (S (length addrs)) 0) (length addrs)) as (l1 & -> & Hl1 & Hc1).
  { apply length_replicate. }
  { eapply Forall_impl; [exact Hr|]. by intros ? [? _]. }
  cbn [mbind option_bind]. destruct (sum_offsets sps l1 (length addrs) (length addrs) Hl1) as (l2 & -> & Hl2 & Hs2); [done| |].
  { intros j Hj. apply (Hc1 j 0). apply lookup_replicate. split; [done|lia]. }
  cbn [mbind option_bind]. eexists. split; [done|].
  destruct (pairs_graph addrs sps l2 Hss Hr Hl2) as (Hok & Hedges & Hsucc).
  { intros j Hj. by rewrite Hs2, decide_True. }
  constructor; try done.
  - intros a. simpl. rewrite Hin. unfold participates. setoid_rewrite Hinc. setoid_rewrite event_endpoints_elem. naive_solver.
  - intros i j. by rewrite Hedges, Hpairs.
Qed.

Lemma edges_send g i j a b :
  graph_of_events g → addresses g !! i = Some a → addresses g !! j = Some b → rtc (edge g) i j ↔ rtc sends a b.
Proof using Type.
  intros Hg Hi Hj. split.
  - intros Hr. revert a Hi. induction Hr as [i|i k j He _ IH]; intros a Hi; [by simplify_eq|].
    apply (graph_edges g Hg) in He as (a' & c & Ha & Hc & Hs). simplify_eq. eapply rtc_l; [exact Hs|]. by apply IH.
  - intros Hr. revert i Hi. induction Hr as [a|a c b Hs _ IH]; intros i Hi.
    + pose proof (strictly_sorted_NoDup str_compare _ (graph_addresses_sorted g Hg)) as Hnd.
      by rewrite (NoDup_lookup _ i j a Hnd Hi Hj).
    + assert (c ∈ addresses g) as Hc.
      { apply (graph_addresses g Hg). destruct Hs as (e & ? & ? & ? & ?). exists e. auto. }
      apply list_elem_of_lookup in Hc as [k Hk]. eapply rtc_l; [|by apply (IH Hj k)].
      apply (graph_edges g Hg). by exists a, c.
Qed.
End Build.

(** C16: Building the propagation graph never panics. Its addresses are, in increasing
    order and once each, those that send or receive in an included event; [offsets]
    splits the edges into one strictly increasing run per address, and the run of an
    address holds exactly the addresses that an included event leads to from it. *)
Theorem build_filtered_graph events include :
  ∃ g, build_filtered events include = Some g ∧
    StronglySorted (λ a b, str_compare a b = Lt) (addresses g) ∧
    (∀ a, a ∈ addresses g ↔ participates events include a) ∧
    length (offsets g) = S (length (addresses g)) ∧ offset g (length (addresses g)) = length (edges g) ∧
    ∀ v a, addresses g !! v = Some a →
      offset g v ≤ offset g (S v) ∧ StronglySorted lt (successors g v) ∧
      ∀ w b, addresses g !! w = Some b → w ∈ successors g v ↔ sends events include a b.
Proof.
  destruct (build_filtered_ok events include) as (g & Hb & Hg). exists g. pose proof (graph_is_ok _ _ _ Hg) as Hok.
  split_and!; [done|by apply Hg|by apply Hg|by apply Hok|by apply Hok|]. intros v a Hv.
  pose proof (lookup_lt_Some _ _ _ Hv) as Hlt. split_and!; [by apply Hok|by eapply graph_successors|]. intros w b Hw.
  assert (w ∈ successors g v ↔ edge g v w) as ->.
  { unfold successors, edge. rewrite list_elem_of_lookup. split.
    - intros (i & Hi). apply lookup_take_Some in Hi as [Hi Hl]. rewrite lookup_drop in Hi. exists (offset g v + i). split_and!; [done|lia..|done].
    - intros (i & _ & Hi & Hwi). exists (i - offset g v). apply lookup_take_Some. rewrite lookup_drop.
      split; [|lia]. by replace (offset g v + (i - offset g v)) with i by lia. }
  rewrite (graph_edges _ _ g Hg). split; [intros (a' & b' & ? & ? & ?); by simplify_eq|]. intros Hs. by exists a, b.
Qed.

(** C15: The components of the graph of any events: Tarjan's iteration terminates within
    its fuel, never panics and returns every address exactly once; two addresses are in
    the same component iff included events lead from each to the other, and components
    come in reverse topological order, each in increasing order. *)
Theorem components_of_events events include :
  ∃ g cs, build_filtered events include = Some g ∧ strongly_connected_components g = Some cs ∧
    mjoin cs ≡ₚ seq 0 (length (addresses g)) ∧
    Forall (λ c, c ≠ [] ∧ StronglySorted lt c) cs ∧
    ∀ i j c d x y a b, cs !! i = Some c → cs !! j = Some d → x ∈ c → y ∈ d →
      addresses g !! x = Some a → addresses g !! y = Some b →
      (i = j ↔ rtc (sends events include) a b ∧ rtc (sends events include) b a) ∧
      (rtc (sends events include) a b → j ≤ i).
Proof.
  destruct (build_filtered_ok events include) as (g & Hb & Hg).
  destruct (components_of_graph g (graph_is_ok _ _ _ Hg)) as (cs & Hcs & Hperm & Hne & Hscc & Htop).
  exists g, cs. split_and!; [done..|]. intros i j c d x y a b Hc Hd Hx Hy Ha Hb'.
  rewrite <- (edges_send _ _ g x y a b Hg Ha Hb'), <- (edges_send _ _ g y x b a Hg Hb' Ha).
  split; [|by eapply Htop]. split.
  - intros <-. simplify_eq. apply (Hscc c x y); [by eapply list_elem_of_lookup_2|done..].
  - intros [Hxy Hyx]. pose proof (Htop i j c d x y Hc Hd Hx Hy Hxy). pose proof (Htop j i d c y x Hd Hc Hy Hx Hyx). lia.
Qed.
