(* ===== verification/Evidence.v ===== *)
(** The evidence of a candidate and its normalization ([analysis/model/evidence.rs],
    [analysis/analysis/mod.rs]): canonical identities, duplicate events, conflicts,
    merged verifications. Shared strings ([Arc<str>]) are their values, so interning
    them is the identity and has no definition. *)

From S2P Require Import Prelude Text CanonicalJson Anchors SortedLists Events.

Inductive EvidenceStatus := NotRequested | Requested | Complete | Empty | Truncated | Failed.
#[export] Instance EvidenceStatus_eq_dec : EqDecision EvidenceStatus.
Proof. solve_decision. Defined.

Definition status_ordinal (s : EvidenceStatus) : nat :=
  match s with NotRequested => 0 | Requested => 1 | Complete => 2 | Empty => 3 | Truncated => 4 | Failed => 5 end.

Record EvidenceQuality := {
  assets : option EvidenceStatus;
  histories : option EvidenceStatus;
  transactions : option EvidenceStatus;
  prices : option EvidenceStatus;
  authority : option EvidenceStatus;
  sale_prices_parsed : Z;
  sale_prices_total : Z;
  candidate_assets_analyzed : Z;
  candidate_assets_total : Z;
  history_assets_requested : Z;
  history_assets_succeeded : Z;
  history_assets_complete : Z;
  history_assets_failed : Z;
  history_assets_not_requested : Z;
  history_assets_truncated : Z;
  transactions_fetched : Z;
  transactions_provider_reported : Z;
  transactions_failed : Z;
  signature_discovery_failures : Z;
  transaction_detail_failures : Z;
  unattributed_solana_transactions : Z;
  unresolved_compressed_mints : Z;
  missing_mint_pre_balances : Z;
  missing_collection_authorities : Z;
  supplemental_query_failures : Z;
  quality_failures : list str;
}.

Definition with_failures (q : EvidenceQuality) (failures : list str) : EvidenceQuality :=
  {| assets := assets q; histories := histories q; transactions := transactions q; prices := prices q;
     authority := authority q; sale_prices_parsed := sale_prices_parsed q; sale_prices_total := sale_prices_total q;
     candidate_assets_analyzed := candidate_assets_analyzed q; candidate_assets_total := candidate_assets_total q;
     history_assets_requested := history_assets_requested q; history_assets_succeeded := history_assets_succeeded q;
     history_assets_complete := history_assets_complete q; history_assets_failed := history_assets_failed q;
     history_assets_not_requested := history_assets_not_requested q; history_assets_truncated := history_assets_truncated q;
     transactions_fetched := transactions_fetched q; transactions_provider_reported := transactions_provider_reported q;
     transactions_failed := transactions_failed q; signature_discovery_failures := signature_discovery_failures q;
     transaction_detail_failures := transaction_detail_failures q;
     unattributed_solana_transactions := unattributed_solana_transactions q;
     unresolved_compressed_mints := unresolved_compressed_mints q; missing_mint_pre_balances := missing_mint_pre_balances q;
     missing_collection_authorities := missing_collection_authorities q;
     supplemental_query_failures := supplemental_query_failures q; quality_failures := failures |}.

Record RelationVerification := {
  seed_id : Z;
  official_controller_continuity : bool;
  authorized_reissue : bool;
  verified_migration : bool;
  official_collection_relation : bool;
  complete : bool;
  evidence_keys : list str;
  failures : list str;
}.

Record EvidenceObservation := { source : str; request_key : str; observed_at : Z; status : EvidenceStatus }.
#[export] Instance EvidenceObservation_eq_dec : EqDecision EvidenceObservation.
Proof. solve_decision. Defined.

(** The derived order of observations. *)
Definition observation_compare (a b : EvidenceObservation) : comparison :=
  then_with (str_compare (source a) (source b))
    (then_with (str_compare (request_key a) (request_key b))
      (then_with (Z.compare (observed_at a) (observed_at b))
        (Nat.compare (status_ordinal (status a)) (status_ordinal (status b))))).

Record EvidenceBundle := {
  candidate : ContractKey;
  deployment_timestamp : option Z;
  duplicate_content_timestamp : option Z;
  events : list NormalizedEvent;
  holders : list (NftKey * str);
  controllers : list str;
  relation_verifications : list RelationVerification;
  provenance : list EvidenceObservation;
  quality : EvidenceQuality;
}.

(** ** Canonical identities *)

Definition is_ascii_uppercase (c : chr) : bool := in_chars 65 90 c.

Definition canonicalize_arc (chain : ChainId) (value : str) (token_id : bool) : str :=
  let trimmed := trim value in
  if negb (is_evm chain) then if decide (str_len trimmed ≠ str_len value) then trimmed else value
  else if token_id && negb (bool_decide (trimmed = [])) && forallb is_ascii_digit trimmed then
    let digits := trim_start_char 48 trimmed in
    let normalized := match digits with [] => [48%N] | _ => digits end in
    if decide (normalized ≠ value) then normalized else value
  else if bool_decide (str_len trimmed = str_len value) && negb (existsb is_ascii_uppercase trimmed) then value
  else ascii_lowercase <$> trimmed.

Definition canonicalize_nft (nft : NftKey) : NftKey :=
  {| nft_chain := nft_chain nft; nft_contract := canonicalize_arc (nft_chain nft) (nft_contract nft) false;
     nft_token := canonicalize_arc (nft_chain nft) (nft_token nft) true |}.

Definition canonicalize_event (e : NormalizedEvent) : NormalizedEvent :=
  let canonical address := canonicalize_arc (chain e) address false in
  {| chain := chain e; tx_id := canonical (tx_id e); event_index := event_index e; timestamp := timestamp e;
     block_number := block_number e; kind := kind e; channel := channel e; from := canonical <$> from e;
     to := canonical <$> to e; fee_payer := canonical <$> fee_payer e; payment_payer := canonical <$> payment_payer e;
     payment_recipient := canonical <$> payment_recipient e; nft := canonicalize_nft <$> nft e;
     native_amount := native_amount e; usd_micros := usd_micros e; gas_native := gas_native e;
     gas_usd_micros := gas_usd_micros e; marketplace_fee_native := marketplace_fee_native e;
     marketplace_fee_usd_micros := marketplace_fee_usd_micros e |}.

Definition canonicalize_holder (entry : NftKey * str) : NftKey * str :=
  (canonicalize_nft entry.1, canonicalize_arc (nft_chain entry.1) entry.2 false).

Definition canonicalize_evidence_identities (b : EvidenceBundle) : EvidenceBundle :=
  let chain := key_chain (candidate b) in
  {| candidate := {| key_chain := chain; key_address := canonicalize_arc chain (key_address (candidate b)) false |};
     deployment_timestamp := deployment_timestamp b; duplicate_content_timestamp := duplicate_content_timestamp b;
     events := canonicalize_event <$> events b; holders := canonicalize_holder <$> holders b;
     controllers := (λ controller, canonicalize_arc chain controller false) <$> controllers b;
     relation_verifications := relation_verifications b; provenance := provenance b; quality := quality b |}.

(** ** Duplicate events *)

(** The event with [event_index] 0. *)
Definition identity_free (e : NormalizedEvent) : NormalizedEvent :=
  {| chain := chain e; tx_id := tx_id e; event_index := 0; timestamp := timestamp e;
     block_number := block_number e; kind := kind e; channel := channel e; from := from e;
     to := to e; fee_payer := fee_payer e; payment_payer := payment_payer e;
     payment_recipient := payment_recipient e; nft := nft e;
     native_amount := native_amount e; usd_micros := usd_micros e; gas_native := gas_native e;
     gas_usd_micros := gas_usd_micros e; marketplace_fee_native := marketplace_fee_native e;
     marketplace_fee_usd_micros := marketplace_fee_usd_micros e |}.

Fixpoint retain_exact (exact : list NormalizedEvent) (events : list NormalizedEvent) : list NormalizedEvent :=
  match events with
  | [] => []
  | e :: events =>
      if decide (identity_free e ∈ exact) then retain_exact exact events
      else e :: retain_exact (identity_free e :: exact) events
  end.

Definition NftMovementKey : Type := ChainId * str * NftKey * str * str.

Definition nft_movement_key (e : NormalizedEvent) : option NftMovementKey :=
  n ← nft e; f ← from e; t ← to e; Some (chain e, tx_id e, n, f, t).

Definition keeps_movement (sales : list NftMovementKey) (e : NormalizedEvent) : Prop :=
  kind e ≠ Transfer ∨ match nft_movement_key e with None => True | Some key => key ∉ sales end.
#[export] Instance keeps_movement_dec sales e : Decision (keeps_movement sales e).
Proof. unfold keeps_movement. destruct (nft_movement_key e); solve_decision. Defined.

Definition reconcile_duplicate_events (events : list NormalizedEvent) : list NormalizedEvent :=
  let events := retain_exact [] events in
  let sales := omap nft_movement_key (filter (λ e, is_nft_sale e = true) events) in
  filter (keeps_movement sales) events.

(** ** The order of events and conflicts *)

Definition Identity : Type := ChainId * str * Z.
Definition identity (e : NormalizedEvent) : Identity := (chain e, tx_id e, event_index e).

Definition event_compare (a b : NormalizedEvent) : comparison :=
  then_with (chain_compare (chain a) (chain b))
    (then_with (str_compare (tx_id a) (tx_id b)) (Z.compare (event_index a) (event_index b))).

(** The first pair of [windows(2)] with the same identity and different events. *)
Fixpoint conflict (events : list NormalizedEvent) : option Identity :=
  match events with
  | a :: (b :: _) as rest =>
      if decide (identity a = identity b ∧ a ≠ b) then Some (identity a) else conflict rest
  | _ => None
  end.

(** ** Verifications *)

Definition sort_verification (v : RelationVerification) : RelationVerification :=
  {| seed_id := seed_id v; official_controller_continuity := official_controller_continuity v;
     authorized_reissue := authorized_reissue v; verified_migration := verified_migration v;
     official_collection_relation := official_collection_relation v; complete := complete v;
     evidence_keys := sort_dedup str_compare (evidence_keys v); failures := sort_dedup str_compare (failures v) |}.

Definition combine (existing v : RelationVerification) : RelationVerification :=
  {| seed_id := seed_id existing;
     official_controller_continuity := official_controller_continuity existing || official_controller_continuity v;
     authorized_reissue := authorized_reissue existing || authorized_reissue v;
     verified_migration := verified_migration existing || verified_migration v;
     official_collection_relation := official_collection_relation existing || official_collection_relation v;
     complete := complete existing && complete v;
     evidence_keys := sort_dedup str_compare (evidence_keys existing ++ evidence_keys v);
     failures := sort_dedup str_compare (failures existing ++ failures v) |}.

(** The drained verifications, the last merged one first. *)
Definition merge_verification (verifications : list RelationVerification) (v : RelationVerification) : list RelationVerification :=
  match verifications with
  | existing :: rest => if decide (seed_id existing = seed_id v) then combine existing v :: rest else v :: verifications
  | [] => [v]
  end.

Definition merge_verifications (l : list RelationVerification) : list RelationVerification :=
  reverse (foldl merge_verification [] (sort_by (λ a b, Z.compare (seed_id a) (seed_id b)) (sort_verification <$> l))).

Definition holder_compare (a b : NftKey * str) : comparison :=
  then_with (nft_key_compare a.1 b.1) (str_compare a.2 b.2).

(** [Some identity] is the error of a conflict, which leaves the bundle as it is then. *)
Definition normalize_evidence (b : EvidenceBundle) : EvidenceBundle * option Identity :=
  let b := canonicalize_evidence_identities b in
  let sorted := sort_by event_compare (reconcile_duplicate_events (events b)) in
  match conflict sorted with
  | Some id =>
      ({| candidate := candidate b; deployment_timestamp := deployment_timestamp b;
          duplicate_content_timestamp := duplicate_content_timestamp b; events := sorted; holders := holders b;
          controllers := controllers b; relation_verifications := relation_verifications b;
          provenance := provenance b; quality := quality b |}, Some id)
  | None =>
      ({| candidate := candidate b; deployment_timestamp := deployment_timestamp b;
          duplicate_content_timestamp := duplicate_content_timestamp b;
          events := dedup_by (λ left_ right_, bool_decide (identity left_ = identity right_)) sorted;
          holders := sort_dedup holder_compare (holders b);
          controllers := sort_dedup str_compare (controllers b);
          relation_verifications := merge_verifications (relation_verifications b);
          provenance := sort_dedup observation_compare (provenance b);
          quality := with_failures (quality b) (sort_dedup str_compare (quality_failures (quality b))) |}, None)
  end.
