(* ===== verification/EvidenceFacts.v ===== *)
(** Normalized evidence: identities are canonical, events are distinct and ordered by
    identity, verifications are merged per seed, and normalizing again changes
    nothing. *)

From Stdlib Require Import Bool.
From S2P Require Import Prelude Text CanonicalJson Anchors SortedLists Events Evidence.

(** ** Orders *)

#[export] Instance chain_compare_laws : CompareLaws chain_compare.
Proof. apply (compare_map_laws ordinal Nat.compare), _. Qed.
#[export] Instance chain_compare_eq : CompareEq chain_compare.
Proof. intros x y. unfold chain_compare. rewrite Nat.compare_eq_iff. by destruct x, y. Qed.

#[export] Instance nft_key_compare_laws : CompareLaws nft_key_compare.
Proof.
  unfold nft_key_compare. apply then_with_laws; [apply (compare_map_laws _ chain_compare), _|].
  apply then_with_laws; apply (compare_map_laws _ str_compare), _.
Qed.
#[export] Instance nft_key_compare_eq : CompareEq nft_key_compare.
Proof.
  intros [c a t] [c' a' t']. unfold nft_key_compare. rewrite !then_with_eq, !compare_eq_iff. simpl. naive_solver.
Qed.

#[export] Instance holder_compare_laws : CompareLaws holder_compare.
Proof.
  unfold holder_compare. apply then_with_laws; [apply (compare_map_laws _ nft_key_compare), _|apply (compare_map_laws _ str_compare), _].
Qed.
#[export] Instance holder_compare_eq : CompareEq holder_compare.
Proof. intros [k a] [k' a']. unfold holder_compare. rewrite then_with_eq, !compare_eq_iff. simpl. naive_solver. Qed.

#[export] Instance observation_compare_laws : CompareLaws observation_compare.
Proof.
  unfold observation_compare. apply then_with_laws; [apply (compare_map_laws _ str_compare), _|].
  apply then_with_laws; [apply (compare_map_laws _ str_compare), _|].
  apply then_with_laws; [apply (compare_map_laws _ Z.compare), _|apply (compare_map_laws (λ o, status_ordinal (status o)) Nat.compare), _].
Qed.
#[export] Instance observation_compare_eq : CompareEq observation_compare.
Proof.
  intros [s r o t] [s' r' o' t']. unfold observation_compare. rewrite !then_with_eq, !compare_eq_iff. simpl.
  assert (status_ordinal t = status_ordinal t' ↔ t = t') as -> by (by destruct t, t'). naive_solver.
Qed.

#[export] Instance event_compare_laws : CompareLaws event_compare.
Proof.
  unfold event_compare. apply then_with_laws; [apply (compare_map_laws _ chain_compare), _|].
  apply then_with_laws; [apply (compare_map_laws _ str_compare), _|apply (compare_map_laws _ Z.compare), _].
Qed.

Lemma event_compare_identity a b : event_compare a b = Eq ↔ identity a = identity b.
Proof. unfold event_compare, identity. rewrite !then_with_eq, !compare_eq_iff. split; [intros (?&?&?); congruence|by intros [= -> -> ->]]. Qed.

(** ** Trimming *)

Definition starts_clean (s : str) : Prop := ∀ c, head s = Some c → is_whitespace c = false.

Lemma trim_start_clean s : starts_clean (trim_start s).
Proof. induction s as [|c s IH]; [done|]. simpl. destruct (is_whitespace c) eqn:E; [done|]. by intros d [= <-]. Qed.

Lemma trim_start_id s : starts_clean s → trim_start s = s.
Proof. destruct s as [|c s]; [done|]. intros Hc. simpl. by rewrite (Hc c). Qed.

Lemma trim_start_suffix s : ∃ p, s = p ++ trim_start s.
Proof.
  induction s as [|c s [p IH]]; [by exists []|]. simpl. destruct (is_whitespace c); [exists (c :: p); simpl; by rewrite <- IH|by exists []].
Qed.

Lemma trim_clean s : starts_clean (trim s) ∧ starts_clean (reverse (trim s)).
Proof.
  unfold trim. rewrite reverse_involutive. split; [|apply trim_start_clean].
  destruct (trim_start_suffix (reverse (trim_start s))) as [p Hp].
  set (t := trim_start (reverse (trim_start s))) in *. intros c Hc. apply (trim_start_clean s).
  assert (trim_start s = reverse t ++ reverse p) as -> by (by rewrite <- reverse_app, <- Hp, reverse_involutive).
  by destruct (reverse t).
Qed.

Lemma trim_id s : starts_clean s → starts_clean (reverse s) → trim s = s.
Proof. intros H1 H2. unfold trim. by rewrite (trim_start_id s), (trim_start_id (reverse s)), reverse_involutive. Qed.

Lemma trim_idemp s : trim (trim s) = trim s.
Proof. apply trim_id; apply trim_clean. Qed.

(** A property of the characters of a range by enumeration. *)
Lemma range_all (P : N → bool) lo len c :
  forallb (λ i, P (N.of_nat i)) (seq lo len) = true → (N.of_nat lo ≤ c < N.of_nat (lo + len))%N → P c = true.
Proof.
  intros Hall Hc. rewrite forallb_forall in Hall.
  rewrite <- (N2Nat.id c). apply Hall, in_seq. lia.
Qed.

Lemma lowercase_whitespace c : is_whitespace (ascii_lowercase c) = is_whitespace c.
Proof.
  unfold ascii_lowercase, in_chars. destruct (N.leb_spec 65 c), (N.leb_spec c 90); try done. simpl.
  apply eqb_prop, (range_all (λ d, eqb (is_whitespace (d + 32)) (is_whitespace d)) 65 26); [done|lia].
Qed.

Lemma starts_clean_fmap s : starts_clean (ascii_lowercase <$> s) ↔ starts_clean s.
Proof.
  destruct s as [|c s]; [done|]. unfold starts_clean. simpl. split; intros H d [= <-].
  - rewrite <- lowercase_whitespace. by apply H.
  - rewrite lowercase_whitespace. by apply H.
Qed.

Lemma trim_lowercase s : trim (ascii_lowercase <$> trim s) = ascii_lowercase <$> trim s.
Proof.
  apply trim_id; [by apply starts_clean_fmap, trim_clean|]. rewrite <- fmap_reverse. by apply starts_clean_fmap, trim_clean.
Qed.

(** ** Canonical identities *)

Lemma digit_not_whitespace c : is_ascii_digit c = true → is_whitespace c = false.
Proof.
  unfold is_ascii_digit, in_chars. intros [?%N.leb_le ?%N.leb_le]%andb_prop.
  apply negb_true_iff, (range_all (λ d, negb (is_whitespace d)) 48 10); [done|lia].
Qed.

Lemma lowercase_digit c : is_ascii_digit (ascii_lowercase c) = is_ascii_digit c.
Proof.
  unfold is_ascii_digit, ascii_lowercase, in_chars. destruct (N.leb_spec 65 c), (N.leb_spec c 90); simpl; try done.
  destruct (N.leb_spec 48 (c + 32)), (N.leb_spec (c + 32) 57), (N.leb_spec 48 c), (N.leb_spec c 57); done || lia.
Qed.

Lemma lowercase_not_upper c : is_ascii_uppercase (ascii_lowercase c) = false.
Proof.
  unfold is_ascii_uppercase, ascii_lowercase, in_chars.
  destruct (N.leb_spec 65 c), (N.leb_spec c 90); simpl;
    destruct (N.leb_spec 65 c), (N.leb_spec c 90), (N.leb_spec 65 (c + 32)), (N.leb_spec (c + 32) 90); done || lia.
Qed.

Lemma digits_trim s : forallb is_ascii_digit s = true → trim s = s.
Proof.
  rewrite forallb_forall. intros Hd.
  assert (∀ t, (∀ c, c ∈ t → c ∈ s) → starts_clean t) as Hclean.
  { intros t Ht c Hc. apply digit_not_whitespace, Hd, list_elem_of_In, Ht. destruct t; simplify_eq/=. by left. }
  apply trim_id; apply Hclean; [done|]. intros c. by rewrite elem_of_reverse.
Qed.

Lemma trim_start_char_spec c s : Forall (λ d, d ∈ s) (trim_start_char c s) ∧ head (trim_start_char c s) ≠ Some c.
Proof.
  induction s as [|d s [IH1 IH2]]; [done|]. simpl. case_match eqn:E.
  - split; [|done]. eapply Forall_impl; [exact IH1|]. intros x Hx. by right.
  - split; [|simpl; intros [= ->]; by rewrite N.eqb_refl in E]. by apply Forall_forall.
Qed.

Lemma trim_start_char_id c s : head s ≠ Some c → trim_start_char c s = s.
Proof. destruct s as [|d s]; [done|]. simpl. intros H. destruct (N.eqb_spec d c); [by subst|done]. Qed.

Lemma canonicalize_arc_idemp chain value token_id :
  canonicalize_arc chain (canonicalize_arc chain value token_id) token_id = canonicalize_arc chain value token_id.
Proof.
  remember (canonicalize_arc chain value token_id) as v eqn:Hv.
  assert (v = value → canonicalize_arc chain v token_id = v) as Hsame by (intros E; by rewrite E, <- Hv at 1).
  unfold canonicalize_arc in Hv. destruct (negb (is_evm chain)) eqn:Hc.
  { revert Hv. case_decide; [|by auto]. intros ->. unfold canonicalize_arc. rewrite Hc, trim_idemp. by case_decide. }
  destruct (token_id && negb (bool_decide (trim value = [])) && forallb is_ascii_digit (trim value)) eqn:Hd.
  - revert Hv. case_decide; [|by auto]. intros ->. clear H. apply andb_prop in Hd as [[-> Hne]%andb_prop Hd].
    set (digits := trim_start_char 48 (trim value)).
    destruct (trim_start_char_spec 48 (trim value)) as [Hin Hhead]. fold digits in Hin, Hhead.
    set (normalized := match digits with [] => [48%N] | _ => digits end).
    assert (forallb is_ascii_digit normalized = true) as Hnd.
    { apply forallb_forall. rewrite forallb_forall in Hd. intros c Hc'. rewrite Forall_forall in Hin.
      subst normalized. destruct digits; [destruct Hc' as [<-|[]]; done|]. apply Hd, list_elem_of_In, Hin, list_elem_of_In, Hc'. }
    unfold canonicalize_arc. rewrite Hc, (digits_trim normalized) by done. rewrite Hnd.
    rewrite bool_decide_eq_false_2 by (subst normalized; by destruct digits). simpl.
    assert (match trim_start_char 48 normalized with [] => [48%N] | _ => trim_start_char 48 normalized end = normalized) as ->
      by (subst normalized; destruct digits; [done|]; by rewrite trim_start_char_id).
    by case_decide.
  - destruct (bool_decide (str_len (trim value) = str_len value) && negb (existsb is_ascii_uppercase (trim value))) eqn:Hs; [by auto|].
    subst v. unfold canonicalize_arc. rewrite Hc, trim_lowercase.
    assert (forallb is_ascii_digit (ascii_lowercase <$> trim value) = forallb is_ascii_digit (trim value)) as ->.
    { clear. induction (trim value) as [|c s IH]; [done|]. rewrite fmap_cons. cbn [forallb]. by rewrite lowercase_digit, IH. }
    assert (bool_decide (ascii_lowercase <$> trim value = []) = bool_decide (trim value = [])) as ->.
    { apply bool_decide_ext. by destruct (trim value). }
    rewrite Hd. rewrite bool_decide_eq_true_2 by done.
    assert (existsb is_ascii_uppercase (ascii_lowercase <$> trim value) = false) as ->; [|done].
    clear. induction (trim value) as [|c s IH]; [done|]. rewrite fmap_cons. cbn [existsb]. by rewrite lowercase_not_upper, IH.
Qed.

Lemma option_fmap_idemp {A} (f : A → A) (o : option A) : (∀ x, f (f x) = f x) → f <$> (f <$> o) = f <$> o.
Proof. intros Hf. destruct o; simpl; [by rewrite Hf|done]. Qed.

Lemma canonicalize_nft_idemp k : canonicalize_nft (canonicalize_nft k) = canonicalize_nft k.
Proof. unfold canonicalize_nft; simpl. by rewrite !canonicalize_arc_idemp. Qed.

Lemma canonicalize_event_idemp e : canonicalize_event (canonicalize_event e) = canonicalize_event e.
Proof.
  unfold canonicalize_event; simpl. rewrite canonicalize_arc_idemp.
  by rewrite !option_fmap_idemp by auto using canonicalize_arc_idemp, canonicalize_nft_idemp.
Qed.

Lemma canonicalize_holder_idemp h : canonicalize_holder (canonicalize_holder h) = canonicalize_holder h.
Proof. unfold canonicalize_holder; simpl. by rewrite canonicalize_nft_idemp, canonicalize_arc_idemp. Qed.

(** A list of canonical elements is canonical. *)
Lemma fmap_canonical {A} (f : A → A) (l : list A) : (∀ x, x ∈ l → f x = x) → f <$> l = l.
Proof.
  induction l as [|x l IH]; intros Hl; [done|]. simpl. rewrite (Hl x) by (by left). f_equal. apply IH. intros y Hy. apply Hl. by right.
Qed.

(** ** Duplicate events *)

Lemma retain_exact_spec exact l :
  NoDup (identity_free <$> retain_exact exact l) ∧
  (∀ e, e ∈ retain_exact exact l → e ∈ l ∧ identity_free e ∉ exact) ∧
  ∀ e, e ∈ l → identity_free e ∈ exact ∨ ∃ e', e' ∈ retain_exact exact l ∧ identity_free e' = identity_free e.
Proof.
  revert exact. induction l as [|x l IH]; intros exact; simpl.
  { split_and!; [constructor|by intros e ?%elem_of_nil|by intros e ?%elem_of_nil]. }
  case_decide as Hx.
  - destruct (IH exact) as (Hnd & Hin & Hall). split_and!; [done| |].
    + intros e He. destruct (Hin e He). split; [by right|done].
    + intros e [->|He]%elem_of_cons; [by left|auto].
  - destruct (IH (identity_free x :: exact)) as (Hnd & Hin & Hall). split_and!.
    + simpl. constructor; [|done]. intros (e & He & He')%list_elem_of_fmap. apply Hin in He' as [_ Hne].
      apply Hne. rewrite He. by left.
    + intros e [->|He]%elem_of_cons; [split; [by left|done]|]. destruct (Hin e He) as [Hel Hne].
      split; [by right|]. intros ?. apply Hne. by right.
    + intros e [->|He]%elem_of_cons; [right; exists x; split; [by left|done]|].
      destruct (Hall e He) as [[->|?]%elem_of_cons|(e' & ? & ?)]; [right; exists x; split; [by left|done]|by left|].
      right. exists e'. split; [by right|done].
Qed.

Lemma retain_exact_id exact l :
  NoDup (identity_free <$> l) → (∀ e, e ∈ l → identity_free e ∉ exact) → retain_exact exact l = l.
Proof.
  revert exact. induction l as [|x l IH]; intros exact Hnd Hin; [done|]. simpl in *. apply NoDup_cons in Hnd as [Hx Hnd].
  rewrite decide_False by (apply Hin; by left). f_equal. apply IH; [done|]. intros e He [E|]%elem_of_cons.
  - apply Hx. rewrite <- E. by apply list_elem_of_fmap_2.
  - eapply Hin; [by right|done].
Qed.

(** The movements of the sales among [l]. *)
Definition sale_movements (l : list NormalizedEvent) : list NftMovementKey :=
  omap nft_movement_key (filter (λ e, is_nft_sale e = true) l).

Definition reconciled (l : list NormalizedEvent) : Prop :=
  NoDup (identity_free <$> l) ∧ ∀ e, e ∈ l → keeps_movement (sale_movements l) e.

Lemma elem_of_sale_movements l key :
  key ∈ sale_movements l ↔ ∃ e, e ∈ l ∧ is_nft_sale e = true ∧ nft_movement_key e = Some key.
Proof.
  unfold sale_movements. rewrite list_elem_of_omap. setoid_rewrite list_elem_of_filter. naive_solver.
Qed.

Lemma keeps_movement_mono l1 l2 e :
  (∀ key, key ∈ sale_movements l1 → key ∈ sale_movements l2) → keeps_movement (sale_movements l2) e → keeps_movement (sale_movements l1) e.
Proof. unfold keeps_movement. intros Hs [?|Hk]; [by left|right]. destruct (nft_movement_key e); auto. Qed.

Lemma reconcile_reconciled l : reconciled (reconcile_duplicate_events l).
Proof.
  unfold reconcile_duplicate_events. destruct (retain_exact_spec [] l) as (Hnd & _ & _).
  set (l' := retain_exact [] l) in *. split.
  - eapply sublist_NoDup; [exact Hnd|]. by apply fmap_sublist, sublist_filter.
  - intros e [He _]%list_elem_of_filter. eapply keeps_movement_mono; [|exact He].
    intros key. rewrite !elem_of_sale_movements. intros (e' & [_ ?]%list_elem_of_filter & ? & ?). by exists e'.
Qed.

Lemma reconcile_id l : reconciled l → reconcile_duplicate_events l = l.
Proof.
  intros [Hnd Hk]. unfold reconcile_duplicate_events. rewrite (retain_exact_id [] l Hnd) by (by intros ? _ ?%elem_of_nil).
  apply filter_all, Hk.
Qed.

Lemma reconciled_perm l1 l2 : l1 ≡ₚ l2 → reconciled l1 → reconciled l2.
Proof.
  intros Hp [Hnd Hk]. split; [by rewrite <- Hp|]. intros e He. eapply keeps_movement_mono; [|apply Hk; by rewrite Hp].
  intros key. rewrite !elem_of_sale_movements. by setoid_rewrite Hp.
Qed.

(** ** Conflicts *)

Lemma conflict_Some l id :
  conflict l = Some id → ∃ a b, a ∈ l ∧ b ∈ l ∧ a ≠ b ∧ identity a = id ∧ identity b = id.
Proof.
  induction l as [|a [|b l] IH]; [done..|]. cbn [conflict]. case_decide as Hab.
  - intros [= <-]. exists a, b. destruct Hab as [Hab ?]. split_and!; [by left|right; by left|done..].
  - intros Hc. destruct (IH Hc) as (x & y & ? & ? & ?). exists x, y. split_and!; [by right|by right|naive_solver..].
Qed.

(** Distinct sorted events without a conflict are strictly sorted. *)
Lemma conflict_None l :
  StronglySorted (λ a b, event_compare a b ≠ Gt) l → NoDup l → conflict l = None →
  StronglySorted (λ a b, event_compare a b = Lt) l.
Proof.
  induction 1 as [|a l Hs IH Ha]; intros Hnd Hc; [constructor|]. apply NoDup_cons in Hnd as [Hal Hnd].
  destruct l as [|b l]; [repeat constructor|]. cbn [conflict] in Hc. case_decide as Hab; [done|].
  specialize (IH Hnd Hc). constructor; [done|]. apply Forall_cons in Ha as [Hle _].
  assert (event_compare a b = Lt) as Hlt.
  { destruct (event_compare a b) eqn:E; [|done|done]. apply event_compare_identity in E. exfalso. apply Hab. split; [done|].
    intros ->. apply Hal. by left. }
  constructor; [done|]. apply StronglySorted_inv in IH as [_ Hb]. eapply Forall_impl; [exact Hb|].
  intros x Hx. apply (compare_lt_le_trans event_compare a b x Hlt). by rewrite Hx.
Qed.

Lemma conflict_strict l : StronglySorted (λ a b, event_compare a b = Lt) l → conflict l = None.
Proof.
  induction 1 as [|a l Hs IH Ha]; [done|]. destruct l as [|b l]; [done|]. cbn [conflict].
  apply Forall_cons in Ha as [Hab _]. rewrite decide_False; [done|]. intros [E _].
  apply event_compare_identity in E. congruence.
Qed.

Lemma dedup_identities l :
  StronglySorted (λ a b, event_compare a b = Lt) l →
  dedup_by (λ left_ right_, bool_decide (identity left_ = identity right_)) l = l.
Proof.
  destruct l as [|a l]; [done|]. cbn [dedup_by]. intros Hs. f_equal.
  revert a Hs. induction l as [|b l IH]; intros a Hs; [done|]. apply StronglySorted_inv in Hs as [Hs Ha].
  apply Forall_cons in Ha as [Hab _]. cbn [dedup_after]. rewrite bool_decide_eq_false_2.
  - f_equal. by apply IH.
  - intros E. symmetry in E. apply event_compare_identity in E. congruence.
Qed.

Lemma identity_free_NoDup l : NoDup (identity_free <$> l) → NoDup l.
Proof. apply NoDup_fmap_1. Qed.

(** ** Verifications *)

Definition seed_compare (a b : RelationVerification) : comparison := Z.compare (seed_id a) (seed_id b).

#[export] Instance seed_compare_laws : CompareLaws seed_compare.
Proof. apply (compare_map_laws seed_id Z.compare), _. Qed.

(** Every list of a verification is sorted. *)
Definition sorted_lists (v : RelationVerification) : Prop :=
  StronglySorted (λ a b, str_compare a b = Lt) (evidence_keys v) ∧ StronglySorted (λ a b, str_compare a b = Lt) (failures v).

Definition merged_ok (l : list RelationVerification) : Prop :=
  StronglySorted (λ a b, (seed_id a < seed_id b)%Z) l ∧ Forall sorted_lists l.

(** What a merged verification says of the verifications of its seed. *)
Definition of_seed (l : list RelationVerification) (seed : Z) (u : RelationVerification) : Prop := u ∈ l ∧ seed_id u = seed.

Definition any_of (flag : RelationVerification → bool) (l : list RelationVerification) (v : RelationVerification) : Prop :=
  flag v = true ↔ ∃ u, of_seed l (seed_id v) u ∧ flag u = true.

Definition collects (texts : RelationVerification → list str) (l : list RelationVerification) (v : RelationVerification) : Prop :=
  ∀ t, t ∈ texts v ↔ ∃ u, of_seed l (seed_id v) u ∧ t ∈ texts u.

Record merges (l : list RelationVerification) (v : RelationVerification) : Prop := {
  merges_some : ∃ u, of_seed l (seed_id v) u;
  merges_continuity : any_of official_controller_continuity l v;
  merges_reissue : any_of authorized_reissue l v;
  merges_migration : any_of verified_migration l v;
  merges_collection : any_of official_collection_relation l v;
  merges_complete : complete v = true ↔ ∀ u, of_seed l (seed_id v) u → complete u = true;
  merges_keys : collects evidence_keys l v;
  merges_failures : collects failures l v;
}.

(** [merges] is about what the verifications say, in any order. *)
Lemma merges_proper l1 l2 v :
  (∀ u, u ∈ l2 ↔ ∃ w, u = sort_verification w ∧ w ∈ l1) → merges l2 v → merges l1 v.
Proof.
  intros Hin.
  assert (∀ u, of_seed l2 (seed_id v) u ↔ ∃ w, of_seed l1 (seed_id v) w ∧ u = sort_verification w) as Hof.
  { intros u. unfold of_seed. rewrite Hin. split; [intros [(w & -> & ?) ?]; by exists w|intros (w & [? ?] & ->); split; [by exists w|done]]. }
  assert (∀ Q : RelationVerification → Prop, (∃ u, of_seed l2 (seed_id v) u ∧ Q u) ↔
    ∃ w, of_seed l1 (seed_id v) w ∧ Q (sort_verification w)) as Hex.
  { intros Q. setoid_rewrite Hof. split; [intros (u & (w & ? & ->) & ?); by exists w|intros (w & ? & ?); exists (sort_verification w); eauto]. }
  intros [Hs H1 H2 H3 H4 Hc Hk Hf]. unfold any_of, collects in *.
  setoid_rewrite Hex in H1. setoid_rewrite Hex in H2. setoid_rewrite Hex in H3. setoid_rewrite Hex in H4.
  setoid_rewrite Hex in Hk. setoid_rewrite Hex in Hf. simpl in *.
  setoid_rewrite (proj2 (sort_dedup_strict str_compare _)) in Hk. setoid_rewrite (proj2 (sort_dedup_strict str_compare _)) in Hf.
  constructor; try done.
  - destruct Hs as [u (w & ? & _)%Hof]. by exists w.
  - rewrite Hc. split; [|intros Hall u (w & ? & ->)%Hof; by apply (Hall w)]. intros Hall w Hw. apply (Hall (sort_verification w)), Hof. by exists w.
Qed.

Lemma merges_other l u v : seed_id u ≠ seed_id v → merges l v → merges (l ++ [u]) v.
Proof.
  intros Hne.
  assert (∀ w, of_seed (l ++ [u]) (seed_id v) w ↔ of_seed l (seed_id v) w) as Hof.
  { intros w. unfold of_seed. rewrite elem_of_app, list_elem_of_singleton. naive_solver. }
  intros [Hs H1 H2 H3 H4 Hc Hk Hf]. unfold any_of, collects in *. by constructor; unfold any_of, collects; setoid_rewrite Hof.
Qed.

Lemma merges_first l u : (∀ w, w ∈ l → seed_id w ≠ seed_id u) → merges (l ++ [u]) u.
Proof.
  intros Hne.
  assert (∀ w, of_seed (l ++ [u]) (seed_id u) w ↔ w = u) as Hof.
  { intros w. unfold of_seed. rewrite elem_of_app, list_elem_of_singleton. naive_solver. }
  by constructor; unfold any_of, collects; setoid_rewrite Hof; naive_solver.
Qed.

Lemma merges_combine l u v : seed_id u = seed_id v → merges l v → merges (l ++ [u]) (combine v u).
Proof.
  intros Heq.
  assert (∀ w, of_seed (l ++ [u]) (seed_id v) w ↔ of_seed l (seed_id v) w ∨ w = u) as Hof.
  { intros w. unfold of_seed. rewrite elem_of_app, list_elem_of_singleton. naive_solver. }
  intros [Hs H1 H2 H3 H4 Hc Hk Hf]. unfold any_of, collects in *. constructor; unfold any_of, collects; simpl; setoid_rewrite Hof.
  - destruct Hs as [w Hw]. eauto.
  - rewrite orb_true_iff, H1. naive_solver.
  - rewrite orb_true_iff, H2. naive_solver.
  - rewrite orb_true_iff, H3. naive_solver.
  - rewrite orb_true_iff, H4. naive_solver.
  - rewrite andb_true_iff, Hc. naive_solver.
  - intros t. rewrite (proj2 (sort_dedup_strict str_compare _)), elem_of_app, Hk. naive_solver.
  - intros t. rewrite (proj2 (sort_dedup_strict str_compare _)), elem_of_app, Hf. naive_solver.
Qed.

Lemma combine_sorted v u : sorted_lists (combine v u).
Proof. split; apply sort_dedup_strict; apply _. Qed.

(** The loop over verifications sorted by seed; [acc] is its reversed result. *)
Record loop_ok (before acc : list RelationVerification) : Prop := {
  loop_sorted : StronglySorted (λ a b, (seed_id b < seed_id a)%Z) acc;
  loop_lists : Forall sorted_lists acc;
  loop_merges : Forall (merges before) acc;
  loop_all u : u ∈ before → ∃ v, v ∈ acc ∧ seed_id v = seed_id u;
}.

Lemma merge_step before acc u :
  loop_ok before acc → sorted_lists u → (∀ w, w ∈ before → (seed_id w ≤ seed_id u)%Z) →
  loop_ok (before ++ [u]) (merge_verification acc u).
Proof.
  intros [Hacc Hsl Hm Hall] Hu Hle. rewrite Forall_forall in Hm.
  assert (∀ v, v ∈ acc → (seed_id v ≤ seed_id u)%Z) as Hvle.
  { intros v Hv. destruct (merges_some _ _ (Hm v Hv)) as (w & Hw & <-). auto. }
  assert (∀ w v (acc' : list RelationVerification), v ∈ acc' → (∀ w, w ∈ before → ∃ v', v' ∈ acc' ∧ seed_id v' = seed_id w) → seed_id v = seed_id u →
    w ∈ before ++ [u] → ∃ v', v' ∈ acc' ∧ seed_id v' = seed_id w) as Hcover.
  { intros w v acc' Hv Hb E [Hw|<-%list_elem_of_singleton]%elem_of_app; eauto. }
  unfold merge_verification. destruct acc as [|v acc].
  { assert (before = []) as ->.
    { destruct before as [|w before]; [done|]. destruct (Hall w ltac:(by left)) as (v & ?%elem_of_nil & _). done. }
    constructor; [repeat constructor|by constructor| |].
    - constructor; [|done]. apply (merges_first []). by intros w ?%elem_of_nil.
    - intros w Hw. eapply Hcover; [by left| |done|done]. by intros ? ?%elem_of_nil. }
  apply StronglySorted_inv in Hacc as [Hacc Hv]. rewrite Forall_forall in Hv. apply Forall_cons in Hsl as [Hsv Hsl].
  case_decide as E.
  - constructor.
    + constructor; [done|]. by apply Forall_forall.
    + constructor; [apply combine_sorted|done].
    + constructor; [apply merges_combine; [done|apply Hm; by left]|]. apply Forall_forall. intros x Hx.
      apply merges_other; [specialize (Hv x Hx); cbn in Hv; lia|apply Hm; by right].
    + intros w Hw. eapply Hcover; [by left| |done|done]. intros w' Hw'.
      destruct (Hall w' Hw') as (x & [->|Hx]%elem_of_cons & Hxs); [exists (combine v u); split; [by left|done]|exists x; split; [by right|done]].
  - assert (seed_id v < seed_id u)%Z as Hlt by (specialize (Hvle v ltac:(by left)); lia).
    assert (∀ x, x ∈ v :: acc → (seed_id x < seed_id u)%Z) as Hlt'.
    { intros x [->|Hx]%elem_of_cons; [done|]. specialize (Hv x Hx). cbn in Hv. lia. }
    constructor.
    + constructor; [constructor; [done|by apply Forall_forall]|]. by apply Forall_forall.
    + constructor; [done|by constructor].
    + constructor.
      * apply merges_first. intros w Hw. destruct (Hall w Hw) as (x & Hx & <-). specialize (Hlt' x Hx). lia.
      * apply Forall_forall. intros x Hx. apply merges_other; [specialize (Hlt' x Hx); lia|by apply Hm].
    + intros w Hw. eapply Hcover; [by left| |done|done]. intros w' Hw'.
      destruct (Hall w' Hw') as (x & Hx & ?). exists x. split; [by right|done].
Qed.

Lemma merge_loop before acc l :
  StronglySorted (λ a b, seed_compare a b ≠ Gt) (before ++ l) → Forall sorted_lists l → loop_ok before acc →
  loop_ok (before ++ l) (foldl merge_verification acc l).
Proof.
  revert before acc. induction l as [|u l IH]; intros before acc Hs Hl Hok; [by rewrite app_nil_r|].
  apply Forall_cons in Hl as [Hu Hl]. rewrite (cons_middle u before l), app_assoc in Hs |- *. cbn [foldl].
  apply IH; [done|done|]. apply merge_step; [done..|]. intros w Hw.
  apply StronglySorted_app in Hs as (_ & Hs & _). apply StronglySorted_app in Hs as (Hs & _ & _).
  specialize (Hs w u Hw ltac:(by left)). unfold seed_compare in Hs. by apply Z.compare_le_iff in Hs.
Qed.

Lemma StronglySorted_reverse {A} (R : A → A → Prop) l : StronglySorted R l → StronglySorted (flip R) (reverse l).
Proof.
  induction 1 as [|x l Hs IH Hx]; [constructor|]. rewrite reverse_cons. apply StronglySorted_app. split_and!; [|done|repeat constructor].
  intros y z Hy ->%list_elem_of_singleton. rewrite Forall_forall in Hx. apply Hx. by apply elem_of_reverse.
Qed.

Lemma merge_verifications_ok l :
  merged_ok (merge_verifications l) ∧ Forall (merges l) (merge_verifications l) ∧
  ∀ u, u ∈ l → ∃ v, v ∈ merge_verifications l ∧ seed_id v = seed_id u.
Proof.
  unfold merge_verifications. set (s := sort_by _ (sort_verification <$> l)).
  assert (s ≡ₚ sort_verification <$> l) as Hp by apply (sort_by_perm seed_compare).
  assert (∀ u, u ∈ s ↔ ∃ w, u = sort_verification w ∧ w ∈ l) as Hin by (intros u; by rewrite Hp, list_elem_of_fmap).
  destruct (merge_loop [] [] s) as [Hs Hsl Hm Hall].
  { apply (sort_by_sorted seed_compare). }
  { apply Forall_forall. intros u (w & -> & _)%Hin. split; apply sort_dedup_strict; apply _. }
  { constructor; [constructor..|]. by intros u ?%elem_of_nil. }
  simpl in Hm, Hall. split_and!.
  - split; [by apply StronglySorted_reverse in Hs|]. by apply Forall_reverse.
  - apply Forall_reverse. eapply Forall_impl; [exact Hm|]. intros v. by apply merges_proper.
  - intros u Hu. destruct (Hall (sort_verification u)) as (v & Hv & E); [apply Hin; by exists u|].
    exists v. split; [by apply elem_of_reverse|done].
Qed.

Lemma merge_verifications_id l : merged_ok l → merge_verifications l = l.
Proof.
  intros [Hs Hl]. unfold merge_verifications.
  assert (sort_verification <$> l = l) as ->.
  { apply fmap_canonical. intros [] Hv. rewrite Forall_forall in Hl. destruct (Hl _ Hv) as [Hk Hf].
    unfold sort_verification; simpl in *. by rewrite (sort_dedup_id str_compare _ Hk), (sort_dedup_id str_compare _ Hf). }
  rewrite sort_by_id.
  2:{ eapply StronglySorted_restrict; [|exact Hs]. intros a b _ _ Hlt. cbn in *. apply Z.compare_le_iff. lia. }
  assert (∀ acc, (∀ u v, u ∈ acc → v ∈ l → seed_id u ≠ seed_id v) → foldl merge_verification acc l = reverse l ++ acc) as Hfold.
  { clear Hl. induction Hs as [|u l Hs IH Hu]; intros acc Hacc; [done|]. cbn [foldl]. rewrite Forall_forall in Hu.
    assert (merge_verification acc u = u :: acc) as ->.
    { destruct acc as [|v acc]; [done|]. simpl. rewrite decide_False; [done|]. apply Hacc; by left. }
    rewrite IH, reverse_cons, <- app_assoc; [done|]. intros x y [->|Hx]%elem_of_cons Hy; [specialize (Hu y Hy); lia|].
    apply Hacc; [done|by right]. }
  rewrite Hfold, app_nil_r, reverse_involutive; [done|]. by intros u v ?%elem_of_nil.
Qed.

(** ** Normalization *)

(** No event is lost: it is kept, up to its index, or a kept sale describes its movement. *)
Definition represented (l : list NormalizedEvent) (e : NormalizedEvent) : Prop :=
  ∃ e', e' ∈ l ∧ (identity_free e' = identity_free e ∨
    kind e = Transfer ∧ is_nft_sale e' = true ∧ is_Some (nft_movement_key e) ∧ nft_movement_key e' = nft_movement_key e).

Lemma identity_free_movement e e' :
  identity_free e' = identity_free e → nft_movement_key e' = nft_movement_key e ∧ kind e' = kind e.
Proof.
  intros E. split.
  - change (nft_movement_key (identity_free e') = nft_movement_key (identity_free e)). by rewrite E.
  - change (kind (identity_free e') = kind (identity_free e)). by rewrite E.
Qed.

Lemma sale_not_transfer e : is_nft_sale e = true → kind e ≠ Transfer.
Proof. unfold is_nft_sale. by destruct (kind e). Qed.

Lemma reconcile_represents l e : e ∈ l → represented (reconcile_duplicate_events l) e.
Proof.
  intros He. unfold reconcile_duplicate_events. destruct (retain_exact_spec [] l) as (_ & _ & Hall).
  destruct (Hall e He) as [?%elem_of_nil|(e' & He' & Hid)]; [done|]. set (l' := retain_exact [] l) in *.
  destruct (decide (keeps_movement (sale_movements l') e')) as [Hk|Hk].
  - exists e'. split; [by apply list_elem_of_filter|by left].
  - unfold keeps_movement in Hk. assert (kind e' = Transfer) as Ht by (apply dec_stable; tauto).
    destruct (nft_movement_key e') as [key|] eqn:Hkey; [|tauto].
    assert (key ∈ sale_movements l') as Hk' by (apply dec_stable; tauto). clear Hk. rename Hk' into Hk.
    apply elem_of_sale_movements in Hk as (s & Hs & Hsale & Hskey). exists s.
    destruct (identity_free_movement e e' Hid) as [Hm Hkd]. split.
    + apply list_elem_of_filter. split; [left; by apply sale_not_transfer|done].
    + right. split_and!; [congruence|done|rewrite <- Hm, Hkey; eauto|congruence].
Qed.

Lemma reconcile_subset l e : e ∈ reconcile_duplicate_events l → e ∈ l.
Proof.
  unfold reconcile_duplicate_events. intros [_ He]%list_elem_of_filter. destruct (retain_exact_spec [] l) as (_ & Hin & _). by apply Hin.
Qed.

Record normalized (b : EvidenceBundle) : Prop := {
  normal_identities : canonicalize_evidence_identities b = b;
  normal_events : StronglySorted (λ x y, event_compare x y = Lt) (events b);
  normal_reconciled : reconciled (events b);
  normal_holders : StronglySorted (λ x y, holder_compare x y = Lt) (holders b);
  normal_controllers : StronglySorted (λ x y, str_compare x y = Lt) (controllers b);
  normal_verifications : merged_ok (relation_verifications b);
  normal_provenance : StronglySorted (λ x y, observation_compare x y = Lt) (provenance b);
  normal_failures : StronglySorted (λ x y, str_compare x y = Lt) (quality_failures (quality b));
}.

Lemma with_failures_id q : with_failures q (quality_failures q) = q.
Proof. by destruct q. Qed.

Lemma normalize_normalized b : normalized b → normalize_evidence b = (b, None).
Proof.
  intros [Hc He Hr Hh Hk Hv Hp Hf]. unfold normalize_evidence. rewrite Hc, (reconcile_id _ Hr).
  rewrite sort_by_id by (by apply (strictly_sorted_le event_compare)). rewrite (conflict_strict _ He), (dedup_identities _ He).
  rewrite (sort_dedup_id _ _ Hh), (sort_dedup_id _ _ Hk), (merge_verifications_id _ Hv), (sort_dedup_id _ _ Hp), (sort_dedup_id _ _ Hf).
  rewrite with_failures_id. by destruct b.
Qed.

Lemma canonical_bundle b c :
  canonicalize_evidence_identities c = c → key_chain (candidate b) = key_chain (candidate c) →
  candidate b = candidate c → (∀ e, e ∈ events b → e ∈ events c) → (∀ h, h ∈ holders b → h ∈ holders c) →
  (∀ x, x ∈ controllers b → x ∈ controllers c) → canonicalize_evidence_identities b = b.
Proof.
  intros Hc Hch Hcand He Hh Hk. destruct b as [cand dt dct evs hs cs vs ps q]; simpl in *. subst cand.
  unfold canonicalize_evidence_identities in *. destruct c as [cand' dt' dct' evs' hs' cs' vs' ps' q']; simpl in *.
  injection Hc as Hc1 Hc2 Hc3 Hc4.
  assert (∀ {A} (f : A → A) (l l' : list A), f <$> l' = l' → (∀ x, x ∈ l → x ∈ l') → f <$> l = l) as Hsub.
  { intros A f l l' Hf Hl. apply fmap_canonical. intros x Hx. apply Hl in Hx. apply list_elem_of_lookup in Hx as [i Hi].
    assert ((f <$> l') !! i = Some (f x)) as Hfi by (by rewrite list_lookup_fmap, Hi). rewrite Hf, Hi in Hfi. congruence. }
  f_equal; [done|by apply (Hsub _ _ _ evs')|by apply (Hsub _ _ _ hs')|by apply (Hsub _ _ _ cs')].
Qed.

Lemma canonicalize_identities_idemp b :
  canonicalize_evidence_identities (canonicalize_evidence_identities b) = canonicalize_evidence_identities b.
Proof.
  unfold canonicalize_evidence_identities; simpl. rewrite canonicalize_arc_idemp. f_equal.
  - rewrite <- list_fmap_compose. apply list_fmap_ext. intros i e _. apply canonicalize_event_idemp.
  - rewrite <- list_fmap_compose. apply list_fmap_ext. intros i e _. apply canonicalize_holder_idemp.
  - rewrite <- list_fmap_compose. apply list_fmap_ext. intros i e _. apply canonicalize_arc_idemp.
Qed.

(** The distinct events of a bundle, before they are ordered. *)
Definition distinct_events (b : EvidenceBundle) : list NormalizedEvent :=
  reconcile_duplicate_events (canonicalize_event <$> events b).

Lemma normalize_None b b' :
  normalize_evidence b = (b', None) → normalized b' ∧ events b' ≡ₚ distinct_events b ∧
    relation_verifications b' = merge_verifications (relation_verifications b).
Proof.
  unfold normalize_evidence. fold (distinct_events b). change (events (canonicalize_evidence_identities b)) with (canonicalize_event <$> events b).
  fold (distinct_events b). destruct (conflict _) eqn:Hc; [done|]. intros [= <-]. cbn [events relation_verifications].
  set (sorted := sort_by event_compare (distinct_events b)) in *.
  assert (sorted ≡ₚ distinct_events b) as Hp by apply (sort_by_perm event_compare).
  pose proof (reconcile_reconciled (canonicalize_event <$> events b)) as Hr. fold (distinct_events b) in Hr.
  assert (reconciled sorted) as Hrs by (by eapply reconciled_perm).
  assert (StronglySorted (λ a c, event_compare a c = Lt) sorted) as Hs.
  { apply conflict_None; [apply (sort_by_sorted event_compare)|apply identity_free_NoDup, Hrs|done]. }
  rewrite (dedup_identities _ Hs). split_and!; [|done|done]. constructor; simpl.
  - apply (canonical_bundle _ (canonicalize_evidence_identities b)); [apply canonicalize_identities_idemp|done|done|..].
    + intros e He. cbn [events] in He. rewrite Hp in He. by apply reconcile_subset.
    + intros h. cbn [holders]. by rewrite (proj2 (sort_dedup_strict holder_compare _)).
    + intros h. cbn [controllers]. by rewrite (proj2 (sort_dedup_strict str_compare _)).
  - done.
  - done.
  - apply sort_dedup_strict; apply _.
  - apply sort_dedup_strict; apply _.
  - apply merge_verifications_ok.
  - apply sort_dedup_strict; apply _.
  - apply sort_dedup_strict; apply _.
Qed.

(** C17: Normalizing the evidence of a candidate. It fails exactly when two different
    retained events have the same identity, with that identity. Otherwise the bundle is
    normalized: identities are canonical, no two events share an identity or differ only
    in their index, no transfer repeats the movement of a sale, every list is strictly
    ordered, and there is one verification per seed that merges those of the seed; no
    event is lost, none is added, and normalizing again changes nothing. *)
Theorem normalize_evidence_correct b :
  (snd (normalize_evidence b) = None ↔ ∀ x y, x ∈ distinct_events b → y ∈ distinct_events b → identity x = identity y → x = y) ∧
  match normalize_evidence b with
  | (b', None) =>
      normalized b' ∧ normalize_evidence b' = (b', None) ∧
      (∀ e, e ∈ events b' → e ∈ canonicalize_event <$> events b) ∧
      (∀ e, e ∈ canonicalize_event <$> events b → represented (events b') e) ∧
      Forall (merges (relation_verifications b)) (relation_verifications b') ∧
      (∀ u, u ∈ relation_verifications b → ∃ v, v ∈ relation_verifications b' ∧ seed_id v = seed_id u)
  | (_, Some id) => ∃ x y, x ∈ distinct_events b ∧ y ∈ distinct_events b ∧ x ≠ y ∧ identity x = id ∧ identity y = id
  end.
Proof.
  destruct (normalize_evidence b) as [b' [id|]] eqn:Hn; simpl.
  - assert (∃ x y, x ∈ distinct_events b ∧ y ∈ distinct_events b ∧ x ≠ y ∧ identity x = id ∧ identity y = id) as Hc.
    { unfold normalize_evidence in Hn. change (events (canonicalize_evidence_identities b)) with (canonicalize_event <$> events b) in Hn.
      fold (distinct_events b) in Hn. destruct (conflict _) eqn:Hc in Hn; [|done]. injection Hn as _ ->.
      apply conflict_Some in Hc as (x & y & Hx & Hy & ?). rewrite (sort_by_perm event_compare) in Hx, Hy. eauto. }
    split; [|done]. split; [done|]. intros Hall. destruct Hc as (x & y & Hx & Hy & Hne & Ex & Ey). exfalso. apply Hne, Hall; congruence.
  - destruct (normalize_None b b' Hn) as (Hnb & Hp & Hv). split.
    + split; [|done]. intros _ x y. rewrite <- Hp. intros Hx Hy Hid.
      apply list_elem_of_lookup in Hx as [i Hi]. apply list_elem_of_lookup in Hy as [j Hj].
      assert (event_compare x y = Eq ∧ event_compare y x = Eq) as [E1 E2] by (split; by apply event_compare_identity).
      pose proof (normal_events _ Hnb) as Hs. destruct (Nat.lt_trichotomy i j) as [Hij|[->|Hij]]; [|congruence|].
      * pose proof (StronglySorted_lookup _ _ i j x y Hs Hij Hi Hj) as Hlt. cbn in Hlt. congruence.
      * pose proof (StronglySorted_lookup _ _ j i y x Hs Hij Hj Hi) as Hlt. cbn in Hlt. congruence.
    + split_and!; [done|by apply normalize_normalized| | |rewrite Hv; apply merge_verifications_ok..].
      * intros e. rewrite Hp. apply reconcile_subset.
      * intros e He. destruct (reconcile_represents _ _ He) as (e' & He' & ?). exists e'. by rewrite Hp.
Qed.
