(* ===== verification/Relations.v ===== *)
(** Labels of the relations between seeds and candidates
    ([analysis/analysis/legit_duplicate.rs]): a relation is a legitimate duplicate when
    the verification of its seed says so. *)

From S2P Require Import Prelude Text CanonicalJson Anchors SortedLists Events Evidence.
From S2P Require Import EvidenceFacts.

Inductive Dimension := NameDimension | TokenUriDimension | ImageUriDimension | MetadataDimension.

Definition dimension_bit (d : Dimension) : Z :=
  match d with NameDimension => 1 | TokenUriDimension => 2 | ImageUriDimension => 4 | MetadataDimension => 8 end.

(** A text of the evidence, and an [f64] in the representation of the caller. *)
Inductive MatchEvidence (F : Type) :=
  | MatchName (left_ right_ : str) (similarity threshold : F)
  | MatchUri (dimension : Dimension) (uri : str) (seed_nft candidate_nft : NftKey)
  | MatchMetadata (seed_token_id candidate_token_id seed_digest candidate_digest : str) (similarity threshold : F).

Record SeedCandidateRelation (F : Type) := {
  relation_seed_id : Z;
  relation_seed : ContractKey;
  relation_candidate_id : Z;
  relation_candidate : ContractKey;
  dimensions : Z;
  selection : NftSelection;
  relation_evidence : list (MatchEvidence F);
  incomplete : bool;
}.
Arguments MatchName {F} _ _ _ _.
Arguments MatchUri {F} _ _ _ _.
Arguments MatchMetadata {F} _ _ _ _ _ _.
Arguments relation_seed_id {F} _.
Arguments relation_seed {F} _.
Arguments relation_candidate_id {F} _.
Arguments relation_candidate {F} _.
Arguments dimensions {F} _.
Arguments selection {F} _.
Arguments relation_evidence {F} _.
Arguments incomplete {F} _.
#[export] Instance Dimension_eq_dec : EqDecision Dimension.
Proof. solve_decision. Defined.
#[export] Instance MatchEvidence_eq_dec {F} `{EqDecision F} : EqDecision (MatchEvidence F).
Proof. solve_decision. Defined.

Inductive RelationClassification :=
  | SuspectedDuplicate (legit_verification_complete : bool)
  | LegitDuplicate (evidence : list str).

Record RelationLabel := { label_seed_id : Z; label_candidate_id : Z; classification : RelationClassification }.

(** What decides for a legitimate duplicate. *)
Definition says_legit (v : RelationVerification) : bool :=
  official_controller_continuity v || authorized_reissue v || verified_migration v || official_collection_relation v.

(** [binary_search_by_key(&seed_id, ..).ok()], and the index; [None] is a panic. *)
Definition find_verification (verifications : list RelationVerification) (seed : Z) : option (option RelationVerification) :=
  r ← binary_search_by (λ v, Z.compare (seed_id v) seed) verifications;
  match r with
  | inl index => v ← verifications !! index; Some (Some v)
  | inr _ => Some None
  end.

Definition classify (verification : option RelationVerification) : RelationClassification :=
  match verification with
  | Some v => if says_legit v then LegitDuplicate (evidence_keys v) else SuspectedDuplicate (complete v)
  | None => SuspectedDuplicate false
  end.

Section Classify.
Context {F : Type}.

Definition label_of (candidate_id : Z) (evidence : EvidenceBundle) (relation : SeedCandidateRelation F) : option RelationLabel :=
  verification ← find_verification (relation_verifications evidence) (relation_seed_id relation);
  Some {| label_seed_id := relation_seed_id relation; label_candidate_id := candidate_id;
          classification := classify verification |}.

Definition label_compare (a b : RelationLabel) : comparison := Z.compare (label_seed_id a) (label_seed_id b).

Definition classify_relations (candidate_id : Z) (relations : list (SeedCandidateRelation F)) (evidence : EvidenceBundle)
  : option (list RelationLabel) :=
  labels ← mapM (label_of candidate_id evidence) relations;
  Some (sort_by label_compare labels).
End Classify.

(** ** Facts *)

#[export] Instance label_compare_laws : CompareLaws label_compare.
Proof. apply (compare_map_laws label_seed_id Z.compare), _. Qed.

Lemma find_verification_spec l seed :
  StronglySorted (λ a b, (seed_id a < seed_id b)%Z) l →
  ∃ r, find_verification l seed = Some r ∧
    match r with Some v => v ∈ l ∧ seed_id v = seed | None => ∀ v, v ∈ l → seed_id v ≠ seed end.
Proof.
  intros Hs. unfold find_verification.
  destruct (binary_search_outcome (λ v, Z.compare (seed_id v) seed) l) as (r & -> & Hr).
  { intros i j x y Hij Hx Hy. pose proof (StronglySorted_lookup _ _ i j x y Hs Hij Hx Hy) as Hlt. cbn in Hlt.
    rewrite !Z.compare_gt_iff, !Z.compare_lt_iff. lia. }
  simpl. destruct r as [i|i].
  - destruct Hr as (v & Hv & E%Z.compare_eq_iff). rewrite Hv. exists (Some v). simpl.
    split_and!; [done|by eapply list_elem_of_lookup_2|done].
  - exists None. split; [done|]. intros v Hv E. apply (Hr v Hv). by apply Z.compare_eq_iff.
Qed.

(** What the verifications of a seed say, before they are merged. *)
Definition legit_seed (l : list RelationVerification) (seed : Z) : Prop := ∃ u, of_seed l seed u ∧ says_legit u = true.

Lemma merges_legit l v : merges l v → says_legit v = true ↔ legit_seed l (seed_id v).
Proof.
  intros [_ H1 H2 H3 H4 _ _ _]. unfold any_of, says_legit, legit_seed in *. rewrite !orb_true_iff, H1, H2, H3, H4.
  setoid_rewrite orb_true_iff. setoid_rewrite orb_true_iff. setoid_rewrite orb_true_iff. naive_solver.
Qed.

(** The classification a relation of a seed deserves. *)
Definition deserves (l : list RelationVerification) (seed : Z) (c : RelationClassification) : Prop :=
  match c with
  | LegitDuplicate keys => legit_seed l seed ∧ ∀ key, key ∈ keys ↔ ∃ u, of_seed l seed u ∧ key ∈ evidence_keys u
  | SuspectedDuplicate finished =>
      ¬ legit_seed l seed ∧ (finished = true ↔ (∃ u, of_seed l seed u) ∧ ∀ u, of_seed l seed u → complete u = true)
  end.

Lemma classify_deserves l verifications seed :
  StronglySorted (λ a b, (seed_id a < seed_id b)%Z) verifications → Forall (merges l) verifications →
  (∀ u, u ∈ l → ∃ v, v ∈ verifications ∧ seed_id v = seed_id u) →
  ∃ r, find_verification verifications seed = Some r ∧ deserves l seed (classify r).
Proof.
  intros Hs Hm Hall. destruct (find_verification_spec verifications seed Hs) as ([v|] & Hf & Hr).
  - exists (Some v). split; [done|]. destruct Hr as [Hv <-]. rewrite Forall_forall in Hm. specialize (Hm v Hv).
    pose proof (merges_legit l v Hm) as Hl. simpl. destruct (says_legit v); simpl.
    + split; [by apply Hl|apply Hm].
    + split; [by intros ?%Hl|]. rewrite (merges_complete _ _ Hm). pose proof (merges_some _ _ Hm). tauto.
  - exists None. split; [done|]. assert (∀ u, ¬ of_seed l seed u) as Hno.
    { intros u [Hu <-]. destruct (Hall u Hu) as (v & Hv & E). by apply (Hr v Hv). }
    split; [intros (u & Hu & _); by apply (Hno u)|]. split; [done|]. intros [[u Hu] _]. by destruct (Hno u).
Qed.

(** C18: Classifying the relations of a candidate whose evidence was normalized never
    panics and gives one label per relation, ordered by seed: a relation is a legitimate
    duplicate exactly when some verification of its seed, in the evidence as collected,
    says so, with the keys of all verifications of the seed as evidence; otherwise it is
    a suspected one, with a finished verification exactly when there is one for the seed
    and all of them are complete. *)
Theorem classify_relations_correct {F} candidate_id (relations : list (SeedCandidateRelation F)) collected evidence :
  normalize_evidence collected = (evidence, None) →
  ∃ labels, classify_relations candidate_id relations evidence = Some labels ∧
    StronglySorted (λ a b, (label_seed_id a ≤ label_seed_id b)%Z) labels ∧
    label_seed_id <$> labels ≡ₚ relation_seed_id <$> relations ∧
    ∀ label, label ∈ labels → label_candidate_id label = candidate_id ∧
      deserves (relation_verifications collected) (label_seed_id label) (classification label).
Proof.
  intros Hn. destruct (normalize_None _ _ Hn) as (_ & _ & Hv).
  destruct (merge_verifications_ok (relation_verifications collected)) as ([Hs _] & Hm & Hall). rewrite <- Hv in Hs, Hm, Hall.
  assert (∃ ls, mapM (label_of candidate_id evidence) relations = Some ls ∧ label_seed_id <$> ls = relation_seed_id <$> relations ∧
    ∀ label, label ∈ ls → label_candidate_id label = candidate_id ∧
      deserves (relation_verifications collected) (label_seed_id label) (classification label)) as (ls & Hls & Hseeds & Hlabels).
  { induction relations as [|r relations (ls & IH & Hseeds & Hlabels)]; [exists []; split_and!; [done..|by intros ? ?%elem_of_nil]|].
    destruct (classify_deserves _ _ (relation_seed_id r) Hs Hm Hall) as (v & Hf & Hd).
    set (label := {| label_seed_id := relation_seed_id r; label_candidate_id := candidate_id; classification := classify v |}).
    assert (label_of candidate_id evidence r = Some label) as Hl by (unfold label_of; by rewrite Hf).
    exists (label :: ls). cbn [mapM]. rewrite Hl. cbn [mbind option_bind]. rewrite IH. cbn [mbind option_bind]. split; [done|]. split; [rewrite !fmap_cons; by f_equal|]. intros l0 [->|Hl0]%elem_of_cons; [done|auto]. }
  unfold classify_relations. rewrite Hls. cbn [mbind option_bind]. eexists. split; [done|]. split_and!.
  - eapply StronglySorted_restrict; [|apply (sort_by_sorted label_compare)]. intros x y _ _. unfold label_compare. by rewrite Z.compare_le_iff.
  - by rewrite (sort_by_perm label_compare), Hseeds.
  - intros label. rewrite (sort_by_perm label_compare). apply Hlabels.
Qed.

Definition example_verification (seed : Z) (legit finished : bool) (key : string) : RelationVerification :=
  {| seed_id := seed; official_controller_continuity := false; authorized_reissue := legit; verified_migration := false;
     official_collection_relation := false; complete := finished; evidence_keys := [lit key]; failures := [] |}.

Definition example_quality : EvidenceQuality := {|
  assets := None; histories := Some Complete; transactions := None; prices := None; authority := None;
  sale_prices_parsed := 0; sale_prices_total := 0; candidate_assets_analyzed := 0; candidate_assets_total := 0;
  history_assets_requested := 0; history_assets_succeeded := 0; history_assets_complete := 0; history_assets_failed := 0;
  history_assets_not_requested := 0; history_assets_truncated := 0; transactions_fetched := 0;
  transactions_provider_reported := 0; transactions_failed := 0; signature_discovery_failures := 0;
  transaction_detail_failures := 0; unattributed_solana_transactions := 0; unresolved_compressed_mints := 0;
  missing_mint_pre_balances := 0; missing_collection_authorities := 0; supplemental_query_failures := 0;
  quality_failures := [] |}.

Definition example_bundle (verifications : list RelationVerification) : EvidenceBundle := {|
  candidate := {| key_chain := Ethereum; key_address := lit " 0xAB" |}; deployment_timestamp := None;
  duplicate_content_timestamp := None; events := []; holders := []; controllers := [lit "0xOP"; lit "0xop"];
  relation_verifications := verifications; provenance := []; quality := example_quality |}.

Definition example_relation (seed : Z) : SeedCandidateRelation () := {|
  relation_seed_id := seed; relation_seed := {| key_chain := Ethereum; key_address := lit "0xseed" |};
  relation_candidate_id := 7; relation_candidate := {| key_chain := Ethereum; key_address := lit "0xab" |};
  dimensions := 1; selection := Explicit []; relation_evidence := []; incomplete := false |}.

Definition example_collected : EvidenceBundle :=
  example_bundle [example_verification 2 false true "b"; example_verification 1 false true "c"; example_verification 2 true false "a"].

Example classified_relations :
  classify_relations 7 [example_relation 3; example_relation 2; example_relation 1] (normalize_evidence example_collected).1 =
  Some [ {| label_seed_id := 1; label_candidate_id := 7; classification := SuspectedDuplicate true |};
         {| label_seed_id := 2; label_candidate_id := 7; classification := LegitDuplicate [lit "a"; lit "b"] |};
         {| label_seed_id := 3; label_candidate_id := 7; classification := SuspectedDuplicate false |} ].
Proof. vm_compute. reflexivity. Qed.

Lemma classify_relations_correct_witness :
  snd (normalize_evidence example_collected) = None ∧
  ∃ labels, classify_relations 7 [example_relation 2; example_relation 1] (fst (normalize_evidence example_collected)) = Some labels ∧
    label_seed_id <$> labels ≡ₚ [2; 1]%Z.
Proof.
  assert (normalize_evidence example_collected = (fst (normalize_evidence example_collected), None)) as Hn by (vm_compute; reflexivity).
  split; [by rewrite Hn|].
  destruct (classify_relations_correct 7 [example_relation 2; example_relation 1] _ _ Hn) as (labels & Hl & _ & Hp & _).
  by exists labels.
Defined.
