(* ===== verification/Attribution.v ===== *)
(** Roles of the addresses around a candidate ([analysis/analysis/attribution.rs]):
    operators, colluders, victims, and the evidence recorded for each address. A
    [BTreeMap] or hash map with string keys is a [gmap]; [None] is a panic. At the end
    the sets of addresses by role that the analyses of a candidate's events use. *)

From Stdlib Require Import QArith.
From S2P Require Import Prelude Text CanonicalJson Anchors SortedLists Float Events Graph.

#[local] Open Scope nat_scope.

Inductive AddressRole := SuspectedOperator | SuspectedColluder | LikelyVictim | CorruptedVictim | Neutral.
#[export] Instance AddressRole_eq_dec : EqDecision AddressRole.
Proof. solve_decision. Defined.

Inductive AddressEvidenceKind :=
  | ControllerOrAuthority | CurrentHolder | EventSender | EventRecipient | Deployment_ | FundingReceived
  | WithdrawalOrCashout | PaidAcquisition | SubsequentPropagation | MaliciousSaleCycle.
#[export] Instance AddressEvidenceKind_eq_dec : EqDecision AddressEvidenceKind.
Proof. solve_decision. Defined.

Definition evidence_kind_ordinal (k : AddressEvidenceKind) : nat :=
  match k with
  | ControllerOrAuthority => 0 | CurrentHolder => 1 | EventSender => 2 | EventRecipient => 3 | Deployment_ => 4
  | FundingReceived => 5 | WithdrawalOrCashout => 6 | PaidAcquisition => 7 | SubsequentPropagation => 8
  | MaliciousSaleCycle => 9
  end.

Record AddressEvidence := {
  evidence_type : AddressEvidenceKind;
  related_contract : ContractKey;
  token : option NftKey;
  transaction : option str;
  weight : Q;
  confidence : Q;
}.

Record AddressAttribution := { attributed_role : AddressRole; attributed_evidence : list AddressEvidence }.

Record AttributionResult := { roles : gmap str AddressRole; records : gmap str AddressAttribution }.

(** ** Sets *)

Record AddressSets := { paid_buyers : gset str; propagators : gset str; operator_evidence : gset str }.

(** [set.extend(option.iter().cloned())] *)
Definition extend (s : gset str) (addresses : list str) : gset str := s ∪ list_to_set addresses.

(** A paid mint or sale. *)
Definition is_paid_acquisition (e : NormalizedEvent) : bool :=
  (bool_decide (kind e = Mint) || is_nft_sale e) && is_paid e.

Definition collect_event (s : AddressSets) (e : NormalizedEvent) : AddressSets :=
  let operators :=
    match kind e with
    | Deploy => extend (operator_evidence s) (option_list (from e))
    | Funding => extend (operator_evidence s) (option_list (to e))
    | Withdrawal | Cashout => extend (extend (operator_evidence s) (option_list (from e))) (option_list (to e))
    | _ => operator_evidence s
    end in
  let buyers :=
    if is_paid_acquisition e then extend (paid_buyers s) (option_list (payment_payer e) ++ option_list (to e)) else paid_buyers s in
  let propagators :=
    if is_nft_sale e || bool_decide (kind e = Transfer) then extend (propagators s) (option_list (from e)) else propagators s in
  {| paid_buyers := buyers; propagators := propagators; operator_evidence := operators |}.

Definition collect_sets (events : list NormalizedEvent) (controllers : list str) : AddressSets :=
  foldl collect_event {| paid_buyers := ∅; propagators := ∅; operator_evidence := list_to_set controllers |} events.

Definition event_addresses (e : NormalizedEvent) : list str :=
  option_list (from e) ++ option_list (to e) ++ option_list (fee_payer e) ++ option_list (payment_payer e) ++
  option_list (payment_recipient e).

Definition all_addresses (events : list NormalizedEvent) (controllers : list str) (holder_set : gset str) : gset str :=
  list_to_set (events ≫= event_addresses) ∪ list_to_set controllers ∪ holder_set.

(** ** Roles *)

Definition initial_role (s : AddressSets) (holder_set : gset str) (address : str) : AddressRole :=
  if bool_decide (address ∈ operator_evidence s) then SuspectedOperator
  else if bool_decide (address ∈ paid_buyers s) && bool_decide (address ∈ propagators s) then CorruptedVictim
  else if bool_decide (address ∈ paid_buyers s) && bool_decide (address ∈ holder_set) then LikelyVictim
  else Neutral.

(** [component.iter().any(..)], up to the first operator. *)
Fixpoint any_operator (graph : PropagationGraph) (operators : gset str) (component : list nat) : option bool :=
  match component with
  | [] => Some false
  | vertex :: component =>
      address ← addresses graph !! vertex;
      if decide (address ∈ operators) then Some true else any_operator graph operators component
  end.

(** At least two members, one of which is an operator. *)
Definition malicious_cycle (graph : PropagationGraph) (operators : gset str) (component : list nat) : option bool :=
  if decide (length component < 2) then Some false else any_operator graph operators component.

Definition mark_colluder (graph : PropagationGraph) (roles : gmap str AddressRole) (vertex : nat) : option (gmap str AddressRole) :=
  address ← addresses graph !! vertex;
  role ← roles !! address;
  Some (if decide (role = Neutral) then <[address := SuspectedColluder]> roles else roles).

Definition mark_component (graph : PropagationGraph) (operators : gset str) (roles : gmap str AddressRole) (component : list nat)
  : option (gmap str AddressRole) :=
  malicious ← malicious_cycle graph operators component;
  if (malicious : bool) then foldM (mark_colluder graph) roles component else Some roles.

(** ** Evidence *)

Definition EvidenceMap := gmap str (list AddressEvidence).

Section Evidence.
Context (candidate : ContractKey).

Definition evidence_of (kind : AddressEvidenceKind) (token : option NftKey) (transaction : option str) (weight confidence : Q) : AddressEvidence :=
  {| evidence_type := kind; related_contract := candidate; token := token; transaction := transaction;
     weight := literal weight; confidence := literal confidence |}.

Definition push_evidence (evidence : EvidenceMap) (entry : str * AddressEvidence) : EvidenceMap :=
  <[entry.1 := default [] (evidence !! entry.1) ++ [entry.2]]> evidence.

(** The entries that an event pushes, in order. *)
Definition event_evidence (e : NormalizedEvent) : list (str * AddressEvidence) :=
  let entry kind weight confidence address := (address, evidence_of kind (nft e) (Some (tx_id e)) weight confidence) in
  (entry EventSender (1 # 10) (1 # 4) <$> option_list (from e)) ++
  (entry EventRecipient (1 # 10) (1 # 4) <$> option_list (to e)) ++
  match kind e with
  | Deploy => entry Deployment_ (1 # 1) (1 # 1) <$> option_list (from e)
  | Funding => entry FundingReceived (9 # 10) (9 # 10) <$> option_list (to e)
  | Withdrawal | Cashout => entry WithdrawalOrCashout (9 # 10) (9 # 10) <$> option_list (from e) ++ option_list (to e)
  | _ =>
      if is_paid_acquisition e then
        entry PaidAcquisition (8 # 10) (9 # 10) <$> option_list (payment_payer e) ++ option_list (to e)
      else []
  end ++
  (if is_nft_sale e || bool_decide (kind e = Transfer) then
     entry SubsequentPropagation (7 # 10) (8 # 10) <$> option_list (from e) else []).

(** [malicious_cycle_by_address] *)
Definition insert_member (graph : PropagationGraph) (component_id : nat) (m : gmap str nat) (vertex : nat) : option (gmap str nat) :=
  address ← addresses graph !! vertex; Some (<[address := component_id]> m).

Definition insert_cycle (graph : PropagationGraph) (operators : gset str) (m : gmap str nat) (entry : nat * list nat) : option (gmap str nat) :=
  malicious ← malicious_cycle graph operators entry.2;
  if (malicious : bool) then foldM (insert_member graph entry.1) m entry.2 else Some m.

Definition same_cycle (m : gmap str nat) (e : NormalizedEvent) : bool :=
  match from e ≫= (m !!.), to e ≫= (m !!.) with Some left_, Some right_ => left_ =? right_ | _, _ => false end.

Definition cycle_evidence (m : gmap str nat) (e : NormalizedEvent) : list (str * AddressEvidence) :=
  if same_cycle m e then
    (λ address, (address, evidence_of MaliciousSaleCycle (nft e) (Some (tx_id e)) (9 # 10) (95 # 100))) <$>
      option_list (from e) ++ option_list (to e)
  else [].

(** The order of [Option]: [None] first. *)
Definition option_compare {A} (cmp : A → A → comparison) (a b : option A) : comparison :=
  match a, b with None, None => Eq | None, Some _ => Lt | Some _, None => Gt | Some a, Some b => cmp a b end.

Definition evidence_compare (left_ right_ : AddressEvidence) : comparison :=
  then_with (Nat.compare (evidence_kind_ordinal (evidence_type left_)) (evidence_kind_ordinal (evidence_type right_)))
    (then_with (option_compare nft_key_compare (token left_) (token right_))
      (option_compare str_compare (transaction left_) (transaction right_))).

Definition same_evidence (left_ right_ : AddressEvidence) : bool :=
  bool_decide (evidence_type left_ = evidence_type right_ ∧ token left_ = token right_ ∧ transaction left_ = transaction right_).

Definition record_of (evidence : EvidenceMap) (address : str) (role : AddressRole) : AddressAttribution :=
  {| attributed_role := role;
     attributed_evidence := dedup_by same_evidence (sort_by evidence_compare (default [] (evidence !! address))) |}.

Definition attribute_addresses_detailed (events : list NormalizedEvent) (controllers : list str) (holders : list (NftKey * str))
  : option AttributionResult :=
  let holder_set : gset str := list_to_set (snd <$> holders) in
  let s := collect_sets events controllers in
  let operators := operator_evidence s in
  let roles : gmap str AddressRole :=
    set_to_map (λ address, (address, initial_role s holder_set address)) (all_addresses events controllers holder_set) in
  sale_graph ← build_filtered events is_nft_sale;
  sale_components ← strongly_connected_components sale_graph;
  roles ← foldM (mark_component sale_graph operators) roles sale_components;
  let evidence : EvidenceMap := (λ _, []) <$> roles in
  let evidence := foldl push_evidence evidence ((λ controller, (controller, evidence_of ControllerOrAuthority None None (1 # 1) (1 # 1))) <$> controllers) in
  let evidence := foldl push_evidence evidence
    ((λ '(nft, holder), (holder, evidence_of CurrentHolder (Some nft) None (1 # 2) (3 # 4))) <$> holders) in
  let evidence := foldl push_evidence evidence (events ≫= event_evidence) in
  cycles ← foldM (insert_cycle sale_graph operators) ∅ (zip (seq 0 (length sale_components)) sale_components);
  let evidence := foldl push_evidence evidence (filter (λ e, is_nft_sale e = true) events ≫= cycle_evidence cycles) in
  Some {| roles := roles; records := map_imap (λ address role, Some (record_of evidence address role)) roles |}.

Definition attribute_addresses (events : list NormalizedEvent) (controllers : list str) (holders : list (NftKey * str)) : option (gmap str AddressRole) :=
  roles <$> attribute_addresses_detailed events controllers holders.
End Evidence.

Definition is_honest (role : AddressRole) : bool := match role with LikelyVictim | CorruptedVictim => true | _ => false end.
Definition is_malicious (role : AddressRole) : bool := match role with SuspectedOperator | SuspectedColluder => true | _ => false end.

Definition addresses_with (roles : gmap str AddressRole) (P : AddressRole → bool) : gset str :=
  dom (filter (λ p, P p.2 = true) roles).

(** The positive part of an amount. *)
Definition amount (value : option Z) : Z := Z.max (default 0%Z value) 0.

(** [value.filter(|value| *value >= 0)] *)
Definition non_negative (value : option Z) : option Z := v ← value; if (0 <=? v)%Z then Some v else None.

(** [option.is_some_and(|address| set.contains(address))] *)
Definition contained (s : gset str) (address : option str) : bool := from_option (λ a, bool_decide (a ∈ s)) false address.

Lemma elem_of_addresses_with roles P a : a ∈ addresses_with roles P ↔ ∃ role, roles !! a = Some role ∧ P role = true.
Proof.
  unfold addresses_with. rewrite elem_of_dom. unfold is_Some. setoid_rewrite map_lookup_filter_Some. naive_solver.
Qed.
