(* ===== verification/AttributionFacts.v ===== *)
(** The roles of addresses are what the events, controllers and holders say, and the
    evidence recorded for an address explains its role. *)

From Stdlib Require Import QArith.
From S2P Require Import Prelude Text CanonicalJson Anchors SortedLists Float Events Graph.
From S2P Require Import TarjanFacts GraphFacts Evidence EvidenceFacts Attribution.

#[local] Open Scope nat_scope.

(** ** What the roles mean *)

Section Meaning.
Context (events : list NormalizedEvent) (controllers : list str) (holders : list (NftKey * str)).

Definition operates (e : NormalizedEvent) (a : str) : Prop :=
  match kind e with
  | Deploy => from e = Some a
  | Funding => to e = Some a
  | Withdrawal | Cashout => from e = Some a ∨ to e = Some a
  | _ => False
  end.

Definition operator (a : str) : Prop := a ∈ controllers ∨ ∃ e, e ∈ events ∧ operates e a.

Definition buys (e : NormalizedEvent) (a : str) : Prop :=
  is_paid_acquisition e = true ∧ (payment_payer e = Some a ∨ to e = Some a).

Definition passes_on (e : NormalizedEvent) (a : str) : Prop :=
  (is_nft_sale e = true ∨ kind e = Transfer) ∧ from e = Some a.

Definition buyer (a : str) : Prop := ∃ e, e ∈ events ∧ buys e a.
Definition propagator (a : str) : Prop := ∃ e, e ∈ events ∧ passes_on e a.
Definition holder (a : str) : Prop := ∃ n, (n, a) ∈ holders.

Definition mentioned (a : str) : Prop :=
  (∃ e, e ∈ events ∧ (from e = Some a ∨ to e = Some a ∨ fee_payer e = Some a ∨ payment_payer e = Some a ∨
    payment_recipient e = Some a)) ∨ a ∈ controllers ∨ holder a.

(** Sales lead to an operator and back. *)
Definition sale : str → str → Prop := sends events is_nft_sale.
Definition colludes (a : str) : Prop := ∃ b, b ≠ a ∧ operator b ∧ rtc sale a b ∧ rtc sale b a.

Definition role_is (a : str) (r : AddressRole) : Prop :=
  match r with
  | SuspectedOperator => operator a
  | CorruptedVictim => ¬ operator a ∧ buyer a ∧ propagator a
  | LikelyVictim => ¬ operator a ∧ buyer a ∧ ¬ propagator a ∧ holder a
  | SuspectedColluder => ¬ operator a ∧ ¬ (buyer a ∧ (propagator a ∨ holder a)) ∧ colludes a
  | Neutral => ¬ operator a ∧ ¬ (buyer a ∧ (propagator a ∨ holder a)) ∧ ¬ colludes a
  end.
End Meaning.

(** ** Sets *)

Lemma elem_of_extend s l (a : str) : a ∈ extend s l ↔ a ∈ s ∨ a ∈ l.
Proof. unfold extend. by rewrite elem_of_union, elem_of_list_to_set. Qed.

Lemma elem_of_option_list {A} (o : option A) x : x ∈ option_list o ↔ o = Some x.
Proof. destruct o; simpl; [rewrite list_elem_of_singleton; naive_solver|rewrite elem_of_nil; naive_solver]. Qed.

Lemma collect_event_spec s e a :
  (a ∈ paid_buyers (collect_event s e) ↔ a ∈ paid_buyers s ∨ buys e a) ∧
  (a ∈ propagators (collect_event s e) ↔ a ∈ propagators s ∨ passes_on e a) ∧
  (a ∈ operator_evidence (collect_event s e) ↔ a ∈ operator_evidence s ∨ operates e a).
Proof.
  unfold collect_event, buys, passes_on, operates. cbn [paid_buyers propagators operator_evidence]. split_and!.
  - destruct (is_paid_acquisition e); [rewrite elem_of_extend, elem_of_app, !elem_of_option_list|]; naive_solver.
  - destruct (is_nft_sale e); [|case_bool_decide]; simpl; rewrite ?elem_of_extend, ?elem_of_option_list; naive_solver.
  - destruct (kind e); rewrite ?elem_of_extend, ?elem_of_option_list; naive_solver.
Qed.

Lemma collect_sets_spec events controllers a :
  (a ∈ paid_buyers (collect_sets events controllers) ↔ buyer events a) ∧
  (a ∈ propagators (collect_sets events controllers) ↔ propagator events a) ∧
  (a ∈ operator_evidence (collect_sets events controllers) ↔ operator events controllers a).
Proof.
  unfold collect_sets, buyer, propagator, operator.
  assert (∀ s, (a ∈ paid_buyers (foldl collect_event s events) ↔ a ∈ paid_buyers s ∨ ∃ e, e ∈ events ∧ buys e a) ∧
    (a ∈ propagators (foldl collect_event s events) ↔ a ∈ propagators s ∨ ∃ e, e ∈ events ∧ passes_on e a) ∧
    (a ∈ operator_evidence (foldl collect_event s events) ↔ a ∈ operator_evidence s ∨ ∃ e, e ∈ events ∧ operates e a)) as H.
  { induction events as [|e l IH]; intros s; simpl.
    - setoid_rewrite elem_of_nil. naive_solver.
    - destruct (IH (collect_event s e)) as (-> & -> & ->). destruct (collect_event_spec s e a) as (-> & -> & ->).
      setoid_rewrite elem_of_cons. split_and!; naive_solver. }
  destruct (H {| paid_buyers := ∅; propagators := ∅; operator_evidence := list_to_set controllers |}) as (-> & -> & ->). simpl.
  rewrite elem_of_list_to_set. set_solver.
Qed.

Lemma all_addresses_spec events controllers holders a :
  a ∈ all_addresses events controllers (list_to_set (snd <$> holders)) ↔ mentioned events controllers holders a.
Proof.
  unfold all_addresses, mentioned, holder. rewrite !elem_of_union, !elem_of_list_to_set, list_elem_of_bind, list_elem_of_fmap.
  assert (∀ e, a ∈ event_addresses e ↔ from e = Some a ∨ to e = Some a ∨ fee_payer e = Some a ∨ payment_payer e = Some a ∨
    payment_recipient e = Some a) as He.
  { intros e. unfold event_addresses. by rewrite !elem_of_app, !elem_of_option_list. }
  setoid_rewrite He. split.
  - intros [[(e & ? & ?)|?]|((n & b) & -> & ?)]; [left; by exists e|auto|right; right; by exists n].
  - intros [(e & ? & ?)|[?|(n & ?)]]; [left; left; by exists e|auto|right; by exists (n, a)].
Qed.

Lemma initial_role_spec events controllers holders a :
  let s := collect_sets events controllers in
  match initial_role s (list_to_set (snd <$> holders)) a with
  | SuspectedOperator => operator events controllers a
  | CorruptedVictim => ¬ operator events controllers a ∧ buyer events a ∧ propagator events a
  | LikelyVictim => ¬ operator events controllers a ∧ buyer events a ∧ ¬ propagator events a ∧ holder holders a
  | Neutral => ¬ operator events controllers a ∧ ¬ (buyer events a ∧ (propagator events a ∨ holder holders a))
  | SuspectedColluder => False
  end.
Proof.
  simpl. destruct (collect_sets_spec events controllers a) as (Hb & Hp & Ho). unfold initial_role.
  assert (a ∈ (list_to_set (snd <$> holders) : gset str) ↔ holder holders a) as Hh.
  { rewrite elem_of_list_to_set, list_elem_of_fmap. unfold holder. split; [intros ((n & b) & -> & ?); by exists n|intros (n & ?); by exists (n, a)]. }
  repeat case_bool_decide; simpl; tauto.
Qed.

(** ** Malicious cycles *)

Section Cycles.
Context (graph : PropagationGraph) (operators : gset str).

Definition member (c : list nat) (a : str) : Prop := ∃ v, v ∈ c ∧ addresses graph !! v = Some a.
Definition malicious (c : list nat) : Prop := 2 ≤ length c ∧ ∃ a, member c a ∧ a ∈ operators.
Definition in_range (c : list nat) : Prop := Forall (λ v, v < length (addresses graph)) c.

Lemma any_operator_spec c :
  in_range c → ∃ b, any_operator graph operators c = Some b ∧ (b = true ↔ ∃ a, member c a ∧ a ∈ operators).
Proof.
  unfold member. induction 1 as [|v c Hv _ IH]; [exists false; split; [done|]; split; [done|]; by intros (a & (v & ?%elem_of_nil & _) & _)|].
  simpl. destruct (lookup_lt_is_Some_2 _ _ Hv) as [x Hx]. rewrite Hx. simpl. case_decide as Ho.
  - exists true. split; [done|]. split; [|done]. intros _. exists x. split; [|done]. exists v. split; [by left|done].
  - destruct IH as (b & -> & Hb). exists b. split; [done|]. rewrite Hb. setoid_rewrite elem_of_cons. split.
    + intros (a & (w & ? & ?) & ?). exists a. split; [exists w; auto|done].
    + intros (a & (w & [->|?] & ?) & ?); [by simplify_eq|]. exists a. split; [by exists w|done].
Qed.

Lemma malicious_cycle_spec c :
  in_range c → ∃ b, malicious_cycle graph operators c = Some b ∧ (b = true ↔ malicious c).
Proof.
  intros Hr. unfold malicious_cycle, malicious. case_decide; [exists false; split; [done|]; split; [done|lia]|].
  destruct (any_operator_spec c Hr) as (b & -> & Hb). exists b. split; [done|]. rewrite Hb. split; [split; [lia|done]|tauto].
Qed.

Lemma mark_colluders_spec c roles :
  in_range c → (∀ a, member c a → is_Some (roles !! a)) →
  ∃ roles', foldM (mark_colluder graph) roles c = Some roles' ∧
    ∀ a, (member c a ∧ roles !! a = Some Neutral → roles' !! a = Some SuspectedColluder) ∧
      (¬ (member c a ∧ roles !! a = Some Neutral) → roles' !! a = roles !! a).
Proof.
  intros Hr. revert roles. induction Hr as [|v c Hv Hr IH]; intros roles Hdom.
  { exists roles. split; [done|]. intros a. split; [|done]. by intros [(v & ?%elem_of_nil & _) _]. }
  destruct (lookup_lt_is_Some_2 _ _ Hv) as [x Hx].
  assert (∀ a, member (v :: c) a ↔ a = x ∨ member c a) as Hm.
  { intros a. unfold member. setoid_rewrite elem_of_cons. split; [intros (w & [->|?] & ?); [left; congruence|right; by exists w]|].
    intros [->|(w & ? & ?)]; [exists v|exists w]; auto. }
  destruct (Hdom x) as [r Hrx]; [apply Hm; by left|].
  set (roles1 := if decide (r = Neutral) then <[x := SuspectedColluder]> roles else roles).
  assert (mark_colluder graph roles v = Some roles1) as Hstep by (unfold mark_colluder; rewrite Hx; simpl; by rewrite Hrx).
  simpl. rewrite Hstep. simpl.
  assert (∀ a, roles1 !! a = if decide (a = x ∧ r = Neutral) then Some SuspectedColluder else roles !! a) as Hl.
  { intros a. subst roles1. destruct (decide (r = Neutral)) as [->|]; [|by rewrite decide_False by tauto].
    destruct (decide (a = x)) as [->|]; [by rewrite lookup_insert_eq, decide_True|by rewrite lookup_insert_ne, decide_False by naive_solver]. }
  clearbody roles1. destruct (IH roles1) as (roles' & -> & Hroles').
  { intros a Ha. rewrite Hl. destruct (decide (a = x ∧ r = Neutral)); [by eexists|]. apply Hdom, Hm. by right. }
  exists roles'. split; [done|]. intros a. destruct (Hroles' a) as [H1 H2]. rewrite Hl in H1, H2. rewrite Hm.
  destruct (decide (a = x ∧ r = Neutral)) as [[-> ->]|Hne].
  - split; [|intros []; split; [by left|done]]. intros _. apply H2. intros [_ ?]. done.
  - split; [|intros Hn; apply H2; intros [? ?]; apply Hn; auto]. intros [[->|Hc] E]; [|by apply H1]. exfalso. apply Hne. split; [done|congruence].
Qed.

Lemma mark_components_spec cs roles :
  Forall in_range cs → (∀ c a, c ∈ cs → member c a → is_Some (roles !! a)) →
  ∃ roles', foldM (mark_component graph operators) roles cs = Some roles' ∧
    ∀ a, ((∃ c, c ∈ cs ∧ malicious c ∧ member c a) ∧ roles !! a = Some Neutral → roles' !! a = Some SuspectedColluder) ∧
      (¬ ((∃ c, c ∈ cs ∧ malicious c ∧ member c a) ∧ roles !! a = Some Neutral) → roles' !! a = roles !! a).
Proof.
  intros Hr. revert roles. induction Hr as [|c cs Hc Hr IH]; intros roles Hdom.
  { exists roles. split; [done|]. intros a. split; [|done]. by intros [(c & ?%elem_of_nil & _) _]. }
  destruct (malicious_cycle_spec c Hc) as (b & Hb & Hmal).
  assert (∃ roles1, mark_component graph operators roles c = Some roles1 ∧
    ∀ a, (malicious c ∧ member c a ∧ roles !! a = Some Neutral → roles1 !! a = Some SuspectedColluder) ∧
      (¬ (malicious c ∧ member c a ∧ roles !! a = Some Neutral) → roles1 !! a = roles !! a)) as (roles1 & Hstep & Hl).
  { unfold mark_component. rewrite Hb. simpl. destruct b.
    - destruct (mark_colluders_spec c roles Hc) as (roles1 & -> & Hl); [intros a Ha; eapply Hdom; [by left|done]|].
      exists roles1. split; [done|]. intros a. destruct (Hl a). assert (malicious c) by by apply Hmal. tauto.
    - exists roles. split; [done|]. intros a. split; [|done]. intros [?%Hmal _]. done. }
  simpl. rewrite Hstep. simpl. destruct (IH roles1) as (roles' & -> & Hl').
  { intros c' a Hc' Ha. destruct (Hl a) as [H1 H2]. destruct (Hdom c' a) as [r Hra]; [by right|done|].
    destruct (decide (roles1 !! a = roles !! a)) as [->|Hne]; [by exists r|].
    destruct (roles1 !! a) eqn:E; [by eexists|]. exfalso. apply Hne. rewrite <- H2; [done|]. intros Hn. by specialize (H1 Hn). }
  exists roles'. split; [done|]. intros a. destruct (Hl a) as [H1 H2]. destruct (Hl' a) as [H3 H4]. setoid_rewrite elem_of_cons. split.
  - intros [(c' & [->|Hc'] & Hmc & Hm) E].
    + rewrite H4; [by apply H1|]. intros [_ E']. by rewrite H1 in E'.
    + destruct (decide (roles1 !! a = Some Neutral)) as [E1|E1]; [apply H3; split; [by exists c'|done]|].
      rewrite H4 by tauto. destruct (decide (roles1 !! a = Some SuspectedColluder)) as [|Hne]; [done|].
      exfalso. apply E1. rewrite H2; [done|]. intros Hx. by apply Hne, H1.
  - intros Hn. rewrite H4.
    + apply H2. intros (? & ? & ?). apply Hn. split; [exists c; auto|done].
    + intros [(c' & ? & ? & ?) E]. apply Hn.
      assert (roles1 !! a = roles !! a) as E1.
      { apply H2. intros Hx. rewrite (H1 Hx) in E. done. }
      split; [exists c'; auto|congruence].
Qed.
End Cycles.

(** The members of malicious components are the operators' partners in sale cycles. *)
Section SaleCycles.
Context (events : list NormalizedEvent) (operators : gset str) (graph : PropagationGraph) (cs : list (list nat)).
Context (Hg : graph_of_events events is_nft_sale graph) (Hcs : scc_partition graph cs).
Abbreviation sales := (sends events is_nft_sale).

Lemma components_in_range c : c ∈ cs → in_range graph c.
Proof using Hcs.
  intros Hc. apply Forall_forall. intros v Hv. destruct Hcs as (Hp & _).
  assert (v ∈ mjoin cs) as Hin by (apply list_elem_of_join; eauto). rewrite Hp in Hin. apply elem_of_seq in Hin. lia.
Qed.

Lemma component_addresses_NoDup : NoDup (addresses graph).
Proof using Hg. apply (strictly_sorted_NoDup str_compare), Hg. Qed.

(** Two addresses of a component lead to each other, and a component is closed under that. *)
Lemma component_mutual c a b : c ∈ cs → member graph c a → b ∈ addresses graph → member graph c b ↔ rtc sales a b ∧ rtc sales b a.
Proof using Hg Hcs.
  intros Hc (x & Hx & Ha) Hb. destruct Hcs as (_ & _ & Hscc & _). apply list_elem_of_lookup in Hb as [y Hb].
  rewrite <- (edges_send _ _ graph x y a b Hg Ha Hb), <- (edges_send _ _ graph y x b a Hg Hb Ha), <- (Hscc c x y Hc Hx).
  split; [|intros ?; by exists y]. intros (y' & Hy' & Hb'). by rewrite (NoDup_lookup _ y y' b component_addresses_NoDup Hb Hb').
Qed.

Lemma address_component a : a ∈ addresses graph → ∃ c, c ∈ cs ∧ member graph c a.
Proof using Hcs.
  intros Ha. apply list_elem_of_lookup in Ha as [x Ha]. destruct Hcs as (Hp & _).
  assert (x ∈ mjoin cs) as Hx by (rewrite Hp; apply elem_of_seq; apply lookup_lt_Some in Ha; lia).
  apply list_elem_of_join in Hx as (c & Hx & Hc). exists c. split; [done|]. by exists x.
Qed.

Lemma rtc_participates a b : a ≠ b → rtc sales a b → participates events is_nft_sale a ∧ participates events is_nft_sale b.
Proof using Type.
  intros Hne Hr. split.
  - apply rtc_inv in Hr as [->|(x & (e & ? & ? & ? & ?) & _)]; [done|]. exists e. auto.
  - apply rtc_inv_r in Hr as [->|(x & _ & (e & ? & ? & ? & ?))]; [done|]. exists e. auto.
Qed.

(** In a malicious component, some operator is reached and reaches back. *)
Lemma malicious_member a :
  (∃ c, c ∈ cs ∧ malicious graph operators c ∧ member graph c a) ↔
  ∃ b, b ∈ operators ∧ (∃ d, d ≠ a ∧ participates events is_nft_sale d ∧ rtc sales a d ∧ rtc sales d a) ∧
    participates events is_nft_sale b ∧ rtc sales a b ∧ rtc sales b a.
Proof using Hg Hcs.
  split.
  - intros (c & Hc & [Hlen (b & Hb & Hbo)] & Ha).
    assert (∀ d, member graph c d → d ∈ addresses graph) as Hin by (intros d (w & _ & Hd); by eapply list_elem_of_lookup_2).
    assert (∃ d, d ≠ a ∧ member graph c d) as (d & Hda & Hd).
    { destruct Ha as (x & Hx & Ha). pose proof Hcs as (_ & Hne & _). rewrite Forall_forall in Hne. destruct (Hne c Hc) as [_ Hss].
      assert (∃ y, y ∈ c ∧ y ≠ x) as (y & Hy & Hyx).
      { destruct c as [|u [|w c]]; simpl in Hlen; [lia|lia|]. apply StronglySorted_inv in Hss as [_ Hu]. apply Forall_cons in Hu as [Huw _].
        destruct (decide (u = x)) as [<-|]; [exists w; split; [right; by left|lia]|exists u; split; [by left|done]]. }
      pose proof (components_in_range c Hc) as Hr. unfold in_range in Hr. rewrite Forall_forall in Hr.
      destruct (lookup_lt_is_Some_2 _ _ (Hr y Hy)) as [d Hd].
      exists d. split; [|by exists y]. intros ->. apply Hyx. by apply (NoDup_lookup _ y x a component_addresses_NoDup). }
    destruct (proj1 (component_mutual c a d Hc Ha (Hin d Hd)) Hd) as [Had Hda'].
    destruct (proj1 (component_mutual c a b Hc Ha (Hin b Hb)) Hb) as [Hab Hba].
    exists b. split; [done|]. split; [|by split; [apply (graph_addresses _ _ _ Hg), Hin|]]. exists d. split; [done|].
    split; [by apply (graph_addresses _ _ _ Hg), Hin|done].
  - intros (b & Hbo & (d & Hda & Hdp & Had & Hda') & Hbp & Hab & Hba).
    assert (a ∈ addresses graph) as Haa by (apply (graph_addresses _ _ _ Hg); by apply (rtc_participates a d)).
    destruct (address_component a Haa) as (c & Hc & Ha). exists c. split; [done|]. split; [|done].
    assert (member graph c d) as Hd by (apply (component_mutual c a d Hc Ha); [by apply (graph_addresses _ _ _ Hg)|done]).
    assert (member graph c b) as Hb by (apply (component_mutual c a b Hc Ha); [by apply (graph_addresses _ _ _ Hg)|done]).
    split; [|by exists b]. destruct Ha as (x & Hx & Ha), Hd as (y & Hy & Hd).
    assert (x ≠ y) by congruence. destruct c as [|u [|w c]]; [by apply elem_of_nil in Hx| |simpl; lia].
    apply list_elem_of_singleton in Hx, Hy. congruence.
Qed.

(** For an address that is not an operator itself. *)
Lemma malicious_colludes a :
  a ∉ operators → (∃ c, c ∈ cs ∧ malicious graph operators c ∧ member graph c a) ↔
  ∃ b, b ≠ a ∧ b ∈ operators ∧ rtc sales a b ∧ rtc sales b a.
Proof using Hg Hcs.
  intros Ha. rewrite malicious_member. split.
  - intros (b & Hb & _ & _ & Hab & Hba). exists b. split; [by intros ->|done].
  - intros (b & Hne & Hb & Hab & Hba). destruct (rtc_participates a b) as [_ Hp]; [done|done|].
    exists b. split; [done|]. split; [by exists b|done].
Qed.
End SaleCycles.

(** ** Evidence *)

Lemma push_all_lookup (m : EvidenceMap) l a :
  default [] (foldl push_evidence m l !! a) = default [] (m !! a) ++ (snd <$> filter (λ p, p.1 = a) l).
Proof.
  revert m. induction l as [|[b ev] l IH]; intros m; [by rewrite app_nil_r|]. cbn [foldl]. rewrite IH, filter_cons.
  unfold push_evidence, EvidenceMap in *; simpl. destruct (decide (b = a)) as [->|Hne].
  - rewrite lookup_insert_eq. simpl. by rewrite <- app_assoc.
  - by rewrite lookup_insert_ne.
Qed.

#[export] Instance option_compare_laws {A} (cmp : A → A → comparison) : CompareLaws cmp → CompareLaws (option_compare cmp).
Proof.
  intros Hc. constructor.
  - intros [x|]; simpl; [apply (compare_refl cmp)|done].
  - intros [x|] [y|]; simpl; [apply (compare_antisym cmp)|done..].
  - intros [x|] [y|] [z|]; simpl; try done. apply (compare_trans cmp).
Qed.

Lemma option_compare_eq {A} (cmp : A → A → comparison) `{!CompareEq cmp} (x y : option A) : option_compare cmp x y = Eq ↔ x = y.
Proof. destruct x, y; simpl; rewrite ?compare_eq_iff; naive_solver. Qed.

#[export] Instance evidence_compare_laws : CompareLaws evidence_compare.
Proof.
  unfold evidence_compare. apply then_with_laws; [apply (compare_map_laws (λ e, evidence_kind_ordinal (evidence_type e)) Nat.compare), _|].
  apply then_with_laws; [apply (compare_map_laws token (option_compare nft_key_compare)), _|apply (compare_map_laws transaction (option_compare str_compare)), _].
Qed.

Lemma same_evidence_iff a b : same_evidence a b = true ↔ evidence_compare a b = Eq.
Proof.
  unfold same_evidence, evidence_compare. rewrite bool_decide_eq_true, !then_with_eq, Nat.compare_eq_iff, (option_compare_eq nft_key_compare), (option_compare_eq str_compare).
  assert (evidence_kind_ordinal (evidence_type a) = evidence_kind_ordinal (evidence_type b) ↔ evidence_type a = evidence_type b) as ->; [|done].
  by destruct (evidence_type a), (evidence_type b).
Qed.

(** The kinds of evidence in a record are those pushed for the address. *)
Lemma record_of_kinds evidence a role :
  StronglySorted (λ x y, evidence_compare x y = Lt) (attributed_evidence (record_of evidence a role)) ∧
  (∀ ev, ev ∈ attributed_evidence (record_of evidence a role) → ev ∈ default [] (evidence !! a)) ∧
  ∀ k, (∃ ev, ev ∈ attributed_evidence (record_of evidence a role) ∧ evidence_type ev = k) ↔
    ∃ ev, ev ∈ default [] (evidence !! a) ∧ evidence_type ev = k.
Proof.
  destruct (dedup_by_same evidence_compare same_evidence same_evidence_iff (default [] (evidence !! a))) as (Hs & Hsub & Hrep).
  split_and!; [done|done|]. intros k. split.
  - intros (ev & Hev & ?). exists ev. split; [by apply Hsub|done].
  - intros (ev & Hev & <-). destruct (Hrep ev Hev) as (z & Hz & Hzk). exists z. split; [done|].
    unfold same_evidence in Hzk. apply bool_decide_eq_true in Hzk as [-> _]. done.
Qed.

(** ** What is pushed *)

Section Pushed.
Context (candidate : ContractKey).

(** An entry of kind [k] for [a]. *)
Definition pushed (l : list (str * AddressEvidence)) (a : str) (k : AddressEvidenceKind) : Prop :=
  ∃ ev, (a, ev) ∈ l ∧ evidence_type ev = k.

Lemma pushed_app l1 l2 a k : pushed (l1 ++ l2) a k ↔ pushed l1 a k ∨ pushed l2 a k.
Proof using Type. unfold pushed. setoid_rewrite elem_of_app. naive_solver. Qed.

Lemma pushed_nil a k : pushed [] a k ↔ False.
Proof using Type. unfold pushed. setoid_rewrite elem_of_nil. naive_solver. Qed.

Lemma pushed_entries k' t x w c (l : list str) a k :
  pushed ((λ address, (address, evidence_of candidate k' t x w c)) <$> l) a k ↔ a ∈ l ∧ k = k'.
Proof using Type.
  unfold pushed. setoid_rewrite list_elem_of_fmap. split.
  - intros (ev & (b & [= <- ->] & Hb) & <-). done.
  - intros [Ha ->]. eexists. split; [by exists a|done].
Qed.

Lemma pushed_bind {A} (f : A → list (str * AddressEvidence)) l a k : pushed (l ≫= f) a k ↔ ∃ x, x ∈ l ∧ pushed (f x) a k.
Proof using Type. unfold pushed. setoid_rewrite list_elem_of_bind. naive_solver. Qed.

Lemma event_evidence_pushed e a k :
  pushed (event_evidence candidate e) a k ↔
  match k with
  | EventSender => from e = Some a
  | EventRecipient => to e = Some a
  | Deployment_ => kind e = Deploy ∧ from e = Some a
  | FundingReceived => kind e = Funding ∧ to e = Some a
  | WithdrawalOrCashout => (kind e = Withdrawal ∨ kind e = Cashout) ∧ (from e = Some a ∨ to e = Some a)
  | PaidAcquisition => buys e a
  | SubsequentPropagation => passes_on e a
  | _ => False
  end.
Proof using Type.
  unfold event_evidence, buys, passes_on. rewrite !pushed_app, !pushed_entries, !elem_of_option_list.
  assert (is_paid_acquisition e = true → kind e = Mint ∨ kind e = Sale) as Hpaid.
  { unfold is_paid_acquisition, is_nft_sale. destruct (kind e); simpl; auto; done. }
  assert (is_nft_sale e = true → kind e = Sale) as Hsale by (unfold is_nft_sale; by destruct (kind e)).
  assert (pushed (if is_nft_sale e || bool_decide (kind e = Transfer) then
     (λ address, (address, evidence_of candidate SubsequentPropagation (nft e) (Some (tx_id e)) (7 # 10) (8 # 10))) <$> option_list (from e) else []) a k ↔
     k = SubsequentPropagation ∧ (is_nft_sale e = true ∨ kind e = Transfer) ∧ from e = Some a) as ->.
  { destruct (is_nft_sale e); [|case_bool_decide]; simpl; rewrite ?pushed_entries, ?elem_of_option_list, ?pushed_nil; naive_solver. }
  destruct (is_paid_acquisition e) eqn:Hp; destruct (kind e) eqn:Hk;
    rewrite ?pushed_entries, ?elem_of_app, ?elem_of_option_list, ?pushed_nil; destruct k; naive_solver.
Qed.

Lemma cycle_evidence_pushed m e a k :
  pushed (cycle_evidence candidate m e) a k ↔ k = MaliciousSaleCycle ∧ same_cycle m e = true ∧ (from e = Some a ∨ to e = Some a).
Proof using Type.
  unfold cycle_evidence. destruct (same_cycle m e); rewrite ?pushed_entries, ?elem_of_app, ?elem_of_option_list, ?pushed_nil; naive_solver.
Qed.

Lemma holders_pushed (holders : list (NftKey * str)) w c a k :
  pushed ((λ '(nft, holder), (holder, evidence_of candidate CurrentHolder (Some nft) None w c)) <$> holders) a k ↔
  k = CurrentHolder ∧ holder holders a.
Proof using Type.
  unfold pushed, holder. setoid_rewrite list_elem_of_fmap. split.
  - intros (ev & ([n b] & [= <- ->] & Hb) & <-). split; [done|by exists n].
  - intros [-> [n Hn]]. eexists. split; [by exists (n, a)|done].
Qed.
End Pushed.

(** ** The map of malicious cycles *)

Section CycleMap.
Context (graph : PropagationGraph) (operators : gset str).
Implicit Types (m : gmap str nat).

Lemma insert_members_spec i c m :
  in_range graph c → ∃ m', foldM (insert_member graph i) m c = Some m' ∧
    ∀ a, (member graph c a → m' !! a = Some i) ∧ (¬ member graph c a → m' !! a = m !! a).
Proof using Type.
  intros Hr. revert m. induction Hr as [|v c Hv Hr IH]; intros m.
  { exists m. split; [done|]. intros a. split; [by intros (w & ?%elem_of_nil & _)|done]. }
  destruct (lookup_lt_is_Some_2 _ _ Hv) as [x Hx].
  assert (insert_member graph i m v = Some (<[x := i]> m)) as Hstep by (unfold insert_member; by rewrite Hx).
  simpl. rewrite Hstep. simpl. destruct (IH (<[x := i]> m)) as (m' & -> & Hm'). exists m'. split; [done|].
  intros a. destruct (Hm' a) as [H1 H2].
  assert (member graph (v :: c) a ↔ a = x ∨ member graph c a) as Hm.
  { unfold member. setoid_rewrite elem_of_cons. split; [intros (w & [->|?] & ?); [left; congruence|right; by exists w]|].
    intros [->|(w & ? & ?)]; [exists v|exists w]; auto. }
  rewrite Hm. destruct (decide (a = x)) as [->|Hne].
  - rewrite lookup_insert_eq in H2. split; [|tauto]. intros _. destruct (m' !! x) as [j|] eqn:E.
    + destruct (decide (j = i)) as [->|Hji]; [done|]. exfalso.
      assert (Some j = Some i); [|congruence]. apply H2. intros Hmem. specialize (H1 Hmem). congruence.
    + apply H2. intros Hmem. by specialize (H1 Hmem).
  - rewrite lookup_insert_ne in H2 by done. split; [intros [|]; [done|auto]|tauto].
Qed.

(** Cycles have disjoint members. *)
Definition disjoint_members (l : list (nat * list nat)) : Prop :=
  ∀ i j c d a, (i, c) ∈ l → (j, d) ∈ l → member graph c a → member graph d a → i = j.

Lemma insert_cycles_spec l m :
  Forall (λ p, in_range graph p.2) l → disjoint_members l → (∀ i c a, (i, c) ∈ l → member graph c a → m !! a = None ∨ m !! a = Some i) →
  ∃ m', foldM (insert_cycle graph operators) m l = Some m' ∧
    ∀ a i, m' !! a = Some i ↔ m !! a = Some i ∨ ∃ c, (i, c) ∈ l ∧ malicious graph operators c ∧ member graph c a.
Proof using Type.
  intros Hr. revert m. induction Hr as [|[i c] l Hc Hr IH]; intros m Hd Hm.
  { exists m. split; [done|]. intros a i. setoid_rewrite elem_of_nil. naive_solver. }
  destruct (malicious_cycle_spec graph operators c Hc) as (b & Hb & Hmal).
  assert (∃ m1, insert_cycle graph operators m (i, c) = Some m1 ∧
    ∀ a j, m1 !! a = Some j ↔ m !! a = Some j ∨ (j = i ∧ malicious graph operators c ∧ member graph c a)) as (m1 & Hstep & Hm1).
  { unfold insert_cycle; simpl. rewrite Hb. simpl. destruct b.
    - destruct (insert_members_spec i c m Hc) as (m1 & -> & Hm1). exists m1. split; [done|]. intros a j.
      destruct (Hm1 a) as [H1 H2]. assert (malicious graph operators c) as Hmc by by apply Hmal.
      assert (member graph c a ∨ ¬ member graph c a) as [Ha|Ha].
      { destruct (decide (Exists (λ v, addresses graph !! v = Some a) c)) as [He|He]; [left|right].
        - apply Exists_exists in He as (v & Hv & Hva). by exists v.
        - intros (v & Hv & Hva). apply He, Exists_exists. eauto. }
      + rewrite (H1 Ha). destruct (Hm i c a) as [E|E]; [by left|done|rewrite E..]; naive_solver.
      + rewrite (H2 Ha). naive_solver.
    - exists m. split; [done|]. intros a j. split; [auto|]. intros [?|(_ & ?%Hmal & _)]; done. }
  simpl. rewrite Hstep. simpl. destruct (IH m1) as (m' & -> & Hm').
  - intros j k d d' a Hj Hk. apply Hd; by right.
  - intros j d a Hj Ha. destruct (m1 !! a) as [k|] eqn:E; [right|by left].
    apply Hm1 in E as [E|(-> & _ & Hca)]; [|f_equal; eapply Hd; [by left|right; exact Hj|exact Hca|exact Ha]].
    destruct (Hm j d a) as [E'|E']; [by right|done|congruence|congruence].
  - exists m'. split; [done|]. intros a j. rewrite Hm', Hm1. setoid_rewrite elem_of_cons. naive_solver.
Qed.
End CycleMap.

(** ** The attribution *)

Section Attribution.
Context (candidate : ContractKey) (events : list NormalizedEvent) (controllers : list str) (holders : list (NftKey * str)).
Abbreviation operators := (operator_evidence (collect_sets events controllers)).

(** Partners of an address in a malicious sale cycle. *)
Definition in_malicious_cycle (a : str) : Prop :=
  ∃ b, operator events controllers b ∧
    (∃ d, d ≠ a ∧ participates events is_nft_sale d ∧ rtc (sale events) a d ∧ rtc (sale events) d a) ∧
    participates events is_nft_sale b ∧ rtc (sale events) a b ∧ rtc (sale events) b a.

Lemma colludes_cycle a : ¬ operator events controllers a → in_malicious_cycle a ↔ colludes events controllers a.
Proof using Type.
  intros Ha. split.
  - intros (b & Hb & _ & _ & ?). exists b. split; [by intros ->|done].
  - intros (b & Hne & Hb & Hab & Hba). destruct (rtc_participates events a b) as [_ Hp]; [done|done|].
    exists b. split; [done|]. split; [by exists b|done].
Qed.

(** The kinds of evidence recorded for an address. *)
Definition kind_recorded (a : str) (k : AddressEvidenceKind) : Prop :=
  match k with
  | ControllerOrAuthority => a ∈ controllers
  | CurrentHolder => holder holders a
  | EventSender => ∃ e, e ∈ events ∧ from e = Some a
  | EventRecipient => ∃ e, e ∈ events ∧ to e = Some a
  | Deployment_ => ∃ e, e ∈ events ∧ kind e = Deploy ∧ from e = Some a
  | FundingReceived => ∃ e, e ∈ events ∧ kind e = Funding ∧ to e = Some a
  | WithdrawalOrCashout => ∃ e, e ∈ events ∧ (kind e = Withdrawal ∨ kind e = Cashout) ∧ (from e = Some a ∨ to e = Some a)
  | PaidAcquisition => buyer events a
  | SubsequentPropagation => propagator events a
  | MaliciousSaleCycle => in_malicious_cycle a
  end.

(** In a malicious cycle, some sale of the cycle touches every member. *)
Lemma cycle_sale a :
  in_malicious_cycle a ↔ ∃ e b c, e ∈ events ∧ is_nft_sale e = true ∧ from e = Some b ∧ to e = Some c ∧ (a = b ∨ a = c) ∧
    in_malicious_cycle b ∧ rtc (sale events) c b.
Proof using Type.
  assert (∀ x y, in_malicious_cycle x → rtc (sale events) x y → rtc (sale events) y x → in_malicious_cycle y) as Htrans.
  { intros x y (b & Hb & (d & Hdx & Hdp & Hxd & Hdx') & Hbp & Hxb & Hbx) Hxy Hyx. exists b. split; [done|]. split.
    - destruct (decide (d = y)) as [->|Hne].
      + exists x. split; [done|]. destruct (rtc_participates events x y) as [? _]; [done|done|]. done.
      + exists d. split_and!; [done|done|by etrans|by etrans].
    - split_and!; [done|by etrans|by etrans]. }
  split.
  - intros Ha. pose proof Ha as (_ & _ & (d & Hda & _ & Had & Hda') & _).
    apply rtc_inv in Had as [->|(x & Hax & Hxd)]; [done|]. pose proof Hax as (e & He & Hs & Hf & Ht).
    exists e, a, x. split_and!; [done..|by left|done|by etrans].
  - intros (e & b & c & He & Hs & Hf & Ht & [->| ->] & Hb & Hcb); [done|].
    apply (Htrans b c); [done| |done]. apply rtc_once. by exists e.
Qed.

Lemma sale_cycle_map :
  ∃ g cs cycles, build_filtered events is_nft_sale = Some g ∧ strongly_connected_components g = Some cs ∧
    graph_of_events events is_nft_sale g ∧ scc_partition g cs ∧
    foldM (insert_cycle g operators) ∅ (zip (seq 0 (length cs)) cs) = Some cycles ∧
    ∀ e, e ∈ events → is_nft_sale e = true →
      same_cycle cycles e = true ↔ ∃ b c, from e = Some b ∧ to e = Some c ∧ in_malicious_cycle b ∧ rtc (sale events) c b.
Proof using Type.
  destruct (build_filtered_ok events is_nft_sale) as (g & Hb & Hg).
  destruct (components_of_graph g (graph_is_ok _ _ _ Hg)) as (cs & Hcs & Hpart). exists g, cs.
  assert (∀ i c, (i, c) ∈ zip (seq 0 (length cs)) cs ↔ cs !! i = Some c) as Hzip.
  { intros i c. rewrite list_elem_of_lookup. split.
    - intros (k & Hk). apply lookup_zip_with_Some in Hk as (x & y & [= -> ->] & Hx & Hy). apply lookup_seq in Hx as [-> _]. done.
    - intros Hi. exists i. apply lookup_zip_with_Some. exists i, c. split_and!; [done| |done]. apply lookup_seq.
      split; [done|by eapply lookup_lt_Some]. }
  assert (∀ i j c d a, cs !! i = Some c → cs !! j = Some d → member g c a → member g d a → i = j) as Hdis.
  { intros i j c d a Hc Hd (x & Hx & Hxa) (y & Hy & Hya).
    assert (x = y) as <- by (by apply (NoDup_lookup _ x y a (component_addresses_NoDup events g Hg))).
    apply (NoDup_join_index cs i j c d x); [|done..]. rewrite (proj1 Hpart). apply NoDup_seq. }
  destruct (insert_cycles_spec g operators (zip (seq 0 (length cs)) cs) ∅) as (cycles & Hcy & Hlook).
  { apply Forall_forall. intros [i c] Hic%Hzip. simpl. apply (components_in_range g cs Hpart). by eapply list_elem_of_lookup_2. }
  { intros i j c d a Hi%Hzip Hj%Hzip. by eapply Hdis. }
  { intros i c a _ _. left. apply lookup_empty. }
  exists cycles. split_and!; [done..|]. intros e He Hs.
  assert (∀ a i, cycles !! a = Some i ↔ ∃ c, cs !! i = Some c ∧ malicious g operators c ∧ member g c a) as Hl.
  { intros a i. rewrite Hlook, lookup_empty. setoid_rewrite Hzip. naive_solver. }
  assert (∀ a, in_malicious_cycle a ↔ ∃ c, c ∈ cs ∧ malicious g operators c ∧ member g c a) as Hmal.
  { intros a. rewrite (malicious_member events operators g cs Hg Hpart). unfold in_malicious_cycle.
    setoid_rewrite (proj2 (proj2 (collect_sets_spec events controllers _))). done. }
  unfold same_cycle. destruct (from e) as [b|] eqn:Hf; [|split; [done|naive_solver]].
  destruct (to e) as [c|] eqn:Ht; [|simpl; split; [by destruct (cycles !! b)|naive_solver]]. simpl.
  assert (rtc (sale events) b c) as Hbc by (apply rtc_once; by exists e).
  assert (c ∈ addresses g) as Hcg by (apply (graph_addresses _ _ _ Hg); exists e; auto).
  split.
  - destruct (cycles !! b) as [i|] eqn:Eb; [|done]. destruct (cycles !! c) as [j|] eqn:Ec; [|done]. intros <-%Nat.eqb_eq.
    apply Hl in Eb as (x & Hx & Hmx & Hbx). apply Hl in Ec as (x' & Hx' & _ & Hcx). simplify_eq.
    assert (x ∈ cs) as Hin by (by eapply list_elem_of_lookup_2).
    exists b, c. split_and!; [done|done|apply Hmal; by exists x|]. by apply (component_mutual events g cs Hg Hpart x b c Hin Hbx Hcg).
  - intros (b' & c' & [= <-] & [= <-] & Hb' & Hcb). apply Hmal in Hb' as (x & Hx & Hmx & Hbx).
    assert (member g x c) as Hcx by (by apply (component_mutual events g cs Hg Hpart x b c Hx Hbx Hcg)).
    apply list_elem_of_lookup in Hx as [i Hi].
    rewrite (proj2 (Hl b i)) by (by exists x). rewrite (proj2 (Hl c i)) by (by exists x). apply Nat.eqb_refl.
Qed.

Record attribution_ok (result : AttributionResult) : Prop := {
  ok_roles a : match roles result !! a with
    | Some r => mentioned events controllers holders a ∧ role_is events controllers holders a r
    | None => ¬ mentioned events controllers holders a
    end;
  ok_records a : attributed_role <$> records result !! a = roles result !! a;
  ok_sorted a r : records result !! a = Some r → StronglySorted (λ x y, evidence_compare x y = Lt) (attributed_evidence r);
  ok_kinds a r k : records result !! a = Some r →
    (∃ ev, ev ∈ attributed_evidence r ∧ evidence_type ev = k) ↔ kind_recorded a k;
}.

Lemma marked_role_is (a : str) (roles0 roles1 : gmap str AddressRole) :
  let s := collect_sets events controllers in
  mentioned events controllers holders a →
  roles0 !! a = Some (initial_role s (list_to_set (snd <$> holders)) a) →
  (in_malicious_cycle a ∧ roles0 !! a = Some Neutral → roles1 !! a = Some SuspectedColluder) →
  (¬ (in_malicious_cycle a ∧ roles0 !! a = Some Neutral) → roles1 !! a = roles0 !! a) →
  (in_malicious_cycle a ∨ ¬ in_malicious_cycle a) →
  ∃ r, roles1 !! a = Some r ∧ role_is events controllers holders a r.
Proof using Type.
  simpl. intros Hm H0 H1 H2 Hdec. pose proof (initial_role_spec events controllers holders a) as Hi. simpl in Hi. rewrite H0 in *.
  destruct (initial_role _ _ a) eqn:E; simpl in Hi; try done.
  - exists SuspectedOperator. split; [apply H2; by intros [_ ?]|done].
  - exists LikelyVictim. split; [apply H2; by intros [_ ?]|done].
  - exists CorruptedVictim. split; [apply H2; by intros [_ ?]|done].
  - destruct Hi as [Ho Hb]. pose proof (colludes_cycle a Ho) as Hc. destruct Hdec as [Hd|Hd].
    + exists SuspectedColluder. split; [auto|]. simpl. tauto.
    + exists Neutral. split; [apply H2; tauto|]. simpl. tauto.
Qed.
Lemma malicious_member_dec g cs a :
  Forall (in_range g) cs →
  (∃ c, c ∈ cs ∧ malicious g operators c ∧ member g c a) ∨ ¬ (∃ c, c ∈ cs ∧ malicious g operators c ∧ member g c a).
Proof using Type.
  rewrite Forall_forall. intros Hr.
  destruct (decide (Exists (λ c, malicious_cycle g operators c = Some true ∧ Exists (λ v, addresses g !! v = Some a) c) cs)) as [He|He].
  - left. apply Exists_exists in He as (c & Hc & Hm & (v & Hv & Ha)%Exists_exists).
    destruct (malicious_cycle_spec g operators c (Hr c Hc)) as (b & Hb & Hmal).
    exists c. split; [done|]. split; [apply Hmal; congruence|by exists v].
  - right. intros (c & Hc & Hm & (v & Hv & Ha)). apply He, Exists_exists. exists c.
    destruct (malicious_cycle_spec g operators c (Hr c Hc)) as (b & Hb & Hmal). split; [done|].
    split; [rewrite Hb; f_equal; by apply Hmal|]. apply Exists_exists. by exists v.
Qed.

(** Everything that is pushed, in order. *)
Definition entries (cycles : gmap str nat) : list (str * AddressEvidence) :=
  ((λ controller, (controller, evidence_of candidate ControllerOrAuthority None None (1 # 1) (1 # 1))) <$> controllers) ++
  ((λ '(nft, holder), (holder, evidence_of candidate CurrentHolder (Some nft) None (1 # 2) (3 # 4))) <$> holders) ++
  (events ≫= event_evidence candidate) ++
  (filter (λ e, is_nft_sale e = true) events ≫= cycle_evidence candidate cycles).

Lemma entries_pushed cycles a k :
  (∀ e, e ∈ events → is_nft_sale e = true →
    same_cycle cycles e = true ↔ ∃ b c, from e = Some b ∧ to e = Some c ∧ in_malicious_cycle b ∧ rtc (sale events) c b) →
  pushed (entries cycles) a k ↔ kind_recorded a k.
Proof using Type.
  intros Hsame. unfold entries. rewrite !pushed_app, pushed_entries, holders_pushed, !pushed_bind.
  setoid_rewrite event_evidence_pushed. setoid_rewrite cycle_evidence_pushed. setoid_rewrite list_elem_of_filter.
  assert ((∃ x, (is_nft_sale x = true ∧ x ∈ events) ∧ k = MaliciousSaleCycle ∧ same_cycle cycles x = true ∧
      (from x = Some a ∨ to x = Some a)) ↔ k = MaliciousSaleCycle ∧ in_malicious_cycle a) as ->.
  { rewrite cycle_sale. split.
    - intros (e & [Hs He] & -> & Hc & Hft). split; [done|]. apply Hsame in Hc as (b & c & Hf & Ht & Hb & Hcb); [|done..].
      exists e, b, c. split_and!; try done. destruct Hft; [left|right]; congruence.
    - intros [-> (e & b & c & He & Hs & Hf & Ht & Ha & Hb & Hcb)]. exists e. split_and!; [done..|apply Hsame; [done..|by exists b, c]|].
      destruct Ha as [->| ->]; auto. }
  destruct k; simpl; unfold buyer, propagator; naive_solver.
Qed.

Lemma attribution_result : ∃ result, attribute_addresses_detailed candidate events controllers holders = Some result ∧ attribution_ok result.
Proof using Type.
  destruct sale_cycle_map as (g & cs & cycles & Hb & Hcs & Hg & Hpart & Hcy & Hsame).
  unfold attribute_addresses_detailed. rewrite Hb. cbn [mbind option_bind]. rewrite Hcs. cbn [mbind option_bind].
  set (roles0 := set_to_map _ _ : gmap str AddressRole).
  assert (∀ a r, roles0 !! a = Some r ↔ mentioned events controllers holders a ∧
    r = initial_role (collect_sets events controllers) (list_to_set (snd <$> holders)) a) as H0.
  { intros a r. unfold roles0. rewrite lookup_set_to_map by (intros ? ? _ _; simpl; congruence). setoid_rewrite all_addresses_spec. simpl.
    split; [intros (b & ? & [= -> <-]); done|intros [? ->]; by exists a]. }
  assert (Forall (in_range g) cs) as Hr by (apply Forall_forall; intros c Hc; by apply (components_in_range g cs Hpart)).
  assert (∀ a, (∃ c, c ∈ cs ∧ malicious g operators c ∧ member g c a) ↔ in_malicious_cycle a) as Hmal.
  { intros a. rewrite (malicious_member events operators g cs Hg Hpart). unfold in_malicious_cycle.
    by setoid_rewrite (proj2 (proj2 (collect_sets_spec events controllers _))). }
  destruct (mark_components_spec g operators cs roles0 Hr) as (roles1 & -> & Hr1).
  { intros c a Hc (v & Hv & Ha). apply list_elem_of_lookup_2, (graph_addresses _ _ _ Hg) in Ha as (e & He & _ & Hft).
    eexists. apply H0. split; [|done]. left. exists e. tauto. }
  cbn [mbind option_bind]. rewrite Hcy. cbn [mbind option_bind]. eexists. split; [done|].
  set (evidence := foldl push_evidence _ (filter _ _ ≫= _)).
  assert (∀ a r, roles0 !! a = Some r → ∃ r', roles1 !! a = Some r' ∧ role_is events controllers holders a r') as Hsome.
  { intros a r Ha. pose proof Ha as [Hm ->]%H0. destruct (Hr1 a) as [H1 H2]. rewrite Hmal in H1, H2.
    apply (marked_role_is a roles0 roles1 Hm Ha H1 H2). rewrite <- Hmal. by apply malicious_member_dec. }
  assert (∀ a k, (∃ ev, ev ∈ default [] (evidence !! a) ∧ evidence_type ev = k) ↔ kind_recorded a k) as Hkinds.
  { intros a k. subst evidence. rewrite !push_all_lookup.
    match goal with |- context [default [] ?o ++ _] => assert (default [] o = []) as -> end.
    { unfold EvidenceMap. rewrite (lookup_fmap (λ _ : AddressRole, @nil AddressEvidence) roles1 a). by destruct (roles1 !! a). }
    cbn [app]. rewrite <- !fmap_app, <- !filter_app, <- (entries_pushed cycles a k Hsame).
    rewrite <- !app_assoc. fold (entries cycles). unfold pushed. setoid_rewrite list_elem_of_fmap. setoid_rewrite list_elem_of_filter. split.
    - intros (ev & ([b ev'] & -> & <- & Hin) & <-). eexists. split; [exact Hin|done].
    - intros (ev & Hin & <-). exists ev. split; [|done]. by exists (a, ev). }
  assert (∀ a, roles1 !! a = None ↔ roles0 !! a = None) as Hnone.
  { intros a. destruct (Hr1 a) as [H1 H2]. split.
    - intros Hn. destruct (roles0 !! a) as [r|] eqn:E; [|done]. destruct (Hsome a r E) as (r' & Hr' & _). congruence.
    - intros Hn. rewrite H2; [done|]. by rewrite Hn; intros [_ ?]. }
  constructor; cbn [roles records].
  - intros a. destruct (roles1 !! a) as [r|] eqn:E.
    + destruct (roles0 !! a) as [r0|] eqn:E0; [|apply Hnone in E0; congruence].
      destruct (Hsome a r0 E0) as (r' & Hr' & Hrole). simplify_eq. split; [by apply H0 in E0 as [? _]|done].
    + intros Hm. apply Hnone in E. pose proof (proj2 (H0 a _) (conj Hm eq_refl)) as Hs. congruence.
  - intros a. rewrite map_lookup_imap. by destruct (roles1 !! a).
  - intros a r. rewrite map_lookup_imap. destruct (roles1 !! a) as [r'|]; [|done]. simpl. intros [= <-]. apply record_of_kinds.
  - intros a r k. rewrite map_lookup_imap. destruct (roles1 !! a) as [r'|]; [|done]. simpl. intros [= <-].
    rewrite <- Hkinds. apply record_of_kinds.
Qed.
End Attribution.

(** C19: Attribution never panics, and gives a role to exactly the addresses that an
    event, the controllers or the holders mention. Operators are the controllers,
    deployers, funded addresses and both ends of withdrawals; of the others, buyers who
    pass tokens on are corrupted victims, buyers who only hold likely victims, and the
    rest colluders exactly when sales lead from them to an operator and back. *)
Theorem attributed_roles candidate events controllers holders :
  ∃ roles, attribute_addresses candidate events controllers holders = Some roles ∧
    ∀ a, match roles !! a with
         | Some r => mentioned events controllers holders a ∧ role_is events controllers holders a r
         | None => ¬ mentioned events controllers holders a
         end.
Proof.
  destruct (attribution_result candidate events controllers holders) as (result & Hr & Hok).
  exists (roles result). unfold attribute_addresses. rewrite Hr. split; [done|]. apply Hok.
Qed.

(** The role that recorded evidence speaks for. *)
Definition recorded (evidence : list AddressEvidence) (k : AddressEvidenceKind) : bool :=
  existsb (λ ev, bool_decide (evidence_type ev = k)) evidence.

Definition explained_role (evidence : list AddressEvidence) : AddressRole :=
  if recorded evidence ControllerOrAuthority || recorded evidence Deployment_ || recorded evidence FundingReceived ||
     recorded evidence WithdrawalOrCashout then SuspectedOperator
  else if recorded evidence PaidAcquisition && recorded evidence SubsequentPropagation then CorruptedVictim
  else if recorded evidence PaidAcquisition && recorded evidence CurrentHolder then LikelyVictim
  else if recorded evidence MaliciousSaleCycle then SuspectedColluder
  else Neutral.

Lemma operator_kinds events controllers holders a :
  operator events controllers a ↔
  kind_recorded events controllers holders a ControllerOrAuthority ∨ kind_recorded events controllers holders a Deployment_ ∨
  kind_recorded events controllers holders a FundingReceived ∨ kind_recorded events controllers holders a WithdrawalOrCashout.
Proof.
  unfold operator, operates. simpl. split.
  - intros [?|(e & He & Ho)]; [by left|]. right. destruct (kind e) eqn:Hk; try done; naive_solver.
  - intros [?|[(e & He & Hk & ?)|[(e & He & Hk & ?)|(e & He & Hk & ?)]]]; [by left|right; exists e..]; (split; [done|]);
      try rewrite Hk; try done. by destruct Hk as [-> | ->].
Qed.

(** Every address with a role has a record, ordered and without repetition, whose
    evidence alone explains the role. *)
Theorem evidence_explains_roles candidate events controllers holders :
  ∃ result, attribute_addresses_detailed candidate events controllers holders = Some result ∧
    dom (records result) = dom (roles result) ∧
    ∀ a r, records result !! a = Some r →
      roles result !! a = Some (attributed_role r) ∧
      StronglySorted (λ x y, evidence_compare x y = Lt) (attributed_evidence r) ∧
      attributed_role r = explained_role (attributed_evidence r).
Proof.
  destruct (attribution_result candidate events controllers holders) as (result & Hr & Hok).
  exists result. split; [done|]. split.
  { apply set_eq. intros a. rewrite !elem_of_dom, <- (ok_records _ _ _ _ Hok a). by rewrite fmap_is_Some. }
  intros a r Ha. pose proof (ok_records _ _ _ _ Hok a) as Hrole. rewrite Ha in Hrole. simpl in Hrole.
  split_and!; [done|by eapply (ok_sorted _ _ _ _ Hok)|].
  pose proof (ok_roles _ _ _ _ Hok a) as Hmean. rewrite <- Hrole in Hmean. destruct Hmean as [_ Hmean].
  assert (∀ k, recorded (attributed_evidence r) k = true ↔ kind_recorded events controllers holders a k) as Hk.
  { intros k. rewrite <- (ok_kinds _ _ _ _ Hok a r k Ha). unfold recorded. rewrite existsb_exists.
    setoid_rewrite bool_decide_eq_true. setoid_rewrite list_elem_of_In. done. }
  pose proof (operator_kinds events controllers holders a) as Hop. rewrite <- !Hk in Hop.
  pose proof (Hk PaidAcquisition) as Hp. pose proof (Hk SubsequentPropagation) as Hs. pose proof (Hk CurrentHolder) as Hh.
  pose proof (Hk MaliciousSaleCycle) as Hc. simpl in Hp, Hs, Hh, Hc. pose proof (colludes_cycle events controllers a) as Hcol.
  unfold explained_role.
  destruct (recorded _ ControllerOrAuthority), (recorded _ Deployment_), (recorded _ FundingReceived), (recorded _ WithdrawalOrCashout);
    simpl; destruct (attributed_role r); simpl in Hmean; try done; try tauto;
    destruct (recorded _ PaidAcquisition), (recorded _ SubsequentPropagation), (recorded _ CurrentHolder), (recorded _ MaliciousSaleCycle);
    simpl; try done; exfalso; intuition discriminate.
Qed.
