(* ===== verification/Behavior.v ===== *)
(** Suspicious behaviours around a candidate ([analysis/analysis/behavior.rs]): wash
    cycles, pump and exit, star distributions, layered transfers and concentrated
    inventories, as counts and as instances. [None] is a panic. *)

From Stdlib Require Import QArith.
From S2P Require Import Prelude Text CanonicalJson Anchors SortedLists Float Events Graph.
From S2P Require Import Attribution.

#[local] Open Scope nat_scope.

(** ** Data *)

Inductive BehaviorKind :=
  | WashTrading | PumpAndExit | SybilDistribution | FraudRevenue | Poisoning | LayeredTransfer | InventoryConcentration.
#[export] Instance BehaviorKind_eq_dec : EqDecision BehaviorKind.
Proof. solve_decision. Defined.

Definition behavior_ordinal (k : BehaviorKind) : nat :=
  match k with
  | WashTrading => 0 | PumpAndExit => 1 | SybilDistribution => 2 | FraudRevenue => 3 | Poisoning => 4
  | LayeredTransfer => 5 | InventoryConcentration => 6
  end.

Record BehaviorFacts := {
  wash_cycles : nat; pump_and_exit : nat; sybil_distribution : nat; fraud_revenue : nat; poisoning : nat;
  layered_transfer : nat; inventory_concentration : nat;
}.

Record BehaviorInstance := {
  behavior_kind : BehaviorKind;
  instance_addresses : list str;
  nfts : list NftKey;
  transactions : list str;
  linked_buyers : list str;
  edge_count : Z;
  start_timestamp : option Z;
  end_timestamp : option Z;
  start_block : option Z;
  end_block : option Z;
  native_value : Z;
  instance_usd_micros : Z;
  linked_loss_native : Z;
  linked_loss_usd_micros : Z;
  gini_nft_count : option Q;
  gini_token_transaction_count : option Q;
  fan_out : option Z;
  path_length : option Z;
  low_value_hops : option Z;
  source_address_count : option Z;
  nft_share : option Q;
  value_share : option Q;
  exit_delay_seconds : option Z;
  exit_to_internal_price_ratio : option Q;
  exit_to_cycle_nft_ratio : option Q;
}.

Record BehaviorAnalysis := { facts : BehaviorFacts; instances : list BehaviorInstance }.

Record CycleValues := {
  cycle_end : option Z;
  internal_native_sum : Z; internal_native_count : Z; internal_usd_sum : Z; internal_usd_count : Z;
  exit_native_sum : Z; exit_native_count : Z; exit_usd_sum : Z; exit_usd_count : Z;
  internal_events : list nat;
  exit_events : list nat;
}.

Definition CycleValues_default : CycleValues :=
  {| cycle_end := None; internal_native_sum := 0; internal_native_count := 0; internal_usd_sum := 0; internal_usd_count := 0;
     exit_native_sum := 0; exit_native_count := 0; exit_usd_sum := 0; exit_usd_count := 0; internal_events := [];
     exit_events := [] |}.

(** [left.into_iter().chain(right).min()] *)
Definition min_option (a b : option Z) : option Z :=
  match a, b with Some a, Some b => Some (Z.min a b) | Some a, None => Some a | None, b => b end.
Definition max_option (a b : option Z) : option Z :=
  match a, b with Some a, Some b => Some (Z.max a b) | Some a, None => Some a | None, b => b end.

(** ** Values of a cycle *)

Inductive ValueSide := Internal | Exit.

(** Adds to a sum and its count. *)
Definition add_amount (sum_count : Z * Z) (value : option Z) : Z * Z :=
  match non_negative value with
  | Some v => (saturating_add128 sum_count.1 v, (sum_count.2 +w 1)%nft)
  | None => sum_count
  end.

Definition add_value (values : CycleValues) (native usd : option Z) (side : ValueSide) : CycleValues :=
  match side with
  | Internal =>
      let n := add_amount (internal_native_sum values, internal_native_count values) native in
      let u := add_amount (internal_usd_sum values, internal_usd_count values) usd in
      {| cycle_end := cycle_end values; internal_native_sum := n.1; internal_native_count := n.2; internal_usd_sum := u.1;
         internal_usd_count := u.2; exit_native_sum := exit_native_sum values; exit_native_count := exit_native_count values;
         exit_usd_sum := exit_usd_sum values; exit_usd_count := exit_usd_count values; internal_events := internal_events values;
         exit_events := exit_events values |}
  | Exit =>
      let n := add_amount (exit_native_sum values, exit_native_count values) native in
      let u := add_amount (exit_usd_sum values, exit_usd_count values) usd in
      {| cycle_end := cycle_end values; internal_native_sum := internal_native_sum values;
         internal_native_count := internal_native_count values; internal_usd_sum := internal_usd_sum values;
         internal_usd_count := internal_usd_count values; exit_native_sum := n.1; exit_native_count := n.2;
         exit_usd_sum := u.1; exit_usd_count := u.2; internal_events := internal_events values; exit_events := exit_events values |}
  end.

Definition with_end (values : CycleValues) (time : option Z) : CycleValues :=
  {| cycle_end := time; internal_native_sum := internal_native_sum values; internal_native_count := internal_native_count values;
     internal_usd_sum := internal_usd_sum values; internal_usd_count := internal_usd_count values;
     exit_native_sum := exit_native_sum values; exit_native_count := exit_native_count values; exit_usd_sum := exit_usd_sum values;
     exit_usd_count := exit_usd_count values; internal_events := internal_events values; exit_events := exit_events values |}.

Definition push_event (values : CycleValues) (side : ValueSide) (index : nat) : CycleValues :=
  {| cycle_end := cycle_end values; internal_native_sum := internal_native_sum values;
     internal_native_count := internal_native_count values; internal_usd_sum := internal_usd_sum values;
     internal_usd_count := internal_usd_count values; exit_native_sum := exit_native_sum values;
     exit_native_count := exit_native_count values; exit_usd_sum := exit_usd_sum values; exit_usd_count := exit_usd_count values;
     internal_events := match side with Internal => internal_events values ++ [index] | Exit => internal_events values end;
     exit_events := match side with Exit => exit_events values ++ [index] | Internal => exit_events values end |}.

(** [i128::checked_mul] *)
Definition checked_mul128 (a b : Z) : option Z :=
  if decide (i128_MIN ≤ a * b ≤ i128_MAX)%Z then Some (a * b)%Z else None.

Definition average_exceeds (left_sum left_count right_sum right_count : Z) : bool :=
  match checked_mul128 left_sum right_count, checked_mul128 right_sum left_count with
  | Some left_, Some right_ => (right_ <? left_)%Z
  | _, _ =>
      f64_lt (f64_div (f64_of_Z right_sum) (f64_of_Z right_count)) (f64_div (f64_of_Z left_sum) (f64_of_Z left_count))
  end.

Definition exit_price_exceeds_internal (v : CycleValues) : bool :=
  if (0 <? internal_usd_count v)%Z && (0 <? exit_usd_count v)%Z then
    average_exceeds (exit_usd_sum v) (exit_usd_count v) (internal_usd_sum v) (internal_usd_count v)
  else
    (0 <? internal_native_count v)%Z && (0 <? exit_native_count v)%Z &&
    average_exceeds (exit_native_sum v) (exit_native_count v) (internal_native_sum v) (internal_native_count v).

(** ** Instances *)

Definition new_instance (kind : BehaviorKind) : BehaviorInstance := {|
  behavior_kind := kind; instance_addresses := []; nfts := []; transactions := []; linked_buyers := []; edge_count := 0;
  start_timestamp := None; end_timestamp := None; start_block := None; end_block := None; native_value := 0;
  instance_usd_micros := 0; linked_loss_native := 0; linked_loss_usd_micros := 0; gini_nft_count := None;
  gini_token_transaction_count := None; fan_out := None; path_length := None; low_value_hops := None;
  source_address_count := None; nft_share := None; value_share := None; exit_delay_seconds := None;
  exit_to_internal_price_ratio := None; exit_to_cycle_nft_ratio := None |}.

Definition instance_of (kind : BehaviorKind) (addresses : list str) (nfts : list NftKey) (transactions : list str) (edges : Z)
  (times blocks : option Z * option Z) (native usd : Z) : BehaviorInstance := {|
  behavior_kind := kind; instance_addresses := addresses; nfts := nfts; transactions := transactions; linked_buyers := [];
  edge_count := edges; start_timestamp := times.1; end_timestamp := times.2; start_block := blocks.1; end_block := blocks.2;
  native_value := native; instance_usd_micros := usd; linked_loss_native := 0; linked_loss_usd_micros := 0;
  gini_nft_count := None; gini_token_transaction_count := None; fan_out := None; path_length := None; low_value_hops := None;
  source_address_count := None; nft_share := None; value_share := None; exit_delay_seconds := None;
  exit_to_internal_price_ratio := None; exit_to_cycle_nft_ratio := None |}.

Definition add_event (i : BehaviorInstance) (e : NormalizedEvent) : BehaviorInstance :=
  instance_of (behavior_kind i) (instance_addresses i ++ option_list (from e) ++ option_list (to e))
    (nfts i ++ option_list (nft e)) (transactions i ++ [tx_id e]) (edge_count i +w 1)%nft
    (min_option (start_timestamp i) (timestamp e), max_option (end_timestamp i) (timestamp e))
    (min_option (start_block i) (block_number e), max_option (end_block i) (block_number e))
    (saturating_add128 (native_value i) (amount (native_amount e)))
    (saturating_add128 (instance_usd_micros i) (amount (usd_micros e))).

Definition instance_from_events (kind : BehaviorKind) (events : list NormalizedEvent) : BehaviorInstance :=
  let i := foldl add_event (new_instance kind) events in
  instance_of kind (sort_dedup str_compare (instance_addresses i)) (sort_dedup nft_key_compare (nfts i))
    (sort_dedup str_compare (transactions i)) (edge_count i) (start_timestamp i, end_timestamp i) (start_block i, end_block i)
    (native_value i) (instance_usd_micros i).

(** The fields that the detectors set. *)
Record Details := {
  d_addresses : list str; d_linked_buyers : list str; d_linked_loss : Z * Z; d_gini : option Q * option Q; d_fan_out : option Z;
  d_path : option Z * option Z; d_sources : option Z; d_shares : option Q * option Q; d_delay : option Z; d_ratios : option Q * option Q;
}.

Definition details_of (i : BehaviorInstance) : Details := {|
  d_addresses := instance_addresses i; d_linked_buyers := linked_buyers i;
  d_linked_loss := (linked_loss_native i, linked_loss_usd_micros i); d_gini := (gini_nft_count i, gini_token_transaction_count i);
  d_fan_out := fan_out i; d_path := (path_length i, low_value_hops i); d_sources := source_address_count i;
  d_shares := (nft_share i, value_share i); d_delay := exit_delay_seconds i;
  d_ratios := (exit_to_internal_price_ratio i, exit_to_cycle_nft_ratio i) |}.

Definition with_details (i : BehaviorInstance) (d : Details) : BehaviorInstance := {|
  behavior_kind := behavior_kind i; instance_addresses := d_addresses d; nfts := nfts i; transactions := transactions i;
  linked_buyers := d_linked_buyers d; edge_count := edge_count i; start_timestamp := start_timestamp i;
  end_timestamp := end_timestamp i; start_block := start_block i; end_block := end_block i; native_value := native_value i;
  instance_usd_micros := instance_usd_micros i; linked_loss_native := (d_linked_loss d).1;
  linked_loss_usd_micros := (d_linked_loss d).2; gini_nft_count := (d_gini d).1; gini_token_transaction_count := (d_gini d).2;
  fan_out := d_fan_out d; path_length := (d_path d).1; low_value_hops := (d_path d).2; source_address_count := d_sources d;
  nft_share := (d_shares d).1; value_share := (d_shares d).2; exit_delay_seconds := d_delay d;
  exit_to_internal_price_ratio := (d_ratios d).1; exit_to_cycle_nft_ratio := (d_ratios d).2 |}.

(** Events by index: [events[index]] panics out of range. *)
Definition select (events : list NormalizedEvent) (indices : list nat) : option (list NormalizedEvent) :=
  mapM (λ index, events !! index) indices.

Definition select_addresses (graph : PropagationGraph) (component : list nat) : option (list str) :=
  mapM (λ vertex, addresses graph !! vertex) component.

(** ** Distributions *)

Definition u128_modulus : Z := 2 ^ 128.

Definition gini (values : list Z) : option Q :=
  let sum := (foldr Z.add 0 values mod u128_modulus)%Z in
  if bool_decide (values = []) || (sum =? 0)%Z then None else
  let sorted := sort_by Z.compare values in
  let weighted := (foldr Z.add 0 (zip_with (λ index value, (Z.of_nat index + 1) * value) (seq 0 (length sorted)) sorted) mod u128_modulus)%Z in
  let count := f64_of_Z (Z.of_nat (length sorted)) in
  Some (f64_sub (f64_div (f64_mul (2 # 1) (f64_of_Z weighted)) (f64_mul count (f64_of_Z sum)))
                (f64_div (f64_add count (1 # 1)) count)).

(** Per address, its NFTs and its number of transactions. *)
Definition participate (state : gmap str (gset NftKey) * gmap str Z) (entry : str * option NftKey) : gmap str (gset NftKey) * gmap str Z :=
  let '(address, nft) := entry in
  (match nft with Some nft => <[address := {[nft]} ∪ default ∅ (state.1 !! address)]> state.1 | None => state.1 end,
   <[address := (default 0%Z (state.2 !! address) +w 1)%nft]> state.2).

Definition participant_distributions (addresses : list str) (events : list NormalizedEvent) : list Z * list Z :=
  let state := foldl participate (list_to_map ((λ a, (a, ∅)) <$> addresses), list_to_map ((λ a, (a, 0%Z)) <$> addresses))
    (events ≫= λ e, (λ a, (a, nft e)) <$> option_list (from e) ++ option_list (to e)) in
  ((λ a, Z.of_nat (size (default ∅ (state.1 !! a)))) <$> addresses, (λ a, default 0%Z (state.2 !! a)) <$> addresses).

Definition cycle_instance (events : list NormalizedEvent) (graph : PropagationGraph) (component : list nat) (values : CycleValues)
  : option BehaviorInstance :=
  selected ← select events (internal_events values);
  let i := instance_from_events WashTrading selected in
  members ← select_addresses graph component;
  let members := sort_by str_compare members in
  let '(nft_counts, transaction_counts) := participant_distributions members selected in
  let d := details_of i in
  Some (with_details i {| d_addresses := members; d_linked_buyers := d_linked_buyers d; d_linked_loss := d_linked_loss d;
    d_gini := (gini nft_counts, gini transaction_counts); d_fan_out := d_fan_out d; d_path := d_path d; d_sources := d_sources d;
    d_shares := d_shares d; d_delay := d_delay d; d_ratios := d_ratios d |}).

Definition comparable_average_ratio (v : CycleValues) : option Q :=
  let ratio internal_sum internal_count exit_sum exit_count :=
    let internal := f64_div (f64_of_Z internal_sum) (f64_of_Z internal_count) in
    if f64_lt 0 internal then Some (f64_div (f64_div (f64_of_Z exit_sum) (f64_of_Z exit_count)) internal) else None in
  if (0 <? internal_usd_count v)%Z && (0 <? exit_usd_count v)%Z then
    ratio (internal_usd_sum v) (internal_usd_count v) (exit_usd_sum v) (exit_usd_count v)
  else if (0 <? internal_native_count v)%Z && (0 <? exit_native_count v)%Z then
    ratio (internal_native_sum v) (internal_native_count v) (exit_native_sum v) (exit_native_count v)
  else None.

(** [i64::saturating_sub] *)
Definition saturating_sub64 (a b : Z) : Z := Z.max (- 2 ^ 63) (Z.min (a - b) (2 ^ 63 - 1)).

Definition pump_instance (events : list NormalizedEvent) (graph : PropagationGraph) (component : list nat) (values : CycleValues)
  : option BehaviorInstance :=
  selected ← select events (exit_events values);
  let i := instance_from_events PumpAndExit selected in
  members ← select_addresses graph component;
  internal ← select events (internal_events values);
  let cycle_nfts : gset NftKey := list_to_set (omap nft internal) in
  let d := details_of i in
  Some (with_details i {| d_addresses := sort_dedup str_compare (instance_addresses i ++ members);
    d_linked_buyers := sort_dedup str_compare (omap to selected); d_linked_loss := (exit_native_sum values, exit_usd_sum values);
    d_gini := d_gini d; d_fan_out := d_fan_out d; d_path := d_path d; d_sources := d_sources d; d_shares := d_shares d;
    d_delay := (match cycle_end values, start_timestamp i with Some e, Some s => Some (saturating_sub64 s e) | _, _ => None end);
    d_ratios := (comparable_average_ratio values,
      if decide (size cycle_nfts = 0) then None else
        Some (f64_div (f64_of_Z (Z.of_nat (length (nfts i)))) (f64_of_Z (Z.of_nat (size cycle_nfts))))) |}).

(** ** Layered transfers *)

(** The steps of a search with [d] vertices to go, [m] edges in all. *)
Fixpoint search_bound (m d : nat) : nat :=
  match d with 0 => 1 | S d => 1 + m * (1 + search_bound m d) end.

Section Layered.
Context (graph : PropagationGraph) (minimum_addresses : nat).

(** [while let Some(next_edge) = next_edges.last_mut()]; both stacks are kept top
    first. *)
Fixpoint path_search (fuel : nat) (path next_edges : list nat) : option (option (list nat)) :=
  match next_edges with
  | [] => Some None
  | next_edge :: rest =>
      match fuel with
      | 0 => None
      | S fuel =>
          if decide (length path = minimum_addresses) then Some (Some (reverse path)) else
          vertex ← head path;
          last ← offsets graph !! S vertex;
          if decide (next_edge = last) then path_search fuel (tail path) rest else
          next ← edges graph !! next_edge;
          if decide (next ∈ path) then path_search fuel path (S next_edge :: rest) else
          first ← offsets graph !! next;
          path_search fuel (next :: path) (first :: S next_edge :: rest)
      end
  end.

Definition search_from (start : nat) : option (option (list nat)) :=
  first ← offsets graph !! start;
  path_search (search_bound (length (edges graph)) minimum_addresses) [start] [first].

(** [for start in 0..len], with an early return. *)
Fixpoint search_starts (starts : list nat) : option (option (list nat)) :=
  match starts with
  | [] => Some None
  | start :: starts => r ← search_from start; match r with Some path => Some (Some path) | None => search_starts starts end
  end.

Definition first_layered_path : option (option (list nat)) :=
  if decide (minimum_addresses = 0) then Some (Some []) else search_starts (seq 0 (length (addresses graph))).

Definition count_layered_paths : option nat :=
  r ← first_layered_path; Some (match r with Some _ => 1 | None => 0 end).
End Layered.

Definition address_ids (graph : PropagationGraph) : gmap str nat :=
  list_to_map (zip (addresses graph) (seq 0 (length (addresses graph)))).

(** The ids of both ends of an event. *)
Definition event_ids (ids : gmap str nat) (e : NormalizedEvent) : option (nat * nat) :=
  f ← from e ≫= (ids !!.); t ← to e ≫= (ids !!.); Some (f, t).

Definition push_edge_event (ids : gmap str nat) (m : gmap (nat * nat) (list nat)) (entry : nat * NormalizedEvent) : gmap (nat * nat) (list nat) :=
  match event_ids ids entry.2 with
  | Some edge => <[edge := default [] (m !! edge) ++ [entry.1]]> m
  | None => m
  end.

Definition enumerate {A} (l : list A) : list (nat * A) := zip (seq 0 (length l)) l.

Definition edge_events (events : list NormalizedEvent) (graph : PropagationGraph) : gmap (nat * nat) (list nat) :=
  foldl (push_edge_event (address_ids graph)) ∅ (filter (λ p, is_nft_propagation p.2 = true) (enumerate events)).

(** [path.windows(2)] *)
Fixpoint hops (path : list nat) : list (nat * nat) :=
  match path with a :: (b :: _) as rest => (a, b) :: hops rest | _ => [] end.

Definition is_low_value (e : NormalizedEvent) : bool :=
  match usd_micros e, native_amount e with
  | Some usd, Some native => (usd <=? 1000000)%Z && (native <=? 1000000000000000)%Z
  | _, _ => false
  end.

Definition layered_paths (events : list NormalizedEvent) (graph : PropagationGraph) (minimum_addresses : nat) : option (list BehaviorInstance) :=
  let edge_events := edge_events events graph in
  found ← first_layered_path graph minimum_addresses;
  match found with
  | None => Some []
  | Some path =>
      members ← select_addresses graph path;
      let selected_indices := omap (λ edge, edge_events !! edge ≫= head) (hops path) in
      if decide (length selected_indices + 1 ≠ length path) then Some [] else
      selected ← select events selected_indices;
      let i := instance_from_events LayeredTransfer selected in
      let d := details_of i in
      Some [with_details i {| d_addresses := members; d_linked_buyers := d_linked_buyers d; d_linked_loss := d_linked_loss d;
        d_gini := d_gini d; d_fan_out := d_fan_out d;
        d_path := (Some (Z.of_nat minimum_addresses), Some (Z.of_nat (length (filter (λ e, is_low_value e = true) selected))));
        d_sources := d_sources d; d_shares := d_shares d; d_delay := d_delay d; d_ratios := d_ratios d |}]
  end.

(** ** Stars *)

Record StarAnalysis := { sybil : nat; fraud : nat; star_poisoning : nat; star_instances : list BehaviorInstance }.

(** Indexing and updating a vector; [None] panics. *)
Definition update {A} (l : list A) (i : nat) (f : A → A) : option (list A) := x ← l !! i; Some (<[i := f x]> l).

Definition place_vertex (graph : PropagationGraph) (malicious : gset str) (component_id : nat) (state : list nat * list bool) (vertex : nat)
  : option (list nat * list bool) :=
  by_vertex ← store state.1 vertex component_id;
  address ← addresses graph !! vertex;
  flags ← update state.2 component_id (λ flag, flag || bool_decide (address ∈ malicious));
  Some (by_vertex, flags).

Definition place_component (graph : PropagationGraph) (malicious : gset str) (state : list nat * list bool) (entry : nat * list nat)
  : option (list nat * list bool) :=
  foldM (place_vertex graph malicious entry.1) state entry.2.

Record Outgoing := { dag_targets : list (gset nat); valuable : list bool; outgoing_events : list (list nat) }.

Definition add_outgoing (ids : gmap str nat) (component_by_vertex : list nat) (collect_instances : bool) (o : Outgoing) (entry : nat * NormalizedEvent)
  : option Outgoing :=
  let '(event_index, e) := entry in
  if negb (is_nft_propagation e) then Some o else
  match event_ids ids e with
  | None => Some o
  | Some (from, to) =>
      left_ ← component_by_vertex !! from;
      right_ ← component_by_vertex !! to;
      if decide (left_ = right_) then Some o else
      targets ← update (dag_targets o) left_ (λ s : gset nat, {[right_]} ∪ s);
      outgoing ← (if collect_instances then update (outgoing_events o) left_ (λ l, l ++ [event_index]) else Some (outgoing_events o));
      valuable ← update (valuable o) left_ (λ flag, flag || (is_nft_sale e || is_paid e));
      Some {| dag_targets := targets; valuable := valuable; outgoing_events := outgoing |}
  end.

(** [dag_targets[component].iter().any(|target| !dag_targets[target].is_empty())] *)
Definition reaches_further (dag_targets : list (gset nat)) (targets : gset nat) : option bool :=
  reached ← mapM (λ target, dag_targets !! target) (elements targets);
  Some (existsb (λ s : gset nat, negb (bool_decide (s = ∅))) reached).

Definition star_kind (dag_targets : list (gset nat)) (targets : gset nat) (valuable : bool) : option BehaviorKind :=
  further ← reaches_further dag_targets targets;
  Some (if (further : bool) then SybilDistribution else if valuable then FraudRevenue else Poisoning).

(** [linked_buyers.binary_search(address).is_ok()] *)
Definition sorted_contains (l : list str) (address : str) : option bool :=
  r ← binary_search_by (λ x, str_compare x address) l; Some (match r with inl _ => true | inr _ => false end).

Definition to_linked_buyer (buyers : list str) (e : NormalizedEvent) : option bool :=
  match to e with Some address => sorted_contains buyers address | None => Some false end.

Definition linked_loss (buyers : list str) (value : NormalizedEvent → option Z) (selected : list NormalizedEvent) : option Z :=
  linked ← mapM (to_linked_buyer buyers) selected;
  let values := omap (λ '(flag, e), if (flag : bool) then v ← value e; if (0 <? v)%Z then Some v else None else None) (zip linked selected) in
  Some (foldl saturating_add128 0%Z values).

Definition star_instance (events : list NormalizedEvent) (roles : gmap str AddressRole) (kind : BehaviorKind) (targets : gset nat) (indices : list nat)
  : option BehaviorInstance :=
  selected ← select events indices;
  let i := instance_from_events kind selected in
  let buyers := filter (λ a, from_option is_honest false (roles !! a) = true) (instance_addresses i) in
  native ← linked_loss buyers native_amount selected;
  usd ← linked_loss buyers usd_micros selected;
  let d := details_of i in
  Some (with_details i {| d_addresses := d_addresses d; d_linked_buyers := buyers; d_linked_loss := (native, usd); d_gini := d_gini d;
    d_fan_out := Some (Z.of_nat (size targets)); d_path := d_path d; d_sources := d_sources d; d_shares := d_shares d;
    d_delay := d_delay d; d_ratios := d_ratios d |}).

Definition count_star (s : StarAnalysis) (kind : BehaviorKind) (i : option BehaviorInstance) : StarAnalysis := {|
  sybil := sybil s + (if decide (kind = SybilDistribution) then 1 else 0);
  fraud := fraud s + (if decide (kind = FraudRevenue) then 1 else 0);
  star_poisoning := star_poisoning s + (if decide (kind = Poisoning) then 1 else 0);
  star_instances := star_instances s ++ option_list i |}.

Definition star_component (events : list NormalizedEvent) (roles : gmap str AddressRole) (malicious_component : list bool) (o : Outgoing)
  (collect_instances : bool) (s : StarAnalysis) (component : nat) : option StarAnalysis :=
  malicious ← malicious_component !! component;
  if negb malicious then Some s else
  targets ← dag_targets o !! component;
  if decide (size targets < 3) then Some s else
  valuable ← valuable o !! component;
  kind ← star_kind (dag_targets o) targets valuable;
  if negb collect_instances then Some (count_star s kind None) else
  indices ← outgoing_events o !! component;
  i ← star_instance events roles kind targets indices;
  Some (count_star s kind (Some i)).

Definition star_behaviors (events : list NormalizedEvent) (graph : PropagationGraph) (components : list (list nat))
  (roles : gmap str AddressRole) (malicious : gset str) (collect_instances : bool) : option StarAnalysis :=
  let count := length components in
  '(component_by_vertex, malicious_component) ←
    foldM (place_component graph malicious) (replicate (length (addresses graph)) 0, replicate count false) (enumerate components);
  o ← foldM (add_outgoing (address_ids graph) component_by_vertex collect_instances)
    {| dag_targets := replicate count ∅; valuable := replicate count false;
       outgoing_events := if collect_instances then replicate count [] else [] |} (enumerate events);
  foldM (star_component events roles malicious_component o collect_instances)
    {| sybil := 0; fraud := 0; star_poisoning := 0; star_instances := [] |} (seq 0 count).

(** ** Inventories *)

Definition bump (indegree : list Z) (target : nat) : option (list Z) := update indegree target (λ d, (d +w 1)%nft).

(** A malicious vertex with many sources, or some and many targets. *)
Definition is_inventory (graph : PropagationGraph) (malicious : gset str) (entry : nat * Z) : option bool :=
  let '(vertex, degree) := entry in
  address ← addresses graph !! vertex;
  if negb (bool_decide (address ∈ malicious)) then Some false else
  if (3 <=? degree)%Z then Some true else
  if negb (0 <? degree)%Z then Some false else
  last ← offsets graph !! S vertex;
  first ← offsets graph !! vertex;
  Some (3 <=? last - first).

Definition inventory_vertices (graph : PropagationGraph) (malicious : gset str) : option (list nat) :=
  indegree ← foldM bump (replicate (length (addresses graph)) 0%Z) (edges graph);
  flags ← mapM (is_inventory graph malicious) (enumerate indegree);
  Some (omap (λ '(flag, vertex), if (flag : bool) then Some vertex else None) (zip flags (seq 0 (length indegree)))).

Record Totals := { total_nfts : gset NftKey; total_value : Z; inbound : list (list NormalizedEvent) }.

Definition add_inbound (use_usd : bool) (selected_vertices : gmap str nat) (t : Totals) (e : NormalizedEvent) : option Totals :=
  inbound ← (match to e ≫= (selected_vertices !!.) with
             | Some slot => update (inbound t) slot (λ l, l ++ [e])
             | None => Some (inbound t)
             end);
  Some {| total_nfts := list_to_set (option_list (nft e)) ∪ total_nfts t;
          total_value := saturating_add128 (total_value t) (amount (if use_usd then usd_micros e else native_amount e));
          inbound := inbound |}.

Definition inventory_instance (use_usd : bool) (t : Totals) (selected : list NormalizedEvent) : BehaviorInstance :=
  let i := instance_from_events InventoryConcentration selected in
  let sources : gset str := list_to_set (omap from selected) in
  let selected_value := if use_usd then instance_usd_micros i else native_value i in
  let d := details_of i in
  with_details i {| d_addresses := d_addresses d; d_linked_buyers := d_linked_buyers d; d_linked_loss := d_linked_loss d;
    d_gini := d_gini d; d_fan_out := d_fan_out d; d_path := d_path d; d_sources := Some (Z.of_nat (size sources));
    d_shares :=
      (if decide (size (total_nfts t) = 0) then None
       else Some (f64_div (f64_of_Z (Z.of_nat (length (nfts i)))) (f64_of_Z (Z.of_nat (size (total_nfts t))))),
       if (0 <? total_value t)%Z then Some (f64_div (f64_of_Z selected_value) (f64_of_Z (total_value t))) else None);
    d_delay := d_delay d; d_ratios := d_ratios d |}.

Definition inventory_instances (events : list NormalizedEvent) (graph : PropagationGraph) (vertices : list nat) : option (list BehaviorInstance) :=
  let use_usd := existsb (λ e, bool_decide (is_Some (usd_micros e))) events in
  selected ← select_addresses graph vertices;
  t ← foldM (add_inbound use_usd (list_to_map (reverse (zip selected (seq 0 (length vertices))))))
    {| total_nfts := ∅; total_value := 0; inbound := replicate (length vertices) [] |} events;
  Some (inventory_instance use_usd t <$> inbound t).

(** ** The detectors together *)

Definition wash_map (sale_graph : PropagationGraph) (wash_components : list (list nat)) : option (gmap str nat) :=
  foldM (λ m entry, foldM (insert_member sale_graph entry.1) m entry.2) ∅ (enumerate wash_components).

Definition add_internal (wash_by_address : gmap str nat) (collect_instances : bool) (values : list CycleValues) (entry : nat * NormalizedEvent)
  : option (list CycleValues) :=
  let '(event_index, e) := entry in
  match from e, to e with
  | Some from, Some to =>
      if negb (is_nft_sale e) then Some values else
      match wash_by_address !! from, wash_by_address !! to with
      | Some left_, Some right_ =>
          if decide (left_ = right_) then
            update values left_ (λ v,
              let v := add_value (with_end v (max_option (cycle_end v) (timestamp e))) (native_amount e) (usd_micros e) Internal in
              if collect_instances then push_event v Internal event_index else v)
          else Some values
      | _, _ => Some values
      end
  | _, _ => Some values
  end.

Definition add_exit (wash_by_address : gmap str nat) (honest : gset str) (collect_instances : bool) (values : list CycleValues)
  (entry : nat * NormalizedEvent) : option (list CycleValues) :=
  let '(event_index, e) := entry in
  if negb (is_nft_sale e) then Some values else
  match from e ≫= (wash_by_address !!.), to e with
  | Some wash_id, Some to =>
      v ← values !! wash_id;
      if bool_decide (to ∈ honest) && negb (bool_decide (wash_by_address !! to = Some wash_id)) &&
         match cycle_end v, timestamp e with Some e, Some exit => (e <? exit)%Z | _, _ => false end
      then
        let v := add_value v (native_amount e) (usd_micros e) Exit in
        Some (<[wash_id := if collect_instances then push_event v Exit event_index else v]> values)
      else Some values
  | _, _ => Some values
  end.

Fixpoint lists_compare {A} (cmp : A → A → comparison) (a b : list A) : comparison :=
  match a, b with
  | [], [] => Eq | [], _ => Lt | _, [] => Gt
  | x :: a, y :: b => then_with (cmp x y) (lists_compare cmp a b)
  end.

Definition instance_compare (a b : BehaviorInstance) : comparison :=
  then_with (Nat.compare (behavior_ordinal (behavior_kind a)) (behavior_ordinal (behavior_kind b)))
    (then_with (option_compare Z.compare (start_timestamp a) (start_timestamp b))
      (then_with (option_compare Z.compare (start_block a) (start_block b))
        (then_with (lists_compare str_compare (instance_addresses a) (instance_addresses b))
          (lists_compare str_compare (transactions a) (transactions b))))).

(** Sales between two malicious addresses. *)
Definition is_wash_sale (malicious : gset str) (e : NormalizedEvent) : bool :=
  is_nft_sale e && from_option (λ a, bool_decide (a ∈ malicious)) false (from e) &&
  from_option (λ a, bool_decide (a ∈ malicious)) false (to e).

Definition collected_instances (events : list NormalizedEvent) (graph sale_graph : PropagationGraph) (wash_components : list (list nat))
  (values : list CycleValues) (star layered : list BehaviorInstance) (inventory : list nat) : option (list BehaviorInstance) :=
  cycles ← mapM (λ '(component, v), cycle_instance events sale_graph component v) (zip wash_components values);
  pumps ← mapM (λ '(cycle, v), component ← wash_components !! cycle; pump_instance events sale_graph component v)
    (filter (λ p, exit_price_exceeds_internal p.2 = true) (enumerate values));
  inventories ← inventory_instances events graph inventory;
  Some (cycles ++ pumps ++ star ++ layered ++ inventories).

Definition analyze_behaviors (events : list NormalizedEvent) (graph : PropagationGraph) (roles : gmap str AddressRole)
  (components : list (list nat)) (collect_instances : bool) : option BehaviorAnalysis :=
  let malicious := addresses_with roles is_malicious in
  let honest := addresses_with roles is_honest in
  sale_graph ← build_filtered events (is_wash_sale malicious);
  sale_components ← strongly_connected_components sale_graph;
  let wash_components := filter (λ component, 2 ≤ length component) sale_components in
  wash_by_address ← wash_map sale_graph wash_components;
  values ← foldM (add_internal wash_by_address collect_instances) (replicate (length wash_components) CycleValues_default) (enumerate events);
  values ← foldM (add_exit wash_by_address honest collect_instances) values (enumerate events);
  star ← star_behaviors events graph components roles malicious collect_instances;
  layered ← (if collect_instances then l ← layered_paths events graph 3; Some (length l, l)
             else n ← count_layered_paths graph 3; Some (n, []));
  inventory ← inventory_vertices graph malicious;
  instances ← (if collect_instances then collected_instances events graph sale_graph wash_components values (star_instances star) layered.2 inventory
               else Some []);
  Some {| facts := {| wash_cycles := length wash_components;
                      pump_and_exit := length (filter (λ v, exit_price_exceeds_internal v = true) values);
                      sybil_distribution := sybil star; fraud_revenue := fraud star; poisoning := star_poisoning star;
                      layered_transfer := layered.1; inventory_concentration := length inventory |};
          instances := sort_by instance_compare instances |}.

Definition detect_behaviors (events : list NormalizedEvent) (graph : PropagationGraph) (roles : gmap str AddressRole)
  (components : list (list nat)) : option BehaviorAnalysis := analyze_behaviors events graph roles components true.

Definition detect_behavior_facts (events : list NormalizedEvent) (graph : PropagationGraph) (roles : gmap str AddressRole)
  (components : list (list nat)) : option BehaviorFacts := facts <$> analyze_behaviors events graph roles components false.
