(* ===== verification/LayeredFacts.v ===== *)
(** The search for a layered transfer: the backtracking loop ends within its fuel and
    finds a simple path of the wanted length whenever there is one. *)

From S2P Require Import Prelude Text CanonicalJson Anchors SortedLists Events Graph TarjanFacts.
From S2P Require Import GraphFacts Attribution Behavior.

Section Layered.
Context (graph : PropagationGraph) (k : nat).
Context (Hok : graph_ok graph).
Abbreviation n := (length (addresses graph)).
Abbreviation edge := (edge graph).
Abbreviation offset := (offset graph).

(** A path: each vertex has an edge to the next. *)
Fixpoint linked (path : list nat) : Prop :=
  match path with a :: (b :: _) as rest => edge a b ∧ linked rest | _ => True end.

(** A path of the graph that visits no vertex twice. *)
Definition simple_path (path : list nat) : Prop := NoDup path ∧ linked path ∧ Forall (λ v, v < n) path.

(** [q] continues a path that ends in [v] without meeting [path] again. *)
Fixpoint continues (v : nat) (path q : list nat) : Prop :=
  match q with [] => True | w :: q => edge v w ∧ (w ∉ path) ∧ continues w (w :: path) q end.

(** The first hop uses an edge from index [e] on. *)
Definition continues_from (e v : nat) (path q : list nat) : Prop :=
  match q with
  | [] => True
  | w :: q => (∃ i, e ≤ i < offset (S v) ∧ edges graph !! i = Some w) ∧ (w ∉ path) ∧ continues w (w :: path) q
  end.

Lemma continues_from_first v path q : v < n → continues_from (offset v) v path q ↔ continues v path q.
Proof using Type. intros Hv. destruct q as [|w q]; [done|]. simpl. unfold TarjanFacts.edge. naive_solver. Qed.

Lemma continues_spec v path q :
  continues v path q ↔ linked (v :: q) ∧ NoDup q ∧ ∀ w, w ∈ q → w ∉ path.
Proof using Type.
  revert v path. induction q as [|w q IH]; intros v path.
  - simpl. split; [|done]. intros _. split_and!; [done|constructor|by intros ? ?%elem_of_nil].
  - change (linked (v :: w :: q)) with (edge v w ∧ linked (w :: q)). cbn [continues]. rewrite IH, NoDup_cons. split.
    + intros (He & Hw & Hl & Hnd & Hq). split_and!; [done|done| |done|].
      * intros Hin. apply (Hq w Hin). by left.
      * intros x [->|Hx]%elem_of_cons; [done|]. specialize (Hq x Hx). rewrite elem_of_cons in Hq. tauto.
    + intros ((He & Hl) & (Hwq & Hnd) & Hq). split_and!; [done|apply Hq; by left|done|done|].
      intros x Hx [->|Hxp]%elem_of_cons; [done|]. by apply (Hq x); [right|].
Qed.

Definition steps_bound (d r : nat) : nat :=
  match d with 0 => 1 | S d => 1 + r * (1 + search_bound (length (edges graph)) d) end.

Lemma steps_search_bound d r : r ≤ length (edges graph) → steps_bound d r ≤ search_bound (length (edges graph)) d.
Proof using Type. intros Hr. destruct d; [done|]. unfold steps_bound. cbn [search_bound]. nia. Qed.

Lemma offset_bound v : v ≤ n → offset v ≤ length (edges graph).
Proof using Hok. intros Hv. rewrite <- (offsets_last _ Hok). by apply (offset_le graph Hok). Qed.

(** One visit of a vertex, to the return to the rest of the stacks. *)
Definition visit_outcome (d e v : nat) (ps rest : list nat) (c : nat) : Prop :=
  (∃ q, length q = d ∧ continues_from e v (v :: ps) q ∧
    ∀ fuel, path_search graph k (c + fuel) (v :: ps) (e :: rest) = Some (Some (reverse (v :: ps) ++ q))) ∨
  ((∀ q, continues_from e v (v :: ps) q → length q ≠ d) ∧
    ∀ fuel, path_search graph k (c + fuel) (v :: ps) (e :: rest) = path_search graph k fuel ps rest).

Lemma search_step fuel e v ps rest :
  length (v :: ps) ≠ k → v < n →
  path_search graph k (S fuel) (v :: ps) (e :: rest) =
    if decide (e = offset (S v)) then path_search graph k fuel ps rest else
    next ← edges graph !! e;
    if decide (next ∈ v :: ps) then path_search graph k fuel (v :: ps) (S e :: rest) else
    first ← offsets graph !! next; path_search graph k fuel (next :: v :: ps) (first :: S e :: rest).
Proof using Hok.
  intros Hk Hv. cbn [path_search]. rewrite decide_False by done. cbn [head mbind option_bind].
  rewrite (offset_lookup graph Hok (S v)) by lia. done.
Qed.

Lemma search_visit d : ∀ ps v e rest,
  length (v :: ps) + d = k → v < n → offset v ≤ e ≤ offset (S v) →
  ∃ c, c ≤ steps_bound d (offset (S v) - e) ∧ visit_outcome d e v ps rest c.
Proof using Hok.
  induction d as [|d IHd]; intros ps v e rest Hlen Hv He.
  { exists 1. split; [done|]. left. exists []. split_and!; [done..|]. intros fuel. rewrite app_nil_r. cbn [path_search Nat.add].
    by rewrite decide_True by lia. }
  remember (offset (S v) - e) as r eqn:Hr. revert e He Hr. induction r as [|r IHr]; intros e He Hr.
  - exists 1. split; [simpl; lia|]. right. split.
    + intros [|w q] Hc; [done|]. destruct Hc as ((i & Hi & _) & _). lia.
    + intros fuel. change (1 + fuel) with (S fuel). rewrite search_step by (done || lia). by rewrite decide_True by lia.
  - destruct (edge_lookup graph Hok v e Hv ltac:(lia)) as (w & Hw & Hwn & Hedge).
    destruct (IHr (S e) ltac:(lia) ltac:(lia)) as (c2 & Hc2 & Hout2).
    assert (∀ q, continues_from e v (v :: ps) q → length q = S d → (∃ q', q = w :: q' ∧ (w ∉ v :: ps) ∧ continues w (w :: v :: ps) q') ∨
      continues_from (S e) v (v :: ps) q) as Hsplit.
    { intros [|x q] Hc Hl; [done|]. destruct Hc as ((i & Hi & Hx) & Hxp & Hq). destruct (decide (i = e)) as [->|].
      - left. assert (x = w) as -> by congruence. by exists q.
      - right. split; [exists i; split; [lia|done]|done]. }
    assert (∀ q, continues_from (S e) v (v :: ps) q → continues_from e v (v :: ps) q) as Hmono.
    { intros [|x q]; [done|]. intros ((i & Hi & Hx) & ?). split; [exists i; split; [lia|done]|done]. }
    assert (∀ fuel, path_search graph k (S fuel) (v :: ps) (e :: rest) =
      if decide (w ∈ v :: ps) then path_search graph k fuel (v :: ps) (S e :: rest)
      else path_search graph k fuel (w :: v :: ps) (offset w :: S e :: rest)) as Hstep.
    { intros fuel. rewrite search_step by (done || lia). rewrite decide_False by lia. rewrite Hw. cbn [mbind option_bind].
      case_decide; [done|]. by rewrite (offset_lookup graph Hok w) by lia. }
    destruct (decide (w ∈ v :: ps)) as [Hin|Hnin].
    + exists (S c2). split; [unfold steps_bound in *; nia|]. destruct Hout2 as [(q & Hq & Hc & Hf)|[Hno Hf]].
      * left. exists q. split_and!; [done|by apply Hmono|]. intros fuel. cbn [Nat.add]. by rewrite Hstep, Hf.
      * right. split; [|intros fuel; cbn [Nat.add]; by rewrite Hstep, Hf].
        intros q Hc Hl. destruct (Hsplit q Hc Hl) as [(q' & _ & ? & _)|Hc']; [done|]. by apply (Hno q).
    + destruct (IHd (v :: ps) w (offset w) (S e :: rest)) as (c1 & Hc1 & Hout1); [simpl in *; lia|done|split; [done|by apply (offsets_monotone _ Hok)]|].
      assert (c1 ≤ search_bound (length (edges graph)) d) as Hb1.
      { etrans; [exact Hc1|]. apply steps_search_bound. pose proof (offset_bound (S w) ltac:(lia)). lia. }
      destruct Hout1 as [(q & Hq & Hc & Hf)|[Hno Hf]].
      * exists (S c1). split; [unfold steps_bound in *; nia|]. left. exists (w :: q). split_and!; [simpl; lia| |].
        -- split; [exists e; split; [lia|done]|]. split; [done|]. by apply continues_from_first.
        -- intros fuel. cbn [Nat.add]. rewrite Hstep, Hf. by rewrite (reverse_cons (v :: ps) w), <- app_assoc.
      * exists (S (c1 + c2)). split; [unfold steps_bound in *; nia|].
        assert (∀ fuel, path_search graph k (S (c1 + c2) + fuel) (v :: ps) (e :: rest) = path_search graph k (c2 + fuel) (v :: ps) (S e :: rest)) as Hf'.
        { intros fuel. cbn [Nat.add]. by rewrite Hstep, <- Nat.add_assoc, Hf. }
        destruct Hout2 as [(q & Hq & Hc & Hf2)|[Hno2 Hf2]].
        -- left. exists q. split_and!; [done|by apply Hmono|]. intros fuel. by rewrite Hf', Hf2.
        -- right. split; [|intros fuel; by rewrite Hf', Hf2].
           intros q Hc Hl. destruct (Hsplit q Hc Hl) as [(q' & -> & _ & Hq')|Hc']; [|by apply (Hno2 q)].
           apply (Hno q'); [by apply continues_from_first|simpl in Hl; lia].
Qed.

Lemma search_bound_mono m d : search_bound m d ≤ search_bound m (S d).
Proof using Type. induction d as [|d IH]; simpl in *; nia. Qed.

Lemma linked_range v q : v < n → linked (v :: q) → Forall (λ w, w < n) (v :: q).
Proof using Hok.
  revert v. induction q as [|w q IH]; intros v Hv Hl; [by repeat constructor|].
  change (edge v w ∧ linked (w :: q)) in Hl. destruct Hl as [He Hl]. constructor; [done|]. apply IH; [|done].
  destruct He as (i & _ & _ & Hi). pose proof (edges_range _ Hok) as Hr. rewrite Forall_lookup in Hr. eauto.
Qed.

(** Simple paths of length [k] from a vertex. *)
Definition path_from (start : nat) (p : list nat) : Prop := head p = Some start ∧ length p = k ∧ simple_path p.

Lemma search_from_spec start :
  start < n → k ≠ 0 →
  ∃ r, search_from graph k start = Some r ∧
    match r with Some p => path_from start p | None => ∀ p, ¬ path_from start p end.
Proof using Hok.
  intros Hs Hk. unfold search_from. rewrite (offset_lookup graph Hok start) by lia. cbn [mbind option_bind].
  destruct (search_visit (k - 1) [] start (offset start) []) as (c & Hc & Hout); [simpl; lia|done|split; [done|by apply (offsets_monotone _ Hok)]|].
  assert (c ≤ search_bound (length (edges graph)) k) as Hcb.
  { etrans; [exact Hc|]. etrans; [apply steps_search_bound; pose proof (offset_bound (S start) ltac:(lia)); lia|].
    replace k with (S (k - 1)) at 2 by lia. apply search_bound_mono. }
  replace (search_bound (length (edges graph)) k) with (c + (search_bound (length (edges graph)) k - c)) by lia.
  assert (∀ q, continues_from (offset start) start [start] q ↔ simple_path (start :: q)) as Hsimple.
  { intros q. rewrite continues_from_first, continues_spec by done. unfold simple_path. rewrite NoDup_cons. split.
    - intros (Hl & Hnd & Hq). split_and!; [|done|done|by apply linked_range].
      intros Hin. apply (Hq start Hin). by left.
    - intros ((Hin & Hnd) & Hl & _). split_and!; [done|done|]. intros w Hw ->%list_elem_of_singleton. done. }
  destruct Hout as [(q & Hq & Hcq & Hf)|[Hno Hf]]; rewrite Hf.
  - eexists. split; [done|]. simpl. split_and!; [done|simpl; lia|by apply Hsimple].
  - exists None. split; [by destruct (search_bound _ _ - c)|]. intros p (Hh & Hl & Hp). destruct p as [|x q]; [done|]. injection Hh as ->.
    apply (Hno q); [by apply Hsimple|simpl in Hl; lia].
Qed.

Lemma search_starts_spec starts :
  Forall (λ v, v < n) starts → k ≠ 0 →
  ∃ r, search_starts graph k starts = Some r ∧
    match r with
    | Some p => ∃ start, start ∈ starts ∧ path_from start p
    | None => ∀ start p, start ∈ starts → ¬ path_from start p
    end.
Proof using Hok.
  intros Hall Hk. induction Hall as [|v starts Hv Hall (r & Hr & IH)]; [exists None; split; [done|]; by intros ? ? ?%elem_of_nil|].
  cbn [search_starts]. destruct (search_from_spec v Hv Hk) as ([p|] & -> & Hp); cbn [mbind option_bind].
  - exists (Some p). split; [done|]. exists v. split; [by left|done].
  - exists r. split; [done|]. destruct r as [p|].
    + destruct IH as (start & ? & ?). exists start. split; [by right|done].
    + intros start p [->|Hin]%elem_of_cons; [apply Hp|by apply IH].
Qed.

Lemma first_layered_path_spec :
  ∃ r, first_layered_path graph k = Some r ∧
    match r with Some p => length p = k ∧ simple_path p | None => ∀ p, simple_path p → length p ≠ k end.
Proof using Hok.
  unfold first_layered_path. case_decide as Hk.
  { exists (Some []). split; [done|]. split; [done|]. split_and!; [constructor|done|constructor]. }
  destruct (search_starts_spec (seq 0 n)) as (r & Hr & Hs); [apply Forall_forall; intros v Hv%elem_of_seq; lia|done|].
  exists r. split; [done|]. destruct r as [p|].
  - destruct Hs as (start & _ & _ & Hl & Hp). done.
  - intros p Hp Hl. destruct p as [|v p]; [simpl in Hl; lia|]. apply (Hs v (v :: p)); [|done].
    destruct Hp as (_ & _ & Hr'). apply Forall_cons in Hr' as [Hv _]. apply elem_of_seq. lia.
Qed.
End Layered.

(** C20: The search for a layered transfer of any length on the graph of any events ends
    within its fuel, never panics, and returns a path of that many different addresses
    along events whenever there is one; the count is 1 then and 0 otherwise. *)
Theorem layered_path_found events include minimum_addresses :
  ∃ g r, build_filtered events include = Some g ∧
    first_layered_path g minimum_addresses = Some r ∧
    count_layered_paths g minimum_addresses = Some (if r is Some _ then 1 else 0) ∧
    match r with
    | Some path => length path = minimum_addresses ∧ simple_path g path
    | None => ∀ path, simple_path g path → length path ≠ minimum_addresses
    end.
Proof.
  destruct (build_filtered_ok events include) as (g & Hb & Hg).
  destruct (first_layered_path_spec g minimum_addresses (graph_is_ok _ _ _ Hg)) as (r & Hr & Hp).
  exists g, r. split_and!; [done|done| |done]. unfold count_layered_paths. rewrite Hr. simpl. by destruct r.
Qed.
