(* ===== verification/DetectorFacts.v ===== *)
(** The detectors: on the graph of the events they never panic, the counts do not depend
    on whether instances are collected, and every count is the number of the instances of
    its kind; first for stars, then for all of them. *)

From S2P Require Import Prelude Text CanonicalJson Anchors SortedLists Float Events Graph.
From S2P Require Import TarjanFacts GraphFacts Evidence EvidenceFacts Attribution.
From S2P Require Import AttributionFacts Behavior LayeredFacts.

(** ** Folds *)

(** Two loops over the same list, related step by step. *)
Lemma foldM_related {A B C} (R : B → C → Prop) (f : B → A → option B) (g : C → A → option C) l b c :
  R b c → (∀ x b c, x ∈ l → R b c → ∃ b' c', f b x = Some b' ∧ g c x = Some c' ∧ R b' c') →
  ∃ b' c', foldM f b l = Some b' ∧ foldM g c l = Some c' ∧ R b' c'.
Proof.
  revert b c. induction l as [|x l IH]; intros b c HR Hstep; [by exists b, c|]. simpl.
  destruct (Hstep x b c) as (b1 & c1 & -> & -> & HR1); [by left|done|]. simpl. apply IH; [done|].
  intros y b2 c2 Hy. apply Hstep. by right.
Qed.

(** A loop that never fails keeps an invariant. *)
Lemma foldM_invariant {A B} (P : B → Prop) (f : B → A → option B) l b :
  P b → (∀ x b, x ∈ l → P b → ∃ b', f b x = Some b' ∧ P b') → ∃ b', foldM f b l = Some b' ∧ P b'.
Proof.
  intros HP Hstep. destruct (foldM_related (λ b c, b = c ∧ P b) f f l b b) as (b' & c' & Hb & _ & _ & HP'); [done| |by exists b'].
  intros x b1 c1 Hx [<- HP1]. destruct (Hstep x b1 Hx HP1) as (b2 & Hb2 & HP2). by exists b2, b2.
Qed.

Lemma mapM_total {A B} (f : A → option B) l :
  (∀ x, x ∈ l → is_Some (f x)) → ∃ r, mapM f l = Some r ∧ length r = length l.
Proof.
  induction l as [|x l IH]; intros Hf; [by exists []|]. destruct (Hf x) as [y Hy]; [by left|].
  destruct IH as (r & Hr & Hl); [intros z Hz; apply Hf; by right|]. exists (y :: r). simpl. rewrite Hy. simpl. rewrite Hr. simpl. by rewrite Hl.
Qed.

Lemma update_total {A} (l : list A) i f : i < length l → ∃ x, l !! i = Some x ∧ update l i f = Some (<[i := f x]> l).
Proof. intros Hi. destruct (lookup_lt_is_Some_2 l i Hi) as [x Hx]. exists x. unfold update. by rewrite Hx. Qed.

Lemma elem_of_enumerate {A} (l : list A) i x : (i, x) ∈ enumerate l ↔ l !! i = Some x.
Proof.
  unfold enumerate. rewrite list_elem_of_lookup. split.
  - intros (k & Hk). apply lookup_zip_with_Some in Hk as (a & b & [= -> ->] & Ha & Hb). by apply lookup_seq in Ha as [-> _].
  - intros Hi. exists i. apply lookup_zip_with_Some. exists i, x. split_and!; [done| |done].
    apply lookup_seq. split; [done|by eapply lookup_lt_Some].
Qed.

(** ** Selections *)

Section Selections.
Context (events : list NormalizedEvent) (graph : PropagationGraph).

Definition valid_indices (l : list nat) : Prop := Forall (λ i, i < length events) l.

Lemma select_total l : valid_indices l → ∃ r, select events l = Some r ∧ length r = length l.
Proof using Type.
  intros Hl. apply mapM_total. intros i Hi. apply lookup_lt_is_Some. unfold valid_indices in Hl. rewrite Forall_forall in Hl. auto.
Qed.

Lemma select_addresses_total c : in_range graph c → ∃ r, select_addresses graph c = Some r ∧ length r = length c.
Proof using Type.
  intros Hc. apply mapM_total. intros i Hi. apply lookup_lt_is_Some. unfold in_range in Hc. rewrite Forall_forall in Hc. auto.
Qed.

Lemma cycle_instance_total c v : in_range graph c → valid_indices (internal_events v) → is_Some (cycle_instance events graph c v).
Proof using Type.
  intros Hc Hv. destruct (select_total _ Hv) as (s & Hs & _). destruct (select_addresses_total c Hc) as (m & Hm & _).
  unfold cycle_instance. rewrite Hs. cbn [mbind option_bind]. rewrite Hm. cbn [mbind option_bind].
  destruct (participant_distributions _ _). by eexists.
Qed.

Lemma pump_instance_total c v :
  in_range graph c → valid_indices (internal_events v) → valid_indices (exit_events v) → is_Some (pump_instance events graph c v).
Proof using Type.
  intros Hc Hi Hx. destruct (select_total _ Hi) as (s & Hs & _). destruct (select_total _ Hx) as (t & Ht & _).
  destruct (select_addresses_total c Hc) as (m & Hm & _). unfold pump_instance. rewrite Ht. cbn [mbind option_bind].
  rewrite Hm. cbn [mbind option_bind]. rewrite Hs. cbn [mbind option_bind]. by eexists.
Qed.
End Selections.

(** ** Cycle values *)

(** The values of a cycle without its events. *)
Definition erase (v : CycleValues) : CycleValues :=
  {| cycle_end := cycle_end v; internal_native_sum := internal_native_sum v; internal_native_count := internal_native_count v;
     internal_usd_sum := internal_usd_sum v; internal_usd_count := internal_usd_count v; exit_native_sum := exit_native_sum v;
     exit_native_count := exit_native_count v; exit_usd_sum := exit_usd_sum v; exit_usd_count := exit_usd_count v;
     internal_events := []; exit_events := [] |}.

Section Values.
Context (events : list NormalizedEvent).

(** The values with events collected, and those without. *)
Definition same_values (n : nat) (l l' : list CycleValues) : Prop :=
  length l = n ∧ erase <$> l = l' ∧
  Forall (λ v, valid_indices events (internal_events v) ∧ valid_indices events (exit_events v)) l.

Lemma same_values_update n l l' i v v' :
  same_values n l l' → erase v = v' → valid_indices events (internal_events v) → valid_indices events (exit_events v) →
  same_values n (<[i := v]> l) (<[i := v']> l').
Proof using Type.
  intros (Hn & <- & Hv) <- Hi Hx. split_and!; [by rewrite length_insert|by rewrite list_fmap_insert|]. by apply Forall_insert.
Qed.

Lemma valid_snoc l i : valid_indices events l → i < length events → valid_indices events (l ++ [i]).
Proof using Type. intros Hl Hi. apply Forall_app. split; [done|]. by apply Forall_singleton. Qed.

Lemma wash_step wash n l l' i e :
  (∀ a k, wash !! a = Some k → k < n) → events !! i = Some e → same_values n l l' →
  ∃ r r', add_internal wash true l (i, e) = Some r ∧ add_internal wash false l' (i, e) = Some r' ∧ same_values n r r'.
Proof using Type.
  intros Hw He Hs. pose proof (lookup_lt_Some _ _ _ He) as Hie. unfold add_internal.
  destruct (from e) as [f|]; [|by exists l, l']. destruct (to e) as [t|]; [|by exists l, l'].
  destruct (negb (is_nft_sale e)); [by exists l, l'|]. destruct (wash !! f) as [a|] eqn:Ha; [|by exists l, l'].
  destruct (wash !! t) as [b|]; [|by exists l, l']. case_decide; [|by exists l, l'].
  pose proof Hs as (Hn & Hl' & Hv). destruct (update_total l a (λ v, push_event (add_value (with_end v (max_option (cycle_end v) (timestamp e)))
    (native_amount e) (usd_micros e) Internal) Internal i)) as (v & Hlv & Hu); [rewrite Hn; eauto|].
  destruct (update_total l' a (λ v, add_value (with_end v (max_option (cycle_end v) (timestamp e))) (native_amount e) (usd_micros e) Internal)) as (v' & Hlv' & Hu').
  { rewrite <- Hl', length_fmap, Hn. eauto. }
  cbn [erase] in *. rewrite Hu, Hu'. do 2 eexists. split_and!; [done..|]. rewrite Forall_lookup in Hv. destruct (Hv a v Hlv) as [Hvi Hvx].
  apply same_values_update; [done| |by apply valid_snoc|done].
  rewrite <- Hl', list_lookup_fmap, Hlv in Hlv'. simpl in Hlv'. injection Hlv' as <-. done.
Qed.

Lemma exit_step wash honest n l l' i e :
  (∀ a k, wash !! a = Some k → k < n) → events !! i = Some e → same_values n l l' →
  ∃ r r', add_exit wash honest true l (i, e) = Some r ∧ add_exit wash honest false l' (i, e) = Some r' ∧ same_values n r r'.
Proof using Type.
  intros Hw He Hs. pose proof (lookup_lt_Some _ _ _ He) as Hie. unfold add_exit.
  destruct (negb (is_nft_sale e)); [by exists l, l'|]. destruct (from e) as [f|]; [|by exists l, l']. cbn [mbind option_bind].
  destruct (wash !! f) as [a|] eqn:Ha; [|by exists l, l']. destruct (to e) as [t|]; [|by exists l, l'].
  pose proof Hs as (Hn & Hl' & Hv). destruct (lookup_lt_is_Some_2 l a) as [v Hlv]; [rewrite Hn; eauto|]. rewrite Hlv.
  assert (l' !! a = Some (erase v)) as -> by (by rewrite <- Hl', list_lookup_fmap, Hlv). cbn [mbind option_bind].
  change (cycle_end (erase v)) with (cycle_end v). destruct (_ && _ && _); [|by exists l, l'].
  do 2 eexists. split_and!; [done..|]. rewrite Forall_lookup in Hv. destruct (Hv a v Hlv) as [Hvi Hvx].
  apply same_values_update; [done|done|done|by apply valid_snoc].
Qed.

Lemma values_ok wash honest n :
  (∀ a k, wash !! a = Some k → k < n) →
  ∃ l1 l2 l1' l2', foldM (add_internal wash true) (replicate n CycleValues_default) (enumerate events) = Some l1 ∧
    foldM (add_internal wash false) (replicate n CycleValues_default) (enumerate events) = Some l1' ∧
    foldM (add_exit wash honest true) l1 (enumerate events) = Some l2 ∧
    foldM (add_exit wash honest false) l1' (enumerate events) = Some l2' ∧ same_values n l2 l2'.
Proof using Type.
  intros Hw.
  destruct (foldM_related (same_values n) (add_internal wash true) (add_internal wash false) (enumerate events)
    (replicate n CycleValues_default) (replicate n CycleValues_default)) as (l1 & l1' & H1 & H1' & Hs).
  { split_and!; [apply length_replicate|by rewrite fmap_replicate|]. apply Forall_replicate. split; constructor. }
  { intros [i e] l l' Hx%elem_of_enumerate. by apply wash_step. }
  destruct (foldM_related (same_values n) (add_exit wash honest true) (add_exit wash honest false) (enumerate events) l1 l1' Hs)
    as (l2 & l2' & H2 & H2' & Hs2).
  { intros [i e] l l' Hx%elem_of_enumerate. by apply exit_step. }
  by exists l1, l2, l1', l2'.
Qed.

Lemma erase_pump v : exit_price_exceeds_internal (erase v) = exit_price_exceeds_internal v.
Proof using Type. done. Qed.

Lemma pump_count l : length (filter (λ v, exit_price_exceeds_internal v = true) (erase <$> l)) =
  length (filter (λ v, exit_price_exceeds_internal v = true) l).
Proof using Type. by rewrite filter_fmap, length_fmap. Qed.
End Values.

(** The number of instances of a kind. *)
Definition of_kind (k : BehaviorKind) (l : list BehaviorInstance) : nat := length (filter (λ i, behavior_kind i = k) l).

Lemma of_kind_app k l1 l2 : of_kind k (l1 ++ l2) = of_kind k l1 + of_kind k l2.
Proof. unfold of_kind. by rewrite filter_app, length_app. Qed.

Lemma of_kind_all k k' l : Forall (λ i, behavior_kind i = k') l → of_kind k l = if decide (k = k') then length l else 0.
Proof.
  unfold of_kind. induction 1 as [|i l Hi Hl IH]; [by case_decide|]. rewrite filter_cons. rewrite Hi.
  repeat case_decide; simpl; congruence.
Qed.

Lemma of_kind_perm k l1 l2 : l1 ≡ₚ l2 → of_kind k l1 = of_kind k l2.
Proof. intros Hp. unfold of_kind. by rewrite Hp. Qed.

Lemma StronglySorted_filter_by {A} (R : A → A → Prop) (P : A → Prop) `{∀ x, Decision (P x)} l :
  StronglySorted R l → StronglySorted R (filter P l).
Proof.
  induction 1 as [|x l Hl IH Hx]; [constructor|]. rewrite filter_cons. case_decide; [|done]. constructor; [done|].
  rewrite Forall_forall in *. intros y [_ Hy]%list_elem_of_filter. auto.
Qed.

(** A sorted list is searched as a set. *)
Lemma sorted_contains_spec l a :
  StronglySorted (λ a b, str_compare a b = Lt) l → sorted_contains l a = Some (bool_decide (a ∈ l)).
Proof.
  intros Hs. unfold sorted_contains.
  destruct (binary_search_outcome (λ x, str_compare x a) l) as (r & -> & Hr).
  { intros i j x y Hij Hx Hy. pose proof (StronglySorted_lookup _ _ _ _ _ _ Hs Hij Hx Hy) as Hxy. simpl in Hxy. split.
    - intros Hg%(compare_gt_lt str_compare). apply (compare_gt_lt str_compare). apply (compare_lt_le_trans str_compare a x y Hg). by rewrite Hxy.
    - intros Hl. apply (compare_lt_le_trans str_compare x y a Hxy). by rewrite Hl. }
  simpl. destruct r as [i|i].
  - destruct Hr as (x & Hx & E). apply str_compare_eq in E as ->. rewrite bool_decide_eq_true_2; [done|]. by eapply list_elem_of_lookup_2.
  - rewrite bool_decide_eq_false_2; [done|]. intros Hin. by apply (Hr a Hin), (compare_refl str_compare).
Qed.

Lemma instance_addresses_sorted k evs :
  StronglySorted (λ a b, str_compare a b = Lt) (instance_addresses (instance_from_events k evs)).
Proof. apply (sort_dedup_strict str_compare). Qed.

Lemma linked_loss_total buyers value selected :
  StronglySorted (λ a b, str_compare a b = Lt) buyers → is_Some (linked_loss buyers value selected).
Proof.
  intros Hs. unfold linked_loss. destruct (mapM_total (to_linked_buyer buyers) selected) as (r & -> & _); [|by eexists].
  intros e _. unfold to_linked_buyer. destruct (to e); [|by eexists]. rewrite sorted_contains_spec by done. by eexists.
Qed.

Section Stars.
Context (events : list NormalizedEvent) (graph : PropagationGraph) (roles : gmap str AddressRole) (malicious : gset str).
Context (components : list (list nat)).
Context (Hcover : mjoin components ≡ₚ seq 0 (length (addresses graph))).
Abbreviation n := (length (addresses graph)).
Abbreviation count := (length components).

Lemma component_range i c : components !! i = Some c → in_range graph c.
Proof using Hcover.
  intros Hc. apply Forall_forall. intros v Hv. assert (v ∈ mjoin components) as Hin.
  { apply list_elem_of_join. exists c. split; [done|]. by eapply list_elem_of_lookup_2. }
  rewrite Hcover, elem_of_seq in Hin. lia.
Qed.

Lemma vertex_component v : v < n → 0 < count.
Proof using Hcover.
  intros Hv. assert (v ∈ mjoin components) as Hin by (rewrite Hcover, elem_of_seq; lia).
  apply list_elem_of_join in Hin as (c & _ & Hc). by destruct components; [apply elem_of_nil in Hc|simpl; lia].
Qed.

(** Every vertex has a component, every component a flag. *)
Definition placed (st : list nat * list bool) : Prop :=
  length st.1 = n ∧ Forall (λ k, k < count) st.1 ∧ length st.2 = count.

Lemma placed_total :
  ∃ st, foldM (place_component graph malicious) (replicate n 0, replicate count false) (enumerate components) = Some st ∧ placed st.
Proof using Hcover.
  apply foldM_invariant.
  { split_and!; simpl; [apply length_replicate| |apply length_replicate]. apply Forall_forall. intros k Hk. apply elem_of_replicate in Hk as [-> Hn].
    apply (vertex_component 0). lia. }
  intros [i c] st Hc%elem_of_enumerate Hst. unfold place_component; simpl. apply foldM_invariant; [done|].
  intros v [l flags] Hv (Hl & Hall & Hf). simpl in *. pose proof (component_range _ _ Hc) as Hr. unfold in_range in Hr. rewrite Forall_forall in Hr.
  specialize (Hr v Hv). pose proof (lookup_lt_Some _ _ _ Hc) as Hi. unfold place_vertex; simpl.
  rewrite store_Some by lia. cbn [mbind option_bind]. destruct (lookup_lt_is_Some_2 (addresses graph) v Hr) as [a ->]. cbn [mbind option_bind].
  destruct (update_total flags i (λ flag, flag || bool_decide (a ∈ malicious))) as (b & _ & ->); [lia|]. cbn [mbind option_bind].
  eexists. split; [done|]. split_and!; simpl; [by rewrite length_insert|by apply Forall_insert|by rewrite length_insert].
Qed.

Lemma event_ids_range e f t : event_ids (address_ids graph) e = Some (f, t) → f < n ∧ t < n.
Proof using Type.
  assert (∀ a i, address_ids graph !! a = Some i → i < n) as Hi.
  { intros a i Ha%elem_of_list_to_map_2. apply elem_of_zip_r in Ha. apply elem_of_seq in Ha. lia. }
  unfold event_ids. intros E. apply bind_Some in E as (f' & Hf & E). apply bind_Some in E as (t' & Ht & [= -> ->]).
  apply bind_Some in Hf as (a & _ & Hf). apply bind_Some in Ht as (b & _ & Ht). split; by eapply Hi.
Qed.

(** The edges between components, with and without the events. *)
Definition same_outgoing (o o' : Outgoing) : Prop :=
  dag_targets o' = dag_targets o ∧ valuable o' = valuable o ∧ length (dag_targets o) = count ∧ length (valuable o) = count ∧
  length (outgoing_events o) = count ∧ Forall (valid_indices events) (outgoing_events o) ∧
  Forall (λ s : gset nat, ∀ k, k ∈ s → k < count) (dag_targets o).

Lemma outgoing_step by_vertex o o' i e :
  length by_vertex = n → Forall (λ k, k < count) by_vertex → events !! i = Some e → same_outgoing o o' →
  ∃ r r', add_outgoing (address_ids graph) by_vertex true o (i, e) = Some r ∧
    add_outgoing (address_ids graph) by_vertex false o' (i, e) = Some r' ∧ same_outgoing r r'.
Proof using Type.
  intros Hn Hall He Hs. unfold add_outgoing. destruct (negb (is_nft_propagation e)); [by exists o, o'|].
  destruct (event_ids _ e) as [[f t]|] eqn:Hids; [|by exists o, o']. apply event_ids_range in Hids as [Hf Ht].
  destruct (lookup_lt_is_Some_2 by_vertex f) as [a Ha]; [by rewrite Hn|]. destruct (lookup_lt_is_Some_2 by_vertex t) as [b Hb]; [by rewrite Hn|].
  rewrite Ha, Hb. cbn [mbind option_bind]. case_decide; [by exists o, o'|]. pose proof Hs as (Hd & Hv & Hld & Hlv & Hlo & Hvo & Hrange).
  rewrite Forall_lookup in Hall. pose proof (Hall f a Ha) as Hac. pose proof (Hall t b Hb) as Hbc. rewrite Hd, Hv.
  destruct (update_total (dag_targets o) a (λ s : gset nat, {[b]} ∪ s)) as (s & Hs1 & ->); [lia|]. cbn [mbind option_bind].
  destruct (update_total (outgoing_events o) a (λ l, l ++ [i])) as (l & Hl1 & ->); [lia|]. cbn [mbind option_bind].
  destruct (update_total (valuable o) a (λ flag, flag || (is_nft_sale e || is_paid e))) as (c & _ & ->); [lia|]. cbn [mbind option_bind].
  do 2 eexists. split_and!; [done..|]. rewrite Forall_lookup in Hvo. rewrite Forall_lookup in Hrange. unfold same_outgoing; simpl. rewrite !length_insert.
  split_and!; [done..| |].
  - apply Forall_insert; [by apply Forall_lookup|]. apply valid_snoc; [by apply (Hvo a)|by eapply lookup_lt_Some].
  - apply Forall_insert; [by apply Forall_lookup|]. intros k [->%elem_of_singleton|Hk]%elem_of_union; [done|by apply (Hrange a s Hs1)].
Qed.

Lemma reaches_further_total o o' s : same_outgoing o o' → (∀ k, k ∈ s → k < count) → is_Some (reaches_further (dag_targets o) s).
Proof using Type.
  intros (_ & _ & Hl & _) Hs. unfold reaches_further.
  destruct (mapM_total (λ target, dag_targets o !! target) (elements s)) as (r & -> & _); [|by eexists].
  intros k Hk%elem_of_elements. apply lookup_lt_is_Some. rewrite Hl. auto.
Qed.

Lemma star_instance_total kind s indices :
  valid_indices events indices → ∃ i, star_instance events roles kind s indices = Some i ∧ behavior_kind i = kind.
Proof using Type.
  intros Hi. unfold star_instance. destruct (select_total events indices Hi) as (selected & -> & _). cbn [mbind option_bind].
  set (buyers := filter _ _). assert (StronglySorted (λ a b, str_compare a b = Lt) buyers) as Hs
    by apply StronglySorted_filter_by, instance_addresses_sorted.
  destruct (linked_loss_total buyers native_amount selected Hs) as [x ->]. destruct (linked_loss_total buyers usd_micros selected Hs) as [y ->].
  cbn [mbind option_bind]. by eexists.
Qed.

(** The counts of the detector by kind. *)
Definition star_count (s : StarAnalysis) (k : BehaviorKind) : nat :=
  match k with SybilDistribution => sybil s | FraudRevenue => fraud s | Poisoning => star_poisoning s | _ => 0 end.

Definition same_star (s s' : StarAnalysis) : Prop :=
  (∀ k, star_count s' k = star_count s k) ∧ ∀ k, of_kind k (star_instances s) = star_count s k.

Definition is_star (k : BehaviorKind) : Prop := k = SybilDistribution ∨ k = FraudRevenue ∨ k = Poisoning.

Lemma star_kind_star d s v k : star_kind d s v = Some k → is_star k.
Proof using Type. unfold star_kind, is_star. destruct (reaches_further d s) as [[|]|]; simpl; [|destruct v|done]; intros [= <-]; auto. Qed.

Lemma count_star_same s s' k i : is_star k → behavior_kind i = k → same_star s s' → same_star (count_star s k (Some i)) (count_star s' k None).
Proof using Type.
  intros Hk Hi [Hc Ho]. split.
  - intros k'. specialize (Hc k'). destruct k'; simpl in *; congruence.
  - intros k'. specialize (Ho k'). simpl. rewrite of_kind_app, Ho. rewrite (of_kind_all k' k [i]) by (by constructor).
    destruct Hk as [-> |[-> | -> ]], k'; simpl; lia.
Qed.

Lemma star_step flags o o' s s' c :
  length flags = count → c < count → same_outgoing o o' → same_star s s' →
  ∃ r r', star_component events roles flags o true s c = Some r ∧ star_component events roles flags o' false s' c = Some r' ∧ same_star r r'.
Proof using Type.
  intros Hf Hc Ho Hs. pose proof Ho as (Hd & Hv & Hld & Hlv & Hlo & Hvo & Hrange). unfold star_component. rewrite Hd, Hv.
  destruct (lookup_lt_is_Some_2 flags c) as [b ->]; [lia|]. cbn [mbind option_bind]. destruct (negb b); [by exists s, s'|].
  destruct (lookup_lt_is_Some_2 (dag_targets o) c) as [t Ht]; [lia|]. rewrite Ht. cbn [mbind option_bind].
  destruct (decide (size t < 3)); [by exists s, s'|].
  destruct (lookup_lt_is_Some_2 (valuable o) c) as [v ->]; [lia|]. cbn [mbind option_bind]. rewrite Forall_lookup in Hvo. rewrite Forall_lookup in Hrange.
  destruct (star_kind (dag_targets o) t v) as [k|] eqn:Hk.
  2: { unfold star_kind in Hk. destruct (reaches_further_total o o' t Ho (Hrange c t Ht)) as [x Hx]. rewrite Hx in Hk. done. }
  cbn [mbind option_bind negb]. destruct (lookup_lt_is_Some_2 (outgoing_events o) c) as [l Hl]; [lia|]. rewrite Hl. cbn [mbind option_bind].
  destruct (star_instance_total k t l (Hvo c l Hl)) as (i & -> & Hi). cbn [mbind option_bind]. do 2 eexists. split_and!; [done..|].
  apply count_star_same; [by eapply star_kind_star|done..].
Qed.

Lemma star_behaviors_ok :
  ∃ s s', star_behaviors events graph components roles malicious true = Some s ∧
    star_behaviors events graph components roles malicious false = Some s' ∧ same_star s s'.
Proof using Hcover.
  unfold star_behaviors. destruct placed_total as ([by_vertex flags] & -> & Hn & Hall & Hf). simpl in Hn, Hall, Hf. cbn [mbind option_bind].
  destruct (foldM_related same_outgoing (add_outgoing (address_ids graph) by_vertex true) (add_outgoing (address_ids graph) by_vertex false) (enumerate events)
    {| dag_targets := replicate count ∅; valuable := replicate count false; outgoing_events := replicate count [] |}
    {| dag_targets := replicate count ∅; valuable := replicate count false; outgoing_events := [] |}) as (o & o' & -> & -> & Ho).
  { unfold same_outgoing; simpl. rewrite !length_replicate. split_and!; [done..| |].
    - apply Forall_replicate. constructor.
    - apply Forall_replicate. set_solver. }
  { intros [i e] o o' He%elem_of_enumerate. by apply outgoing_step. }
  cbn [mbind option_bind]. apply foldM_related.
  - split; [done|]. by intros [].
  - intros c s s' Hc%elem_of_seq. apply star_step; [done|lia|done].
Qed.
End Stars.

(** ** Wash cycles *)

Lemma wash_map_total graph cs :
  Forall (in_range graph) cs → ∃ m, wash_map graph cs = Some m ∧ ∀ a k, m !! a = Some k → k < length cs.
Proof.
  intros Hr. unfold wash_map. apply foldM_invariant; [by intros a k; rewrite lookup_empty|].
  intros [i c] m Hc%elem_of_enumerate Hm. simpl. pose proof (lookup_lt_Some _ _ _ Hc) as Hi. apply foldM_invariant; [done|].
  intros v m' Hv Hm'. rewrite Forall_lookup in Hr. pose proof (Hr i c Hc) as Hrc. unfold in_range in Hrc. rewrite Forall_forall in Hrc.
  destruct (lookup_lt_is_Some_2 _ _ (Hrc v Hv)) as [x Hx]. exists (<[x := i]> m').
  split; [unfold insert_member; by rewrite Hx|]. intros a k. rewrite lookup_insert_Some. naive_solver.
Qed.

Section Cycles.
Context (events : list NormalizedEvent) (graph : PropagationGraph) (cs : list (list nat)) (values : list CycleValues).
Context (Hr : Forall (in_range graph) cs) (Hl : length values = length cs).
Context (Hv : Forall (λ v, valid_indices events (internal_events v) ∧ valid_indices events (exit_events v)) values).

Lemma cycles_total :
  ∃ l, mapM (λ '(component, v), cycle_instance events graph component v) (zip cs values) = Some l ∧ length l = length cs ∧
    Forall (λ i, behavior_kind i = WashTrading) l.
Proof using All.
  destruct (mapM_total (λ '(component, v), cycle_instance events graph component v) (zip cs values)) as (l & E & Hlen).
  { intros [c v] Hcv. pose proof (elem_of_zip_l _ _ _ _ Hcv) as Hc. pose proof (elem_of_zip_r _ _ _ _ Hcv) as Hin.
    rewrite Forall_forall in Hr. rewrite Forall_forall in Hv. apply cycle_instance_total; [by apply Hr|by apply Hv]. }
  exists l. split_and!; [done|rewrite Hlen, length_zip; lia|]. apply mapM_Some_1 in E. apply Forall_forall. intros i Hi.
  apply list_elem_of_lookup in Hi as (k & Hk). destruct (Forall2_lookup_r _ _ _ _ _ E Hk) as ([c v] & _ & Hci). unfold cycle_instance in Hci.
  apply bind_Some in Hci as (s & _ & Hci). apply bind_Some in Hci as (m & _ & Hci). destruct (participant_distributions _ _).
  by injection Hci as <-.
Qed.

Lemma pumps_total :
  ∃ l, mapM (λ '(cycle, v), component ← cs !! cycle; pump_instance events graph component v)
      (filter (λ p, exit_price_exceeds_internal p.2 = true) (enumerate values)) = Some l ∧
    length l = length (filter (λ v, exit_price_exceeds_internal v = true) values) ∧
    Forall (λ i, behavior_kind i = PumpAndExit) l.
Proof using All.
  destruct (mapM_total (λ '(cycle, v), component ← cs !! cycle; pump_instance events graph component v)
    (filter (λ p, exit_price_exceeds_internal p.2 = true) (enumerate values))) as (l & E & Hlen).
  { intros [k v] [_ Hkv%elem_of_enumerate]%list_elem_of_filter. destruct (lookup_lt_is_Some_2 cs k) as [c Hc].
    { rewrite <- Hl. by eapply lookup_lt_Some. }
    rewrite Hc. cbn [mbind option_bind]. rewrite Forall_lookup in Hr. rewrite Forall_lookup in Hv. destruct (Hv k v Hkv).
    apply pump_instance_total; [by apply (Hr k)|done..]. }
  exists l. split_and!; [done| |].
  - rewrite Hlen. transitivity (length (filter (λ v, exit_price_exceeds_internal v = true) ((enumerate values).*2))).
    + by rewrite filter_fmap, length_fmap.
    + unfold enumerate. by rewrite snd_zip by (rewrite length_seq; lia).
  - apply mapM_Some_1 in E. apply Forall_forall. intros i Hi. apply list_elem_of_lookup in Hi as (k & Hk).
    destruct (Forall2_lookup_r _ _ _ _ _ E Hk) as ([c v] & _ & Hci). apply bind_Some in Hci as (m & _ & Hci). unfold pump_instance in Hci.
    apply bind_Some in Hci as (s & _ & Hci). apply bind_Some in Hci as (t & _ & Hci). apply bind_Some in Hci as (u & _ & Hci).
    by injection Hci as <-.
Qed.
End Cycles.

(** ** Layered transfers *)

Section LayeredInstance.
Context (events : list NormalizedEvent) (g : PropagationGraph) (Hg : graph_of_events events is_nft_propagation g).

Definition known_edges (m : gmap (nat * nat) (list nat)) : Prop :=
  ∀ p l, m !! p = Some l → l ≠ [] ∧ valid_indices events l.

Lemma push_edge_events l m :
  known_edges m → Forall (λ p, p.1 < length events) l →
  let m' := foldl (push_edge_event (address_ids g)) m l in
  known_edges m' ∧ (∀ p, is_Some (m !! p) → is_Some (m' !! p)) ∧
  ∀ k e p, (k, e) ∈ l → event_ids (address_ids g) e = Some p → is_Some (m' !! p).
Proof using Type.
  revert m. induction l as [|[k e] l IH]; intros m Hm Hall; simpl.
  { split_and!; [done|done|]. by intros ? ? ? ?%elem_of_nil. }
  apply Forall_cons in Hall as [Hk Hall]. simpl in Hk.
  assert (known_edges (push_edge_event (address_ids g) m (k, e)) ∧
    (∀ p, is_Some (m !! p) → is_Some (push_edge_event (address_ids g) m (k, e) !! p)) ∧
    ∀ p, event_ids (address_ids g) e = Some p → is_Some (push_edge_event (address_ids g) m (k, e) !! p)) as (H1 & H2 & H3).
  { unfold push_edge_event; simpl. destruct (event_ids _ e) as [q|]; [|split_and!; [done..|by intros ? [=]]]. split_and!.
    - intros p x Hx. apply lookup_insert_Some in Hx as [[<- <-]|[_ Hx]]; [|by apply (Hm p)]. split; [by destruct (default [] _)|].
      apply valid_snoc; [|done]. destruct (m !! q) as [y|] eqn:E; [by apply (Hm q)|constructor].
    - intros p Hp. destruct (decide (p = q)) as [->|]; [rewrite lookup_insert_eq; by eexists|by rewrite lookup_insert_ne].
    - intros p [= ->]. rewrite lookup_insert_eq. by eexists. }
  destruct (IH _ H1 Hall) as (I1 & I2 & I3). split_and!; [done|by auto|].
  intros k' e' p [[= -> ->]|Hin]%elem_of_cons Hp; [by auto|by eapply I3].
Qed.

Lemma edge_events_ok :
  known_edges (edge_events events g) ∧ ∀ i j, edge g i j → is_Some (edge_events events g !! (i, j)).
Proof using Hg.
  destruct (push_edge_events (filter (λ p, is_nft_propagation p.2 = true) (enumerate events)) ∅) as (H1 & _ & H3).
  { intros p l. by rewrite lookup_empty. }
  { apply Forall_forall. intros [k e] [_ Hk%elem_of_enumerate]%list_elem_of_filter. by eapply lookup_lt_Some. }
  split; [done|]. intros i j Hij. apply (graph_edges _ _ _ Hg) in Hij as (a & b & Ha & Hb & e & He & Hinc & Hf & Ht).
  apply list_elem_of_lookup in He as (k & Hk). apply (H3 k e).
  { apply list_elem_of_filter. split; [done|]. by apply elem_of_enumerate. }
  pose proof (strictly_sorted_NoDup str_compare _ (graph_addresses_sorted _ _ _ Hg)) as Hnd.
  unfold event_ids. rewrite Hf, Ht. cbn [mbind option_bind]. unfold address_ids.
  rewrite (proj2 (by_address_lookup _ a i Hnd) Ha). cbn [mbind option_bind]. by rewrite (proj2 (by_address_lookup _ b j Hnd) Hb).
Qed.

Lemma hops_selected path :
  linked g path → valid_indices events (omap (λ p, edge_events events g !! p ≫= head) (hops path)) ∧
    length (omap (λ p, edge_events events g !! p ≫= head) (hops path)) = length path - 1.
Proof using Hg.
  destruct edge_events_ok as [Hk He]. induction path as [|a [|b path] IH]; intros Hl; [split; [constructor|done]..|].
  destruct Hl as [Hab Hl]. destruct (IH Hl) as [Hv Hn]. destruct (He a b Hab) as [l Hl']. destruct (Hk _ _ Hl') as [Hne Hval].
  destruct l as [|x l]; [done|]. apply Forall_cons in Hval as [Hx _]. change (hops (a :: b :: path)) with ((a, b) :: hops (b :: path)).
  cbn [omap list_omap]. rewrite Hl'. simpl in Hn |- *. split; [by constructor|]. rewrite Hn. lia.
Qed.

Lemma layered_paths_total k :
  k ≠ 0 → ∃ l n, layered_paths events g k = Some l ∧ count_layered_paths g k = Some n ∧ length l = n ∧
    Forall (λ i, behavior_kind i = LayeredTransfer) l.
Proof using Hg.
  intros Hk. destruct (first_layered_path_spec g k (graph_is_ok _ _ _ Hg)) as (r & Hr & Hp). unfold layered_paths, count_layered_paths.
  rewrite Hr. cbn [mbind option_bind]. destruct r as [path|]; [|by exists [], 0]. destruct Hp as (Hlen & _ & Hlinked & Hrange).
  destruct (select_addresses_total g path Hrange) as (m & -> & _). cbn [mbind option_bind]. destruct (hops_selected path Hlinked) as [Hv Hn].
  rewrite decide_False by lia. destruct (select_total events _ Hv) as (s & -> & _). cbn [mbind option_bind].
  do 2 eexists. split_and!; [done..|]. by constructor.
Qed.
End LayeredInstance.

(** ** Inventories *)

Section Inventories.
Context (events : list NormalizedEvent) (g : PropagationGraph) (Hok : graph_ok g) (malicious : gset str).

Lemma inventory_vertices_total : ∃ l, inventory_vertices g malicious = Some l ∧ in_range g l.
Proof using Hok.
  unfold inventory_vertices.
  destruct (foldM_invariant (λ l, length l = length (addresses g)) bump (edges g) (replicate (length (addresses g)) 0%Z)) as (d & -> & Hd).
  { apply length_replicate. }
  { intros v l Hv Hl. unfold bump. pose proof (edges_range _ Hok) as Hr. rewrite Forall_forall in Hr.
    destruct (update_total l v (λ d, (d +w 1)%nft)) as (x & _ & ->); [rewrite Hl; auto|]. eexists. split; [done|]. by rewrite length_insert. }
  cbn [mbind option_bind]. destruct (mapM_total (is_inventory g malicious) (enumerate d)) as (flags & -> & _).
  { intros [v degree] Hv%elem_of_enumerate. apply lookup_lt_Some in Hv. rewrite Hd in Hv. unfold is_inventory.
    destruct (lookup_lt_is_Some_2 (addresses g) v Hv) as [a ->]. cbn [mbind option_bind]. destruct (negb _); [by eexists|].
    destruct (3 <=? degree)%Z; [by eexists|]. destruct (negb _); [by eexists|]. rewrite !(offset_lookup g Hok) by lia. by eexists. }
  cbn [mbind option_bind]. eexists. split; [done|]. apply Forall_forall. intros v Hv.
  apply list_elem_of_omap in Hv as ([[|] w] & Hin & [= <-]). apply elem_of_zip_r in Hin. apply elem_of_seq in Hin. lia.
Qed.

Lemma inventory_instances_total vertices :
  in_range g vertices → ∃ l, inventory_instances events g vertices = Some l ∧ length l = length vertices ∧
    Forall (λ i, behavior_kind i = InventoryConcentration) l.
Proof using Type.
  intros Hv. unfold inventory_instances. destruct (select_addresses_total g vertices Hv) as (m & -> & Hm). cbn [mbind option_bind].
  match goal with |- context [foldM (add_inbound ?u ?ids) ?t0 ?evs] =>
    destruct (foldM_invariant (λ t, length (inbound t) = length vertices) (add_inbound u ids) evs t0) as (t' & -> & Ht);
      [apply length_replicate| |] end.
  - intros e t _ Ht. unfold add_inbound. destruct (to e ≫= _) as [slot|] eqn:Hslot; [|by eexists].
    assert (slot < length vertices) as Hs.
    { apply bind_Some in Hslot as (a & _ & Ha). apply elem_of_list_to_map_2 in Ha. rewrite elem_of_reverse in Ha.
      apply elem_of_zip_r in Ha. apply elem_of_seq in Ha. lia. }
    destruct (update_total (inbound t) slot (λ l, l ++ [e])) as (x & _ & ->); [lia|]. eexists. split; [done|]. simpl. by rewrite length_insert.
  - cbn [mbind option_bind]. eexists. split_and!; [done|by rewrite length_fmap|]. apply Forall_fmap, Forall_forall. done.
Qed.
End Inventories.

(** ** The detectors *)

Lemma lists_compare_laws {A} (cmp : A → A → comparison) : CompareLaws cmp → CompareLaws (lists_compare cmp).
Proof.
  intros H. constructor.
  - intros x. induction x as [|a x IH]; simpl; [done|]. by rewrite (compare_refl cmp a), IH.
  - intros x. induction x as [|a x IH]; intros [|b y]; simpl; [done..|]. rewrite (compare_antisym cmp a b), IH. by destruct (cmp b a).
  - intros x. induction x as [|a x IH]; intros [|b y] [|c z]; simpl; try done.
    destruct (cmp a b) eqn:Hab; simpl; [| |done].
    + destruct (cmp b c) eqn:Hbc; simpl; [| |done].
      * rewrite (compare_eq_trans cmp a b c Hab Hbc). simpl. apply IH.
      * intros _ _.
        assert (cmp a c = Lt) as ->; [|done]. destruct (cmp a c) eqn:Hac; [|done|].
        -- apply (compare_eq_sym cmp) in Hab. rewrite (compare_eq_trans cmp b a c Hab Hac) in Hbc. done.
        -- exfalso. by apply (compare_trans cmp a b c); rewrite ?Hab, ?Hbc.
    + intros _ Hbc. assert (cmp b c ≠ Gt) as Hbc' by (by destruct (cmp b c)). by rewrite (compare_lt_le_trans cmp a b c Hab Hbc').
Qed.

#[export] Instance instance_compare_laws : CompareLaws instance_compare.
Proof.
  repeat apply then_with_laws.
  - apply (compare_map_laws (λ i, behavior_ordinal (behavior_kind i)) Nat.compare), _.
  - apply (compare_map_laws start_timestamp (option_compare Z.compare)), _.
  - apply (compare_map_laws start_block (option_compare Z.compare)), _.
  - apply (compare_map_laws instance_addresses (lists_compare str_compare)), lists_compare_laws, _.
  - apply (compare_map_laws transactions (lists_compare str_compare)), lists_compare_laws, _.
Qed.

(** The count of a kind. *)
Definition fact_count (f : BehaviorFacts) (k : BehaviorKind) : nat :=
  match k with
  | WashTrading => wash_cycles f | PumpAndExit => pump_and_exit f | SybilDistribution => sybil_distribution f
  | FraudRevenue => fraud_revenue f | Poisoning => poisoning f | LayeredTransfer => layered_transfer f
  | InventoryConcentration => inventory_concentration f
  end.

Lemma detectors_ok events roles :
  ∃ g cs a, build_filtered events is_nft_propagation = Some g ∧ strongly_connected_components g = Some cs ∧
    detect_behaviors events g roles cs = Some a ∧ detect_behavior_facts events g roles cs = Some (facts a) ∧
    (∀ k, fact_count (facts a) k = of_kind k (instances a)) ∧
    StronglySorted (λ i j, instance_compare i j ≠ Gt) (instances a).
Proof.
  destruct (build_filtered_ok events is_nft_propagation) as (g & Hb & Hg). pose proof (graph_is_ok _ _ _ Hg) as Hok.
  destruct (components_of_graph g Hok) as (cs & Hcs & Hpart). exists g, cs.
  set (malicious := addresses_with roles is_malicious). set (honest := addresses_with roles is_honest).
  destruct (build_filtered_ok events (is_wash_sale malicious)) as (sg & Hsb & Hsg).
  destruct (components_of_graph sg (graph_is_ok _ _ _ Hsg)) as (scs & Hscs & Hspart).
  set (wash := filter (λ c, 2 ≤ length c) scs). assert (Forall (in_range sg) wash) as Hwash.
  { apply Forall_forall. intros c [_ Hc]%list_elem_of_filter. by apply (components_in_range sg scs Hspart). }
  destruct (wash_map_total sg wash Hwash) as (m & Hm & Hmk).
  destruct (values_ok events m honest (length wash) Hmk) as (l1 & l2 & l1' & l2' & E1 & E1' & E2 & E2' & Hlen & <- & Hval).
  destruct (star_behaviors_ok events g roles malicious cs (proj1 Hpart)) as (s & s' & Hs & Hs' & Hcount & Hkinds).
  destruct (layered_paths_total events g Hg 3) as (ll & nl & Hll & Hnl & Hlln & Hllk); [done|].
  destruct (inventory_vertices_total g Hok malicious) as (iv & Hiv & Hivr).
  destruct (inventory_instances_total events g iv Hivr) as (il & Hil & Hiln & Hilk).
  destruct (cycles_total events sg wash l2 Hwash Hlen Hval) as (cl & Hcl & Hcln & Hclk).
  destruct (pumps_total events sg wash l2 Hwash Hlen Hval) as (pl & Hpl & Hpln & Hplk).
  assert (∃ a, analyze_behaviors events g roles cs true = Some a ∧ analyze_behaviors events g roles cs false = Some {| facts := facts a; instances := [] |} ∧
    instances a = sort_by instance_compare (cl ++ pl ++ star_instances s ++ ll ++ il) ∧
    facts a = {| wash_cycles := length cl; pump_and_exit := length pl; sybil_distribution := sybil s; fraud_revenue := fraud s;
      poisoning := star_poisoning s; layered_transfer := length ll; inventory_concentration := length il |}) as (a & Ha & Ha' & Hi & Hf).
  { unfold analyze_behaviors. fold malicious honest. rewrite Hsb. cbn [mbind option_bind]. rewrite Hscs. cbn [mbind option_bind]. fold wash.
    rewrite Hm. cbn [mbind option_bind]. rewrite E1, E1'. cbn [mbind option_bind]. rewrite E2, E2'. cbn [mbind option_bind].
    rewrite Hs, Hs'. cbn [mbind option_bind]. rewrite Hll, Hnl. cbn [mbind option_bind]. rewrite Hiv. cbn [mbind option_bind snd].
    unfold collected_instances. rewrite Hcl. cbn [mbind option_bind]. rewrite Hpl. cbn [mbind option_bind]. rewrite Hil. cbn [mbind option_bind].
    eexists. split; [done|]. cbn [facts instances fst]. rewrite pump_count.
    pose proof (Hcount SybilDistribution) as C1. pose proof (Hcount FraudRevenue) as C2. pose proof (Hcount Poisoning) as C3. simpl in C1, C2, C3.
    rewrite C1, C2, C3, Hlln, Hcln, Hpln, Hiln. by split_and!. }
  exists a. unfold detect_behaviors, detect_behavior_facts. rewrite Ha, Ha'. split_and!; [done..| |].
  - intros k. rewrite Hi, (of_kind_perm k _ _ (sort_by_perm instance_compare _)), Hf, !of_kind_app, Hkinds.
    rewrite (of_kind_all k _ _ Hclk), (of_kind_all k _ _ Hplk), (of_kind_all k _ _ Hllk), (of_kind_all k _ _ Hilk).
    destruct k; simpl; lia.
  - rewrite Hi. apply (sort_by_sorted instance_compare).
Qed.

(** C21: On the propagation graph of any events and its components, with any roles, the
    behaviour detectors never panic. Collecting the instances does not change the
    counts, each count is the number of the instances of its kind, and the instances
    come out ordered. *)
Theorem behaviors_counted events roles :
  ∃ g cs a, build_filtered events is_nft_propagation = Some g ∧ strongly_connected_components g = Some cs ∧
    detect_behaviors events g roles cs = Some a ∧ detect_behavior_facts events g roles cs = Some (facts a) ∧
    (∀ k, fact_count (facts a) k = of_kind k (instances a)) ∧
    StronglySorted (λ i j, instance_compare i j ≠ Gt) (instances a).
Proof. apply detectors_ok. Qed.
