(* ===== verification/SaturatedSums.v ===== *)
(** Saturating sums of non-negative amounts, and maxima: facts shared by the analyses
    that total the values of events. *)

From S2P Require Import Prelude Text CanonicalJson Anchors SortedLists Events.

(** The sum of a list, and the sum that saturates at the greatest [i128]. *)
Definition sum (l : list Z) : Z := foldr Z.add 0%Z l.
Definition saturated (l : list Z) : Z := Z.min (sum l) i128_MAX.

Lemma sum_app l1 l2 : sum (l1 ++ l2) = (sum l1 + sum l2)%Z.
Proof. unfold sum. induction l1 as [|x l1 IH]; simpl; lia. Qed.

Lemma sum_nonneg l : Forall (λ x, (0 ≤ x)%Z) l → (0 ≤ sum l)%Z.
Proof. unfold sum. induction 1; simpl; lia. Qed.

#[export] Instance sum_perm : Proper ((≡ₚ) ==> (=)) sum.
Proof. unfold sum. induction 1; simpl; lia. Qed.

#[export] Instance saturated_perm : Proper ((≡ₚ) ==> (=)) saturated.
Proof. intros l1 l2 Hl. unfold saturated. by rewrite Hl. Qed.

Lemma saturated_nil : saturated [] = 0%Z.
Proof. reflexivity. Qed.

Lemma saturated_snoc l x :
  Forall (λ x, (0 ≤ x)%Z) l → (0 ≤ x)%Z → saturating_add128 (saturated l) x = saturated (l ++ [x]).
Proof.
  intros Hl%sum_nonneg Hx. unfold saturated, saturating_add128. rewrite sum_app. change (sum [x]) with (x + 0)%Z.
  unfold i128_MIN, i128_MAX. lia.
Qed.

Lemma saturated_nonneg l : Forall (λ x, (0 ≤ x)%Z) l → (0 ≤ saturated l)%Z.
Proof. intros Hl%sum_nonneg. unfold saturated, i128_MAX. lia. Qed.

(** A zero adds nothing. *)
Lemma saturated_zero l x : Forall (λ x, (0 ≤ x)%Z) l → x = 0%Z → saturated (l ++ [x]) = saturated l.
Proof. intros Hl ->. unfold saturated. rewrite sum_app. change (sum [0%Z]) with 0%Z. by rewrite Z.add_0_r. Qed.

Lemma Forall_filter_of {A} (Q P : A → Prop) `{∀ x, Decision (P x)} l : Forall Q l → Forall Q (filter P l).
Proof. rewrite !Forall_forall. intros Hl x [_ Hx]%list_elem_of_filter. auto. Qed.

Lemma sum_filter_le {A} (P : A → Prop) `{∀ x, Decision (P x)} (f : A → Z) l :
  Forall (λ x, (0 ≤ f x)%Z) l → (sum (f <$> filter P l) ≤ sum (f <$> l))%Z.
Proof.
  unfold sum. induction 1 as [|x l Hx Hl IH]; [done|]. rewrite filter_cons. case_decide; rewrite ?fmap_cons; simpl foldr; lia.
Qed.

Lemma saturated_filter_le {A} (P : A → Prop) `{∀ x, Decision (P x)} (f : A → Z) l :
  Forall (λ x, (0 ≤ f x)%Z) l → (saturated (f <$> filter P l) ≤ saturated (f <$> l))%Z.
Proof. intros Hl. unfold saturated. pose proof (sum_filter_le P f l Hl). lia. Qed.

(** Sums over a list split by a key are the sum of the list. *)
Lemma sum_pos_ex l : Forall (λ x, (0 ≤ x)%Z) l → (0 < sum l)%Z ↔ Exists (λ x, (0 < x)%Z) l.
Proof.
  induction 1 as [|x l Hx Hl IH]; [unfold sum; simpl; rewrite Exists_nil; lia|].
  rewrite Exists_cons, <- IH. apply sum_nonneg in Hl. unfold sum in *. simpl. lia.
Qed.

Lemma saturated_pos l : Forall (λ x, (0 ≤ x)%Z) l → (0 < saturated l)%Z ↔ Exists (λ x, (0 < x)%Z) l.
Proof. intros Hl. rewrite <- sum_pos_ex by done. unfold saturated, i128_MAX. lia. Qed.
