(* ===== verification/Propagation.v ===== *)
(** The propagation summary of a candidate ([analysis/analysis/propagation.rs],
    [analyze]): edges by kind, revenue, NFTs and transactions, and the address that
    received the most; then its counters, totals and the greatest receiver in closed form. *)

From Stdlib Require Import QArith.
From S2P Require Import Prelude Text CanonicalJson Anchors SortedLists Float Events Graph.
From S2P Require Import Attribution SaturatedSums.

#[local] Open Scope nat_scope.

Record PropagationFacts := {
  propagation_edge_count : Z;
  mint_edge_count : Z;
  transfer_edge_count : Z;
  sale_edge_count : Z;
  funding_edge_count : Z;
  withdrawal_edge_count : Z;
  cashout_edge_count : Z;
  gross_revenue_edge_count : Z;
  operator_revenue_edge_count : Z;
  marketplace_fee_edge_count : Z;
  revenue_backflow_edge_count : Z;
  malicious_address_count : Z;
  victim_address_count : Z;
  likely_honest_address_count : Z;
  currently_holding_victim_address_count : Z;
  max_value_receiver : option str;
  max_value_receiver_native : Z;
  max_value_receiver_usd_micros : Z;
  max_value_receiver_share : option Q;
}.

Record PropagationAnalysis := {
  propagation_facts : PropagationFacts;
  nft_count : Z;
  transaction_count : Z;
  event_kind_counts : gmap str Z;
}.

(** ** Edges *)

(** The counters that one event can raise. *)
Inductive EdgeCounter :=
  | PropagationEdge | MintEdge | TransferEdge | SaleEdge | FundingEdge | WithdrawalEdge | CashoutEdge | GrossRevenueEdge
  | OperatorRevenueEdge | MarketplaceFeeEdge | RevenueBackflowEdge.
#[export] Instance EdgeCounter_eq_dec : EqDecision EdgeCounter.
Proof. solve_decision. Defined.

Definition edge_counter (f : PropagationFacts) (c : EdgeCounter) : Z :=
  match c with
  | PropagationEdge => propagation_edge_count f | MintEdge => mint_edge_count f | TransferEdge => transfer_edge_count f
  | SaleEdge => sale_edge_count f | FundingEdge => funding_edge_count f | WithdrawalEdge => withdrawal_edge_count f
  | CashoutEdge => cashout_edge_count f | GrossRevenueEdge => gross_revenue_edge_count f
  | OperatorRevenueEdge => operator_revenue_edge_count f | MarketplaceFeeEdge => marketplace_fee_edge_count f
  | RevenueBackflowEdge => revenue_backflow_edge_count f
  end.

(** [facts.<counter> += 1] *)
Definition raise (c : EdgeCounter) (f : PropagationFacts) : PropagationFacts :=
  let up c' := if decide (c = c') then (edge_counter f c' +w 1)%nft else edge_counter f c' in
  {| propagation_edge_count := up PropagationEdge; mint_edge_count := up MintEdge; transfer_edge_count := up TransferEdge;
     sale_edge_count := up SaleEdge; funding_edge_count := up FundingEdge; withdrawal_edge_count := up WithdrawalEdge;
     cashout_edge_count := up CashoutEdge; gross_revenue_edge_count := up GrossRevenueEdge;
     operator_revenue_edge_count := up OperatorRevenueEdge; marketplace_fee_edge_count := up MarketplaceFeeEdge;
     revenue_backflow_edge_count := up RevenueBackflowEdge; malicious_address_count := malicious_address_count f;
     victim_address_count := victim_address_count f; likely_honest_address_count := likely_honest_address_count f;
     currently_holding_victim_address_count := currently_holding_victim_address_count f;
     max_value_receiver := max_value_receiver f; max_value_receiver_native := max_value_receiver_native f;
     max_value_receiver_usd_micros := max_value_receiver_usd_micros f; max_value_receiver_share := max_value_receiver_share f |}.

Definition raise_if (condition : bool) (c : EdgeCounter) (f : PropagationFacts) : PropagationFacts :=
  if condition then raise c f else f.

(** The counter of the event's kind. *)
Definition raise_kind (e : NormalizedEvent) (f : PropagationFacts) : PropagationFacts :=
  match kind e with
  | Mint => raise MintEdge f
  | Transfer => raise TransferEdge f
  | Sale => raise_if (is_nft_sale e) SaleEdge f
  | Funding => raise FundingEdge f
  | Withdrawal => raise WithdrawalEdge f
  | Cashout => raise CashoutEdge f
  | Deploy | Listing => f
  end.

Definition is_revenue (c : ValueChannel) : bool := match c with MintPayment | SalePayment => true | _ => false end.

(** The address that an event's value goes to. *)
Definition recipient (e : NormalizedEvent) : option str :=
  match payment_recipient e with
  | Some address => Some address
  | None => match value_channel e with
            | SalePayment | MintPayment => from e
            | RoyaltyFee => None
            | _ => to e
            end
  end.

Definition has_marketplace_fee (e : NormalizedEvent) : bool :=
  bool_decide (value_channel e = SalePayment) &&
  ((0 <? default 0 (marketplace_fee_native e))%Z || (0 <? default 0 (marketplace_fee_usd_micros e))%Z).

Definition is_operator_revenue (malicious : gset str) (e : NormalizedEvent) : bool :=
  (contained malicious (recipient e) && match value_channel e with MintPayment | SalePayment | RoyaltyFee => true | _ => false end) ||
  (bool_decide (value_channel e = ExitPayment) && contained malicious (from e)).

Definition is_backflow (malicious : gset str) (e : NormalizedEvent) : bool :=
  match kind e with Withdrawal | Cashout => true | _ => false end && contained malicious (from e) && contained malicious (to e).

Definition count_event_edges (malicious : gset str) (e : NormalizedEvent) (f : PropagationFacts) : PropagationFacts :=
  let f := raise_kind e f in
  let f := raise_if (is_nft_propagation e) PropagationEdge f in
  let f := raise_if (is_revenue (value_channel e)) GrossRevenueEdge f in
  let f := raise_if (has_marketplace_fee e) MarketplaceFeeEdge f in
  let f := raise_if (is_operator_revenue malicious e) OperatorRevenueEdge f in
  raise_if (is_backflow malicious e) RevenueBackflowEdge f.

(** ** One event *)

Record PropagationState := {
  state_facts : PropagationFacts;
  receiver_values : gmap str (Z * Z);
  nfts_seen : gset NftKey;
  transactions_seen : gset (ChainId * str);
  kind_counts : gmap str Z;
  total_native : Z;
  total_usd : Z;
}.

Definition add_pair (a b : Z * Z) : Z * Z := (saturating_add128 a.1 b.1, saturating_add128 a.2 b.2).

Definition event_amounts (e : NormalizedEvent) : Z * Z := (amount (native_amount e), amount (usd_micros e)).

Definition analyze_event (malicious : gset str) (s : PropagationState) (e : NormalizedEvent) : PropagationState :=
  let kind_name := event_kind_str (kind e) in
  let s := {| state_facts := count_event_edges malicious e (state_facts s); receiver_values := receiver_values s;
              nfts_seen := nfts_seen s ∪ list_to_set (option_list (nft e));
              transactions_seen := {[(chain e, tx_id e)]} ∪ transactions_seen s;
              kind_counts := <[kind_name := (default 0%Z (kind_counts s !! kind_name) +w 1)%nft]> (kind_counts s);
              total_native := total_native s; total_usd := total_usd s |} in
  match recipient e with
  | None => s
  | Some recipient =>
      let value := event_amounts e in
      if bool_decide (value = (0, 0)%Z) then s else
      {| state_facts := state_facts s;
         receiver_values := <[recipient := add_pair (default (0, 0)%Z (receiver_values s !! recipient)) value]> (receiver_values s);
         nfts_seen := nfts_seen s; transactions_seen := transactions_seen s; kind_counts := kind_counts s;
         total_native := saturating_add128 (total_native s) value.1; total_usd := saturating_add128 (total_usd s) value.2 |}
  end.

(** ** The receiver of the most value *)

(** [Iterator::max_by]: the last of the greatest elements. *)
Definition max_by {A} (cmp : A → A → comparison) (l : list A) : option A :=
  match l with
  | [] => None
  | x :: l => Some (foldl (λ x y, match cmp x y with Gt => x | _ => y end) x l)
  end.

Definition receiver_value (use_usd : bool) (entry : str * (Z * Z)) : Z := if use_usd then entry.2.2 else entry.2.1.

Definition receiver_compare (use_usd : bool) (left_ right_ : str * (Z * Z)) : comparison :=
  then_with (Z.compare (receiver_value use_usd left_) (receiver_value use_usd right_)) (str_compare right_.1 left_.1).

(** A [BTreeMap]'s entries in key order. *)
Definition btree_entries {V} (m : gmap str V) : list (str * V) := sort_by (λ a b, str_compare a.1 b.1) (map_to_list m).

Definition with_receiver (f : PropagationFacts) (receiver : str) (value : Z * Z) (share : option Q) : PropagationFacts :=
  {| propagation_edge_count := propagation_edge_count f; mint_edge_count := mint_edge_count f; transfer_edge_count := transfer_edge_count f;
     sale_edge_count := sale_edge_count f; funding_edge_count := funding_edge_count f; withdrawal_edge_count := withdrawal_edge_count f;
     cashout_edge_count := cashout_edge_count f; gross_revenue_edge_count := gross_revenue_edge_count f;
     operator_revenue_edge_count := operator_revenue_edge_count f; marketplace_fee_edge_count := marketplace_fee_edge_count f;
     revenue_backflow_edge_count := revenue_backflow_edge_count f; malicious_address_count := malicious_address_count f;
     victim_address_count := victim_address_count f; likely_honest_address_count := likely_honest_address_count f;
     currently_holding_victim_address_count := currently_holding_victim_address_count f; max_value_receiver := Some receiver;
     max_value_receiver_native := value.1; max_value_receiver_usd_micros := value.2; max_value_receiver_share := share |}.

Definition choose_receiver (s : PropagationState) : PropagationFacts :=
  let use_usd := (0 <? total_usd s)%Z in
  match max_by (receiver_compare use_usd) (btree_entries (receiver_values s)) with
  | None => state_facts s
  | Some (receiver, (native, usd)) =>
      let denominator := if use_usd then total_usd s else total_native s in
      let numerator := if use_usd then usd else native in
      with_receiver (state_facts s) receiver (native, usd)
        (if (0 <? denominator)%Z then Some (f64_div (f64_of_Z numerator) (f64_of_Z denominator)) else None)
  end.

(** ** The summary *)

Definition initial_facts (roles : gmap str AddressRole) (holders : list (NftKey * str)) : PropagationFacts :=
  let victims := addresses_with roles is_honest in
  let holding : gset str := list_to_set (filter (λ address, address ∈ victims) (snd <$> holders)) in
  {| propagation_edge_count := 0; mint_edge_count := 0; transfer_edge_count := 0; sale_edge_count := 0; funding_edge_count := 0;
     withdrawal_edge_count := 0; cashout_edge_count := 0; gross_revenue_edge_count := 0; operator_revenue_edge_count := 0;
     marketplace_fee_edge_count := 0; revenue_backflow_edge_count := 0;
     malicious_address_count := Z.of_nat (size (addresses_with roles is_malicious));
     victim_address_count := Z.of_nat (size victims);
     likely_honest_address_count := Z.of_nat (size (filter (λ p : str * AddressRole, p.2 = LikelyVictim) roles));
     currently_holding_victim_address_count := Z.of_nat (size holding);
     max_value_receiver := None; max_value_receiver_native := 0; max_value_receiver_usd_micros := 0; max_value_receiver_share := None |}.

Definition initial_state (roles : gmap str AddressRole) (holders : list (NftKey * str)) : PropagationState :=
  {| state_facts := initial_facts roles holders; receiver_values := ∅; nfts_seen := list_to_set (fst <$> holders);
     transactions_seen := ∅; kind_counts := ∅; total_native := 0; total_usd := 0 |}.

Definition analyze (events : list NormalizedEvent) (roles : gmap str AddressRole) (holders : list (NftKey * str)) : PropagationAnalysis :=
  let malicious := addresses_with roles is_malicious in
  let s := foldl (analyze_event malicious) (initial_state roles holders) events in
  {| propagation_facts := choose_receiver s; nft_count := Z.of_nat (size (nfts_seen s));
     transaction_count := Z.of_nat (size (transactions_seen s)); event_kind_counts := kind_counts s |}.

Definition summarize (events : list NormalizedEvent) (roles : gmap str AddressRole) (holders : list (NftKey * str)) : PropagationFacts :=
  propagation_facts (analyze events roles holders).


(** ** The greatest element *)

Lemma max_by_spec {A} (cmp : A → A → comparison) `{!CompareLaws cmp} l :
  match max_by cmp l with
  | None => l = []
  | Some x => x ∈ l ∧ ∀ y, y ∈ l → cmp y x ≠ Gt
  end.
Proof.
  destruct l as [|x l]; [done|]. simpl. revert x. induction l as [|y l IH]; intros x.
  { simpl. split; [by left|]. intros y Hy%list_elem_of_singleton. subst y. by rewrite (compare_refl cmp x). }
  simpl. set (z := match cmp x y with Gt => x | _ => y end).
  assert (cmp x z ≠ Gt ∧ cmp y z ≠ Gt ∧ (z = x ∨ z = y)) as (Hx & Hy & Hz).
  { unfold z. destruct (cmp x y) eqn:E; rewrite ?E, ?(compare_refl cmp); split_and!; auto; try done.
    apply (compare_gt_lt cmp) in E. by rewrite E. }
  destruct (IH z) as [Hin Hmax]. split.
  - apply elem_of_cons in Hin as [->|Hin]; [destruct Hz as [-> | ->]; rewrite !elem_of_cons; auto|rewrite !elem_of_cons; auto].
  - intros w Hw. pose proof (Hmax z (list_elem_of_here _ _)) as Hzm. apply elem_of_cons in Hw as [->|[->|Hw]%elem_of_cons].
    + by eapply (compare_trans cmp).
    + by eapply (compare_trans cmp).
    + apply Hmax. by right.
Qed.

(** ** Specification *)

(** The counters that an event raises. *)
Definition raises (malicious : gset str) (c : EdgeCounter) (e : NormalizedEvent) : bool :=
  match c with
  | PropagationEdge => is_nft_propagation e
  | MintEdge => bool_decide (kind e = Mint)
  | TransferEdge => bool_decide (kind e = Transfer)
  | SaleEdge => is_nft_sale e
  | FundingEdge => bool_decide (kind e = Funding)
  | WithdrawalEdge => bool_decide (kind e = Withdrawal)
  | CashoutEdge => bool_decide (kind e = Cashout)
  | GrossRevenueEdge => is_revenue (value_channel e)
  | OperatorRevenueEdge => is_operator_revenue malicious e
  | MarketplaceFeeEdge => has_marketplace_fee e
  | RevenueBackflowEdge => is_backflow malicious e
  end.

(** The number of events, as a wrapping 64-bit counter shows it. *)
Definition counted (P : NormalizedEvent → bool) (events : list NormalizedEvent) : Z :=
  (Z.of_nat (length (filter (λ e, P e = true) events)) mod 2 ^ 64)%Z.

(** The payments of some value. *)
Definition payments (events : list NormalizedEvent) : list (str * (Z * Z)) :=
  omap (λ e, a ← recipient e; if bool_decide (event_amounts e = (0, 0)%Z) then None else Some (a, event_amounts e)) events.

Definition totals (l : list (str * (Z * Z))) : Z * Z := (saturated ((λ p, p.2.1) <$> l), saturated ((λ p, p.2.2) <$> l)).

Definition received (events : list NormalizedEvent) (a : str) : Z * Z := totals (filter (λ p, p.1 = a) (payments events)).

(** ** Proof *)

Lemma counted_snoc P events e : counted P (events ++ [e]) = if P e then (counted P events +w 1)%nft else counted P events.
Proof.
  unfold counted, wrapping_add64. rewrite filter_app, length_app, filter_cons. destruct (P e); simpl.
  - rewrite Nat2Z.inj_add, Z.add_mod_idemp_l by done. done.
  - by rewrite Nat.add_0_r.
Qed.

Lemma edge_counter_raise_if b c c' f :
  edge_counter (raise_if b c f) c' = if b && bool_decide (c = c') then (edge_counter f c' +w 1)%nft else edge_counter f c'.
Proof. destruct b, c, c'; reflexivity. Qed.

Lemma edge_counter_kind e f c :
  edge_counter (raise_kind e f) c =
    if (match c with MintEdge | TransferEdge | SaleEdge | FundingEdge | WithdrawalEdge | CashoutEdge => raises ∅ c e | _ => false end)
    then (edge_counter f c +w 1)%nft else edge_counter f c.
Proof. unfold raise_kind, raises, raise_if, is_nft_sale. destruct (kind e) eqn:Hk, c; try reflexivity; destruct (value_channel e); reflexivity. Qed.

Lemma edge_counter_event malicious e f c :
  edge_counter (count_event_edges malicious e f) c = if raises malicious c e then (edge_counter f c +w 1)%nft else edge_counter f c.
Proof.
  unfold count_event_edges. rewrite !edge_counter_raise_if, edge_counter_kind. destruct c; simpl; rewrite ?andb_false_r, ?andb_true_r; reflexivity.
Qed.

(** The fields that events do not touch. *)
Definition frozen (f : PropagationFacts) : Z * Z * Z * Z :=
  (malicious_address_count f, victim_address_count f, likely_honest_address_count f, currently_holding_victim_address_count f).

Lemma frozen_event malicious e f : frozen (count_event_edges malicious e f) = frozen f.
Proof.
  assert (∀ b c f, frozen (raise_if b c f) = frozen f) as Hr by (by intros []).
  unfold count_event_edges. rewrite !Hr. unfold raise_kind. destruct (kind e); try done; apply Hr.
Qed.

Lemma event_amounts_nonneg e : (0 ≤ (event_amounts e).1)%Z ∧ (0 ≤ (event_amounts e).2)%Z.
Proof. unfold event_amounts, amount. simpl. lia. Qed.

Lemma payments_nonneg events : Forall (λ p, (0 ≤ p.2.1 ∧ 0 ≤ p.2.2)%Z) (payments events).
Proof.
  apply Forall_forall. intros [a v] (e & _ & He)%list_elem_of_omap. apply bind_Some in He as (b & _ & He).
  case_bool_decide; [done|]. injection He as -> <-. apply event_amounts_nonneg.
Qed.

Lemma totals_snoc l p :
  Forall (λ p, (0 ≤ p.2.1 ∧ 0 ≤ p.2.2)%Z) l → (0 ≤ p.2.1)%Z → (0 ≤ p.2.2)%Z → totals (l ++ [p]) = add_pair (totals l) p.2.
Proof.
  intros Hl H1 H2. unfold totals, add_pair. rewrite !fmap_app. simpl.
  assert (Forall (λ x, (0 ≤ x)%Z) ((λ p : str * (Z * Z), p.2.1) <$> l) ∧ Forall (λ x, (0 ≤ x)%Z) ((λ p : str * (Z * Z), p.2.2) <$> l)) as [F1 F2].
  { split; apply Forall_fmap; (eapply Forall_impl; [done|]); simpl; lia. }
  by rewrite !saturated_snoc.
Qed.

Section Summary.
Context (roles : gmap str AddressRole) (holders : list (NftKey * str)).
Abbreviation malicious := (addresses_with roles is_malicious).

(** The state after some events. *)
Record summarized (events : list NormalizedEvent) (s : PropagationState) : Prop := {
  sum_edges c : edge_counter (state_facts s) c = counted (raises malicious c) events;
  sum_frozen : frozen (state_facts s) = frozen (initial_facts roles holders);
  sum_no_receiver : max_value_receiver (state_facts s) = None;
  sum_receivers a : receiver_values s !! a =
    (if decide (filter (λ p, p.1 = a) (payments events) = []) then None else Some (received events a));
  sum_nfts : nfts_seen s = list_to_set (fst <$> holders) ∪ list_to_set (omap nft events);
  sum_transactions : transactions_seen s = list_to_set ((λ e, (chain e, tx_id e)) <$> events);
  sum_kinds k : default 0%Z (kind_counts s !! event_kind_str k) = counted (λ e, bool_decide (kind e = k)) events;
  sum_totals : (total_native s, total_usd s) = totals (payments events);
}.

Lemma no_receiver_kept e f : max_value_receiver f = None → max_value_receiver (count_event_edges malicious e f) = None.
Proof using Type.
  intros Hf. assert (∀ b c f, max_value_receiver f = None → max_value_receiver (raise_if b c f) = None) as Hr by (by intros []).
  unfold count_event_edges. do 5 apply Hr. unfold raise_kind. destruct (kind e); try done. by apply Hr.
Qed.

Lemma event_kind_str_inj k k' : event_kind_str k = event_kind_str k' → k = k'.
Proof using Type. destruct k, k'; try done; vm_compute; intros [=]. Qed.

Lemma payments_snoc events e : payments (events ++ [e]) =
  payments events ++ match recipient e with
    | Some a => if bool_decide (event_amounts e = (0, 0)%Z) then [] else [(a, event_amounts e)]
    | None => []
    end.
Proof using Type.
  unfold payments. rewrite omap_app. f_equal. simpl. destruct (recipient e); simpl; [|done]. by case_bool_decide.
Qed.

Lemma summarized_step events s e : summarized events s → summarized (events ++ [e]) (analyze_event malicious s e).
Proof using Type.
  intros [He Hf Hn Hr Hnft Htx Hk Ht]. unfold analyze_event.
  set (s1 := {| state_facts := _ |}).
  assert ((∀ c, edge_counter (state_facts s1) c = counted (raises malicious c) (events ++ [e])) ∧
    frozen (state_facts s1) = frozen (initial_facts roles holders) ∧ max_value_receiver (state_facts s1) = None ∧
    nfts_seen s1 = list_to_set (fst <$> holders) ∪ list_to_set (omap nft (events ++ [e])) ∧
    transactions_seen s1 = list_to_set ((λ e, (chain e, tx_id e)) <$> events ++ [e]) ∧
    ∀ k, default 0%Z (kind_counts s1 !! event_kind_str k) = counted (λ e, bool_decide (kind e = k)) (events ++ [e])) as (E1 & E2 & E3 & E4 & E5 & E6).
  { subst s1; simpl. split_and!.
    - intros c. by rewrite edge_counter_event, He, counted_snoc.
    - by rewrite frozen_event.
    - by apply no_receiver_kept.
    - rewrite omap_app, list_to_set_app_L, Hnft. simpl. destruct (nft e); simpl; set_solver.
    - rewrite fmap_app, list_to_set_app_L, Htx. simpl. set_solver.
    - intros k. rewrite counted_snoc, <- Hk. case_bool_decide as Hd.
      + subst k. rewrite lookup_insert_eq. simpl. by rewrite Hk.
      + rewrite lookup_insert_ne; [done|]. intros Heq%event_kind_str_inj. done. }
  assert (∀ l, payments (events ++ [e]) = payments events ++ l → l = [] → summarized (events ++ [e]) s1) as Hsame.
  { intros l Hp ->. rewrite app_nil_r in Hp. constructor; try done; unfold received; rewrite Hp; [apply Hr|apply Ht]. }
  destruct (recipient e) as [a|] eqn:Ha; [|apply (Hsame _ (payments_snoc events e)); by rewrite Ha].
  destruct (bool_decide (event_amounts e = (0, 0)%Z)) eqn:Hz; [apply (Hsame _ (payments_snoc events e)); by rewrite Ha, Hz|].
  assert (payments (events ++ [e]) = payments events ++ [(a, event_amounts e)]) as Hp by (by rewrite payments_snoc, Ha, Hz).
  destruct (event_amounts_nonneg e) as [N1 N2]. constructor; try done; simpl.
  - intros b. unfold received. rewrite Hp, filter_app. destruct (decide (a = b)) as [->|Hne].
    + rewrite lookup_insert_eq, decide_False by (rewrite filter_cons_True by done; by destruct (filter _ _)).
      rewrite filter_cons_True by done. change (filter _ []) with (@nil (str * (Z * Z))).
      rewrite totals_snoc by (try done; apply Forall_filter_of, payments_nonneg). simpl. rewrite Hr. unfold received.
      by destruct (decide (filter _ _ = [])) as [-> |].
    + rewrite lookup_insert_ne by done. rewrite filter_cons_False by done. change (filter _ []) with (@nil (str * (Z * Z))). rewrite app_nil_r. apply Hr.
  - rewrite Hp, totals_snoc, <- Ht by (try done; apply payments_nonneg). done.
Qed.

Lemma initial_summarized : summarized [] (initial_state roles holders).
Proof using Type.
  constructor; try done; simpl.
  - by intros [].
  - set_solver.
Qed.

Lemma foldl_summarized events s0 done_ :
  summarized done_ s0 → summarized (done_ ++ events) (foldl (analyze_event malicious) s0 events).
Proof using Type.
  revert s0 done_. induction events as [|e events IH]; intros s0 d Hs; [by rewrite app_nil_r|].
  simpl. replace (d ++ e :: events) with ((d ++ [e]) ++ events) by (by rewrite <- app_assoc). by apply IH, summarized_step.
Qed.
End Summary.

(** ** Shares *)

Lemma srnd_nonneg q : (0 <= q)%Q → srnd q = rnd q.
Proof. intros Hq%Qle_bool_iff. unfold srnd. by rewrite Hq. Qed.

(** A quotient of an amount by a greater one is rounded into the unit interval. *)
Lemma share_bounds n d :
  (0 ≤ n ≤ d)%Z → (0 < d)%Z → (0 <= f64_div (f64_of_Z n) (f64_of_Z d) /\ f64_div (f64_of_Z n) (f64_of_Z d) <= 1)%Q.
Proof.
  intros [Hn Hnd] Hd. unfold f64_div, f64_of_Z.
  assert (inject_Z 0 <= inject_Z n)%Q as Qn by (by apply inject_Z_le). assert (inject_Z n <= inject_Z d)%Q as Qnd by (by apply inject_Z_le).
  assert (inject_Z 0 < inject_Z d)%Q as Qd by (by apply inject_Z_lt). change (inject_Z 0) with 0%Q in *.
  rewrite !(srnd_nonneg (inject_Z _)) by (done || by apply Qlt_le_weak). pose proof (rnd_gt0 _ Qd) as Rd. pose proof (rnd_nonneg (inject_Z n)) as Rn.
  pose proof (rnd_mono _ _ Qnd) as Rnd. assert (0 <= rnd (inject_Z n) / rnd (inject_Z d))%Q as H0 by (by apply Qle_shift_div_l; rewrite ?Qmult_0_l).
  rewrite srnd_nonneg by done. split; [apply rnd_nonneg|]. apply (rnd_le_Z _ 1); [lia|]. apply Qle_shift_div_r; [done|].
  change (inject_Z 1) with 1%Q. by rewrite Qmult_1_l.
Qed.

#[export] Instance receiver_compare_laws use_usd : CompareLaws (receiver_compare use_usd).
Proof.
  apply then_with_laws; [apply (compare_map_laws (receiver_value use_usd) Z.compare), _|].
  constructor.
  - intros x. apply (compare_refl str_compare).
  - intros x y. apply (compare_antisym str_compare).
  - intros x y z Hxy Hyz. by apply (compare_trans str_compare z.1 y.1 x.1).
Qed.

Lemma with_receiver_counters f r v s c : edge_counter (with_receiver f r v s) c = edge_counter f c.
Proof. by destruct c. Qed.

(** The amount that decides, of two currencies. *)
Definition deciding (t v : Z * Z) : Z := if (0 <? t.2)%Z then v.2 else v.1.

Lemma received_bounds events a :
  let t := totals (payments events) in
  a ∈ (payments events).*1 →
  (0 ≤ deciding t (received events a) ≤ deciding t t)%Z ∧ (0 < deciding t t)%Z.
Proof.
  intros t Ha. pose proof (payments_nonneg events) as Hp.
  assert (Forall (λ p, (0 ≤ p.2.1)%Z) (payments events)) as H1 by (eapply Forall_impl; [exact Hp|]; simpl; lia).
  assert (Forall (λ p, (0 ≤ p.2.2)%Z) (payments events)) as H2 by (eapply Forall_impl; [exact Hp|]; simpl; lia).
  assert (∀ g : str * (Z * Z) → Z, Forall (λ p, (0 ≤ g p)%Z) (payments events) →
    (0 ≤ saturated (g <$> filter (λ p, p.1 = a) (payments events)) ≤ saturated (g <$> payments events))%Z) as Hg.
  { intros g Hgp. split; [|by apply saturated_filter_le]. apply saturated_nonneg. apply Forall_fmap. by apply Forall_filter_of. }
  split.
  - unfold deciding. destruct (0 <? t.2)%Z; [apply (Hg (λ p, p.2.2))|apply (Hg (λ p, p.2.1))]; done.
  - unfold deciding. destruct (0 <? t.2)%Z eqn:Et; [lia|]. apply Z.ltb_ge in Et.
    apply list_elem_of_fmap in Ha as ([a' v] & -> & Ha). simpl.
    assert (¬ (0 < t.2)%Z) as Hn by lia. unfold t, totals in Hn |- *. simpl in Hn |- *. rewrite saturated_pos in Hn by (by apply Forall_fmap).
    rewrite saturated_pos by (by apply Forall_fmap). rewrite Exists_exists in *.
    exists v.1. split; [apply list_elem_of_fmap; by exists (a', v)|].
    rewrite Forall_forall in H1. rewrite Forall_forall in H2. specialize (H1 _ Ha). specialize (H2 _ Ha). simpl in H1, H2.
    assert (v ≠ (0, 0)%Z) as Hv.
    { apply list_elem_of_omap in Ha as (e & _ & He). apply bind_Some in He as (b & _ & He). case_bool_decide; [done|]. by injection He as _ <-. }
    destruct v as [v1 v2]; simpl in *. assert (¬ (0 < v2)%Z) as Hv2.
    { intros Hpos. apply Hn. exists v2. split; [apply list_elem_of_fmap; by exists (a', (v1, v2))|done]. }
    assert (v1 ≠ 0)%Z by (intros ->; apply Hv; f_equal; lia). lia.
Qed.

Lemma in_payments events a : a ∈ (payments events).*1 ↔ filter (λ p, p.1 = a) (payments events) ≠ [].
Proof.
  rewrite list_elem_of_fmap. split.
  - intros (p & -> & Hp) E. assert (p ∈ filter (λ q, q.1 = p.1) (payments events)) as Hin by (by apply list_elem_of_filter). rewrite E in Hin. by apply elem_of_nil in Hin.
  - intros Hne. destruct (filter _ _) as [|p l] eqn:E; [done|]. assert (p ∈ filter (λ p, p.1 = a) (payments events)) as Hp by (rewrite E; by left).
    apply list_elem_of_filter in Hp as [<- Hp]. by exists p.
Qed.

(** C22: The summary of any events. Every counter is the number of the events that raise
    it, kinds are counted likewise, NFTs and transactions are counted once. There is a
    greatest receiver as soon as an address receives some value: its amounts are the
    saturating totals of its payments, no address receives more in the currency that
    decides (dollars if there are any) and no smaller address as much, and its share is
    the rounded quotient of its amount by the total, between 0 and 1. *)
Theorem propagation_summary events roles holders :
  let a := analyze events roles holders in
  let f := propagation_facts a in
  let t := totals (payments events) in
  (∀ c, edge_counter f c = counted (raises (addresses_with roles is_malicious) c) events) ∧
  (∀ k, default 0%Z (event_kind_counts a !! event_kind_str k) = counted (λ e, bool_decide (kind e = k)) events) ∧
  nft_count a = Z.of_nat (size (list_to_set ((fst <$> holders) ++ omap nft events) : gset NftKey)) ∧
  transaction_count a = Z.of_nat (size (list_to_set ((λ e, (chain e, tx_id e)) <$> events) : gset (ChainId * str))) ∧
  match max_value_receiver f with
  | None => payments events = []
  | Some r =>
      r ∈ (payments events).*1 ∧
      (max_value_receiver_native f, max_value_receiver_usd_micros f) = received events r ∧
      (∀ b, b ∈ (payments events).*1 →
        (deciding t (received events b) < deciding t (received events r))%Z ∨
        (deciding t (received events b) = deciding t (received events r) ∧ str_compare r b ≠ Gt)) ∧
      ∃ share, max_value_receiver_share f = Some share ∧ (0 <= share)%Q ∧ (share <= 1)%Q ∧
        share = f64_div (f64_of_Z (deciding t (received events r))) (f64_of_Z (deciding t t))
  end.
Proof.
  intros a f t. pose proof (foldl_summarized roles holders events _ [] (initial_summarized roles holders)) as Hs. simpl in Hs.
  set (s := foldl _ _ _) in Hs. destruct Hs as [He Hf Hn Hr Hnft Htx Hk Ht].
  assert (∀ c, edge_counter f c = edge_counter (state_facts s) c) as Hc.
  { intros c. unfold f, a, analyze, choose_receiver. fold s. simpl. destruct (max_by _ _) as [[r [n u]]|]; [apply with_receiver_counters|done]. }
  split_and!; [intros c; by rewrite Hc, He|done| |by rewrite <- Htx|].
  { rewrite list_to_set_app_L, <- Hnft. done. }
  assert (t = (total_native s, total_usd s)) as Ht' by done. clearbody t. subst t.
  assert (∀ p, p ∈ btree_entries (receiver_values s) ↔ p.1 ∈ (payments events).*1 ∧ p.2 = received events p.1) as Hin.
  { intros [b v]. unfold btree_entries. rewrite (sort_by_perm _ _), elem_of_map_to_list, Hr, in_payments. simpl.
    destruct (decide (filter _ _ = [])) as [E|E]; [naive_solver|]. split; [by intros [= <-]|by intros [_ ->]]. }
  unfold f, a, analyze, choose_receiver. fold s. cbn [propagation_facts].
  pose proof (max_by_spec (receiver_compare (0 <? total_usd s)%Z) (btree_entries (receiver_values s))) as Hm.
  destruct (max_by _ _) as [[r [n u]]|].
  - destruct Hm as [Hrin Hmax]. apply Hin in Hrin as [Hrp Hrv]. simpl in Hrp, Hrv. cbn [max_value_receiver with_receiver].
    split_and!; [done|done| |].
    + intros b Hb. specialize (Hmax (b, received events b)). rewrite Hin in Hmax. specialize (Hmax (conj Hb eq_refl)).
      unfold receiver_compare in Hmax. change (receiver_value ?u0 (b, received events b)) with (deciding (total_native s, total_usd s) (received events b)) in Hmax.
      rewrite Hrv in Hmax. change (receiver_value ?u0 (r, received events r)) with (deciding (total_native s, total_usd s) (received events r)) in Hmax.
      destruct (Z.compare_spec (deciding (total_native s, total_usd s) (received events b)) (deciding (total_native s, total_usd s) (received events r))); simpl in Hmax; [right|left|done]; done.
    + pose proof (received_bounds events r) as Hb. simpl in Hb. rewrite <- Ht in Hb. destruct (Hb Hrp) as [H1 H2]. eexists. cbn [max_value_receiver_share with_receiver].
      assert ((if (0 <? total_usd s)%Z then total_usd s else total_native s) = deciding (total_native s, total_usd s) (total_native s, total_usd s)) as -> by done.
      assert ((if (0 <? total_usd s)%Z then u else n) = deciding (total_native s, total_usd s) (received events r)) as -> by (by rewrite <- Hrv).
      rewrite (proj2 (Z.ltb_lt _ _) H2). destruct (share_bounds _ _ H1 H2). by split_and!.
  - rewrite Hn. apply elem_of_nil_inv. intros [b v] Hb. assert ((b, received events b) ∈ btree_entries (receiver_values s)) as Hx.
    { apply Hin. split; [|done]. simpl. apply list_elem_of_fmap. by exists (b, v). }
    rewrite Hm in Hx. by apply elem_of_nil in Hx.
Qed.
