(* ===== verification/Lifecycle.v ===== *)
(** The life of a candidate ([analysis/analysis/lifecycle.rs]): first times of its
    activities, durations between them, and early signals of fraud. *)

From S2P Require Import Prelude Text CanonicalJson Anchors SortedLists Events Graph Attribution.

Record LifecycleFacts := {
  deployment_timestamp : option Z;
  first_activity_timestamp : option Z;
  first_mint_timestamp : option Z;
  first_transfer_timestamp : option Z;
  first_sale_timestamp : option Z;
  first_victim_timestamp : option Z;
  deployment_to_first_transfer_seconds : option Z;
  deployment_to_first_sale_seconds : option Z;
  deployment_to_first_victim_seconds : option Z;
  first_activity_to_first_victim_seconds : option Z;
  first_victim_holding_seconds : option Z;
  early_signal_categories : list str;
  early_signal_positive : option bool;
}.

Definition minimum_time (left_ right_ : option Z) : option Z :=
  match left_, right_ with
  | Some left_, Some right_ => Some (Z.min left_ right_)
  | Some value, None | None, Some value => Some value
  | None, None => None
  end.

Definition elapsed (start end_ : option Z) : option Z :=
  match start, end_ with
  | Some start, Some end_ => duration ← checked_sub64 end_ start; if (0 <=? duration)%Z then Some duration else None
  | _, _ => None
  end.

(** The local variables of the first loop. *)
Record Times := {
  time_activity : option Z;
  time_mint : option Z;
  time_transfer : option Z;
  time_sale : option Z;
  time_victim : option Z;
  relevant_timing_complete : bool;
}.

(** Events whose time the early signals need. *)
Definition is_relevant (e : NormalizedEvent) : bool :=
  match kind e with Funding | Mint | Transfer | Listing => true | _ => false end || is_nft_sale e.

Definition observe_times (t : Times) (e : NormalizedEvent) : Times :=
  let time := timestamp e in
  {| time_activity := minimum_time (time_activity t) time;
     time_mint := match kind e with Mint => minimum_time (time_mint t) time | _ => time_mint t end;
     time_transfer := match kind e with Transfer => minimum_time (time_transfer t) time | _ => time_transfer t end;
     time_sale := match kind e with Sale => if is_nft_sale e then minimum_time (time_sale t) time else time_sale t | _ => time_sale t end;
     time_victim := if (is_nft_sale e || bool_decide (kind e = Mint)) && is_paid e then minimum_time (time_victim t) time else time_victim t;
     relevant_timing_complete :=
       if is_relevant e && bool_decide (timestamp e = None) then false else relevant_timing_complete t |}.

Definition control_or_funding_link : str := lit "control_or_funding_link".
Definition coordinated_mint_or_distribution : str := lit "coordinated_mint_or_distribution".
Definition abnormal_listing_or_market_preparation : str := lit "abnormal_listing_or_market_preparation".
Definition content_copy : str := lit "content_copy".

(** The signal that an event gives. *)
Definition category (e : NormalizedEvent) : option str :=
  match kind e with
  | Funding => Some control_or_funding_link
  | Mint =>
      if (default 0 (native_amount e) <=? 0)%Z && (default 0 (usd_micros e) <=? 0)%Z then Some coordinated_mint_or_distribution else None
  | Transfer => Some coordinated_mint_or_distribution
  | Listing => Some abnormal_listing_or_market_preparation
  | _ => None
  end.

(** [option.is_some_and(|time| time < result)] *)
Definition before (time : option Z) (result : Z) : bool := match time with Some time => (time <? result)%Z | None => false end.

Definition insert_category (result : Z) (categories : gset str) (e : NormalizedEvent) : gset str :=
  if before (timestamp e) result then
    match category e with Some c => {[c]} ∪ categories | None => categories end
  else categories.

Definition early_categories (duplicate_content_timestamp : option Z) (events : list NormalizedEvent) (first_result : option Z) : gset str :=
  match first_result with
  | None => ∅
  | Some result =>
      let categories := foldl (insert_category result) ∅ events in
      if before duplicate_content_timestamp result then {[content_copy]} ∪ categories else categories
  end.

Definition early_positive (deployment first_result duplicate_content_timestamp : option Z) (history_complete timing_complete : bool)
  (categories : gset str) : option bool :=
  match deployment, first_result with
  | Some deployment, Some result =>
      if (deployment <=? result)%Z && history_complete && timing_complete &&
         (bool_decide (2 ≤ size categories) || bool_decide (is_Some duplicate_content_timestamp))
      then Some (bool_decide (2 ≤ size categories)) else None
  | _, _ => None
  end.

Definition build_lifecycle (deployment duplicate_content_timestamp : option Z) (events : list NormalizedEvent) (history_complete : bool)
  (analysis_timestamp : Z) : LifecycleFacts :=
  let t := foldl observe_times
    {| time_activity := deployment; time_mint := None; time_transfer := None; time_sale := None; time_victim := None;
       relevant_timing_complete := true |} events in
  let first_result := minimum_time (time_sale t) (time_victim t) in
  let categories := early_categories duplicate_content_timestamp events first_result in
  {| deployment_timestamp := deployment;
     first_activity_timestamp := time_activity t;
     first_mint_timestamp := time_mint t;
     first_transfer_timestamp := time_transfer t;
     first_sale_timestamp := time_sale t;
     first_victim_timestamp := time_victim t;
     deployment_to_first_transfer_seconds := elapsed deployment (time_transfer t);
     deployment_to_first_sale_seconds := elapsed deployment (time_sale t);
     deployment_to_first_victim_seconds := elapsed deployment (time_victim t);
     first_activity_to_first_victim_seconds := elapsed (time_activity t) (time_victim t);
     first_victim_holding_seconds := elapsed (time_victim t) (Some analysis_timestamp);
     early_signal_categories := sort_by str_compare (elements categories);
     early_signal_positive := early_positive deployment first_result duplicate_content_timestamp history_complete
       (relevant_timing_complete t) categories |}.

(** ** Correctness *)

(** The least time with a property, if there is one. *)
Definition earliest (P : Z → Prop) (o : option Z) : Prop :=
  match o with Some t => P t ∧ ∀ u, P u → (t ≤ u)%Z | None => ∀ u, ¬ P u end.

Lemma earliest_unique P Q o o' : (∀ t, P t ↔ Q t) → earliest P o → earliest Q o' → o = o'.
Proof.
  intros HPQ. destruct o as [t|], o' as [u|]; simpl; intros H1 H2; [|exfalso; by apply (H2 t), HPQ, H1|exfalso; by apply (H1 u), HPQ, H2|done].
  f_equal. destruct H1 as [Ht Hmin], H2 as [Hu Hmin']. apply HPQ in Ht as Ht'. apply HPQ in Hu as Hu'. specialize (Hmin u Hu'). specialize (Hmin' t Ht'). lia.
Qed.

Lemma earliest_minimum P Q o o' : earliest P o → earliest Q o' → earliest (λ t, P t ∨ Q t) (minimum_time o o').
Proof.
  destruct o as [t|], o' as [u|]; simpl; intros H1 H2.
  - destruct H1 as [H1 H1'], H2 as [H2 H2']. split; [destruct (Z.min_spec t u) as [[_ ->]|[_ ->]]; auto|]. intros v [Hv%H1'|Hv%H2']; lia.
  - split; [by left; apply H1|]. intros v [Hv|Hv]; [by apply H1|by apply H2 in Hv].
  - split; [by right; apply H2|]. intros v [Hv|Hv]; [by apply H1 in Hv|by apply H2].
  - intros v [Hv|Hv]; [by apply H1 in Hv|by apply H2 in Hv].
Qed.

(** The times of the events with a property. *)
Definition at_time (P : NormalizedEvent → bool) (events : list NormalizedEvent) (t : Z) : Prop :=
  ∃ e, e ∈ events ∧ P e = true ∧ timestamp e = Some t.

(** A loop that takes the minimum over the events with a property. *)
Lemma earliest_fold {S} (get : S → option Z) (step : S → NormalizedEvent → S) (P : NormalizedEvent → bool) (Q : Z → Prop) events s :
  (∀ s e, get (step s e) = if P e then minimum_time (get s) (timestamp e) else get s) →
  earliest Q (get s) → earliest (λ t, Q t ∨ at_time P events t) (get (foldl step s events)).
Proof.
  intros Hstep. revert s Q. induction events as [|e events IH]; intros s Q Hs; simpl.
  - replace (get s) with (minimum_time (get s) None) by (by destruct (get s)). apply earliest_minimum; [done|].
    intros t (e & He & _). by apply elem_of_nil in He.
  - assert (earliest (λ t, Q t ∨ (P e = true ∧ timestamp e = Some t)) (get (step s e))) as Hs'.
    { rewrite Hstep. destruct (P e).
      - apply earliest_minimum; [done|]. destruct (timestamp e) as [t|]; simpl; [|by intros u [_ ?]]. split; [done|]. intros u [_ [= ->]]. lia.
      - replace (get s) with (minimum_time (get s) None) by (by destruct (get s)). apply earliest_minimum; [done|]. by intros u [? _]. }
    specialize (IH _ _ Hs'). destruct (get (foldl step (step s e) events)) as [t|]; simpl in *.
    + assert (∀ u, (Q u ∨ at_time P (e :: events) u) ↔ (Q u ∨ P e = true ∧ timestamp e = Some u) ∨ at_time P events u) as Heq.
      { intros u. unfold at_time. setoid_rewrite elem_of_cons. naive_solver. }
      rewrite Heq. split; [apply IH|]. intros u Hu%Heq. by apply IH.
    + intros u Hu. apply (IH u). destruct Hu as [Hu|(x & [->|Hx]%elem_of_cons & ?)]; [by do 2 left|left; by right|right; by exists x].
Qed.

Lemma relevant_fold events t :
  relevant_timing_complete (foldl observe_times t events) = true ↔
  relevant_timing_complete t = true ∧ ∀ e, e ∈ events → is_relevant e = true → timestamp e ≠ None.
Proof.
  revert t. induction events as [|e events IH]; intros t; simpl.
  - split; [intros; split; [done|]; by intros ? ?%elem_of_nil|tauto].
  - rewrite IH. clear IH. simpl. setoid_rewrite elem_of_cons. destruct (is_relevant e) eqn:Hr; simpl; [case_bool_decide as Hd; simpl|].
    + split; [by intros [? _]|]. intros [_ H]. exfalso. exact (H e (or_introl eq_refl) Hr Hd).
    + split; intros [H1 H2]; (split; [done|]); [intros x [->|Hx] Hrx; [done|by apply H2]|]. intros x Hx. apply H2. by right.
    + split; intros [H1 H2]; (split; [done|]); [intros x [->|Hx] Hrx; [congruence|by apply H2]|]. intros x Hx. apply H2. by right.
Qed.

Lemma elem_of_categories dup events result c :
  c ∈ early_categories dup events (Some result) ↔
    (∃ e, e ∈ events ∧ before (timestamp e) result = true ∧ category e = Some c) ∨ (c = content_copy ∧ before dup result = true).
Proof.
  assert (∀ s, c ∈ foldl (insert_category result) s events ↔
    c ∈ s ∨ ∃ e, e ∈ events ∧ before (timestamp e) result = true ∧ category e = Some c) as Hf.
  { induction events as [|e events IH]; intros s; simpl.
    - split; [by left|]. by intros [?|(e & ?%elem_of_nil & _)].
    - rewrite IH. clear IH.
      assert (c ∈ insert_category result s e ↔ c ∈ s ∨ (before (timestamp e) result = true ∧ category e = Some c)) as ->.
      { unfold insert_category. destruct (before (timestamp e) result); [|naive_solver].
        destruct (category e) as [d|]; [rewrite elem_of_union, elem_of_singleton|]; split; [intros [->|?]; auto|intros [?|[_ [= ->]]]; auto|by left|by intros [?|[_ ?]]]. }
      setoid_rewrite elem_of_cons. split; [intros [[?|[??]]|(x & ? & ?)]; [by left|right; exists e; auto|right; exists x; auto]|].
      intros [?|(x & [->|?] & ?)]; [by do 2 left|left; by right|right; by exists x]. }
  unfold early_categories. destruct (before dup result); rewrite ?elem_of_union, ?elem_of_singleton, Hf; set_solver.
Qed.

(** The time of the first sale or paid acquisition. *)
Definition is_victim_event (e : NormalizedEvent) : bool := (is_nft_sale e || bool_decide (kind e = Mint)) && is_paid e.

Lemma minimum_time_None_l o : minimum_time None o = o.
Proof. by destruct o. Qed.

Record times_of (deployment : option Z) (events : list NormalizedEvent) (t : Times) : Prop := {
  times_activity : earliest (λ u, deployment = Some u ∨ at_time (λ _, true) events u) (time_activity t);
  times_mint : earliest (at_time (λ e, bool_decide (kind e = Mint)) events) (time_mint t);
  times_transfer : earliest (at_time (λ e, bool_decide (kind e = Transfer)) events) (time_transfer t);
  times_sale : earliest (at_time is_nft_sale events) (time_sale t);
  times_victim : earliest (at_time is_victim_event events) (time_victim t);
  times_complete : relevant_timing_complete t = true ↔ ∀ e, e ∈ events → is_relevant e = true → timestamp e ≠ None;
}.

Lemma earliest_iff P Q o : (∀ t, P t ↔ Q t) → earliest P o → earliest Q o.
Proof. intros HPQ. destruct o as [t|]; simpl; [|by intros H u Hu%HPQ; apply (H u)]. intros [Ht H]. split; [by apply HPQ|]. intros u Hu%HPQ. auto. Qed.

Lemma observed_times deployment events :
  times_of deployment events (foldl observe_times
    {| time_activity := deployment; time_mint := None; time_transfer := None; time_sale := None; time_victim := None;
       relevant_timing_complete := true |} events).
Proof.
  set (t0 := {| time_activity := _ |}).
  assert (∀ (get : Times → option Z) (P : NormalizedEvent → bool), get t0 = None → (∀ s e, get (observe_times s e) = if P e then minimum_time (get s) (timestamp e) else get s) →
    earliest (at_time P events) (get (foldl observe_times t0 events))) as Hnone.
  { intros get P H0 Hstep. apply (earliest_iff (λ t, False ∨ at_time P events t)); [tauto|]. apply (earliest_fold get observe_times P (λ _, False)); [done|].
    rewrite H0. simpl. tauto. }
  constructor.
  - apply (earliest_fold time_activity observe_times (λ _, true) (λ u, deployment = Some u)); [done|]. simpl.
    destruct deployment as [d|]; simpl; [|done]. split; [done|]. intros u [= ->]. lia.
  - apply (Hnone time_mint); [done|]. intros s e. simpl. by destruct (kind e).
  - apply (Hnone time_transfer); [done|]. intros s e. simpl. by destruct (kind e).
  - apply (Hnone time_sale); [done|]. intros s e. simpl. unfold is_nft_sale. by destruct (kind e).
  - by apply (Hnone time_victim).
  - rewrite relevant_fold. simpl. tauto.
Qed.

Lemma times_of_unique deployment events events' t t' :
  events ≡ₚ events' → times_of deployment events t → times_of deployment events' t' → t = t'.
Proof.
  intros Hp [A1 A2 A3 A4 A5 A6] [B1 B2 B3 B4 B5 B6].
  assert (∀ P u, at_time P events u ↔ at_time P events' u) as Hat by (intros P u; unfold at_time; by setoid_rewrite Hp).
  assert (relevant_timing_complete t = relevant_timing_complete t') as E6.
  { apply eq_bool_prop_intro. rewrite !Is_true_true, A6, B6. by setoid_rewrite Hp. }
  destruct t as [a1 a2 a3 a4 a5 a6], t' as [b1 b2 b3 b4 b5 b6]; simpl in *. f_equal; try done; (eapply earliest_unique; [|eassumption..]); [|apply Hat..].
  intros u. cbn beta. by rewrite Hat.
Qed.

Lemma early_categories_perm dup events events' result :
  events ≡ₚ events' → early_categories dup events result = early_categories dup events' result.
Proof.
  intros Hp. destruct result as [r|]; [|done]. apply set_eq. intros c. rewrite !elem_of_categories. by setoid_rewrite Hp.
Qed.

Lemma first_result_spec deployment events t :
  times_of deployment events t →
  earliest (λ u, at_time is_nft_sale events u ∨ at_time is_victim_event events u) (minimum_time (time_sale t) (time_victim t)).
Proof. intros H. apply earliest_minimum; apply H. Qed.

(** C23: The first times of a lifecycle are the least times of the events of their kind,
    whatever the order of the events. The signals are those of the events strictly
    before the first sale or paid acquisition (and an earlier copy of the content), in
    order and once each; the verdict is given exactly when the history is complete, all
    relevant events have a time, the first result does not precede the deployment and
    two signals or a copy time are known, and it is positive from two signals on. *)
Theorem lifecycle_correct deployment dup events complete now :
  let f := build_lifecycle deployment dup events complete now in
  let categories := early_signal_categories f in
  (∀ events', events ≡ₚ events' → build_lifecycle deployment dup events' complete now = f) ∧
  earliest (λ u, deployment = Some u ∨ at_time (λ _, true) events u) (first_activity_timestamp f) ∧
  earliest (at_time (λ e, bool_decide (kind e = Mint)) events) (first_mint_timestamp f) ∧
  earliest (at_time (λ e, bool_decide (kind e = Transfer)) events) (first_transfer_timestamp f) ∧
  earliest (at_time is_nft_sale events) (first_sale_timestamp f) ∧
  earliest (at_time is_victim_event events) (first_victim_timestamp f) ∧
  ∃ first_result,
    earliest (λ u, at_time is_nft_sale events u ∨ at_time is_victim_event events u) first_result ∧
    StronglySorted (λ a b, str_compare a b = Lt) categories ∧
    (∀ c, c ∈ categories ↔ ∃ r, first_result = Some r ∧
      ((∃ e t, e ∈ events ∧ timestamp e = Some t ∧ (t < r)%Z ∧ category e = Some c) ∨
       (∃ t, c = content_copy ∧ dup = Some t ∧ (t < r)%Z))) ∧
    ∀ b, early_signal_positive f = Some b ↔ ∃ d r, deployment = Some d ∧ first_result = Some r ∧ (d ≤ r)%Z ∧ complete = true ∧
      (∀ e, e ∈ events → is_relevant e = true → timestamp e ≠ None) ∧ (2 ≤ length categories ∨ is_Some dup) ∧
      b = bool_decide (2 ≤ length categories).
Proof.
  intros f categories. pose proof (observed_times deployment events) as Ht. set (t := foldl _ _ _) in Ht.
  split.
  { intros events' Hp. unfold f, build_lifecycle. rewrite (early_categories_perm dup events' events) by done.
    by rewrite (times_of_unique _ _ _ _ _ (symmetry Hp) (observed_times deployment events') Ht). }
  do 5 (split; [apply Ht|]). set (result := minimum_time (time_sale t) (time_victim t)). exists result.
  split; [by eapply first_result_spec|]. set (cats := early_categories dup events result).
  assert (categories = sort_by str_compare (elements cats)) as Hcat by done.
  assert (length categories = size cats) as Hlen by (by rewrite Hcat, (sort_by_perm str_compare)).
  split_and!.
  - rewrite Hcat. apply (sort_by_strict str_compare), NoDup_elements.
  - intros c. rewrite Hcat, (sort_by_perm str_compare), elem_of_elements. unfold cats. destruct result as [r|]; [|simpl; set_solver].
    rewrite elem_of_categories. split.
    + intros [(e & He & Hb & Hc)|[-> Hb]]; exists r; (split; [done|]).
      * left. unfold before in Hb. destruct (timestamp e) as [u|] eqn:Hu; [|done]. exists e, u. split_and!; [done..|lia|done].
      * right. unfold before in Hb. destruct dup as [u|]; [|done]. exists u. split_and!; [done..|lia].
    + intros (r' & [= <-] & [(e & u & He & Hu & Hr & Hc)|(u & -> & -> & Hr)]); [left; exists e|right]; unfold before; rewrite ?Hu;
        split_and!; try done; by apply Z.ltb_lt.
  - intros b. rewrite Hlen. change (early_signal_positive f) with (early_positive deployment result dup complete (relevant_timing_complete t) cats).
    unfold early_positive. destruct deployment as [d|]; [|naive_solver]. destruct result as [r|]; [|naive_solver].
    destruct (Z.leb_spec d r); [|naive_solver lia]. destruct complete; [|naive_solver].
    pose proof (times_complete _ _ _ Ht) as Hc. destruct (relevant_timing_complete t); [|naive_solver]. simpl.
    destruct (bool_decide (2 ≤ size cats) || bool_decide (is_Some dup)) eqn:E.
    + split; [intros [= <-]|intros (? & ? & _ & _ & _ & _ & _ & _ & ->); done]. exists d, r. apply orb_true_iff in E as [E|E]; apply bool_decide_eq_true in E; naive_solver.
    + apply orb_false_iff in E as [E1 E2]. apply bool_decide_eq_false in E1, E2. naive_solver.
Qed.
