(* ===== verification/Economics.v ===== *)
(** The money around a candidate ([analysis/analysis/economics.rs]): revenue, funding,
    losses, time that NFTs were stuck, and the gas that operators paid, once per
    transaction. [iterate] is the order in which a hash map is traversed; [None] is a
    panic. Every amount is then the saturating total of what each event and each gas record
    contributes, whatever the order of the events and of the hash map. *)

From S2P Require Import Prelude Text CanonicalJson Anchors SortedLists Events Graph Evidence.
From S2P Require Import EvidenceFacts Attribution AttributionFacts DetectorFacts SaturatedSums.
From S2P Require Import Propagation.

(** ** Data *)

Record EconomicFacts := {
  gross_revenue_native : Z; gross_revenue_usd_micros : Z;
  marketplace_fee_native : Z; marketplace_fee_usd_micros : Z;
  funding_native : Z; funding_usd_micros : Z;
  withdrawal_native : Z; withdrawal_usd_micros : Z;
  revenue_backflow_native : Z; revenue_backflow_usd_micros : Z;
  setup_gas_native : Z; setup_gas_usd_micros : Z;
  lure_gas_native : Z; lure_gas_usd_micros : Z;
  exit_gas_native : Z; exit_gas_usd_micros : Z;
  operator_output_native : Z; operator_output_usd_micros : Z;
  secondary_sale_loss_native : Z; secondary_sale_loss_usd_micros : Z;
  paid_mint_loss_native : Z; paid_mint_loss_usd_micros : Z;
  honest_loss_native : Z; honest_loss_usd_micros : Z;
  stuck_nft_count : Z;
  stuck_time_numerator_seconds : Z; stuck_time_denominator_seconds : Z;
}.

Definition EconomicFacts_default : EconomicFacts := {|
  gross_revenue_native := 0; gross_revenue_usd_micros := 0;
  marketplace_fee_native := 0; marketplace_fee_usd_micros := 0;
  funding_native := 0; funding_usd_micros := 0;
  withdrawal_native := 0; withdrawal_usd_micros := 0;
  revenue_backflow_native := 0; revenue_backflow_usd_micros := 0;
  setup_gas_native := 0; setup_gas_usd_micros := 0;
  lure_gas_native := 0; lure_gas_usd_micros := 0;
  exit_gas_native := 0; exit_gas_usd_micros := 0;
  operator_output_native := 0; operator_output_usd_micros := 0;
  secondary_sale_loss_native := 0; secondary_sale_loss_usd_micros := 0;
  paid_mint_loss_native := 0; paid_mint_loss_usd_micros := 0;
  honest_loss_native := 0; honest_loss_usd_micros := 0;
  stuck_nft_count := 0; stuck_time_numerator_seconds := 0; stuck_time_denominator_seconds := 0 |}.

(** The pairs of amounts that the code adds to together. *)
Inductive Flow :=
  | GrossRevenue | MarketplaceFee | Funding_ | Withdrawal_ | RevenueBackflow | SetupGas | LureGas
  | ExitGas | OperatorOutput | SecondarySaleLoss | PaidMintLoss | HonestLoss | StuckTime.
#[export] Instance Flow_eq_dec : EqDecision Flow.
Proof. solve_decision. Defined.

Definition flow_amounts (f : EconomicFacts) (flow : Flow) : Z * Z :=
  match flow with
  | GrossRevenue => (gross_revenue_native f, gross_revenue_usd_micros f)
  | MarketplaceFee => (marketplace_fee_native f, marketplace_fee_usd_micros f)
  | Funding_ => (funding_native f, funding_usd_micros f)
  | Withdrawal_ => (withdrawal_native f, withdrawal_usd_micros f)
  | RevenueBackflow => (revenue_backflow_native f, revenue_backflow_usd_micros f)
  | SetupGas => (setup_gas_native f, setup_gas_usd_micros f)
  | LureGas => (lure_gas_native f, lure_gas_usd_micros f)
  | ExitGas => (exit_gas_native f, exit_gas_usd_micros f)
  | OperatorOutput => (operator_output_native f, operator_output_usd_micros f)
  | SecondarySaleLoss => (secondary_sale_loss_native f, secondary_sale_loss_usd_micros f)
  | PaidMintLoss => (paid_mint_loss_native f, paid_mint_loss_usd_micros f)
  | HonestLoss => (honest_loss_native f, honest_loss_usd_micros f)
  | StuckTime => (stuck_time_numerator_seconds f, stuck_time_denominator_seconds f)
  end.

(** [output.<flow>_native = output.<flow>_native.saturating_add(..)], and the same for
    the second field of the pair. *)
Definition add_flow (flow : Flow) (values : Z * Z) (f : EconomicFacts) : EconomicFacts :=
  let add flow' := if decide (flow = flow') then add_pair (flow_amounts f flow') values else flow_amounts f flow' in
  {| gross_revenue_native := (add GrossRevenue).1; gross_revenue_usd_micros := (add GrossRevenue).2;
     marketplace_fee_native := (add MarketplaceFee).1; marketplace_fee_usd_micros := (add MarketplaceFee).2;
     funding_native := (add Funding_).1; funding_usd_micros := (add Funding_).2;
     withdrawal_native := (add Withdrawal_).1; withdrawal_usd_micros := (add Withdrawal_).2;
     revenue_backflow_native := (add RevenueBackflow).1; revenue_backflow_usd_micros := (add RevenueBackflow).2;
     setup_gas_native := (add SetupGas).1; setup_gas_usd_micros := (add SetupGas).2;
     lure_gas_native := (add LureGas).1; lure_gas_usd_micros := (add LureGas).2;
     exit_gas_native := (add ExitGas).1; exit_gas_usd_micros := (add ExitGas).2;
     operator_output_native := (add OperatorOutput).1; operator_output_usd_micros := (add OperatorOutput).2;
     secondary_sale_loss_native := (add SecondarySaleLoss).1; secondary_sale_loss_usd_micros := (add SecondarySaleLoss).2;
     paid_mint_loss_native := (add PaidMintLoss).1; paid_mint_loss_usd_micros := (add PaidMintLoss).2;
     honest_loss_native := (add HonestLoss).1; honest_loss_usd_micros := (add HonestLoss).2;
     stuck_nft_count := stuck_nft_count f;
     stuck_time_numerator_seconds := (add StuckTime).1; stuck_time_denominator_seconds := (add StuckTime).2 |}.

Definition with_stuck_nfts (f : EconomicFacts) (count : Z) : EconomicFacts :=
  {| gross_revenue_native := gross_revenue_native f; gross_revenue_usd_micros := gross_revenue_usd_micros f;
     marketplace_fee_native := marketplace_fee_native f; marketplace_fee_usd_micros := marketplace_fee_usd_micros f;
     funding_native := funding_native f; funding_usd_micros := funding_usd_micros f;
     withdrawal_native := withdrawal_native f; withdrawal_usd_micros := withdrawal_usd_micros f;
     revenue_backflow_native := revenue_backflow_native f; revenue_backflow_usd_micros := revenue_backflow_usd_micros f;
     setup_gas_native := setup_gas_native f; setup_gas_usd_micros := setup_gas_usd_micros f;
     lure_gas_native := lure_gas_native f; lure_gas_usd_micros := lure_gas_usd_micros f;
     exit_gas_native := exit_gas_native f; exit_gas_usd_micros := exit_gas_usd_micros f;
     operator_output_native := operator_output_native f; operator_output_usd_micros := operator_output_usd_micros f;
     secondary_sale_loss_native := secondary_sale_loss_native f; secondary_sale_loss_usd_micros := secondary_sale_loss_usd_micros f;
     paid_mint_loss_native := paid_mint_loss_native f; paid_mint_loss_usd_micros := paid_mint_loss_usd_micros f;
     honest_loss_native := honest_loss_native f; honest_loss_usd_micros := honest_loss_usd_micros f;
     stuck_nft_count := count;
     stuck_time_numerator_seconds := stuck_time_numerator_seconds f; stuck_time_denominator_seconds := stuck_time_denominator_seconds f |}.

Inductive GasStage := Setup | Lure | ExitStage.
#[export] Instance GasStage_eq_dec : EqDecision GasStage.
Proof. solve_decision. Defined.

Definition stage_ordinal (s : GasStage) : nat := match s with Setup => 0 | Lure => 1 | ExitStage => 2 end.

Inductive GasEvidenceKind := AttributedOperatorFeePayer.

Record GasCostRecord := {
  cost_chain : ChainId;
  cost_stage : GasStage;
  cost_channel : ValueChannel;
  cost_transaction : str;
  cost_gas_payer : str;
  cost_gas_native : Z;
  cost_gas_usd_micros : Z;
  cost_from_role : option AddressRole;
  cost_to_role : option AddressRole;
  cost_evidence_type : GasEvidenceKind;
}.

Record TransactionGas := {
  gas_stage_of : option GasStage;
  gas_channel : option ValueChannel;
  gas_event_index : Z;
  gas_transaction : option str;
  gas_payer : option str;
  gas_from_role : option AddressRole;
  gas_to_role : option AddressRole;
  gas_native_of : Z;
  gas_usd_of : Z;
}.

Definition TransactionGas_default : TransactionGas :=
  {| gas_stage_of := None; gas_channel := None; gas_event_index := 0; gas_transaction := None; gas_payer := None; gas_from_role := None;
     gas_to_role := None; gas_native_of := 0; gas_usd_of := 0 |}.

Record EconomicAnalysis := { economic_facts : EconomicFacts; gas_cost_records : list GasCostRecord }.

(** ** Gas *)

Definition gas_stage (kind : EventKind) (channel : ValueChannel) : GasStage :=
  if decide (channel = ExitPayment) then ExitStage else
  match kind with
  | Withdrawal | Cashout => ExitStage
  | Mint | Sale | Listing => Lure
  | Deploy | Funding | Transfer => Setup
  end.

Definition event_stage (e : NormalizedEvent) : GasStage := gas_stage (kind e) (value_channel e).

(** Whether the event takes the place of the one recorded. *)
Definition takes_over (t : TransactionGas) (e : NormalizedEvent) : bool :=
  match gas_stage_of t with
  | None => true
  | Some current =>
      bool_decide (stage_ordinal current < stage_ordinal (event_stage e)) ||
      (bool_decide (event_stage e = current) && (event_index e <? gas_event_index t)%Z)
  end.

Definition merge_gas (roles : gmap str AddressRole) (t : TransactionGas) (e : NormalizedEvent) : TransactionGas :=
  let native := Z.max (gas_native_of t) (amount (gas_native e)) in
  let usd := Z.max (gas_usd_of t) (amount (gas_usd_micros e)) in
  if takes_over t e then
    {| gas_stage_of := Some (event_stage e); gas_channel := Some (value_channel e); gas_event_index := event_index e;
       gas_transaction := Some (tx_id e); gas_payer := fee_payer e; gas_from_role := from e ≫= (roles !!.);
       gas_to_role := to e ≫= (roles !!.); gas_native_of := native; gas_usd_of := usd |}
  else
    {| gas_stage_of := gas_stage_of t; gas_channel := gas_channel t; gas_event_index := gas_event_index t;
       gas_transaction := gas_transaction t; gas_payer := gas_payer t; gas_from_role := gas_from_role t;
       gas_to_role := gas_to_role t; gas_native_of := native; gas_usd_of := usd |}.

Definition add_gas (roles : gmap str AddressRole) (operators : gset str) (m : gmap (ChainId * str) TransactionGas) (e : NormalizedEvent)
  : gmap (ChainId * str) TransactionGas :=
  if contained operators (fee_payer e) then
    let key := (chain e, tx_id e) in
    <[key := merge_gas roles (default TransactionGas_default (m !! key)) e]> m
  else m.

Definition stage_flow (s : GasStage) : Flow := match s with Setup => SetupGas | Lure => LureGas | ExitStage => ExitGas end.

(** One transaction of the map: its gas and its record. *)
Definition close_gas (r : EconomicFacts * list GasCostRecord) (entry : (ChainId * str) * TransactionGas) : option (EconomicFacts * list GasCostRecord) :=
  let t := entry.2 in
  stage ← gas_stage_of t;
  let facts := add_flow (stage_flow stage) (gas_native_of t, gas_usd_of t) r.1 in
  channel ← gas_channel t;
  transaction ← gas_transaction t;
  payer ← gas_payer t;
  Some (facts, r.2 ++ [{| cost_chain := entry.1.1; cost_stage := stage; cost_channel := channel; cost_transaction := transaction;
    cost_gas_payer := payer; cost_gas_native := gas_native_of t; cost_gas_usd_micros := gas_usd_of t; cost_from_role := gas_from_role t;
    cost_to_role := gas_to_role t; cost_evidence_type := AttributedOperatorFeePayer |}]).

Definition cost_compare (left_ right_ : GasCostRecord) : comparison :=
  then_with (Z.compare (cost_gas_usd_micros right_) (cost_gas_usd_micros left_))
    (then_with (Z.compare (cost_gas_native right_) (cost_gas_native left_))
      (then_with (Nat.compare (stage_ordinal (cost_stage left_)) (stage_ordinal (cost_stage right_)))
        (then_with (chain_compare (cost_chain left_) (cost_chain right_)) (str_compare (cost_transaction left_) (cost_transaction right_))))).

(** ** Values *)

Section Values.
Context (operators : gset str) (honest_holders : gset (NftKey * str)) (stuck_window : option (Z * Z)) (candidate_contract : option str).

Definition payer (e : NormalizedEvent) : option str := match payment_payer e with Some address => Some address | None => to e end.

(** Held time and lure time of a purchase. *)
Definition stuck_times (e : NormalizedEvent) : option (Z * Z) :=
  '(first_activity, analysis_timestamp) ← stuck_window;
  purchase ← timestamp e;
  held ← non_negative (checked_sub64 analysis_timestamp purchase);
  lure ← non_negative (checked_sub64 purchase first_activity);
  Some (held, lure).

Definition is_operator_receipt (e : NormalizedEvent) : bool :=
  match recipient e with
  | Some address => bool_decide (address ∈ operators) ||
                    (bool_decide (value_channel e = MintPayment) && bool_decide (candidate_contract = Some address))
  | None => false
  end.

Definition is_honest_loss (e : NormalizedEvent) : bool :=
  match nft e, payer e with
  | Some nft, Some address => bool_decide ((nft, address) ∈ honest_holders)
  | _, _ => false
  end && is_revenue (value_channel e).

Definition add_revenue (e : NormalizedEvent) (f : EconomicFacts) : EconomicFacts :=
  if is_revenue (value_channel e) then
    add_flow MarketplaceFee (amount (Events.marketplace_fee_native e), amount (Events.marketplace_fee_usd_micros e))
      (add_flow GrossRevenue (event_amounts e) f)
  else f.

Definition add_receipt (e : NormalizedEvent) (f : EconomicFacts) : EconomicFacts :=
  if is_operator_receipt e && match value_channel e with MintPayment | SalePayment | RoyaltyFee => true | _ => false end then
    add_flow OperatorOutput (event_amounts e) f
  else f.

Definition add_stuck_time (e : NormalizedEvent) (f : EconomicFacts) : EconomicFacts :=
  if decide (value_channel e = SalePayment) then
    match stuck_times e with Some times => add_flow StuckTime times f | None => f end
  else f.

(** [unreachable!] on the other channels: [is_honest_loss] has excluded them. *)
Definition add_honest_loss (e : NormalizedEvent) (s : EconomicFacts * gset NftKey) : option (EconomicFacts * gset NftKey) :=
  if is_honest_loss e then
    let f := add_flow HonestLoss (event_amounts e) s.1 in
    f ← match value_channel e with
        | MintPayment => Some (add_flow PaidMintLoss (event_amounts e) f)
        | SalePayment => Some (add_flow SecondarySaleLoss (event_amounts e) f)
        | _ => None
        end;
    Some (add_stuck_time e f, list_to_set (option_list (nft e)) ∪ s.2)
  else Some s.

Definition add_movement (e : NormalizedEvent) (f : EconomicFacts) : EconomicFacts :=
  match kind e with
  | Funding => if contained operators (to e) then add_flow Funding_ (event_amounts e) f else f
  | Withdrawal | Cashout =>
      if contained operators (from e) then
        let f := add_flow Withdrawal_ (event_amounts e) f in
        if contained operators (to e) then add_flow RevenueBackflow (event_amounts e) f else f
      else f
  | _ => f
  end.

Definition add_exit_payment (e : NormalizedEvent) (f : EconomicFacts) : EconomicFacts :=
  if bool_decide (value_channel e = ExitPayment) && contained operators (from e) then add_flow OperatorOutput (event_amounts e) f else f.

Record EconomicState := {
  output : EconomicFacts;
  gas_by_transaction : gmap (ChainId * str) TransactionGas;
  stuck_nfts : gset NftKey;
}.

Definition economic_event (roles : gmap str AddressRole) (s : EconomicState) (e : NormalizedEvent) : option EconomicState :=
  let gas := add_gas roles operators (gas_by_transaction s) e in
  '(f, stuck) ← add_honest_loss e (add_receipt e (add_revenue e (output s)), stuck_nfts s);
  Some {| output := add_exit_payment e (add_movement e f); gas_by_transaction := gas; stuck_nfts := stuck |}.
End Values.

(** ** The analysis *)

Definition economic_operators (roles : gmap str AddressRole) : gset str := addresses_with roles is_malicious.

(** Likely victims that still hold the NFT. *)
Definition economic_holders (roles : gmap str AddressRole) (holders : list (NftKey * str)) : gset (NftKey * str) :=
  list_to_set (filter (λ p, roles !! p.2 = Some LikelyVictim) holders).

Section Analysis.
Context (iterate : gmap (ChainId * str) TransactionGas → list ((ChainId * str) * TransactionGas)).

Definition compute_economics_detailed_iter (events : list NormalizedEvent) (roles : gmap str AddressRole) (holders : list (NftKey * str))
  (stuck_window : option (Z * Z)) (candidate_contract : option str) : option EconomicAnalysis :=
  s ← foldM (economic_event (economic_operators roles) (economic_holders roles holders) stuck_window candidate_contract roles)
    {| output := EconomicFacts_default; gas_by_transaction := ∅; stuck_nfts := ∅ |} events;
  '(facts, records) ← foldM close_gas (with_stuck_nfts (output s) (Z.of_nat (size (stuck_nfts s))), []) (iterate (gas_by_transaction s));
  Some {| economic_facts := facts; gas_cost_records := sort_by cost_compare records |}.

Definition compute_economics_detailed events roles holders : option EconomicAnalysis :=
  compute_economics_detailed_iter events roles holders None None.

Definition compute_economics events roles holders : option EconomicFacts :=
  economic_facts <$> compute_economics_detailed_iter events roles holders None None.

Definition compute_economics_detailed_at events roles holders (first_activity_timestamp : option Z) (analysis_timestamp : Z)
  : option EconomicAnalysis :=
  compute_economics_detailed_iter events roles holders ((λ first, (first, analysis_timestamp)) <$> first_activity_timestamp) None.

Definition compute_candidate_economics_detailed_at (candidate_contract : str) events roles holders (first_activity_timestamp : option Z)
  (analysis_timestamp : Z) : option EconomicAnalysis :=
  compute_economics_detailed_iter events roles holders ((λ first, (first, analysis_timestamp)) <$> first_activity_timestamp)
    (Some candidate_contract).

Definition compute_economics_iter events roles holders : option EconomicFacts :=
  economic_facts <$> compute_economics_detailed_iter events roles holders None None.

Definition compute_economics_iter_at events roles holders (first_activity_timestamp : option Z) (analysis_timestamp : Z) : option EconomicFacts :=
  economic_facts <$>
    compute_economics_detailed_iter events roles holders ((λ first, (first, analysis_timestamp)) <$> first_activity_timestamp) None.

Definition compute_candidate_economics_iter_at (candidate_contract : str) events roles holders (first_activity_timestamp : option Z)
  (analysis_timestamp : Z) : option EconomicFacts :=
  economic_facts <$>
    compute_economics_detailed_iter events roles holders ((λ first, (first, analysis_timestamp)) <$> first_activity_timestamp)
      (Some candidate_contract).
End Analysis.

(** ** Flows *)

Lemma flow_add k v f k' :
  flow_amounts (add_flow k v f) k' = if decide (k = k') then add_pair (flow_amounts f k') v else flow_amounts f k'.
Proof. destruct k, k'; reflexivity. Qed.

Lemma flows_ext f g : (∀ k, flow_amounts f k = flow_amounts g k) → stuck_nft_count f = stuck_nft_count g → f = g.
Proof.
  intros Hf Hs. pose proof (Hf GrossRevenue). pose proof (Hf MarketplaceFee). pose proof (Hf Funding_). pose proof (Hf Withdrawal_).
  pose proof (Hf RevenueBackflow). pose proof (Hf SetupGas). pose proof (Hf LureGas). pose proof (Hf ExitGas). pose proof (Hf OperatorOutput).
  pose proof (Hf SecondarySaleLoss). pose proof (Hf PaidMintLoss). pose proof (Hf HonestLoss). pose proof (Hf StuckTime).
  destruct f, g; simpl in *. simplify_eq. reflexivity.
Qed.

(** Pairs of non-negative amounts and their saturating totals. *)
Definition non_negative_pair (v : Z * Z) : Prop := (0 ≤ v.1 ∧ 0 ≤ v.2)%Z.
Definition total (l : list (Z * Z)) : Z * Z := (saturated (fst <$> l), saturated (snd <$> l)).

#[export] Instance total_perm : Proper ((≡ₚ) ==> (=)) total.
Proof. intros l1 l2 Hl. unfold total. by rewrite Hl. Qed.

Lemma total_snoc l v : Forall non_negative_pair l → non_negative_pair v → total (l ++ [v]) = add_pair (total l) v.
Proof.
  intros Hl [H1 H2]. unfold total, add_pair. rewrite !fmap_app. simpl.
  assert (Forall (λ x, (0 ≤ x)%Z) (fst <$> l) ∧ Forall (λ x, (0 ≤ x)%Z) (snd <$> l)) as [F1 F2].
  { split; apply Forall_fmap; (eapply Forall_impl; [exact Hl|]); by intros v' []. }
  by rewrite !saturated_snoc.
Qed.

Lemma total_add_zero l : Forall non_negative_pair l → add_pair (total l) (0, 0)%Z = total l.
Proof.
  intros Hl. rewrite <- total_snoc by done. unfold total. rewrite !fmap_app. simpl.
  assert (Forall (λ x, (0 ≤ x)%Z) (fst <$> l) ∧ Forall (λ x, (0 ≤ x)%Z) (snd <$> l)) as [F1 F2].
  { split; apply Forall_fmap; (eapply Forall_impl; [exact Hl|]); by intros v' []. }
  by rewrite !saturated_zero.
Qed.

Lemma event_amounts_pair e : non_negative_pair (event_amounts e).
Proof. unfold non_negative_pair, event_amounts, amount; simpl; lia. Qed.

(** ** The contribution of an event *)

Section Contributions.
Context (operators : gset str) (honest_holders : gset (NftKey * str)) (stuck_window : option (Z * Z)) (candidate_contract : option str).
Abbreviation honest_loss := (is_honest_loss honest_holders).
Abbreviation receipt := (is_operator_receipt operators candidate_contract).

Definition when (condition : bool) (v : Z * Z) : Z * Z := if condition then v else (0, 0)%Z.

Definition contribution (k : Flow) (e : NormalizedEvent) : Z * Z :=
  let c := value_channel e in
  let leaves := match kind e with Withdrawal | Cashout => true | _ => false end && contained operators (from e) in
  match k with
  | GrossRevenue => when (is_revenue c) (event_amounts e)
  | MarketplaceFee => when (is_revenue c) (amount (Events.marketplace_fee_native e), amount (Events.marketplace_fee_usd_micros e))
  | OperatorOutput =>
      when ((receipt e && match c with MintPayment | SalePayment | RoyaltyFee => true | _ => false end) ||
            (bool_decide (c = ExitPayment) && contained operators (from e))) (event_amounts e)
  | HonestLoss => when (honest_loss e) (event_amounts e)
  | PaidMintLoss => when (honest_loss e && bool_decide (c = MintPayment)) (event_amounts e)
  | SecondarySaleLoss => when (honest_loss e && bool_decide (c = SalePayment)) (event_amounts e)
  | StuckTime => when (honest_loss e && bool_decide (c = SalePayment)) (default (0, 0)%Z (stuck_times stuck_window e))
  | Funding_ => when (bool_decide (kind e = Funding) && contained operators (to e)) (event_amounts e)
  | Withdrawal_ => when leaves (event_amounts e)
  | RevenueBackflow => when (leaves && contained operators (to e)) (event_amounts e)
  | SetupGas | LureGas | ExitGas => (0, 0)%Z
  end.

Lemma when_pair b v : non_negative_pair v → non_negative_pair (when b v).
Proof using Type. by destruct b. Qed.

Lemma contribution_pair k e : non_negative_pair (contribution k e).
Proof using Type.
  destruct k; try (apply when_pair, event_amounts_pair); try done; apply when_pair.
  - unfold non_negative_pair, amount; simpl; lia.
  - destruct (stuck_times stuck_window e) as [[h l]|] eqn:E; [|done]. unfold stuck_times in E.
    apply bind_Some in E as ([a b] & _ & E). apply bind_Some in E as (p & _ & E). apply bind_Some in E as (x & Hx & E).
    apply bind_Some in E as (y & Hy & [= <- <-]). unfold non_negative in Hx, Hy.
    apply bind_Some in Hx as (x' & _ & Hx). apply bind_Some in Hy as (y' & _ & Hy).
    destruct (Z.leb_spec 0 x'), (Z.leb_spec 0 y'); simplify_eq. done.
Qed.

(** Amounts that do not change when nothing is added. *)
Definition settled (f : EconomicFacts) : Prop := ∀ k, add_pair (flow_amounts f k) (0, 0)%Z = flow_amounts f k.

Abbreviation honest_step := (add_honest_loss honest_holders stuck_window).

Definition event_facts (e : NormalizedEvent) (f : EconomicFacts) : EconomicFacts :=
  let f := add_receipt operators candidate_contract e (add_revenue e f) in
  let f := if honest_loss e then
      let f := add_flow HonestLoss (event_amounts e) f in
      let f := add_flow (if decide (value_channel e = MintPayment) then PaidMintLoss else SecondarySaleLoss) (event_amounts e) f in
      add_stuck_time stuck_window e f
    else f in
  add_exit_payment operators e (add_movement operators e f).

(** The loop body never panics. *)
Lemma economic_event_total roles s e :
  economic_event operators honest_holders stuck_window candidate_contract roles s e =
    Some {| output := event_facts e (output s); gas_by_transaction := add_gas roles operators (gas_by_transaction s) e;
            stuck_nfts := (if honest_loss e then list_to_set (option_list (nft e)) else ∅) ∪ stuck_nfts s |}.
Proof using Type.
  unfold economic_event, add_honest_loss, event_facts. destruct (honest_loss e) eqn:E.
  - assert (is_revenue (value_channel e) = true) as Hr by (unfold is_honest_loss in E; by apply andb_true_iff in E as [_ E]).
    destruct (value_channel e) eqn:Hc; try done; simpl; rewrite ?Hc; reflexivity.
  - cbn [mbind option_bind]. by rewrite (left_id_L ∅ (∪)).
Qed.

(** A step that adds [part] to the flows. *)
Definition adds (step : EconomicFacts → EconomicFacts) (part : Flow → Z * Z) : Prop :=
  ∀ f k, settled f → flow_amounts (step f) k = add_pair (flow_amounts f k) (part k).

Lemma add_pair_settled a b : add_pair (add_pair a b) (0, 0)%Z = add_pair a b.
Proof using Type. unfold add_pair, saturating_add128; simpl. unfold i128_MIN, i128_MAX. f_equal; lia. Qed.

Lemma adds_settled (step : EconomicFacts → EconomicFacts) (part : Flow → Z * Z) f : adds step part → settled f → settled (step f).
Proof using Type. intros Ha Hf k. by rewrite (Ha f k Hf), add_pair_settled. Qed.

Lemma adds_flow (b : bool) k v : adds (λ f, if b then add_flow k v f else f) (λ k', when (bool_decide (k = k') && b) v).
Proof using Type.
  intros f k' Hf. destruct b; [rewrite flow_add|]; rewrite ?andb_true_r, ?andb_false_r; simpl; [|by rewrite Hf].
  destruct (decide (k = k')); [by rewrite bool_decide_eq_true_2|rewrite bool_decide_eq_false_2 by done; by rewrite Hf].
Qed.

(** Two parts of which one is empty. *)
Lemma adds_compose (step1 step2 : EconomicFacts → EconomicFacts) (part1 part2 part : Flow → Z * Z) :
  adds step1 part1 → adds step2 part2 → (∀ k, (part1 k = (0, 0)%Z ∧ part k = part2 k) ∨ (part2 k = (0, 0)%Z ∧ part k = part1 k)) →
  adds (λ f, step2 (step1 f)) part.
Proof using Type.
  intros H1 H2 Hp f k Hf. rewrite (H2 _ k (adds_settled _ _ f H1 Hf)), (H1 f k Hf).
  destruct (Hp k) as [[-> ->]|[-> ->]]; [by rewrite Hf|by rewrite add_pair_settled].
Qed.

Lemma adds_ext (step step' : EconomicFacts → EconomicFacts) (part part' : Flow → Z * Z) : (∀ f, step f = step' f) → (∀ k, part k = part' k) → adds step part → adds step' part'.
Proof using Type. intros Hs Hp Ha f k Hf. by rewrite <- Hs, <- Hp, Ha. Qed.

(** The parts of one event, in the order of the loop body. *)
Definition revenue_part (e : NormalizedEvent) (k : Flow) : Z * Z :=
  when (bool_decide (k = GrossRevenue ∨ k = MarketplaceFee)) (contribution k e).
Definition receipt_part (e : NormalizedEvent) (k : Flow) : Z * Z :=
  when (bool_decide (OperatorOutput = k) && (receipt e && match value_channel e with MintPayment | SalePayment | RoyaltyFee => true | _ => false end)) (event_amounts e).
Definition loss_part (e : NormalizedEvent) (k : Flow) : Z * Z :=
  when (bool_decide (k = HonestLoss ∨ k = PaidMintLoss ∨ k = SecondarySaleLoss ∨ k = StuckTime)) (contribution k e).
Definition movement_part (e : NormalizedEvent) (k : Flow) : Z * Z :=
  when (bool_decide (k = Funding_ ∨ k = Withdrawal_ ∨ k = RevenueBackflow)) (contribution k e).
Definition exit_part (e : NormalizedEvent) (k : Flow) : Z * Z :=
  when (bool_decide (OperatorOutput = k) && (bool_decide (value_channel e = ExitPayment) && contained operators (from e))) (event_amounts e).

Lemma adds_revenue (e : NormalizedEvent) : adds (add_revenue e) (revenue_part e).
Proof using Type.
  eapply adds_ext; [| |eapply (adds_compose _ _ _ _ (revenue_part e)); [apply (adds_flow (is_revenue (value_channel e)) GrossRevenue (event_amounts e))|
    apply (adds_flow (is_revenue (value_channel e)) MarketplaceFee (amount (Events.marketplace_fee_native e), amount (Events.marketplace_fee_usd_micros e)))|]]; [|done|].
  - intros f. unfold add_revenue. by destruct (is_revenue _).
  - intros k. unfold revenue_part, contribution. destruct k; simpl; auto.
Qed.

Lemma adds_stuck (e : NormalizedEvent) : adds (add_stuck_time stuck_window e)
  (λ k, when (bool_decide (StuckTime = k) && bool_decide (value_channel e = SalePayment)) (default (0, 0)%Z (stuck_times stuck_window e))).
Proof using Type.
  intros f k Hf. unfold add_stuck_time. destruct (decide (value_channel e = SalePayment)) as [Hc|Hc].
  - rewrite (bool_decide_eq_true_2 _ Hc), andb_true_r. destruct (stuck_times stuck_window e) as [v|]; simpl.
    + apply (adds_flow true StuckTime v f k Hf) || (rewrite (adds_flow true StuckTime v f k Hf); by rewrite andb_true_r).
    + by destruct (bool_decide _); simpl; rewrite Hf.
  - rewrite (bool_decide_eq_false_2 _ Hc), andb_false_r. simpl. by rewrite Hf.
Qed.

Definition loss_facts (e : NormalizedEvent) (f : EconomicFacts) : EconomicFacts :=
  if honest_loss e then
    let f := add_flow HonestLoss (event_amounts e) f in
    let f := add_flow (if decide (value_channel e = MintPayment) then PaidMintLoss else SecondarySaleLoss) (event_amounts e) f in
    add_stuck_time stuck_window e f
  else f.

Lemma honest_channel e : honest_loss e = true → value_channel e = MintPayment ∨ value_channel e = SalePayment.
Proof using Type. unfold is_honest_loss. intros [_ Hr]%andb_true_iff. destruct (value_channel e); auto; done. Qed.

Lemma adds_loss (e : NormalizedEvent) : adds (loss_facts e) (loss_part e).
Proof using Type.
  destruct (honest_loss e) eqn:E.
  2: { intros f k Hf. unfold loss_facts, loss_part, contribution. rewrite E. specialize (Hf k). revert Hf. generalize (flow_amounts f k). intros x Hx. destruct k; simpl; by rewrite Hx. }
  eapply adds_ext; [| |eapply (adds_compose _ _ _ _ (loss_part e)); [eapply (adds_compose _ _ _ _
      (λ k, when (bool_decide (k = HonestLoss ∨ k = PaidMintLoss ∨ k = SecondarySaleLoss)) (contribution k e)));
      [apply (adds_flow true HonestLoss (event_amounts e))|
       apply (adds_flow true (if decide (value_channel e = MintPayment) then PaidMintLoss else SecondarySaleLoss) (event_amounts e))|]|apply (adds_stuck e)|]];
    [|done| |].
  - intros f. unfold loss_facts. by rewrite E.
  - intros k. unfold contribution. rewrite E. destruct (honest_channel e E) as [-> | ->]; destruct k; simpl; auto.
  - intros k. unfold loss_part, contribution. rewrite E. destruct k; simpl; auto.
Qed.

Lemma adds_movement (e : NormalizedEvent) : adds (add_movement operators e) (movement_part e).
Proof using Type.
  intros f k Hf. unfold add_movement, movement_part, contribution.
  destruct (kind e), (contained operators (to e)), (contained operators (from e)); rewrite ?flow_add; specialize (Hf k); revert Hf;
    generalize (flow_amounts f k); intros x Hx; destruct k; simpl; rewrite ?Hx; done.
Qed.

(** One event adds its contribution to every flow. *)
Lemma event_contribution e : adds (event_facts e) (λ k, contribution k e).
Proof using Type.
  eapply (adds_compose (λ f, add_movement operators e (loss_facts e (add_receipt operators candidate_contract e (add_revenue e f)))) (add_exit_payment operators e)
    (λ k, when (negb (bool_decide (OperatorOutput = k) && bool_decide (value_channel e = ExitPayment))) (contribution k e)) (exit_part e)).
  - eapply (adds_compose (λ f, loss_facts e (add_receipt operators candidate_contract e (add_revenue e f))) (add_movement operators e)
      (λ k, when (bool_decide (k ≠ Funding_ ∧ k ≠ Withdrawal_ ∧ k ≠ RevenueBackflow) &&
                  negb (bool_decide (OperatorOutput = k) && bool_decide (value_channel e = ExitPayment))) (contribution k e)) (movement_part e)).
    + eapply (adds_compose (λ f, add_receipt operators candidate_contract e (add_revenue e f)) (loss_facts e)
        (λ k, if bool_decide (OperatorOutput = k) then receipt_part e k else revenue_part e k) (loss_part e)).
      * eapply (adds_compose (add_revenue e) (add_receipt operators candidate_contract e) (revenue_part e) (receipt_part e)).
        -- apply adds_revenue.
        -- eapply adds_ext; [| |apply (adds_flow (receipt e && match value_channel e with MintPayment | SalePayment | RoyaltyFee => true | _ => false end) OperatorOutput (event_amounts e))]; done.
        -- intros k. destruct k; simpl; auto.
      * apply adds_loss.
      * intros k. unfold revenue_part, receipt_part, loss_part, contribution. destruct k; simpl; auto.
        right. split; [done|]. destruct (value_channel e); simpl; by rewrite ?andb_false_r, ?orb_false_r.
    + apply adds_movement.
    + intros k. unfold movement_part, contribution. destruct k; simpl; auto.
  - eapply adds_ext; [| |apply (adds_flow (bool_decide (value_channel e = ExitPayment) && contained operators (from e)) OperatorOutput (event_amounts e))]; done.
  - intros k. unfold exit_part, contribution. destruct k; simpl; auto. destruct (value_channel e); simpl; rewrite ?andb_false_r, ?orb_false_r; auto.
Qed.
End Contributions.

(** ** Gas of transactions *)

Section Gas.
Context (operators : gset str) (roles : gmap str AddressRole).

Definition transaction_of (e : NormalizedEvent) : ChainId * str := (chain e, tx_id e).

(** The events of a transaction whose fee an operator paid. *)
Definition operator_events (events : list NormalizedEvent) (k : ChainId * str) : list NormalizedEvent :=
  filter (λ e, contained operators (fee_payer e) = true ∧ transaction_of e = k) events.

Definition greatest (f : NormalizedEvent → option Z) (l : list NormalizedEvent) : Z := foldr (λ e m, Z.max (amount (f e)) m) 0%Z l.

(** The event with the highest stage, and the least index among these. *)
Definition leads (l : list NormalizedEvent) (e : NormalizedEvent) : Prop :=
  e ∈ l ∧ ∀ x, x ∈ l → stage_ordinal (event_stage x) < stage_ordinal (event_stage e) ∨
    (event_stage x = event_stage e ∧ (event_index e ≤ event_index x)%Z).

Definition records_event (t : TransactionGas) (e : NormalizedEvent) : Prop :=
  gas_stage_of t = Some (event_stage e) ∧ gas_channel t = Some (value_channel e) ∧ gas_event_index t = event_index e ∧
  gas_transaction t = Some (tx_id e) ∧ gas_payer t = fee_payer e ∧ gas_from_role t = from e ≫= (roles !!.) ∧ gas_to_role t = to e ≫= (roles !!.).

Definition gas_of (l : list NormalizedEvent) (t : TransactionGas) : Prop :=
  gas_native_of t = greatest gas_native l ∧ gas_usd_of t = greatest gas_usd_micros l ∧ ∃ e, leads l e ∧ records_event t e.

Lemma greatest_snoc f l e : greatest f (l ++ [e]) = Z.max (greatest f l) (amount (f e)).
Proof using Type. unfold greatest. induction l as [|x l IH]; simpl; [unfold amount; lia|]. rewrite IH. lia. Qed.

Lemma greatest_nonneg f l : (0 ≤ greatest f l)%Z.
Proof using Type. unfold greatest. induction l; simpl; lia. Qed.

Lemma greatest_perm f l l' : l ≡ₚ l' → greatest f l = greatest f l'.
Proof using Type. unfold greatest. induction 1; simpl; lia. Qed.

Lemma stage_ordinal_inj s s' : stage_ordinal s = stage_ordinal s' → s = s'.
Proof using Type. by destruct s, s'. Qed.

Lemma merge_gas_of l t e :
  (l = [] ∧ t = TransactionGas_default) ∨ gas_of l t → gas_of (l ++ [e]) (merge_gas roles t e).
Proof using Type.
  intros Ht. assert (gas_native_of t = greatest gas_native l ∧ gas_usd_of t = greatest gas_usd_micros l) as [Hn Hu] by (destruct Ht as [[-> ->]|(? & ? & _)]; done).
  assert (∃ x, leads (l ++ [e]) x ∧ records_event (merge_gas roles t e) x) as Hx.
  { unfold merge_gas. destruct (takes_over t e) eqn:Ho.
    - exists e. split; [split; [apply elem_of_app; right; by left|]|done]. intros x [Hx|Hx%list_elem_of_singleton]%elem_of_app; [|subst x; right; done].
      destruct Ht as [[-> _]|(_ & _ & y & [Hy Hlead] & Hs & _ & Hi & _)]; [by apply elem_of_nil in Hx|].
      unfold takes_over in Ho. rewrite Hs in Ho. apply orb_true_iff in Ho. destruct (Hlead x Hx) as [Hlt|[Heq Hle]].
      + left. destruct Ho as [Ho%bool_decide_eq_true|Ho]; [lia|]. apply andb_true_iff in Ho as [Ho%bool_decide_eq_true _]. by rewrite Ho.
      + rewrite Heq. destruct Ho as [Ho%bool_decide_eq_true|Ho]; [by left|]. apply andb_true_iff in Ho as [Ho%bool_decide_eq_true Hlt].
        right. split; [done|]. apply Z.ltb_lt in Hlt. lia.
    - destruct Ht as [[_ ->]|(_ & _ & y & [Hy Hlead] & Hs & Hrest)]; [done|]. exists y. split; [|done]. split; [apply elem_of_app; by left|].
      intros x [Hx|Hx%list_elem_of_singleton]%elem_of_app; [by apply Hlead|subst x]. unfold takes_over in Ho. rewrite Hs in Ho.
      apply orb_false_iff in Ho as [H1%bool_decide_eq_false H2]. destruct Hrest as (_ & Hi & _). rewrite Hi in H2.
      destruct (decide (event_stage e = event_stage y)) as [Heq|Hne].
      + right. split; [done|]. rewrite (bool_decide_eq_true_2 _ Heq) in H2. simpl in H2. lia.
      + left. assert (stage_ordinal (event_stage e) ≠ stage_ordinal (event_stage y)) by (by intros ?%stage_ordinal_inj). lia. }
  split_and!; [| |done]; rewrite greatest_snoc, <- ?Hn, <- ?Hu; unfold merge_gas; by destruct (takes_over t e).
Qed.

(** The map after some events. *)
Definition gas_map_of (events : list NormalizedEvent) (m : gmap (ChainId * str) TransactionGas) : Prop :=
  ∀ k, match m !! k with None => operator_events events k = [] | Some t => gas_of (operator_events events k) t end.

Lemma add_gas_map events m e : gas_map_of events m → gas_map_of (events ++ [e]) (add_gas roles operators m e).
Proof using Type.
  intros Hm k. unfold add_gas, operator_events. rewrite filter_app. destruct (contained operators (fee_payer e)) eqn:Hp.
  - destruct (decide (transaction_of e = k)) as [<-|Hk].
    + rewrite lookup_insert_eq. rewrite filter_cons_True by done. change (filter _ []) with (@nil NormalizedEvent). apply merge_gas_of.
      specialize (Hm (transaction_of e)). unfold transaction_of in Hm at 1. destruct (m !! (chain e, tx_id e)); [by right|by left].
    + rewrite lookup_insert_ne by done. rewrite filter_cons_False by (by intros [_ ?]). change (filter _ []) with (@nil NormalizedEvent). rewrite app_nil_r. apply Hm.
  - rewrite filter_cons_False by (intros [? _]; congruence). change (filter _ []) with (@nil NormalizedEvent). rewrite app_nil_r. apply Hm.
Qed.

(** What a finished map says of two orders of the same events is the same. *)
Definition gas_key (t : TransactionGas) : option GasStage * (Z * Z) := (gas_stage_of t, (gas_native_of t, gas_usd_of t)).

Lemma leads_stage l l' e e' : l ≡ₚ l' → leads l e → leads l' e' → event_stage e = event_stage e'.
Proof using Type.
  intros Hp [He Hl] [He' Hl']. rewrite Hp in He. rewrite <- Hp in He'. specialize (Hl e' He'). specialize (Hl' e He).
  destruct Hl as [Hl|[? _]], Hl' as [Hl'|[? _]]; try done. exfalso. lia.
Qed.

Lemma gas_map_perm events events' m m' :
  events ≡ₚ events' → gas_map_of events m → gas_map_of events' m' → gas_key <$> m = gas_key <$> m'.
Proof using Type.
  intros Hp Hm Hm'. apply map_eq. intros k. rewrite !lookup_fmap. specialize (Hm k). specialize (Hm' k).
  assert (operator_events events k ≡ₚ operator_events events' k) as Hk by (unfold operator_events; by rewrite Hp).
  destruct (m !! k) as [t|], (m' !! k) as [t'|]; simpl; [|exfalso..|done].
  - destruct Hm as (Hn & Hu & e & Hl & Hs & _), Hm' as (Hn' & Hu' & e' & Hl' & Hs' & _). unfold gas_key.
    rewrite Hn, Hu, Hn', Hu', Hs, Hs', (leads_stage _ _ _ _ Hk Hl Hl'), (greatest_perm _ _ _ Hk), (greatest_perm gas_usd_micros _ _ Hk). done.
  - destruct Hm as (_ & _ & e & [He _] & _). rewrite Hk, Hm' in He. by apply elem_of_nil in He.
  - destruct Hm' as (_ & _ & e & [He _] & _). rewrite <- Hk, Hm in He. by apply elem_of_nil in He.
Qed.

(** ** Records *)

(** The record of a transaction tells its gas and its leading event. *)
Definition describes (events : list NormalizedEvent) (r : GasCostRecord) : Prop :=
  let l := operator_events events (cost_chain r, cost_transaction r) in
  cost_gas_native r = greatest gas_native l ∧ cost_gas_usd_micros r = greatest gas_usd_micros l ∧
  ∃ e, leads l e ∧ cost_stage r = event_stage e ∧ cost_channel r = value_channel e ∧ fee_payer e = Some (cost_gas_payer r) ∧
    cost_from_role r = from e ≫= (roles !!.) ∧ cost_to_role r = to e ≫= (roles !!.).

(** What a record adds to the flows. *)
Definition record_contribution (k : Flow) (r : GasCostRecord) : Z * Z :=
  when (bool_decide (k = stage_flow (cost_stage r))) (cost_gas_native r, cost_gas_usd_micros r).

Definition key_contribution (k : Flow) (x : option GasStage * (Z * Z)) : Z * Z :=
  when (bool_decide (Some k = stage_flow <$> x.1)) x.2.

Lemma close_gas_ok events f acc k t :
  gas_of (operator_events events k) t →
  ∃ r, close_gas (f, acc) (k, t) = Some (add_flow (stage_flow (cost_stage r)) (cost_gas_native r, cost_gas_usd_micros r) f, acc ++ [r]) ∧
    describes events r ∧ (cost_chain r, cost_transaction r) = k ∧ gas_key t = (Some (cost_stage r), (cost_gas_native r, cost_gas_usd_micros r)).
Proof using Type.
  intros (Hn & Hu & e & [He Hl] & Hs & Hc & _ & Ht & Hp & Hf & Hto). pose proof He as He'.
  apply list_elem_of_filter in He' as [[Hop Hk] _]. destruct (fee_payer e) as [p|] eqn:Hfee; [|done].
  unfold close_gas; simpl. rewrite Hs, Hc, Ht, Hp. cbn [mbind option_bind].
  match goal with |- context [acc ++ [?r]] => exists r end. split; [done|]. simpl. subst k. simpl. split_and!; [|done|unfold gas_key; rewrite Hs; reflexivity].
  unfold describes; simpl. split_and!; [done..|]. exists e. by split_and!.
Qed.

Lemma close_all events f acc entries :
  settled f → Forall (λ x, gas_of (operator_events events x.1) x.2) entries →
  ∃ f' records, foldM close_gas (f, acc) entries = Some (f', acc ++ records) ∧ Forall (describes events) records ∧
    (λ r, (cost_chain r, cost_transaction r)) <$> records = fst <$> entries ∧ stuck_nft_count f' = stuck_nft_count f ∧
    ∀ k l, Forall non_negative_pair l → flow_amounts f k = total l →
      flow_amounts f' k = total (l ++ (record_contribution k <$> records)) ∧
      record_contribution k <$> records = key_contribution k <$> (gas_key <$> entries.*2).
Proof using Type.
  intros Hset Hall. revert f acc Hset. induction Hall as [|[k t] entries Hx Hall IH]; intros f acc Hset.
  { exists f, []. rewrite app_nil_r. split_and!; [done|constructor|done|done|]. intros k l Hl Hf. by rewrite app_nil_r. }
  destruct (close_gas_ok events f acc k t Hx) as (r & Hr & Hd & Hk & Hkey). cbn [foldM]. rewrite Hr. cbn [mbind option_bind].
  pose proof (adds_flow true (stage_flow (cost_stage r)) (cost_gas_native r, cost_gas_usd_micros r)) as Hadd. cbn beta in Hadd.
  destruct (IH (add_flow (stage_flow (cost_stage r)) (cost_gas_native r, cost_gas_usd_micros r) f) (acc ++ [r])) as (f' & records & -> & Hrec & Hkeys & Hstuck & Hflow).
  { eapply adds_settled; [exact Hadd|done]. }
  exists f', (r :: records). rewrite <- app_assoc. split_and!; [done|by constructor|rewrite !fmap_cons; cbn beta; by rewrite Hk, Hkeys|by rewrite Hstuck|].
  intros k' l Hl Hf. assert (non_negative_pair (record_contribution k' r)) as Hr0.
  { apply when_pair. destruct Hd as (-> & -> & _). split; apply greatest_nonneg. }
  assert (flow_amounts (add_flow (stage_flow (cost_stage r)) (cost_gas_native r, cost_gas_usd_micros r) f) k' = total (l ++ [record_contribution k' r])) as Hf'.
  { rewrite (Hadd f k' Hset), andb_true_r, total_snoc, <- Hf by done. unfold record_contribution. by rewrite (bool_decide_ext _ _ (symmetry_iff eq _ _)). }
  destruct (Hflow k' (l ++ [record_contribution k' r])) as [E1 E2]; [by apply Forall_app; split; [|constructor]|done|].
  split; [rewrite E1, <- app_assoc; done|]. simpl. f_equal; [|done]. rewrite Hkey. unfold record_contribution, key_contribution. simpl.
  f_equal. apply bool_decide_ext. naive_solver.
Qed.
End Gas.

(** ** The analysis *)

Lemma map_to_list_keys {K A} `{Countable K} (m : gmap K A) : (map_to_list m).*1 ≡ₚ elements (dom m).
Proof.
  apply NoDup_Permutation; [apply NoDup_fst_map_to_list|apply NoDup_elements|]. intros k. rewrite elem_of_elements, elem_of_dom, list_elem_of_fmap. split.
  - intros ([k' x] & -> & Hx%elem_of_map_to_list). by exists x.
  - intros [x Hx]. exists (k, x). split; [done|]. by apply elem_of_map_to_list.
Qed.

Lemma compare_flip_laws {A} (cmp : A → A → comparison) : CompareLaws cmp → CompareLaws (λ a b, cmp b a).
Proof.
  intros H. constructor; [intros x; apply (compare_refl cmp)|intros x y; apply (compare_antisym cmp)|].
  intros x y z Hxy Hyz. by apply (compare_trans cmp z y x).
Qed.

#[export] Instance cost_compare_laws : CompareLaws cost_compare.
Proof.
  repeat apply then_with_laws.
  - apply (compare_map_laws cost_gas_usd_micros (λ a b, Z.compare b a)), compare_flip_laws, _.
  - apply (compare_map_laws cost_gas_native (λ a b, Z.compare b a)), compare_flip_laws, _.
  - apply (compare_map_laws (λ r, stage_ordinal (cost_stage r)) Nat.compare), _.
  - apply (compare_map_laws (λ r, ordinal (cost_chain r)) Nat.compare), _.
  - apply (compare_map_laws cost_transaction str_compare), _.
Qed.

Section Economics.
Context (roles : gmap str AddressRole) (holders : list (NftKey * str)) (stuck_window : option (Z * Z)) (candidate_contract : option str).
Abbreviation operators := (economic_operators roles).
Abbreviation honest := (economic_holders roles holders).
Abbreviation part := (contribution operators honest stuck_window candidate_contract).
Abbreviation event_step := (economic_event operators honest stuck_window candidate_contract roles).

(** The NFTs of honest losses. *)
Definition lost_nfts (events : list NormalizedEvent) : gset NftKey :=
  list_to_set (omap nft (filter (λ e, is_honest_loss honest e = true) events)).

Record economic_state (events : list NormalizedEvent) (s : EconomicState) : Prop := {
  state_flows k : flow_amounts (output s) k = total (part k <$> events);
  state_gas : gas_map_of operators roles events (gas_by_transaction s);
  state_stuck : stuck_nfts s = lost_nfts events;
}.

Lemma parts_pairs k events : Forall non_negative_pair (part k <$> events).
Proof using Type. apply Forall_fmap, Forall_forall. intros e _. apply contribution_pair. Qed.

Lemma state_settled events s : economic_state events s → settled (output s).
Proof using Type. intros Hs k. rewrite (state_flows _ _ Hs). apply total_add_zero, parts_pairs. Qed.

Lemma economic_step events s e :
  economic_state events s → ∃ s', event_step s e = Some s' ∧ economic_state (events ++ [e]) s'.
Proof using Type.
  intros Hs. eexists. split; [apply economic_event_total|]. constructor; simpl.
  - intros k. rewrite (event_contribution operators honest stuck_window candidate_contract e _ k (state_settled _ _ Hs)), (state_flows _ _ Hs).
    rewrite fmap_app. simpl. rewrite total_snoc; [done|apply parts_pairs|apply contribution_pair].
  - apply add_gas_map, Hs.
  - rewrite (state_stuck _ _ Hs). unfold lost_nfts. rewrite filter_app, omap_app, list_to_set_app_L, filter_cons.
    destruct (is_honest_loss honest e); simpl; [destruct (nft e); simpl|]; set_solver.
Qed.

Lemma economic_loop events done_ s :
  economic_state done_ s → ∃ s', foldM event_step s events = Some s' ∧ economic_state (done_ ++ events) s'.
Proof using Type.
  revert done_ s. induction events as [|e events IH]; intros d s Hs; [exists s; by rewrite app_nil_r|].
  destruct (economic_step d s e Hs) as (s1 & Hs1 & H1). cbn [foldM]. rewrite Hs1. cbn [mbind option_bind].
  destruct (IH (d ++ [e]) s1 H1) as (s2 & -> & H2). exists s2. split; [done|]. by rewrite <- app_assoc in H2.
Qed.

(** The transactions whose fee an operator paid. *)
Definition operator_transactions (events : list NormalizedEvent) : gset (ChainId * str) :=
  list_to_set (transaction_of <$> filter (λ e, contained operators (fee_payer e) = true) events).

Lemma gas_map_dom events m : gas_map_of operators roles events m → dom m = operator_transactions events.
Proof using Type.
  intros Hm. apply set_eq. intros k. unfold operator_transactions. rewrite elem_of_dom, elem_of_list_to_set, list_elem_of_fmap.
  specialize (Hm k). split.
  - intros [t Ht]. rewrite Ht in Hm. destruct Hm as (_ & _ & e & [He _] & _). apply list_elem_of_filter in He as [[Hp Hk] He].
    exists e. split; [done|]. by apply list_elem_of_filter.
  - intros (e & -> & [Hp He]%list_elem_of_filter). destruct (m !! transaction_of e) eqn:E; [by eexists|].
    assert (e ∈ operator_events operators events (transaction_of e)) as Hin by (by apply list_elem_of_filter). rewrite Hm in Hin. by apply elem_of_nil in Hin.
Qed.

Definition iterates (iterate : gmap (ChainId * str) TransactionGas → list ((ChainId * str) * TransactionGas)) : Prop :=
  ∀ m, iterate m ≡ₚ map_to_list m.

(** The parts of all records for a flow, up to order. *)
Lemma economics_spec iterate events :
  iterates iterate →
  ∃ r m, compute_economics_detailed_iter iterate events roles holders stuck_window candidate_contract = Some r ∧
    gas_map_of operators roles events m ∧
    (∀ k, flow_amounts (economic_facts r) k = total ((part k <$> events) ++ (record_contribution k <$> gas_cost_records r))) ∧
    stuck_nft_count (economic_facts r) = Z.of_nat (size (lost_nfts events)) ∧
    Forall (describes operators roles events) (gas_cost_records r) ∧
    (λ r, (cost_chain r, cost_transaction r)) <$> gas_cost_records r ≡ₚ elements (operator_transactions events) ∧
    StronglySorted (λ a b, cost_compare a b ≠ Gt) (gas_cost_records r) ∧
    ∀ k, record_contribution k <$> gas_cost_records r ≡ₚ key_contribution k <$> (map_to_list (gas_key <$> m)).*2.
Proof using Type.
  intros Hit. unfold compute_economics_detailed_iter.
  destruct (economic_loop events [] {| output := EconomicFacts_default; gas_by_transaction := ∅; stuck_nfts := ∅ |}) as (s & -> & Hs).
  { constructor; [by intros []|intros k; cbn; by rewrite lookup_empty|done]. }
  simpl in Hs. cbn [mbind option_bind]. set (m := gas_by_transaction s) in *. set (f0 := with_stuck_nfts _ _).
  assert (∀ k, flow_amounts f0 k = flow_amounts (output s) k) as Hf0 by (by intros []).
  destruct (close_all operators roles events f0 [] (iterate m)) as (f & records & Hclose & Hd & Hk & Hstuck & Hflow).
  { intros k. rewrite Hf0. apply (state_settled _ _ Hs). }
  { apply Forall_forall. intros [k t] Hkt. rewrite (Hit m) in Hkt. apply elem_of_map_to_list in Hkt. simpl.
    pose proof (state_gas _ _ Hs k) as Hg. fold m in Hg. by rewrite Hkt in Hg. }
  rewrite Hclose. cbn [mbind option_bind]. simpl. eexists _, m. split; [done|]. simpl. pose proof (sort_by_perm cost_compare records) as Hp.
  split; [apply Hs|]. split_and!.
  - intros k. rewrite Hp. apply Hflow; [apply parts_pairs|]. rewrite Hf0. apply Hs.
  - rewrite Hstuck. simpl. by rewrite (state_stuck _ _ Hs).
  - by rewrite Hp.
  - rewrite Hp, Hk, (Hit m). rewrite <- (gas_map_dom events m) by apply Hs. apply map_to_list_keys.
  - apply (sort_by_sorted cost_compare).
  - intros k. rewrite Hp. destruct (Hflow k (part k <$> events) (parts_pairs k events)) as [_ ->]; [rewrite Hf0; apply Hs|].
    rewrite (Hit m), map_to_list_fmap, <- !list_fmap_compose. done.
Qed.
End Economics.


(** A sale by an operator to a buyer that still holds the NFT, with gas, and a deployment. *)
Definition sample_event (index : Z) (kind : EventKind) (tx from to : string) (nft : option NftKey) (payer : option str) (gas value : Z) : NormalizedEvent :=
  {| chain := Ethereum; tx_id := lit tx; event_index := index; timestamp := Some index; block_number := None; kind := kind; channel := None;
     from := Some (lit from); to := Some (lit to); fee_payer := payer; payment_payer := None; payment_recipient := None; nft := nft;
     native_amount := Some value; usd_micros := None; gas_native := Some gas; gas_usd_micros := None; Events.marketplace_fee_native := None;
     Events.marketplace_fee_usd_micros := None |}.

Definition sample_nft : NftKey := {| nft_chain := Ethereum; nft_contract := lit "contract"; nft_token := lit "1" |}.
Definition sample_events : list NormalizedEvent := [
  sample_event 0 Deploy "a" "operator" "contract" None (Some (lit "operator")) 10 0;
  sample_event 1 Cashout "a" "operator" "wallet" None (Some (lit "operator")) 12 5;
  sample_event 2 Sale "b" "operator" "buyer" (Some sample_nft) None 3 7].
Definition sample_roles : gmap str AddressRole := {[lit "operator" := SuspectedOperator; lit "buyer" := LikelyVictim]}.

