(* ===== verification/Candidate.v ===== *)
(** The facts of a candidate ([analysis/analysis/mod.rs], [analyze_candidate] and
    [build_honest_buyers]): the analyses of its evidence put together, and its honest
    buyers. [iterate] is the order in which the map of gas is traversed; [None] is a
    panic. The analysis always returns, its parts agree with each other, and the honest
    buyers are the victims that still hold an NFT. *)

From Stdlib Require Import QArith.
From S2P Require Import Prelude Text CanonicalJson Anchors SortedLists Float Events Graph.
From S2P Require Import TarjanFacts GraphFacts Evidence EvidenceFacts Relations Attribution.
From S2P Require Import AttributionFacts Behavior LayeredFacts DetectorFacts SaturatedSums.
From S2P Require Import Propagation Lifecycle Economics.

#[local] Open Scope nat_scope.

(** [quality::complete_ratio] *)
Definition complete_ratio (numerator denominator : Z) (status : option EvidenceStatus) : option Q :=
  if (denominator =? 0)%Z || negb (bool_decide (status = Some Complete)) then None
  else Some (f64_div (f64_of_Z numerator) (f64_of_Z denominator)).

#[export] Instance BehaviorKind_countable : Countable BehaviorKind.
Proof.
  refine (inj_countable behavior_ordinal (λ n, [WashTrading; PumpAndExit; SybilDistribution; FraudRevenue; Poisoning; LayeredTransfer;
    InventoryConcentration] !! n) _). by intros [].
Defined.

(** ** Honest buyers *)

Record HonestBuyerFact := {
  buyer_address : str;
  buyer_role : AddressRole;
  held_nfts : list NftKey;
  acquisition_transactions : list str;
  paid_native : Z;
  paid_usd_micros : Z;
  first_purchase_timestamp : option Z;
  first_activity_to_first_purchase_seconds : option Z;
  holding_seconds : option Z;
  linked_behaviors : list BehaviorKind;
}.

Record Acquisition := {
  acquired_in : list str;
  acquired_native : Z;
  acquired_usd : Z;
  first_acquired : option Z;
}.

Definition Acquisition_default : Acquisition :=
  {| acquired_in := []; acquired_native := 0; acquired_usd := 0; first_acquired := None |}.

Section HonestBuyers.
Context (honest_roles : gmap str AddressRole).

Definition hold (held : gmap str (list NftKey)) (holder : NftKey * str) : gmap str (list NftKey) :=
  if bool_decide (is_Some (honest_roles !! holder.2)) then
    <[holder.2 := default [] (held !! holder.2) ++ [holder.1]]> held
  else held.

Definition held_pairs (holders : list (NftKey * str)) : gset (str * NftKey) :=
  list_to_set ((λ p, (p.2, p.1)) <$> filter (λ p, is_Some (honest_roles !! p.2)) holders).

(** The purchase of an NFT that its buyer still holds. *)
Definition acquires (pairs : gset (str * NftKey)) (e : NormalizedEvent) : option str :=
  if is_paid_acquisition e then
    nft ← nft e;
    address ← payer e;
    if bool_decide ((address, nft) ∈ pairs) then Some address else None
  else None.

Definition add_acquisition (a : Acquisition) (e : NormalizedEvent) : Acquisition :=
  {| acquired_in := acquired_in a ++ [tx_id e];
     acquired_native := saturating_add128 (acquired_native a) (amount (native_amount e));
     acquired_usd := saturating_add128 (acquired_usd a) (amount (usd_micros e));
     first_acquired := min_option (first_acquired a) (timestamp e) |}.

Definition acquire (pairs : gset (str * NftKey)) (m : gmap str Acquisition) (e : NormalizedEvent) : gmap str Acquisition :=
  match acquires pairs e with
  | Some address => <[address := add_acquisition (default Acquisition_default (m !! address)) e]> m
  | None => m
  end.

Definition link (kind : BehaviorKind) (m : gmap str (gset BehaviorKind)) (address : str) : gmap str (gset BehaviorKind) :=
  if bool_decide (is_Some (honest_roles !! address)) then <[address := {[kind]} ∪ default ∅ (m !! address)]> m else m.

Definition link_instance (m : gmap str (gset BehaviorKind)) (i : BehaviorInstance) : gmap str (gset BehaviorKind) :=
  foldl (link (behavior_kind i)) m (linked_buyers i ++ instance_addresses i).

(** A [BTreeSet]'s elements in order. *)
Definition kinds_in_order (s : gset BehaviorKind) : list BehaviorKind :=
  sort_by (λ a b, Nat.compare (behavior_ordinal a) (behavior_ordinal b)) (elements s).

(** The entry of one address; each address occurs once, so removing from the maps is
    looking up. *)
Definition honest_buyer (held : gmap str (list NftKey)) (acquisitions : gmap str Acquisition) (linked : gmap str (gset BehaviorKind))
  (first_activity_timestamp : option Z) (analysis_timestamp : Z) (entry : str * AddressRole) : option HonestBuyerFact :=
  let '(address, role) := entry in
  held_nfts ← held !! address;
  let acquisition := default Acquisition_default (acquisitions !! address) in
  let first_purchase := first_acquired acquisition in
  Some {|
    buyer_address := address;
    buyer_role := role;
    held_nfts := sort_dedup nft_key_compare held_nfts;
    acquisition_transactions := sort_dedup str_compare (acquired_in acquisition);
    paid_native := acquired_native acquisition;
    paid_usd_micros := acquired_usd acquisition;
    first_purchase_timestamp := first_purchase;
    first_activity_to_first_purchase_seconds :=
      non_negative (first ← first_activity_timestamp; purchase ← first_purchase; checked_sub64 purchase first);
    holding_seconds := non_negative (purchase ← first_purchase; checked_sub64 analysis_timestamp purchase);
    linked_behaviors := kinds_in_order (default ∅ (linked !! address)) |}.
End HonestBuyers.

Definition build_honest_buyers (events : list NormalizedEvent) (holders : list (NftKey * str)) (roles : gmap str AddressRole)
  (instances : list BehaviorInstance) (first_activity_timestamp : option Z) (analysis_timestamp : Z) : list HonestBuyerFact :=
  let honest_roles := filter (λ p, is_honest p.2 = true) roles in
  let held := foldl (hold honest_roles) ∅ holders in
  let acquisitions := foldl (acquire (held_pairs honest_roles holders)) ∅ events in
  let linked := foldl (link_instance honest_roles) ∅ instances in
  omap (honest_buyer held acquisitions linked first_activity_timestamp analysis_timestamp) (btree_entries honest_roles).

(** ** The candidate *)

Record CandidateFacts := {
  fact_candidate : ContractKey;
  fact_analysis_timestamp : Z;
  lifecycle : LifecycleFacts;
  propagation : PropagationFacts;
  economics : EconomicFacts;
  fact_gas_cost_records : list GasCostRecord;
  behaviors : BehaviorFacts;
  behavior_instances : list BehaviorInstance;
  address_count : Z;
  fact_nft_count : Z;
  fact_transaction_count : Z;
  event_count : Z;
  fact_event_kind_counts : gmap str Z;
  address_attributions : gmap str AddressAttribution;
  honest_buyers : list HonestBuyerFact;
  fact_quality : EvidenceQuality;
}.

Definition history_complete (q : EvidenceQuality) : bool :=
  match histories q with Some Complete | Some Empty => true | _ => false end.

Definition analyze_candidate (iterate : gmap (ChainId * str) TransactionGas → list ((ChainId * str) * TransactionGas))
  (bundle : EvidenceBundle) (analysis_timestamp : Z) : option CandidateFacts :=
  let events := events bundle in
  let lifecycle := build_lifecycle (Evidence.deployment_timestamp bundle) (duplicate_content_timestamp bundle) events
    (history_complete (quality bundle)) analysis_timestamp in
  graph ← build_filtered events is_nft_propagation;
  components ← strongly_connected_components graph;
  attribution ← attribute_addresses_detailed (candidate bundle) events (controllers bundle) (holders bundle);
  let propagation := analyze events (roles attribution) (holders bundle) in
  behavior_analysis ← detect_behaviors events graph (roles attribution) components;
  economics_analysis ← compute_candidate_economics_detailed_at iterate (key_address (candidate bundle)) events (roles attribution)
    (holders bundle) (first_activity_timestamp lifecycle) analysis_timestamp;
  let honest_buyers := build_honest_buyers events (holders bundle) (roles attribution) (instances behavior_analysis)
    (first_activity_timestamp lifecycle) analysis_timestamp in
  Some {|
    fact_candidate := candidate bundle;
    fact_analysis_timestamp := analysis_timestamp;
    lifecycle := lifecycle;
    propagation := propagation_facts propagation;
    economics := economic_facts economics_analysis;
    fact_gas_cost_records := gas_cost_records economics_analysis;
    behaviors := facts behavior_analysis;
    behavior_instances := instances behavior_analysis;
    address_count := Z.of_nat (size (roles attribution));
    fact_nft_count := nft_count propagation;
    fact_transaction_count := transaction_count propagation;
    event_count := Z.of_nat (length events);
    fact_event_kind_counts := event_kind_counts propagation;
    address_attributions := records attribution;
    honest_buyers := honest_buyers;
    fact_quality := quality bundle |}.


(** ** Honest buyers *)

Section Buyers.
Context (honest_roles : gmap str AddressRole).
Abbreviation honest a := (is_Some (honest_roles !! a)).

Lemma held_lookup holders a :
  foldl (hold honest_roles) ∅ holders !! a =
    if decide (honest a ∧ a ∈ holders.*2) then Some (fst <$> filter (λ p, p.2 = a) holders) else None.
Proof using Type.
  induction holders as [|[n b] holders IH] using rev_ind.
  { simpl. rewrite decide_False; [apply lookup_empty|]. by intros [_ ?%elem_of_nil]. }
  rewrite foldl_snoc. unfold hold at 1. rewrite filter_app, !fmap_app, filter_cons. simpl.
  assert (∀ x, x ∈ holders.*2 ++ [b] ↔ x ∈ holders.*2 ∨ x = b) as Hin by (intros x; by rewrite elem_of_app, list_elem_of_singleton).
  destruct (decide (a = b)) as [->|Hne].
  - rewrite (decide_True (P := b = b)) by done. simpl. case_bool_decide as Hb.
    + rewrite lookup_insert_eq, decide_True by (split; [done|apply Hin; by right]). rewrite IH. do 2 f_equal.
      destruct (decide (honest b ∧ b ∈ holders.*2)) as [_|Hno]; [done|]. simpl.
      destruct (filter (λ p, p.2 = b) holders) as [|p l] eqn:E; [done|]. exfalso. apply Hno. split; [done|].
      assert (p ∈ filter (λ p, p.2 = b) holders) as Hp by (rewrite E; by left). apply list_elem_of_filter in Hp as [<- Hp]. by apply list_elem_of_fmap_2.
    + rewrite IH. rewrite !decide_False by naive_solver. done.
  - rewrite (decide_False (P := b = a)) by congruence. simpl. rewrite app_nil_r.
    assert ((if bool_decide (honest b) then <[b:=default [] (foldl (hold honest_roles) ∅ holders !! b) ++ [n]]> (foldl (hold honest_roles) ∅ holders)
      else foldl (hold honest_roles) ∅ holders) !! a = foldl (hold honest_roles) ∅ holders !! a) as -> by (case_bool_decide; [by rewrite lookup_insert_ne|done]).
    rewrite IH. apply decide_ext. rewrite Hin. naive_solver.
Qed.

Lemma elem_of_held_pairs holders a n : (a, n) ∈ held_pairs honest_roles holders ↔ honest a ∧ (n, a) ∈ holders.
Proof using Type.
  unfold held_pairs. rewrite elem_of_list_to_set, list_elem_of_fmap. setoid_rewrite list_elem_of_filter. split.
  - by intros ([n' a'] & [= -> ->] & Ha & Hin).
  - intros [Ha Hin]. by exists (n, a).
Qed.

(** The acquisitions of an address. *)
Definition acquired (pairs : gset (str * NftKey)) (events : list NormalizedEvent) (a : str) : list NormalizedEvent :=
  filter (λ e, acquires pairs e = Some a) events.

Record acquisition_of (l : list NormalizedEvent) (q : Acquisition) : Prop := {
  acq_transactions : acquired_in q = tx_id <$> l;
  acq_paid : (acquired_native q, acquired_usd q) = total (event_amounts <$> l);
  acq_first : earliest (at_time (λ _, true) l) (first_acquired q);
}.

Lemma event_amounts_pairs (l : list NormalizedEvent) : Forall non_negative_pair (event_amounts <$> l).
Proof using Type. apply Forall_fmap, Forall_forall. intros e _. apply event_amounts_pair. Qed.

Lemma add_acquisition_of l q e : acquisition_of l q → acquisition_of (l ++ [e]) (add_acquisition q e).
Proof using Type.
  intros [Ht Hp Hf]. constructor; simpl.
  - by rewrite fmap_app, Ht.
  - rewrite fmap_app. simpl. rewrite total_snoc, <- Hp by (apply event_amounts_pairs || apply event_amounts_pair). done.
  - change (min_option (first_acquired q) (timestamp e)) with (minimum_time (first_acquired q) (timestamp e)) || idtac.
    apply (earliest_iff (λ t, at_time (λ _, true) l t ∨ timestamp e = Some t)).
    { intros t. unfold at_time. setoid_rewrite elem_of_app. setoid_rewrite list_elem_of_singleton. naive_solver. }
    assert (∀ o o', min_option o o' = minimum_time o o') as -> by (by intros [] []). apply earliest_minimum; [done|].
    destruct (timestamp e) as [t|]; simpl; [|done]. split; [done|]. intros u [= ->]. lia.
Qed.

Lemma acquisitions_lookup pairs events a :
  acquisition_of (acquired pairs events a) (default Acquisition_default (foldl (acquire pairs) ∅ events !! a)).
Proof using Type.
  induction events as [|e events IH] using rev_ind.
  { simpl. rewrite lookup_empty. constructor; [done..|]. intros t (e & He & _). by apply elem_of_nil in He. }
  rewrite foldl_snoc. unfold acquired, acquire at 1. rewrite filter_app, filter_cons. destruct (acquires pairs e) as [b|] eqn:E.
  - destruct (decide (a = b)) as [->|Hne].
    + rewrite (decide_True (P := Some b = Some b)), lookup_insert_eq by done. simpl. by apply add_acquisition_of.
    + rewrite (decide_False (P := Some b = Some a)), lookup_insert_ne by congruence. change (filter _ []) with (@nil NormalizedEvent). by rewrite app_nil_r.
  - rewrite (decide_False (P := None = Some a)) by done. change (filter _ []) with (@nil NormalizedEvent). by rewrite app_nil_r.
Qed.

Lemma linked_lookup instances a k :
  k ∈ default ∅ (foldl (link_instance honest_roles) ∅ instances !! a) ↔
    honest a ∧ ∃ i, i ∈ instances ∧ behavior_kind i = k ∧ (a ∈ linked_buyers i ∨ a ∈ instance_addresses i).
Proof using Type.
  assert (∀ kind l m, k ∈ default ∅ (foldl (link honest_roles kind) m l !! a) ↔ k ∈ default ∅ (m !! a) ∨ (honest a ∧ k = kind ∧ a ∈ l)) as Hlink.
  { intros kind l. induction l as [|b l IH]; intros m; simpl; [rewrite elem_of_nil; tauto|]. rewrite IH, elem_of_cons. unfold link.
    case_bool_decide as Hb; [|naive_solver]. destruct (decide (a = b)) as [->|Hne].
    - rewrite lookup_insert_eq. simpl. rewrite elem_of_union, elem_of_singleton. naive_solver.
    - rewrite lookup_insert_ne by done. naive_solver. }
  assert (∀ m, k ∈ default ∅ (foldl (link_instance honest_roles) m instances !! a) ↔ k ∈ default ∅ (m !! a) ∨
    (honest a ∧ ∃ i, i ∈ instances ∧ behavior_kind i = k ∧ (a ∈ linked_buyers i ∨ a ∈ instance_addresses i))) as Hall.
  { induction instances as [|i instances IH]; intros m; simpl.
    - split; [by left|]. by intros [?|(_ & i & ?%elem_of_nil & _)].
    - rewrite IH. unfold link_instance. rewrite Hlink, elem_of_app. clear. setoid_rewrite elem_of_cons. split.
      + intros [[?|(Ha & -> & Hin)]|(Ha & j & Hj & Hrest)]; [by left|right; split; [done|]; exists i; auto|right; split; [done|]; exists j; auto].
      + intros [?|(Ha & j & [->|Hj] & Hk & Hin)]; [by do 2 left|left; right; auto|right; split; [done|]; by exists j]. }
  rewrite Hall, lookup_empty. simpl. set_solver.
Qed.
End Buyers.

(** ** The specification of an honest buyer *)

Section HonestBuyer.
Context (events : list NormalizedEvent) (holders : list (NftKey * str)) (instances : list BehaviorInstance).
Context (role_of : str → option AddressRole).

(** The purchases of an address of NFTs that it still holds. *)
Definition is_purchase (a : str) (e : NormalizedEvent) : bool :=
  is_paid_acquisition e && bool_decide (payer e = Some a) &&
  match nft e with Some n => bool_decide ((n, a) ∈ holders) | None => false end.

Record buyer_ok (b : HonestBuyerFact) : Prop := {
  buyer_ok_role : role_of (buyer_address b) = Some (buyer_role b) ∧ is_honest (buyer_role b) = true;
  buyer_ok_held : StronglySorted (λ x y, nft_key_compare x y = Lt) (held_nfts b) ∧
    ∀ n, n ∈ held_nfts b ↔ (n, buyer_address b) ∈ holders;
  buyer_ok_transactions : StronglySorted (λ x y, str_compare x y = Lt) (acquisition_transactions b) ∧
    ∀ t, t ∈ acquisition_transactions b ↔ ∃ e, e ∈ events ∧ is_purchase (buyer_address b) e = true ∧ tx_id e = t;
  buyer_ok_paid : (paid_native b, paid_usd_micros b) =
    total (event_amounts <$> filter (λ e, is_purchase (buyer_address b) e = true) events);
  buyer_ok_first : earliest (at_time (is_purchase (buyer_address b)) events) (first_purchase_timestamp b);
  buyer_ok_linked k : k ∈ linked_behaviors b ↔
    ∃ i, i ∈ instances ∧ behavior_kind i = k ∧ (buyer_address b ∈ linked_buyers i ∨ buyer_address b ∈ instance_addresses i);
}.
End HonestBuyer.

Section BuildBuyers.
Context (events : list NormalizedEvent) (holders : list (NftKey * str)) (roles : gmap str AddressRole) (instances : list BehaviorInstance).
Context (first now : Z) (first_activity : option Z).
Abbreviation honest_roles := (filter (λ p : str * AddressRole, is_honest p.2 = true) roles).
Abbreviation held := (foldl (hold honest_roles) ∅ holders).
Abbreviation acquisitions := (foldl (acquire (held_pairs honest_roles holders)) ∅ events).
Abbreviation linked := (foldl (link_instance honest_roles) ∅ instances).
Abbreviation buyer := (honest_buyer held acquisitions linked first_activity now).

Lemma honest_lookup a r : honest_roles !! a = Some r ↔ roles !! a = Some r ∧ is_honest r = true.
Proof using Type. by rewrite map_lookup_filter_Some. Qed.

Lemma acquires_purchase a e : is_Some (honest_roles !! a) → acquires (held_pairs honest_roles holders) e = Some a ↔ is_purchase holders a e = true.
Proof using Type.
  intros Ha. unfold acquires, is_purchase. destruct (is_paid_acquisition e); [|done]. destruct (nft e) as [n|]; simpl; [|by rewrite andb_false_r].
  destruct (payer e) as [b|]; simpl; [|done]. rewrite andb_true_iff, !bool_decide_eq_true. case_bool_decide as Hb.
  - split; [intros [= ->]|by intros [[= ->] _]]. split; [done|]. by apply elem_of_held_pairs in Hb as [_ Hb].
  - split; [done|]. intros [[= ->] Hin]. exfalso. apply Hb, elem_of_held_pairs. done.
Qed.

Lemma honest_buyer_ok a r b :
  roles !! a = Some r → is_honest r = true → buyer (a, r) = Some b →
  buyer_address b = a ∧ buyer_ok events holders instances (roles !!.) b.
Proof using Type.
  intros Hr Hh. assert (is_Some (honest_roles !! a)) as Ha by (exists r; by apply honest_lookup). unfold honest_buyer. rewrite held_lookup.
  destruct (decide _) as [[_ Hheld]|]; [|done]. cbn [mbind option_bind]. intros [= <-]. split; [done|].
  pose proof (acquisitions_lookup (held_pairs honest_roles holders) events a) as [Ht Hp Hf].
  assert (acquired (held_pairs honest_roles holders) events a = filter (λ e, is_purchase holders a e = true) events) as Hacq.
  { apply list_filter_iff. intros e. by apply acquires_purchase. }
  rewrite Hacq in Ht, Hp, Hf. constructor; cbn [buyer_address buyer_role held_nfts acquisition_transactions paid_native paid_usd_micros first_purchase_timestamp linked_behaviors].
  - done.
  - destruct (sort_dedup_strict nft_key_compare (fst <$> filter (λ p, p.2 = a) holders)) as [Hs Hin]. split; [done|].
    intros n. rewrite Hin, list_elem_of_fmap. setoid_rewrite list_elem_of_filter. split; [by intros ([n' a'] & -> & <- & H)|intros H; by exists (n, a)].
  - destruct (sort_dedup_strict str_compare (acquired_in (default Acquisition_default (acquisitions !! a)))) as [Hs Hin]. split; [done|].
    intros t. rewrite Hin, Ht, list_elem_of_fmap. setoid_rewrite list_elem_of_filter. naive_solver.
  - done.
  - eapply earliest_iff; [|exact Hf]. intros t. unfold at_time. setoid_rewrite list_elem_of_filter. naive_solver.
  - intros k. unfold kinds_in_order. rewrite (sort_by_perm _ _), elem_of_elements, linked_lookup. naive_solver.
Qed.

Lemma elem_of_btree {V} (m : gmap str V) a x : (a, x) ∈ btree_entries m ↔ m !! a = Some x.
Proof using Type. unfold btree_entries. by rewrite (sort_by_perm _ _), elem_of_map_to_list. Qed.

Lemma btree_sorted {V} (m : gmap str V) : StronglySorted (λ a b, str_compare a b = Lt) (btree_entries m).*1.
Proof using Type.
  set (l := btree_entries m). assert (StronglySorted (λ a b, str_compare a b ≠ Gt) l.*1) as Hs.
  { unfold l, btree_entries. assert (CompareLaws (λ a b : str * V, str_compare a.1 b.1)) as Hlaws by apply (compare_map_laws fst str_compare), _.
    pose proof (sort_by_sorted (λ a b : str * V, str_compare a.1 b.1) (map_to_list m)) as Hsort.
    induction Hsort as [|x s Hs IH Hx]; [constructor|]. rewrite fmap_cons. constructor; [done|]. by apply Forall_fmap. }
  assert (NoDup l.*1) as Hnd by (unfold l, btree_entries; rewrite (sort_by_perm _ _); apply NoDup_fst_map_to_list).
  clearbody l. induction Hs as [|x s Hs IH Hx]; [constructor|]. apply NoDup_cons in Hnd as [Hn Hnd]. constructor; [by apply IH|].
  rewrite Forall_forall in *. intros y Hy. specialize (Hx y Hy). destruct (str_compare x y) eqn:E; [|done|done].
  apply str_compare_eq in E as ->. done.
Qed.

Lemma omap_keys {A B} (f : str * A → option B) (key : B → str) (l : list (str * A)) :
  (∀ p b, p ∈ l → f p = Some b → key b = p.1) → key <$> omap f l = fst <$> filter (λ p, is_Some (f p)) l.
Proof using Type.
  induction l as [|p l IH]; intros Hk; [done|]. rewrite filter_cons. cbn [omap list_omap]. destruct (f p) as [b|] eqn:E.
  - rewrite decide_True by (by eexists). rewrite !fmap_cons, (Hk p b) by (done || by left). f_equal. apply IH. intros q c Hq. apply Hk. by right.
  - rewrite decide_False by (by intros []). apply IH. intros q c Hq. apply Hk. by right.
Qed.

Lemma build_honest_buyers_ok :
  let l := build_honest_buyers events holders roles instances first_activity now in
  StronglySorted (λ a b, str_compare a b = Lt) (buyer_address <$> l) ∧
  (∀ a, a ∈ buyer_address <$> l ↔ (∃ r, roles !! a = Some r ∧ is_honest r = true) ∧ a ∈ holders.*2) ∧
  Forall (buyer_ok events holders instances (roles !!.)) l.
Proof using Type.
  intros l. subst l. unfold build_honest_buyers.
  assert (∀ p b, p ∈ btree_entries honest_roles → buyer p = Some b → buyer_address b = p.1 ∧ buyer_ok events holders instances (roles !!.) b) as Hb.
  { intros [a r] b Hin%elem_of_btree Hb. apply honest_lookup in Hin as [Hr Hh]. by apply (honest_buyer_ok a r b). }
  rewrite (omap_keys buyer buyer_address) by (intros p b Hin E; by apply (Hb p b)). split_and!.
  - pose proof (btree_sorted honest_roles) as Hs. revert Hs. generalize (btree_entries honest_roles). intros l Hs.
    induction l as [|p l IH]; [constructor|]. apply StronglySorted_inv in Hs as [Hs Hp]. rewrite filter_cons. case_decide; [|by apply IH].
    rewrite fmap_cons. constructor; [by apply IH|]. rewrite Forall_forall in *. intros a (q & -> & [_ Hq]%list_elem_of_filter)%list_elem_of_fmap.
    apply Hp, list_elem_of_fmap_2, Hq.
  - intros a. rewrite list_elem_of_fmap. setoid_rewrite list_elem_of_filter.
    assert (∀ r, is_Some (honest_roles !! a) → is_Some (buyer (a, r)) ↔ a ∈ holders.*2) as Hsome.
    { intros r Ha. unfold honest_buyer. rewrite held_lookup. destruct (decide _) as [[_ Hin]|Hno]; simpl.
      - split; [done|by eexists].
      - split; [by intros []|]. intros Hin. exfalso. by apply Hno. }
    split.
    + intros ([a' r] & -> & Hs & Hin%elem_of_btree). simpl. split; [exists r; by apply honest_lookup|]. apply (Hsome r); [by eexists|done].
    + intros [(r & Hr & Hh) Hin]. exists (a, r). assert (honest_roles !! a = Some r) as Ha by (by apply honest_lookup). split; [done|].
      split; [apply (Hsome r); [by eexists|done]|by apply elem_of_btree].
  - apply Forall_forall. intros b Hin. apply list_elem_of_omap in Hin as (p & Hp & E). by apply (Hb p b).
Qed.

(** The count of the propagation summary is the number of honest buyers. *)
Lemma holding_count :
  Z.of_nat (length (build_honest_buyers events holders roles instances first_activity now)) =
    currently_holding_victim_address_count (initial_facts roles holders).
Proof using Type.
  destruct build_honest_buyers_ok as (Hs & Hin & _). set (l := build_honest_buyers _ _ _ _ _ _) in *. simpl. f_equal.
  rewrite <- (length_fmap buyer_address l). set (X := list_to_set _). rewrite <- (size_list_to_set (C := gset str)).
  2: { by apply (strictly_sorted_NoDup str_compare). }
  f_equal. apply set_eq. intros a. unfold X. rewrite !elem_of_list_to_set, Hin, list_elem_of_filter, elem_of_addresses_with. done.
Qed.
End BuildBuyers.

(** C25: The analysis of any evidence returns, whatever the traversal order of its hash
    map. Every mentioned address has a record, and is counted; the counts of the
    behaviours are the numbers of their instances. The honest buyers are exactly the
    victims that hold an NFT, in order, as many as the propagation summary says; each
    lists the NFTs it holds, its purchases of these with their saturating total and
    first time, and the kinds of the behaviours that involve it. *)
Theorem candidate_analyzed iterate bundle now :
  iterates iterate →
  ∃ f, analyze_candidate iterate bundle now = Some f ∧
    let role_of a := attributed_role <$> address_attributions f !! a in
    (∀ a, is_Some (role_of a) ↔ mentioned (events bundle) (controllers bundle) (holders bundle) a) ∧
    address_count f = Z.of_nat (size (address_attributions f)) ∧
    (∀ k, fact_count (behaviors f) k = of_kind k (behavior_instances f)) ∧
    Z.of_nat (length (honest_buyers f)) = currently_holding_victim_address_count (propagation f) ∧
    StronglySorted (λ a b, str_compare a b = Lt) (buyer_address <$> honest_buyers f) ∧
    (∀ a, a ∈ buyer_address <$> honest_buyers f ↔ (∃ r, role_of a = Some r ∧ is_honest r = true) ∧ a ∈ (holders bundle).*2) ∧
    Forall (buyer_ok (events bundle) (holders bundle) (behavior_instances f) role_of) (honest_buyers f).
Proof.
  intros Hit. unfold analyze_candidate.
  destruct (attribution_result (candidate bundle) (events bundle) (controllers bundle) (holders bundle)) as (result & Hattr & [Hroles Hrecords _ _]).
  destruct (detectors_ok (events bundle) (roles result)) as (g & cs & a & -> & Hcs & Hdet & _ & Hcount & _).
  cbn [mbind option_bind]. rewrite Hcs. cbn [mbind option_bind]. rewrite Hattr. cbn [mbind option_bind]. rewrite Hdet. cbn [mbind option_bind].
  set (life := build_lifecycle _ _ _ _ _).
  destruct (economics_spec (roles result) (holders bundle) ((λ first, (first, now)) <$> first_activity_timestamp life)
    (Some (key_address (candidate bundle))) iterate (events bundle) Hit) as (r & _ & Hr & _).
  unfold compute_candidate_economics_detailed_at. rewrite Hr. cbn [mbind option_bind]. eexists. split; [done|].
  cbn [address_attributions address_count behaviors behavior_instances honest_buyers propagation].
  destruct (build_honest_buyers_ok (events bundle) (holders bundle) (roles result) (instances a) now (first_activity_timestamp life)) as (B1 & B2 & B3).
  split_and!.
  - intros x. rewrite Hrecords. specialize (Hroles x). destruct (roles result !! x); naive_solver.
  - f_equal. rewrite <- !size_dom. f_equal. apply set_eq. intros x. rewrite !elem_of_dom, <- Hrecords. by rewrite fmap_is_Some.
  - done.
  - rewrite holding_count. unfold analyze. simpl.
    pose proof (foldl_summarized (roles result) (holders bundle) (events bundle) _ [] (initial_summarized (roles result) (holders bundle))) as Hs.
    pose proof (sum_frozen _ _ _ _ Hs) as Hf. unfold choose_receiver. destruct (max_by _ _) as [[x [n u]]|]; simpl; by injection Hf.
  - done.
  - intros x. rewrite B2. by setoid_rewrite Hrecords.
  - eapply Forall_impl; [exact B3|]. intros b [H1 H2 H3 H4 H5 H6]. constructor; try done. by rewrite Hrecords.
Qed.

Definition sample_bundle : EvidenceBundle := {|
  candidate := {| key_chain := Ethereum; key_address := lit "contract" |}; Evidence.deployment_timestamp := Some 0%Z;
  duplicate_content_timestamp := None; events := sample_events; holders := [(sample_nft, lit "buyer")]; controllers := [lit "operator"];
  Evidence.relation_verifications := []; provenance := []; quality := example_quality |}.

Lemma candidate_analyzed_witness :
  iterates map_to_list ∧ ∃ f, analyze_candidate map_to_list sample_bundle 9 = Some f ∧
    Z.of_nat (length (honest_buyers f)) = currently_holding_victim_address_count (propagation f) ∧
    lit "buyer" ∈ buyer_address <$> honest_buyers f.
Proof.
  assert (iterates map_to_list) as Hit by (by intros m). split; [done|].
  destruct (candidate_analyzed map_to_list sample_bundle 9 Hit) as (f & Hf & _ & _ & _ & Hlen & _ & Hin & _).
  exists f. split; [exact Hf|]. split; [exact Hlen|]. apply Hin. split; [|vm_compute; by left].
  assert ((λ f, attributed_role <$> address_attributions f !! lit "buyer") <$> analyze_candidate map_to_list sample_bundle 9 = Some (Some LikelyVictim)) as E
    by (vm_compute; reflexivity).
  rewrite Hf in E. cbn [fmap option_fmap option_map] in E. apply (inj Some) in E. exists LikelyVictim. split; [exact E|reflexivity].
Defined.
