(* ===== verification/Reducer.v ===== *)
(** Reduction of duplicate hits to relations between seeds and candidates
    ([analysis/dedup/reducer.rs], [analysis/dedup/mod.rs], the catalog of
    [analysis/resident/store.rs]). [iterate] is the order in which a hash map is
    traversed; [None] is a panic. *)

From S2P Require Import Prelude Text CanonicalJson Anchors SortedLists Events Evidence.
From S2P Require Import EvidenceFacts Relations Attribution.

(** ** The catalog *)

Record ContractRecord := {
  record_chain : ChainId;
  record_address : str;
  record_nft_count : Z;
  name_value_id : option Z;
  metadata_profile_id : option Z;
  name_owner_shard : option Z;
  metadata_owner_shard : option Z;
}.

Definition ContractCatalog : Type := list ContractRecord.

Definition record_key (r : ContractRecord) : ContractKey := {| key_chain := record_chain r; key_address := record_address r |}.

(** [key]: an index out of range panics. *)
Definition catalog_key (catalog : ContractCatalog) (id : Z) : option ContractKey := record_key <$> catalog !! Z.to_nat id.

(** [find]: a binary search in the order of the keys. *)
Definition catalog_find (catalog : ContractCatalog) (key : ContractKey) : option (option Z) :=
  r ← binary_search_by (λ record, contract_key_compare (record_key record) key) catalog;
  Some (match r with inl index => Some (Z.of_nat index mod 2 ^ 32)%Z | inr _ => None end).

(** ** Hits and relations *)

(** [F] stands for the [f64] values of the evidence, none of them NaN or a negative
    zero, so that [==] and [total_cmp] agree. *)
Class FloatOrder (F : Type) := { total_cmp : F → F → comparison; total_cmp_laws :: CompareLaws total_cmp; total_cmp_eq :: CompareEq total_cmp }.

Record DedupHit (F : Type) := {
  hit_seed_id : Z;
  seed_contract : Z;
  candidate_contract : Z;
  hit_dimension : Dimension;
  hit_selection : NftSelection;
  hit_evidence : MatchEvidence F;
}.
Arguments hit_seed_id {F} _.
Arguments seed_contract {F} _.
Arguments candidate_contract {F} _.
Arguments hit_dimension {F} _.
Arguments hit_selection {F} _.
Arguments hit_evidence {F} _.

Definition dimension_ordinal (d : Dimension) : nat :=
  match d with NameDimension => 0 | TokenUriDimension => 1 | ImageUriDimension => 2 | MetadataDimension => 3 end.

Section Reducer.
Context {F : Type} `{EqDecision F} `{FloatOrder F} `{UnstableSort}.
Implicit Types (h : DedupHit F) (r : SeedCandidateRelation F).

Abbreviation RelationMap := (gmap (Z * Z) (SeedCandidateRelation F)).

Record RelationAccumulator := { catalog : option ContractCatalog; relations : RelationMap }.

Definition new_accumulator (c : ContractCatalog) : RelationAccumulator := {| catalog := Some c; relations := ∅ |}.

Definition relation_key (r : SeedCandidateRelation F) : Z * Z := (relation_seed_id r, relation_candidate_id r).

(** The relation that a first hit makes. *)
Definition relation_of_hit (c : ContractCatalog) h : option (SeedCandidateRelation F) :=
  seed ← catalog_key c (seed_contract h);
  candidate ← catalog_key c (candidate_contract h);
  Some {| relation_seed_id := hit_seed_id h; relation_seed := seed; relation_candidate_id := candidate_contract h;
          relation_candidate := candidate; dimensions := dimension_bit (hit_dimension h); selection := hit_selection h;
          relation_evidence := [hit_evidence h]; incomplete := false |}.

Definition merge_hit r h : SeedCandidateRelation F :=
  {| relation_seed_id := relation_seed_id r; relation_seed := relation_seed r; relation_candidate_id := relation_candidate_id r;
     relation_candidate := relation_candidate r; dimensions := Z.lor (dimensions r) (dimension_bit (hit_dimension h));
     selection := union_assign (selection r) (hit_selection h); relation_evidence := relation_evidence r ++ [hit_evidence h];
     incomplete := incomplete r |}.

Definition push_hit (a : RelationAccumulator) h : option RelationAccumulator :=
  c ← catalog a;
  let key := (hit_seed_id h, candidate_contract h) in
  r ← (match relations a !! key with
       | None => relation_of_hit c h
       | Some existing => Some (merge_hit existing h)
       end);
  Some {| catalog := catalog a; relations := <[key := r]> (relations a) |}.

Definition merge_relation (existing r : SeedCandidateRelation F) : SeedCandidateRelation F :=
  {| relation_seed_id := relation_seed_id existing; relation_seed := relation_seed existing;
     relation_candidate_id := relation_candidate_id existing; relation_candidate := relation_candidate existing;
     dimensions := Z.lor (dimensions existing) (dimensions r); selection := union_assign (selection existing) (selection r);
     relation_evidence := relation_evidence existing ++ relation_evidence r; incomplete := incomplete existing || incomplete r |}.

Definition push_relation (a : RelationAccumulator) r : RelationAccumulator :=
  {| catalog := catalog a;
     relations := <[relation_key r := match relations a !! relation_key r with None => r | Some existing => merge_relation existing r end]>
       (relations a) |}.

Definition extend_hits (a : RelationAccumulator) (hits : list (DedupHit F)) : option RelationAccumulator := foldM push_hit a hits.
Definition extend_relations (a : RelationAccumulator) (rs : list (SeedCandidateRelation F)) : RelationAccumulator := foldl push_relation a rs.

Section Iterate.
Context (iterate : RelationMap → list (SeedCandidateRelation F)).

(** The smaller map is merged into the larger one. *)
Definition merge (self right_ : RelationAccumulator) : RelationAccumulator :=
  if decide (size (relations self) < size (relations right_)) then extend_relations right_ (iterate (relations self))
  else extend_relations self (iterate (relations right_)).

Definition into_relations_unfinished (a : RelationAccumulator) : list (SeedCandidateRelation F) := iterate (relations a).

(** [compare_evidence] *)
Definition compare_evidence (left_ right_ : MatchEvidence F) : comparison :=
  match left_, right_ with
  | MatchName left_seed left_candidate left_similarity left_threshold, MatchName right_seed right_candidate right_similarity right_threshold =>
      then_with (str_compare left_candidate right_candidate)
        (then_with (str_compare left_seed right_seed)
          (then_with (total_cmp left_similarity right_similarity) (total_cmp left_threshold right_threshold)))
  | MatchUri left_dimension left_uri left_seed left_candidate, MatchUri right_dimension right_uri right_seed right_candidate =>
      then_with (nft_key_compare left_candidate right_candidate)
        (then_with (Nat.compare (dimension_ordinal left_dimension) (dimension_ordinal right_dimension))
          (then_with (nft_key_compare left_seed right_seed) (str_compare left_uri right_uri)))
  | MatchMetadata left_seed_token left_candidate_token left_seed_digest left_candidate_digest left_similarity left_threshold,
    MatchMetadata right_seed_token right_candidate_token right_seed_digest right_candidate_digest right_similarity right_threshold =>
      then_with (str_compare left_candidate_digest right_candidate_digest)
        (then_with (str_compare left_candidate_token right_candidate_token)
          (then_with (str_compare left_seed_digest right_seed_digest)
            (then_with (str_compare left_seed_token right_seed_token)
              (then_with (total_cmp left_similarity right_similarity) (total_cmp left_threshold right_threshold)))))
  | MatchName _ _ _ _, _ => Lt
  | _, MatchName _ _ _ _ => Gt
  | MatchUri _ _ _ _, _ => Lt
  | _, MatchUri _ _ _ _ => Gt
  end.

Definition normalize_relation r : SeedCandidateRelation F :=
  {| relation_seed_id := relation_seed_id r; relation_seed := relation_seed r; relation_candidate_id := relation_candidate_id r;
     relation_candidate := relation_candidate r; dimensions := dimensions r; selection := normalize_selection (selection r);
     relation_evidence := sort_dedup compare_evidence (relation_evidence r); incomplete := incomplete r |}.

Definition compare_relations (left_ right_ : SeedCandidateRelation F) : comparison :=
  then_with (Z.compare (relation_seed_id left_) (relation_seed_id right_))
    (contract_key_compare (relation_candidate left_) (relation_candidate right_)).

(** [par_sort_unstable_by] and [sort_unstable_by] have the same specification, and the
    parallel loop works on separate elements, so both branches are one. *)
Definition finish_relations (merged : RelationMap) : list (SeedCandidateRelation F) :=
  sort_unstable_by compare_relations (normalize_relation <$> iterate merged).

Definition finish (a : RelationAccumulator) : list (SeedCandidateRelation F) := finish_relations (relations a).

Definition reduce_hits (c : ContractCatalog) (hits : list (DedupHit F)) : option (list (SeedCandidateRelation F)) :=
  finish <$> extend_hits (new_accumulator c) hits.

Definition merge_relations (rs : list (SeedCandidateRelation F)) : list (SeedCandidateRelation F) :=
  match rs with
  | [] => []
  | first :: rest => finish (extend_relations (push_relation {| catalog := None; relations := ∅ |} first) rest)
  end.
End Iterate.
End Reducer.
