(* ===== verification/Reduction.v ===== *)
(** The reduction of hits does not depend on how they are distributed: an accumulator
    denotes the set of relations pushed into it, every operation respects that set, and
    every way to collect and merge the same hits finishes to the same relations. *)

From S2P Require Import Prelude Text CanonicalJson Anchors SortedLists Events Evidence.
From S2P Require Import EvidenceFacts Relations Attribution AttributionFacts Reducer.

(** ** Orders *)

Lemma sorted_perm_unique {A} (cmp : A → A → comparison) `{!CompareLaws cmp} l1 l2 :
  StronglySorted (λ a b, cmp a b ≠ Gt) l1 → StronglySorted (λ a b, cmp a b ≠ Gt) l2 → l1 ≡ₚ l2 →
  (∀ x y, x ∈ l1 → y ∈ l1 → cmp x y = Eq → x = y) → l1 = l2.
Proof.
  intros Hs1. revert l2. induction Hs1 as [|x l1 Hs1 IH Hx]; intros l2 Hs2 Hp Heq; [by apply Permutation_nil_l in Hp|].
  destruct l2 as [|y l2]; [by symmetry in Hp; apply Permutation_nil_cons in Hp|].
  assert (x = y) as <-.
  { rewrite Forall_forall in Hx. apply StronglySorted_inv in Hs2 as [Hs2 Hy]. rewrite Forall_forall in Hy.
    assert (y ∈ x :: l1) as Hyin by (rewrite Hp; by left). assert (x ∈ y :: l2) as Hxin by (rewrite <- Hp; by left).
    apply Heq; [by left|done|]. apply elem_of_cons in Hyin as [->|Hyin]; [apply (compare_refl cmp)|].
    apply elem_of_cons in Hxin as [->|Hxin]; [apply (compare_refl cmp)|]. specialize (Hx y Hyin). specialize (Hy x Hxin).
    rewrite (compare_antisym cmp y x) in Hy. by destruct (cmp x y). }
  f_equal. apply IH; [by apply StronglySorted_inv in Hs2 as [? _]|by apply Permutation_cons_inv in Hp|].
  intros a b Ha Hb. apply Heq; by right.
Qed.

#[export] Instance contract_key_compare_laws : CompareLaws contract_key_compare.
Proof. unfold contract_key_compare. apply then_with_laws; apply compare_map_laws; apply _. Qed.

#[export] Instance contract_key_compare_eq : CompareEq contract_key_compare.
Proof.
  intros [c1 a1] [c2 a2]. unfold contract_key_compare, chain_compare. simpl. rewrite then_with_eq, Nat.compare_eq_iff, str_compare_eq.
  split; [|intros [= -> ->]; done]. intros [Hc ->]. f_equal. by destruct c1, c2.
Qed.

Section Facts.
Context {F : Type} `{!EqDecision F} `{!FloatOrder F} `{!UnstableSort}.
Abbreviation relation := (SeedCandidateRelation F).
Abbreviation evidence := (MatchEvidence F).

(** [compare_evidence] as a composition: the constructor first, then its fields. *)
Definition evidence_rank (e : evidence) : nat := match e with MatchName _ _ _ _ => 0 | MatchUri _ _ _ _ => 1 | MatchMetadata _ _ _ _ _ _ => 2 end.
Definition name_part (e : evidence) : option (str * str * (F * F)) :=
  match e with MatchName seed candidate s t => Some (candidate, seed, (s, t)) | _ => None end.
Definition uri_part (e : evidence) : option (NftKey * nat * (NftKey * str)) :=
  match e with MatchUri d uri seed candidate => Some (candidate, dimension_ordinal d, (seed, uri)) | _ => None end.
Definition metadata_part (e : evidence) : option (str * str * (str * str * (F * F))) :=
  match e with MatchMetadata seed_token candidate_token seed_digest candidate_digest s t => Some (candidate_digest, candidate_token, (seed_digest, seed_token, (s, t))) | _ => None end.

Definition pair_by {A B} (f : A → A → comparison) (g : B → B → comparison) (x y : A * B) : comparison := then_with (f x.1 y.1) (g x.2 y.2).

#[export] Instance pair_by_laws {A B} (f : A → A → comparison) (g : B → B → comparison) : CompareLaws f → CompareLaws g → CompareLaws (pair_by f g).
Proof using Type. intros Hf Hg. unfold pair_by. apply then_with_laws; apply compare_map_laws; done. Qed.
#[export] Instance pair_by_eq {A B} (f : A → A → comparison) (g : B → B → comparison) : CompareEq f → CompareEq g → CompareEq (pair_by f g).
Proof using Type.
  intros Hf Hg [a b] [a' b']. unfold pair_by. simpl. rewrite then_with_eq, (Hf a a'), (Hg b b'). split; [by intros [-> ->]|by intros [= -> ->]].
Qed.
#[export] Instance option_compare_eq' {A} (f : A → A → comparison) : CompareEq f → CompareEq (option_compare f).
Proof using Type. intros Hf x y. by apply option_compare_eq. Qed.

Definition evidence_by_parts (a b : evidence) : comparison :=
  then_with (Nat.compare (evidence_rank a) (evidence_rank b))
    (then_with (option_compare (pair_by (pair_by str_compare str_compare) (pair_by total_cmp total_cmp)) (name_part a) (name_part b))
      (then_with (option_compare (pair_by (pair_by nft_key_compare Nat.compare) (pair_by nft_key_compare str_compare)) (uri_part a) (uri_part b))
        (option_compare (pair_by (pair_by str_compare str_compare) (pair_by (pair_by str_compare str_compare) (pair_by total_cmp total_cmp))) (metadata_part a) (metadata_part b)))).

Lemma then_with_assoc c d e : then_with (then_with c d) e = then_with c (then_with d e).
Proof using Type. by destruct c. Qed.
Lemma then_with_Eq_r c : then_with c Eq = c.
Proof using Type. by destruct c. Qed.

Lemma compare_evidence_by_parts a b : compare_evidence a b = evidence_by_parts a b.
Proof using Type.
  destruct a, b; try reflexivity; unfold evidence_by_parts, pair_by; simpl; rewrite ?then_with_assoc, ?then_with_Eq_r; reflexivity.
Qed.

#[export] Instance compare_evidence_laws : CompareLaws compare_evidence.
Proof using Type.
  assert (CompareLaws evidence_by_parts) as [Hr Ha Ht].
  { unfold evidence_by_parts. repeat apply then_with_laws; apply compare_map_laws; apply _. }
  constructor; intros *; rewrite !compare_evidence_by_parts; [apply Hr|apply Ha|apply Ht].
Qed.

#[export] Instance compare_evidence_eq : CompareEq compare_evidence.
Proof using Type.
  intros a b. rewrite compare_evidence_by_parts. unfold evidence_by_parts.
  rewrite !then_with_eq, Nat.compare_eq_iff, !compare_eq_iff. split; [|intros ->; done]. intros (Hr & Hn & Hu & Hm).
  destruct a as [| d ? ? ? |], b as [| d' ? ? ? |]; simplify_eq/=; try done. by destruct d, d'.
Qed.

#[export] Instance compare_relations_laws : CompareLaws (compare_relations (F:=F)).
Proof using Type. unfold compare_relations. apply then_with_laws; apply compare_map_laws; apply _. Qed.

(** ** What a relation stands for *)

Definition explicit_nfts (s : NftSelection) : list NftKey := match s with Explicit nfts => nfts | AllInContract _ _ => [] end.
Definition is_whole (s : NftSelection) : bool := match s with AllInContract _ _ => true | Explicit _ => false end.
Definition same_head (x r : relation) : Prop :=
  relation_seed_id x = relation_seed_id r ∧ relation_candidate_id x = relation_candidate_id r ∧
  relation_seed x = relation_seed r ∧ relation_candidate x = relation_candidate r.

(** [r] is a union of the relations of [l]. *)
Record summarizes (l : list relation) (r : relation) : Prop := {
  summary_head : ∃ x, x ∈ l ∧ same_head x r;
  summary_dimensions i : (0 ≤ i)%Z → Z.testbit (dimensions r) i = true ↔ ∃ x, x ∈ l ∧ Z.testbit (dimensions x) i = true;
  summary_incomplete : incomplete r = true ↔ ∃ x, x ∈ l ∧ incomplete x = true;
  summary_evidence e : e ∈ relation_evidence r ↔ ∃ x, x ∈ l ∧ e ∈ relation_evidence x;
  summary_whole : is_whole (selection r) = true ↔ ∃ x, x ∈ l ∧ is_whole (selection x) = true;
  summary_selection : is_whole (selection r) = true → ∃ x, x ∈ l ∧ selection x = selection r;
  summary_explicit n : is_whole (selection r) = false → n ∈ explicit_nfts (selection r) ↔ ∃ x, x ∈ l ∧ n ∈ explicit_nfts (selection x);
}.

Lemma summarizes_single r : summarizes [r] r.
Proof using Type.
  assert (∀ P : relation → Prop, (∃ x, x ∈ [r] ∧ P x) ↔ P r) as E.
  { intros P. split; [|intros HP; exists r; split; [by left|done]]. by intros (x & ->%list_elem_of_singleton & HP). }
  constructor; intros; rewrite E; done.
Qed.

Lemma exists_app {A} (P : A → Prop) l1 l2 : (∃ x, x ∈ l1 ++ l2 ∧ P x) ↔ (∃ x, x ∈ l1 ∧ P x) ∨ ∃ x, x ∈ l2 ∧ P x.
Proof using Type. setoid_rewrite elem_of_app. naive_solver. Qed.

Lemma summarizes_merge l1 l2 r1 r2 : summarizes l1 r1 → summarizes l2 r2 → summarizes (l1 ++ l2) (merge_relation r1 r2).
Proof using Type.
  intros H1 H2. constructor; simpl; intros.
  - destruct (summary_head _ _ H1) as (x & Hx & Hh). exists x. split; [set_solver|]. exact Hh.
  - rewrite Z.lor_spec, orb_true_iff, exists_app, (summary_dimensions _ _ H1), (summary_dimensions _ _ H2) by done. done.
  - by rewrite orb_true_iff, exists_app, (summary_incomplete _ _ H1), (summary_incomplete _ _ H2).
  - by rewrite elem_of_app, exists_app, (summary_evidence _ _ H1), (summary_evidence _ _ H2).
  - rewrite exists_app, <- (summary_whole _ _ H1), <- (summary_whole _ _ H2). destruct (selection r1), (selection r2); simpl; naive_solver.
  - pose proof (summary_selection _ _ H1). pose proof (summary_selection _ _ H2). destruct (selection r1), (selection r2); simpl in *; set_solver.
  - pose proof (summary_explicit _ _ H1 n). pose proof (summary_explicit _ _ H2 n). rewrite exists_app.
    destruct (selection r1), (selection r2); simpl in *; try done. rewrite elem_of_app. naive_solver.
Qed.

Lemma summarizes_proper l1 l2 r : (∀ x, x ∈ l1 ↔ x ∈ l2) → summarizes l1 r → summarizes l2 r.
Proof using Type. intros Hl [??????]. constructor; intros; setoid_rewrite <- Hl; eauto. Qed.

(** Members with one key have one head, and at most one whole selection. *)
Definition consistent (l : list relation) : Prop :=
  ∀ x y, x ∈ l → y ∈ l → relation_key x = relation_key y →
    relation_seed x = relation_seed y ∧ relation_candidate x = relation_candidate y ∧
    (is_whole (selection x) = true → is_whole (selection y) = true → selection x = selection y).

Lemma normalize_selection_unique s1 s2 :
  is_whole s1 = is_whole s2 → (is_whole s1 = true → s1 = s2) → (is_whole s1 = false → ∀ n, n ∈ explicit_nfts s1 ↔ n ∈ explicit_nfts s2) →
  normalize_selection s1 = normalize_selection s2.
Proof using Type.
  intros Hw Ht Hf. destruct s1, s2; simpl in *; try done; [by apply Ht|]. f_equal. apply (sort_dedup_proper nft_key_compare). by apply Hf.
Qed.

Lemma summary_unique l r1 r2 :
  consistent l → (∀ x y, x ∈ l → y ∈ l → relation_key x = relation_key y) →
  summarizes l r1 → summarizes l r2 → normalize_relation r1 = normalize_relation r2.
Proof using Type.
  intros Hc Hk H1 H2.
  destruct (summary_head _ _ H1) as (x1 & Hx1 & ? & ? & ? & ?), (summary_head _ _ H2) as (x2 & Hx2 & ? & ? & ? & ?).
  pose proof (Hk _ _ Hx1 Hx2) as Hkey. destruct (Hc _ _ Hx1 Hx2 Hkey) as (Hs & Hcd & _). injection Hkey as Hk1 Hk2.
  assert (is_whole (selection r1) = is_whole (selection r2)) as Hw by (apply eq_true_iff_eq; by rewrite (summary_whole _ _ H1), (summary_whole _ _ H2)).
  unfold normalize_relation. f_equal; try congruence.
  - apply Z.bits_inj'. intros i Hi. apply eq_true_iff_eq. by rewrite (summary_dimensions _ _ H1), (summary_dimensions _ _ H2).
  - apply normalize_selection_unique; [done| |].
    + intros Ht. destruct (summary_selection _ _ H1 Ht) as (y1 & Hy1 & E1). rewrite Hw in Ht.
      destruct (summary_selection _ _ H2 Ht) as (y2 & Hy2 & E2). rewrite <- E1, <- E2.
      apply (Hc _ _ Hy1 Hy2); [by apply Hk|congruence..].
    + intros Hf n. rewrite (summary_explicit _ _ H1) by done. rewrite (summary_explicit _ _ H2) by congruence. done.
  - apply (sort_dedup_proper compare_evidence). intros e. by rewrite (summary_evidence _ _ H1), (summary_evidence _ _ H2).
  - apply eq_true_iff_eq. by rewrite (summary_incomplete _ _ H1), (summary_incomplete _ _ H2).
Qed.

(** ** What an accumulator stands for *)

Definition of_key (k : Z * Z) (l : list relation) : list relation := filter (λ x, relation_key x = k) l.

Lemma elem_of_key k l x : x ∈ of_key k l ↔ relation_key x = k ∧ x ∈ l.
Proof using Type. unfold of_key. by rewrite list_elem_of_filter. Qed.

Lemma of_key_proper k l1 l2 : (∀ x, x ∈ l1 ↔ x ∈ l2) → ∀ x, x ∈ of_key k l1 ↔ x ∈ of_key k l2.
Proof using Type. intros Hl x. by rewrite !elem_of_key, Hl. Qed.

(** [m] holds the unions, key by key, of the relations of [l]. *)
Definition accumulates (l : list relation) (m : gmap (Z * Z) relation) : Prop :=
  ∀ k, match m !! k with Some r => summarizes (of_key k l) r | None => ∀ x, x ∈ l → relation_key x ≠ k end.

Lemma accumulates_proper l1 l2 m : (∀ x, x ∈ l1 ↔ x ∈ l2) → accumulates l1 m → accumulates l2 m.
Proof using Type.
  intros Hl Hm k. specialize (Hm k). destruct (m !! k) as [r|]; [|intros x; rewrite <- Hl; apply Hm].
  eapply summarizes_proper; [|done]. by apply of_key_proper.
Qed.

Lemma accumulates_empty : accumulates [] ∅.
Proof using Type. intros k. rewrite lookup_empty. intros x Hx. by apply not_elem_of_nil in Hx. Qed.

Lemma summary_key k l r : summarizes (of_key k l) r → relation_key r = k.
Proof using Type.
  intros H0. destruct (summary_head _ _ H0) as (x & [Hk _]%elem_of_key & ? & ? & _). rewrite <- Hk. unfold relation_key. congruence.
Qed.

Lemma of_key_app k l1 l2 : of_key k (l1 ++ l2) = of_key k l1 ++ of_key k l2.
Proof using Type. apply filter_app. Qed.

Lemma of_key_all k l : (∀ x, x ∈ l → relation_key x = k) → of_key k l = l.
Proof using Type.
  intros Hl. induction l as [|x l IH]; [done|]. unfold of_key in *. rewrite filter_cons_True by (apply Hl; by left).
  f_equal. apply IH. intros y Hy. apply Hl. by right.
Qed.

Lemma of_key_none k l : (∀ x, x ∈ l → relation_key x ≠ k) → of_key k l = [].
Proof using Type.
  intros Hl. induction l as [|x l IH]; [done|]. unfold of_key in *. rewrite filter_cons_False by (apply Hl; by left).
  apply IH. intros y Hy. apply Hl. by right.
Qed.

(** A union of relations of one key, pushed into an accumulator. *)
Lemma accumulates_push l m c lr r :
  accumulates l m → summarizes lr r → (∀ x, x ∈ lr → relation_key x = relation_key r) →
  accumulates (l ++ lr) (relations (push_relation {| catalog := c; relations := m |} r)).
Proof using Type.
  intros Hm Hr Hlr k. unfold push_relation. simpl. destruct (decide (relation_key r = k)) as [<-|Hk].
  - rewrite lookup_insert, decide_True by done. specialize (Hm (relation_key r)). rewrite of_key_app, (of_key_all _ lr Hlr).
    destruct (m !! relation_key r) as [x|]; [by apply summarizes_merge|]. by rewrite of_key_none.
  - rewrite lookup_insert_ne by done. specialize (Hm k). rewrite of_key_app, (of_key_none _ lr), app_nil_r by (intros x Hx; by rewrite (Hlr x Hx)).
    destruct (m !! k); [done|]. intros x [Hx|Hx]%elem_of_app; [by apply Hm|]. by rewrite (Hlr x Hx).
Qed.

Lemma push_relation_eta (a : RelationAccumulator (F:=F)) r : push_relation a r = push_relation {| catalog := catalog a; relations := relations a |} r.
Proof using Type. by destruct a. Qed.

Lemma accumulates_extend rs l a lr :
  accumulates l (relations a) →
  Forall2 (λ lx r, summarizes lx r ∧ ∀ x, x ∈ lx → relation_key x = relation_key r) lr rs →
  accumulates (l ++ concat lr) (relations (extend_relations a rs)).
Proof using Type.
  intros Ha Hrs. revert l a Ha. induction Hrs as [|lx r lr rs [Hs Hk] Hrs IH]; intros l a Ha; simpl; [by rewrite app_nil_r|].
  rewrite app_assoc. apply (IH _ (push_relation a r)). rewrite push_relation_eta. by apply accumulates_push.
Qed.

Lemma accumulates_extend_map iterate l l' a m :
  (iterate m ≡ₚ (map_to_list m).*2) → accumulates l (relations a) → accumulates l' m →
  accumulates (l ++ l') (relations (extend_relations a (iterate m))).
Proof using Type.
  intros Hit Ha Hm. set (rs := iterate m) in *.
  assert (∀ r, r ∈ rs ↔ m !! relation_key r = Some r) as Hin.
  { intros r. rewrite Hit, list_elem_of_fmap. split.
    - intros ([k r'] & -> & Hkr%elem_of_map_to_list). pose proof (Hm k) as Hk. rewrite Hkr in Hk. simpl. by rewrite (summary_key _ _ _ Hk).
    - intros Hr. exists (relation_key r, r). by rewrite elem_of_map_to_list. }
  apply (accumulates_proper (l ++ concat ((λ r, of_key (relation_key r) l') <$> rs))).
  - intros x. rewrite !elem_of_app. f_equiv. rewrite (list_elem_of_In (concat _)), in_concat. setoid_rewrite <- list_elem_of_In. setoid_rewrite list_elem_of_fmap. split.
    + intros (lx & (r & -> & Hr) & Hx). by apply elem_of_key in Hx as [_ Hx].
    + intros Hx. pose proof (Hm (relation_key x)) as Hk. destruct (m !! relation_key x) as [r|] eqn:E; [|by apply Hk in Hx].
      exists (of_key (relation_key x) l'). rewrite elem_of_key. split; [|done]. exists r. pose proof (summary_key _ _ _ Hk) as Hkr.
      by rewrite Hin, Hkr.
  - apply accumulates_extend; [done|]. apply Forall2_fmap_l, Forall_Forall2_diag, Forall_forall. intros r Hr%Hin.
    pose proof (Hm (relation_key r)) as Hk. rewrite Hr in Hk. split; [done|]. by intros x [? _]%elem_of_key.
Qed.

(** ** The result *)

(** Relations of different keys are told apart by the order of the result. *)
Definition separated (l : list relation) : Prop :=
  ∀ x y, x ∈ l → y ∈ l → compare_relations x y = Eq → relation_key x = relation_key y.

Definition traverses (iterate : gmap (Z * Z) relation → list relation) : Prop := ∀ m, iterate m ≡ₚ (map_to_list m).*2.

Lemma finished_perm iterate m : traverses iterate → finish_relations iterate m ≡ₚ (map_to_list (normalize_relation <$> m)).*2.
Proof using Type.
  intros Hit. unfold finish_relations. rewrite sort_unstable_by_perm, (Hit m), map_to_list_fmap.
  rewrite <- !list_fmap_compose. done.
Qed.

Lemma finished_elem iterate l m r : traverses iterate → accumulates l m →
  r ∈ finish_relations iterate m ↔ ∃ x, m !! relation_key r = Some x ∧ r = normalize_relation x ∧ summarizes (of_key (relation_key r) l) x.
Proof using Type.
  intros Hit Hm. rewrite finished_perm, list_elem_of_fmap by done. split.
  - intros ([k y] & -> & Hky%elem_of_map_to_list). rewrite lookup_fmap in Hky. apply fmap_Some in Hky as (x & Hx & ->). simpl.
    pose proof (Hm k) as Hk. rewrite Hx in Hk. pose proof (summary_key _ _ _ Hk) as Hkey.
    change (relation_key (normalize_relation x)) with (relation_key x). rewrite Hkey. by exists x.
  - intros (x & Hx & -> & _). exists (relation_key x, normalize_relation x). split; [done|]. apply elem_of_map_to_list.
    rewrite lookup_fmap. change (relation_key (normalize_relation x)) with (relation_key x) in Hx. by rewrite Hx.
Qed.

Lemma finished_same iterate l m x y : traverses iterate → accumulates l m → separated l →
  x ∈ finish_relations iterate m → y ∈ finish_relations iterate m → compare_relations x y = Eq → x = y.
Proof using Type.
  intros Hit Hm Hsep Hx Hy Hc. rewrite (finished_elem iterate l m) in Hx, Hy by done.
  destruct Hx as (x' & Hx & Ex & Sx), Hy as (y' & Hy & Ey & Sy). enough (relation_key x = relation_key y) as E by (rewrite E in Hx; congruence).
  destruct (summary_head _ _ Sx) as (a & [Ka Ha]%elem_of_key & Ha1 & Ha2 & Ha3 & Ha4).
  destruct (summary_head _ _ Sy) as (b & [Kb Hb]%elem_of_key & Hb1 & Hb2 & Hb3 & Hb4).
  rewrite <- Ka, <- Kb. apply Hsep; [done..|]. unfold compare_relations in *. rewrite Ex, Ey in Hc. simpl in Hc. congruence.
Qed.

(** The result depends only on the set of relations accumulated. *)
Lemma finish_unique it1 it2 l m1 m2 : traverses it1 → traverses it2 → consistent l → separated l →
  accumulates l m1 → accumulates l m2 → finish_relations it1 m1 = finish_relations it2 m2.
Proof using Type.
  intros H1 H2 Hc Hsep Hm1 Hm2. apply (sorted_perm_unique compare_relations).
  - unfold finish_relations. apply sort_unstable_by_sorted, _.
  - unfold finish_relations. apply sort_unstable_by_sorted, _.
  - assert (normalize_relation <$> m1 = normalize_relation <$> m2) as E; [|by rewrite !finished_perm, E by done].
    apply map_eq. intros k. rewrite !lookup_fmap.
    pose proof (Hm1 k) as K1. pose proof (Hm2 k) as K2. destruct (m1 !! k) as [r1|], (m2 !! k) as [r2|]; simpl; [|exfalso..|done].
    + f_equal. apply (summary_unique (of_key k l)); [|by intros x y [-> _]%elem_of_key [-> _]%elem_of_key|done..].
      intros x y [_ Hx]%elem_of_key [_ Hy]%elem_of_key. by apply Hc.
    + destruct (summary_head _ _ K1) as (x & [Hk Hx]%elem_of_key & _). by apply (K2 x).
    + destruct (summary_head _ _ K2) as (x & [Hk Hx]%elem_of_key & _). by apply (K1 x).
  - intros x y. by apply (finished_same it1 l).
Qed.

Lemma finished_strict iterate l m : traverses iterate → accumulates l m → separated l →
  StronglySorted (λ a b, compare_relations a b = Lt) (finish_relations iterate m).
Proof using Type.
  intros Hit Hm Hsep. assert (NoDup (finish_relations iterate m)) as Hnd.
  { rewrite finished_perm by done. apply NoDup_alt. intros i j x Hi Hj. rewrite list_lookup_fmap in Hi, Hj.
    apply fmap_Some in Hi as ([k1 x1] & Hi & ->), Hj as ([k2 x2] & Hj & E). simpl in E. subst x2.
    pose proof (NoDup_fst_map_to_list (normalize_relation <$> m)) as Hn.
    assert (∀ k y, (k, y) ∈ map_to_list (normalize_relation <$> m) → k = relation_key y) as Hky.
    { intros k y Hy%elem_of_map_to_list. rewrite lookup_fmap in Hy. apply fmap_Some in Hy as (z & Hz & ->).
      pose proof (Hm k) as Hk. rewrite Hz in Hk. by rewrite <- (summary_key _ _ _ Hk). }
    assert (k1 = k2) as <- by (rewrite (Hky _ _ (list_elem_of_lookup_2 _ _ _ Hi)), (Hky _ _ (list_elem_of_lookup_2 _ _ _ Hj)); done).
    apply (NoDup_lookup _ i j k1 Hn); by rewrite list_lookup_fmap, ?Hi, ?Hj. }
  assert (StronglySorted (λ a b, compare_relations a b ≠ Gt) (finish_relations iterate m)) as Hs
    by (unfold finish_relations; apply sort_unstable_by_sorted, _).
  apply StronglySorted_lookup_intro. intros i j x y Hij Hx Hy.
  pose proof (StronglySorted_lookup _ _ i j x y Hs Hij Hx Hy) as Hle. simpl in Hle.
  destruct (compare_relations x y) eqn:E; [|done|done]. exfalso.
  assert (x = y) as -> by (apply (finished_same iterate l m); eauto using list_elem_of_lookup_2).
  assert (i = j) by (by apply (NoDup_lookup _ i j y Hnd)). lia.
Qed.
End Facts.

Section Reduction.
Context {F : Type} `{!EqDecision F} `{!FloatOrder F} `{!UnstableSort}.
Context (c : ContractCatalog).
Abbreviation relation := (SeedCandidateRelation F).
Abbreviation accumulator := (RelationAccumulator (F:=F)).
Implicit Types (h : DedupHit F) (a : accumulator) (hits : list (DedupHit F)).

Definition hit_key h : Z * Z := (hit_seed_id h, candidate_contract h).
Definition hit_relations hits : list relation := omap (relation_of_hit c) hits.

(** Every contract of a hit is in the catalog. *)
Definition catalogued hits : Prop := ∀ h, h ∈ hits → ∃ r, relation_of_hit c h = Some r.

(** The accumulators that can be made of the given hits; every merge traverses its
    smaller map in an order of its own. *)
Inductive built : list (DedupHit F) → accumulator → Prop :=
  | built_new : built [] (new_accumulator c)
  | built_hit hits a h a' : built hits a → push_hit a h = Some a' → built (hits ++ [h]) a'
  | built_merge iterate hits hits' a a' : traverses iterate → built hits a → built hits' a' → built (hits ++ hits') (merge iterate a a')
  | built_handoff iterate hits hits' a a' : traverses iterate → built hits a → built hits' a' →
      built (hits ++ hits') (extend_relations a (into_relations_unfinished iterate a')).

Lemma push_hit_relation a h r : catalog a = Some c → relation_of_hit c h = Some r → push_hit a h = Some (push_relation a r).
Proof using Type.
  intros Hc Hr. unfold push_hit. rewrite Hc. cbn [mbind option_bind].
  assert (relation_key r = hit_key h) as Hk.
  { unfold relation_of_hit in Hr. apply bind_Some in Hr as (s & _ & Hr). apply bind_Some in Hr as (d & _ & Hr). by injection Hr as <-. }
  unfold push_relation. rewrite Hk, Hc. unfold hit_key. destruct (relations a !! (hit_seed_id h, candidate_contract h)) as [x|].
  - cbn [mbind option_bind]. enough (merge_hit x h = merge_relation x r) as -> by done. unfold relation_of_hit in Hr.
    apply bind_Some in Hr as (s & _ & Hr). apply bind_Some in Hr as (d & _ & Hr). injection Hr as <-.
    unfold merge_hit, merge_relation. simpl. by rewrite orb_false_r.
  - by rewrite Hr.
Qed.

Lemma extend_catalog rs a : catalog (extend_relations a rs) = catalog a.
Proof using Type. revert a. induction rs as [|r rs IH]; intros a; [done|]. simpl. by rewrite IH. Qed.

Lemma hit_relations_app hits hits' : hit_relations (hits ++ hits') = hit_relations hits ++ hit_relations hits'.
Proof using Type. apply omap_app. Qed.

Lemma built_accumulates hits a : built hits a → catalogued hits → catalog a = Some c ∧ accumulates (hit_relations hits) (relations a).
Proof using Type.
  assert (∀ l l' : list (DedupHit F), catalogued (l ++ l') → catalogued l ∧ catalogued l') as Happ
    by (unfold catalogued; set_solver).
  induction 1 as [|hits a h a' _ IH Hp|it hits hits' a a' Hit _ IH _ IH'|it hits hits' a a' Hit _ IH _ IH']; intros Hv;
    [split; [done|apply accumulates_empty]|apply Happ in Hv as [Hv Hv']..].
  - destruct (IH Hv) as [Hc Ha], (Hv' h) as [r Hr]; [by left|]. rewrite (push_hit_relation a h r) in Hp by done. injection Hp as <-.
    split; [done|]. rewrite hit_relations_app. assert (hit_relations [h] = [r]) as -> by (unfold hit_relations; simpl; by rewrite Hr). rewrite push_relation_eta.
    apply accumulates_push; [done|apply summarizes_single|]. by intros x ->%list_elem_of_singleton.
  - destruct (IH Hv) as [Hc Ha], (IH' Hv') as [Hc' Ha']. rewrite hit_relations_app. unfold merge. case_decide; rewrite extend_catalog.
    + split; [done|]. apply (accumulates_proper (hit_relations hits' ++ hit_relations hits)); [set_solver|]. by apply (accumulates_extend_map it _ _ _ _ (Hit _)).
    + split; [done|]. by apply (accumulates_extend_map it _ _ _ _ (Hit _)).
  - destruct (IH Hv) as [Hc Ha], (IH' Hv') as [Hc' Ha']. rewrite hit_relations_app, extend_catalog. split; [done|]. by apply (accumulates_extend_map it _ _ _ _ (Hit _)).
Qed.

Lemma extend_hits_built hits0 hits a : built hits0 a → catalogued (hits0 ++ hits) → ∃ a', extend_hits a hits = Some a' ∧ built (hits0 ++ hits) a'.
Proof using Type.
  revert hits0 a. induction hits as [|h hits IH]; intros hits0 a Hb Hv; [rewrite app_nil_r in *; by exists a|].
  destruct (built_accumulates _ _ Hb) as [Hc _]; [unfold catalogued in *; set_solver|]. destruct (Hv h) as [r Hr]; [set_solver|].
  assert (built (hits0 ++ [h]) (push_relation a r)) as Hb' by (eapply built_hit; [done|]; by apply push_hit_relation).
  unfold extend_hits. cbn [foldM]. rewrite (push_hit_relation a h r) by done. cbn [mbind option_bind].
  rewrite (cons_middle h), app_assoc in Hv |- *. by apply (IH _ _ Hb').
Qed.

(** Hits of one seed name one contract for it, and the whole-contract selections of one
    key are the same. *)
Definition agreeing hits : Prop :=
  ∀ h h', h ∈ hits → h' ∈ hits → hit_seed_id h = hit_seed_id h' →
    seed_contract h = seed_contract h' ∧
    (candidate_contract h = candidate_contract h' → is_whole (hit_selection h) = true → is_whole (hit_selection h') = true →
     hit_selection h = hit_selection h').

Lemma elem_of_hit_relations hits r : r ∈ hit_relations hits ↔ ∃ h, h ∈ hits ∧ relation_of_hit c h = Some r.
Proof using Type. apply list_elem_of_omap. Qed.

Lemma relation_of_hit_inv h r : relation_of_hit c h = Some r →
  ∃ s d, catalog_key c (seed_contract h) = Some s ∧ catalog_key c (candidate_contract h) = Some d ∧
  r = {| relation_seed_id := hit_seed_id h; relation_seed := s; relation_candidate_id := candidate_contract h;
         relation_candidate := d; dimensions := dimension_bit (hit_dimension h); selection := hit_selection h;
         relation_evidence := [hit_evidence h]; incomplete := false |}.
Proof using Type.
  unfold relation_of_hit. intros Hr. apply bind_Some in Hr as (s & Hs & Hr). apply bind_Some in Hr as (d & Hd & Hr). injection Hr as <-. by exists s, d.
Qed.

Lemma agreeing_consistent hits : agreeing hits → consistent (hit_relations hits).
Proof using Type.
  intros Hag x y (h & Hh & (s & d & Hs & Hd & ->)%relation_of_hit_inv)%elem_of_hit_relations
    (h' & Hh' & (s' & d' & Hs' & Hd' & ->)%relation_of_hit_inv)%elem_of_hit_relations [= Hk1 Hk2]. simpl in *.
  destruct (Hag h h' Hh Hh' Hk1) as [Hsc Hsel]. rewrite Hsc in Hs. rewrite Hk2 in Hd. simplify_eq. auto.
Qed.

(** The keys of the catalog are distinct, and contract identifiers are not negative. *)
Lemma catalog_separated hits :
  NoDup (record_key <$> c) → (∀ h, h ∈ hits → (0 ≤ candidate_contract h)%Z) → separated (hit_relations hits).
Proof using Type.
  intros Hnd Hpos x y (h & Hh & (s & d & Hs & Hd & ->)%relation_of_hit_inv)%elem_of_hit_relations
    (h' & Hh' & (s' & d' & Hs' & Hd' & ->)%relation_of_hit_inv)%elem_of_hit_relations Hcmp.
  unfold compare_relations in Hcmp. simpl in Hcmp. rewrite then_with_eq, Z.compare_eq_iff, (compare_eq_iff (cmp:=contract_key_compare)) in Hcmp.
  destruct Hcmp as [Hid ->]. unfold relation_key. simpl. f_equal; [done|]. unfold catalog_key in Hd, Hd'.
  pose proof (NoDup_lookup _ (Z.to_nat (candidate_contract h)) (Z.to_nat (candidate_contract h')) d' Hnd) as E.
  specialize (E (eq_trans (list_lookup_fmap _ _ _) Hd) (eq_trans (list_lookup_fmap _ _ _) Hd')). pose proof (Hpos _ Hh). pose proof (Hpos _ Hh'). lia.
Qed.

(** [r] is the union of the hits of its key. *)
Record reduces hits (r : relation) : Prop := {
  reduces_hit : ∃ h, h ∈ hits ∧ hit_key h = relation_key r ∧ catalog_key c (seed_contract h) = Some (relation_seed r);
  reduces_candidate : catalog_key c (relation_candidate_id r) = Some (relation_candidate r);
  reduces_dimensions d : Z.testbit (dimensions r) (Z.of_nat (dimension_ordinal d)) = true ↔
    ∃ h, h ∈ hits ∧ hit_key h = relation_key r ∧ hit_dimension h = d;
  reduces_evidence e : e ∈ relation_evidence r ↔ ∃ h, h ∈ hits ∧ hit_key h = relation_key r ∧ hit_evidence h = e;
  reduces_sorted : StronglySorted (λ x y, compare_evidence x y = Lt) (relation_evidence r);
  reduces_complete : incomplete r = false;
  reduces_selection :
    match selection r with
    | AllInContract _ _ => ∃ h, h ∈ hits ∧ hit_key h = relation_key r ∧ hit_selection h = selection r
    | Explicit nfts => StronglySorted (λ x y, nft_key_compare x y = Lt) nfts ∧
        (∀ h, h ∈ hits → hit_key h = relation_key r → is_whole (hit_selection h) = false) ∧
        ∀ n, n ∈ nfts ↔ ∃ h, h ∈ hits ∧ hit_key h = relation_key r ∧ n ∈ explicit_nfts (hit_selection h)
    end;
}.

Lemma elem_of_hit_key hits k x :
  x ∈ of_key k (hit_relations hits) ↔ ∃ h, h ∈ hits ∧ hit_key h = k ∧ relation_of_hit c h = Some x.
Proof using Type.
  rewrite elem_of_key, elem_of_hit_relations. split.
  - intros [Hk (h & Hh & Hx)]. exists h. split_and!; [done| |done]. apply relation_of_hit_inv in Hx as (s & d & _ & _ & ->). exact Hk.
  - intros (h & Hh & Hk & Hx). split; [|by exists h]. apply relation_of_hit_inv in Hx as (s & d & _ & _ & ->). exact Hk.
Qed.

(** The members of a union, as hits. *)
Lemma exists_hit hits k (P : relation → Prop) (Q : DedupHit F → Prop) :
  catalogued hits → (∀ h x, relation_of_hit c h = Some x → P x ↔ Q h) →
  (∃ x, x ∈ of_key k (hit_relations hits) ∧ P x) ↔ ∃ h, h ∈ hits ∧ hit_key h = k ∧ Q h.
Proof using Type.
  intros Hv HPQ. setoid_rewrite elem_of_hit_key. split.
  - intros (x & (h & Hh & Hk & Hx) & HP). exists h. by rewrite <- (HPQ _ _ Hx).
  - intros (h & Hh & Hk & HQ). destruct (Hv h Hh) as [x Hx]. exists x. split; [by exists h|]. by rewrite (HPQ _ _ Hx).
Qed.

Lemma testbit_dimension d d' : Z.testbit (dimension_bit d) (Z.of_nat (dimension_ordinal d')) = true ↔ d = d'.
Proof using Type. by destruct d, d'. Qed.

Lemma summarizes_reduces hits r :
  catalogued hits → summarizes (of_key (relation_key r) (hit_relations hits)) r → reduces hits (normalize_relation r).
Proof using Type.
  intros Hv Hs. destruct (summary_head _ _ Hs) as (x & Hx & Hid & Hcid & Hseed & Hcand).
  apply elem_of_hit_key in Hx as (h & Hh & Hk & (s & d & Hsk & Hdk & ->)%relation_of_hit_inv). simpl in *.
  assert (∀ P Q, (∀ h x, relation_of_hit c h = Some x → P x ↔ Q h) →
    (∃ x, x ∈ of_key (relation_key r) (hit_relations hits) ∧ P x) ↔ ∃ h, h ∈ hits ∧ hit_key h = relation_key r ∧ Q h) as He
    by (intros; by apply exists_hit).
  constructor; change (relation_key (normalize_relation r)) with (relation_key r); simpl.
  - exists h. by rewrite <- Hseed.
  - by rewrite <- Hcid, <- Hcand.
  - intros d'. rewrite (summary_dimensions _ _ Hs) by lia. apply He. intros h' x' (s' & d'' & _ & _ & ->)%relation_of_hit_inv. apply testbit_dimension.
  - intros e. rewrite (proj2 (sort_dedup_strict compare_evidence _)), (summary_evidence _ _ Hs).
    apply He. intros h' x' (s' & d'' & _ & _ & ->)%relation_of_hit_inv. simpl. rewrite list_elem_of_singleton. naive_solver.
  - apply (sort_dedup_strict compare_evidence).
  - apply not_true_iff_false. rewrite (summary_incomplete _ _ Hs). intros (x' & Hx' & Hi).
    apply elem_of_hit_key in Hx' as (h' & _ & _ & (s' & d'' & _ & _ & ->)%relation_of_hit_inv). done.
  - pose proof (summary_selection _ _ Hs) as Hsel. pose proof (λ n, summary_explicit _ _ Hs n) as Hex. pose proof (summary_whole _ _ Hs) as Hw.
    destruct (selection r) as [k n|nfts]; simpl in *.
    + specialize (Hsel eq_refl). apply (He _ (λ h, hit_selection h = AllInContract k n)) in Hsel; [done|].
      intros h' x' (s' & d'' & _ & _ & ->)%relation_of_hit_inv. done.
    + destruct (sort_dedup_strict nft_key_compare nfts) as [Hso Hin]. split_and!; [done| |].
      * intros h' Hh' Hk'. apply not_true_iff_false. intros Ht. enough (false = true) by done. apply Hw.
        apply (He _ (λ h, is_whole (hit_selection h) = true)); [|by exists h'].
        intros h2 x' (s' & d'' & _ & _ & ->)%relation_of_hit_inv. done.
      * intros n. rewrite Hin, Hex by done. apply He. intros h' x' (s' & d'' & _ & _ & ->)%relation_of_hit_inv. done.
Qed.

(** Accumulators of the same hits finish to what [reduce_hits] computes. *)
Lemma built_finish iterate iterate' hits hits' a :
  NoDup (record_key <$> c) → catalogued hits → (∀ h, h ∈ hits → (0 ≤ candidate_contract h)%Z) → agreeing hits →
  traverses iterate → traverses iterate' → built hits' a → (∀ h, h ∈ hits' ↔ h ∈ hits) →
  reduce_hits iterate c hits = Some (finish iterate' a).
Proof using Type.
  intros Hnd Hv Hpos Hag Hit Hit' Hb' Hset. destruct (extend_hits_built [] hits _ built_new Hv) as (a0 & Ha & Hb). simpl in Hb.
  destruct (built_accumulates _ _ Hb Hv) as [_ Hacc]. pose proof (catalog_separated hits Hnd Hpos) as Hsep.
  assert (catalogued hits') as Hv' by (intros h Hh; by apply Hv, Hset). destruct (built_accumulates _ _ Hb' Hv') as [_ Hacc'].
  unfold reduce_hits. rewrite Ha. cbn [fmap option_fmap option_map]. f_equal. symmetry.
  apply (finish_unique _ _ (hit_relations hits)); [done|done|by apply agreeing_consistent|done| |done].
  apply (accumulates_proper (hit_relations hits')); [|done]. intros x. rewrite !elem_of_hit_relations. by setoid_rewrite Hset.
Qed.

(** C26: The reduction of hits is total on the hits of a catalog. Its result is in strict
    order; it has one relation for every pair of a seed and a candidate that was hit, and
    that relation is the union of the hits of the pair: their dimensions, their evidence
    without repetition, the whole contract when one hit selects it and otherwise the
    union of the selections. Every other way to build accumulators of the same hits, in
    any order, with repetitions, merged in any shape, with unfinished relations handed
    from batch to batch, finishes to the same relations. *)
Theorem reduce_order_independent iterate hits :
  NoDup (record_key <$> c) → catalogued hits → (∀ h, h ∈ hits → (0 ≤ candidate_contract h)%Z) → agreeing hits → traverses iterate →
  ∃ output, reduce_hits iterate c hits = Some output ∧
    StronglySorted (λ x y, compare_relations x y = Lt) output ∧
    (∀ r, r ∈ output → reduces hits r) ∧
    (∀ h, h ∈ hits → ∃ r, r ∈ output ∧ relation_key r = hit_key h) ∧
    (∀ iterate' hits' a, traverses iterate' → built hits' a → (∀ h, h ∈ hits' ↔ h ∈ hits) → finish iterate' a = output).
Proof using Type.
  intros Hnd Hv Hpos Hag Hit. destruct (extend_hits_built [] hits _ built_new Hv) as (a & Ha & Hb). simpl in Hb.
  destruct (built_accumulates _ _ Hb Hv) as [_ Hacc]. pose proof (catalog_separated hits Hnd Hpos) as Hsep.
  exists (finish iterate a). unfold reduce_hits. rewrite Ha. split_and!; [done| | | |].
  - by apply (finished_strict iterate (hit_relations hits)).
  - intros r (x & Hx & -> & Hs)%(finished_elem iterate (hit_relations hits)); [|done..]. by apply summarizes_reduces.
  - intros h Hh. destruct (Hv h Hh) as [x Hx]. assert (relation_key x = hit_key h) as Hk by (apply relation_of_hit_inv in Hx as (s & d & _ & _ & ->); done).
    pose proof (Hacc (hit_key h)) as Hm. destruct (relations a !! hit_key h) as [r|] eqn:E.
    + pose proof (summary_key _ _ _ Hm) as Hr. exists (normalize_relation r). split; [|done].
      apply (finished_elem iterate (hit_relations hits)); [done..|]. exists r. change (relation_key (normalize_relation r)) with (relation_key r). by rewrite Hr.
    + exfalso. apply (Hm x); [|done]. apply elem_of_hit_relations. by exists h.
  - intros iterate' hits' a' Hit' Hb' Hset. pose proof (built_finish iterate iterate' hits hits' a' Hnd Hv Hpos Hag Hit Hit' Hb' Hset) as Hf.
    unfold reduce_hits in Hf. rewrite Ha in Hf. by injection Hf as <-.
Qed.
End Reduction.

Definition sample_record (address : str) : ContractRecord :=
  {| record_chain := Base; record_address := address; record_nft_count := 3; name_value_id := None; metadata_profile_id := None;
     name_owner_shard := None; metadata_owner_shard := None |}.

Definition sample_hit (seed candidate : Z) (d : Dimension) (s : NftSelection) (e : MatchEvidence Z) : DedupHit Z :=
  {| hit_seed_id := seed; seed_contract := 0; candidate_contract := candidate; hit_dimension := d; hit_selection := s; hit_evidence := e |}.

Definition sample_hits : list (DedupHit Z) :=
  [sample_hit 7 1 NameDimension (AllInContract {| key_chain := Base; key_address := lit "b" |} 3) (MatchName (lit "x") (lit "y") 9%Z 8%Z);
   sample_hit 7 1 TokenUriDimension (Explicit [{| nft_chain := Base; nft_contract := lit "b"; nft_token := lit "4" |}])
     (MatchName (lit "x") (lit "y") 9%Z 8%Z);
   sample_hit 7 0 MetadataDimension (Explicit []) (MatchMetadata (lit "1") (lit "2") (lit "d") (lit "e") 9%Z 8%Z)].

Lemma reduce_order_independent_witness :
  let order := {| total_cmp := Z.compare; total_cmp_laws := Z_compare_laws; total_cmp_eq := Z_compare_eq |} in
  let reduce := reduce_hits (H := order) (H0 := stable_sort) (λ m, (map_to_list m).*2) [sample_record (lit "a"); sample_record (lit "b")] in
  (map (λ r, (relation_key r, dimensions r, length (relation_evidence r))) <$> reduce sample_hits)
    = Some [((7, 0), 8, 1%nat); ((7, 1), 3, 1%nat)]%Z ∧
  ∃ output, reduce sample_hits = Some output ∧ ∀ h, h ∈ sample_hits → ∃ r, r ∈ output ∧ relation_key r = hit_key h.
Proof.
  intros order reduce. split; [vm_compute; reflexivity|].
  destruct (@reduce_order_independent Z _ order stable_sort [sample_record (lit "a"); sample_record (lit "b")] (λ m, (map_to_list m).*2) sample_hits)
    as (output & Ho & _ & _ & Hk & _).
  - apply (bool_decide_unpack _). vm_compute. exact I.
  - intros h. unfold sample_hits. rewrite !elem_of_cons, elem_of_nil. intros [-> | [-> | [-> | []]]]; eexists; reflexivity.
  - intros h. unfold sample_hits. rewrite !elem_of_cons, elem_of_nil. intros [-> | [-> | [-> | []]]]; vm_compute; discriminate.
  - intros h h'. unfold sample_hits. rewrite !elem_of_cons, !elem_of_nil.
    intros [-> | [-> | [-> | []]]] [-> | [-> | [-> | []]]] _; (split; [reflexivity|]; vm_compute; first [reflexivity | intros; discriminate]).
  - intros m. reflexivity.
  - exists output. split; [exact Ho | exact Hk].
Defined.
