(* ===== verification/Scheduler.v ===== *)
(** The weighted queue of the processor tasks ([pipeline/scheduler.rs], the task kinds of
    [pipeline/messages.rs]). [None] is a panic of an index. *)

From S2P Require Import Prelude.

Inductive CpuTaskKind := Dedup | ResponseDecode | Analysis | Compress.
#[export] Instance CpuTaskKind_eq_dec : EqDecision CpuTaskKind.
Proof. solve_decision. Defined.

Definition kind_index (k : CpuTaskKind) : nat :=
  match k with Dedup => 0 | ResponseDecode => 1 | Analysis => 2 | Compress => 3 end.

Definition OPEN : list CpuTaskKind := [Dedup; Dedup; Dedup; ResponseDecode; ResponseDecode; Analysis; Compress; Dedup].
Definition CLOSED : list CpuTaskKind := [Analysis; Analysis; Analysis; ResponseDecode; ResponseDecode; Compress; Analysis; Compress].

Section Scheduler.
Context {T : Type}.

Record WeightedScheduler := { capacity : nat; queues : list (list T); cursor : Z; owner_shards_open : bool }.
Implicit Types (s : WeightedScheduler).

Definition new_scheduler (capacity : nat) : WeightedScheduler :=
  {| capacity := capacity; queues := replicate 4 []; cursor := 0; owner_shards_open := true |}.

Definition set_owner_shards_open s (open_ : bool) : WeightedScheduler :=
  {| capacity := capacity s; queues := queues s; cursor := cursor s; owner_shards_open := open_ |}.

Definition with_queues s (qs : list (list T)) : WeightedScheduler :=
  {| capacity := capacity s; queues := qs; cursor := cursor s; owner_shards_open := owner_shards_open s |}.

(** [self.cursor = self.cursor.wrapping_add(1)] *)
Definition advance_cursor s : WeightedScheduler :=
  {| capacity := capacity s; queues := queues s; cursor := (cursor s + 1) mod 2 ^ 64; owner_shards_open := owner_shards_open s |}.

Definition scheduler_len s : nat := sum_list (length <$> queues s).
Definition scheduler_is_empty s : bool := forallb (λ q, match q with [] => true | _ => false end) (queues s).

(** [inr task] is [Err(task)]. *)
Definition try_push s (k : CpuTaskKind) (task : T) : option (WeightedScheduler + T) :=
  if decide (capacity s ≤ scheduler_len s) then Some (inr task)
  else queue ← queues s !! kind_index k; Some (inl (with_queues s (<[kind_index k := queue ++ [task]]> (queues s)))).

Definition weights s : list CpuTaskKind := if owner_shards_open s then OPEN else CLOSED.

(** The loop over the weights, [fuel] rounds of it. *)
Fixpoint pop_weighted (fuel : nat) (ws : list CpuTaskKind) s : option (option T * WeightedScheduler) :=
  match fuel with
  | 0 => Some (None, s)
  | S fuel =>
      k ← ws !! Z.to_nat (cursor s mod Z.of_nat (length ws));
      queue ← queues s !! kind_index k;
      match queue with
      | task :: rest => Some (Some task, with_queues (advance_cursor s) (<[kind_index k := rest]> (queues s)))
      | [] => pop_weighted fuel ws (advance_cursor s)
      end
  end.

(** [self.queues.iter_mut().find_map(VecDeque::pop_front)] *)
Fixpoint find_pop (qs : list (list T)) : option T * list (list T) :=
  match qs with
  | [] => (None, [])
  | (task :: rest) :: qs => (Some task, rest :: qs)
  | [] :: qs => let '(r, qs') := find_pop qs in (r, [] :: qs')
  end.

Definition pop s : option (option T * WeightedScheduler) :=
  r ← pop_weighted (length (weights s)) (weights s) s;
  let '(task, s') := r in
  match task with
  | Some _ => Some (task, s')
  | None => let '(task, qs) := find_pop (queues s') in Some (task, with_queues s' qs)
  end.
End Scheduler.
Arguments WeightedScheduler T : clear implicits.

(** ** Rounds of the weights *)

Definition all_kinds : list CpuTaskKind := [Dedup; ResponseDecode; Analysis; Compress].

(** The slots before the next one of kind [k], from slot [i]. *)
Fixpoint slots_before (fuel : nat) (ws : list CpuTaskKind) (k : CpuTaskKind) (i : nat) : nat :=
  match fuel with
  | 0 => 0
  | S fuel => if decide (ws !! i = Some k) then 0 else S (slots_before fuel ws k ((i + 1) mod 8))
  end.
Definition slots_to (ws : list CpuTaskKind) (k : CpuTaskKind) (i : nat) : nat := slots_before 8 ws k i.

Definition slots_ok (ws : list CpuTaskKind) (k : CpuTaskKind) (i : nat) : bool :=
  bool_decide (slots_to ws k i < 8) &&
  (bool_decide (ws !! i = Some k) || bool_decide (slots_to ws k i = S (slots_to ws k ((i + 1) mod 8)))).

Lemma all_slots_ok (open_ : bool) k i : k ∈ (if open_ then OPEN else CLOSED) → i < 8 → slots_ok (if open_ then OPEN else CLOSED) k i = true.
Proof.
  intros Hk Hi. assert (Hin : i ∈ seq 0 8) by (apply elem_of_seq; lia).
  assert (forallb (λ i, forallb (λ k, slots_ok (if open_ then OPEN else CLOSED) k i) (if open_ then OPEN else CLOSED)) (seq 0 8) = true) as H
    by (destruct open_; vm_compute; reflexivity).
  rewrite forallb_forall in H. specialize (H i (proj1 (list_elem_of_In _ _) Hin)). rewrite forallb_forall in H.
  by apply H, list_elem_of_In.
Qed.

Section Facts.
Context {T : Type}.
Implicit Types (s : WeightedScheduler T) (k : CpuTaskKind).

(** Four queues and a cursor of a machine word. *)
Record well_formed s : Prop := { four_queues : length (queues s) = 4; cursor_bounds : (0 ≤ cursor s < 2 ^ 64)%Z }.

Definition queue s k : list T := default [] (queues s !! kind_index k).
Definition slot s : nat := Z.to_nat (cursor s mod 8).
Definition distance s k : nat := slots_to (weights s) k (slot s).

Lemma queue_lookup s k : well_formed s → queues s !! kind_index k = Some (queue s k).
Proof.
  intros Hs. unfold queue. destruct (queues s !! kind_index k) eqn:E; [done|]. apply lookup_ge_None in E.
  rewrite (four_queues _ Hs) in E. destruct k; simpl in E; lia.
Qed.

Lemma kind_index_inj k k' : kind_index k = kind_index k' → k = k'.
Proof. by destruct k, k'. Qed.

Lemma queue_insert s s' k k' q : well_formed s → queues s' = <[kind_index k := q]> (queues s) →
  queue s' k' = if decide (k' = k) then q else queue s k'.
Proof.
  intros Hs E. unfold queue at 1. rewrite E. destruct (decide (k' = k)) as [->|Hk].
  - by rewrite list_lookup_insert_eq by (rewrite (four_queues _ Hs); destruct k; simpl; lia).
  - rewrite list_lookup_insert_ne by (intros Hi; by apply Hk, kind_index_inj). done.
Qed.

Lemma weights_length s : length (weights s) = 8.
Proof. unfold weights. by destruct (owner_shards_open s). Qed.

Lemma slot_lt s : slot s < 8.
Proof. unfold slot. pose proof (Z.mod_pos_bound (cursor s) 8). lia. Qed.

Lemma slot_advance s : slot (advance_cursor s) = (slot s + 1) mod 8.
Proof.
  unfold slot. change (cursor (advance_cursor s)) with ((cursor s + 1) mod 2 ^ 64)%Z. apply Nat2Z.inj.
  pose proof (Z.mod_pos_bound (cursor s) 8). pose proof (Z.mod_pos_bound ((cursor s + 1) mod 2 ^ 64) 8).
  rewrite Nat2Z.inj_mod, Nat2Z.inj_add, !Z2Nat.id by lia. change (Z.of_nat 8) with 8%Z. change (Z.of_nat 1) with 1%Z.
  rewrite Z.add_mod_idemp_l by lia. apply Z.mod_mod_divide. exists (2 ^ 61)%Z. lia.
Qed.

Lemma advance_well_formed s : well_formed s → well_formed (advance_cursor s).
Proof. intros [H4 Hc]. constructor; [done|]. simpl. apply Z.mod_pos_bound. lia. Qed.

Lemma distance_lt s k : k ∈ weights s → distance s k < 8.
Proof.
  intros Hk. pose proof (all_slots_ok (owner_shards_open s) k (slot s) Hk (slot_lt s)) as Ho. unfold slots_ok in Ho.
  apply andb_true_iff in Ho as [Ho _]. by apply bool_decide_eq_true in Ho.
Qed.

Lemma distance_advance s k : k ∈ weights s → weights s !! slot s ≠ Some k → distance s k = S (distance (advance_cursor s) k).
Proof.
  intros Hk Hn. pose proof (all_slots_ok (owner_shards_open s) k (slot s) Hk (slot_lt s)) as Ho. unfold slots_ok in Ho.
  apply andb_true_iff in Ho as [_ Ho]. apply orb_true_iff in Ho as [Ho|Ho]; apply bool_decide_eq_true in Ho; [done|].
  unfold distance. rewrite slot_advance. exact Ho.
Qed.

(** What a [pop] that finds a task does: it takes the head of one queue, and comes closer
    to the next slot of every other kind that has a task waiting. *)
Record took s k (task : T) s' : Prop := {
  took_formed : well_formed s';
  took_capacity : capacity s' = capacity s;
  took_open : owner_shards_open s' = owner_shards_open s;
  took_head : queue s k = task :: queue s' k;
  took_others k' : k' ≠ k → queue s' k' = queue s k';
  took_closer k' : k' ≠ k → queue s k' ≠ [] → k' ∈ weights s → distance s' k' < distance s k';
  took_unlisted : k ∉ weights s → ∀ k', k' ∈ weights s → queue s k' = [];
}.

Lemma pop_weighted_spec fuel s : well_formed s →
  ∃ r s', pop_weighted fuel (weights s) s = Some (r, s') ∧
    match r with
    | Some task => ∃ k, k ∈ weights s ∧ took s k task s'
    | None => well_formed s' ∧ capacity s' = capacity s ∧ owner_shards_open s' = owner_shards_open s ∧ queues s' = queues s ∧
        ∀ k, queue s k ≠ [] → k ∈ weights s → distance s' k + fuel = distance s k
    end.
Proof.
  revert s. induction fuel as [|fuel IH]; intros s Hs.
  { exists None, s. split; [done|]. split_and!; try done. }
  cbn [pop_weighted]. rewrite weights_length. destruct (weights s !! Z.to_nat (cursor s mod Z.of_nat 8)) as [k|] eqn:Ek.
  2:{ apply lookup_ge_None in Ek. rewrite weights_length in Ek. pose proof (slot_lt s). unfold slot in *. change (Z.of_nat 8) with 8%Z in Ek. lia. }
  assert (weights s !! slot s = Some k) as Hslot by done. cbn [mbind option_bind]. rewrite (queue_lookup s k Hs). cbn [mbind option_bind].
  pose proof (advance_well_formed s Hs) as Hs1. destruct (queue s k) as [|task rest] eqn:Eq.
  - destruct (IH (advance_cursor s) Hs1) as (r & s' & Hr & H). change (weights (advance_cursor s)) with (weights s) in *. rewrite Hr.
    exists r, s'. split; [done|]. assert (∀ k', queue s k' ≠ [] → k' ∈ weights s → distance s k' = S (distance (advance_cursor s) k')) as Hd.
    { intros k' Hq Hk'. apply distance_advance; [done|]. rewrite Hslot. by intros [= ->]. }
    destruct r as [task|].
    + destruct H as (k' & Hk' & [Hf Hc Ho Hh Hot Hcl Hun]). exists k'. split; [done|]. constructor; try done.
      intros k2 Hne Hq Hw. specialize (Hcl k2 Hne Hq Hw). rewrite (Hd k2 Hq Hw). lia.
    + destruct H as (Hf & Hc & Ho & Hq' & Hdist). split_and!; try done. intros k2 Hq Hw. specialize (Hdist k2 Hq Hw). rewrite (Hd k2 Hq Hw). lia.
  - set (s' := with_queues (advance_cursor s) (<[kind_index k := rest]> (queues s))).
    assert (∀ k', queue s' k' = if decide (k' = k) then rest else queue s k') as Hq by (intros k'; by apply queue_insert).
    exists (Some task), s'. split; [done|]. exists k. split; [by eapply list_elem_of_lookup_2|]. constructor; try done.
    + constructor; [|apply Hs1]. simpl. rewrite length_insert. apply Hs.
    + by rewrite Hq, decide_True, Eq.
    + intros k' Hk'. by rewrite Hq, decide_False.
    + intros k' Hne Hq' Hk'. rewrite (distance_advance s k' Hk'); [|rewrite Hslot; congruence]. unfold distance. simpl. apply Nat.lt_succ_diag_r.
    + intros Hk. destruct Hk. by eapply list_elem_of_lookup_2.
Qed.

Lemma pop_spec s : well_formed s →
  ∃ r s', pop s = Some (r, s') ∧
    match r with
    | Some task => ∃ k, took s k task s'
    | None => well_formed s' ∧ capacity s' = capacity s ∧ owner_shards_open s' = owner_shards_open s ∧ ∀ k, queue s k = [] ∧ queue s' k = []
    end.
Proof.
  intros Hs. unfold pop. rewrite weights_length. destruct (pop_weighted_spec 8 s Hs) as (r & s1 & Hr & H). rewrite Hr. cbn [mbind option_bind].
  destruct r as [task|]; [destruct H as (k & _ & H); exists (Some task), s1; eauto|]. destruct H as (Hf & Hc & Ho & Hq & Hd).
  assert (∀ k, k ∈ weights s → queue s k = []) as Hempty.
  { intros k Hk. destruct (queue s k) eqn:E; [done|]. pose proof (distance_lt s k Hk). specialize (Hd k). rewrite E in Hd. specialize (Hd ltac:(done) Hk). lia. }
  assert (∀ k, queue s1 k = queue s k) as Hqs by (intros k; unfold queue; by rewrite Hq).
  destruct (queues s1) as [|q0 [|q1 [|q2 [|q3 [|]]]]] eqn:E; try by (destruct Hf as [H4 _]; rewrite E in H4).
  assert (q1 = [] ∧ q2 = [] ∧ q3 = []) as (-> & -> & ->).
  { pose proof (Hempty ResponseDecode) as H1. pose proof (Hempty Analysis) as H2. pose proof (Hempty Compress) as H3.
    unfold queue in H1, H2, H3. rewrite <- Hq in *. simpl in *. unfold weights in *.
    destruct (owner_shards_open s); split_and!; [apply H1|apply H2|apply H3|apply H1|apply H2|apply H3]; apply (bool_decide_unpack _); done. }
  destruct q0 as [|task rest]; simpl.
  - exists None. eexists. split; [done|]. split_and!; try done.
    + constructor; [done|apply Hf].
    + intros k. rewrite <- Hqs. unfold queue. rewrite E. simpl. by destruct k.
  - exists (Some task). eexists. split; [done|]. exists Dedup.
    assert (queue s Dedup = task :: rest) as Hdq by (rewrite <- Hqs; unfold queue; by rewrite E).
    assert (∀ k, k ≠ Dedup → queue s k = []) as Hothers.
    { intros k Hk. rewrite <- Hqs. unfold queue. rewrite E. by destruct k. }
    constructor; try done.
    + constructor; [done|apply Hf].
    + intros k Hk. rewrite Hothers by done. by destruct k.
    + intros k Hk Hne. by rewrite Hothers in Hne.
Qed.

Lemma scheduler_len_queues s : well_formed s → scheduler_len s = sum_list_with (λ k, length (queue s k)) all_kinds.
Proof.
  intros [H4 _]. unfold scheduler_len, queue. destruct (queues s) as [|q0 [|q1 [|q2 [|q3 [|]]]]]; try done.
Qed.

Lemma scheduler_len_zero s : well_formed s → scheduler_len s = 0 ↔ ∀ k, queue s k = [].
Proof.
  intros Hs. rewrite scheduler_len_queues by done. split.
  - intros H k. apply length_zero_iff_nil. destruct k; simpl in H; lia.
  - intros H. simpl. rewrite !H. done.
Qed.

Lemma took_len s k task s' : well_formed s → took s k task s' → scheduler_len s = S (scheduler_len s').
Proof.
  intros Hs H. rewrite !scheduler_len_queues by (done || apply H). pose proof (took_head _ _ _ _ H) as Hh. pose proof (took_others _ _ _ _ H) as Ho.
  simpl. destruct k; rewrite Hh, ?(Ho Dedup), ?(Ho ResponseDecode), ?(Ho Analysis), ?(Ho Compress) by done; simpl; lia.
Qed.

Lemma try_push_spec s k task : well_formed s →
  (capacity s ≤ scheduler_len s ∧ try_push s k task = Some (inr task)) ∨
  (scheduler_len s < capacity s ∧ ∃ s', try_push s k task = Some (inl s') ∧ well_formed s' ∧ capacity s' = capacity s ∧
    owner_shards_open s' = owner_shards_open s ∧ cursor s' = cursor s ∧ scheduler_len s' = S (scheduler_len s) ∧
    ∀ k', queue s' k' = if decide (k' = k) then queue s k ++ [task] else queue s k').
Proof.
  intros Hs. unfold try_push. case_decide as Hc; [by left|right]. split; [lia|]. rewrite (queue_lookup s k Hs). cbn [mbind option_bind].
  set (s' := with_queues s (<[kind_index k := queue s k ++ [task]]> (queues s))). exists s'. split; [done|].
  assert (well_formed s') as Hs' by (constructor; [simpl; rewrite length_insert|]; apply Hs).
  assert (∀ k', queue s' k' = if decide (k' = k) then queue s k ++ [task] else queue s k') as Hq by (intros k'; by apply queue_insert).
  split_and!; try done. rewrite !scheduler_len_queues by done. simpl. rewrite !Hq.
  destruct k; simpl; rewrite length_app; simpl; lia.
Qed.

Lemma scheduler_is_empty_spec s : well_formed s → scheduler_is_empty s = true ↔ ∀ k, queue s k = [].
Proof.
  intros Hs. rewrite <- scheduler_len_zero by done. unfold scheduler_is_empty, scheduler_len. induction (queues s) as [|[|x q] qs IH]; simpl; [done| |].
  - done.
  - split; [done|lia].
Qed.

Lemma new_well_formed n : well_formed (new_scheduler (T:=T) n).
Proof. constructor; simpl; [done|lia]. Qed.
End Facts.

(** ** Runs *)

Section Runs.
Context {T : Type} (kind_of : T → CpuTaskKind).
Implicit Types (s : WeightedScheduler T) (k : CpuTaskKind).

Inductive Operation := Push (task : T) | Pop | SetOpen (open_ : bool).

(** The tasks accepted, the tasks given out, and the scheduler after the operations. *)
Fixpoint run (ops : list Operation) s : option (list T * list T * WeightedScheduler T) :=
  match ops with
  | [] => Some ([], [], s)
  | Push task :: ops =>
      r ← try_push s (kind_of task) task;
      match r with
      | inl s' => '(accepted, popped, s'') ← run ops s'; Some (task :: accepted, popped, s'')
      | inr _ => run ops s
      end
  | Pop :: ops =>
      '(r, s') ← pop s;
      '(accepted, popped, s'') ← run ops s';
      Some (accepted, option_list r ++ popped, s'')
  | SetOpen open_ :: ops => run ops (set_owner_shards_open s open_)
  end.

Definition of_kind k (l : list T) : list T := filter (λ t, kind_of t = k) l.
Definition pops (ops : list Operation) : nat := sum_list_with (λ o, match o with Pop => 1 | _ => 0 end) ops.
Definition keeps_weights (o : Operation) : bool := match o with SetOpen _ => false | _ => true end.

(** Every queue holds the tasks of its kind. *)
Definition sorted_by_kind s : Prop := ∀ k task, task ∈ queue s k → kind_of task = k.

Lemma of_kind_cons k task l : of_kind k (task :: l) = if decide (kind_of task = k) then task :: of_kind k l else of_kind k l.
Proof. unfold of_kind. by rewrite filter_cons. Qed.

Lemma took_sorted s k task s' : sorted_by_kind s → took s k task s' → kind_of task = k ∧ sorted_by_kind s'.
Proof.
  intros Hk H. split; [apply Hk; rewrite (took_head _ _ _ _ H); by left|]. intros k' t Ht. apply Hk.
  destruct (decide (k' = k)) as [->|Hne]; [rewrite (took_head _ _ _ _ H); by right|]. by rewrite <- (took_others _ _ _ _ H).
Qed.

(** Nothing is lost, made or overtaken within a kind. *)
Lemma run_fifo ops s : well_formed s → sorted_by_kind s →
  ∃ accepted popped s', run ops s = Some (accepted, popped, s') ∧ well_formed s' ∧ sorted_by_kind s' ∧ capacity s' = capacity s ∧
    (scheduler_len s ≤ capacity s → scheduler_len s' ≤ capacity s) ∧
    ∀ k, of_kind k popped ++ queue s' k = queue s k ++ of_kind k accepted.
Proof.
  revert s. induction ops as [|[task| |open_] ops IH]; intros s Hs Hk; cbn [run].
  - exists [], [], s. split_and!; try done. intros k. by rewrite app_nil_r.
  - destruct (try_push_spec s (kind_of task) task Hs) as [[_ ->]|(Hlt & s1 & -> & Hs1 & Hc & _ & _ & Hlen & Hq)]; cbn [mbind option_bind]; [by apply IH|].
    assert (sorted_by_kind s1) as Hk1.
    { intros k t. rewrite Hq. case_decide as E; [subst k|by apply Hk]. rewrite elem_of_app, list_elem_of_singleton. intros [Ht| -> ]; [by apply Hk|done]. }
    destruct (IH s1 Hs1 Hk1) as (acc & pop_ & s' & -> & Hs' & Hk' & Hc' & Hl' & Hf). cbn [mbind option_bind]. exists (task :: acc), pop_, s'.
    split_and!; [done..|congruence|rewrite Hlen, Hc in Hl'; lia|]. intros k. rewrite Hf, Hq, of_kind_cons.
    destruct (decide (k = kind_of task)) as [->|Hne]; [rewrite decide_True by done; by rewrite <- app_assoc|by rewrite decide_False by done].
  - destruct (pop_spec s Hs) as ([task|] & s1 & -> & H); cbn [mbind option_bind].
    + destruct H as (k & H). destruct (took_sorted s k task s1 Hk H) as [<- Hk1].
      destruct (IH s1 (took_formed _ _ _ _ H) Hk1) as (acc & pop_ & s' & -> & Hs' & Hk' & Hc' & Hl' & Hf). cbn [mbind option_bind].
      exists acc, (task :: pop_), s'. rewrite (took_capacity _ _ _ _ H) in Hc', Hl'. pose proof (took_len _ _ _ _ Hs H).
      split_and!; [done..|lia|]. intros k. rewrite of_kind_cons. destruct (decide (kind_of task = k)) as [<-|Hne].
      * rewrite (took_head _ _ _ _ H). simpl. by rewrite Hf.
      * by rewrite Hf, (took_others _ _ _ _ H) by congruence.
    + destruct H as (Hs1 & Hc & _ & Hq). assert (sorted_by_kind s1) as Hk1 by (intros k t; destruct (Hq k) as [_ ->]; by intros ?%elem_of_nil).
      destruct (IH s1 Hs1 Hk1) as (acc & pop_ & s' & -> & Hs' & Hk' & Hc' & Hl' & Hf). cbn [mbind option_bind]. exists acc, pop_, s'.
      assert (scheduler_len s1 = 0) as Hz by (apply scheduler_len_zero; [done|]; apply Hq). rewrite Hc, Hz in Hl'.
      split_and!; [done..|congruence|lia|]. intros k. rewrite Hf. by destruct (Hq k) as [-> ->].
  - apply (IH (set_owner_shards_open s open_)); [|exact Hk]. destruct Hs. by constructor.
Qed.

(** A waiting task is given out within the pops that its place and the weights allow. *)
Lemma run_bounded ops s k p task : well_formed s → sorted_by_kind s → k ∈ weights s → forallb keeps_weights ops = true →
  queue s k !! p = Some task → 8 * p + distance s k < pops ops →
  ∀ accepted popped s', run ops s = Some (accepted, popped, s') → of_kind k popped !! p = Some task.
Proof.
  revert s p. induction ops as [|[task'| |open_] ops IH]; intros s p Hs Hk Hw Hops Hp Hn acc pop_ s'; cbn [run]; simpl in Hops, Hn; [lia| | |done].
  - destruct (try_push_spec s (kind_of task') task' Hs) as [[_ ->]|(Hlt & s1 & -> & Hs1 & Hc & Ho & Hcur & Hlen & Hq)]; cbn [mbind option_bind];
      [by apply IH|]. intros Hr. destruct (run ops s1) as [[[acc1 pop1] s1']|] eqn:E; [|done]. cbn [mbind option_bind] in Hr. injection Hr as <- <- <-.
    assert (weights s1 = weights s) as Hw1 by (unfold weights; by rewrite Ho). eapply (IH s1); try done.
    + intros k' t. rewrite Hq. case_decide as E'; [subst k'|by apply Hk]. rewrite elem_of_app, list_elem_of_singleton. intros [Ht| -> ]; [by apply Hk|done].
    + by rewrite Hw1.
    + rewrite Hq. case_decide as E'; [subst k|done]. by rewrite lookup_app_l by (by eapply lookup_lt_Some).
    + unfold distance, slot in *. by rewrite Hw1, Hcur.
  - destruct (pop_spec s Hs) as ([t|] & s1 & -> & H); cbn [mbind option_bind]; [|destruct H as (_ & _ & _ & H); destruct (H k) as [Hq _]; by rewrite Hq in Hp].
    destruct H as (k' & H). destruct (took_sorted s k' t s1 Hk H) as [<- Hk1]. pose proof (took_formed _ _ _ _ H) as Hs1.
    assert (weights s1 = weights s) as Hw1 by (unfold weights; by rewrite (took_open _ _ _ _ H)).
    intros Hr. destruct (run ops s1) as [[[acc1 pop1] s1']|] eqn:E; [|done]. cbn [mbind option_bind] in Hr. injection Hr as <- <- <-.
    simpl. rewrite of_kind_cons. case_decide as Ek; [subst k|].
    + rewrite (took_head _ _ _ _ H) in Hp. destruct p as [|p]; [done|]. simpl in *. eapply (IH s1); try done; [by rewrite Hw1|].
      pose proof (distance_lt s1 (kind_of t) ltac:(by rewrite Hw1)). lia.
    + eapply (IH s1); try done; [by rewrite Hw1|by rewrite (took_others _ _ _ _ H) by congruence|].
      assert (queue s k ≠ []) as Hne by (intros Hq; by rewrite Hq in Hp). pose proof (took_closer _ _ _ _ H k ltac:(congruence) Hne Hw). lia.
Qed.
End Runs.

(** C27: Over any operations on a scheduler that holds no more than its capacity: no index is
    out of range, the capacity is respected, and of every kind the tasks given out and
    the tasks still waiting are together the tasks that waited and the tasks accepted, in
    their order. While the weights stay the same, the task at place [p] of the queue of
    a kind that has a weight is the task number [p] given out of this kind as soon as
    there are [8 * (p + 1)] pops. A pop finds nothing only when no task waits, and a push
    is refused only at the capacity; a task of a kind without a weight is given out only
    when no task of the other kinds waits. *)
Theorem weighted_fairness {T} (kind_of : T → CpuTaskKind) (ops : list Operation) (s : WeightedScheduler T) :
  well_formed s → sorted_by_kind kind_of s → scheduler_len s ≤ capacity s →
  ∃ accepted popped s', run kind_of ops s = Some (accepted, popped, s') ∧
    scheduler_len s' ≤ capacity s ∧
    (∀ k, of_kind kind_of k popped ++ queue s' k = queue s k ++ of_kind kind_of k accepted) ∧
    (∀ k p task, k ∈ weights s → forallb keeps_weights ops = true → queue s k !! p = Some task → 8 * (p + 1) ≤ pops ops →
      of_kind kind_of k popped !! p = Some task) ∧
    (∃ r s'', pop s' = Some (r, s'') ∧ (r = None ↔ scheduler_len s' = 0) ∧
      (∀ task, r = Some task → kind_of task ∉ weights s' → ∀ k, k ∈ weights s' → queue s' k = [])) ∧
    (∀ task, try_push s' (kind_of task) task = Some (inr task) ↔ scheduler_len s' = capacity s).
Proof.
  intros Hs Hk Hlen. destruct (run_fifo kind_of ops s Hs Hk) as (acc & popped & s' & Hr & Hs' & Hk' & Hc & Hl & Hf).
  exists acc, popped, s'. split_and!; [done|by apply Hl|done| | |].
  - intros k p task Hw Hops Hp Hn. eapply (run_bounded kind_of ops s k p task); try done. pose proof (distance_lt s k Hw). lia.
  - destruct (pop_spec s' Hs') as (r & s'' & Hpop & H). exists r, s''. split; [done|]. destruct r as [task|].
    + destruct H as (k & H). destruct (took_sorted kind_of s' k task s'' Hk' H) as [Hkind _]. rewrite (took_len _ _ _ _ Hs' H). split; [done|].
      intros t [= ->]. rewrite Hkind. apply (took_unlisted _ _ _ _ H).
    + split; [|done]. split; [|done]. intros _. apply scheduler_len_zero; [done|]. apply H.
  - intros task. specialize (Hl Hlen). destruct (try_push_spec s' (kind_of task) task Hs') as [[Hge ->]|(Hlt & s1 & -> & _)]; [split; [lia|done]|].
    split; [done|lia].
Qed.

Lemma weighted_fairness_witness :
  let s := new_scheduler (T := CpuTaskKind * nat) 3 in
  let ops := [Push (Analysis, 0); Push (Dedup, 1); Push (Compress, 2); Push (Dedup, 3); Pop; Push (Dedup, 4); Pop; Pop; Pop] in
  (∃ accepted popped s', run fst ops s = Some (accepted, popped, s') ∧ scheduler_len s' ≤ capacity s) ∧
  fst <$> run fst ops s = Some ([(Analysis, 0); (Dedup, 1); (Compress, 2); (Dedup, 4)], [(Dedup, 1); (Dedup, 4); (Analysis, 0); (Compress, 2)]).
Proof.
  split; [|vm_compute; reflexivity].
  destruct (weighted_fairness fst [Push (Analysis, 0); Push (Dedup, 1); Push (Compress, 2); Push (Dedup, 3); Pop; Push (Dedup, 4); Pop; Pop; Pop] (new_scheduler 3))
    as (acc & popped & s' & Hr & Hl & _).
  - apply new_well_formed.
  - intros k task. destruct k; intros H; destruct (not_elem_of_nil _ H).
  - vm_compute. lia.
  - exists acc, popped, s'. split; [exact Hr | exact Hl].
Defined.
