(* ===== verification/Executor.v ===== *)
(** The processor executor ([pipeline/cpu_executor.rs], the placements of
    [platform.rs]): lanes of workers, each with a weighted queue under a lock, and an
    admission that bounds the tasks in flight. [None] is a panic. The thread pools, the
    start of their threads and the notifications of the waiting threads are outside:
    [start_lane] says whether the threads of a lane could be started. *)

From S2P Require Import Prelude Scheduler.

Record WorkerPlacement := { cpu : Z; numa_node : option Z }.
#[export] Instance WorkerPlacement_eq_dec : EqDecision WorkerPlacement.
Proof. solve_decision. Defined.

Inductive ExecutorError :=
  | ConfigError
  | TooFewCpus (received workers : nat)
  | TooFewPlacements (received workers : nat)
  | StartError (message : string).

(** ** Placements *)

(** [by_node.entry(node).or_default().push(placement)], the entries in key order. *)
Fixpoint push_node (node : Z) (p : WorkerPlacement) (by_node : list (Z * list WorkerPlacement)) : list (Z * list WorkerPlacement) :=
  match by_node with
  | [] => [(node, [p])]
  | (n, ps) :: rest =>
      match Z.compare node n with
      | Lt => (node, [p]) :: (n, ps) :: rest
      | Eq => (n, ps ++ [p]) :: rest
      | Gt => (n, ps) :: push_node node p rest
      end
  end.

(** [&placements[..workers]] *)
Definition first_placements (workers : nat) (ps : list WorkerPlacement) : option (list WorkerPlacement) :=
  if decide (workers ≤ length ps) then Some (take workers ps) else None.

Definition partition_placements (workers : nat) (placements : option (list WorkerPlacement)) : option (list (option (list WorkerPlacement))) :=
  match placements with
  | None => Some [None]
  | Some placements =>
      used ← first_placements workers placements;
      if existsb (λ p, match numa_node p with None => true | Some _ => false end) used then Some [Some used]
      else
        by_node ← foldM (λ m p, node ← numa_node p; Some (push_node node p m)) [] used;
        if decide (1 < length by_node) then Some (Some <$> by_node.*2) else Some [Some used]
  end.

Section Executor.
Context {T : Type}.

Record DispatchState := { scheduler : WeightedScheduler T; running : nat }.
Record Dispatcher := { state : DispatchState; dispatcher_workers : nat }.
Record Admission := { limit : nat; inflight : nat }.
Record CpuExecutor := { lanes : list Dispatcher; workers : nat; admission : Admission; active : Z; next_lane : Z }.

(** ** Dispatch *)

Fixpoint take_ready_loop (fuel : nat) (workers : nat) (st : DispatchState) : option (list T * DispatchState) :=
  match fuel with
  | 0 => Some ([], st)
  | S fuel =>
      '(r, s) ← pop (scheduler st);
      match r with
      | None => Some ([], {| scheduler := s; running := running st |})
      | Some job =>
          '(jobs, st') ← take_ready_loop fuel workers {| scheduler := s; running := S (running st) |};
          Some (job :: jobs, st')
      end
  end.

(** The loop runs while [self.running < workers], and every round adds one. *)
Definition take_ready (st : DispatchState) (workers : nat) : option (list T * DispatchState) :=
  take_ready_loop (workers - running st) workers st.

(** The jobs to be spawned, and the state after. *)
Definition enqueue (d : Dispatcher) (k : CpuTaskKind) (job : T) : option (list T * Dispatcher) :=
  r ← try_push (scheduler (state d)) k job;
  match r with
  | inr _ => None
  | inl s =>
      '(jobs, st) ← take_ready {| scheduler := s; running := running (state d) |} (dispatcher_workers d);
      Some (jobs, {| state := st; dispatcher_workers := dispatcher_workers d |})
  end.

Definition complete (d : Dispatcher) : option (list T * Dispatcher) :=
  match running (state d) with
  | 0 => None
  | S n =>
      '(jobs, st) ← take_ready {| scheduler := scheduler (state d); running := n |} (dispatcher_workers d);
      Some (jobs, {| state := st; dispatcher_workers := dispatcher_workers d |})
  end.

Definition dispatcher_set_open (d : Dispatcher) (open_ : bool) : Dispatcher :=
  {| state := {| scheduler := set_owner_shards_open (scheduler (state d)) open_; running := running (state d) |};
     dispatcher_workers := dispatcher_workers d |}.

(** ** Admission *)

(** [acquire_blocking] and a round of [acquire_async]: [None] waits. *)
Definition acquire (a : Admission) : option Admission :=
  if decide (limit a ≤ inflight a) then None else Some {| limit := limit a; inflight := S (inflight a) |}.

(** The drop of a permit. *)
Definition release (a : Admission) : option Admission :=
  match inflight a with 0 => None | S n => Some {| limit := limit a; inflight := n |} end.

(** ** The executor *)

Context (start_lane : nat → nat → option (list WorkerPlacement) → option string).

Definition new_dispatcher (workers capacity : nat) : Dispatcher :=
  {| state := {| scheduler := new_scheduler capacity; running := 0 |}; dispatcher_workers := workers |}.

Definition lane_workers (workers : nat) (assignments : option (list WorkerPlacement)) : nat :=
  match assignments with Some ps => length ps | None => workers end.

Fixpoint build_lanes (lane_index workers capacity : nat) (lane_placements : list (option (list WorkerPlacement))) : list Dispatcher + string :=
  match lane_placements with
  | [] => inl []
  | assignments :: rest =>
      match start_lane lane_index (lane_workers workers assignments) assignments with
      | Some message => inr message
      | None =>
          match build_lanes (S lane_index) workers capacity rest with
          | inl lanes => inl (new_dispatcher (lane_workers workers assignments) capacity :: lanes)
          | inr message => inr message
          end
      end
  end.

(** [usize::saturating_add], [usize::saturating_mul] *)
Definition usize_add (a b : nat) : nat := Z.to_nat (Z.min (Z.of_nat a + Z.of_nat b) (2 ^ 64 - 1)).
Definition usize_mul (a b : nat) : nat := Z.to_nat (Z.min (Z.of_nat a * Z.of_nat b) (2 ^ 64 - 1)).

Definition build (workers queue_capacity : nat) (placements : option (list WorkerPlacement)) : option (CpuExecutor + ExecutorError) :=
  if bool_decide (workers = 0) || bool_decide (queue_capacity = 0) then Some (inr ConfigError)
  else
    lane_placements ← partition_placements workers placements;
    let scheduler_capacity := usize_add workers queue_capacity in
    match build_lanes 0 workers scheduler_capacity lane_placements with
    | inr message => Some (inr (StartError message))
    | inl lanes => Some (inl {| lanes := lanes; workers := workers; admission := {| limit := scheduler_capacity; inflight := 0 |}; active := 0; next_lane := 0 |})
    end.

Definition new (workers : nat) := build workers (Nat.max (usize_mul workers 4) 1) None.
Definition new_bounded (workers queue_capacity : nat) := build workers queue_capacity None.
Definition new_pinned_bounded (workers queue_capacity : nat) (cpus : list Z) : option (CpuExecutor + ExecutorError) :=
  if decide (length cpus < workers) then Some (inr (TooFewCpus (length cpus) workers))
  else build workers queue_capacity (Some ((λ cpu, {| cpu := cpu; numa_node := None |}) <$> cpus)).
Definition new_pinned (workers : nat) (cpus : list Z) := new_pinned_bounded workers (Nat.max (usize_mul workers 4) 1) cpus.
Definition new_numa_bounded (workers queue_capacity : nat) (placements : list WorkerPlacement) : option (CpuExecutor + ExecutorError) :=
  if decide (length placements < workers) then Some (inr (TooFewPlacements (length placements) workers))
  else build workers queue_capacity (Some placements).

Definition utilization (e : CpuExecutor) : Z * Z := (active e, Z.max 0 (Z.of_nat (inflight (admission e)) - active e)).

(** How a submission chooses its lane: the hash of a route, a lane, or the next lane. *)
Inductive Route := Routed (hash : Z) | OnLane (lane : Z) | NextLane.

Definition lane_modulo (e : CpuExecutor) (n : Z) : option nat :=
  if decide (length (lanes e) = 0) then None else Some (Z.to_nat (n mod Z.of_nat (length (lanes e)))).

(** [lane_for], [submit_kind_on_lane], [next_lane] *)
Definition choose_lane (e : CpuExecutor) (route : Route) : option (nat * CpuExecutor) :=
  match route with
  | Routed n | OnLane n => lane ← lane_modulo e n; Some (lane, e)
  | NextLane =>
      lane ← lane_modulo e (next_lane e);
      Some (lane, {| lanes := lanes e; workers := workers e; admission := admission e; active := active e; next_lane := (next_lane e + 1) mod 2 ^ 64 |})
  end.

Definition with_admission (e : CpuExecutor) (a : Admission) : CpuExecutor :=
  {| lanes := lanes e; workers := workers e; admission := a; active := active e; next_lane := next_lane e |}.
Definition with_active (e : CpuExecutor) (n : Z) : CpuExecutor :=
  {| lanes := lanes e; workers := workers e; admission := admission e; active := n mod 2 ^ 64; next_lane := next_lane e |}.
Definition with_lane (e : CpuExecutor) (i : nat) (d : Dispatcher) : CpuExecutor :=
  {| lanes := <[i := d]> (lanes e); workers := workers e; admission := admission e; active := active e; next_lane := next_lane e |}.

Definition executor_enqueue (e : CpuExecutor) (i : nat) (k : CpuTaskKind) (job : T) : option (list T * CpuExecutor) :=
  d ← lanes e !! i; '(jobs, d') ← enqueue d k job; Some (jobs, with_lane e i d').
Definition executor_complete (e : CpuExecutor) (i : nat) : option (list T * CpuExecutor) :=
  d ← lanes e !! i; '(jobs, d') ← complete d; Some (jobs, with_lane e i d').
Definition executor_release (e : CpuExecutor) : option CpuExecutor := with_admission e <$> release (admission e).
End Executor.
Arguments Dispatcher T : clear implicits.
Arguments CpuExecutor T : clear implicits.
Arguments DispatchState T : clear implicits.

(** ** The system of tasks *)

(** A spawned closure: not started; in its job, with the permit; the permit given back;
    no more active, with its completion to come. *)
Inductive Phase := Spawned | Running | Released | Inactive.

Section System.
Context {T : Type} (kind_of : T → CpuTaskKind).

(** [submitting] holds the tasks that have a permit and a lane and are not enqueued yet. *)
Record System := { executor : CpuExecutor T; submitting : list (nat * T); pool : list (Phase * (nat * T)); finished : list T }.

Definition spawn (i : nat) (jobs : list T) : list (Phase * (nat * T)) := (λ job, (Spawned, (i, job))) <$> jobs.

(** A step of a task that was submitted. *)
Inductive internal : System → System → Prop :=
  | step_enqueue e i t l1 l2 p f jobs e' : executor_enqueue e i (kind_of t) t = Some (jobs, e') →
      internal {| executor := e; submitting := l1 ++ (i, t) :: l2; pool := p; finished := f |}
               {| executor := e'; submitting := l1 ++ l2; pool := p ++ spawn i jobs; finished := f |}
  | step_start e s x p1 p2 f :
      internal {| executor := e; submitting := s; pool := p1 ++ (Spawned, x) :: p2; finished := f |}
               {| executor := with_active e (active e + 1); submitting := s; pool := p1 ++ (Running, x) :: p2; finished := f |}
  | step_release e s x p1 p2 f e' : executor_release e = Some e' →
      internal {| executor := e; submitting := s; pool := p1 ++ (Running, x) :: p2; finished := f |}
               {| executor := e'; submitting := s; pool := p1 ++ (Released, x) :: p2; finished := f |}
  | step_inactive e s x p1 p2 f :
      internal {| executor := e; submitting := s; pool := p1 ++ (Released, x) :: p2; finished := f |}
               {| executor := with_active e (active e - 1); submitting := s; pool := p1 ++ (Inactive, x) :: p2; finished := f |}
  | step_complete e s i t p1 p2 f jobs e' : executor_complete e i = Some (jobs, e') →
      internal {| executor := e; submitting := s; pool := p1 ++ (Inactive, (i, t)) :: p2; finished := f |}
               {| executor := e'; submitting := s; pool := (p1 ++ p2) ++ spawn i jobs; finished := f ++ [t] |}.

(** The systems reachable from an executor, with the tasks submitted so far. *)
Inductive reachable (e0 : CpuExecutor T) : list T → System → Prop :=
  | reachable_start : reachable e0 [] {| executor := e0; submitting := []; pool := []; finished := [] |}
  | reachable_submit ts sys route t a i e : reachable e0 ts sys → acquire (admission (executor sys)) = Some a →
      choose_lane (with_admission (executor sys) a) route = Some (i, e) →
      reachable e0 (ts ++ [t]) {| executor := e; submitting := submitting sys ++ [(i, t)]; pool := pool sys; finished := finished sys |}
  | reachable_open ts sys i d open_ : reachable e0 ts sys → lanes (executor sys) !! i = Some d →
      reachable e0 ts {| executor := with_lane (executor sys) i (dispatcher_set_open d open_);
                         submitting := submitting sys; pool := pool sys; finished := finished sys |}
  | reachable_internal ts sys sys' : reachable e0 ts sys → internal sys sys' → reachable e0 ts sys'.

(** ** Invariant *)

Definition lane_queue (d : Dispatcher T) : list T := concat (queues (scheduler (state d))).
Definition queued (e : CpuExecutor T) : list T := concat (lane_queue <$> lanes e).
Definition in_lane (i : nat) (p : list (Phase * (nat * T))) : nat := sum_list_with (λ x, if decide (x.2.1 = i) then 1 else 0) p.
Definition permits (p : list (Phase * (nat * T))) : nat := sum_list_with (λ x, match x.1 with Spawned | Running => 1 | _ => 0 end) p.
Definition actives (p : list (Phase * (nat * T))) : nat := sum_list_with (λ x, match x.1 with Running | Released => 1 | _ => 0 end) p.

(** A lane keeps its workers busy while it has tasks. *)
Record busy (limit : nat) (d : Dispatcher T) : Prop := {
  busy_formed : well_formed (scheduler (state d));
  busy_capacity : capacity (scheduler (state d)) = limit;
  busy_workers : 0 < dispatcher_workers d;
  busy_running : running (state d) ≤ dispatcher_workers d;
  busy_conserving : running (state d) < dispatcher_workers d → lane_queue d = [];
}.

Record invariant (ts : list T) (sys : System) : Prop := {
  inv_lanes i d : lanes (executor sys) !! i = Some d →
    busy (limit (admission (executor sys))) d ∧ running (state d) = in_lane i (pool sys);
  inv_submitting i t : (i, t) ∈ submitting sys → i < length (lanes (executor sys));
  inv_pool ph i t : (ph, (i, t)) ∈ pool sys → i < length (lanes (executor sys));
  inv_nonempty : lanes (executor sys) ≠ [];
  inv_inflight : inflight (admission (executor sys)) = length (submitting sys) + length (queued (executor sys)) + permits (pool sys);
  inv_limit : inflight (admission (executor sys)) ≤ limit (admission (executor sys));
  inv_active : active (executor sys) = (Z.of_nat (actives (pool sys)) mod 2 ^ 64)%Z;
  inv_tasks : ts ≡ₚ (submitting sys).*2 ++ queued (executor sys) ++ (pool sys).*2.*2 ++ finished sys;
}.
End System.
