(* ===== verification/ExecutorRuns.v ===== *)
(** Every task that is submitted to the executor runs, once, and comes to its end in a
    bounded number of steps; no lane is idle while it has tasks, and the admission keeps
    the queues within their capacity. *)

From S2P Require Import Prelude Scheduler Executor.

(** ** Lists *)

Lemma sum_list_with_split {A} (f : A → nat) l1 x l2 : sum_list_with f (l1 ++ x :: l2) = f x + sum_list_with f (l1 ++ l2).
Proof using Type. rewrite !sum_list_with_app. simpl. lia. Qed.

Lemma lookup_split {A} (l : list A) i x : l !! i = Some x → l = take i l ++ x :: drop (S i) l.
Proof using Type. intros Hx. by rewrite take_drop_middle. Qed.

Lemma insert_nonempty {A} (l : list A) i x : l ≠ [] → <[i := x]> l ≠ [].
Proof using Type. intros Hl E. apply (f_equal length) in E. rewrite length_insert in E. by destruct l. Qed.

(** ** Queues *)

Section Dispatch.
Context {T : Type}.
Implicit Types (s : WeightedScheduler T) (d : Dispatcher T).

Lemma concat_queues s : well_formed s → concat (queues s) = queue s Dedup ++ queue s ResponseDecode ++ queue s Analysis ++ queue s Compress.
Proof using Type.
  intros [H4 _]. unfold queue. destruct (queues s) as [|q0 [|q1 [|q2 [|q3 [|]]]]]; try done. simpl. by rewrite app_nil_r.
Qed.

Lemma length_concat_queues s : scheduler_len s = length (concat (queues s)).
Proof using Type. unfold scheduler_len. induction (queues s) as [|q qs IH]; [done|]. cbn [concat]. rewrite length_app, <- IH. done. Qed.

Lemma took_concat s k task s' : well_formed s → took s k task s' → concat (queues s) ≡ₚ task :: concat (queues s').
Proof using Type.
  intros Hs H. rewrite !concat_queues by (done || apply H). pose proof (took_head _ _ _ _ H) as Hh. pose proof (took_others _ _ _ _ H) as Ho.
  destruct k; rewrite Hh, ?(Ho Dedup), ?(Ho ResponseDecode), ?(Ho Analysis), ?(Ho Compress) by done; solve_Permutation.
Qed.

Lemma pushed_concat s s' k task : well_formed s → well_formed s' →
  (∀ k', queue s' k' = if decide (k' = k) then queue s k ++ [task] else queue s k') → concat (queues s') ≡ₚ task :: concat (queues s).
Proof using Type. intros Hs Hs' Hq. rewrite !concat_queues, !Hq by done. destruct k; simpl; solve_Permutation. Qed.

Lemma take_ready_loop_spec fuel w (st : DispatchState T) : well_formed (scheduler st) →
  ∃ jobs st', take_ready_loop fuel w st = Some (jobs, st') ∧ well_formed (scheduler st') ∧ capacity (scheduler st') = capacity (scheduler st) ∧
    running st' = running st + length jobs ∧ length jobs ≤ fuel ∧
    (length jobs < fuel → concat (queues (scheduler st')) = []) ∧
    concat (queues (scheduler st)) ≡ₚ jobs ++ concat (queues (scheduler st')).
Proof using Type.
  revert st. induction fuel as [|fuel IH]; intros st Hs; cbn [take_ready_loop].
  { exists [], st. split_and!; try done; simpl; lia. }
  destruct (pop_spec (scheduler st) Hs) as ([job|] & s & -> & H); cbn [mbind option_bind].
  - destruct H as (k & H). destruct (IH {| scheduler := s; running := S (running st) |} (took_formed _ _ _ _ H)) as (jobs & st' & -> & Hf & Hc & Hr & Hl & He & Hp).
    cbn [mbind option_bind]. exists (job :: jobs), st'. simpl in *. rewrite (took_capacity _ _ _ _ H) in Hc.
    split_and!; [done..|lia|lia|intros ?; apply He; lia|]. rewrite (took_concat _ _ _ _ Hs H). by rewrite Hp.
  - destruct H as (Hf & Hc & _ & Hq). exists [], {| scheduler := s; running := running st |}. simpl.
    assert (∀ s0, well_formed s0 → (∀ k, queue s0 k = []) → concat (queues s0) = []) as Hnil by (intros s0 H0 Hq0; by rewrite concat_queues, !Hq0).
    split_and!; [done..|lia|lia| |]; [intros _; apply Hnil; [done|]; apply Hq|]. rewrite !Hnil by (done || apply Hq). done.
Qed.

Definition lane_busy_except (limit n : nat) d : Prop :=
  well_formed (scheduler (state d)) ∧ capacity (scheduler (state d)) = limit ∧ 0 < dispatcher_workers d ∧ n ≤ dispatcher_workers d.

Lemma take_ready_spec d s n limit : well_formed s → capacity s = limit → 0 < dispatcher_workers d → n ≤ dispatcher_workers d →
  ∃ jobs st, take_ready {| scheduler := s; running := n |} (dispatcher_workers d) = Some (jobs, st) ∧
    busy limit {| state := st; dispatcher_workers := dispatcher_workers d |} ∧ running st = n + length jobs ∧
    concat (queues s) ≡ₚ jobs ++ concat (queues (scheduler st)).
Proof using Type.
  intros Hs Hc Hw Hn. unfold take_ready. simpl.
  destruct (take_ready_loop_spec (dispatcher_workers d - n) (dispatcher_workers d) {| scheduler := s; running := n |} Hs)
    as (jobs & st & -> & Hf & Hc' & Hr & Hl & He & Hp). exists jobs, st. simpl in *. split_and!; [done| |done|done].
  constructor; simpl; [done|congruence|done|lia|]. intros Hlt. apply He. lia.
Qed.

Lemma enqueue_spec limit d k job : busy limit d → length (lane_queue d) < limit →
  ∃ jobs d', enqueue d k job = Some (jobs, d') ∧ busy limit d' ∧ running (state d') = running (state d) + length jobs ∧
    job :: lane_queue d ≡ₚ jobs ++ lane_queue d'.
Proof using Type.
  intros [Hf Hc Hw Hr Hb] Hl. unfold enqueue.
  destruct (try_push_spec (scheduler (state d)) k job Hf) as [[Hge _]|(_ & s & -> & Hs & Hcs & _ & _ & _ & Hq)].
  { rewrite length_concat_queues, Hc in Hge. unfold lane_queue in Hl. lia. }
  cbn [mbind option_bind]. rewrite Hc in Hcs. destruct (take_ready_spec d s (running (state d)) limit Hs Hcs Hw Hr) as (jobs & st & -> & Hb' & Hr' & Hp).
  cbn [mbind option_bind]. eexists jobs, _. split_and!; [done|done|done|]. unfold lane_queue. simpl. rewrite <- Hp.
  by rewrite (pushed_concat _ _ _ _ Hf Hs Hq).
Qed.

Lemma complete_spec limit d : busy limit d → 0 < running (state d) →
  ∃ jobs d', complete d = Some (jobs, d') ∧ busy limit d' ∧ S (running (state d')) = running (state d) + length jobs ∧
    lane_queue d ≡ₚ jobs ++ lane_queue d'.
Proof using Type.
  intros [Hf Hc Hw Hr Hb] Hl. unfold complete. destruct (running (state d)) as [|n] eqn:E; [lia|].
  destruct (take_ready_spec d (scheduler (state d)) n limit Hf Hc Hw) as (jobs & st & -> & Hb' & Hr' & Hp); [lia|].
  cbn [mbind option_bind]. eexists jobs, _. split_and!; [done|done|simpl; lia|done].
Qed.
End Dispatch.

(** ** Steps *)

Section Steps.
Context {T : Type}.
Implicit Types (e : CpuExecutor T) (sys : System (T:=T)) (d : Dispatcher T).

Lemma queued_with_lane e i d d' (added jobs : list T) :
  lanes e !! i = Some d → added ++ lane_queue d ≡ₚ jobs ++ lane_queue d' → added ++ queued e ≡ₚ jobs ++ queued (with_lane e i d').
Proof using Type.
  intros Hd Hp. unfold queued, with_lane. simpl. rewrite (insert_take_drop _ _ _ (lookup_lt_Some _ _ _ Hd)), (lookup_split _ _ _ Hd) at 1.
  rewrite !fmap_app, !concat_app. simpl. rewrite (Permutation_app_swap_app added), (Permutation_app_swap_app jobs).
  rewrite !(app_assoc _ (lane_queue _)), Hp. done.
Qed.

Lemma lane_queue_length e i d : lanes e !! i = Some d → length (lane_queue d) ≤ length (queued e).
Proof using Type.
  intros Hd. unfold queued. rewrite (lookup_split _ _ _ Hd), fmap_app, concat_app. simpl. rewrite !length_app. lia.
Qed.

Lemma in_lane_app i (p1 p2 : list (Phase * (nat * T))) : in_lane i (p1 ++ p2) = in_lane i p1 + in_lane i p2.
Proof using Type. apply sum_list_with_app. Qed.
Lemma permits_app (p1 p2 : list (Phase * (nat * T))) : permits (p1 ++ p2) = permits p1 + permits p2.
Proof using Type. apply sum_list_with_app. Qed.
Lemma actives_app (p1 p2 : list (Phase * (nat * T))) : actives (p1 ++ p2) = actives p1 + actives p2.
Proof using Type. apply sum_list_with_app. Qed.

Lemma in_lane_spawn i j (jobs : list T) : in_lane i (spawn j jobs) = if decide (j = i) then length jobs else 0.
Proof using Type. unfold in_lane. induction jobs as [|job jobs IH]; simpl; [by case_decide|]. rewrite IH. by case_decide. Qed.
Lemma permits_spawn j (jobs : list T) : permits (spawn j jobs) = length jobs.
Proof using Type. unfold permits. induction jobs as [|job jobs IH]; simpl; [done|]. by rewrite IH. Qed.
Lemma actives_spawn j (jobs : list T) : actives (spawn j jobs) = 0.
Proof using Type. unfold actives. induction jobs as [|job jobs IH]; simpl; [done|]. by rewrite IH. Qed.
Lemma tasks_spawn j (jobs : list T) : (spawn j jobs).*2.*2 = jobs.
Proof using Type. unfold spawn. rewrite <- !list_fmap_compose. rewrite <- (list_fmap_id jobs) at 2. by apply list_fmap_ext. Qed.
Lemma in_lane_elem i ph t (p : list (Phase * (nat * T))) : (ph, (i, t)) ∈ p → 0 < in_lane i p.
Proof using Type. intros [p1 [p2 ->]]%list_elem_of_split. rewrite in_lane_app. unfold in_lane at 2. simpl. rewrite decide_True by done. lia. Qed.

(** A lane that spawns jobs. *)
Lemma lanes_update limit e i d d' (p p' : list (Phase * (nat * T))) (jobs : list T) :
  (∀ j dj, lanes e !! j = Some dj → busy limit dj ∧ running (state dj) = in_lane j p) →
  lanes e !! i = Some d → busy limit d' → running (state d') = in_lane i p' + length jobs → (∀ j, j ≠ i → in_lane j p' = in_lane j p) →
  ∀ j dj, lanes (with_lane e i d') !! j = Some dj → busy limit dj ∧ running (state dj) = in_lane j (p' ++ spawn i jobs).
Proof using Type.
  intros Hl Hd Hb Hr Hp j dj. unfold with_lane. simpl. intros Hj. rewrite in_lane_app, in_lane_spawn. destruct (decide (i = j)) as [->|Hne].
  - rewrite list_lookup_insert_eq in Hj by (by eapply lookup_lt_Some). by injection Hj as <-.
  - rewrite list_lookup_insert_ne in Hj by done. rewrite (Hp j), Nat.add_0_r by done. by apply Hl.
Qed.

Lemma executor_enqueue_spec (kind_of : T → CpuTaskKind) ts sys i t : invariant ts sys → (i, t) ∈ submitting sys →
  ∃ d jobs d', lanes (executor sys) !! i = Some d ∧ executor_enqueue (executor sys) i (kind_of t) t = Some (jobs, with_lane (executor sys) i d') ∧
    busy (limit (admission (executor sys))) d' ∧ running (state d') = in_lane i (pool sys) + length jobs ∧
    t :: lane_queue d ≡ₚ jobs ++ lane_queue d'.
Proof using Type.
  intros H Hin. destruct (lookup_lt_is_Some_2 (lanes (executor sys)) i (inv_submitting _ _ H _ _ Hin)) as [d Hd].
  destruct (inv_lanes _ _ H i d Hd) as [Hb Hr]. unfold executor_enqueue. rewrite Hd. cbn [mbind option_bind].
  destruct (enqueue_spec (limit (admission (executor sys))) d (kind_of t) t Hb) as (jobs & d' & -> & Hb' & Hr' & Hp).
  - pose proof (inv_limit _ _ H). rewrite (inv_inflight _ _ H) in *. pose proof (lane_queue_length _ _ _ Hd).
    apply list_elem_of_split in Hin as (l1 & l2 & E). rewrite E, length_app in *. simpl in *. lia.
  - exists d, jobs, d'. split_and!; [done|done|done|lia|done].
Qed.

Lemma executor_complete_spec ts sys i ph t : invariant ts sys → (ph, (i, t)) ∈ pool sys →
  ∃ d jobs d', lanes (executor sys) !! i = Some d ∧ executor_complete (executor sys) i = Some (jobs, with_lane (executor sys) i d') ∧
    busy (limit (admission (executor sys))) d' ∧ S (running (state d')) = in_lane i (pool sys) + length jobs ∧
    lane_queue d ≡ₚ jobs ++ lane_queue d'.
Proof using Type.
  intros H Hin. destruct (lookup_lt_is_Some_2 (lanes (executor sys)) i (inv_pool _ _ H _ _ _ Hin)) as [d Hd].
  destruct (inv_lanes _ _ H i d Hd) as [Hb Hr]. unfold executor_complete. rewrite Hd. cbn [mbind option_bind].
  pose proof (in_lane_elem _ _ _ _ Hin). destruct (complete_spec (limit (admission (executor sys))) d Hb) as (jobs & d' & -> & Hb' & Hr' & Hp); [lia|].
  exists d, jobs, d'. split_and!; [done|done|done|lia|done].
Qed.

Lemma executor_release_spec ts sys x : invariant ts sys → (Running, x) ∈ pool sys →
  ∃ n, inflight (admission (executor sys)) = S n ∧
    executor_release (executor sys) = Some (with_admission (executor sys) {| limit := limit (admission (executor sys)); inflight := n |}).
Proof using Type.
  intros H Hin. pose proof (inv_inflight _ _ H) as Hi. apply list_elem_of_split in Hin as (p1 & p2 & E). rewrite E, permits_app in Hi.
  unfold permits in Hi at 2. simpl in Hi. unfold executor_release, release. destruct (inflight (admission (executor sys))) as [|n]; [lia|]. by exists n.
Qed.

Lemma invariant_enqueue (kind_of : T → CpuTaskKind) ts e i t l1 l2 p f jobs e' :
  invariant ts {| executor := e; submitting := l1 ++ (i, t) :: l2; pool := p; finished := f |} →
  executor_enqueue e i (kind_of t) t = Some (jobs, e') →
  invariant ts {| executor := e'; submitting := l1 ++ l2; pool := p ++ spawn i jobs; finished := f |} ∧
  length (queued e) + 1 = length (queued e') + length jobs.
Proof using Type.
  intros H He. destruct (executor_enqueue_spec kind_of _ _ i t H) as (d & jobs' & d' & Hd & He' & Hb & Hr & Hp); [simpl; set_solver|].
  simpl in *. rewrite He in He'. injection He' as <- ->. pose proof (queued_with_lane e i d d' [t] jobs Hd Hp) as Hq.
  assert (length (queued e) + 1 = length (queued (with_lane e i d')) + length jobs) as Hlen.
  { apply Permutation_length in Hq. rewrite !length_app in Hq. simpl in Hq. lia. }
  split; [|done]. destruct H as [Hl Hs Hpool Hne Hi Hlim Ha Ht]. simpl in *. constructor; simpl.
  - by apply (lanes_update _ e i d d' p p jobs).
  - intros j t' Hj. rewrite length_insert. apply (Hs j t'). set_solver.
  - intros ph j t' Hj. rewrite length_insert. apply elem_of_app in Hj as [Hj|Hj]; [by eapply Hpool|].
    apply list_elem_of_fmap in Hj as (job & [= _ -> _] & _). by eapply lookup_lt_Some.
  - by apply insert_nonempty.
  - rewrite permits_app, permits_spawn, Hi, !length_app. simpl. lia.
  - done.
  - by rewrite actives_app, actives_spawn, Nat.add_0_r.
  - rewrite Ht, !fmap_app, tasks_spawn. simpl. assert (t :: queued e ≡ₚ jobs ++ queued (with_lane e i d')) as Hq' by exact Hq.
    transitivity (l1.*2 ++ l2.*2 ++ (t :: queued e) ++ p.*2.*2 ++ f); [solve_Permutation|]. rewrite Hq'. solve_Permutation.
Qed.

Lemma invariant_complete ts e s i t p1 p2 f jobs e' :
  invariant ts {| executor := e; submitting := s; pool := p1 ++ (Inactive, (i, t)) :: p2; finished := f |} →
  executor_complete e i = Some (jobs, e') →
  invariant ts {| executor := e'; submitting := s; pool := (p1 ++ p2) ++ spawn i jobs; finished := f ++ [t] |} ∧
  length (queued e) = length (queued e') + length jobs.
Proof using Type.
  intros H He. destruct (executor_complete_spec _ _ i Inactive t H) as (d & jobs' & d' & Hd & He' & Hb & Hr & Hp); [simpl; set_solver|].
  simpl in *. rewrite He in He'. injection He' as <- ->. pose proof (queued_with_lane e i d d' [] jobs Hd Hp) as Hq. simpl in Hq.
  assert (length (queued e) = length (queued (with_lane e i d')) + length jobs) as Hlen.
  { apply Permutation_length in Hq. rewrite length_app in Hq. lia. }
  split; [|done]. destruct H as [Hl Hs Hpool Hne Hi Hlim Ha Ht]. simpl in *.
  assert (∀ j, in_lane j (p1 ++ (Inactive, (i, t)) :: p2) = (if decide (i = j) then 1 else 0) + in_lane j (p1 ++ p2)) as Hin
    by (intros j; unfold in_lane; by rewrite sum_list_with_split).
  constructor; simpl.
  - apply (lanes_update _ e i d d' (p1 ++ (Inactive, (i, t)) :: p2) (p1 ++ p2) jobs); [done..| |].
    + rewrite Hin, decide_True in Hr by done. lia.
    + intros j Hj. by rewrite Hin, decide_False by done.
  - intros j t' Hj. rewrite length_insert. by eapply Hs.
  - intros ph j t' Hj. rewrite length_insert. apply elem_of_app in Hj as [Hj|Hj]; [apply (Hpool ph j t'); set_solver|].
    apply list_elem_of_fmap in Hj as (job & [= _ -> _] & _). by eapply lookup_lt_Some.
  - by apply insert_nonempty.
  - rewrite permits_app, permits_spawn, Hi. unfold permits. rewrite sum_list_with_split. simpl. lia.
  - done.
  - rewrite Ha, (actives_app (p1 ++ p2)), actives_spawn, Nat.add_0_r. unfold actives. by rewrite sum_list_with_split.
  - rewrite Ht, !fmap_app, tasks_spawn, Hq. simpl. solve_Permutation.
Qed.

(** A step of a spawned closure that spawns nothing. *)
Lemma invariant_phase ts e e' s x ph ph' p1 p2 f :
  invariant ts {| executor := e; submitting := s; pool := p1 ++ (ph, x) :: p2; finished := f |} →
  lanes e' = lanes e → limit (admission e') = limit (admission e) →
  inflight (admission e') + permits [(ph, x)] = inflight (admission e) + permits [(ph', x)] → inflight (admission e') ≤ inflight (admission e) →
  active e' = (Z.of_nat (actives (p1 ++ (ph', x) :: p2)) mod 2 ^ 64)%Z →
  invariant ts {| executor := e'; submitting := s; pool := p1 ++ (ph', x) :: p2; finished := f |}.
Proof using Type.
  intros [Hl Hs Hpool Hne Hi Hlim Ha Ht] El El' Ei Hle Ea. simpl in *.
  assert (∀ j, in_lane j (p1 ++ (ph', x) :: p2) = in_lane j (p1 ++ (ph, x) :: p2)) as Hin by (intros j; unfold in_lane; by rewrite !sum_list_with_split).
  assert (queued e' = queued e) as Eq by (unfold queued; by rewrite El).
  constructor; simpl; rewrite ?El, ?Eq; try done.
  - intros j d Hd. rewrite El', Hin. by apply Hl.
  - intros ph0 j t Hj. destruct x as [i' t']. rewrite elem_of_app, elem_of_cons in Hj.
    destruct Hj as [Hj|[[= -> -> ->]|Hj]]; [apply (Hpool ph0 j t)|apply (Hpool ph i' t')|apply (Hpool ph0 j t)]; set_solver.
  - unfold permits in *. rewrite sum_list_with_split in *. simpl in *. lia.
  - rewrite El'. lia.
  - rewrite Ht. by rewrite !fmap_app.
Qed.
End Steps.

Section Runs.
Context {T : Type} (kind_of : T → CpuTaskKind).
Implicit Types (e : CpuExecutor T) (sys : System (T:=T)).

(** The steps that a task still takes. *)
Definition phase_steps (ph : Phase) : nat := match ph with Spawned => 4 | Running => 3 | Released => 2 | Inactive => 1 end.
Definition remaining sys : nat :=
  6 * length (submitting sys) + 5 * length (queued (executor sys)) + sum_list_with (λ x, phase_steps x.1) (pool sys).

Lemma remaining_spawn j (jobs : list T) : sum_list_with (λ x, phase_steps x.1) (spawn j jobs) = 4 * length jobs.
Proof using Type. induction jobs as [|job jobs IH]; simpl; [done|]. rewrite IH. lia. Qed.

Lemma internal_invariant ts sys sys' : invariant ts sys → internal kind_of sys sys' → invariant ts sys' ∧ remaining sys' < remaining sys.
Proof using Type.
  intros H Hstep. destruct Hstep as [e i t l1 l2 p f jobs e' He|e s x p1 p2 f|e s x p1 p2 f e' He|e s x p1 p2 f|e s i t p1 p2 f jobs e' He].
  - destruct (invariant_enqueue kind_of ts e i t l1 l2 p f jobs e' H He) as [H' Hlen]. split; [done|]. unfold remaining. simpl.
    rewrite sum_list_with_app, remaining_spawn, !length_app. simpl. lia.
  - split; [|unfold remaining; simpl; rewrite !sum_list_with_split; unfold phase_steps; simpl; change (queued (with_active e (active e + 1))) with (queued e); lia].
    apply (invariant_phase ts e _ s x Spawned Running p1 p2 f H); try done. simpl.
    pose proof (inv_active _ _ H) as Ha. simpl in Ha. rewrite Ha, Z.add_mod_idemp_l by lia. unfold actives. rewrite !sum_list_with_split. simpl. f_equal. lia.
  - destruct (executor_release_spec ts _ x H) as (n & Hn & He'); [simpl; set_solver|]. simpl in *. rewrite He in He'. injection He' as ->.
    split; [|unfold remaining; simpl; rewrite !sum_list_with_split; unfold phase_steps; simpl; change (queued (with_admission e _)) with (queued e); lia].
    apply (invariant_phase ts e _ s x Running Released p1 p2 f H); try done; simpl; [rewrite Hn; unfold permits; simpl; lia|lia|].
    pose proof (inv_active _ _ H) as Ha. simpl in Ha. rewrite Ha. unfold actives. by rewrite !sum_list_with_split.
  - split; [|unfold remaining; simpl; rewrite !sum_list_with_split; unfold phase_steps; simpl; change (queued (with_active e (active e - 1))) with (queued e); lia].
    apply (invariant_phase ts e _ s x Released Inactive p1 p2 f H); try done. simpl.
    pose proof (inv_active _ _ H) as Ha. simpl in Ha. rewrite Ha, Zminus_mod_idemp_l. unfold actives. rewrite !sum_list_with_split. simpl. f_equal. lia.
  - destruct (invariant_complete ts e s i t p1 p2 f jobs e' H He) as [H' Hlen]. split; [done|]. unfold remaining. simpl.
    rewrite sum_list_with_app, remaining_spawn, sum_list_with_split. simpl. lia.
Qed.

Lemma lane_modulo_lt e n i : lanes e ≠ [] → lane_modulo e n = Some i → i < length (lanes e).
Proof using Type.
  intros Hne. unfold lane_modulo. case_decide; [done|]. intros [= <-]. pose proof (Z.mod_pos_bound n (Z.of_nat (length (lanes e)))). lia.
Qed.

Lemma choose_lane_spec e route : lanes e ≠ [] →
  ∃ i e', choose_lane e route = Some (i, e') ∧ i < length (lanes e) ∧ lanes e' = lanes e ∧ admission e' = admission e ∧ active e' = active e.
Proof using Type.
  intros Hne. assert (∀ n, ∃ i, lane_modulo e n = Some i) as Hm.
  { intros n. unfold lane_modulo. case_decide as H0; [by apply length_zero_iff_nil in H0|]. eauto. }
  destruct route as [n|n|]; cbn [choose_lane]; [destruct (Hm n) as [i Hi]|destruct (Hm n) as [i Hi]|destruct (Hm (next_lane e)) as [i Hi]];
    rewrite Hi; cbn [mbind option_bind]; eexists i, _; split_and!; (done || by eapply lane_modulo_lt).
Qed.

Lemma invariant_submit ts sys route t a i e : invariant ts sys → acquire (admission (executor sys)) = Some a →
  choose_lane (with_admission (executor sys) a) route = Some (i, e) →
  invariant (ts ++ [t]) {| executor := e; submitting := submitting sys ++ [(i, t)]; pool := pool sys; finished := finished sys |}.
Proof using Type.
  intros [Hl Hs Hpool Hne Hi Hlim Ha Ht] Hacq Hc. unfold acquire in Hacq. case_decide as Hd; [done|]. injection Hacq as <-.
  destruct (choose_lane_spec (with_admission (executor sys) {| limit := limit (admission (executor sys)); inflight := S (inflight (admission (executor sys))) |}) route Hne)
    as (i' & e' & Hc' & Hlt & El & Ea & Eact). rewrite Hc in Hc'. injection Hc' as <- <-. simpl in *.
  assert (queued e = queued (executor sys)) as Eq by (unfold queued; by rewrite El).
  constructor; simpl; rewrite ?El, ?Ea, ?Eact, ?Eq; simpl; try done.
  - intros j t' [Hj|Hj]%elem_of_app; [by eapply Hs|]. by apply list_elem_of_singleton in Hj as [= -> _].
  - rewrite Hi, length_app. simpl. lia.
  - lia.
  - rewrite Ht, fmap_app. simpl. solve_Permutation.
Qed.

Lemma invariant_open ts sys i d open_ : invariant ts sys → lanes (executor sys) !! i = Some d →
  invariant ts {| executor := with_lane (executor sys) i (dispatcher_set_open d open_);
                  submitting := submitting sys; pool := pool sys; finished := finished sys |}.
Proof using Type.
  intros [Hl Hs Hpool Hne Hi Hlim Ha Ht] Hd. destruct (Hl i d Hd) as [[[H4 Hc] Hcap Hw Hr Hb] Hrun].
  pose proof (queued_with_lane (executor sys) i d (dispatcher_set_open d open_) [] [] Hd ltac:(done)) as Hq. simpl in Hq.
  constructor; simpl; rewrite ?length_insert; try done.
  - intros j dj Hj. destruct (decide (i = j)) as [->|Hij].
    + rewrite list_lookup_insert_eq in Hj by (by eapply lookup_lt_Some). injection Hj as <-. done.
    + rewrite list_lookup_insert_ne in Hj by done. by apply Hl.
  - by apply insert_nonempty.
  - rewrite Hi. by rewrite (Permutation_length Hq).
  - by rewrite <- Hq.
Qed.

Lemma reachable_invariant e0 ts sys : invariant [] {| executor := e0; submitting := []; pool := []; finished := [] |} →
  reachable kind_of e0 ts sys → invariant ts sys.
Proof using Type.
  intros H0. induction 1 as [|ts sys route t a i e _ IH Ha Hc|ts sys i d open_ _ IH Hd|ts sys sys' _ IH Hstep]; [done| | |].
  - by eapply invariant_submit.
  - by apply invariant_open.
  - by apply (internal_invariant ts sys sys').
Qed.

(** ** Progress *)

Lemma pool_step ts sys ph x : invariant ts sys → (ph, x) ∈ pool sys → ∃ sys', internal kind_of sys sys'.
Proof using Type.
  intros H Hin. destruct x as [i t]. pose proof (executor_complete_spec ts sys i ph t H Hin) as Hcomp.
  assert (ph = Running → ∃ e', executor_release (executor sys) = Some e') as Hrel.
  { intros ->. destruct (executor_release_spec ts sys (i, t) H Hin) as (n & _ & He). eauto. }
  destruct sys as [e s p f]. simpl in *. apply list_elem_of_split in Hin as (p1 & p2 & ->). destruct ph.
  - eexists. apply step_start.
  - destruct (Hrel eq_refl) as [e' He]. eexists. by apply step_release.
  - eexists. apply step_inactive.
  - destruct Hcomp as (d & jobs & d' & _ & He & _). eexists. by apply step_complete.
Qed.

Lemma queued_pool ts sys t : invariant ts sys → t ∈ queued (executor sys) → ∃ x, x ∈ pool sys.
Proof using Type.
  intros H Hin. unfold queued in Hin. apply list_elem_of_In, in_concat in Hin as (q & Hq & Ht). apply list_elem_of_In in Hq, Ht.
  apply list_elem_of_fmap in Hq as (d & -> & Hd). apply list_elem_of_lookup in Hd as [i Hd].
  destruct (inv_lanes _ _ H i d Hd) as [[_ _ Hw Hr Hb] Hrun]. destruct (pool sys) as [|x p] eqn:E; [|exists x; by left].
  simpl in Hrun. rewrite Hb in Ht by (unfold in_lane in Hrun; simpl in Hrun; lia). by apply not_elem_of_nil in Ht.
Qed.

Lemma stuck_finished ts sys : invariant ts sys → (∀ sys', ¬ internal kind_of sys sys') →
  submitting sys = [] ∧ queued (executor sys) = [] ∧ pool sys = [].
Proof using Type.
  intros H Hstuck. assert (pool sys = []) as Hp.
  { destruct (pool sys) as [|[ph x] p] eqn:E; [done|]. destruct (pool_step ts sys ph x H) as [sys' Hs]; [rewrite E; by left|]. by apply Hstuck in Hs. }
  split_and!; [| |done].
  - destruct (submitting sys) as [|[i t] l] eqn:E; [done|]. destruct (executor_enqueue_spec kind_of ts sys i t H) as (d & jobs & d' & _ & He & _); [rewrite E; by left|].
    destruct sys as [e s p f]. simpl in *. subst s. exfalso. eapply Hstuck. by apply (step_enqueue kind_of e i t [] l).
  - destruct (queued (executor sys)) as [|t q] eqn:E; [done|]. destruct (queued_pool ts sys t H) as [x Hx]; [rewrite E; by left|].
    rewrite Hp in Hx. by apply not_elem_of_nil in Hx.
Qed.
End Runs.

(** ** The lanes that are built *)

Lemma push_node_spec node p (m : list (Z * list WorkerPlacement)) :
  Forall (λ x, x.2 ≠ []) m →
  Forall (λ x, x.2 ≠ []) (push_node node p m) ∧ concat (push_node node p m).*2 ≡ₚ p :: concat m.*2.
Proof.
  induction 1 as [|[n ps] m Hps Hm [IHf IHp]]; simpl; [split; [by repeat constructor|done]|].
  destruct (Z.compare node n); simpl.
  - split; [constructor; [by destruct ps|done]|]. solve_Permutation.
  - split; [by repeat constructor|done].
  - split; [by constructor|]. rewrite IHp. solve_Permutation.
Qed.

(** The lanes share out the workers: every lane has one at least, and the placements of
    the lanes are those of the workers. *)
Lemma partition_placements_spec workers placements : 0 < workers → match placements with Some ps => workers ≤ length ps | None => True end →
  ∃ ls, partition_placements workers placements = Some ls ∧ ls ≠ [] ∧ Forall (λ l, 0 < lane_workers workers l) ls ∧
    sum_list (lane_workers workers <$> ls) = workers ∧
    match placements with Some ps => concat (default [] <$> ls) ≡ₚ take workers ps | None => True end.
Proof.
  intros Hw Hps. destruct placements as [ps|]; simpl; [|exists [None]; simpl; split_and!; try done; by repeat constructor].
  unfold first_placements. rewrite decide_True by done. cbn [mbind option_bind]. set (used := take workers ps).
  assert (length used = workers) as Hused by (unfold used; rewrite length_take; lia).
  assert (∃ ls, Some [Some used] = Some ls ∧ ls ≠ [] ∧ Forall (λ l, 0 < lane_workers workers l) ls ∧
    sum_list (lane_workers workers <$> ls) = workers ∧ concat (default [] <$> ls) ≡ₚ used) as Hone.
  { exists [Some used]. simpl. rewrite Hused, app_nil_r. split_and!; try done. constructor; [simpl; lia|constructor]. }
  destruct (existsb _ used) eqn:Ex; [done|].
  assert (∀ l m0, (∀ p, p ∈ l → numa_node p ≠ None) → Forall (λ x, x.2 ≠ []) m0 →
    ∃ m, foldM (λ m p, node ← numa_node p; Some (push_node node p m)) m0 l = Some m ∧ Forall (λ x, x.2 ≠ []) m ∧ concat m.*2 ≡ₚ concat m0.*2 ++ l) as Hfold.
  { induction l as [|p l IH]; intros m0 Hl Hm0; [exists m0; by rewrite app_nil_r|]. cbn [foldM].
    destruct (numa_node p) as [node|] eqn:En; [|by destruct (Hl p); [left|]]. cbn [mbind option_bind].
    destruct (push_node_spec node p m0 Hm0) as [Hf Hp]. destruct (IH (push_node node p m0)) as (m & -> & Hm & Hc); [set_solver|done|].
    exists m. split_and!; [done..|]. rewrite Hc, Hp. solve_Permutation. }
  destruct (Hfold used []) as (m & -> & Hm & Hc); [|done|].
  { intros p Hp Hn. apply not_true_iff_false in Ex. apply Ex, existsb_exists. exists p. by rewrite Hn, <- list_elem_of_In. }
  cbn [mbind option_bind]. case_decide; [|done]. exists (Some <$> m.*2). simpl in Hc.
  assert (concat (default [] <$> (Some <$> m.*2)) = concat m.*2) as Hd by (f_equal; rewrite <- list_fmap_compose; apply list_fmap_id).
  split_and!; [done|destruct m; [simpl in *; lia|done]| | |by rewrite Hd].
  - rewrite Forall_fmap, Forall_fmap. eapply Forall_impl; [exact Hm|]. intros [n l] Hl. simpl in *. by destruct l; [|simpl; lia].
  - assert (∀ w, sum_list (lane_workers w <$> (Some <$> m.*2)) = length (concat m.*2)) as ->; [|by rewrite (Permutation_length Hc)].
    intros w. clear. induction m as [|[n l] m IH]; [done|].
    change (length l + sum_list (lane_workers w <$> (Some <$> m.*2)) = length (l ++ concat m.*2)). by rewrite length_app, IH.
Qed.

Section Build.
Context {T : Type} (start_lane : nat → nat → option (list WorkerPlacement) → option string).

Lemma build_lanes_spec i w cap ls (ds : list (Dispatcher T)) :
  build_lanes start_lane i w cap ls = inl ds → ds = (λ l, new_dispatcher (lane_workers w l) cap) <$> ls.
Proof using Type.
  revert i ds. induction ls as [|l ls IH]; intros i ds; simpl; [by intros [= <-]|].
  destruct (start_lane i (lane_workers w l) l); [done|]. destruct (build_lanes start_lane (S i) w cap ls) eqn:E; [|done].
  intros [= <-]. by rewrite (IH _ _ E).
Qed.

Lemma build_spec w q placements (e : CpuExecutor T) : build start_lane w q placements = Some (inl e) →
  sum_list (dispatcher_workers <$> lanes e) = w ∧ invariant [] {| executor := e; submitting := []; pool := []; finished := [] |}.
Proof using Type.
  unfold build. destruct (bool_decide (w = 0) || bool_decide (q = 0)) eqn:E0; [done|]. apply orb_false_iff in E0 as [Ew _].
  apply bool_decide_eq_false in Ew. 
  assert ((match placements with Some ps => w ≤ length ps | None => True end) ∨ partition_placements w placements = None) as [Hps | ->]; [| |done].
  { destruct placements as [ps|]; [|by left]. simpl. unfold first_placements. case_decide; [by left|by right]. }
  destruct (partition_placements_spec w placements ltac:(lia) Hps) as (ls & -> & Hne & Hpos & Hsum & _). cbn [mbind option_bind].
  destruct (build_lanes start_lane 0 w (usize_add w q) ls) as [ds|] eqn:Eb; [|done]. intros [= <-]. apply build_lanes_spec in Eb as ->.
  simpl. split; [by rewrite <- list_fmap_compose|].
  assert (queued {| lanes := (λ l, new_dispatcher (T:=T) (lane_workers w l) (usize_add w q)) <$> ls; workers := w;
                    admission := {| limit := usize_add w q; inflight := 0 |}; active := 0; next_lane := 0 |} = []) as Hq.
  { unfold queued. simpl. clear. induction ls as [|l ls IH]; [done|]. exact IH. }
  constructor; simpl; try (by intros; match goal with H : _ ∈ [] |- _ => by apply not_elem_of_nil in H end).
  - intros i d Hd. rewrite list_lookup_fmap in Hd. apply fmap_Some in Hd as (l & Hl & ->). split; [|done].
    rewrite Forall_forall in Hpos. constructor; simpl; [apply new_well_formed|done|by apply Hpos; eapply list_elem_of_lookup_2|lia|done].
  - by destruct ls.
  - by rewrite Hq.
  - lia.
  - done.
  - by rewrite Hq.
Qed.
End Build.

(** C28: An executor that was built shares its workers out to its lanes. In every system that
    can be reached from it, with any submissions, any switches of the weights and any
    interleaving of the steps of the tasks: no enqueue, no return of a permit and no
    completion panics; the tasks in flight are within the limit of the admission; a lane
    runs no more tasks than it has workers, and fewer only while its queue is empty; the
    counter of active tasks is right; and the submitted tasks are, each exactly once,
    being submitted, queued, spawned or finished. Between submissions, the tasks take a
    bounded number of steps; when no step is left, every submitted task is finished and
    every permit is given back. *)
Theorem executor_runs_every_task {T} (kind_of : T → CpuTaskKind) start_lane w q placements (e : CpuExecutor T) :
  build start_lane w q placements = Some (inl e) →
  sum_list (dispatcher_workers <$> lanes e) = w ∧
  ∀ ts sys, reachable kind_of e ts sys →
    (∀ i t, (i, t) ∈ submitting sys → is_Some (executor_enqueue (executor sys) i (kind_of t) t)) ∧
    (∀ x, (Running, x) ∈ pool sys → is_Some (executor_release (executor sys))) ∧
    (∀ i t, (Inactive, (i, t)) ∈ pool sys → is_Some (executor_complete (executor sys) i)) ∧
    inflight (admission (executor sys)) ≤ limit (admission (executor sys)) ∧
    (∀ i d, lanes (executor sys) !! i = Some d →
      running (state d) ≤ dispatcher_workers d ∧ (running (state d) < dispatcher_workers d → scheduler_len (scheduler (state d)) = 0)) ∧
    active (executor sys) = (Z.of_nat (actives (pool sys)) mod 2 ^ 64)%Z ∧
    ts ≡ₚ (submitting sys).*2 ++ queued (executor sys) ++ (pool sys).*2.*2 ++ finished sys ∧
    (∀ sys', internal kind_of sys sys' → remaining sys' < remaining sys) ∧
    ((∀ sys', ¬ internal kind_of sys sys') → ts ≡ₚ finished sys ∧ inflight (admission (executor sys)) = 0).
Proof.
  intros Hb. destruct (build_spec start_lane w q placements e Hb) as [Hw H0]. split; [done|]. intros ts sys Hr.
  pose proof (reachable_invariant kind_of e ts sys H0 Hr) as H. split_and!.
  - intros i t Hin. destruct (executor_enqueue_spec kind_of ts sys i t H Hin) as (d & jobs & d' & _ & -> & _). done.
  - intros x Hin. destruct (executor_release_spec ts sys x H Hin) as (n & _ & ->). done.
  - intros i t Hin. destruct (executor_complete_spec ts sys i _ t H Hin) as (d & jobs & d' & _ & -> & _). done.
  - apply H.
  - intros i d Hd. destruct (inv_lanes _ _ H i d Hd) as [[_ _ _ Hrun Hidle] _]. split; [done|]. intros Hlt.
    rewrite length_concat_queues. unfold lane_queue in Hidle. by rewrite Hidle.
  - apply H.
  - apply H.
  - intros sys' Hs. by apply (internal_invariant kind_of ts).
  - intros Hstuck. destruct (stuck_finished kind_of ts sys H Hstuck) as (Hs & Hq & Hp). split.
    + rewrite (inv_tasks _ _ H), Hs, Hq, Hp. done.
    + by rewrite (inv_inflight _ _ H), Hs, Hq, Hp.
Qed.

(** Two workers on two nodes, and four tasks that are submitted one after another. *)
Lemma executor_runs_every_task_witness :
  let placements := Some [{| cpu := 0; numa_node := Some 1%Z |}; {| cpu := 1; numa_node := Some 0%Z |}] in
  ∃ e : CpuExecutor (CpuTaskKind * nat),
    build (λ _ _ _, None) 2 2 placements = Some (inl e) ∧ length (lanes e) = 2 ∧ sum_list (dispatcher_workers <$> lanes e) = 2.
Proof.
  intros placements. eexists. split; [vm_compute; reflexivity|]. split; [reflexivity|].
  eapply (executor_runs_every_task fst (λ _ _ _, None) 2 2 placements). vm_compute. reflexivity.
Defined.
