(* ===== verification/ShardSeal.v ===== *)
(** The work tracker of a dimension shard ([pipeline/shard_seal.rs]): batches of seeds
    register and drop their guards on any threads, and [try_seal] gives out the seeds
    that failed once all is quiet. Every atomic operation is a step. [None] is a panic. *)

From S2P Require Import Prelude SortedLists.

(** [crate::model::SEED_BITMAP_WORDS] *)
Definition SEED_BITMAP_WORDS : nat := 16.

Record ShardWorkTracker := {
  producer_closed : bool;
  seed_batches_inflight : Z;
  failed_seed_bitmap : list Z;
  sealed : bool;
}.

Definition default_tracker : ShardWorkTracker :=
  {| producer_closed := false; seed_batches_inflight := 0; failed_seed_bitmap := replicate SEED_BITMAP_WORDS 0%Z; sealed := false |}.

(** [register_seed_batch]: [fetch_add(1)] wraps. *)
Definition register_seed_batch (t : ShardWorkTracker) : ShardWorkTracker :=
  {| producer_closed := producer_closed t; seed_batches_inflight := (seed_batches_inflight t + 1) mod 2 ^ 64;
     failed_seed_bitmap := failed_seed_bitmap t; sealed := sealed t |}.

Definition close_producer (t : ShardWorkTracker) : ShardWorkTracker :=
  {| producer_closed := true; seed_batches_inflight := seed_batches_inflight t; failed_seed_bitmap := failed_seed_bitmap t; sealed := sealed t |}.

(** [complete]: [fetch_sub(1)] *)
Definition complete_batch (t : ShardWorkTracker) : ShardWorkTracker :=
  {| producer_closed := producer_closed t; seed_batches_inflight := (seed_batches_inflight t - 1) mod 2 ^ 64;
     failed_seed_bitmap := failed_seed_bitmap t; sealed := sealed t |}.

(** [fail]: [fetch_or(1_u64 << bit)] *)
Definition fail (t : ShardWorkTracker) (seed : Z) : option ShardWorkTracker :=
  let word := Z.to_nat (seed / 64) in
  w ← failed_seed_bitmap t !! word;
  Some {| producer_closed := producer_closed t; seed_batches_inflight := seed_batches_inflight t;
          failed_seed_bitmap := <[word := Z.lor w (Z.shiftl 1 (seed mod 64))]> (failed_seed_bitmap t); sealed := sealed t |}.

(** Where a call of [try_seal] is. *)
Inductive Sealing := LoadClosed | LoadInflight | Exchange | LoadWords (words : list Z) | Returned (seal : option (list Z)).

Definition seal_step (t : ShardWorkTracker) (ph : Sealing) : option (ShardWorkTracker * Sealing) :=
  match ph with
  | LoadClosed => Some (t, if producer_closed t then LoadInflight else Returned None)
  | LoadInflight => Some (t, if (seed_batches_inflight t =? 0)%Z then Exchange else Returned None)
  | Exchange =>
      Some (if sealed t then (t, Returned None)
            else ({| producer_closed := producer_closed t; seed_batches_inflight := seed_batches_inflight t;
                     failed_seed_bitmap := failed_seed_bitmap t; sealed := true |}, LoadWords []))
  | LoadWords words =>
      if decide (length words < SEED_BITMAP_WORDS) then w ← failed_seed_bitmap t !! length words; Some (t, LoadWords (words ++ [w]))
      else Some (t, Returned (Some words))
  | Returned _ => Some (t, ph)
  end.

Fixpoint run_sealing (fuel : nat) (t : ShardWorkTracker) (ph : Sealing) : option (ShardWorkTracker * Sealing) :=
  match fuel with 0 => Some (t, ph) | S fuel => '(t, ph) ← seal_step t ph; run_sealing fuel t ph end.

(** [try_seal] with nothing in between: three tests, the words, and the return. *)
Definition try_seal (t : ShardWorkTracker) : option (ShardWorkTracker * option (list Z)) :=
  '(t, ph) ← run_sealing (3 + SEED_BITMAP_WORDS + 1) t LoadClosed;
  match ph with Returned seal => Some (t, seal) | _ => None end.

(** ** The seal *)

Definition seed_failed (seal : list Z) (seed : Z) : option bool :=
  w ← seal !! Z.to_nat (seed / 64); Some (negb (Z.land w (Z.shiftl 1 (seed mod 64)) =? 0)%Z).

(** [SeedId(u16::try_from(..).expect(..))] *)
Definition seed_id_of (n : nat) : option Z := if decide (Z.of_nat n < 2 ^ 16)%Z then Some (Z.of_nat n) else None.

Definition word_bits (w : Z) : list nat := filter (λ bit, (Z.land w (Z.shiftl 1 (Z.of_nat bit)) ≠ 0)%Z) (seq 0 64).

Fixpoint failed_seed_ids_from (word_index : nat) (seal : list Z) : option (list Z) :=
  match seal with
  | [] => Some []
  | w :: seal =>
      ids ← mapM (λ bit, seed_id_of (word_index * 64 + bit)) (word_bits w);
      rest ← failed_seed_ids_from (S word_index) seal;
      Some (ids ++ rest)
  end.
Definition failed_seed_ids (seal : list Z) : option (list Z) := failed_seed_ids_from 0 seal.

(** ** The threads *)

(** The guards that are held, those whose failure is recorded and that are to complete,
    the calls of [try_seal], and the seeds of the guards dropped without success. *)
Record Tracking := {
  tracker : ShardWorkTracker;
  held : list Z;
  completing : list Z;
  sealers : list Sealing;
  failures : list Z;
}.

(** Batches register before the producer closes, as [pipeline/coordinator.rs] does; the
    guards are in memory, so they are fewer than a machine word counts. *)
Inductive tracking_step : Tracking → Tracking → Prop :=
  | step_register t hs cs ss fs seed : producer_closed t = false → (0 ≤ seed < 1024)%Z → (Z.of_nat (length hs + length cs) + 1 < 2 ^ 64)%Z →
      tracking_step {| tracker := t; held := hs; completing := cs; sealers := ss; failures := fs |}
                    {| tracker := register_seed_batch t; held := hs ++ [seed]; completing := cs; sealers := ss; failures := fs |}
  | step_close t hs cs ss fs :
      tracking_step {| tracker := t; held := hs; completing := cs; sealers := ss; failures := fs |}
                    {| tracker := close_producer t; held := hs; completing := cs; sealers := ss; failures := fs |}
  | step_success t hs1 seed hs2 cs ss fs :
      tracking_step {| tracker := t; held := hs1 ++ seed :: hs2; completing := cs; sealers := ss; failures := fs |}
                    {| tracker := complete_batch t; held := hs1 ++ hs2; completing := cs; sealers := ss; failures := fs |}
  | step_failure t t' hs1 seed hs2 cs ss fs : fail t seed = Some t' →
      tracking_step {| tracker := t; held := hs1 ++ seed :: hs2; completing := cs; sealers := ss; failures := fs |}
                    {| tracker := t'; held := hs1 ++ hs2; completing := cs ++ [seed]; sealers := ss; failures := fs ++ [seed] |}
  | step_complete_failed t hs cs1 seed cs2 ss fs :
      tracking_step {| tracker := t; held := hs; completing := cs1 ++ seed :: cs2; sealers := ss; failures := fs |}
                    {| tracker := complete_batch t; held := hs; completing := cs1 ++ cs2; sealers := ss; failures := fs |}
  | step_try t hs cs ss fs :
      tracking_step {| tracker := t; held := hs; completing := cs; sealers := ss; failures := fs |}
                    {| tracker := t; held := hs; completing := cs; sealers := ss ++ [LoadClosed]; failures := fs |}
  | step_seal t t' hs cs ss1 ph ph' ss2 fs : seal_step t ph = Some (t', ph') →
      tracking_step {| tracker := t; held := hs; completing := cs; sealers := ss1 ++ ph :: ss2; failures := fs |}
                    {| tracker := t'; held := hs; completing := cs; sealers := ss1 ++ ph' :: ss2; failures := fs |}.

Inductive tracked : Tracking → Prop :=
  | tracked_start : tracked {| tracker := default_tracker; held := []; completing := []; sealers := []; failures := [] |}
  | tracked_step s s' : tracked s → tracking_step s s' → tracked s'.

(** ** Invariant *)

(** The bits of the map are the seeds that failed. *)
Definition maps_failures (bitmap : list Z) (fs : list Z) : Prop :=
  length bitmap = SEED_BITMAP_WORDS ∧
  ∀ i w b, bitmap !! i = Some w → 0 ≤ b < 64 → Z.testbit w (Z.of_nat b) = true ↔ Z.of_nat (i * 64 + b) ∈ fs.

Definition is_winner (ph : Sealing) : bool := match ph with LoadWords _ | Returned (Some _) => true | _ => false end.
Definition winners (ss : list Sealing) : nat := sum_list_with (λ ph, if is_winner ph then 1 else 0) ss.

(** What a call of [try_seal] has learned. *)
Definition learned (s : Tracking) (ph : Sealing) : Prop :=
  match ph with
  | LoadClosed | Returned None => True
  | LoadInflight => producer_closed (tracker s) = true
  | Exchange => producer_closed (tracker s) = true ∧ held s = [] ∧ completing s = []
  | LoadWords ws => producer_closed (tracker s) = true ∧ held s = [] ∧ completing s = [] ∧ ws = take (length ws) (failed_seed_bitmap (tracker s))
  | Returned (Some ws) => producer_closed (tracker s) = true ∧ held s = [] ∧ completing s = [] ∧ ws = failed_seed_bitmap (tracker s)
  end.

Record tracking_ok (s : Tracking) : Prop := {
  ok_count : seed_batches_inflight (tracker s) = Z.of_nat (length (held s) + length (completing s));
  ok_bound : (Z.of_nat (length (held s) + length (completing s)) < 2 ^ 64)%Z;
  ok_seeds : Forall (λ seed, 0 ≤ seed < 1024)%Z (held s);
  ok_failures : Forall (λ seed, 0 ≤ seed < 1024)%Z (failures s);
  ok_bitmap : maps_failures (failed_seed_bitmap (tracker s)) (failures s);
  ok_sealers : Forall (learned s) (sealers s);
  ok_winners : winners (sealers s) = if sealed (tracker s) then 1 else 0;
}.

Lemma default_ok : tracking_ok {| tracker := default_tracker; held := []; completing := []; sealers := []; failures := [] |}.
Proof.
  constructor; simpl; try done. split; [done|]. intros i w b Hi Hb.
  assert (w = 0%Z) as -> by (change (replicate 16 0%Z !! i = Some w) in Hi; apply lookup_replicate in Hi as [-> _]; done).
  rewrite Z.testbit_0_l. split; [done|]. by intros ?%elem_of_nil.
Qed.

Lemma set_bit_spec w seed b : (0 ≤ b)%Z →
  Z.testbit (Z.lor w (Z.shiftl 1 (seed mod 64))) b = Z.testbit w b || (seed mod 64 =? b)%Z.
Proof.
  intros Hb. rewrite Z.lor_spec. f_equal. pose proof (Z.mod_pos_bound seed 64). rewrite Z.shiftl_1_l, Z.pow2_bits_eqb by lia. done.
Qed.

Lemma fail_spec t fs seed : maps_failures (failed_seed_bitmap t) fs → (0 ≤ seed < 1024)%Z →
  ∃ bitmap, fail t seed = Some {| producer_closed := producer_closed t; seed_batches_inflight := seed_batches_inflight t;
                                  failed_seed_bitmap := bitmap; sealed := sealed t |} ∧ maps_failures bitmap (fs ++ [seed]).
Proof.
  intros [Hl Hbits] Hs. unfold fail. set (word := Z.to_nat (seed / 64)).
  assert (0 ≤ seed / 64 < 16)%Z as Hq by (split; [apply Z.div_pos; lia|apply Z.div_lt_upper_bound; lia]).
  destruct (failed_seed_bitmap t !! word) as [w|] eqn:Ew; [|apply lookup_ge_None in Ew; unfold word, SEED_BITMAP_WORDS in *; lia].
  cbn [mbind option_bind]. eexists. split; [done|]. split; [by rewrite length_insert|]. intros i w' b Hi Hb.
  pose proof (Z.div_mod seed 64 ltac:(lia)) as Hdm. pose proof (Z.mod_pos_bound seed 64 ltac:(lia)) as Hm.
  rewrite elem_of_app, list_elem_of_singleton. destruct (decide (i = word)) as [->|Hne].
  - rewrite list_lookup_insert_eq in Hi by (by eapply lookup_lt_Some). injection Hi as <-. rewrite set_bit_spec, orb_true_iff, (Hbits word w b), Z.eqb_eq by (done || lia).
    f_equiv. unfold word. split; lia.
  - rewrite list_lookup_insert_ne in Hi by done. rewrite (Hbits i w' b Hi Hb). split; [by left|]. intros [?|Heq]; [done|]. exfalso. apply Hne. unfold word.
    enough (Z.of_nat i = seed / 64)%Z by lia. apply (Z.div_unique seed 64 (Z.of_nat i) (Z.of_nat b)); lia.
Qed.

Lemma winners_app ss1 ss2 : winners (ss1 ++ ss2) = winners ss1 + winners ss2.
Proof. apply sum_list_with_app. Qed.
Lemma winners_cons ph ss : winners (ph :: ss) = (if is_winner ph then 1 else 0) + winners ss.
Proof. done. Qed.

(** A step of a call of [try_seal] on a good state. *)
Lemma seal_step_spec s ss1 ph ss2 : tracking_ok s → sealers s = ss1 ++ ph :: ss2 →
  ∃ t' ph', seal_step (tracker s) ph = Some (t', ph') ∧
    tracking_ok {| tracker := t'; held := held s; completing := completing s; sealers := ss1 ++ ph' :: ss2; failures := failures s |}.
Proof.
  intros [Hc Hb Hs Hfs Hm Hl Hw] E. rewrite E, Forall_app, Forall_cons in Hl. destruct Hl as (Hl1 & Hph & Hl2). rewrite E, winners_app, winners_cons in Hw.
  assert (∀ t', producer_closed t' = producer_closed (tracker s) → failed_seed_bitmap t' = failed_seed_bitmap (tracker s) →
    ∀ ph0, learned s ph0 → learned {| tracker := t'; held := held s; completing := completing s; sealers := []; failures := failures s |} ph0) as Hkeep.
  { intros t' E1 E2 ph0. destruct ph0 as [| | |ws|[ws|]]; simpl; by rewrite ?E1, ?E2. }
  assert (∀ t' ph', seal_step (tracker s) ph = Some (t', ph') → producer_closed t' = producer_closed (tracker s) →
    failed_seed_bitmap t' = failed_seed_bitmap (tracker s) → seed_batches_inflight t' = seed_batches_inflight (tracker s) →
    learned {| tracker := t'; held := held s; completing := completing s; sealers := []; failures := failures s |} ph' →
    (if is_winner ph' then 1 else 0) + (if sealed (tracker s) then 1 else 0) = (if is_winner ph then 1 else 0) + (if sealed t' then 1 else 0) →
    ∃ t' ph', seal_step (tracker s) ph = Some (t', ph') ∧
      tracking_ok {| tracker := t'; held := held s; completing := completing s; sealers := ss1 ++ ph' :: ss2; failures := failures s |}) as Hdone.
  { intros t' ph' He E1 E2 E3 Hlearn Hwin. exists t', ph'. split; [done|]. constructor; simpl; [by rewrite E3|done|done|done|by rewrite E2| |].
    - rewrite Forall_app, Forall_cons. split_and!; [|exact Hlearn|]; (eapply Forall_impl; [eassumption|]; intros ph0; exact (Hkeep t' E1 E2 ph0)).
    - rewrite winners_app, winners_cons. destruct (is_winner ph), (is_winner ph'), (sealed t'), (sealed (tracker s)); simpl in *; lia. }
  destruct ph as [| | |ws|[ws|]]; simpl in *.
  - eapply Hdone; [done..| |]; destruct (producer_closed (tracker s)) eqn:Ec; simpl; try done; by rewrite Ec.
  - eapply Hdone; [done..| |]; destruct (Z.eqb_spec (seed_batches_inflight (tracker s)) 0) as [Hz|Hz]; simpl; try done.
    rewrite Hc in Hz. split_and!; [done|apply length_zero_iff_nil; lia|apply length_zero_iff_nil; lia].
  - destruct Hph as (Hcl & Hh & Hco). destruct (sealed (tracker s)) eqn:Esealed; (eapply Hdone; [reflexivity|..]); simpl; rewrite ?Esealed; try done.
  - destruct Hph as (Hcl & Hh & Hco & Hws). destruct Hm as [Hlen _]. case_decide as Hd.
    + destruct (failed_seed_bitmap (tracker s) !! length ws) as [w|] eqn:Ew; [|apply lookup_ge_None in Ew; lia].
      eapply Hdone; [done..| |done]. simpl. split_and!; [done..|]. rewrite length_app, Nat.add_1_r, (take_S_r _ _ w) by done. by rewrite <- Hws.
    + eapply Hdone; [done..| |done]. simpl. split_and!; [done..|]. rewrite Hws. apply take_ge. lia.
  - by eapply Hdone.
  - by eapply Hdone.
Qed.


(** While a batch is held or completing, no call of [try_seal] has seen quiet. *)
Lemma learned_busy s ph : held s ≠ [] ∨ completing s ≠ [] → learned s ph →
  match ph with LoadClosed | LoadInflight | Returned None => True | _ => False end.
Proof. intros Hbusy Hph. destruct ph as [| | |ws|[ws|]]; simpl in *; naive_solver. Qed.

Lemma learned_keep s s' ph : held s ≠ [] ∨ completing s ≠ [] → producer_closed (tracker s') = producer_closed (tracker s) → learned s ph → learned s' ph.
Proof. intros Hbusy Hc Hph. pose proof (learned_busy s ph Hbusy Hph). destruct ph as [| | |ws|[ws|]]; simpl in *; try done. by rewrite Hc. Qed.

Lemma tracking_step_ok s s' : tracking_ok s → tracking_step s s' → tracking_ok s'.
Proof.
  intros H Hstep. destruct Hstep as [t hs cs ss fs seed Hopen Hseed Hmem|t hs cs ss fs|t hs1 seed hs2 cs ss fs|t t' hs1 seed hs2 cs ss fs Hf|t hs cs1 seed cs2 ss fs|t hs cs ss fs|t t' hs cs ss1 ph ph' ss2 fs Hseal].
  - destruct H as [Hc Hb Hs Hfs Hm Hl Hw]. simpl in *. constructor; simpl; try done.
    + rewrite Hc, length_app. simpl. rewrite Z.mod_small; lia.
    + rewrite length_app. simpl. lia.
    + rewrite Forall_app, Forall_singleton. done.
    + eapply Forall_impl; [exact Hl|]. intros ph. destruct ph as [| | |ws|[ws|]]; simpl; rewrite ?Hopen; naive_solver.
  - destruct H as [Hc Hb Hs Hfs Hm Hl Hw]. simpl in *. constructor; simpl; try done.
    eapply Forall_impl; [exact Hl|]. intros ph. destruct ph as [| | |ws|[ws|]]; simpl; naive_solver.
  - assert (held {| tracker := t; held := hs1 ++ seed :: hs2; completing := cs; sealers := ss; failures := fs |} ≠ []) as Hne by (simpl; by destruct hs1).
    destruct H as [Hc Hb Hs Hfs Hm Hl Hw]. simpl in *. rewrite length_app in Hc, Hb. simpl in Hc, Hb.
    constructor; simpl; try done.
    + rewrite Hc, length_app. rewrite Z.mod_small; lia.
    + rewrite length_app. lia.
    + rewrite Forall_app, Forall_cons in *. naive_solver.
    + eapply Forall_impl; [exact Hl|]. intros ph. apply learned_keep; [by left|done].
  - assert (held {| tracker := t; held := hs1 ++ seed :: hs2; completing := cs; sealers := ss; failures := fs |} ≠ []) as Hne by (simpl; by destruct hs1).
    destruct H as [Hc Hb Hs Hfs Hm Hl Hw]. simpl in *. rewrite Forall_app, Forall_cons in Hs.
    destruct (fail_spec t fs seed Hm) as (bitmap & Hf' & Hm'); [naive_solver|]. rewrite Hf in Hf'. injection Hf' as ->.
    rewrite length_app in Hc, Hb. simpl in Hc, Hb. constructor; simpl; rewrite ?length_app; simpl; try done.
    + rewrite Hc. lia.
    + lia.
    + rewrite Forall_app. naive_solver.
    + rewrite Forall_app, Forall_singleton. naive_solver.
    + eapply Forall_impl; [exact Hl|]. intros ph. apply learned_keep; [by left|done].
  - assert (completing {| tracker := t; held := hs; completing := cs1 ++ seed :: cs2; sealers := ss; failures := fs |} ≠ []) as Hne by (simpl; by destruct cs1).
    destruct H as [Hc Hb Hs Hfs Hm Hl Hw]. simpl in *. rewrite length_app in Hc, Hb. simpl in Hc, Hb.
    constructor; simpl; try done.
    + rewrite Hc, length_app. rewrite Z.mod_small; lia.
    + rewrite length_app. lia.
    + eapply Forall_impl; [exact Hl|]. intros ph. apply learned_keep; [by right|done].
  - destruct H as [Hc Hb Hs Hfs Hm Hl Hw]. simpl in *. constructor; simpl; try done.
    + rewrite Forall_app. split; [exact Hl|by repeat constructor].
    + by rewrite winners_app, Hw, Nat.add_0_r.
  - destruct (seal_step_spec _ ss1 ph ss2 H) as (t1 & ph1 & He & Hok); [done|]. simpl in *. rewrite Hseal in He. by injection He as <- <-.
Qed.

Lemma tracked_ok s : tracked s → tracking_ok s.
Proof. induction 1 as [|s s' _ IH Hstep]; [apply default_ok|by apply (tracking_step_ok s)]. Qed.

(** ** What a seal says *)

Lemma word_bits_spec w b : b ∈ word_bits w ↔ b < 64 ∧ Z.testbit w (Z.of_nat b) = true.
Proof.
  unfold word_bits. rewrite list_elem_of_filter, elem_of_seq, Z.shiftl_1_l. split.
  - intros [Hw Hb]. split; [lia|]. destruct (Z.testbit w (Z.of_nat b)) eqn:E; [done|]. exfalso. apply Hw.
    apply Z.bits_inj'. intros i Hi. rewrite Z.land_spec, Z.pow2_bits_eqb, Z.testbit_0_l by lia. destruct (Z.eqb_spec (Z.of_nat b) i) as [<-|]; [by rewrite E|by rewrite andb_false_r].
  - intros [Hb Hw]. split; [|lia]. intros Hz. apply (f_equal (λ z, Z.testbit z (Z.of_nat b))) in Hz.
    rewrite Z.land_spec, Z.pow2_bits_eqb, Z.testbit_0_l, Hw, Z.eqb_refl in Hz by lia. done.
Qed.

Lemma seed_failed_spec seal fs seed : maps_failures seal fs → (0 ≤ seed < 1024)%Z → seed_failed seal seed = Some (bool_decide (seed ∈ fs)).
Proof.
  intros [Hl Hbits] Hs. unfold seed_failed. pose proof (Z.div_mod seed 64 ltac:(lia)) as Hdm. pose proof (Z.mod_pos_bound seed 64 ltac:(lia)) as Hm.
  assert (0 ≤ seed / 64 < 16)%Z as Hq by (split; [apply Z.div_pos; lia|apply Z.div_lt_upper_bound; lia]).
  destruct (seal !! Z.to_nat (seed / 64)) as [w|] eqn:Ew; [|apply lookup_ge_None in Ew; unfold SEED_BITMAP_WORDS in *; lia].
  cbn [mbind option_bind]. f_equal. apply eq_true_iff_eq. rewrite negb_true_iff, Z.eqb_neq, bool_decide_eq_true.
  pose proof (Hbits _ w (Z.to_nat (seed mod 64)) Ew ltac:(lia)) as Hb. replace (Z.of_nat (Z.to_nat (seed / 64) * 64 + Z.to_nat (seed mod 64))) with seed in Hb by lia.
  rewrite <- Hb. pose proof (word_bits_spec w (Z.to_nat (seed mod 64))) as Hwb. unfold word_bits in Hwb. rewrite list_elem_of_filter, elem_of_seq in Hwb.
  rewrite Z2Nat.id in Hwb by lia. rewrite Z2Nat.id by lia. split; [intros Hne; apply Hwb; split; [done|lia]|]. intros Ht. apply Hwb. split; [lia|done].
Qed.

Lemma word_ids_spec k w : k < 16 → mapM (λ bit, seed_id_of (k * 64 + bit)) (word_bits w) = Some ((λ bit, Z.of_nat (k * 64 + bit)) <$> word_bits w).
Proof.
  intros Hk. apply mapM_Some_2, Forall2_fmap_r, Forall_Forall2_diag, Forall_forall. intros b [Hb _]%word_bits_spec.
  unfold seed_id_of. by rewrite decide_True by lia.
Qed.

Lemma seq_filter_sorted (P : nat → Prop) `{∀ x, Decision (P x)} c a n : StronglySorted Z.lt ((λ b, Z.of_nat (c + b)) <$> filter P (seq a n)).
Proof.
  revert a. induction n as [|n IH]; intros a; [constructor|]. simpl. rewrite filter_cons. case_decide; [|apply IH].
  simpl. constructor; [apply IH|]. rewrite Forall_fmap, Forall_forall. intros b [_ Hb%elem_of_seq]%list_elem_of_filter. simpl. lia.
Qed.

Lemma failed_seed_ids_spec k seal : k + length seal ≤ 16 →
  ∃ ids, failed_seed_ids_from k seal = Some ids ∧ StronglySorted Z.lt ids ∧
    ∀ n, n ∈ ids ↔ ∃ i w b, seal !! i = Some w ∧ b < 64 ∧ Z.testbit w (Z.of_nat b) = true ∧ n = Z.of_nat ((k + i) * 64 + b).
Proof.
  revert k. induction seal as [|w seal IH]; intros k Hk; cbn [failed_seed_ids_from].
  { exists []. split_and!; [done|constructor|]. intros n. split; [by intros ?%elem_of_nil|]. by intros (i & w & b & ? & _). }
  simpl in Hk. rewrite word_ids_spec by lia. cbn [mbind option_bind]. destruct (IH (S k) ltac:(lia)) as (ids & -> & Hsort & Hin). cbn [mbind option_bind].
  eexists. split; [done|]. split.
  - apply StronglySorted_app_2; [| |done].
    + intros x y (b & -> & [Hb _]%word_bits_spec)%list_elem_of_fmap (i & w' & b' & _ & _ & _ & ->)%Hin. lia.
    + apply seq_filter_sorted.
  - intros n. rewrite elem_of_app, list_elem_of_fmap, Hin. split.
    + intros [(b & -> & [Hb Hw]%word_bits_spec)|(i & w' & b & Hi & Hb & Hw & ->)]; [exists 0, w, b|exists (S i), w', b]; split_and!; try done; f_equal; lia.
    + intros ([|i] & w' & b & Hi & Hb & Hw & ->); simpl in Hi; [left; injection Hi as <-|right].
      * exists b. rewrite word_bits_spec. split; [f_equal; lia|done].
      * exists i, w', b. split_and!; try done. f_equal. lia.
Qed.

Lemma quiet_seal t : producer_closed t = true → seed_batches_inflight t = 0%Z → length (failed_seed_bitmap t) = SEED_BITMAP_WORDS → sealed t = false →
  ∃ t', try_seal t = Some (t', Some (failed_seed_bitmap t)).
Proof.
  intros Hc Hi Hl Hs. unfold try_seal. set (n := SEED_BITMAP_WORDS + 1). change (3 + SEED_BITMAP_WORDS + 1) with (S (S (S n))).
  cbn [run_sealing seal_step]. rewrite Hc. cbn [mbind option_bind run_sealing seal_step]. rewrite Hi. cbn [Z.eqb mbind option_bind run_sealing seal_step]. rewrite Hs.
  cbn [mbind option_bind].
  assert (∀ m k t0, failed_seed_bitmap t0 = failed_seed_bitmap t → k + m = SEED_BITMAP_WORDS →
    run_sealing (m + 1) t0 (LoadWords (take k (failed_seed_bitmap t))) = Some (t0, Returned (Some (failed_seed_bitmap t)))) as Hloop.
  { induction m as [|m IH]; intros k t0 E Hk; simpl; rewrite length_take.
    - rewrite decide_False by lia. cbn [mbind option_bind]. rewrite take_ge by lia. done.
    - rewrite decide_True by lia. rewrite E. destruct (failed_seed_bitmap t !! Nat.min k (length (failed_seed_bitmap t))) as [w|] eqn:Ew.
      2:{ apply lookup_ge_None in Ew. lia. }
      cbn [mbind option_bind]. rewrite Nat.min_l in Ew by lia. rewrite <- (take_S_r _ _ w) by done. apply IH; [done|lia]. }
  pose proof (Hloop SEED_BITMAP_WORDS 0) as H. simpl (take 0 _) in H. unfold n. rewrite H by done. cbn [mbind option_bind]. eauto.
Qed.

Lemma winners_unique ss i j ph ph' : winners ss ≤ 1 → ss !! i = Some ph → ss !! j = Some ph' → is_winner ph = true → is_winner ph' = true → i = j.
Proof.
  revert i j. induction ss as [|x ss IH]; intros i j Hw Hi Hj Hp Hp'; [done|]. rewrite winners_cons in Hw.
  assert (∀ k y, ss !! k = Some y → is_winner y = true → 0 < winners ss) as Hpos.
  { intros k y Hk Hy. apply list_elem_of_lookup_2, list_elem_of_split in Hk as (l1 & l2 & ->). rewrite winners_app, winners_cons, Hy. lia. }
  destruct i as [|i], j as [|j]; simpl in Hi, Hj; [done| | |].
  - injection Hi as ->. rewrite Hp in Hw. pose proof (Hpos j ph' Hj Hp'). lia.
  - injection Hj as ->. rewrite Hp' in Hw. pose proof (Hpos i ph Hi Hp). lia.
  - f_equal. apply IH; try done. destruct (is_winner x); lia.
Qed.

Lemma tracked_run n t ph t' ph' hs cs fs : tracked {| tracker := t; held := hs; completing := cs; sealers := [ph]; failures := fs |} →
  run_sealing n t ph = Some (t', ph') → tracked {| tracker := t'; held := hs; completing := cs; sealers := [ph']; failures := fs |}.
Proof.
  revert t ph. induction n as [|n IH]; intros t ph Ht; cbn [run_sealing]; [by intros [= <- <-]|].
  destruct (seal_step t ph) as [[t1 ph1]|] eqn:E; [|done]. cbn [mbind option_bind]. apply IH.
  apply (tracked_step _ _ Ht). by apply (step_seal t t1 hs cs [] ph ph1 []).
Qed.

(** C29: In every interleaving of registrations, completions, failures, the closing of the
    producer and any number of calls of [try_seal], where batches register before the
    producer closes: nothing panics; at most one call gives out a seal; when one does,
    the producer is closed, every batch is completed, and the seal names exactly the
    seeds of the batches that were dropped without success, in increasing order. Once
    the producer is closed and all batches are completed, a call that is not disturbed
    gives out the seal, if none was given out. *)
Theorem seal_reports_failed_seeds (s : Tracking) : tracked s →
  (∀ seed, seed ∈ held s → is_Some (fail (tracker s) seed)) ∧
  (∀ ph, ph ∈ sealers s → is_Some (seal_step (tracker s) ph)) ∧
  (∀ i j seal seal', sealers s !! i = Some (Returned (Some seal)) → sealers s !! j = Some (Returned (Some seal')) → i = j) ∧
  (∀ i seal, sealers s !! i = Some (Returned (Some seal)) →
    producer_closed (tracker s) = true ∧ held s = [] ∧ completing s = [] ∧
    (∀ seed, (0 ≤ seed < 1024)%Z → seed_failed seal seed = Some (bool_decide (seed ∈ failures s))) ∧
    ∃ ids, failed_seed_ids seal = Some ids ∧ StronglySorted Z.lt ids ∧ ∀ n, n ∈ ids ↔ n ∈ failures s) ∧
  (producer_closed (tracker s) = true → held s = [] → completing s = [] → sealed (tracker s) = false →
    ∃ t', try_seal (tracker s) = Some (t', Some (failed_seed_bitmap (tracker s)))).
Proof.
  intros Htr. pose proof (tracked_ok s Htr) as Hok. pose proof (ok_bitmap s Hok) as Hmap. split_and!.
  - intros seed Hin. pose proof (ok_seeds s Hok) as Hs. rewrite Forall_forall in Hs.
    destruct (fail_spec (tracker s) (failures s) seed Hmap (Hs _ Hin)) as (bitmap & -> & _). done.
  - intros ph (ss1 & ss2 & E)%list_elem_of_split. destruct (seal_step_spec s ss1 ph ss2 Hok E) as (t' & ph' & -> & _). done.
  - intros i j seal seal' Hi Hj. eapply (winners_unique (sealers s) i j); [|exact Hi|exact Hj|done|done].
    rewrite (ok_winners s Hok). destruct (sealed (tracker s)); lia.
  - intros i seal Hi. pose proof (Forall_lookup_1 _ _ _ _ (ok_sealers s Hok) Hi) as (Hc & Hh & Hco & ->). split_and!; [done..| |].
    + intros seed Hs. by apply seed_failed_spec.
    + destruct (failed_seed_ids_spec 0 (failed_seed_bitmap (tracker s))) as (ids & Hids & Hsort & Hin); [destruct Hmap as [-> _]; done|].
      exists ids. split_and!; [done..|]. intros n. rewrite Hin. destruct Hmap as [Hl Hbits]. split.
      * intros (k & w & b & Hk & Hb & Hw & ->). apply (Hbits k w b); [done|lia|done].
      * intros Hn. pose proof (ok_failures s Hok) as Hf. rewrite Forall_forall in Hf. specialize (Hf n Hn). simpl in Hf.
        pose proof (Z.div_mod n 64 ltac:(lia)). pose proof (Z.mod_pos_bound n 64 ltac:(lia)).
        assert (0 ≤ n / 64 < 16)%Z as Hq by (split; [apply Z.div_pos; lia|apply Z.div_lt_upper_bound; lia]).
        destruct (failed_seed_bitmap (tracker s) !! Z.to_nat (n / 64)) as [w|] eqn:Ew; [|apply lookup_ge_None in Ew; unfold SEED_BITMAP_WORDS in *; lia].
        exists (Z.to_nat (n / 64)), w, (Z.to_nat (n mod 64)). split_and!; [done|lia| |lia].
        apply (Hbits _ w (Z.to_nat (n mod 64)) Ew); [lia|]. by replace (Z.of_nat (Z.to_nat (n / 64) * 64 + Z.to_nat (n mod 64))) with n by lia.
  - intros Hc Hh Hco Hs. apply quiet_seal; [done| |apply Hmap|done]. by rewrite (ok_count s Hok), Hh, Hco.
Qed.

Lemma seal_reports_failed_seeds_witness :
  ∃ s seal, tracked s ∧ sealers s = [Returned (Some seal)] ∧ seed_failed seal 1000 = Some true ∧ failed_seed_ids seal = Some [70; 1000]%Z ∧
    seed_failed seal 3 = Some (bool_decide (3%Z ∈ failures s)).
Proof.
  assert (H : tracked {| tracker := register_seed_batch (register_seed_batch (register_seed_batch default_tracker)); held := [1000; 3; 70]%Z; completing := [];
                         sealers := []; failures := [] |}).
  { eapply tracked_step; [eapply tracked_step; [eapply tracked_step; [apply tracked_start|]|]|].
    - apply (step_register _ [] [] [] [] 1000); [reflexivity|lia|simpl; lia].
    - apply (step_register _ [1000]%Z [] [] [] 3); [reflexivity|lia|simpl; lia].
    - apply (step_register _ [1000; 3]%Z [] [] [] 70); [reflexivity|lia|simpl; lia]. }
  eapply tracked_step in H; [|eapply (step_failure _ _ [] 1000 [3; 70]%Z); vm_compute; reflexivity].
  eapply tracked_step in H; [|eapply (step_success _ [] 3 [70]%Z)].
  eapply tracked_step in H; [|eapply (step_failure _ _ [] 70 []); vm_compute; reflexivity].
  eapply tracked_step in H; [|eapply (step_complete_failed _ _ [] 1000 [70]%Z)].
  eapply tracked_step in H; [|eapply (step_complete_failed _ _ [] 70 [])].
  eapply tracked_step in H; [|apply step_close].
  eapply tracked_step in H; [|apply step_try]. cbn [app] in H.
  eapply (tracked_run 20) in H; [|vm_compute; reflexivity].
  eexists _, _. split; [exact H|]. split; [reflexivity|]. split; [reflexivity|]. split; [vm_compute; reflexivity|].
  apply (proj1 (proj2 (proj2 (proj2 (seal_reports_failed_seeds _ H)))) 0 _ eq_refl). lia.
Defined.
