(* ===== verification/CandidateStream.v ===== *)
(** From the relations to the candidates: marking of the relations of failed seeds and
    streaming in batches ([pipeline/coordinator.rs]), and the registry that takes the
    batches ([pipeline/candidate_registry.rs]). [None] is a panic. *)

From S2P Require Import Prelude Text CanonicalJson Anchors SortedLists Events Evidence.
From S2P Require Import EvidenceFacts Relations Attribution Reducer ShardSeal.

(** [CANDIDATE_BATCH_CAPACITY] is an argument. *)
Section Stream.
Context {F : Type} `{EqDecision F}.
Abbreviation relation := (SeedCandidateRelation F).

(** ** Marking *)

Definition with_incomplete (r : relation) : relation :=
  {| relation_seed_id := relation_seed_id r; relation_seed := relation_seed r; relation_candidate_id := relation_candidate_id r;
     relation_candidate := relation_candidate r; dimensions := dimensions r; selection := selection r;
     relation_evidence := relation_evidence r; incomplete := true |}.

Fixpoint mark_incomplete_seeds (rs : list relation) (seal : list Z) : option (list relation * Z) :=
  match rs with
  | [] => Some ([], 0%Z)
  | r :: rs =>
      failed ← seed_failed seal (relation_seed_id r);
      '(rs', marked) ← mark_incomplete_seeds rs seal;
      Some (if failed && negb (incomplete r) then (with_incomplete r :: rs', (marked + 1)%Z) else (r :: rs', marked))
  end.

(** [saturating_add(1)] never saturates before [2 ^ 64] relations. *)
Fixpoint mark_relations_incomplete_for_failed (rs : list relation) (failed_seeds : gset Z) : list relation * Z :=
  match rs with
  | [] => ([], 0%Z)
  | r :: rs =>
      let '(rs', marked) := mark_relations_incomplete_for_failed rs failed_seeds in
      if bool_decide (relation_seed_id r ∈ failed_seeds) && negb (incomplete r) then (with_incomplete r :: rs', saturating_add64 marked 1)
      else (r :: rs', marked)
  end.

(** ** Streaming *)

Definition candidate_seed_compare (left_ right_ : relation) : comparison :=
  then_with (Z.compare (relation_candidate_id left_) (relation_candidate_id right_)) (Z.compare (relation_seed_id left_) (relation_seed_id right_)).

Definition sort_by_candidate (rs : list relation) : list relation := sort_by candidate_seed_compare rs.

(** The channel: whether it takes a batch after the batches it has taken. *)
Context (accepts : list (list relation) → list relation → bool).

Record StreamState := {
  sent : list (list relation);
  batch : list relation;
  batch_candidates : nat;
  total_candidates : Z;
  last_candidate : option Z;
}.

Definition start_stream : StreamState := {| sent := []; batch := []; batch_candidates := 0; total_candidates := 0; last_candidate := None |}.

(** [blocking_send]; [inr] is the error of a closed channel, with what it has taken. *)
Definition send_batch (st : StreamState) : StreamState + list (list relation) :=
  if accepts (sent st) (batch st)
  then inl {| sent := sent st ++ [batch st]; batch := []; batch_candidates := 0; total_candidates := total_candidates st; last_candidate := last_candidate st |}
  else inr (sent st).

Definition stream_relation (capacity : nat) (st : StreamState) (r : relation) : StreamState + list (list relation) :=
  let is_new := negb (bool_decide (last_candidate st = Some (relation_candidate_id r))) in
  match (if is_new && (batch_candidates st =? capacity) then send_batch st else inl st) with
  | inr taken => inr taken
  | inl st =>
      inl {| sent := sent st; batch := batch st ++ [r];
             batch_candidates := if is_new then S (batch_candidates st) else batch_candidates st;
             total_candidates := if is_new then (total_candidates st + 1)%Z else total_candidates st;
             last_candidate := if is_new then Some (relation_candidate_id r) else last_candidate st |}
  end.

Fixpoint stream_loop (capacity : nat) (st : StreamState) (rs : list relation) : StreamState + list (list relation) :=
  match rs with
  | [] => inl st
  | r :: rs => match stream_relation capacity st r with inl st' => stream_loop capacity st' rs | inr taken => inr taken end
  end.

Definition flush (st : StreamState) : StreamState + list (list relation) :=
  match batch st with [] => inl st | _ => send_batch st end.

(** [stream_relation_refs]: the batches, or those taken before the channel was closed. *)
Definition stream_relation_refs (rs : list relation) (capacity : nat) : StreamState + list (list relation) :=
  match stream_loop capacity start_stream rs with inl st => flush st | inr taken => inr taken end.

(** [stream_relations]: sorts, streams, and counts the candidates. *)
Definition stream_relations (rs : list relation) (capacity : nat) : (list (list relation) * Z) + list (list relation) :=
  match stream_relation_refs (sort_by_candidate rs) capacity with
  | inl st => inl (sent st, total_candidates st)
  | inr taken => inr taken
  end.
End Stream.
Arguments StreamState F : clear implicits.

(** ** The registry *)

Section Registry.
Context {F : Type} `{EqDecision F} `{UnstableSort}.
Abbreviation relation := (SeedCandidateRelation F).

Record CandidateRecord := {
  candidate_record_id : Z;
  candidate_record_key : ContractKey;
  candidate_relations : list relation;
  candidate_selection : NftSelection;
  candidate_seed_ids : list Z;
}.

Inductive CandidateError := EmptyRelations | InconsistentKeys (id : Z) | DuplicateCandidate (id : Z).

(** [v.sort_unstable(); v.dedup();] *)
Definition sort_unstable_dedup (l : list Z) : list Z := dedup_by (λ a b, bool_decide (a = b)) (sort_unstable_by Z.compare l).

(** [CandidateRecord::new] *)
Definition new_record (id : Z) (key : ContractKey) (rs : list relation) : CandidateRecord + CandidateError :=
  match rs with
  | [] => inr EmptyRelations
  | first :: rest =>
      if existsb (λ r, negb (bool_decide (relation_candidate r = key))) rs then inr (InconsistentKeys id)
      else inl {| candidate_record_id := id; candidate_record_key := key; candidate_relations := rs;
                  candidate_selection := normalize_selection (foldl (λ s r, union_assign s (selection r)) (selection first) rest);
                  candidate_seed_ids := sort_unstable_dedup (relation_seed_id <$> rs) |}
  end.

Record CandidateRegistry := { seen : list Z; seen_count : nat }.

Definition default_registry : CandidateRegistry := {| seen := []; seen_count := 0 |}.

Definition mark_seen (registry : CandidateRegistry) (id : Z) : option (CandidateRegistry * bool) :=
  let word := Z.to_nat (id / 64) in
  let words := if decide (length (seen registry) ≤ word) then seen registry ++ replicate (S word - length (seen registry)) 0%Z else seen registry in
  let mask := Z.shiftl 1 (id mod 64) in
  w ← words !! word;
  Some (if negb (Z.land w mask =? 0)%Z then ({| seen := words; seen_count := seen_count registry |}, true)
        else ({| seen := <[word := Z.lor w mask]> words; seen_count := S (seen_count registry) |}, false)).

(** [grouped.entry(relation.candidate_id).or_default().push(relation)] *)
Definition group_relation (grouped : gmap Z (list relation)) (r : relation) : gmap Z (list relation) :=
  <[relation_candidate_id r := default [] (grouped !! relation_candidate_id r) ++ [r]]> grouped.

(** The entries of the ordered map, in key order. *)
Definition grouped_relations (rs : list relation) : list (Z * list relation) :=
  sort_by (λ a b, Z.compare a.1 b.1) (map_to_list (foldl group_relation ∅ rs)).

Definition seed_order (left_ right_ : relation) : comparison := Z.compare (relation_seed_id left_) (relation_seed_id right_).
Definition record_order (left_ right_ : CandidateRecord) : comparison :=
  contract_key_compare (candidate_record_key left_) (candidate_record_key right_).

(** The loop over the groups; the registry keeps its marks when the loop stops. *)
Fixpoint insert_groups (registry : CandidateRegistry) (groups : list (Z * list relation)) : option (CandidateRegistry * (list CandidateRecord + CandidateError)) :=
  match groups with
  | [] => Some (registry, inl [])
  | (id, rs) :: groups =>
      '(registry, already) ← mark_seen registry id;
      if (already : bool) then Some (registry, inr (DuplicateCandidate id))
      else
        let rs := sort_by seed_order rs in
        match rs with
        | [] => Some (registry, inr EmptyRelations)
        | first :: _ =>
            match new_record id (relation_candidate first) rs with
            | inr error => Some (registry, inr error)
            | inl record =>
                '(registry, result) ← insert_groups registry groups;
                Some (registry, match result with inl records => inl (record :: records) | inr error => inr error end)
            end
        end
  end.

Definition insert_frozen_relations (registry : CandidateRegistry) (rs : list relation) : option (CandidateRegistry * (list CandidateRecord + CandidateError)) :=
  '(registry, result) ← insert_groups registry (grouped_relations rs);
  Some (registry, match result with inl inserted => inl (sort_by record_order inserted) | inr error => inr error end).

(** The receiver of the stream takes the batches one after another, and stops at the
    first error. *)
Fixpoint insert_batches (registry : CandidateRegistry) (batches : list (list relation)) : option (CandidateRegistry * (list (list CandidateRecord) + CandidateError)) :=
  match batches with
  | [] => Some (registry, inl [])
  | rs :: batches =>
      '(registry, result) ← insert_frozen_relations registry rs;
      match result with
      | inr error => Some (registry, inr error)
      | inl records =>
          '(registry, rest) ← insert_batches registry batches;
          Some (registry, match rest with inl lists => inl (records :: lists) | inr error => inr error end)
      end
  end.
End Registry.
Arguments CandidateRecord F : clear implicits.
