(* ===== verification/RegistryFacts.v ===== *)
(** Every candidate reaches the registry in one batch, with all its relations; the
    registry is a set of candidates, and its records are the candidates with all their
    relations. *)

From S2P Require Import Prelude Text CanonicalJson Anchors SortedLists Events Evidence.
From S2P Require Import EvidenceFacts Relations Attribution AttributionFacts Reducer Reduction.
From S2P Require Import ShardSeal CandidateStream.

Section Stream.
Context {F : Type} `{!EqDecision F}.
Abbreviation relation := (SeedCandidateRelation F).
Implicit Types (r x y : relation) (rs : list relation) (st : StreamState F).

Definition candidates rs : gset Z := list_to_set (relation_candidate_id <$> rs).

Lemma elem_of_candidates rs id : id ∈ candidates rs ↔ ∃ r, r ∈ rs ∧ relation_candidate_id r = id.
Proof using Type. unfold candidates. rewrite elem_of_list_to_set, list_elem_of_fmap. naive_solver. Qed.

Lemma candidates_app rs1 rs2 : candidates (rs1 ++ rs2) = candidates rs1 ∪ candidates rs2.
Proof using Type. unfold candidates. by rewrite fmap_app, list_to_set_app_L. Qed.

Lemma candidates_single r : candidates [r] = {[relation_candidate_id r]}.
Proof using Type. apply set_eq. intros id. rewrite elem_of_candidates, elem_of_singleton. setoid_rewrite list_elem_of_singleton. naive_solver. Qed.

Lemma candidates_snoc_new rs r : (∀ x, x ∈ rs → (relation_candidate_id x < relation_candidate_id r)%Z) → size (candidates (rs ++ [r])) = S (size (candidates rs)).
Proof using Type.
  intros Hlt. rewrite candidates_app, candidates_single, size_union, size_singleton; [lia|].
  intros id (x & Hx & Ex)%elem_of_candidates ->%elem_of_singleton. specialize (Hlt x Hx). lia.
Qed.

Lemma candidates_snoc_old rs r : (∃ x, x ∈ rs ∧ relation_candidate_id x = relation_candidate_id r) → candidates (rs ++ [r]) = candidates rs.
Proof using Type.
  intros (x & Hx & Ex). apply set_eq. intros id. rewrite !elem_of_candidates. setoid_rewrite elem_of_app. setoid_rewrite list_elem_of_singleton. naive_solver.
Qed.

(** Batches that share no candidate, in increasing order. *)
Definition before (b b' : list relation) : Prop := ∀ x y, x ∈ b → y ∈ b' → (relation_candidate_id x < relation_candidate_id y)%Z.

Definition by_candidate rs : Prop := StronglySorted (λ x y, relation_candidate_id x ≤ relation_candidate_id y)%Z rs.

Lemma sorted_by_candidate rs : by_candidate (sort_by_candidate rs).
Proof using Type.
  assert (CompareLaws (candidate_seed_compare (F:=F))) as Hlaws by (unfold candidate_seed_compare; apply then_with_laws; apply compare_map_laws; apply _).
  unfold by_candidate. eapply StronglySorted_restrict; [|apply (sort_by_sorted candidate_seed_compare)]. intros x y _ _. unfold candidate_seed_compare.
  destruct (Z.compare_spec (relation_candidate_id x) (relation_candidate_id y)); simpl; [lia|lia|done].
Qed.

(** The state after the relations of [pre]. *)
Record streamed (capacity : nat) (pre : list relation) st : Prop := {
  streamed_all : concat (sent st) ++ batch st = pre;
  streamed_batches : Forall (λ b, b ≠ [] ∧ size (candidates b) ≤ capacity) (sent st);
  streamed_batch : batch_candidates st = size (candidates (batch st));
  streamed_bound : batch_candidates st ≤ capacity;
  streamed_order : StronglySorted before (sent st ++ [batch st]);
  streamed_total : total_candidates st = Z.of_nat (size (candidates pre));
  streamed_last : match last_candidate st with
                  | None => sent st = [] ∧ batch st = []
                  | Some c => (∃ x, x ∈ batch st ∧ relation_candidate_id x = c) ∧ ∀ y, y ∈ pre → (relation_candidate_id y ≤ c)%Z
                  end;
}.

Lemma before_snoc bs b r : StronglySorted before (bs ++ [b]) → (∀ x, x ∈ concat bs → (relation_candidate_id x < relation_candidate_id r)%Z) → StronglySorted before (bs ++ [b ++ [r]]).
Proof using Type.
  induction bs as [|b0 bs IH]; intros Hs Hr; [by repeat constructor|]. simpl in *. apply StronglySorted_inv in Hs as [Hs H0]. constructor.
  - apply IH; [done|]. intros x Hx. apply Hr, elem_of_app. by right.
  - rewrite Forall_app, Forall_singleton in *. destruct H0 as [H0 H1]. split; [done|]. intros x y Hx. rewrite elem_of_app, list_elem_of_singleton.
    intros [Hy | ->]; [by apply H1|]. apply Hr, elem_of_app. by left.
Qed.

Lemma before_concat bs b x y : StronglySorted before (bs ++ [b]) → y ∈ concat bs → x ∈ b → (relation_candidate_id y < relation_candidate_id x)%Z.
Proof using Type.
  intros Hs Hy Hx. apply list_elem_of_In, in_concat in Hy as (b0 & Hb0 & Hy). apply list_elem_of_In in Hb0, Hy.
  by apply (StronglySorted_app_1_elem_of _ _ _ b0 b Hs Hb0); [left|..].
Qed.

Lemma before_new bs b r : StronglySorted before (bs ++ [b]) → (∀ x, x ∈ concat bs ++ b → (relation_candidate_id x < relation_candidate_id r)%Z) → StronglySorted before ((bs ++ [b]) ++ [[r]]).
Proof using Type.
  intros Hs Hr. apply (before_snoc (bs ++ [b]) [] r); [|by rewrite concat_app; simpl; rewrite app_nil_r].
  apply StronglySorted_app_2; [|done|by repeat constructor]. intros x y _ ->%list_elem_of_singleton a b' _ Hb. by apply not_elem_of_nil in Hb.
Qed.

Section Accepts.
Context (accepts : list (list relation) → list relation → bool) (Haccepts : ∀ taken b, accepts taken b = true).

Lemma stream_relation_spec capacity pre st r : 0 < capacity → streamed capacity pre st → (∀ x, x ∈ pre → (relation_candidate_id x ≤ relation_candidate_id r)%Z) →
  ∃ st', stream_relation accepts capacity st r = inl st' ∧ streamed capacity (pre ++ [r]) st'.
Proof using Haccepts.
  intros Hcap [Hall Hbs Hb Hbound Hord Htot Hlast] Hle. unfold stream_relation. destruct (bool_decide (last_candidate st = Some (relation_candidate_id r))) eqn:Enew.
  - apply bool_decide_eq_true in Enew. simpl. eexists. split; [done|]. rewrite Enew in Hlast. destruct Hlast as [(x & Hx & Ex) Hmax].
    assert (∃ x, x ∈ pre ∧ relation_candidate_id x = relation_candidate_id r) as Hpre by (exists x; split; [rewrite <- Hall; apply elem_of_app; by right|done]).
    constructor; simpl; [by rewrite app_assoc, Hall|done|by rewrite candidates_snoc_old by eauto|done| |by rewrite candidates_snoc_old|].
    + apply before_snoc; [done|]. intros y Hy. rewrite <- Ex. by apply (before_concat (sent st) (batch st)).
    + rewrite Enew. split; [exists r; split; [apply elem_of_app; right; by left|congruence]|]. intros y [Hy | ->%list_elem_of_singleton]%elem_of_app; [by apply Hle|done].
  - apply bool_decide_eq_false in Enew. simpl.
    assert (∀ x, x ∈ pre → (relation_candidate_id x < relation_candidate_id r)%Z) as Hlt.
    { intros x Hx. destruct (last_candidate st) as [c|]; [|destruct Hlast as [Hs0 Hb0]; rewrite Hs0, Hb0 in Hall; subst pre; by apply not_elem_of_nil in Hx].
      destruct Hlast as [(y & Hy & <-) Hmax]. specialize (Hmax x Hx). assert (y ∈ pre) as Hyp by (rewrite <- Hall; apply elem_of_app; by right).
      pose proof (Hle y Hyp). assert (relation_candidate_id y ≠ relation_candidate_id r) by congruence. lia. }
    destruct (Nat.eqb_spec (batch_candidates st) capacity) as [Hfull|Hfull]; simpl.
    + unfold send_batch. rewrite Haccepts. eexists. split; [done|]. assert (batch st ≠ []) as Hne by (intros E; rewrite E in Hb; change (size (candidates [])) with 0 in Hb; lia).
      constructor; cbn [sent batch batch_candidates total_candidates last_candidate app].
      * rewrite concat_app. simpl. by rewrite app_nil_r, Hall.
      * rewrite Forall_app, Forall_singleton. split; [done|]. split; [done|]. by rewrite <- Hb.
      * by rewrite candidates_single, size_singleton.
      * done.
      * apply before_new; [done|]. by rewrite Hall.
      * rewrite candidates_snoc_new by done. lia.
      * split; [exists r; split; [by left|done]|]. intros y [Hy | ->%list_elem_of_singleton]%elem_of_app; [by apply Hle|done].
    + eexists. split; [done|]. constructor; simpl.
      * by rewrite app_assoc, Hall.
      * done.
      * rewrite candidates_snoc_new; [by rewrite Hb|]. intros x Hx. apply Hlt. rewrite <- Hall. apply elem_of_app. by right.
      * lia.
      * apply before_snoc; [done|]. intros x Hx. apply Hlt. rewrite <- Hall. apply elem_of_app. by left.
      * rewrite candidates_snoc_new by done. lia.
      * split; [exists r; split; [apply elem_of_app; right; by left|done]|]. intros y [Hy | ->%list_elem_of_singleton]%elem_of_app; [by apply Hle|done].
Qed.

Lemma stream_loop_spec capacity pre st rs : 0 < capacity → streamed capacity pre st → by_candidate (pre ++ rs) →
  ∃ st', stream_loop accepts capacity st rs = inl st' ∧ streamed capacity (pre ++ rs) st'.
Proof using Haccepts.
  intros Hcap. revert pre st. induction rs as [|r rs IH]; intros pre st Hst Hs; [exists st; by rewrite app_nil_r|].
  destruct (stream_relation_spec capacity pre st r Hcap Hst) as (st' & Hr & Hst').
  { intros x Hx. apply (StronglySorted_app_1_elem_of _ _ _ _ _ Hs); [done|by left]. }
  cbn [stream_loop]. rewrite Hr. rewrite (cons_middle r pre rs), (app_assoc pre [r] rs) in Hs |- *. by apply IH.
Qed.

Lemma start_streamed capacity : streamed capacity [] (start_stream (F:=F)).
Proof using Type. constructor; simpl; try done; [lia|by repeat constructor]. Qed.

(** The batches of a stream. *)
Lemma stream_relations_spec capacity rs : 0 < capacity →
  ∃ batches, stream_relations accepts rs capacity = inl (batches, Z.of_nat (size (candidates rs))) ∧
    concat batches = sort_by_candidate rs ∧ Forall (λ b, b ≠ [] ∧ size (candidates b) ≤ capacity) batches ∧ StronglySorted before batches.
Proof using Haccepts.
  intros Hcap. unfold stream_relations, stream_relation_refs.
  destruct (stream_loop_spec capacity [] start_stream (sort_by_candidate rs) Hcap (start_streamed capacity) (sorted_by_candidate rs)) as (st & -> & [Hall Hbs Hb Hbound Hord Htot _]).
  simpl in *. assert (candidates (sort_by_candidate rs) = candidates rs) as E.
  { apply set_eq. intros id. rewrite !elem_of_candidates. unfold sort_by_candidate. by setoid_rewrite (sort_by_perm candidate_seed_compare rs). }
  rewrite E in Htot. unfold flush. destruct (batch st) as [|r b] eqn:Eb.
  - exists (sent st). rewrite Htot. rewrite app_nil_r in Hall. split_and!; try done. by apply StronglySorted_app_1_l in Hord.
  - unfold send_batch. rewrite Haccepts. exists (sent st ++ [batch st]). simpl. rewrite Htot. split_and!; [done| | |by rewrite Eb].
    + rewrite concat_app, Eb. simpl. by rewrite app_nil_r.
    + rewrite Forall_app, Forall_singleton, Eb. split; [done|]. split; [done|]. by rewrite <- Hb.
Qed.
End Accepts.
End Stream.

(** ** The bitmap *)

Definition seen_bit (registry : CandidateRegistry) (id : Z) : bool :=
  match seen registry !! Z.to_nat (id / 64) with Some w => Z.testbit w (id mod 64) | None => false end.

(** The registry stands for the set of the candidates seen. *)
Record represents (registry : CandidateRegistry) (s : gset Z) : Prop := {
  represents_bits id : (0 ≤ id)%Z → seen_bit registry id = bool_decide (id ∈ s);
  represents_count : seen_count registry = size s;
  represents_domain id : id ∈ s → (0 ≤ id)%Z;
}.

Lemma default_represents : represents default_registry ∅.
Proof. constructor; [|done|set_solver]. intros id _. unfold seen_bit. simpl. by rewrite bool_decide_eq_false_2 by set_solver. Qed.

Lemma mark_seen_spec registry s id : represents registry s → (0 ≤ id)%Z →
  ∃ registry', mark_seen registry id = Some (registry', bool_decide (id ∈ s)) ∧ represents registry' ({[id]} ∪ s).
Proof.
  intros [Hbits Hcount Hdom] Hid. unfold mark_seen. set (word := Z.to_nat (id / 64)).
  set (words := if decide (length (seen registry) ≤ word) then seen registry ++ replicate (S word - length (seen registry)) 0%Z else seen registry).
  pose proof (Z.div_pos id 64 Hid ltac:(lia)) as Hq. pose proof (Z.mod_pos_bound id 64 ltac:(lia)) as Hm.
  assert (word < length words) as Hlen by (unfold words; case_decide; [rewrite length_app, length_replicate|]; lia).
  assert (∀ j, match words !! Z.to_nat (j / 64) with Some w => Z.testbit w (j mod 64) | None => false end = seen_bit registry j) as Hext.
  { intros j. unfold seen_bit, words. case_decide as Hd; [|done]. destruct (decide (Z.to_nat (j / 64) < length (seen registry))) as [Hlt|Hge].
    - by rewrite lookup_app_l.
    - rewrite lookup_app_r by lia. rewrite (lookup_ge_None_2 (seen registry)) by lia.
      destruct (replicate _ _ !! _) as [w|] eqn:E; [|done]. apply lookup_replicate in E as [-> _]. apply Z.testbit_0_l. }
  destruct (lookup_lt_is_Some_2 words word Hlen) as [w Hw]. rewrite Hw. cbn [mbind option_bind].
  pose proof (Hext id) as Hwid. fold word in Hwid. rewrite Hw, Hbits in Hwid by done. rewrite land_bit, Hwid by lia.
  destruct (decide (id ∈ s)) as [Hin|Hin].
  - rewrite bool_decide_eq_true_2 by done. eexists. split; [done|]. replace ({[id]} ∪ s) with s by set_solver.
    constructor; [|done|done]. intros j Hj. unfold seen_bit. simpl. by rewrite Hext, Hbits.
  - rewrite bool_decide_eq_false_2 by done. eexists. split; [done|]. constructor.
    + intros j Hj. unfold seen_bit. simpl. pose proof (Hext j) as Ej. rewrite Hbits in Ej by done. pose proof (Z.mod_pos_bound j 64 ltac:(lia)) as Hmj.
      destruct (decide (Z.to_nat (j / 64) = word)) as [E|E].
      * rewrite E, list_lookup_insert_eq by done. rewrite E, Hw in Ej. rewrite Z.lor_spec, Z.shiftl_1_l, Z.pow2_bits_eqb, Ej by lia.
        apply eq_true_iff_eq. rewrite orb_true_iff, Z.eqb_eq, !bool_decide_eq_true, elem_of_union, elem_of_singleton.
        pose proof (Z.div_mod j 64 ltac:(lia)). pose proof (Z.div_mod id 64 ltac:(lia)). pose proof (Z.div_pos j 64 Hj ltac:(lia)).
        unfold word in E. assert (id mod 64 = j mod 64 ↔ j = id)%Z as -> by (split; [lia|by intros ->]). tauto.
      * rewrite list_lookup_insert_ne by done. rewrite Ej. apply bool_decide_ext. rewrite elem_of_union, elem_of_singleton.
        split; [by right|]. intros [-> | ?]; [|done]. by destruct E.
    + simpl. rewrite Hcount, size_union, size_singleton by set_solver. done.
    + intros j. rewrite elem_of_union, elem_of_singleton. intros [-> | ?]; [done|by apply Hdom].
Qed.

(** ** Groups *)

Section Groups.
Context {F : Type} `{!EqDecision F}.
Abbreviation relation := (SeedCandidateRelation F).
Implicit Types (r : relation) (rs : list relation).

Definition of_candidate (id : Z) rs : list relation := filter (λ r, relation_candidate_id r = id) rs.

Lemma elem_of_candidate id rs r : r ∈ of_candidate id rs ↔ relation_candidate_id r = id ∧ r ∈ rs.
Proof using Type. unfold of_candidate. by rewrite list_elem_of_filter. Qed.

Lemma group_lookup rs id : foldl group_relation ∅ rs !! id = match of_candidate id rs with [] => None | l => Some l end.
Proof using Type.
  induction rs as [|r rs IH] using rev_ind; [done|]. rewrite foldl_app. cbn [foldl]. unfold group_relation, of_candidate in *.
  rewrite filter_app, filter_cons. destruct (decide (relation_candidate_id r = id)) as [<-|Hne].
  - rewrite lookup_insert, decide_True, IH by done. simpl. by destruct (filter _ rs).
  - rewrite lookup_insert_ne by done. by rewrite IH, filter_nil, app_nil_r.
Qed.

Lemma grouped_elem rs id l : (id, l) ∈ grouped_relations rs ↔ l = of_candidate id rs ∧ l ≠ [].
Proof using Type.
  unfold grouped_relations. rewrite (sort_by_perm _ (map_to_list _)), elem_of_map_to_list, group_lookup.
  destruct (of_candidate id rs); [split; [done|naive_solver]|]. split; [intros [= <-]; done|by intros [-> _]].
Qed.

Lemma grouped_ids rs : NoDup (grouped_relations rs).*1 ∧ ∀ id, id ∈ (grouped_relations rs).*1 ↔ id ∈ candidates rs.
Proof using Type.
  split.
  - unfold grouped_relations. rewrite (sort_by_perm _ (map_to_list _)). apply NoDup_fst_map_to_list.
  - intros id. rewrite elem_of_candidates, list_elem_of_fmap. split.
    + intros ([id' l] & -> & [-> Hne]%grouped_elem). simpl. destruct (of_candidate id' rs) as [|r l] eqn:E; [done|].
      exists r. assert (r ∈ of_candidate id' rs) as Hr by (rewrite E; by left). apply elem_of_candidate in Hr. naive_solver.
    + intros (r & Hr & Hid). exists (id, of_candidate id rs). split; [done|]. apply grouped_elem. split; [done|].
      intros E. assert (r ∈ of_candidate id rs) as Hin by (by apply elem_of_candidate). rewrite E in Hin. by apply not_elem_of_nil in Hin.
Qed.

(** Relations of one candidate name one contract. *)
Definition one_contract rs : Prop := ∀ x y, x ∈ rs → y ∈ rs → relation_candidate_id x = relation_candidate_id y → relation_candidate x = relation_candidate y.

(** ** Records *)

#[export] Instance seed_order_laws : CompareLaws (seed_order (F:=F)).
Proof using Type. unfold seed_order. apply compare_map_laws, _. Qed.
#[export] Instance record_order_laws : CompareLaws (record_order (F:=F)).
Proof using Type. unfold record_order. apply compare_map_laws, _. Qed.

Context `{!UnstableSort}.

(** [record] holds all relations of its candidate in [rs], in the order of their seeds,
    and what they select together. *)
Record records_candidate rs (record : CandidateRecord F) : Prop := {
  recorded_relations : candidate_relations record ≡ₚ of_candidate (candidate_record_id record) rs;
  recorded_order : StronglySorted (λ x y, relation_seed_id x ≤ relation_seed_id y)%Z (candidate_relations record);
  recorded_some : candidate_relations record ≠ [];
  recorded_key r : r ∈ candidate_relations record → relation_candidate r = candidate_record_key record;
  recorded_seeds_order : StronglySorted Z.lt (candidate_seed_ids record);
  recorded_seeds id : id ∈ candidate_seed_ids record ↔ ∃ r, r ∈ candidate_relations record ∧ relation_seed_id r = id;
  recorded_selection :
    match candidate_selection record with
    | AllInContract _ _ => ∃ r, r ∈ candidate_relations record ∧ selection r = candidate_selection record
    | Explicit nfts => (∀ r, r ∈ candidate_relations record → is_whole (selection r) = false) ∧
        StronglySorted (λ a b, nft_key_compare a b = Lt) nfts ∧
        ∀ n, n ∈ nfts ↔ ∃ r, r ∈ candidate_relations record ∧ n ∈ explicit_nfts (selection r)
    end;
}.

Lemma union_selections s rest :
  let u := foldl (λ s r, union_assign s (selection r)) s rest in
  (is_whole u = true → u = s ∨ ∃ r, r ∈ rest ∧ selection r = u) ∧
  (is_whole u = false → is_whole s = false ∧ (∀ r, r ∈ rest → is_whole (selection r) = false) ∧
    ∀ n, n ∈ explicit_nfts u ↔ n ∈ explicit_nfts s ∨ ∃ r, r ∈ rest ∧ n ∈ explicit_nfts (selection r)).
Proof using Type.
  revert s. induction rest as [|r rest IH]; intros s; cbn [foldl].
  - split; [by left|]. intros Hw. split_and!; [done|by intros r ?%elem_of_nil|]. intros n. split; [by left|]. intros [?|(r & ?%elem_of_nil & _)]; done.
  - specialize (IH (union_assign s (selection r))). cbv zeta in IH |- *. set (u := foldl _ _ rest) in *. destruct IH as [Hw Hf]. split.
    + intros Ht. destruct (Hw Ht) as [E|(x & Hx & E)]; [|right; exists x; split; [by right|done]].
      rewrite E in Ht |- *. destruct s, (selection r) eqn:Es; simpl in *; try done; [by left|by left|]. right. exists r. split; [by left|done].
    + intros Ht. destruct (Hf Ht) as (Hs & Hr & Hn). destruct s as [k n0|l0]; [done|]. destruct (selection r) as [k n0|l] eqn:Es; [done|].
      split_and!; [done|intros x [-> | Hx]%elem_of_cons; [by rewrite Es|by apply Hr]|].
      intros n. rewrite Hn. simpl. rewrite elem_of_app. split.
      * intros [[?|?]|(x & Hx & ?)]; [by left|right; exists r; split; [by left|by rewrite Es]|right; exists x; split; [by right|done]].
      * intros [?|(x & [-> | Hx]%elem_of_cons & Hxn)]; [by left; left|left; right; by rewrite Es in Hxn|right; by exists x].
Qed.

Lemma sort_unstable_dedup_spec l : StronglySorted Z.lt (sort_unstable_dedup l) ∧ ∀ n, n ∈ sort_unstable_dedup l ↔ n ∈ l.
Proof using Type.
  unfold sort_unstable_dedup. assert (sort_unstable_by Z.compare l = sort_by Z.compare l) as ->.
  { apply (sorted_perm_unique Z.compare); [apply sort_unstable_by_sorted, _|apply (sort_by_sorted Z.compare)| |by intros x y _ _ ?%Z.compare_eq_iff].
    by rewrite sort_unstable_by_perm, (sort_by_perm Z.compare). }
  destruct (sort_dedup_strict Z.compare l) as [Hs Hin]. split; [|exact Hin].
  eapply StronglySorted_restrict; [|exact Hs]. intros x y _ _. apply Z.compare_lt_iff.
Qed.

Lemma new_record_spec id rs : one_contract rs → of_candidate id rs ≠ [] →
  ∃ first rest record, sort_by seed_order (of_candidate id rs) = first :: rest ∧ new_record id (relation_candidate first) (first :: rest) = inl record ∧
    candidate_record_id record = id ∧ records_candidate rs record.
Proof using Type.
  intros Hone Hne. pose proof (sort_by_perm seed_order (of_candidate id rs)) as Hp.
  pose proof (sort_by_sorted seed_order (of_candidate id rs)) as Hs. destruct (sort_by seed_order (of_candidate id rs)) as [|first rest] eqn:E.
  { by apply Permutation_nil_l in Hp; rewrite <- Hp in Hne. }
  assert (∀ r, r ∈ first :: rest → relation_candidate_id r = id ∧ r ∈ rs) as Hin by (intros r Hr; rewrite Hp in Hr; by apply elem_of_candidate).
  exists first, rest. unfold new_record. rewrite <- E in *. destruct (existsb _ _) eqn:Ex.
  { rewrite E in *. apply existsb_exists in Ex as (r & Hr & Hb). apply list_elem_of_In in Hr. apply negb_true_iff, bool_decide_eq_false in Hb. destruct Hb.
    destruct (Hin r Hr), (Hin first) as [? ?]; [by left|]. apply Hone; congruence. }
  rewrite E in *. eexists. split_and!; [done..|]. constructor; simpl.
  - done.
  - eapply StronglySorted_restrict; [|exact Hs]. intros x y _ _. apply Z.compare_le_iff.
  - done.
  - intros r Hr. destruct (Hin r Hr), (Hin first) as [? ?]; [by left|]. apply Hone; congruence.
  - apply sort_unstable_dedup_spec.
  - intros n. rewrite (proj2 (sort_unstable_dedup_spec _)). rewrite elem_of_cons, list_elem_of_fmap.
    setoid_rewrite elem_of_cons. naive_solver.
  - destruct (union_selections (selection first) rest) as [Hw Hf]. destruct (foldl _ (selection first) rest) as [k n|nfts] eqn:Eu; simpl in *.
    + destruct (Hw eq_refl) as [Hfirst|(r & Hr & Er)]; [exists first; split; [by left|done]|exists r; split; [by right|done]].
    + destruct (Hf eq_refl) as (Hs1 & Hr & Hn). destruct (sort_dedup_strict nft_key_compare nfts) as [Hso Hin']. split_and!.
      * intros r [-> | Hr']%elem_of_cons; [done|by apply Hr].
      * done.
      * intros n. rewrite Hin', Hn. split.
        -- intros [Hx|(r & Hr' & Hx)]; [exists first; split; [by left|done]|exists r; split; [by right|done]].
        -- intros (r & [-> | Hr']%elem_of_cons & Hx); [by left|right; by exists r].
Qed.

(** ** Insertion *)

Lemma insert_groups_spec rs groups registry s : represents registry s → one_contract rs → NoDup groups.*1 →
  (∀ id l, (id, l) ∈ groups → id ∉ s ∧ (0 ≤ id)%Z ∧ l = of_candidate id rs ∧ l ≠ []) →
  ∃ registry' records, insert_groups registry groups = Some (registry', inl records) ∧ represents registry' (list_to_set (groups.*1) ∪ s) ∧
    (candidate_record_id <$> records) = groups.*1 ∧ Forall (records_candidate rs) records.
Proof using Type.
  intros Hr Hone. revert registry s Hr. induction groups as [|[id l] groups IH]; intros registry s Hr Hnd Hg; cbn [insert_groups].
  { exists registry, []. split_and!; try done. simpl. by rewrite union_empty_l_L. }
  destruct (Hg id l) as (Hs & Hid & -> & Hne); [by left|]. destruct (mark_seen_spec registry s id Hr Hid) as (registry1 & -> & Hr1).
  rewrite bool_decide_eq_false_2 by done. cbn [mbind option_bind]. destruct (new_record_spec id rs Hone Hne) as (first & rest & record & -> & -> & Hrid & Hrec).
  simpl in Hnd. apply NoDup_cons in Hnd as [Hni Hnd]. destruct (IH registry1 ({[id]} ∪ s) Hr1 Hnd) as (registry' & records & -> & Hr' & Hids & Hall).
  { intros id' l' Hin. destruct (Hg id' l') as (? & ? & ? & ?); [by right|]. split_and!; [|done..]. rewrite elem_of_union, elem_of_singleton. intros [-> | ?]; [|done].
    apply Hni, list_elem_of_fmap. by exists (id, l'). }
  cbn [mbind option_bind]. exists registry', (record :: records). split_and!; [done| |by rewrite fmap_cons, Hrid, Hids|by constructor].
  simpl. by rewrite (union_comm_L {[id]}), <- union_assoc_L.
Qed.

Lemma insert_groups_seen groups registry s : represents registry s → (∀ id, id ∈ groups.*1 → (0 ≤ id)%Z) → (∃ id, id ∈ groups.*1 ∧ id ∈ s) →
  ∃ registry' error, insert_groups (F:=F) registry groups = Some (registry', inr error).
Proof using Type.
  revert registry s. induction groups as [|[id l] groups IH]; intros registry s Hr Hpos (i & Hi & His); [by apply not_elem_of_nil in Hi|]. cbn [insert_groups].
  destruct (mark_seen_spec registry s id Hr) as (registry1 & -> & Hr1); [apply Hpos; by left|]. cbn [mbind option_bind]. case_bool_decide as Hs; [eauto|].
  destruct (sort_by seed_order l) as [|first rest]; [eauto|]. destruct (new_record id (relation_candidate first) (first :: rest)) as [record|error]; [|eauto].
  destruct (IH registry1 ({[id]} ∪ s) Hr1) as (registry' & error & ->); [intros id' Hid'; apply Hpos; by right| |cbn [mbind option_bind]; eauto].
  simpl in Hi. apply elem_of_cons in Hi as [-> | Hi]; [done|]. exists i. split; [done|]. set_solver.
Qed.

Lemma groups_set rs : list_to_set (grouped_relations rs).*1 = candidates rs.
Proof using Type. apply set_eq. intros id. rewrite elem_of_list_to_set. apply grouped_ids. Qed.

Lemma insert_frozen_spec rs registry s : represents registry s → one_contract rs → (∀ r, r ∈ rs → (0 ≤ relation_candidate_id r)%Z) → candidates rs ## s →
  ∃ registry' records, insert_frozen_relations registry rs = Some (registry', inl records) ∧ represents registry' (candidates rs ∪ s) ∧
    StronglySorted (λ x y, record_order x y ≠ Gt) records ∧ NoDup ((candidate_record_id <$> records)) ∧
    (∀ id, id ∈ (candidate_record_id <$> records) ↔ id ∈ candidates rs) ∧ Forall (records_candidate rs) records.
Proof using Type.
  intros Hr Hone Hpos Hdisj. destruct (grouped_ids rs) as [Hnd Hids]. unfold insert_frozen_relations.
  destruct (insert_groups_spec rs (grouped_relations rs) registry s Hr Hone Hnd) as (registry' & records & -> & Hr' & Hrec & Hall).
  { intros id l Hin. assert (id ∈ candidates rs) as Hc by (apply Hids, list_elem_of_fmap; by exists (id, l)). apply grouped_elem in Hin as [-> Hne].
    split_and!; [set_solver| |done..]. apply elem_of_candidates in Hc as (r & Hrr & <-). by apply Hpos. }
  cbn [mbind option_bind]. exists registry', (sort_by record_order records). rewrite groups_set in Hr'.
  assert ((candidate_record_id <$> sort_by record_order records) ≡ₚ (grouped_relations rs).*1) as Hp by (by rewrite (sort_by_perm record_order records), Hrec).
  split_and!; [done|done|apply (sort_by_sorted record_order)|by rewrite Hp|intros id; by rewrite Hp|by rewrite (sort_by_perm record_order records)].
Qed.

Lemma insert_frozen_seen rs registry s : represents registry s → (∀ r, r ∈ rs → (0 ≤ relation_candidate_id r)%Z) →
  (∃ r, r ∈ rs ∧ relation_candidate_id r ∈ s) → ∃ registry' error, insert_frozen_relations registry rs = Some (registry', inr error).
Proof using Type.
  intros Hr Hpos (r & Hrr & Hs). unfold insert_frozen_relations. destruct (grouped_ids rs) as [_ Hids].
  destruct (insert_groups_seen (grouped_relations rs) registry s Hr) as (registry' & error & ->); [| |cbn [mbind option_bind]; eauto].
  - intros id Hid%Hids. apply elem_of_candidates in Hid as (x & Hx & <-). by apply Hpos.
  - exists (relation_candidate_id r). split; [|done]. apply Hids, elem_of_candidates. by exists r.
Qed.

(** ** Batches *)

Lemma records_candidate_perm rs rs' record : of_candidate (candidate_record_id record) rs ≡ₚ of_candidate (candidate_record_id record) rs' →
  records_candidate rs record → records_candidate rs' record.
Proof using Type. intros Hp [H1 ??????]. constructor; try done. by rewrite H1. Qed.

Lemma of_candidate_none id rs : id ∉ candidates rs → of_candidate id rs = [].
Proof using Type.
  intros Hn. destruct (of_candidate id rs) as [|r l] eqn:E; [done|]. assert (r ∈ of_candidate id rs) as Hr by (rewrite E; by left).
  apply elem_of_candidate in Hr as [Hid Hr]. exfalso. apply Hn, elem_of_candidates. by exists r.
Qed.

Lemma of_candidate_app id rs1 rs2 : of_candidate id (rs1 ++ rs2) = of_candidate id rs1 ++ of_candidate id rs2.
Proof using Type. apply filter_app. Qed.

Lemma before_disjoint (b : list relation) bs : StronglySorted before (b :: bs) → candidates b ## candidates (concat bs).
Proof using Type.
  intros [_ Hb]%StronglySorted_inv id (x & Hx & <-)%elem_of_candidates (y & Hy & E)%elem_of_candidates.
  apply list_elem_of_In, in_concat in Hy as (b' & Hb' & Hy). apply list_elem_of_In in Hb', Hy. rewrite Forall_forall in Hb. specialize (Hb b' Hb' x y Hx Hy). lia.
Qed.

Lemma insert_batches_spec (batches : list (list relation)) registry s : represents registry s → one_contract (concat batches) →
  (∀ r, r ∈ concat batches → (0 ≤ relation_candidate_id r)%Z) → StronglySorted before batches → candidates (concat batches) ## s →
  ∃ registry' lists, insert_batches registry batches = Some (registry', inl lists) ∧ represents registry' (candidates (concat batches) ∪ s) ∧
    Forall2 (λ b records, StronglySorted (λ x y, record_order x y ≠ Gt) records ∧ ∀ id, id ∈ (candidate_record_id <$> records) ↔ id ∈ candidates b) batches lists ∧
    NoDup ((candidate_record_id <$> concat lists)) ∧ (∀ id, id ∈ (candidate_record_id <$> concat lists) ↔ id ∈ candidates (concat batches)) ∧
    Forall (records_candidate (concat batches)) (concat lists).
Proof using Type.
  revert registry s. induction batches as [|b batches IH]; intros registry s Hr Hone Hpos Hord Hdisj; cbn [insert_batches].
  { exists registry, []. simpl. assert (candidates ([] : list relation) ∪ s = s) as -> by (apply union_empty_l_L). split_and!; try done; try by constructor. intros id. split; [by intros ?%elem_of_nil|]. intros (r & Hrr & _)%elem_of_candidates. by apply not_elem_of_nil in Hrr. }
  pose proof (before_disjoint b batches Hord) as Hb. simpl in Hone, Hpos, Hdisj. rewrite candidates_app in Hdisj.
  destruct (insert_frozen_spec b registry s Hr) as (registry1 & records & -> & Hr1 & Hso & Hnd & Hids & Hall);
    [intros x y Hx Hy; apply Hone; apply elem_of_app; by left|intros r Hrr; apply Hpos, elem_of_app; by left|set_solver|].
  cbn [mbind option_bind]. destruct (IH registry1 (candidates b ∪ s) Hr1) as (registry' & lists & -> & Hr' & Hf & Hnd' & Hids' & Hall');
    [intros x y Hx Hy; apply Hone; apply elem_of_app; by right|intros r Hrr; apply Hpos, elem_of_app; by right|by apply StronglySorted_inv in Hord as [? _]|set_solver|].
  cbn [mbind option_bind]. exists registry', (records :: lists). simpl. rewrite candidates_app, fmap_app. split_and!; [done| |by constructor| | |].
  - by rewrite (union_comm_L (candidates b)), <- union_assoc_L.
  - apply NoDup_app. split_and!; [done| |done]. intros id Hid%Hids Hid'%Hids'. set_solver.
  - intros id. rewrite elem_of_app, elem_of_union, Hids, Hids'. done.
  - rewrite Forall_app, !Forall_forall in *. split; intros record Hrec.
    + apply (records_candidate_perm b); [|by apply Hall]. rewrite of_candidate_app, (of_candidate_none _ (concat batches)), app_nil_r; [done|].
      assert (candidate_record_id record ∈ candidates b) by (apply Hids, list_elem_of_fmap; by exists record). set_solver.
    + apply (records_candidate_perm (concat batches)); [|by apply Hall']. rewrite of_candidate_app, (of_candidate_none _ b); [done|].
      assert (candidate_record_id record ∈ candidates (concat batches)) by (apply Hids', list_elem_of_fmap; by exists record). set_solver.
Qed.
End Groups.

(** C30: Relations that name one contract for every candidate are streamed, over a channel that
    stays open, in batches of at most [capacity] candidates that together hold the sorted
    relations and share no candidate; the registry that takes the batches one after
    another accepts them all and makes exactly one record of every candidate, with all its
    relations in the order of their seeds, its seeds without repetition and the union of
    its selections; each list of records is sorted by contract, and the registry counts
    the candidates. A later relation of a candidate that was recorded is an error. *)
Theorem candidates_streamed_once {F : Type} `{!EqDecision F} `{!UnstableSort}
    (accepts : list (list (SeedCandidateRelation F)) → list (SeedCandidateRelation F) → bool) (capacity : nat) (rs : list (SeedCandidateRelation F)) :
  (∀ taken b, accepts taken b = true) → 0 < capacity → one_contract rs → (∀ r, r ∈ rs → (0 ≤ relation_candidate_id r)%Z) →
  ∃ batches registry lists,
    stream_relations accepts rs capacity = inl (batches, Z.of_nat (size (candidates rs))) ∧
    concat batches = sort_by_candidate rs ∧
    Forall (λ b, b ≠ [] ∧ size (candidates b) ≤ capacity) batches ∧
    insert_batches default_registry batches = Some (registry, inl lists) ∧
    seen_count registry = size (candidates rs) ∧
    Forall2 (λ b records, StronglySorted (λ x y, record_order x y ≠ Gt) records ∧ ∀ id, id ∈ (candidate_record_id <$> records) ↔ id ∈ candidates b) batches lists ∧
    NoDup (candidate_record_id <$> concat lists) ∧
    (∀ id, id ∈ (candidate_record_id <$> concat lists) ↔ id ∈ candidates rs) ∧
    Forall (records_candidate rs) (concat lists) ∧
    (∀ rs' : list (SeedCandidateRelation F), (∀ r, r ∈ rs' → (0 ≤ relation_candidate_id r)%Z) → (∃ r, r ∈ rs' ∧ relation_candidate_id r ∈ candidates rs) →
      ∃ registry' error, insert_frozen_relations registry rs' = Some (registry', inr error)).
Proof.
  intros Hacc Hcap Hone Hpos. destruct (stream_relations_spec accepts Hacc capacity rs Hcap) as (batches & Hs & Hc & Hb & Hord).
  assert (concat batches ≡ₚ rs) as Hp by (rewrite Hc; apply (sort_by_perm candidate_seed_compare rs)).
  assert (candidates (concat batches) = candidates rs) as Hcand by (apply set_eq; intros id; rewrite !elem_of_candidates; by setoid_rewrite Hp).
  destruct (insert_batches_spec batches default_registry ∅ default_represents) as (registry & lists & Hi & Hr & Hf & Hnd & Hids & Hall);
    [intros x y; rewrite !Hp; apply Hone|intros r; rewrite Hp; apply Hpos|done|set_solver|].
  rewrite Hcand, union_empty_r_L in Hr. rewrite Hcand in Hids. exists batches, registry, lists. split_and!; try done; [apply Hr| |].
  - eapply Forall_impl; [exact Hall|]. intros record. apply records_candidate_perm. unfold of_candidate. by rewrite Hp.
  - intros rs' Hpos' Hex. by apply (insert_frozen_seen rs' registry (candidates rs)).
Qed.

(** The relations of the seeds that a seal names become incomplete, and the others stay
    as they are; the count is that of the relations changed. *)
Lemma mark_incomplete_seeds_spec {F} (rs : list (SeedCandidateRelation F)) seal failures :
  maps_failures seal failures → Forall (λ r, 0 ≤ relation_seed_id r < 1024)%Z rs →
  mark_incomplete_seeds rs seal =
    Some ((λ r, if bool_decide (relation_seed_id r ∈ failures) && negb (incomplete r) then with_incomplete r else r) <$> rs,
          Z.of_nat (length (filter (λ r, relation_seed_id r ∈ failures ∧ incomplete r = false) rs))).
Proof.
  intros Hm. induction 1 as [|r rs Hr Hrs IH]; [done|]. cbn [mark_incomplete_seeds]. rewrite (seed_failed_spec seal failures _ Hm Hr), IH.
  cbn [mbind option_bind]. rewrite filter_cons. simpl. case_bool_decide as Hf; simpl.
  - destruct (incomplete r); simpl; [by rewrite decide_False by naive_solver|]. rewrite decide_True by done. simpl. do 2 f_equal. lia.
  - by rewrite decide_False by naive_solver.
Qed.

Definition streamed_relation (seed candidate : Z) (s : NftSelection) : SeedCandidateRelation Z :=
  {| relation_seed_id := seed; relation_seed := {| key_chain := Base; key_address := [] |}; relation_candidate_id := candidate;
     relation_candidate := {| key_chain := Base; key_address := [Z.to_N candidate] |}; dimensions := 1; selection := s;
     relation_evidence := []; incomplete := false |}.

Definition streamed_sample : list (SeedCandidateRelation Z) :=
  [streamed_relation 2 70 (Explicit []); streamed_relation 1 3 (Explicit []); streamed_relation 1 70 (AllInContract {| key_chain := Base; key_address := [70%N] |} 9)].

Lemma candidates_streamed_once_witness :
  (∃ batches registry lists,
    stream_relations (λ _ _, true) streamed_sample 1 = inl (batches, Z.of_nat (size (candidates streamed_sample))) ∧
    insert_batches (H := stable_sort) default_registry batches = Some (registry, inl lists) ∧ NoDup (candidate_record_id <$> concat lists)) ∧
  match stream_relations (λ _ _, true) streamed_sample 1 with
  | inl (batches, _) =>
      (λ p, (seen_count p.1, match p.2 with inl lists => map (map candidate_seed_ids) lists | inr _ => [] end)) <$> insert_batches (H := stable_sort) default_registry batches
  | inr _ => None
  end = Some (2, [[[1]]; [[1; 2]]]%Z).
Proof.
  split; [|vm_compute; reflexivity].
  destruct (@candidates_streamed_once Z _ stable_sort (λ _ _, true) 1 streamed_sample) as (batches & registry & lists & Hs & _ & _ & Hi & _ & _ & Hnd & _).
  - intros. reflexivity.
  - lia.
  - intros x y. unfold streamed_sample. rewrite !elem_of_cons, !elem_of_nil.
    intros [-> | [-> | [-> | []]]] [-> | [-> | [-> | []]]]; vm_compute; first [reflexivity | intros; discriminate].
  - intros r. unfold streamed_sample. rewrite !elem_of_cons, elem_of_nil. intros [-> | [-> | [-> | []]]]; vm_compute; discriminate.
  - exists batches, registry, lists. split; [exact Hs | split; [exact Hi | exact Hnd]].
Defined.
