(* ===== verification/Projector.v ===== *)
(** The projection of a candidate's facts to its relations
    ([analysis/analysis/relation_projector.rs]): economics and behaviours of the NFTs
    that a relation selects, and of the unions over the suspected relations and over the
    cells of the matrix of chains, each selection computed once. [iterate] is the order
    in which the map of gas is traversed; [None] is a panic. *)

From Stdlib Require Import QArith.
From S2P Require Import Prelude Text CanonicalJson Anchors SortedLists Float Events Graph.
From S2P Require Import Evidence Relations Attribution Behavior SaturatedSums Propagation.
From S2P Require Import Lifecycle Economics Candidate.

#[local] Open Scope nat_scope.

(** ** Data *)

Inductive SelectionKey := WholeContract | SelectedNfts (selected_nfts : list NftKey).
#[export] Instance SelectionKey_eq_dec : EqDecision SelectionKey.
Proof. solve_decision. Defined.
#[export] Instance SelectionKey_countable : Countable SelectionKey.
Proof.
  refine (inj_countable' (λ k, match k with WholeContract => None | SelectedNfts l => Some l end)
    (λ o, match o with None => WholeContract | Some l => SelectedNfts l end) _). by intros [].
Defined.

Record ProjectedFacts := {
  projected_economics : EconomicFacts;
  projected_behaviors : BehaviorFacts;
  projected_behavior_instances : list BehaviorInstance;
  projected_address_roles : gmap str AddressRole;
}.

Definition BehaviorFacts_default : BehaviorFacts :=
  {| wash_cycles := 0; pump_and_exit := 0; sybil_distribution := 0; fraud_revenue := 0; poisoning := 0; layered_transfer := 0; inventory_concentration := 0 |}.

Definition ProjectedFacts_default : ProjectedFacts :=
  {| projected_economics := EconomicFacts_default; projected_behaviors := BehaviorFacts_default; projected_behavior_instances := []; projected_address_roles := ∅ |}.

Record RelationDelta := {
  delta_seed_id : Z;
  delta_seed_chain : ChainId;
  delta_candidate_id : Z;
  delta_candidate : ContractKey;
  delta_selection : NftSelection;
  delta_suspected : bool;
  delta_economics : EconomicFacts;
  delta_behaviors : BehaviorFacts;
}.

Record RelationProjection := {
  deltas : list RelationDelta;
  suspected : ProjectedFacts;
  matrix_suspected : gmap (ChainId * ChainId) ProjectedFacts;
}.

(** ** The computations *)

Section Compute.
Context `{UnstableSort}.
Context (iterate : gmap (ChainId * str) TransactionGas → list ((ChainId * str) * TransactionGas)).
Context (candidate_facts : CandidateFacts).

(** [SelectionKey::normalized] *)
Definition normalized_key (s : NftSelection) : SelectionKey :=
  match s with
  | AllInContract _ _ => WholeContract
  | Explicit nfts => SelectedNfts (dedup_by (λ a b, bool_decide (a = b)) (sort_unstable_by nft_key_compare nfts))
  end.

(** [option.is_none_or(|nft| selected.contains(nft))] *)
Definition none_or_selected (selected : gset NftKey) (nft : option NftKey) : bool :=
  match nft with None => true | Some n => bool_decide (n ∈ selected) end.

Definition selected_events (selected : gset NftKey) (events : list NormalizedEvent) : list NormalizedEvent :=
  filter (λ e, none_or_selected selected (nft e) = true) events.
Definition selected_holders (selected : gset NftKey) (holders : list (NftKey * str)) : list (NftKey * str) :=
  filter (λ h, h.1 ∈ selected) holders.

Definition selected_roles (selected : gset NftKey) : gmap str AddressRole :=
  attributed_role <$> filter (λ p, existsb (λ record, none_or_selected selected (token record)) (attributed_evidence p.2) = true) (address_attributions candidate_facts).

Definition count_behavior (f : BehaviorFacts) (i : BehaviorInstance) : BehaviorFacts :=
  let add k n := if bool_decide (behavior_kind i = k) then S n else n in
  {| wash_cycles := add WashTrading (wash_cycles f); pump_and_exit := add PumpAndExit (pump_and_exit f);
     sybil_distribution := add SybilDistribution (sybil_distribution f); fraud_revenue := add FraudRevenue (fraud_revenue f);
     poisoning := add Poisoning (poisoning f); layered_transfer := add LayeredTransfer (layered_transfer f);
     inventory_concentration := add InventoryConcentration (inventory_concentration f) |}.

Definition projected_behavior_facts (instances : list BehaviorInstance) : BehaviorFacts := foldl count_behavior BehaviorFacts_default instances.

Definition touches (selected : gset NftKey) (i : BehaviorInstance) : bool :=
  match nfts i with [] => true | l => existsb (λ n, bool_decide (n ∈ selected)) l end.

Definition compute_projected_summary (evidence : EvidenceBundle) (key : SelectionKey) : option (EconomicFacts * BehaviorFacts) :=
  match key with
  | WholeContract => Some (economics candidate_facts, behaviors candidate_facts)
  | SelectedNfts nfts =>
      let selected : gset NftKey := list_to_set nfts in
      economics ← compute_candidate_economics_iter_at iterate (key_address (fact_candidate candidate_facts)) (selected_events selected (events evidence))
        (selected_roles selected) (selected_holders selected (holders evidence)) (first_activity_timestamp (lifecycle candidate_facts))
        (fact_analysis_timestamp candidate_facts);
      Some (economics, projected_behavior_facts (filter (λ i, touches selected i = true) (behavior_instances candidate_facts)))
  end.

Definition compute_projected_facts (evidence : EvidenceBundle) (key : SelectionKey) : option ProjectedFacts :=
  match key with
  | WholeContract =>
      Some {| projected_economics := economics candidate_facts; projected_behaviors := behaviors candidate_facts;
              projected_behavior_instances := behavior_instances candidate_facts;
              projected_address_roles := attributed_role <$> address_attributions candidate_facts |}
  | SelectedNfts nfts =>
      let selected : gset NftKey := list_to_set nfts in
      let events := selected_events selected (events evidence) in
      let holders := selected_holders selected (holders evidence) in
      roles ← attribute_addresses (fact_candidate candidate_facts) events (controllers evidence) holders;
      graph ← build_filtered events is_nft_propagation;
      components ← strongly_connected_components graph;
      analysis ← detect_behaviors events graph roles components;
      economics ← compute_candidate_economics_detailed_at iterate (key_address (fact_candidate candidate_facts)) events roles holders
        (first_activity_timestamp (lifecycle candidate_facts)) (fact_analysis_timestamp candidate_facts);
      Some {| projected_economics := economic_facts economics; projected_behaviors := facts analysis;
              projected_behavior_instances := instances analysis; projected_address_roles := roles |}
  end.

(** ** The cache *)

Record ProjectionCache := { summaries : gmap SelectionKey (EconomicFacts * BehaviorFacts); fulls : gmap SelectionKey ProjectedFacts }.
Definition new_cache : ProjectionCache := {| summaries := ∅; fulls := ∅ |}.

Context (evidence : option EvidenceBundle).

(** [self.evidence.filter(|_| suspected)] *)
Definition evidence_if (suspected : bool) : option EvidenceBundle := if suspected then evidence else None.

Definition cache_summary (cache : ProjectionCache) (suspected : bool) (s : NftSelection) : option (ProjectionCache * (EconomicFacts * BehaviorFacts)) :=
  match evidence_if suspected with
  | None => Some (cache, (EconomicFacts_default, BehaviorFacts_default))
  | Some bundle =>
      let key := normalized_key s in
      cache ← match summaries cache !! key with
              | Some _ => Some cache
              | None => summary ← compute_projected_summary bundle key; Some {| summaries := <[key := summary]> (summaries cache); fulls := fulls cache |}
              end;
      summary ← summaries cache !! key;
      Some (cache, summary)
  end.

Definition cache_full (cache : ProjectionCache) (suspected : bool) (s : NftSelection) : option (ProjectionCache * ProjectedFacts) :=
  match evidence_if suspected with
  | None => Some (cache, ProjectedFacts_default)
  | Some bundle =>
      let key := normalized_key s in
      cache ← match fulls cache !! key with
              | Some _ => Some cache
              | None => full ← compute_projected_facts bundle key; Some {| summaries := summaries cache; fulls := <[key := full]> (fulls cache) |}
              end;
      full ← fulls cache !! key;
      Some (cache, full)
  end.

(** ** The projection *)

Context {F : Type}.

(** The labels, collected into an ordered map: a later label of a seed replaces. *)
Definition labels_by_seed (labels : list RelationLabel) : gmap Z RelationClassification :=
  foldl (λ m l, <[label_seed_id l := classification l]> m) ∅ labels.

Definition is_suspected (labels : gmap Z RelationClassification) (seed : Z) : bool :=
  match labels !! seed with Some (SuspectedDuplicate _) => true | _ => false end.

Definition project_relation (candidate_id : Z) (labels : gmap Z RelationClassification) (state : ProjectionCache * list RelationDelta)
    (r : SeedCandidateRelation F) : option (ProjectionCache * list RelationDelta) :=
  let suspected := is_suspected labels (relation_seed_id r) in
  '(cache, (economics, behaviors)) ← cache_summary state.1 suspected (selection r);
  Some (cache, state.2 ++ [{| delta_seed_id := relation_seed_id r; delta_seed_chain := key_chain (relation_seed r); delta_candidate_id := candidate_id;
                              delta_candidate := fact_candidate candidate_facts; delta_selection := selection r; delta_suspected := suspected;
                              delta_economics := economics; delta_behaviors := behaviors |}]).

Definition union_delta (s : option NftSelection) (d : RelationDelta) : option NftSelection :=
  Some (match s with Some s => union_assign s (delta_selection d) | None => delta_selection d end).

Definition delta_cell (d : RelationDelta) : ChainId * ChainId := (delta_seed_chain d, key_chain (delta_candidate d)).

Definition group_delta (groups : gmap (ChainId * ChainId) NftSelection) (d : RelationDelta) : gmap (ChainId * ChainId) NftSelection :=
  <[delta_cell d := match groups !! delta_cell d with Some s => union_assign s (delta_selection d) | None => delta_selection d end]> groups.

Definition cell_compare (a b : ChainId * ChainId) : comparison := then_with (chain_compare a.1 b.1) (chain_compare a.2 b.2).

Definition project_cell (state : ProjectionCache * gmap (ChainId * ChainId) ProjectedFacts) (entry : (ChainId * ChainId) * NftSelection)
    : option (ProjectionCache * gmap (ChainId * ChainId) ProjectedFacts) :=
  '(cache, full) ← cache_full state.1 true (normalize_selection entry.2);
  Some (cache, <[entry.1 := full]> state.2).

Definition delta_order (a b : RelationDelta) : comparison := Z.compare (delta_seed_id a) (delta_seed_id b).

Definition project_relations (candidate_id : Z) (relations : list (SeedCandidateRelation F)) (labels : list RelationLabel) : option RelationProjection :=
  '(cache, output) ← foldM (project_relation candidate_id (labels_by_seed labels)) (new_cache, []) (filter (λ r, incomplete r = false) relations);
  let output := sort_by delta_order output in
  let candidate_suspected := existsb delta_suspected output in
  let suspected_selection := foldl union_delta None (filter (λ d, delta_suspected d = true) output) in
  '(cache, suspected) ← match suspected_selection with
                        | Some s => cache_full cache true (normalize_selection s)
                        | None => Some (cache, ProjectedFacts_default)
                        end;
  let matrix_groups := if candidate_suspected then foldl group_delta ∅ output else ∅ in
  '(_, matrix) ← foldM project_cell (cache, ∅) (sort_by (λ a b, cell_compare a.1 b.1) (map_to_list matrix_groups));
  Some {| deltas := output; suspected := suspected; matrix_suspected := matrix |}.
End Compute.
