(* ===== verification/ProjectorFacts.v ===== *)
(** The projection is the direct computation of every selection, whatever the cache and
    the order of the relations. *)

From Stdlib Require Import QArith.
From S2P Require Import Prelude Text CanonicalJson Anchors SortedLists Float Events Graph.
From S2P Require Import TarjanFacts GraphFacts Evidence EvidenceFacts Relations Attribution.
From S2P Require Import AttributionFacts Behavior LayeredFacts DetectorFacts SaturatedSums.
From S2P Require Import Propagation Lifecycle Economics Candidate Reducer Reduction Projector.

#[local] Open Scope nat_scope.

(** ** Keys *)

Section Keys.
Context `{!UnstableSort}.

(** The key of a union of selections: a function of their set. *)
Definition key_of_union (l : list NftSelection) : SelectionKey :=
  if existsb is_whole l then WholeContract else SelectedNfts (sort_dedup nft_key_compare (l ≫= explicit_nfts)).

Lemma unstable_dedup l : dedup_by (λ a b, bool_decide (a = b)) (sort_unstable_by nft_key_compare l) = sort_dedup nft_key_compare l.
Proof using Type.
  unfold sort_dedup. f_equal. apply (sorted_perm_unique nft_key_compare); [apply sort_unstable_by_sorted, _|apply (sort_by_sorted nft_key_compare)| |].
  - by rewrite sort_unstable_by_perm, (sort_by_perm nft_key_compare).
  - intros x y _ _ ?. by apply compare_eq_iff.
Qed.

Lemma normalized_key_union s : normalized_key s = key_of_union [s].
Proof using Type. destruct s as [k n|l]; [done|]. unfold key_of_union. simpl. by rewrite app_nil_r, unstable_dedup. Qed.

Lemma key_of_union_proper l l' : (∀ s, s ∈ l ↔ s ∈ l') → key_of_union l = key_of_union l'.
Proof using Type.
  intros Hl. unfold key_of_union. assert (existsb is_whole l = existsb is_whole l') as ->.
  { apply eq_true_iff_eq. rewrite !existsb_exists. setoid_rewrite <- list_elem_of_In. by setoid_rewrite Hl. }
  destruct (existsb is_whole l'); [done|]. f_equal. apply (sort_dedup_proper nft_key_compare). intros n. rewrite !list_elem_of_bind. by setoid_rewrite Hl.
Qed.

Lemma key_of_union_assign s x l : key_of_union (union_assign s x :: l) = key_of_union (s :: x :: l).
Proof using Type. destruct s as [k n|l1], x as [k' n'|l2]; try done; unfold key_of_union; simpl. by rewrite app_assoc. Qed.

Lemma key_of_fold s l : normalized_key (foldl union_assign s l) = key_of_union (s :: l).
Proof using Type. revert s. induction l as [|x l IH]; intros s; [apply normalized_key_union|]. simpl. by rewrite IH, key_of_union_assign. Qed.

Lemma normalized_key_normalize s : normalized_key (normalize_selection s) = normalized_key s.
Proof using Type. destruct s as [k n|l]; [done|]. unfold normalize_selection. rewrite !normalized_key_union. unfold key_of_union. simpl. by rewrite !app_nil_r, sort_dedup_idemp by apply _. Qed.
End Keys.

(** ** Totality *)

Section Projection.
Context `{!UnstableSort} (iterate : gmap (ChainId * str) TransactionGas → list ((ChainId * str) * TransactionGas)) (Hiterate : iterates iterate).
Context (candidate_facts : CandidateFacts) (evidence : option EvidenceBundle).
Abbreviation summary_of := (compute_projected_summary iterate candidate_facts).
Abbreviation facts_of := (compute_projected_facts iterate candidate_facts).

Lemma summary_total bundle key : ∃ v, summary_of bundle key = Some v.
Proof using Hiterate.
  destruct key as [|l]; [by eexists|]. unfold compute_projected_summary, compute_candidate_economics_iter_at.
  set (r := selected_roles _ _). set (h := selected_holders _ _). set (w := (λ first, (first, _)) <$> _).
  destruct (economics_spec r h w (Some (key_address (fact_candidate candidate_facts))) iterate (selected_events (list_to_set l) (events bundle)) Hiterate) as (x & _ & -> & _).
  by eexists.
Qed.

Lemma facts_total bundle key : ∃ v, facts_of bundle key = Some v.
Proof using Hiterate.
  destruct key as [|l]; [by eexists|]. unfold compute_projected_facts, compute_candidate_economics_detailed_at, attribute_addresses.
  set (h := selected_holders _ _). set (e := selected_events _ _). set (w := (λ first, (first, _)) <$> _).
  destruct (attribution_result (fact_candidate candidate_facts) e (controllers bundle) h) as (result & -> & _). cbn [fmap option_fmap option_map mbind option_bind].
  destruct (detectors_ok e (roles result)) as (g & cs & a & -> & Hcs & Hdet & _). cbn [mbind option_bind]. rewrite Hcs. cbn [mbind option_bind]. rewrite Hdet. cbn [mbind option_bind].
  destruct (economics_spec (roles result) h w (Some (key_address (fact_candidate candidate_facts))) iterate e Hiterate) as (x & _ & -> & _). by eexists.
Qed.

(** ** The cache *)

(** What a summary and a full projection are without a cache. *)
Definition direct_summary (suspected : bool) (s : NftSelection) : option (EconomicFacts * BehaviorFacts) :=
  match evidence_if evidence suspected with Some bundle => summary_of bundle (normalized_key s) | None => Some (EconomicFacts_default, BehaviorFacts_default) end.
Definition direct_full (key : SelectionKey) : option ProjectedFacts :=
  match evidence with Some bundle => facts_of bundle key | None => Some ProjectedFacts_default end.

Definition cache_ok (cache : ProjectionCache) : Prop :=
  ∀ bundle, evidence = Some bundle →
    (∀ k v, summaries cache !! k = Some v → summary_of bundle k = Some v) ∧ (∀ k v, fulls cache !! k = Some v → facts_of bundle k = Some v).

Lemma new_cache_ok : cache_ok new_cache.
Proof using Type. intros bundle _. split; intros k v; simpl; by rewrite lookup_empty. Qed.

Lemma cache_summary_spec cache suspected s : cache_ok cache →
  ∃ cache' v, cache_summary iterate candidate_facts evidence cache suspected s = Some (cache', v) ∧ cache_ok cache' ∧ direct_summary suspected s = Some v.
Proof using Hiterate.
  intros Hok. unfold cache_summary, direct_summary. destruct (evidence_if evidence suspected) as [bundle|] eqn:E; [|by exists cache, (EconomicFacts_default, BehaviorFacts_default)].
  assert (evidence = Some bundle) as Hev by (unfold evidence_if in E; by destruct suspected). destruct (Hok bundle Hev) as [Hs Hf].
  destruct (summaries cache !! normalized_key s) as [v|] eqn:Ev; cbn [mbind option_bind].
  - rewrite Ev. cbn [mbind option_bind]. exists cache, v. split_and!; [done|done|by apply Hs].
  - destruct (summary_total bundle (normalized_key s)) as [v Hv]. rewrite Hv. cbn [mbind option_bind summaries]. rewrite lookup_insert_eq. cbn [mbind option_bind].
    eexists _, v. split_and!; [done| |done]. intros bundle' Hev'. rewrite Hev in Hev'. injection Hev' as <-. split; [|done]. simpl. intros k v'.
    destruct (decide (normalized_key s = k)) as [<-|Hk]; [rewrite lookup_insert_eq; congruence|rewrite lookup_insert_ne by done; apply Hs].
Qed.

Lemma cache_full_spec cache s : cache_ok cache →
  ∃ cache' v, cache_full iterate candidate_facts evidence cache true s = Some (cache', v) ∧ cache_ok cache' ∧ direct_full (normalized_key s) = Some v.
Proof using Hiterate.
  intros Hok. unfold cache_full, direct_full, evidence_if. destruct evidence as [bundle|] eqn:E; [|by exists cache, ProjectedFacts_default].
  destruct (Hok bundle E) as [Hs Hf]. destruct (fulls cache !! normalized_key s) as [v|] eqn:Ev; cbn [mbind option_bind].
  - rewrite Ev. cbn [mbind option_bind]. exists cache, v. split_and!; [done|done|by apply Hf].
  - destruct (facts_total bundle (normalized_key s)) as [v Hv]. rewrite Hv. cbn [mbind option_bind fulls]. rewrite lookup_insert_eq. cbn [mbind option_bind].
    eexists _, v. split_and!; [done| |done]. intros bundle' Hev'. rewrite E in Hev'. injection Hev' as <-. split; [done|]. simpl. intros k v'.
    destruct (decide (normalized_key s = k)) as [<-|Hk]; [rewrite lookup_insert_eq; congruence|rewrite lookup_insert_ne by done; apply Hf].
Qed.

(** ** The deltas *)

Context {F : Type}.
Implicit Types (d : RelationDelta) (ds : list RelationDelta) (r : SeedCandidateRelation F).

Definition direct_delta (candidate_id : Z) (labels : gmap Z RelationClassification) r : option RelationDelta :=
  let suspected := is_suspected labels (relation_seed_id r) in
  '(economics, behaviors) ← direct_summary suspected (selection r);
  Some {| delta_seed_id := relation_seed_id r; delta_seed_chain := key_chain (relation_seed r); delta_candidate_id := candidate_id;
          delta_candidate := fact_candidate candidate_facts; delta_selection := selection r; delta_suspected := suspected;
          delta_economics := economics; delta_behaviors := behaviors |}.

Lemma project_loop candidate_id labels (rs : list (SeedCandidateRelation F)) cache acc : cache_ok cache →
  ∃ cache' out, foldM (project_relation iterate candidate_facts evidence candidate_id labels) (cache, acc) rs = Some (cache', acc ++ out) ∧ cache_ok cache' ∧
    mapM (direct_delta candidate_id labels) rs = Some out.
Proof using Hiterate.
  revert cache acc. induction rs as [|r rs IH]; intros cache acc Hok; cbn [foldM]; [exists cache, []; by rewrite app_nil_r|].
  destruct (cache_summary_spec cache (is_suspected labels (relation_seed_id r)) (selection r) Hok) as (cache1 & [e b] & Hc & Hok1 & Hd).
  assert (∃ d, project_relation iterate candidate_facts evidence candidate_id labels (cache, acc) r = Some (cache1, acc ++ [d]) ∧
    direct_delta candidate_id labels r = Some d) as (d & -> & Hdd).
  { unfold project_relation, direct_delta. cbn [fst snd]. rewrite Hc, Hd. cbn [mbind option_bind]. by eexists. }
  cbn [mbind option_bind]. destruct (IH cache1 (acc ++ [d]) Hok1) as (cache' & out & -> & Hok' & Hout). exists cache', (d :: out). rewrite <- app_assoc.
  split_and!; [done|done|]. apply mapM_Some. constructor; [done|by apply mapM_Some].
Qed.

Lemma union_deltas ds : foldl union_delta None ds = match ds with [] => None | d :: ds => Some (foldl union_assign (delta_selection d) (delta_selection <$> ds)) end.
Proof using Type.
  destruct ds as [|d ds]; [done|]. change (foldl union_delta (Some (delta_selection d)) ds = Some (foldl union_assign (delta_selection d) (delta_selection <$> ds))).
  generalize (delta_selection d). induction ds as [|d' ds IH]; intros s; [done|]. apply IH.
Qed.

Lemma group_deltas ds cell :
  foldl group_delta ∅ ds !! cell =
    match filter (λ d, delta_cell d = cell) ds with [] => None | d :: ds => Some (foldl union_assign (delta_selection d) (delta_selection <$> ds)) end.
Proof using Type.
  induction ds as [|d ds IH] using rev_ind; [apply lookup_empty|]. rewrite foldl_app. cbn [foldl]. unfold group_delta at 1. rewrite filter_app, filter_cons.
  destruct (decide (delta_cell d = cell)) as [<-|Hne].
  - rewrite lookup_insert_eq, IH. rewrite filter_nil. destruct (filter _ ds) as [|d0 l]; [done|]. simpl. by rewrite fmap_app, foldl_app.
  - rewrite lookup_insert_ne by done. by rewrite IH, filter_nil, app_nil_r.
Qed.

Lemma project_cells entries cache m0 : cache_ok cache → NoDup entries.*1 →
  ∃ cache' m, foldM (project_cell iterate candidate_facts evidence) (cache, m0) entries = Some (cache', m) ∧
    (∀ k s, (k, s) ∈ entries → ∃ v, m !! k = Some v ∧ direct_full (normalized_key s) = Some v) ∧
    ∀ k, k ∉ entries.*1 → m !! k = m0 !! k.
Proof using Hiterate.
  revert cache m0. induction entries as [|[k s] entries IH]; intros cache m0 Hok Hnd; cbn [foldM].
  { exists cache, m0. split_and!; [done| |done]. by intros k s ?%elem_of_nil. }
  simpl in Hnd. apply NoDup_cons in Hnd as [Hk Hnd].
  destruct (cache_full_spec cache (normalize_selection s) Hok) as (cache1 & v & Hc & Hok1 & Hv). rewrite normalized_key_normalize in Hv.
  assert (project_cell iterate candidate_facts evidence (cache, m0) (k, s) = Some (cache1, <[k := v]> m0)) as -> by (unfold project_cell; cbn [fst snd]; by rewrite Hc).
  cbn [mbind option_bind].
  destruct (IH cache1 (<[k := v]> m0) Hok1 Hnd) as (cache' & m & -> & Hin & Hout). exists cache', m. split_and!; [done| |].
  - intros k' s' [[= -> ->]|Hks]%elem_of_cons; [|by apply Hin]. exists v. by rewrite Hout, lookup_insert_eq.
  - intros k' Hk'. cbn [fmap list_fmap fst] in Hk'. apply not_elem_of_cons in Hk'. rewrite Hout, lookup_insert_ne by naive_solver. done.
Qed.

Lemma map_entries_elem (m : gmap (ChainId * ChainId) NftSelection) k s : (k, s) ∈ sort_by (λ a b, cell_compare a.1 b.1) (map_to_list m) ↔ m !! k = Some s.
Proof using Type. by rewrite (sort_by_perm _ (map_to_list m)), elem_of_map_to_list. Qed.

(** ** The projection *)

Definition suspects (p : RelationProjection) : list RelationDelta := filter (λ d, delta_suspected d = true) (deltas p).
Definition in_cell (cell : ChainId * ChainId) (p : RelationProjection) : list RelationDelta := filter (λ d, delta_cell d = cell) (deltas p).

(** The full projections of [p] are those of its unions of selections. *)
Record projects_unions (p : RelationProjection) : Prop := {
  unions_suspected : match suspects p with
                     | [] => suspected p = ProjectedFacts_default
                     | ds => direct_full (key_of_union (delta_selection <$> ds)) = Some (suspected p)
                     end;
  unions_matrix cell : match matrix_suspected p !! cell with
                       | Some v => suspects p ≠ [] ∧ in_cell cell p ≠ [] ∧ direct_full (key_of_union (delta_selection <$> in_cell cell p)) = Some v
                       | None => suspects p = [] ∨ in_cell cell p = []
                       end;
}.

Lemma projects_unique p p' : deltas p ≡ₚ deltas p' → projects_unions p → projects_unions p' → suspected p = suspected p' ∧ matrix_suspected p = matrix_suspected p'.
Proof using Type.
  intros Hp [Hs Hm] [Hs' Hm']. assert (suspects p ≡ₚ suspects p') as Hsus by (unfold suspects; by rewrite Hp).
  assert (∀ cell, in_cell cell p ≡ₚ in_cell cell p') as Hcell by (intros cell; unfold in_cell; by rewrite Hp).
  assert (∀ ds ds' : list RelationDelta, ds ≡ₚ ds' → key_of_union (delta_selection <$> ds) = key_of_union (delta_selection <$> ds')) as Hkey
    by (intros ds ds' E; apply key_of_union_proper; intros s; by rewrite E).
  assert (∀ ds ds' : list RelationDelta, ds ≡ₚ ds' → ds = [] ↔ ds' = []) as Hnil
    by (intros ds ds' E; split; intros ->; [by apply Permutation_nil_l in E|by apply Permutation_nil_r in E]).
  split.
  - pose proof (Hkey _ _ Hsus) as Ek. pose proof (Hnil _ _ Hsus) as En. destruct (suspects p), (suspects p'); [congruence|naive_solver|naive_solver|]. congruence.
  - apply map_eq. intros cell. specialize (Hm cell). specialize (Hm' cell). pose proof (Hkey _ _ (Hcell cell)) as Ek. pose proof (Hnil _ _ (Hcell cell)). pose proof (Hnil _ _ Hsus).
    destruct (matrix_suspected p !! cell), (matrix_suspected p' !! cell); [|naive_solver..]. destruct Hm as (_ & _ & Hm), Hm' as (_ & _ & Hm'). congruence.
Qed.

Lemma projection_spec candidate_id (relations : list (SeedCandidateRelation F)) labels :
  ∃ p out, project_relations iterate candidate_facts evidence candidate_id relations labels = Some p ∧
    mapM (direct_delta candidate_id (labels_by_seed labels)) (filter (λ r, incomplete r = false) relations) = Some out ∧
    deltas p = sort_by delta_order out ∧ projects_unions p.
Proof using Hiterate.
  unfold project_relations.
  destruct (project_loop candidate_id (labels_by_seed labels) (filter (λ r, incomplete r = false) relations) new_cache [] new_cache_ok) as (cache & out & -> & Hok & Hout).
  cbn [mbind option_bind app]. rewrite union_deltas. set (ds := sort_by delta_order out).
  assert (∃ cache' v, match (match filter (λ d, delta_suspected d = true) ds with [] => None | d :: ds => Some (foldl union_assign (delta_selection d) (delta_selection <$> ds)) end) with
      | Some s => cache_full iterate candidate_facts evidence cache true (normalize_selection s) | None => Some (cache, ProjectedFacts_default) end = Some (cache', v) ∧ cache_ok cache' ∧
      match filter (λ d, delta_suspected d = true) ds with [] => v = ProjectedFacts_default | l => direct_full (key_of_union (delta_selection <$> l)) = Some v end) as (cache' & v & -> & Hok' & Hv).
  { destruct (filter (λ d, delta_suspected d = true) ds) as [|d l]; [by exists cache, ProjectedFacts_default|].
    destruct (cache_full_spec cache (normalize_selection (foldl union_assign (delta_selection d) (delta_selection <$> l))) Hok) as (cache' & v & -> & Hok' & Hv).
    exists cache', v. split_and!; [done|done|]. by rewrite normalized_key_normalize, key_of_fold in Hv. }
  cbn [mbind option_bind]. set (groups := if existsb delta_suspected ds then foldl group_delta ∅ ds else ∅).
  destruct (project_cells (sort_by (λ a b, cell_compare a.1 b.1) (map_to_list groups)) cache' ∅ Hok') as (cache2 & m & -> & Hin & Hnone).
  { rewrite (sort_by_perm _ (map_to_list groups)). apply NoDup_fst_map_to_list. }
  cbn [mbind option_bind]. eexists _, out. split_and!; [done|done|done|].
  assert (existsb delta_suspected ds = true ↔ filter (λ d, delta_suspected d = true) ds ≠ []) as Hex.
  { rewrite existsb_exists. setoid_rewrite <- list_elem_of_In. split.
    - intros (d & Hd & Hs) E. apply (not_elem_of_nil d). rewrite <- E. by apply list_elem_of_filter.
    - intros Hne. destruct (filter _ ds) as [|d l] eqn:E; [done|]. exists d. assert (d ∈ filter (λ d, delta_suspected d = true) ds) as Hd by (rewrite E; by left).
      apply list_elem_of_filter in Hd as [Hs Hd]. done. }
  constructor; unfold suspects, in_cell; cbn [deltas suspected matrix_suspected]; [exact Hv|]. intros cell.
  assert (groups !! cell = if existsb delta_suspected ds then foldl group_delta ∅ ds !! cell else None) as Hg by (unfold groups; destruct (existsb _ ds); [done|apply lookup_empty]).
  rewrite group_deltas in Hg. destruct (groups !! cell) as [s|] eqn:Es.
  - destruct (Hin cell s) as (v' & -> & Hd); [by apply map_entries_elem|]. destruct (existsb delta_suspected ds); [|done].
    destruct (filter (λ d, delta_cell d = cell) ds) as [|d l]; [done|]. injection Hg as ->. rewrite key_of_fold in Hd. split_and!; [by apply Hex|done|done].
  - assert (m !! cell = None) as ->.
    { rewrite Hnone; [apply lookup_empty|]. intros ([k s] & E & Hks%map_entries_elem)%list_elem_of_fmap. simpl in E. congruence. }
    destruct (existsb delta_suspected ds); [right|left].
    + by destruct (filter (λ d, delta_cell d = cell) ds).
    + destruct (filter (λ d, delta_suspected d = true) ds); [done|]. by destruct Hex as [_ Hex]; specialize (Hex ltac:(done)).
Qed.
End Projection.

Lemma projected_behavior_counts l k : fact_count (projected_behavior_facts l) k = of_kind k l.
Proof.
  unfold projected_behavior_facts. induction l as [|i l IH] using rev_ind; [by destruct k|]. rewrite foldl_app. cbn [foldl].
  unfold of_kind in *. rewrite filter_app, length_app, <- IH, filter_cons, filter_nil.
  destruct k; simpl; unfold count_behavior; simpl; repeat case_bool_decide; repeat case_decide; simpl; congruence || lia.
Qed.

#[export] Instance delta_order_laws : CompareLaws delta_order.
Proof. unfold delta_order. apply compare_map_laws, _. Qed.

Lemma mapM_permutation {A B} (f : A → option B) l l' o : l ≡ₚ l' → mapM f l = Some o → ∃ o', mapM f l' = Some o' ∧ o ≡ₚ o'.
Proof.
  intros Hp. setoid_rewrite mapM_Some. revert o. induction Hp as [|x l l' Hp IH|x y l|l1 l2 l3 _ IH1 _ IH2]; intros o Ho.
  - exists o. done.
  - apply Forall2_cons_inv_l in Ho as (d & o' & Hd & Ho & ->). destruct (IH o' Ho) as (o2 & Ho2 & Hp2). exists (d :: o2). split; [by constructor|by constructor].
  - apply Forall2_cons_inv_l in Ho as (d & o' & Hd & Ho & ->). apply Forall2_cons_inv_l in Ho as (d' & o2 & Hd' & Ho & ->).
    exists (d' :: d :: o2). split; [by repeat constructor|constructor].
  - destruct (IH1 o Ho) as (o2 & Ho2 & Hp2). destruct (IH2 o2 Ho2) as (o3 & Ho3 & Hp3). exists o3. split; [done|by rewrite Hp2].
Qed.

(** C31: The projection of a candidate returns, for any facts, evidence, relations and labels.
    It has one delta for every finished relation, sorted by seed; each is suspected
    exactly when the label of its seed says so, and carries what the computation on its
    own selection gives, although equal selections are computed once. The suspected
    facts are those of the union of the suspected selections, and the matrix has, when
    something is suspected, the facts of the union of every cell that has a delta. The
    order in which the relations come changes only the order of the deltas of one seed. *)
Theorem projection_is_direct `{!UnstableSort} {F} iterate candidate_facts evidence candidate_id (relations : list (SeedCandidateRelation F)) labels :
  iterates iterate →
  ∃ p out, project_relations iterate candidate_facts evidence candidate_id relations labels = Some p ∧
    mapM (direct_delta iterate candidate_facts evidence candidate_id (labels_by_seed labels)) (filter (λ r, incomplete r = false) relations) = Some out ∧
    deltas p ≡ₚ out ∧ StronglySorted (λ a b, delta_order a b ≠ Gt) (deltas p) ∧
    projects_unions iterate candidate_facts evidence p ∧
    ∀ relations', relations' ≡ₚ relations → ∃ p', project_relations iterate candidate_facts evidence candidate_id relations' labels = Some p' ∧
      deltas p' ≡ₚ deltas p ∧ suspected p' = suspected p ∧ matrix_suspected p' = matrix_suspected p.
Proof.
  intros Hit. destruct (projection_spec iterate Hit candidate_facts evidence candidate_id relations labels) as (p & out & Hp & Hout & Hd & Hu).
  exists p, out. split_and!; [done|done|rewrite Hd; apply (sort_by_perm delta_order)|rewrite Hd; apply (sort_by_sorted delta_order)|done|].
  intros relations' Hperm. destruct (projection_spec iterate Hit candidate_facts evidence candidate_id relations' labels) as (p' & out' & Hp' & Hout' & Hd' & Hu').
  assert (deltas p' ≡ₚ deltas p) as Hds.
  { rewrite Hd, Hd', !(sort_by_perm delta_order).
    assert (filter (λ r, incomplete r = false) relations ≡ₚ filter (λ r, incomplete r = false) relations') as Hf by (by rewrite Hperm).
    destruct (mapM_permutation _ _ _ _ Hf Hout) as (o & Ho & Hpo). rewrite Hout' in Ho. by injection Ho as ->. }
  exists p'. split_and!; [done|done|..]; by apply (projects_unique iterate candidate_facts evidence p' p).
Qed.

Definition sample_relation (seed : Z) (s : NftSelection) : SeedCandidateRelation Z :=
  {| relation_seed_id := seed; relation_seed := {| key_chain := Base; key_address := lit "seed" |}; relation_candidate_id := 1;
     relation_candidate := {| key_chain := Ethereum; key_address := lit "contract" |}; dimensions := 1; selection := s; relation_evidence := []; incomplete := false |}.

Definition sample_relations : list (SeedCandidateRelation Z) :=
  [sample_relation 5 (Explicit [sample_nft; sample_nft]); sample_relation 2 (Explicit [])].

Definition sample_labels : list RelationLabel :=
  [{| label_seed_id := 5; label_candidate_id := 1; classification := SuspectedDuplicate true |}; {| label_seed_id := 2; label_candidate_id := 1; classification := LegitDuplicate [] |}].

Lemma projection_is_direct_witness :
  iterates map_to_list ∧ ∃ f p, analyze_candidate map_to_list sample_bundle 9 = Some f ∧
    project_relations (H := stable_sort) map_to_list f (Some sample_bundle) 1 sample_relations sample_labels = Some p ∧
    map delta_seed_id (deltas p) = [2; 5]%Z ∧ map delta_suspected (deltas p) = [false; true] ∧
    projects_unions map_to_list f (Some sample_bundle) p.
Proof.
  assert (iterates map_to_list) as Hit by (by intros m). split; [done|].
  destruct (analyze_candidate map_to_list sample_bundle 9) as [f|] eqn:Ef; [|exfalso; vm_compute in Ef; discriminate]. exists f.
  destruct (@projection_is_direct stable_sort Z map_to_list f (Some sample_bundle) 1 sample_relations sample_labels Hit) as (p & out & Hp & _ & _ & _ & Hu & _).
  exists p. split; [done|]. split; [exact Hp|].
  assert ((λ p, (map delta_seed_id (deltas p), map delta_suspected (deltas p))) <$> (f ← analyze_candidate map_to_list sample_bundle 9;
    project_relations (H := stable_sort) map_to_list f (Some sample_bundle) 1 sample_relations sample_labels) = Some ([2; 5]%Z, [false; true])) as E by (vm_compute; reflexivity).
  rewrite Ef in E. cbn [mbind option_bind] in E. rewrite Hp in E. cbn [fmap option_fmap option_map] in E. apply (inj Some) in E. injection E as E1 E2.
  split; [exact E1|]. split; [exact E2|exact Hu].
Defined.
