(* ===== verification/ValuePools.v ===== *)
(** Pools of interned strings (A/resident/value_pools.rs): the strings of a pool lie one
    after the other in a vector of bytes, offsets delimit them, and buckets of a hash map
    find the number of a string. The bytes of a pool are read back with an unchecked
    conversion; here it is a decoder that has no value on bytes that are not UTF-8. *)

From S2P Require Import Prelude Text.

(** ** UTF-8 *)

Section Utf8.
Local Open Scope N_scope.

(** [char]: a Unicode scalar value. *)
Definition is_scalar (c : chr) : bool := (c <? 55296) || in_chars 57344 1114111 c.

(** A value of type [str]. *)
Definition valid_str (s : str) : Prop := Forall (λ c, is_scalar c = true) s.

(** [char::encode_utf8] *)
Definition utf8_char (c : chr) : list N :=
  if c <? 128 then [c]
  else if c <? 2048 then [192 + c / 64; 128 + c mod 64]
  else if c <? 65536 then [224 + c / 4096; 128 + (c / 64) mod 64; 128 + c mod 64]
  else [240 + c / 262144; 128 + (c / 4096) mod 64; 128 + (c / 64) mod 64; 128 + c mod 64].

(** [str::as_bytes] *)
Definition as_bytes (s : str) : list N := s ≫= utf8_char.

Definition is_continuation (b : N) : bool := in_chars 128 191 b.

(** [str::from_utf8] on valid bytes: the conversion [from_utf8_unchecked] relies on. *)
Fixpoint from_utf8 (bytes : list N) : option str :=
  match bytes with
  | [] => Some []
  | b0 :: r0 =>
      if b0 <? 128 then s ← from_utf8 r0; Some (b0 :: s)
      else match r0 with
      | [] => None
      | b1 :: r1 =>
          if negb (is_continuation b1) then None
          else if in_chars 194 223 b0 then
            s ← from_utf8 r1; Some ((b0 - 192) * 64 + (b1 - 128) :: s)
          else match r1 with
          | [] => None
          | b2 :: r2 =>
              if negb (is_continuation b2) then None
              else if in_chars 224 239 b0 then
                let c := (b0 - 224) * 4096 + (b1 - 128) * 64 + (b2 - 128) in
                if (2048 <=? c) && is_scalar c then s ← from_utf8 r2; Some (c :: s) else None
              else match r2 with
              | [] => None
              | b3 :: r3 =>
                  if negb (is_continuation b3) then None
                  else if in_chars 240 244 b0 then
                    let c := (b0 - 240) * 262144 + (b1 - 128) * 4096 + (b2 - 128) * 64 + (b3 - 128) in
                    if (65536 <=? c) && is_scalar c then s ← from_utf8 r3; Some (c :: s) else None
                  else None
              end
          end
      end
  end.
End Utf8.

(** [&bytes[start..end]] *)
Definition slice {A} (l : list A) (a b : nat) : option (list A) :=
  if decide (a ≤ b ∧ b ≤ length l) then Some (take (b - a) (drop a l)) else None.

(** ** Pools *)

Record FrozenBytePool := { frozen_offsets : list nat; frozen_bytes : list N }.

Definition frozen_len (p : FrozenBytePool) : nat := length (frozen_offsets p) - 1.

Definition frozen_is_empty (p : FrozenBytePool) : bool := bool_decide (frozen_len p = 0).

(** The string between two offsets: [None] on a panic, and on undefined behaviour. *)
Definition get_between (offsets : list nat) (bytes : list N) (id : nat) : option str :=
  start ← offsets !! id;
  end_ ← offsets !! (id + 1);
  segment ← slice bytes start end_;
  from_utf8 segment.

Definition frozen_get (p : FrozenBytePool) (id : nat) : option str :=
  get_between (frozen_offsets p) (frozen_bytes p) id.

Definition frozen_size (p : FrozenBytePool) : Z :=
  (Z.of_nat (length (frozen_offsets p)) * 8 + Z.of_nat (length (frozen_bytes p)))%Z.

Inductive InternBucket :=
  | One (id : nat)
  | Many (ids : list nat).

#[export] Instance InternBucket_eq_dec : EqDecision InternBucket.
Proof. solve_decision. Defined.

Definition bucket_push (b : InternBucket) (id : nat) : InternBucket :=
  match b with
  | One first => Many [first; id]
  | Many ids => Many (ids ++ [id])
  end.

Record ByteInterner := {
  offsets : list nat;
  bytes : list N;
  buckets : gmap N InternBucket;
}.

#[export] Instance ByteInterner_eq_dec : EqDecision ByteInterner.
Proof. solve_decision. Defined.

Definition default_interner : ByteInterner := {| offsets := [0]; bytes := []; buckets := ∅ |}.

Definition with_zero_offset (p : ByteInterner) : ByteInterner :=
  {| offsets := offsets p ++ [0]; bytes := bytes p; buckets := buckets p |}.

(** Capacities are hints of the allocator. *)
Definition with_capacity (values capacity : nat) : ByteInterner :=
  with_zero_offset {| offsets := []; bytes := []; buckets := ∅ |}.

Definition pool_len (p : ByteInterner) : nat := length (offsets p) - 1.

Definition pool_is_empty (p : ByteInterner) : bool := bool_decide (pool_len p = 0).

Definition get (p : ByteInterner) (id : nat) : option str := get_between (offsets p) (bytes p) id.

Definition freeze (p : ByteInterner) : FrozenBytePool :=
  {| frozen_offsets := offsets p; frozen_bytes := bytes p |}.

Section Interner.
(** [stable_hash]: the hash function of the [ahash] crate with fixed seeds. *)
Context (stable_hash : list N → N).

(** [any]: the first member of a bucket with the bytes of the value. *)
Fixpoint find_in (p : ByteInterner) (value : str) (ids : list nat) : option (option nat) :=
  match ids with
  | [] => Some None
  | id :: ids =>
      s ← get p id;
      if bool_decide (as_bytes s = as_bytes value) then Some (Some id) else find_in p value ids
  end.

(** [for_each] *)
Definition bucket_find (p : ByteInterner) (value : str) (b : InternBucket) : option (option nat) :=
  match b with
  | One id => find_in p value [id]
  | Many ids => find_in p value ids
  end.

Definition lookup_hashed (p : ByteInterner) (value : str) (hash : N) : option (option nat) :=
  match buckets p !! hash with
  | Some bucket => bucket_find p value bucket
  | None => Some None
  end.

Definition pool_lookup (p : ByteInterner) (value : str) : option (option nat) :=
  lookup_hashed p value (stable_hash (as_bytes value)).

(** The value appended under the next number. *)
Definition append_value (p : ByteInterner) (value : str) (hash : N) (id : nat) : ByteInterner :=
  let all := bytes p ++ as_bytes value in
  {| offsets := offsets p ++ [length all]; bytes := all;
     buckets := <[hash := match buckets p !! hash with
                          | Some bucket => bucket_push bucket id
                          | None => One id
                          end]> (buckets p) |}.

(** [u32::try_from(len).expect(..)] *)
Definition u32_id (n : nat) : option nat := if decide (Z.of_nat n < 2 ^ 32)%Z then Some n else None.

Definition intern (p : ByteInterner) (value : str) : option (ByteInterner * nat) :=
  let hash := stable_hash (as_bytes value) in
  found ← lookup_hashed p value hash;
  match found with
  | Some id => Some (p, id)
  | None => id ← u32_id (pool_len p); Some (append_value p value hash id, id)
  end.

(** [len as u32] *)
Definition len_u32 (p : ByteInterner) : nat := Z.to_nat (Z.of_nat (pool_len p) mod 2 ^ 32).

(** One string of the source: its number in the target. *)
Definition merge_value (source : ByteInterner) (acc : ByteInterner * list nat) (id : nat) :
    option (ByteInterner * list nat) :=
  value ← get source id;
  '(target, new_id) ← intern acc.1 value;
  Some (target, acc.2 ++ [new_id]).

(** [merge_pool] of the builder. *)
Definition merge_pool (target source : ByteInterner) : option (ByteInterner * list nat) :=
  foldM (merge_value source) (target, []) (seq 0 (len_u32 source)).
End Interner.

(** ** Hexadecimal text *)

Definition hex_digit (d : N) : chr := (if d <? 10 then 48 + d else 87 + d)%N.

(** [format!("{byte:02x}")] *)
Definition hex_byte (b : N) : str := [hex_digit (b / 16); hex_digit (b mod 16)]%N.

Definition hex_encode (value : list N) : str := value ≫= hex_byte.

(** [digest] is the SHA-256 of the [sha2] crate. *)
Definition digest_hex (digest : list N → list N) (value : list N) : str := hex_encode (digest value).

(** ** UTF-8 *)

Ltac divide := Zify.zify; Z.to_euclidean_division_equations; lia.

(** Decides the boolean comparisons of a goal one by one. *)
Ltac compare_cases :=
  repeat match goal with
  | |- context [(?a <? ?b)%N] => destruct (N.ltb_spec a b); try divide
  | |- context [(?a <=? ?b)%N] => destruct (N.leb_spec a b); try divide
  end.

Lemma is_scalar_bound c : is_scalar c = true → (c < 55296 ∨ (57344 ≤ c ∧ c < 1114112))%N.
Proof. unfold is_scalar, in_chars. rewrite orb_true_iff, andb_true_iff, N.ltb_lt, !N.leb_le. lia. Qed.

Lemma from_utf8_char c bytes :
  is_scalar c = true → from_utf8 (utf8_char c ++ bytes) = (s ← from_utf8 bytes; Some (c :: s)).
Proof.
  intros Hc. pose proof (is_scalar_bound c Hc) as Hb. unfold utf8_char.
  destruct (N.ltb_spec c 128); [|destruct (N.ltb_spec c 2048); [|destruct (N.ltb_spec c 65536)]]; cbn -[N.div N.modulo N.mul N.add N.sub is_scalar].
  - by destruct (N.ltb_spec c 128); [|lia].
  - unfold is_continuation, in_chars. compare_cases. cbn [andb negb].
    replace ((192 + c / 64 - 192) * 64 + (128 + c mod 64 - 128))%N with c by divide. done.
  - unfold is_continuation, in_chars. compare_cases. cbn [andb negb].
    replace (_ + _ + _)%N with c by divide. by rewrite Hc.
  - unfold is_continuation, in_chars. compare_cases. cbn [andb negb].
    replace (_ + _ + _ + _)%N with c by divide. by rewrite Hc.
Qed.

Lemma from_utf8_as_bytes s : valid_str s → from_utf8 (as_bytes s) = Some s.
Proof.
  induction 1 as [|c s Hc _ IH]; [done|].
  change (as_bytes (c :: s)) with (utf8_char c ++ as_bytes s). by rewrite from_utf8_char, IH.
Qed.

Lemma as_bytes_inj s1 s2 : valid_str s1 → valid_str s2 → as_bytes s1 = as_bytes s2 → s1 = s2.
Proof. intros H1 H2 E. apply (inj Some). by rewrite <- !from_utf8_as_bytes, E. Qed.

(** ** Segments *)

Fixpoint offsets_from (n : nat) (l : list str) : list nat :=
  match l with
  | [] => [n]
  | s :: l => n :: offsets_from (n + length (as_bytes s)) l
  end.

Definition all_bytes (l : list str) : list N := l ≫= as_bytes.

Lemma length_offsets_from n l : length (offsets_from n l) = S (length l).
Proof. revert n. induction l as [|s l IH]; intros n; cbn; [done|]. by rewrite IH. Qed.

Lemma lookup_offsets_from n l i :
  i ≤ length l → offsets_from n l !! i = Some (n + length (all_bytes (take i l))).
Proof.
  revert n i. induction l as [|s l IH]; intros n [|i] Hi; cbn [length] in Hi; try (cbn; f_equal; lia).
  cbn [offsets_from lookup list_lookup firstn]. rewrite IH by lia.
  change (all_bytes (s :: take i l)) with (as_bytes s ++ all_bytes (take i l)).
  rewrite length_app. f_equal. lia.
Qed.

Lemma offsets_from_snoc n l s :
  offsets_from n (l ++ [s]) = offsets_from n l ++ [n + length (all_bytes (l ++ [s]))].
Proof.
  revert n. induction l as [|t l IH]; intros n; cbn [app offsets_from].
  - unfold all_bytes. cbn. by rewrite app_nil_r.
  - rewrite IH. change (all_bytes (t :: l ++ [s])) with (as_bytes t ++ all_bytes (l ++ [s])).
    rewrite length_app. cbn [app]. do 3 f_equal. lia.
Qed.

Lemma all_bytes_app l1 l2 : all_bytes (l1 ++ l2) = all_bytes l1 ++ all_bytes l2.
Proof. apply bind_app. Qed.

Lemma slice_middle {A} (l1 l2 l3 : list A) :
  slice (l1 ++ l2 ++ l3) (length l1) (length l1 + length l2) = Some l2.
Proof.
  unfold slice. rewrite decide_True by (rewrite !length_app; lia).
  rewrite drop_app_length. f_equal. replace (_ - _) with (length l2) by lia. by rewrite take_app_length.
Qed.

Lemma get_between_list l id : Forall valid_str l → get_between (offsets_from 0 l) (all_bytes l) id = l !! id.
Proof.
  intros Hl. unfold get_between. destruct (l !! id) as [s|] eqn:E.
  - pose proof (lookup_lt_Some _ _ _ E). rewrite !lookup_offsets_from by lia. cbn.
    rewrite <- (take_drop_middle l id s E) at 1. rewrite Nat.add_1_r, (take_S_r _ _ _ E).
    change (take id l ++ s :: drop (S id) l) with (take id l ++ [s] ++ drop (S id) l).
    rewrite !all_bytes_app, length_app. assert (all_bytes [s] = as_bytes s) as -> by apply app_nil_r.
    rewrite slice_middle. cbn. apply from_utf8_as_bytes. by eapply Forall_lookup_1.
  - apply lookup_ge_None in E. destruct (offsets_from 0 l !! id) as [a|]; [cbn|done].
    rewrite (lookup_ge_None_2 _ (id + 1)); [done|]. rewrite length_offsets_from. lia.
Qed.

(** ** Positions *)

(** The number of a string in the list of the pool. *)
Definition position (v : str) (l : list str) : option nat := fst <$> list_find (λ s, s = v) l.

Lemma position_Some v l i : position v l = Some i → l !! i = Some v.
Proof.
  unfold position. destruct (list_find _ l) as [[j s]|] eqn:E; [|done]. cbn. intros [= ->].
  by apply list_find_Some in E as (? & -> & _).
Qed.

Lemma position_None v l : position v l = None ↔ v ∉ l.
Proof.
  unfold position. rewrite fmap_None, list_find_None, Forall_forall. naive_solver.
Qed.

Lemma position_lookup v l i : NoDup l → l !! i = Some v → position v l = Some i.
Proof.
  intros Hl Hi. destruct (position v l) as [j|] eqn:E.
  - apply position_Some in E. f_equal. by eapply NoDup_lookup.
  - apply position_None in E. destruct E. by eapply list_elem_of_lookup_2.
Qed.

Lemma position_app_l v l1 l2 i : position v l1 = Some i → position v (l1 ++ l2) = Some i.
Proof.
  unfold position. destruct (list_find _ l1) as [[j s]|] eqn:E; [|done]. cbn. intros [= ->].
  by rewrite (list_find_app_l _ _ _ _ _ E).
Qed.

(** ** Pools as lists of distinct strings *)

Definition pool_fits (l : list str) : Prop := (Z.of_nat (length l) ≤ 2 ^ 32)%Z.

Definition bucket_ids (b : option InternBucket) : list nat :=
  match b with
  | None => []
  | Some (One id) => [id]
  | Some (Many ids) => ids
  end.

Section Pools.
Context (stable_hash : list N → N).
Abbreviation hash_of v := (stable_hash (as_bytes v)).

Record pool_holds (p : ByteInterner) (l : list str) : Prop := {
  holds_valid : Forall valid_str l;
  holds_distinct : NoDup l;
  holds_fits : pool_fits l;
  holds_offsets : offsets p = offsets_from 0 l;
  holds_bytes : bytes p = all_bytes l;
  holds_buckets hash id :
    id ∈ bucket_ids (buckets p !! hash) ↔ ∃ v, l !! id = Some v ∧ hash_of v = hash;
}.

Lemma default_holds : pool_holds default_interner [].
Proof.
  split; try done; try constructor. intros H. by apply elem_of_nil in H. intros (v & ? & _). done.
Qed.

Lemma with_capacity_holds n m : pool_holds (with_capacity n m) [].
Proof. exact default_holds. Qed.

Section Holding.
Context (p : ByteInterner) (l : list str) (Hp : pool_holds p l).

Lemma get_holds id : get p id = l !! id.
Proof. unfold get. destruct Hp as [? _ _ -> -> _]. by apply get_between_list. Qed.

Lemma frozen_get_holds id : frozen_get (freeze p) id = l !! id.
Proof. exact (get_holds id). Qed.

Lemma len_holds : pool_len p = length l.
Proof. unfold pool_len. destruct Hp as [_ _ _ -> _ _]. rewrite length_offsets_from. lia. Qed.

Lemma find_in_holds v ids :
  valid_str v → (∀ id, id ∈ ids → is_Some (l !! id)) →
  find_in p v ids = Some (match position v l with
                          | Some i => if decide (i ∈ ids) then Some i else None
                          | None => None
                          end).
Proof.
  intros Hv. induction ids as [|id ids IH]; intros Hids; cbn [find_in].
  { destruct (position v l) as [i|]; [|done]. by rewrite decide_False by apply not_elem_of_nil. }
  destruct (Hids id) as [s Hs]; [by left|]. rewrite get_holds, Hs. cbn [mbind option_bind].
  assert (valid_str s) by (eapply Forall_lookup_1; [apply Hp|done]).
  case_bool_decide as E.
  - apply as_bytes_inj in E as ->; [|done..].
    rewrite (position_lookup v l id) by (done || apply Hp). by rewrite decide_True by by left.
  - rewrite IH by (intros; apply Hids; by right). destruct (position v l) as [i|] eqn:Hi; [|done].
    apply position_Some in Hi. f_equal. apply decide_ext. rewrite elem_of_cons.
    assert (i ≠ id) by congruence. naive_solver.
Qed.

Lemma lookup_hashed_holds v : valid_str v → lookup_hashed p v (hash_of v) = Some (position v l).
Proof.
  intros Hv. assert (lookup_hashed p v (hash_of v) = find_in p v (bucket_ids (buckets p !! hash_of v))) as ->.
  { unfold lookup_hashed. by destruct (buckets p !! _) as [[id|ids]|]. }
  rewrite find_in_holds; [|done|].
  - destruct (position v l) as [i|] eqn:E; [|done]. rewrite decide_True; [done|].
    apply (holds_buckets _ _ Hp). exists v. split; [by apply position_Some|done].
  - intros id (s & -> & _)%(holds_buckets _ _ Hp). done.
Qed.

Lemma append_holds v :
  valid_str v → v ∉ l → pool_fits (l ++ [v]) → pool_holds (append_value p v (hash_of v) (length l)) (l ++ [v]).
Proof.
  intros Hv Hnew Hfit. split; try done.
  - apply Forall_app. split; [apply Hp|by constructor].
  - apply NoDup_app. split; [apply Hp|]. split; [|apply NoDup_singleton]. set_solver.
  - cbn. rewrite (holds_offsets _ _ Hp), (holds_bytes _ _ Hp), offsets_from_snoc, all_bytes_app.
    unfold all_bytes at 3. cbn. by rewrite app_nil_r.
  - cbn. rewrite (holds_bytes _ _ Hp), all_bytes_app. unfold all_bytes at 3. cbn. by rewrite app_nil_r.
  - intros hash id. cbn [append_value buckets].
    assert (Hids : id ∈ bucket_ids (<[hash_of v := match buckets p !! hash_of v with
        | Some b => bucket_push b (length l) | None => One (length l) end]> (buckets p) !! hash)
      ↔ id ∈ bucket_ids (buckets p !! hash) ∨ id = length l ∧ hash = hash_of v).
    { destruct (decide (hash = hash_of v)) as [->|Hne].
      - rewrite lookup_insert_eq. destruct (buckets p !! hash_of v) as [[i|ids]|]; cbn;
          rewrite ?elem_of_app, ?list_elem_of_singleton, ?elem_of_cons, ?elem_of_nil; naive_solver.
      - rewrite lookup_insert_ne by done. naive_solver. }
    rewrite Hids, (holds_buckets _ _ Hp). split.
    + intros [(s & Hs & <-)|[-> ->]].
      * exists s. split; [|done]. by apply lookup_app_l_Some.
      * exists v. by rewrite list_lookup_middle.
    + intros (s & [Hs|[Hle Hs]]%lookup_app_Some & <-); [naive_solver|].
      apply list_lookup_singleton_Some in Hs as [Hid <-]. right. split; [lia|done].
Qed.

(** One more string: the new list, and its number in it. *)
Lemma intern_holds v :
  valid_str v →
  match position v l with
  | Some i => intern stable_hash p v = Some (p, i)
  | None =>
      if decide (pool_fits (l ++ [v])) then
        intern stable_hash p v = Some (append_value p v (hash_of v) (length l), length l) ∧
        pool_holds (append_value p v (hash_of v) (length l)) (l ++ [v])
      else intern stable_hash p v = None
  end.
Proof.
  intros Hv. unfold intern. rewrite lookup_hashed_holds by done. cbn [mbind option_bind].
  destruct (position v l) as [i|] eqn:E; [done|]. apply position_None in E.
  rewrite len_holds. unfold u32_id. assert (pool_fits (l ++ [v]) ↔ (Z.of_nat (length l) < 2 ^ 32)%Z) as Hfit.
  { unfold pool_fits. rewrite length_app. cbn [length]. lia. }
  destruct (decide (pool_fits _)) as [Hf|Hf].
  - rewrite decide_True by by apply Hfit. split; [done|]. by apply append_holds.
  - by rewrite decide_False by by rewrite <- Hfit.
Qed.
End Holding.

(** The strings of a source that a pool does not have yet, at its end. *)
Definition add_value (l : list str) (v : str) : list str :=
  match position v l with Some _ => l | None => l ++ [v] end.

Definition pool_union (l1 l2 : list str) : list str := foldl add_value l1 l2.

Lemma union_prefix l1 l2 : l1 `prefix_of` pool_union l1 l2.
Proof.
  revert l1. induction l2 as [|v l2 IH]; intros l1; [done|]. cbn. etrans; [|apply IH].
  unfold add_value. destruct (position v l1); [done|]. by apply prefix_app_r.
Qed.

Lemma prefix_lookup_position l1 l2 v i :
  NoDup l2 → l1 `prefix_of` l2 → position v l1 = Some i → position v l2 = Some i.
Proof. intros _ [k ->]. apply position_app_l. Qed.

Lemma elem_of_pool_union l1 l2 v : v ∈ pool_union l1 l2 ↔ v ∈ l1 ∨ v ∈ l2.
Proof.
  revert l1. induction l2 as [|w l2 IH]; intros l1; cbn.
  { rewrite elem_of_nil. naive_solver. }
  rewrite IH, elem_of_cons. unfold add_value. destruct (position w l1) as [i|] eqn:E.
  - apply position_Some, list_elem_of_lookup_2 in E. naive_solver.
  - rewrite elem_of_app, list_elem_of_singleton. naive_solver.
Qed.

Lemma fits_prefix l1 l2 : l1 `prefix_of` l2 → pool_fits l2 → pool_fits l1.
Proof. intros Hl%prefix_length. unfold pool_fits. lia. Qed.

(** The numbers of a list of strings in a list. *)
Definition positions (l2 l : list str) : list nat := default 0 ∘ (λ v, position v l) <$> l2.

Lemma intern_list_holds (source : ByteInterner) l2 p l ids start :
  pool_holds p l → Forall valid_str l2 →
  (∀ i v, l2 !! i = Some v → get source (start + i) = Some v) →
  if decide (pool_fits (pool_union l l2)) then
    ∃ p', foldM (merge_value stable_hash source) (p, ids) (seq start (length l2)) =
            Some (p', ids ++ positions l2 (pool_union l l2)) ∧ pool_holds p' (pool_union l l2)
  else foldM (merge_value stable_hash source) (p, ids) (seq start (length l2)) = None.
Proof.
  revert p l ids start. induction l2 as [|v l2 IH]; intros p l ids start Hp Hvs Hget.
  { cbn. rewrite decide_True by apply Hp. exists p. by rewrite app_nil_r. }
  inversion_clear Hvs as [|? ? Hv Hvs']. pose proof (intern_holds p l Hp v Hv) as Hin.
  assert (Hnext : ∀ i w, l2 !! i = Some w → get source (S start + i) = Some w).
  { intros i w Hi. rewrite <- (Hget (S i) w Hi). f_equal. lia. }
  assert (Hstep : merge_value stable_hash source (p, ids) start =
    ('(t, i) ← intern stable_hash p v; Some (t, ids ++ [i]))).
  { unfold merge_value. rewrite <- (Nat.add_0_r start), (Hget 0 v eq_refl). done. }
  cbn [length seq foldM]. rewrite Hstep. cbn [pool_union foldl].
  change (foldl add_value ?a l2) with (pool_union a l2).
  assert (Hpos : ∀ i, position v (add_value l v) = Some i →
    positions (v :: l2) (pool_union (add_value l v) l2) = i :: positions l2 (pool_union (add_value l v) l2)).
  { intros i Hi. unfold positions. cbn [fmap list_fmap compose]. f_equal.
    destruct (union_prefix (add_value l v) l2) as [k Hk]. by rewrite Hk, (position_app_l _ _ _ _ Hi). }
  assert (Hgo : ∀ q i, pool_holds q (add_value l v) → position v (add_value l v) = Some i →
    intern stable_hash p v = Some (q, i) →
    if decide (pool_fits (pool_union (add_value l v) l2)) then
      ∃ p', ('(t, i) ← intern stable_hash p v; Some (t, ids ++ [i]))
              ≫= (λ b, foldM (merge_value stable_hash source) b (seq (S start) (length l2))) =
            Some (p', ids ++ positions (v :: l2) (pool_union (add_value l v) l2)) ∧
            pool_holds p' (pool_union (add_value l v) l2)
    else ('(t, i) ← intern stable_hash p v; Some (t, ids ++ [i]))
              ≫= (λ b, foldM (merge_value stable_hash source) b (seq (S start) (length l2))) = None).
  { intros q i Hq Hi ->. cbn [mbind option_bind]. rewrite (Hpos i Hi).
    specialize (IH q _ (ids ++ [i]) (S start) Hq Hvs' Hnext). destruct (decide (pool_fits (pool_union _ l2))); [|exact IH].
    destruct IH as (p' & -> & ?). exists p'. by rewrite <- app_assoc. }
  destruct (position v l) as [i|] eqn:E.
  - assert (add_value l v = l) as Hadd by (unfold add_value; by rewrite E).
    apply (Hgo p i); by rewrite ?Hadd.
  - assert (add_value l v = l ++ [v]) as Hadd by (unfold add_value; by rewrite E).
    destruct (decide (pool_fits (l ++ [v]))) as [Hf|Hf].
    + destruct Hin as [Hin Hq]. eapply Hgo; [by rewrite Hadd| |exact Hin]. rewrite Hadd.
      apply position_lookup; [apply Hq|]. by rewrite list_lookup_middle.
    + rewrite decide_False, Hin; [done|]. rewrite <- Hadd in Hf. intros Hu. apply Hf.
      by eapply fits_prefix; [apply union_prefix|].
Qed.

(** Merging appends the new strings and gives every string of the source its number;
    [len as u32] is zero for a source of [2 ^ 32] strings. *)
Lemma merge_pool_holds target source l1 l2 :
  pool_holds target l1 → pool_holds source l2 → (Z.of_nat (length l2) < 2 ^ 32)%Z →
  if decide (pool_fits (pool_union l1 l2)) then
    ∃ p', merge_pool stable_hash target source = Some (p', positions l2 (pool_union l1 l2)) ∧
          pool_holds p' (pool_union l1 l2)
  else merge_pool stable_hash target source = None.
Proof.
  intros Ht Hs Hlt. unfold merge_pool, len_u32. rewrite (len_holds _ _ Hs), Z.mod_small by lia.
  rewrite Nat2Z.id. apply intern_list_holds; [done|apply Hs|].
  intros i v Hi. by rewrite (get_holds _ _ Hs).
Qed.

Lemma merge_full_pool target source l2 :
  pool_holds source l2 → Z.of_nat (length l2) = (2 ^ 32)%Z →
  merge_pool stable_hash target source = Some (target, []).
Proof. intros Hs Hl. unfold merge_pool, len_u32. rewrite (len_holds _ _ Hs), Hl, Z.mod_same; done. Qed.

(** ** The pools of the program *)

Inductive built : ByteInterner → Prop :=
  | built_default : built default_interner
  | built_capacity n m : built (with_capacity n m)
  | built_intern p v p' id : built p → valid_str v → intern stable_hash p v = Some (p', id) → built p'
  | built_merge p q p' ids : built p → built q → merge_pool stable_hash p q = Some (p', ids) → built p'.

Lemma built_holds p : built p → ∃ l, pool_holds p l.
Proof.
  induction 1 as [| n m|p v p' id _ [l Hl] Hv Hin|p q p' ids _ [l1 H1] _ [l2 H2] Hm].
  - exists []. apply default_holds.
  - exists []. apply with_capacity_holds.
  - pose proof (intern_holds p l Hl v Hv) as H. rewrite Hin in H.
    destruct (position v l); [by simplify_eq; eauto|]. case_decide; [|done].
    destruct H as [[= -> ->] ?]. eauto.
  - destruct (decide (Z.of_nat (length l2) < 2 ^ 32)%Z) as [Hlt|Hge].
    + pose proof (merge_pool_holds p q l1 l2 H1 H2 Hlt) as H. rewrite Hm in H.
      case_decide; [|done]. destruct H as (? & [= -> ->] & ?). eauto.
    + assert (Z.of_nat (length l2) = 2 ^ 32)%Z by (pose proof (holds_fits _ _ H2); unfold pool_fits in *; lia).
      rewrite (merge_full_pool p q l2) in Hm by done. simplify_eq. eauto.
Qed.

(** The contract of a pool with the strings [l]: numbers are places in the list. *)
Record pool_contract (p : ByteInterner) (l : list str) : Prop := {
  contract_distinct : NoDup l;
  contract_bound : (Z.of_nat (length l) ≤ 2 ^ 32)%Z;
  contract_len : pool_len p = length l ∧ frozen_len (freeze p) = length l;
  contract_get id : get p id = l !! id ∧ frozen_get (freeze p) id = l !! id;
  contract_lookup v : valid_str v → pool_lookup stable_hash p v = Some (position v l);
}.

Lemma holds_contract p l : pool_holds p l → pool_contract p l.
Proof.
  intros Hp. split.
  - apply Hp.
  - apply Hp.
  - split; exact (len_holds p l Hp).
  - intros id. split; exact (get_holds p l Hp id).
  - intros v Hv. by apply lookup_hashed_holds.
Qed.
End Pools.

(** ** The contract of the pools *)


