(* ===== verification/Fallible.v ===== *)
(** Fallible operations of the analysis (A/error.rs): a value, an error or a panic. The
    texts of errors are dropped. A builder or store whose operation failed is not used
    again: every caller hands the error on and gives the load up. *)

From S2P Require Import Prelude.

(** [AnalysisError], of the modelled components. *)
Inductive AnalysisError := ConfigError | SeedError | InputError | IdCapacity | StateError.

Inductive fallible (A : Type) :=
  | Ok (a : A)
  | Err (e : AnalysisError)
  | Panic.
Arguments Ok {A} a.
Arguments Err {A} e.
Arguments Panic {A}.

#[export] Instance fallible_ret : MRet fallible := @Ok.
#[export] Instance fallible_bind : MBind fallible := λ A B f m,
  match m with
  | Ok a => f a
  | Err e => Err e
  | Panic => Panic
  end.
#[export] Instance fallible_fmap : FMap fallible := λ A B f m, m ≫= λ a, Ok (f a).

(** [expect], [unwrap], an index: a panic where there is no value. *)
Definition expect {A} (x : option A) : fallible A :=
  match x with Some a => Ok a | None => Panic end.

(** [ok_or_else(..)?] *)
Definition ok_or {A} (e : AnalysisError) (x : option A) : fallible A :=
  match x with Some a => Ok a | None => Err e end.

(** [if condition { return Err(..) }] *)
Definition fail_if (b : bool) (e : AnalysisError) : fallible () := if b then Err e else Ok ().

Section Loops.
Context {A B : Type}.

(** A loop over a list with a state. *)
Fixpoint loop (f : B → A → fallible B) (b : B) (l : list A) : fallible B :=
  match l with
  | [] => Ok b
  | x :: l => b ← f b x; loop f b l
  end.

(** A loop that collects results. *)
Fixpoint try_map (f : A → fallible B) (l : list A) : fallible (list B) :=
  match l with
  | [] => Ok []
  | x :: l => y ← f x; ys ← try_map f l; Ok (y :: ys)
  end.
End Loops.

(** ** Facts *)

Lemma bind_Ok {A B} (m : fallible A) (f : A → fallible B) b :
  m ≫= f = Ok b ↔ ∃ a, m = Ok a ∧ f a = Ok b.
Proof. destruct m; cbn; naive_solver. Qed.

Lemma expect_Ok {A} (x : option A) a : expect x = Ok a ↔ x = Some a.
Proof. destruct x; cbn; naive_solver. Qed.

Lemma loop_app {A B} (f : B → A → fallible B) b l1 l2 :
  loop f b (l1 ++ l2) = loop f b l1 ≫= λ b, loop f b l2.
Proof. revert b. induction l1 as [|x l1 IH]; intros b; cbn; [done|]. destruct (f b x); cbn; auto. Qed.

(** An invariant of the steps of a loop. *)
Lemma loop_invariant {A B} (I : list A → B → Prop) (f : B → A → fallible B) b l :
  I [] b →
  (∀ done x b, x ∈ l → I done b → ∃ b', f b x = Ok b' ∧ I (done ++ [x]) b') →
  ∃ b', loop f b l = Ok b' ∧ I l b'.
Proof.
  intros H0 Hstep.
  assert (Hgen : ∀ rest d b, (∀ x, x ∈ rest → x ∈ l) → I d b → ∃ b', loop f b rest = Ok b' ∧ I (d ++ rest) b').
  { induction rest as [|x rest IH]; intros d b' Hin HI; cbn; [rewrite app_nil_r; eauto|].
    destruct (Hstep d x b') as (b1 & -> & H1); [apply Hin; by left|done|]. cbn.
    destruct (IH (d ++ [x]) b1) as (b2 & -> & H2); [intros; apply Hin; by right|done|].
    exists b2. by rewrite <- app_assoc in H2. }
  destruct (Hgen l [] b) as (b' & ? & ?); [done|done|]. eauto.
Qed.

(** An invariant of the steps of a loop by their numbers. *)
Lemma loop_indexed {A B} (I : nat → B → Prop) (f : B → A → fallible B) b l :
  I 0 b →
  (∀ i x b, l !! i = Some x → I i b → ∃ b', f b x = Ok b' ∧ I (S i) b') →
  ∃ b', loop f b l = Ok b' ∧ I (length l) b'.
Proof.
  intros H0 Hstep.
  assert (Hgen : ∀ rest n b, (∀ i x, rest !! i = Some x → l !! (n + i) = Some x) → I n b →
    ∃ b', loop f b rest = Ok b' ∧ I (n + length rest) b').
  { induction rest as [|x rest IH]; intros n b' Hin HI; cbn; [rewrite Nat.add_0_r; eauto|].
    destruct (Hstep n x b') as (b1 & -> & H1); [rewrite <- (Nat.add_0_r n); by apply Hin|done|]. cbn.
    destruct (IH (S n) b1) as (b2 & -> & H2); [intros i y Hy; replace (S n + i) with (n + S i) by lia; by apply Hin|done|].
    exists b2. by replace (n + S (length rest)) with (S n + length rest) by lia. }
  destruct (Hgen l 0 b) as (b' & ? & ?); [done|done|]. eauto.
Qed.

(** A loop whose steps return is a fold. *)
Lemma loop_fold {A B} (f : B → A → fallible B) (g : B → A → B) b l :
  (∀ b x, x ∈ l → f b x = Ok (g b x)) → loop f b l = Ok (foldl g b l).
Proof.
  revert b. induction l as [|x l IH]; intros b Hf; cbn; [done|]. rewrite Hf by by left. cbn.
  apply IH. intros; apply Hf; by right.
Qed.

Lemma try_map_Ok {A B} (f : A → fallible B) (g : A → B) l :
  (∀ x, x ∈ l → f x = Ok (g x)) → try_map f l = Ok (g <$> l).
Proof.
  induction l as [|x l IH]; intros Hf; cbn; [done|]. rewrite Hf by by left. cbn.
  rewrite IH; [done|]. intros; apply Hf; by right.
Qed.

Lemma try_map_inv {A B} (f : A → fallible B) l ys :
  try_map f l = Ok ys ↔ Forall2 (λ x y, f x = Ok y) l ys.
Proof.
  revert ys. induction l as [|x l IH]; intros ys; cbn.
  - split; [intros [= <-]; constructor|intros H; by inversion H].
  - rewrite bind_Ok. setoid_rewrite bind_Ok. setoid_rewrite IH. split.
    + intros (y & ? & ys' & ? & [= <-]). by constructor.
    + intros H. inversion H; subst. eauto 10.
Qed.
