(* ===== verification/Seeds.v ===== *)
(** The seeds of an analysis (A/seed/manifest.rs, A/seed/selector.rs): a manifest is
    validated against the number of seeds that are wanted per chain, and seeds are selected
    from a source of ranked collections. Dates are a parameter; the bits of a ranking value
    are those of its [f64]. *)

From S2P Require Import Prelude Text CanonicalJson Anchors SortedLists Events EvidenceFacts.
From S2P Require Import Fallible.

(** ** Counts *)

(** [ChainId::ALL] *)
Definition ALL : list ChainId := [Base; Ethereum; Polygon; Solana].

(** Four [u8]. *)
Record SeedTopCounts := { base : Z; ethereum : Z; polygon : Z; solana : Z }.

Definition default_counts : SeedTopCounts := {| base := 25; ethereum := 25; polygon := 25; solana := 25 |}.

Definition count (c : SeedTopCounts) (chain : ChainId) : Z :=
  match chain with
  | Base => base c
  | Ethereum => ethereum c
  | Polygon => polygon c
  | Solana => solana c
  end.

(** A sum of four [u8] as [usize]. *)
Definition total (c : SeedTopCounts) : nat := sum_list ((λ chain, Z.to_nat (count c chain)) <$> ALL).

Definition validate_counts (c : SeedTopCounts) : fallible () :=
  loop (λ _ chain, fail_if (count c chain =? 0)%Z ConfigError) () ALL.

(** ** Manifests *)

(** [f64::is_finite]: the exponent is not that of infinities and NaN. *)
Definition is_finite (bits : Z) : bool := negb (Z.land (Z.shiftr bits 52) 2047 =? 2047)%Z.

Section Seeds.
Context {Time : Type} `{!EqDecision Time}.

Record SeedDefinition := {
  seed_id : Z;
  seed_chain : ChainId;
  seed_address : str;
  seed_rank : Z;
  collection_name : str;
  stable_identifier : str;
  ranking_metric : str;
  ranking_value : Z;
  ranking_window : str;
  seed_source : str;
  collected_at : Time;
}.

#[export] Instance SeedDefinition_eq_dec : EqDecision SeedDefinition.
Proof. solve_decision. Defined.

Record SeedManifest := { generated_at : Time; manifest_seeds : list SeedDefinition }.

Definition seed_key (s : SeedDefinition) : ContractKey := {| key_chain := seed_chain s; key_address := seed_address s |}.

(** The order of the manifest. *)
Definition seed_order (a b : SeedDefinition) : comparison :=
  then_with (chain_compare (seed_chain a) (seed_chain b))
    (then_with (Z.compare (seed_rank a) (seed_rank b)) (str_compare (stable_identifier a) (stable_identifier b))).

Definition normal_seed_address (chain : ChainId) (address : str) : str :=
  if is_evm chain then ascii_lowercase <$> trim address else trim address.

Definition with_address_id (s : SeedDefinition) (address : str) (id : Z) : SeedDefinition :=
  {| seed_id := id; seed_chain := seed_chain s; seed_address := address; seed_rank := seed_rank s;
     collection_name := collection_name s; stable_identifier := stable_identifier s; ranking_metric := ranking_metric s;
     ranking_value := ranking_value s; ranking_window := ranking_window s; seed_source := seed_source s;
     collected_at := collected_at s |}.

Definition is_blank (s : str) : bool := bool_decide (trim s = []).

(** A field that must not be blank is. *)
Definition has_blank (s : SeedDefinition) (address : str) : bool :=
  is_blank address || is_blank (collection_name s) || is_blank (stable_identifier s) || is_blank (ranking_metric s) ||
  is_blank (ranking_window s) || is_blank (seed_source s).

Record ValidateState := {
  counts : gmap ChainId nat;
  keys : gset (ChainId * str);
  ranks : gmap ChainId (gset Z);
  checked : list SeedDefinition;
}.

Definition start_validate : ValidateState := {| counts := ∅; keys := ∅; ranks := ∅; checked := [] |}.

(** The checks of one seed; [as u16] of its index. *)
Definition check_seed (top : SeedTopCounts) (st : ValidateState) (entry : nat * SeedDefinition) : fallible ValidateState :=
  let seed := entry.2 in
  let chain := seed_chain seed in
  let address := normal_seed_address chain (seed_address seed) in
  fail_if (has_blank seed address) SeedError;;
  fail_if ((seed_rank seed =? 0) || (count top chain <? seed_rank seed))%Z SeedError;;
  let chain_ranks := default ∅ (ranks st !! chain) in
  fail_if (bool_decide (seed_rank seed ∈ chain_ranks)) SeedError;;
  fail_if (negb (is_finite (ranking_value seed))) SeedError;;
  fail_if (bool_decide ((chain, address) ∈ keys st)) SeedError;;
  Ok {| counts := <[chain := default 0 (counts st !! chain) + 1]> (counts st);
        keys := {[(chain, address)]} ∪ keys st;
        ranks := <[chain := {[seed_rank seed]} ∪ chain_ranks]> (ranks st);
        checked := checked st ++ [with_address_id seed address (Z.of_nat entry.1 mod 2 ^ 16)%Z] |}.

Definition check_chain (top : SeedTopCounts) (st : ValidateState) (_ : ()) (chain : ChainId) : fallible () :=
  let expected := Z.to_nat (count top chain) in
  fail_if (negb (default 0 (counts st !! chain) =? expected)) SeedError;;
  fail_if (bool_decide (size <$> ranks st !! chain ≠ Some expected)) SeedError.

Definition validate_exact (top : SeedTopCounts) (m : SeedManifest) : fallible SeedManifest :=
  validate_counts top;;
  let sorted := sort_by seed_order (manifest_seeds m) in
  fail_if (negb (length sorted =? total top)) SeedError;;
  st ← loop (check_seed top) start_validate (imap pair sorted);
  loop (check_chain top st) () ALL;;
  Ok {| generated_at := generated_at m; manifest_seeds := checked st |}.

(** [from_path], with the file and its JSON as parameters. *)
Definition from_path {Path Raw : Type} (read : Path → fallible Raw) (from_slice : Raw → fallible SeedManifest)
    (path : Path) (top : SeedTopCounts) : fallible SeedManifest :=
  raw ← read path;
  manifest ← from_slice raw;
  validate_exact top manifest.

(** ** Selection *)

Record RankedSeed := {
  ranked_chain : ChainId;
  ranked_address : str;
  ranked_collection : str;
  ranked_identifier : str;
  ranked_metric : str;
  ranked_value : Z;
  ranked_window : str;
  ranked_source : str;
}.

(** [rank: (index + 1) as u8] *)
Definition define_seed (now : Time) (chain : ChainId) (entry : nat * RankedSeed) : fallible SeedDefinition :=
  let seed := entry.2 in
  fail_if (bool_decide (ranked_chain seed ≠ chain)) SeedError;;
  Ok {| seed_id := 0; seed_chain := ranked_chain seed; seed_address := ranked_address seed;
        seed_rank := (Z.of_nat (entry.1 + 1) mod 2 ^ 8)%Z; collection_name := ranked_collection seed;
        stable_identifier := ranked_identifier seed; ranking_metric := ranked_metric seed;
        ranking_value := ranked_value seed; ranking_window := ranked_window seed; seed_source := ranked_source seed;
        collected_at := now |}.

(** [ranked]: the answers of the source; [try_join_all] of the [futures] crate returns all
    answers in order, or the first error, here in the order of [completion]. *)
Section Selection.
Context (ranked : ChainId → nat → fallible (list RankedSeed)) (completion : list ChainId).

Definition ask (top : SeedTopCounts) (chain : ChainId) : fallible (ChainId * nat * list RankedSeed) :=
  let expected := Z.to_nat (count top chain) in
  answer ← ranked chain expected;
  Ok (chain, expected, answer).

Definition try_join_all (top : SeedTopCounts) : fallible (list (ChainId * nat * list RankedSeed)) :=
  loop (λ _ chain, ask top chain;; Ok ()) () completion;;
  try_map (ask top) ALL.

Definition select_chain (now : Time) (seeds : list SeedDefinition) (entry : ChainId * nat * list RankedSeed) :
    fallible (list SeedDefinition) :=
  let '(chain, expected, answer) := entry in
  fail_if (length answer <? expected) SeedError;;
  new ← try_map (define_seed now chain) (imap pair (take expected answer));
  Ok (seeds ++ new).

Definition select_exact (now : Time) (top : SeedTopCounts) : fallible SeedManifest :=
  validate_counts top;;
  ranked_by_chain ← try_join_all top;
  seeds ← loop (select_chain now) [] ranked_by_chain;
  validate_exact top {| generated_at := now; manifest_seeds := seeds |}.
End Selection.
End Seeds.
Arguments SeedDefinition Time : clear implicits.
Arguments SeedManifest Time : clear implicits.

(** ** What is accepted *)

Section Facts.
Context {Time : Type} `{!EqDecision Time} (top : SeedTopCounts).
Implicit Types (s : SeedDefinition Time) (l : list (SeedDefinition Time)).

Definition contract_of_seed s : ChainId * str := (seed_chain s, normal_seed_address (seed_chain s) (seed_address s)).
Definition place s : ChainId * Z := (seed_chain s, seed_rank s).
Definition of_chain (c : ChainId) l := filter (λ s, seed_chain s = c) l.

(** A seed without blank fields, with a rank of its chain and a finite value. *)
Record complete_seed s : Prop := {
  complete_fields : has_blank s (contract_of_seed s).2 = false;
  complete_rank : (1 ≤ seed_rank s ≤ count top (seed_chain s))%Z;
  complete_value : is_finite (ranking_value s) = true;
}.

(** The seeds of a manifest: on every chain one seed of every rank up to the number that is
    wanted, each complete, and no contract twice. *)
Record acceptable l : Prop := {
  acceptable_counts c : (0 < count top c)%Z;
  acceptable_seeds s : s ∈ l → complete_seed s;
  acceptable_contracts : NoDup (contract_of_seed <$> l);
  acceptable_ranks c : seed_rank <$> of_chain c l ≡ₚ seqZ 1 (count top c);
}.

(** A seed with its normal address and its number. *)
Definition renumber (i : nat) s : SeedDefinition Time := with_address_id s (contract_of_seed s).2 (Z.of_nat i mod 2 ^ 16)%Z.

(** The seeds pass the checks one by one. *)
Record fine l : Prop := {
  fine_seeds s : s ∈ l → complete_seed s;
  fine_contracts : NoDup (contract_of_seed <$> l);
  fine_places : NoDup (place <$> l);
}.

Lemma of_chain_app c l1 l2 : of_chain c (l1 ++ l2) = of_chain c l1 ++ of_chain c l2.
Proof. apply filter_app. Qed.

Lemma of_chain_one c s : of_chain c [s] = if decide (seed_chain s = c) then [s] else [].
Proof. unfold of_chain. rewrite filter_cons, filter_nil. done. Qed.

Lemma elem_of_chain_rank c l r : r ∈ seed_rank <$> of_chain c l ↔ (c, r) ∈ place <$> l.
Proof.
  rewrite !list_elem_of_fmap. setoid_rewrite list_elem_of_filter. unfold place. split.
  - intros (s & -> & <- & ?). by exists s.
  - intros (s & [= -> ->] & ?). by exists s.
Qed.

Lemma fine_snoc l s : fine (l ++ [s]) ↔
  fine l ∧ complete_seed s ∧ contract_of_seed s ∉ contract_of_seed <$> l ∧ place s ∉ place <$> l.
Proof.
  split.
  - intros [Hs Hc Hp]. rewrite fmap_app in Hc. rewrite fmap_app in Hp. apply NoDup_app in Hc as (Hc1 & Hc2 & _), Hp as (Hp1 & Hp2 & _).
    split_and!; [split; [|done..]| | |].
    + intros s' Hs'. apply Hs, elem_of_app. by left.
    + apply Hs, elem_of_app. right. by left.
    + intros Hin. apply (Hc2 _ Hin). by left.
    + intros Hin. apply (Hp2 _ Hin). by left.
  - intros ([Hs Hc Hp] & Hcs & Hnc & Hnp). split.
    + intros s' [Hs'| ->%list_elem_of_singleton]%elem_of_app; auto.
    + rewrite fmap_app. apply NoDup_app. split_and!; [done| |apply NoDup_singleton].
      intros x Hx ->%list_elem_of_singleton. done.
    + rewrite fmap_app. apply NoDup_app. split_and!; [done| |apply NoDup_singleton].
      intros x Hx ->%list_elem_of_singleton. done.
Qed.

(** ** The loop *)

Record has_checked l (st : @ValidateState Time) : Prop := {
  state_checked : checked st = imap renumber l;
  state_keys : keys st = list_to_set (contract_of_seed <$> l);
  state_counts c : default 0 (counts st !! c) = length (of_chain c l);
  state_ranks c : default ∅ (ranks st !! c) = list_to_set (seed_rank <$> of_chain c l);
}.

Lemma check_seed_step l st s : (0 ≤ seed_rank s)%Z → has_checked l st → fine l →
  (∃ st', check_seed top st (length l, s) = Ok st' ∧ has_checked (l ++ [s]) st' ∧ fine (l ++ [s])) ∨
  (check_seed top st (length l, s) = Err SeedError ∧ ¬ fine (l ++ [s])).
Proof.
  intros Hr0 [S1 S2 S3 S4] Hl. rewrite fine_snoc. unfold check_seed. cbn [snd fst]. rewrite S4.
  destruct (has_blank s _) eqn:Eb; cbn [fail_if mbind fallible_bind].
  { right. split; [done|]. intros (_ & [Hb _ _] & _). unfold contract_of_seed in Hb. cbn in Hb. congruence. }
  destruct ((seed_rank s =? 0) || _)%Z eqn:Er; cbn [fail_if mbind fallible_bind].
  { right. split; [done|]. intros (_ & [_ Hr _] & _). apply orb_true_iff in Er as [?%Z.eqb_eq|?%Z.ltb_lt]; lia. }
  apply orb_false_iff in Er as [Hr1%Z.eqb_neq Hr2%Z.ltb_ge].
  destruct (bool_decide (seed_rank s ∈ _)) eqn:Hp; cbn [fail_if mbind fallible_bind].
  { right. split; [done|]. intros (_ & _ & _ & Hn). apply bool_decide_eq_true in Hp.
    by apply Hn, elem_of_chain_rank, (elem_of_list_to_set (C:=gset _)). }
  apply bool_decide_eq_false in Hp.
  destruct (is_finite _) eqn:Ef; cbn [fail_if mbind fallible_bind negb].
  2:{ right. split; [done|]. intros (_ & [_ _ Hv] & _). congruence. }
  rewrite S2. case_bool_decide as Hk; cbn [fail_if mbind fallible_bind].
  { right. split; [done|]. intros (_ & _ & Hn & _). by apply Hn, (elem_of_list_to_set (C:=gset _)). }
  left. eexists. split; [done|]. split.
  - split; cbn.
    + rewrite S1, imap_app. cbn. by rewrite Nat.add_0_r.
    + rewrite fmap_app, list_to_set_app_L. cbn. set_solver.
    + intros c. rewrite of_chain_app, length_app. rewrite of_chain_one.
      destruct (decide (c = seed_chain s)) as [->|Hc].
      * rewrite lookup_insert_eq, decide_True by done. cbn. by rewrite S3.
      * rewrite lookup_insert_ne, decide_False by congruence. cbn. rewrite S3. lia.
    + intros c. rewrite of_chain_app, fmap_app, list_to_set_app_L. rewrite of_chain_one.
      destruct (decide (c = seed_chain s)) as [->|Hc].
      * rewrite lookup_insert_eq, decide_True by done. cbn. set_solver.
      * rewrite lookup_insert_ne, decide_False by congruence. cbn. rewrite S4. set_solver.
  - apply fine_snoc. split_and!; [done|split; [done|lia|done]| |].
    + intros Hin. apply Hk. by apply (elem_of_list_to_set (C:=gset _)).
    + intros Hin. by apply Hp, (elem_of_list_to_set (C:=gset _)), elem_of_chain_rank.
Qed.

Lemma fine_prefix l1 l2 : fine (l1 ++ l2) → fine l1.
Proof.
  intros [H1 H2 H3]. rewrite fmap_app in H2. rewrite fmap_app in H3. apply NoDup_app in H2 as (? & _), H3 as (? & _).
  split; [|done..]. intros s Hs. apply H1, elem_of_app. by left.
Qed.

Lemma check_seeds_loop l : (∀ s, s ∈ l → (0 ≤ seed_rank s)%Z) →
  (∃ st, loop (check_seed top) start_validate (imap pair l) = Ok st ∧ has_checked l st ∧ fine l) ∨
  (loop (check_seed top) start_validate (imap pair l) = Err SeedError ∧ ¬ fine l).
Proof.
  induction l as [|s l IH] using rev_ind; intros Hr.
  { left. exists start_validate. split_and!; [done|by split|]. split; [by intros s ?%elem_of_nil|constructor..]. }
  rewrite imap_app, loop_app. cbn [imap]. rewrite Nat.add_0_r.
  destruct IH as [(st & -> & Hst & Hl)|[-> Hl]].
  - intros s' Hs'. apply Hr, elem_of_app. by left.
  - cbn [mbind fallible_bind loop]. destruct (check_seed_step l st s) as [(st' & -> & Hst' & Hl')|[-> Hl']]; [|done|done| |].
    + apply Hr, elem_of_app. right. by left.
    + left. by exists st'.
    + by right.
  - right. split; [done|]. intros Hn. by apply Hl, (fine_prefix l [s]).
Qed.

(** ** The numbers of seeds *)

Lemma length_by_chain l : length l = sum_list ((λ c, length (of_chain c l)) <$> ALL).
Proof.
  induction l as [|s l IH]; [done|]. cbn [length]. rewrite IH. unfold of_chain, ALL. rewrite !fmap_cons, !fmap_nil, !filter_cons.
  destruct (seed_chain s); repeat first [rewrite decide_True by done|rewrite decide_False by done];
    cbn [length sum_list sum_list_with id]; lia.
Qed.

Lemma NoDup_chain_ranks c l : NoDup (place <$> l) → NoDup (seed_rank <$> of_chain c l).
Proof.
  intros Hnd. apply (NoDup_fmap_1 (pair c)). rewrite <- list_fmap_compose.
  rewrite (list_fmap_ext _ place).
  - eapply sublist_NoDup; [exact Hnd|]. apply fmap_sublist, sublist_filter.
  - intros i s Hs. apply list_elem_of_lookup_2, list_elem_of_filter in Hs as [<- _]. done.
Qed.

Lemma NoDup_places l : (∀ c, NoDup (seed_rank <$> of_chain c l)) → NoDup (place <$> l).
Proof.
  induction l as [|s l IH]; intros Hnd; [constructor|]. rewrite fmap_cons. constructor.
  - specialize (Hnd (seed_chain s)). change (s :: l) with ([s] ++ l) in Hnd.
    rewrite of_chain_app, fmap_app, of_chain_one, decide_True in Hnd by done. apply NoDup_app in Hnd as (_ & Hnd & _).
    intros Hin. apply (Hnd (seed_rank s)); [by left|]. by apply elem_of_chain_rank.
  - apply IH. intros c. specialize (Hnd c). change (s :: l) with ([s] ++ l) in Hnd.
    rewrite of_chain_app, fmap_app in Hnd. by apply NoDup_app in Hnd as (_ & _ & ?).
Qed.

Lemma chain_ranks_perm c l : fine l → length (of_chain c l) = Z.to_nat (count top c) ↔ seed_rank <$> of_chain c l ≡ₚ seqZ 1 (count top c).
Proof.
  intros [Hs Hc Hp]. split.
  - intros Hlen. apply submseteq_length_Permutation; [|rewrite length_fmap, length_seqZ; lia].
    apply NoDup_submseteq; [by apply NoDup_chain_ranks|]. intros r (s & -> & [<- Hin]%list_elem_of_filter)%list_elem_of_fmap.
    apply elem_of_seqZ. pose proof (complete_rank _ (Hs s Hin)). lia.
  - intros Hperm%Permutation_length. rewrite length_fmap, length_seqZ in Hperm. lia.
Qed.

Lemma acceptable_iff l : acceptable l ↔
  (∀ c, 0 < count top c)%Z ∧ fine l ∧ ∀ c, length (of_chain c l) = Z.to_nat (count top c).
Proof.
  split.
  - intros [Hc Hs Hn Hr]. split; [done|].
    assert (Hfine : fine l).
    { split; [done..|]. apply NoDup_places. intros c. rewrite Hr. apply NoDup_seqZ. }
    split; [done|]. intros c. by apply chain_ranks_perm.
  - intros (Hc & Hf & Hlen). split; [done|apply Hf|apply Hf|]. intros c. by apply chain_ranks_perm.
Qed.
(** ** Outcomes *)

#[export] Instance seed_order_laws' : CompareLaws (@seed_order Time).
Proof.
  apply then_with_laws; [apply (compare_map_laws seed_chain), _|]. apply then_with_laws; [apply (compare_map_laws seed_rank), _|].
  apply (compare_map_laws stable_identifier), _.
Qed.

Lemma validate_counts_spec : (∀ c, 0 ≤ count top c)%Z →
  (validate_counts top = Ok () ∧ ∀ c, 0 < count top c)%Z ∨ (validate_counts top = Err ConfigError ∧ ∃ c, count top c = 0)%Z.
Proof.
  intros H0. unfold validate_counts, ALL. cbn [loop].
  destruct (count top Base =? 0)%Z eqn:E1; cbn [fail_if mbind fallible_bind]; [right; split; [done|exists Base; lia]|].
  destruct (count top Ethereum =? 0)%Z eqn:E2; cbn [fail_if mbind fallible_bind]; [right; split; [done|exists Ethereum; lia]|].
  destruct (count top Polygon =? 0)%Z eqn:E3; cbn [fail_if mbind fallible_bind]; [right; split; [done|exists Polygon; lia]|].
  destruct (count top Solana =? 0)%Z eqn:E4; cbn [fail_if mbind fallible_bind]; [right; split; [done|exists Solana; lia]|].
  left. split; [done|]. intros c. specialize (H0 c). destruct c; lia.
Qed.

Lemma check_chain_spec l st c : (0 < count top c)%Z → has_checked l st → fine l →
  check_chain top st () c = if decide (length (of_chain c l) = Z.to_nat (count top c)) then Ok () else Err SeedError.
Proof.
  intros Hc [_ _ S3 S4] [_ _ Hp]. unfold check_chain. rewrite S3. case_decide as Hlen.
  - rewrite (proj2 (Nat.eqb_eq _ _)) by done. cbn [negb fail_if mbind fallible_bind].
    specialize (S4 c). rewrite bool_decide_false; [done|]. intros Hn. apply Hn.
    assert (Hsize : size (default ∅ (ranks st !! c)) = Z.to_nat (count top c)).
    { rewrite S4, size_list_to_set by by apply NoDup_chain_ranks. by rewrite length_fmap. }
    destruct (ranks st !! c) as [r|]; cbn in *; [by rewrite Hsize|]. rewrite size_empty in Hsize. lia.
  - apply Nat.eqb_neq in Hlen. by rewrite Hlen.
Qed.

Lemma check_chains_spec l st cs : (∀ c, 0 < count top c)%Z → has_checked l st → fine l →
  loop (check_chain top st) () cs = if decide (Forall (λ c, length (of_chain c l) = Z.to_nat (count top c)) cs) then Ok () else Err SeedError.
Proof.
  intros Hc Hst Hl. induction cs as [|c cs IH]; [by rewrite decide_True by constructor|]. cbn [loop].
  rewrite (check_chain_spec l) by done. destruct (decide (length (of_chain c l) = _)) as [H1|H1]; cbn [mbind fallible_bind].
  - rewrite IH. apply decide_ext. rewrite Forall_cons. tauto.
  - rewrite decide_False; [done|]. intros [? _]%Forall_cons. done.
Qed.

(** The seeds in their order, with normal addresses and numbers. *)
Definition validated l := imap renumber (sort_by seed_order l).

Lemma acceptable_length l : acceptable l → length l = total top.
Proof.
  intros (Hc & _ & Hlen)%acceptable_iff. rewrite length_by_chain. unfold total. f_equal.
  apply list_fmap_ext. intros _ c _. apply Hlen.
Qed.

Lemma all_chains (P : ChainId → Prop) : Forall P ALL ↔ ∀ c, P c.
Proof.
  unfold ALL. rewrite !Forall_cons. split; [|by intros H; split_and!]. by intros (? & ? & ? & ? & _) [].
Qed.

#[export] Instance acceptable_proper : Proper ((≡ₚ) ==> impl) acceptable.
Proof.
  intros l l' Hl [H1 H2 H3 H4]. split; [done| | |].
  - intros s. rewrite <- Hl. apply H2.
  - by rewrite <- Hl.
  - intros c. rewrite <- H4. unfold of_chain. by rewrite Hl.
Qed.

Lemma validate_exact_spec m : (∀ c, 0 ≤ count top c)%Z → (∀ s, s ∈ manifest_seeds m → 0 ≤ seed_rank s)%Z →
  (validate_exact top m = Ok {| generated_at := generated_at m; manifest_seeds := validated (manifest_seeds m) |} ∧ acceptable (manifest_seeds m)) ∨
  (∃ e, validate_exact top m = Err e ∧ ¬ acceptable (manifest_seeds m) ∧ (e = ConfigError ↔ ∃ c, count top c = 0%Z) ∧ (e = ConfigError ∨ e = SeedError)).
Proof.
  intros H0 Hr. unfold validate_exact. destruct (validate_counts_spec H0) as [[-> Hpos]|[-> (c & Hc)]]; cbn [mbind fallible_bind].
  2:{ right. eexists. split_and!; [done| |split; eauto|by left]. intros [Hpos _ _ _]. specialize (Hpos c). lia. }
  assert (Hno : ¬ ∃ c, count top c = 0%Z) by (intros [c Hc]; specialize (Hpos c); lia).
  assert (Hp : sort_by seed_order (manifest_seeds m) ≡ₚ manifest_seeds m) by apply sort_by_perm.
  destruct (length _ =? total top) eqn:Elen; cbn [negb fail_if mbind fallible_bind].
  2:{ right. exists SeedError. split_and!; [done| |split; [done|tauto]|by right]. intros Hacc%acceptable_length.
      apply Nat.eqb_neq in Elen. rewrite Hp in Elen. done. }
  destruct (check_seeds_loop (sort_by seed_order (manifest_seeds m))) as [(st & -> & Hst & Hf)|[-> Hf]].
  { intros s. rewrite Hp. apply Hr. }
  2:{ right. exists SeedError. split_and!; [done| |split; [done|tauto]|by right]. intros Hacc. rewrite <- Hp in Hacc.
      apply acceptable_iff in Hacc as (_ & ? & _). done. }
  cbn [mbind fallible_bind]. rewrite (check_chains_spec _ st ALL Hpos Hst Hf). case_decide as Hall; rewrite all_chains in Hall.
  - left. cbn [mbind fallible_bind]. rewrite (state_checked _ _ Hst). split; [done|]. rewrite <- Hp. by apply acceptable_iff.
  - right. exists SeedError. split_and!; [done| |split; [done|tauto]|by right]. intros Hacc. rewrite <- Hp in Hacc.
    apply acceptable_iff in Hacc as (_ & _ & ?). done.
Qed.
(** ** The order of the result *)

Definition place_order (a b : SeedDefinition Time) : comparison :=
  then_with (chain_compare (seed_chain a) (seed_chain b)) (Z.compare (seed_rank a) (seed_rank b)).

Lemma place_order_lt a b : place_order a b = Lt → seed_order a b = Lt.
Proof. unfold place_order, seed_order. destruct (chain_compare _ _); cbn; [|done|done]. by intros ->. Qed.

Lemma place_order_intro a b : place a ≠ place b → seed_order a b ≠ Gt → place_order a b = Lt.
Proof.
  unfold place_order, seed_order, place. intros Hne Hle. destruct (chain_compare _ _) eqn:Ec; cbn in *; [|done|done].
  apply compare_eq_iff in Ec. destruct (Z.compare_spec (seed_rank a) (seed_rank b)) as [Er|Er|Er]; cbn in *; [|done|done]. congruence.
Qed.

Lemma sorted_places l : NoDup (place <$> l) → StronglySorted (λ a b, place_order a b = Lt) (sort_by seed_order l).
Proof.
  intros Hnd. pose proof (sort_by_sorted seed_order l) as Hs. apply StronglySorted_lookup_intro. intros i j x y Hij Hx Hy.
  apply place_order_intro; [|exact (StronglySorted_lookup _ _ _ _ _ _ Hs Hij Hx Hy)]. intros Heq.
  assert (Hnd' : NoDup (place <$> sort_by seed_order l)) by by rewrite (sort_by_perm seed_order l).
  assert (i = j); [|lia]. eapply (NoDup_lookup _ i j (place x) Hnd'); rewrite list_lookup_fmap; [by rewrite Hx|by rewrite Hy, Heq].
Qed.

Lemma places_sorted l : StronglySorted (λ a b, place_order a b = Lt) l → sort_by seed_order l = l.
Proof.
  intros Hs. apply sort_by_id. eapply StronglySorted_restrict; [|exact Hs]. intros x y _ _ Hlt. by rewrite (place_order_lt x y Hlt).
Qed.

Lemma acceptable_places l : acceptable l → NoDup (place <$> l).
Proof. intros (_ & Hf & _)%acceptable_iff. apply Hf. Qed.

(** The order of the input does not matter. *)
Lemma validated_perm l l' : acceptable l → l ≡ₚ l' → validated l = validated l'.
Proof.
  intros Hacc Hl. unfold validated. f_equal. apply (strictly_sorted_unique seed_order).
  - eapply StronglySorted_restrict; [|apply sorted_places, acceptable_places, Hacc]. intros x y _ _. apply place_order_lt.
  - eapply StronglySorted_restrict; [|apply sorted_places; rewrite <- Hl; apply acceptable_places, Hacc]. intros x y _ _. apply place_order_lt.
  - intros x. by rewrite !(sort_by_perm seed_order), Hl.
Qed.

(** ** Validating twice *)

Lemma lowercase_idemp c : ascii_lowercase (ascii_lowercase c) = ascii_lowercase c.
Proof.
  unfold ascii_lowercase, in_chars. destruct (N.leb_spec 65 c), (N.leb_spec c 90); cbn; try done;
    destruct (N.leb_spec 65 c), (N.leb_spec c 90), (N.leb_spec 65 (c + 32)), (N.leb_spec (c + 32) 90); cbn; done || lia.
Qed.

Lemma normal_seed_idemp chain address : normal_seed_address chain (normal_seed_address chain address) = normal_seed_address chain address.
Proof.
  unfold normal_seed_address. destruct (is_evm chain); [|apply trim_idemp]. rewrite trim_lowercase, <- list_fmap_compose.
  apply list_fmap_ext. intros _ c _. cbn. apply lowercase_idemp.
Qed.

Lemma contract_renumber i s : contract_of_seed (renumber i s) = contract_of_seed s.
Proof. unfold contract_of_seed. cbn. by rewrite normal_seed_idemp. Qed.

Lemma renumber_idemp i s : renumber i (renumber i s) = renumber i s.
Proof. unfold renumber at 1. by rewrite contract_renumber. Qed.

Lemma imap_renumber {B} (f : SeedDefinition Time → B) l : (∀ i s, f (renumber i s) = f s) → f <$> imap renumber l = f <$> l.
Proof.
  intros Hf. apply list_eq. intros i. rewrite !list_lookup_fmap, list_lookup_imap. destruct (l !! i); cbn; [by rewrite Hf|done].
Qed.

Lemma complete_renumber i s : complete_seed s → complete_seed (renumber i s).
Proof. intros [H1 H2 H3]. split; [|done|done]. rewrite contract_renumber. done. Qed.

Lemma elem_of_imap_renumber l s : s ∈ imap renumber l → ∃ i s', s' ∈ l ∧ s = renumber i s'.
Proof. intros (i & s' & -> & Hi)%elem_of_lookup_imap_1. exists i, s'. split; [by eapply list_elem_of_lookup_2|done]. Qed.

Lemma length_of_chain c l : length (of_chain c l) = length (filter (λ c', c' = c) (seed_chain <$> l)).
Proof. unfold of_chain. rewrite filter_fmap, length_fmap. done. Qed.

Lemma acceptable_renumber l : acceptable l → acceptable (imap renumber l).
Proof.
  intros Hacc. apply acceptable_iff in Hacc as (Hc & [F1 F2 F3] & Hlen). apply acceptable_iff. split_and!; [done| |].
  - split.
    + intros s (i & s' & Hs & ->)%elem_of_imap_renumber. by apply complete_renumber, F1.
    + rewrite imap_renumber by apply contract_renumber. done.
    + rewrite imap_renumber by done. done.
  - intros c. rewrite <- Hlen, !length_of_chain. by rewrite imap_renumber.
Qed.
Lemma validated_idemp l : acceptable l → validated (validated l) = validated l.
Proof.
  intros Hacc. unfold validated at 1. rewrite places_sorted.
  - unfold validated. apply list_eq. intros i. rewrite !list_lookup_imap. destruct (_ !! i); cbn; [by rewrite renumber_idemp|done].
  - apply StronglySorted_lookup_intro. intros i j x y Hij Hx Hy. unfold validated in Hx, Hy. rewrite list_lookup_imap in Hx, Hy.
    destruct (_ !! i) as [x'|] eqn:Ex; [|done]. destruct (sort_by _ l !! j) as [y'|] eqn:Ey; [|done]. injection Hx as <-. injection Hy as <-.
    exact (StronglySorted_lookup _ _ _ _ _ _ (sorted_places l (acceptable_places l Hacc)) Hij Ex Ey).
Qed.

Lemma acceptable_validated l : acceptable l → acceptable (validated l).
Proof. intros Hacc. apply acceptable_renumber. by rewrite (sort_by_perm seed_order l). Qed.

Lemma validated_numbers l i s : (∀ c, count top c < 256)%Z → acceptable l → validated l !! i = Some s → seed_id s = Z.of_nat i.
Proof.
  intros Hc Hacc Hi. apply lookup_lt_Some in Hi as Hlt. unfold validated in Hlt. rewrite length_imap, (sort_by_perm seed_order l) in Hlt.
  rewrite (acceptable_length l Hacc) in Hlt. unfold validated in Hi. rewrite list_lookup_imap in Hi.
  destruct (_ !! i); [|done]. injection Hi as <-. cbn. apply Z.mod_small.
  assert (total top < 1024); [|lia]. unfold total, ALL. cbn [fmap list_fmap sum_list sum_list_with].
  pose proof (Hc Base). pose proof (Hc Ethereum). pose proof (Hc Polygon). pose proof (Hc Solana). unfold id. lia.
Qed.
End Facts.

(** C38: A manifest is accepted exactly when it has, on every chain, one seed of every rank up
    to the number that is wanted, every seed complete with a finite value, and no contract
    twice; validation never panics, and an error is one of the configuration exactly when
    some chain wants no seed. What is returned are these seeds, with normal addresses, in the
    order of chains and ranks and numbered by their places; the order of the input does not
    matter, and validating the result again changes nothing. *)
Theorem seeds_validated {Time} `{!EqDecision Time} (top : SeedTopCounts) (m : SeedManifest Time) :
  (∀ c, 0 ≤ count top c < 256)%Z → (∀ s, s ∈ manifest_seeds m → 0 ≤ seed_rank s < 256)%Z →
  match validate_exact top m with
  | Ok m' =>
      acceptable top (manifest_seeds m) ∧ generated_at m' = generated_at m ∧
      (∃ l, l ≡ₚ manifest_seeds m ∧ StronglySorted (λ a b, place_order a b = Lt) l ∧ manifest_seeds m' = imap renumber l) ∧
      (∀ i s, manifest_seeds m' !! i = Some s → seed_id s = Z.of_nat i) ∧
      validate_exact top m' = Ok m' ∧
      ∀ l, l ≡ₚ manifest_seeds m → validate_exact top {| generated_at := generated_at m; manifest_seeds := l |} = Ok m'
  | Err e => ¬ acceptable top (manifest_seeds m) ∧ (e = ConfigError ↔ ∃ c, count top c = 0%Z)
  | Panic => False
  end.
Proof.
  intros Hc Hr. assert (Hc0 : ∀ c, (0 ≤ count top c)%Z) by apply Hc.
  assert (Hok : ∀ l, (∀ s, s ∈ l → 0 ≤ seed_rank s)%Z → acceptable top l →
    validate_exact top {| generated_at := generated_at m; manifest_seeds := l |} = Ok {| generated_at := generated_at m; manifest_seeds := validated l |}).
  { intros l Hl Hacc. by destruct (validate_exact_spec top {| generated_at := generated_at m; manifest_seeds := l |} Hc0 Hl) as [[-> _]|(e & _ & [] & _)]. }
  destruct (validate_exact_spec top m Hc0) as [[-> Hacc]|(e & -> & ? & ? & _)]; [intros s Hs; by apply Hr| |done].
  cbn [generated_at manifest_seeds].
  split_and!; [done|done| | | |].
  - exists (sort_by seed_order (manifest_seeds m)). split_and!; [apply sort_by_perm|by apply sorted_places, (acceptable_places top)|done].
  - intros i s. apply (validated_numbers top); [apply Hc|done].
  - rewrite Hok; [by rewrite (validated_idemp top)| |by apply acceptable_validated].
    intros s (i & s' & Hs & ->)%elem_of_imap_renumber. rewrite (sort_by_perm seed_order) in Hs. by destruct (Hr _ Hs).
  - intros l Hl. assert (Hacc' : acceptable top l) by (refine (acceptable_proper top (manifest_seeds m) l _ Hacc); by symmetry).
    rewrite Hok; [|intros s; rewrite Hl; apply Hr|done]. by rewrite (validated_perm top l (manifest_seeds m)).
Qed.

Definition example_seed (c : ChainId) (rank : Z) (name : string) : SeedDefinition nat :=
  {| seed_id := 9; seed_chain := c; seed_address := lit name; seed_rank := rank; collection_name := lit "c";
     stable_identifier := lit name; ranking_metric := lit "volume"; ranking_value := 0x3ff0000000000000;
     ranking_window := lit "30d"; seed_source := lit "x"; collected_at := 0 |}.

Definition example_manifest : SeedManifest nat :=
  {| generated_at := 0;
     manifest_seeds := [example_seed Solana 1 " So1 "; example_seed Base 2 "0xB"; example_seed Base 1 " 0xA"; example_seed Polygon 1 "0xB";
                        example_seed Ethereum 1 "0xa"] |}.

Definition example_top : SeedTopCounts := {| base := 2; ethereum := 1; polygon := 1; solana := 1 |}.

Lemma seeds_validated_witness :
  acceptable example_top (manifest_seeds example_manifest) ∧
  ∃ m', validate_exact example_top example_manifest = Ok m' ∧ validate_exact example_top m' = Ok m' ∧
    seed_address <$> manifest_seeds m' = [lit "0xa"; lit "0xb"; lit "0xa"; lit "0xb"; lit "So1"].
Proof.
  assert (Hc : ∀ c, (0 ≤ count example_top c < 256)%Z) by (intros []; cbn; lia).
  assert (Hr : ∀ s, s ∈ manifest_seeds example_manifest → (0 ≤ seed_rank s < 256)%Z).
  { intros s Hs. cbn in Hs. repeat apply elem_of_cons in Hs as [->|Hs]; cbn; try lia. by apply elem_of_nil in Hs. }
  pose proof (seeds_validated example_top example_manifest Hc Hr) as Hv.
  destruct (validate_exact example_top example_manifest) as [m'|e|] eqn:E; [|vm_compute in E; discriminate..].
  destruct Hv as (Hacc & _ & _ & _ & Hagain & _). split; [exact Hacc|]. exists m'. split_and!; [reflexivity|exact Hagain|].
  vm_compute in E. injection E as <-. reflexivity.
Defined.

(** ** Selection *)

Lemma NoDup_ALL : NoDup ALL.
Proof. by apply (bool_decide_unpack _). Qed.

Lemma elem_of_ALL c : c ∈ ALL.
Proof. destruct c; by apply (bool_decide_unpack _). Qed.

Section Selected.
Context {Time : Type} `{!EqDecision Time} (ranked : ChainId → nat → fallible (list RankedSeed)) (completion : list ChainId).
Context (answers : ChainId → list RankedSeed) (now : Time) (top : SeedTopCounts).
Context (Hcounts : ∀ c, (1 ≤ count top c < 256)%Z).
Context (Hanswers : ∀ c, ranked c (Z.to_nat (count top c)) = Ok (answers c)).

Definition chosen_of (c : ChainId) : list RankedSeed := take (Z.to_nat (count top c)) (answers c).

Definition defined_seed (i : nat) (r : RankedSeed) : SeedDefinition Time :=
  {| seed_id := 0; seed_chain := ranked_chain r; seed_address := ranked_address r; seed_rank := Z.of_nat (i + 1);
     collection_name := ranked_collection r; stable_identifier := ranked_identifier r; ranking_metric := ranked_metric r;
     ranking_value := ranked_value r; ranking_window := ranked_window r; seed_source := ranked_source r; collected_at := now |}.

(** The first seeds of every answer, chain by chain, with their ranks. *)
Definition chosen (cs : list ChainId) : list (SeedDefinition Time) := mjoin ((λ c, imap defined_seed (chosen_of c)) <$> cs).

(** The source has enough seeds for a chain, and they are of that chain. *)
Definition enough (c : ChainId) : Prop :=
  Z.to_nat (count top c) ≤ length (answers c) ∧ Forall (λ r, ranked_chain r = c) (chosen_of c).

#[local] Instance enough_dec c : Decision (enough c) := _.

Lemma define_one c i r : i < 255 → define_seed now c (i, r) = if decide (ranked_chain r = c) then Ok (defined_seed i r) else Err SeedError.
Proof using Type.
  intros Hi. unfold define_seed. cbn [fst snd]. case_decide; [rewrite bool_decide_false by tauto|by rewrite bool_decide_true by tauto].
  cbn. unfold defined_seed. by rewrite Z.mod_small by lia.
Qed.

Lemma define_seeds c l n : n + length l < 256 →
  try_map (define_seed now c) (imap (λ i r, (n + i, r)) l) =
    if decide (Forall (λ r, ranked_chain r = c) l) then Ok (imap (λ i, defined_seed (n + i)) l) else Err SeedError.
Proof using Type.
  revert n. induction l as [|r l IH]; intros n Hn; [by rewrite decide_True by constructor|]. cbn [length] in Hn.
  cbn [imap try_map]. rewrite define_one by lia. destruct (decide (ranked_chain r = c)) as [Hr|Hr]; cbn [mbind fallible_bind].
  - rewrite Nat.add_0_r.
    replace (imap ((λ i r0, (n + i, r0)) ∘ S) l) with (imap (λ i r0, (S n + i, r0)) l)
      by (apply imap_ext; intros; cbn; by rewrite Nat.add_succ_r).
    rewrite IH by lia. case_decide as Hl; cbn [mbind fallible_bind].
    + rewrite decide_True by by constructor. cbn. f_equal. f_equal. apply imap_ext. intros; cbn. by rewrite Nat.add_succ_r.
    + rewrite decide_False; [done|]. intros [_ ?]%Forall_cons. done.
  - rewrite decide_False; [done|]. intros [? _]%Forall_cons. done.
Qed.

Lemma select_chain_spec seeds c :
  select_chain now seeds (c, Z.to_nat (count top c), answers c) =
    if decide (enough c) then Ok (seeds ++ imap defined_seed (chosen_of c)) else Err SeedError.
Proof using Hcounts.
  unfold select_chain, enough. destruct (Nat.ltb_spec (length (answers c)) (Z.to_nat (count top c))) as [Hlt|Hle];
    cbn [fail_if mbind fallible_bind].
  - rewrite decide_False; [done|]. lia.
  - change (imap pair (take (Z.to_nat (count top c)) (answers c))) with (imap (λ i r, (0 + i, r)) (chosen_of c)).
    rewrite define_seeds by (unfold chosen_of; rewrite length_take; specialize (Hcounts c); lia).
    destruct (decide (Forall _ (chosen_of c))); cbn [mbind fallible_bind]; [by rewrite decide_True by done|].
    rewrite decide_False by tauto. done.
Qed.

Lemma select_chains_spec cs seeds :
  loop (select_chain now) seeds ((λ c, (c, Z.to_nat (count top c), answers c)) <$> cs) =
    if decide (Forall enough cs) then Ok (seeds ++ chosen cs) else Err SeedError.
Proof using Hcounts.
  revert seeds. induction cs as [|c cs IH]; intros seeds.
  - cbn. rewrite decide_True by constructor. by rewrite app_nil_r.
  - rewrite fmap_cons. cbn [loop]. rewrite select_chain_spec. destruct (decide (enough c)) as [Hc|Hc]; cbn [mbind fallible_bind].
    + rewrite IH. destruct (decide (Forall enough cs)).
      * rewrite decide_True by by constructor. unfold chosen. by rewrite fmap_cons, mjoin_cons, app_assoc.
      * rewrite decide_False; [done|]. intros [_ ?]%Forall_cons. done.
    + rewrite decide_False; [done|]. intros [? _]%Forall_cons. done.
Qed.

Lemma join_answers : try_join_all ranked completion top = Ok ((λ c, (c, Z.to_nat (count top c), answers c)) <$> ALL).
Proof using Hanswers.
  unfold try_join_all. rewrite (loop_fold _ (λ u _, u)).
  - cbn [mbind fallible_bind]. apply try_map_Ok. intros c _. unfold ask. by rewrite Hanswers.
  - intros [] c _. unfold ask. by rewrite Hanswers.
Qed.

(** On every chain the ranks of the chosen seeds are the first numbers. *)
Lemma chosen_chain cs c : NoDup cs → Forall enough cs → c ∈ cs → seed_rank <$> of_chain c (chosen cs) = seqZ 1 (count top c).
Proof using Hcounts.
  intros Hnd Hall Hc. apply list_elem_of_split in Hc as (l1 & l2 & ->). apply NoDup_app in Hnd as (_ & Hd & Hnd).
  apply NoDup_cons in Hnd as [Hc2 _]. rewrite Forall_app, Forall_cons in Hall. destruct Hall as (H1 & [Hn Hf] & H2).
  assert (Hother : ∀ l, Forall enough l → c ∉ l → of_chain c (chosen l) = []).
  { intros l Hl Hcl. apply filter_none. intros s Hs.
    unfold chosen in Hs. apply list_elem_of_join in Hs as (ss & Hs & (c' & -> & Hc')%list_elem_of_fmap).
    apply elem_of_lookup_imap_1 in Hs as (i & r & -> & Hr). cbn. rewrite Forall_forall in Hl.
    destruct (Hl c' Hc') as [_ Hl']. rewrite Forall_forall in Hl'. rewrite (Hl' r) by by eapply list_elem_of_lookup_2. congruence. }
  unfold chosen. rewrite fmap_app, join_app, of_chain_app, fmap_cons, mjoin_cons, of_chain_app. fold (chosen l1). fold (chosen l2).
  rewrite (Hother l1), (Hother l2) by (try done; intros Hin; apply (Hd c Hin); by left). rewrite app_nil_r. cbn [app].
  unfold of_chain. rewrite filter_all.
  - apply list_eq. intros i. rewrite list_lookup_fmap, list_lookup_imap. destruct (decide (i < Z.to_nat (count top c))) as [Hi|Hi].
    + destruct (lookup_lt_is_Some_2 (chosen_of c) i) as [r Hr]; [unfold chosen_of; rewrite length_take; lia|]. rewrite Hr. cbn.
      rewrite lookup_seqZ_lt by lia. f_equal. lia.
    + rewrite (lookup_ge_None_2 (chosen_of c)) by (unfold chosen_of; rewrite length_take; lia). cbn.
      symmetry. apply lookup_seqZ_ge. lia.
  - intros s (i & r & -> & Hr)%elem_of_lookup_imap_1. cbn. rewrite Forall_forall in Hf. apply Hf. by eapply list_elem_of_lookup_2.
Qed.

Lemma chosen_elem cs s : s ∈ chosen cs → Forall enough cs → seed_chain s ∈ cs.
Proof using Type.
  intros Hs Hall. unfold chosen in Hs. apply list_elem_of_join in Hs as (ss & Hs & (c & -> & Hc)%list_elem_of_fmap).
  apply elem_of_lookup_imap_1 in Hs as (i & r & -> & Hr). cbn. rewrite Forall_forall in Hall. destruct (Hall c Hc) as [_ Hf].
  rewrite Forall_forall in Hf. rewrite (Hf r); [done|]. by eapply list_elem_of_lookup_2.
Qed.

Lemma chosen_sorted cs : StronglySorted (λ a b, chain_compare a b = Lt) cs → Forall enough cs →
  StronglySorted (λ a b, place_order a b = Lt) (chosen cs).
Proof using Type.
  induction 1 as [|c cs Hs IH Hc]; intros Hall; [constructor|]. apply Forall_cons in Hall as [[Hn Hf] Hall].
  unfold chosen. rewrite fmap_cons, mjoin_cons. fold (chosen cs). rewrite Forall_forall in Hf. rewrite Forall_forall in Hc.
  apply StronglySorted_app_2; [| |by apply IH].
  - intros x y (i & r & -> & Hr)%elem_of_lookup_imap_1 Hy. unfold place_order. cbn.
    rewrite (Hf r) by by eapply list_elem_of_lookup_2. by rewrite (Hc _ (chosen_elem cs y Hy Hall)).
  - apply StronglySorted_lookup_intro. intros i j x y Hij Hx Hy. rewrite list_lookup_imap in Hx, Hy.
    destruct (chosen_of c !! i) as [r|] eqn:Er; [|done]. destruct (chosen_of c !! j) as [r'|] eqn:Er'; [|done].
    injection Hx as <-. injection Hy as <-. unfold place_order. cbn.
    rewrite (Hf r), (Hf r') by by eapply list_elem_of_lookup_2. rewrite (compare_refl chain_compare). cbn. apply Z.compare_lt_iff. lia.
Qed.

(** What the source must answer. *)
Record selectable : Prop := {
  selectable_enough c : enough c;
  selectable_complete s : s ∈ chosen ALL → complete_seed top s;
  selectable_contracts : NoDup (contract_of_seed <$> chosen ALL);
}.

Lemma selectable_acceptable : Forall enough ALL → selectable ↔ acceptable top (chosen ALL).
Proof using Hcounts.
  intros Hall. split.
  - intros [H1 H2 H3]. split; [|done|done|].
    + intros c. specialize (Hcounts c). lia.
    + intros c. rewrite chosen_chain; [done|apply NoDup_ALL|done|apply elem_of_ALL].
  - intros [H1 H2 H3 H4]. split; [|done..]. by apply all_chains.
Qed.
End Selected.

(** C39: Selecting seeds from a source that answers for every chain succeeds exactly when every
    answer has as many seeds as are wanted, the first of them are of that chain, complete and
    finite, and no two have one contract. The manifest then has these seeds chain by chain, in
    the order of the answers and with their places there as ranks. *)
Theorem seeds_selected {Time} `{!EqDecision Time} (ranked : ChainId → nat → fallible (list RankedSeed)) completion answers (now : Time) top :
  (∀ c, 1 ≤ count top c < 256)%Z → (∀ c, ranked c (Z.to_nat (count top c)) = Ok (answers c)) →
  (selectable answers now top ∧
   select_exact ranked completion now top = Ok {| generated_at := now; manifest_seeds := imap renumber (chosen answers now top ALL) |}) ∨
  (¬ selectable answers now top ∧ select_exact ranked completion now top = Err SeedError).
Proof.
  intros Hc Ha. unfold select_exact.
  destruct (validate_counts_spec top) as [[-> _]|[_ (c & H0)]]; [intros c; specialize (Hc c); lia| |specialize (Hc c); lia].
  rewrite (join_answers ranked completion answers top Ha). cbn [mbind fallible_bind].
  rewrite (select_chains_spec answers now top Hc). case_decide as Hall; cbn [mbind fallible_bind app].
  2:{ right. split; [|done]. intros [He _ _]. by apply Hall, all_chains. }
  rewrite (selectable_acceptable answers now top Hc Hall).
  destruct (validate_exact_spec top {| generated_at := now; manifest_seeds := chosen answers now top ALL |}) as [[-> Hacc]|(e & -> & Hno & He & Hor)].
  - intros c. specialize (Hc c). lia.
  - cbn [manifest_seeds]. intros s Hs. unfold chosen in Hs. apply list_elem_of_join in Hs as (ss & Hs & (c & -> & _)%list_elem_of_fmap).
    apply elem_of_lookup_imap_1 in Hs as (i & r & -> & _). cbn. lia.
  - left. split; [done|]. cbn [generated_at manifest_seeds]. unfold validated. rewrite places_sorted; [done|].
    apply chosen_sorted; [|done]. repeat constructor.
  - right. split; [done|]. destruct Hor as [->| ->]; [|done]. destruct (proj1 He eq_refl) as [c H0]. specialize (Hc c). lia.
Qed.

Definition example_ranked (c : ChainId) : list RankedSeed :=
  (λ name, {| ranked_chain := c; ranked_address := lit name; ranked_collection := lit "c"; ranked_identifier := lit name;
              ranked_metric := lit "volume"; ranked_value := 0x3ff0000000000000; ranked_window := lit "30d"; ranked_source := lit "x" |})
  <$> ["0xAB"; "0xCD"; "0xEF"]%string.

Lemma seeds_selected_witness :
  ∃ m, select_exact (λ c _, Ok (example_ranked c)) [Solana; Base; Polygon; Ethereum] 0 example_top = Ok m ∧
    (λ s, (seed_id s, seed_chain s, seed_rank s, seed_address s)) <$> manifest_seeds m =
      [(0, Base, 1, lit "0xab"); (1, Base, 2, lit "0xcd"); (2, Ethereum, 1, lit "0xab"); (3, Polygon, 1, lit "0xab");
       (4, Solana, 1, lit "0xAB")]%Z.
Proof.
  assert (Hc : ∀ c, (1 ≤ count example_top c < 256)%Z) by (intros []; cbn; lia).
  destruct (seeds_selected (λ c _, Ok (example_ranked c)) [Solana; Base; Polygon; Ethereum] example_ranked 0 example_top Hc (λ _, eq_refl))
    as [[_ H]|[_ H]]; [|vm_compute in H; discriminate].
  eexists. split; [exact H|]. vm_compute. reflexivity.
Defined.
