(* ===== verification/AnalysisJson.v ===== *)
(** The canonical JSON of the analysis (A/resident/metadata_index.rs). Its reader of
    documents ([StrictValue]), [normalize_number] and [canonical_decimal] are the text of
    the deduplicator's, modelled in [CanonicalJson]; what differs is modelled here: the
    checks before reading, the words of a string, and attributes sorted in place. *)

From S2P Require Import Prelude Text CanonicalJson.

Section AnalysisJson.
Context `{JsonLibrary}.
Abbreviation Value := (Value Number).

(** [normalize_string] *)
Definition normalize_words (input : str) : str :=
  join_words (split_whitespace [] (to_lowercase (nfkc input))).

(** [attribute_key] *)
Definition attribute_key (value : Value) : str * str :=
  match value with
  | Object map =>
      (default [] (map_get (lit "trait_type") map ≫= as_str),
       default [] (to_string <$> map_get (lit "value") map))
  | _ => ([], to_string value)
  end.

(** [attributes.sort_by_key(attribute_key)] *)
Definition sort_by_attribute_key (attributes : list Value) : list Value :=
  sort_by (λ a b, attr_key_compare (attribute_key a) (attribute_key b)) attributes.

(** The first entry with the key, when it is an array. *)
Fixpoint sort_attributes_of (entries : list (str * Value)) : list (str * Value) :=
  match entries with
  | [] => []
  | (key, value) :: rest =>
      if decide (key = lit "attributes") then
        (key, match value with Array attributes => Array (sort_by_attribute_key attributes) | _ => value end)
        :: rest
      else (key, value) :: sort_attributes_of rest
  end.

(** The loop over the entries of an object. *)
Section Entries.
Context (f : Value → option Value).

Fixpoint normalized_entries (normalized_keys : gset str) (map : list (str * Value))
    : option (list (str * Value)) :=
  match map with
  | [] => Some []
  | (key, value) :: map =>
      let key := normalize_words key in
      if decide (key ∈ normalized_keys) then None else
      value ← f value;
      entries ← normalized_entries ({[key]} ∪ normalized_keys) map;
      Some ((key, value) :: entries)
  end.
End Entries.

(** [normalize_value] *)
Fixpoint normalize_document (value : Value) : option Value :=
  match value with
  | String_ s => Some (String_ (normalize_words s))
  | Num number => Some (Num (normalize_number number))
  | Array items => Array <$> mapM normalize_document items
  | Object map =>
      entries ← normalized_entries normalize_document ∅ map;
      Some (Object (map_collect
        (sort_by (λ l r, str_compare l.1 r.1) (sort_attributes_of entries))))
  | Null => Some Null
  | Bool b => Some (Bool b)
  end.

Definition MAX_DOCUMENT : Z := 64 * 1024.

(** The text starts like an object or an array: [{] or [[]. *)
Definition starts_document (s : str) : bool := starts_with 123 s || starts_with 91 s.

Definition parse_normalized_json (raw : str) : option Value :=
  let trimmed := trim raw in
  if bool_decide (trimmed = []) || (MAX_DOCUMENT <? Z.of_nat (str_len trimmed))%Z || negb (starts_document trimmed)
  then None
  else value ← parse_json trimmed; value ← strict_value value; normalize_document value.

(** [canonicalize_json] *)
Definition canonical_metadata (raw : str) : option str := to_string <$> parse_normalized_json raw.

Definition is_valid_metadata_json (raw : str) : bool :=
  match parse_normalized_json raw with
  | Some (Object []) => false
  | Some _ => true
  | None => false
  end.
End AnalysisJson.

(** ** Facts *)

Lemma insert_stable_map {A B} (f : A → B) (cmp : B → B → comparison) x l :
  insert_stable cmp (f x) (f <$> l) = f <$> insert_stable (λ a b, cmp (f a) (f b)) x l.
Proof. induction l as [|y l IH]; cbn; [done|]. destruct (cmp (f x) (f y)); cbn; [done..|]. by rewrite IH. Qed.

Lemma sort_by_map {A B} (f : A → B) (cmp : B → B → comparison) l :
  sort_by cmp (f <$> l) = f <$> sort_by (λ a b, cmp (f a) (f b)) l.
Proof. 
  induction l as [|x l IH]; [done|]. cbn [fmap list_fmap sort_by foldr].
  change (foldr (insert_stable ?c) [] ?l) with (sort_by c l). change (list_fmap A B f l) with (f <$> l).
  by rewrite IH, insert_stable_map.
Qed.

Section AnalysisJsonFacts.
Context `{JsonLibrary}.
Abbreviation Value := (Value Number).

Lemma normalize_words_same s : normalize_words s = normalize_string s.
Proof. symmetry. apply collapse_words. Qed.

Lemma sort_attributes_same (l : list Value) : sort_by_attribute_key l = sort_attributes l.
Proof.
  unfold sort_attributes. case_decide as Hl.
  - destruct l as [|? [|? ?]]; [done..|]. cbn in Hl. lia.
  - change (map (λ v, (attr_key v, v)) l) with ((λ v, (attr_key v, v)) <$> l).
    rewrite sort_by_map, <- list_fmap_compose. symmetry. apply list_fmap_id.
Qed.

Lemma sort_attributes_of_same (entries : list (str * Value)) :
  sort_attributes_of entries = sort_attributes_entry entries.
Proof.
  induction entries as [|[key value] rest IH]; cbn; [done|]. case_decide; [|by rewrite IH].
  destruct value; by rewrite ?sort_attributes_same.
Qed.

Lemma normalized_entries_same (f g : Value → option Value) keys (entries : list (str * Value)) :
  Forall (λ e, f e.2 = g e.2) entries →
  normalized_entries f keys entries = normalize_entries g keys entries.
Proof.
  intros Hfg. revert keys. induction Hfg as [|[key value] rest Hv _ IH]; intros keys; cbn; [done|].
  rewrite normalize_words_same. case_decide; [done|]. cbn in Hv. rewrite Hv.
  destruct (g value); cbn; [|done]. by rewrite IH.
Qed.

Lemma normalize_document_same (v : Value) : normalize_document v = normalize_value v.
Proof.
  induction v as [v Hv|items IH|entries IH] using Value_nested_ind.
  { destruct v; cbn; try done. by rewrite normalize_words_same. }
  all: cbn.
  - f_equal. induction IH as [|v items Hv _ IHi]; cbn; [done|]. by rewrite Hv, IHi.
  - rewrite (normalized_entries_same _ normalize_value) by done.
    destruct (normalize_entries _ _ _); cbn; [|done]. by rewrite sort_attributes_of_same.
Qed.

(** Where it does not refuse a text, the analysis computes the canonical text of the
    deduplicator. *)
Lemma canonical_metadata_same raw :
  canonical_metadata raw =
    (let trimmed := trim raw in
     if bool_decide (trimmed = []) || (MAX_DOCUMENT <? Z.of_nat (str_len trimmed))%Z ||
        negb (starts_document trimmed)
     then None else canonicalize_json raw).
Proof.
  unfold canonical_metadata, parse_normalized_json, canonicalize_json. cbn zeta.
  destruct (_ || _); [done|]. destruct (parse_json _) as [r|]; cbn; [|done].
  destruct (strict_value r); cbn; [|done]. by rewrite normalize_document_same.
Qed.
End AnalysisJsonFacts.
