(* ===== verification/Builder.v ===== *)
(** The builder of the resident store (A/resident/builder.rs): rows read from the input are
    interned, merged, sorted and made unique; contracts keep the metadata of a few anchor
    rows; and the result is laid out in tables. An index or a row number that is
    [u32::MAX] marks an empty slot and is [None] here: capacities are checked, so no row or
    contract has that number. Ranks are numbers and [u32::MAX] is the rank of a token that
    has none. *)

From S2P Require Import Prelude Text CanonicalJson Anchors SortedLists Events Reducer ValuePools.
From S2P Require Import Fallible AnalysisJson.

Definition u32_max : Z := 2 ^ 32 - 1.

(** ** Data *)

Record SourceOrder := { file_ordinal : nat; file_row_number : Z }.
#[export] Instance SourceOrder_eq_dec : EqDecision SourceOrder.
Proof. solve_decision. Defined.

(** The derived order. *)
Definition source_compare (a b : SourceOrder) : comparison :=
  then_with (Nat.compare (file_ordinal a) (file_ordinal b)) (Z.compare (file_row_number a) (file_row_number b)).

Definition source_le (a b : SourceOrder) : bool := match source_compare a b with Gt => false | _ => true end.

Record InputRow := {
  input_chain : ChainId;
  contract_address : str;
  token_id : str;
  name_norm : option str;
  token_uri_norm : option str;
  image_uri_norm : option str;
  metadata_json : option str;
  source_order : SourceOrder;
}.

Record InputQuality := {
  physical_rows : Z;
  logical_nfts : Z;
  duplicate_rows : Z;
  conflicting_rows : Z;
  empty_names : Z;
  empty_token_uris : Z;
  empty_image_uris : Z;
  invalid_metadata : Z;
  oversized_metadata : Z;
  non_anchor_metadata : Z;
}.

Definition default_quality : InputQuality :=
  {| physical_rows := 0; logical_nfts := 0; duplicate_rows := 0; conflicting_rows := 0; empty_names := 0;
     empty_token_uris := 0; empty_image_uris := 0; invalid_metadata := 0; oversized_metadata := 0;
     non_anchor_metadata := 0 |}.

Record CompactRow := {
  row_chain : ChainId;
  address_id : nat;
  token_id_id : nat;
  name_id : option nat;
  token_uri_id : option nat;
  image_uri_id : option nat;
  metadata_id : option nat;
  metadata_source : option SourceOrder;
  source : SourceOrder;
}.
#[export] Instance CompactRow_eq_dec : EqDecision CompactRow.
Proof. solve_decision. Defined.

Record ResidentBuilder := {
  addresses : ByteInterner;
  token_ids : ByteInterner;
  names : ByteInterner;
  uris : ByteInterner;
  metadata : ByteInterner;
  logical_rows : list CompactRow;
  contract_ranges : list (nat * nat);
  contract_by_key : gmap (ChainId * nat) nat;
  metadata_anchor_rows : list (list (option nat));
  metadata_source_rows : list (list (option nat));
  metadata_row_contracts : list (option nat);
  metadata_anchor_count : nat;
  evm_token_rank : list Z;
  solana_token_rank : list Z;
  quality : InputQuality;
}.

Definition default_builder : ResidentBuilder :=
  {| addresses := default_interner; token_ids := default_interner; names := default_interner;
     uris := default_interner; metadata := default_interner; logical_rows := []; contract_ranges := [];
     contract_by_key := ∅; metadata_anchor_rows := []; metadata_source_rows := [];
     metadata_row_contracts := []; metadata_anchor_count := 0; evm_token_rank := [];
     solana_token_rank := []; quality := default_quality |}.

Inductive MetadataInputDisposition := DispositionAnchor | DispositionNonAnchor | DispositionDuplicate.
#[export] Instance MetadataInputDisposition_eq_dec : EqDecision MetadataInputDisposition.
Proof. solve_decision. Defined.

Inductive PreparedMetadataInput :=
  | Missing | Oversized | Invalid | Ignored | NonAnchor | Valid (canonical : str).

Record MetadataInputTarget := {
  target_chain : ChainId;
  target_contract : nat;
  target_row_index : nat;
  target_token_rank : Z;
  disposition : MetadataInputDisposition;
}.

(** ** Texts *)

Definition ascii_lowercase_if_needed (value : str) : str :=
  if existsb (in_chars 65 90) value then map ascii_lowercase value else value.

(** The digits of a decimal number without leading zeros. *)
Definition canonical_decimal_digits (value : str) : option str :=
  if bool_decide (value = []) || negb (forallb is_ascii_digit value) then None
  else let trimmed := trim_start_char 48 value in
       Some (if decide (trimmed = []) then lit "0" else trimmed).

Definition nonempty (value : option str) : option str :=
  v ← value; let v := trim v in if decide (v = []) then None else Some v.

Definition NULL_LIKE : list str :=
  lit <$> ["none"; "null"; "nil"; "undefined"; "n/a"; "na"; "n.a."; "nan"; "-"; "--"; "."]%string.

Definition single_digit (value : str) : bool :=
  match value with [c] => is_ascii_digit c | _ => false end.

Definition meaningful_name (value : option str) : option str :=
  value ← nonempty value;
  if existsb (eq_ignore_ascii_case value) NULL_LIKE || single_digit value then None else Some value.

(** The address and the token of a row as they are interned. *)
Definition normal_address (chain : ChainId) (address : str) : str :=
  let raw := trim address in
  if is_evm chain then ascii_lowercase_if_needed raw else raw.

Definition normal_token (chain : ChainId) (token : str) : str :=
  let raw := trim token in
  if is_evm chain then
    match canonical_decimal_digits raw with
    | Some decimal => decimal
    | None => ascii_lowercase_if_needed raw
    end
  else raw.

(** [token_cmp]; the length of a numeral is its number of digits. *)
Definition token_cmp (chain : ChainId) (left right : str) : comparison :=
  if is_evm chain then
    match canonical_decimal_digits left, canonical_decimal_digits right with
    | Some l, Some r =>
        then_with (then_with (Nat.compare (length l) (length r)) (str_compare l r)) (str_compare left right)
    | _, _ => str_compare left right
    end
  else str_compare left right.

(** [check_capacity] *)
Definition check_capacity (count : nat) : fallible () :=
  if decide (u32_max < Z.of_nat count)%Z then Err IdCapacity else Ok ().

(** ** Quality *)

Definition with_empty (q : InputQuality) (row : CompactRow) : InputQuality :=
  let one (o : option nat) : Z := match o with Some _ => 0%Z | None => 1%Z end in
  {| physical_rows := physical_rows q; logical_nfts := logical_nfts q; duplicate_rows := duplicate_rows q;
     conflicting_rows := conflicting_rows q; empty_names := empty_names q + one (name_id row);
     empty_token_uris := empty_token_uris q + one (token_uri_id row);
     empty_image_uris := empty_image_uris q + one (image_uri_id row);
     invalid_metadata := invalid_metadata q; oversized_metadata := oversized_metadata q;
     non_anchor_metadata := non_anchor_metadata q |}%Z.

Definition add_physical (q : InputQuality) (n : Z) : InputQuality :=
  {| physical_rows := physical_rows q + n; logical_nfts := logical_nfts q; duplicate_rows := duplicate_rows q;
     conflicting_rows := conflicting_rows q; empty_names := empty_names q;
     empty_token_uris := empty_token_uris q; empty_image_uris := empty_image_uris q;
     invalid_metadata := invalid_metadata q; oversized_metadata := oversized_metadata q;
     non_anchor_metadata := non_anchor_metadata q |}%Z.

Definition add_duplicate (q : InputQuality) (conflicting : bool) : InputQuality :=
  {| physical_rows := physical_rows q; logical_nfts := logical_nfts q; duplicate_rows := duplicate_rows q + 1;
     conflicting_rows := conflicting_rows q + (if conflicting then 1 else 0); empty_names := empty_names q;
     empty_token_uris := empty_token_uris q; empty_image_uris := empty_image_uris q;
     invalid_metadata := invalid_metadata q; oversized_metadata := oversized_metadata q;
     non_anchor_metadata := non_anchor_metadata q |}%Z.

Definition set_logical (q : InputQuality) (n : Z) : InputQuality :=
  {| physical_rows := physical_rows q; logical_nfts := n; duplicate_rows := duplicate_rows q;
     conflicting_rows := conflicting_rows q; empty_names := empty_names q;
     empty_token_uris := empty_token_uris q; empty_image_uris := empty_image_uris q;
     invalid_metadata := invalid_metadata q; oversized_metadata := oversized_metadata q;
     non_anchor_metadata := non_anchor_metadata q |}%Z.

(** Invalid, oversized and non-anchor metadata. *)
Definition add_metadata (q : InputQuality) (invalid oversized non_anchor : Z) : InputQuality :=
  {| physical_rows := physical_rows q; logical_nfts := logical_nfts q; duplicate_rows := duplicate_rows q;
     conflicting_rows := conflicting_rows q; empty_names := empty_names q;
     empty_token_uris := empty_token_uris q; empty_image_uris := empty_image_uris q;
     invalid_metadata := invalid_metadata q + invalid; oversized_metadata := oversized_metadata q + oversized;
     non_anchor_metadata := non_anchor_metadata q + non_anchor |}%Z.

Definition accumulate_input_quality (total value : InputQuality) : InputQuality :=
  {| physical_rows := saturating_add64 (physical_rows total) (physical_rows value);
     logical_nfts := saturating_add64 (logical_nfts total) (logical_nfts value);
     duplicate_rows := saturating_add64 (duplicate_rows total) (duplicate_rows value);
     conflicting_rows := saturating_add64 (conflicting_rows total) (conflicting_rows value);
     empty_names := saturating_add64 (empty_names total) (empty_names value);
     empty_token_uris := saturating_add64 (empty_token_uris total) (empty_token_uris value);
     empty_image_uris := saturating_add64 (empty_image_uris total) (empty_image_uris value);
     invalid_metadata := saturating_add64 (invalid_metadata total) (invalid_metadata value);
     oversized_metadata := saturating_add64 (oversized_metadata total) (oversized_metadata value);
     non_anchor_metadata := saturating_add64 (non_anchor_metadata total) (non_anchor_metadata value) |}.

(** ** Reading rows *)

Definition differs (left right : CompactRow) : bool :=
  negb (bool_decide (name_id left = name_id right) && bool_decide (token_uri_id left = token_uri_id right)
        && bool_decide (image_uri_id left = image_uri_id right) && bool_decide (metadata_id left = metadata_id right)).

Definition same_nft (left right : CompactRow) : bool :=
  bool_decide (row_chain left = row_chain right) && bool_decide (address_id left = address_id right)
  && bool_decide (token_id_id left = token_id_id right).

Definition set_metadata (row : CompactRow) (id : option nat) (source' : option SourceOrder) : CompactRow :=
  {| row_chain := row_chain row; address_id := address_id row; token_id_id := token_id_id row;
     name_id := name_id row; token_uri_id := token_uri_id row; image_uri_id := image_uri_id row;
     metadata_id := id; metadata_source := source'; source := source row |}.

Section Pushing.
Context (stable_hash : list N → N) `{JsonLibrary}.

Definition interned (pool : ByteInterner) (value : str) : fallible (ByteInterner * nat) :=
  expect (intern stable_hash pool value).

(** [value.map(|value| pool.intern(value))] *)
Definition interned_option (pool : ByteInterner) (value : option str) : fallible (ByteInterner * option nat) :=
  match value with
  | Some value => '(pool, id) ← interned pool value; Ok (pool, Some id)
  | None => Ok (pool, None)
  end.

(** The metadata of a row that is pushed with its document. *)
Definition push_metadata (pool : ByteInterner) (q : InputQuality) (json : option str) :
    fallible (ByteInterner * InputQuality * option nat) :=
  match json with
  | None => Ok (pool, q, None)
  | Some raw =>
      if (MAX_DOCUMENT <? Z.of_nat (str_len (trim raw)))%Z then Ok (pool, add_metadata q 0 1 0, None)
      else match canonical_metadata raw with
           | Some value =>
               if decide (value = lit "{}") then Ok (pool, add_metadata q 1 0 0, None)
               else '(pool, id) ← interned pool value; Ok (pool, q, Some id)
           | None => Ok (pool, add_metadata q 1 0 0, None)
           end
  end.

(** [push_borrowed]; the load stops at the first error. *)
Definition push (b : ResidentBuilder) (row : InputRow) : fallible ResidentBuilder :=
  let q := add_physical (quality b) 1 in
  let address := normal_address (input_chain row) (contract_address row) in
  let token := normal_token (input_chain row) (token_id row) in
  fail_if (bool_decide (address = []) || bool_decide (token = [])) InputError;;
  '(addresses', address_id') ← interned (addresses b) address;
  '(token_ids', token_id_id') ← interned (token_ids b) token;
  '(metadata', q, metadata_id') ← push_metadata (metadata b) q (metadata_json row);
  '(names', name_id') ← interned_option (names b) (meaningful_name (name_norm row));
  '(uris', token_uri_id') ← interned_option (uris b) (nonempty (token_uri_norm row));
  '(uris', image_uri_id') ← interned_option uris' (nonempty (image_uri_norm row));
  let compact :=
    {| row_chain := input_chain row; address_id := address_id'; token_id_id := token_id_id'; name_id := name_id';
       token_uri_id := token_uri_id'; image_uri_id := image_uri_id'; metadata_id := metadata_id';
       metadata_source := const (source_order row) <$> metadata_id'; source := source_order row |} in
  Ok {| addresses := addresses'; token_ids := token_ids'; names := names'; uris := uris'; metadata := metadata';
        logical_rows := logical_rows b ++ [compact]; contract_ranges := contract_ranges b;
        contract_by_key := contract_by_key b; metadata_anchor_rows := metadata_anchor_rows b;
        metadata_source_rows := metadata_source_rows b; metadata_row_contracts := metadata_row_contracts b;
        metadata_anchor_count := metadata_anchor_count b; evm_token_rank := evm_token_rank b;
        solana_token_rank := solana_token_rank b; quality := with_empty q compact |}.

(** [ids.map(|id| remap[id])] *)
Definition remap_option (remap : list nat) (id : option nat) : option (option nat) :=
  match id with Some id => Some <$> remap !! id | None => Some None end.

(** The row of another builder with the numbers of this one. *)
Definition remap_row (address token name uri meta : list nat) (row : CompactRow) : option CompactRow :=
  address_id' ← address !! address_id row;
  token_id_id' ← token !! token_id_id row;
  name_id' ← remap_option name (name_id row);
  token_uri_id' ← remap_option uri (token_uri_id row);
  image_uri_id' ← remap_option uri (image_uri_id row);
  metadata_id' ← remap_option meta (metadata_id row);
  Some {| row_chain := row_chain row; address_id := address_id'; token_id_id := token_id_id'; name_id := name_id';
          token_uri_id := token_uri_id'; image_uri_id := image_uri_id'; metadata_id := metadata_id';
          metadata_source := metadata_source row; source := source row |}.

Definition merge_from (b other : ResidentBuilder) : fallible ResidentBuilder :=
  fail_if (negb (bool_decide (contract_ranges b = [])) || negb (bool_decide (contract_ranges other = [])))
    StateError;;
  '(addresses', address_remap) ← expect (merge_pool stable_hash (addresses b) (addresses other));
  '(token_ids', token_remap) ← expect (merge_pool stable_hash (token_ids b) (token_ids other));
  '(names', name_remap) ← expect (merge_pool stable_hash (names b) (names other));
  '(uris', uri_remap) ← expect (merge_pool stable_hash (uris b) (uris other));
  '(metadata', metadata_remap) ← expect (merge_pool stable_hash (metadata b) (metadata other));
  rows ← expect (mapM (remap_row address_remap token_remap name_remap uri_remap metadata_remap) (logical_rows other));
  Ok {| addresses := addresses'; token_ids := token_ids'; names := names'; uris := uris'; metadata := metadata';
        logical_rows := logical_rows b ++ rows; contract_ranges := contract_ranges b;
        contract_by_key := contract_by_key b; metadata_anchor_rows := metadata_anchor_rows b;
        metadata_source_rows := metadata_source_rows b; metadata_row_contracts := metadata_row_contracts b;
        metadata_anchor_count := metadata_anchor_count b; evm_token_rank := evm_token_rank b;
        solana_token_rank := solana_token_rank b;
        quality := accumulate_input_quality (quality b) (quality other) |}.
End Pushing.

(** ** Ranks *)

(** [par_sort_unstable_by] of the [rayon] crate: a permutation, and sorted when the
    comparison is a total preorder on the elements; otherwise the order is unspecified. *)
Record lawful_on {A} (cmp : A → A → comparison) (l : list A) : Prop := {
  lawful_antisym x y : x ∈ l → y ∈ l → cmp x y = CompOpp (cmp y x);
  lawful_trans x y z : x ∈ l → y ∈ l → z ∈ l → cmp x y ≠ Gt → cmp y z ≠ Gt → cmp x z ≠ Gt;
}.

Class ParallelSort := {
  par_sort : ∀ {A}, (A → A → comparison) → list A → list A;
  par_sort_permutation {A} (cmp : A → A → comparison) l : par_sort cmp l ≡ₚ l;
  par_sort_sorted {A} (cmp : A → A → comparison) l :
    lawful_on cmp l → StronglySorted (λ a b, cmp a b ≠ Gt) (par_sort cmp l);
}.

Section Preparing.
Context `{ParallelSort}.

(** [ids.into_iter().enumerate()]: every id gets its place as its rank. *)
Definition set_rank (ranks : list Z) (entry : nat * nat) : fallible (list Z) :=
  expect (store ranks entry.2 (Z.of_nat entry.1 mod 2 ^ 32)%Z).

Definition set_ranks (ranks : list Z) (ids : list nat) : fallible (list Z) :=
  loop set_rank ranks (imap pair ids).

(** The ids with their texts, in the order of the texts. *)
Definition sorted_ids (cmp : str → str → comparison) (pool : ByteInterner) (ids : list nat) : fallible (list nat) :=
  texts ← expect (mapM (get pool) ids);
  Ok (par_sort (λ a b, cmp a.2 b.2) (zip ids texts)).*1.

Definition token_ids_of (rows : list CompactRow) (evm : bool) : list nat :=
  sort_dedup Nat.compare (token_id_id <$> filter (λ row, is_evm (row_chain row) = evm) rows).

Definition token_ranks (rows : list CompactRow) (tokens : ByteInterner) (evm : bool) : fallible (list Z) :=
  let comparison_chain := if evm then Ethereum else Solana in
  ids ← sorted_ids (token_cmp comparison_chain) tokens (token_ids_of rows evm);
  set_ranks (replicate (pool_len tokens) u32_max) ids.

Definition address_ranks (pool : ByteInterner) : fallible (list Z) :=
  let all := seq 0 (len_u32 pool) in
  ids ← sorted_ids str_compare pool all;
  set_ranks (replicate (length ids) 0%Z) ids.

(** ** Sorting and joining rows *)

(** The numbers a row is sorted by. *)
Definition row_ranks (address_rank evm_rank solana_rank : list Z) (row : CompactRow) : option (Z * Z) :=
  address ← address_rank !! address_id row;
  token ← (if is_evm (row_chain row) then evm_rank else solana_rank) !! token_id_id row;
  Some (address, token).

Definition ranked_compare (left right : CompactRow * (Z * Z)) : comparison :=
  then_with (then_with (then_with (chain_compare (row_chain left.1) (row_chain right.1))
    (Z.compare left.2.1 right.2.1)) (Z.compare left.2.2 right.2.2))
    (source_compare (source left.1) (source right.1)).

(** The sort of the rows; an id out of range panics. *)
Definition sort_rows (address_rank evm_rank solana_rank : list Z) (rows : list CompactRow) :
    fallible (list CompactRow) :=
  ranks ← expect (mapM (row_ranks address_rank evm_rank solana_rank) rows);
  Ok (par_sort ranked_compare (zip rows ranks)).*1.

Definition source_file_count (rows : list CompactRow) : nat :=
  foldl Nat.max 0 ((λ row, file_ordinal (source row) + 1) <$> rows).

(** One more row: its file has at least as many rows; [saturating_add] on [usize]. *)
Definition extend_source (lengths : list Z) (row : CompactRow) : fallible (list Z) :=
  let file := file_ordinal (source row) in
  length_ ← expect (lengths !! file);
  Ok (<[file := Z.max length_ (Z.min (file_row_number (source row) + 1) (2 ^ 64 - 1))]> lengths).

Definition source_slots (rows : list CompactRow) : fallible (list (list (option nat))) :=
  lengths ← loop extend_source (replicate (source_file_count rows) 0%Z) rows;
  Ok (map (λ length_ : Z, replicate (Z.to_nat length_) None) lengths).

(** The slot of a source in the table of rows. *)
Definition source_slot (slots : list (list (option nat))) (s : SourceOrder) : option (option nat) :=
  rows ← slots !! file_ordinal s;
  rows !! Z.to_nat (file_row_number s).

Definition set_source_slot (slots : list (list (option nat))) (s : SourceOrder) (index : nat) :
    list (list (option nat)) :=
  alter (λ rows, <[Z.to_nat (file_row_number s) := Some index]> rows) (file_ordinal s) slots.

Abbreviation JoinState := (list CompactRow * list (list (option nat)) * InputQuality)%type.

(** A repetition of the last row: its metadata is taken when there was none. *)
Definition take_metadata (existing row : CompactRow) : CompactRow :=
  match metadata_source existing, metadata_source row with
  | None, Some _ => set_metadata existing (metadata_id row) (metadata_source row)
  | _, _ => existing
  end.

(** [same_nft] with the last row. *)
Definition duplicate_of (unique : list CompactRow) (row : CompactRow) : option CompactRow :=
  existing ← last unique; if same_nft existing row then Some existing else None.

(** One row of the sorted rows. *)
Definition join_row (st : JoinState) (row : CompactRow) : fallible JoinState :=
  let '(unique, slots, q) := st in
  let '(unique, q, row_index) :=
    match duplicate_of unique row with
    | Some existing =>
        let row_index := length unique - 1 in
        (<[row_index := take_metadata existing row]> unique, add_duplicate q (differs existing row), row_index)
    | None => (unique ++ [row], q, length unique)
    end in
  slot ← ok_or StateError (source_slot slots (source row));
  fail_if (bool_decide (is_Some slot)) InputError;;
  Ok (unique, set_source_slot slots (source row) row_index, q).

(** ** Contracts *)

Definition same_contract (first row : CompactRow) : bool :=
  bool_decide (row_chain row = row_chain first) && bool_decide (address_id row = address_id first).

(** How many rows follow with the contract of the first. *)
Fixpoint run_length (first : CompactRow) (rows : list CompactRow) : nat :=
  match rows with
  | [] => 0
  | row :: rows => if same_contract first row then S (run_length first rows) else 0
  end.

(** The loop over the starts of the contracts; a step takes at least one row. *)
Fixpoint ranges_from (fuel start : nat) (rows : list CompactRow) : list (nat * nat) :=
  match fuel, rows with
  | S fuel, first :: rest =>
      let run := run_length first rest in
      (start, start + 1 + run) :: ranges_from fuel (start + 1 + run) (drop run rest)
  | _, _ => []
  end.

Definition contract_ranges_of (rows : list CompactRow) : list (nat * nat) := ranges_from (length rows) 0 rows.

(** [metadata_row_contracts[start..end].fill(contract)] *)
Definition fill_range (l : list (option nat)) (entry : nat * (nat * nat)) : list (option nat) :=
  foldl (λ l row, <[row := Some entry.1]> l) l (seq entry.2.1 (entry.2.2 - entry.2.1)).

Definition row_contracts (rows : list CompactRow) (ranges : list (nat * nat)) : list (option nat) :=
  foldl fill_range (replicate (length rows) None) (imap pair ranges).

Definition insert_contract (rows : list CompactRow) (m : gmap (ChainId * nat) nat) (entry : nat * (nat * nat)) :
    fallible (gmap (ChainId * nat) nat) :=
  row ← expect (rows !! entry.2.1);
  Ok (<[(row_chain row, address_id row) := entry.1]> m).

Abbreviation AnchorState := (list CompactRow * list (list (option nat)) * InputQuality)%type.

(** A row of a contract: one of the first with metadata is an anchor, and the metadata of
    the others is dropped. *)
Definition anchor_row (anchor_count contract : nat) (acc : AnchorState * nat) (row : nat) :
    fallible (AnchorState * nat) :=
  let '((rows, anchors, q), count) := acc in
  r ← expect (rows !! row);
  match metadata_id r with
  | None => Ok acc
  | Some _ =>
      if decide (count < anchor_count) then
        slots ← expect (anchors !! contract);
        slots ← expect (store slots count (Some row));
        Ok ((rows, <[contract := slots]> anchors, q), count + 1)
      else
        Ok ((<[row := set_metadata r None (metadata_source r)]> rows, anchors, add_metadata q 0 0 1), count)
  end.

Definition anchor_contract (anchor_count : nat) (st : AnchorState) (entry : nat * (nat * nat)) : fallible AnchorState :=
  '(st, _) ← loop (anchor_row anchor_count entry.1) (st, 0) (seq entry.2.1 (entry.2.2 - entry.2.1));
  Ok st.

Definition EMPTY_SLOTS : list (option nat) := replicate 8 None.

Definition prepare_metadata_ranked (b : ResidentBuilder) (anchor_count : nat)
    (address_rank evm_rank solana_rank : list Z) : fallible ResidentBuilder :=
  rows ← sort_rows address_rank evm_rank solana_rank (logical_rows b);
  check_capacity (length rows);;
  slots ← source_slots rows;
  '(unique, slots, q) ← loop join_row ([], slots, quality b) rows;
  check_capacity (length unique);;
  let q := set_logical q (Z.of_nat (length unique)) in
  let ranges := contract_ranges_of unique in
  check_capacity (length ranges);;
  let contracts := row_contracts unique ranges in
  by_key ← loop (insert_contract unique) ∅ (imap pair ranges);
  '(unique, anchors, q) ←
    loop (anchor_contract anchor_count) (unique, replicate (length ranges) EMPTY_SLOTS, q) (imap pair ranges);
  Ok {| addresses := addresses b; token_ids := token_ids b; names := names b; uris := uris b;
        metadata := metadata b; logical_rows := unique; contract_ranges := ranges; contract_by_key := by_key;
        metadata_anchor_rows := anchors; metadata_source_rows := slots; metadata_row_contracts := contracts;
        metadata_anchor_count := anchor_count; evm_token_rank := evm_rank; solana_token_rank := solana_rank;
        quality := q |}.

Definition validate_metadata_preparation (b : ResidentBuilder) (anchor_count : nat) : fallible () :=
  fail_if (bool_decide (anchor_count = 0) || bool_decide (8 < anchor_count)) ConfigError;;
  fail_if (negb (bool_decide (contract_ranges b = []))) StateError.

Definition prepare_metadata (b : ResidentBuilder) (anchor_count : nat) : fallible ResidentBuilder :=
  validate_metadata_preparation b anchor_count;;
  address_rank ← address_ranks (addresses b);
  evm_rank ← token_ranks (logical_rows b) (token_ids b) true;
  solana_rank ← token_ranks (logical_rows b) (token_ids b) false;
  prepare_metadata_ranked b anchor_count address_rank evm_rank solana_rank.

Inductive MetadataPreparationPart :=
  | AddressPart (ranks : list Z)
  | EvmTokenPart (ranks : list Z)
  | SolanaTokenPart (ranks : list Z).

Definition preparation_part (b : ResidentBuilder) (part : nat) : fallible MetadataPreparationPart :=
  match part with
  | 0 => EvmTokenPart <$> token_ranks (logical_rows b) (token_ids b) true
  | 1 => SolanaTokenPart <$> token_ranks (logical_rows b) (token_ids b) false
  | 2 => AddressPart <$> address_ranks (addresses b)
  | _ => Panic
  end.

(** [(lane..3).step_by(lane_count)] *)
Definition lane_parts (lane_count lane : nat) : list nat :=
  filter (λ part, lane ≤ part ∧ (part - lane) mod lane_count = 0) (seq 0 3).

(** The last part of each kind. *)
Definition collect_part (acc : option (list Z) * option (list Z) * option (list Z)) (part : MetadataPreparationPart) :=
  let '(address, evm, solana) := acc in
  match part with
  | AddressPart ranks => (Some ranks, evm, solana)
  | EvmTokenPart ranks => (address, Some ranks, solana)
  | SolanaTokenPart ranks => (address, evm, Some ranks)
  end.

(** [prepare_metadata_numa] on that many pools of processors. *)
Definition prepare_metadata_numa (lane_count : nat) (b : ResidentBuilder) (anchor_count : nat) :
    fallible ResidentBuilder :=
  validate_metadata_preparation b anchor_count;;
  if decide (lane_count = 1) then prepare_metadata b anchor_count else
  parts ← try_map (λ lane, try_map (preparation_part b) (lane_parts lane_count lane)) (seq 0 lane_count);
  let '(address, evm, solana) := foldl collect_part (None, None, None) (mjoin parts) in
  address_rank ← ok_or StateError address;
  evm_rank ← ok_or StateError evm;
  solana_rank ← ok_or StateError solana;
  prepare_metadata_ranked b anchor_count address_rank evm_rank solana_rank.
End Preparing.

(** ** Metadata of the second pass *)

Definition with_metadata (b : ResidentBuilder) (rows : list CompactRow) (anchors : list (list (option nat)))
    (pool : ByteInterner) (q : InputQuality) : ResidentBuilder :=
  {| addresses := addresses b; token_ids := token_ids b; names := names b; uris := uris b;
     metadata := pool; logical_rows := rows; contract_ranges := contract_ranges b;
     contract_by_key := contract_by_key b; metadata_anchor_rows := anchors;
     metadata_source_rows := metadata_source_rows b; metadata_row_contracts := metadata_row_contracts b;
     metadata_anchor_count := metadata_anchor_count b; evm_token_rank := evm_token_rank b;
     solana_token_rank := solana_token_rank b; quality := q |}.

Definition token_rank (b : ResidentBuilder) (chain : ChainId) (token : nat) : option Z :=
  (if is_evm chain then evm_token_rank b else solana_token_rank b) !! token.

(** The rank of the token of a row. *)
Definition rank_of_row (b : ResidentBuilder) (chain : ChainId) (row : nat) : option Z :=
  r ← logical_rows b !! row; token_rank b chain (token_id_id r).

(** The anchors of a contract: the slots up to the first empty one. *)
Fixpoint taken (slots : list (option nat)) : list nat :=
  match slots with
  | Some row :: slots => row :: taken slots
  | _ => []
  end.

Definition used_slots (b : ResidentBuilder) (slots : list (option nat)) : list nat :=
  taken (take (metadata_anchor_count b) slots).

(** [slots[count - 1]] of the used slots. *)
Definition worst_slot (used : list nat) : fallible nat := expect (last used).

Definition already_from (row : CompactRow) (s : SourceOrder) : bool :=
  match metadata_source row with Some existing => source_le existing s | None => false end.

Definition metadata_input_target_for_row (b : ResidentBuilder) (contract row_index : nat) (s : SourceOrder) :
    fallible MetadataInputTarget :=
  row ← expect (logical_rows b !! row_index);
  let chain := row_chain row in
  rank ← expect (token_rank b chain (token_id_id row));
  disposition ←
    (if already_from row s then Ok DispositionDuplicate
     else match metadata_id row with
     | Some _ => Ok DispositionAnchor
     | None =>
         slots ← expect (metadata_anchor_rows b !! contract);
         let used := used_slots b slots in
         if decide (length used < metadata_anchor_count b) then Ok DispositionAnchor
         else
           worst ← worst_slot used;
           worst_rank ← expect (rank_of_row b chain worst);
           Ok (if (rank <? worst_rank)%Z then DispositionAnchor else DispositionNonAnchor)
     end);
  Ok {| target_chain := chain; target_contract := contract; target_row_index := row_index;
        target_token_rank := rank; disposition := disposition |}.

(** The target of a row by its place in the input. *)
Definition metadata_input_target_by_source (b : ResidentBuilder) (s : SourceOrder) : fallible MetadataInputTarget :=
  row_index ← ok_or InputError (mjoin (source_slot (metadata_source_rows b) s));
  contract ← ok_or StateError (mjoin (metadata_row_contracts b !! row_index));
  metadata_input_target_for_row b contract row_index s.

(** Insertion by rank: the place of the new anchor. *)
Fixpoint position_by_rank (b : ResidentBuilder) (chain : ChainId) (rank : Z) (used : list nat) : fallible nat :=
  match used with
  | [] => Ok 0
  | candidate :: used =>
      candidate_rank ← expect (rank_of_row b chain candidate);
      if (rank <? candidate_rank)%Z then Ok 0 else S <$> position_by_rank b chain rank used
  end.

(** [for slot in (position..end).rev() { slots[slot + 1] = slots[slot] }] *)
Definition shift_slots (slots : list (option nat)) (position end_ : nat) : fallible (list (option nat)) :=
  loop (λ slots slot, v ← expect (slots !! slot); expect (store slots (slot + 1) v)) slots
    (reverse (seq position (end_ - position))).

Section Attaching.
Context (stable_hash : list N → N) `{JsonLibrary}.

(** [from_raw_for_disposition] *)
Definition prepared_from_raw (raw : option str) (d : MetadataInputDisposition) : PreparedMetadataInput :=
  match nonempty raw with
  | None => Missing
  | Some raw =>
      if (MAX_DOCUMENT <? Z.of_nat (str_len raw))%Z then Oversized
      else match d with
      | DispositionAnchor =>
          match canonical_metadata raw with
          | Some canonical => if decide (canonical = lit "{}") then Invalid else Valid canonical
          | None => Invalid
          end
      | DispositionNonAnchor => if is_valid_metadata_json raw then NonAnchor else Invalid
      | DispositionDuplicate => if is_valid_metadata_json raw then Ignored else Invalid
      end
  end.

Definition metadata_input_target (b : ResidentBuilder) (chain : ChainId) (address token : str) (s : SourceOrder) :
    fallible MetadataInputTarget :=
  found_address ← expect (pool_lookup stable_hash (addresses b) (normal_address chain address));
  found_token ← expect (pool_lookup stable_hash (token_ids b) (normal_token chain token));
  match found_address, found_token with
  | Some address_id', Some token_id_id' =>
      contract ← ok_or InputError (contract_by_key b !! (chain, address_id'));
      '(start, end_) ← expect (contract_ranges b !! contract);
      rank ← expect (token_rank b chain token_id_id');
      rows ← expect (slice (logical_rows b) start end_);
      ranks ← expect (mapM (λ row, token_rank b chain (token_id_id row)) rows);
      r ← expect (binary_search_by (λ k, Z.compare k rank) ranks);
      match r with
      | inl offset => metadata_input_target_for_row b contract (start + offset) s
      | inr _ => Err InputError
      end
  | _, _ => Err InputError
  end.

(** The anchors with a new one in its place; a full contract loses its last anchor. *)
Definition insert_anchor (b : ResidentBuilder) (target : MetadataInputTarget) (rows : list CompactRow)
    (slots : list (option nat)) (used : list nat) (id : nat) :
    fallible (list CompactRow * list (option nat)) :=
  let count := length used in
  position ← position_by_rank b (target_chain target) (target_token_rank target) used;
  rows ←
    (if decide (count = metadata_anchor_count b) then
       evicted ← worst_slot used;
       r ← expect (rows !! evicted);
       Ok (<[evicted := set_metadata r None (metadata_source r)]> rows)
     else Ok rows);
  slots ← shift_slots slots position (count `min` (metadata_anchor_count b - 1));
  slots ← expect (store slots position (Some (target_row_index target)));
  r ← expect (rows !! target_row_index target);
  Ok (<[target_row_index target := set_metadata r (Some id) (metadata_source r)]> rows, slots).

(** Valid metadata for a row. *)
Definition attach_canonical (b : ResidentBuilder) (target : MetadataInputTarget) (canonical : str)
    (s : SourceOrder) : fallible ResidentBuilder :=
  let index := target_row_index target in
  row ← expect (logical_rows b !! index);
  if already_from row s then Ok b
  else match metadata_source row with
  | Some _ =>
      match metadata_id row with
      | Some _ =>
          '(pool, id) ← interned stable_hash (metadata b) canonical;
          Ok (with_metadata b (<[index := set_metadata row (Some id) (Some s)]> (logical_rows b))
                (metadata_anchor_rows b) pool (quality b))
      | None =>
          Ok (with_metadata b (<[index := set_metadata row None (Some s)]> (logical_rows b))
                (metadata_anchor_rows b) (metadata b) (quality b))
      end
  | None =>
      let rows := <[index := set_metadata row (metadata_id row) (Some s)]> (logical_rows b) in
      slots ← expect (metadata_anchor_rows b !! target_contract target);
      let used := used_slots b slots in
      worse ←
        (if decide (length used = metadata_anchor_count b) then
           worst ← worst_slot used;
           worst_rank ← expect (rank_of_row b (target_chain target) worst);
           Ok (worst_rank <=? target_token_rank target)%Z
         else Ok false);
      if (worse : bool) then
        Ok (with_metadata b rows (metadata_anchor_rows b) (metadata b) (add_metadata (quality b) 0 0 1))
      else
        '(pool, id) ← interned stable_hash (metadata b) canonical;
        '(rows, slots) ← insert_anchor b target rows slots used id;
        let q := if decide (length used = metadata_anchor_count b) then add_metadata (quality b) 0 0 1 else quality b in
        Ok (with_metadata b rows (<[target_contract target := slots]> (metadata_anchor_rows b)) pool q)
  end.

Definition count_metadata (b : ResidentBuilder) (invalid oversized non_anchor : Z) : ResidentBuilder :=
  with_metadata b (logical_rows b) (metadata_anchor_rows b) (metadata b)
    (add_metadata (quality b) invalid oversized non_anchor).

Definition attach_prepared_metadata_target (b : ResidentBuilder) (target : MetadataInputTarget)
    (prepared : PreparedMetadataInput) (s : SourceOrder) : fallible ResidentBuilder :=
  match prepared with
  | Missing | Ignored => Ok b
  | Oversized => Ok (count_metadata b 0 1 0)
  | Invalid => Ok (count_metadata b 1 0 0)
  | NonAnchor => Ok (count_metadata b 0 0 1)
  | Valid canonical => attach_canonical b target canonical s
  end.

Definition attach_prepared_metadata (b : ResidentBuilder) (chain : ChainId) (address token : str)
    (prepared : PreparedMetadataInput) (s : SourceOrder) : fallible ResidentBuilder :=
  target ← metadata_input_target b chain address token s;
  attach_prepared_metadata_target b target prepared s.

Definition attach_metadata (b : ResidentBuilder) (chain : ChainId) (address token : str)
    (raw : option str) (s : SourceOrder) : fallible ResidentBuilder :=
  attach_prepared_metadata b chain address token (prepared_from_raw raw DispositionAnchor) s.

(** ** The second pass over the input (A/input/parquet.rs) *)

Inductive ValidatedMetadataInput := ValidatedMissing | ValidatedOversized | ValidatedInvalid | ValidatedValid.

Definition validate_metadata_input (raw : option str) : ValidatedMetadataInput :=
  match nonempty raw with
  | None => ValidatedMissing
  | Some raw =>
      if (MAX_DOCUMENT <? Z.of_nat (str_len raw))%Z then ValidatedOversized
      else if is_valid_metadata_json raw then ValidatedValid else ValidatedInvalid
  end.

(** What a validated text is worth to its target. *)
Definition prepared_from_validated (validated : ValidatedMetadataInput) (raw : option str)
    (d : MetadataInputDisposition) : PreparedMetadataInput :=
  match validated with
  | ValidatedMissing => Missing
  | ValidatedOversized => Oversized
  | ValidatedInvalid => Invalid
  | ValidatedValid =>
      match d with
      | DispositionAnchor => prepared_from_raw raw d
      | DispositionNonAnchor => NonAnchor
      | DispositionDuplicate => Ignored
      end
  end.

Definition attach_row (b : ResidentBuilder) (input : SourceOrder * option str) : fallible ResidentBuilder :=
  target ← metadata_input_target_by_source b input.1;
  attach_prepared_metadata_target b target
    (prepared_from_validated (validate_metadata_input input.2) input.2 (disposition target)) input.1.

(** [attach_metadata_batch]: the rows of a batch have consecutive numbers. *)
Definition attach_metadata_batch (b : ResidentBuilder) (file : nat) (row_start : Z) (batch : list (option str)) :
    fallible ResidentBuilder :=
  loop attach_row b (imap (λ i raw, ({| file_ordinal := file; file_row_number := row_start + Z.of_nat i |}, raw)) batch).
End Attaching.

Definition release_metadata_source_lookup (b : ResidentBuilder) : ResidentBuilder :=
  {| addresses := addresses b; token_ids := token_ids b; names := names b; uris := uris b;
     metadata := metadata b; logical_rows := logical_rows b; contract_ranges := contract_ranges b;
     contract_by_key := contract_by_key b; metadata_anchor_rows := metadata_anchor_rows b;
     metadata_source_rows := []; metadata_row_contracts := [];
     metadata_anchor_count := metadata_anchor_count b; evm_token_rank := evm_token_rank b;
     solana_token_rank := solana_token_rank b; quality := quality b |}.
