(* ===== verification/Resident.v ===== *)
(** The resident store (A/resident/store.rs) and the end of its builder
    (A/resident/builder.rs, [finish_prepared], [build_profiles]): representative names,
    anchors, metadata profiles shared by contracts, and the tables of NFTs. *)

From S2P Require Import Prelude Text CanonicalJson Anchors SortedLists Events Reducer ValuePools.
From S2P Require Import Fallible AnalysisJson Builder.

(** ** Data *)

Record MetadataAnchor := { anchor_token_id : nat; anchor_metadata_id : nat }.
#[export] Instance MetadataAnchor_eq_dec : EqDecision MetadataAnchor.
Proof. solve_decision. Defined.

Record MetadataProfile := { anchor_start : nat; anchor_len : nat; member_start : nat; member_len : nat }.
Record NftIdentityRecord := { contract_id : nat; nft_token_id : nat }.
Record UriFeatureRecord := { token_uri : option nat; image_uri : option nat }.

Record UriNftIdentityStore := {
  identity_token_ids : FrozenBytePool;
  nfts : list NftIdentityRecord;
  contract_offsets : list nat;
}.

Record UriFeatureStore := { uri_values : FrozenBytePool; features : list UriFeatureRecord }.

Record NameFeatureStore := { name_values : FrozenBytePool; contract_names : list (option nat) }.

Record MetadataFeatureStore := {
  anchor_tokens : FrozenBytePool;
  documents : FrozenBytePool;
  anchors : list MetadataAnchor;
  profile_members : list nat;
  profiles : list MetadataProfile;
  contract_profiles : list (option nat);
}.

Record ResidentBaseStore := {
  contracts : ContractCatalog;
  uri_identity : option UriNftIdentityStore;
  uri_features : option UriFeatureStore;
  name_features : option NameFeatureStore;
  metadata_features : option MetadataFeatureStore;
  store_quality : InputQuality;
}.

(** ** The store *)

Definition profile_anchors (m : MetadataFeatureStore) (profile : nat) : option (list MetadataAnchor) :=
  p ← profiles m !! profile;
  slice (anchors m) (anchor_start p) (anchor_start p + anchor_len p).

Definition members_of_profile (m : MetadataFeatureStore) (profile : nat) : option (list nat) :=
  p ← profiles m !! profile;
  slice (profile_members m) (member_start p) (member_start p + member_len p).

(** [nft_key]: [None] inside when the store has no such NFT. *)
Definition nft_key (s : ResidentBaseStore) (nft : nat) : option (option NftKey) :=
  match uri_identity s with
  | None => Some None
  | Some identities =>
      match nfts identities !! nft with
      | None => Some None
      | Some identity =>
          contract ← contracts s !! contract_id identity;
          token ← frozen_get (identity_token_ids identities) (nft_token_id identity);
          Some (Some {| nft_chain := record_chain contract; nft_contract := record_address contract; nft_token := token |})
      end
  end.

Definition store_chain (s : ResidentBaseStore) (contract : nat) : option ChainId :=
  record_chain <$> contracts s !! contract.

(** [take_uri_stage]: [?] after the first [take] loses it. *)
Definition take_uri_stage (s : ResidentBaseStore) :
    ResidentBaseStore * option (UriNftIdentityStore * UriFeatureStore) :=
  match uri_identity s with
  | None => (s, None)
  | Some identity =>
      ({| contracts := contracts s; uri_identity := None; uri_features := None; name_features := name_features s;
          metadata_features := metadata_features s; store_quality := store_quality s |},
       features ← uri_features s; Some (identity, features))
  end.

Definition take_name_stage (s : ResidentBaseStore) : ResidentBaseStore * option NameFeatureStore :=
  ({| contracts := contracts s; uri_identity := uri_identity s; uri_features := uri_features s; name_features := None;
      metadata_features := metadata_features s; store_quality := store_quality s |}, name_features s).

Definition take_metadata_stage (s : ResidentBaseStore) : ResidentBaseStore * option MetadataFeatureStore :=
  ({| contracts := contracts s; uri_identity := uri_identity s; uri_features := uri_features s;
      name_features := name_features s; metadata_features := None; store_quality := store_quality s |},
   metadata_features s).

(** ** Representative names *)

Definition count_name (counts : gmap nat Z) (name : nat) : gmap nat Z :=
  <[name := (default 0 (counts !! name) + 1)%Z]> counts.

Definition name_counts (rows : list CompactRow) : gmap nat Z := foldl count_name ∅ (omap name_id rows).

(** More rows, or as many and a smaller text. *)
Definition name_compare (left right : nat * Z * str) : comparison :=
  then_with (Z.compare left.1.2 right.1.2) (str_compare right.2 left.2).

(** [max_by]: the last of the greatest elements. *)
Definition max_by {A} (cmp : A → A → comparison) (l : list A) : option A :=
  match l with
  | [] => None
  | x :: l => Some (foldl (λ best y, match cmp best y with Gt => best | _ => y end) x l)
  end.

Section Finishing.
(** [iterate]: the order in which the hash map of counts is traversed; [stable_hash] and
    [sip_hash]: the hash functions of the pools and of the profiles. *)
Context (iterate : gmap nat Z → list (nat * Z)) (stable_hash : list N → N) (sip_hash : list nat → N).

Definition representative_name (rows : list CompactRow) (pool : ByteInterner) : fallible (option nat) :=
  entries ← expect (mapM (λ e : nat * Z, text ← get pool e.1; Some (e, text)) (iterate (name_counts rows)));
  Ok ((λ e : nat * Z * str, e.1.1) <$> max_by name_compare entries).

(** ** Contracts *)

Record FinishState := {
  fs_names : ByteInterner;
  fs_documents : ByteInterner;
  fs_contract_names : list (option nat);
  fs_anchor_offsets : list nat;
  fs_anchors : list MetadataAnchor;
  fs_contracts : list ContractRecord;
}.

Definition start_finish : FinishState :=
  {| fs_names := default_interner; fs_documents := default_interner; fs_contract_names := [];
     fs_anchor_offsets := [0]; fs_anchors := []; fs_contracts := [] |}.

(** The anchor of a row with metadata. *)
Definition add_anchor (b : ResidentBuilder) (acc : ByteInterner * list MetadataAnchor) (row : CompactRow) :
    fallible (ByteInterner * list MetadataAnchor) :=
  match metadata_id row with
  | None => Ok acc
  | Some id =>
      canonical ← expect (get (metadata b) id);
      '(documents, document) ← interned stable_hash acc.1 canonical;
      Ok (documents, acc.2 ++ [{| anchor_token_id := token_id_id row; anchor_metadata_id := document |}])
  end.

(** [as u8] of a shard. *)
Definition shard_byte (value : nat) (index_shards : Z) : Z := (owner_shard (Z.of_nat value) index_shards mod 2 ^ 8)%Z.

Definition finish_contract (b : ResidentBuilder) (index_shards : Z) (st : FinishState) (range : nat * nat) :
    fallible FinishState :=
  rows ← expect (slice (logical_rows b) range.1 range.2);
  representative ← representative_name rows (names b);
  '(name_pool, name) ←
    match representative with
    | None => Ok (fs_names st, None)
    | Some id =>
        text ← expect (get (names b) id);
        '(pool, id) ← interned stable_hash (fs_names st) text;
        Ok (pool, Some id)
    end;
  '(document_pool, anchors) ← loop (add_anchor b) (fs_documents st, fs_anchors st) rows;
  first ← expect (head rows);
  address ← expect (get (addresses b) (address_id first));
  Ok {| fs_names := name_pool; fs_documents := document_pool; fs_contract_names := fs_contract_names st ++ [name];
        fs_anchor_offsets := fs_anchor_offsets st ++ [length anchors]; fs_anchors := anchors;
        fs_contracts := fs_contracts st ++
          [{| record_chain := row_chain first; record_address := address;
              record_nft_count := Z.of_nat (range.2 - range.1); name_value_id := Z.of_nat <$> name;
              metadata_profile_id := None; name_owner_shard := (λ id, shard_byte id index_shards) <$> name;
              metadata_owner_shard := None |}] |}.

(** The anchors of a contract with the numbers of their tokens among anchors. *)
Definition renumber_anchor (b : ResidentBuilder) (chain : ChainId) (acc : ByteInterner * list MetadataAnchor)
    (anchor : MetadataAnchor) : fallible (ByteInterner * list MetadataAnchor) :=
  raw ← expect (get (token_ids b) (anchor_token_id anchor));
  let normalized := if is_evm chain then default raw (canonical_decimal_digits raw) else raw in
  '(pool, id) ← interned stable_hash acc.1 normalized;
  Ok (pool, acc.2 ++ [{| anchor_token_id := id; anchor_metadata_id := anchor_metadata_id anchor |}]).

(** The anchors of one contract, between its offsets. *)
Definition contract_anchors {A} (offsets : list nat) (anchors : list A) (contract : nat) : option (list A) :=
  start ← offsets !! contract;
  end_ ← offsets !! (contract + 1);
  slice anchors start end_.

Definition renumber_contract (b : ResidentBuilder) (st : FinishState) (acc : ByteInterner * list MetadataAnchor)
    (contract : nat) : fallible (ByteInterner * list MetadataAnchor) :=
  own ← expect (contract_anchors (fs_anchor_offsets st) (fs_anchors st) contract);
  record ← expect (fs_contracts st !! contract);
  loop (renumber_anchor b (record_chain record)) acc own.

(** ** Profiles *)

Inductive ProfileBucket :=
  | OneProfile (profile : nat)
  | ManyProfiles (profiles : list nat).

Definition profile_bucket_push (bucket : ProfileBucket) (profile : nat) : ProfileBucket :=
  match bucket with
  | OneProfile first => ManyProfiles [first; profile]
  | ManyProfiles profiles => ManyProfiles (profiles ++ [profile])
  end.

(** The values written to the hasher. *)
Definition profile_hash (anchors : list MetadataAnchor) : N :=
  sip_hash (anchors ≫= λ a, [anchor_token_id a; anchor_metadata_id a]).

Record ProfileState := {
  ps_buckets : gmap N ProfileBucket;
  ps_profiles : list MetadataProfile;
  ps_anchors : list MetadataAnchor;
  ps_contract_profiles : list (option nat);
}.

Definition same_anchors (st : ProfileState) (own : list MetadataAnchor) (profile : nat) : option bool :=
  p ← ps_profiles st !! profile;
  other ← slice (ps_anchors st) (anchor_start p) (anchor_start p + anchor_len p);
  Some (bool_decide (other = own)).

(** The first profile of a bucket with these anchors. *)
Fixpoint find_profile (st : ProfileState) (own : list MetadataAnchor) (profiles : list nat) : option (option nat) :=
  match profiles with
  | [] => Some None
  | profile :: profiles =>
      same ← same_anchors st own profile;
      if (same : bool) then Some (Some profile) else find_profile st own profiles
  end.

Definition bucket_profiles (bucket : option ProfileBucket) : list nat :=
  match bucket with
  | None => []
  | Some (OneProfile profile) => [profile]
  | Some (ManyProfiles profiles) => profiles
  end.

Definition existing_profile (st : ProfileState) (own : list MetadataAnchor) : option (option nat) :=
  match ps_buckets st !! profile_hash own with
  | None => Some None
  | Some (OneProfile profile) => find_profile st own [profile]
  | Some (ManyProfiles profiles) => find_profile st own profiles
  end.

(** A new profile; [as u8] of the number of its anchors. *)
Definition new_profile (st : ProfileState) (own : list MetadataAnchor) : ProfileState :=
  let profile := length (ps_profiles st) in
  {| ps_buckets :=
       <[profile_hash own := match ps_buckets st !! profile_hash own with
                             | Some bucket => profile_bucket_push bucket profile
                             | None => OneProfile profile
                             end]> (ps_buckets st);
     ps_profiles := ps_profiles st ++
       [{| anchor_start := length (ps_anchors st); anchor_len := length own mod 256; member_start := 0; member_len := 0 |}];
     ps_anchors := ps_anchors st ++ own;
     ps_contract_profiles := ps_contract_profiles st |}.

Definition add_member (p : MetadataProfile) : MetadataProfile :=
  {| anchor_start := anchor_start p; anchor_len := anchor_len p; member_start := member_start p;
     member_len := member_len p + 1 |}.

(** [profiles[profile].member_len += 1; contract_profiles[contract] = Some(profile)] *)
Definition assign_profile (st : ProfileState) (contract profile : nat) : fallible ProfileState :=
  p ← expect (ps_profiles st !! profile);
  contract_profiles ← expect (store (ps_contract_profiles st) contract (Some profile));
  Ok {| ps_buckets := ps_buckets st; ps_profiles := <[profile := add_member p]> (ps_profiles st);
        ps_anchors := ps_anchors st; ps_contract_profiles := contract_profiles |}.

Definition profile_contract (offsets : list nat) (all : list MetadataAnchor) (st : ProfileState) (contract : nat) :
    fallible ProfileState :=
  own ← expect (contract_anchors offsets all contract);
  if decide (own = []) then Ok st else
  existing ← expect (existing_profile st own);
  match existing with
  | Some profile => assign_profile st contract profile
  | None =>
      check_capacity (length (ps_profiles st) + 1);;
      assign_profile (new_profile st own) contract (length (ps_profiles st))
  end.

(** The members of a profile start where those of the one before end. *)
Fixpoint place_members (cursor : nat) (profiles : list MetadataProfile) : list MetadataProfile * nat :=
  match profiles with
  | [] => ([], cursor)
  | p :: profiles =>
      let '(rest, end_) := place_members (cursor + member_len p) profiles in
      ({| anchor_start := anchor_start p; anchor_len := anchor_len p; member_start := cursor;
          member_len := member_len p |} :: rest, end_)
  end.

Definition set_profile (record : ContractRecord) (profile : nat) (index_shards : Z) : ContractRecord :=
  {| record_chain := record_chain record; record_address := record_address record;
     record_nft_count := record_nft_count record; name_value_id := name_value_id record;
     metadata_profile_id := Some (Z.of_nat profile); name_owner_shard := name_owner_shard record;
     metadata_owner_shard := Some (shard_byte profile index_shards) |}.

(** The next free slot of the profile of a contract. *)
Definition fill_member (index_shards : Z) (acc : list nat * list nat * list ContractRecord)
    (entry : nat * option nat) : fallible (list nat * list nat * list ContractRecord) :=
  let '(members, cursors, records) := acc in
  match entry.2 with
  | None => Ok acc
  | Some profile =>
      slot ← expect (cursors !! profile);
      members ← expect (store members slot entry.1);
      record ← expect (records !! entry.1);
      Ok (members, <[profile := slot + 1]> cursors, <[entry.1 := set_profile record profile index_shards]> records)
  end.

(** Profiles, their anchors, their members, the profile of every contract, and the records. *)
Definition build_profiles (offsets : list nat) (all : list MetadataAnchor) (records : list ContractRecord)
    (index_shards : Z) :
    fallible (list MetadataProfile * list MetadataAnchor * list nat * list (option nat) * list ContractRecord) :=
  st ← loop (profile_contract offsets all)
         {| ps_buckets := ∅; ps_profiles := []; ps_anchors := [];
            ps_contract_profiles := replicate (length records) None |} (seq 0 (length records));
  let '(placed, end_) := place_members 0 (ps_profiles st) in
  '(members, _, records) ←
    loop (fill_member index_shards) (replicate end_ 0, member_start <$> placed, records)
      (imap pair (ps_contract_profiles st));
  Ok (placed, ps_anchors st, members, ps_contract_profiles st, records).

(** ** The store of a builder *)

Definition identity_of (contract : nat) (row : CompactRow) : NftIdentityRecord :=
  {| contract_id := contract; nft_token_id := token_id_id row |}.

Definition features_of (row : CompactRow) : UriFeatureRecord :=
  {| token_uri := token_uri_id row; image_uri := image_uri_id row |}.

Definition finish_nfts (b : ResidentBuilder)
    (acc : list NftIdentityRecord * list UriFeatureRecord * list nat) (entry : nat * (nat * nat)) :
    fallible (list NftIdentityRecord * list UriFeatureRecord * list nat) :=
  let '(nfts, features, offsets) := acc in
  rows ← expect (slice (logical_rows b) entry.2.1 entry.2.2);
  let nfts := nfts ++ (identity_of entry.1 <$> rows) in
  Ok (nfts, features ++ (features_of <$> rows), offsets ++ [length nfts]).

Definition finish_prepared (b : ResidentBuilder) (index_shards : Z) : fallible ResidentBaseStore :=
  st ← loop (finish_contract b index_shards) start_finish (contract_ranges b);
  '(tokens, all) ← loop (renumber_contract b st) (default_interner, []) (seq 0 (length (fs_contracts st)));
  '(profiles, profile_anchors, members, contract_profiles, records) ←
    build_profiles (fs_anchor_offsets st) all (fs_contracts st) index_shards;
  '(nfts, features, offsets) ← loop (finish_nfts b) ([], [], [0]) (imap pair (contract_ranges b));
  Ok {| contracts := records;
        uri_identity := Some {| identity_token_ids := freeze (token_ids b); nfts := nfts; contract_offsets := offsets |};
        uri_features := Some {| uri_values := freeze (uris b); features := features |};
        name_features := Some {| name_values := freeze (fs_names st); contract_names := fs_contract_names st |};
        metadata_features :=
          Some {| anchor_tokens := freeze tokens; documents := freeze (fs_documents st); anchors := profile_anchors;
                  profile_members := members; profiles := profiles; contract_profiles := contract_profiles |};
        store_quality := quality b |}.

Definition finish `{ParallelSort} (b : ResidentBuilder) (anchor_count : nat) (index_shards : Z) :
    fallible ResidentBaseStore :=
  b ← (if bool_decide (contract_ranges b = []) && negb (bool_decide (logical_rows b = []))
       then prepare_metadata b anchor_count else Ok b);
  finish_prepared b index_shards.
End Finishing.
