(* ===== verification/ResidentLoad.v ===== *)
(** Loading the resident store (A/input/parquet.rs): batches of rows go to the builders of
    their owner shards, and the builders are merged into the largest. The hash of an owner
    and the sizes of builders are parameters; decoding files is not modelled. *)

From S2P Require Import Prelude Text CanonicalJson Anchors SortedLists Events ValuePools.
From S2P Require Import Fallible AnalysisJson Builder Resident.

Section Loading.
Context (stable_hash : list N → N) (owner_hash : ChainId → str → Z) (estimate : ResidentBuilder → Z) `{JsonLibrary}.

(** [input_owner_shard]: the hasher reads the chain and the normalized address. *)
Definition input_owner_shard (chain : ChainId) (address : str) (shard_count : nat) : nat :=
  Z.to_nat (Z.land (owner_hash chain (normal_address chain address)) (Z.of_nat shard_count - 1)).

(** The rows of a batch for every shard, in their order. *)
Definition shard_rows (shard_count : nat) (batch : list InputRow) : list (list InputRow) :=
  (λ shard, filter (λ row, input_owner_shard (input_chain row) (contract_address row) shard_count = shard) batch)
    <$> seq 0 shard_count.

Definition push_shard (builders : list ResidentBuilder) (entry : nat * list InputRow) : fallible (list ResidentBuilder) :=
  match entry.2 with
  | [] => Ok builders
  | rows =>
      b ← expect (builders !! entry.1);
      b ← loop (push stable_hash) b rows;
      Ok (<[entry.1 := b]> builders)
  end.

(** The rows of a batch with their shards. *)
Definition batch_entries (shard_count : nat) (batch : list InputRow) : list (nat * list InputRow) :=
  imap pair (shard_rows shard_count batch).

(** [decode_batch_into_resident]: the builder of a shard is locked for its rows. *)
Definition decode_batch (builders : list ResidentBuilder) (batch : list InputRow) : fallible (list ResidentBuilder) :=
  loop push_shard builders (batch_entries (length builders) batch).

(** ** Merging *)

(** [Vec::swap_remove] *)
Definition swap_remove {A} (l : list A) (i : nat) : option (A * list A) :=
  x ← l !! i;
  final ← last l;
  Some (x, take (length l - 1) (<[i := final]> l)).

(** The index of the first greatest estimate; 0 when all are 0. *)
Definition largest_builder (estimates : list Z) : nat :=
  (foldl (λ (largest : nat * Z) (e : nat * Z), if (largest.2 <? e.2)%Z then e else largest) (0, 0%Z)
     (imap pair estimates)).1.

Definition merge_builders (builders : list ResidentBuilder) : fallible ResidentBuilder :=
  '(root, rest) ← expect (swap_remove builders (largest_builder (estimate <$> builders)));
  loop (merge_from stable_hash) root rest.

(** The first pass: [scan_files] and the merging of the builders. Workers decode batches at
    once and take the locks of shards one after another: a schedule lists the rows of
    batches and shards in the order of the locks. *)
Definition load_rows (index_shards : nat) (schedule : list (nat * list InputRow)) : fallible ResidentBuilder :=
  builders ← loop push_shard (replicate index_shards default_builder) schedule;
  merge_builders builders.

(** A batch of the second pass: its file, the number of its first row, its documents. *)
Abbreviation MetadataBatch := (nat * Z * list (option str))%type.

Definition attach_batch (b : ResidentBuilder) (batch : MetadataBatch) : fallible ResidentBuilder :=
  let '(file, row_start, raws) := batch in attach_metadata_batch stable_hash b file row_start raws.

(** [load_resident_store], with the rows and the batches of documents that the workers read. *)
Definition load_resident_store `{ParallelSort} (iterate : gmap nat Z → list (nat * Z)) (sip_hash : list nat → N)
    (lane_count anchor_count index_shards : nat) (schedule : list (nat * list InputRow)) (documents : list MetadataBatch) :
    fallible ResidentBaseStore :=
  resident ← load_rows index_shards schedule;
  resident ← prepare_metadata_numa lane_count resident anchor_count;
  resident ← loop attach_batch resident documents;
  finish iterate stable_hash sip_hash (release_metadata_source_lookup resident) anchor_count (Z.of_nat index_shards).
End Loading.
