(* ===== verification/AnchorRows.v ===== *)
(** Proofs about the metadata of anchor rows in [Builder]: whatever the order in which
    documents arrive, a contract keeps those of its first rows that have one, each with the
    document of its first source. *)

From S2P Require Import Prelude Text CanonicalJson Anchors SortedLists Events ValuePools.
From S2P Require Import Fallible AnalysisJson Builder.

(** ** Slots *)

(** The eight slots of a contract with some anchors. *)
Definition padded (used : list nat) : list (option nat) := (λ j, used !! j) <$> seq 0 8.

Lemma lookup_padded used j : padded used !! j = if decide (j < 8) then Some (used !! j) else None.
Proof.
  unfold padded. rewrite list_lookup_fmap. case_decide.
  - by rewrite lookup_seq_lt by lia.
  - by rewrite lookup_seq_ge by lia.
Qed.

Lemma length_padded used : length (padded used) = 8.
Proof. unfold padded. by rewrite length_fmap, length_seq. Qed.

Lemma padded_nil : padded [] = EMPTY_SLOTS.
Proof. reflexivity. Qed.

Lemma taken_some (used : list nat) slots : taken ((Some <$> used) ++ None :: slots) = used.
Proof. induction used; cbn; [done|]. by f_equal. Qed.

Lemma taken_all (used : list nat) : taken (Some <$> used) = used.
Proof. induction used; cbn; [done|]. by f_equal. Qed.

Lemma taken_padded used k : length used ≤ k ≤ 8 → taken (take k (padded used)) = used.
Proof.
  intros Hk. assert (take k (padded used) = (Some <$> used) ++ replicate (k - length used) None) as ->.
  { apply list_eq. intros j. destruct (decide (j < k)).
    - rewrite lookup_take_lt, lookup_padded, decide_True by lia. destruct (used !! j) as [v|] eqn:E.
      + symmetry. apply lookup_app_l_Some. by rewrite list_lookup_fmap, E.
      + apply lookup_ge_None in E. rewrite lookup_app_r by (rewrite length_fmap; lia).
        rewrite length_fmap. symmetry. apply lookup_replicate_2. lia.
    - rewrite lookup_take_ge by lia. symmetry. apply lookup_ge_None.
      rewrite length_app, length_fmap, length_replicate. lia. }
  destruct (k - length used) as [|n]; cbn; [by rewrite app_nil_r, taken_all|]. apply taken_some.
Qed.

Lemma shift_slots_spec slots position n :
  position + n < length slots →
  ∃ slots', shift_slots slots position (position + n) = Ok slots' ∧
    ∀ j, slots' !! j = if decide (position < j ≤ position + n) then slots !! (j - 1) else slots !! j.
Proof.
  unfold shift_slots. replace (position + n - position) with n by lia.
  revert slots. induction n as [|n IH]; intros slots Hlen.
  - exists slots. split; [done|]. intros j. by rewrite decide_False by lia.
  - rewrite seq_S, reverse_snoc. cbn [loop].
    destruct (lookup_lt_is_Some_2 slots (position + n)) as [v Hv]; [lia|].
    rewrite Hv. cbn [expect mbind fallible_bind].
    rewrite store_Some by lia. cbn [expect mbind fallible_bind].
    destruct (IH (<[position + n + 1 := v]> slots)) as (slots' & -> & Hs); [rewrite length_insert; lia|].
    exists slots'. split; [done|]. intros j. rewrite Hs. repeat case_decide; try lia.
    + rewrite list_lookup_insert_ne by lia. done.
    + destruct (decide (j = position + n + 1)) as [->|].
      * rewrite list_lookup_insert_eq by lia. rewrite <- Hv. f_equal. lia.
      * lia.
    + rewrite list_lookup_insert_ne by lia. done.
Qed.

(** The slots after an insertion: the anchors with the new one, up to the limit. *)
Lemma insert_slots used i position k :
  length used ≤ k ≤ 8 → position ≤ length used → position < k →
  ∃ slots, shift_slots (padded used) position (length used `min` (k - 1)) = Ok slots ∧
    store slots position (Some i) = Some (padded (take k (take position used ++ i :: drop position used))).
Proof.
  intros Hk Hp Hpk. set (n := length used `min` (k - 1) - position).
  destruct (shift_slots_spec (padded used) position n) as (slots & Hs & Hl); [rewrite length_padded; lia|].
  replace (position + n) with (length used `min` (k - 1)) in * by lia.
  exists slots. split; [done|].
  assert (Hlen : length slots = 8).
  { assert (∀ j, is_Some (slots !! j) ↔ j < 8) as H.
    { intros j. rewrite Hl, <- (length_padded used). case_decide; [|apply lookup_lt_is_Some].
      rewrite lookup_lt_is_Some, length_padded. lia. }
    setoid_rewrite lookup_lt_is_Some in H. pose proof (H 8). pose proof (H 7). lia. }
  rewrite store_Some by lia. f_equal. apply list_eq. intros j. rewrite lookup_padded.
  destruct (decide (j < 8)) as [Hj|Hj]; [|apply lookup_ge_None; rewrite length_insert; lia].
  destruct (decide (j = position)) as [->|Hne].
  - rewrite list_lookup_insert_eq by lia. rewrite lookup_take_lt by lia.
    rewrite list_lookup_middle; [done|]. rewrite length_take. lia.
  - rewrite list_lookup_insert_ne by done. rewrite Hl, !lookup_padded.
    rewrite (decide_True (P := j < 8)) by done. destruct (decide (j < k)) as [Hjk|Hjk].
    + rewrite lookup_take_lt by done. destruct (decide (j < position)).
      * rewrite decide_False by lia. rewrite lookup_app_l by (rewrite length_take; lia). by rewrite lookup_take_lt.
      * rewrite lookup_app_r by (rewrite length_take; lia). rewrite length_take, (Nat.min_l position (length used)) by done.
        replace (j - position) with (S (j - position - 1)) by lia.
        change ((i :: drop position used) !! S ?m) with (drop position used !! m). rewrite lookup_drop.
        replace (position + (j - position - 1)) with (j - 1) by lia. case_decide.
        -- by rewrite decide_True by lia.
        -- f_equal. rewrite (proj2 (lookup_ge_None used j)), (proj2 (lookup_ge_None used (j - 1))) by lia. done.
    + rewrite lookup_take_ge by lia. rewrite decide_False by lia. f_equal. apply lookup_ge_None. lia.
Qed.

(** ** The first rows of a contract *)

(** Rows with a document: the first source of each, and its text. *)
Abbreviation Offers := (gmap nat (SourceOrder * str)).

(** One more document for a row. *)
Definition offer (m : Offers) (row : nat) (s : SourceOrder) (text : str) : Offers :=
  match m !! row with
  | Some (first, _) => if source_le first s then m else <[row := (s, text)]> m
  | None => <[row := (s, text)]> m
  end.

(** The first rows of a range that have a document. *)
Definition first_rows (k : nat) (m : Offers) (range : nat * nat) : list nat :=
  take k (filter (λ row, is_Some (m !! row)) (seq range.1 (range.2 - range.1))).

Lemma offer_dom m row s text i : is_Some (offer m row s text !! i) ↔ is_Some (m !! i) ∨ i = row.
Proof.
  unfold offer. destruct (decide (i = row)) as [->|Hne].
  - split; [by right|intros _]. destruct (m !! row) as [[first t]|] eqn:E.
    + destruct (source_le first s); [by rewrite E|]. by rewrite lookup_insert_eq.
    + by rewrite lookup_insert_eq.
  - assert (offer m row s text !! i = m !! i) as H.
    { unfold offer. destruct (m !! row) as [[first t]|]; [destruct (source_le first s); [done|]|];
        by rewrite lookup_insert_ne. }
    unfold offer in H. rewrite H. naive_solver.
Qed.

Lemma offer_other m row s text i : i ≠ row → offer m row s text !! i = m !! i.
Proof.
  intros Hne. unfold offer. destruct (m !! row) as [[first t]|]; [destruct (source_le first s); [done|]|];
    by rewrite lookup_insert_ne.
Qed.

Lemma filter_dom_ext {A} (P Q : A → Prop) `{∀ x, Decision (P x), ∀ x, Decision (Q x)} (l : list A) :
  (∀ x, x ∈ l → P x ↔ Q x) → filter P l = filter Q l.
Proof.
  induction l as [|x l IH]; intros Hpq; [done|]. rewrite !filter_cons.
  rewrite (decide_ext (P x) (Q x)) by (apply Hpq; by left). case_decide; f_equal; apply IH; intros; apply Hpq; by right.
Qed.

(** A row that already has a document, or one outside the range, changes nothing. *)
Lemma first_rows_same k m range row s text :
  is_Some (m !! row) ∨ row < range.1 ∨ range.2 ≤ row →
  first_rows k (offer m row s text) range = first_rows k m range.
Proof.
  intros Hrow. unfold first_rows. f_equal. apply filter_dom_ext. intros x Hx. rewrite offer_dom.
  apply elem_of_seq in Hx. naive_solver lia.
Qed.

Section Split.
Context (k : nat) (m : Offers) (range : nat * nat) (row : nat).
Context (Hrow : range.1 ≤ row < range.2) (Hnew : m !! row = None).

Definition rows_before : list nat := filter (λ i, is_Some (m !! i)) (seq range.1 (row - range.1)).
Definition rows_after : list nat := filter (λ i, is_Some (m !! i)) (seq (S row) (range.2 - S row)).

Lemma seq_split : seq range.1 (range.2 - range.1) = seq range.1 (row - range.1) ++ row :: seq (S row) (range.2 - S row).
Proof.
  replace (range.2 - range.1) with ((row - range.1) + S (range.2 - S row)) by lia.
  rewrite seq_app. f_equal. cbn. f_equal; [lia|]. f_equal. lia.
Qed.

Lemma first_rows_old : first_rows k m range = take k (rows_before ++ rows_after).
Proof.
  unfold first_rows, rows_before, rows_after. rewrite seq_split, filter_app, filter_cons.
  by rewrite decide_False by (rewrite Hnew; by intros [? [=]]).
Qed.

Lemma first_rows_new s text : first_rows k (offer m row s text) range = take k (rows_before ++ row :: rows_after).
Proof.
  unfold first_rows, rows_before, rows_after. rewrite seq_split, filter_app, filter_cons.
  rewrite decide_True by (rewrite offer_dom; by right). f_equal. f_equal; [|f_equal];
    apply filter_dom_ext; intros x Hx; rewrite offer_dom; apply elem_of_seq in Hx; naive_solver lia.
Qed.

Lemma rows_before_lt i : i ∈ rows_before → i < row.
Proof. clear Hrow Hnew. intros [_ Hi%elem_of_seq]%list_elem_of_filter. lia. Qed.

Lemma rows_after_gt i : i ∈ rows_after → row < i.
Proof. clear Hrow Hnew. intros [_ Hi%elem_of_seq]%list_elem_of_filter. lia. Qed.
End Split.

Lemma first_rows_length k m range : length (first_rows k m range) ≤ k.
Proof. unfold first_rows. rewrite length_take. lia. Qed.

Lemma first_rows_elem k m range i :
  i ∈ first_rows k m range → is_Some (m !! i) ∧ range.1 ≤ i < range.2.
Proof.
  unfold first_rows. intros Hi. apply (subseteq_take k) in Hi. apply list_elem_of_filter in Hi as [Hd Hi].
  apply elem_of_seq in Hi. split; [done|lia].
Qed.

Lemma first_rows_sorted k m range : StronglySorted lt (first_rows k m range).
Proof.
  assert (Hseq : ∀ s n, StronglySorted lt (seq s n)).
  { intros s n. revert s. induction n as [|n IH]; intros s; cbn; constructor; [done|].
    apply Forall_forall. intros x Hx%elem_of_seq. lia. }
  assert (Htake : ∀ (l : list nat), StronglySorted lt l → StronglySorted lt (take k l)).
  { intros l Hl. rewrite <- (take_drop k l) in Hl. by apply StronglySorted_app_1_l in Hl. }
  apply Htake. induction (Hseq range.1 (range.2 - range.1)) as [|x l Hl IH Hx]; [constructor|].
  rewrite filter_cons. case_decide; [|done]. constructor; [done|].
  apply Forall_forall. intros y [_ Hy]%list_elem_of_filter. rewrite Forall_forall in Hx. auto.
Qed.

(** ** The layout of a prepared builder *)

Definition skeleton (row : CompactRow) : CompactRow := set_metadata row None None.

(** The range of rows of a contract. *)
Abbreviation range_of b c := (contract_ranges b !! c).
Definition in_range (b : ResidentBuilder) (c row : nat) : Prop :=
  ∃ range, range_of b c = Some range ∧ range.1 ≤ row < range.2.

Definition chain_of_row (b : ResidentBuilder) (row : nat) : option ChainId := row_chain <$> logical_rows b !! row.

Record layout (b : ResidentBuilder) : Prop := {
  layout_count : 1 ≤ metadata_anchor_count b ≤ 8;
  layout_contract row : row < length (logical_rows b) →
    ∃ c, metadata_row_contracts b !! row = Some (Some c) ∧ in_range b c row;
  layout_disjoint c1 c2 row : in_range b c1 row → in_range b c2 row → c1 = c2;
  layout_bound c row : in_range b c row → row < length (logical_rows b);
  layout_rank c row1 row2 : in_range b c row1 → in_range b c row2 →
    ∃ chain r1 r2, chain_of_row b row1 = Some chain ∧ rank_of_row b chain row1 = Some r1 ∧
      rank_of_row b chain row2 = Some r2 ∧ ((r1 < r2)%Z ↔ row1 < row2);
  layout_source s row : source_slot (metadata_source_rows b) s = Some (Some row) → row < length (logical_rows b);
}.

(** ** Refusing and accepting a row *)

Section Accept.
Context (k : nat) (m : Offers) (range : nat * nat) (row : nat) (s : SourceOrder) (text : str).
Context (Hk : 1 ≤ k) (Hrow : range.1 ≤ row < range.2).
Abbreviation used := (first_rows k m range) (only parsing).

Lemma sorted_last_le l w : StronglySorted lt l → last l = Some w → ∀ i : nat, i ∈ l → i ≤ w.
Proof.
  intros Hl [l' ->]%last_Some i Hi. apply elem_of_app in Hi as [Hi|Hi]; [|by apply list_elem_of_singleton in Hi; lia].
  apply Nat.lt_le_incl. eapply (StronglySorted_app_1_elem_of lt); [done|done|by left].
Qed.

Lemma refuse_rows w :
  length used = k → last used = Some w → w < row →
  row ∉ used ∧ first_rows k (offer m row s text) range = used.
Proof.
  intros Hlen Hw Hlt. split.
  { intros Hin. pose proof (sorted_last_le _ _ (first_rows_sorted k m range) Hw _ Hin). lia. }
  destruct (m !! row) as [p|] eqn:E; [apply first_rows_same; left; by rewrite E|].
  rewrite (first_rows_new _ _ _ _ Hrow). rewrite (first_rows_old _ _ _ _ Hrow E) in *.
  destruct (decide (k ≤ length (rows_before m range row))) as [Hle|Hgt].
  - by rewrite !take_app_le by done.
  - exfalso. rewrite take_app_ge in Hw, Hlen by lia. rewrite last_app in Hw.
    destruct (last (take _ (rows_after m range row))) as [x|] eqn:Ex.
    + simplify_eq. apply last_Some_elem_of, (subseteq_take _), rows_after_gt in Ex. lia.
    + apply last_None in Ex. rewrite Ex, length_app in Hlen. cbn in Hlen. lia.
Qed.

Lemma accept_rows :
  row ∉ used → (∀ w, length used = k → last used = Some w → row < w) →
  m !! row = None ∧
  ∃ before rest, used = before ++ rest ∧ (∀ i, i ∈ before → i < row) ∧ (∀ i, i ∈ rest → row < i) ∧
    length before < k ∧ first_rows k (offer m row s text) range = take k (before ++ row :: rest).
Proof.
  intros Hnot Hacc.
  assert (Hnew : m !! row = None).
  { destruct (m !! row) as [p|] eqn:E; [|done]. exfalso. apply Hnot. unfold first_rows.
    set (F := filter (λ row, is_Some (m !! row)) (seq range.1 (range.2 - range.1))).
    assert (HF : row ∈ F).
    { apply list_elem_of_filter. rewrite E. split; [done|]. apply elem_of_seq. lia. }
    assert (HS : StronglySorted lt F).
    { pose proof (first_rows_sorted (length F) m range) as H. unfold first_rows in H. by rewrite take_ge in H. }
    rewrite <- (take_drop k F) in HF, HS. apply elem_of_app in HF as [HF|HF]; [done|].
    assert (Hlen : length used = k).
    { unfold first_rows. fold F. rewrite length_take. destruct (decide (length F ≤ k)); [|lia].
      rewrite drop_ge in HF by done. by apply elem_of_nil in HF. }
    destruct (last used) as [w|] eqn:Ew; [|apply last_None in Ew; rewrite Ew in Hlen; cbn in Hlen; lia].
    pose proof (Hacc w Hlen eq_refl). apply last_Some_elem_of in Ew.
    pose proof (StronglySorted_app_1_elem_of lt _ _ _ _ HS Ew HF). lia. }
  split; [done|]. pose proof (first_rows_old k m range row Hrow Hnew) as Hold.
  pose proof (first_rows_new k m range row Hrow s text) as Hnew'.
  set (before := rows_before m range row) in *. set (after := rows_after m range row) in *.
  assert (Hb : length before < k).
  { destruct (decide (k ≤ length before)) as [Hle|]; [|lia]. exfalso.
    rewrite take_app_le in Hold by done.
    destruct (last used) as [w|] eqn:Ew.
    - assert (length used = k) as Hlen by (rewrite Hold, length_take; lia).
      pose proof (Hacc w Hlen eq_refl). apply last_Some_elem_of in Ew. rewrite Hold in Ew.
      apply (subseteq_take k), rows_before_lt in Ew. lia.
    - apply last_None in Ew. rewrite Hold in Ew. apply (f_equal length) in Ew. rewrite length_take in Ew. cbn in Ew. lia. }
  exists before, (take (k - length before) after). rewrite Hold, take_app_ge by lia. split; [done|].
  split; [apply rows_before_lt|]. split; [intros i Hi%(subseteq_take _); by eapply rows_after_gt|].
  split; [done|]. rewrite Hnew', !take_app_ge by lia. f_equal.
  destruct (k - length before) as [|n] eqn:En; [lia|]. cbn. f_equal. rewrite take_take. f_equal. lia.
Qed.

(** The anchors after an accepted row: one more, and without the last when full. *)
Lemma accepted_elem (before rest : list nat) i :
  length before < k → length (before ++ rest) ≤ k → (∀ j, j ∈ before → j < row) → (∀ j, j ∈ rest → row < j) →
  StronglySorted lt (before ++ rest) →
  i ∈ take k (before ++ row :: rest) ↔
    i = row ∨ (i ∈ before ++ rest ∧ ¬ (length (before ++ rest) = k ∧ last (before ++ rest) = Some i)).
Proof.
  intros Hb Hlen Hlo Hhi HS. rewrite length_app in *.
  destruct (decide (length before + length rest = k)) as [Hfull|Hnot].
  - destruct rest as [|x rest _] using rev_ind; [cbn in Hfull; lia|].
    rewrite length_app in Hfull. cbn in Hfull. rewrite take_app_ge by lia.
    replace (k - length before) with (S (length rest)) by lia. cbn [firstn].
    rewrite take_app_length. rewrite (assoc_L (++)), last_snoc, !elem_of_app, (elem_of_cons rest), list_elem_of_singleton.
    assert (x ∉ before ++ rest) as Hx.
    { rewrite (assoc_L (++)) in HS. intros Hin.
      pose proof (StronglySorted_app_1_elem_of lt _ _ x x HS Hin ltac:(by left)). lia. }
    rewrite elem_of_app in Hx. split.
    + intros [Hi|[Hi|Hi]]; [right|by left|right]; (split; [tauto|]; intros [_ Hx']; simplify_eq; tauto).
    + intros [Hi|[[[Hi|Hi]|Hi] Hn]]; [tauto..|]. subst. exfalso. apply Hn. split; [|done]. rewrite length_app. cbn. lia.
  - rewrite take_ge by (rewrite length_app; cbn; lia). rewrite !elem_of_app, elem_of_cons. naive_solver lia.
Qed.
End Accept.

(** ** Builders that differ in their metadata *)

(** The same rows but for their metadata. *)
Definition same_layout (b b' : ResidentBuilder) : Prop :=
  ∃ rows anchors pool q, b' = with_metadata b rows anchors pool q ∧
    skeleton <$> rows = skeleton <$> logical_rows b.

Lemma with_metadata_id b : with_metadata b (logical_rows b) (metadata_anchor_rows b) (metadata b) (quality b) = b.
Proof. by destruct b. Qed.

Lemma same_layout_refl b : same_layout b b.
Proof. eexists _, _, _, _. by rewrite with_metadata_id. Qed.

Lemma same_layout_trans b1 b2 b3 : same_layout b1 b2 → same_layout b2 b3 → same_layout b1 b3.
Proof.
  intros (rows & anchors & pool & q & -> & H1) (rows' & anchors' & pool' & q' & -> & H2).
  exists rows', anchors', pool', q'. split; [done|]. by rewrite H2.
Qed.

Lemma skeleton_lookup (rows1 rows2 : list CompactRow) (i : nat) :
  skeleton <$> rows1 = skeleton <$> rows2 → skeleton <$> rows1 !! i = skeleton <$> rows2 !! i.
Proof. intros H. apply (f_equal (lookup i)) in H. by rewrite !list_lookup_fmap in H. Qed.

Lemma chain_of_row_skeleton b i : chain_of_row b i = row_chain <$> (skeleton <$> logical_rows b !! i).
Proof. unfold chain_of_row. by destruct (logical_rows b !! i). Qed.

Lemma rank_of_row_skeleton b chain i :
  rank_of_row b chain i = (r ← skeleton <$> logical_rows b !! i; token_rank b chain (token_id_id r)).
Proof. unfold rank_of_row. by destruct (logical_rows b !! i). Qed.

Lemma same_layout_layout b b' : same_layout b b' → layout b → layout b'.
Proof.
  intros (rows & anchors & pool & q & -> & H) [L1 L2 L3 L4 L5 L6].
  assert (Hlen : length rows = length (logical_rows b)).
  { apply (f_equal length) in H. by rewrite !length_fmap in H. }
  split; try done; cbn [logical_rows with_metadata]; rewrite ?Hlen; try done.
  intros c r1 r2 H1 H2. destruct (L5 c r1 r2 H1 H2) as (chain & k1 & k2 & E).
  exists chain, k1, k2. rewrite chain_of_row_skeleton, !rank_of_row_skeleton in *.
  cbn [logical_rows with_metadata]. by rewrite !(skeleton_lookup _ _ _ H).
Qed.

Lemma skeleton_insert (rows : list CompactRow) (i : nat) r r' :
  rows !! i = Some r → skeleton r' = skeleton r → skeleton <$> <[i := r']> rows = skeleton <$> rows.
Proof.
  intros Hi Hr. rewrite list_fmap_insert, Hr. apply list_insert_id. by rewrite list_lookup_fmap, Hi.
Qed.

(** ** Documents attached *)

Section Attached.
Context (stable_hash : list N → N).

(** What is known of a row of a contract when the rows [m] have been offered documents. *)
Definition row_attached (texts : list str) (m : Offers) (anchor : Prop) (i : nat) (r : CompactRow) : Prop :=
  (anchor → ∃ s text id, m !! i = Some (s, text) ∧ metadata_source r = Some s ∧
     metadata_id r = Some id ∧ texts !! id = Some text) ∧
  (¬ anchor → metadata_id r = None ∧ (m !! i = None → metadata_source r = None)).

Record attached (b : ResidentBuilder) (m : Offers) (texts : list str) : Prop := {
  attached_pool : pool_holds stable_hash (metadata b) texts;
  attached_slots c range : range_of b c = Some range →
    metadata_anchor_rows b !! c = Some (padded (first_rows (metadata_anchor_count b) m range));
  attached_rows c range i r : range_of b c = Some range → range.1 ≤ i < range.2 → logical_rows b !! i = Some r →
    row_attached texts m (i ∈ first_rows (metadata_anchor_count b) m range) i r;
}.

Section Step.
Context (b : ResidentBuilder) (m : Offers) (texts : list str) (c row : nat) (range : nat * nat).
Context (Hlayout : layout b) (Hb : attached b m texts).
Context (Hrange : range_of b c = Some range) (Hrow : range.1 ≤ row < range.2).
Abbreviation K := (metadata_anchor_count b).

(** Other contracts are not concerned. *)
Lemma other_contract s text c' range' :
  c' ≠ c → range_of b c' = Some range' → first_rows K (offer m row s text) range' = first_rows K m range'.
Proof.
  intros Hne Hr'. apply first_rows_same. right.
  destruct (decide (row < range'.1)); [by left|]. destruct (decide (range'.2 ≤ row)); [by right|].
  exfalso. apply Hne. eapply layout_disjoint; [done|exists range'; split; [done|]|exists range; done]. lia.
Qed.

(** An offer that leaves the anchors alone, and with them every row but this one. *)
Lemma attached_same_rows s text texts' rows' pool' q' :
  first_rows K (offer m row s text) range = first_rows K m range →
  pool_holds stable_hash pool' texts' → texts `prefix_of` texts' →
  (∀ i, i ≠ row → rows' !! i = logical_rows b !! i) →
  (∀ r, rows' !! row = Some r → row_attached texts' (offer m row s text) (row ∈ first_rows K m range) row r) →
  attached (with_metadata b rows' (metadata_anchor_rows b) pool' q') (offer m row s text) texts'.
Proof.
  intros Hfirst Hpool Hpre Hother Hown.
  assert (Hsame : ∀ c' range', range_of b c' = Some range' →
    first_rows K (offer m row s text) range' = first_rows K m range').
  { intros c' range' Hr'. destruct (decide (c' = c)) as [->|]; [by simplify_eq|by eapply other_contract]. }
  split; cbn [with_metadata metadata contract_ranges metadata_anchor_rows metadata_anchor_count logical_rows]; [done| |].
  - intros c' range' Hr'. rewrite (Hsame c') by done. by eapply attached_slots.
  - intros c' range' i r Hr' Hi Hlook. rewrite (Hsame c') by done. destruct (decide (i = row)) as [->|Hne].
    + assert (c' = c) as ->. { eapply layout_disjoint; [done|by exists range'|by exists range]. }
      simplify_eq. by apply Hown.
    + rewrite Hother in Hlook by done. destruct (attached_rows b m texts Hb c' range' i r Hr' Hi Hlook) as [H1 H2].
      unfold row_attached. rewrite offer_other by done. split; [|done]. intros Hin.
      destruct (H1 Hin) as (s' & t & id & ? & ? & ? & Ht). exists s', t, id. split_and!; try done.
      by eapply prefix_lookup_Some.
Qed.

(** The ranks of the rows of a contract are in the order of the rows. *)
Lemma rank_order i chain rank :
  range.1 ≤ i < range.2 → chain_of_row b row = Some chain → rank_of_row b chain row = Some rank →
  ∃ rank', rank_of_row b chain i = Some rank' ∧ ((rank < rank')%Z ↔ row < i).
Proof.
  intros Hi Hchain Hrank.
  destruct (layout_rank b Hlayout c row i) as (chain' & r1 & r2 & H1 & H2 & H3 & H4); [by exists range..|].
  simplify_eq. eauto.
Qed.

Lemma position_by_rank_spec chain rank before rest :
  chain_of_row b row = Some chain → rank_of_row b chain row = Some rank →
  (∀ i, i ∈ before ++ rest → range.1 ≤ i < range.2) →
  (∀ i, i ∈ before → i < row) → (∀ i, i ∈ rest → row < i) →
  position_by_rank b chain rank (before ++ rest) = Ok (length before).
Proof.
  intros Hchain Hrank Hin Hlo Hhi. induction before as [|x before IH]; cbn [app position_by_rank length].
  - destruct rest as [|x rest]; [done|]. cbn.
    destruct (rank_order x chain rank) as (rx & -> & Hlt); [apply Hin; by left|done..|]. cbn.
    assert (row < x) by (apply Hhi; by left). by destruct (Z.ltb_spec rank rx); [|lia].
  - destruct (rank_order x chain rank) as (rx & -> & Hlt); [apply Hin; by left|done..|]. cbn.
    assert (x < row) by (apply Hlo; by left). destruct (Z.ltb_spec rank rx); [lia|].
    rewrite IH; [done|intros; apply Hin; by right|intros; apply Hlo; by right].
Qed.

(** Interning with room to spare. *)
Lemma interned_spec text :
  valid_str text → (Z.of_nat (length texts) < 2 ^ 32)%Z →
  ∃ pool texts' id, interned stable_hash (metadata b) text = Ok (pool, id) ∧ pool_holds stable_hash pool texts' ∧
    texts `prefix_of` texts' ∧ length texts' ≤ S (length texts) ∧ texts' !! id = Some text.
Proof.
  intros Hv Hroom. pose proof (attached_pool b m texts Hb) as Hp. unfold interned.
  pose proof (intern_holds stable_hash (metadata b) texts Hp text Hv) as Hi.
  destruct (position text texts) as [id|] eqn:E.
  - rewrite Hi. exists (metadata b), texts, id. split_and!; [done..|lia|by apply position_Some].
  - rewrite decide_True in Hi by (unfold pool_fits; rewrite length_app; cbn; lia). destruct Hi as [-> Hi].
    eexists _, (texts ++ [text]), (length texts). split_and!; [done|done|by apply prefix_app_r|rewrite length_app; cbn; lia|].
    by apply list_lookup_middle.
Qed.

Lemma offer_kept s text first t : m !! row = Some (first, t) → source_le first s = true → offer m row s text = m.
Proof. intros Hm Hle. unfold offer. by rewrite Hm, Hle. Qed.

Lemma offer_first s text first t :
  m !! row = Some (first, t) → source_le first s = false → offer m row s text !! row = Some (s, text).
Proof. intros Hm Hle. unfold offer. rewrite Hm, Hle. apply lookup_insert_eq. Qed.

(** A document that comes after one of the same row. *)
Lemma attach_later s text r :
  logical_rows b !! row = Some r → already_from r s = true → attached b (offer m row s text) texts.
Proof.
  intros Hr Hal. unfold already_from in Hal. destruct (metadata_source r) as [existing|] eqn:Hs; [|done].
  destruct (attached_rows b m texts Hb c range row r Hrange Hrow Hr) as [H1 H2].
  destruct (decide (row ∈ first_rows K m range)) as [Hin|Hout].
  - destruct (H1 Hin) as (s' & t & id & Hm & Hs' & _). rewrite Hs in Hs'. simplify_eq.
    by rewrite (offer_kept s text _ _ Hm Hal).
  - destruct (H2 Hout) as [Hid Hnone].
    assert (is_Some (m !! row)) as Hsome by (destruct (m !! row); [done|]; by rewrite Hnone in Hs).
    pose proof (attached_same_rows s text texts (logical_rows b) (metadata b) (quality b)) as H.
    rewrite with_metadata_id in H. apply H; clear H; [by apply first_rows_same; left|apply Hb|done|done|].
    intros r' Hr'. simplify_eq. split; [done|]. intros _. split; [done|]. intros Hn.
    destruct (offer_dom m row s text row) as [_ Ho]. rewrite Hn in Ho. destruct Ho as [? [=]]. by right.
Qed.

Context (chain : ChainId) (rank : Z) (d : MetadataInputDisposition) (s : SourceOrder) (text : str) (r : CompactRow).
Context (Hr : logical_rows b !! row = Some r) (Hchain : row_chain r = chain)
  (Hrank : rank_of_row b chain row = Some rank).
Context (Hvalid : valid_str text) (Hroom : (Z.of_nat (length texts) < 2 ^ 32)%Z).

Abbreviation target :=
  {| target_chain := chain; target_contract := c; target_row_index := row; target_token_rank := rank; disposition := d |}.

Definition same_counts (b1 b2 : ResidentBuilder) : Prop :=
  invalid_metadata (quality b1) = invalid_metadata (quality b2) ∧
  oversized_metadata (quality b1) = oversized_metadata (quality b2).

(** What a step makes of the builder. *)
Definition attach_result (b' : ResidentBuilder) : Prop :=
  ∃ texts', attached b' (offer m row s text) texts' ∧ length texts' ≤ S (length texts) ∧
    same_layout b b' ∧ same_counts b' b.

Lemma attach_result_intro texts' rows' anchors' pool' q' :
  attached (with_metadata b rows' anchors' pool' q') (offer m row s text) texts' →
  length texts' ≤ S (length texts) → skeleton <$> rows' = skeleton <$> logical_rows b →
  invalid_metadata q' = invalid_metadata (quality b) → oversized_metadata q' = oversized_metadata (quality b) →
  attach_result (with_metadata b rows' anchors' pool' q').
Proof. intros. exists texts'. split_and!; [done|done|by eexists _, _, _, _|by split]. Qed.

(** The row has an older document with a later source. *)
Lemma attach_canonical_known existing :
  metadata_source r = Some existing → source_le existing s = false →
  ∃ b', attach_canonical stable_hash b target text s = Ok b' ∧ attach_result b'.
Proof.
  intros Hs Hle. unfold attach_canonical, already_from. cbn [target_row_index]. rewrite Hr. cbn [expect mbind fallible_bind].
  rewrite Hs, Hle. destruct (attached_rows b m texts Hb c range row r Hrange Hrow Hr) as [H1 H2].
  assert (Hsome : is_Some (m !! row)).
  { destruct (decide (row ∈ first_rows K m range)) as [Hin|Hout]; [by apply first_rows_elem in Hin as [? _]|].
    destruct (m !! row); [done|]. destruct (H2 Hout) as [_ Hn]. by rewrite Hn in Hs. }
  assert (Hfirst : first_rows K (offer m row s text) range = first_rows K m range) by (by apply first_rows_same; left).
  destruct (metadata_id r) as [old|] eqn:Hid.
  - assert (row ∈ first_rows K m range) as Hin.
    { destruct (decide (row ∈ first_rows K m range)) as [|Hout]; [done|]. by destruct (H2 Hout) as [? _]. }
    destruct (interned_spec text Hvalid Hroom) as (pool & texts' & id & -> & Hp & Hpre & Hlen & Htext).
    cbn [mbind fallible_bind]. eexists. split; [done|].
    eapply attach_result_intro; [|exact Hlen|by eapply skeleton_insert|done|done].
    apply attached_same_rows; [done|done|done|intros i Hne; by rewrite list_lookup_insert_ne|].
    intros r' Hr'. rewrite list_lookup_insert_eq in Hr' by (by eapply lookup_lt_Some). simplify_eq.
    split; [|done]. intros _. exists s, text, id. split_and!; [|done..].
    destruct (H1 Hin) as (s' & t & ? & Hm & Hs' & _). rewrite Hs in Hs'. simplify_eq. by eapply offer_first.
  - assert (row ∉ first_rows K m range) as Hout.
    { intros Hin. destruct (H1 Hin) as (? & ? & ? & _ & _ & ? & _). done. }
    eexists. split; [done|].
    eapply (attach_result_intro texts); [|lia|by eapply skeleton_insert|done|done].
    apply attached_same_rows; [done|apply Hb|done|intros i Hne; by rewrite list_lookup_insert_ne|].
    intros r' Hr'. rewrite list_lookup_insert_eq in Hr' by (by eapply lookup_lt_Some). simplify_eq.
    split; [done|]. intros _. split; [done|]. intros Hn.
    destruct (offer_dom m row s text row) as [_ Ho]. rewrite Hn in Ho. destruct Ho as [? [=]]. by right.
Qed.

(** The anchors of the contract as the slots hold them. *)
Lemma used_slots_spec : used_slots b (padded (first_rows K m range)) = first_rows K m range.
Proof.
  clear -Hlayout. unfold used_slots. apply taken_padded. pose proof (first_rows_length K m range).
  pose proof (layout_count b Hlayout). lia.
Qed.

(** Full, and the row comes after every anchor. *)
Lemma attach_canonical_refused w :
  metadata_source r = None → length (first_rows K m range) = K → last (first_rows K m range) = Some w → w < row →
  ∃ b', attach_canonical stable_hash b target text s = Ok b' ∧ attach_result b'.
Proof.
  intros Hs Hlen Hw Hlt. unfold attach_canonical, already_from. cbn [target_row_index target_contract target_chain target_token_rank].
  rewrite Hr. cbn [expect mbind fallible_bind]. rewrite Hs.
  rewrite (attached_slots b m texts Hb c range Hrange). cbn [expect mbind fallible_bind].
  rewrite used_slots_spec, Hlen, decide_True by done. unfold worst_slot. rewrite Hw. cbn [expect mbind fallible_bind].
  pose proof (layout_count b Hlayout) as HK.
  destruct (refuse_rows K m range row s text ltac:(lia) Hrow w Hlen Hw Hlt) as [Hout Hfirst].
  destruct (first_rows_elem K m range w) as [_ Hwr]; [by apply last_Some_elem_of|].
  assert (Hchain' : chain_of_row b row = Some chain) by (unfold chain_of_row; rewrite Hr; cbn; by f_equal).
  destruct (rank_order w chain rank Hwr Hchain' Hrank) as (rw & -> & Hrw). cbn [expect mbind fallible_bind].
  destruct (Z.leb_spec rw rank); [|lia]. destruct (decide (K = K)); [|done]. cbn [mbind fallible_bind]. eexists. split; [reflexivity|].
  destruct (attached_rows b m texts Hb c range row r Hrange Hrow Hr) as [_ H2]. destruct (H2 Hout) as [Hid _].
  eapply (attach_result_intro texts); [|lia|by eapply skeleton_insert|cbn; lia|cbn; lia].
  apply attached_same_rows; [done|apply Hb|done|intros i Hne; by rewrite list_lookup_insert_ne|].
  intros r' Hr'. rewrite list_lookup_insert_eq in Hr' by (by eapply lookup_lt_Some). simplify_eq.
  split; [done|]. intros _. split; [done|]. intros Hn.
  destruct (offer_dom m row s text row) as [_ Ho]. rewrite Hn in Ho. destruct Ho as [? [=]]. by right.
Qed.

(** The rows after an accepted document: the last anchor is evicted from a full contract. *)
Definition evicted_rows (rows : list CompactRow) (used : list nat) : list CompactRow :=
  if decide (length used = K) then
    match last used with
    | Some w => match rows !! w with Some e => <[w := set_metadata e None (metadata_source e)]> rows | None => rows end
    | None => rows
    end
  else rows.

Definition accepted_rows (id : nat) : list CompactRow :=
  <[row := set_metadata r (Some id) (Some s)]>
    (evicted_rows (<[row := set_metadata r (metadata_id r) (Some s)]> (logical_rows b)) (first_rows K m range)).

Lemma lookup_accepted_rows id i :
  (∀ w, length (first_rows K m range) = K → last (first_rows K m range) = Some w → row < w) →
  accepted_rows id !! i =
    if decide (i = row) then Some (set_metadata r (Some id) (Some s))
    else if decide (length (first_rows K m range) = K ∧ last (first_rows K m range) = Some i)
    then (λ e, set_metadata e None (metadata_source e)) <$> logical_rows b !! i
    else logical_rows b !! i.
Proof.
  intros Hacc. unfold accepted_rows, evicted_rows.
  set (used := first_rows K m range) in *. set (rows := <[row := set_metadata r (metadata_id r) (Some s)]> (logical_rows b)).
  assert (Hlen : length (if decide (length used = K) then
    match last used with
    | Some w => match rows !! w with Some e => <[w := set_metadata e None (metadata_source e)]> rows | None => rows end
    | None => rows end else rows) = length (logical_rows b)).
  { unfold rows. case_decide; [|by rewrite length_insert]. destruct (last used) as [w|]; [|by rewrite length_insert].
    destruct (_ !! w); by rewrite ?length_insert. }
  pose proof (lookup_lt_Some _ _ _ Hr) as Hlt. destruct (decide (i = row)) as [->|Hi].
  { apply list_lookup_insert_eq. by rewrite Hlen. }
  rewrite list_lookup_insert_ne by done. clear Hlen.
  assert (Hrows : ∀ j, j ≠ row → rows !! j = logical_rows b !! j) by (intros j Hj; unfold rows; by rewrite list_lookup_insert_ne).
  destruct (decide (length used = K)) as [Hfull|]; [|by rewrite decide_False, Hrows by naive_solver].
  destruct (last used) as [w|] eqn:Hw; [|by rewrite decide_False, Hrows by naive_solver].
  pose proof (Hacc w Hfull eq_refl). rewrite (Hrows w) by lia. destruct (decide (i = w)) as [->|Hne].
  - rewrite decide_True by done. destruct (logical_rows b !! w) as [e|] eqn:E; [|by rewrite Hrows by done].
    cbn. apply list_lookup_insert_eq. unfold rows. rewrite length_insert. by eapply lookup_lt_Some.
  - rewrite decide_False by naive_solver. destruct (logical_rows b !! w); [rewrite list_lookup_insert_ne by done|]; by apply Hrows.
Qed.

Lemma insert_anchor_spec id before rest :
  first_rows K m range = before ++ rest → (∀ i, i ∈ before → i < row) → (∀ i, i ∈ rest → row < i) →
  length before < K → (∀ w, length (first_rows K m range) = K → last (first_rows K m range) = Some w → row < w) →
  insert_anchor b target (<[row := set_metadata r (metadata_id r) (Some s)]> (logical_rows b))
    (padded (first_rows K m range)) (first_rows K m range) id =
  Ok (accepted_rows id, padded (take K (before ++ row :: rest))).
Proof.
  intros Hused Hlo Hhi Hb' Hacc. unfold insert_anchor. cbn [target_row_index target_contract target_chain target_token_rank].
  assert (Hchain' : chain_of_row b row = Some chain) by (unfold chain_of_row; rewrite Hr; cbn; by f_equal).
  assert (Hpos : position_by_rank b chain rank (first_rows K m range) = Ok (length before)).
  { rewrite Hused. refine (position_by_rank_spec chain rank before rest Hchain' Hrank _ Hlo Hhi). intros i Hi. rewrite <- Hused in Hi. by apply first_rows_elem in Hi as [_ Hi]. }
  rewrite Hpos. cbn [mbind fallible_bind].
  pose proof (layout_count b Hlayout) as HK. pose proof (first_rows_length K m range) as HL.
  destruct (insert_slots (first_rows K m range) row (length before) K) as (slots & Hshift & Hstore);
    [lia|rewrite Hused, length_app; lia|done|].
  rewrite Hused, take_app_length, drop_app_length in Hstore.
  assert (Hevict : (if decide (length (first_rows K m range) = K) then
      evicted ← worst_slot (first_rows K m range);
      e ← expect (<[row := set_metadata r (metadata_id r) (Some s)]> (logical_rows b) !! evicted);
      Ok (<[evicted := set_metadata e None (metadata_source e)]> (<[row := set_metadata r (metadata_id r) (Some s)]> (logical_rows b)))
    else Ok (<[row := set_metadata r (metadata_id r) (Some s)]> (logical_rows b))) =
    Ok (evicted_rows (<[row := set_metadata r (metadata_id r) (Some s)]> (logical_rows b)) (first_rows K m range))).
  { unfold evicted_rows, worst_slot. case_decide as Hfull; [|done].
    destruct (last (first_rows K m range)) as [w|] eqn:Hw;
      [|apply last_None in Hw; rewrite Hw in Hfull; cbn in Hfull; lia].
    cbn [expect mbind fallible_bind]. pose proof (Hacc w Hfull eq_refl).
    rewrite list_lookup_insert_ne by lia. destruct (first_rows_elem K m range w) as [_ Hwr]; [by apply last_Some_elem_of|].
    destruct (lookup_lt_is_Some_2 (logical_rows b) w) as [e He]; [eapply (layout_bound b Hlayout c); by exists range|].
    by rewrite He. }
  rewrite Hevict. cbn [mbind fallible_bind]. rewrite Hshift. cbn [mbind fallible_bind]. rewrite Hstore.
  cbn [expect mbind fallible_bind].
  assert (Hown : evicted_rows (<[row := set_metadata r (metadata_id r) (Some s)]> (logical_rows b)) (first_rows K m range) !! row
    = Some (set_metadata r (metadata_id r) (Some s))).
  { pose proof (lookup_lt_Some _ _ _ Hr). unfold evicted_rows. case_decide as Hfull; [|by apply list_lookup_insert_eq].
    destruct (last (first_rows K m range)) as [w|] eqn:Hw; [|by apply list_lookup_insert_eq].
    pose proof (Hacc w Hfull eq_refl). rewrite (list_lookup_insert_ne _ row w) by lia.
    destruct (logical_rows b !! w); [rewrite list_lookup_insert_ne by lia|]; by apply list_lookup_insert_eq. }
  rewrite Hown. done.
Qed.

Lemma accepted_skeleton id :
  skeleton <$> accepted_rows id = skeleton <$> logical_rows b.
Proof.
  unfold accepted_rows, evicted_rows.
  assert (H1 : skeleton <$> <[row := set_metadata r (metadata_id r) (Some s)]> (logical_rows b) = skeleton <$> logical_rows b)
    by (by eapply skeleton_insert).
  assert (H2 : ∀ w e, <[row := set_metadata r (metadata_id r) (Some s)]> (logical_rows b) !! w = Some e →
    skeleton <$> <[w := set_metadata e None (metadata_source e)]>
      (<[row := set_metadata r (metadata_id r) (Some s)]> (logical_rows b)) = skeleton <$> logical_rows b).
  { intros w e He. rewrite <- H1. by eapply skeleton_insert. }
  assert (H3 : ∀ rows, skeleton <$> rows = skeleton <$> logical_rows b →
    skeleton <$> <[row := set_metadata r (Some id) (Some s)]> rows = skeleton <$> logical_rows b).
  { intros rows H. pose proof (skeleton_lookup _ _ row H) as Hl. rewrite Hr in Hl.
    destruct (rows !! row) as [r'|] eqn:E; [|done]. rewrite <- H.
    eapply skeleton_insert; [done|]. apply (inj Some) in Hl. by rewrite Hl. }
  apply H3. case_decide; [|done]. destruct (last _) as [w|]; [|done].
  destruct (_ !! w) as [e|] eqn:E; [by apply H2|done].
Qed.

(** There is room for the row among the anchors, or it comes before the last. *)
Lemma attach_canonical_accepted :
  metadata_source r = None → row ∉ first_rows K m range →
  (∀ w, length (first_rows K m range) = K → last (first_rows K m range) = Some w → row < w) →
  ∃ b', attach_canonical stable_hash b target text s = Ok b' ∧ attach_result b'.
Proof.
  intros Hs Hout Hacc. pose proof (layout_count b Hlayout) as HK.
  destruct (accept_rows K m range row s text ltac:(lia) Hrow Hout Hacc)
    as (Hnew & before & rest & Hused & Hlo & Hhi & Hlen & Hfirst).
  unfold attach_canonical, already_from. cbn [target_row_index target_contract target_chain target_token_rank].
  rewrite Hr. cbn [expect mbind fallible_bind]. rewrite Hs.
  rewrite (attached_slots b m texts Hb c range Hrange). cbn [expect mbind fallible_bind].
  rewrite used_slots_spec.
  assert (Hworse : (if decide (length (first_rows K m range) = K) then
      worst ← worst_slot (first_rows K m range); worst_rank ← expect (rank_of_row b chain worst);
      Ok (worst_rank <=? rank)%Z else Ok false) = Ok false).
  { case_decide as Hfull; [|done]. unfold worst_slot. destruct (last (first_rows K m range)) as [w|] eqn:Hw;
      [|apply last_None in Hw; rewrite Hw in Hfull; cbn in Hfull; lia].
    destruct (first_rows_elem K m range w) as [_ Hwr]; [by apply last_Some_elem_of|].
    assert (Hchain' : chain_of_row b row = Some chain) by (unfold chain_of_row; rewrite Hr; cbn; by f_equal).
    cbn [expect mbind fallible_bind]. destruct (rank_order w chain rank Hwr Hchain' Hrank) as (rw & -> & Hrw).
    pose proof (Hacc w Hfull eq_refl). cbn. by destruct (Z.leb_spec rw rank); [lia|]. }
  rewrite Hworse. cbn [mbind fallible_bind].
  destruct (interned_spec text Hvalid Hroom) as (pool & texts' & id & -> & Hp & Hpre & Hle & Htext).
  cbn [mbind fallible_bind]. rewrite (insert_anchor_spec id before rest) by done.
  cbn [mbind fallible_bind]. eexists. split; [reflexivity|].
  eapply attach_result_intro; [|exact Hle|by apply accepted_skeleton|by case_decide; cbn; lia|by case_decide; cbn; lia].
  assert (Hslot : ∀ c' range', range_of b c' = Some range' → c' ≠ c →
    first_rows K (offer m row s text) range' = first_rows K m range') by (intros; by eapply other_contract).
  split; cbn [with_metadata metadata contract_ranges metadata_anchor_rows metadata_anchor_count logical_rows]; [done| |].
  - intros c' range' Hr'. pose proof (attached_slots b m texts Hb c range Hrange) as Hc%lookup_lt_Some.
    destruct (decide (c' = c)) as [->|Hne].
    + simplify_eq. by rewrite list_lookup_insert_eq, Hfirst by done.
    + rewrite list_lookup_insert_ne, (Hslot c') by done. by eapply attached_slots.
  - intros c' range' i r' Hr' Hi Hlook. rewrite (lookup_accepted_rows id i Hacc) in Hlook.
    assert (Hsame : ∀ anchor' : Prop, i ≠ row → logical_rows b !! i = Some r' →
      (anchor' ↔ i ∈ first_rows K m range') → row_attached texts' (offer m row s text) anchor' i r').
    { intros anchor' Hne Hl Hiff. destruct (attached_rows b m texts Hb c' range' i r' Hr' Hi Hl) as [H1 H2].
      unfold row_attached. rewrite offer_other by done. split; [|by rewrite Hiff]. intros Hin%Hiff.
      destruct (H1 Hin) as (s' & t & id' & ? & ? & ? & Ht). exists s', t, id'. split_and!; try done.
      by eapply prefix_lookup_Some. }
    assert (HSS : StronglySorted lt (before ++ rest)) by (rewrite <- Hused; apply first_rows_sorted).
    assert (Hle' : length (before ++ rest) ≤ K) by (rewrite <- Hused; apply first_rows_length).
    pose proof (accepted_elem K range row ltac:(lia) Hrow before rest i Hlen Hle' Hlo Hhi HSS) as Helem. rewrite <- Hused in Helem.
    destruct (decide (c' = c)) as [->|Hne].
    + simplify_eq. rewrite Hfirst. destruct (decide (i = row)) as [->|Hne].
      * simplify_eq. split; [|intros Hn; exfalso; apply Hn, Helem; by left]. intros _. exists s, text, id.
        split_and!; [|done..]. unfold offer. rewrite Hnew. apply lookup_insert_eq.
      * case_decide as Hev.
        -- apply fmap_Some in Hlook as (e & He & ->). split; [intros Hin; apply Helem in Hin; tauto|].
           intros _. split; [done|]. rewrite offer_other by done. intros Hn.
           assert (i ∈ first_rows K m range) as Hin%first_rows_elem by (destruct Hev; by apply last_Some_elem_of). rewrite Hn in Hin.
           by destruct Hin as [[? [=]] _].
        -- apply Hsame; [done..|]. rewrite Helem. tauto.
    + rewrite (Hslot c') by done. assert (i ≠ row) as Hir.
      { intros ->. apply Hne. eapply layout_disjoint; [done|by exists range'|by exists range]. }
      rewrite decide_False in Hlook by done. rewrite decide_False in Hlook; [by apply Hsame|].
      intros [_ Hw%last_Some_elem_of]. apply first_rows_elem in Hw as [_ Hw]. apply Hne.
      eapply layout_disjoint; [done|by exists range'|by exists range].
Qed.

Lemma attach_canonical_step :
  ∃ b', attach_canonical stable_hash b target text s = Ok b' ∧ attach_result b'.
Proof.
  destruct (already_from r s) eqn:Hal.
  { exists b. split.
    - unfold attach_canonical. cbn [target_row_index]. rewrite Hr. cbn [expect mbind fallible_bind]. by rewrite Hal.
    - exists texts. split_and!; [by eapply attach_later|lia|apply same_layout_refl|done]. }
  unfold already_from in Hal. destruct (metadata_source r) as [existing|] eqn:Hs; [by eapply attach_canonical_known|].
  destruct (attached_rows b m texts Hb c range row r Hrange Hrow Hr) as [H1 _].
  assert (Hout : row ∉ first_rows K m range).
  { intros Hin. destruct (H1 Hin) as (? & ? & ? & _ & ? & _). congruence. }
  destruct (decide (length (first_rows K m range) = K)) as [Hfull|Hnot];
    [|apply attach_canonical_accepted; [done|done|intros w ?; done]].
  destruct (last (first_rows K m range)) as [w|] eqn:Hw;
    [|apply attach_canonical_accepted; [done|done|congruence]].
  destruct (decide (w < row)) as [Hlt|Hge]; [by eapply attach_canonical_refused|].
  apply attach_canonical_accepted; [done|done|]. intros w' _ Hw'. rewrite Hw in Hw'. simplify_eq.
  apply last_Some_elem_of in Hw. assert (row ≠ w') by congruence. lia.
Qed.
End Step.
End Attached.

(** ** What a text is worth *)

(** What is documented of the text of a JSON value: it is a string, and only the empty
    object is written [{}]. *)
Class JsonText `{JsonLibrary} : Prop := {
  to_string_valid v : valid_str (to_string v);
  to_string_empty v : to_string v = lit "{}" ↔ v = Object [];
}.

Section Texts.
Context `{JsonText}.

(** The canonical text of a document that counts. *)
Definition document_of (raw : option str) : option str :=
  match prepared_from_raw raw DispositionAnchor with Valid text => Some text | _ => None end.

Definition is_invalid (raw : option str) : bool :=
  match prepared_from_raw raw DispositionAnchor with Invalid => true | _ => false end.

Definition is_oversized (raw : option str) : bool :=
  match prepared_from_raw raw DispositionAnchor with Oversized => true | _ => false end.

Lemma is_valid_canonical raw :
  is_valid_metadata_json raw = match canonical_metadata raw with Some t => bool_decide (t ≠ lit "{}") | None => false end.
Proof.
  unfold is_valid_metadata_json, canonical_metadata. destruct (parse_normalized_json raw) as [v|]; cbn [fmap option_fmap option_map]; [|done].
  destruct v as [| | | | |entries]; try (symmetry; apply bool_decide_eq_true; rewrite to_string_empty; done).
  destruct entries; symmetry; [apply bool_decide_eq_false|apply bool_decide_eq_true]; rewrite to_string_empty; [|done].
  naive_solver.
Qed.

(** Validating a text first, and reading it only for an anchor, loses nothing. *)
Lemma prepared_from_validated_spec raw d :
  prepared_from_validated (validate_metadata_input raw) raw d =
    match prepared_from_raw raw DispositionAnchor with
    | Valid text => match d with
                    | DispositionAnchor => Valid text
                    | DispositionNonAnchor => NonAnchor
                    | DispositionDuplicate => Ignored
                    end
    | p => p
    end.
Proof.
  unfold validate_metadata_input, prepared_from_raw.
  destruct (nonempty raw) as [t|] eqn:E; [|done].
  destruct (MAX_DOCUMENT <? Z.of_nat (str_len t))%Z eqn:Hlen; [done|].
  rewrite is_valid_canonical. destruct (canonical_metadata t) as [text|] eqn:Ht; [|done].
  case_bool_decide as Hne; cbn [prepared_from_validated].
  - rewrite decide_False by done. destruct d; [|done..]. unfold prepared_from_raw. rewrite E, Hlen, Ht.
    by rewrite decide_False by done.
  - by rewrite decide_True.
Qed.

Lemma prepared_anchor_cases raw :
  (∃ text, prepared_from_raw raw DispositionAnchor = Valid text ∧ valid_str text) ∨
  prepared_from_raw raw DispositionAnchor ∈ [Missing; Oversized; Invalid].
Proof.
  unfold prepared_from_raw. destruct (nonempty raw) as [t|]; [|set_solver].
  destruct (_ <? _)%Z; [set_solver|]. unfold canonical_metadata. destruct (parse_normalized_json t); cbn; [|set_solver].
  case_decide; [set_solver|]. left. eexists. split; [done|]. apply to_string_valid.
Qed.

(** ** One row *)

Context (stable_hash : list N → N).

Abbreviation attached := (attached stable_hash).

Lemma attached_quality b m texts q :
  attached b m texts → attached (with_metadata b (logical_rows b) (metadata_anchor_rows b) (metadata b) q) m texts.
Proof. by intros [H1 H2 H3]. Qed.

(** The documents of the rows after one more input. *)
Definition offer_input (b : ResidentBuilder) (m : Offers) (input : SourceOrder * option str) : Offers :=
  match mjoin (source_slot (metadata_source_rows b) input.1), document_of input.2 with
  | Some row, Some text => offer m row input.1 text
  | _, _ => m
  end.

Definition counted (b b' : ResidentBuilder) (raws : list (option str)) : Prop :=
  invalid_metadata (quality b') = (invalid_metadata (quality b) + Z.of_nat (length (filter (λ raw, is_invalid raw = true) raws)))%Z ∧
  oversized_metadata (quality b') = (oversized_metadata (quality b) + Z.of_nat (length (filter (λ raw, is_oversized raw = true) raws)))%Z.

Lemma target_by_source b m texts s row :
  layout b → attached b m texts → source_slot (metadata_source_rows b) s = Some (Some row) →
  ∃ c range r rank d, range_of b c = Some range ∧ range.1 ≤ row < range.2 ∧ logical_rows b !! row = Some r ∧
    rank_of_row b (row_chain r) row = Some rank ∧
    metadata_input_target_by_source b s =
      Ok {| target_chain := row_chain r; target_contract := c; target_row_index := row; target_token_rank := rank; disposition := d |} ∧
    (d = DispositionDuplicate → already_from r s = true) ∧
    (d = DispositionNonAnchor → row ∉ first_rows (metadata_anchor_count b) m range ∧ metadata_id r = None ∧
       ∀ text, first_rows (metadata_anchor_count b) (offer m row s text) range = first_rows (metadata_anchor_count b) m range).
Proof.
  intros Hl Hb Hs. pose proof (layout_source b Hl s row Hs) as Hlt.
  destruct (layout_contract b Hl row Hlt) as (c & Hc & range & Hrange & Hrow).
  destruct (lookup_lt_is_Some_2 _ _ Hlt) as [r Hr].
  destruct (layout_rank b Hl c row row) as (chain & rank & ? & Hchain & Hrank & _); [by exists range..|].
  unfold chain_of_row in Hchain. rewrite Hr in Hchain. cbn in Hchain. simplify_eq.
  pose proof (attached_rows _ b m texts Hb c range row r Hrange Hrow Hr) as [H1 H2].
  pose proof (layout_count b Hl) as HK. pose proof (first_rows_length (metadata_anchor_count b) m range) as HL.
  unfold metadata_input_target_by_source. rewrite Hs. cbn [mjoin option_join ok_or mbind fallible_bind].
  rewrite Hc. cbn [mjoin option_join ok_or mbind fallible_bind]. unfold metadata_input_target_for_row. rewrite Hr.
  cbn [expect mbind fallible_bind].
  assert (Htr : token_rank b (row_chain r) (token_id_id r) = Some rank).
  { unfold rank_of_row in Hrank. by rewrite Hr in Hrank. }
  rewrite Htr. cbn [expect mbind fallible_bind].
  assert (Hgoal : ∀ d, (d = DispositionDuplicate → already_from r s = true) →
    (d = DispositionNonAnchor → row ∉ first_rows (metadata_anchor_count b) m range ∧ metadata_id r = None ∧
       ∀ text, first_rows (metadata_anchor_count b) (offer m row s text) range = first_rows (metadata_anchor_count b) m range) →
    ∃ c0 range0 r0 rank0 d0, range_of b c0 = Some range0 ∧ range0.1 ≤ row < range0.2 ∧ Some r = Some r0 ∧
      rank_of_row b (row_chain r0) row = Some rank0 ∧
      Ok {| target_chain := row_chain r; target_contract := c; target_row_index := row; target_token_rank := rank; disposition := d |} =
      Ok {| target_chain := row_chain r0; target_contract := c0; target_row_index := row; target_token_rank := rank0; disposition := d0 |} ∧
      (d0 = DispositionDuplicate → already_from r0 s = true) ∧
      (d0 = DispositionNonAnchor → row ∉ first_rows (metadata_anchor_count b) m range0 ∧ metadata_id r0 = None ∧
        ∀ text, first_rows (metadata_anchor_count b) (offer m row s text) range0 = first_rows (metadata_anchor_count b) m range0)).
  { intros d Hd1 Hd2. exists c, range, r, rank, d. split; [done|]. split; [done|]. split; [done|]. split; [done|]. split; [done|]. split; [exact Hd1|exact Hd2]. }
  destruct (already_from r s) eqn:Hal; [by apply Hgoal|].
  destruct (metadata_id r) as [id|] eqn:Hid; [by apply Hgoal|].
  rewrite (attached_slots _ b m texts Hb c range Hrange). cbn [expect mbind fallible_bind].
  rewrite (used_slots_spec b m range Hl). case_decide as Hroom; [by apply Hgoal|].
  assert (Hfull : length (first_rows (metadata_anchor_count b) m range) = metadata_anchor_count b) by lia.
  unfold worst_slot. destruct (last (first_rows (metadata_anchor_count b) m range)) as [w|] eqn:Hw;
    [|apply last_None in Hw; rewrite Hw in Hfull; cbn in Hfull; lia].
  cbn [expect mbind fallible_bind]. destruct (first_rows_elem (metadata_anchor_count b) m range w) as [_ Hwr]; [by apply last_Some_elem_of|].
  destruct (layout_rank b Hl c row w) as (chain' & rk & rw & Hch & Hrk & Hrw & Hord); [by exists range..|].
  unfold chain_of_row in Hch. rewrite Hr in Hch. cbn in Hch. simplify_eq. rewrite Hrw. cbn [expect mbind fallible_bind].
  destruct (Z.ltb_spec rank rw) as [Hlt'|Hge]; [by apply Hgoal|]. apply Hgoal; [done|]. intros _.
  assert (Hout : row ∉ first_rows (metadata_anchor_count b) m range).
  { intros Hin. destruct (H1 Hin) as (? & ? & ? & _ & _ & ? & _). done. }
  split; [done|]. split; [done|]. intros text.
  assert (w < row) as Hwlt. { apply last_Some_elem_of in Hw. assert (row ≠ w) by congruence. lia. }
  eapply refuse_rows; [lia|done|exact Hfull|exact Hw|exact Hwlt].
Qed.

(** The rooms of a pool that a run may need. *)
Definition has_room (texts : list str) (n : nat) : Prop := (Z.of_nat (length texts + n) ≤ 2 ^ 32)%Z.

(** Decides the conditions of a goal and closes it by arithmetic. *)
Local Ltac count_inputs := repeat first [rewrite decide_False by done|rewrite decide_True by done]; cbn; lia.

Lemma attach_row_step b m texts s raw row :
  layout b → attached b m texts → source_slot (metadata_source_rows b) s = Some (Some row) → has_room texts 1 →
  ∃ b' texts', attach_row stable_hash b (s, raw) = Ok b' ∧ attached b' (offer_input b m (s, raw)) texts' ∧
    length texts' ≤ S (length texts) ∧ same_layout b b' ∧ counted b b' [raw].
Proof.
  intros Hl Hb Hs Hroom.
  destruct (target_by_source b m texts s row Hl Hb Hs) as (c & range & r & rank & d & Hrange & Hrow & Hr & Hrank & Ht & Hdup & Hnon).
  unfold attach_row. cbn [fst snd]. rewrite Ht. cbn [mbind fallible_bind disposition].
  rewrite prepared_from_validated_spec.
  unfold offer_input, counted, document_of, is_invalid, is_oversized. cbn [fst snd]. rewrite Hs. cbn [mjoin option_join].
  destruct (prepared_anchor_cases raw) as [(text & Htext & Hv)|Hcase].
  - rewrite !filter_cons, filter_nil, Htext. cbn [length]. rewrite !decide_False by done. cbn [length]. rewrite !Z.add_0_r.
    destruct d; cbn [attach_prepared_metadata_target].
    + destruct (attach_canonical_step stable_hash b m texts c row range Hl Hb Hrange Hrow (row_chain r) rank DispositionAnchor s text r)
        as (b' & -> & texts' & Hb' & Hle & Hsame & Hcounts); [done|done|done|done|unfold has_room in Hroom; lia|].
      exists b', texts'. split_and!; try done; apply Hcounts.
    + destruct (Hnon eq_refl) as (Hout & Hid & Hfirst). eexists _, texts. split; [reflexivity|].
      assert (Hb' : attached (count_metadata b 0 0 1) (offer m row s text) texts).
      { unfold count_metadata. eapply (attached_same_rows stable_hash b m texts c row range); try done.
        - apply Hb.
        - intros r' Hr'. simplify_eq. split; [done|]. intros _. split; [done|]. intros Hn.
          destruct (offer_dom m row s text row) as [_ Ho]. rewrite Hn in Ho. destruct Ho as [? [=]]. by right. }
      split; [exact Hb'|]. split; [lia|]. split; [by eexists _, _, _, _|]. cbn. lia.
    + eexists b, texts. split; [reflexivity|]. split; [|split; [lia|split; [apply same_layout_refl|done]]].
      eapply (attach_later stable_hash b m texts c row range); [done..|by apply Hdup].
  - assert (document_none : match prepared_from_raw raw DispositionAnchor with Valid text => Some text | _ => None end = None).
    { destruct (prepared_from_raw raw DispositionAnchor); set_solver. }
    rewrite document_none, !filter_cons, filter_nil. clear document_none.
    set_unfold in Hcase. destruct Hcase as [->|[->|[-> |[]]]]; cbn [attach_prepared_metadata_target];
      (eexists _, texts; split; [reflexivity|]).
    + split; [done|]. split; [lia|]. split; [apply same_layout_refl|count_inputs].
    + split; [by apply attached_quality|]. split; [lia|]. split; [by eexists _, _, _, _|count_inputs].
    + split; [by apply attached_quality|]. split; [lia|]. split; [by eexists _, _, _, _|count_inputs].
Qed.

(** ** All rows *)

Lemma attach_rows b m texts inputs :
  layout b → attached b m texts →
  Forall (λ input, ∃ row, source_slot (metadata_source_rows b) input.1 = Some (Some row)) inputs →
  has_room texts (length inputs) →
  ∃ b' texts', loop (attach_row stable_hash) b inputs = Ok b' ∧ attached b' (foldl (offer_input b) m inputs) texts' ∧
    same_layout b b' ∧ counted b b' (snd <$> inputs).
Proof.
  intros Hl Hb Hs Hroom. revert b m texts Hl Hb Hs Hroom.
  induction inputs as [|[s raw] inputs IH]; intros b m texts Hl Hb Hs Hroom.
  { exists b, texts. split; [done|]. split; [done|]. split; [apply same_layout_refl|]. unfold counted. cbn. lia. }
  inversion_clear Hs as [|? ? [row Hrow] Hs']. unfold has_room in Hroom. cbn [length] in Hroom.
  destruct (attach_row_step b m texts s raw row Hl Hb Hrow) as (b1 & texts1 & Hstep & H1 & Hlen & Hsame & Hcount);
    [unfold has_room; lia|].
  cbn [loop]. rewrite Hstep. cbn [mbind fallible_bind].
  assert (Hslots : metadata_source_rows b1 = metadata_source_rows b) by (by destruct Hsame as (? & ? & ? & ? & -> & _)).
  destruct (IH b1 (offer_input b m (s, raw)) texts1) as (b2 & texts2 & -> & H2 & Hsame2 & Hcount2).
  - by eapply same_layout_layout.
  - done.
  - by rewrite Hslots.
  - unfold has_room. lia.
  - exists b2, texts2. split; [done|]. split.
    { cbn [foldl]. replace (foldl (offer_input b)) with (foldl (offer_input b1)); [done|].
      unfold offer_input. by rewrite Hslots. }
    split; [by eapply same_layout_trans|]. unfold counted in *. rewrite fmap_cons. cbn [snd].
    rewrite !filter_cons, !filter_nil in Hcount. rewrite !filter_cons. destruct Hcount, Hcount2.
    repeat case_decide; cbn [length] in *; lia.
Qed.

(** ** Documents by row, whatever the order *)

#[export] Instance source_compare_laws : CompareLaws source_compare.
Proof.
  apply (then_with_laws (λ a b, Nat.compare (file_ordinal a) (file_ordinal b))
    (λ a b, Z.compare (file_row_number a) (file_row_number b)));
    [apply (compare_map_laws file_ordinal), _|apply (compare_map_laws file_row_number), _].
Qed.

Lemma source_compare_eq a b : source_compare a b = Eq → a = b.
Proof.
  unfold source_compare. intros [H1%Nat.compare_eq H2%Z.compare_eq]%then_with_eq. destruct a, b; cbn in *. by subst.
Qed.

Lemma source_le_spec a b : source_le a b = true ↔ source_compare a b ≠ Gt.
Proof. unfold source_le. destruct (source_compare a b); naive_solver. Qed.

Lemma source_le_antisym a b : source_le a b = true → source_le b a = true → a = b.
Proof.
  rewrite !source_le_spec. intros H1 H2. apply source_compare_eq. rewrite (compare_antisym source_compare b a) in H2.
  by destruct (source_compare a b).
Qed.

(** The documents that the inputs have for a row. *)
Definition has_document (b : ResidentBuilder) (inputs : list (SourceOrder * option str)) (row : nat)
    (s : SourceOrder) (text : str) : Prop :=
  ∃ raw, (s, raw) ∈ inputs ∧ source_slot (metadata_source_rows b) s = Some (Some row) ∧ document_of raw = Some text.

(** The first of them. *)
Definition first_document (b : ResidentBuilder) (inputs : list (SourceOrder * option str)) (row : nat)
    (s : SourceOrder) (text : str) : Prop :=
  has_document b inputs row s text ∧ ∀ s' text', has_document b inputs row s' text' → source_le s s' = true.

Lemma has_document_snoc b inputs s raw row s' text' :
  has_document b (inputs ++ [(s, raw)]) row s' text' ↔
    has_document b inputs row s' text' ∨
    s' = s ∧ source_slot (metadata_source_rows b) s = Some (Some row) ∧ document_of raw = Some text'.
Proof.
  unfold has_document. setoid_rewrite elem_of_app. setoid_rewrite list_elem_of_singleton. naive_solver.
Qed.

Lemma foldl_offers b inputs row :
  match foldl (offer_input b) ∅ inputs !! row with
  | Some (s, text) => first_document b inputs row s text
  | None => ∀ s text, ¬ has_document b inputs row s text
  end.
Proof.
  induction inputs as [|[s raw] inputs IH] using rev_ind.
  { cbn. rewrite lookup_empty. intros s text (raw & Hin & _). by apply elem_of_nil in Hin. }
  rewrite foldl_app. cbn [foldl]. unfold offer_input at 1. cbn [fst snd].
  set (m := foldl (offer_input b) ∅ inputs) in *.
  assert (Hskip : ¬ (source_slot (metadata_source_rows b) s = Some (Some row) ∧ is_Some (document_of raw)) →
    match m !! row with
    | Some (s', text) => first_document b (inputs ++ [(s, raw)]) row s' text
    | None => ∀ s' text, ¬ has_document b (inputs ++ [(s, raw)]) row s' text
    end).
  { intros Hno. destruct (m !! row) as [[s' text]|].
    - destruct IH as [IH1 IH2]. split; [apply has_document_snoc; by left|].
      intros s2 t2 [H2|(-> & ? & ?)]%has_document_snoc; [by eapply IH2|]. exfalso. eauto.
    - intros s' text [Hd|(-> & ? & ?)]%has_document_snoc; [by eapply IH|]. eauto. }
  destruct (source_slot (metadata_source_rows b) s) as [[row'|]|] eqn:Hs; cbn [mjoin option_join]; [|apply Hskip; naive_solver..].
  destruct (document_of raw) as [text|] eqn:Hd; [|apply Hskip; by intros [_ [? [=]]]].
  destruct (decide (row' = row)) as [->|Hne]; [|rewrite offer_other by done; apply Hskip; naive_solver].
  unfold offer. destruct (m !! row) as [[first t]|] eqn:Hm.
  - destruct IH as [IH1 IH2]. destruct (source_le first s) eqn:Hle.
    + rewrite Hm. split; [apply has_document_snoc; by left|]. intros s2 t2 [H2|(-> & _ & _)]%has_document_snoc; [by eapply IH2|done].
    + rewrite lookup_insert_eq. split; [apply has_document_snoc; by right|].
      assert (source_le s first = true) as Hsf.
      { apply source_le_spec. destruct (compare_le_total source_compare s first) as [|Hf]; [done|].
        apply source_le_spec in Hf. congruence. }
      intros s2 t2 [H2|(-> & _ & _)]%has_document_snoc; [|by apply source_le_spec, compare_eq_le, compare_refl; apply _].
      apply IH2 in H2. rewrite source_le_spec in *. by eapply (compare_trans source_compare s first).
  - rewrite lookup_insert_eq. split; [apply has_document_snoc; by right|].
    intros s2 t2 [H2|(-> & _ & _)]%has_document_snoc; [by apply IH in H2|].
    apply source_le_spec, compare_eq_le, compare_refl; apply _.
Qed.

Lemma first_document_unique b inputs inputs' row s1 t1 s2 t2 :
  inputs ≡ₚ inputs' → NoDup (fst <$> inputs) → first_document b inputs row s1 t1 → first_document b inputs' row s2 t2 →
  s1 = s2 ∧ t1 = t2.
Proof.
  intros Hp Hnd [(raw1 & Hin1 & Hs1 & Hd1) Hl1] [(raw2 & Hin2 & Hs2 & Hd2) Hl2]. rewrite <- Hp in Hin2.
  assert (s1 = s2) as ->.
  { apply source_le_antisym; [apply (Hl1 s2 t2); by exists raw2|apply (Hl2 s1 t1); exists raw1; by rewrite <- Hp]. }
  split; [done|]. assert (raw1 = raw2) as ->; [|congruence].
  assert ((s2, raw1) = (s2, raw2)) as [=]; [|done]. by eapply (NoDup_fmap_elem fst).
Qed.

Lemma foldl_offers_permutation b inputs inputs' :
  inputs ≡ₚ inputs' → NoDup (fst <$> inputs) →
  foldl (offer_input b) ∅ inputs = foldl (offer_input b) ∅ inputs'.
Proof.
  intros Hp Hnd. apply map_eq. intros row.
  pose proof (foldl_offers b inputs row) as H1. pose proof (foldl_offers b inputs' row) as H2.
  assert (Hiff : ∀ s t, has_document b inputs row s t ↔ has_document b inputs' row s t)
    by (intros; unfold has_document; by setoid_rewrite Hp).
  destruct (foldl _ _ inputs !! row) as [[s1 t1]|], (foldl _ _ inputs' !! row) as [[s2 t2]|]; [| | |done].
  - destruct (first_document_unique b inputs inputs' row s1 t1 s2 t2) as [-> ->]; done.
  - destruct H1 as [H1 _]. apply Hiff, H2 in H1. done.
  - destruct H2 as [H2 _]. apply Hiff, H1 in H2. done.
Qed.
End Texts.
