(* ===== verification/PrepareFacts.v ===== *)
(** Proofs about the preparation of [Builder] for rows read without documents: ranks
    number texts in their order, rows are sorted and joined by NFT, every source finds its
    row, and contracts are the runs of rows with one contract. *)

From S2P Require Import Prelude Text CanonicalJson Anchors SortedLists Events ValuePools.
From S2P Require Import Fallible AnalysisJson Builder AnchorRows.

(** ** The order of ids *)

Lemma par_sort_stable_laws {A} (cmp : A → A → comparison) l :
  lawful_on cmp l → StronglySorted (λ a b, cmp a b ≠ Gt) (sort_by cmp l).
Proof.
  intros [Ha Ht]. assert (Hins : ∀ x t, x ∈ l → (∀ y, y ∈ t → y ∈ l) → StronglySorted (λ a b, cmp a b ≠ Gt) t →
    StronglySorted (λ a b, cmp a b ≠ Gt) (insert_stable cmp x t) ∧ ∀ y, y ∈ insert_stable cmp x t ↔ y = x ∨ y ∈ t).
  { intros x t Hx Hin HS. induction HS as [|y t HS IH Hy]; cbn.
    - split; [repeat constructor|set_solver].
    - rewrite Forall_forall in Hy. destruct IH as [IH1 IH2]; [intros; apply Hin; by right|].
      assert (y ∈ l) by (apply Hin; by left). destruct (cmp x y) eqn:E.
      3: { split; [|intros z; rewrite !elem_of_cons, IH2; naive_solver]. constructor; [done|]. apply Forall_forall.
           intros z Hz%IH2. destruct Hz as [->|Hz]; [|by apply Hy]. rewrite (Ha y x), E by done. done. }
      all: split; [|set_solver]; constructor; [by constructor; [|apply Forall_forall]|]; constructor; [by rewrite E|].
      all: apply Forall_forall; intros z Hz; apply (Ht x y z); [done|done|apply Hin; by right|by rewrite E|by apply Hy]. }
  assert (Hgen : ∀ t, (∀ y, y ∈ t → y ∈ l) → StronglySorted (λ a b, cmp a b ≠ Gt) (sort_by cmp t) ∧ ∀ y, y ∈ sort_by cmp t ↔ y ∈ t).
  { induction t as [|x t IH]; intros Hin; [split; [constructor|done]|].
    destruct IH as [IH1 IH2]; [intros; apply Hin; by right|].
    destruct (Hins x (sort_by cmp t)) as [H1 H2]; [apply Hin; by left|intros y ?%IH2; apply Hin; by right|done|].
    split; [done|]. intros y. change (sort_by cmp (x :: t)) with (insert_stable cmp x (sort_by cmp t)).
    rewrite H2, IH2, elem_of_cons. done. }
  by apply Hgen.
Qed.

(** A stable sort is one of the sorts. *)
Definition stable_parallel_sort : ParallelSort :=
  {| par_sort := @sort_by; par_sort_permutation := @sort_by_perm; par_sort_sorted := @par_sort_stable_laws |}.

Lemma laws_lawful_on {A} (cmp : A → A → comparison) `{!CompareLaws cmp} l : lawful_on cmp l.
Proof. split; intros; [by apply compare_antisym|by eapply compare_trans]. Qed.

(** ** Setting ranks *)

Lemma set_ranks_spec d n ids :
  NoDup ids → (∀ id, id ∈ ids → id < n) → (Z.of_nat (length ids) ≤ 2 ^ 32)%Z →
  ∃ ranks, set_ranks (replicate n d) ids = Ok ranks ∧ length ranks = n ∧
    (∀ k id, ids !! k = Some id → ranks !! id = Some (Z.of_nat k)) ∧
    (∀ id, id < n → id ∉ ids → ranks !! id = Some d).
Proof.
  intros Hnd Hlt Hlen. unfold set_ranks.
  assert (Hgen : ∀ ids0 start ranks, (∀ k id, ids0 !! k = Some id → ids !! (start + k) = Some id) →
    length ranks = n → ∃ ranks', loop set_rank ranks (imap (λ k id, (start + k, id)) ids0) = Ok ranks' ∧ length ranks' = n ∧
    (∀ k id, ids0 !! k = Some id → ranks' !! id = Some (Z.of_nat (start + k))) ∧
    (∀ id, id ∉ ids0 → ranks' !! id = ranks !! id)).
  { induction ids0 as [|x ids0 IH]; intros start ranks Hin Hl; [exists ranks; cbn; split_and!; done|].
    assert (Hx : ids !! start = Some x) by (rewrite <- (Nat.add_0_r start); by apply (Hin 0)).
    assert (Hstep : set_rank ranks (start + 0, x) = Ok (<[x := Z.of_nat start]> ranks)).
    { unfold set_rank. cbn [fst snd]. rewrite Nat.add_0_r, store_Some by (rewrite Hl; apply Hlt; by eapply list_elem_of_lookup_2).
      cbn [expect]. rewrite Z.mod_small by (apply lookup_lt_Some in Hx; lia). done. }
    cbn [imap loop]. rewrite Hstep. cbn [mbind fallible_bind].
    replace (imap ((λ k id, (start + k, id)) ∘ S) ids0) with (imap (λ k id, (S start + k, id)) ids0)
      by (apply imap_ext; intros; cbn; do 2 f_equal; lia).
    destruct (IH (S start) (<[x := Z.of_nat start]> ranks)) as (ranks' & -> & Hl' & H1 & H2).
    { intros k id Hk. rewrite <- (Hin (S k) id Hk). f_equal. lia. }
    { by rewrite length_insert. }
    assert (Hxn : x ∉ ids0).
    { intros [k Hk]%list_elem_of_lookup_1. pose proof (Hin (S k) x Hk) as Hk'.
      pose proof (NoDup_lookup ids _ _ x Hnd Hx Hk'). lia. }
    exists ranks'. split_and!; [done|done| |].
    - intros [|k] id Hk; [|rewrite (H1 k id Hk); do 2 f_equal; lia]. cbn in Hk. simplify_eq.
      rewrite H2, Nat.add_0_r by done. apply list_lookup_insert_eq. apply Hlt. by eapply list_elem_of_lookup_2.
    - intros id Hid. rewrite not_elem_of_cons in Hid. destruct Hid as [Hne Hid]. rewrite H2 by done.
      by rewrite list_lookup_insert_ne. }
  destruct (Hgen ids 0 (replicate n d)) as (ranks & Hr & Hl & H1 & H2); [done|by rewrite length_replicate|].
  exists ranks. split_and!; [exact Hr|done|done|]. intros id Hid Hn. rewrite H2 by done. by apply lookup_replicate_2.
Qed.

Section Ranks.
Context `{ParallelSort} (stable_hash : list N → N).

Lemma sorted_ids_spec cmp pool l ids :
  pool_holds stable_hash pool l → (∀ id, id ∈ ids → id < length l) →
  ∃ sorted, sorted_ids cmp pool ids = Ok sorted ∧ sorted ≡ₚ ids ∧
    (lawful_on cmp (omap (l !!.) ids) →
       StronglySorted (λ i j, ∃ a b, l !! i = Some a ∧ l !! j = Some b ∧ cmp a b ≠ Gt) sorted).
Proof.
  intros Hp Hin. unfold sorted_ids.
  assert (Htexts : ∃ texts, mapM (get pool) ids = Some texts ∧ Forall2 (λ id text, l !! id = Some text) ids texts).
  { induction ids as [|id ids IH]; [by exists []|]. destruct IH as (texts & Ht & Hf); [intros; apply Hin; by right|].
    destruct (lookup_lt_is_Some_2 l id) as [t Hl]; [apply Hin; by left|]. exists (t :: texts). split; [|by constructor].
    cbn. rewrite (get_holds _ _ _ Hp), Hl. cbn. by rewrite Ht. }
  destruct Htexts as (texts & -> & Hf). cbn [expect mbind fallible_bind].
  eexists. split; [reflexivity|].
  assert (Hperm := par_sort_permutation (λ a b : nat * str, cmp a.2 b.2) (zip ids texts)).
  assert (Hzip : (zip ids texts).*1 = ids) by (apply fst_zip; apply Forall2_length in Hf; lia).
  assert (Hpair : ∀ e, e ∈ zip ids texts → l !! e.1 = Some e.2).
  { intros [i t] [k Hk]%list_elem_of_lookup_1. apply lookup_zip_Some in Hk as [Hi Ht]. cbn.
    by apply (Forall2_lookup_lr _ _ _ _ _ _ Hf Hi Ht). }
  split; [by rewrite Hperm, Hzip|]. intros [Ha Ht].
  assert (Helem : ∀ e, e ∈ zip ids texts → e.2 ∈ omap (l !!.) ids).
  { intros e He. apply list_elem_of_omap. exists e.1. split; [|by apply Hpair].
    rewrite <- Hzip. by apply list_elem_of_fmap_2. }
  assert (Hlaw : lawful_on (λ a b : nat * str, cmp a.2 b.2) (zip ids texts)).
  { split; [intros x y Hx Hy; apply Ha; by apply Helem|].
    intros x y z Hx Hy Hz. apply Ht; by apply Helem. }
  assert (HS := par_sort_sorted _ _ Hlaw).
  set (sorted := par_sort _ (zip ids texts)) in *.
  assert (Hpair' : ∀ e, e ∈ sorted → l !! e.1 = Some e.2) by (intros e He; apply Hpair; by rewrite <- Hperm).
  clearbody sorted. clear -HS Hpair'. induction HS as [|e sorted HS IH He]; cbn; constructor.
  - apply IH. intros; apply Hpair'; by right.
  - apply Forall_forall. intros j [e' [-> He']]%list_elem_of_fmap. rewrite Forall_forall in He.
    exists e.2, e'.2. split_and!; [apply Hpair'; by left|apply Hpair'; by right|by apply He].
Qed.

(** What a table of ranks promises for some ids. *)
Record ranks_ids (ranks : list Z) (ids : list nat) : Prop := {
  ranks_bound id : id ∈ ids → is_Some (ranks !! id);
  ranks_inj i j r : i ∈ ids → j ∈ ids → ranks !! i = Some r → ranks !! j = Some r → i = j;
}.

(** The order of the ranks is the order of the texts. *)
Definition ranks_texts (cmp : str → str → comparison) (l : list str) (ranks : list Z) (ids : list nat) : Prop :=
  ∀ i j ri rj a b, i ∈ ids → j ∈ ids → ranks !! i = Some ri → ranks !! j = Some rj → l !! i = Some a → l !! j = Some b →
    (ri < rj)%Z → cmp a b ≠ Gt.

Lemma ranked_ids d n cmp pool l ids :
  pool_holds stable_hash pool l → NoDup ids → (∀ id, id ∈ ids → id < length l) → length l ≤ n →
  ∃ sorted ranks, sorted_ids cmp pool ids = Ok sorted ∧ length sorted = length ids ∧
    set_ranks (replicate n d) sorted = Ok ranks ∧ ranks_ids ranks ids ∧
    (lawful_on cmp (omap (l !!.) ids) → ranks_texts cmp l ranks ids).
Proof.
  intros Hp Hnd Hin Hn. destruct (sorted_ids_spec cmp pool l ids Hp Hin) as (sorted & Hs & Hperm & Hsorted).
  assert (Hlen : (Z.of_nat (length sorted) ≤ 2 ^ 32)%Z).
  { rewrite Hperm. pose proof (holds_fits _ _ _ Hp) as Hf. unfold pool_fits in Hf.
    assert (length ids ≤ length l); [|lia]. rewrite <- (length_seq (length l) 0).
    apply submseteq_length, NoDup_submseteq; [done|]. intros id Hid. apply elem_of_seq. pose proof (Hin id Hid). lia. }
  destruct (set_ranks_spec d n sorted) as (ranks & Hr & Hl & Hr1 & Hr2); [by rewrite Hperm|intros id Hid; rewrite Hperm in Hid; pose proof (Hin id Hid); lia|done|].
  exists sorted, ranks. split_and!; [done|by rewrite Hperm|done| |].
  - split.
    + intros id Hid. rewrite <- Hperm in Hid. apply list_elem_of_lookup_1 in Hid as [k Hk]. rewrite (Hr1 k id Hk). eauto.
    + intros i j r Hi Hj Hri Hrj. rewrite <- Hperm in Hi, Hj. apply list_elem_of_lookup_1 in Hi as [ki Hki], Hj as [kj Hkj].
      rewrite (Hr1 _ _ Hki) in Hri. rewrite (Hr1 _ _ Hkj) in Hrj. assert (ki = kj) by (simplify_eq; lia). congruence.
  - intros Hlaw i j ri rj a b Hi Hj Hri Hrj Hla Hlb Hlt. specialize (Hsorted Hlaw). rewrite <- Hperm in Hi, Hj.
    apply list_elem_of_lookup_1 in Hi as [ki Hki], Hj as [kj Hkj].
    rewrite (Hr1 _ _ Hki) in Hri. rewrite (Hr1 _ _ Hkj) in Hrj. simplify_eq.
    destruct (StronglySorted_lookup _ _ ki kj i j Hsorted ltac:(lia) Hki Hkj) as (? & ? & ? & ? & ?). by simplify_eq.
Qed.
End Ranks.

(** ** The order of the rows *)

Section Order.
Context (address_rank evm_rank solana_rank : list Z).

Definition token_rank_of (row : CompactRow) : option Z :=
  (if is_evm (row_chain row) then evm_rank else solana_rank) !! token_id_id row.

(** The chain, the rank of the address and the rank of the token. *)
Definition nft_compare (a b : CompactRow) : comparison :=
  then_with (then_with (chain_compare (row_chain a) (row_chain b))
    (Z.compare (default 0%Z (address_rank !! address_id a)) (default 0%Z (address_rank !! address_id b))))
    (Z.compare (default 0%Z (token_rank_of a)) (default 0%Z (token_rank_of b))).

Definition row_compare (a b : CompactRow) : comparison :=
  then_with (nft_compare a b) (source_compare (source a) (source b)).

#[export] Instance nft_compare_laws : CompareLaws nft_compare.
Proof.
  apply (then_with_laws (λ a b : CompactRow, then_with (chain_compare (row_chain a) (row_chain b))
      (Z.compare (default 0%Z (address_rank !! address_id a)) (default 0%Z (address_rank !! address_id b))))
    (λ a b, Z.compare (default 0%Z (token_rank_of a)) (default 0%Z (token_rank_of b))));
    [|apply (compare_map_laws (λ a, default 0%Z (token_rank_of a)) Z.compare), _].
  apply (then_with_laws (λ a b : CompactRow, chain_compare (row_chain a) (row_chain b))
    (λ a b, Z.compare (default 0%Z (address_rank !! address_id a)) (default 0%Z (address_rank !! address_id b))));
    [|apply (compare_map_laws (λ a, default 0%Z (address_rank !! address_id a)) Z.compare), _].
  apply (compare_map_laws (λ a, ordinal (row_chain a)) Nat.compare), _.
Qed.

#[export] Instance row_compare_laws : CompareLaws row_compare.
Proof.
  apply (then_with_laws nft_compare (λ a b, source_compare (source a) (source b))); [apply _|].
  apply (compare_map_laws source source_compare), _.
Qed.

(** Every id of the rows has a rank, and no two share one. *)
Record ranked (rows : list CompactRow) : Prop := {
  ranked_address : ranks_ids address_rank (address_id <$> rows);
  ranked_evm : ranks_ids evm_rank (token_ids_of rows true);
  ranked_solana : ranks_ids solana_rank (token_ids_of rows false);
}.

Lemma elem_of_token_ids rows evm id :
  id ∈ token_ids_of rows evm ↔ ∃ row, row ∈ rows ∧ is_evm (row_chain row) = evm ∧ id = token_id_id row.
Proof.
  unfold token_ids_of. rewrite (proj2 (sort_dedup_strict Nat.compare _)), list_elem_of_fmap.
  setoid_rewrite list_elem_of_filter. naive_solver.
Qed.

Section Ranked.
Context (rows : list CompactRow) (Hranked : ranked rows).

Lemma token_rank_some row : row ∈ rows → is_Some (token_rank_of row).
Proof.
  intros Hin. unfold token_rank_of. destruct (is_evm (row_chain row)) eqn:E.
  - apply (ranks_bound _ _ (ranked_evm _ Hranked)). apply elem_of_token_ids. by exists row.
  - apply (ranks_bound _ _ (ranked_solana _ Hranked)). apply elem_of_token_ids. by exists row.
Qed.

Lemma address_rank_some row : row ∈ rows → is_Some (address_rank !! address_id row).
Proof. intros Hin. apply (ranks_bound _ _ (ranked_address _ Hranked)). by apply list_elem_of_fmap_2. Qed.

Lemma chain_compare_eq a b : chain_compare a b = Eq ↔ a = b.
Proof. unfold chain_compare. destruct a, b; cbn; naive_solver. Qed.

(** Rows are alike exactly when they are of one NFT. *)
Lemma nft_compare_eq a b : a ∈ rows → b ∈ rows → nft_compare a b = Eq ↔ same_nft a b = true.
Proof.
  intros Ha Hb. unfold nft_compare, same_nft. rewrite !then_with_eq, chain_compare_eq, !Z.compare_eq_iff.
  rewrite !andb_true_iff, !bool_decide_eq_true.
  destruct (address_rank_some a Ha) as [ra Hra], (address_rank_some b Hb) as [rb Hrb].
  destruct (token_rank_some a Ha) as [ta Hta], (token_rank_some b Hb) as [tb Htb].
  rewrite Hra, Hrb, Hta, Htb. cbn. split.
  - intros [[Hc ->] ->]. split; [split; [done|]|].
    + eapply (ranks_inj _ _ (ranked_address _ Hranked)); [by apply list_elem_of_fmap_2..|done|done].
    + unfold token_rank_of in *. rewrite <- Hc in Htb. destruct (is_evm (row_chain a)) eqn:E.
      * eapply (ranks_inj _ _ (ranked_evm _ Hranked)); [apply elem_of_token_ids; eauto..|done|done].
        exists b. by rewrite <- Hc.
      * eapply (ranks_inj _ _ (ranked_solana _ Hranked)); [apply elem_of_token_ids; eauto..|done|done].
        exists b. by rewrite <- Hc.
  - intros [[Hc Haddr] Ht]. rewrite Haddr in Hra. unfold token_rank_of in *. rewrite Hc, Ht in Hta. split; [split|]; congruence.
Qed.
End Ranked.

Lemma sort_rows_spec `{ParallelSort} rows :
  ranked rows →
  ∃ sorted, sort_rows address_rank evm_rank solana_rank rows = Ok sorted ∧ sorted ≡ₚ rows ∧
    StronglySorted (λ a b, row_compare a b ≠ Gt) sorted.
Proof.
  intros Hr. unfold sort_rows.
  set (key := λ row, (default 0%Z (address_rank !! address_id row), default 0%Z (token_rank_of row))).
  assert (Hranks : mapM (row_ranks address_rank evm_rank solana_rank) rows = Some (key <$> rows)).
  { apply mapM_Some_2, Forall2_fmap_r, Forall_Forall2_diag, Forall_forall. intros row Hin.
    destruct (address_rank_some rows Hr row Hin) as [a Ha], (token_rank_some rows Hr row Hin) as [t Ht].
    unfold row_ranks, key, token_rank_of in *. rewrite Ha. cbn [mbind option_bind]. rewrite Ht. unfold compose. by rewrite Ha, Ht. }
  rewrite Hranks. cbn [expect mbind fallible_bind].
  set (pairs := zip rows (key <$> rows)). eexists. split; [reflexivity|].
  assert (Hp := par_sort_permutation ranked_compare pairs).
  assert (Hfst : pairs.*1 = rows) by (apply fst_zip; by rewrite length_fmap).
  split; [by rewrite Hp, Hfst|].
  assert (Hlaws : CompareLaws ranked_compare).
  { apply (then_with_laws (λ l r : CompactRow * (Z * Z), then_with (then_with (chain_compare (row_chain l.1) (row_chain r.1))
        (Z.compare l.2.1 r.2.1)) (Z.compare l.2.2 r.2.2)) (λ l r, source_compare (source l.1) (source r.1)));
      [|apply (compare_map_laws (λ l : CompactRow * (Z * Z), source l.1) source_compare), _].
    apply (then_with_laws (λ l r : CompactRow * (Z * Z), then_with (chain_compare (row_chain l.1) (row_chain r.1))
        (Z.compare l.2.1 r.2.1)) (λ l r, Z.compare l.2.2 r.2.2));
      [|apply (compare_map_laws (λ l : CompactRow * (Z * Z), l.2.2) Z.compare), _].
    apply (then_with_laws (λ l r : CompactRow * (Z * Z), chain_compare (row_chain l.1) (row_chain r.1))
      (λ l r, Z.compare l.2.1 r.2.1)); [|apply (compare_map_laws (λ l : CompactRow * (Z * Z), l.2.1) Z.compare), _].
    apply (compare_map_laws (λ l : CompactRow * (Z * Z), ordinal (row_chain l.1)) Nat.compare), _. }
  assert (HS := par_sort_sorted ranked_compare pairs (laws_lawful_on _ _)).
  assert (Hkey : ∀ p, p ∈ par_sort ranked_compare pairs → p.2 = key p.1).
  { intros p Hin. rewrite Hp in Hin. apply list_elem_of_lookup_1 in Hin as [k Hk]. destruct p as [row x].
    apply lookup_zip_Some in Hk as [H1 H2]. rewrite list_lookup_fmap, H1 in H2. by simplify_eq/=. }
  set (sorted := par_sort ranked_compare pairs) in *. clearbody sorted. clear -HS Hkey.
  induction HS as [|p sorted HS IH Hp]; cbn; constructor; [apply IH; intros; apply Hkey; by right|].
  apply Forall_forall. intros row [p' [-> Hp']]%list_elem_of_fmap. rewrite Forall_forall in Hp.
  pose proof (Hp p' Hp') as Hc. unfold ranked_compare in Hc. rewrite (Hkey p) in Hc by by left.
  rewrite (Hkey p') in Hc by by right. exact Hc.
Qed.
End Order.

(** ** Sources *)

(** A source of the input: a row number that has a successor. *)
Definition source_ok (s : SourceOrder) : Prop := (0 ≤ file_row_number s < 2 ^ 64 - 1)%Z.

Lemma source_slots_spec rows :
  Forall (λ row, source_ok (source row)) rows →
  ∃ slots, source_slots rows = Ok slots ∧
    (∀ row, row ∈ rows → source_slot slots (source row) = Some None) ∧
    (∀ s index, source_slot slots s ≠ Some (Some index)).
Proof.
  intros Hok. unfold source_slots. set (n := source_file_count rows).
  assert (Hn : ∀ row, row ∈ rows → file_ordinal (source row) < n).
  { intros row Hin. unfold n, source_file_count.
    assert (Hgen : ∀ l acc, acc ≤ foldl Nat.max acc l ∧ ∀ x, x ∈ l → x ≤ foldl Nat.max acc l).
    { induction l as [|y l IH]; intros acc; cbn; [split; [done|]; by intros x ?%elem_of_nil|].
      destruct (IH (acc `max` y)) as [H1 H2]. split; [lia|]. intros x [->|Hx]%elem_of_cons; [lia|by apply H2]. }
    destruct (Hgen ((λ row, file_ordinal (source row) + 1) <$> rows) 0) as [_ H2].
    specialize (H2 (file_ordinal (source row) + 1) ltac:(by apply (list_elem_of_fmap_2 (λ row, file_ordinal (source row) + 1)))).
    lia. }
  destruct (loop_invariant
    (λ processed lengths, length lengths = n ∧
       ∀ row, row ∈ processed → ∃ len : Z, lengths !! file_ordinal (source row) = Some len ∧ (file_row_number (source row) < len)%Z)
    extend_source (replicate n 0%Z) rows) as (lengths & -> & Hlen & Hlook).
  - split; [by rewrite length_replicate|]. by intros row ?%elem_of_nil.
  - intros processed row lengths Hin [Hl Hd]. unfold extend_source.
    destruct (lookup_lt_is_Some_2 lengths (file_ordinal (source row))) as [len Hlen]; [rewrite Hl; by apply Hn|].
    rewrite Hlen. cbn [expect mbind fallible_bind]. eexists. split; [reflexivity|]. split; [by rewrite length_insert|].
    rewrite Forall_forall in Hok. pose proof (Hok row Hin) as Hrow. unfold source_ok in Hrow.
    intros row' [Hin'|Hin']%elem_of_app.
    + destruct (Hd row' Hin') as (len' & Hl' & Hlt). destruct (decide (file_ordinal (source row) = file_ordinal (source row'))) as [He|He].
      * rewrite He. rewrite list_lookup_insert_eq by (by eapply lookup_lt_Some). eexists. split; [done|].
        rewrite He in Hlen. simplify_eq. lia.
      * rewrite list_lookup_insert_ne by done. eauto.
    + apply list_elem_of_singleton in Hin' as ->. rewrite list_lookup_insert_eq by (by eapply lookup_lt_Some).
      eexists. split; [done|]. lia.
  - cbn [mbind fallible_bind]. eexists. split; [reflexivity|]. split.
    + intros row Hin. destruct (Hlook row Hin) as (len & Hl & Hlt). unfold source_slot.
      change (map ?f lengths) with (f <$> lengths). rewrite list_lookup_fmap, Hl. cbn [fmap option_fmap option_map mbind option_bind].
      apply lookup_replicate_2. rewrite Forall_forall in Hok. pose proof (Hok row Hin) as [? _]. lia.
    + intros s index. unfold source_slot. change (map ?f lengths) with (f <$> lengths). rewrite list_lookup_fmap.
      destruct (lengths !! file_ordinal s) as [len|]; [|done]. cbn. intros [? _]%lookup_replicate_1. done.
Qed.

Lemma source_slot_set slots s s' index :
  is_Some (source_slot slots s) →
  source_slot (set_source_slot slots s index) s' =
    if decide (file_ordinal s' = file_ordinal s ∧ Z.to_nat (file_row_number s') = Z.to_nat (file_row_number s))
    then Some (Some index) else source_slot slots s'.
Proof.
  intros [v Hv]. unfold source_slot, set_source_slot in *.
  destruct (slots !! file_ordinal s) as [rows|] eqn:Hrows; [|done]. cbn [mbind option_bind] in Hv.
  destruct (decide (file_ordinal s' = file_ordinal s)) as [->|Hne].
  - rewrite list_lookup_alter_eq, Hrows. cbn [fmap option_fmap option_map mbind option_bind].
    destruct (decide (Z.to_nat (file_row_number s') = Z.to_nat (file_row_number s))) as [->|Hne].
    + rewrite decide_True by done. apply list_lookup_insert_eq. by eapply lookup_lt_Some.
    + rewrite decide_False by tauto. by rewrite list_lookup_insert_ne.
  - rewrite decide_False by tauto. by rewrite list_lookup_alter_ne.
Qed.

(** ** Joining rows *)

Section Join.
Context (address_rank evm_rank solana_rank : list Z) (rows : list CompactRow).
Context (Hranked : ranked address_rank evm_rank solana_rank rows).
Abbreviation nft_compare := (nft_compare address_rank evm_rank solana_rank).
Abbreviation row_compare := (row_compare address_rank evm_rank solana_rank).

(** A row that was read without a document. *)
Definition unread (row : CompactRow) : Prop := metadata_id row = None ∧ metadata_source row = None.

Context (Hunread : Forall unread rows) (Hok : Forall (λ row, source_ok (source row)) rows).

Record joined (done : list CompactRow) (q0 : InputQuality) (unique : list CompactRow)
    (slots : list (list (option nat))) (q : InputQuality) : Prop := {
  joined_elem u : u ∈ unique → u ∈ done;
  joined_sorted : StronglySorted (λ a b, nft_compare a b = Lt) unique;
  joined_row r : r ∈ done → ∃ k u, unique !! k = Some u ∧ same_nft u r = true ∧
    source_slot slots (source r) = Some (Some k) ∧ source_le (source u) (source r) = true;
  joined_bound s k : source_slot slots s = Some (Some k) → k < length unique;
  joined_fresh r : r ∈ rows → source r ∉ source <$> done → source_slot slots (source r) = Some None;
  joined_last l : last done = Some l → ∃ u, last unique = Some u ∧ same_nft u l = true;
  joined_duplicates : (duplicate_rows q = duplicate_rows q0 + Z.of_nat (length done) - Z.of_nat (length unique))%Z;
  joined_quality : physical_rows q = physical_rows q0 ∧ invalid_metadata q = invalid_metadata q0 ∧
    oversized_metadata q = oversized_metadata q0 ∧ non_anchor_metadata q = non_anchor_metadata q0;
}.

Lemma same_nft_true a b : same_nft a b = true ↔
  row_chain a = row_chain b ∧ address_id a = address_id b ∧ token_id_id a = token_id_id b.
Proof. unfold same_nft. rewrite !andb_true_iff, !bool_decide_eq_true. tauto. Qed.

Lemma source_cell_inj a b :
  a ∈ rows → b ∈ rows → file_ordinal (source a) = file_ordinal (source b) →
  Z.to_nat (file_row_number (source a)) = Z.to_nat (file_row_number (source b)) → source a = source b.
Proof.
  intros Ha Hb Hf Hn. rewrite Forall_forall in Hok. pose proof (Hok a Ha). pose proof (Hok b Hb). unfold source_ok in *.
  assert (file_row_number (source a) = file_row_number (source b)) by lia.
  destruct (source a), (source b); cbn in *. by subst.
Qed.

(** ** One row *)

Section Step.
Context (done : list CompactRow) (row : CompactRow) (unique : list CompactRow)
  (slots : list (list (option nat))) (q q0 : InputQuality).
Context (HJ : joined done q0 unique slots q) (Hin : ∀ r, r ∈ done ++ [row] → r ∈ rows)
  (HS : StronglySorted (λ a b, row_compare a b ≠ Gt) (done ++ [row])).

Lemma step_row : row ∈ rows.
Proof. apply Hin, elem_of_app. right. by apply list_elem_of_singleton. Qed.

Lemma step_done r : r ∈ done → r ∈ rows.
Proof. intros. apply Hin, elem_of_app. by left. Qed.

Lemma step_le r : r ∈ done → row_compare r row ≠ Gt.
Proof. intros Hr. eapply (StronglySorted_app_1_elem_of (λ a b, row_compare a b ≠ Gt)); [done|done|by left]. Qed.

Lemma step_nft_le r : r ∈ done → nft_compare r row ≠ Gt.
Proof.
  intros Hr. pose proof (step_le r Hr) as H. unfold PrepareFacts.row_compare, then_with in H.
  destruct (nft_compare r row); congruence.
Qed.

(** The slot of a source that was seen is taken. *)
Lemma step_seen : source row ∈ source <$> done → ∃ k, source_slot slots (source row) = Some (Some k).
Proof. intros [r [-> Hr]]%list_elem_of_fmap. destruct (joined_row _ _ _ _ _ HJ r Hr) as (k & u & _ & _ & ? & _). eauto. Qed.

Section Fresh.
Context (Hfresh : source row ∉ source <$> done) (index : nat).
Abbreviation slots' := (set_source_slot slots (source row) index).

Lemma fresh_slot : source_slot slots (source row) = Some None.
Proof. exact (joined_fresh _ _ _ _ _ HJ row step_row Hfresh). Qed.

Lemma fresh_set s :
  source_slot slots' s =
    if decide (file_ordinal s = file_ordinal (source row) ∧ Z.to_nat (file_row_number s) = Z.to_nat (file_row_number (source row)))
    then Some (Some index) else source_slot slots s.
Proof. apply source_slot_set. rewrite fresh_slot. eauto. Qed.

Lemma fresh_own : source_slot slots' (source row) = Some (Some index).
Proof. rewrite fresh_set. by rewrite decide_True. Qed.

Lemma fresh_done r : r ∈ done → source_slot slots' (source r) = source_slot slots (source r).
Proof.
  intros Hr. rewrite fresh_set. rewrite decide_False; [done|]. intros [E1 E2]. apply Hfresh.
  rewrite <- (source_cell_inj r row (step_done r Hr) step_row E1 E2). by apply list_elem_of_fmap_2.
Qed.

Lemma fresh_rest r : r ∈ rows → source r ∉ source <$> (done ++ [row]) → source_slot slots' (source r) = Some None.
Proof.
  intros Hr Hn. rewrite fmap_app, not_elem_of_app in Hn. destruct Hn as [Hn1 Hn2]. rewrite fresh_set.
  rewrite decide_False; [by apply (joined_fresh _ _ _ _ _ HJ)|]. intros [E1 E2]. apply Hn2. cbn.
  rewrite (source_cell_inj r row Hr step_row E1 E2). by left.
Qed.

Lemma fresh_bound s k : source_slot slots' s = Some (Some k) → k = index ∨ k < length unique.
Proof. rewrite fresh_set. case_decide; [intros [= <-]; by left|]. intros Hk. right. by apply (joined_bound _ _ _ _ _ HJ s). Qed.
End Fresh.

(** A repetition of the last NFT. *)
Lemma join_repeated existing :
  duplicate_of unique row = Some existing → source row ∉ source <$> done →
  take_metadata existing row = existing ∧ unique !! (length unique - 1) = Some existing ∧
  joined (done ++ [row]) q0 unique (set_source_slot slots (source row) (length unique - 1)) (add_duplicate q (differs existing row)).
Proof.
  intros Hdup Hfresh. unfold duplicate_of in Hdup. destruct (last unique) as [u|] eqn:Hlast; [|done]. cbn in Hdup.
  destruct (same_nft u row) eqn:Hsame; [|done]. simplify_eq.
  assert (Hu : existing ∈ done) by (apply (joined_elem _ _ _ _ _ HJ); by apply last_Some_elem_of).
  assert (Hk : unique !! (length unique - 1) = Some existing).
  { rewrite last_lookup in Hlast. by replace (length unique - 1) with (pred (length unique)) by lia. }
  assert (Hlt := lookup_lt_Some _ _ _ Hk). split; [|split; [done|split]].
  - destruct (proj1 (Forall_forall _ _) Hunread row step_row) as [_ E]. unfold take_metadata. rewrite E.
    by destruct (metadata_source existing).
  - intros u Hu'. apply elem_of_app. left. by apply (joined_elem _ _ _ _ _ HJ).
  - apply HJ.
  - intros r [Hr|Hr]%elem_of_app.
    + destruct (joined_row _ _ _ _ _ HJ r Hr) as (k & u & H1 & H2 & H3 & H4). exists k, u. by rewrite fresh_done.
    + apply list_elem_of_singleton in Hr as ->. exists (length unique - 1), existing. rewrite fresh_own by done.
      split_and!; [done..|]. apply source_le_spec. pose proof (step_le existing Hu) as H. unfold PrepareFacts.row_compare in H.
      rewrite (proj2 (nft_compare_eq _ _ _ rows Hranked existing row (step_done _ Hu) step_row)) in H by done. exact H.
  - intros s k Hs. apply fresh_bound in Hs; [lia|done].
  - intros r Hr Hn. by apply fresh_rest.
  - intros l Hl. rewrite last_snoc in Hl. simplify_eq. by exists existing.
  - cbn. rewrite length_app, (joined_duplicates _ _ _ _ _ HJ). cbn. lia.
  - apply HJ.
Qed.

(** Without a repetition the row comes after all rows so far. *)
Lemma join_greater u : duplicate_of unique row = None → u ∈ unique → nft_compare u row = Lt.
Proof.
  intros Hdup Hu. destruct (last unique) as [w|] eqn:Hlast; [|apply last_None in Hlast as ->; by apply elem_of_nil in Hu].
  pose proof (last_Some_elem_of _ _ Hlast) as Hw. pose proof (joined_elem _ _ _ _ _ HJ w Hw) as Hwd.
  assert (Hwr : nft_compare w row = Lt).
  { unfold duplicate_of in Hdup. rewrite Hlast in Hdup. cbn in Hdup. destruct (same_nft w row) eqn:Hs; [done|].
    pose proof (step_nft_le w Hwd). destruct (nft_compare w row) eqn:E; [|done|done].
    apply (nft_compare_eq _ _ _ rows Hranked) in E; [congruence|by apply step_done|apply step_row]. }
  apply last_Some in Hlast as [l ->]. apply elem_of_app in Hu as [Hu|Hu]; [|by apply list_elem_of_singleton in Hu as ->].
  pose proof (joined_sorted _ _ _ _ _ HJ) as HU.
  assert (nft_compare u w = Lt) as Huw by (by eapply (StronglySorted_app_1_elem_of (λ a b, nft_compare a b = Lt)); [|done|left]).
  eapply (compare_lt_le_trans nft_compare); [done|by rewrite Hwr].
Qed.

Lemma join_first :
  duplicate_of unique row = None → source row ∉ source <$> done →
  joined (done ++ [row]) q0 (unique ++ [row]) (set_source_slot slots (source row) (length unique)) q.
Proof.
  intros Hdup Hfresh. split.
  - intros u [Hu|Hu]%elem_of_app; apply elem_of_app; [left; by apply (joined_elem _ _ _ _ _ HJ)|by right].
  - apply StronglySorted_app_2; [|apply HJ|repeat constructor]. intros a b Ha Hb%list_elem_of_singleton. subst b. by apply join_greater.
  - intros r [Hr|Hr]%elem_of_app.
    + destruct (joined_row _ _ _ _ _ HJ r Hr) as (k & u & H1 & H2 & H3 & H4). exists k, u. rewrite fresh_done by done.
      split_and!; try done. by apply lookup_app_l_Some.
    + apply list_elem_of_singleton in Hr as ->. exists (length unique), row. rewrite fresh_own by done.
      split_and!; [by apply list_lookup_middle|by apply same_nft_true|done|].
      apply source_le_spec, compare_eq_le, compare_refl; apply _.
  - intros s k Hs. rewrite length_app. cbn. apply fresh_bound in Hs; [lia|done].
  - intros r Hr Hn. by apply fresh_rest.
  - intros l Hl. rewrite last_snoc in Hl. simplify_eq. exists l. rewrite last_snoc. split; [done|by apply same_nft_true].
  - rewrite !length_app, (joined_duplicates _ _ _ _ _ HJ). cbn. lia.
  - apply HJ.
Qed.

Lemma join_row_step :
  if decide (source row ∈ source <$> done) then join_row (unique, slots, q) row = Err InputError
  else ∃ unique' slots' q', join_row (unique, slots, q) row = Ok (unique', slots', q') ∧
         joined (done ++ [row]) q0 unique' slots' q'.
Proof.
  assert (Hslot : ∀ v, source_slot slots (source row) = Some v →
    (slot ← ok_or StateError (source_slot slots (source row)); fail_if (bool_decide (is_Some slot)) InputError) =
    match v with Some _ => Err InputError | None => Ok () end).
  { intros v ->. cbn [ok_or mbind fallible_bind]. destruct v; [by rewrite bool_decide_true by eauto|].
    by rewrite bool_decide_false by (by intros [? [=]]). }
  unfold join_row. case_decide as Hseen.
  - destruct (step_seen Hseen) as [k Hk]. destruct (duplicate_of unique row); rewrite Hk; cbn [ok_or mbind fallible_bind];
      by rewrite bool_decide_true by eauto.
  - rewrite (fresh_slot Hseen). destruct (duplicate_of unique row) as [existing|] eqn:Hdup; cbn [ok_or mbind fallible_bind];
      rewrite bool_decide_false by (by intros [? [=]]); cbn [fail_if mbind fallible_bind];
      eexists _, _, _; (split; [reflexivity|]).
    + destruct (join_repeated existing Hdup Hseen) as (-> & Hk & H). by rewrite list_insert_id.
    + by apply join_first.
Qed.
End Step.

(** All rows: an error exactly when two rows have one source. *)
Lemma join_rows_spec todo done unique slots q q0 :
  joined done q0 unique slots q → (∀ r, r ∈ done ++ todo → r ∈ rows) →
  StronglySorted (λ a b, row_compare a b ≠ Gt) (done ++ todo) → NoDup (source <$> done) →
  if decide (NoDup (source <$> (done ++ todo))) then
    ∃ unique' slots' q', loop join_row (unique, slots, q) todo = Ok (unique', slots', q') ∧
      joined (done ++ todo) q0 unique' slots' q'
  else loop join_row (unique, slots, q) todo = Err InputError.
Proof.
  revert done unique slots q. induction todo as [|row todo IH]; intros done unique slots q HJ Hin HS Hnd.
  { rewrite app_nil_r in *. rewrite decide_True by done. eexists _, _, _. done. }
  replace (done ++ row :: todo) with ((done ++ [row]) ++ todo) in * by (by rewrite <- (assoc_L (++))).
  pose proof (join_row_step done row unique slots q q0 HJ) as Hstep.
  specialize (Hstep ltac:(intros r Hr; apply Hin; apply elem_of_app; by left) ltac:(by eapply StronglySorted_app_1_l)).
  cbn [loop]. destruct (decide (source row ∈ source <$> done)) as [Hseen|Hfresh].
  - rewrite decide_False; [by rewrite Hstep|]. rewrite !fmap_app. intros [(_ & Hd & _)%NoDup_app _]%NoDup_app.
    eapply Hd; [done|]. cbn. by left.
  - destruct Hstep as (unique' & slots' & q' & -> & HJ'). cbn [mbind fallible_bind]. apply IH; [done..|].
    rewrite fmap_app. apply NoDup_app. split; [done|]. cbn. split; [|apply NoDup_singleton]. set_solver.
Qed.
End Join.

Lemma same_contract_true a b : same_contract a b = true ↔ row_chain b = row_chain a ∧ address_id b = address_id a.
Proof. unfold same_contract. by rewrite andb_true_iff, !bool_decide_eq_true. Qed.

(** ** Runs *)

Lemma contract_run_length_le first rows : run_length first rows ≤ length rows.
Proof. induction rows as [|r rows IH]; cbn; [done|]. destruct (same_contract first r); lia. Qed.

Lemma run_length_same first rows k r :
  k < run_length first rows → rows !! k = Some r → same_contract first r = true.
Proof.
  revert k. induction rows as [|x rows IH]; intros k Hk Hr; cbn in Hk; [lia|].
  destruct (same_contract first x) eqn:E; [|lia]. destruct k as [|k]; cbn in Hr; [by simplify_eq|]. apply (IH k); [lia|done].
Qed.

Lemma run_length_next first rows r : rows !! run_length first rows = Some r → same_contract first r = false.
Proof.
  induction rows as [|x rows IH]; cbn [run_length]; [done|].
  destruct (same_contract first x) eqn:E; [exact IH|]. cbn. by intros [= <-].
Qed.

(** A run of the rows [rows], of which the first has number [start]. *)
Record run (rows : list CompactRow) (start : nat) (range : nat * nat) : Prop := {
  run_bounds : start ≤ range.1 < range.2 ∧ range.2 ≤ start + length rows;
  run_same i r : range.1 ≤ i < range.2 → rows !! (i - start) = Some r →
    ∃ first, rows !! (range.1 - start) = Some first ∧ same_contract first r = true;
  run_end r : rows !! (range.2 - start) = Some r →
    ∃ first, rows !! (range.1 - start) = Some first ∧ same_contract first r = false;
}.

Lemma ranges_from_spec fuel start rows :
  length rows ≤ fuel →
  Forall (run rows start) (ranges_from fuel start rows) ∧
  (∀ i, start ≤ i < start + length rows → ∃ range, range ∈ ranges_from fuel start rows ∧ range.1 ≤ i < range.2) ∧
  StronglySorted (λ a b : nat * nat, a.2 ≤ b.1) (ranges_from fuel start rows).
Proof.
  revert start rows. induction fuel as [|fuel IH]; intros start rows Hf.
  { destruct rows; cbn in *; [|lia]. split_and!; [constructor|intros; lia|constructor]. }
  destruct rows as [|first rest]; cbn [ranges_from].
  { cbn. split_and!; [constructor|intros; lia|constructor]. }
  set (n := run_length first rest). cbn [length] in Hf.
  assert (Hn : n ≤ length rest) by apply contract_run_length_le.
  destruct (IH (start + 1 + n) (drop n rest)) as (H1 & H2 & H3); [rewrite length_drop; lia|].
  assert (Hshift : ∀ i, start + 1 + n ≤ i → (first :: rest) !! (i - start) = drop n rest !! (i - (start + 1 + n))).
  { intros i Hi. rewrite lookup_drop. replace (i - start) with (S (n + (i - (start + 1 + n)))) by lia. done. }
  rewrite length_drop in H2. split_and!.
  - constructor.
    + split; cbn [fst snd].
      * cbn [length]. lia.
      * intros i r Hi Hr. exists first. rewrite Nat.sub_diag. split; [done|].
        destruct (i - start) as [|k] eqn:E; cbn in Hr; [simplify_eq; by apply same_contract_true|].
        apply (run_length_same first rest k); [fold n; lia|done].
      * intros r Hr. exists first. rewrite Nat.sub_diag. split; [done|].
        replace (start + 1 + n - start) with (S n) in Hr by lia. by apply (run_length_next first rest).
    + eapply Forall_impl; [exact H1|]. intros range [B1 B2 B3]. rewrite length_drop in B1. split.
      * cbn [length]. lia.
      * intros i r Hi Hr. rewrite Hshift in Hr by lia. rewrite Hshift by lia. by eapply B2.
      * intros r Hr. rewrite Hshift in Hr by lia. rewrite Hshift by lia. by apply B3.
  - intros i Hi. cbn [length] in Hi. destruct (decide (i < start + 1 + n)).
    + exists (start, start + 1 + n). cbn. split; [by left|lia].
    + destruct (H2 i) as (range & Hin & Hr); [lia|]. exists range. split; [by right|done].
  - constructor; [done|]. rewrite Forall_forall in *. intros range Hin. cbn. apply (H1 range Hin).
Qed.

Section Contracts.
Context (rows : list CompactRow).
Abbreviation ranges := (contract_ranges_of rows).

Lemma contract_runs : Forall (run rows 0) ranges.
Proof. by apply ranges_from_spec. Qed.

Lemma contract_run c range : ranges !! c = Some range →
  range.1 < range.2 ∧ range.2 ≤ length rows ∧
  ∃ first, rows !! range.1 = Some first ∧
    (∀ i r, range.1 ≤ i < range.2 → rows !! i = Some r → same_contract first r = true) ∧
    (∀ r, rows !! range.2 = Some r → same_contract first r = false).
Proof.
  intros Hc. pose proof contract_runs as H. rewrite Forall_lookup in H. destruct (H c range Hc) as [B1 B2 B3].
  cbn in B1. split; [lia|]. split; [lia|].
  destruct (lookup_lt_is_Some_2 rows range.1) as [first Hfirst]; [lia|]. exists first. split; [done|]. split.
  - intros i r Hi Hr. destruct (B2 i r Hi) as (f & Hf & ?); [by rewrite Nat.sub_0_r|]. rewrite Nat.sub_0_r in Hf. by simplify_eq.
  - intros r Hr. destruct (B3 r) as (f & Hf & ?); [by rewrite Nat.sub_0_r|]. rewrite Nat.sub_0_r in Hf. by simplify_eq.
Qed.

Lemma contract_cover i : i < length rows → ∃ c range, ranges !! c = Some range ∧ range.1 ≤ i < range.2.
Proof.
  intros Hi. destruct (ranges_from_spec (length rows) 0 rows (le_n _)) as (_ & H & _).
  destruct (H i) as (range & Hin & Hr); [lia|]. apply list_elem_of_lookup_1 in Hin as [c Hc]. eauto.
Qed.

Lemma contract_order c1 c2 r1 r2 : ranges !! c1 = Some r1 → ranges !! c2 = Some r2 → c1 < c2 → r1.2 ≤ r2.1.
Proof.
  intros H1 H2 Hlt. destruct (ranges_from_spec (length rows) 0 rows (le_n _)) as (_ & _ & HS).
  exact (StronglySorted_lookup _ _ c1 c2 r1 r2 HS Hlt H1 H2).
Qed.

Lemma contract_disjoint c1 c2 r1 r2 i :
  ranges !! c1 = Some r1 → ranges !! c2 = Some r2 → r1.1 ≤ i < r1.2 → r2.1 ≤ i < r2.2 → c1 = c2.
Proof.
  intros H1 H2 Hi1 Hi2. destruct (lt_eq_lt_dec c1 c2) as [[Hlt|]|Hlt]; [|done|].
  - pose proof (contract_order c1 c2 r1 r2 H1 H2 Hlt). lia.
  - pose proof (contract_order c2 c1 r2 r1 H2 H1 Hlt). lia.
Qed.

(** ** The contract of a row *)

Lemma fill_lookup (l : list (option nat)) v s n i :
  foldl (λ l row, <[row := Some v]> l) l (seq s n) !! i =
    if decide (s ≤ i < s + n ∧ i < length l) then Some (Some v) else l !! i.
Proof.
  revert l s. induction n as [|n IH]; intros l s; cbn [seq foldl]; [by rewrite decide_False by lia|].
  rewrite IH, length_insert. destruct (decide (i = s)) as [->|Hne].
  - rewrite decide_False by lia. destruct (decide (s < length l)).
    + rewrite decide_True by lia. by apply list_lookup_insert_eq.
    + rewrite decide_False by lia. rewrite !lookup_ge_None_2; [done|lia|rewrite length_insert; lia].
  - rewrite list_lookup_insert_ne by done. destruct (decide (S s ≤ i < S s + n ∧ i < length l)).
    + by rewrite decide_True by lia.
    + by rewrite decide_False by lia.
Qed.

Lemma fill_length (l : list (option nat)) v s n : length (foldl (λ l row, <[row := Some v]> l) l (seq s n)) = length l.
Proof. revert l s. induction n as [|n IH]; intros l s; cbn; [done|]. by rewrite IH, length_insert. Qed.

Lemma fill_ranges_spec (entries : list (nat * (nat * nat))) (l : list (option nat)) i c range :
  (c, range) ∈ entries → range.1 ≤ i < range.2 → i < length l →
  (∀ c' range', (c', range') ∈ entries → range'.1 ≤ i < range'.2 → c' = c) →
  foldl fill_range l entries !! i = Some (Some c) ∧ length (foldl fill_range l entries) = length l.
Proof.
  intros Hin Hi Hl Hu. induction entries as [|[c' range'] entries IH] using rev_ind; [by apply elem_of_nil in Hin|].
  rewrite foldl_app. cbn [foldl]. unfold fill_range at 1 3. cbn [fst snd]. rewrite fill_length, fill_lookup.
  assert (Hlen : length (foldl fill_range l entries) = length l).
  { clear. revert l. induction entries as [|[c r] entries IH]; intros l; [done|]. cbn [foldl]. rewrite IH. apply fill_length. }
  rewrite Hlen. split; [|done]. case_decide as Hd.
  - do 2 f_equal. eapply Hu; [apply elem_of_app; right; by left|lia].
  - apply elem_of_app in Hin as [Hin|Hin].
    + apply IH; [done|]. intros; eapply Hu; [apply elem_of_app; by left|done].
    + apply list_elem_of_singleton in Hin. simplify_eq. lia.
Qed.

Lemma elem_of_imap_pair {A} (l : list A) c x : (c, x) ∈ imap pair l ↔ l !! c = Some x.
Proof. rewrite elem_of_lookup_imap. naive_solver. Qed.

Lemma row_contracts_spec i c range :
  ranges !! c = Some range → range.1 ≤ i < range.2 → row_contracts rows ranges !! i = Some (Some c).
Proof.
  intros Hc Hi. destruct (contract_run c range Hc) as (_ & Hle & _). unfold row_contracts.
  apply (fill_ranges_spec _ _ i c range); [by apply elem_of_imap_pair|done|rewrite length_replicate; lia|].
  intros c' range' Hc'%elem_of_imap_pair Hi'. by eapply contract_disjoint.
Qed.

(** ** Contracts by key *)

Lemma insert_contracts_spec :
  ∃ by_key, loop (insert_contract rows) ∅ (imap pair ranges) = Ok by_key.
Proof.
  destruct (loop_invariant (λ _ _, True) (insert_contract rows) ∅ (imap pair ranges)) as (by_key & H & _); [done| |eauto].
  intros done [c range] m Hin%elem_of_imap_pair _. destruct (contract_run c range Hin) as (_ & _ & first & Hf & _).
  unfold insert_contract. cbn [fst snd]. rewrite Hf. cbn. eauto.
Qed.

(** ** Anchors before the documents *)

Lemma anchor_contracts_unread k (st : list CompactRow * list (list (option nat)) * InputQuality) :
  st.1.1 = rows → Forall unread rows → loop (anchor_contract k) st (imap pair ranges) = Ok st.
Proof.
  intros Hst Hun. assert (Hstep : ∀ entry, entry ∈ imap pair ranges → anchor_contract k st entry = Ok st).
  { intros [c range] Hin%elem_of_imap_pair. destruct (contract_run c range Hin) as (_ & Hle & _). unfold anchor_contract. cbn [fst snd].
    assert (Hrow : ∀ row, row ∈ seq range.1 (range.2 - range.1) → anchor_row k c (st, 0) row = Ok (st, 0)).
    { intros row Hr%elem_of_seq. destruct st as [[rows' anchors] q]. cbn in Hst. subst rows'. unfold anchor_row.
      destruct (lookup_lt_is_Some_2 rows row) as [r Hr']; [lia|]. rewrite Hr'. cbn [expect mbind fallible_bind].
      rewrite Forall_lookup in Hun. by destruct (Hun row r Hr') as [-> _]. }
    assert (Hloop : ∀ l, (∀ row, row ∈ l → anchor_row k c (st, 0) row = Ok (st, 0)) → loop (anchor_row k c) (st, 0) l = Ok (st, 0)).
    { induction l as [|x l IH]; intros Hl; [done|]. cbn [loop]. rewrite Hl by by left. cbn. apply IH. intros; apply Hl; by right. }
    by rewrite Hloop. }
  induction (imap pair ranges) as [|e l IH]; [done|]. cbn [loop]. rewrite Hstep by by left. cbn. apply IH. intros; apply Hstep; by right.
Qed.
End Contracts.
