(* ===== verification/Prepared.v ===== *)
(** Proofs about a prepared builder of [Builder], for rows read without documents: one row
    per NFT in the order of contracts and tokens, the row of every source, and the runs of
    the contracts; and the ends of the second pass. *)

From S2P Require Import Prelude Text CanonicalJson Anchors SortedLists Events ValuePools.
From S2P Require Import Fallible AnalysisJson Builder AnchorRows PrepareFacts.

Lemma sorted_lt_NoDup {A} (cmp : A → A → comparison) `{!CompareLaws cmp} l :
  StronglySorted (λ a b, cmp a b = Lt) l → NoDup l.
Proof.
  induction 1 as [|x l _ IH Hx]; constructor; [|done]. intros Hin. rewrite Forall_forall in Hx.
  pose proof (Hx x Hin) as E. by rewrite compare_refl in E by apply _.
Qed.

Section Prepared.
Context `{ParallelSort} (stable_hash : list N → N).

(** A builder that has read rows without documents. *)
Record readable (b : ResidentBuilder) (la lt lm : list str) : Prop := {
  readable_addresses : pool_holds stable_hash (addresses b) la;
  readable_tokens : pool_holds stable_hash (token_ids b) lt;
  readable_metadata : pool_holds stable_hash (metadata b) lm;
  readable_ids r : r ∈ logical_rows b → address_id r < length la ∧ token_id_id r < length lt;
  readable_unread : Forall unread (logical_rows b);
  readable_sources : Forall (λ row, source_ok (source row)) (logical_rows b);
  readable_ranges : contract_ranges b = [];
  readable_capacity : (Z.of_nat (length la) < 2 ^ 32)%Z ∧ (Z.of_nat (length (logical_rows b)) ≤ u32_max)%Z;
}.

(** ** Ranks *)

Lemma token_ranks_spec b la lt lm evm :
  readable b la lt lm →
  ∃ ranks, token_ranks (logical_rows b) (token_ids b) evm = Ok ranks ∧
    ranks_ids ranks (token_ids_of (logical_rows b) evm) ∧
    (lawful_on (token_cmp (if evm then Ethereum else Solana)) (omap (lt !!.) (token_ids_of (logical_rows b) evm)) →
      ranks_texts (token_cmp (if evm then Ethereum else Solana)) lt ranks (token_ids_of (logical_rows b) evm)).
Proof.
  intros Hb. unfold token_ranks. pose proof (sort_dedup_strict Nat.compare (token_id_id <$> filter (λ row, is_evm (row_chain row) = evm) (logical_rows b))) as [Hs _].
  destruct (ranked_ids stable_hash u32_max (pool_len (token_ids b)) (token_cmp (if evm then Ethereum else Solana))
    (token_ids b) lt (token_ids_of (logical_rows b) evm)) as (sorted & ranks & -> & _ & Hr & Hids & Hlaw).
  - apply Hb.
  - apply (strictly_sorted_NoDup Nat.compare). exact Hs.
  - intros id (row & Hin & _ & ->)%elem_of_token_ids. by apply (readable_ids _ _ _ _ Hb).
  - by rewrite (len_holds _ _ _ (readable_tokens _ _ _ _ Hb)).
  - cbn [mbind fallible_bind]. exists ranks. done.
Qed.

Lemma address_ranks_spec b la lt lm :
  readable b la lt lm →
  ∃ ranks, address_ranks (addresses b) = Ok ranks ∧ ranks_ids ranks (seq 0 (length la)) ∧
    ranks_texts str_compare la ranks (seq 0 (length la)).
Proof.
  intros Hb. unfold address_ranks, len_u32. rewrite (len_holds _ _ _ (readable_addresses _ _ _ _ Hb)).
  rewrite Z.mod_small by (pose proof (readable_capacity _ _ _ _ Hb); lia). rewrite Nat2Z.id.
  destruct (ranked_ids stable_hash 0%Z (length la) str_compare (addresses b) la (seq 0 (length la)))
    as (sorted & ranks & -> & Hlen & Hr & Hids & Hlaw).
  - apply Hb.
  - apply NoDup_seq.
  - intros id Hid%elem_of_seq. lia.
  - done.
  - cbn [mbind fallible_bind]. rewrite Hlen, length_seq. exists ranks. split; [done|]. split; [done|].
    apply Hlaw, laws_lawful_on; apply _.
Qed.

Lemma ranks_ids_subset ranks ids ids' : (∀ id, id ∈ ids' → id ∈ ids) → ranks_ids ranks ids → ranks_ids ranks ids'.
Proof. intros Hsub [H1 H2]. split; eauto. Qed.

(** ** Contracts of sorted rows *)

Section Sorted.
Context (address_rank evm_rank solana_rank : list Z) (rows : list CompactRow).
Context (Hranked : ranked address_rank evm_rank solana_rank rows).
Context (HS : StronglySorted (λ a b, nft_compare address_rank evm_rank solana_rank a b = Lt) rows).

Definition contract_compare (a b : CompactRow) : comparison :=
  then_with (chain_compare (row_chain a) (row_chain b))
    (Z.compare (default 0%Z (address_rank !! address_id a)) (default 0%Z (address_rank !! address_id b))).

#[local] Instance contract_compare_laws : CompareLaws contract_compare.
Proof.
  apply (then_with_laws (λ a b : CompactRow, chain_compare (row_chain a) (row_chain b))
    (λ a b, Z.compare (default 0%Z (address_rank !! address_id a)) (default 0%Z (address_rank !! address_id b))));
    [|apply (compare_map_laws (λ a, default 0%Z (address_rank !! address_id a)) Z.compare), _].
  apply (compare_map_laws (λ a, ordinal (row_chain a)) Nat.compare), _.
Qed.

Lemma contract_compare_eq a b : a ∈ rows → b ∈ rows → contract_compare a b = Eq ↔ same_contract a b = true.
Proof.
  intros Ha Hb. unfold contract_compare. rewrite then_with_eq, chain_compare_eq, Z.compare_eq_iff, same_contract_true.
  destruct (address_rank_some _ _ _ rows Hranked a Ha) as [ra Hra], (address_rank_some _ _ _ rows Hranked b Hb) as [rb Hrb].
  rewrite Hra, Hrb. cbn. split.
  - intros [-> ->]. split; [done|]. eapply (ranks_inj _ _ (ranked_address _ _ _ _ Hranked)); [by apply list_elem_of_fmap_2..|done|done].
  - intros [-> E]. rewrite E in Hrb. split; congruence.
Qed.

Lemma sorted_contract_le i j a b : i < j → rows !! i = Some a → rows !! j = Some b → contract_compare a b ≠ Gt.
Proof.
  intros Hij Ha Hb. pose proof (StronglySorted_lookup _ _ i j a b HS Hij Ha Hb) as Hlt. cbn in Hlt.
  unfold nft_compare in Hlt. fold (contract_compare a b) in Hlt. destruct (contract_compare a b); [done|done|].
  by cbn in Hlt.
Qed.

(** The rows of a contract are in one run. *)
Lemma contract_of_key i j a b c1 c2 r1 r2 :
  rows !! i = Some a → rows !! j = Some b → same_contract a b = true →
  contract_ranges_of rows !! c1 = Some r1 → r1.1 ≤ i < r1.2 →
  contract_ranges_of rows !! c2 = Some r2 → r2.1 ≤ j < r2.2 → c1 = c2.
Proof.
  assert (Hgen : ∀ i j a b c1 c2 r1 r2, rows !! i = Some a → rows !! j = Some b → same_contract a b = true →
    contract_ranges_of rows !! c1 = Some r1 → r1.1 ≤ i < r1.2 →
    contract_ranges_of rows !! c2 = Some r2 → r2.1 ≤ j < r2.2 → ¬ c1 < c2).
  { clear i j a b c1 c2 r1 r2. intros i j a b c1 c2 r1 r2 Ha Hb Hsame H1 Hi H2 Hj Hlt.
    pose proof (contract_order rows c1 c2 r1 r2 H1 H2 Hlt) as Hle.
    destruct (contract_run rows c1 r1 H1) as (_ & _ & first & Hf & Hrun & Hend).
    destruct (lookup_lt_is_Some_2 rows r1.2) as [next Hnext]; [apply lookup_lt_Some in Hb; lia|].
    pose proof (Hend next Hnext) as Hdiff. pose proof (Hrun i a Hi Ha) as Hfa.
    assert (Helem : ∀ k r, rows !! k = Some r → r ∈ rows) by (intros; by eapply list_elem_of_lookup_2).
    assert (Hfb : contract_compare first b = Eq).
    { apply contract_compare_eq; [eauto..|]. apply same_contract_true in Hfa, Hsame. apply same_contract_true. intuition congruence. }
    assert (Hfn : contract_compare first next ≠ Gt) by (eapply (sorted_contract_le r1.1 r1.2); [lia|done|done]).
    assert (Hnb : contract_compare next b ≠ Gt).
    { destruct (decide (r1.2 = j)) as [<-|]; [|eapply (sorted_contract_le r1.2 j); [lia|done|done]].
      assert (next = b) as -> by congruence. by rewrite compare_refl by apply _. }
    assert (contract_compare first next = Eq) as E.
    { destruct (contract_compare first next) eqn:E; [done| |done]. exfalso.
      assert (contract_compare first b = Lt) by (by eapply (compare_lt_le_trans contract_compare first next b)). congruence. }
    apply contract_compare_eq in E; [congruence|eauto..]. }
  intros Ha Hb Hsame H1 Hi H2 Hj.
  pose proof (Hgen i j a b c1 c2 r1 r2 Ha Hb Hsame H1 Hi H2 Hj).
  assert (same_contract b a = true) as Hsame' by (apply same_contract_true in Hsame; apply same_contract_true; intuition congruence).
  pose proof (Hgen j i b a c2 c1 r2 r1 Hb Ha Hsame' H2 Hj H1 Hi). lia.
Qed.

(** Tokens of one contract are in the order of their ranks. *)
Lemma sorted_token_rank i j a b :
  rows !! i = Some a → rows !! j = Some b → same_contract a b = true →
  ∃ ra rb, token_rank_of evm_rank solana_rank a = Some ra ∧ token_rank_of evm_rank solana_rank b = Some rb ∧ ((ra < rb)%Z ↔ i < j).
Proof.
  intros Ha Hb Hsame. assert (a ∈ rows ∧ b ∈ rows) as [Hia Hib] by (split; by eapply list_elem_of_lookup_2).
  destruct (token_rank_some _ _ _ rows Hranked a Hia) as [ra Hra], (token_rank_some _ _ _ rows Hranked b Hib) as [rb Hrb].
  exists ra, rb. split; [done|]. split; [done|].
  assert (Hlt : ∀ i j a b ra rb, i < j → rows !! i = Some a → rows !! j = Some b → same_contract a b = true →
    token_rank_of evm_rank solana_rank a = Some ra → token_rank_of evm_rank solana_rank b = Some rb → (ra < rb)%Z).
  { clear i j a b ra rb Ha Hb Hsame Hra Hrb Hia Hib. intros i j a b ra rb Hij Ha Hb Hsame Hra Hrb.
    pose proof (StronglySorted_lookup _ _ i j a b HS Hij Ha Hb) as Hlt. cbn in Hlt. unfold nft_compare in Hlt.
    fold (contract_compare a b) in Hlt. rewrite (proj2 (contract_compare_eq a b ltac:(by eapply list_elem_of_lookup_2) ltac:(by eapply list_elem_of_lookup_2)) Hsame) in Hlt.
    rewrite Hra, Hrb in Hlt. cbn in Hlt. by apply Z.compare_lt_iff. }
  assert (same_contract b a = true) as Hsame' by (apply same_contract_true in Hsame; apply same_contract_true; intuition congruence).
  split.
  - intros Hr. destruct (lt_eq_lt_dec i j) as [[|Heq]|Hgt]; [done| |].
    + subst j. assert (a = b) as -> by congruence. assert (ra = rb) by congruence. lia.
    + pose proof (Hlt j i b a rb ra Hgt Hb Ha Hsame' Hrb Hra). lia.
  - intros Hij. by apply (Hlt i j a b).
Qed.
End Sorted.

(** ** The prepared builder *)

(** What preparation makes of the rows of a builder. *)
Record prepared (b b' : ResidentBuilder) (la lm : list str) : Prop := {
  prepared_layout : layout b';
  prepared_attached : attached stable_hash b' ∅ lm;
  prepared_rows u : u ∈ logical_rows b' → u ∈ logical_rows b ∧
    ∀ r, r ∈ logical_rows b → same_nft u r = true → source_le (source u) (source r) = true;
  prepared_sources r : r ∈ logical_rows b → ∃ k u, logical_rows b' !! k = Some u ∧ same_nft u r = true ∧
    source_slot (metadata_source_rows b') (source r) = Some (Some k);
  prepared_distinct i j u v : logical_rows b' !! i = Some u → logical_rows b' !! j = Some v → same_nft u v = true → i = j;
  prepared_ranges : contract_ranges b' = contract_ranges_of (logical_rows b');
  prepared_contracts i j u v c1 c2 : logical_rows b' !! i = Some u → logical_rows b' !! j = Some v →
    in_range b' c1 i → in_range b' c2 j → (c1 = c2 ↔ same_contract u v = true);
  prepared_order i j u v a1 a2 : i < j → logical_rows b' !! i = Some u → logical_rows b' !! j = Some v →
    la !! address_id u = Some a1 → la !! address_id v = Some a2 →
    then_with (chain_compare (row_chain u) (row_chain v)) (str_compare a1 a2) ≠ Gt;
  prepared_quality : (duplicate_rows (quality b') = duplicate_rows (quality b) + Z.of_nat (length (logical_rows b)) - Z.of_nat (length (logical_rows b')))%Z ∧
    logical_nfts (quality b') = Z.of_nat (length (logical_rows b')) ∧
    invalid_metadata (quality b') = invalid_metadata (quality b) ∧ oversized_metadata (quality b') = oversized_metadata (quality b);
  prepared_pools : addresses b' = addresses b ∧ token_ids b' = token_ids b ∧ names b' = names b ∧ uris b' = uris b ∧ metadata b' = metadata b;
}.

Section Final.
Context (b : ResidentBuilder) (la lt lm : list str) (k : nat).
Context (Hb : readable b la lt lm) (Hk : 1 ≤ k ≤ 8).
Context (address_rank evm_rank solana_rank : list Z).
Context (Hranked : ranked address_rank evm_rank solana_rank (logical_rows b)).
Context (Htexts : ranks_texts str_compare la address_rank (seq 0 (length la))).
Context (unique : list CompactRow) (slots : list (list (option nat))) (q : InputQuality) (sorted : list CompactRow).
Context (Hsorted : sorted ≡ₚ logical_rows b).
Context (HJ : joined address_rank evm_rank solana_rank (logical_rows b) sorted (quality b) unique slots q).
Context (by_key : gmap (ChainId * nat) nat).

Definition final_builder : ResidentBuilder :=
  {| addresses := addresses b; token_ids := token_ids b; names := names b; uris := uris b;
     metadata := metadata b; logical_rows := unique; contract_ranges := contract_ranges_of unique; contract_by_key := by_key;
     metadata_anchor_rows := replicate (length (contract_ranges_of unique)) EMPTY_SLOTS; metadata_source_rows := slots;
     metadata_row_contracts := row_contracts unique (contract_ranges_of unique);
     metadata_anchor_count := k; evm_token_rank := evm_rank; solana_token_rank := solana_rank;
     quality := set_logical q (Z.of_nat (length unique)) |}.

Lemma unique_row u : u ∈ unique → u ∈ logical_rows b.
Proof. intros Hu%(joined_elem _ _ _ _ _ _ _ _ _ HJ). by rewrite <- Hsorted. Qed.

Lemma unique_ranked : ranked address_rank evm_rank solana_rank unique.
Proof.
  destruct Hranked as [H1 H2 H3]. split.
  - eapply ranks_ids_subset; [|exact H1]. intros id [r [-> Hr%unique_row]]%list_elem_of_fmap. by apply list_elem_of_fmap_2.
  - eapply ranks_ids_subset; [|exact H2]. intros id (r & Hr%unique_row & ? & ->)%elem_of_token_ids. apply elem_of_token_ids. eauto.
  - eapply ranks_ids_subset; [|exact H3]. intros id (r & Hr%unique_row & ? & ->)%elem_of_token_ids. apply elem_of_token_ids. eauto.
Qed.

Lemma final_rank c r1 r2 row1 row2 range :
  contract_ranges_of unique !! c = Some range → range.1 ≤ row1 < range.2 → range.1 ≤ row2 < range.2 →
  unique !! row1 = Some r1 → unique !! row2 = Some r2 → same_contract r1 r2 = true.
Proof.
  intros Hc H1 H2 Hr1 Hr2. destruct (contract_run unique c range Hc) as (_ & _ & first & _ & Hrun & _).
  pose proof (Hrun _ _ H1 Hr1) as E1. pose proof (Hrun _ _ H2 Hr2) as E2. apply same_contract_true in E1, E2.
  apply same_contract_true. intuition congruence.
Qed.

Lemma final_layout : layout final_builder.
Proof.
  split; cbn [final_builder logical_rows contract_ranges metadata_row_contracts metadata_anchor_count metadata_source_rows].
  - done.
  - intros row Hlt. destruct (contract_cover unique row Hlt) as (c & range & Hc & Hr). exists c.
    split; [by eapply row_contracts_spec|by exists range].
  - intros c1 c2 row (r1 & H1 & Hr1) (r2 & H2 & Hr2). exact (contract_disjoint unique c1 c2 r1 r2 row H1 H2 Hr1 Hr2).
  - intros c row (range & Hc & Hr). destruct (contract_run unique c range Hc) as (_ & ? & _). lia.
  - intros c row1 row2 (range & Hc & H1) (range' & Hc' & H2). cbn in Hc, Hc'. simplify_eq.
    destruct (contract_run unique c range Hc) as (_ & Hle & _).
    destruct (lookup_lt_is_Some_2 unique row1) as [r1 Hr1]; [lia|]. destruct (lookup_lt_is_Some_2 unique row2) as [r2 Hr2]; [lia|].
    pose proof (final_rank c r1 r2 row1 row2 range Hc H1 H2 Hr1 Hr2) as Hsame.
    destruct (sorted_token_rank address_rank evm_rank solana_rank unique unique_ranked (joined_sorted _ _ _ _ _ _ _ _ _ HJ)
      row1 row2 r1 r2 Hr1 Hr2 Hsame) as (k1 & k2 & Hk1 & Hk2 & Hord).
    exists (row_chain r1), k1, k2. unfold chain_of_row, rank_of_row. cbn [final_builder logical_rows]. rewrite Hr1, Hr2.
    cbn [mbind option_bind fmap option_fmap option_map]. split_and!; [done|exact Hk1| |done].
    unfold token_rank_of in Hk2. apply same_contract_true in Hsame as [Hch _]. unfold token_rank. cbn. by rewrite <- Hch.
  - intros s row Hs. by apply (joined_bound _ _ _ _ _ _ _ _ _ HJ s).
Qed.

Lemma final_attached : attached stable_hash final_builder ∅ lm.
Proof.
  assert (Hempty : ∀ range, first_rows k ∅ range = []).
  { intros range. unfold first_rows. rewrite filter_none; [by rewrite take_nil|]. intros x _. rewrite lookup_empty. by intros [? [=]]. }
  split; cbn [final_builder metadata contract_ranges metadata_anchor_rows metadata_anchor_count logical_rows].
  - apply Hb.
  - intros c range Hc. rewrite Hempty, padded_nil. apply lookup_replicate_2. by eapply lookup_lt_Some.
  - intros c range i r Hc Hi Hr. rewrite Hempty. split; [by intros ?%elem_of_nil|]. intros _.
    assert (Hun : unread r).
    { apply (proj1 (Forall_forall _ _) (readable_unread _ _ _ _ Hb)), unique_row. by eapply list_elem_of_lookup_2. }
    destruct Hun as [? ?]. by split.
Qed.

Lemma final_order i j u v a1 a2 : i < j → unique !! i = Some u → unique !! j = Some v →
  la !! address_id u = Some a1 → la !! address_id v = Some a2 →
  then_with (chain_compare (row_chain u) (row_chain v)) (str_compare a1 a2) ≠ Gt.
Proof.
  intros Hij Hu Hv Ha1 Ha2.
  pose proof (sorted_contract_le address_rank evm_rank solana_rank unique (joined_sorted _ _ _ _ _ _ _ _ _ HJ) i j u v Hij Hu Hv) as Hc.
  unfold contract_compare in Hc. destruct (chain_compare (row_chain u) (row_chain v)); [|done|done]. cbn in *.
  assert (u ∈ unique ∧ v ∈ unique) as [Hiu Hiv] by (split; by eapply list_elem_of_lookup_2).
  destruct (address_rank_some _ _ _ _ unique_ranked u Hiu) as [ru Hru], (address_rank_some _ _ _ _ unique_ranked v Hiv) as [rv Hrv].
  rewrite Hru, Hrv in Hc. cbn in Hc.
  assert (Hin : ∀ r, r ∈ unique → address_id r ∈ seq 0 (length la)).
  { intros r Hr%unique_row. apply elem_of_seq. pose proof (readable_ids _ _ _ _ Hb r Hr). lia. }
  destruct (Z.compare_spec ru rv) as [->|Hlt|]; [| |done].
  - assert (address_id u = address_id v) as E.
    { eapply (ranks_inj _ _ (ranked_address _ _ _ _ unique_ranked)); [by apply list_elem_of_fmap_2..|done|done]. }
    rewrite E in Ha1. simplify_eq. by rewrite compare_refl by apply _.
  - by apply (Htexts (address_id u) (address_id v) ru rv a1 a2); auto.
Qed.

Lemma final_prepared : prepared b final_builder la lm.
Proof.
  split; try done.
  - apply final_layout.
  - apply final_attached.
  - intros u Hu. split; [by apply unique_row|]. intros r Hr Hsame. rewrite <- Hsorted in Hr.
    destruct (joined_row _ _ _ _ _ _ _ _ _ HJ r Hr) as (j & v & Hv & Hsv & _ & Hle).
    assert (u = v) as ->; [|done]. apply list_elem_of_lookup_1 in Hu as [i Hi]. cbn in Hi.
    assert (same_nft u v = true) as Huv by (apply same_nft_true in Hsame, Hsv; apply same_nft_true; intuition congruence).
    assert (u ∈ unique ∧ v ∈ unique) as [Hiu Hiv] by (split; by eapply list_elem_of_lookup_2).
    apply (nft_compare_eq _ _ _ unique unique_ranked u v Hiu Hiv) in Huv.
    pose proof (joined_sorted _ _ _ _ _ _ _ _ _ HJ) as HS.
    destruct (lt_eq_lt_dec i j) as [[Hlt| ->]|Hlt]; [|congruence|].
    + pose proof (StronglySorted_lookup _ _ i j u v HS Hlt Hi Hv) as E. cbn in E. congruence.
    + pose proof (StronglySorted_lookup _ _ j i v u HS Hlt Hv Hi) as E. cbn in E.
      apply compare_eq_sym in Huv; [congruence|apply _].
  - intros r Hr. rewrite <- Hsorted in Hr. destruct (joined_row _ _ _ _ _ _ _ _ _ HJ r Hr) as (j & v & ? & ? & ? & _). eauto.
  - cbn. intros i j u v Hu Hv Huv. assert (u ∈ unique ∧ v ∈ unique) as [Hiu Hiv] by (split; by eapply list_elem_of_lookup_2).
    apply (nft_compare_eq _ _ _ unique unique_ranked u v Hiu Hiv) in Huv.
    pose proof (joined_sorted _ _ _ _ _ _ _ _ _ HJ) as HS.
    destruct (lt_eq_lt_dec i j) as [[Hlt| ->]|Hlt]; [|done|].
    + pose proof (StronglySorted_lookup _ _ i j u v HS Hlt Hu Hv) as E. cbn in E. congruence.
    + pose proof (StronglySorted_lookup _ _ j i v u HS Hlt Hv Hu) as E. cbn in E.
      apply compare_eq_sym in Huv; [congruence|apply _].
  - cbn. intros i j u v c1 c2 Hu Hv (r1 & H1 & Hr1) (r2 & H2 & Hr2). cbn in H1, H2. split.
    + intros ->. simplify_eq. by eapply (final_rank c2 u v i j).
    + intros Hsame. by eapply (contract_of_key address_rank evm_rank solana_rank unique unique_ranked (joined_sorted _ _ _ _ _ _ _ _ _ HJ) i j u v).
  - intros i j u v a1 a2. apply final_order.
  - cbn. rewrite (joined_duplicates _ _ _ _ _ _ _ _ _ HJ), Hsorted. destruct (joined_quality _ _ _ _ _ _ _ _ _ HJ) as (_ & ? & ? & _). done.
Qed.
End Final.

(** Preparation returns, or finds two rows with one source. *)
Lemma prepare_metadata_spec b la lt lm k :
  readable b la lt lm → 1 ≤ k ≤ 8 →
  if decide (NoDup (source <$> logical_rows b)) then
    ∃ b', prepare_metadata b k = Ok b' ∧ prepared b b' la lm ∧ metadata_anchor_count b' = k
  else prepare_metadata b k = Err InputError.
Proof.
  intros Hb Hk. unfold prepare_metadata, validate_metadata_preparation.
  rewrite (bool_decide_false (k = 0)) by lia. rewrite (bool_decide_false (8 < k)) by lia. cbn [orb fail_if mbind fallible_bind]. rewrite (readable_ranges _ _ _ _ Hb).
  rewrite bool_decide_true by done. cbn [negb fail_if mbind fallible_bind].
  destruct (address_ranks_spec b la lt lm Hb) as (address_rank & -> & Ha & Htexts). cbn [mbind fallible_bind].
  destruct (token_ranks_spec b la lt lm true Hb) as (evm_rank & -> & He & _). cbn [mbind fallible_bind].
  destruct (token_ranks_spec b la lt lm false Hb) as (solana_rank & -> & Hs & _). cbn [mbind fallible_bind].
  assert (Hranked : ranked address_rank evm_rank solana_rank (logical_rows b)).
  { split; [|done|done]. eapply ranks_ids_subset; [|exact Ha]. intros id [r [-> Hr]]%list_elem_of_fmap.
    apply elem_of_seq. pose proof (readable_ids _ _ _ _ Hb r Hr). lia. }
  unfold prepare_metadata_ranked.
  destruct (sort_rows_spec address_rank evm_rank solana_rank (logical_rows b) Hranked) as (sorted & -> & Hperm & Hsorted).
  cbn [mbind fallible_bind].
  assert (Hcap : ∀ n, (Z.of_nat n ≤ u32_max)%Z → check_capacity n = Ok ()).
  { intros n Hn. unfold check_capacity. by rewrite decide_False by lia. }
  pose proof (readable_capacity _ _ _ _ Hb) as [_ Hrows].
  rewrite Hcap by (by rewrite Hperm). cbn [mbind fallible_bind].
  destruct (source_slots_spec sorted) as (slots & -> & Hslots & Hnone); [rewrite Hperm; apply Hb|]. cbn [mbind fallible_bind].
  assert (HJ0 : joined address_rank evm_rank solana_rank (logical_rows b) [] (quality b) [] slots (quality b)).
  { split; try done; try constructor.
    - intros r Hr. by apply elem_of_nil in Hr.
    - intros s j Hj. by apply Hnone in Hj.
    - intros r Hr _. apply Hslots. by rewrite Hperm.
    - cbn. lia. }
  pose proof (join_rows_spec address_rank evm_rank solana_rank (logical_rows b) Hranked (readable_unread _ _ _ _ Hb)
    (readable_sources _ _ _ _ Hb) sorted [] [] slots (quality b) (quality b) HJ0) as Hjoin.
  specialize (Hjoin ltac:(intros r Hr; by rewrite <- Hperm) Hsorted ltac:(constructor)). cbn [app] in Hjoin.
  assert (Hnd : NoDup (source <$> sorted) ↔ NoDup (source <$> logical_rows b)) by (by rewrite Hperm).
  destruct (decide (NoDup (source <$> logical_rows b))) as [Hok|Hdup];
    [rewrite decide_True in Hjoin by (by apply Hnd)|rewrite decide_False in Hjoin by (by rewrite Hnd)]; [|by rewrite Hjoin].
  destruct Hjoin as (unique & slots' & q & -> & HJ). cbn [mbind fallible_bind].
  assert (Hlen : length unique ≤ length (logical_rows b)).
  { rewrite <- Hperm. apply submseteq_length, NoDup_submseteq; [|apply (joined_elem _ _ _ _ _ _ _ _ _ HJ)].
    eapply (sorted_lt_NoDup (nft_compare address_rank evm_rank solana_rank)), joined_sorted, HJ. }
  rewrite (Hcap (length unique)) by lia. cbn [mbind fallible_bind].
  assert (Hrlen : length (contract_ranges_of unique) ≤ length unique).
  { clear. unfold contract_ranges_of. generalize (length unique) at 1 as fuel. intros fuel. generalize 0 as start.
    revert unique. induction fuel as [|fuel IH]; intros [|u rows] start; cbn; try lia.
    specialize (IH (drop (run_length u rows) rows) (start + 1 + run_length u rows)). rewrite length_drop in IH. lia. }
  rewrite Hcap by lia. cbn [mbind fallible_bind].
  destruct (insert_contracts_spec unique) as [by_key ->]. cbn [mbind fallible_bind].
  rewrite anchor_contracts_unread; [|done|].
  2: { apply Forall_forall. intros u Hu%(joined_elem _ _ _ _ _ _ _ _ _ HJ). rewrite Hperm in Hu.
       by apply (proj1 (Forall_forall _ _) (readable_unread _ _ _ _ Hb)). }
  cbn [mbind fallible_bind]. eexists. split; [reflexivity|]. split; [|done].
  by eapply (final_prepared b la lt lm k Hb Hk address_rank evm_rank solana_rank Hranked Htexts unique slots' q sorted Hperm HJ by_key).
Qed.
End Prepared.

(** ** The pools of processors *)

Lemma lane_parts_late n lane : 3 ≤ lane → lane_parts n lane = [].
Proof. intros Hl. unfold lane_parts. apply filter_none. intros x Hx%elem_of_seq [? _]. lia. Qed.

Lemma lane_parts_own n lane : 3 ≤ n → lane < 3 → lane_parts n lane = [lane].
Proof.
  intros Hn Hl. unfold lane_parts.
  assert (Hown : ∀ p, p ∈ seq 0 3 → (lane ≤ p ∧ (p - lane) mod n = 0) ↔ p = lane).
  { intros p Hp%elem_of_seq. rewrite Nat.mod_small by lia. lia. }
  rewrite (filter_dom_ext _ (λ p, p = lane)) by exact Hown.
  destruct lane as [|[|[|lane]]]; [reflexivity..|lia].
Qed.

Lemma prepare_numa_same `{ParallelSort} n b k address_rank evm_rank solana_rank :
  1 ≤ n → address_ranks (addresses b) = Ok address_rank →
  token_ranks (logical_rows b) (token_ids b) true = Ok evm_rank →
  token_ranks (logical_rows b) (token_ids b) false = Ok solana_rank →
  prepare_metadata_numa n b k = prepare_metadata b k.
Proof.
  intros Hn Ha He Hs.
  assert (Hparts : n ≠ 1 → ∃ parts, try_map (λ lane, try_map (preparation_part b) (lane_parts n lane)) (seq 0 n) = Ok parts ∧
    foldl collect_part (None, None, None) (mjoin parts) = (Some address_rank, Some evm_rank, Some solana_rank)).
  { intros Hn1. assert (H0 : preparation_part b 0 = Ok (EvmTokenPart evm_rank)) by (cbn; by rewrite He).
    assert (H1 : preparation_part b 1 = Ok (SolanaTokenPart solana_rank)) by (cbn; by rewrite Hs).
    assert (H2 : preparation_part b 2 = Ok (AddressPart address_rank)) by (cbn; by rewrite Ha).
    destruct (decide (n = 2)) as [->|Hn2].
    - eexists. change (seq 0 2) with [0; 1]. cbn [try_map].
      change (lane_parts 2 0) with [0; 2]. change (lane_parts 2 1) with [1]. cbn [try_map]. rewrite H0, H1, H2. cbn. done.
    - assert (Hlate : try_map (λ lane, try_map (preparation_part b) (lane_parts n lane)) (seq 3 (n - 3)) =
        Ok ((λ _, []) <$> seq 3 (n - 3))).
      { apply try_map_Ok. intros lane Hl%elem_of_seq. by rewrite lane_parts_late by lia. }
      assert (Hseq : seq 0 n = 0 :: 1 :: 2 :: seq 3 (n - 3)).
      { destruct n as [|[|[|n']]]; [lia..|]. cbn [seq]. do 3 f_equal. f_equal. lia. }
      rewrite Hseq. cbn [try_map].
      rewrite !lane_parts_own by lia. cbn [try_map]. rewrite H0, H1, H2. cbn [mbind fallible_bind]. rewrite Hlate.
      cbn [mbind fallible_bind]. eexists. split; [reflexivity|]. cbn [mjoin list_join app foldl collect_part].
      assert (Hnil : ∀ l : list nat, mjoin ((λ _, @nil MetadataPreparationPart) <$> l) = []) by (induction l; done).
      rewrite Hnil. done. }
  unfold prepare_metadata_numa. destruct (decide (n = 1)) as [|Hn1].
  - unfold prepare_metadata. destruct (validate_metadata_preparation b k) as [[]|?|] eqn:E; cbn; by rewrite ?E.
  - unfold prepare_metadata. destruct (validate_metadata_preparation b k) as [[]|?|]; cbn [mbind fallible_bind]; [|done..].
    destruct (Hparts Hn1) as (parts & -> & Hparts2). cbn [mbind fallible_bind]. rewrite Hparts2. cbn [ok_or mbind fallible_bind]. rewrite Ha, He, Hs. done.
Qed.

(** ** The second pass *)

(** The document that a row has in the end. *)
Definition row_text (b : ResidentBuilder) (row : nat) : option str :=
  r ← logical_rows b !! row; id ← metadata_id r; get (metadata b) id.

Section Pass.
Context `{ParallelSort} `{JsonText} (stable_hash : list N → N).

Lemma attached_text b m texts c range row :
  layout b → attached stable_hash b m texts → contract_ranges b !! c = Some range → range.1 ≤ row < range.2 →
  row_text b row = if decide (row ∈ first_rows (metadata_anchor_count b) m range) then snd <$> m !! row else None.
Proof.
  intros Hl Hb Hc Hr. destruct (lookup_lt_is_Some_2 (logical_rows b) row) as [r Hrow].
  { apply (layout_bound b Hl c). by exists range. }
  destruct (attached_rows _ _ _ _ Hb c range row r Hc Hr Hrow) as [Hyes Hno]. unfold row_text. rewrite Hrow. cbn [mbind option_bind].
  case_decide as Hin.
  - destruct (Hyes Hin) as (s & text & id & Hm & _ & Hid & Ht). rewrite Hid, Hm. cbn [mbind option_bind fmap option_fmap option_map].
    by rewrite (get_holds _ _ _ (attached_pool _ _ _ _ Hb)).
  - by destruct (Hno Hin) as [-> _].
Qed.

Lemma second_pass_run b b1 la lm k inputs :
  prepared stable_hash b b1 la lm → metadata_anchor_count b1 = k →
  (∀ input, input ∈ inputs → ∃ r, r ∈ logical_rows b ∧ source r = input.1) → has_room lm (length inputs) →
  ∃ b2 texts, loop (attach_row stable_hash) b1 inputs = Ok b2 ∧ layout b2 ∧
    attached stable_hash b2 (foldl (offer_input b1) ∅ inputs) texts ∧ same_layout b1 b2 ∧ counted b1 b2 (snd <$> inputs).
Proof.
  intros Hp Hk Hin Hroom.
  destruct (attach_rows stable_hash b1 ∅ lm inputs (prepared_layout _ _ _ _ _ Hp) (prepared_attached _ _ _ _ _ Hp))
    as (b2 & texts & ? & ? & ? & ?); [|done|].
  - apply Forall_forall. intros input Hi. destruct (Hin input Hi) as (r & Hr & <-).
    destruct (prepared_sources _ _ _ _ _ Hp r Hr) as (row & u & _ & _ & Hs). eauto.
  - exists b2, texts. split_and!; try done; [by eapply same_layout_layout; [|apply Hp]].
Qed.
End Pass.

(** A row with a document that is not among the first ones comes after them. *)
Lemma first_rows_missed k m range row :
  range.1 ≤ row < range.2 → is_Some (m !! row) → row ∉ first_rows k m range →
  length (first_rows k m range) = k ∧ ∀ a, a ∈ first_rows k m range → a < row.
Proof.
  intros Hr Hm Hout. unfold first_rows in *. set (F := filter (λ row, is_Some (m !! row)) (seq range.1 (range.2 - range.1))) in *.
  assert (HF : row ∈ F) by (apply list_elem_of_filter; split; [done|]; apply elem_of_seq; lia).
  assert (HS : StronglySorted lt F).
  { pose proof (first_rows_sorted (length F) m range) as H. unfold first_rows in H. by rewrite take_ge in H. }
  rewrite <- (take_drop k F) in HF, HS. apply elem_of_app in HF as [HF|HF]; [done|]. split.
  - rewrite length_take. destruct (decide (length F ≤ k)); [|lia]. rewrite drop_ge in HF by done. by apply elem_of_nil in HF.
  - intros a Ha. by eapply (StronglySorted_app_1_elem_of lt).
Qed.
