(* ===== verification/Loaded.v ===== *)
(** Proofs about loading rows: a builder stands for the list of the rows it has read, with
    their texts; pushing and merging append to it, whatever the numbers of the texts; and
    in any number of shards and batches the merged builder has read every row once and is
    ready for preparation. *)

From S2P Require Import Prelude Text CanonicalJson Anchors SortedLists Events ValuePools.
From S2P Require Import Fallible AnalysisJson Builder ResidentLoad AnchorRows PrepareFacts.
From S2P Require Import Prepared.

(** ** Texts *)

Lemma valid_trim_start s : valid_str s → valid_str (trim_start s).
Proof. induction 1 as [|c s Hc Hs IH]; cbn; [constructor|]. destruct (is_whitespace c); [done|by constructor]. Qed.

Lemma valid_trim s : valid_str s → valid_str (trim s).
Proof. intros Hs. unfold trim. apply Forall_reverse, valid_trim_start, Forall_reverse, valid_trim_start, Hs. Qed.

Lemma valid_lowercase c : is_scalar c = true → is_scalar (ascii_lowercase c) = true.
Proof.
  unfold ascii_lowercase. destruct (in_chars 65 90 c) eqn:E; [|done]. intros _.
  unfold in_chars in E. apply andb_true_iff in E as [?%N.leb_le ?%N.leb_le].
  unfold is_scalar. apply orb_true_iff. left. apply N.ltb_lt. lia.
Qed.

Lemma valid_if_needed s : valid_str s → valid_str (ascii_lowercase_if_needed s).
Proof.
  intros Hs. unfold ascii_lowercase_if_needed. destruct (existsb _ s); [|done].
  change (map ascii_lowercase s) with (ascii_lowercase <$> s). apply Forall_fmap. eapply Forall_impl; [exact Hs|].
  intros c. apply valid_lowercase.
Qed.

Lemma valid_trim_char c s : valid_str s → valid_str (trim_start_char c s).
Proof. induction 1 as [|x s Hx Hs IH]; cbn; [constructor|]. destruct (x =? c)%N; [done|by constructor]. Qed.

Lemma valid_digits s d : valid_str s → canonical_decimal_digits s = Some d → valid_str d.
Proof.
  intros Hs. unfold canonical_decimal_digits. destruct (_ || _); [done|]. intros [= <-]. case_decide; [repeat constructor|].
  by apply valid_trim_char.
Qed.

Lemma valid_address chain s : valid_str s → valid_str (normal_address chain s).
Proof. intros Hs. unfold normal_address. destruct (is_evm chain); [apply valid_if_needed|]; by apply valid_trim. Qed.

Lemma valid_token chain s : valid_str s → valid_str (normal_token chain s).
Proof.
  intros Hs%valid_trim. unfold normal_token. destruct (is_evm chain); [|done].
  destruct (canonical_decimal_digits (trim s)) eqn:E; [by eapply valid_digits|by apply valid_if_needed].
Qed.

Definition valid_option (o : option str) : Prop := match o with Some s => valid_str s | None => True end.

Lemma valid_nonempty o : valid_option o → valid_option (nonempty o).
Proof. destruct o as [s|]; cbn; [|done]. intros Hs. case_decide; [done|]. by apply valid_trim. Qed.

Lemma valid_name o : valid_option o → valid_option (meaningful_name o).
Proof.
  intros Ho%valid_nonempty. unfold meaningful_name. destruct (nonempty o) as [s|]; cbn; [|done]. destruct (_ || _); done.
Qed.

Definition valid_input (row : InputRow) : Prop :=
  valid_str (contract_address row) ∧ valid_str (token_id row) ∧ valid_option (name_norm row) ∧
  valid_option (token_uri_norm row) ∧ valid_option (image_uri_norm row).

(** ** Rows as they were read *)

Record ReadRow := {
  read_chain : ChainId;
  read_address : str;
  read_token : str;
  read_name : option str;
  read_token_uri : option str;
  read_image_uri : option str;
  read_document : option str;
  read_source : SourceOrder;
}.

Section Reading.
Context (stable_hash : list N → N) `{JsonText}.

(** The document of a row that is read with it. *)
Definition pushed_document (json : option str) : option str :=
  raw ← json;
  if (MAX_DOCUMENT <? Z.of_nat (str_len (trim raw)))%Z then None
  else value ← canonical_metadata raw; if decide (value = lit "{}") then None else Some value.

(** What a row says; none when its contract or token is blank. *)
Definition read_row (row : InputRow) : option ReadRow :=
  let address := normal_address (input_chain row) (contract_address row) in
  let token := normal_token (input_chain row) (token_id row) in
  if bool_decide (address = []) || bool_decide (token = []) then None
  else Some {| read_chain := input_chain row; read_address := address; read_token := token;
               read_name := meaningful_name (name_norm row); read_token_uri := nonempty (token_uri_norm row);
               read_image_uri := nonempty (image_uri_norm row); read_document := pushed_document (metadata_json row);
               read_source := source_order row |}.

(** The texts of the five pools. *)
Record Texts := {
  address_texts : list str;
  token_texts : list str;
  name_texts : list str;
  uri_texts : list str;
  document_texts : list str;
}.

Record texts_hold (b : ResidentBuilder) (t : Texts) : Prop := {
  hold_addresses : pool_holds stable_hash (addresses b) (address_texts t);
  hold_tokens : pool_holds stable_hash (token_ids b) (token_texts t);
  hold_names : pool_holds stable_hash (names b) (name_texts t);
  hold_uris : pool_holds stable_hash (uris b) (uri_texts t);
  hold_documents : pool_holds stable_hash (metadata b) (document_texts t);
}.

(** The text of an optional number. *)
Definition option_text (texts : list str) (id : option nat) (text : option str) : Prop :=
  match id, text with
  | Some id, Some text => texts !! id = Some text
  | None, None => True
  | _, _ => False
  end.

Record row_reads (t : Texts) (row : CompactRow) (r : ReadRow) : Prop := {
  reads_chain : row_chain row = read_chain r;
  reads_address : address_texts t !! address_id row = Some (read_address r);
  reads_token : token_texts t !! token_id_id row = Some (read_token r);
  reads_name : option_text (name_texts t) (name_id row) (read_name r);
  reads_token_uri : option_text (uri_texts t) (token_uri_id row) (read_token_uri r);
  reads_image_uri : option_text (uri_texts t) (image_uri_id row) (read_image_uri r);
  reads_document : option_text (document_texts t) (metadata_id row) (read_document r);
  reads_document_source : metadata_source row = const (read_source r) <$> read_document r;
  reads_source : source row = read_source r;
}.

(** A builder that has read these rows. *)
Record has_read (b : ResidentBuilder) (t : Texts) (l : list ReadRow) : Prop := {
  read_texts : texts_hold b t;
  read_rows : Forall2 (row_reads t) (logical_rows b) l;
  read_unprepared : contract_ranges b = [];
}.

Lemma default_has_read : has_read default_builder {| address_texts := []; token_texts := []; name_texts := []; uri_texts := []; document_texts := [] |} [].
Proof. split; [split; apply default_holds|constructor|done]. Qed.

(** ** More texts *)

Record texts_prefix (t t' : Texts) : Prop := {
  prefix_addresses : address_texts t `prefix_of` address_texts t';
  prefix_tokens : token_texts t `prefix_of` token_texts t';
  prefix_names : name_texts t `prefix_of` name_texts t';
  prefix_uris : uri_texts t `prefix_of` uri_texts t';
  prefix_documents : document_texts t `prefix_of` document_texts t';
}.

Lemma option_text_prefix texts texts' id text : texts `prefix_of` texts' → option_text texts id text → option_text texts' id text.
Proof. intros Hp. destruct id, text; cbn; try done. intros Ht. by eapply prefix_lookup_Some. Qed.

Lemma row_reads_prefix t t' row r : texts_prefix t t' → row_reads t row r → row_reads t' row r.
Proof.
  intros [P1 P2 P3 P4 P5] [R1 R2 R3 R4 R5 R6 R7 R8 R9]. split; try done; try (by eapply prefix_lookup_Some); by eapply option_text_prefix.
Qed.

(** No pool has more texts than that. *)
Definition at_most (t : Texts) (n : nat) : Prop :=
  length (address_texts t) ≤ n ∧ length (token_texts t) ≤ n ∧ length (name_texts t) ≤ n ∧
  length (uri_texts t) ≤ n ∧ length (document_texts t) ≤ n.

(** ** Pushing a row *)

Lemma interned_in pool texts v n :
  pool_holds stable_hash pool texts → valid_str v → length texts ≤ n → (Z.of_nat n < 2 ^ 32)%Z →
  ∃ pool' texts' id, interned stable_hash pool v = Ok (pool', id) ∧ pool_holds stable_hash pool' texts' ∧
    texts `prefix_of` texts' ∧ length texts' ≤ S n ∧ texts' !! id = Some v.
Proof.
  intros Hp Hv Hlen Hn. pose proof (intern_holds stable_hash pool texts Hp v Hv) as Hi. unfold interned.
  destruct (position v texts) as [id|] eqn:E.
  - rewrite Hi. exists pool, texts, id. split_and!; [done..|lia|by apply position_Some].
  - rewrite decide_True in Hi by (unfold pool_fits; rewrite length_app; cbn; lia). destruct Hi as [-> Hi].
    eexists _, (texts ++ [v]), (length texts). split_and!; [done|done|by apply prefix_app_r|rewrite length_app; cbn; lia|].
    by apply list_lookup_middle.
Qed.

Lemma interned_option_in pool texts v n :
  pool_holds stable_hash pool texts → valid_option v → length texts ≤ n → (Z.of_nat n < 2 ^ 32)%Z →
  ∃ pool' texts' id, interned_option stable_hash pool v = Ok (pool', id) ∧ pool_holds stable_hash pool' texts' ∧
    texts `prefix_of` texts' ∧ length texts' ≤ S n ∧ option_text texts' id v.
Proof.
  intros Hp Hv Hlen Hn. destruct v as [v|]; cbn.
  - destruct (interned_in pool texts v n Hp Hv Hlen Hn) as (pool' & texts' & id & -> & ? & ? & ? & ?).
    by exists pool', texts', (Some id).
  - exists pool, texts, None. split_and!; [done..|lia|done].
Qed.

Lemma push_metadata_in pool texts q json n :
  pool_holds stable_hash pool texts → length texts ≤ n → (Z.of_nat n < 2 ^ 32)%Z →
  ∃ pool' texts' q' id, push_metadata stable_hash pool q json = Ok (pool', q', id) ∧ pool_holds stable_hash pool' texts' ∧
    texts `prefix_of` texts' ∧ length texts' ≤ S n ∧ option_text texts' id (pushed_document json).
Proof.
  intros Hp Hlen Hn. unfold push_metadata, pushed_document. destruct json as [raw|]; cbn [mbind option_bind].
  2: { eexists pool, texts, _, None. split_and!; [done..|lia|done]. }
  destruct (_ <? _)%Z; [eexists pool, texts, _, None; split_and!; [done..|lia|done]|].
  unfold canonical_metadata. destruct (parse_normalized_json raw) as [v|]; cbn [fmap option_fmap option_map mbind option_bind].
  2: { eexists pool, texts, _, None. split_and!; [done..|lia|done]. }
  case_decide; [eexists pool, texts, _, None; split_and!; [done..|lia|done]|].
  destruct (interned_in pool texts (to_string v) n Hp (to_string_valid v) Hlen Hn) as (pool' & texts' & id & -> & ? & ? & ? & ?).
  by eexists pool', texts', _, (Some id).
Qed.

Lemma push_in b t l row n :
  has_read b t l → valid_input row → at_most t n → (Z.of_nat (S n) < 2 ^ 32)%Z →
  match read_row row with
  | None => push stable_hash b row = Err InputError
  | Some r => ∃ b' t', push stable_hash b row = Ok b' ∧ has_read b' t' (l ++ [r]) ∧ at_most t' (S (S n))
  end.
Proof.
  intros [[HA HT HN HU HD] Hrows Hunp] (VA & VT & VN & VU & VI) (SA & ST & SN & SU & SD) Hn.
  unfold push, read_row. destruct (bool_decide (normal_address _ _ = []) || _); cbn [fail_if mbind fallible_bind]; [done|].
  destruct (interned_in _ _ _ n HA (valid_address (input_chain row) _ VA) SA ltac:(lia)) as (pa & ta & ia & -> & HA' & PA & LA & EA).
  cbn [mbind fallible_bind].
  destruct (interned_in _ _ _ n HT (valid_token (input_chain row) _ VT) ST ltac:(lia)) as (pt & tt & it & -> & HT' & PT & LT & ET).
  cbn [mbind fallible_bind].
  destruct (push_metadata_in _ _ (add_physical (quality b) 1) (metadata_json row) n HD SD ltac:(lia)) as (pd & td & qd & id & -> & HD' & PD & LD & ED).
  cbn [mbind fallible_bind].
  destruct (interned_option_in _ _ _ n HN (valid_name _ VN) SN ltac:(lia)) as (pn & tn & i_n & -> & HN' & PN & LN & EN).
  cbn [mbind fallible_bind].
  destruct (interned_option_in _ _ _ n HU (valid_nonempty _ VU) SU ltac:(lia)) as (pu & tu & iu & -> & HU' & PU & LU & EU).
  cbn [mbind fallible_bind].
  destruct (interned_option_in _ _ _ (S n) HU' (valid_nonempty _ VI) LU ltac:(lia)) as (pi & ti & ii & -> & HI' & PI & LI & EI).
  cbn [mbind fallible_bind].
  eexists _, {| address_texts := ta; token_texts := tt; name_texts := tn; uri_texts := ti; document_texts := td |}.
  split; [reflexivity|]. split; [split; cbn|].
  - by split.
  - apply Forall2_app.
    + eapply Forall2_impl; [exact Hrows|]. intros r0 r1. apply row_reads_prefix. split; cbn; try done. by etrans.
    + constructor; [|constructor]. split; cbn; try done; [by eapply option_text_prefix|].
      destruct id, (pushed_document (metadata_json row)); cbn in ED |- *; done.
  - done.
  - unfold at_most. cbn. lia.
Qed.
End Reading.

(** ** A small input for the examples *)

(** A reader that knows two documents and their texts. *)
Definition pair_json : JsonLibrary := {|
  Number := Z;
  parse_json s := if decide (s = lit "{'A':1}") then Some (RawMap [(lit "A", RawInt 1)])
                  else if decide (s = lit "{'A':2}") then Some (RawMap [(lit "A", RawInt 2)]) else None;
  to_string v :=
    match v with
    | Object [] => lit "{}"
    | Object ((_, Num n) :: _) => if (n =? 1)%Z then lit "{'a':1}" else lit "{'a':2}"
    | _ => lit "other"
    end;
  number_from z := z;
  as_i64 := Some;
  as_u64 _ := None;
  number_to_string := i128_to_string;
  parse_number := parse_i128;
  nfkc s := s;
  to_lowercase := map ascii_lower;
|}.

Lemma pair_json_text : @JsonText pair_json.
Proof.
  split; cbn.
  - intros v. destruct v as [| | | | |[|[? []] ?]]; repeat case_match; repeat constructor.
  - intros v. destruct v as [| | | | |[|[? []] ?]]; repeat case_match; split; congruence.
Qed.

Definition example_row (token : str) (row : Z) : InputRow :=
  {| input_chain := Ethereum; contract_address := lit "0xAB"; token_id := token; name_norm := None;
     token_uri_norm := None; image_uri_norm := None; metadata_json := None;
     source_order := {| file_ordinal := 0; file_row_number := row |} |}.

(** Three rows of two NFTs. *)
Definition example_rows : list InputRow := [example_row (lit "7") 0; example_row (lit "12") 1; example_row (lit "007") 2].

Section Runs.
Context (stable_hash : list N → N) `{JsonText}.
Abbreviation has_read := (has_read stable_hash).

(** ** Merging *)

Lemma length_union l1 l2 : length (pool_union l1 l2) ≤ length l1 + length l2.
Proof.
  revert l1. induction l2 as [|v l2 IH]; intros l1; cbn; [lia|]. specialize (IH (add_value l1 v)).
  unfold pool_union in *. etrans; [exact IH|]. unfold add_value. destruct (position v l1); [lia|]. rewrite length_app. cbn. lia.
Qed.

Lemma positions_lookup l2 l id v :
  l2 !! id = Some v → v ∈ l → ∃ id', positions l2 l !! id = Some id' ∧ l !! id' = Some v.
Proof.
  intros Hid Hv. unfold positions. rewrite list_lookup_fmap, Hid. cbn.
  destruct (position v l) as [id'|] eqn:E; [|by apply position_None in E]. exists id'. split; [done|by apply position_Some].
Qed.

(** The numbers of a merged pool. *)
Lemma merge_pool_in target source l1 l2 n1 n2 :
  pool_holds stable_hash target l1 → pool_holds stable_hash source l2 → length l1 ≤ n1 → length l2 ≤ n2 →
  (Z.of_nat (n1 + n2) < 2 ^ 32)%Z →
  ∃ pool l remap, merge_pool stable_hash target source = Some (pool, remap) ∧ pool_holds stable_hash pool l ∧
    l1 `prefix_of` l ∧ length l ≤ n1 + n2 ∧
    ∀ id v, l2 !! id = Some v → ∃ id', remap !! id = Some id' ∧ l !! id' = Some v.
Proof.
  intros H1 H2 L1 L2 Hn. pose proof (length_union l1 l2) as Hlen.
  pose proof (merge_pool_holds stable_hash target source l1 l2 H1 H2 ltac:(lia)) as Hm.
  rewrite decide_True in Hm by (unfold pool_fits; lia). destruct Hm as (pool & Hm & Hp).
  eexists pool, (pool_union l1 l2), _. split_and!; [exact Hm|done|apply union_prefix|lia|].
  intros id v Hid. apply positions_lookup; [done|]. apply (elem_of_pool_union stable_hash). right. exact (list_elem_of_lookup_2 _ _ _ Hid).
Qed.

Lemma remap_option_in l2 l remap id text :
  (∀ id v, l2 !! id = Some v → ∃ id', remap !! id = Some id' ∧ l !! id' = Some v) →
  option_text l2 id text → ∃ id', remap_option remap id = Some id' ∧ option_text l id' text.
Proof.
  intros Hr Ht. destruct id as [id|], text as [text|]; cbn in Ht; try done.
  - destruct (Hr id text Ht) as (id' & Hid & ?). exists (Some id'). cbn. by rewrite Hid.
  - by exists None.
Qed.

Lemma merge_in b1 b2 t1 t2 l1 l2 n1 n2 :
  has_read b1 t1 l1 → has_read b2 t2 l2 → at_most t1 n1 → at_most t2 n2 → (Z.of_nat (n1 + n2) < 2 ^ 32)%Z →
  ∃ b t, merge_from stable_hash b1 b2 = Ok b ∧ has_read b t (l1 ++ l2) ∧ at_most t (n1 + n2).
Proof.
  intros [[A1 T1 N1 U1 D1] R1 P1] [[A2 T2 N2 U2 D2] R2 P2] (SA1 & ST1 & SN1 & SU1 & SD1) (SA2 & ST2 & SN2 & SU2 & SD2) Hn.
  unfold merge_from. rewrite P1, P2. rewrite bool_decide_true by done. cbn [negb orb fail_if mbind fallible_bind].
  destruct (merge_pool_in _ _ _ _ n1 n2 A1 A2 SA1 SA2 Hn) as (pa & la & ra & -> & HA & PA & LA & RA).
  destruct (merge_pool_in _ _ _ _ n1 n2 T1 T2 ST1 ST2 Hn) as (pt & lt' & rt & -> & HT & PT & LT & RT).
  destruct (merge_pool_in _ _ _ _ n1 n2 N1 N2 SN1 SN2 Hn) as (pn & ln & rn & -> & HN & PN & LN & RN).
  destruct (merge_pool_in _ _ _ _ n1 n2 U1 U2 SU1 SU2 Hn) as (pu & lu & ru & -> & HU & PU & LU & RU).
  destruct (merge_pool_in _ _ _ _ n1 n2 D1 D2 SD1 SD2 Hn) as (pd & ld & rd & -> & HD & PD & LD & RD).
  cbn [expect mbind fallible_bind].
  set (t := {| address_texts := la; token_texts := lt'; name_texts := ln; uri_texts := lu; document_texts := ld |}).
  assert (Hrows : ∃ rows, mapM (remap_row ra rt rn ru rd) (logical_rows b2) = Some rows ∧ Forall2 (row_reads t) rows l2).
  { clear -R2 RA RT RN RU RD. induction R2 as [|row r rows l2 Hr _ IH]; [by exists []|].
    destruct IH as (rows' & Hm & Hf). destruct Hr as [Q1 Q2 Q3 Q4 Q5 Q6 Q7 Q8 Q9].
    destruct (RA _ _ Q2) as (ia & Ea & ?), (RT _ _ Q3) as (it & Et & ?).
    destruct (remap_option_in _ _ rn _ _ RN Q4) as (i_n & En & ?), (remap_option_in _ _ ru _ _ RU Q5) as (iu & Eu & ?).
    destruct (remap_option_in _ _ ru _ _ RU Q6) as (ii & Ei & ?), (remap_option_in _ _ rd _ _ RD Q7) as (id & Ed & ?).
    assert (Hrow : ∃ row', remap_row ra rt rn ru rd row = Some row' ∧ row_reads t row' r).
    { unfold remap_row. rewrite Ea, Et, En, Eu, Ei, Ed. eexists. split; [reflexivity|by split]. }
    destruct Hrow as (row' & Hrow & ?). exists (row' :: rows'). split; [|by constructor].
    cbn. by rewrite Hrow, Hm. }
  destruct Hrows as (rows & -> & Hf). cbn [expect mbind fallible_bind]. eexists _, t. split; [reflexivity|].
  split; [split; cbn|].
  - by split.
  - apply Forall2_app; [|exact Hf]. eapply Forall2_impl; [exact R1|]. intros row r. apply row_reads_prefix. by split.
  - done.
  - unfold at_most. cbn. lia.
Qed.

(** ** Batches *)

(** A builder that has read these rows, with texts for that many. *)
Definition reads (b : ResidentBuilder) (l : list ReadRow) : Prop :=
  ∃ t, has_read b t l ∧ at_most t (2 * length l).

Lemma push_rows b l rows :
  reads b l → Forall valid_input rows → (Z.of_nat (2 * (length l + length rows) + 2) < 2 ^ 32)%Z →
  match mapM read_row rows with
  | Some rs => ∃ b', loop (push stable_hash) b rows = Ok b' ∧ reads b' (l ++ rs)
  | None => loop (push stable_hash) b rows = Err InputError
  end.
Proof.
  revert b l. induction rows as [|row rows IH]; intros b l Hb Hv Hn; cbn.
  { exists b. by rewrite app_nil_r. }
  inversion_clear Hv as [|? ? Hrow Hrows]. cbn [length] in Hn. destruct Hb as (t & Hb & Ht).
  pose proof (push_in stable_hash b t l row (2 * length l) Hb Hrow Ht ltac:(lia)) as Hp.
  destruct (read_row row) as [r|] eqn:Er; cbn; [|by rewrite Hp]. destruct Hp as (b' & t' & -> & Hb' & Ht').
  cbn [mbind fallible_bind].
  assert (Hreads : reads b' (l ++ [r])).
  { exists t'. split; [done|]. rewrite length_app. cbn [length]. replace (2 * (length l + 1)) with (S (S (2 * length l))) by lia. done. }
  specialize (IH b' (l ++ [r]) Hreads Hrows). rewrite length_app in IH. cbn [length] in IH. specialize (IH ltac:(lia)).
  destruct (mapM read_row rows) as [rs|]; cbn; [|done]. destruct IH as (b'' & ? & ?). exists b''. by rewrite <- (assoc_L (++)) in *.
Qed.

(** Dropping the blank rows loses nothing when there are none. *)
Lemma mapM_omap {A B} (f : A → option B) l :
  match mapM f l with
  | Some ys => omap f l = ys ∧ length ys = length l ∧ ∀ x, x ∈ l → f x ≠ None
  | None => ∃ x, x ∈ l ∧ f x = None
  end.
Proof.
  induction l as [|x l IH]; cbn; [split_and!; [done..|]; by intros x ?%elem_of_nil|].
  destruct (f x) as [y|] eqn:E; cbn; [|exists x; split; [by left|done]]. destruct (mapM f l) as [ys|]; cbn.
  - destruct IH as (-> & -> & IH). split_and!; [done..|]. intros x' [-> |Hx]%elem_of_cons; [congruence|by apply IH].
  - destruct IH as (x' & ? & ?). exists x'. split; [by right|done].
Qed.

Lemma insert_app_permutation (ls : list (list ReadRow)) i l rs :
  ls !! i = Some l → mjoin (<[i := l ++ rs]> ls) ≡ₚ mjoin ls ++ rs.
Proof.
  revert i. induction ls as [|x ls IH]; intros i Hi; [done|]. destruct i as [|i]; cbn in Hi.
  - simplify_eq. cbn [insert list_insert]. rewrite !mjoin_cons. rewrite <- !(assoc_L (++)). f_equiv. apply Permutation_app_comm.
  - change (<[S i := l ++ rs]> (x :: ls)) with (x :: <[i := l ++ rs]> ls). rewrite !mjoin_cons, (IH i) by done. by rewrite (assoc_L (++)).
Qed.

Lemma length_in_join (ls : list (list ReadRow)) i l : ls !! i = Some l → length l ≤ length (mjoin ls).
Proof.
  revert i. induction ls as [|x ls IH]; intros [|i] Hi; cbn in Hi; [done|done| |]; rewrite mjoin_cons, length_app.
  - simplify_eq. lia.
  - specialize (IH i Hi). lia.
Qed.

Definition blank (rows : list InputRow) : Prop := ∃ row, row ∈ rows ∧ read_row row = None.

Lemma push_shards builders ls (entries : list (nat * list InputRow)) :
  Forall2 reads builders ls → (∀ e, e ∈ entries → e.1 < length builders ∧ Forall valid_input e.2) →
  (Z.of_nat (2 * (length (mjoin ls) + length (mjoin (snd <$> entries))) + 2) < 2 ^ 32)%Z →
  (∃ builders' ls', loop (push_shard stable_hash) builders entries = Ok builders' ∧ length builders' = length builders ∧
     Forall2 reads builders' ls' ∧ mjoin ls' ≡ₚ mjoin ls ++ omap read_row (mjoin (snd <$> entries)) ∧ ¬ blank (mjoin (snd <$> entries))) ∨
  (loop (push_shard stable_hash) builders entries = Err InputError ∧ blank (mjoin (snd <$> entries))).
Proof.
  revert builders ls. induction entries as [|[shard rows] entries IH]; intros builders ls Hf He Hn.
  { left. exists builders, ls. cbn. rewrite app_nil_r. split_and!; [done..|]. by intros (row & ?%elem_of_nil & _). }
  rewrite fmap_cons, mjoin_cons in *. cbn [snd] in *. rewrite length_app in Hn.
  destruct (He (shard, rows)) as [Hshard Hrows]; [by left|]. cbn in Hshard, Hrows.
  destruct (lookup_lt_is_Some_2 builders shard Hshard) as [b Hb].
  destruct (Forall2_lookup_l _ _ _ _ _ Hf Hb) as (l & Hl & Hbl).
  pose proof (length_in_join ls shard l Hl) as Hle.
  pose proof (push_rows b l rows Hbl Hrows ltac:(lia)) as Hp. pose proof (mapM_omap read_row rows) as Hm.
  assert (Hstep : push_shard stable_hash builders (shard, rows) =
    b' ← loop (push stable_hash) b rows; Ok (<[shard := b']> builders)).
  { unfold push_shard. cbn [fst snd]. destruct rows; [cbn; by rewrite list_insert_id|]. by rewrite Hb. }
  cbn [loop]. rewrite Hstep.
  destruct (mapM read_row rows) as [rs|]; [|right; rewrite Hp; destruct Hm as (row & ? & ?)].
  2: { split; [done|]. exists row. split; [apply elem_of_app; by left|done]. }
  destruct Hp as (b' & -> & Hb'). cbn [mbind fallible_bind].
  pose proof (insert_app_permutation ls shard l rs Hl) as Hins.
  destruct Hm as (Hm & Hlen & Hall).
  destruct (IH (<[shard := b']> builders) (<[shard := l ++ rs]> ls)) as [(builders' & ls' & H1 & H5 & H2 & H3 & H4)|[H1 H2]].
  - by apply Forall2_insert.
  - intros e Hin. rewrite length_insert. apply He. by right.
  - rewrite Hins, length_app, Hlen. lia.
  - left. exists builders', ls'. rewrite length_insert in H5. split_and!; [done..| |].
    + rewrite H3, Hins, omap_app, Hm. by rewrite (assoc_L (++)).
    + intros (row & [Hin|Hin]%elem_of_app & Hr); [by apply (Hall row)|by apply H4; exists row].
  - right. split; [done|]. destruct H2 as (row & ? & ?). exists row. split; [apply elem_of_app; by right|done].
Qed.

(** ** Shards *)

Context (owner_hash : ChainId → str → Z) (Howner : ∀ chain address, (0 ≤ owner_hash chain address)%Z).

Lemma owner_bound chain address n : 1 ≤ n → input_owner_shard owner_hash chain address n < n.
Proof using Howner.
  intros Hn. unfold input_owner_shard. set (h := owner_hash chain (normal_address chain address)).
  assert (Hh : (0 ≤ h)%Z) by apply Howner. set (m := (Z.of_nat n - 1)%Z).
  assert (0 ≤ Z.land h m ≤ m)%Z; [|lia].
  rewrite <- (Z2N.id h), <- (Z2N.id m), <- N2Z.inj_land by lia. split; [lia|]. apply N2Z.inj_le, N.land_le_r.
Qed.

Lemma buckets_permutation {A} (f : A → nat) n (l : list A) :
  mjoin ((λ s, filter (λ x, f x = s) l) <$> seq 0 n) ≡ₚ filter (λ x, f x < n) l.
Proof.
  induction n as [|n IH]; [rewrite filter_none; [done|intros; lia]|].
  rewrite seq_S, fmap_app. assert (Hsplit : ∀ l, filter (λ x, f x < S n) l ≡ₚ filter (λ x, f x < n) l ++ filter (λ x, f x = n) l).
  { clear. induction l as [|x l IH]; [done|]. rewrite !filter_cons. repeat case_decide; try lia; rewrite IH; [done| |done].
    by rewrite Permutation_middle. }
  rewrite Hsplit, <- IH. cbn. rewrite join_app. cbn. by rewrite app_nil_r.
Qed.

Lemma shard_rows_permutation n batch : 1 ≤ n → mjoin (shard_rows owner_hash n batch) ≡ₚ batch.
Proof using Howner.
  intros Hn. unfold shard_rows.
  rewrite (buckets_permutation (λ row, input_owner_shard owner_hash (input_chain row) (contract_address row) n) n batch).
  rewrite filter_all; [done|]. intros row _. by apply owner_bound.
Qed.

Lemma numbered_values {A} (l : list A) : snd <$> imap pair l = l.
Proof. rewrite fmap_imap. apply list_eq. intros i. rewrite list_lookup_imap. by destruct (l !! i). Qed.

Lemma push_shard_length builders entry builders' : push_shard stable_hash builders entry = Ok builders' → length builders' = length builders.
Proof.
  unfold push_shard. destruct entry.2; [by intros [= <-]|]. rewrite bind_Ok. intros (b & _ & Hb). apply bind_Ok in Hb as (b' & _ & [= <-]).
  apply length_insert.
Qed.

Lemma push_shards_length entries builders builders' :
  loop (push_shard stable_hash) builders entries = Ok builders' → length builders' = length builders.
Proof.
  revert builders. induction entries as [|entry entries IH]; intros builders; cbn; [by intros [= ->]|].
  rewrite bind_Ok. intros (b & Hb%push_shard_length & Hrest%IH). congruence.
Qed.

(** Batches one after another are one of the schedules. *)
Lemma decode_batches_schedule builders batches :
  loop (decode_batch stable_hash owner_hash) builders batches =
    loop (push_shard stable_hash) builders (mjoin (batch_entries owner_hash (length builders) <$> batches)).
Proof.
  revert builders. induction batches as [|batch batches IH]; intros builders; [done|]. rewrite fmap_cons, mjoin_cons, loop_app. cbn [loop].
  change (decode_batch stable_hash owner_hash builders batch) with
    (loop (push_shard stable_hash) builders (batch_entries owner_hash (length builders) batch)).
  destruct (loop (push_shard stable_hash) builders (batch_entries owner_hash (length builders) batch)) as [builders'|e|] eqn:E; [|done|done].
  cbn [mbind fallible_bind]. rewrite IH. by rewrite (push_shards_length _ _ _ E).
Qed.

(** The entries of batches are in the shards and have their rows. *)
Lemma batch_entries_in n batches e : 1 ≤ n → Forall (Forall valid_input) batches → e ∈ mjoin (batch_entries owner_hash n <$> batches) →
  e.1 < n ∧ Forall valid_input e.2.
Proof using Howner.
  intros Hn Hv He. apply list_elem_of_join in He as (entries & He & Hb). apply list_elem_of_fmap in Hb as (batch & -> & Hbatch).
  unfold batch_entries in He. apply elem_of_lookup_imap in He as (i & x & -> & Hx). cbn. unfold shard_rows in Hx. rewrite list_lookup_fmap in Hx.
  destruct (seq 0 n !! i) as [i'|] eqn:Ei; [|done]. apply lookup_seq in Ei as [-> Hi]. cbn in Hx. injection Hx as <-.
  split; [done|]. apply Forall_forall. intros row [_ Hrow]%list_elem_of_filter. rewrite Forall_forall in Hv. specialize (Hv _ Hbatch).
  rewrite Forall_forall in Hv. by apply Hv.
Qed.

Lemma batch_entries_rows n batches : 1 ≤ n → mjoin (snd <$> mjoin (batch_entries owner_hash n <$> batches)) ≡ₚ mjoin batches.
Proof using Howner.
  intros Hn. induction batches as [|batch batches IH]; [done|]. rewrite fmap_cons, !mjoin_cons, fmap_app, join_app, IH. f_equiv.
  unfold batch_entries. rewrite numbered_values. by apply shard_rows_permutation.
Qed.

(** The rows that a schedule of batches pushes. *)
Definition scheduled (n : nat) (batches : list (list InputRow)) (schedule : list (nat * list InputRow)) : Prop :=
  schedule ≡ₚ mjoin (batch_entries owner_hash n <$> batches).

Lemma push_schedule builders ls batches schedule :
  1 ≤ length builders → Forall2 reads builders ls → Forall (Forall valid_input) batches → scheduled (length builders) batches schedule →
  (Z.of_nat (2 * (length (mjoin ls) + length (mjoin batches)) + 2) < 2 ^ 32)%Z →
  (∃ builders' ls', loop (push_shard stable_hash) builders schedule = Ok builders' ∧ length builders' = length builders ∧
     Forall2 reads builders' ls' ∧ mjoin ls' ≡ₚ mjoin ls ++ omap read_row (mjoin batches) ∧ ¬ blank (mjoin batches)) ∨
  (loop (push_shard stable_hash) builders schedule = Err InputError ∧ blank (mjoin batches)).
Proof using Howner H0.
  intros Hlen Hf Hv Hs Hn. pose proof (batch_entries_rows (length builders) batches Hlen) as Hrows.
  assert (Hperm : mjoin (snd <$> schedule) ≡ₚ mjoin batches) by (rewrite <- Hrows; by rewrite Hs).
  assert (Hblank : blank (mjoin (snd <$> schedule)) ↔ blank (mjoin batches)) by (unfold blank; by setoid_rewrite Hperm).
  destruct (push_shards builders ls schedule Hf) as [(builders' & ls' & H1 & H5 & H2 & H3 & H4)|[H1 H2]].
  - intros e He. rewrite Hs in He. by eapply batch_entries_in.
  - by rewrite (Permutation_length Hperm).
  - left. exists builders', ls'. split_and!; [done..| |by rewrite <- Hblank]. by rewrite H3, Hperm.
  - right. split; [done|]. by apply Hblank.
Qed.
End Runs.

(** ** Removing the root *)

Lemma omap_le {A B} (f : A → option B) l : length (omap f l) ≤ length l.
Proof. induction l as [|x l IH]; cbn; [lia|]. destruct (f x); cbn; lia. Qed.

Lemma swap_remove_split {A} (l : list A) i x :
  l !! i = Some x → ∃ rest, swap_remove l i = Some (x, rest) ∧ x :: rest ≡ₚ l.
Proof.
  intros Hx. unfold swap_remove. rewrite Hx. cbn [mbind option_bind].
  destruct (exists_last (l := l)) as (init & z & ->); [by intros ->|]. rewrite last_snoc. cbn [mbind option_bind].
  eexists. split; [reflexivity|]. rewrite length_app. cbn [length]. rewrite Nat.add_sub.
  assert (Hi : i < length (init ++ [z])) by by eapply lookup_lt_Some. rewrite length_app in Hi. cbn in Hi.
  destruct (decide (i < length init)) as [Hlt|Hge].
  - rewrite insert_app_l by done. rewrite take_app_le by (rewrite length_insert; lia).
    rewrite take_ge by (rewrite length_insert; lia). rewrite lookup_app_l in Hx by done.
    rewrite insert_take_drop by done. rewrite <- (take_drop_middle init i x Hx) at 3.
    rewrite <- (assoc_L (++)). rewrite Permutation_middle. f_equiv. cbn. f_equiv. by rewrite Permutation_app_comm.
  - assert (i = length init) as -> by lia. rewrite list_lookup_middle in Hx by done. simplify_eq.
    rewrite insert_app_r_alt, Nat.sub_diag by done. cbn. rewrite take_app_length. by rewrite Permutation_app_comm.
Qed.

Lemma Forall2_swap_remove {A B} (R : A → B → Prop) l k i :
  Forall2 R l k → i < length l →
  ∃ x rest y rest', swap_remove l i = Some (x, rest) ∧ y :: rest' ≡ₚ k ∧ R x y ∧ Forall2 R rest rest'.
Proof.
  intros Hf Hi. destruct (lookup_lt_is_Some_2 l i Hi) as [x Hx]. destruct (swap_remove_split l i x Hx) as (rest & Hs & Hp).
  destruct (Permutation_Forall2 (Permutation_sym Hp) Hf) as (k' & Hk & Hf').
  inversion Hf' as [|? y ? rest' Hy Hr]; subst. exists x, rest, y, rest'. split_and!; [done|by symmetry|done|done].
Qed.

(** The largest builder is one of them. *)
Lemma largest_builder_bound estimates : estimates ≠ [] → largest_builder estimates < length estimates.
Proof.
  intros Hne. unfold largest_builder.
  assert (Hgen : ∀ l (largest : nat * Z), (∀ e, e ∈ l → e.1 < length estimates) → largest.1 < length estimates →
    (foldl (λ largest e : nat * Z, if (largest.2 <? e.2)%Z then e else largest) largest l).1 < length estimates).
  { induction l as [|e l IH]; intros largest Hl Hlt; cbn [foldl]; [done|].
    apply IH; [intros; apply Hl; by right|]. destruct (_ <? _)%Z; [apply Hl; by left|done]. }
  apply Hgen; [|destruct estimates; [done|cbn; lia]].
  intros e He. apply elem_of_lookup_imap in He as (i & x & -> & Hi). by eapply lookup_lt_Some.
Qed.

Section Loaded.
Context (stable_hash : list N → N) `{JsonText}.
Abbreviation reads := (reads stable_hash).

Lemma merge_builders_loop root rest l ls :
  reads root l → Forall2 reads rest ls → (Z.of_nat (2 * (length l + length (mjoin ls))) < 2 ^ 32)%Z →
  ∃ b, loop (merge_from stable_hash) root rest = Ok b ∧ reads b (l ++ mjoin ls).
Proof.
  intros Hroot Hf. revert root l Hroot. induction Hf as [|b l' rest ls Hb _ IH]; intros root l Hroot Hn.
  { exists root. cbn. by rewrite app_nil_r. }
  rewrite mjoin_cons, length_app in Hn. destruct Hroot as (t & Hroot & Ht), Hb as (t' & Hb & Ht').
  destruct (merge_in stable_hash root b t t' l l' _ _ Hroot Hb Ht Ht') as (b' & t2 & Hm & Hb' & Ht2); [lia|].
  cbn [loop]. rewrite Hm. cbn [mbind fallible_bind].
  destruct (IH b' (l ++ l')) as (b2 & ? & ?).
  - exists t2. split; [done|]. rewrite length_app. by replace (2 * (length l + length l')) with (2 * length l + 2 * length l') by lia.
  - rewrite length_app. lia.
  - exists b2. rewrite mjoin_cons. by rewrite (assoc_L (++)).
Qed.

Lemma default_reads : reads default_builder [].
Proof. eexists. split; [apply default_has_read|]. unfold at_most. cbn. lia. Qed.

(** Rows read without documents can be prepared. *)
Lemma has_read_readable b t l :
  has_read stable_hash b t l → at_most t (2 * length l) → (Z.of_nat (2 * length l) < 2 ^ 32)%Z →
  (∀ r, r ∈ l → read_document r = None ∧ source_ok (read_source r)) →
  readable stable_hash b (address_texts t) (token_texts t) (document_texts t).
Proof.
  intros [[HA HT _ _ HD] Hrows Hunp] (SA & _) Hn Hl.
  assert (Hall : ∀ row, row ∈ logical_rows b → ∃ r, r ∈ l ∧ row_reads t row r).
  { intros row [i Hi]%list_elem_of_lookup. destruct (Forall2_lookup_l _ _ _ _ _ Hrows Hi) as (r & Hr & ?).
    exists r. split; [by eapply list_elem_of_lookup_2|done]. }
  split; try done.
  - intros row (r & _ & [_ ? ? _ _ _ _ _ _])%Hall. split; by eapply lookup_lt_Some.
  - apply Forall_forall. intros row (r & [Hnone _]%Hl & Hr)%Hall. destruct Hr as [_ _ _ _ _ _ Hd Hs _].
    rewrite Hnone in Hd, Hs. split; [by destruct (metadata_id row)|done].
  - apply Forall_forall. intros row (r & [_ Hok]%Hl & Hr)%Hall. by rewrite (reads_source _ _ _ Hr).
  - rewrite (Forall2_length _ _ _ Hrows). unfold u32_max. lia.
Qed.

Context (owner_hash : ChainId → str → Z) (estimate : ResidentBuilder → Z).

Context (Howner : ∀ chain address, (0 ≤ owner_hash chain address)%Z).

Abbreviation load_rows := (load_rows stable_hash estimate).

Lemma load_rows_spec shards batches schedule :
  1 ≤ shards → Forall (Forall valid_input) batches → scheduled owner_hash shards batches schedule →
  (Z.of_nat (2 * length (mjoin batches) + 2) < 2 ^ 32)%Z →
  (∃ b l, load_rows shards schedule = Ok b ∧ reads b l ∧ l ≡ₚ omap read_row (mjoin batches) ∧
     ¬ blank (mjoin batches)) ∨
  (load_rows shards schedule = Err InputError ∧ blank (mjoin batches)).
Proof using Howner H0.
  intros Hshards Hv Hsched Hn. unfold load_rows.
  assert (Hempty : mjoin (replicate shards (@nil ReadRow)) = []) by (clear; induction shards; done).
  destruct (push_schedule stable_hash owner_hash Howner (replicate shards default_builder) (replicate shards []) batches schedule)
    as [(builders & ls & -> & Hlen & Hf & Hp & Hb)|[-> Hb]].
  - by rewrite length_replicate.
  - apply Forall2_replicate, default_reads.
  - done.
  - by rewrite length_replicate.
  - rewrite Hempty. cbn [length]. lia.
  - left. cbn [mbind fallible_bind]. unfold merge_builders. rewrite length_replicate in Hlen. rewrite Hempty in Hp. cbn in Hp.
    destruct (Forall2_swap_remove _ builders ls (largest_builder (estimate <$> builders)) Hf) as (root & rest & l & ls' & -> & Hls & Hroot & Hrest).
    { rewrite <- (length_fmap estimate builders). apply largest_builder_bound. intros E%fmap_nil_inv. rewrite E in Hlen. cbn in Hlen. lia. }
    cbn [expect mbind fallible_bind].
    assert (Hall : l ++ mjoin ls' ≡ₚ omap read_row (mjoin batches)) by (rewrite <- Hp, <- Hls; by rewrite mjoin_cons).
    assert (Hle : length (l ++ mjoin ls') ≤ length (mjoin batches)) by (rewrite Hall; apply omap_le).
    destruct (merge_builders_loop root rest l ls' Hroot Hrest) as (b & ? & ?); [rewrite length_app in Hle; lia|].
    exists b, (l ++ mjoin ls'). by split_and!.
  - right. by split.
Qed.
End Loaded.

(** C35: Loading rows, in any batches and any number of shards, however the workers that
    decode batches take the locks of shards and whichever builder is the largest, fails exactly when the contract or the token of some row is blank, and
    otherwise returns a builder whose rows are the input's: every row once, with its
    normalized address, token, name, URIs and document, through any renumbering of the
    texts. When the rows come without documents the builder can be prepared. *)
Theorem rows_read `{JsonText} (stable_hash : list N → N) owner_hash estimate shards batches schedule :
  (∀ chain address, (0 ≤ owner_hash chain address)%Z) →
  1 ≤ shards → Forall (Forall valid_input) batches → scheduled owner_hash shards batches schedule →
  (Z.of_nat (2 * length (mjoin batches) + 2) < 2 ^ 32)%Z →
  if existsb (λ row, bool_decide (read_row row = None)) (mjoin batches) then
    load_rows stable_hash estimate shards schedule = Err InputError
  else ∃ b t l, load_rows stable_hash estimate shards schedule = Ok b ∧ has_read stable_hash b t l ∧
    l ≡ₚ omap read_row (mjoin batches) ∧
    ((∀ row, row ∈ mjoin batches → metadata_json row = None ∧ source_ok (source_order row)) →
      readable stable_hash b (address_texts t) (token_texts t) (document_texts t)).
Proof.
  intros Howner Hs Hv Hsched Hn. destruct (existsb _ _) eqn:Eb.
  - apply existsb_exists in Eb as (row & Hrow%list_elem_of_In & Hnone%bool_decide_eq_true).
    destruct (load_rows_spec stable_hash owner_hash estimate Howner shards batches schedule) as [(? & ? & _ & _ & _ & Hb)|[? _]]; try done.
    destruct Hb. by exists row.
  - destruct (load_rows_spec stable_hash owner_hash estimate Howner shards batches schedule Hs Hv Hsched Hn)
      as [(b & l & Hload & (t & Hb & Ht) & Hp & _)|[_ (row & Hrow & Hnone)]].
    + exists b, t, l. split_and!; [done..|]. intros Hdoc.
      assert (Hle : length l ≤ length (mjoin batches)) by (rewrite Hp; apply omap_le).
      eapply has_read_readable; [done|done|lia|]. intros r Hr. rewrite Hp in Hr.
      apply list_elem_of_omap in Hr as (row & [Hnone Hok]%Hdoc & Hread). unfold read_row in Hread. rewrite Hnone in Hread.
      destruct (_ || _); simplify_eq. cbn. done.
    + assert (Hfalse : existsb (λ row, bool_decide (read_row row = None)) (mjoin batches) = true); [|congruence].
      apply existsb_exists. exists row. split; [by apply list_elem_of_In|by apply bool_decide_eq_true].
Qed.

Lemma rows_read_witness :
  let batches := [take 2 example_rows; drop 2 example_rows] in
  let schedule := reverse (mjoin (batch_entries (λ _ _, 5%Z) 4 <$> batches)) in
  let load := @load_rows (λ _, 7%N) (λ b, Z.of_nat (length (logical_rows b))) pair_json 4 schedule in
  ∃ b t l, load = Ok b ∧ has_read (λ _, 7%N) b t l ∧ l ≡ₚ omap (@read_row pair_json) (mjoin batches) ∧
    readable (λ _, 7%N) b (address_texts t) (token_texts t) (document_texts t).
Proof.
  intros batches schedule load.
  pose proof (@rows_read pair_json pair_json_text (λ _, 7%N) (λ _ _, 5%Z) (λ b, Z.of_nat (length (logical_rows b))) 4 batches schedule) as Hr.
  destruct Hr as (b & t & l & ? & ? & ? & Hd).
  - intros; lia.
  - lia.
  - repeat constructor.
  - unfold scheduled, schedule. apply reverse_Permutation.
  - vm_compute. reflexivity.
  - exists b, t, l. split_and!; [assumption..|]. apply Hd. intros row Hin. apply list_elem_of_In in Hin. cbn in Hin.
    destruct Hin as [<-|[<-|[<-|[]]]]; (split; [reflexivity|]); unfold source_ok; cbn; lia.
Defined.
