(* ===== verification/Preparation.v ===== *)
(** The contracts of the builder's preparation and of its second pass, for rows read
    without documents. *)

From S2P Require Import Prelude Text CanonicalJson Anchors SortedLists Events ValuePools.
From S2P Require Import Fallible AnalysisJson Builder AnchorRows PrepareFacts Prepared Loaded.

(** ** The example *)

Lemma example_readable :
  ∃ b la lt lm, loop (@push (λ _, 7%N) pair_json) default_builder example_rows = Ok b ∧
    readable (λ _, 7%N) b la lt lm ∧ length lm ≤ 10 ∧
    source <$> logical_rows b = source_order <$> example_rows.
Proof.
  pose proof (@push_rows (λ _, 7%N) pair_json pair_json_text default_builder [] example_rows (default_reads _)) as Hp.
  destruct Hp as (b & Hb & t & Hr & Ht).
  { repeat constructor. }
  { vm_compute. reflexivity. }
  exists b, (address_texts t), (token_texts t), (document_texts t). split_and!.
  - exact Hb.
  - eapply (has_read_readable (λ _, 7%N)); [exact Hr|exact Ht|vm_compute; reflexivity|].
    intros r Hin. apply list_elem_of_In in Hin. cbn in Hin. destruct Hin as [<-|[<-|[<-|[]]]]; (split; [reflexivity|]); unfold source_ok; cbn; lia.
  - destruct Ht as (_ & _ & _ & _ & Ht). cbn in Ht. lia.
  - clear -Hb. vm_compute in Hb. inversion Hb. reflexivity.
Qed.

(** ** The order of tokens *)

(** Numerals are compared by value and other tokens by text, so the order of EVM tokens has
    cycles: it is no order that a sort can follow when a contract has both. *)
Lemma token_cmp_cycle :
  token_cmp Ethereum (lit "10") (lit "1a") = Lt ∧ token_cmp Ethereum (lit "1a") (lit "9") = Lt ∧
  token_cmp Ethereum (lit "9") (lit "10") = Lt.
Proof. by split_and!. Qed.

(** ** Preparation *)



(** ** The second pass *)

(** C34: After the second pass every contract keeps as anchors its first rows, up to the
    limit, that have a document in the input at all, whatever the order of the rows of the
    input; an anchor has the document of its first source and no other row has one. Reading
    a document only when its row can be an anchor loses nothing, invalid and oversized
    documents are counted, and all else in the rows stays. *)
Theorem second_pass `{ParallelSort} `{JsonText} (stable_hash : list N → N) b la lk lm k inputs :
  readable stable_hash b la lk lm → 1 ≤ k ≤ 8 → NoDup (source <$> logical_rows b) →
  (∀ input, input ∈ inputs → ∃ r, r ∈ logical_rows b ∧ source r = input.1) → has_room lm (length inputs) →
  ∃ b1 b2, prepare_metadata b k = Ok b1 ∧ loop (attach_row stable_hash) b1 inputs = Ok b2 ∧
    skeleton <$> logical_rows b2 = skeleton <$> logical_rows b1 ∧ counted b1 b2 (snd <$> inputs) ∧
    (∀ c range, contract_ranges b1 !! c = Some range →
       ∃ anchors, metadata_anchor_rows b2 !! c = Some (padded anchors) ∧ StronglySorted lt anchors ∧ length anchors ≤ k ∧
         (∀ row, row ∈ anchors → range.1 ≤ row < range.2 ∧
            ∃ s text, first_document b1 inputs row s text ∧ row_text b2 row = Some text) ∧
         ∀ row, range.1 ≤ row < range.2 → row ∉ anchors → row_text b2 row = None ∧
           ∀ s text, has_document b1 inputs row s text → length anchors = k ∧ ∀ a, a ∈ anchors → a < row) ∧
    (∀ inputs', inputs ≡ₚ inputs' → NoDup (fst <$> inputs) →
       ∃ b2', loop (attach_row stable_hash) b1 inputs' = Ok b2' ∧
         ∀ c range, contract_ranges b1 !! c = Some range →
           metadata_anchor_rows b2' !! c = metadata_anchor_rows b2 !! c ∧
           ∀ row, range.1 ≤ row < range.2 → row_text b2' row = row_text b2 row).
Proof.
  intros Hb Hk Hnd Hin Hroom. pose proof (prepare_metadata_spec stable_hash b la lk lm k Hb Hk) as Hp.
  rewrite decide_True in Hp by done. destruct Hp as (b1 & Hprep & Hp & Hcount).
  destruct (second_pass_run stable_hash b b1 la lm k inputs Hp Hcount Hin Hroom) as (b2 & texts & Hrun & Hl & Ha & Hsame & Hcounted).
  exists b1, b2. split; [done|]. split; [done|].
  assert (Hb2 : contract_ranges b2 = contract_ranges b1 ∧ metadata_anchor_count b2 = k)
    by (destruct Hsame as (? & ? & ? & ? & -> & _); done).
  destruct Hb2 as [Hranges HK2]. split; [by destruct Hsame as (? & ? & ? & ? & -> & ?)|]. split; [done|]. split.
  - intros c range Hc. rewrite <- Hranges in Hc. exists (first_rows k (foldl (offer_input b1) ∅ inputs) range).
    rewrite <- HK2. split_and!; [by eapply attached_slots|apply first_rows_sorted|apply first_rows_length| |].
    + intros row Hrow. destruct (first_rows_elem _ _ _ _ Hrow) as [[[s text] Hm] Hr]. split; [done|].
      pose proof (foldl_offers stable_hash b1 inputs row) as Hf. rewrite Hm in Hf. exists s, text. split; [done|].
      rewrite (attached_text stable_hash b2 _ texts c range row Hl Ha Hc Hr), decide_True, Hm by done. done.
    + intros row Hr Hout. rewrite (attached_text stable_hash b2 _ texts c range row Hl Ha Hc Hr), decide_False by done.
      split; [done|]. intros s text Hd. apply first_rows_missed; [done| |done].
      pose proof (foldl_offers stable_hash b1 inputs row) as Hf. destruct (_ !! row); [done|]. by destruct (Hf s text).
  - intros inputs' Hperm Hnd'.
    destruct (second_pass_run stable_hash b b1 la lm k inputs' Hp Hcount) as (b2' & texts' & Hrun' & Hl' & Ha' & Hsame' & _).
    { intros input Hi. rewrite <- Hperm in Hi. by apply Hin. }
    { unfold has_room in *. by rewrite <- Hperm. }
    exists b2'. split; [done|]. intros c range Hc.
    assert (Hb2' : contract_ranges b2' = contract_ranges b1 ∧ metadata_anchor_count b2' = k)
      by (destruct Hsame' as (? & ? & ? & ? & -> & _); done).
    destruct Hb2' as [Hranges' HK2']. rewrite <- (foldl_offers_permutation stable_hash b1 inputs inputs' Hperm Hnd') in Ha'. split.
    + rewrite (attached_slots _ _ _ _ Ha' c range), (attached_slots _ _ _ _ Ha c range), HK2, HK2' by congruence. done.
    + intros row Hr. rewrite (attached_text stable_hash b2 _ texts c range row Hl Ha ltac:(congruence) Hr).
      rewrite (attached_text stable_hash b2' _ texts' c range row Hl' Ha' ltac:(congruence) Hr). by rewrite HK2, HK2'.
Qed.

Lemma second_pass_witness :
  let inputs := [({| file_ordinal := 0; file_row_number := 2 |}, Some (lit " {'A':2} "));
                 ({| file_ordinal := 0; file_row_number := 0 |}, Some (lit "{'A':1}"))] in
  ∃ b b1 b2, loop (@push (λ _, 7%N) pair_json) default_builder example_rows = Ok b ∧
    @prepare_metadata stable_parallel_sort b 3 = Ok b1 ∧ loop (@attach_row (λ _, 7%N) pair_json) b1 inputs = Ok b2 ∧
    skeleton <$> logical_rows b2 = skeleton <$> logical_rows b1.
Proof.
  intros inputs. destruct example_readable as (b & la & lt & lm & Hb & Hr & Hm & Hs).
  destruct (@second_pass stable_parallel_sort pair_json pair_json_text (λ _, 7%N) b la lt lm 3 inputs Hr)
    as (b1 & b2 & H1 & H2 & H3 & _).
  - lia.
  - rewrite Hs. vm_compute. repeat constructor; set_solver.
  - assert (Hin : ∀ s, s ∈ source_order <$> example_rows → ∃ r, r ∈ logical_rows b ∧ source r = s).
    { intros s Hin. rewrite <- Hs in Hin. apply list_elem_of_fmap in Hin as (r & -> & ?). eauto. }
    intros input Hi. unfold inputs in Hi. apply elem_of_cons in Hi as [->|Hi]; [|apply list_elem_of_singleton in Hi as ->];
      apply Hin; vm_compute; set_solver.
  - unfold has_room, inputs. cbn [length]. lia.
  - exists b, b1, b2. split_and!; assumption.
Defined.
