(* ===== verification/Profiles.v ===== *)
(** Proofs about the metadata profiles of [Resident]: contracts with the same anchors share
    a profile whatever the hashes are, and a profile lists its contracts in order. *)

From S2P Require Import Prelude Text CanonicalJson Anchors SortedLists Events Reducer ValuePools.
From S2P Require Import Fallible AnalysisJson Builder Resident PrepareFacts.

(** ** Positions in a list *)

Definition index_of (own : list MetadataAnchor) (l : list (list MetadataAnchor)) : option nat :=
  fst <$> list_find (λ x, x = own) l.

Lemma index_of_Some own l k : index_of own l = Some k → l !! k = Some own.
Proof.
  unfold index_of. destruct (list_find _ l) as [[j x]|] eqn:E; [|done]. cbn. intros [= ->].
  by apply list_find_Some in E as (? & -> & _).
Qed.

Lemma index_of_None own l : own ∉ l → index_of own l = None.
Proof. intros Hl. unfold index_of. rewrite fmap_None, list_find_None, Forall_forall. naive_solver. Qed.

Lemma index_of_lookup own l k : NoDup l → l !! k = Some own → index_of own l = Some k.
Proof.
  intros Hl Hk. unfold index_of. destruct (list_find _ l) as [[j x]|] eqn:E; cbn.
  - apply list_find_Some in E as (Hj & -> & _). f_equal. by eapply NoDup_lookup.
  - apply list_find_None in E. rewrite Forall_forall in E. destruct (E own); [by eapply list_elem_of_lookup_2|done].
Qed.

Lemma take_snoc {A} (l : list A) c x : l !! c = Some x → take (S c) l = take c l ++ [x].
Proof. apply take_S_r. Qed.

Lemma slice_of_join {A} (D : list (list A)) k own :
  D !! k = Some own → slice (mjoin D) (length (mjoin (take k D))) (length (mjoin (take k D)) + length own) = Some own.
Proof.
  intros Hk. rewrite <- (take_drop_middle D k own Hk) at 1. rewrite join_app. cbn.
  unfold slice. rewrite decide_True by (rewrite !length_app; lia).
  f_equal. rewrite Nat.add_comm, Nat.add_sub, drop_app_length. apply take_app_length.
Qed.

(** ** The loop over the contracts *)

Section Profiles.
Context (sip_hash : list nat → N) (offsets : list nat) (all : list MetadataAnchor) (owns : list (list MetadataAnchor)).
Context (Howns : ∀ c own, owns !! c = Some own → contract_anchors offsets all c = Some own).
Context (Hsmall : Forall (λ own, length own < 256) owns) (Hcount : (Z.of_nat (length owns) ≤ u32_max)%Z).

Definition members_before (c : nat) (own : list MetadataAnchor) : nat := length (filter (λ o, o = own) (take c owns)).

Definition profile_at (D : list (list MetadataAnchor)) (c k : nat) (own : list MetadataAnchor) : MetadataProfile :=
  {| anchor_start := length (mjoin (take k D)); anchor_len := length own; member_start := 0;
     member_len := members_before c own |}.

(** The state after [c] contracts; [D] are the distinct lists of anchors. *)
Record profiled (D : list (list MetadataAnchor)) (c : nat) (st : ProfileState) : Prop := {
  profiled_distinct : NoDup D;
  profiled_nonempty : [] ∉ D;
  profiled_seen own : own ∈ D → own ∈ take c owns;
  profiled_known own : own ∈ take c owns → own = [] ∨ own ∈ D;
  profiled_anchors : ps_anchors st = mjoin D;
  profiled_profiles : ps_profiles st = imap (profile_at D c) D;
  profiled_buckets h k : k ∈ bucket_profiles (ps_buckets st !! h) ↔ ∃ own, D !! k = Some own ∧ profile_hash sip_hash own = h;
  profiled_contracts : ps_contract_profiles st =
    imap (λ i own, if decide (i < c) then index_of own D else None) owns;
}.

Lemma start_profiled : profiled [] 0
  {| ps_buckets := ∅; ps_profiles := []; ps_anchors := []; ps_contract_profiles := replicate (length owns) None |}.
Proof.
  split; cbn; try done.
  - constructor.
  - apply not_elem_of_nil.
  - by intros own ?%elem_of_nil.
  - intros h k. rewrite lookup_empty. cbn. rewrite elem_of_nil. naive_solver.
  - apply list_eq. intros i. rewrite list_lookup_imap. destruct (owns !! i) as [own|] eqn:E; cbn.
    + apply lookup_replicate_2. by eapply lookup_lt_Some.
    + apply lookup_ge_None in E. apply lookup_ge_None. by rewrite length_replicate.
Qed.

Section Step.
Context (D : list (list MetadataAnchor)) (c : nat) (st : ProfileState) (own : list MetadataAnchor).
Context (Hst : profiled D c st) (Hown : owns !! c = Some own).

Lemma members_next o : members_before (S c) o = members_before c o + (if decide (own = o) then 1 else 0).
Proof using Hown.
  clear -Hown. unfold members_before. rewrite (take_snoc owns c own), filter_app, length_app by done. f_equal.
  cbn. by destruct (decide (own = o)).
Qed.

Lemma same_anchors_spec k o : D !! k = Some o → same_anchors st own k = Some (bool_decide (o = own)).
Proof using Hst.
  clear -Hst. intros Hk. unfold same_anchors. rewrite (profiled_profiles _ _ _ Hst), list_lookup_imap, Hk. cbn.
  rewrite (profiled_anchors _ _ _ Hst), (slice_of_join D k o Hk). done.
Qed.

Lemma find_profile_spec ids : (∀ k, k ∈ ids → is_Some (D !! k)) →
  ∃ r, find_profile st own ids = Some r ∧
    match r with Some k => D !! k = Some own | None => ∀ k, k ∈ ids → D !! k ≠ Some own end.
Proof using Hst.
  clear -Hst. induction ids as [|k ids IH]; intros Hids; cbn [find_profile].
  { exists None. split; [done|]. by intros k ?%elem_of_nil. }
  destruct (Hids k) as [o Ho]; [by left|]. rewrite (same_anchors_spec k o Ho). cbn [mbind option_bind].
  case_bool_decide as E; [exists (Some k); by subst|].
  destruct IH as (r & -> & Hr); [intros; apply Hids; by right|]. exists r. split; [done|].
  destruct r as [k'|]; [done|]. intros k' [-> |Hk']%elem_of_cons; [congruence|by apply Hr].
Qed.

Lemma existing_profile_spec : ∃ r, existing_profile sip_hash st own = Some r ∧
    match r with Some k => D !! k = Some own | None => own ∉ D end.
Proof using Hst.
  clear -Hst. pose proof (profiled_buckets _ _ _ Hst (profile_hash sip_hash own)) as Hb.
  destruct (find_profile_spec (bucket_profiles (ps_buckets st !! profile_hash sip_hash own))) as (r & Hr & Hspec).
  { intros k (o & Ho & _)%Hb. eauto. }
  exists r. split.
  - unfold existing_profile. destruct (_ !! _) as [[|]|]; cbn in Hr; by rewrite ?Hr.
  - destruct r as [k|]; [done|]. intros [k Hk]%list_elem_of_lookup. apply (Hspec k); [apply Hb; eauto|done].
Qed.

(** The contract gets the profile of its anchors. *)
Lemma assign_profiled D' st' k :
  D `prefix_of` D' → D' !! k = Some own → NoDup D' → [] ∉ D' → (∀ o, o ∈ D' → o ∈ take (S c) owns) →
  (∀ o, o ∈ take (S c) owns → o = [] ∨ o ∈ D') →
  ps_anchors st' = mjoin D' → ps_profiles st' = imap (profile_at D' c) D' →
  (∀ h k, k ∈ bucket_profiles (ps_buckets st' !! h) ↔ ∃ own, D' !! k = Some own ∧ profile_hash sip_hash own = h) →
  ps_contract_profiles st' = ps_contract_profiles st →
  ∃ st2, assign_profile st' c k = Ok st2 ∧ profiled D' (S c) st2.
Proof using Hst Hown.
  intros Hpre Hk Hnd Hne Hseen Hknown Ha Hp Hb Hc. unfold assign_profile.
  rewrite Hp, list_lookup_imap, Hk. cbn [fmap option_fmap option_map expect mbind fallible_bind].
  assert (Hlt : c < length (ps_contract_profiles st')).
  { rewrite Hc, (profiled_contracts _ _ _ Hst), length_imap. by eapply lookup_lt_Some. }
  rewrite store_Some by done. cbn [expect mbind fallible_bind]. eexists. split; [reflexivity|]. split; cbn; try done.
  - apply list_eq. intros j. rewrite list_lookup_imap. destruct (decide (j = k)) as [->|Hj].
    + rewrite list_lookup_insert_eq by (rewrite length_imap; by eapply lookup_lt_Some). rewrite Hk. cbn.
      unfold profile_at, add_member. cbn. rewrite members_next, decide_True by done. done.
    + rewrite list_lookup_insert_ne by done. rewrite list_lookup_imap. destruct (D' !! j) as [o|] eqn:Ej; cbn; [|done].
      unfold profile_at. rewrite members_next, decide_False; [by rewrite Nat.add_0_r|].
      intros <-. apply Hj. by eapply NoDup_lookup.
  - rewrite Hc, (profiled_contracts _ _ _ Hst). apply list_eq. intros j. rewrite list_lookup_imap.
    destruct (decide (j = c)) as [->|Hj].
    + rewrite list_lookup_insert_eq by (rewrite length_imap; by eapply lookup_lt_Some). rewrite Hown. cbn.
      rewrite decide_True by lia. by rewrite (index_of_lookup own D' k).
    + rewrite list_lookup_insert_ne by done. rewrite list_lookup_imap. destruct (owns !! j) as [o|] eqn:Ej; cbn; [|done].
      f_equal. destruct (decide (j < c)) as [Hjc|Hjc]; [|by rewrite decide_False by lia]. rewrite decide_True by lia.
      destruct (index_of o D) as [i|] eqn:Ei.
      * symmetry. apply index_of_lookup; [done|]. apply index_of_Some in Ei. by eapply prefix_lookup_Some.
      * destruct (index_of o D') as [i|] eqn:Ei'; [|done]. exfalso.
        apply index_of_Some in Ei'. destruct (profiled_known _ _ _ Hst o) as [-> |Ho].
        -- apply list_elem_of_lookup. exists j. by rewrite lookup_take_lt.
        -- apply Hne. by eapply list_elem_of_lookup_2.
        -- apply list_elem_of_lookup in Ho as [i' Hi']. pose proof (profiled_distinct _ _ _ Hst) as Hd.
           by rewrite (index_of_lookup o D i') in Ei.
Qed.

Lemma profile_contract_step :
  ∃ D' st', profile_contract sip_hash offsets all st c = Ok st' ∧ profiled D' (S c) st' ∧ D `prefix_of` D'.
Proof using All.
  unfold profile_contract. rewrite (Howns c own Hown). cbn [expect mbind fallible_bind].
  assert (Hseen : ∀ o, o ∈ D → o ∈ take (S c) owns).
  { intros o Ho%(profiled_seen _ _ _ Hst). rewrite (take_snoc owns c own) by done. apply elem_of_app. by left. }
  assert (Hknown : ∀ o, o ∈ take (S c) owns → o = [] ∨ o ∈ D ∨ o = own).
  { intros o. rewrite (take_snoc owns c own) by done. intros [Ho|Ho]%elem_of_app.
    - destruct (profiled_known _ _ _ Hst o Ho); auto.
    - apply list_elem_of_singleton in Ho. auto. }
  case_decide as Hempty.
  { exists D, st. split_and!; [done| |done]. destruct Hst as [H1 H2 H3 H4 H5 H6 H7 H8]. split; try done.
    - intros o [->|[Ho| -> ]]%Hknown; auto.
    - rewrite H6. apply imap_ext. intros j o Ho. unfold profile_at. rewrite members_next, decide_False; [by rewrite Nat.add_0_r|].
      intros <-. apply H2. rewrite <- Hempty. by eapply list_elem_of_lookup_2.
    - rewrite H8. apply imap_ext. intros j o Ho. cbn. destruct (decide (j < c)); [by rewrite decide_True by lia|].
      destruct (decide (j < S c)); [|done]. assert (j = c) as -> by lia. simplify_eq. by rewrite index_of_None. }
  destruct existing_profile_spec as (r & -> & Hr). cbn [expect mbind fallible_bind]. destruct r as [k|].
  - destruct (assign_profiled D st k) as (st2 & -> & Hst2); try apply Hst; try done.
    + intros o [->|[Ho| -> ]]%Hknown; auto. right. by eapply list_elem_of_lookup_2.
    + eauto.
  - assert (Hlen : length D ≤ c).
    { etrans; [|apply firstn_le_length]. apply submseteq_length, NoDup_submseteq; [apply Hst|apply Hst]. }
    assert (Hc : c < length owns) by by eapply lookup_lt_Some.
    unfold check_capacity. rewrite (profiled_profiles _ _ _ Hst), length_imap. rewrite decide_False by lia. cbn [mbind fallible_bind].
    destruct (assign_profiled (D ++ [own]) (new_profile sip_hash st own) (length D)) as (st2 & -> & Hst2).
    + by apply prefix_app_r.
    + by apply list_lookup_middle.
    + apply NoDup_app. split_and!; [apply Hst| |apply NoDup_singleton]. intros o Ho ->%list_elem_of_singleton. done.
    + rewrite elem_of_app, list_elem_of_singleton. intros [?|?]; [by apply (profiled_nonempty _ _ _ Hst)|congruence].
    + intros o [Ho| ->%list_elem_of_singleton]%elem_of_app; [by apply Hseen|].
      rewrite (take_snoc owns c own) by done. apply elem_of_app. right. by apply list_elem_of_singleton.
    + intros o Ho%Hknown. rewrite elem_of_app, list_elem_of_singleton. naive_solver.
    + unfold new_profile. cbn. rewrite (profiled_anchors _ _ _ Hst), join_app. cbn. by rewrite app_nil_r.
    + unfold new_profile. cbn [ps_profiles]. rewrite (profiled_profiles _ _ _ Hst), (profiled_anchors _ _ _ Hst), imap_app.
      f_equal; [|cbn [imap]; f_equal].
      * apply imap_ext. intros j o Ho. unfold profile_at. rewrite take_app_le; [done|]. apply lookup_lt_Some in Ho. lia.
      * unfold profile_at. rewrite Nat.add_0_r, take_app_length. rewrite Forall_lookup in Hsmall.
        rewrite Nat.mod_small by by eapply Hsmall. f_equal. unfold members_before. rewrite filter_none; [done|].
        intros o Ho ->. destruct (profiled_known _ _ _ Hst _ Ho); done.
    + intros h k. unfold new_profile. cbn. rewrite (profiled_profiles _ _ _ Hst), length_imap.
      assert (Hnew : (∃ o, (D ++ [own]) !! k = Some o ∧ profile_hash sip_hash o = h) ↔
        (∃ o, D !! k = Some o ∧ profile_hash sip_hash o = h) ∨ (k = length D ∧ profile_hash sip_hash own = h)).
      { split.
        - intros (o & Ho & Hh). apply lookup_app_Some in Ho as [Ho|[Hk Ho]]; [left; eauto|].
          apply list_lookup_singleton_Some in Ho as [Hz ->]. right. split; [lia|done].
        - intros [(o & Ho & Hh)|[-> Hh]]; [exists o; split; [by apply lookup_app_l_Some|done]|].
          exists own. split; [by apply list_lookup_middle|done]. }
      rewrite Hnew. pose proof (profiled_buckets _ _ _ Hst h k) as Hb.
      destruct (decide (profile_hash sip_hash own = h)) as [<-|Hh].
      * rewrite lookup_insert_eq. destruct (ps_buckets st !! _) as [[first|ids]|]; cbn in Hb |- *.
        -- rewrite list_elem_of_singleton in Hb. rewrite !elem_of_cons, elem_of_nil. naive_solver.
        -- rewrite elem_of_app, list_elem_of_singleton. naive_solver.
        -- rewrite elem_of_nil in Hb. rewrite list_elem_of_singleton. naive_solver.
      * rewrite lookup_insert_ne by done. naive_solver.
    + done.
    + exists (D ++ [own]), st2. split_and!; [done..|by apply prefix_app_r].
Qed.
End Step.

Lemma profile_contracts :
  ∃ D st, loop (profile_contract sip_hash offsets all)
      {| ps_buckets := ∅; ps_profiles := []; ps_anchors := []; ps_contract_profiles := replicate (length owns) None |}
      (seq 0 (length owns)) = Ok st ∧ profiled D (length owns) st.
Proof using All.
  destruct (loop_indexed (λ c st, ∃ D, profiled D c st) (profile_contract sip_hash offsets all)
    {| ps_buckets := ∅; ps_profiles := []; ps_anchors := []; ps_contract_profiles := replicate (length owns) None |}
    (seq 0 (length owns))) as (st & Hrun & D & Hst).
  - exists []. apply start_profiled.
  - intros i x st [-> Hi]%lookup_seq [D Hst]. destruct (lookup_lt_is_Some_2 owns i Hi) as [own Hown].
    destruct (profile_contract_step D i st own Hst Hown) as (D' & st' & ? & ? & _). eauto.
  - rewrite length_seq in Hst. eauto.
Qed.
End Profiles.

(** ** Consecutive places *)

Definition start_of (lens : list nat) (k : nat) : nat := sum_list (take k lens).

Lemma start_next lens k n : lens !! k = Some n → start_of lens (S k) = start_of lens k + n.
Proof. intros Hk. unfold start_of. rewrite (take_S_r _ _ n), sum_list_with_app by done. cbn. lia. Qed.

Lemma start_mono lens j k : j ≤ k → start_of lens j ≤ start_of lens k.
Proof.
  intros Hjk. unfold start_of. rewrite <- (take_drop j (take k lens)), take_take, sum_list_with_app.
  rewrite Nat.min_l by done. lia.
Qed.

Lemma start_total lens k : start_of lens k ≤ sum_list lens.
Proof. unfold start_of. rewrite <- (take_drop k lens) at 2. rewrite sum_list_with_app. lia. Qed.

Lemma start_end lens k n : lens !! k = Some n → start_of lens k + n ≤ sum_list lens.
Proof. intros Hk. rewrite <- (start_next lens k n Hk). apply start_total. Qed.

(** Places of different positions differ. *)
Lemma start_disjoint lens j k m n a b :
  lens !! j = Some m → lens !! k = Some n → a < m → b < n → start_of lens j + a = start_of lens k + b → j = k.
Proof.
  intros Hj Hk Ha Hb Heq. destruct (lt_eq_lt_dec j k) as [[Hlt|]|Hlt]; [|done|].
  - pose proof (start_mono lens (S j) k Hlt). rewrite (start_next lens j m Hj) in H. lia.
  - pose proof (start_mono lens (S k) j Hlt). rewrite (start_next lens k n Hk) in H. lia.
Qed.

Lemma place_members_spec cursor profiles :
  place_members cursor profiles =
    (imap (λ k p, {| anchor_start := anchor_start p; anchor_len := anchor_len p;
                     member_start := cursor + start_of (member_len <$> profiles) k; member_len := member_len p |}) profiles,
     cursor + sum_list (member_len <$> profiles)).
Proof.
  revert cursor. induction profiles as [|p profiles IH]; intros cursor; cbn; [by rewrite Nat.add_0_r|].
  rewrite IH. rewrite <- Nat.add_assoc. f_equal. f_equal; [unfold start_of; cbn; by rewrite Nat.add_0_r|].
  apply imap_ext. intros k q _. cbn. unfold start_of. cbn. by rewrite <- Nat.add_assoc.
Qed.

(** ** The members *)

Section Members.
Context (owns D : list (list MetadataAnchor)) (index_shards : Z).
Context (Hdistinct : NoDup D) (Hnonempty : [] ∉ D) (records : list ContractRecord) (Hrecords : length records = length owns).

(** The contracts with these anchors among the first [i]. *)
Definition members_with (own : list MetadataAnchor) (i : nat) : list nat := filter (λ c, owns !! c = Some own) (seq 0 i).

Lemma members_with_S own i :
  members_with own (S i) = members_with own i ++ (if decide (owns !! i = Some own) then [i] else []).
Proof. clear. unfold members_with. by rewrite seq_S, filter_app. Qed.

Lemma members_with_length own i : i ≤ length owns → length (members_with own i) = members_before owns i own.
Proof.
  clear. induction i as [|i IH]; intros Hi; [done|]. rewrite members_with_S, length_app, IH by lia.
  destruct (lookup_lt_is_Some_2 owns i) as [o Ho]; [lia|]. rewrite (members_next owns i o Ho). f_equal.
  rewrite Ho. destruct (decide (o = own)) as [->|Hne]; [by rewrite decide_True|]. rewrite decide_False; [done|congruence].
Qed.

Lemma members_with_mono own i j : i ≤ j → ∃ rest, members_with own j = members_with own i ++ rest.
Proof.
  clear. induction 1 as [|j _ [rest IH]]; [exists []; by rewrite app_nil_r|]. rewrite members_with_S, IH.
  eexists. by rewrite <- (assoc_L (++)).
Qed.

Abbreviation n := (length owns).
Abbreviation lens := (members_before owns n <$> D).

Definition profiled_record (c : nat) (r : ContractRecord) : ContractRecord :=
  match owns !! c ≫= λ own, index_of own D with Some k => set_profile r k index_shards | None => r end.

Record filled (i : nat) (acc : list nat * list nat * list ContractRecord) : Prop := {
  filled_length : length acc.1.1 = sum_list lens;
  filled_cursors k own : D !! k = Some own → acc.1.2 !! k = Some (start_of lens k + length (members_with own i));
  filled_members k own j x : D !! k = Some own → members_with own i !! j = Some x → acc.1.1 !! (start_of lens k + j) = Some x;
  filled_records : acc.2 = imap (λ c r, if decide (c < i) then profiled_record c r else r) records;
}.

Lemma lens_lookup k own : D !! k = Some own → lens !! k = Some (length (members_with own n)).
Proof. clear. intros Hk. rewrite list_lookup_fmap, Hk. cbn. by rewrite members_with_length. Qed.

Lemma members_bound own i j x : i ≤ n → members_with own i !! j = Some x → j < length (members_with own n).
Proof.
  clear. intros Hi Hj. destruct (members_with_mono own i n Hi) as [rest ->]. rewrite length_app. apply lookup_lt_Some in Hj. lia.
Qed.

Lemma fill_member_step i own acc :
  owns !! i = Some own → filled i acc → ∃ acc', fill_member index_shards acc (i, index_of own D) = Ok acc' ∧ filled (S i) acc'.
Proof using Hdistinct Hrecords.
  intros Hi Hacc. destruct acc as [[members cursors] recs]. assert (Hin : i < n) by by eapply lookup_lt_Some.
  assert (Hrec : ∀ c r, c ≠ i → (if decide (c < S i) then profiled_record c r else r) = (if decide (c < i) then profiled_record c r else r)).
  { intros c r Hne. destruct (decide (c < i)); [by rewrite decide_True by lia|by rewrite decide_False by lia]. }
  unfold fill_member. cbn [fst snd]. destruct (index_of own D) as [k|] eqn:Ek.
  2: { assert (Hout : own ∉ D).
       { intros [k Hk]%list_elem_of_lookup. by rewrite (index_of_lookup own D k) in Ek. }
       assert (Hsame : ∀ k o, D !! k = Some o → members_with o (S i) = members_with o i).
       { intros k o Ho. rewrite members_with_S, decide_False; [by rewrite app_nil_r|].
         rewrite Hi. intros [= ->]. apply Hout. by eapply list_elem_of_lookup_2. }
       eexists. split; [reflexivity|]. destruct Hacc as [H1 H2 H3 H4]. cbn in *. split; cbn.
       - done.
       - intros k o Ho. rewrite (Hsame k o Ho). by apply H2.
       - intros k o j x Ho. rewrite (Hsame k o Ho). by apply H3.
       - rewrite H4. apply imap_ext. intros c r _. destruct (decide (c = i)) as [->|Hne]; [|by rewrite Hrec].
         rewrite decide_False, decide_True by lia. unfold profiled_record. rewrite Hi. cbn. by rewrite Ek. }
  apply index_of_Some in Ek as Hk. destruct Hacc as [H1 H2 H3 H4]. cbn in H1, H2, H3, H4.
  rewrite (H2 k own Hk). cbn [expect mbind fallible_bind].
  assert (Hself : members_with own (S i) = members_with own i ++ [i]) by (rewrite members_with_S, decide_True; done).
  assert (Hother : ∀ k' o, D !! k' = Some o → k' ≠ k → members_with o (S i) = members_with o i).
  { intros k' o Ho Hne. rewrite members_with_S, decide_False; [by rewrite app_nil_r|].
    rewrite Hi. intros [= ->]. apply Hne. by eapply NoDup_lookup. }
  assert (Hroom : length (members_with own i) < length (members_with own n)).
  { apply (members_bound own (S i) _ i); [lia|]. rewrite Hself. by apply list_lookup_middle. }
  pose proof (start_end lens k _ (lens_lookup k own Hk)) as Hend.
  rewrite store_Some by lia. cbn [expect mbind fallible_bind]. rewrite H4, list_lookup_imap.
  destruct (lookup_lt_is_Some_2 records i) as [r Hr]; [lia|]. rewrite Hr. cbn [fmap option_fmap option_map expect mbind fallible_bind].
  eexists. split; [reflexivity|]. split; cbn [fst snd].
  - by rewrite length_insert.
  - intros k' o Ho. destruct (decide (k' = k)) as [->|Hne].
    + simplify_eq. rewrite list_lookup_insert_eq by (eapply lookup_lt_Some, H2, Hk). rewrite Hself, length_app. cbn. f_equal. lia.
    + rewrite list_lookup_insert_ne by done. rewrite (Hother k' o Ho Hne). by apply H2.
  - intros k' o j x Ho Hj. destruct (decide (k' = k)) as [->|Hne].
    + simplify_eq. rewrite Hself in Hj. apply lookup_app_Some in Hj as [Hj|[Hge Hj]].
      * rewrite list_lookup_insert_ne; [by eapply H3|]. apply lookup_lt_Some in Hj. lia.
      * apply list_lookup_singleton_Some in Hj as [Hz <-]. replace j with (length (members_with own i)) by lia.
        apply list_lookup_insert_eq. lia.
    + rewrite (Hother k' o Ho Hne) in Hj. rewrite list_lookup_insert_ne; [by eapply H3|].
      intros Heq. apply Hne. symmetry. eapply (start_disjoint lens); [by apply lens_lookup|by apply lens_lookup| | |exact Heq]; [done|].
      by eapply (members_bound o i); [lia|].
  - apply list_eq. intros c. rewrite list_lookup_imap. destruct (decide (c = i)) as [->|Hne].
    + rewrite list_lookup_insert_eq by (rewrite length_imap; by eapply lookup_lt_Some). rewrite Hr. cbn.
      rewrite decide_False by lia. rewrite decide_True by lia. unfold profiled_record. rewrite Hi. cbn. by rewrite Ek.
    + rewrite list_lookup_insert_ne by done. rewrite list_lookup_imap. destruct (records !! c); cbn; [|done]. by rewrite Hrec.
Qed.

Lemma fill_members_spec :
  ∃ members cursors, loop (fill_member index_shards) (replicate (sum_list lens) 0, start_of lens <$> seq 0 (length D), records)
      (imap pair ((λ own, index_of own D) <$> owns)) = Ok (members, cursors, imap profiled_record records) ∧
    ∀ k own, D !! k = Some own → slice members (start_of lens k) (start_of lens k + length (members_with own n)) = Some (members_with own n).
Proof using All.
  destruct (loop_indexed filled (fill_member index_shards) (replicate (sum_list lens) 0, start_of lens <$> seq 0 (length D), records)
    (imap pair ((λ own, index_of own D) <$> owns))) as ([[members cursors] recs] & Hrun & [H1 H2 H3 H4]).
  - split; cbn.
    + apply length_replicate.
    + intros k own Hk. rewrite list_lookup_fmap, lookup_seq_lt by by eapply lookup_lt_Some. cbn. by rewrite Nat.add_0_r.
    + done.
    + apply list_eq. intros c. rewrite list_lookup_imap. by destruct (records !! c).
  - intros i x acc Hx Hacc. rewrite list_lookup_imap, list_lookup_fmap in Hx.
    destruct (owns !! i) as [own|] eqn:E; [|done]. cbn in Hx. injection Hx as <-. by apply fill_member_step.
  - rewrite length_imap, length_fmap in *. cbn in H1, H2, H3, H4. exists members, cursors. split.
    + rewrite Hrun, H4. do 2 f_equal. apply imap_ext. intros c r Hr. rewrite decide_True; [done|]. apply lookup_lt_Some in Hr. lia.
    + intros k own Hk. unfold slice. pose proof (start_end lens k _ (lens_lookup k own Hk)).
      rewrite decide_True by lia. f_equal. apply list_eq. intros j. rewrite Nat.add_comm, Nat.add_sub.
      destruct (decide (j < length (members_with own n))) as [Hj|Hj].
      * rewrite lookup_take_lt, lookup_drop by done. destruct (lookup_lt_is_Some_2 _ _ Hj) as [x Hx]. rewrite Hx. by eapply H3.
      * rewrite lookup_take_ge by lia. symmetry. apply lookup_ge_None. lia.
Qed.
End Members.

(** ** The contract of [build_profiles] *)

(** Profiles for contracts with these anchors: the distinct lists of anchors, numbered. *)
Record profiles_of (owns D : list (list MetadataAnchor)) (index_shards : Z) (records : list ContractRecord)
    (m : MetadataFeatureStore) (records' : list ContractRecord) : Prop := {
  profiles_distinct : NoDup D;
  profiles_elem own : own ∈ D ↔ own ∈ owns ∧ own ≠ [];
  profiles_contracts : contract_profiles m = (λ own, index_of own D) <$> owns;
  profiles_anchors k : profile_anchors m k = D !! k;
  profiles_members k : members_of_profile m k = (λ own, members_with owns own (length owns)) <$> D !! k;
  profiles_records : records' = imap (profiled_record owns D index_shards) records;
}.

Lemma build_profiles_spec sip_hash offsets all owns index_shards records tokens docs :
  (∀ c own, owns !! c = Some own → contract_anchors offsets all c = Some own) →
  Forall (λ own, length own < 256) owns → (Z.of_nat (length owns) ≤ u32_max)%Z → length records = length owns →
  ∃ D placed anchors members cps records',
    build_profiles sip_hash offsets all records index_shards = Ok (placed, anchors, members, cps, records') ∧
    profiles_of owns D index_shards records
      {| anchor_tokens := tokens; documents := docs; anchors := anchors; profile_members := members;
         profiles := placed; contract_profiles := cps |} records'.
Proof.
  intros Howns Hsmall Hcount Hrec.
  destruct (profile_contracts sip_hash offsets all owns Howns Hsmall Hcount) as (D & st & Hrun & Hst).
  assert (Hfull : take (length owns) owns = owns) by by apply take_ge.
  assert (Hlens : member_len <$> ps_profiles st = members_before owns (length owns) <$> D).
  { rewrite (profiled_profiles _ _ _ _ _ Hst), fmap_imap. apply list_eq. intros k. rewrite list_lookup_imap, list_lookup_fmap. by destruct (D !! k). }
  destruct (fill_members_spec owns D index_shards (profiled_distinct _ _ _ _ _ Hst) (profiled_nonempty _ _ _ _ _ Hst) records Hrec)
    as (members & cursors & Hfill & Hmem).
  assert (Hcps : ps_contract_profiles st = (λ own, index_of own D) <$> owns).
  { rewrite (profiled_contracts _ _ _ _ _ Hst). apply list_eq. intros c. rewrite list_lookup_imap, list_lookup_fmap.
    destruct (owns !! c) as [own|] eqn:E; cbn; [|done]. rewrite decide_True; [done|]. by eapply lookup_lt_Some. }
  unfold build_profiles. rewrite Hrec, Hrun. cbn [mbind fallible_bind]. rewrite place_members_spec, Hlens, Nat.add_0_l.
  assert (Hstarts : member_start <$> imap (λ k p, {| anchor_start := anchor_start p; anchor_len := anchor_len p;
      member_start := 0 + start_of (members_before owns (length owns) <$> D) k; member_len := member_len p |}) (ps_profiles st) =
    start_of (members_before owns (length owns) <$> D) <$> seq 0 (length D)).
  { rewrite fmap_imap. apply list_eq. intros k. rewrite list_lookup_imap, list_lookup_fmap, (profiled_profiles _ _ _ _ _ Hst), list_lookup_imap.
    destruct (decide (k < length D)) as [Hk|Hk].
    - rewrite lookup_seq_lt by done. by destruct (lookup_lt_is_Some_2 D k Hk) as [own ->].
    - rewrite (lookup_ge_None_2 D) by lia. by rewrite lookup_seq_ge by lia. }
  cbn [fst snd] in *. rewrite Hstarts, Hcps, Hfill. cbn [mbind fallible_bind]. eexists D, _, _, _, _, _. split; [reflexivity|].
  split; cbn.
  - apply Hst.
  - intros own. pose proof (profiled_seen _ _ _ _ _ Hst own) as H1. pose proof (profiled_known _ _ _ _ _ Hst own) as H2.
    pose proof (profiled_nonempty _ _ _ _ _ Hst) as H3. rewrite Hfull in *. split; [|naive_solver].
    intros Ho. split; [by apply H1|]. intros ->. done.
  - done.
  - intros k. unfold profile_anchors. cbn. rewrite list_lookup_imap, (profiled_profiles _ _ _ _ _ Hst), list_lookup_imap.
    destruct (D !! k) as [own|] eqn:Ek; cbn; [|done]. rewrite (profiled_anchors _ _ _ _ _ Hst). by apply slice_of_join.
  - intros k. unfold members_of_profile. cbn. rewrite list_lookup_imap, (profiled_profiles _ _ _ _ _ Hst), list_lookup_imap.
    destruct (D !! k) as [own|] eqn:Ek; cbn; [|done]. rewrite <- (Hmem k own Ek). by rewrite members_with_length.
  - done.
Qed.
