(* ===== verification/StoreContracts.v ===== *)
(** Proofs about the contracts of [Resident]: their representative names, the groups of
    rows they come from, the names, anchors and records that [finish_contract] and
    [renumber_contract] lay out for every group, and the tables of NFTs. *)

From S2P Require Import Prelude Text CanonicalJson Anchors SortedLists Events Reducer ValuePools.
From S2P Require Import Fallible AnalysisJson Builder Resident AnchorRows PrepareFacts Loaded.
From S2P Require Import Profiles.

(** ** The last greatest element *)

Lemma greatest_spec {A} (cmp : A → A → comparison) `{!CompareLaws cmp} l :
  match max_by cmp l with
  | None => l = []
  | Some m => m ∈ l ∧ ∀ x, x ∈ l → cmp x m ≠ Gt
  end.
Proof.
  destruct l as [|x l]; cbn; [done|].
  assert (Hgen : ∀ rest best seen, best ∈ seen → (∀ y, y ∈ seen → cmp y best ≠ Gt) →
    let m := foldl (λ best y, match cmp best y with Gt => best | _ => y end) best rest in
    m ∈ seen ++ rest ∧ ∀ y, y ∈ seen ++ rest → cmp y m ≠ Gt).
  { induction rest as [|y rest IH]; intros best seen Hbest Hseen; cbn [foldl]; [by rewrite app_nil_r|].
    replace (seen ++ y :: rest) with ((seen ++ [y]) ++ rest) by by rewrite <- (assoc_L (++)).
    assert (Hyb : cmp y y ≠ Gt) by by rewrite (compare_refl cmp).
    apply IH.
    - destruct (cmp best y); rewrite elem_of_app, list_elem_of_singleton; auto.
    - intros z [Hz|Hz]%elem_of_app; [apply Hseen in Hz|apply list_elem_of_singleton in Hz as ->]; destruct (cmp best y) eqn:E; try done.
      + eapply (compare_trans cmp); [exact Hz|congruence].
      + eapply (compare_trans cmp); [exact Hz|congruence].
      + rewrite (compare_antisym cmp), E. done. }
  apply (Hgen l x [x]); [by left|]. intros y ->%list_elem_of_singleton. by rewrite (compare_refl cmp).
Qed.

#[local] Instance name_compare_laws : CompareLaws name_compare.
Proof.
  apply (then_with_laws (λ a b : nat * Z * str, Z.compare a.1.2 b.1.2) (λ a b, str_compare b.2 a.2)).
  - apply (compare_map_laws (λ a : nat * Z * str, a.1.2) Z.compare), _.
  - constructor; intros; [apply (compare_refl str_compare)|apply (compare_antisym str_compare)|].
    by eapply (compare_trans str_compare).
Qed.

(** ** Counts *)

Definition names_of (rows : list CompactRow) : list nat := omap name_id rows.

Definition uses (names : list nat) (name : nat) : nat := length (filter (λ n, n = name) names).

Lemma uses_pos names name : name ∈ names ↔ 0 < uses names name.
Proof.
  unfold uses. split.
  - intros Hn. destruct (filter _ _) eqn:E; cbn; [|lia]. assert (Hin : name ∈ filter (λ n, n = name) names) by by apply list_elem_of_filter.
    rewrite E in Hin. by apply elem_of_nil in Hin.
  - intros Hn. destruct (filter (λ n, n = name) names) as [|x l] eqn:E; cbn in Hn; [lia|].
    assert (Hin : x ∈ filter (λ n, n = name) names) by (rewrite E; by left). by apply list_elem_of_filter in Hin as [-> ?].
Qed.

Lemma count_names names :
  ∀ name, foldl count_name ∅ names !! name = if decide (name ∈ names) then Some (Z.of_nat (uses names name)) else None.
Proof.
  assert (Hgen : ∀ rest seen (m : gmap nat Z),
    (∀ name, m !! name = if decide (name ∈ seen) then Some (Z.of_nat (uses seen name)) else None) →
    ∀ name, foldl count_name m rest !! name =
      if decide (name ∈ seen ++ rest) then Some (Z.of_nat (uses (seen ++ rest) name)) else None).
  { induction rest as [|x rest IH]; intros seen m Hm name; cbn [foldl]; [by rewrite app_nil_r|].
    replace (seen ++ x :: rest) with ((seen ++ [x]) ++ rest) by by rewrite <- (assoc_L (++)).
    apply IH. clear name. intros name. unfold count_name.
    assert (Huses : uses (seen ++ [x]) name = uses seen name + (if decide (x = name) then 1 else 0)).
    { unfold uses. rewrite filter_app, length_app. f_equal. cbn. by destruct (decide (x = name)). }
    destruct (decide (x = name)) as [->|Hne].
    - rewrite lookup_insert_eq, Hm, Huses. rewrite (decide_True (P := name ∈ seen ++ [name])) by (apply elem_of_app; right; by left).
      destruct (decide (name ∈ seen)) as [Hin|Hin]; cbn; f_equal; [lia|].
      rewrite uses_pos in Hin. lia.
    - rewrite lookup_insert_ne by done. rewrite Hm, Huses, Nat.add_0_r.
      assert (Hiff : name ∈ seen ++ [x] ↔ name ∈ seen).
      { rewrite elem_of_app, list_elem_of_singleton. naive_solver. }
      destruct (decide (name ∈ seen)); [by rewrite decide_True by by apply Hiff|by rewrite decide_False by by rewrite Hiff]. }
  intros name. apply (Hgen names [] ∅). intros n. rewrite lookup_empty. by rewrite decide_False by apply not_elem_of_nil.
Qed.

(** ** The representative *)

(** The name that stands for rows: used most often, and of those with the least text. *)
Definition representative (texts : list str) (rows : list CompactRow) (r : option nat) : Prop :=
  match r with
  | None => names_of rows = []
  | Some id => id ∈ names_of rows ∧
      ∀ other text other_text, other ∈ names_of rows → other ≠ id → texts !! id = Some text → texts !! other = Some other_text →
        uses (names_of rows) other < uses (names_of rows) id ∨
        uses (names_of rows) other = uses (names_of rows) id ∧ str_compare text other_text = Lt
  end.

Section Representative.
Context (iterate : gmap nat Z → list (nat * Z)) (Hiterate : ∀ m, iterate m ≡ₚ map_to_list m).
Context (stable_hash : list N → N) (pool : ByteInterner) (texts : list str) (Hpool : pool_holds stable_hash pool texts).

Lemma representative_name_spec rows :
  (∀ id, id ∈ names_of rows → is_Some (texts !! id)) →
  ∃ r, representative_name iterate rows pool = Ok r ∧ representative texts rows r.
Proof using Hiterate Hpool.
  intros Hin. unfold representative_name. set (counts := iterate (name_counts rows)).
  assert (Hcounts : ∀ e, e ∈ counts ↔ e.1 ∈ names_of rows ∧ e.2 = Z.of_nat (uses (names_of rows) e.1)).
  { intros [id n]. unfold counts. rewrite Hiterate, elem_of_map_to_list. unfold name_counts. fold (names_of rows).
    rewrite count_names. cbn. destruct (decide (id ∈ names_of rows)); naive_solver. }
  assert (Hm : ∃ entries, mapM (λ e : nat * Z, text ← get pool e.1; Some (e, text)) counts = Some entries ∧
    Forall2 (λ e entry, entry.1 = e ∧ texts !! e.1 = Some entry.2) counts entries).
  { assert (Hall : ∀ e, e ∈ counts → is_Some (texts !! e.1)) by (intros e [? _]%Hcounts; by apply Hin).
    clear -Hall Hpool. induction counts as [|e counts IH]; [by exists []|].
    destruct IH as (entries & Hm & Hf); [intros; apply Hall; by right|].
    destruct (Hall e) as [text Ht]; [by left|]. exists ((e, text) :: entries). split; [|by constructor].
    cbn. rewrite (get_holds _ _ _ Hpool), Ht. cbn. by rewrite Hm. }
  destruct Hm as (entries & -> & Hf). cbn [expect mbind fallible_bind]. eexists. split; [reflexivity|].
  pose proof (greatest_spec name_compare entries) as Hmax. destruct (max_by name_compare entries) as [m|]; cbn.
  2: { subst. apply Forall2_nil_inv_r in Hf. destruct (names_of rows) as [|id l] eqn:E; [done|].
       assert (Hid : (id, Z.of_nat (uses (names_of rows) id)) ∈ counts) by (apply Hcounts; rewrite E; split; [by left|done]).
       rewrite Hf in Hid. by apply elem_of_nil in Hid. }
  destruct Hmax as [Hm Hbest]. apply list_elem_of_lookup in Hm as [i Hi].
  destruct (Forall2_lookup_r _ _ _ _ _ Hf Hi) as (e & He & Hme & Htext).
  apply list_elem_of_lookup_2, Hcounts in He as [Hid Hn]. rewrite Hme. split; [done|].
  intros other text other_text Hother Hne Ht Hot. rewrite Htext in Ht. simplify_eq.
  assert (Ho : (other, Z.of_nat (uses (names_of rows) other)) ∈ counts) by by apply Hcounts.
  apply list_elem_of_lookup in Ho as [j Hj]. destruct (Forall2_lookup_l _ _ _ _ _ Hf Hj) as (x & Hx & Hxe & Hxt).
  cbn in Hxt. pose proof (Hbest x ltac:(by eapply list_elem_of_lookup_2)) as Hle. unfold name_compare in Hle.
  rewrite Hxe, Hn in Hle. cbn [fst snd] in Hle. rewrite Hot in Hxt. injection Hxt as Hxt.
  destruct (Z.compare_spec (Z.of_nat (uses (names_of rows) other)) (Z.of_nat (uses (names_of rows) m.1.1))); cbn in Hle; [|left; lia|done].
  right. split; [lia|]. destruct (str_compare m.2 other_text) eqn:E; [|done|by rewrite <- Hxt in Hle]. exfalso. apply compare_eq_iff in E.
  apply Hne. eapply NoDup_lookup; [by eapply holds_distinct|exact Hot|]. rewrite Htext. congruence.
Qed.
End Representative.

(** The numbers of the rows of the groups. *)
Definition ranges_at (start : nat) (groups : list (list CompactRow)) : list (nat * nat) :=
  imap (λ c g, (start + length (mjoin (take c groups)), start + length (mjoin (take c groups)) + length g)) groups.

(** A group has the rows of one contract. *)
Definition one_contract (g : list CompactRow) : Prop :=
  ∃ first rest, g = first :: rest ∧ ∀ r, r ∈ g → same_contract first r = true.

Lemma ranges_from_groups fuel start rows :
  length rows ≤ fuel →
  ∃ groups, rows = mjoin groups ∧ ranges_from fuel start rows = ranges_at start groups ∧ Forall one_contract groups.
Proof.
  revert start rows. induction fuel as [|fuel IH]; intros start rows Hf.
  { destruct rows; cbn in Hf; [|lia]. exists []. by repeat constructor. }
  destruct rows as [|first rest]; [exists []; by repeat constructor|]. cbn [ranges_from length] in *.
  set (n := run_length first rest). assert (Hn : n ≤ length rest) by apply contract_run_length_le.
  destruct (IH (start + 1 + n) (drop n rest)) as (groups & Hrows & Hranges & Hall); [rewrite length_drop; lia|].
  exists ((first :: take n rest) :: groups). split_and!.
  - rewrite mjoin_cons. rewrite <- Hrows. cbn. by rewrite take_drop.
  - rewrite Hranges. unfold ranges_at. rewrite imap_cons. cbn [take length]. change (mjoin (@nil (list CompactRow))) with (@nil CompactRow). cbn [length].
    rewrite length_take, Nat.min_l, Nat.add_0_r by done. f_equal; [f_equal; lia|].
    apply imap_ext. intros c g _. unfold compose. rewrite firstn_cons, mjoin_cons, length_app. cbn [length].
    rewrite length_take, Nat.min_l by done. apply f_equal2; lia.
  - constructor; [|done]. exists first, (take n rest). split; [done|].
    intros r [-> |[k Hk]%list_elem_of_lookup]%elem_of_cons; [by apply same_contract_true|].
    apply lookup_take_Some in Hk as [Hk Hlt]. by apply (run_length_same first rest k).
Qed.

Lemma contract_groups rows :
  ∃ groups, rows = mjoin groups ∧ contract_ranges_of rows = ranges_at 0 groups ∧ Forall one_contract groups.
Proof. by apply ranges_from_groups. Qed.

(** Contracts depend only on the chains and addresses of rows. *)
Lemma ranges_from_same fuel start rows rows' :
  Forall2 (λ r r', row_chain r = row_chain r' ∧ address_id r = address_id r') rows rows' →
  ranges_from fuel start rows = ranges_from fuel start rows'.
Proof.
  assert (Hrun : ∀ first first' rows rows', row_chain first = row_chain first' → address_id first = address_id first' →
    Forall2 (λ r r', row_chain r = row_chain r' ∧ address_id r = address_id r') rows rows' →
    run_length first rows = run_length first' rows').
  { intros first first' l l' Hc Ha. induction 1 as [|r r' l l' [H1 H2] _ IH]; [done|]. cbn. unfold same_contract in *.
    by rewrite Hc, Ha, H1, H2, IH. }
  revert start rows rows'. induction fuel as [|fuel IH]; intros start rows rows' Hf; [done|].
  destruct Hf as [|first first' rest rest' [H1 H2] Hf]; [done|]. cbn. rewrite (Hrun first first' rest rest') by done.
  f_equal. apply IH. by apply Forall2_drop.
Qed.

Lemma contract_ranges_skeleton rows rows' :
  skeleton <$> rows = skeleton <$> rows' → contract_ranges_of rows = contract_ranges_of rows'.
Proof.
  intros Hs. unfold contract_ranges_of. assert (Hlen : length rows = length rows').
  { apply (f_equal length) in Hs. by rewrite !length_fmap in Hs. }
  rewrite Hlen. apply ranges_from_same. apply Forall2_same_length_lookup. split; [done|].
  intros i r r' Hr Hr'. apply (f_equal (λ l, l !! i)) in Hs. rewrite !list_lookup_fmap, Hr, Hr' in Hs.
  cbn in Hs. injection Hs. intros. done.
Qed.

Lemma length_take_join {A} (l : list (list A)) c x :
  l !! c = Some x → length (mjoin (take (S c) l)) = length (mjoin (take c l)) + length x.
Proof. intros Hc. rewrite (take_S_r _ _ x), join_app, length_app by done. cbn. rewrite app_nil_r. done. Qed.

Lemma length_take_le {A} (l : list (list A)) c : length (mjoin (take c l)) ≤ length (mjoin l).
Proof. rewrite <- (take_drop c l) at 2. rewrite join_app, length_app. lia. Qed.

(** Every row is in a group. *)
Lemma lookup_join {A} (l : list (list A)) i x :
  mjoin l !! i = Some x → ∃ c g j, l !! c = Some g ∧ g !! j = Some x ∧ i = length (mjoin (take c l)) + j.
Proof.
  revert i. induction l as [|g l IH]; intros i Hi; [done|]. rewrite mjoin_cons in Hi.
  apply lookup_app_Some in Hi as [Hi|[Hge Hi]].
  - exists 0, g, i. cbn. done.
  - destruct (IH _ Hi) as (c & g' & j & ? & ? & Heq). exists (S c), g', j. split_and!; [done..|].
    rewrite firstn_cons, mjoin_cons, length_app. lia.
Qed.

(** The token of an anchor, and the document of a row with its token. *)
Definition anchor_token (chain : ChainId) (raw : str) : str :=
  if is_evm chain then default raw (canonical_decimal_digits raw) else raw.

Definition anchor_text (t : Texts) (row : CompactRow) : option (str * str) :=
  id ← metadata_id row;
  document ← document_texts t !! id;
  token ← token_texts t !! token_id_id row;
  Some (anchor_token (row_chain row) token, document).

Definition anchor_texts (t : Texts) (g : list CompactRow) : list (str * str) := omap (anchor_text t) g.

(** Rows whose numbers have texts. *)
Record row_in (t : Texts) (row : CompactRow) : Prop := {
  row_in_address : is_Some (address_texts t !! address_id row);
  row_in_token : is_Some (token_texts t !! token_id_id row);
  row_in_name id : name_id row = Some id → is_Some (name_texts t !! id);
  row_in_document id : metadata_id row = Some id → is_Some (document_texts t !! id);
}.

Lemma length_groups groups : Forall one_contract groups → length groups ≤ length (mjoin groups).
Proof.
  induction 1 as [|g groups (first & rest & -> & _) _ IH]; [done|]. rewrite mjoin_cons, length_app. cbn [length]. lia.
Qed.

Section Contracts.
Context (iterate : gmap nat Z → list (nat * Z)) (Hiterate : ∀ m, iterate m ≡ₚ map_to_list m).
Context (stable_hash : list N → N) (b : ResidentBuilder) (t : Texts) (index_shards : Z).
Context (Htexts : texts_hold stable_hash b t).

(** ** Anchors of a contract *)

Definition anchored (g : list CompactRow) : list CompactRow := filter (λ row, is_Some (metadata_id row)) g.

Definition anchor_of (docs : list str) (a : MetadataAnchor) (row : CompactRow) : Prop :=
  anchor_token_id a = token_id_id row ∧
  ∃ id document, metadata_id row = Some id ∧ document_texts t !! id = Some document ∧ docs !! anchor_metadata_id a = Some document.

Lemma anchor_of_prefix docs docs' a row : docs `prefix_of` docs' → anchor_of docs a row → anchor_of docs' a row.
Proof. intros Hp (? & id & d & ? & ? & ?). split; [done|]. exists id, d. split_and!; try done. by eapply prefix_lookup_Some. Qed.

Lemma add_anchors g pool docs acc :
  pool_holds stable_hash pool docs → Forall (row_in t) g → (Z.of_nat (length docs + length g) < 2 ^ 32)%Z →
  ∃ pool' docs' own, loop (add_anchor stable_hash b) (pool, acc) g = Ok (pool', acc ++ own) ∧
    pool_holds stable_hash pool' docs' ∧ docs `prefix_of` docs' ∧ length docs' ≤ length docs + length own ∧
    Forall2 (anchor_of docs') own (anchored g).
Proof using Htexts.
  intros Hp Hg. revert pool docs acc Hp. induction Hg as [|row g Hrow _ IH]; intros pool docs acc Hp Hn; cbn [loop length] in *.
  { exists pool, docs, []. rewrite app_nil_r. split_and!; [done..|lia|constructor]. }
  assert (Hstep : add_anchor stable_hash b (pool, acc) row =
    match metadata_id row with
    | None => Ok (pool, acc)
    | Some id =>
        canonical ← expect (get (metadata b) id);
        '(documents, document) ← interned stable_hash pool canonical;
        Ok (documents, acc ++ [{| anchor_token_id := token_id_id row; anchor_metadata_id := document |}])
    end) by done.
  rewrite Hstep. unfold anchored. rewrite filter_cons. destruct (metadata_id row) as [id|] eqn:Eid.
  - rewrite decide_True by done. destruct (row_in_document _ _ Hrow id Eid) as [d Hd].
    pose proof (hold_documents _ _ _ Htexts) as HD. rewrite (get_holds _ _ _ HD), Hd. cbn [expect mbind fallible_bind].
    assert (Hv : valid_str d).
    { pose proof (holds_valid _ _ _ HD) as Hall. rewrite Forall_lookup in Hall. by eapply Hall. }
    destruct (interned_in stable_hash pool docs d (length docs) Hp Hv ltac:(done) ltac:(lia)) as (pool' & docs' & k & -> & Hp' & Hpre & Hlen & Hk).
    cbn [mbind fallible_bind].
    destruct (IH pool' docs' (acc ++ [{| anchor_token_id := token_id_id row; anchor_metadata_id := k |}]) Hp') as
      (pool2 & docs2 & own & -> & Hp2 & Hpre2 & Hlen2 & Hf); [lia|].
    eexists pool2, docs2, (_ :: own). rewrite <- (assoc_L (++)). split_and!; [done|done|by etrans|cbn [length]; lia|].
    constructor; [|done]. split; [done|]. exists id, d. split_and!; [done..|]. by eapply prefix_lookup_Some.
  - rewrite decide_False by by intros [? ?]. cbn [mbind fallible_bind].
    destruct (IH pool docs acc Hp) as (pool2 & docs2 & own & -> & ?); [lia|]. by exists pool2, docs2, own.
Qed.

Lemma anchored_le g : length (anchored g) ≤ length g.
Proof. apply length_filter. Qed.

(** ** Records of contracts *)

Definition same_name (names : list str) (name r : option nat) : Prop :=
  match name, r with
  | None, None => True
  | Some name, Some r => is_Some (names !! name) ∧ names !! name = name_texts t !! r
  | _, _ => False
  end.

Lemma same_name_prefix names names' name r : names `prefix_of` names' → same_name names name r → same_name names' name r.
Proof.
  intros Hp. destruct name, r; cbn; try done. intros [[x Hx] He]. pose proof (prefix_lookup_Some _ _ _ _ Hx Hp) as Hx'.
  rewrite <- He, Hx, Hx'. eauto.
Qed.

Record contract_out (names docs : list str) (g : list CompactRow) (name : option nat) (own : list MetadataAnchor)
    (rec : ContractRecord) : Prop := {
  out_name : ∃ r, representative (name_texts t) g r ∧ same_name names name r;
  out_anchors : Forall2 (anchor_of docs) own (anchored g);
  out_chain first : head g = Some first → record_chain rec = row_chain first;
  out_address first : head g = Some first → address_texts t !! address_id first = Some (record_address rec);
  out_count : record_nft_count rec = Z.of_nat (length g);
  out_value : name_value_id rec = Z.of_nat <$> name;
  out_shard : name_owner_shard rec = (λ id, shard_byte id index_shards) <$> name;
  out_profile : metadata_profile_id rec = None ∧ metadata_owner_shard rec = None;
}.

Lemma contract_out_prefix names names' docs docs' g name own rec :
  names `prefix_of` names' → docs `prefix_of` docs' → contract_out names docs g name own rec → contract_out names' docs' g name own rec.
Proof.
  intros Hn Hd [(r & Hr & Hsame) H2 H3 H4 H5 H6 H7 H8]. split; try done.
  - exists r. split; [done|]. by eapply same_name_prefix.
  - eapply Forall2_impl; [exact H2|]. intros a row. by apply anchor_of_prefix.
Qed.

Context (groups : list (list CompactRow)).
Context (Hrows : logical_rows b = mjoin groups) (Hranges : contract_ranges b = ranges_at 0 groups).
Context (Hone : Forall one_contract groups) (Hin : Forall (row_in t) (logical_rows b)).
Context (Hsize : (Z.of_nat (length (logical_rows b)) ≤ u32_max)%Z).

(** The state after [i] contracts. *)
Record finished (i : nat) (st : FinishState) (names docs : list str) (owns : list (list MetadataAnchor)) : Prop := {
  finished_names : pool_holds stable_hash (fs_names st) names ∧ length names ≤ i;
  finished_documents : pool_holds stable_hash (fs_documents st) docs ∧ length docs ≤ length (mjoin owns);
  finished_lengths : length (fs_contract_names st) = i ∧ length owns = i ∧ length (fs_contracts st) = i;
  finished_anchors : fs_anchors st = mjoin owns ∧ length (mjoin owns) ≤ length (mjoin (take i groups));
  finished_offsets : fs_anchor_offsets st = (λ k, length (mjoin (take k owns))) <$> seq 0 (S i);
  finished_contracts c g : c < i → groups !! c = Some g → ∃ name own rec, fs_contract_names st !! c = Some name ∧
    owns !! c = Some own ∧ fs_contracts st !! c = Some rec ∧ contract_out names docs g name own rec;
}.

Lemma row_in_group c g : groups !! c = Some g → Forall (row_in t) g.
Proof using Hin Hrows.
  intros Hg. rewrite Hrows in Hin. apply Forall_forall. intros r Hr. rewrite Forall_forall in Hin. apply Hin.
  apply list_elem_of_join. exists g. split; [done|]. by eapply list_elem_of_lookup_2.
Qed.

Lemma groups_room i g : groups !! i = Some g → length (mjoin (take i groups)) + length g ≤ length (logical_rows b) ∧ i < length (logical_rows b).
Proof using Hone Hrows.
  intros Hg. rewrite Hrows. pose proof (length_take_le groups (S i)) as H1. rewrite (length_take_join groups i g Hg) in H1.
  split; [done|]. pose proof (length_groups groups Hone). apply lookup_lt_Some in Hg. lia.
Qed.

(** The name of a contract, interned among the names. *)
Lemma intern_name pool names r g i :
  representative (name_texts t) g r → Forall (row_in t) g → pool_holds stable_hash pool names → length names ≤ i → (Z.of_nat i < 2 ^ 32)%Z →
  ∃ pool' names' name,
    match r with
    | None => Ok (pool, None)
    | Some id =>
        text ← expect (get (Builder.names b) id);
        '(pool, id) ← interned stable_hash pool text;
        Ok (pool, Some id)
    end = Ok (pool', name) ∧ pool_holds stable_hash pool' names' ∧ names `prefix_of` names' ∧ length names' ≤ S i ∧ same_name names' name r.
Proof using Htexts.
  intros Hr Hg Hp Hlen Hi. destruct r as [id|]; [|exists pool, names, None; split_and!; [done..|lia|done]].
  destruct Hr as [Hid _]. apply list_elem_of_omap in Hid as (row & Hrow & Hname).
  rewrite Forall_forall in Hg. destruct (row_in_name _ _ (Hg row Hrow) id Hname) as [text Ht].
  pose proof (hold_names _ _ _ Htexts) as HN. rewrite (get_holds _ _ _ HN), Ht. cbn [expect mbind fallible_bind].
  assert (Hv : valid_str text).
  { pose proof (holds_valid _ _ _ HN) as Hall. rewrite Forall_lookup in Hall. by eapply Hall. }
  destruct (interned_in stable_hash pool names text i Hp Hv Hlen Hi) as (pool' & names' & k & -> & Hp' & Hpre & Hlen' & Hk).
  exists pool', names', (Some k). split_and!; [done..|]. cbn. rewrite Hk, Ht. eauto.
Qed.

Lemma finish_contract_step i range st names docs owns :
  contract_ranges b !! i = Some range → finished i st names docs owns →
  ∃ st' names' docs' owns', finish_contract iterate stable_hash b index_shards st range = Ok st' ∧ finished (S i) st' names' docs' owns'.
Proof using All.
  intros Hrange [[HN HNl] [HD HDl] (L1 & L2 & L3) [HA HAl] HO HC].
  rewrite Hranges in Hrange. unfold ranges_at in Hrange. rewrite list_lookup_imap in Hrange.
  destruct (groups !! i) as [g|] eqn:Hg; [|done]. cbn in Hrange. injection Hrange as <-.
  pose proof (row_in_group i g Hg) as Hgin. destruct (groups_room i g Hg) as [Hroom Hi].
  rewrite Forall_lookup in Hone. destruct (Hone i g Hg) as (first & rest & Hfirst & _).
  unfold u32_max in Hsize. unfold finish_contract. cbn [fst snd].
  rewrite Hrows, (slice_of_join groups i g Hg). cbn [expect mbind fallible_bind].
  destruct (representative_name_spec iterate Hiterate stable_hash (Builder.names b) (name_texts t) (hold_names _ _ _ Htexts) g)
    as (r & -> & Hr).
  { intros id Hid. apply list_elem_of_omap in Hid as (row & Hrow & Hname). rewrite Forall_forall in Hgin. by eapply (row_in_name t row); [apply Hgin|]. }
  cbn [mbind fallible_bind].
  destruct (intern_name (fs_names st) names r g i Hr Hgin HN HNl ltac:(lia)) as (pool' & names' & name & -> & HN' & HNp & HNl' & Hsame).
  cbn [mbind fallible_bind].
  destruct (add_anchors g (fs_documents st) docs (fs_anchors st) HD Hgin ltac:(lia)) as (dpool & docs' & own & -> & HD' & HDp & HDl' & Hf).
  cbn [mbind fallible_bind].
  assert (Hhead : head g = Some first) by by rewrite Hfirst. rewrite Hhead. cbn [expect mbind fallible_bind].
  assert (Hfg : first ∈ g) by (rewrite Hfirst; by left). rewrite Forall_forall in Hgin.
  destruct (row_in_address _ _ (Hgin first Hfg)) as [address Haddress].
  rewrite (get_holds _ _ _ (hold_addresses _ _ _ Htexts)), Haddress. cbn [expect mbind fallible_bind].
  pose proof (Forall2_length _ _ _ Hf) as Hown. pose proof (anchored_le g) as Hle.
  eexists _, names', docs', (owns ++ [own]). split; [reflexivity|]. split; cbn [fs_names fs_documents fs_contract_names fs_anchors fs_contracts fs_anchor_offsets].
  - done.
  - split; [done|]. rewrite join_app, length_app. cbn. rewrite app_nil_r. lia.
  - rewrite !length_app. cbn. lia.
  - rewrite HA, join_app. cbn. rewrite app_nil_r. split; [done|]. rewrite (length_take_join groups i g Hg), length_app. lia.
  - rewrite HO, HA, (seq_S (S i) 0), fmap_app. f_equal.
    + apply list_fmap_ext. intros k x Hx. apply lookup_seq in Hx as [-> Hk]. rewrite take_app_le by lia. done.
    + cbn [fmap list_fmap]. rewrite take_ge by (rewrite length_app; cbn; lia). rewrite join_app. cbn [mjoin list_join]. rewrite app_nil_r. done.
  - intros c g' Hc Hg'. destruct (decide (c = i)) as [->|Hne].
    + rewrite Hg in Hg'. injection Hg' as <-. eexists name, own, _. rewrite !lookup_app_r, L1, L2, L3, Nat.sub_diag by lia. split_and!; [done..|].
      split; cbn; try done; [eauto|congruence|congruence|lia].
    + destruct (HC c g' ltac:(lia) Hg') as (n' & o' & rec & ? & ? & ? & ?). exists n', o', rec.
      rewrite !lookup_app_l by lia. split_and!; [done..|]. by eapply contract_out_prefix.
Qed.

Lemma finish_contracts :
  ∃ st names docs owns, loop (finish_contract iterate stable_hash b index_shards) start_finish (contract_ranges b) = Ok st ∧
    finished (length groups) st names docs owns.
Proof using All.
  destruct (loop_indexed (λ i st, ∃ names docs owns, finished i st names docs owns)
    (finish_contract iterate stable_hash b index_shards) start_finish (contract_ranges b)) as (st & Hrun & names & docs & owns & Hst).
  - exists [], [], []. split; cbn; try done; [by split; [apply default_holds|lia]..|].
    intros; lia.
  - intros i range st Hrange (names & docs & owns & Hst).
    destruct (finish_contract_step i range st names docs owns Hrange Hst) as (st' & names' & docs' & owns' & ? & ?). eauto 10.
  - rewrite Hranges in Hst at 1. unfold ranges_at in Hst. rewrite length_imap in Hst. eauto 10.
Qed.
End Contracts.

Section Tables.
Context (stable_hash : list N → N) (b : ResidentBuilder) (t : Texts).
Context (Htexts : texts_hold stable_hash b t).

(** ** The tokens of anchors *)

(** An anchor with these texts. *)
Definition resolved (tokens docs : list str) (a : MetadataAnchor) (p : str * str) : Prop :=
  tokens !! anchor_token_id a = Some p.1 ∧ docs !! anchor_metadata_id a = Some p.2.

Lemma resolved_prefix tokens tokens' docs a p : tokens `prefix_of` tokens' → resolved tokens docs a p → resolved tokens' docs a p.
Proof. intros Hp [? ?]. split; [by eapply prefix_lookup_Some|done]. Qed.

(** Anchors with the same texts are the same. *)
Lemma resolved_inj tokens docs own own' ps :
  NoDup tokens → NoDup docs → Forall2 (resolved tokens docs) own ps → Forall2 (resolved tokens docs) own' ps → own = own'.
Proof.
  intros Ht Hd H1. revert own'. induction H1 as [|a p own ps [A1 A2] _ IH]; intros own' H2; [by apply Forall2_nil_inv_r in H2 as ->|].
  apply Forall2_cons_inv_r in H2 as (a' & own2 & [B1 B2] & H2 & ->). f_equal; [|by apply IH].
  destruct a as [a1 a2], a' as [a1' a2']. cbn in *. f_equal; [by eapply (NoDup_lookup tokens)|by eapply (NoDup_lookup docs)].
Qed.

Lemma resolved_fun tokens docs own ps ps' :
  Forall2 (resolved tokens docs) own ps → Forall2 (resolved tokens docs) own ps' → ps = ps'.
Proof.
  intros H1. revert ps'. induction H1 as [|a p own ps [A1 A2] _ IH]; intros ps' H2; [by apply Forall2_nil_inv_l in H2 as ->|].
  apply Forall2_cons_inv_l in H2 as (p' & ps2 & [B1 B2] & H2 & ->). f_equal; [|by apply IH].
  destruct p, p'. cbn in *. congruence.
Qed.

Lemma renumber_anchors chain docs own rows pool tokens acc :
  pool_holds stable_hash pool tokens → Forall2 (anchor_of t docs) own rows →
  Forall (λ row, row_in t row ∧ row_chain row = chain) rows → (Z.of_nat (length tokens + length own) < 2 ^ 32)%Z →
  ∃ pool' tokens' own', loop (renumber_anchor stable_hash b chain) (pool, acc) own = Ok (pool', acc ++ own') ∧
    pool_holds stable_hash pool' tokens' ∧ tokens `prefix_of` tokens' ∧ length tokens' ≤ length tokens + length own ∧
    length own' = length own ∧ Forall2 (λ a row, ∃ p, anchor_text t row = Some p ∧ resolved tokens' docs a p) own' rows.
Proof using Htexts.
  intros Hp Hf. revert pool tokens acc Hp. induction Hf as [|a row own rows Ha _ IH]; intros pool tokens acc Hp Hrows Hn; cbn [loop].
  { exists pool, tokens, []. rewrite app_nil_r. split_and!; [done..|cbn; lia|done|constructor]. }
  cbn [length] in *. inversion_clear Hrows as [|? ? [Hrow Hchain] Hrest]. destruct Ha as (Htok & id & d & Hid & Hd & Hdoc).
  destruct (row_in_token _ _ Hrow) as [raw Hraw]. pose proof (hold_tokens _ _ _ Htexts) as HT.
  assert (Hstep : renumber_anchor stable_hash b chain (pool, acc) a =
    '(pool, id) ← interned stable_hash pool (anchor_token chain raw);
    Ok (pool, acc ++ [{| anchor_token_id := id; anchor_metadata_id := anchor_metadata_id a |}])).
  { unfold renumber_anchor. rewrite Htok, (get_holds _ _ _ HT), Hraw. done. }
  rewrite Hstep.
  assert (Hv : valid_str (anchor_token chain raw)).
  { pose proof (holds_valid _ _ _ HT) as Hall. rewrite Forall_lookup in Hall. specialize (Hall _ _ Hraw). unfold anchor_token.
    destruct (is_evm chain); [|done]. destruct (canonical_decimal_digits raw) eqn:E; [by eapply valid_digits|done]. }
  destruct (interned_in stable_hash pool tokens _ (length tokens) Hp Hv ltac:(done) ltac:(lia)) as (pool' & tokens' & k & -> & Hp' & Hpre & Hlen & Hk).
  cbn [mbind fallible_bind].
  destruct (IH pool' tokens' (acc ++ [{| anchor_token_id := k; anchor_metadata_id := anchor_metadata_id a |}]) Hp' Hrest)
    as (pool2 & tokens2 & own' & -> & Hp2 & Hpre2 & Hlen2 & Hl & Hf2); [lia|].
  eexists pool2, tokens2, (_ :: own'). rewrite <- (assoc_L (++)). split_and!; [done|done|by etrans|lia|cbn; by rewrite Hl|].
  constructor; [|done]. exists (anchor_token chain raw, d). split.
  - unfold anchor_text. rewrite Hid. cbn. rewrite Hd. cbn. rewrite Hraw. cbn. by rewrite Hchain.
  - split; cbn; [by eapply prefix_lookup_Some|done].
Qed.

Lemma anchored_texts tokens docs own g :
  Forall2 (λ a row, ∃ p, anchor_text t row = Some p ∧ resolved tokens docs a p) own (anchored g) →
  Forall2 (resolved tokens docs) own (anchor_texts t g).
Proof.
  clear. revert own. induction g as [|row g IH]; intros own Hf; [by apply Forall2_nil_inv_r in Hf as ->|].
  unfold anchored in Hf. rewrite filter_cons in Hf. unfold anchor_texts. cbn [omap list_omap]. destruct (metadata_id row) as [id|] eqn:E.
  - rewrite decide_True in Hf by done. apply Forall2_cons_inv_r in Hf as (a & own' & (p & -> & ?) & Hf & ->).
    constructor; [done|by apply IH].
  - rewrite decide_False in Hf by by intros [? ?].
    assert (Hnone : anchor_text t row = None) by (unfold anchor_text; by rewrite E). rewrite Hnone. by apply IH.
Qed.

Context (groups : list (list CompactRow)) (index_shards : Z).
Context (Hrows : logical_rows b = mjoin groups) (Hranges : contract_ranges b = ranges_at 0 groups).
Context (Hone : Forall one_contract groups) (Hin : Forall (row_in t) (logical_rows b)).
Context (Hsize : (Z.of_nat (length (logical_rows b)) ≤ u32_max)%Z).

Section Renumber.
Context (st : FinishState) (names docs : list str) (owns : list (list MetadataAnchor)).
Context (Hst : finished stable_hash t index_shards groups (length groups) st names docs owns).

Record renumbered (i : nat) (acc : ByteInterner * list MetadataAnchor) (tokens : list str) (owns' : list (list MetadataAnchor)) : Prop := {
  renumbered_pool : pool_holds stable_hash acc.1 tokens ∧ length tokens ≤ length (mjoin (take i owns));
  renumbered_anchors : acc.2 = mjoin owns';
  renumbered_lengths : length <$> owns' = length <$> take i owns;
  renumbered_texts c g own' : groups !! c = Some g → owns' !! c = Some own' → Forall2 (resolved tokens docs) own' (anchor_texts t g);
}.

Lemma renumber_contract_step i acc tokens owns' :
  i < length groups → renumbered i acc tokens owns' →
  ∃ acc' tokens' owns2, renumber_contract stable_hash b st acc i = Ok acc' ∧ renumbered (S i) acc' tokens' owns2.
Proof using All.
  intros Hi [[HT HTl] HA HL HX]. destruct (lookup_lt_is_Some_2 groups i Hi) as [g Hg].
  destruct (finished_contracts _ _ _ _ _ _ _ _ _ Hst i g Hi Hg) as (name & own & rec & _ & Hown & Hrec & Hout).
  destruct (finished_lengths _ _ _ _ _ _ _ _ _ Hst) as (_ & Howns & _).
  destruct (finished_anchors _ _ _ _ _ _ _ _ _ Hst) as [Hanchors Htotal].
  assert (Hcontract : contract_anchors (fs_anchor_offsets st) (fs_anchors st) i = Some own).
  { unfold contract_anchors. rewrite (finished_offsets _ _ _ _ _ _ _ _ _ Hst), !list_lookup_fmap, !lookup_seq_lt by lia.
    cbn [fmap option_fmap option_map mbind option_bind]. rewrite Hanchors. replace (0 + i) with i by lia. replace (0 + (i + 1)) with (S i) by lia.
    rewrite (length_take_join owns i own Hown). by apply slice_of_join. }
  rewrite Forall_lookup in Hone. destruct (Hone i g Hg) as (first & rest & Hfirst & Hsame).
  assert (Hgin : Forall (λ row, row_in t row ∧ row_chain row = record_chain rec) (anchored g)).
  { apply Forall_forall. intros row [_ Hrow]%list_elem_of_filter. split.
    - pose proof (row_in_group b t groups Hrows Hin i g Hg) as Hall. rewrite Forall_forall in Hall. by apply Hall.
    - rewrite (out_chain _ _ _ _ _ _ _ _ Hout first) by by rewrite Hfirst. by apply Hsame, same_contract_true in Hrow as [? _]. }
  pose proof (length_take_le owns (S i)) as Hle. rewrite (length_take_join owns i own Hown) in Hle.
  rewrite take_ge in Htotal by lia. rewrite <- Hrows in Htotal. unfold u32_max in Hsize.
  unfold renumber_contract. rewrite Hcontract, Hrec. cbn [expect mbind fallible_bind]. destruct acc as [pool all]. cbn in HT, HA.
  destruct (renumber_anchors (record_chain rec) docs own (anchored g) pool tokens all HT (out_anchors _ _ _ _ _ _ _ _ Hout) Hgin)
    as (pool' & tokens' & own' & -> & HT' & Hpre & HTl' & Hlen & Hf); [lia|].
  eexists _, tokens', (owns' ++ [own']). split; [reflexivity|]. split; cbn.
  - split; [done|]. rewrite (length_take_join owns i own Hown). lia.
  - rewrite HA, join_app. cbn. by rewrite app_nil_r.
  - rewrite fmap_app, HL, (take_S_r owns i own), fmap_app by done. cbn. by rewrite Hlen.
  - intros c g' o Hg' Ho. assert (Hlen' : length owns' = i).
    { apply (f_equal length) in HL. rewrite !length_fmap, length_take in HL. lia. }
    apply lookup_app_Some in Ho as [Ho|[Hge Ho]].
    + eapply Forall2_impl; [by eapply HX|]. intros a p. by apply resolved_prefix.
    + apply list_lookup_singleton_Some in Ho as [Hz <-]. assert (c = i) as -> by lia. rewrite Hg in Hg'. injection Hg' as <-.
      by apply anchored_texts.
Qed.

Lemma renumber_contracts :
  ∃ acc tokens owns', loop (renumber_contract stable_hash b st) (default_interner, []) (seq 0 (length groups)) = Ok acc ∧
    renumbered (length groups) acc tokens owns'.
Proof using All.
  destruct (loop_indexed (λ i acc, ∃ tokens owns', renumbered i acc tokens owns') (renumber_contract stable_hash b st)
    (default_interner, []) (seq 0 (length groups))) as (acc & Hrun & tokens & owns' & Hacc).
  - exists [], []. split; cbn; try done. split; [apply default_holds|lia].
  - intros i x acc [-> Hi]%lookup_seq (tokens & owns' & Hacc).
    destruct (renumber_contract_step i acc tokens owns' Hi Hacc) as (acc' & tokens' & owns2 & ? & ?). eauto 10.
  - rewrite length_seq in Hacc. eauto 10.
Qed.
End Renumber.

(** ** The NFTs *)

Definition nfts_of (groups : list (list CompactRow)) : list NftIdentityRecord := mjoin (imap (λ c g, identity_of c <$> g) groups).

Lemma length_nfts gs : length (nfts_of gs) = length (mjoin gs).
Proof.
  clear. unfold nfts_of. assert (Hgen : ∀ f : nat → CompactRow → NftIdentityRecord,
    length (mjoin (imap (λ c g, f c <$> g) gs)) = length (mjoin gs)); [|apply Hgen].
  induction gs as [|g gs IH]; intros f; [done|]. rewrite imap_cons, !mjoin_cons, !length_app, length_fmap. f_equal.
  apply (IH (λ c, f (S c))).
Qed.

Lemma finish_nfts_spec :
  loop (finish_nfts b) ([], [], [0]) (imap pair (contract_ranges b)) =
    Ok (nfts_of groups, features_of <$> logical_rows b, (λ k, length (mjoin (take k groups))) <$> seq 0 (S (length groups))).
Proof using Hrows Hranges.
  destruct (loop_indexed (λ i acc, acc = (nfts_of (take i groups), features_of <$> mjoin (take i groups),
      (λ k, length (mjoin (take k groups))) <$> seq 0 (S i))) (finish_nfts b) ([], [], [0]) (imap pair (contract_ranges b)))
    as (acc & Hrun & ->).
  - done.
  - intros i x acc Hx ->. rewrite list_lookup_imap, Hranges in Hx. unfold ranges_at in Hx. rewrite list_lookup_imap in Hx.
    destruct (groups !! i) as [g|] eqn:Hg; [|done]. cbn in Hx. injection Hx as <-.
    unfold finish_nfts. cbn [fst snd]. rewrite Hrows, (slice_of_join groups i g Hg). cbn [expect mbind fallible_bind].
    eexists. split; [reflexivity|].
    assert (Hlen : length (take i groups) = i) by (rewrite length_take; apply lookup_lt_Some in Hg; lia).
    assert (Hnfts : nfts_of (take (S i) groups) = nfts_of (take i groups) ++ (identity_of i <$> g)).
    { unfold nfts_of. rewrite (take_S_r groups i g), imap_app, join_app by done. cbn. by rewrite Nat.add_0_r, Hlen, app_nil_r. }
    rewrite Hnfts, (seq_S (S i) 0), fmap_app. f_equal; [f_equal|].
    + rewrite (take_S_r groups i g), join_app, fmap_app by done. cbn. by rewrite app_nil_r.
    + cbn [fmap list_fmap]. by rewrite Nat.add_0_l, (length_take_join groups i g), length_app, length_fmap, length_nfts.
  - rewrite length_imap, Hranges in *. unfold ranges_at in *. rewrite length_imap in *. rewrite Hrun, Hrows, take_ge by done. done.
Qed.
End Tables.
