(* ===== verification/StoreFacts.v ===== *)
(** Proofs about the resident store: what [finish_prepared] lays out for the rows of a
    prepared builder. *)

From S2P Require Import Prelude Text CanonicalJson Anchors SortedLists Events Reducer ValuePools.
From S2P Require Import Fallible AnalysisJson Builder Resident AnchorRows PrepareFacts Loaded.
From S2P Require Import Profiles StoreContracts.

(** A builder whose rows have texts and whose contracts are the runs of its rows. *)
Record finishable (stable_hash : list N → N) (b : ResidentBuilder) (t : Texts) : Prop := {
  finishable_texts : texts_hold stable_hash b t;
  finishable_rows : Forall (row_in t) (logical_rows b);
  finishable_uris row id : row ∈ logical_rows b → token_uri_id row = Some id ∨ image_uri_id row = Some id → is_Some (uri_texts t !! id);
  finishable_ranges : contract_ranges b = contract_ranges_of (logical_rows b);
  finishable_anchors c g : contract_ranges b !! c = Some g → length (filter (λ row, is_Some (metadata_id row))
    (take (g.2 - g.1) (drop g.1 (logical_rows b)))) ≤ 8;
  finishable_size : (Z.of_nat (length (logical_rows b)) ≤ u32_max)%Z;
}.

(** The text of an optional number. *)
Definition text_at (texts : list str) (id : option nat) : option str := id ≫= (texts !!.).

(** The name, the anchors and the record of a contract in the store. *)
Record contract_stored (t : Texts) (groups : list (list CompactRow)) (names : NameFeatureStore)
    (m : MetadataFeatureStore) (c : nat) (g : list CompactRow) (rec : ContractRecord) : Prop := {
  stored_chain row : row ∈ g → record_chain rec = row_chain row;
  stored_address row : row ∈ g → address_texts t !! address_id row = Some (record_address rec);
  stored_count : record_nft_count rec = Z.of_nat (length g);
  stored_name : ∃ name r, contract_names names !! c = Some name ∧ name_value_id rec = Z.of_nat <$> name ∧
    representative (name_texts t) g r ∧ name ≫= frozen_get (name_values names) = text_at (name_texts t) r ∧ (name = None ↔ r = None);
  stored_profile : ∃ profile, contract_profiles m !! c = Some profile ∧ metadata_profile_id rec = Z.of_nat <$> profile ∧
    match profile with
    | None => anchor_texts t g = []
    | Some p => ∃ own, profile_anchors m p = Some own ∧
        Forall2 (λ a (text : str * str), frozen_get (anchor_tokens m) (anchor_token_id a) = Some text.1 ∧
          frozen_get (documents m) (anchor_metadata_id a) = Some text.2) own (anchor_texts t g) ∧
        members_of_profile m p = Some (filter (λ c', anchor_texts t <$> groups !! c' = Some (anchor_texts t g)) (seq 0 (length groups)))
    end;
}.

(** The store of the rows. *)
Record stored (b : ResidentBuilder) (t : Texts) (groups : list (list CompactRow)) (s : ResidentBaseStore)
    (ids : UriNftIdentityStore) (uris : UriFeatureStore) (names : NameFeatureStore) (m : MetadataFeatureStore) : Prop := {
  stored_tables : uri_identity s = Some ids ∧ uri_features s = Some uris ∧ name_features s = Some names ∧ metadata_features s = Some m;
  stored_quality : store_quality s = quality b;
  stored_length : length (contracts s) = length groups;
  stored_contracts c g : groups !! c = Some g → ∃ rec, contracts s !! c = Some rec ∧ contract_stored t groups names m c g rec;
  stored_nfts i : nft_key s i = Some (
    row ← logical_rows b !! i;
    address ← address_texts t !! address_id row;
    token ← token_texts t !! token_id_id row;
    Some {| nft_chain := row_chain row; nft_contract := address; nft_token := token |});
  stored_lengths : length (nfts ids) = length (logical_rows b) ∧ length (features uris) = length (logical_rows b);
  stored_offsets c g : groups !! c = Some g → let start := length (mjoin (take c groups)) in
    contract_offsets ids !! c = Some start ∧ contract_offsets ids !! (c + 1) = Some (start + length g) ∧
    ∀ j row, g !! j = Some row → logical_rows b !! (start + j) = Some row ∧ contract_id <$> nfts ids !! (start + j) = Some c;
  stored_distinct u v text : frozen_get (uri_values uris) u = Some text → frozen_get (uri_values uris) v = Some text → u = v;
  stored_numbers i f u : features uris !! i = Some f → token_uri f = Some u ∨ image_uri f = Some u → is_Some (frozen_get (uri_values uris) u);
  stored_uris i row : logical_rows b !! i = Some row → ∃ f, features uris !! i = Some f ∧
    token_uri f ≫= frozen_get (uri_values uris) = text_at (uri_texts t) (token_uri_id row) ∧
    image_uri f ≫= frozen_get (uri_values uris) = text_at (uri_texts t) (image_uri_id row);
}.

Lemma lookup_join_at {A} (l : list (list A)) c g j x :
  l !! c = Some g → g !! j = Some x → mjoin l !! (length (mjoin (take c l)) + j) = Some x.
Proof.
  intros Hc Hj. assert (Hl : mjoin l = mjoin (take c l) ++ mjoin (g :: drop (S c) l)) by by rewrite <- join_app, take_drop_middle.
  rewrite Hl, lookup_app_r by lia.
  rewrite Nat.add_comm, Nat.add_sub. change (mjoin (g :: drop (S c) l)) with (g ++ mjoin (drop (S c) l)). by apply lookup_app_l_Some.
Qed.

Lemma nfts_lookup_at groups c g j row :
  groups !! c = Some g → g !! j = Some row → nfts_of groups !! (length (mjoin (take c groups)) + j) = Some (identity_of c row).
Proof.
  intros Hc Hj. unfold nfts_of.
  assert (Hlen : length (mjoin (take c groups)) = length (mjoin (take c (imap (λ c g, identity_of c <$> g) groups)))).
  { rewrite <- (length_nfts (take c groups)). unfold nfts_of. f_equal. f_equal. apply list_eq. intros k.
    destruct (decide (k < c)) as [Hk|Hk].
    - by rewrite list_lookup_imap, !lookup_take_lt, list_lookup_imap by done.
    - by rewrite list_lookup_imap, !lookup_take_ge by lia. }
  rewrite Hlen. eapply lookup_join_at; [by rewrite list_lookup_imap, Hc|]. rewrite list_lookup_fmap, Hj. done.
Qed.

Section Store.
Context (iterate : gmap nat Z → list (nat * Z)) (Hiterate : ∀ m, iterate m ≡ₚ map_to_list m).
Context (stable_hash : list N → N) (sip_hash : list nat → N) (b : ResidentBuilder) (t : Texts) (index_shards : Z).
Context (Hb : finishable stable_hash b t).
Context (groups : list (list CompactRow)).
Context (Hrows : logical_rows b = mjoin groups) (Hranges : contract_ranges b = ranges_at 0 groups) (Hone : Forall one_contract groups).

Lemma anchored_small c g : groups !! c = Some g → length (anchored g) ≤ 8.
Proof using Hb Hranges Hrows.
  intros Hg. pose proof (finishable_anchors _ _ _ Hb c (length (mjoin (take c groups)), length (mjoin (take c groups)) + length g)) as Ha.
  rewrite Hranges in Ha. unfold ranges_at in Ha. rewrite list_lookup_imap, Hg in Ha. specialize (Ha eq_refl). cbn [fst snd] in Ha.
  pose proof (slice_of_join groups c g Hg) as Hs. unfold slice in Hs. rewrite <- Hrows in Hs. destruct (decide _) in Hs; [|done].
  injection Hs as Hs. by rewrite Hs in Ha.
Qed.

(** ** One contract *)

Section Contract.
Context (st : FinishState) (names docs tokens : list str) (owns owns' D : list (list MetadataAnchor)).
Context (Hst : finished stable_hash t index_shards groups (length groups) st names docs owns).
Context (tokens_pool : ByteInterner) (HT : pool_holds stable_hash tokens_pool tokens) (Hlen : length owns' = length groups).
Context (Htexts : ∀ c g own, groups !! c = Some g → owns' !! c = Some own → Forall2 (resolved tokens docs) own (anchor_texts t g)).
Context (m : MetadataFeatureStore) (records : list ContractRecord).
Context (Hm : anchor_tokens m = freeze tokens_pool ∧ documents m = freeze (fs_documents st)).
Context (Hprof : profiles_of owns' D index_shards (fs_contracts st) m records).
Abbreviation name_store := {| name_values := freeze (fs_names st); contract_names := fs_contract_names st |}.

(** Contracts have the same anchors when the anchors have the same texts. *)
Lemma same_anchor_texts c g own : groups !! c = Some g → owns' !! c = Some own →
  members_with owns' own (length owns') = filter (λ c', anchor_texts t <$> groups !! c' = Some (anchor_texts t g)) (seq 0 (length groups)).
Proof using Hlen Hst HT Htexts.
  intros Hg Hown. unfold members_with. rewrite Hlen. apply filter_dom_ext. intros c' [_ Hc']%elem_of_seq.
  destruct (lookup_lt_is_Some_2 groups c') as [g' Hg']; [lia|]. destruct (lookup_lt_is_Some_2 owns' c') as [own' Hown']; [lia|].
  rewrite Hg', Hown'. cbn. pose proof (Htexts c g own Hg Hown) as H1. pose proof (Htexts c' g' own' Hg' Hown') as H2. split.
  - intros [= ->]. f_equal. by eapply resolved_fun.
  - intros [= Heq]. rewrite Heq in H2. f_equal. eapply resolved_inj; [by eapply holds_distinct|eapply holds_distinct, (finished_documents _ _ _ _ _ _ _ _ _ Hst)|done|done].
Qed.

Lemma contract_profile_stored c g : groups !! c = Some g →
  ∃ profile, contract_profiles m !! c = Some profile ∧
    match profile with
    | None => anchor_texts t g = []
    | Some p => ∃ own, profile_anchors m p = Some own ∧
        Forall2 (λ a (text : str * str), frozen_get (anchor_tokens m) (anchor_token_id a) = Some text.1 ∧
          frozen_get (documents m) (anchor_metadata_id a) = Some text.2) own (anchor_texts t g) ∧
        members_of_profile m p = Some (filter (λ c', anchor_texts t <$> groups !! c' = Some (anchor_texts t g)) (seq 0 (length groups)))
    end.
Proof using Hlen Hst HT Htexts Hm Hprof.
  intros Hg. destruct (lookup_lt_is_Some_2 owns' c) as [own Hown]; [rewrite Hlen; by eapply lookup_lt_Some|].
  pose proof (Htexts c g own Hg Hown) as Hf. exists (index_of own D).
  split; [by rewrite (profiles_contracts _ _ _ _ _ _ Hprof), list_lookup_fmap, Hown|].
  pose proof (profiles_elem _ _ _ _ _ _ Hprof own) as Helem. destruct (index_of own D) as [p|] eqn:Ep.
  - apply index_of_Some in Ep. exists own. split; [by rewrite (profiles_anchors _ _ _ _ _ _ Hprof)|]. split.
    + destruct Hm as [-> ->]. eapply Forall2_impl; [exact Hf|]. intros a text [H1 H2].
      rewrite (frozen_get_holds _ _ _ HT), (frozen_get_holds stable_hash _ _ (proj1 (finished_documents _ _ _ _ _ _ _ _ _ Hst))). done.
    + rewrite (profiles_members _ _ _ _ _ _ Hprof), Ep. cbn. f_equal. by apply (same_anchor_texts c g own).
  - assert (own = []) as ->; [|by apply Forall2_nil_inv_l in Hf].
    destruct (decide (own = [])) as [|Hne]; [done|exfalso]. assert (Hd : own ∈ D) by (apply Helem; split; [by eapply list_elem_of_lookup_2|done]).
    apply list_elem_of_lookup in Hd as [p Hp]. by rewrite (index_of_lookup own D p (profiles_distinct _ _ _ _ _ _ Hprof) Hp) in Ep.
Qed.

Lemma contract_in_store c g : groups !! c = Some g → ∃ rec, records !! c = Some rec ∧ contract_stored t groups name_store m c g rec.
Proof using All.
  intros Hg. assert (Hc : c < length groups) by by eapply lookup_lt_Some.
  destruct (finished_contracts _ _ _ _ _ _ _ _ _ Hst c g Hc Hg) as (name & own & rec & Hname & Hown & Hrec & [(r & Hr & Hsame) _ O3 O4 O5 O6 O7 O8]).
  destruct (contract_profile_stored c g Hg) as (profile & Hp & Hstored).
  assert (Hrec' : records !! c = Some (match profile with Some k => set_profile rec k index_shards | None => rec end)).
  { rewrite (profiles_records _ _ _ _ _ _ Hprof), list_lookup_imap, Hrec. cbn. unfold profiled_record.
    rewrite (profiles_contracts _ _ _ _ _ _ Hprof), list_lookup_fmap in Hp. destruct (owns' !! c) as [own'|]; [|done]. cbn in Hp |- *.
    injection Hp as ->. done. }
  rewrite Forall_lookup in Hone. destruct (Hone c g Hg) as (first & rest & Hfirst & Hsame').
  assert (Hhead : head g = Some first) by by rewrite Hfirst.
  eexists. split; [exact Hrec'|]. split.
  - intros row Hrow%Hsame'. apply same_contract_true in Hrow as [-> _]. destruct profile; cbn; by apply O3.
  - intros row Hrow%Hsame'. apply same_contract_true in Hrow as [_ ->]. destruct profile; cbn; by apply O4.
  - destruct profile; cbn; done.
  - exists name, r. split_and!; [done|destruct profile; cbn; done|done| |].
    + cbn. destruct name as [name|], r as [r|]; cbn in Hsame |- *; try done.
      rewrite (frozen_get_holds stable_hash _ _ (proj1 (finished_names _ _ _ _ _ _ _ _ _ Hst))). apply Hsame.
    + destruct name, r; cbn in Hsame; done.
  - exists profile. split_and!; [done| |done]. destruct profile; cbn; [done|]. by destruct O8.
Qed.
End Contract.

(** ** The store *)

Lemma nft_stored s ids names m i :
  uri_identity s = Some ids → identity_token_ids ids = freeze (token_ids b) → nfts ids = nfts_of groups →
  (∀ c g, groups !! c = Some g → ∃ rec, contracts s !! c = Some rec ∧ contract_stored t groups names m c g rec) →
  nft_key s i = Some (
    row ← logical_rows b !! i;
    address ← address_texts t !! address_id row;
    token ← token_texts t !! token_id_id row;
    Some {| nft_chain := row_chain row; nft_contract := address; nft_token := token |}).
Proof using Hb Hrows.
  intros Hids Htokens Hnfts Hcontracts. unfold nft_key. rewrite Hids, Hnfts, Hrows.
  destruct (mjoin groups !! i) as [row|] eqn:Hi; cbn [mbind option_bind].
  - apply lookup_join in Hi as Hat. destruct Hat as (c & g & j & Hg & Hj & ->).
    rewrite (nfts_lookup_at groups c g j row Hg Hj). cbn [identity_of contract_id nft_token_id].
    destruct (Hcontracts c g Hg) as (rec & -> & Hrec). cbn [mbind option_bind]. rewrite Htokens.
    rewrite (frozen_get_holds stable_hash _ _ (hold_tokens _ _ _ (finishable_texts _ _ _ Hb))).
    assert (Hrow : row ∈ g) by by eapply list_elem_of_lookup_2.
    rewrite (stored_address _ _ _ _ _ _ _ Hrec row Hrow). cbn [mbind option_bind].
    pose proof (finishable_rows _ _ _ Hb) as Hall. rewrite Forall_forall in Hall.
    destruct (row_in_token t row) as [token Htoken]; [apply Hall; rewrite Hrows; by eapply list_elem_of_lookup_2|].
    rewrite Htoken. cbn [mbind option_bind]. by rewrite (stored_chain _ _ _ _ _ _ _ Hrec row Hrow).
  - apply lookup_ge_None in Hi. rewrite (lookup_ge_None_2 (nfts_of groups)) by by rewrite length_nfts. done.
Qed.

Lemma finish_prepared_spec :
  ∃ s ids uris names m, finish_prepared iterate stable_hash sip_hash b index_shards = Ok s ∧ stored b t groups s ids uris names m.
Proof using All.
  pose proof (finishable_texts _ _ _ Hb) as Htexts. pose proof (finishable_rows _ _ _ Hb) as Hin. pose proof (finishable_size _ _ _ Hb) as Hsize.
  destruct (finish_contracts iterate Hiterate stable_hash b t index_shards Htexts groups Hrows Hranges Hone Hin Hsize)
    as (st & names & docs & owns & Hrun & Hst).
  destruct (finished_lengths _ _ _ _ _ _ _ _ _ Hst) as (L1 & L2 & L3).
  destruct (renumber_contracts stable_hash b t Htexts groups index_shards Hrows Hranges Hone Hin Hsize st names docs owns Hst)
    as ([tokens_pool all] & tokens & owns' & Hren & [[HT _] HA HL HX]). cbn in HT, HA. rewrite take_ge in HL by lia.
  assert (Hlen : length owns' = length groups) by (apply (f_equal length) in HL; rewrite !length_fmap in HL; lia).
  assert (Htexts' : ∀ c g, groups !! c = Some g → ∃ own, owns' !! c = Some own ∧ Forall2 (resolved tokens docs) own (anchor_texts t g)).
  { intros c g Hg. destruct (lookup_lt_is_Some_2 owns' c) as [own Hown]; [rewrite Hlen; by eapply lookup_lt_Some|]. eauto. }
  assert (Hsame : ∀ c own, owns !! c = Some own → ∃ own', owns' !! c = Some own' ∧ length own' = length own).
  { intros c own Hown. apply (f_equal (λ l, l !! c)) in HL. rewrite !list_lookup_fmap, Hown in HL.
    destruct (owns' !! c) as [own'|]; cbn in HL; [|done]. injection HL as HL. eauto. }
  assert (Hpos : ∀ k, length (mjoin (take k owns)) = length (mjoin (take k owns'))).
  { intros k. rewrite !length_join. f_equal. by rewrite !fmap_take, HL. }
  destruct (build_profiles_spec sip_hash (fs_anchor_offsets st) all owns' index_shards (fs_contracts st) (freeze tokens_pool) (freeze (fs_documents st)))
    as (D & placed & anchors & members & cps & records & Hbuild & Hprof).
  { intros c own Hown. unfold contract_anchors. assert (Hc : c < length groups) by (rewrite <- Hlen; by eapply lookup_lt_Some).
    rewrite (finished_offsets _ _ _ _ _ _ _ _ _ Hst), !list_lookup_fmap, !lookup_seq_lt by lia.
    cbn [fmap option_fmap option_map mbind option_bind]. rewrite HA, !Hpos. replace (0 + c) with c by lia. replace (0 + (c + 1)) with (S c) by lia.
    rewrite (length_take_join owns' c own Hown). by apply slice_of_join. }
  { apply Forall_lookup. intros c own' Hown'. destruct (lookup_lt_is_Some_2 groups c) as [g Hg]; [rewrite <- Hlen; by eapply lookup_lt_Some|].
    destruct (finished_contracts _ _ _ _ _ _ _ _ _ Hst c g) as (nm & own & rec & _ & Hown & _ & Hout); [by eapply lookup_lt_Some|done|].
    destruct (Hsame c own Hown) as (own2 & Hown2 & Hl). rewrite Hown' in Hown2. injection Hown2 as <-. rewrite Hl.
    rewrite (Forall2_length _ _ _ (out_anchors _ _ _ _ _ _ _ _ Hout)). pose proof (anchored_small c g Hg). lia. }
  { rewrite Hlen. pose proof (length_groups groups Hone) as Hl. rewrite <- Hrows in Hl. unfold u32_max in *. lia. }
  { lia. }
  set (mm := Build_MetadataFeatureStore _ _ _ _ _ _) in Hprof.
  assert (Hcontracts : ∀ c g, groups !! c = Some g → ∃ rec, records !! c = Some rec ∧
    contract_stored t groups {| name_values := freeze (fs_names st); contract_names := fs_contract_names st |} mm c g rec).
  { intros c g Hg. eapply (contract_in_store st names docs tokens owns owns' D Hst tokens_pool HT Hlen); [|done|exact Hprof|done].
    intros c' g' own' Hg' Hown'. by eapply HX. }
  eexists _, _, _, _, _. split.
  { unfold finish_prepared. rewrite Hrun. cbn [mbind fallible_bind]. rewrite L3, Hren. cbn [mbind fallible_bind]. rewrite Hbuild.
    cbn [mbind fallible_bind]. rewrite (finish_nfts_spec b groups Hrows Hranges). cbn [mbind fallible_bind]. reflexivity. }
  assert (Hget : ∀ id, frozen_get (freeze (Builder.uris b)) id = uri_texts t !! id) by (intros; apply (frozen_get_holds stable_hash), Htexts).
  split; cbn [contracts uri_identity uri_features name_features metadata_features store_quality contract_offsets nfts features uri_values].
  - done.
  - done.
  - by rewrite (profiles_records _ _ _ _ _ _ Hprof), length_imap, L3.
  - exact Hcontracts.
  - intros i. eapply nft_stored; [done|done|done|exact Hcontracts].
  - split; [unfold nfts; by rewrite length_nfts, Hrows|by unfold features; rewrite length_fmap].
  - intros c g Hg. assert (Hc : c < length groups) by by eapply lookup_lt_Some.
    unfold contract_offsets. rewrite !list_lookup_fmap, !lookup_seq_lt by lia. cbn [fmap option_fmap option_map]. replace (0 + (c + 1)) with (S c) by lia.
    rewrite (length_take_join groups c g Hg). split_and!; [done..|]. intros j row Hj. rewrite Hrows. split; [by eapply lookup_join_at|].
    unfold nfts. by rewrite (nfts_lookup_at groups c g j row Hg Hj).
  - intros u v text. rewrite !Hget. apply NoDup_lookup. eapply holds_distinct, (hold_uris _ _ _ Htexts).
  - intros i f u. unfold features. rewrite list_lookup_fmap, Hget. destruct (logical_rows b !! i) as [row|] eqn:Hi; [|done].
    intros [= <-] Hu. apply (finishable_uris _ _ _ Hb row); [by eapply list_elem_of_lookup_2|exact Hu].
  - intros i row Hi. unfold features. rewrite list_lookup_fmap, Hi. eexists. split; [reflexivity|]. cbn.
    unfold text_at. destruct (token_uri_id row), (image_uri_id row); cbn; by rewrite ?Hget.
Qed.
End Store.
