(* ===== verification/StoreLoad.v ===== *)
(** The contract of loading as a whole: rows and documents become the resident store. *)

From S2P Require Import Prelude Text CanonicalJson Anchors SortedLists Events Reducer ValuePools.
From S2P Require Import Fallible AnalysisJson Builder Resident ResidentLoad AnchorRows.
From S2P Require Import PrepareFacts Prepared Loaded Preparation Profiles StoreContracts.
From S2P Require Import StoreFacts.

(** The texts after the second pass. *)
Definition with_documents (t : Texts) (docs : list str) : Texts :=
  {| address_texts := address_texts t; token_texts := token_texts t; name_texts := name_texts t; uri_texts := uri_texts t;
     document_texts := docs |}.

Section Finishable.
Context `{JsonText} (stable_hash : list N → N) (b b1 b2 : ResidentBuilder) (t : Texts) (l : list ReadRow) (docs : list str) (m : Offers).
Context (Hread : has_read stable_hash b t l).
Context (Hprep : prepared stable_hash b b1 (address_texts t) (document_texts t)).
Context (Hsize : (Z.of_nat (length l) ≤ u32_max)%Z).
Context (Hatt : attached stable_hash b2 m docs) (Hlay : layout b2) (Hsame : same_layout b1 b2).

(** A row after the second pass is a row that was read, but for its document. *)
Lemma second_row row : row ∈ logical_rows b2 → ∃ u r, u ∈ logical_rows b ∧ r ∈ l ∧ row_reads t u r ∧ skeleton row = skeleton u.
Proof using Hread Hprep Hsame.
  clear Hatt Hlay. intros [i Hi]%list_elem_of_lookup. destruct Hsame as (rows & anchors & pool & q & -> & Hs). cbn in Hi.
  apply (f_equal (λ l, l !! i)) in Hs. rewrite !list_lookup_fmap, Hi in Hs. destruct (logical_rows b1 !! i) as [u|] eqn:Hu; [|done].
  cbn in Hs. injection Hs as Hs1. apply list_elem_of_lookup_2 in Hu. destruct (prepared_rows _ _ _ _ _ Hprep u Hu) as [Hub _].
  apply list_elem_of_lookup in Hub as [j Hj]. destruct (Forall2_lookup_l _ _ _ _ _ (read_rows _ _ _ _ Hread) Hj) as (r & Hr & Hrow).
  exists u, r. split_and!; [by eapply list_elem_of_lookup_2|by eapply list_elem_of_lookup_2|done|]. unfold skeleton, set_metadata. congruence.
Qed.

Lemma option_text_some texts id text : option_text texts (Some id) text → is_Some (texts !! id).
Proof. destruct text; cbn; [|done]. intros ->. eauto. Qed.

Lemma row_of_contract row i : logical_rows b2 !! i = Some row → ∃ c range, contract_ranges b2 !! c = Some range ∧ range.1 ≤ i < range.2.
Proof using Hlay.
  intros Hi. destruct (layout_contract _ Hlay i) as (c & _ & range & Hc & Hr); [by eapply lookup_lt_Some|]. eauto.
Qed.

Lemma document_of_row row id : row ∈ logical_rows b2 → metadata_id row = Some id → is_Some (docs !! id).
Proof using Hlay Hatt.
  clear Hread Hprep Hsame Hsize. intros [i Hi]%list_elem_of_lookup Hid. destruct (row_of_contract row i Hi) as (c & range & Hc & Hr).
  destruct (attached_rows _ _ _ _ Hatt c range i row Hc Hr Hi) as [Hyes Hno].
  destruct (decide (i ∈ first_rows (metadata_anchor_count b2) m range)) as [Hin|Hout].
  - destruct (Hyes Hin) as (s & text & id' & _ & _ & Hid' & Ht). rewrite Hid in Hid'. injection Hid' as <-. eauto.
  - destruct (Hno Hout) as [Hnone _]. congruence.
Qed.

(** A contract has no more documents than anchors. *)
Lemma few_anchors c range : contract_ranges b2 !! c = Some range →
  length (filter (λ row, is_Some (metadata_id row)) (take (range.2 - range.1) (drop range.1 (logical_rows b2)))) ≤ 8.
Proof using Hlay Hatt.
  clear Hread Hprep Hsame Hsize. intros Hc. set (F := first_rows (metadata_anchor_count b2) m range).
  set (I := filter (λ i, is_Some (logical_rows b2 !! i ≫= metadata_id)) (seq range.1 (range.2 - range.1))).
  assert (HI : ∀ s n, length (filter (λ row, is_Some (metadata_id row)) (take n (drop s (logical_rows b2)))) ≤
    length (filter (λ i, is_Some (logical_rows b2 !! i ≫= metadata_id)) (seq s n))).
  { clear. intros s n. revert s. induction n as [|n IH]; intros s; [done|]. cbn [seq]. rewrite filter_cons.
    destruct (logical_rows b2 !! s) as [row|] eqn:E.
    - rewrite (drop_S _ row s) by done. cbn [take]. rewrite filter_cons. cbn [mbind option_bind]. specialize (IH (S s)).
      destruct (decide (is_Some (metadata_id row))); cbn; lia.
    - rewrite drop_ge by by apply lookup_ge_None. cbn. lia. }
  etrans; [apply HI|]. fold I. assert (Hlen : length F ≤ 8).
  { pose proof (first_rows_length (metadata_anchor_count b2) m range). pose proof (layout_count _ Hlay). unfold F. lia. }
  etrans; [|exact Hlen]. apply submseteq_length, NoDup_submseteq; [apply NoDup_filter, NoDup_seq|].
  intros i [Hmeta Hi%elem_of_seq]%list_elem_of_filter. destruct (logical_rows b2 !! i) as [row|] eqn:Hrow; [|by destruct Hmeta].
  destruct (attached_rows _ _ _ _ Hatt c range i row Hc ltac:(lia) Hrow) as [_ Hno].
  destruct (decide (i ∈ F)) as [|Hout]; [done|]. destruct (Hno Hout) as [Hnone _]. cbn in Hmeta. rewrite Hnone in Hmeta. by destruct Hmeta.
Qed.

Lemma second_pass_finishable : finishable stable_hash b2 (with_documents t docs).
Proof using All.
  assert (Hpools : addresses b2 = addresses b ∧ token_ids b2 = token_ids b ∧ names b2 = names b ∧ uris b2 = uris b ∧
      contract_ranges b2 = contract_ranges b1 ∧ skeleton <$> logical_rows b2 = skeleton <$> logical_rows b1).
  { destruct Hsame as (rows & anchors & pool & q & -> & Hs). cbn. destruct (prepared_pools _ _ _ _ _ Hprep) as (-> & -> & -> & -> & _). done. }
  destruct Hpools as (HA & HT & HN & HU & HR & HS). destruct (read_texts _ _ _ _ Hread) as [TA TT TN TU _].
  assert (Hlen : length (logical_rows b2) = length (logical_rows b1)) by (apply (f_equal length) in HS; by rewrite !length_fmap in HS).
  split.
  - split; cbn; rewrite ?HA, ?HT, ?HN, ?HU; [done..|apply Hatt].
  - apply Forall_forall. intros row Hrow. destruct (second_row row Hrow) as (u & r & _ & _ & [_ R2 R3 R4 _ _ _ _ _] & Hsk).
    unfold skeleton, set_metadata in Hsk. injection Hsk as _ E2 E3 E4 _ _ _. split; cbn.
    + rewrite E2. eauto.
    + rewrite E3. eauto.
    + intros id Hid. rewrite E4 in Hid. rewrite Hid in R4. by eapply option_text_some.
    + intros id. by apply document_of_row.
  - intros row id Hrow Hid. destruct (second_row row Hrow) as (u & r & _ & _ & [_ _ _ _ R5 R6 _ _ _] & Hsk).
    unfold skeleton, set_metadata in Hsk. injection Hsk as _ _ _ _ E5 E6 _. cbn. rewrite E5, E6 in Hid.
    destruct Hid as [Hid|Hid]; rewrite Hid in *; by eapply option_text_some.
  - rewrite HR, (prepared_ranges _ _ _ _ _ Hprep). by apply contract_ranges_skeleton.
  - intros c range Hc. by apply (few_anchors c).
  - rewrite Hlen. assert (Hle : length (logical_rows b1) ≤ length l); [|lia].
    rewrite <- (Forall2_length _ _ _ (read_rows _ _ _ _ Hread)). apply submseteq_length, NoDup_submseteq.
    + apply NoDup_alt. intros i j u Hi Hj. eapply (prepared_distinct _ _ _ _ _ Hprep); [done|done|]. by apply same_nft_true.
    + intros u Hu. by apply (prepared_rows _ _ _ _ _ Hprep u Hu).
Qed.
End Finishable.

(** ** The catalog *)

Section Catalog.
Context (stable_hash : list N → N) (b b1 b2 : ResidentBuilder) (t t2 : Texts) (groups : list (list CompactRow)).
Context (Hprep : prepared stable_hash b b1 (address_texts t) (document_texts t)) (Hsame : same_layout b1 b2).
Context (Hpool : NoDup (address_texts t)) (Haddresses : address_texts t2 = address_texts t).
Context (Hrows : logical_rows b2 = mjoin groups) (Hranges : contract_ranges b2 = ranges_at 0 groups) (Hone : Forall one_contract groups).

Lemma same_layout_row i row : logical_rows b2 !! i = Some row →
  ∃ u, logical_rows b1 !! i = Some u ∧ row_chain u = row_chain row ∧ address_id u = address_id row ∧ token_id_id u = token_id_id row.
Proof using Hsame.
  intros Hi. destruct Hsame as (rows & anchors & pool & q & Heq & Hs). rewrite Heq in Hi. cbn in Hi.
  apply (f_equal (λ l, l !! i)) in Hs. rewrite !list_lookup_fmap, Hi in Hs. destruct (logical_rows b1 !! i) as [u|]; [|done].
  cbn in Hs. injection Hs as ????. exists u. split; [done|]. by split_and!.
Qed.

Lemma catalog_sorted s names m c1 c2 r1 r2 :
  (∀ c g, groups !! c = Some g → ∃ rec, contracts s !! c = Some rec ∧ contract_stored t2 groups names m c g rec) →
  length (contracts s) = length groups → c1 < c2 → contracts s !! c1 = Some r1 → contracts s !! c2 = Some r2 →
  contract_key_compare (record_key r1) (record_key r2) = Lt.
Proof using All.
  intros Hstored Hlen Hlt Hr1 Hr2.
  assert (Hfirst : ∀ c r, contracts s !! c = Some r → ∃ g u, groups !! c = Some g ∧ logical_rows b1 !! length (mjoin (take c groups)) = Some u ∧
    row_chain u = record_chain r ∧ address_texts t !! address_id u = Some (record_address r) ∧ g ≠ [] ∧ in_range b1 c (length (mjoin (take c groups)))).
  { intros c r Hr. destruct (lookup_lt_is_Some_2 groups c) as [g Hg]; [rewrite <- Hlen; by eapply lookup_lt_Some|].
    destruct (Hstored c g Hg) as (r' & Hr' & Hst). rewrite Hr in Hr'. injection Hr' as <-.
    rewrite Forall_lookup in Hone. destruct (Hone c g Hg) as (first & rest & -> & _).
    destruct (same_layout_row (length (mjoin (take c groups))) first) as (u & Hu & U1 & U2 & _).
    { rewrite Hrows, <- (Nat.add_0_r (length _)). by eapply lookup_join_at. }
    exists (first :: rest), u. split_and!; [done|done| | |done|].
    - rewrite U1. symmetry. eapply stored_chain; [exact Hst|by left].
    - rewrite U2, <- Haddresses. eapply stored_address; [exact Hst|by left].
    - exists (length (mjoin (take c groups)), length (mjoin (take c groups)) + length (first :: rest)). split; [|cbn; lia].
      destruct Hsame as (rows & anchors & pool & q & Heq & _). rewrite Heq in Hranges. cbn in Hranges. rewrite Hranges.
      unfold ranges_at. rewrite list_lookup_imap, Hg. done. }
  destruct (Hfirst c1 r1 Hr1) as (g1 & u1 & Hg1 & Hu1 & A1 & B1 & N1 & I1), (Hfirst c2 r2 Hr2) as (g2 & u2 & Hg2 & Hu2 & A2 & B2 & N2 & I2).
  assert (Hpos : length (mjoin (take c1 groups)) < length (mjoin (take c2 groups))).
  { pose proof (length_take_join groups c1 g1 Hg1) as H1. pose proof (length_take_le (take c2 groups) (S c1)) as H2.
    rewrite take_take, Nat.min_l in H2 by lia. destruct g1; [done|]. cbn [length] in H1. lia. }
  pose proof (prepared_order _ _ _ _ _ Hprep _ _ u1 u2 _ _ Hpos Hu1 Hu2 B1 B2) as Hord. rewrite A1, A2 in Hord.
  unfold contract_key_compare, record_key. cbn [key_chain key_address]. destruct (then_with _ _) eqn:E; [|done|done]. exfalso.
  apply then_with_eq in E as [E1 E2]. apply compare_eq_iff in E2. apply chain_compare_eq in E1.
  assert (c1 = c2); [|lia]. apply (prepared_contracts _ _ _ _ _ Hprep _ _ u1 u2 c1 c2 Hu1 Hu2 I1 I2).
  apply same_contract_true. split; [congruence|]. eapply NoDup_lookup; [exact Hpool|exact B2|]. by rewrite <- E2.
Qed.
End Catalog.

(** ** The keys of NFTs *)

Definition key_of (r : ReadRow) : NftKey :=
  {| nft_chain := read_chain r; nft_contract := read_address r; nft_token := read_token r |}.

Section Keys.
Context (stable_hash : list N → N) (b b1 b2 : ResidentBuilder) (t t2 : Texts) (l : list ReadRow) (s : ResidentBaseStore).
Context (Hread : has_read stable_hash b t l).
Context (Hprep : prepared stable_hash b b1 (address_texts t) (document_texts t)) (Hsame : same_layout b1 b2).
Context (Ht2 : address_texts t2 = address_texts t ∧ token_texts t2 = token_texts t).
Context (Hnfts : ∀ i, nft_key s i = Some (
    row ← logical_rows b2 !! i;
    address ← address_texts t2 !! address_id row;
    token ← token_texts t2 !! token_id_id row;
    Some {| nft_chain := row_chain row; nft_contract := address; nft_token := token |})).

Lemma nft_key_row i key : nft_key s i = Some (Some key) ↔
  ∃ u, logical_rows b1 !! i = Some u ∧ nft_chain key = row_chain u ∧
    address_texts t !! address_id u = Some (nft_contract key) ∧ token_texts t !! token_id_id u = Some (nft_token key).
Proof using Hsame Ht2 Hnfts.
  destruct Ht2 as [Ha Ht]. rewrite Hnfts, Ha, Ht. destruct (logical_rows b2 !! i) as [row|] eqn:Hi; cbn [mbind option_bind].
  - destruct (same_layout_row b1 b2 Hsame i row Hi) as (u & Hu & U1 & U2 & U3). rewrite <- U2, <- U3, <- U1. split.
    + intros Hk. exists u. split; [done|]. destruct (address_texts t !! address_id u) as [a|]; [|done]. cbn in Hk.
      destruct (token_texts t !! token_id_id u) as [k|]; [|done]. cbn in Hk. by simplify_eq.
    + intros (u' & Hu' & Hc & Hak & Htk). rewrite Hu in Hu'. injection Hu' as <-. rewrite Hak. cbn. rewrite Htk. cbn. rewrite <- Hc. by destruct key.
  - split; [done|]. intros (u & Hu & _). exfalso. destruct Hsame as (rows & anchors & pool & q & Heq & Hs). rewrite Heq in Hi. cbn in Hi.
    apply (f_equal (λ l, l !! i)) in Hs. by rewrite !list_lookup_fmap, Hi, Hu in Hs.
Qed.

Lemma nft_keys_read key : (∃ i, nft_key s i = Some (Some key)) ↔ ∃ r, r ∈ l ∧ key = key_of r.
Proof using All.
  pose proof (read_rows _ _ _ _ Hread) as Hrows. setoid_rewrite nft_key_row. split.
  - intros (i & u & Hu & K1 & K2 & K3). apply list_elem_of_lookup_2 in Hu. destruct (prepared_rows _ _ _ _ _ Hprep u Hu) as [Hub _].
    apply list_elem_of_lookup in Hub as [j Hj]. destruct (Forall2_lookup_l _ _ _ _ _ Hrows Hj) as (r & Hr & [R1 R2 R3 _ _ _ _ _ _]).
    exists r. split; [by eapply list_elem_of_lookup_2|]. unfold key_of. destruct key. cbn in *. f_equal; congruence.
  - intros (r & Hr & ->). apply list_elem_of_lookup in Hr as [j Hj]. destruct (Forall2_lookup_r _ _ _ _ _ Hrows Hj) as (u & Hu & [R1 R2 R3 _ _ _ _ _ _]).
    apply list_elem_of_lookup_2 in Hu. destruct (prepared_sources _ _ _ _ _ Hprep u Hu) as (i & v & Hv & Hsn & _).
    apply same_nft_true in Hsn as (S1 & S2 & S3). exists i, v. split; [done|]. cbn. rewrite S1, S2, S3. by split_and!.
Qed.

Lemma nft_keys_distinct i j key : nft_key s i = Some (Some key) → nft_key s j = Some (Some key) → i = j.
Proof using All.
  intros (u & Hu & K1 & K2 & K3)%nft_key_row (v & Hv & L1 & L2 & L3)%nft_key_row.
  destruct (read_texts _ _ _ _ Hread) as [TA TT _ _ _].
  apply (prepared_distinct _ _ _ _ _ Hprep i j u v Hu Hv). apply same_nft_true. split_and!; [congruence| |].
  - eapply NoDup_lookup; [by eapply holds_distinct, TA|done|done].
  - eapply NoDup_lookup; [by eapply holds_distinct, TT|done|done].
Qed.
End Keys.

(** ** The whole load *)

(** The documents of the second pass with their sources. *)
Definition batch_inputs (batch : nat * Z * list (option str)) : list (SourceOrder * option str) :=
  imap (λ i raw, ({| file_ordinal := batch.1.1; file_row_number := batch.1.2 + Z.of_nat i |}, raw)) batch.2.

Lemma loop_attach_batches `{JsonLibrary} stable_hash b batches :
  loop (attach_batch stable_hash) b batches = loop (attach_row stable_hash) b (mjoin (batch_inputs <$> batches)).
Proof.
  revert b. induction batches as [|[[file start] raws] batches IH]; intros b; [done|].
  rewrite fmap_cons, mjoin_cons, loop_app. cbn [loop attach_batch]. unfold attach_metadata_batch, batch_inputs at 1. cbn [fst snd].
  destruct (loop _ b _); cbn; [apply IH|done|done].
Qed.

Lemma release_finishable stable_hash b t : finishable stable_hash b t → finishable stable_hash (release_metadata_source_lookup b) t.
Proof. intros [[H1 H2 H3 H4 H5] H6 H7 H8 H9 H10]. split; [by split|exact H6|exact H7|exact H8|exact H9|exact H10]. Qed.

Lemma finish_finished `{ParallelSort} iterate stable_hash sip_hash b t k n :
  finishable stable_hash b t → finish iterate stable_hash sip_hash b k n = finish_prepared iterate stable_hash sip_hash b n.
Proof.
  intros Hb. unfold finish. pose proof (finishable_ranges _ _ _ Hb) as Hr.
  destruct (logical_rows b) as [|first rest] eqn:E; [by rewrite andb_false_r|].
  rewrite Hr, bool_decide_false by done. done.
Qed.

(** What the program gives to a load: hash functions, a traversal of hash maps, processors. *)
Record load_setting (owner_hash : ChainId → str → Z) (iterate : gmap nat Z → list (nat * Z)) (shards lanes k : nat) : Prop := {
  setting_hash chain address : (0 ≤ owner_hash chain address)%Z;
  setting_iterate m : iterate m ≡ₚ map_to_list m;
  setting_shards : 1 ≤ shards;
  setting_lanes : 1 ≤ lanes;
  setting_anchors : 1 ≤ k ≤ 8;
}.

(** Rows and documents of one input: valid text, distinct sources, nothing blank, documents
    of rows that exist, and less than about two thousand million of both. *)
Record load_input `{JsonLibrary} (rows : list InputRow) (inputs : list (SourceOrder * option str)) : Prop := {
  input_valid : Forall valid_input rows;
  input_rows row : row ∈ rows → metadata_json row = None ∧ source_ok (source_order row) ∧ read_row row ≠ None;
  input_sources : NoDup (source_order <$> rows);
  input_documents input : input ∈ inputs → input.1 ∈ source_order <$> rows;
  input_size : (Z.of_nat (2 * length rows + length inputs + 2) < 2 ^ 32)%Z;
}.

Lemma read_sources `{JsonLibrary} (rows : list InputRow) : source_order <$> filter (λ row, read_row row ≠ None) rows = read_source <$> omap read_row rows.
Proof.
  induction rows as [|row rows IH]; [done|]. rewrite filter_cons. cbn [omap list_omap]. destruct (read_row row) as [r|] eqn:E.
  - rewrite decide_True by done. rewrite !fmap_cons, IH. f_equal. unfold read_row in E. destruct (_ || _); [done|]. by injection E as <-.
  - rewrite decide_False by tauto. done.
Qed.

Lemma rows_sources t us rs : Forall2 (row_reads t) us rs → source <$> us = read_source <$> rs.
Proof. induction 1 as [|u r us rs Hr _ IH]; [done|]. rewrite !fmap_cons, IH. f_equal. exact (reads_source _ _ _ Hr). Qed.

Lemma load_base `{ParallelSort} `{JsonText} stable_hash owner_hash estimate iterate shards lanes k batches schedule inputs :
  load_setting owner_hash iterate shards lanes k → load_input (mjoin batches) inputs →
  Forall (Forall valid_input) batches → scheduled owner_hash shards batches schedule →
  ∃ b b1 b2 t l docs, load_rows stable_hash estimate shards schedule = Ok b ∧ prepare_metadata_numa lanes b k = Ok b1 ∧
    loop (attach_row stable_hash) b1 inputs = Ok b2 ∧ has_read stable_hash b t l ∧ l ≡ₚ omap read_row (mjoin batches) ∧
    prepared stable_hash b b1 (address_texts t) (document_texts t) ∧ same_layout b1 b2 ∧
    finishable stable_hash b2 (with_documents t docs).
Proof.
  intros [S1 S2 S3 S4 S5] [I1 I2 I3 I4 I5] Hv Hsched.
  destruct (load_rows_spec stable_hash owner_hash estimate S1 shards batches schedule S3 Hv Hsched ltac:(lia))
    as [(b & l & Hload & (t & Hb & Ht) & Hp & _)|[_ (row & Hrow & Hnone)]]; [|by destruct (I2 row Hrow) as (_ & _ & [])].
  assert (Hlen : length l ≤ length (mjoin batches)) by (rewrite Hp; apply omap_le).
  assert (Hsource : source <$> logical_rows b = read_source <$> l) by (eapply rows_sources, Hb).
  assert (Hall : source_order <$> mjoin batches = read_source <$> omap read_row (mjoin batches)).
  { rewrite <- read_sources, filter_all; [done|]. intros row Hrow. by destruct (I2 row Hrow) as (_ & _ & ?). }
  assert (Hperm : source <$> logical_rows b ≡ₚ source_order <$> mjoin batches) by by rewrite Hsource, Hall, Hp.
  assert (Hready : readable stable_hash b (address_texts t) (token_texts t) (document_texts t)).
  { eapply has_read_readable; [done|done|lia|]. intros r Hr. rewrite Hp in Hr. apply list_elem_of_omap in Hr as (row & Hrow & Hread).
    destruct (I2 row Hrow) as (Hnone & Hok & _). unfold read_row in Hread. rewrite Hnone in Hread. destruct (_ || _); [done|]. by injection Hread as <-. }
  pose proof (prepare_metadata_spec stable_hash b _ _ _ k Hready S5) as Hprep. rewrite decide_True in Hprep by by rewrite Hperm.
  destruct Hprep as (b1 & Hprep & Hprepared & Hcount).
  destruct (address_ranks_spec stable_hash b _ _ _ Hready) as (ra & Ha & _).
  destruct (token_ranks_spec stable_hash b _ _ _ true Hready) as (re & He & _).
  destruct (token_ranks_spec stable_hash b _ _ _ false Hready) as (rs & Hs & _).
  destruct (second_pass_run stable_hash b b1 _ _ k inputs Hprepared Hcount) as (b2 & docs & Hrun & Hlay & Hatt & Hsame & _).
  - intros input Hin%I4. rewrite <- Hperm in Hin. apply list_elem_of_fmap in Hin as (r & -> & ?). eauto.
  - destruct Ht as (_ & _ & _ & _ & Ht). unfold has_room. lia.
  - exists b, b1, b2, t, l, docs. rewrite (prepare_numa_same lanes b k ra re rs) by done. split_and!; try done.
    eapply second_pass_finishable; try done. unfold u32_max. lia.
Qed.

(** ** An example *)

Definition example_batches : list (list InputRow) := [take 2 example_rows; drop 2 example_rows].
Definition example_schedule : list (nat * list InputRow) := reverse (mjoin (batch_entries (λ _ _, 5%Z) 4 <$> example_batches)).
Definition example_documents : list (nat * Z * list (option str)) := [(0, 0%Z, [Some (lit "{'A':1}"); None; Some (lit " {'A':2} ")])].

Lemma example_setting : load_setting (λ _ _, 5%Z) map_to_list 4 2 3.
Proof. split; [intros; lia|done|lia..]. Qed.

Lemma example_input : @load_input pair_json (mjoin example_batches) (mjoin (batch_inputs <$> example_documents)).
Proof.
  split.
  - repeat constructor.
  - intros row Hin. apply list_elem_of_In in Hin. cbn in Hin. destruct Hin as [<-|[<-|[<-|[]]]];
      (split; [reflexivity|]); (split; [unfold source_ok; cbn; lia|]); vm_compute; discriminate.
  - vm_compute. repeat constructor; set_solver.
  - intros input Hin. apply list_elem_of_In in Hin. cbn in Hin. destruct Hin as [<-|[<-|[<-|[]]]]; vm_compute; set_solver.
  - vm_compute. reflexivity.
Qed.

Lemma example_scheduled : scheduled (λ _ _, 5%Z) 4 example_batches example_schedule.
Proof. apply reverse_Permutation. Qed.

Lemma example_valid : Forall (Forall valid_input) example_batches.
Proof. repeat constructor. Qed.

(** C36: The resident store of a prepared builder is its rows. [finish_prepared] returns for
    any hash functions and any traversal of hash maps. Every NFT has the chain and the texts
    of its row, and there are no others; every contract has its chain, address, number of
    NFTs and its rows in one run; it is named by the name that most of its rows have, the
    least text when there are several; the URIs are those of the rows; and contracts share
    a metadata profile exactly when they have the same documents for the same tokens, and
    the profile has those and the list of its contracts in order. *)
Theorem store_faithful iterate stable_hash sip_hash b t index_shards :
  (∀ m, iterate m ≡ₚ map_to_list m) → finishable stable_hash b t →
  ∃ groups s ids uris names m, logical_rows b = mjoin groups ∧ Forall one_contract groups ∧
    finish_prepared iterate stable_hash sip_hash b index_shards = Ok s ∧ stored b t groups s ids uris names m.
Proof.
  intros Hit Hb. destruct (contract_groups (logical_rows b)) as (groups & Hrows & Hranges & Hone).
  rewrite <- (finishable_ranges _ _ _ Hb) in Hranges.
  destruct (finish_prepared_spec iterate Hit stable_hash sip_hash b t index_shards Hb groups Hrows Hranges Hone)
    as (s & ids & uris & names & m & ? & ?).
  by exists groups, s, ids, uris, names, m.
Qed.

Lemma store_faithful_witness :
  ∃ b t groups s ids uris names m, finishable (λ _, 7%N) b t ∧ logical_rows b = mjoin groups ∧
    finish_prepared map_to_list (λ _, 7%N) (λ _, 7%N) b 4 = Ok s ∧ stored b t groups s ids uris names m.
Proof.
  destruct (@load_base stable_parallel_sort pair_json pair_json_text (λ _, 7%N) (λ _ _, 5%Z) (λ _, 1%Z) map_to_list 4 2 3 example_batches example_schedule _
    example_setting example_input example_valid example_scheduled) as (b & b1 & b2 & t & l & docs & _ & _ & _ & Hread & Hp & Hprep & Hsame & Hfin).
  destruct (store_faithful map_to_list (λ _, 7%N) (λ _, 7%N) b2 (with_documents t docs) 4 (λ _, reflexivity _) Hfin)
    as (groups & s & ids & uris & names & m & H1 & _ & H2 & H3).
  exists b2, (with_documents t docs), groups, s, ids, uris, names, m. split_and!; assumption.
Defined.

(** What a load returns. *)
Lemma load_stored `{ParallelSort} `{JsonText} stable_hash owner_hash estimate iterate sip_hash shards lanes k batches schedule documents :
  load_setting owner_hash iterate shards lanes k →
  load_input (mjoin batches) (mjoin (batch_inputs <$> documents)) →
  Forall (Forall valid_input) batches → scheduled owner_hash shards batches schedule →
  ∃ s, load_resident_store stable_hash estimate iterate sip_hash lanes k shards schedule documents = Ok s ∧
    (∀ key, (∃ i, nft_key s i = Some (Some key)) ↔ ∃ r, r ∈ omap read_row (mjoin batches) ∧ key = key_of r) ∧
    (∀ i j key, nft_key s i = Some (Some key) → nft_key s j = Some (Some key) → i = j) ∧
    (∀ c1 c2 r1 r2, c1 < c2 → contracts s !! c1 = Some r1 → contracts s !! c2 = Some r2 →
      contract_key_compare (record_key r1) (record_key r2) = Lt) ∧
    ∃ b2 t groups ids uris names m, finishable stable_hash b2 t ∧ logical_rows b2 = mjoin groups ∧ Forall one_contract groups ∧
      stored b2 t groups s ids uris names m.
Proof.
  intros Hset Hin Hv Hsched. destruct (load_base stable_hash owner_hash estimate iterate shards lanes k batches schedule _ Hset Hin Hv Hsched)
    as (b & b1 & b2 & t & l & docs & Hload & Hprep & Hrun & Hread & Hp & Hprepared & Hsame & Hfin).
  destruct (contract_groups (logical_rows b2)) as (groups & Hrows & Hranges & Hone). rewrite <- (finishable_ranges _ _ _ Hfin) in Hranges.
  destruct (finish_prepared_spec iterate (setting_iterate _ _ _ _ _ Hset) stable_hash sip_hash (release_metadata_source_lookup b2)
    (with_documents t docs) (Z.of_nat shards) (release_finishable _ _ _ Hfin) groups Hrows Hranges Hone) as (s & ids & uris & names & m & Hs & Hst).
  assert (Hst2 : stored b2 (with_documents t docs) groups s ids uris names m) by (destruct Hst; by split).
  pose proof (stored_nfts _ _ _ _ _ _ _ _ Hst2) as Hnfts. exists s. split_and!.
  - unfold load_resident_store. rewrite Hload. cbn [mbind fallible_bind]. rewrite Hprep. cbn [mbind fallible_bind].
    rewrite loop_attach_batches, Hrun. cbn [mbind fallible_bind]. erewrite finish_finished by by apply release_finishable. done.
  - intros key. setoid_rewrite <- Hp. by eapply (nft_keys_read stable_hash b b1 b2 t (with_documents t docs) l s).
  - by eapply (nft_keys_distinct stable_hash b b1 b2 t (with_documents t docs) l s).
  - intros c1 c2 r1 r2. eapply (catalog_sorted stable_hash b b1 b2 t (with_documents t docs) groups); try done.
    + eapply holds_distinct, (hold_addresses _ _ _ (read_texts _ _ _ _ Hread)).
    + apply Hst2.
    + apply Hst2.
  - exists b2, (with_documents t docs), groups, ids, uris, names, m. by split_and!.
Qed.


