(* ===== verification/UriQuery.v ===== *)
(** The URI stage of an analysis: the queries of the seeds (A/resident/query_plan.rs), the
    index of the NFTs that have a URI of some seed (A/resident/uri_index.rs), the hits of a
    seed in a shard (A/dedup/uri.rs) and the stage that runs them on all lanes
    (A/pipeline/coordinator.rs, [execute_dedup]). Every shard query runs under a guard of
    [ShardSeal] that catches a panic; there is none to catch. *)

From S2P Require Import Prelude Text CanonicalJson Anchors SortedLists UriChunks Events Evidence.
From S2P Require Import Relations Reducer ValuePools Fallible Seeds AnalysisJson Builder.
From S2P Require Import Resident.

(** The order in which a hash map with numbers as keys is traversed. *)
Class MapOrder := {
  traverse {A} : gmap nat A → list (nat * A);
  traverse_perm {A} (m : gmap nat A) : traverse m ≡ₚ map_to_list m;
}.

(** [as u32] *)
Definition as_u32 (n : nat) : nat := Z.to_nat (Z.of_nat n mod 2 ^ 32).

Definition by_number {A} (a b : nat * A) : comparison := Nat.compare a.1 b.1.

(** [fold] and [reduce] of rayon: contiguous segments are folded from the identity and
    joined in order. *)
Fixpoint fold_shape {A W : Type} (new : W) (step : W → A → fallible W) (join : W → W → fallible W)
    (shape : Reduction) (l : list A) : fallible W :=
  match shape with
  | Fold => loop step new l
  | Split n l1 l2 =>
      w1 ← fold_shape new step join l1 (take n l);
      w2 ← fold_shape new step join l2 (drop n l);
      join w1 w2
  end.

(** ** The filter of the URIs of the seeds *)

(** The flags of a URI lie at [uri % 4 * 2] of byte [uri / 4]. *)
Definition flag_shift (uri : nat) : Z := Z.of_nat (uri mod 4 * 2).

Definition set_flag (bit : Z) (flags : list Z) (uri : nat) : fallible (list Z) :=
  byte ← expect (flags !! (uri / 4));
  Ok (<[uri / 4 := Z.lor byte (Z.shiftl bit (flag_shift uri))]> flags).

(** [saturating_add(1)] of a [u32] as [usize]. *)
Definition seed_extent (uris : list nat) : nat := foldr Nat.max 0 (S <$> uris).

Definition new_filter (uri_value_count : nat) (seed_token_uris seed_image_uris : list nat) : fallible (list Z) :=
  let extent := seed_extent (seed_token_uris ++ seed_image_uris) in
  flags ← loop (set_flag 1) (replicate (div_ceil (Nat.max uri_value_count extent) 4) 0%Z) seed_token_uris;
  loop (set_flag 2) flags seed_image_uris.

Definition contains_flag (bit : Z) (flags : list Z) (uri : nat) : bool :=
  match flags !! (uri / 4) with
  | Some byte => negb (Z.land byte (Z.shiftl bit (flag_shift uri)) =? 0)%Z
  | None => false
  end.

Definition contains_token (flags : list Z) (uri : nat) : bool := contains_flag 1 flags uri.
Definition contains_image (flags : list Z) (uri : nat) : bool := contains_flag 2 flags uri.

(** ** The index *)

Record UriPostingRef := { ref_uri : nat; ref_shard : nat; ref_start : nat; ref_end : nat }.

(** NFTs by URI, of every shard. *)
Abbreviation Pending := (list (gmap nat (list nat))).
Abbreviation Directory := (gmap nat (list UriPostingRef)).

Record UriIndex := {
  token_uri_postings : list nat;
  image_uri_postings : list nat;
  token_uri_directory : Directory;
  image_uri_directory : Directory;
  pending_token_uri_postings : Pending;
  pending_image_uri_postings : Pending;
}.

Definition with_pending (token image : Pending) : UriIndex :=
  {| token_uri_postings := []; image_uri_postings := []; token_uri_directory := ∅; image_uri_directory := ∅;
     pending_token_uri_postings := token; pending_image_uri_postings := image |}.

Definition with_shards (shard_count : nat) : UriIndex := with_pending (replicate shard_count ∅) (replicate shard_count ∅).

Definition URI_CHUNK : nat := Z.to_nat 4096.

(** [len.saturating_mul(lane) / lane_count] *)
Definition lane_start (len lane lane_count : nat) : nat :=
  Z.to_nat (Z.min (Z.of_nat len * Z.of_nat lane) (2 ^ 64 - 1) / Z.of_nat lane_count).

Section Index.
Context `{MapOrder} `{UnstableSort}.

(** [pending[shard].entry(uri).or_default().push(nft)] *)
Definition post (pending : Pending) (shard uri nft : nat) : fallible Pending :=
  postings ← expect (pending !! shard);
  Ok (<[shard := <[uri := default [] (postings !! uri) ++ [nft]]> postings]> pending).

Definition shard_of (shard_count nft : nat) : nat := Z.to_nat (owner_shard (Z.of_nat nft) (Z.of_nat shard_count)).

Definition index_uri (wanted : nat → bool) (pending : Pending) (shard nft : nat) (uri : option nat) : fallible Pending :=
  match uri with
  | Some uri => if wanted uri then post pending shard uri nft else Ok pending
  | None => Ok pending
  end.

Definition index_feature (seed_filter : list Z) (shard_count : nat) (output : UriIndex) (entry : nat * UriFeatureRecord) :
    fallible UriIndex :=
  let nft := as_u32 entry.1 in
  let shard := shard_of shard_count nft in
  token ← index_uri (contains_token seed_filter) (pending_token_uri_postings output) shard nft (token_uri entry.2);
  image ← index_uri (contains_image seed_filter) (pending_image_uri_postings output) shard nft (image_uri entry.2);
  Ok (with_pending token image).

(** A chunk of features behind [start]. *)
Definition index_chunk (seed_filter : list Z) (shard_count start : nat) (output : UriIndex)
    (chunk : nat * list UriFeatureRecord) : fallible UriIndex :=
  loop (index_feature seed_filter shard_count) output
    (imap (λ offset feature, (start + chunk.1 * URI_CHUNK + offset, feature)) chunk.2).

(** [drain] of a map into another. *)
Definition append_postings (postings : gmap nat (list nat)) (entry : nat * list nat) : gmap nat (list nat) :=
  <[entry.1 := default [] (postings !! entry.1) ++ entry.2]> postings.

Definition merge_shard (right : Pending) (entry : nat * gmap nat (list nat)) : fallible (gmap nat (list nat)) :=
  other ← expect (right !! entry.1);
  Ok (foldl append_postings entry.2 (traverse other)).

Definition merge_pending (left right : Pending) : fallible Pending := try_map (merge_shard right) (imap pair left).

Definition merge_index (left right : UriIndex) : fallible UriIndex :=
  token ← merge_pending (pending_token_uri_postings left) (pending_token_uri_postings right);
  image ← merge_pending (pending_image_uri_postings left) (pending_image_uri_postings right);
  Ok (with_pending token image).

Definition build_partition (uris : UriFeatureStore) (seed_filter : list Z) (shard_count lane lane_count : nat) (shape : Reduction) :
    fallible UriIndex :=
  let start := lane_start (length (features uris)) lane lane_count in
  part ← expect (slice (features uris) start (lane_start (length (features uris)) (lane + 1) lane_count));
  fold_shape (with_shards shard_count) (index_chunk seed_filter shard_count start) merge_index shape
    (imap pair (chunks URI_CHUNK part)).

(** The sorted postings of one URI in one shard. *)
Definition flatten_entry (shard : nat) (acc : list nat * Directory) (entry : nat * list nat) : list nat * Directory :=
  let postings := sort_unstable_by Nat.compare entry.2 in
  let flat := acc.1 ++ postings in
  (flat,
   <[entry.1 := default [] (acc.2 !! entry.1) ++
      [{| ref_uri := entry.1; ref_shard := shard; ref_start := length acc.1; ref_end := length flat |}]]> acc.2).

Definition flatten_shard (acc : list nat * Directory) (entry : nat * gmap nat (list nat)) : list nat * Directory :=
  foldl (flatten_entry entry.1) acc (sort_unstable_by by_number (traverse entry.2)).

Definition flatten_postings (shards : Pending) : list nat * Directory := foldl flatten_shard ([], ∅) (imap pair shards).

Definition finalize (index : UriIndex) : UriIndex :=
  let token := flatten_postings (pending_token_uri_postings index) in
  let image := flatten_postings (pending_image_uri_postings index) in
  {| token_uri_postings := token.1; image_uri_postings := image.1; token_uri_directory := token.2;
     image_uri_directory := image.2; pending_token_uri_postings := []; pending_image_uri_postings := [] |}.

Definition token_posting_refs (index : UriIndex) (uri : nat) : list UriPostingRef := default [] (token_uri_directory index !! uri).
Definition image_posting_refs (index : UriIndex) (uri : nat) : list UriPostingRef := default [] (image_uri_directory index !! uri).

Definition token_postings (index : UriIndex) (posting : UriPostingRef) : option (list nat) :=
  slice (token_uri_postings index) (ref_start posting) (ref_end posting).
Definition image_postings (index : UriIndex) (posting : UriPostingRef) : option (list nat) :=
  slice (image_uri_postings index) (ref_start posting) (ref_end posting).

(** [pop] the part of the last lane and merge the others into it. *)
Definition merge_parts (parts : list UriIndex) : fallible UriIndex :=
  final ← expect (last parts);
  loop merge_index final (take (length parts - 1) parts).
End Index.

(** ** The queries of the seeds *)

Record SeedRawQuery := {
  raw_seed_id : Z;
  raw_contract_id : nat;
  raw_name_value : option nat;
  token_uri_values : list nat;
  image_uri_values : list nat;
  token_uri_evidence : list (nat * NftKey);
  image_uri_evidence : list (nat * NftKey);
  raw_metadata_profile : option nat;
  metadata_documents : list nat;
}.

Record SeedRawPlan := { plan_seeds : list SeedRawQuery; missing_seed_ids : gset Z }.

(** The URIs that were seen, and the first NFT with each. *)
Abbreviation UriScan := (list nat * gmap nat NftKey)%type.

Section Plan.
Context {Time : Type} `{MapOrder} `{UnstableSort}.

(** [expect]: the key of an NFT of a seed. *)
Definition retained_key (s : ResidentBaseStore) (nft : nat) : fallible NftKey := expect (mjoin (nft_key s nft)).

Definition scan_uri (s : ResidentBaseStore) (nft : nat) (scan : UriScan) (uri : option nat) : fallible UriScan :=
  match uri with
  | None => Ok scan
  | Some uri =>
      match scan.2 !! uri with
      | Some _ => Ok (scan.1 ++ [uri], scan.2)
      | None => key ← retained_key s (as_u32 nft); Ok (scan.1 ++ [uri], <[uri := key]> scan.2)
      end
  end.

Definition scan_nft (s : ResidentBaseStore) (uris : UriFeatureStore) (acc : UriScan * UriScan) (nft : nat) :
    fallible (UriScan * UriScan) :=
  feature ← expect (features uris !! nft);
  token ← scan_uri s nft acc.1 (token_uri feature);
  image ← scan_uri s nft acc.2 (image_uri feature);
  Ok (token, image).

(** [into_iter().collect()] and [sort_unstable_by_key]. *)
Definition sorted_evidence (evidence : gmap nat NftKey) : list (nat * NftKey) := sort_unstable_by by_number (traverse evidence).

(** [sort_unstable] and [dedup] of numbers. *)
Definition sorted_values (values : list nat) : list nat :=
  dedup_by (λ a b, bool_decide (a = b)) (sort_unstable_by Nat.compare values).

Definition plan_seed (s : ResidentBaseStore) (identities : UriNftIdentityStore) (uris : UriFeatureStore)
    (names : NameFeatureStore) (metadata : MetadataFeatureStore) (definition : SeedDefinition Time) (contract : nat) :
    fallible SeedRawQuery :=
  nft_start ← expect (contract_offsets identities !! contract);
  nft_end ← expect (contract_offsets identities !! (contract + 1));
  '(token, image) ← loop (scan_nft s uris) (([], ∅), ([], ∅)) (seq nft_start (nft_end - nft_start));
  profile ← expect (contract_profiles metadata !! contract);
  documents ← match profile with
              | None => Ok []
              | Some profile => anchors ← expect (profile_anchors metadata profile); Ok (map anchor_metadata_id anchors)
              end;
  name ← expect (contract_names names !! contract);
  Ok {| raw_seed_id := seed_id definition; raw_contract_id := contract; raw_name_value := name;
        token_uri_values := sorted_values token.1; image_uri_values := sorted_values image.1;
        token_uri_evidence := sorted_evidence token.2; image_uri_evidence := sorted_evidence image.2;
        raw_metadata_profile := profile; metadata_documents := documents |}.

Definition plan_definition (s : ResidentBaseStore) (identities : UriNftIdentityStore) (uris : UriFeatureStore)
    (names : NameFeatureStore) (metadata : MetadataFeatureStore) (plan : SeedRawPlan) (definition : SeedDefinition Time) :
    fallible SeedRawPlan :=
  found ← expect (catalog_find (contracts s) (seed_key definition));
  match found with
  | None => Ok {| plan_seeds := plan_seeds plan; missing_seed_ids := {[seed_id definition]} ∪ missing_seed_ids plan |}
  | Some contract =>
      query ← plan_seed s identities uris names metadata definition (Z.to_nat contract);
      Ok {| plan_seeds := plan_seeds plan ++ [query]; missing_seed_ids := missing_seed_ids plan |}
  end.

Definition build_raw_plan (s : ResidentBaseStore) (manifest : SeedManifest Time) : fallible SeedRawPlan :=
  identities ← ok_or StateError (uri_identity s);
  uris ← ok_or StateError (uri_features s);
  names ← ok_or StateError (name_features s);
  metadata ← ok_or StateError (metadata_features s);
  loop (plan_definition s identities uris names metadata) {| plan_seeds := []; missing_seed_ids := ∅ |} (manifest_seeds manifest).
End Plan.

(** ** Prepared queries *)

Record PreparedUriPosting := { prepared_ref : UriPostingRef; prepared_seed_nft : NftKey }.

Record PreparedUriShardQuery := {
  prepared_shard : nat;
  prepared_token : list PreparedUriPosting;
  prepared_image : list PreparedUriPosting;
}.

Definition seed_uri_evidence (values : list (nat * NftKey)) (uri : nat) : fallible NftKey :=
  found ← expect (binary_search_by (λ value, Nat.compare value.1 uri) values);
  match found with
  | inl index => value ← expect (values !! index); Ok value.2
  | inr _ => Panic
  end.

(** The postings of a URI go to the queries of their shards. *)
Definition add_probe (seed_nft : NftKey) (by_shard : list (list PreparedUriPosting)) (posting : UriPostingRef) :
    fallible (list (list PreparedUriPosting)) :=
  old ← expect (by_shard !! ref_shard posting);
  Ok (<[ref_shard posting := old ++ [{| prepared_ref := posting; prepared_seed_nft := seed_nft |}]]> by_shard).

Definition add_probes (evidence : list (nat * NftKey)) (refs : nat → list UriPostingRef)
    (by_shard : list (list PreparedUriPosting)) (uri : nat) : fallible (list (list PreparedUriPosting)) :=
  seed_nft ← seed_uri_evidence evidence uri;
  loop (add_probe seed_nft) by_shard (refs uri).

Definition shard_query (entry : nat * (list PreparedUriPosting * list PreparedUriPosting)) : option PreparedUriShardQuery :=
  if bool_decide (entry.2.1 = []) && bool_decide (entry.2.2 = []) then None
  else Some {| prepared_shard := entry.1; prepared_token := entry.2.1; prepared_image := entry.2.2 |}.

Definition build_prepared_query (index : UriIndex) (shard_count : nat) (seed : SeedRawQuery) : fallible (list PreparedUriShardQuery) :=
  token ← loop (add_probes (token_uri_evidence seed) (token_posting_refs index)) (replicate shard_count []) (token_uri_values seed);
  image ← loop (add_probes (image_uri_evidence seed) (image_posting_refs index)) (replicate shard_count []) (image_uri_values seed);
  Ok (omap shard_query (imap pair (zip token image))).

Definition build_prepared_plan (plan : SeedRawPlan) (index : UriIndex) (shard_count : nat) : fallible (list (list PreparedUriShardQuery)) :=
  try_map (build_prepared_query index shard_count) (plan_seeds plan).

(** [prepare_shard_postings]: the probes of one shard, without a plan. *)
Definition shard_probes (evidence : list (nat * NftKey)) (refs : nat → list UriPostingRef) (values : list nat) (shard : nat) :
    fallible (list PreparedUriPosting) :=
  try_map (λ posting, seed_nft ← seed_uri_evidence evidence (ref_uri posting);
                      Ok {| prepared_ref := posting; prepared_seed_nft := seed_nft |})
    (filter (λ posting, ref_shard posting = shard) (mjoin (refs <$> values))).

Definition prepare_shard_postings (index : UriIndex) (seed : SeedRawQuery) (shard : nat) :
    fallible (list PreparedUriPosting * list PreparedUriPosting) :=
  token ← shard_probes (token_uri_evidence seed) (token_posting_refs index) (token_uri_values seed) shard;
  image ← shard_probes (image_uri_evidence seed) (image_posting_refs index) (image_uri_values seed) shard;
  Ok (token, image).

(** ** The hits of a seed *)

Section Query.
Context {F : Type} `{EqDecision F} `{FloatOrder F} `{UnstableSort}.

Definition uri_hit (s : ResidentBaseStore) (seed : SeedRawQuery) (candidate_nft : nat) (seed_key : NftKey) (uri : str)
    (dimension : Dimension) : fallible (DedupHit F) :=
  candidate_key ← retained_key s candidate_nft;
  identities ← expect (uri_identity s);
  identity ← expect (nfts identities !! candidate_nft);
  Ok {| hit_seed_id := raw_seed_id seed; seed_contract := Z.of_nat (raw_contract_id seed);
        candidate_contract := Z.of_nat (contract_id identity); hit_dimension := dimension;
        hit_selection := Explicit [candidate_key]; hit_evidence := MatchUri dimension uri seed_key candidate_key |}.

(** The NFTs that were seen with a token URI, and the hits so far. *)
Abbreviation Visit := (gset nat * list (DedupHit F))%type.

Definition token_candidate (s : ResidentBaseStore) (identities : UriNftIdentityStore) (seed : SeedRawQuery)
    (seed_nft : NftKey) (uri_text : str) (visit : Visit) (candidate_nft : nat) : fallible Visit :=
  identity ← expect (nfts identities !! candidate_nft);
  if decide (contract_id identity = raw_contract_id seed) then Ok visit
  else hit ← uri_hit s seed candidate_nft seed_nft uri_text TokenUriDimension;
       Ok ({[candidate_nft]} ∪ visit.1, visit.2 ++ [hit]).

Definition image_candidate (s : ResidentBaseStore) (identities : UriNftIdentityStore) (seed : SeedRawQuery)
    (seed_nft : NftKey) (uri_text : str) (visit : Visit) (candidate_nft : nat) : fallible Visit :=
  if decide (candidate_nft ∈ visit.1) then Ok visit else
  identity ← expect (nfts identities !! candidate_nft);
  if decide (contract_id identity = raw_contract_id seed) then Ok visit
  else hit ← uri_hit s seed candidate_nft seed_nft uri_text ImageUriDimension;
       Ok (visit.1, visit.2 ++ [hit]).

Definition visit_token (s : ResidentBaseStore) (identities : UriNftIdentityStore) (uris : UriFeatureStore)
    (index : UriIndex) (seed : SeedRawQuery) (visit : Visit) (probe : PreparedUriPosting) : fallible Visit :=
  postings ← expect (token_postings index (prepared_ref probe));
  uri_text ← expect (frozen_get (uri_values uris) (ref_uri (prepared_ref probe)));
  loop (token_candidate s identities seed (prepared_seed_nft probe) uri_text) visit postings.

Definition visit_image (s : ResidentBaseStore) (identities : UriNftIdentityStore) (uris : UriFeatureStore)
    (index : UriIndex) (seed : SeedRawQuery) (visit : Visit) (probe : PreparedUriPosting) : fallible Visit :=
  postings ← expect (image_postings index (prepared_ref probe));
  uri_text ← expect (frozen_get (uri_values uris) (ref_uri (prepared_ref probe)));
  loop (image_candidate s identities seed (prepared_seed_nft probe) uri_text) visit postings.

Definition visit_uri_shard (s : ResidentBaseStore) (identities : UriNftIdentityStore) (uris : UriFeatureStore)
    (index : UriIndex) (seed : SeedRawQuery) (token_probes image_probes : list PreparedUriPosting) : fallible (list (DedupHit F)) :=
  visit ← loop (visit_token s identities uris index seed) (∅, []) token_probes;
  visit ← loop (visit_image s identities uris index seed) visit image_probes;
  Ok visit.2.

Definition query_uri_shard (s : ResidentBaseStore) (identities : UriNftIdentityStore) (uris : UriFeatureStore)
    (index : UriIndex) (seed : SeedRawQuery) (shard : nat) : fallible (list (DedupHit F)) :=
  '(token, image) ← prepare_shard_postings index seed shard;
  visit_uri_shard s identities uris index seed token image.

(** The hits are pushed as they are found; a panic loses the accumulator. *)
Definition query_uri_shard_into (s : ResidentBaseStore) (identities : UriNftIdentityStore) (uris : UriFeatureStore)
    (index : UriIndex) (seed : SeedRawQuery) (shard : nat) (output : RelationAccumulator (F:=F)) : fallible (RelationAccumulator (F:=F)) :=
  hits ← query_uri_shard s identities uris index seed shard;
  expect (extend_hits output hits).

Definition query_uri_shard_with_plan_into (s : ResidentBaseStore) (identities : UriNftIdentityStore) (uris : UriFeatureStore)
    (index : UriIndex) (seed : SeedRawQuery) (prepared : PreparedUriShardQuery) (output : RelationAccumulator (F:=F)) :
    fallible (RelationAccumulator (F:=F)) :=
  hits ← visit_uri_shard s identities uris index seed (prepared_token prepared) (prepared_image prepared);
  expect (extend_hits output hits).
End Query.

(** ** The stage *)

(** How the work is shared out: lanes, and the shapes of their folds. *)
Record StageSchedule := {
  stage_lanes : nat;
  index_shapes : nat → Reduction;
  query_shapes : nat → Reduction;
  tail_shapes : nat → Reduction;
}.

Section Stage.
Context {F : Type} `{EqDecision F} `{FloatOrder F} `{UnstableSort} `{MapOrder}.
Context (iterate : gmap (Z * Z) (SeedCandidateRelation F) → list (SeedCandidateRelation F)) (sched : StageSchedule) (index_shards : nat).

Definition build_uri_index (uris : UriFeatureStore) (plan : SeedRawPlan) : fallible UriIndex :=
  let token_uris := mjoin (token_uri_values <$> plan_seeds plan) in
  let image_uris := mjoin (image_uri_values <$> plan_seeds plan) in
  seed_filter ← new_filter (frozen_len (uri_values uris)) token_uris image_uris;
  parts ← try_map (λ lane, build_partition uris seed_filter index_shards lane (stage_lanes sched) (index_shapes sched lane))
            (seq 0 (stage_lanes sched));
  index ← merge_parts parts;
  Ok (finalize index).

(** The work: a seed and one of its prepared queries. *)
Definition uri_work (queries : list (list PreparedUriShardQuery)) : list (nat * nat) :=
  mjoin (imap (λ seed query, pair seed <$> seq 0 (length query)) queries).

Definition work_query (queries : list (list PreparedUriShardQuery)) (work : nat * nat) : option PreparedUriShardQuery :=
  query ← queries !! work.1;
  query !! work.2.

Definition run_work (s : ResidentBaseStore) (identities : UriNftIdentityStore) (uris : UriFeatureStore) (index : UriIndex)
    (plan : SeedRawPlan) (queries : list (list PreparedUriShardQuery)) (output : RelationAccumulator (F:=F)) (work : nat * nat) :
    fallible (RelationAccumulator (F:=F)) :=
  seed ← expect (plan_seeds plan !! work.1);
  prepared ← expect (work_query queries work);
  query_uri_shard_with_plan_into s identities uris index seed prepared output.

(** The shard of a work belongs to a lane. *)
Definition lane_work (queries : list (list PreparedUriShardQuery)) (lane : nat) (work : nat * nat) : Prop :=
  (λ prepared, prepared_shard prepared mod stage_lanes sched) <$> work_query queries work = Some lane.

#[export] Instance lane_work_dec queries lane work : Decision (lane_work queries lane work).
Proof. unfold lane_work. apply _. Defined.

(** All lanes work through some of the work; rayon filters within the segments of a fold. *)
Definition run_pass (s : ResidentBaseStore) (identities : UriNftIdentityStore) (uris : UriFeatureStore) (index : UriIndex)
    (plan : SeedRawPlan) (queries : list (list PreparedUriShardQuery)) (shapes : nat → Reduction) (works : list (nat * nat)) :
    fallible (RelationAccumulator (F:=F)) :=
  parts ← try_map (λ lane,
    fold_shape (new_accumulator (contracts s)) (run_work s identities uris index plan queries)
      (λ l r, Ok (merge iterate l r)) (shapes lane) (filter (lane_work queries lane) works)) (seq 0 (stage_lanes sched));
  Ok (match parts with
      | [] => new_accumulator (contracts s)
      | first :: rest => foldl (merge iterate) first rest
      end).

(** [uri_work.len().saturating_mul(7) / 8] *)
Definition tail_start (next_dimension_overlap : bool) (work : nat) : nat :=
  if next_dimension_overlap then Z.to_nat (Z.min (Z.of_nat work * 7) (2 ^ 64 - 1) / 8) else work.

(** The tail overlaps the index of names. *)
Definition uri_stage {Time : Type} (s : ResidentBaseStore) (manifest : SeedManifest Time) (next_dimension_overlap : bool) :
    fallible (list (SeedCandidateRelation F)) :=
  plan ← build_raw_plan s manifest;
  if decide (plan_seeds plan = []) then Ok [] else
  identities ← ok_or StateError (uri_identity s);
  uris ← ok_or StateError (uri_features s);
  index ← build_uri_index uris plan;
  queries ← build_prepared_plan plan index index_shards;
  let works := uri_work queries in
  let start := tail_start next_dimension_overlap (length works) in
  relations ← run_pass s identities uris index plan queries (query_shapes sched) (take start works);
  relations ← (if decide (start < length works) then
                 tail ← run_pass s identities uris index plan queries (tail_shapes sched) (drop start works);
                 Ok (merge iterate relations tail)
               else Ok relations);
  Ok (Reducer.finish iterate relations).
End Stage.
