(* ===== verification/UriIndexFacts.v ===== *)
(** Proofs about the index of [UriQuery]: the filter knows the URIs of the seeds, and the
    finished index has, for every URI and shard, the NFTs with that URI, whatever the lanes,
    the folds and the order of hash maps. *)

From S2P Require Import Prelude Text CanonicalJson Anchors SortedLists UriChunks Events Evidence.
From S2P Require Import Relations Reducer ValuePools Fallible Seeds AnalysisJson Builder.
From S2P Require Import Resident UriQuery.

(** ** Folds *)

(** What holds of the fold of every segment and is kept by joining holds of the result. *)
Lemma fold_shape_spec {A W} (new : W) (step : W → A → fallible W) join (P : list A → W → Prop) shape l :
  P [] new →
  (∀ done x w, x ∈ l → P done w → ∃ w', step w x = Ok w' ∧ P (done ++ [x]) w') →
  (∀ l1 l2 w1 w2, P l1 w1 → P l2 w2 → ∃ w, join w1 w2 = Ok w ∧ P (l1 ++ l2) w) →
  ∃ w, fold_shape new step join shape l = Ok w ∧ P l w.
Proof.
  intros H0 Hstep Hjoin. revert l Hstep. induction shape as [|n s1 IH1 s2 IH2]; intros l Hstep; cbn [fold_shape].
  - by apply loop_invariant.
  - destruct (IH1 (take n l)) as (w1 & -> & H1).
    { intros d x w Hx. apply Hstep. by eapply subseteq_take in Hx. }
    destruct (IH2 (drop n l)) as (w2 & -> & H2).
    { intros d x w Hx. apply Hstep. apply list_elem_of_lookup in Hx as [i Hx]. rewrite lookup_drop in Hx. by eapply list_elem_of_lookup_2. }
    cbn [mbind fallible_bind]. destruct (Hjoin _ _ _ _ H1 H2) as (w & -> & Hw). exists w. by rewrite take_drop in Hw.
Qed.

(** ** The filter *)

Definition flag_at (b : Z) (flags : list Z) (uri : nat) : bool :=
  match flags !! (uri / 4) with Some byte => Z.testbit byte (flag_shift uri + b) | None => false end.

Lemma flag_shift_nonneg uri : (0 ≤ flag_shift uri)%Z.
Proof. unfold flag_shift. lia. Qed.

Lemma shift_flag b n : (0 ≤ b)%Z → (0 ≤ n)%Z → Z.shiftl (2 ^ b) n = Z.shiftl 1 (n + b).
Proof. intros Hb Hn. rewrite !Z.shiftl_mul_pow2, Z.pow_add_r by lia. lia. Qed.

Lemma contains_flag_at b flags uri : (0 ≤ b)%Z → contains_flag (2 ^ b) flags uri = flag_at b flags uri.
Proof.
  intros Hb. unfold contains_flag, flag_at. pose proof (flag_shift_nonneg uri). destruct (flags !! _); [|done].
  rewrite shift_flag by lia. apply land_bit. lia.
Qed.

Lemma flag_positions u u' b b' : (0 ≤ b < 2)%Z → (0 ≤ b' < 2)%Z → u / 4 = u' / 4 →
  (flag_shift u + b = flag_shift u' + b')%Z ↔ u = u' ∧ b = b'.
Proof.
  unfold flag_shift. intros Hb Hb' Hd. pose proof (Nat.div_mod_eq u 4). pose proof (Nat.div_mod_eq u' 4).
  split; [|intros [-> ->]; done]. intros He. assert (u mod 4 = u' mod 4) by lia. lia.
Qed.

Lemma set_flag_spec b flags uri : (0 ≤ b < 2)%Z → uri / 4 < length flags →
  ∃ flags', set_flag (2 ^ b) flags uri = Ok flags' ∧ length flags' = length flags ∧
    ∀ b' u, (0 ≤ b' < 2)%Z → flag_at b' flags' u = flag_at b' flags u || bool_decide (u = uri ∧ b' = b).
Proof.
  intros Hb Hlt. unfold set_flag. destruct (lookup_lt_is_Some_2 _ _ Hlt) as [byte Hbyte]. rewrite Hbyte. cbn [expect mbind fallible_bind].
  eexists. split; [done|]. split; [apply length_insert|]. intros b' u Hb'. unfold flag_at.
  pose proof (flag_shift_nonneg uri). pose proof (flag_shift_nonneg u).
  destruct (decide (u / 4 = uri / 4)) as [He|Hne].
  - rewrite He, list_lookup_insert_eq, Hbyte by done. rewrite Z.lor_spec. f_equal.
    rewrite shift_flag, Z.shiftl_1_l, Z.pow2_bits_eqb by lia.
    apply eq_true_iff_eq. rewrite Z.eqb_eq, bool_decide_eq_true. rewrite (flag_positions uri u b b') by (done || lia). naive_solver.
  - rewrite list_lookup_insert_ne by done. rewrite bool_decide_false, orb_false_r; [done|]. by intros [-> _].
Qed.

Lemma set_flags_spec b flags uris : (0 ≤ b < 2)%Z → (∀ u, u ∈ uris → u / 4 < length flags) →
  ∃ flags', loop (set_flag (2 ^ b)) flags uris = Ok flags' ∧ length flags' = length flags ∧
    ∀ b' u, (0 ≤ b' < 2)%Z → flag_at b' flags' u = flag_at b' flags u || bool_decide (u ∈ uris ∧ b' = b).
Proof.
  intros Hb Hin.
  destruct (loop_invariant (λ done flags', length flags' = length flags ∧
    ∀ b' u, (0 ≤ b' < 2)%Z → flag_at b' flags' u = flag_at b' flags u || bool_decide (u ∈ done ∧ b' = b))
    (set_flag (2 ^ b)) flags uris) as (flags' & -> & Hl & Hf).
  - split; [done|]. intros b' u _. rewrite bool_decide_false, orb_false_r; [done|]. by intros [?%elem_of_nil _].
  - intros d u f Hu [Hl Hf]. destruct (set_flag_spec b f u Hb) as (f' & -> & Hl' & Hf'); [rewrite Hl; auto|].
    eexists. split; [done|]. split; [congruence|]. intros b' u' Hb'. rewrite Hf', Hf, <- orb_assoc by done. f_equal.
    apply eq_true_iff_eq. rewrite orb_true_iff, !bool_decide_eq_true, elem_of_app, list_elem_of_singleton. tauto.
  - eauto.
Qed.

Lemma seed_extent_elem uris u : u ∈ uris → u < seed_extent uris.
Proof.
  unfold seed_extent. induction uris as [|x uris IH]; [by intros ?%elem_of_nil|]. cbn.
  intros [->|Hu]%elem_of_cons; [lia|]. specialize (IH Hu). lia.
Qed.

(** The filter contains the URIs of the seeds, token and image URIs apart. *)
Lemma new_filter_spec count tokens images :
  ∃ flags, new_filter count tokens images = Ok flags ∧
    (∀ u, contains_token flags u = bool_decide (u ∈ tokens)) ∧ (∀ u, contains_image flags u = bool_decide (u ∈ images)).
Proof.
  unfold new_filter. set (size := div_ceil _ 4). set (zeros := replicate size 0%Z).
  assert (Hsize : ∀ u, u ∈ tokens ++ images → u / 4 < size).
  { intros u Hu%seed_extent_elem. destruct (div_ceil_spec (Nat.max count (seed_extent (tokens ++ images))) 4 ltac:(lia)) as [Hd _].
    fold size in Hd. apply Nat.Div0.div_lt_upper_bound. lia. }
  destruct (set_flags_spec 0 zeros tokens) as (f1 & H1 & L1 & F1); [lia| |].
  { intros u Hu. unfold zeros. rewrite length_replicate. apply Hsize, elem_of_app. by left. }
  destruct (set_flags_spec 1 f1 images) as (f2 & H2 & L2 & F2); [lia| |].
  { intros u Hu. rewrite L1. unfold zeros. rewrite length_replicate. apply Hsize, elem_of_app. by right. }
  change (2 ^ 0)%Z with 1%Z in H1. change (2 ^ 1)%Z with 2%Z in H2. rewrite H1. cbn [mbind fallible_bind]. exists f2. split; [done|].
  assert (Hz : ∀ b u, flag_at b zeros u = false).
  { intros b u. unfold flag_at. destruct (zeros !! _) as [byte|] eqn:E; [|done]. apply lookup_replicate in E as [-> _]. apply Z.bits_0. }
  split; intros u.
  - unfold contains_token. change 1%Z with (2 ^ 0)%Z. rewrite contains_flag_at, F2, F1, Hz by lia. cbn [orb].
    apply eq_true_iff_eq. rewrite orb_true_iff, !bool_decide_eq_true. naive_solver lia.
  - unfold contains_image. change 2%Z with (2 ^ 1)%Z. rewrite contains_flag_at, F2, F1, Hz by lia. cbn [orb].
    apply eq_true_iff_eq. rewrite orb_true_iff, !bool_decide_eq_true. naive_solver lia.
Qed.

(** ** Pending postings *)

Section Index.
Context `{MapOrder} `{UnstableSort}.

Lemma elem_of_traverse {A} (m : gmap nat A) k x : (k, x) ∈ traverse m ↔ m !! k = Some x.
Proof using Type. by rewrite (traverse_perm m), elem_of_map_to_list. Qed.

(** An NFT is posted under a URI in a shard. *)
Definition posted (p : Pending) (shard uri nft : nat) : Prop :=
  ∃ m ps, p !! shard = Some m ∧ m !! uri = Some ps ∧ nft ∈ ps.

Lemma post_spec p shard uri nft : shard < length p →
  ∃ p', post p shard uri nft = Ok p' ∧ length p' = length p ∧
    ∀ sh u n, posted p' sh u n ↔ posted p sh u n ∨ (sh = shard ∧ u = uri ∧ n = nft).
Proof using Type.
  intros Hlt. unfold post. destruct (lookup_lt_is_Some_2 _ _ Hlt) as [m Hm]. rewrite Hm. cbn [expect mbind fallible_bind].
  eexists. split; [done|]. split; [apply length_insert|]. intros sh u n. unfold posted.
  destruct (decide (sh = shard)) as [->|Hne].
  - rewrite list_lookup_insert_eq by done. destruct (decide (u = uri)) as [->|Hu].
    + split.
      * intros (m' & ps & [= <-] & Hps & Hn). rewrite lookup_insert_eq in Hps. injection Hps as <-.
        apply elem_of_app in Hn as [Hn|Hn%list_elem_of_singleton]; [|by right]. left. exists m.
        destruct (m !! uri) as [ps|] eqn:E; [by exists ps|]. by apply elem_of_nil in Hn.
      * intros Hp. eexists _, _. split; [done|]. rewrite lookup_insert_eq. split; [done|]. rewrite elem_of_app, list_elem_of_singleton.
        destruct Hp as [(m' & ps & Hm' & Hps & Hn)|(_ & _ & ->)]; [|by right]. left. rewrite Hm in Hm'. injection Hm' as <-. by rewrite Hps.
    + split.
      * intros (m' & ps & [= <-] & Hps & Hn). rewrite lookup_insert_ne in Hps by congruence. left. by exists m, ps.
      * intros [(m' & ps & Hm' & Hps & Hn)|(_ & ? & _)]; [|done]. rewrite Hm in Hm'. injection Hm' as <-.
        eexists _, ps. split; [done|]. by rewrite lookup_insert_ne by congruence.
  - rewrite list_lookup_insert_ne by congruence. naive_solver.
Qed.

(** One column of the features: the NFTs with a wanted URI, in their shards. *)
Record column (proj : UriFeatureRecord → option nat) (wanted : nat → bool) (shard_count : nat)
    (l : list (nat * UriFeatureRecord)) (p : Pending) : Prop := {
  column_length : length p = shard_count;
  column_posted sh u n : posted p sh u n ↔
    ∃ i f, (i, f) ∈ l ∧ n = as_u32 i ∧ proj f = Some u ∧ wanted u = true ∧ sh = shard_of shard_count n;
}.

Lemma land_le a b : (0 ≤ b)%Z → (0 ≤ Z.land a b ≤ b)%Z.
Proof using Type.
  intros Hb. split; [apply Z.land_nonneg; by right|].
  assert (Hd : Z.ldiff (Z.land a b) b = 0%Z).
  { apply Z.bits_inj'. intros i Hi. rewrite Z.ldiff_spec, Z.land_spec, Z.bits_0. by destruct (Z.testbit a i), (Z.testbit b i). }
  pose proof (Z.sub_nocarry_ldiff _ _ Hd) as Hs. assert (0 ≤ Z.ldiff b (Z.land a b))%Z by (apply Z.ldiff_nonneg; by left). lia.
Qed.

Lemma shard_of_lt shard_count n : 0 < shard_count → shard_of shard_count n < shard_count.
Proof using Type.
  intros Hs. unfold shard_of, owner_shard. pose proof (land_le (stable_mix (Z.of_nat n)) (Z.of_nat shard_count - 1)). lia.
Qed.

Lemma column_new proj wanted shard_count : column proj wanted shard_count [] (replicate shard_count ∅).
Proof using Type.
  split; [apply length_replicate|]. intros sh u n. split.
  - intros (m & ps & [-> _]%lookup_replicate & Hps & _). by rewrite lookup_empty in Hps.
  - by intros (i & f & ?%elem_of_nil & _).
Qed.

Lemma column_step proj wanted shard_count l p i f : 0 < shard_count → column proj wanted shard_count l p →
  ∃ p', index_uri wanted p (shard_of shard_count (as_u32 i)) (as_u32 i) (proj f) = Ok p' ∧
    column proj wanted shard_count (l ++ [(i, f)]) p'.
Proof using Type.
  intros Hs [Hl Hp]. unfold index_uri.
  assert (Hskip : (∀ u, proj f = Some u → wanted u = true → False) → column proj wanted shard_count (l ++ [(i, f)]) p).
  { intros Hno. split; [done|]. intros sh u n. rewrite Hp. setoid_rewrite elem_of_app. setoid_rewrite list_elem_of_singleton. split.
    - intros (i' & f' & ? & ?). exists i', f'. tauto.
    - intros (i' & f' & [?|[= -> ->]] & -> & Hu & Hw & ->); [by exists i', f'|]. by destruct (Hno u). }
  destruct (proj f) as [u|] eqn:Ef; [|exists p; split; [done|by apply Hskip]].
  destruct (wanted u) eqn:Ew; [|exists p; split; [done|apply Hskip; intros u' [= <-]; congruence]].
  destruct (post_spec p (shard_of shard_count (as_u32 i)) u (as_u32 i)) as (p' & -> & Hl' & Hp'); [rewrite Hl; by apply shard_of_lt|].
  exists p'. split; [done|]. split; [congruence|]. intros sh u' n. rewrite Hp', Hp. setoid_rewrite elem_of_app.
  setoid_rewrite list_elem_of_singleton. split.
  - intros [(i' & f' & ? & ?)|(-> & -> & ->)]; [exists i', f'; tauto|]. exists i, f. tauto.
  - intros (i' & f' & [?|[= -> ->]] & -> & Hu & Hw & ->); [left; by exists i', f'|]. right. split_and!; congruence.
Qed.

Lemma append_all_spec (m : gmap nat (list nat)) (es : list (nat * list nat)) u n :
  (∃ ps, foldl append_postings m es !! u = Some ps ∧ n ∈ ps) ↔
  (∃ ps, m !! u = Some ps ∧ n ∈ ps) ∨ ∃ ps, (u, ps) ∈ es ∧ n ∈ ps.
Proof using Type.
  revert m. induction es as [|[u' ps'] es IH]; intros m; cbn [foldl].
  - split; [by left|]. intros [?|(ps & ?%elem_of_nil & _)]; done.
  - rewrite IH. unfold append_postings at 1. cbn [fst snd]. setoid_rewrite elem_of_cons.
    destruct (decide (u = u')) as [->|Hu].
    + setoid_rewrite lookup_insert_eq. split.
      * intros [(ps & [= <-] & Hn)|(ps & ? & ?)]; [|right; exists ps; tauto]. apply elem_of_app in Hn as [Hn|Hn].
        -- left. destruct (m !! u') as [ps|]; [by exists ps|]. by apply elem_of_nil in Hn.
        -- right. exists ps'. tauto.
      * intros [(ps & Hm & Hn)|(ps & [[= <-]|Hin] & Hn)].
        -- left. eexists. split; [done|]. rewrite Hm. apply elem_of_app. by left.
        -- left. eexists. split; [done|]. apply elem_of_app. by right.
        -- right. by exists ps.
    + setoid_rewrite lookup_insert_ne; [|congruence]. split; [intros [?|(ps & ? & ?)]; [by left|right; exists ps; tauto]|].
      intros [?|(ps & [[= -> _]|?] & ?)]; [by left|done|right; by exists ps].
Qed.

Lemma column_merge proj wanted shard_count l1 l2 p1 p2 :
  column proj wanted shard_count l1 p1 → column proj wanted shard_count l2 p2 →
  ∃ p, merge_pending p1 p2 = Ok p ∧ column proj wanted shard_count (l1 ++ l2) p.
Proof using Type.
  intros [L1 P1] [L2 P2]. unfold merge_pending.
  set (f := λ entry : nat * gmap nat (list nat), foldl append_postings entry.2 (traverse (default ∅ (p2 !! entry.1)))).
  rewrite (try_map_Ok _ f).
  - eexists. split; [done|]. split; [by rewrite length_fmap, length_imap|]. intros sh u n.
    assert (Hpost : posted (f <$> imap pair p1) sh u n ↔ posted p1 sh u n ∨ posted p2 sh u n).
    { unfold posted. rewrite list_lookup_fmap, list_lookup_imap. destruct (p1 !! sh) as [m1|] eqn:E1; cbn [fmap option_fmap option_map].
      - destruct (lookup_lt_is_Some_2 p2 sh) as [m2 E2]; [rewrite L2, <- L1; by eapply lookup_lt_Some|]. rewrite E2.
        pose proof (append_all_spec m1 (traverse m2) u n) as Ha. setoid_rewrite elem_of_traverse in Ha.
        unfold f. cbn [fst snd]. rewrite E2. cbn [default from_option id]. split.
        + intros (m & ps & [= <-] & Hps & Hn). destruct (proj1 Ha) as [(ps' & ? & ?)|(ps' & ? & ?)]; [by exists ps|left; by exists m1, ps'|right; by exists m2, ps'].
        + intros Hor. destruct (proj2 Ha) as (ps & Hps & Hn).
          * destruct Hor as [(m & ps & [= <-] & ? & ?)|(m & ps & [= <-] & ? & ?)]; [left|right]; by exists ps.
          * by eexists _, ps.
      - assert (p2 !! sh = None) as ->; [|naive_solver]. apply lookup_ge_None. apply lookup_ge_None in E1. lia. }
    rewrite Hpost, P1, P2. setoid_rewrite elem_of_app. naive_solver.
  - intros [sh m] Hin. apply elem_of_lookup_imap_1 in Hin as (i & m' & [= -> ->] & Hi). unfold merge_shard. cbn [fst snd].
    destruct (lookup_lt_is_Some_2 p2 i) as [m2 E2]; [rewrite L2, <- L1; by eapply lookup_lt_Some|]. unfold f. cbn [fst snd]. by rewrite E2.
Qed.

(** ** Partitions *)

(** The index of some features. *)
Record indexes (flags : list Z) (shard_count : nat) (l : list (nat * UriFeatureRecord)) (index : UriIndex) : Prop := {
  indexes_token : column token_uri (contains_token flags) shard_count l (pending_token_uri_postings index);
  indexes_image : column image_uri (contains_image flags) shard_count l (pending_image_uri_postings index);
}.

Lemma indexes_new flags shard_count : indexes flags shard_count [] (with_shards shard_count).
Proof using Type. split; apply column_new. Qed.

Lemma indexes_merge flags shard_count l1 l2 w1 w2 : indexes flags shard_count l1 w1 → indexes flags shard_count l2 w2 →
  ∃ w, merge_index w1 w2 = Ok w ∧ indexes flags shard_count (l1 ++ l2) w.
Proof using Type.
  intros [T1 I1] [T2 I2]. unfold merge_index. destruct (column_merge _ _ _ _ _ _ _ T1 T2) as (t & -> & Ht).
  destruct (column_merge _ _ _ _ _ _ _ I1 I2) as (i & -> & Hi). cbn [mbind fallible_bind]. eexists. split; [done|by split].
Qed.

Lemma indexes_features flags shard_count l l' w : 0 < shard_count → indexes flags shard_count l w →
  ∃ w', loop (index_feature flags shard_count) w l' = Ok w' ∧ indexes flags shard_count (l ++ l') w'.
Proof using Type.
  intros Hs Hw. apply (loop_invariant (λ d, indexes flags shard_count (l ++ d))).
  - by rewrite app_nil_r.
  - intros d [i f] w' _ [T I]. rewrite app_assoc. unfold index_feature. cbn [fst snd].
    destruct (column_step _ _ _ _ _ i f Hs T) as (t & -> & Ht). cbn [mbind fallible_bind].
    destruct (column_step _ _ _ _ _ i f Hs I) as (im & -> & Hi). cbn [mbind fallible_bind]. eexists. split; [done|by split].
Qed.

Lemma column_proper proj wanted shard_count l l' p : (∀ e, e ∈ l ↔ e ∈ l') → column proj wanted shard_count l p → column proj wanted shard_count l' p.
Proof using Type. intros Hl [L P]. split; [done|]. intros sh u n. rewrite P. by setoid_rewrite Hl. Qed.

Lemma indexes_proper flags shard_count l l' w : (∀ e, e ∈ l ↔ e ∈ l') → indexes flags shard_count l w → indexes flags shard_count l' w.
Proof using Type. intros Hl [T I]. split; by eapply column_proper. Qed.

(** The chunks number the features that they hold. *)
Lemma chunk_entries {A} fuel size (l : list A) base : 0 < size → length l ≤ fuel →
  mjoin (imap (λ c fs, imap (λ o f, (base + c * size + o, f)) fs) (chunks_fuel fuel size l)) = imap (λ o f, (base + o, f)) l.
Proof using Type.
  intros Hs. revert l base. induction fuel as [|fuel IH]; intros l base Hl; [destruct l; [done|cbn in Hl; lia]|].
  destruct l as [|x l']; [done|]. set (l := x :: l') in *. change (chunks_fuel (S fuel) size l) with (take size l :: chunks_fuel fuel size (drop size l)).
  cbn [imap]. rewrite mjoin_cons. rewrite <- (take_drop size l) at 3. rewrite imap_app. f_equal.
  - apply imap_ext. intros. f_equal. lia.
  - rewrite (imap_ext _ (λ c fs, imap (λ o f, (base + size + c * size + o, f)) fs)).
    2:{ intros c fs _. cbn. apply imap_ext. intros. f_equal. lia. }
    rewrite IH by (rewrite length_drop; unfold l in *; cbn [length] in *; lia).
    destruct (decide (size ≤ length l)) as [Hle|Hgt].
    + rewrite length_take, Nat.min_l by done. apply imap_ext. intros. f_equal. lia.
    + rewrite (drop_ge l) by lia. done.
Qed.

Section Lanes.
Context (uris : UriFeatureStore) (flags : list Z) (shard_count lane_count : nat).
Context (Hshards : 0 < shard_count) (Hlanes : 0 < lane_count).
Context (Hsize : (Z.of_nat (length (features uris)) * Z.of_nat lane_count < 2 ^ 64)%Z).

Abbreviation len := (length (features uris)).
Abbreviation start_of lane := (lane_start len lane lane_count).

(** The features with their numbers. *)
Definition entries : list (nat * UriFeatureRecord) := imap pair (features uris).

Lemma elem_of_entries i f : (i, f) ∈ entries ↔ features uris !! i = Some f.
Proof using Type.
  unfold entries. split.
  - intros (i' & f' & [= -> ->] & ?)%elem_of_lookup_imap_1. done.
  - intros Hi. apply elem_of_lookup_imap_2 with (f := pair) in Hi. done.
Qed.

Lemma start_of_le lane : lane ≤ lane_count → start_of lane = len * lane / lane_count.
Proof using Hsize Hlanes. clear Hshards.
  intros Hl. unfold lane_start. rewrite Z.min_l by nia. rewrite <- Nat2Z.inj_mul, <- Nat2Z.inj_div. apply Nat2Z.id.
Qed.

Lemma starts_step lane : lane < lane_count → start_of lane ≤ start_of (lane + 1) ≤ len.
Proof using Hsize Hlanes. clear Hshards.
  intros Hl. rewrite !start_of_le by lia. split; [apply Nat.Div0.div_le_mono; nia|].
  apply Nat.Div0.div_le_upper_bound. nia.
Qed.

(** Every feature lies in the range of a lane. *)
Lemma lane_of i : i < len → ∃ lane, lane < lane_count ∧ start_of lane ≤ i < start_of (lane + 1).
Proof using Hsize Hlanes. clear Hshards.
  intros Hi. assert (Hgen : ∀ k, k ≤ lane_count → i < start_of k → ∃ lane, lane < lane_count ∧ start_of lane ≤ i < start_of (lane + 1)).
  { induction k as [|k IH]; intros Hk Hik.
    - rewrite start_of_le, Nat.mul_0_r, Nat.Div0.div_0_l in Hik by lia. lia.
    - destruct (decide (i < start_of k)); [apply IH; [lia|done]|]. exists k. rewrite Nat.add_1_r. split; [lia|]. lia. }
  apply (Hgen lane_count); [done|]. rewrite start_of_le, Nat.div_mul by lia. done.
Qed.

Definition lane_entries (lane : nat) : list (nat * UriFeatureRecord) :=
  imap (λ o f, (start_of lane + o, f)) (take (start_of (lane + 1) - start_of lane) (drop (start_of lane) (features uris))).

Lemma elem_of_lane_entries lane i f : lane < lane_count →
  (i, f) ∈ lane_entries lane ↔ start_of lane ≤ i < start_of (lane + 1) ∧ features uris !! i = Some f.
Proof using Hsize Hlanes. clear Hshards.
  intros Hl. unfold lane_entries. split.
  - intros (o & f' & [= -> ->] & Ho)%elem_of_lookup_imap_1. apply lookup_take_Some in Ho as [Ho Hlt]. rewrite lookup_drop in Ho.
    split; [lia|done].
  - intros [Hi Hf]. apply elem_of_lookup_imap. exists (i - start_of lane), f. split; [f_equal; lia|].
    apply lookup_take_Some. split; [|lia]. rewrite lookup_drop. rewrite <- Hf. f_equal. lia.
Qed.

Lemma build_partition_spec lane shape : lane < lane_count →
  ∃ w, build_partition uris flags shard_count lane lane_count shape = Ok w ∧ indexes flags shard_count (lane_entries lane) w.
Proof using Hsize Hlanes Hshards.
  intros Hl. pose proof (starts_step lane Hl) as [Hle Hlen]. unfold build_partition. unfold slice. rewrite decide_True by lia.
  cbn [expect mbind fallible_bind]. set (part := take _ _).
  destruct (fold_shape_spec (with_shards shard_count) (index_chunk flags shard_count (start_of lane)) merge_index
    (λ d, indexes flags shard_count (mjoin ((λ chunk : nat * list UriFeatureRecord,
       imap (λ o f, (start_of lane + chunk.1 * URI_CHUNK + o, f)) chunk.2) <$> d))) shape (imap pair (chunks URI_CHUNK part)))
    as (w & Hw & Hi).
  - apply indexes_new.
  - intros d chunk w _ Hw. rewrite fmap_app, join_app. cbn [fmap list_fmap mjoin list_join]. rewrite app_nil_r. by apply indexes_features.
  - intros l1 l2 w1 w2 H1 H2. rewrite fmap_app, join_app. by apply indexes_merge.
  - exists w. split; [exact Hw|]. rewrite fmap_imap in Hi.
    rewrite (imap_ext _ (λ c fs, imap (λ o f, (start_of lane + c * URI_CHUNK + o, f)) fs)) in Hi by done.
    unfold chunks in Hi. rewrite chunk_entries in Hi; [exact Hi|unfold URI_CHUNK; lia|done].
Qed.

(** The parts of the lanes, put together, index all features. *)
Lemma build_parts_spec shapes :
  ∃ parts index, try_map (λ lane, build_partition uris flags shard_count lane lane_count (shapes lane)) (seq 0 lane_count) = Ok parts ∧
    merge_parts parts = Ok index ∧ indexes flags shard_count entries index.
Proof using Hsize Hlanes Hshards.
  assert (Hparts : ∃ parts, try_map (λ lane, build_partition uris flags shard_count lane lane_count (shapes lane)) (seq 0 lane_count) = Ok parts ∧
    Forall2 (λ lane w, indexes flags shard_count (lane_entries lane) w) (seq 0 lane_count) parts).
  { assert (Hall : ∀ lane, lane ∈ seq 0 lane_count → lane < lane_count) by (intros lane ?%elem_of_seq; lia). revert Hall.
    induction (seq 0 lane_count) as [|lane ls IH]; intros Hall; [exists []; split; [done|constructor]|]. cbn [try_map].
    destruct (build_partition_spec lane (shapes lane)) as (w & -> & Hw); [apply Hall; by left|].
    destruct IH as (parts & -> & Hparts); [intros; apply Hall; by right|]. cbn [mbind fallible_bind]. eexists. split; [done|by constructor]. }
  destruct Hparts as (parts & Htry & Hparts). exists parts. unfold merge_parts.
  assert (Hlen : length parts = lane_count) by (apply Forall2_length in Hparts; by rewrite length_seq in Hparts).
  destruct parts as [|final rest _] using rev_ind; [cbn in Hlen; lia|]. rewrite last_snoc. cbn [expect mbind fallible_bind].
  rewrite length_app in *. cbn [length] in *. rewrite Nat.add_sub, take_app_length.
  assert (Hrest : ∀ i w, rest !! i = Some w → i < lane_count ∧ indexes flags shard_count (lane_entries i) w).
  { intros i w Hi. assert (i < length rest) by by eapply lookup_lt_Some. split; [lia|].
    apply (lookup_app_l_Some _ [final]) in Hi. destruct (Forall2_lookup_r _ _ _ _ _ Hparts Hi) as (lane & Hlane & Hw).
    by apply lookup_seq in Hlane as [-> _]. }
  assert (Hfinal : indexes flags shard_count (lane_entries (length rest)) final).
  { destruct (Forall2_lookup_r _ _ _ _ _ Hparts (list_lookup_middle rest [] final _ eq_refl)) as (lane & Hlane & Hw).
    by apply lookup_seq in Hlane as [-> _]. }
  destruct (loop_indexed (λ k w, indexes flags shard_count (lane_entries (length rest) ++ mjoin (lane_entries <$> seq 0 k)) w) merge_index final rest)
    as (index & Hrun & Hindex).
  - by rewrite app_nil_r.
  - intros i w' w Hi Hw. destruct (Hrest i w' Hi) as [_ Hw']. destruct (indexes_merge _ _ _ _ _ _ Hw Hw') as (w2 & -> & H2).
    exists w2. split; [done|]. rewrite seq_S, fmap_app, join_app. cbn. rewrite app_nil_r. by rewrite <- app_assoc in H2.
  - exists index. split_and!; [done|done|]. eapply indexes_proper; [|exact Hindex]. intros [i f]. rewrite elem_of_app, elem_of_entries.
    rewrite elem_of_lane_entries by lia. split.
    + intros [[_ ?]|(es & Hes & (lane & -> & Hlane)%list_elem_of_fmap)%list_elem_of_join]; [done|].
      apply elem_of_seq in Hlane. apply elem_of_lane_entries in Hes as [_ ?]; [done|lia].
    + intros Hf. destruct (lane_of i) as (lane & Hlane & Hr); [by eapply lookup_lt_Some|].
      destruct (decide (lane = length rest)) as [->|Hne]; [by left|]. right. apply list_elem_of_join. exists (lane_entries lane).
      split; [by apply elem_of_lane_entries|]. apply list_elem_of_fmap. exists lane. split; [done|]. apply elem_of_seq. lia.
Qed.
End Lanes.

(** ** The finished index *)

Definition pending_entries (p : Pending) : list (nat * (nat * list nat)) :=
  mjoin (imap (λ shard m, pair shard <$> sort_unstable_by by_number (traverse m)) p).

Lemma flatten_entries p : flatten_postings p = foldl (λ acc e, flatten_entry e.1 acc e.2) ([], ∅) (pending_entries p).
Proof using Type.
  unfold flatten_postings, pending_entries. generalize ([] : list nat, ∅ : Directory). 
  assert (Hgen : ∀ k acc, foldl flatten_shard acc (imap (λ i m, (k + i, m)) p) =
    foldl (λ acc e, flatten_entry e.1 acc e.2) acc (mjoin (imap (λ i m, pair (k + i) <$> sort_unstable_by by_number (traverse m)) p))).
  { induction p as [|m p IH]; intros k acc; [done|]. cbn [imap foldl]. rewrite mjoin_cons, foldl_app.
    rewrite (imap_ext _ (λ i m, (S k + i, m))) by (intros; cbn; by rewrite Nat.add_succ_r).
    rewrite IH. rewrite (imap_ext ((λ i m0, pair (k + i) <$> sort_unstable_by by_number (traverse m0)) ∘ S)
      (λ i m, pair (S k + i) <$> sort_unstable_by by_number (traverse m))) by (intros; cbn; by rewrite Nat.add_succ_r).
    f_equal. unfold flatten_shard at 1. cbn [fst snd]. rewrite Nat.add_0_r.
    generalize (sort_unstable_by by_number (traverse m)) as es. intros es. revert acc. induction es as [|e es IHes]; intros acc; [done|].
    rewrite fmap_cons. cbn [foldl fst snd]. apply IHes. }
  intros acc. exact (Hgen 0 acc).
Qed.

Lemma elem_of_pending_entries p sh u ps : (sh, (u, ps)) ∈ pending_entries p ↔ ∃ m, p !! sh = Some m ∧ m !! u = Some ps.
Proof using Type.
  unfold pending_entries. rewrite list_elem_of_join. split.
  - intros (es & Hes & (i & m & -> & Hi)%elem_of_lookup_imap_1). apply list_elem_of_fmap in Hes as ([u' ps'] & [= -> -> ->] & He).
    rewrite sort_unstable_by_perm, elem_of_traverse in He. by exists m.
  - intros (m & Hm & Hu). eexists. split; [|apply elem_of_lookup_imap; by exists sh, m]. apply list_elem_of_fmap. exists (u, ps).
    split; [done|]. by rewrite sort_unstable_by_perm, elem_of_traverse.
Qed.

Lemma slice_app_keep {A} (l l' : list A) a b s : slice l a b = Some s → slice (l ++ l') a b = Some s.
Proof using Type.
  unfold slice. case_decide as Hd; [|done]. intros [= <-]. rewrite decide_True by (rewrite length_app; lia). f_equal.
  rewrite drop_app_le by lia. rewrite take_app_le; [done|]. rewrite length_drop. lia.
Qed.

Lemma slice_app_end {A} (l l' : list A) : slice (l ++ l') (length l) (length (l ++ l')) = Some l'.
Proof using Type.
  unfold slice. rewrite decide_True by (rewrite length_app; lia). f_equal. rewrite drop_app_length. apply take_ge. rewrite length_app. lia.
Qed.

(** Directory and postings of the entries so far. *)
Record flattened (es : list (nat * (nat * list nat))) (acc : list nat * Directory) : Prop := {
  flattened_ref u r : r ∈ default [] (acc.2 !! u) → ref_uri r = u ∧
    ∃ ps l, (ref_shard r, (u, ps)) ∈ es ∧ slice acc.1 (ref_start r) (ref_end r) = Some l ∧ l ≡ₚ ps;
  flattened_entry sh u ps : (sh, (u, ps)) ∈ es → ∃ r, r ∈ default [] (acc.2 !! u) ∧ ref_shard r = sh;
}.

Lemma flattened_step es acc e : flattened es acc → flattened (es ++ [e]) (flatten_entry e.1 acc e.2).
Proof using Type.
  destruct e as [shard [uri postings]], acc as [flat dir]. intros [F1 F2]. cbn [fst snd] in *. unfold flatten_entry. cbn [fst snd].
  split; cbn [fst snd].
  - intros u r Hr. assert (Hold : r ∈ default [] (dir !! u) → ref_uri r = u ∧ ∃ ps l, (ref_shard r, (u, ps)) ∈ es ++ [(shard, (uri, postings))] ∧
      slice (flat ++ sort_unstable_by Nat.compare postings) (ref_start r) (ref_end r) = Some l ∧ l ≡ₚ ps).
    { intros [Hu (ps & l & He & Hs & Hp)]%F1. split; [done|]. exists ps, l. split_and!; [apply elem_of_app; by left|by apply slice_app_keep|done]. }
    destruct (decide (u = uri)) as [->|Hne].
    + rewrite lookup_insert_eq in Hr. cbn in Hr. apply elem_of_app in Hr as [Hr|Hr%list_elem_of_singleton]; [by apply Hold|]. subst r. cbn.
      split; [done|]. exists postings, (sort_unstable_by Nat.compare postings). split_and!; [apply elem_of_app; right; by left|apply slice_app_end|].
      apply sort_unstable_by_perm.
    + rewrite lookup_insert_ne in Hr by congruence. by apply Hold.
  - intros sh u ps [He|He%list_elem_of_singleton]%elem_of_app.
    + destruct (F2 sh u ps He) as (r & Hr & Hsh). exists r. split; [|done]. destruct (decide (u = uri)) as [->|Hne].
      * rewrite lookup_insert_eq. cbn. apply elem_of_app. by left.
      * by rewrite lookup_insert_ne by congruence.
    + injection He as -> -> ->. rewrite lookup_insert_eq. eexists. split; [cbn; apply elem_of_app; right; by left|done].
Qed.

Lemma flattened_all p : flattened (pending_entries p) (flatten_postings p).
Proof using Type.
  rewrite flatten_entries. induction (pending_entries p) as [|e es IH] using rev_ind.
  - split; [by intros u r ?%elem_of_nil|by intros sh u ps ?%elem_of_nil].
  - rewrite foldl_app. by apply flattened_step.
Qed.

(** A URI leads to its postings in every shard that has some. *)
Record finished_column (p : Pending) (flat : list nat) (dir : Directory) : Prop := {
  column_ref u r : r ∈ default [] (dir !! u) → ref_uri r = u ∧ ref_shard r < length p ∧
    ∃ l, slice flat (ref_start r) (ref_end r) = Some l ∧ ∀ n, n ∈ l ↔ posted p (ref_shard r) u n;
  column_found sh u n : posted p sh u n → ∃ r, r ∈ default [] (dir !! u) ∧ ref_shard r = sh;
}.

Lemma flatten_postings_spec p : finished_column p (flatten_postings p).1 (flatten_postings p).2.
Proof using Type.
  pose proof (flattened_all p) as [F1 F2]. split.
  - intros u r [Hu (ps & l & He & Hs & Hp)]%F1. split; [done|]. apply elem_of_pending_entries in He as (m & Hm & Hps).
    split; [by eapply lookup_lt_Some|]. exists l. split; [done|]. intros n. rewrite Hp. split; [intros Hn; by exists m, ps|].
    intros (m' & ps' & Hm' & Hps' & Hn). by simplify_eq.
  - intros sh u n (m & ps & Hm & Hps & Hn). apply (F2 sh u ps), elem_of_pending_entries. by exists m.
Qed.

(** The NFTs with a wanted URI, found through the directory. *)
Record finds (uris : UriFeatureStore) (proj : UriFeatureRecord → option nat) (wanted : list nat) (shard_count : nat)
    (refs : nat → list UriPostingRef) (postings : UriPostingRef → option (list nat)) : Prop := {
  finds_ref u r : r ∈ refs u → ref_uri r = u ∧ ref_shard r < shard_count ∧
    ∃ l, postings r = Some l ∧ ∀ n, n ∈ l ↔ features uris !! n ≫= proj = Some u ∧ u ∈ wanted ∧ ref_shard r = shard_of shard_count n;
  finds_nft n u : features uris !! n ≫= proj = Some u → u ∈ wanted → ∃ r, r ∈ refs u ∧ ref_shard r = shard_of shard_count n;
}.

Lemma as_u32_id n : (Z.of_nat n < 2 ^ 32)%Z → as_u32 n = n.
Proof using Type. intros Hn. unfold as_u32. rewrite Z.mod_small by lia. lia. Qed.

Lemma finds_column uris proj wanted wants shard_count p flat dir :
  (Z.of_nat (length (features uris)) ≤ 2 ^ 32)%Z → (∀ u, wants u = bool_decide (u ∈ wanted)) →
  column proj wants shard_count (entries uris) p → finished_column p flat dir →
  finds uris proj wanted shard_count (λ u, default [] (dir !! u)) (λ r, slice flat (ref_start r) (ref_end r)).
Proof using Type.
  intros Hsize Hw [L P] [F1 F2].
  assert (Hp : ∀ sh u n, posted p sh u n ↔ features uris !! n ≫= proj = Some u ∧ u ∈ wanted ∧ sh = shard_of shard_count n).
  { intros sh u n. rewrite P. split.
    - intros (i & f & Hi%elem_of_entries & -> & Hu & Hwu & ->). rewrite Hw, bool_decide_eq_true in Hwu.
      assert (i < length (features uris)) by by eapply lookup_lt_Some. rewrite as_u32_id by lia. by rewrite Hi.
    - intros (Hn & Hwu & ->). destruct (features uris !! n) as [f|] eqn:Ef; [|done]. cbn in Hn.
      assert (n < length (features uris)) by by eapply lookup_lt_Some. exists n, f.
      rewrite as_u32_id, Hw, bool_decide_eq_true by lia. split_and!; [by apply elem_of_entries|done..]. }
  split.
  - intros u r (Hu & Hs & l & Hl & Hn)%F1. split; [done|]. split; [by rewrite <- L|]. exists l. split; [done|]. intros n. by rewrite Hn, Hp.
  - intros n u Hn Hwu. apply (F2 _ u n), Hp. by split_and!.
Qed.

Lemma build_uri_index_spec sched shard_count uris plan :
  0 < shard_count → 0 < stage_lanes sched → (Z.of_nat (length (features uris)) ≤ 2 ^ 32)%Z →
  (Z.of_nat (length (features uris)) * Z.of_nat (stage_lanes sched) < 2 ^ 64)%Z →
  ∃ index, build_uri_index sched shard_count uris plan = Ok index ∧
    finds uris token_uri (mjoin (token_uri_values <$> plan_seeds plan)) shard_count (token_posting_refs index) (token_postings index) ∧
    finds uris image_uri (mjoin (image_uri_values <$> plan_seeds plan)) shard_count (image_posting_refs index) (image_postings index).
Proof using Type.
  intros Hs Hl Hlen Hsize. unfold build_uri_index.
  destruct (new_filter_spec (frozen_len (uri_values uris)) (mjoin (token_uri_values <$> plan_seeds plan)) (mjoin (image_uri_values <$> plan_seeds plan)))
    as (flags & -> & Ht & Hi). cbn [mbind fallible_bind].
  destruct (build_parts_spec uris flags shard_count (stage_lanes sched) Hs Hl Hsize (index_shapes sched)) as (parts & index & -> & Hm & [T I]).
  cbn [mbind fallible_bind]. rewrite Hm. cbn [mbind fallible_bind]. eexists. split; [done|]. split.
  - eapply (finds_column uris token_uri); [done|exact Ht|exact T|apply flatten_postings_spec].
  - eapply (finds_column uris image_uri); [done|exact Hi|exact I|apply flatten_postings_spec].
Qed.
End Index.
