(* ===== verification/UriQueryFacts.v ===== *)
(** Proofs about the URI stage: whatever the lanes, the folds and the order of hash maps,
    its relations are those of the NFTs that share a URI with an NFT of a seed. *)

From S2P Require Import Prelude Text CanonicalJson Anchors SortedLists UriChunks Events Evidence.
From S2P Require Import EvidenceFacts Relations Reducer Reduction ValuePools Fallible Seeds.
From S2P Require Import AnalysisJson Builder Resident ResidentLoad AnchorRows PrepareFacts.
From S2P Require Import Prepared Loaded Preparation Profiles StoreContracts StoreFacts StoreLoad.
From S2P Require Import UriQuery UriIndexFacts.

(** ** What the stage computes *)

Section Spec.
Context {F Time : Type}.
Implicit Types (s : ResidentBaseStore).

Definition nft_count s : nat := match uri_identity s with Some ids => length (nfts ids) | None => 0 end.

(** The URI of an NFT, by number and as a text. *)
Definition uri_number s (proj : UriFeatureRecord → option nat) (nft : nat) : option nat :=
  uris ← uri_features s; features uris !! nft ≫= proj.
Definition uri_of_number s (uri : nat) : option str := uris ← uri_features s; frozen_get (uri_values uris) uri.
Definition nft_uri s proj (nft : nat) : option str := uri_number s proj nft ≫= uri_of_number s.

Definition contract_number s (nft : nat) : option nat := ids ← uri_identity s; contract_id <$> nfts ids !! nft.
Definition stored_key s (nft : nat) : option NftKey := mjoin (nft_key s nft).

(** The first NFT of a contract with a URI. *)
Definition first_with s proj (c : nat) (uri : str) : option nat :=
  head (filter (λ j, contract_number s j = Some c ∧ nft_uri s proj j = Some uri) (seq 0 (nft_count s))).

(** The URI that an NFT shares with a contract, and the first NFT there that has it. *)
Definition shares s proj (c nft : nat) : option (str * NftKey) :=
  uri ← nft_uri s proj nft;
  j ← first_with s proj c uri;
  key ← stored_key s j;
  Some (uri, key).

Definition share_hit s (seed : Z) (c nft : nat) (dimension : Dimension) (shared : str * NftKey) : option (DedupHit F) :=
  key ← stored_key s nft;
  candidate ← contract_number s nft;
  Some {| hit_seed_id := seed; seed_contract := Z.of_nat c; candidate_contract := Z.of_nat candidate; hit_dimension := dimension;
          hit_selection := Explicit [key]; hit_evidence := MatchUri dimension shared.1 shared.2 key |}.

(** An NFT of another contract is hit by its token URI, or else by its image URI. *)
Definition nft_hit s (seed : Z) (c nft : nat) : option (DedupHit F) :=
  candidate ← contract_number s nft;
  if decide (candidate = c) then None else
  match shares s token_uri c nft with
  | Some shared => share_hit s seed c nft TokenUriDimension shared
  | None => shared ← shares s image_uri c nft; share_hit s seed c nft ImageUriDimension shared
  end.

(** The contract of a seed, if the store has it. *)
Definition seed_contract_id s (seed : SeedDefinition Time) : option nat :=
  r ← catalog_find (contracts s) (seed_key seed); Z.to_nat <$> r.

Definition seed_hits s (seed : SeedDefinition Time) : list (DedupHit F) :=
  match seed_contract_id s seed with
  | Some c => omap (nft_hit s (seed_id seed) c) (seq 0 (nft_count s))
  | None => []
  end.

Definition uri_hits s (manifest : SeedManifest Time) : list (DedupHit F) := mjoin (seed_hits s <$> manifest_seeds manifest).
End Spec.

(** A store whose tables agree. *)
Record uri_store (s : ResidentBaseStore) (ids : UriNftIdentityStore) (uris : UriFeatureStore) (names : NameFeatureStore)
    (metadata : MetadataFeatureStore) : Prop := {
  us_identity : uri_identity s = Some ids;
  us_features : uri_features s = Some uris;
  us_names_table : name_features s = Some names;
  us_metadata_table : metadata_features s = Some metadata;
  us_length : length (features uris) = length (nfts ids);
  us_size : (Z.of_nat (length (nfts ids)) ≤ 2 ^ 32)%Z;
  us_contract i identity : nfts ids !! i = Some identity → contract_id identity < length (contracts s);
  us_range c : c < length (contracts s) → ∃ a b, contract_offsets ids !! c = Some a ∧ contract_offsets ids !! (c + 1) = Some b ∧
    a ≤ b ≤ length (nfts ids) ∧ ∀ i, a ≤ i < b ↔ contract_id <$> nfts ids !! i = Some c;
  us_key i : i < length (nfts ids) → is_Some (stored_key s i);
  us_text i f u : features uris !! i = Some f → token_uri f = Some u ∨ image_uri f = Some u → is_Some (frozen_get (uri_values uris) u);
  us_distinct u v text : frozen_get (uri_values uris) u = Some text → frozen_get (uri_values uris) v = Some text → u = v;
  us_name c : c < length (contracts s) → is_Some (contract_names names !! c);
  us_profile c : c < length (contracts s) → ∃ profile, contract_profiles metadata !! c = Some profile ∧
    ∀ p, profile = Some p → is_Some (profile_anchors metadata p);
  us_catalog : StronglySorted (λ a b, contract_key_compare (record_key a) (record_key b) = Lt) (contracts s);
  us_catalog_size : (Z.of_nat (length (contracts s)) < 2 ^ 32)%Z;
}.

(** ** The queries of the seeds *)

Section Facts.
Context {F Time : Type} `{!EqDecision F} `{!FloatOrder F} `{!UnstableSort} `{!MapOrder}.
Context (s : ResidentBaseStore) (ids : UriNftIdentityStore) (uris : UriFeatureStore) (names : NameFeatureStore) (metadata : MetadataFeatureStore).
Context (Hs : uri_store s ids uris names metadata).

Lemma uri_number_features proj nft : uri_number s proj nft = features uris !! nft ≫= proj.
Proof using Hs. unfold uri_number. by rewrite (us_features _ _ _ _ _ Hs). Qed.

Lemma contract_number_ids nft : contract_number s nft = contract_id <$> nfts ids !! nft.
Proof using Hs. unfold contract_number. by rewrite (us_identity _ _ _ _ _ Hs). Qed.

Lemma nft_count_ids : nft_count s = length (nfts ids).
Proof using Hs. unfold nft_count. by rewrite (us_identity _ _ _ _ _ Hs). Qed.

(** The two columns of URIs. *)
Definition is_column (proj : UriFeatureRecord → option nat) : Prop := proj = token_uri ∨ proj = image_uri.

Lemma number_text proj nft u : is_column proj → uri_number s proj nft = Some u → is_Some (uri_of_number s u).
Proof using Hs.
  intros Hp. rewrite uri_number_features. destruct (features uris !! nft) as [f|] eqn:Ef; [|done]. cbn. intros Hu.
  unfold uri_of_number. rewrite (us_features _ _ _ _ _ Hs). apply (us_text _ _ _ _ _ Hs nft f u Ef). destruct Hp as [->| ->]; auto.
Qed.

Lemma number_distinct u v text : uri_of_number s u = Some text → uri_of_number s v = Some text → u = v.
Proof using Hs. unfold uri_of_number. rewrite (us_features _ _ _ _ _ Hs). apply (us_distinct _ _ _ _ _ Hs). Qed.

Lemma number_lt proj nft u : uri_number s proj nft = Some u → nft < length (nfts ids).
Proof using Hs.
  rewrite uri_number_features, <- (us_length _ _ _ _ _ Hs). intros Hu. destruct (features uris !! nft) eqn:E; [by eapply lookup_lt_Some|done].
Qed.

(** The URIs among some NFTs, with the first NFT of each. *)
Record scanned (proj : UriFeatureRecord → option nat) (l : list nat) (scan : list nat * gmap nat NftKey) : Prop := {
  scanned_values u : u ∈ scan.1 ↔ ∃ j, j ∈ l ∧ uri_number s proj j = Some u;
  scanned_first u : scan.2 !! u = (j ← head (filter (λ j, uri_number s proj j = Some u) l); stored_key s j);
}.

Lemma head_filter_snoc {A} (P : A → Prop) `{!∀ x, Decision (P x)} l x :
  head (filter P (l ++ [x])) = match head (filter P l) with Some y => Some y | None => if decide (P x) then Some x else None end.
Proof using Type. rewrite filter_app, filter_cons, filter_nil. destruct (filter P l); cbn; [by destruct (decide (P x))|done]. Qed.

Lemma scan_uri_spec proj l scan j f : is_column proj → features uris !! j = Some f → scanned proj l scan →
  ∃ scan', scan_uri s j scan (proj f) = Ok scan' ∧ scanned proj (l ++ [j]) scan'.
Proof using Hs.
  intros Hp Hf [S1 S2]. assert (Hj : uri_number s proj j = proj f) by by rewrite uri_number_features, Hf.
  assert (Hlt : j < length (nfts ids)) by (rewrite <- (us_length _ _ _ _ _ Hs); by eapply lookup_lt_Some).
  pose proof (us_size _ _ _ _ _ Hs) as Hsize. unfold scan_uri. destruct (proj f) as [u|] eqn:Eu.
  - assert (Hv : ∀ u', u' ∈ scan.1 ++ [u] ↔ ∃ j', j' ∈ l ++ [j] ∧ uri_number s proj j' = Some u').
    { intros u'. rewrite elem_of_app, list_elem_of_singleton, S1. setoid_rewrite elem_of_app. setoid_rewrite list_elem_of_singleton. split.
      - intros [(j' & ? & ?)| ->]; [exists j'; tauto|by exists j; rewrite Hj; auto].
      - intros (j' & [?| ->] & Hu); [left; by exists j'|right; congruence]. }
    rewrite S2. destruct (head (filter (λ j, uri_number s proj j = Some u) l)) as [j0|] eqn:Eh; cbn [mbind option_bind].
    + assert (Hj0 : uri_number s proj j0 = Some u).
      { apply head_Some_elem_of in Eh. by apply list_elem_of_filter in Eh as [? _]. }
      destruct (us_key _ _ _ _ _ Hs j0 (number_lt _ _ _ Hj0)) as [key Hkey]. rewrite Hkey.
      eexists. split; [done|]. split; [exact Hv|]. intros u'. cbn. rewrite S2, head_filter_snoc.
      destruct (head (filter (λ j, uri_number s proj j = Some u') l)) eqn:E'; [done|]. rewrite Hj. destruct (decide (Some u = Some u')) as [[= ->]|]; [congruence|done].
    + destruct (us_key _ _ _ _ _ Hs j Hlt) as [key Hkey]. unfold retained_key. rewrite as_u32_id by lia. fold (stored_key s j). rewrite Hkey.
      cbn [expect mbind fallible_bind]. eexists. split; [done|]. split; [exact Hv|]. intros u'. cbn. rewrite head_filter_snoc, Hj.
      destruct (decide (u' = u)) as [->|Hne].
      * rewrite lookup_insert_eq, Eh, decide_True by done. cbn. done.
      * rewrite lookup_insert_ne, S2 by congruence. destruct (head (filter (λ j, uri_number s proj j = Some u') l)); [done|]. by rewrite decide_False by congruence.
  - exists scan. split; [done|]. split.
    + intros u. rewrite S1. setoid_rewrite elem_of_app. setoid_rewrite list_elem_of_singleton. split; [intros (j' & ? & ?); exists j'; tauto|].
      intros (j' & [?| ->] & Hu); [by exists j'|congruence].
    + intros u. rewrite S2, head_filter_snoc. destruct (head (filter (λ j, uri_number s proj j = Some u) l)); [done|]. by rewrite Hj, decide_False.
Qed.

Lemma elem_of_sorted_values l u : u ∈ sorted_values l ↔ u ∈ l.
Proof using Type.
  unfold sorted_values. rewrite <- (sort_unstable_by_perm Nat.compare l) at 2.
  pose proof (sort_unstable_by_sorted Nat.compare l _) as Hsort. destruct (sort_unstable_by Nat.compare l) as [|x t]; [done|].
  apply (dedup_after_strict Nat.compare x t Hsort).
Qed.

#[local] Instance by_number_laws {A} : CompareLaws (@by_number A).
Proof using Type. exact (compare_map_laws fst Nat.compare nat_compare_laws). Qed.

Lemma evidence_found ev u key : ev !! u = Some key → seed_uri_evidence (sorted_evidence ev) u = Ok key.
Proof using Type.
  intros Hev. set (l := sorted_evidence ev). assert (Hperm : l ≡ₚ map_to_list ev).
  { unfold l, sorted_evidence. by rewrite sort_unstable_by_perm, traverse_perm. }
  assert (Hin : (u, key) ∈ l) by by rewrite Hperm, elem_of_map_to_list.
  pose proof (sort_unstable_by_sorted by_number (traverse ev) _) as Hsort. fold (sorted_evidence ev) in Hsort. fold l in Hsort.
  unfold seed_uri_evidence. destruct (binary_search_outcome (λ value : nat * NftKey, Nat.compare value.1 u) l) as (r & -> & Hr).
  - intros i j x y Hij Hx Hy. pose proof (StronglySorted_lookup _ _ _ _ _ _ Hsort Hij Hx Hy) as Hle. unfold by_number in Hle.
    destruct (Nat.compare_spec x.1 y.1), (Nat.compare_spec x.1 u), (Nat.compare_spec y.1 u); split; intros; (done || lia).
  - cbn [expect mbind fallible_bind]. destruct r as [index|index].
    + destruct Hr as (x & Hx & He). apply Nat.compare_eq_iff in He. rewrite Hx. cbn [expect mbind fallible_bind]. f_equal.
      apply list_elem_of_lookup_2 in Hx. destruct x as [u' key']. cbn in *. subst u'. rewrite Hperm, elem_of_map_to_list in Hx. congruence.
    + specialize (Hr _ Hin). cbn in Hr. by rewrite Nat.compare_refl in Hr.
Qed.

(** ** The catalog *)

Lemma catalog_find_spec key : ∃ r, catalog_find (contracts s) key = Some r ∧
  match r with
  | Some c => ∃ rec, contracts s !! Z.to_nat c = Some rec ∧ record_key rec = key
  | None => ∀ rec, rec ∈ contracts s → record_key rec ≠ key
  end.
Proof using Hs.
  pose proof (us_catalog _ _ _ _ _ Hs) as Hsort. pose proof (us_catalog_size _ _ _ _ _ Hs) as Hsize. unfold catalog_find.
  destruct (binary_search_outcome (λ record, contract_key_compare (record_key record) key) (contracts s)) as (r & -> & Hr).
  - intros i j x y Hij Hx Hy. pose proof (StronglySorted_lookup _ _ _ _ _ _ Hsort Hij Hx Hy) as Hlt. cbn in Hlt. split; intros Hc.
    + apply (compare_gt_lt contract_key_compare) in Hc. apply (compare_gt_lt contract_key_compare).
      eapply (compare_lt_le_trans contract_key_compare); [exact Hc|by rewrite Hlt].
    + eapply (compare_lt_le_trans contract_key_compare); [exact Hlt|by rewrite Hc].
  - cbn [mbind option_bind]. eexists. split; [done|]. destruct r as [i|i].
    + destruct Hr as (rec & Hrec & He). assert (i < length (contracts s)) by by eapply lookup_lt_Some.
      rewrite Z.mod_small by lia. rewrite Nat2Z.id. exists rec. split; [done|]. by apply (compare_eq_iff (cmp:=contract_key_compare)).
    + intros rec Hin He. specialize (Hr rec Hin). cbn in Hr. apply Hr. by apply (compare_eq_iff (cmp:=contract_key_compare)).
Qed.

(** ** The plan *)

Lemma number_uri proj j u text : is_column proj → uri_of_number s u = Some text →
  nft_uri s proj j = Some text ↔ uri_number s proj j = Some u.
Proof using Hs.
  intros Hp Hu. unfold nft_uri. split.
  - intros (v & Hv & Ht)%bind_Some. by rewrite (number_distinct u v text Hu Ht).
  - intros ->. done.
Qed.

Lemma first_with_range proj c a b u text : is_column proj → uri_of_number s u = Some text → a ≤ b ≤ length (nfts ids) →
  (∀ i, a ≤ i < b ↔ contract_id <$> nfts ids !! i = Some c) →
  first_with s proj c text = head (filter (λ j, uri_number s proj j = Some u) (seq a (b - a))).
Proof using Hs.
  intros Hp Hu Hab Hr. unfold first_with. rewrite nft_count_ids.
  replace (length (nfts ids)) with (a + ((b - a) + (length (nfts ids) - b))) by lia. rewrite !seq_app, !filter_app. cbn [Nat.add].
  replace (a + (b - a)) with b by lia.
  rewrite filter_none by (intros j Hj%elem_of_seq [Hc _]; rewrite contract_number_ids in Hc; apply Hr in Hc; lia). cbn [app].
  rewrite (filter_none _ (seq b _)) by (intros j Hj%elem_of_seq [Hc _]; rewrite contract_number_ids in Hc; apply Hr in Hc; lia).
  rewrite app_nil_r. f_equal. apply filter_dom_ext. intros j Hj%elem_of_seq. rewrite contract_number_ids, (number_uri proj j u text Hp Hu).
  assert (Hc : contract_id <$> nfts ids !! j = Some c) by (apply Hr; lia). tauto.
Qed.

(** The values and the evidence of a seed in one column. *)
Record query_column (proj : UriFeatureRecord → option nat) (c : nat) (values : list nat) (evidence : list (nat * NftKey)) : Prop := {
  query_values u : u ∈ values ↔ ∃ j, contract_number s j = Some c ∧ uri_number s proj j = Some u;
  query_evidence u text : u ∈ values → uri_of_number s u = Some text →
    ∃ j key, first_with s proj c text = Some j ∧ stored_key s j = Some key ∧ seed_uri_evidence evidence u = Ok key;
}.

Record planned (definition : SeedDefinition Time) (c : nat) (q : SeedRawQuery) : Prop := {
  planned_seed : raw_seed_id q = seed_id definition;
  planned_contract : raw_contract_id q = c;
  planned_token : query_column token_uri c (token_uri_values q) (token_uri_evidence q);
  planned_image : query_column image_uri c (image_uri_values q) (image_uri_evidence q);
}.

Lemma scanned_column proj c a b scan : is_column proj → a ≤ b ≤ length (nfts ids) →
  (∀ i, a ≤ i < b ↔ contract_id <$> nfts ids !! i = Some c) → scanned proj (seq a (b - a)) scan →
  query_column proj c (sorted_values scan.1) (sorted_evidence scan.2).
Proof using Hs.
  intros Hp Hab Hr [S1 S2]. split.
  - intros u. rewrite elem_of_sorted_values, S1. split.
    + intros (j & Hj%elem_of_seq & Hu). exists j. split; [|done]. rewrite contract_number_ids. apply Hr. lia.
    + intros (j & Hj & Hu). exists j. split; [|done]. rewrite contract_number_ids in Hj. apply Hr in Hj. apply elem_of_seq. lia.
  - intros u text Hu Ht. rewrite elem_of_sorted_values, S1 in Hu. destruct Hu as (j & Hj & Hu).
    rewrite (first_with_range proj c a b u text Hp Ht Hab Hr).
    destruct (head (filter (λ j, uri_number s proj j = Some u) (seq a (b - a)))) as [j0|] eqn:Eh.
    + assert (Hj0 : uri_number s proj j0 = Some u) by (apply head_Some_elem_of in Eh; by apply list_elem_of_filter in Eh as [? _]).
      destruct (us_key _ _ _ _ _ Hs j0 (number_lt _ _ _ Hj0)) as [key Hkey]. exists j0, key. split_and!; [done|done|].
      apply evidence_found. by rewrite S2, Eh.
    + exfalso. assert (Hin : j ∈ filter (λ j, uri_number s proj j = Some u) (seq a (b - a))) by by apply list_elem_of_filter.
      destruct (filter _ _); [by apply elem_of_nil in Hin|done].
Qed.

Lemma plan_seed_spec (definition : SeedDefinition Time) c : c < length (contracts s) →
  ∃ q, plan_seed s ids uris names metadata definition c = Ok q ∧ planned definition c q.
Proof using Hs.
  intros Hc. unfold plan_seed. destruct (us_range _ _ _ _ _ Hs c Hc) as (a & b & -> & -> & Hab & Hr). cbn [expect mbind fallible_bind].
  destruct (loop_invariant (λ l acc, scanned token_uri l acc.1 ∧ scanned image_uri l acc.2) (scan_nft s uris) (([], ∅), ([], ∅)) (seq a (b - a)))
    as ([token image] & -> & Ht & Hi).
  - split; (split; [intros u; split; [by intros ?%elem_of_nil|by intros (j & ?%elem_of_nil & _)]|done]).
  - intros d j [token image] Hj%elem_of_seq [Ht Hi]. unfold scan_nft. cbn [fst snd].
    destruct (lookup_lt_is_Some_2 (features uris) j) as [f Hf]; [rewrite (us_length _ _ _ _ _ Hs); lia|]. rewrite Hf. cbn [expect mbind fallible_bind].
    destruct (scan_uri_spec token_uri d token j f (or_introl eq_refl) Hf Ht) as (t' & -> & Ht'). cbn [mbind fallible_bind].
    destruct (scan_uri_spec image_uri d image j f (or_intror eq_refl) Hf Hi) as (i' & -> & Hi'). cbn [mbind fallible_bind]. by eexists.
  - cbn [mbind fallible_bind fst snd] in *. destruct (us_profile _ _ _ _ _ Hs c Hc) as (profile & -> & Hprofile). cbn [expect mbind fallible_bind].
    destruct (us_name _ _ _ _ _ Hs c Hc) as [name Hname].
    assert (Hdocs : ∃ documents, match profile with
              | None => Ok []
              | Some profile => anchors ← expect (profile_anchors metadata profile); Ok (map anchor_metadata_id anchors)
              end = Ok documents).
    { destruct profile as [p|]; [|by eexists]. destruct (Hprofile p eq_refl) as [anchors ->]. by eexists. }
    destruct Hdocs as [documents ->]. cbn [mbind fallible_bind]. rewrite Hname. cbn [expect mbind fallible_bind].
    eexists. split; [done|]. split; [done|done| |]; cbn.
    + by apply (scanned_column token_uri c a b); [left|..].
    + by apply (scanned_column image_uri c a b); [right|..].
Qed.

(** The seeds of the store with their contracts. *)
Definition found_seeds (l : list (SeedDefinition Time)) : list (SeedDefinition Time * nat) :=
  omap (λ d, c ← seed_contract_id s d; Some (d, c)) l.

Lemma build_raw_plan_spec (manifest : SeedManifest Time) :
  ∃ plan, build_raw_plan s manifest = Ok plan ∧
    Forall2 (λ (e : SeedDefinition Time * nat) q, planned e.1 e.2 q) (found_seeds (manifest_seeds manifest)) (plan_seeds plan) ∧
    missing_seed_ids plan = list_to_set (seed_id <$> filter (λ d, seed_contract_id s d = None) (manifest_seeds manifest)).
Proof using Hs.
  unfold build_raw_plan.
  rewrite (us_identity _ _ _ _ _ Hs), (us_features _ _ _ _ _ Hs), (us_names_table _ _ _ _ _ Hs), (us_metadata_table _ _ _ _ _ Hs).
  cbn [ok_or mbind fallible_bind].
  apply (loop_invariant (λ l plan, Forall2 (λ (e : SeedDefinition Time * nat) q, planned e.1 e.2 q) (found_seeds l) (plan_seeds plan) ∧
    missing_seed_ids plan = list_to_set (seed_id <$> filter (λ d, seed_contract_id s d = None) l))).
  - split; [constructor|done].
  - intros l d plan _ [Hp Hm]. unfold plan_definition. destruct (catalog_find_spec (seed_key d)) as (r & Hr & Hfound).
    unfold found_seeds. rewrite omap_app, filter_app, fmap_app, list_to_set_app_L. rewrite Hr. cbn [expect mbind fallible_bind].
    assert (Hid : seed_contract_id s d = Z.to_nat <$> r) by (unfold seed_contract_id; by rewrite Hr).
    rewrite filter_cons, filter_nil. cbn [omap list_omap]. rewrite Hid. destruct r as [c|]; cbn [fmap option_fmap option_map mbind option_bind].
    + destruct Hfound as (rec & Hrec & _). destruct (plan_seed_spec d (Z.to_nat c)) as (q & -> & Hq); [by eapply lookup_lt_Some|].
      cbn [mbind fallible_bind]. eexists. split; [done|]. cbn. split; [apply Forall2_app; [exact Hp|constructor; [exact Hq|constructor]]|].
      rewrite decide_False by done. cbn. rewrite Hm. set_solver.
    + eexists. split; [done|]. cbn. split; [by rewrite app_nil_r|]. rewrite decide_True by done. cbn. rewrite Hm. set_solver.
Qed.

(** ** Probes *)

(** A posting list of a URI of the seed, with the NFT of the seed that has the URI. *)
Definition probe (values : list nat) (evidence : list (nat * NftKey)) (refs : nat → list UriPostingRef) (p : PreparedUriPosting) : Prop :=
  ∃ u r key, u ∈ values ∧ r ∈ refs u ∧ seed_uri_evidence evidence u = Ok key ∧ p = {| prepared_ref := r; prepared_seed_nft := key |}.

Lemma probe_app values values' evidence refs p :
  probe (values ++ values') evidence refs p ↔ probe values evidence refs p ∨ probe values' evidence refs p.
Proof using Type. unfold probe. setoid_rewrite elem_of_app. naive_solver. Qed.

(** The probes by shard. *)
Definition sorted_probes (P : PreparedUriPosting → Prop) (n : nat) (by_shard : list (list PreparedUriPosting)) : Prop :=
  length by_shard = n ∧ ∀ sh ps, by_shard !! sh = Some ps → ∀ p, p ∈ ps ↔ P p ∧ ref_shard (prepared_ref p) = sh.

Lemma add_probe_spec P n by_shard key r : ref_shard r < n → sorted_probes P n by_shard →
  ∃ by_shard', add_probe key by_shard r = Ok by_shard' ∧
    sorted_probes (λ p, P p ∨ p = {| prepared_ref := r; prepared_seed_nft := key |}) n by_shard'.
Proof using Type.
  intros Hr [Hl Hb]. unfold add_probe. destruct (lookup_lt_is_Some_2 by_shard (ref_shard r)) as [old Hold]; [lia|]. rewrite Hold.
  cbn [expect mbind fallible_bind]. eexists. split; [done|]. split; [by rewrite length_insert|]. intros sh ps Hps p.
  apply list_lookup_insert_Some in Hps as [(<- & <- & _)|(Hne & Hps)].
  - rewrite elem_of_app, list_elem_of_singleton, (Hb _ _ Hold). split; [intros [[? ?]| ->]; auto|]. intros [[?| ->] ?]; auto.
  - rewrite (Hb _ _ Hps). split; [intros [? ?]; auto|]. intros [[?| ->] ?]; [done|]. by cbn in *.
Qed.

Lemma add_probes_spec n evidence refs values : (∀ u, u ∈ values → ∃ key, seed_uri_evidence evidence u = Ok key) →
  (∀ u r, u ∈ values → r ∈ refs u → ref_shard r < n) →
  ∃ by_shard, loop (add_probes evidence refs) (replicate n []) values = Ok by_shard ∧ sorted_probes (probe values evidence refs) n by_shard.
Proof using Type.
  intros He Hr. apply (loop_invariant (λ l, sorted_probes (probe l evidence refs) n)).
  - split; [apply length_replicate|]. intros sh ps [-> _]%lookup_replicate p. split; [by intros ?%elem_of_nil|].
    by intros [(u & r & key & ?%elem_of_nil & _) _].
  - intros l u by_shard Hu Hb. unfold add_probes. destruct (He u Hu) as [key Hkey]. rewrite Hkey. cbn [mbind fallible_bind].
    destruct (loop_invariant (λ rs, sorted_probes (λ p, probe l evidence refs p ∨ ∃ r, r ∈ rs ∧ p = {| prepared_ref := r; prepared_seed_nft := key |}) n)
      (add_probe key) by_shard (refs u)) as (by_shard' & -> & [Hl' Hb']).
    + destruct Hb as [Hl Hb]. split; [done|]. intros sh ps Hps p. rewrite (Hb sh ps Hps). split; [intros [? ?]; auto|].
      intros [[?|(r & ?%elem_of_nil & _)] ?]; done.
    + intros rs r b Hin Hrs. destruct (add_probe_spec _ n b key r (Hr u r Hu Hin) Hrs) as (b' & -> & [Hl' Hb']). exists b'. split; [done|].
      split; [done|]. intros sh ps Hps p. rewrite (Hb' sh ps Hps). setoid_rewrite elem_of_app. setoid_rewrite list_elem_of_singleton.
      split; [intros [[[?|(r' & ? & ->)]| ->] ?]; split; eauto 6|]. intros [[?|(r' & [?| ->] & ->)] ?]; split; eauto 6.
    + exists by_shard'. split; [done|]. split; [done|]. intros sh ps Hps p. rewrite (Hb' sh ps Hps), probe_app. f_equiv. f_equiv.
      unfold probe. split.
      * intros (r & Hin & ->). exists u, r, key. split_and!; [by left|done..].
      * intros (u' & r & key' & ->%list_elem_of_singleton & Hin & Hk & ->). exists r. split; [done|]. congruence.
Qed.

(** The shard queries of a seed have its probes. *)
Record prepared_queries (tokens images : PreparedUriPosting → Prop) (queries : list PreparedUriShardQuery) : Prop := {
  queries_token q p : q ∈ queries → p ∈ prepared_token q ↔ tokens p ∧ ref_shard (prepared_ref p) = prepared_shard q;
  queries_image q p : q ∈ queries → p ∈ prepared_image q ↔ images p ∧ ref_shard (prepared_ref p) = prepared_shard q;
  queries_shard p : tokens p ∨ images p → ∃ q, q ∈ queries ∧ prepared_shard q = ref_shard (prepared_ref p);
}.

Lemma shard_queries_spec tokens images n by_token by_image :
  (∀ p, tokens p ∨ images p → ref_shard (prepared_ref p) < n) → sorted_probes tokens n by_token → sorted_probes images n by_image →
  prepared_queries tokens images (omap shard_query (imap pair (zip by_token by_image))).
Proof using Type.
  intros Hn [Lt Ht] [Li Hi].
  assert (Hq : ∀ q, q ∈ omap shard_query (imap pair (zip by_token by_image)) ↔
    by_token !! prepared_shard q = Some (prepared_token q) ∧ by_image !! prepared_shard q = Some (prepared_image q) ∧
    ¬ (prepared_token q = [] ∧ prepared_image q = [])).
  { intros q. rewrite list_elem_of_omap. split.
    - intros ([sh [t i]] & (sh' & ti & He & Hz)%elem_of_lookup_imap_1 & Hq). injection He as -> <-. apply lookup_zip_Some in Hz as [H1 H2].
      unfold shard_query in Hq. cbn in Hq. destruct (bool_decide (t = []) && bool_decide (i = [])) eqn:E; [done|]. injection Hq as <-. cbn.
      split_and!; [done|done|]. intros [-> ->]. done.
    - intros (H1 & H2 & Hne). exists (prepared_shard q, (prepared_token q, prepared_image q)). split.
      + apply elem_of_lookup_imap. exists (prepared_shard q), (prepared_token q, prepared_image q). split; [done|]. by apply lookup_zip_Some.
      + unfold shard_query. cbn. destruct (bool_decide (prepared_token q = []) && _) eqn:E; [|by destruct q].
        apply andb_true_iff in E as [?%bool_decide_eq_true ?%bool_decide_eq_true]. tauto. }
  split.
  - intros q p (H1 & _ & _)%Hq. by apply Ht.
  - intros q p (_ & H2 & _)%Hq. by apply Hi.
  - intros p Hp. pose proof (Hn p Hp) as Hlt. destruct (lookup_lt_is_Some_2 by_token (ref_shard (prepared_ref p))) as [t Et]; [lia|].
    destruct (lookup_lt_is_Some_2 by_image (ref_shard (prepared_ref p))) as [i Ei]; [lia|].
    exists {| prepared_shard := ref_shard (prepared_ref p); prepared_token := t; prepared_image := i |}. split; [|done]. apply Hq. cbn.
    split_and!; [done|done|]. intros [-> ->]. destruct Hp as [Hp|Hp].
    + eapply (elem_of_nil p), (Ht _ _ Et). done.
    + eapply (elem_of_nil p), (Hi _ _ Ei). done.
Qed.

(** ** The hits of a shard *)

(** An NFT behind a probe, with the text of the URI. *)
Definition behind (postings : UriPostingRef → option (list nat)) (p : PreparedUriPosting) (n : nat) (text : str) : Prop :=
  uri_of_number s (ref_uri (prepared_ref p)) = Some text ∧ ∃ l, postings (prepared_ref p) = Some l ∧ n ∈ l.

(** Probes that can be visited. *)
Definition visitable (postings : UriPostingRef → option (list nat)) (p : PreparedUriPosting) : Prop :=
  is_Some (uri_of_number s (ref_uri (prepared_ref p))) ∧ ∃ l, postings (prepared_ref p) = Some l ∧ ∀ n, n ∈ l → n < length (nfts ids).

Lemma uri_hit_spec q n key text dimension : n < length (nfts ids) →
  ∃ h : DedupHit F, uri_hit s q n key text dimension = Ok h ∧
    share_hit s (raw_seed_id q) (raw_contract_id q) n dimension (text, key) = Some h.
Proof using Hs.
  intros Hn. unfold uri_hit, share_hit, retained_key. destruct (us_key _ _ _ _ _ Hs n Hn) as [k Hk]. rewrite Hk. fold (stored_key s n). rewrite Hk.
  rewrite contract_number_ids, (us_identity _ _ _ _ _ Hs). destruct (lookup_lt_is_Some_2 _ _ Hn) as [identity Hi].
  cbn [expect mbind fallible_bind option_bind fmap option_fmap option_map]. rewrite Hi. by eexists.
Qed.

Section Visit.
Context (index : UriIndex) (q : SeedRawQuery).

Definition foreign (n : nat) : Prop := contract_number s n ≠ Some (raw_contract_id q).

(** The hits of probes, through one column. *)
Definition probe_hit (postings : UriPostingRef → option (list nat)) dimension (l : list PreparedUriPosting) (n : nat) (h : DedupHit F) : Prop :=
  ∃ p text, p ∈ l ∧ behind postings p n text ∧ foreign n ∧
    share_hit s (raw_seed_id q) (raw_contract_id q) n dimension (text, prepared_seed_nft p) = Some h.

Definition probed (postings : UriPostingRef → option (list nat)) (l : list PreparedUriPosting) (n : nat) : Prop :=
  ∃ p text, p ∈ l ∧ behind postings p n text ∧ foreign n.

(** The NFTs of one posting list. *)
Lemma token_candidates_spec key text (V : nat → Prop) (K : DedupHit F → Prop) visit l :
  (∀ n, n ∈ l → n < length (nfts ids)) → (∀ n, n ∈ visit.1 ↔ V n) → (∀ h, h ∈ visit.2 ↔ K h) →
  ∃ visit', loop (token_candidate s ids q key text) visit l = Ok visit' ∧
    (∀ n, n ∈ visit'.1 ↔ V n ∨ (n ∈ l ∧ foreign n)) ∧
    ∀ h, h ∈ visit'.2 ↔ K h ∨ ∃ n, n ∈ l ∧ foreign n ∧
      share_hit s (raw_seed_id q) (raw_contract_id q) n TokenUriDimension (text, key) = Some h.
Proof using Hs.
  intros Hlt V1 V2. apply (loop_invariant (λ e v, (∀ n, n ∈ v.1 ↔ V n ∨ (n ∈ e ∧ foreign n)) ∧
    ∀ h, h ∈ v.2 ↔ K h ∨ ∃ n, n ∈ e ∧ foreign n ∧ share_hit s (raw_seed_id q) (raw_contract_id q) n TokenUriDimension (text, key) = Some h)).
  - split; [intros n; rewrite V1|intros h; rewrite V2]; (split; [by left|]); [intros [?|[?%elem_of_nil _]]|intros [?|(n & ?%elem_of_nil & _)]]; done.
  - intros e n v Hn [W1 W2]. unfold token_candidate. destruct (lookup_lt_is_Some_2 (nfts ids) n) as [identity Hi]; [by apply Hlt|].
    rewrite Hi. cbn [expect mbind fallible_bind].
    assert (Hf : foreign n ↔ contract_id identity ≠ raw_contract_id q) by (unfold foreign; rewrite contract_number_ids, Hi; cbn; split; congruence).
    case_decide as Hc.
    + eexists. split; [done|]. split; [intros n'; rewrite W1|intros h; rewrite W2]; setoid_rewrite elem_of_app; setoid_rewrite list_elem_of_singleton.
      * split; [tauto|]. intros [?|[[?| ->] ?]]; tauto.
      * split; [intros [?|(n' & ? & ?)]; [by left|right; exists n'; tauto]|]. intros [?|(n' & [?| ->] & ? & ?)]; [by left|right; by exists n'|tauto].
    + destruct (uri_hit_spec q n key text TokenUriDimension) as (h0 & -> & Hh0); [by apply Hlt|]. cbn [mbind fallible_bind].
      eexists. split; [done|]. cbn [fst snd].
      split; [intros n'; rewrite elem_of_union, elem_of_singleton, W1|intros h; rewrite elem_of_app, list_elem_of_singleton, W2];
        setoid_rewrite elem_of_app; setoid_rewrite list_elem_of_singleton.
      * split; [intros [->|?]; tauto|]. intros [?|[[?| ->] ?]]; tauto.
      * split; [intros [[?|(n' & ? & ?)]| ->]; [by left|right; exists n'; tauto|right; exists n; tauto]|].
        intros [?|(n' & [?| ->] & ? & ?)]; [tauto|left; right; by exists n'|right; congruence].
Qed.

Lemma image_candidates_spec key text (V : nat → Prop) (K : DedupHit F → Prop) visit l :
  (∀ n, n ∈ l → n < length (nfts ids)) → (∀ n, n ∈ visit.1 ↔ V n) → (∀ h, h ∈ visit.2 ↔ K h) →
  ∃ visit', loop (image_candidate s ids q key text) visit l = Ok visit' ∧ (∀ n, n ∈ visit'.1 ↔ V n) ∧
    ∀ h, h ∈ visit'.2 ↔ K h ∨ ∃ n, n ∈ l ∧ ¬ V n ∧ foreign n ∧
      share_hit s (raw_seed_id q) (raw_contract_id q) n ImageUriDimension (text, key) = Some h.
Proof using Hs.
  intros Hlt V1 V2. apply (loop_invariant (λ e v, (∀ n, n ∈ v.1 ↔ V n) ∧
    ∀ h, h ∈ v.2 ↔ K h ∨ ∃ n, n ∈ e ∧ ¬ V n ∧ foreign n ∧ share_hit s (raw_seed_id q) (raw_contract_id q) n ImageUriDimension (text, key) = Some h)).
  - split; [done|]. intros h; rewrite V2. split; [by left|]. by intros [?|(n & ?%elem_of_nil & _)].
  - intros e n v Hn [W1 W2]. unfold image_candidate.
    assert (Hskip : (¬ V n → foreign n → False) → ∀ h, h ∈ v.2 ↔ K h ∨ ∃ n', n' ∈ e ++ [n] ∧ ¬ V n' ∧ foreign n' ∧
      share_hit s (raw_seed_id q) (raw_contract_id q) n' ImageUriDimension (text, key) = Some h).
    { intros Hno h. rewrite W2. setoid_rewrite elem_of_app. setoid_rewrite list_elem_of_singleton.
      split; [intros [?|(n' & ? & ?)]; [by left|right; exists n'; tauto]|]. intros [?|(n' & [?| ->] & ? & ? & ?)]; [by left|right; by exists n'|tauto]. }
    case_decide as Hseen; [exists v; split; [done|]; split; [done|]; apply Hskip; rewrite W1 in Hseen; tauto|]. rewrite W1 in Hseen.
    destruct (lookup_lt_is_Some_2 (nfts ids) n) as [identity Hi]; [by apply Hlt|]. rewrite Hi. cbn [expect mbind fallible_bind].
    assert (Hf : foreign n ↔ contract_id identity ≠ raw_contract_id q) by (unfold foreign; rewrite contract_number_ids, Hi; cbn; split; congruence).
    case_decide as Hc; [exists v; split; [done|]; split; [done|]; apply Hskip; tauto|].
    destruct (uri_hit_spec q n key text ImageUriDimension) as (h0 & -> & Hh0); [by apply Hlt|]. cbn [mbind fallible_bind].
    eexists. split; [done|]. cbn [fst snd]. split; [done|]. intros h. rewrite elem_of_app, list_elem_of_singleton, W2.
    setoid_rewrite elem_of_app; setoid_rewrite list_elem_of_singleton.
    split; [intros [[?|(n' & ? & ?)]| ->]; [by left|right; exists n'; tauto|right; exists n; tauto]|].
    intros [?|(n' & [?| ->] & ? & ? & ?)]; [tauto|left; right; by exists n'|right; congruence].
Qed.

Lemma probe_hit_snoc postings dimension d p n h l text : uri_of_number s (ref_uri (prepared_ref p)) = Some text → postings (prepared_ref p) = Some l →
  probe_hit postings dimension (d ++ [p]) n h ↔ probe_hit postings dimension d n h ∨
    (n ∈ l ∧ foreign n ∧ share_hit s (raw_seed_id q) (raw_contract_id q) n dimension (text, prepared_seed_nft p) = Some h).
Proof using Type.
  intros Ht Hl. unfold probe_hit. setoid_rewrite elem_of_app. setoid_rewrite list_elem_of_singleton. split.
  - intros (p' & t' & [?| ->] & Hb & ? & ?); [left; by exists p', t'|]. destruct Hb as (Ht' & l' & Hl' & Hn). right. simplify_eq. done.
  - intros [(p' & t' & ? & ?)|(? & ? & ?)]; [exists p', t'; tauto|]. exists p, text. split_and!; [by right|split; eauto|done..].
Qed.

Lemma probed_snoc postings d p n l text : uri_of_number s (ref_uri (prepared_ref p)) = Some text → postings (prepared_ref p) = Some l →
  probed postings (d ++ [p]) n ↔ probed postings d n ∨ (n ∈ l ∧ foreign n).
Proof using Type.
  intros Ht Hl. unfold probed. setoid_rewrite elem_of_app. setoid_rewrite list_elem_of_singleton. split.
  - intros (p' & t' & [?| ->] & Hb & ?); [left; by exists p', t'|]. destruct Hb as (Ht' & l' & Hl' & Hn). right. simplify_eq. done.
  - intros [(p' & t' & ? & ?)|(? & ?)]; [exists p', t'; tauto|]. exists p, text. split_and!; [by right|split; eauto|done..].
Qed.

Lemma visit_tokens_spec l : (∀ p, p ∈ l → visitable (token_postings index) p) →
  ∃ visit, loop (visit_token s ids uris index q) (∅, []) l = Ok visit ∧
    (∀ n, n ∈ visit.1 ↔ probed (token_postings index) l n) ∧
    ∀ h : DedupHit F, h ∈ visit.2 ↔ ∃ n, probe_hit (token_postings index) TokenUriDimension l n h.
Proof using Hs.
  intros Hl. apply (loop_invariant (λ d visit, (∀ n, n ∈ visit.1 ↔ probed (token_postings index) d n) ∧
    ∀ h, h ∈ visit.2 ↔ ∃ n, probe_hit (token_postings index) TokenUriDimension d n h)).
  - split; [intros n; split; [set_solver|by intros (p & text & ?%elem_of_nil & _)]|].
    intros h. split; [by intros ?%elem_of_nil|by intros (n & p & text & ?%elem_of_nil & _)].
  - intros d p visit Hp [V1 V2]. destruct (Hl p Hp) as [[text Ht] (ps & Hps & Hlt)]. unfold visit_token. rewrite Hps. cbn [expect mbind fallible_bind].
    assert (Htext : frozen_get (uri_values uris) (ref_uri (prepared_ref p)) = Some text)
      by (unfold uri_of_number in Ht; by rewrite (us_features _ _ _ _ _ Hs) in Ht).
    rewrite Htext. cbn [expect mbind fallible_bind].
    destruct (token_candidates_spec (prepared_seed_nft p) text _ _ visit ps Hlt V1 V2) as (visit' & Hrun & W1 & W2). exists visit'.
    split; [exact Hrun|]. split; [intros n; by rewrite W1, (probed_snoc _ _ _ _ _ _ Ht Hps)|]. intros h. rewrite W2.
    setoid_rewrite (λ n, probe_hit_snoc _ TokenUriDimension d p n h _ _ Ht Hps). split; [intros [(n & ?)|(n & ?)]; eauto|].
    intros (n & [?|?]); eauto.
Qed.

Lemma visit_uri_shard_spec tokens images :
  (∀ p, p ∈ tokens → visitable (token_postings index) p) → (∀ p, p ∈ images → visitable (image_postings index) p) →
  ∃ hits, visit_uri_shard s ids uris index q tokens images = Ok hits ∧ ∀ h : DedupHit F, h ∈ hits ↔
    (∃ n, probe_hit (token_postings index) TokenUriDimension tokens n h) ∨
    ∃ n, ¬ probed (token_postings index) tokens n ∧ probe_hit (image_postings index) ImageUriDimension images n h.
Proof using Hs.
  intros Ht Hi. unfold visit_uri_shard. destruct (visit_tokens_spec tokens Ht) as (visit & -> & V1 & V2). cbn [mbind fallible_bind].
  destruct (loop_invariant (λ d visit, (∀ n, n ∈ visit.1 ↔ probed (token_postings index) tokens n) ∧
    ∀ h, h ∈ visit.2 ↔ (∃ n, probe_hit (token_postings index) TokenUriDimension tokens n h) ∨
      ∃ n, ¬ probed (token_postings index) tokens n ∧ probe_hit (image_postings index) ImageUriDimension d n h)
    (visit_image s ids uris index q) visit images) as (visit' & -> & W1 & W2).
  - split; [done|]. intros h. rewrite V2. split; [by left|]. intros [?|(n & _ & p & text & ?%elem_of_nil & _)]; done.
  - intros d p v Hp [W1 W2]. destruct (Hi p Hp) as [[text Htext] (ps & Hps & Hlt)]. unfold visit_image. rewrite Hps. cbn [expect mbind fallible_bind].
    assert (Hget : frozen_get (uri_values uris) (ref_uri (prepared_ref p)) = Some text)
      by (unfold uri_of_number in Htext; by rewrite (us_features _ _ _ _ _ Hs) in Htext).
    rewrite Hget. cbn [expect mbind fallible_bind].
    destruct (image_candidates_spec (prepared_seed_nft p) text _ _ v ps Hlt W1 W2) as (v' & Hrun & X1 & X2). exists v'.
    split; [exact Hrun|]. split; [done|]. intros h. rewrite X2.
    setoid_rewrite (λ n, probe_hit_snoc _ ImageUriDimension d p n h _ _ Htext Hps). split.
    + intros [[?|(n & ? & ?)]|(n & ? & ? & ?)]; eauto 6.
    + intros [?|(n & ? & [?|(? & ? & ?)])]; eauto 8.
  - cbn [mbind fallible_bind]. by exists visit'.2.
Qed.
End Visit.

(** ** The hits of a seed in a shard *)

Section Column.
Context (proj : UriFeatureRecord → option nat) (Hp : is_column proj) (c : nat) (values : list nat) (evidence : list (nat * NftKey)).
Context (Hq : query_column proj c values evidence).
Context (wanted : list nat) (Hwanted : ∀ u, u ∈ values → u ∈ wanted).
Context (shard_count : nat) (refs : nat → list UriPostingRef) (postings : UriPostingRef → option (list nat)).
Context (Hf : finds uris proj wanted shard_count refs postings).

(** Sharing a URI with the contract of the seed is being behind a probe. *)
Lemma shares_probe n text key : shares s proj c n = Some (text, key) ↔
  ∃ p, probe values evidence refs p ∧ behind postings p n text ∧ prepared_seed_nft p = key ∧ ref_shard (prepared_ref p) = shard_of shard_count n.
Proof using Hs Hp Hq Hwanted Hf.
  unfold shares. split.
  - intros (text' & Ht & (j & Hj & (key' & Hkey & [= <- <-])%bind_Some)%bind_Some)%bind_Some.
    unfold nft_uri in Ht. apply bind_Some in Ht as (u & Hu & Ht).
    assert (Hin : u ∈ values).
    { apply (query_values _ _ _ _ Hq). exists j. unfold first_with in Hj. apply head_Some_elem_of in Hj.
      apply list_elem_of_filter in Hj as [[Hc Hj] _]. split; [done|]. by apply (number_uri proj j u text'). }
    destruct (query_evidence _ _ _ _ Hq u text' Hin Ht) as (j' & key'' & Hj' & Hkey' & He). rewrite Hj in Hj'. injection Hj' as <-.
    rewrite Hkey in Hkey'. injection Hkey' as <-. rewrite uri_number_features in Hu.
    destruct (finds_nft _ _ _ _ _ _ Hf n u Hu (Hwanted u Hin)) as (r & Hr & Hsh).
    destruct (finds_ref _ _ _ _ _ _ Hf u r Hr) as (Href & _ & l & Hl & Hn).
    exists {| prepared_ref := r; prepared_seed_nft := key' |}. split_and!; [by exists u, r, key'| |done|done].
    split; [cbn; by rewrite Href|]. exists l. split; [done|]. apply Hn. split_and!; [done|by apply Hwanted|done].
  - intros (p & (u & r & key' & Hin & Hr & He & ->) & [Ht (l & Hl & Hn)] & Hkey & _). cbn in *. subst key'.
    destruct (finds_ref _ _ _ _ _ _ Hf u r Hr) as (Href & _ & l' & Hl' & Hn'). rewrite Hl in Hl'. injection Hl' as <-.
    apply Hn' in Hn as (Hu & _ & _). rewrite <- uri_number_features in Hu. rewrite Href in Ht.
    assert (Hnu : nft_uri s proj n = Some text) by (unfold nft_uri; by rewrite Hu). rewrite Hnu. cbn [mbind option_bind].
    destruct (query_evidence _ _ _ _ Hq u text Hin Ht) as (j & key'' & Hj & Hkey & He'). rewrite Hj. cbn [mbind option_bind]. rewrite Hkey.
    cbn [mbind option_bind]. congruence.
Qed.

(** An NFT behind a probe is in the shard of the probe. *)
Lemma behind_shard p n text : probe values evidence refs p → behind postings p n text →
  ref_shard (prepared_ref p) = shard_of shard_count n ∧ n < length (nfts ids).
Proof using Hs Hf.
  intros (u & r & key & Hin & Hr & He & ->) [_ (l & Hl & Hn)]. cbn in *.
  destruct (finds_ref _ _ _ _ _ _ Hf u r Hr) as (_ & _ & l' & Hl' & Hn'). rewrite Hl in Hl'. injection Hl' as <-.
  apply Hn' in Hn as (Hu & _ & ?). rewrite <- uri_number_features in Hu. split; [done|by eapply number_lt].
Qed.

Lemma probe_visitable p : probe values evidence refs p → visitable postings p.
Proof using Hs Hp Hq Hf.
  intros (u & r & key & Hin & Hr & He & ->). cbn. destruct (finds_ref _ _ _ _ _ _ Hf u r Hr) as (Href & _ & l & Hl & Hn). split; cbn.
  - rewrite Href. apply (query_values _ _ _ _ Hq) in Hin as (j & _ & Hj). by apply (number_text proj j).
  - exists l. split; [done|]. intros n (Hu & _ & _)%Hn. rewrite <- uri_number_features in Hu. by eapply number_lt.
Qed.

Lemma evidence_ok u : u ∈ values → ∃ key, seed_uri_evidence evidence u = Ok key.
Proof using Hs Hp Hq.
  intros Hin. pose proof Hin as (j & _ & Hj)%(query_values _ _ _ _ Hq). destruct (number_text proj j u Hp Hj) as [text Ht].
  destruct (query_evidence _ _ _ _ Hq u text Hin Ht) as (_ & key & _ & _ & ?). by exists key.
Qed.

Lemma probe_shard p : probe values evidence refs p → ref_shard (prepared_ref p) < shard_count.
Proof using Hf. intros (u & r & key & Hin & Hr & He & ->). by destruct (finds_ref _ _ _ _ _ _ Hf u r Hr) as (_ & ? & _). Qed.
End Column.

(** A seed of the plan and the index of its URIs. *)
Section Seed.
Context (definition : SeedDefinition Time) (c : nat) (q : SeedRawQuery) (Hq : planned definition c q).
Context (tokens images : list nat) (Htokens : ∀ u, u ∈ token_uri_values q → u ∈ tokens) (Himages : ∀ u, u ∈ image_uri_values q → u ∈ images).
Context (shard_count : nat) (index : UriIndex).
Context (Ht : finds uris token_uri tokens shard_count (token_posting_refs index) (token_postings index)).
Context (Hi : finds uris image_uri images shard_count (image_posting_refs index) (image_postings index)).

Abbreviation token_probe := (probe (token_uri_values q) (token_uri_evidence q) (token_posting_refs index)).
Abbreviation image_probe := (probe (image_uri_values q) (image_uri_evidence q) (image_posting_refs index)).

Lemma token_shares n text key : shares s token_uri c n = Some (text, key) ↔
  ∃ p, token_probe p ∧ behind (token_postings index) p n text ∧ prepared_seed_nft p = key ∧ ref_shard (prepared_ref p) = shard_of shard_count n.
Proof using Hs Hq Htokens Ht. exact (shares_probe token_uri (or_introl eq_refl) c _ _ (planned_token _ _ _ Hq) tokens Htokens shard_count _ _ Ht n text key). Qed.

Lemma image_shares n text key : shares s image_uri c n = Some (text, key) ↔
  ∃ p, image_probe p ∧ behind (image_postings index) p n text ∧ prepared_seed_nft p = key ∧ ref_shard (prepared_ref p) = shard_of shard_count n.
Proof using Hs Hq Himages Hi. exact (shares_probe image_uri (or_intror eq_refl) c _ _ (planned_image _ _ _ Hq) images Himages shard_count _ _ Hi n text key). Qed.

Lemma token_behind p n text : token_probe p → behind (token_postings index) p n text →
  ref_shard (prepared_ref p) = shard_of shard_count n ∧ n < length (nfts ids).
Proof using Hs Ht. exact (behind_shard token_uri _ _ tokens shard_count _ _ Ht p n text). Qed.

Lemma image_behind p n text : image_probe p → behind (image_postings index) p n text →
  ref_shard (prepared_ref p) = shard_of shard_count n ∧ n < length (nfts ids).
Proof using Hs Hi. exact (behind_shard image_uri _ _ images shard_count _ _ Hi p n text). Qed.

Lemma foreign_contract n : foreign q n ↔ contract_number s n ≠ Some c.
Proof using Hq. unfold foreign. by rewrite (planned_contract _ _ _ Hq). Qed.

(** The probes of a shard. *)
Context (sh : nat) (ps qs : list PreparedUriPosting).
Context (Hps : ∀ p, p ∈ ps ↔ token_probe p ∧ ref_shard (prepared_ref p) = sh).
Context (Hqs : ∀ p, p ∈ qs ↔ image_probe p ∧ ref_shard (prepared_ref p) = sh).

Lemma probed_shares n : shard_of shard_count n = sh →
  probed q (token_postings index) ps n ↔ contract_number s n ≠ Some c ∧ is_Some (shares s token_uri c n).
Proof using Hs Hq Htokens Ht Hps.
  intros Hsh. unfold probed. setoid_rewrite foreign_contract. split.
  - intros (p & text & [Hp _]%Hps & Hb & ?). split; [done|]. exists (text, prepared_seed_nft p). apply token_shares. exists p.
    split_and!; [done..|by eapply token_behind].
  - intros [? [[text key] (p & Hp & Hb & _ & Hsp)%token_shares]]. exists p, text. split_and!; [apply Hps; split; [done|congruence]|done..].
Qed.

Lemma share_hit_contract seed n dimension shared (h : DedupHit F) : share_hit s seed c n dimension shared = Some h → ∃ d, contract_number s n = Some d.
Proof using Type. unfold share_hit. intros (k & _ & (d & Hd & _)%bind_Some)%bind_Some. by exists d. Qed.

Lemma nft_hit_alt n (h : DedupHit F) : nft_hit s (seed_id definition) c n = Some h ↔ contract_number s n ≠ Some c ∧
  ((∃ shared, shares s token_uri c n = Some shared ∧ share_hit s (seed_id definition) c n TokenUriDimension shared = Some h) ∨
   (shares s token_uri c n = None ∧ ∃ shared, shares s image_uri c n = Some shared ∧
      share_hit s (seed_id definition) c n ImageUriDimension shared = Some h)).
Proof using Type.
  unfold nft_hit. split.
  - intros (d & Hd & Hhit)%bind_Some. case_decide as Hc; [done|]. split; [congruence|].
    destruct (shares s token_uri c n) as [shared|]; [left; by exists shared|right]. split; [done|]. by apply bind_Some in Hhit.
  - intros [Hc Hhit]. assert (Hd : ∃ d, contract_number s n = Some d)
      by (destruct Hhit as [(? & _ & ?)|(_ & ? & _ & ?)]; by eapply share_hit_contract).
    destruct Hd as [d Hd]. rewrite Hd. cbn [mbind option_bind]. rewrite decide_False by congruence.
    destruct Hhit as [(shared & -> & ?)|(-> & shared & -> & ?)]; done.
Qed.

(** The hits of one shard are those of its NFTs. *)
Lemma shard_hits_spec :
  ∃ hits, visit_uri_shard s ids uris index q ps qs = Ok hits ∧ ∀ h : DedupHit F, h ∈ hits ↔
    ∃ n, n < length (nfts ids) ∧ shard_of shard_count n = sh ∧ nft_hit s (seed_id definition) c n = Some h.
Proof using Hs Hq Htokens Himages Ht Hi Hps Hqs.
  destruct (visit_uri_shard_spec index q ps qs) as (hits & Hrun & Hh).
  - intros p [Hp _]%Hps. by eapply (probe_visitable token_uri (or_introl eq_refl) c), Hp; [apply Hq|exact Ht].
  - intros p [Hp _]%Hqs. by eapply (probe_visitable image_uri (or_intror eq_refl) c), Hp; [apply Hq|exact Hi].
  - exists hits. split; [done|]. intros h. rewrite Hh. unfold probe_hit. rewrite (planned_seed _ _ _ Hq), (planned_contract _ _ _ Hq).
    setoid_rewrite foreign_contract. setoid_rewrite nft_hit_alt. split.
    + intros [(n & p & text & [Hp Hsp]%Hps & Hb & Hc & Hhit)|(n & Hnp & p & text & [Hp Hsp]%Hqs & Hb & Hc & Hhit)]; exists n.
      * destruct (token_behind p n text Hp Hb) as [Hsn Hlt]. split_and!; [done|congruence|done|]. left. eexists. split; [|exact Hhit].
        apply token_shares. by exists p.
      * destruct (image_behind p n text Hp Hb) as [Hsn Hlt]. split_and!; [done|congruence|done|]. right. split.
        -- apply eq_None_not_Some. intros Hsome. apply Hnp, probed_shares; [congruence|done].
        -- eexists. split; [|exact Hhit]. apply image_shares. by exists p.
    + intros (n & Hn & Hsh & Hc & [([text key] & Hshare & Hhit)|(Hnone & [text key] & Hshare & Hhit)]).
      * left. apply token_shares in Hshare as (p & Hp & Hb & <- & Hsp). exists n, p, text. split_and!; [apply Hps; split; [done|congruence]|done..].
      * right. exists n. split; [rewrite probed_shares, Hnone by done; intros [_ []%is_Some_None]|].
        apply image_shares in Hshare as (p & Hp & Hb & <- & Hsp). exists p, text. split_and!; [apply Hqs; split; [done|congruence]|done..].
Qed.
End Seed.

Lemma column_probes proj c values evidence wanted shard_count refs postings : is_column proj → query_column proj c values evidence →
  finds uris proj wanted shard_count refs postings →
  ∃ by_shard, loop (add_probes evidence refs) (replicate shard_count []) values = Ok by_shard ∧ sorted_probes (probe values evidence refs) shard_count by_shard.
Proof using Hs.
  intros Hp Hq Hf. apply add_probes_spec.
  - intros u Hu. by eapply evidence_ok.
  - intros u r Hu Hr. by destruct (finds_ref _ _ _ _ _ _ Hf u r Hr) as (_ & ? & _).
Qed.

Lemma build_prepared_query_spec definition c q tokens images shard_count index : planned definition c q →
  finds uris token_uri tokens shard_count (token_posting_refs index) (token_postings index) →
  finds uris image_uri images shard_count (image_posting_refs index) (image_postings index) →
  ∃ queries, build_prepared_query index shard_count q = Ok queries ∧
    prepared_queries (probe (token_uri_values q) (token_uri_evidence q) (token_posting_refs index))
      (probe (image_uri_values q) (image_uri_evidence q) (image_posting_refs index)) queries.
Proof using Hs.
  intros Hq Ht Hi. unfold build_prepared_query.
  destruct (column_probes token_uri c _ _ _ _ _ _ (or_introl eq_refl) (planned_token _ _ _ Hq) Ht) as (by_token & -> & Hbt).
  destruct (column_probes image_uri c _ _ _ _ _ _ (or_intror eq_refl) (planned_image _ _ _ Hq) Hi) as (by_image & -> & Hbi).
  cbn [mbind fallible_bind]. eexists. split; [done|]. apply (shard_queries_spec _ _ shard_count); [|done..].
  intros p [Hp|Hp]; [exact (probe_shard token_uri _ _ tokens _ _ _ Ht p Hp)|exact (probe_shard image_uri _ _ images _ _ _ Hi p Hp)].
Qed.

(** The probes of a shard are the same without a plan. *)
Lemma shard_probes_spec proj c values evidence wanted shard_count refs postings sh : is_column proj → query_column proj c values evidence →
  finds uris proj wanted shard_count refs postings →
  ∃ ps, shard_probes evidence refs values sh = Ok ps ∧ ∀ p, p ∈ ps ↔ probe values evidence refs p ∧ ref_shard (prepared_ref p) = sh.
Proof using Hs.
  intros Hp Hq Hf. unfold shard_probes. set (l := filter _ _).
  assert (Hl : ∀ r, r ∈ l ↔ ref_shard r = sh ∧ ref_uri r ∈ values ∧ r ∈ refs (ref_uri r)).
  { intros r. unfold l. rewrite list_elem_of_filter, list_elem_of_join. split.
    - intros [? (rs & Hr & (u & -> & Hu)%list_elem_of_fmap)]. destruct (finds_ref _ _ _ _ _ _ Hf u r Hr) as [-> _]. done.
    - intros (? & Hu & Hr). split; [done|]. exists (refs (ref_uri r)). split; [done|]. apply list_elem_of_fmap. by exists (ref_uri r). }
  set (key := λ u, match seed_uri_evidence evidence u with Ok key => key | _ => {| nft_chain := Base; nft_contract := []; nft_token := [] |} end).
  rewrite (try_map_Ok _ (λ r, {| prepared_ref := r; prepared_seed_nft := key (ref_uri r) |})).
  - eexists. split; [done|]. intros p. rewrite list_elem_of_fmap. split.
    + intros (r & -> & (? & Hu & Hr)%Hl). split; [|done]. destruct (evidence_ok proj Hp c _ _ Hq _ Hu) as [k Hk].
      exists (ref_uri r), r, k. split_and!; [done..|]. unfold key. by rewrite Hk.
    + intros [(u & r & k & Hu & Hr & Hk & ->) Hsh]. destruct (finds_ref _ _ _ _ _ _ Hf u r Hr) as [Hru _]. exists r. subst u. split.
      * unfold key. by rewrite Hk.
      * by apply Hl.
  - intros r (_ & Hu & _)%Hl. destruct (evidence_ok proj Hp c _ _ Hq _ Hu) as [k Hk]. unfold key. by rewrite Hk.
Qed.

Lemma query_uri_shard_spec definition c q tokens images shard_count index sh : planned definition c q →
  (∀ u, u ∈ token_uri_values q → u ∈ tokens) → (∀ u, u ∈ image_uri_values q → u ∈ images) →
  finds uris token_uri tokens shard_count (token_posting_refs index) (token_postings index) →
  finds uris image_uri images shard_count (image_posting_refs index) (image_postings index) →
  ∃ hits, query_uri_shard s ids uris index q sh = Ok hits ∧ ∀ h : DedupHit F, h ∈ hits ↔
    ∃ n, n < length (nfts ids) ∧ shard_of shard_count n = sh ∧ nft_hit s (seed_id definition) c n = Some h.
Proof using Hs.
  intros Hq Htok Himg Ht Hi. unfold query_uri_shard, prepare_shard_postings.
  destruct (shard_probes_spec token_uri c _ _ _ _ _ _ sh (or_introl eq_refl) (planned_token _ _ _ Hq) Ht) as (ps & -> & Hps).
  destruct (shard_probes_spec image_uri c _ _ _ _ _ _ sh (or_intror eq_refl) (planned_image _ _ _ Hq) Hi) as (qs & -> & Hqs).
  cbn [mbind fallible_bind]. by eapply shard_hits_spec.
Qed.

(** ** The stage *)

Section Stage.
Context (iterate : gmap (Z * Z) (SeedCandidateRelation F) → list (SeedCandidateRelation F)) (Hit : traverses iterate).
Context (sched : StageSchedule) (shard_count : nat) (Hshards : 0 < shard_count) (Hlanes : 0 < stage_lanes sched).
Context (Hsize : (Z.of_nat (length (features uris)) * Z.of_nat (stage_lanes sched) < 2 ^ 64)%Z).
Context (manifest : SeedManifest Time) (plan : SeedRawPlan) (index : UriIndex) (queries : list (list PreparedUriShardQuery)).
Abbreviation found := (found_seeds (manifest_seeds manifest)).
Context (Hplan : Forall2 (λ (e : SeedDefinition Time * nat) q, planned e.1 e.2 q) found (plan_seeds plan)).
Context (Ht : finds uris token_uri (mjoin (token_uri_values <$> plan_seeds plan)) shard_count (token_posting_refs index) (token_postings index)).
Context (Hi : finds uris image_uri (mjoin (image_uri_values <$> plan_seeds plan)) shard_count (image_posting_refs index) (image_postings index)).
Context (Hqueries : Forall2 (λ q qs, prepared_queries (probe (token_uri_values q) (token_uri_evidence q) (token_posting_refs index))
  (probe (image_uri_values q) (image_uri_evidence q) (image_posting_refs index)) qs) (plan_seeds plan) queries).

Lemma found_elem d c : (d, c) ∈ found ↔ d ∈ manifest_seeds manifest ∧ seed_contract_id s d = Some c.
Proof using Type.
  unfold found_seeds. rewrite list_elem_of_omap. split.
  - intros (d' & Hd & (c' & Hc & [= -> ->])%bind_Some). done.
  - intros [Hd Hc]. exists d. split; [done|]. by rewrite Hc.
Qed.

Lemma seed_contract_lt (d : SeedDefinition Time) c : seed_contract_id s d = Some c → c < length (contracts s).
Proof using Hs.
  unfold seed_contract_id. destruct (catalog_find_spec (seed_key d)) as (r & -> & Hr). cbn. destruct r as [z|]; [|done]. cbn. intros [= <-].
  destruct Hr as (rec & Hrec & _). by eapply lookup_lt_Some.
Qed.

Lemma elem_of_uri_hits (h : DedupHit F) : h ∈ uri_hits s manifest ↔
  ∃ d c n, (d, c) ∈ found ∧ n < length (nfts ids) ∧ nft_hit s (seed_id d) c n = Some h.
Proof using Hs.
  clear Hshards Hlanes Hsize. unfold uri_hits. rewrite list_elem_of_join. split.
  - intros (l & Hh & (d & -> & Hd)%list_elem_of_fmap). unfold seed_hits in Hh. destruct (seed_contract_id s d) as [c|] eqn:Hc; [|by apply elem_of_nil in Hh].
    apply list_elem_of_omap in Hh as (n & Hn%elem_of_seq & Hh). rewrite nft_count_ids in Hn. exists d, c, n. rewrite found_elem. split_and!; [done|done|lia|done].
  - intros (d & c & n & [Hd Hc]%found_elem & Hn & Hh). exists (seed_hits s d). split; [|apply list_elem_of_fmap; by exists d].
    unfold seed_hits. rewrite Hc. apply list_elem_of_omap. exists n. split; [|done]. apply elem_of_seq. rewrite nft_count_ids. lia.
Qed.

(** Every hit is one of contracts of the catalog. *)
Lemma uri_hits_catalogued (hits : list (DedupHit F)) : (∀ h, h ∈ hits → h ∈ uri_hits s manifest) → catalogued (contracts s) hits.
Proof using Hs.
  intros Hsub h (d & c & n & [_ Hc]%found_elem & Hn & Hh)%Hsub%elem_of_uri_hits. apply nft_hit_alt in Hh as [_ Hh].
  assert (Hshare : ∃ dimension shared, share_hit s (seed_id d) c n dimension shared = Some h)
    by (destruct Hh as [(shared & _ & ?)|(_ & shared & _ & ?)]; by eexists _, shared).
  destruct Hshare as (dimension & shared & (k & _ & (e & He & [= <-])%bind_Some)%bind_Some). unfold relation_of_hit, catalog_key, ContractCatalog. cbn. rewrite !Nat2Z.id.
  rewrite contract_number_ids in He. destruct (nfts ids !! n) as [identity|] eqn:En; [|done]. injection He as <-.
  destruct (lookup_lt_is_Some_2 _ _ (seed_contract_lt d c Hc)) as [r1 ->].
  destruct (lookup_lt_is_Some_2 _ _ (us_contract _ _ _ _ _ Hs n identity En)) as [r2 ->]. by eexists.
Qed.

(** The hits of a piece of work. *)
Definition work_hit (w : nat * nat) (h : DedupHit F) : Prop := ∃ d c prepared n, found !! w.1 = Some (d, c) ∧
  work_query queries w = Some prepared ∧ n < length (nfts ids) ∧ shard_of shard_count n = prepared_shard prepared ∧ nft_hit s (seed_id d) c n = Some h.

Lemma work_hit_in w h : work_hit w h → h ∈ uri_hits s manifest.
Proof using Hs.
  intros (d & c & prepared & n & Hd & _ & Hn & _ & Hh). apply elem_of_uri_hits. exists d, c, n. split_and!; [by eapply list_elem_of_lookup_2|done..].
Qed.

(** An accumulator of the hits of some work. *)
Definition worked (works : list (nat * nat)) (a : RelationAccumulator (F:=F)) : Prop :=
  ∃ hits, Reduction.built (contracts s) hits a ∧ ∀ h, h ∈ hits ↔ ∃ w, w ∈ works ∧ work_hit w h.

Lemma worked_new : worked [] (new_accumulator (contracts s)).
Proof using Type. exists []. split; [constructor|]. intros h. split; [by intros ?%elem_of_nil|by intros (w & ?%elem_of_nil & _)]. Qed.

Lemma worked_merge l1 l2 a1 a2 : worked l1 a1 → worked l2 a2 → worked (l1 ++ l2) (merge iterate a1 a2).
Proof using Hit.
  intros (h1 & B1 & W1) (h2 & B2 & W2). exists (h1 ++ h2). split; [by constructor|]. intros h. rewrite elem_of_app, W1, W2.
  setoid_rewrite elem_of_app. naive_solver.
Qed.

Lemma worked_proper l l' a : (∀ w, w ∈ l ↔ w ∈ l') → worked l a → worked l' a.
Proof using Type. intros Hl (hits & B & W). exists hits. split; [done|]. intros h. rewrite W. by setoid_rewrite Hl. Qed.

Lemma run_work_spec works a w prepared : work_query queries w = Some prepared → worked works a →
  ∃ a', run_work s ids uris index plan queries a w = Ok a' ∧ worked (works ++ [w]) a'.
Proof using Hs Hplan Ht Hi Hqueries.
  intros Hw (hits & B & W). unfold run_work. pose proof Hw as Hw'. unfold work_query in Hw'. apply bind_Some in Hw' as (qs & Hqs & Hp).
  destruct (Forall2_lookup_r _ _ _ _ _ Hqueries Hqs) as (q & Hq & Hprep). destruct (Forall2_lookup_r _ _ _ _ _ Hplan Hq) as ([d c] & Hd & Hplanned).
  rewrite Hq, Hw. cbn [expect mbind fallible_bind]. unfold query_uri_shard_with_plan_into. apply list_elem_of_lookup_2 in Hp.
  assert (Hin : ∀ values : SeedRawQuery → list nat, ∀ u, u ∈ values q → u ∈ mjoin (values <$> plan_seeds plan)).
  { intros values u Hu. apply list_elem_of_join. exists (values q). split; [done|]. apply list_elem_of_fmap. exists q. split; [done|]. by eapply list_elem_of_lookup_2. }
  destruct (shard_hits_spec d c q Hplanned _ _ (Hin _) (Hin _) shard_count index Ht Hi (prepared_shard prepared) _ _
    (λ p, queries_token _ _ _ Hprep prepared p Hp) (λ p, queries_image _ _ _ Hprep prepared p Hp)) as (new & -> & Hnew). cbn [mbind fallible_bind].
  assert (Hwork : ∀ h, h ∈ new ↔ work_hit w h).
  { intros h. rewrite Hnew. unfold work_hit. split; [intros (n & ? & ? & ?); by exists d, c, prepared, n|].
    intros (d' & c' & prepared' & n & Hd' & Hw' & ? & ? & ?). simplify_eq. by exists n. }
  destruct (extend_hits_built (contracts s) hits new a B) as (a' & -> & B').
  { apply uri_hits_catalogued. intros h [(w' & _ & ?)%W|?%Hwork]%elem_of_app; by eapply work_hit_in. }
  exists a'. split; [done|]. exists (hits ++ new). split; [done|]. intros h. rewrite elem_of_app, W, Hwork.
  setoid_rewrite elem_of_app. setoid_rewrite list_elem_of_singleton. naive_solver.
Qed.

Lemma run_lanes_spec shapes works : (∀ w, w ∈ works → is_Some (work_query queries w)) →
  ∃ a, run_pass iterate sched s ids uris index plan queries shapes works = Ok a ∧ worked works a.
Proof using Hs Hit Hlanes Hplan Ht Hi Hqueries.
  clear Hsize Hshards. intros Hw. unfold run_pass.
  assert (Hlane : ∀ lane, ∃ a, fold_shape (new_accumulator (contracts s)) (run_work s ids uris index plan queries)
      (λ l r, Ok (merge iterate l r)) (shapes lane) (filter (lane_work sched queries lane) works) = Ok a ∧
      worked (filter (lane_work sched queries lane) works) a).
  { intros lane. apply (fold_shape_spec _ _ _ worked); [apply worked_new| |].
    - intros d w a [_ [prepared Hp]%Hw]%list_elem_of_filter Ha. by eapply run_work_spec.
    - intros l1 l2 w1 w2 H1 H2. eexists. split; [done|]. by apply worked_merge. }
  assert (Hparts : ∀ lanes, ∃ parts, try_map (λ lane, fold_shape (new_accumulator (contracts s)) (run_work s ids uris index plan queries)
      (λ l r, Ok (merge iterate l r)) (shapes lane) (filter (lane_work sched queries lane) works)) lanes = Ok parts ∧
      Forall2 (λ lane a, worked (filter (lane_work sched queries lane) works) a) lanes parts).
  { induction lanes as [|lane lanes (parts & IH & Hall)]; [by exists []; split; [|constructor]|]. cbn [try_map].
    destruct (Hlane lane) as (a & -> & Ha). cbn [mbind fallible_bind]. rewrite IH. cbn [mbind fallible_bind]. eexists. split; [done|by constructor]. }
  destruct (Hparts (seq 0 (stage_lanes sched))) as (parts & -> & Hall). cbn [mbind fallible_bind]. eexists. split; [done|].
  assert (Hmerge : ∀ rest lanes l a, worked l a → Forall2 (λ lane a, worked (filter (lane_work sched queries lane) works) a) lanes rest →
    worked (l ++ mjoin ((λ lane, filter (lane_work sched queries lane) works) <$> lanes)) (foldl (merge iterate) a rest)).
  { induction rest as [|b rest IH]; intros lanes l a Ha Hr; apply Forall2_cons_inv_r in Hr || apply Forall2_nil_inv_r in Hr.
    - subst lanes. by rewrite app_nil_r.
    - destruct Hr as (lane & lanes' & Hb & Hr & ->). rewrite fmap_cons, mjoin_cons, app_assoc. cbn [foldl]. apply IH; [by apply worked_merge|done]. }
  destruct (stage_lanes sched) as [|lanes] eqn:El; [lia|]. cbn [seq] in Hall. apply Forall2_cons_inv_l in Hall as (a & rest & Ha & Hall & ->).
  eapply worked_proper; [|exact (Hmerge rest _ _ a Ha Hall)]. intros w.
  rewrite elem_of_app, list_elem_of_filter, list_elem_of_join. split.
  - intros [[_ ?]|(l & Hl & (lane & -> & _)%list_elem_of_fmap)]; [done|]. by apply list_elem_of_filter in Hl as [_ ?].
  - intros Hin. destruct (Hw w Hin) as [prepared Hp].
    assert (Hl : lane_work sched queries (prepared_shard prepared mod stage_lanes sched) w) by (unfold lane_work; by rewrite Hp).
    pose proof (Nat.mod_upper_bound (prepared_shard prepared) (stage_lanes sched)) as Hmod.
    destruct (prepared_shard prepared mod stage_lanes sched) as [|k]; [by left|right].
    exists (filter (lane_work sched queries (S k)) works). split; [by apply list_elem_of_filter|]. apply list_elem_of_fmap. exists (S k). split; [done|].
    apply elem_of_seq. lia.
Qed.

Lemma elem_of_uri_work w : w ∈ uri_work queries ↔ is_Some (work_query queries w).
Proof using Type.
  clear Hshards Hlanes Hsize. unfold uri_work, work_query. rewrite list_elem_of_join. destruct w as [i k]. cbn. split.
  - intros (l & Hl & (j & qs & -> & Hj)%elem_of_lookup_imap_1). apply list_elem_of_fmap in Hl as (k' & [= -> ->] & Hk%elem_of_seq).
    rewrite Hj. cbn. apply lookup_lt_is_Some. lia.
  - intros [prepared Hp]. apply bind_Some in Hp as (qs & Hqs & Hk). exists (pair i <$> seq 0 (length qs)). split.
    + apply list_elem_of_fmap. exists k. split; [done|]. apply elem_of_seq. apply lookup_lt_Some in Hk. lia.
    + apply elem_of_lookup_imap. by exists i, qs.
Qed.

(** Every hit belongs to some work. *)
Lemma hit_has_work h : h ∈ uri_hits s manifest ↔ ∃ w, w ∈ uri_work queries ∧ work_hit w h.
Proof using Hs Hplan Ht Hi Hqueries.
  split; [|intros (w & _ & ?); by eapply work_hit_in]. intros (d & c & n & Hd & Hn & Hh)%elem_of_uri_hits.
  apply list_elem_of_lookup in Hd as [i Hd]. destruct (Forall2_lookup_l _ _ _ _ _ Hplan Hd) as (q & Hq & Hplanned).
  destruct (Forall2_lookup_l _ _ _ _ _ Hqueries Hq) as (qs & Hqs & Hprep).
  assert (Hin : ∀ values : SeedRawQuery → list nat, ∀ u, u ∈ values q → u ∈ mjoin (values <$> plan_seeds plan)).
  { intros values u Hu. apply list_elem_of_join. exists (values q). split; [done|]. apply list_elem_of_fmap. exists q. split; [done|]. by eapply list_elem_of_lookup_2. }
  assert (Hprobe : ∃ prepared, prepared ∈ qs ∧ prepared_shard prepared = shard_of shard_count n).
  { pose proof Hh as [_ [([text key] & Hshare & _)|(_ & [text key] & Hshare & _)]]%nft_hit_alt.
    - apply (token_shares d c q Hplanned _ (Hin _) shard_count index Ht) in Hshare as (p & Hp & _ & _ & Hsh).
      destruct (queries_shard _ _ _ Hprep p (or_introl Hp)) as (prepared & ? & ?). exists prepared. split; [done|congruence].
    - apply (image_shares d c q Hplanned _ (Hin _) shard_count index Hi) in Hshare as (p & Hp & _ & _ & Hsh).
      destruct (queries_shard _ _ _ Hprep p (or_intror Hp)) as (prepared & ? & ?). exists prepared. split; [done|congruence]. }
  destruct Hprobe as (prepared & [k Hk]%list_elem_of_lookup & Hsh).
  assert (Hw : work_query queries (i, k) = Some prepared) by (unfold work_query; cbn; by rewrite Hqs).
  exists (i, k). split; [by apply elem_of_uri_work; rewrite Hw|]. exists d, c, prepared, n. by split_and!.
Qed.

Lemma run_stage overlap : ∃ a,
  (let works := uri_work queries in
   let start := tail_start overlap (length works) in
   relations ← run_pass iterate sched s ids uris index plan queries (query_shapes sched) (take start works);
   if decide (start < length works) then
     tail ← run_pass iterate sched s ids uris index plan queries (tail_shapes sched) (drop start works);
     Ok (merge iterate relations tail)
   else Ok relations) = Ok a ∧ worked (uri_work queries) a.
Proof using Hs Hit Hlanes Hplan Ht Hi Hqueries.
  clear Hshards Hsize. cbn zeta. set (start := tail_start overlap _).
  destruct (run_lanes_spec (query_shapes sched) (take start (uri_work queries))) as (a & -> & Ha).
  { intros w Hw%subseteq_take. by apply elem_of_uri_work. }
  cbn [mbind fallible_bind]. case_decide as Hlt.
  - destruct (run_lanes_spec (tail_shapes sched) (drop start (uri_work queries))) as (b & -> & Hb).
    { intros w [j Hw]%list_elem_of_lookup. rewrite lookup_drop in Hw. apply elem_of_uri_work. by eapply list_elem_of_lookup_2. }
    cbn [mbind fallible_bind]. eexists. split; [done|]. rewrite <- (take_drop start (uri_work queries)). by apply worked_merge.
  - exists a. split; [done|]. by rewrite take_ge in Ha by lia.
Qed.
End Stage.

(** Hits of one seed name one contract. *)
Lemma uri_hits_agree (manifest : SeedManifest Time) : NoDup (seed_id <$> manifest_seeds manifest) → agreeing (uri_hits (F:=F) s manifest).
Proof using Hs.
  intros Hnd h h' Hh Hh' Hid. apply elem_of_uri_hits in Hh as (d & c & n & [Hd Hc]%found_elem & _ & Hh), Hh' as (d' & c' & n' & [Hd' Hc']%found_elem & _ & Hh').
  assert (Hinv : ∀ (d : SeedDefinition Time) c n (h : DedupHit F), nft_hit s (seed_id d) c n = Some h →
    hit_seed_id h = seed_id d ∧ seed_contract h = Z.of_nat c ∧ is_whole (hit_selection h) = false).
  { clear. intros d c n h [_ [(shared & _ & Hh)|(_ & shared & _ & Hh)]]%nft_hit_alt; unfold share_hit in Hh;
      apply bind_Some in Hh as (k & _ & (e & _ & [= <-])%bind_Some); done. }
  destruct (Hinv _ _ _ _ Hh) as (I1 & C1 & W1), (Hinv _ _ _ _ Hh') as (I2 & C2 & W2). rewrite I1, I2 in Hid.
  assert (d = d') as -> by (eapply NoDup_fmap_elem; eauto). split; [congruence|]. congruence.
Qed.

Lemma catalog_distinct : NoDup (record_key <$> contracts s).
Proof using Hs.
  pose proof (us_catalog _ _ _ _ _ Hs) as Hsort. apply NoDup_alt. intros i j key Hi Hj.
  apply list_lookup_fmap_Some in Hi as (a & -> & Ea), Hj as (b & Hkey & Eb).
  destruct (Nat.lt_trichotomy i j) as [Hlt|[?|Hlt]]; [|done|]; exfalso.
  - pose proof (StronglySorted_lookup _ _ _ _ _ _ Hsort Hlt Ea Eb) as Hc. cbn in Hc. by rewrite Hkey, (compare_refl contract_key_compare) in Hc.
  - pose proof (StronglySorted_lookup _ _ _ _ _ _ Hsort Hlt Eb Ea) as Hc. cbn in Hc. by rewrite Hkey, (compare_refl contract_key_compare) in Hc.
Qed.

Lemma nft_hit_candidate (d : SeedDefinition Time) c n (h : DedupHit F) : nft_hit s (seed_id d) c n = Some h → (0 ≤ candidate_contract h)%Z.
Proof using Type.
  intros [_ [(shared & _ & Hh)|(_ & shared & _ & Hh)]]%nft_hit_alt; unfold share_hit in Hh;
    apply bind_Some in Hh as (k & _ & (e & _ & [= <-])%bind_Some); cbn; lia.
Qed.

Lemma finish_new (iterate : gmap (Z * Z) (SeedCandidateRelation F) → list (SeedCandidateRelation F)) c : traverses iterate → Reducer.finish iterate (new_accumulator c) = [].
Proof using Type.
  intros Hit. apply Permutation_nil. symmetry. unfold Reducer.finish, new_accumulator. cbn [relations].
  by rewrite finished_perm, fmap_empty, map_to_list_empty by done.
Qed.

Lemma build_prepared_plan_spec (manifest : SeedManifest Time) plan index shard_count :
  Forall2 (λ (e : SeedDefinition Time * nat) q, planned e.1 e.2 q) (found_seeds (manifest_seeds manifest)) (plan_seeds plan) →
  finds uris token_uri (mjoin (token_uri_values <$> plan_seeds plan)) shard_count (token_posting_refs index) (token_postings index) →
  finds uris image_uri (mjoin (image_uri_values <$> plan_seeds plan)) shard_count (image_posting_refs index) (image_postings index) →
  ∃ queries, build_prepared_plan plan index shard_count = Ok queries ∧
    Forall2 (λ q qs, prepared_queries (probe (token_uri_values q) (token_uri_evidence q) (token_posting_refs index))
      (probe (image_uri_values q) (image_uri_evidence q) (image_posting_refs index)) qs) (plan_seeds plan) queries.
Proof using Hs.
  intros Hplan Ht Hi. unfold build_prepared_plan. revert Ht Hi. generalize (mjoin (token_uri_values <$> plan_seeds plan)) (mjoin (image_uri_values <$> plan_seeds plan)).
  intros tokens images Ht Hi. induction Hplan as [|[d c] q es qs Hq _ (queries & IH & Hall)]; [by exists []; split; [|constructor]|]. cbn [try_map].
  destruct (build_prepared_query_spec d c q tokens images shard_count index Hq Ht Hi) as (qs' & -> & Hqs'). cbn [mbind fallible_bind]. rewrite IH.
  cbn [mbind fallible_bind]. eexists. split; [done|by constructor].
Qed.
End Facts.

(** ** The store of a load *)

Section Stored.
Context (stable_hash : list N → N) (b : ResidentBuilder) (t : Texts) (groups : list (list CompactRow)) (s : ResidentBaseStore).
Context (ids : UriNftIdentityStore) (uris : UriFeatureStore) (names : NameFeatureStore) (m : MetadataFeatureStore).
Context (Hb : finishable stable_hash b t) (Hrows : logical_rows b = mjoin groups) (Hone : Forall one_contract groups).
Context (Hst : stored b t groups s ids uris names m).

Lemma stored_group i : i < length (nfts ids) → ∃ c g j row, groups !! c = Some g ∧ g !! j = Some row ∧
  i = length (mjoin (take c groups)) + j ∧ logical_rows b !! i = Some row ∧ contract_id <$> nfts ids !! i = Some c.
Proof using Hrows Hst.
  destruct (stored_lengths _ _ _ _ _ _ _ _ Hst) as [-> _]. intros Hi. destruct (lookup_lt_is_Some_2 _ _ Hi) as [row Hrow].
  rewrite Hrows in Hrow. apply lookup_join in Hrow as (c & g & j & Hg & Hj & ->). exists c, g, j, row.
  destruct (stored_offsets _ _ _ _ _ _ _ _ Hst c g Hg) as (_ & _ & H). destruct (H j row Hj). by split_and!.
Qed.

Lemma stored_contract c : c < length (contracts s) → ∃ g rec, groups !! c = Some g ∧ contracts s !! c = Some rec ∧ contract_stored t groups names m c g rec.
Proof using Hst.
  rewrite (stored_length _ _ _ _ _ _ _ _ Hst). intros [g Hg]%lookup_lt_is_Some_2.
  destruct (stored_contracts _ _ _ _ _ _ _ _ Hst c g Hg) as (rec & ? & ?). eauto.
Qed.

Lemma stored_range c : c < length (contracts s) → ∃ a e, contract_offsets ids !! c = Some a ∧ contract_offsets ids !! (c + 1) = Some e ∧
  a ≤ e ≤ length (nfts ids) ∧ ∀ i, a ≤ i < e ↔ contract_id <$> nfts ids !! i = Some c.
Proof using Hrows Hst.
  intros (g & _ & Hg & _)%stored_contract. destruct (stored_offsets _ _ _ _ _ _ _ _ Hst c g Hg) as (Ha & He & Hin).
  exists (length (mjoin (take c groups))), (length (mjoin (take c groups)) + length g). split_and!; [done|done|lia| |].
  - destruct (stored_lengths _ _ _ _ _ _ _ _ Hst) as [-> _]. rewrite Hrows, <- (length_take_join groups c g Hg). apply length_take_le.
  - intros i. split.
    + intros [H1 H2]. destruct (lookup_lt_is_Some_2 g (i - length (mjoin (take c groups)))) as [row Hrow]; [lia|].
      destruct (Hin _ row Hrow) as [_ Hc]. by rewrite Nat.add_comm, Nat.sub_add in Hc by lia.
    + intros Hc. destruct (stored_group i) as (c' & g' & j & row & Hg' & Hj & -> & _ & Hc').
      { destruct (nfts ids !! i) eqn:E; [by eapply lookup_lt_Some|done]. }
      rewrite Hc in Hc'. injection Hc' as <-. rewrite Hg in Hg'. injection Hg' as <-. apply lookup_lt_Some in Hj. lia.
Qed.

Lemma stored_uri_store :
  (∀ c1 c2 r1 r2, c1 < c2 → contracts s !! c1 = Some r1 → contracts s !! c2 = Some r2 → contract_key_compare (record_key r1) (record_key r2) = Lt) →
  uri_store s ids uris names m.
Proof using All.
  intros Hsorted. destruct (stored_tables _ _ _ _ _ _ _ _ Hst) as (T1 & T2 & T3 & T4). destruct (stored_lengths _ _ _ _ _ _ _ _ Hst) as [L1 L2].
  pose proof (finishable_size _ _ _ Hb) as Hsize. unfold u32_max in Hsize. split; try done.
  - lia.
  - lia.
  - intros i identity Hi. destruct (stored_group i) as (c & g & j & row & Hg & _ & _ & _ & Hc); [by eapply lookup_lt_Some|].
    rewrite Hi in Hc. injection Hc as ->. rewrite (stored_length _ _ _ _ _ _ _ _ Hst). by eapply lookup_lt_Some.
  - apply stored_range.
  - intros i Hi. destruct (stored_group i Hi) as (c & g & j & row & _ & _ & _ & Hrow & _). unfold stored_key.
    rewrite (stored_nfts _ _ _ _ _ _ _ _ Hst), Hrow. cbn. pose proof (finishable_rows _ _ _ Hb) as Hin. rewrite Forall_lookup in Hin.
    destruct (Hin i row Hrow) as [[a ->] [k Hk] _ _]. cbn. rewrite Hk. eauto.
  - apply Hst.
  - apply Hst.
  - intros c (g & rec & _ & _ & Hrec)%stored_contract. destruct (stored_name _ _ _ _ _ _ _ Hrec) as (name & _ & -> & _). eauto.
  - intros c (g & rec & _ & _ & Hrec)%stored_contract. destruct (stored_profile _ _ _ _ _ _ _ Hrec) as (profile & -> & _ & Hp).
    exists profile. split; [done|]. intros p ->. destruct Hp as (own & -> & _). eauto.
  - apply StronglySorted_lookup_intro. intros i j x y Hij Hx Hy. by apply (Hsorted i j).
  - rewrite (stored_length _ _ _ _ _ _ _ _ Hst). pose proof (length_groups groups Hone) as Hl. rewrite <- Hrows in Hl. lia.
Qed.
End Stored.

(** What a load returns is a store that the stage can use. *)
Lemma load_uri_store `{ParallelSort} `{JsonText} stable_hash owner_hash estimate iterate sip_hash shards lanes k batches schedule documents :
  load_setting owner_hash iterate shards lanes k →
  load_input (mjoin batches) (mjoin (batch_inputs <$> documents)) →
  Forall (Forall valid_input) batches → scheduled owner_hash shards batches schedule →
  ∃ s ids uris names m, load_resident_store stable_hash estimate iterate sip_hash lanes k shards schedule documents = Ok s ∧
    uri_store s ids uris names m.
Proof.
  intros Hset Hin Hv Hsched. destruct (load_stored stable_hash owner_hash estimate iterate sip_hash shards lanes k batches schedule documents Hset Hin Hv Hsched)
    as (s & Hs & _ & _ & Hsorted & b2 & t & groups & ids & uris & names & m & Hfin & Hrows & Hone & Hst).
  exists s, ids, uris, names, m. split; [done|]. by apply (stored_uri_store stable_hash b2 t groups).
Qed.

(** Two contracts of Ethereum: a URI of 0xAB is the token URI of one NFT of 0xCD and the image URI of another. *)
Definition uri_row (address token : string) (token_uri image_uri : option string) (row : Z) : InputRow :=
  {| input_chain := Ethereum; contract_address := lit address; token_id := lit token; name_norm := None;
     token_uri_norm := lit <$> token_uri; image_uri_norm := lit <$> image_uri; metadata_json := None;
     source_order := {| file_ordinal := 0; file_row_number := row |} |}.

Definition uri_batches : list (list InputRow) :=
  [[uri_row "0xAB" "7" (Some "ipfs://x"%string) None 0; uri_row "0xCD" "1" (Some "ipfs://x"%string) None 1];
   [uri_row "0xCD" "2" None (Some "ipfs://x"%string) 2; uri_row "0xCD" "3" (Some "ipfs://y"%string) (Some "ipfs://x"%string) 3;
    uri_row "0xAB" "8" None (Some "ipfs://x"%string) 4]].
Definition uri_schedule : list (nat * list InputRow) := mjoin (batch_entries (λ _ _, 5%Z) 4 <$> uri_batches).

Lemma uri_input : @load_input pair_json (mjoin uri_batches) (mjoin (batch_inputs <$> [])).
Proof.
  split.
  - repeat constructor.
  - intros row Hin. apply list_elem_of_In in Hin. cbn in Hin.
    repeat (destruct Hin as [<-|Hin]; [split; [reflexivity|]; split; [unfold source_ok; cbn; lia|]; vm_compute; discriminate|]). done.
  - vm_compute. repeat constructor; set_solver.
  - intros input Hin. by apply elem_of_nil in Hin.
  - vm_compute. reflexivity.
Qed.

Lemma uri_valid : Forall (Forall valid_input) uri_batches.
Proof. repeat constructor. Qed.

Lemma uri_scheduled : scheduled (λ _ _, 5%Z) 4 uri_batches uri_schedule.
Proof. apply Permutation_refl. Qed.

Definition uri_load : fallible ResidentBaseStore :=
  @load_resident_store (λ _, 7%N) (λ _, 1%Z) pair_json stable_parallel_sort map_to_list (λ _, 7%N) 2 3 4 uri_schedule [].

Definition uri_seed : SeedManifest nat := {| generated_at := 0; manifest_seeds := [example_seed Ethereum 1 "0xab"] |}.

Definition identity_map_order : MapOrder := {| traverse := λ A, map_to_list; traverse_perm := λ A m, reflexivity _ |}.

Definition uri_sched : StageSchedule :=
  {| stage_lanes := 2; index_shapes _ := Fold; query_shapes _ := Split 1 Fold Fold; tail_shapes _ := Fold |}.

(** C40: The URI stage returns, whatever the lanes, the folds, the order of hash maps and the
    overlap with the next stage, and its relations are the reduction of exactly these hits:
    for every seed that the store has, every NFT of another contract that has a token URI of
    the seed is hit by it, or else by an image URI of the seed, with the first NFT of the
    seed that has the URI as evidence. *)
Theorem uri_stage_relations {F Time} `{!EqDecision F} `{!FloatOrder F} `{!UnstableSort} `{!MapOrder} s ids uris names metadata
    iterate sched index_shards (manifest : SeedManifest Time) overlap :
  uri_store s ids uris names metadata → traverses iterate → 0 < index_shards → 0 < stage_lanes sched →
  (Z.of_nat (length (features uris)) * Z.of_nat (stage_lanes sched) < 2 ^ 64)%Z → NoDup (seed_id <$> manifest_seeds manifest) →
  ∃ relations, uri_stage (F:=F) iterate sched index_shards s manifest overlap = Ok relations ∧
    reduce_hits iterate (contracts s) (uri_hits s manifest) = Some relations.
Proof.
  intros Hs Hit Hshards Hlanes Hsize Hnd.
  destruct (build_raw_plan_spec s ids uris names metadata Hs manifest) as (plan & Hplan & Hseeds & _). unfold uri_stage. rewrite Hplan. cbn [mbind fallible_bind].
  assert (Hreduce : ∀ hits a, Reduction.built (contracts s) hits a → (∀ h, h ∈ hits ↔ h ∈ uri_hits s manifest) →
    reduce_hits iterate (contracts s) (uri_hits s manifest) = Some (Reducer.finish iterate a)).
  { intros hits a Hb Hset. eapply built_finish; [| | | |exact Hit|exact Hit|exact Hb|exact Hset].
    - by eapply catalog_distinct.
    - by eapply uri_hits_catalogued.
    - intros h (d & c & n & _ & _ & Hh)%(elem_of_uri_hits s ids uris names metadata Hs). by apply nft_hit_candidate in Hh.
    - by eapply uri_hits_agree. }
  case_decide as Hempty.
  - exists []. split; [done|]. rewrite Hempty in Hseeds. apply Forall2_nil_inv_r in Hseeds.
    rewrite (Hreduce [] (new_accumulator (contracts s))).
    + by rewrite finish_new.
    + constructor.
    + intros h. split; [by intros ?%elem_of_nil|]. intros (d & c & n & Hd & _)%(elem_of_uri_hits s ids uris names metadata Hs).
      rewrite Hseeds in Hd. by apply elem_of_nil in Hd.
  - rewrite (us_identity _ _ _ _ _ Hs), (us_features _ _ _ _ _ Hs). cbn [ok_or mbind fallible_bind].
    destruct (build_uri_index_spec sched index_shards uris plan Hshards Hlanes) as (index & -> & Ht & Hi); [|done|].
    { rewrite (us_length _ _ _ _ _ Hs). apply Hs. }
    cbn [mbind fallible_bind].
    destruct (build_prepared_plan_spec s ids uris names metadata Hs manifest plan index index_shards Hseeds Ht Hi) as (queries & -> & Hqueries).
    cbn [mbind fallible_bind].
    destruct (run_stage s ids uris names metadata Hs iterate Hit sched index_shards Hlanes manifest plan index queries Hseeds Ht Hi Hqueries overlap)
      as (a & Hrun & hits & Hb & Hh).
    cbn zeta in Hrun |- *. apply bind_Ok in Hrun as (relations & -> & Hrun). cbn [mbind fallible_bind]. rewrite Hrun. cbn [mbind fallible_bind].
    eexists. split; [done|]. apply (Hreduce hits); [done|]. intros h. rewrite Hh.
    by rewrite (hit_has_work s ids uris names metadata Hs index_shards manifest plan index queries Hseeds Ht Hi Hqueries).
Qed.

Lemma uri_stage_relations_witness :
  let order := {| total_cmp := Z.compare; total_cmp_laws := Z_compare_laws; total_cmp_eq := Z_compare_eq |} in
  ∃ s relations, uri_load = Ok s ∧
    @uri_stage Z _ order stable_sort identity_map_order (λ m, (map_to_list m).*2) uri_sched 3 nat s uri_seed true = Ok relations ∧
    (λ h : DedupHit Z, (seed_contract h, candidate_contract h, hit_dimension h)) <$> uri_hits s uri_seed =
      [(0, 1, TokenUriDimension); (0, 1, ImageUriDimension); (0, 1, ImageUriDimension)]%Z ∧
    (λ r, (relation_key r, length (relation_evidence r))) <$> relations = [((9, 1)%Z, 3%nat)].
Proof.
  intros order. destruct (@load_uri_store stable_parallel_sort pair_json pair_json_text (λ _, 7%N) (λ _ _, 5%Z) (λ _, 1%Z) map_to_list
    (λ _, 7%N) 4 2 3 uri_batches uri_schedule [] example_setting uri_input uri_valid uri_scheduled)
    as (s & ids & uris & names & m & Hload & Hs).
  assert (Hall : match uri_load with
    | Ok s => length ∘ features <$> uri_features s = Some 5%nat ∧
        (λ h : DedupHit Z, (seed_contract h, candidate_contract h, hit_dimension h)) <$> uri_hits s uri_seed =
          [(0, 1, TokenUriDimension); (0, 1, ImageUriDimension); (0, 1, ImageUriDimension)]%Z ∧
        match @uri_stage Z _ order stable_sort identity_map_order (λ m, (map_to_list m).*2) uri_sched 3 nat s uri_seed true with
        | Ok relations => (λ r, (relation_key r, length (relation_evidence r))) <$> relations = [((9, 1)%Z, 3%nat)]
        | _ => False
        end
    | _ => False
    end) by (vm_compute; split_and!; reflexivity).
  change (uri_load = Ok s) in Hload. rewrite Hload in Hall. destruct Hall as (Hlen & Hhits & Hout).
  destruct (@uri_stage_relations Z nat _ order stable_sort identity_map_order s ids uris names m (λ m, (map_to_list m).*2) uri_sched 3 uri_seed true Hs)
    as (relations & Hrun & Hreduce); [intros map; reflexivity|cbn; lia|cbn; lia| | |].
  - pose proof (us_features _ _ _ _ _ Hs) as Hf. rewrite Hf in Hlen. injection Hlen as ->. cbn. lia.
  - apply (bool_decide_unpack _). vm_compute. exact I.
  - exists s, relations. split; [exact Hload|]. split; [exact Hrun|]. split; [exact Hhits|]. rewrite Hrun in Hout. exact Hout.
Defined.
